(* ===== verification/_CoqProject ===== *)
-Q . S2P
Prelude.v
Hlc.v
Clock.v
Quorum.v
Tracker.v
RaftPb.v
ConfChange.v
LogTypes.v
Unstable.v
Storage.v
RaftLog.v
LogApply.v
Raft.v
RawNode.v
RaftInv.v
RaftCommit.v
RaftElect.v
Cluster.v
StoreLiveness.v
SupportBatch.v
SupportFabric.v
Encoding.v
EncodingOrder.v
EncodingBytes.v
EncodingSafe.v
Keys.v
KeysOrder.v
KeysSpec.v
SupportDisk.v
NodeLiveness.v
Lease.v
LeaseBuild.v
ReadSummary.v
SummaryValues.v
LeaseApply.v
LeaseSystem.v
LeaseDisjoint.v
LeaseSwitch.v
TsCache.v
TsCachePage.v
TsCacheSerial.v
TsCacheAdd.v
TsCacheRange.v
TsCacheFits.v
TsCacheSkl.v
TsCacheSpec.v
Cache.v
EngineKeys.v
EngineKeysSpec.v
ScanResults.v
RangeKeys.v
Requests.v
ReplicaTsCache.v
ReplicaTsCacheSpec.v
ReadHandover.v
BatchReads.v
TsProtect.v
TsExamples.v
