(* ===== verification/Prelude.v ===== *)
(** * A verification of the replication core, the leases and the keys of CockroachDB

    The repository is a distributed SQL database. Every range of its key space is
    replicated by a raft group, ordered in time by hybrid logical clocks; the stores
    that hold the replicas promise each other support. One replica of a range holds its
    lease, serves requests, and remembers in a timestamp cache what was read, so that
    nothing is written below it. Everything is stored under keys whose bytes sort like
    the values in them. This library models that core, the packages src/pkg/raft (with
    quorum, tracker, confchange, raftpb and raftstoreliveness), src/pkg/util/hlc and
    src/pkg/kv/kvserver/storeliveness; the leases and what was read under them, of
    src/pkg/kv/kvserver the packages liveness, leases, tscache, readsummary and the
    replica's use of them; and the keys, src/pkg/util/encoding, src/pkg/keys and the
    versioned keys of src/pkg/storage; and it proves what makes them correct.

    ** The program and its model

    A replica owns a [raft] (raft.go), a state machine that is stepped with messages
    and ticks. It keeps its log in a [raftLog] (log.go), which is split between the
    [Storage] (storage.go) and the entries and snapshot not yet written to it
    ([unstable], log_unstable.go). A leader tracks every follower in a [Progress]
    with a window of [Inflights] (tracker/), counts acknowledgements and votes with
    the majorities of a [JointConfig] (quorum/), and changes the membership with a
    [Changer] (confchange/). A [RawNode] (rawnode.go) wraps a raft and hands over in
    [Ready] structs what is to be persisted, sent and applied. Leaders may be
    fortified by store liveness: every store runs a [SupportManager] (storeliveness/)
    that requests support from other stores and provides it to them, for epochs and
    until expirations that are timestamps of the clock (hlc/). Its records, the raft
    logs, the metadata of ranges, the locks and the rows of tables have keys (keys/),
    which are built from order-preserving encodings (util/encoding/).

    The replica that holds the lease of a range serves its requests. A lease expires at
    a time, or is valid as long as the node's liveness record, which the node renews and
    other nodes may end (liveness/). A replica builds a lease from the previous one
    (leases/), proposes it, and the check below raft decides whether it applies. The
    leaseholder adds what requests read to the timestamp cache of its store (tscache/),
    moves writes above it (replica_tscache.go), and hands a summary of it over with the
    lease (readsummary/).

    Each file models a part of the program; a definition has the name of the Go
    function, with the receiver type in front where there is one ([raftLog_slice] is
    the method slice of raftLog; the methods of raft have no prefix).

    - Prelude: machine integers, panics and errors, slices, record updates, the
      tactics and hint databases of the library.
    - Hlc (timestamp.go): timestamps, their order, successor and predecessor.
    - Clock (hlc.go): the clock as a concurrent object: the atomic accesses and
      critical sections of its methods are the steps of a transition system.
    - Quorum (quorum/majority.go, joint.go, config.go): commit index, vote result and
      lead support expiration of majority and joint configurations.
    - Tracker (tracker/): the in-flight ring buffer, the progress state machine, the
      progress and election trackers.
    - RaftPb (raftpb/): entries, snapshots, messages, configuration changes.
    - ConfChange (confchange/confchange.go, restore.go): membership changes.
    - LogTypes (types.go, util.go): entry ids, log slices, snapshots, size limits.
    - Unstable (log_unstable.go), Storage (storage.go: the interface as a record of
      operations, its contract as the class [StorageLaws], and MemoryStorage),
      RaftLog (log.go), LogApply (the reading, applying and persisting of the log).
    - Raft (raft.go): the whole state machine, from [newRaft] to every branch of the
      three step functions.
    - RawNode (rawnode.go, node.go, bootstrap.go, status.go): the Ready loop, with and
      without asynchronous storage writes, bootstrapping and status.
    - RaftInv, RaftCommit, RaftElect: the theorems on one peer; RaftElect shows what
      a step does to votes and leadership.
    - Cluster: peers with their disks, pending writes and crashes over a network.
    - StoreLiveness (storeliveness/requester_state.go, supporter_state.go,
      support_manager.go, persist.go): both sides of support, their batched updates
      and the loop of the manager.
    - SupportBatch, SupportFabric: its theorems, on one store and on stores with
      their disks, clocks and crashes over a network.
    - Encoding (util/encoding/encoding.go, complement_safe.go, complement_fast.go):
      integers, byte strings and times in keys, their lengths, the types of tags.
    - EncodingOrder (the interface [OrderedCodec] and the integers), EncodingBytes
      (strings, times, sequences), EncodingSafe (the interface [LocalDecoder],
      truncated input, lengths): the theorems on encodings.
    - Keys (keys/keys.go, constants.go, sql.go, keysbase/, roachpb/data.go and
      tenant.go): the keys of stores, ranges, locks, addressing records, tenants, tables
      and column families, how they are built, decoded and resolved to addresses.
    - KeysOrder (the order of keys, successors, spans of prefixes), KeysSpec: the
      theorems on keys.
    - SupportDisk (storeliveness/persist.go): the disk of StoreLiveness implemented by
      keys of an engine.
    - NodeLiveness (liveness/): the liveness records, their cache and their updates.
    - Lease (roachpb/data.go, kvserverpb/, leases/status.go), LeaseBuild (leases/build.go,
      verify.go), LeaseApply (batcheval, kvserverbase/forced_error.go, app_batch.go,
      replica_proposal.go): leases, how they are requested, evaluated and applied.
    - LeaseSystem: the replicas of a range that contend for its lease, composed of these;
      LeaseDisjoint and LeaseSwitch: its theorems and two of its runs.
    - ReadSummary (readsummary/rspb/), SummaryValues: summaries of reads.
    - TsCache (tscache/interval_skl.go, skl_impl.go): the timestamp cache; TsCachePage,
      TsCacheSerial, TsCacheAdd, TsCacheRange, TsCacheFits, TsCacheSkl, TsCacheSpec: what
      pages, skip lists and the cache mean, from the bottom up.
    - Cache (tscache/cache.go): the interface of the cache as a class with its laws, which
      the skip lists satisfy.
    - EngineKeys (storage/mvcc_key.go, engine_key.go, the comparers of pebble.go,
      enginepb/decode.go, the results of pebble_mvcc_scanner.go), EngineKeysSpec,
      ScanResults, RangeKeys: versioned keys, the results of scans, range keys.
    - Requests (kv/kvpb/api.go, batch.go): requests, their flags, the keys of responses.
    - ReplicaTsCache (replica_tscache.go, the parts of replica_send.go and
      store_merge.go that concern the cache): what a replica does with the cache, for
      any implementation of the interface; ReplicaTsCacheSpec, ReadHandover, BatchReads:
      its theorems; TsProtect: a range whose lease moves between stores; TsExamples: the
      theorems at concrete batches.

    ** Conventions

    uint64 values are integers of Z kept in range by [u64]; [a +u b] is the wrapping
    sum. int64 and int32 arithmetic of timestamps wraps with [int64] and [int32].
    The Go type int (lengths, ticks) is Z. A call returns or panics ([outcome]); a
    Go pair (T, error) is a sum. The methods of [raft] are actions of a state
    monad over [outcome] ([M]). Nil-able Go maps are options of finite sets, other
    maps are gmap; what depends on the iteration order of a Go map takes the
    order as an argument and is proved independent of it. A pointer to a Progress is
    the key under which the tracker holds it. A byte is an integer in [0, 256) and a key
    a list of them; that keys may share a backing array is not modelled.

    The generated protobuf code (size, encoding, decoding), the random source, the
    store liveness fabric, the cluster version and the wall clock are parameters: the
    record [Env] of Raft, [Size] arguments elsewhere, and the readings in the steps
    of Clock. Answers that vary over time come from an oracle indexed by the number of
    queries made. The skip list in an arena of the timestamp cache (the package
    arenaskl) is the class [Arenaskl] with its laws, and sorting of the standard library
    a function with what it documents as hypotheses.

    ** Theorems

    - Quorum: the commit index is the largest index acknowledged by a majority of
      each half; lost votes cannot be won; winning quorums intersect each other and
      the acknowledgers of every committed index.
    - Tracker: the ring buffer refines a bounded queue; Match < Next and the bounds of
      the window are invariants; rejections lower Next correctly.
    - ConfChange: every change yields a well-formed configuration whose quorums
      intersect those of the previous one; Simple, EnterJoint and LeaveJoint implement
      the role changes they are given; restoring a ConfState gives back the
      configuration that reported it.
    - LogTypes, Unstable, Storage, RaftLog, LogApply: the log, wherever its parts are,
      refines one run of entries ([raftLog_rep], [raftLog_abs]) through reads, appends,
      persisting, applying and snapshots; committed entries are never overwritten.
    - RaftInv: over every execution of a peer its persistent state moves forward only,
      it grants at most one vote per term, messages that need durability are held
      back, and its role is consistent.
    - RaftCommit: the commit rule, the vote rule, the leases, the termination of the
      replication loop, and what a restarted peer remembers.
    - RawNode: Ready hands over everything once, and durable state before what
      depends on it.
    - Cluster: votes on the network are on disk, and at most one leader is elected
      per term, whatever messages are lost and whichever peers crash.
    - SupportBatch: a batch of store liveness messages is its messages in turn.
    - SupportFabric: support that a store believes to have is provided until it
      expires, whatever messages, writes and stores fail; no assertion fails; support
      can be had again after two rounds; a response of an unknown store panics.
    - Hlc, Clock: the order of timestamps, and causality of the clock under any
      interleaving of calls.
    - EncodingOrder, EncodingBytes, EncodingSafe: encodings are inverted by their
      decoders whatever follows them and sort like the values, alone and in sequence;
      decoders are total on arbitrary bytes and reject truncated encodings; the length
      functions are exact, except for a panic on truncated strings.
    - KeysOrder, KeysSpec: the keys with a prefix are the span up to its PrefixEnd; raft
      log keys, lock table keys, rows and tenants stay in their spans, in order, and
      decode to what they were built from; resolving addresses terminates; the span of
      a batch covers its requests.
    - SupportDisk: the disk of StoreLiveness is refined by the engine's keys.
    - NodeLiveness: a decommissioned node stays so, epochs and expirations only grow,
      and a flag of the cache that is never set.
    - LeaseDisjoint: a replica that has lost its lease without knowing serves nothing at
      or above the start of the next lease, for strictly bounded clock offsets, without
      restarts, and for the changes of the lease's type that [safe_switch] allows;
      LeaseSwitch shows that the others are not safe.
    - LeaseApply: a command applies at most once, under the lease it was proposed under.
    - ReadSummary: merging summaries joins what they protect.
    - TsCacheSpec: the timestamp cache never forgets a read of a key shorter than the
      limit, refines a map from keys to values and never fails; a read of a longer key
      can be lost. Operations run one at a time.
    - BatchReads: what a batch read is recorded; a finished transaction's record cannot
      be created again. ReadHandover: leases and merges keep what was read protected.
      TsProtect: in every history of a range, writes go above the reads of others.
    - EngineKeysSpec: the engine's order is the order of versioned keys, which are decoded
      as they were encoded; ScanResults: clients decode what scans put; RangeKeys: the
      searches in versions; Requests: the flags are consistent.

    ** Bounds and fuel

    Recursion that is not structural has fuel that is proved to suffice:
    [findConflict_loop] one more than the index, [scan_loop] one more than the number of
    entries of the range (every page has at least one), [send_loop] the number of
    entries not sent yet plus three (every message but the last two carries one),
    [FreeLE_loop] the number of in-flight messages; the loops that search for escape
    bytes ([escape_loop], [decode_loop], [validate_loop], [length_loop]) and [addr_loop]
    one more than the length of the buffer, which every turn shortens. [Step] calls itself once, through
    [appliedTo], which [Step_unfold] shows to be enough. [mergeSpans] has twice the number
    of spans, since every second turn drops one; adding to the timestamp cache 27, which
    is more than the number of times a page can double; the results of a scan 33, which
    doubles a buffer to any length. Theorems about log indexes
    assume them below 2^64 - 1, and those about terms leave room for one election;
    the logical part of the clock has room for one tick.

    ** Not modelled, and what is planned next

    Of the modelled packages: the goroutine and channels of Node (node.go), the string
    and JSON formats, SleepUntil and the jump monitor of the clock, and the transport of
    store liveness; the heartbeat loop, the callbacks and the metrics of node liveness;
    the tree implementation of the timestamp cache, which is not the default, the
    concurrency of its skip lists, and slices that share an array; of replica_tscache.go
    and its callers, what is counted and logged. The reads of a disk are what was
    written to it; in SupportFabric a batch takes its writes, though it may fail to
    commit. Next: log matching and state machine safety on top of Cluster; latches and
    the lock table. Of the encodings, floats, decimals, durations, bit arrays, JSON,
    geospatial and array keys, the value encodings and the pretty printer are not
    modelled. The SQL layers, the storage engine, the servers and the tools of the
    repository are outside of this library. *)
From Stdlib Require Export ZArith Lia.
From stdpp Require Export base option strings gmap sorting list.

#[global] Open Scope Z_scope.

(** * Go values *)

(** ** Unsigned 64-bit integers

    A Go [uint64] is a [Z] in [[0, 2^64)]; addition and subtraction wrap. *)

Declare Scope go_scope.
Delimit Scope go_scope with go.
#[global] Open Scope go_scope.

Definition u64_modulus : Z := 18446744073709551616.
Definition MaxUint64 : Z := 18446744073709551615.
Definition u64 (z : Z) : Z := z mod u64_modulus.
Definition is_u64 (z : Z) : Prop := 0 <= z < u64_modulus.

Notation "a +u b" := (u64 (a + b)) (at level 50, left associativity) : go_scope.
Notation "a -u b" := (u64 (a - b)) (at level 50, left associativity) : go_scope.

#[global] Instance is_u64_dec z : Decision (is_u64 z).
Proof. unfold is_u64. apply _. Defined.

(** ** Panics

    A Go call either returns ([Ret]) or panics ([Panic]); a function of type
    [(T, error)] returns a value of [error + T]. *)

Inductive outcome (A : Type) : Type :=
| Ret (a : A)
| Panic (msg : string).
Arguments Ret {A} a.
Arguments Panic {A} msg.

Definition obind {A B} (m : outcome A) (k : A -> outcome B) : outcome B :=
  match m with
  | Ret a => k a
  | Panic msg => Panic msg
  end.

(** Error values: the sentinel errors of pkg/raft, and formatted errors (the
    format string and its integer arguments). *)
Inductive error : Type :=
| ErrCompacted
| ErrSnapOutOfDate
| ErrUnavailable
| ErrSnapshotTemporarilyUnavailable
| ErrProposalDropped
| ErrStepLocalMsg
| ErrStepPeerNotFound
| errBreak
| Errorf (fmt : string) (args : list Z).

#[global] Instance error_eq_dec : EqDecision error.
Proof. solve_decision. Defined.

Notation "'let!' x := m 'in' k" := (obind m (fun x => k))
  (at level 10, x name, m at level 150, k at level 200) : go_scope.
Notation "'let!' ' p := m 'in' k" := (obind m (fun p => k))
  (at level 10, p strict pattern, m at level 150, k at level 200) : go_scope.
(** [let? x := m in k]: the idiom [x, err := m; if err != nil { return err }]. *)
Definition ebind {E A B} (m : outcome (E + A)) (k : A -> outcome (E + B)) : outcome (E + B) :=
  obind m (fun r => match r with inl e => Ret (inl e) | inr x => k x end).

Notation "'let?' x := m 'in' k" := (ebind m (fun x => k))
  (at level 10, x name, m at level 150, k at level 200) : go_scope.
Notation "'let?' ' p := m 'in' k" := (ebind m (fun p => k))
  (at level 10, p strict pattern, m at level 150, k at level 200) : go_scope.

(** ** Slices *)

Definition len {A} (l : list A) : Z := Z.of_nat (length l).

(** [s[i]] *)
Definition slice_get {A} (l : list A) (i : Z) : outcome A :=
  if bool_decide (0 <= i) then
    match l !! Z.to_nat i with
    | Some x => Ret x
    | None => Panic "index out of range"
    end
  else Panic "index out of range".

(** [s[i:]] *)
Definition slice_from {A} (l : list A) (i : Z) : outcome (list A) :=
  if bool_decide (0 <= i <= len l) then Ret (drop (Z.to_nat i) l)
  else Panic "slice bounds out of range".

(** [s[:i]] *)
Definition slice_to {A} (l : list A) (i : Z) : outcome (list A) :=
  if bool_decide (0 <= i <= len l) then Ret (take (Z.to_nat i) l)
  else Panic "slice bounds out of range".

(** [s[lo:hi]] *)
Definition slice_range {A} (l : list A) (lo hi : Z) : outcome (list A) :=
  if bool_decide (0 <= lo <= hi /\ hi <= len l) then
    Ret (take (Z.to_nat (hi - lo)) (drop (Z.to_nat lo) l))
  else Panic "slice bounds out of range".

(** [s[i] = x] *)
Definition slice_set {A} (l : list A) (i : Z) (x : A) : outcome (list A) :=
  if bool_decide (0 <= i < len l) then Ret (<[Z.to_nat i := x]> l)
  else Panic "index out of range".

(** ** Struct updates

    [r <| f := v |>] is [r] with the field [f] assigned [v]. A record type
    declares its eta-expansion as an instance of [Eta]; the setter of each
    projection is derived from it. *)

Class Eta (R : Type) : Type := eta_expand : R -> R.
Class Setter {R T : Type} (proj : R -> T) : Type := set_field : T -> R -> R.

Ltac derive_setter :=
  match goal with
  | |- @Setter ?R ?T ?proj =>
    let e := constr:(_ : Eta R) in
    let e := eval hnf in e in
    let v := fresh "v" in
    let r := fresh "r" in
    intros v r;
    let b := eval cbv beta in (e r) in
    let p := eval pattern (proj r) in b in
    match p with
    | ?g _ => let t := eval cbv beta in (g v) in exact t
    end
  end.

#[global] Hint Extern 1 (@Setter _ _ _) => derive_setter : typeclass_instances.

#[warnings="-postfix-notation-not-level-1"]
Notation "r <| f := v |>" := (set_field (proj := f) v r)
  (at level 12, left associativity, f at level 9, v at level 200) : go_scope.

(** * Lemmas on Go values *)

Create HintDb go.

(** Turns boolean comparisons in the hypotheses into propositions. *)
Ltac bool_to_prop :=
  repeat match goal with
  | H : negb _ = true |- _ => apply negb_true_iff in H
  | H : negb _ = false |- _ => apply negb_false_iff in H
  | H : (_ && _) = true |- _ => apply andb_true_iff in H; destruct H
  | H : (_ || _) = false |- _ => apply orb_false_iff in H; destruct H
  | H : (_ <=? _) = true |- _ => apply Z.leb_le in H
  | H : (_ <=? _) = false |- _ => apply Z.leb_gt in H
  | H : (_ <? _) = true |- _ => apply Z.ltb_lt in H
  | H : (_ <? _) = false |- _ => apply Z.ltb_ge in H
  | H : (_ =? _) = true |- _ => apply Z.eqb_eq in H
  | H : (_ =? _) = false |- _ => apply Z.eqb_neq in H
  | H : (_ >=? _) = _ |- _ => rewrite Z.geb_leb in H
  | H : (_ >? _) = _ |- _ => rewrite Z.gtb_ltb in H
  | H : bool_decide _ = true |- _ => apply bool_decide_eq_true in H
  | H : bool_decide _ = false |- _ => apply bool_decide_eq_false in H
  end.

Ltac blia := bool_to_prop; lia.

Ltac u64_lia :=
  unfold u64, is_u64, MaxUint64, u64_modulus in *;
  Z.to_euclidean_division_equations; lia.

Lemma u64_small z : is_u64 z -> u64 z = z.
Proof. intros H. apply Z.mod_small. exact H. Qed.

Lemma u64_is_u64 z : is_u64 (u64 z).
Proof. apply Z.mod_pos_bound. reflexivity. Qed.

Lemma u64_add_u64_l a b : u64 (u64 a + b) = u64 (a + b).
Proof. apply Z.add_mod_idemp_l. discriminate. Qed.

Lemma u64_sub_u64 a b : u64 (u64 a - u64 b) = u64 (a - b).
Proof. unfold u64. by rewrite <- Zminus_mod. Qed.

#[export] Hint Resolve u64_is_u64 : go.

Lemma len_nonneg {A} (l : list A) : 0 <= len l.
Proof. unfold len. lia. Qed.

Lemma len_app {A} (l k : list A) : len (l ++ k) = len l + len k.
Proof. unfold len. rewrite length_app. lia. Qed.

Lemma len_cons {A} (x : A) l : len (x :: l) = 1 + len l.
Proof. unfold len. simpl. lia. Qed.

Lemma filter_all {A} (P : A -> Prop) `{!forall x, Decision (P x)} l : Forall P l -> filter P l = l.
Proof. induction 1 as [|x l Hx _ IH]; [done|]. rewrite filter_cons_True by done. by rewrite IH. Qed.

Lemma filter_none {A} (P : A -> Prop) `{!forall x, Decision (P x)} l : Forall (fun x => ~ P x) l -> filter P l = [].
Proof. induction 1 as [|x l Hx _ IH]; [done|]. by rewrite filter_cons_False. Qed.

Lemma slice_get_Some {A} (l : list A) i x : 0 <= i -> l !! Z.to_nat i = Some x -> slice_get l i = Ret x.
Proof. intros Hi Hx. unfold slice_get. by rewrite bool_decide_true, Hx. Qed.

Lemma slice_get_total `{Inhabited A} (l : list A) i :
  0 <= i < len l -> slice_get l i = Ret (l !!! Z.to_nat i).
Proof.
  intros Hi. apply slice_get_Some; [lia|]. apply list_lookup_lookup_total_lt. unfold len in Hi. lia.
Qed.

Lemma slice_set_ok {A} (l : list A) i x : 0 <= i < len l -> slice_set l i x = Ret (<[Z.to_nat i := x]> l).
Proof. intros Hi. unfold slice_set. by rewrite bool_decide_true. Qed.

Lemma Ret_inj {A} (a b : A) : Ret a = Ret b -> a = b.
Proof. by intros [= <-]. Qed.

Lemma obind_Ret {A B} (m : outcome A) (k : A -> outcome B) b :
  obind m k = Ret b <-> exists a, m = Ret a /\ k a = Ret b.
Proof.
  destruct m as [a|msg]; simpl; split.
  - intros H. by exists a.
  - intros (a' & Ha & H). by injection Ha as <-.
  - discriminate.
  - intros (a' & Ha & _). discriminate Ha.
Qed.

(** Runs the monadic hypotheses that are known to return. *)
Ltac inv_ret :=
  repeat match goal with
  | H : obind _ _ = Ret _ |- _ => apply obind_Ret in H; destruct H as (? & ? & H)
  | H : Ret _ = Ret _ |- _ => injection H as H; try subst
  | H : Panic _ = Ret _ |- _ => discriminate H
  | H : Ret _ = Panic _ |- _ => discriminate H
  end.

(** * Counting and quorum lemmas on lists *)

Definition countp {A} (P : A -> Prop) {Pdec : forall x, Decision (P x)} (l : list A) : Z := len (filter P l).

Section count.
Context {A : Type} (P : A -> Prop) {Pdec : forall x, Decision (P x)}.

Lemma countp_nil : countp P [] = 0.
Proof. reflexivity. Qed.

Lemma countp_cons x l : countp P (x :: l) = (if decide (P x) then 1 else 0) + countp P l.
Proof.
  unfold countp, len. rewrite filter_cons. case_decide; simpl; lia.
Qed.

Lemma countp_app l k : countp P (l ++ k) = countp P l + countp P k.
Proof. unfold countp, len. rewrite filter_app, length_app. lia. Qed.

Lemma countp_bounds l : 0 <= countp P l <= len l.
Proof. unfold countp, len. pose proof (length_filter P l). lia. Qed.

Lemma countp_perm l k : l ≡ₚ k -> countp P l = countp P k.
Proof. intros H. unfold countp, len. by rewrite H. Qed.

Lemma countp_all l : (forall x, x ∈ l -> P x) -> countp P l = len l.
Proof.
  induction l as [|x l IH]; intros Hall; [reflexivity|].
  rewrite countp_cons, IH by (intros; apply Hall; set_solver).
  rewrite decide_True by (apply Hall; set_solver). unfold len. simpl. lia.
Qed.

Lemma countp_none l : (forall x, x ∈ l -> ~ P x) -> countp P l = 0.
Proof.
  induction l as [|x l IH]; intros Hall; [reflexivity|].
  rewrite countp_cons, IH by (intros; apply Hall; set_solver).
  rewrite decide_False by (apply Hall; set_solver). lia.
Qed.
End count.

Lemma countp_impl {A} (P Q : A -> Prop) {Pdec : forall x, Decision (P x)} {Qdec : forall x, Decision (Q x)} l :
  (forall x, x ∈ l -> P x -> Q x) -> countp P l <= countp Q l.
Proof.
  induction l as [|x l IH]; intros Himp; [reflexivity|].
  rewrite !countp_cons. pose proof (Himp x ltac:(set_solver)).
  assert (countp P l <= countp Q l) by (apply IH; intros; apply Himp; set_solver).
  repeat case_decide; (lia || tauto).
Qed.

Lemma countp_ext {A} (P Q : A -> Prop) {Pdec : forall x, Decision (P x)} {Qdec : forall x, Decision (Q x)} l :
  (forall x, x ∈ l -> P x <-> Q x) -> countp P l = countp Q l.
Proof.
  intros H. apply Z.le_antisymm; apply countp_impl; intros x Hx; by apply H.
Qed.

(** Two majorities of the same list share an element. *)
Lemma majority_overlap {A} (P Q : A -> Prop) {Pdec : forall x, Decision (P x)} {Qdec : forall x, Decision (Q x)} l :
  len l < countp P l + countp Q l -> exists x, x ∈ l /\ P x /\ Q x.
Proof.
  induction l as [|x l IH]; intros H.
  - unfold countp, len in H. simpl in H. lia.
  - rewrite !countp_cons in H. unfold len in H. simpl in H.
    destruct (decide (P x)), (decide (Q x));
      try (exists x; split; [by left|done]);
      (destruct IH as (y & Hy & HPQ); [unfold len; lia|exists y; split; [by right|done]]).
Qed.

(** In a sorted list, the element at [pos] bounds exactly those values that at
    least the last [length l - pos] elements reach. *)
Lemma sorted_rank {A} (R : relation A) `{!RelDecision R, !PartialOrder R, !Total R} (l : list A) pos x y :
  StronglySorted R l -> l !! pos = Some x ->
  R y x <-> len l - Z.of_nat pos <= countp (R y) l.
Proof.
  intros Hs Hx. pose proof (list_elem_of_lookup_2 _ _ _ Hx) as Hin.
  pose proof (take_drop_middle _ _ _ Hx) as Hsplit.
  assert (len l = Z.of_nat pos + 1 + len (drop (S pos) l)) as Hlen.
  { unfold len. apply lookup_lt_Some in Hx. rewrite length_drop. lia. }
  rewrite <- Hsplit in Hs |- *. rewrite countp_app, countp_cons.
  apply StronglySorted_app in Hs as (Hle & Hst & Hsd).
  apply StronglySorted_inv in Hsd as [_ Hd]. rewrite Forall_forall in Hd.
  rewrite Hsplit. split.
  - intros Hyx. rewrite decide_True by done.
    rewrite (countp_all (R y) (drop _ _)); [pose proof (countp_bounds (R y) (take pos l)); lia|].
    intros z Hz. transitivity x; [done|]. by apply Hd.
  - intros Hcount. destruct (decide (R y x)) as [|Hn]; [done|exfalso].
    rewrite (countp_none (R y) (take pos l)) in Hcount.
    + pose proof (countp_bounds (R y) (drop (S pos) l)). lia.
    + intros z Hz Hyz. apply Hn. transitivity z; [done|].
      apply Hle; set_solver.
Qed.
