(* ===== verification/Hlc.v ===== *)
(** * Hybrid logical clock timestamps (src/pkg/util/hlc/timestamp.go)

    [Timestamp] is the pair (wall time, logical) of timestamp.proto. The
    comparison, successor and predecessor functions are translated one by one;
    the theorems show that the comparisons agree with one total order on
    timestamps and that [Next] and [Prev] are the successor and predecessor of
    that order, each panicking exactly at the end of the range. *)

From S2P Require Import Prelude.

Definition MaxInt64 : Z := 9223372036854775807.
Definition MaxInt32 : Z := 2147483647.

(** Conversion to a signed integer of the given width, as Go wraps it. *)
Definition int64 (z : Z) : Z := (z + 9223372036854775808) mod 18446744073709551616 - 9223372036854775808.
Definition int32 (z : Z) : Z := (z + 2147483648) mod 4294967296 - 2147483648.

Record Timestamp : Type := mkTimestamp { WallTime : Z; Logical : Z }.

#[global] Instance Timestamp_eq_dec : EqDecision Timestamp.
Proof. solve_decision. Defined.

Definition MaxTimestamp : Timestamp := mkTimestamp MaxInt64 MaxInt32.
Definition MinTimestamp : Timestamp := mkTimestamp 0 1.

Definition Timestamp_EqOrdering (t s : Timestamp) : bool :=
  (WallTime t =? WallTime s) && (Logical t =? Logical s).

Definition Timestamp_Less (t s : Timestamp) : bool :=
  (WallTime t <? WallTime s) || ((WallTime t =? WallTime s) && (Logical t <? Logical s)).

Definition Timestamp_LessEq (t s : Timestamp) : bool :=
  (WallTime t <? WallTime s) || ((WallTime t =? WallTime s) && (Logical t <=? Logical s)).

Definition Timestamp_After (t s : Timestamp) : bool := negb (Timestamp_LessEq t s).

Definition Timestamp_Compare (t s : Timestamp) : Z :=
  if WallTime t >? WallTime s then 1
  else if WallTime t <? WallTime s then -1
  else if Logical t >? Logical s then 1
  else if Logical t <? Logical s then -1
  else 0.

Definition Timestamp_IsEmpty (t : Timestamp) : bool := bool_decide (t = mkTimestamp 0 0).

Definition Timestamp_IsSet (t : Timestamp) : bool := negb (Timestamp_IsEmpty t).

Definition Timestamp_Add (t : Timestamp) (wallTime logical : Z) : Timestamp :=
  mkTimestamp (int64 (WallTime t + wallTime)) (int32 (Logical t + logical)).

Definition Timestamp_AddDuration (t : Timestamp) (nanoseconds : Z) : Timestamp :=
  Timestamp_Add t nanoseconds 0.

Definition Timestamp_Next (t : Timestamp) : outcome Timestamp :=
  if Logical t =? MaxInt32 then
    if WallTime t =? MaxInt64 then
      Panic "cannot take the next value to a max timestamp"
    else Ret (mkTimestamp (int64 (WallTime t + 1)) 0)
  else Ret (mkTimestamp (WallTime t) (int32 (Logical t + 1))).

Definition Timestamp_Prev (t : Timestamp) : outcome Timestamp :=
  if Logical t >? 0 then Ret (mkTimestamp (WallTime t) (Logical t - 1))
  else if WallTime t >? 0 then Ret (mkTimestamp (WallTime t - 1) MaxInt32)
  else Panic "cannot take the previous value to a zero timestamp".

Definition Timestamp_FloorPrev (t : Timestamp) : outcome Timestamp :=
  if Logical t >? 0 then Ret (mkTimestamp (WallTime t) (Logical t - 1))
  else if WallTime t >? 0 then Ret (mkTimestamp (WallTime t - 1) 0)
  else Panic "cannot take the previous value to a zero timestamp".

Definition Timestamp_WallNext (t : Timestamp) : Timestamp := mkTimestamp (int64 (WallTime t + 1)) 0.
Definition Timestamp_WallPrev (t : Timestamp) : Timestamp := mkTimestamp (int64 (WallTime t - 1)) 0.

(** [t.Forward(s)]: the new value of [*t], and whether it changed. *)
Definition Timestamp_Forward (t s : Timestamp) : Timestamp * bool :=
  if Timestamp_Less t s then (s, true) else (t, false).

(** [t.Backward(s)]: the new value of [*t]. *)
Definition Timestamp_Backward (t s : Timestamp) : Timestamp :=
  if Timestamp_Less s t then s else t.

(** ** The order on timestamps *)

Definition ts_le (t s : Timestamp) : Prop :=
  WallTime t < WallTime s \/ (WallTime t = WallTime s /\ Logical t <= Logical s).

(** Timestamps in the range the code produces. *)
Definition Timestamp_valid (t : Timestamp) : Prop :=
  0 <= WallTime t <= MaxInt64 /\ 0 <= Logical t <= MaxInt32.

Ltac ts_crush :=
  repeat match goal with t : Timestamp |- _ => destruct t end;
  unfold Timestamp_valid, ts_le, Timestamp_Compare, Timestamp_Less, Timestamp_LessEq,
    MaxInt64, MaxInt32 in *; simpl in *.

#[global] Instance ts_le_dec : RelDecision ts_le.
Proof. intros t s. unfold ts_le. apply _. Defined.

#[global] Instance ts_le_order : PartialOrder ts_le.
Proof.
  split; [split|].
  - intros t. ts_crush. lia.
  - intros t s u. ts_crush. lia.
  - intros t s ? ?. ts_crush. f_equal; lia.
Qed.

#[global] Instance ts_le_total : Total ts_le.
Proof. intros t s. ts_crush. lia. Qed.

Lemma Timestamp_LessEq_spec t s : Timestamp_LessEq t s = true <-> ts_le t s.
Proof. ts_crush. lia. Qed.

Lemma Timestamp_Less_spec t s : Timestamp_Less t s = true <-> ~ ts_le s t.
Proof. ts_crush. lia. Qed.

Lemma Timestamp_Less_false t s : Timestamp_Less t s = false -> ts_le s t.
Proof. ts_crush. lia. Qed.

Lemma Timestamp_Compare_spec t s : (Timestamp_Compare t s <= 0) <-> ts_le t s.
Proof. ts_crush. repeat case_match; lia. Qed.

Lemma Timestamp_Backward_le t s u :
  ts_le u (Timestamp_Backward t s) <-> ts_le u t /\ ts_le u s.
Proof.
  unfold Timestamp_Backward. destruct (Timestamp_Less s t) eqn:E; ts_crush; lia.
Qed.

Lemma Timestamp_Forward_le t s :
  ts_le t (fst (Timestamp_Forward t s)) /\ ts_le s (fst (Timestamp_Forward t s)).
Proof.
  unfold Timestamp_Forward. destruct (Timestamp_Less t s) eqn:E; cbn; ts_crush; lia.
Qed.

(** Strictly before. *)
Definition ts_lt (t s : Timestamp) : Prop := ~ ts_le s t.

Lemma ts_lt_le t s : ts_lt t s -> ts_le t s.
Proof. unfold ts_lt. ts_crush. lia. Qed.

Lemma ts_le_lt_trans t s u : ts_le t s -> ts_lt s u -> ts_lt t u.
Proof. unfold ts_lt. ts_crush. lia. Qed.

Lemma ts_lt_le_trans t s u : ts_lt t s -> ts_le s u -> ts_lt t u.
Proof. unfold ts_lt. ts_crush. lia. Qed.

Lemma int64_small z : -9223372036854775808 <= z <= MaxInt64 -> int64 z = z.
Proof. unfold int64, MaxInt64. intros H. rewrite Z.mod_small by lia. lia. Qed.

Lemma int32_small z : -2147483648 <= z <= MaxInt32 -> int32 z = z.
Proof. unfold int32, MaxInt32. intros H. rewrite Z.mod_small by lia. lia. Qed.

(** [Next] and [Prev] are the successor and the predecessor in the order that
    [Less] decides: nothing lies strictly between a timestamp and its [Next], nor
    between its [Prev] and itself, each undoes the other, and they panic exactly at
    the maximal and the zero timestamp. *)
Theorem Timestamp_Next_Prev_spec t :
  Timestamp_valid t ->
  match Timestamp_Next t with
  | Ret n => Timestamp_valid n /\ Timestamp_Less t n = true /\
      (forall u, Timestamp_valid u -> Timestamp_Less t u = true -> Timestamp_LessEq n u = true) /\
      Timestamp_Prev n = Ret t
  | Panic _ => t = MaxTimestamp
  end /\
  match Timestamp_Prev t with
  | Ret p => Timestamp_valid p /\ Timestamp_Less p t = true /\
      (forall u, Timestamp_valid u -> Timestamp_Less u t = true -> Timestamp_LessEq u p = true) /\
      Timestamp_Next p = Ret t
  | Panic _ => Timestamp_IsEmpty t = true
  end.
Proof.
  destruct t as [w g]. intros [Hw Hg]. cbn in Hw, Hg. unfold Timestamp_Next, Timestamp_Prev, Timestamp_IsEmpty. cbn.
  split.
  - destruct (Z.eqb_spec g MaxInt32) as [->|]; [destruct (Z.eqb_spec w MaxInt64) as [->|]; [done|]|].
    + rewrite int64_small by lia. cbn. split_and!; [by ts_crush; lia..| |].
      * intros [] [] Hl. ts_crush. lia.
      * destruct (Z.gtb_spec (w + 1) 0); [|lia]. do 2 f_equal. lia.
    + rewrite int32_small by (unfold MaxInt32 in *; lia). cbn. split_and!; [ts_crush; lia|ts_crush; lia| |].
      * intros [] [] Hl. ts_crush. lia.
      * destruct (Z.gtb_spec (g + 1) 0); [|lia]. do 2 f_equal. lia.
  - destruct (Z.gtb_spec g 0); [|destruct (Z.gtb_spec w 0)]; cbn.
    + split_and!; [ts_crush; lia|ts_crush; lia| |].
      * intros [] [] Hl. ts_crush. lia.
      * destruct (Z.eqb_spec (g - 1) MaxInt32); [lia|]. rewrite int32_small by lia. do 2 f_equal. lia.
    + split_and!; [ts_crush; lia|ts_crush; lia| |].
      * intros [] [] Hl. ts_crush. lia.
      * destruct (Z.eqb_spec (w - 1) MaxInt64); [lia|]. rewrite int64_small by lia. do 2 f_equal; lia.
    + apply bool_decide_eq_true. f_equal; lia.
Qed.

Lemma Timestamp_Next_Prev_spec_witness :
  Timestamp_Next (mkTimestamp 5 MaxInt32) = Ret (mkTimestamp 6 0) /\
  Timestamp_Prev (mkTimestamp 6 0) = Ret (mkTimestamp 5 MaxInt32).
Proof.
  destruct (Timestamp_Next_Prev_spec (mkTimestamp 5 MaxInt32)) as [H _].
  - unfold Timestamp_valid, MaxInt64, MaxInt32. cbn. lia.
  - split; [reflexivity|]. apply H.
Defined.
