(* ===== verification/Clock.v ===== *)
(** * The hybrid logical clock (src/pkg/util/hlc/hlc.go)

    [Clock] is the shared state of the struct of the same name. The readings of
    the wall clock and the outcome of persisting an upper bound are arguments. The
    methods run concurrently: their atomic loads, stores and compare-and-swaps and
    their critical sections are the steps of the relation [clock_step], in which
    any number of calls interleave. log.Fatalf is a panic. *)

From S2P Require Import Prelude Hlc.

Record Clock : Type := mkClock {
  ck_maxOffset : Z;
  ck_toleratedOffset : Z;
  ck_lastPhysicalTime : Z;
  ck_monotonicityErrorsCount : Z;
  ck_forwardClockJumpCheckEnabled : Z;
  ck_timestamp : Timestamp;
  ck_isMonitoringForwardClockJumps : bool;
  ck_wallTimeUpperBound : Z
}.

#[global] Instance eta_Clock : Eta Clock := fun c =>
  mkClock (ck_maxOffset c) (ck_toleratedOffset c) (ck_lastPhysicalTime c) (ck_monotonicityErrorsCount c)
    (ck_forwardClockJumpCheckEnabled c) (ck_timestamp c) (ck_isMonitoringForwardClockJumps c)
    (ck_wallTimeUpperBound c).

Definition NewClock (maxOffset toleratedOffset : Z) : Clock :=
  mkClock maxOffset toleratedOffset 0 0 0 (mkTimestamp 0 0) false 0.

Definition Clock_toleratedForwardClockJump (c : Clock) : Z := ck_maxOffset c ÷ 2.

Definition Clock_checkPhysicalClock (c : Clock) (oldTime newTime : Z) : outcome Clock :=
  if oldTime =? 0 then Ret c
  else
    let interval := int64 (oldTime - newTime) in
    let c :=
      if interval >? ck_maxOffset c ÷ 10 then
        c <| ck_monotonicityErrorsCount := int32 (ck_monotonicityErrorsCount c + 1) |>
      else c in
    if negb (ck_forwardClockJumpCheckEnabled c =? 0) then
      if Clock_toleratedForwardClockJump c <=? int64 (- interval) then Panic "detected forward time jump"
      else Ret c
    else Ret c.

Definition Clock_enforceWallTimeWithinBoundLocked (c : Clock) : outcome unit :=
  if negb (ck_wallTimeUpperBound c =? 0) && (WallTime (ck_timestamp c) >? ck_wallTimeUpperBound c) then
    Panic "wall time is not allowed to be greater than upper bound"
  else Ret tt.

(** The critical section of [NowAsClockTimestamp]. *)
Definition Clock_NowAsClockTimestamp_locked (c : Clock) (physicalClock : Z) : outcome (Clock * Timestamp) :=
  let c :=
    if WallTime (ck_timestamp c) >=? physicalClock then
      c <| ck_timestamp := mkTimestamp (WallTime (ck_timestamp c)) (int32 (Logical (ck_timestamp c) + 1)) |>
    else c <| ck_timestamp := mkTimestamp physicalClock 0 |> in
  let! _ := Clock_enforceWallTimeWithinBoundLocked c in
  Ret (c, ck_timestamp c).

(** The fast path of [Update]. *)
Definition Clock_Update_fast (c : Clock) (rt : Timestamp) : bool := WallTime rt <? WallTime (ck_timestamp c).

(** The critical section of [Update]. *)
Definition Clock_Update_locked (c : Clock) (rt : Timestamp) : outcome Clock :=
  let t := ck_timestamp c in
  let c :=
    if WallTime rt >? WallTime t then c <| ck_timestamp := mkTimestamp (WallTime rt) (Logical rt) |>
    else if WallTime rt =? WallTime t then
      if Logical rt >? Logical t then c <| ck_timestamp := mkTimestamp (WallTime t) (Logical rt) |> else c
    else c in
  let! _ := Clock_enforceWallTimeWithinBoundLocked c in
  Ret c.

(** What [UpdateAndCheckMaxOffset] does after reading the wall clock: an error, or
    the timestamp to call [Update] with. *)
Definition Clock_checkMaxOffset (c : Clock) (physicalClock : Z) (rt : Timestamp) : error + Timestamp :=
  let offset := int64 (WallTime rt - physicalClock) in
  if (ck_maxOffset c >? 0) && (offset >? ck_maxOffset c) then
    inl (Errorf "remote wall time is too far ahead (%s) to be trustworthy" [offset])
  else if physicalClock >? WallTime rt then inr (mkTimestamp physicalClock 0)
  else inr rt.

Definition Clock_setForwardJumpCheckEnabled (c : Clock) (enabled : bool) : Clock :=
  c <| ck_forwardClockJumpCheckEnabled := if enabled then 1 else 0 |>.

Definition Clock_setMonitoringClockJump (c : Clock) : Clock * bool :=
  (c <| ck_isMonitoringForwardClockJumps := true |>, ck_isMonitoringForwardClockJumps c).

(** [persistFn] returned [err]. *)
Definition Clock_persistHLCUpperBound (c : Clock) (err : option error) (hlcUpperBound : Z) : Clock * option error :=
  match err with
  | Some err => (c, Some err)
  | None => (c <| ck_wallTimeUpperBound := hlcUpperBound |>, None)
  end.

(** ** Concurrent calls *)

(** What a reading of the wall clock is for: Now, or UpdateAndCheckMaxOffset. *)
Inductive purpose : Type := ForNow | ForUpdate (rt : Timestamp).

(** Where a call is. The first four are [getPhysicalClockAndCheck]: before the
    load of lastPhysicalTime, before the reading, before the compare-and-swap and
    before the reload in its loop, and before the check. *)
Inductive call : Type :=
| AtLoad (k : purpose)
| AtRead (k : purpose) (oldTime : Z)
| AtCAS (k : purpose) (oldTime newTime lastPhysTime : Z)
| AtReload (k : purpose) (oldTime newTime : Z)
| AtCheck (k : purpose) (oldTime newTime : Z)
| AtNowLock (physicalClock : Z)
| AtFast (rt : Timestamp)
| AtUpdateLock (rt : Timestamp).

(** The completed calls: [Now] with its reading and its result, [Update] with its
    argument. *)
Inductive completed : Type :=
| DidNow (physicalClock : Z) (t : Timestamp)
| DidUpdate (rt : Timestamp).

Definition completed_ts (e : completed) : Timestamp :=
  match e with DidNow _ t => t | DidUpdate rt => rt end.

(** The shared clock, the calls in progress, and the completed calls in the order
    of completion. *)
Record system : Type := mkSystem {
  sy_clock : Clock;
  sy_calls : gmap nat call;
  sy_done : list completed
}.

(** The call [i] moves on. *)
Definition at_call (s : system) (i : nat) (c : Clock) (p : call) : system :=
  mkSystem c (<[i := p]> (sy_calls s)) (sy_done s).

(** The call [i] returns. *)
Definition finish (s : system) (i : nat) (c : Clock) (es : list completed) : system :=
  mkSystem c (delete i (sy_calls s)) (sy_done s ++ es).

(** Where a call goes after the check of the reading. *)
Definition after_check (s : system) (i : nat) (c : Clock) (k : purpose) (newTime : Z) : system :=
  match k with
  | ForNow => at_call s i c (AtNowLock newTime)
  | ForUpdate rt =>
    match Clock_checkMaxOffset c newTime rt with
    | inl _ => finish s i c []
    | inr rt => at_call s i c (AtFast rt)
    end
  end.

Inductive clock_step (s : system) : system -> Prop :=
| call_Now i : sy_calls s !! i = None -> clock_step s (at_call s i (sy_clock s) (AtLoad ForNow))
| call_Update i rt : sy_calls s !! i = None -> clock_step s (at_call s i (sy_clock s) (AtFast rt))
| call_UpdateAndCheckMaxOffset i rt : sy_calls s !! i = None ->
    clock_step s (at_call s i (sy_clock s) (AtLoad (ForUpdate rt)))
| step_load i k : sy_calls s !! i = Some (AtLoad k) ->
    clock_step s (at_call s i (sy_clock s) (AtRead k (ck_lastPhysicalTime (sy_clock s))))
| step_read i k oldTime newTime : sy_calls s !! i = Some (AtRead k oldTime) ->
    clock_step s (at_call s i (sy_clock s) (AtCAS k oldTime newTime oldTime))
| step_cas i k oldTime newTime lastPhysTime : sy_calls s !! i = Some (AtCAS k oldTime newTime lastPhysTime) ->
    clock_step s
      (if ck_lastPhysicalTime (sy_clock s) =? lastPhysTime then
         at_call s i (sy_clock s <| ck_lastPhysicalTime := newTime |>) (AtCheck k oldTime newTime)
       else at_call s i (sy_clock s) (AtReload k oldTime newTime))
| step_reload i k oldTime newTime : sy_calls s !! i = Some (AtReload k oldTime newTime) ->
    clock_step s (at_call s i (sy_clock s)
      (if ck_lastPhysicalTime (sy_clock s) >=? newTime then AtCheck k oldTime newTime
       else AtCAS k oldTime newTime (ck_lastPhysicalTime (sy_clock s))))
| step_check i k oldTime newTime c : sy_calls s !! i = Some (AtCheck k oldTime newTime) ->
    Clock_checkPhysicalClock (sy_clock s) oldTime newTime = Ret c ->
    clock_step s (after_check s i c k newTime)
| step_now i physicalClock c t : sy_calls s !! i = Some (AtNowLock physicalClock) ->
    Clock_NowAsClockTimestamp_locked (sy_clock s) physicalClock = Ret (c, t) ->
    clock_step s (finish s i c [DidNow physicalClock t])
| step_fast i rt : sy_calls s !! i = Some (AtFast rt) ->
    clock_step s
      (if Clock_Update_fast (sy_clock s) rt then finish s i (sy_clock s) [DidUpdate rt]
       else at_call s i (sy_clock s) (AtUpdateLock rt))
| step_update i rt c : sy_calls s !! i = Some (AtUpdateLock rt) ->
    Clock_Update_locked (sy_clock s) rt = Ret c ->
    clock_step s (finish s i c [DidUpdate rt])
| step_setForwardJumpCheckEnabled enabled :
    clock_step s (mkSystem (Clock_setForwardJumpCheckEnabled (sy_clock s) enabled) (sy_calls s) (sy_done s))
| step_setMonitoringClockJump :
    clock_step s (mkSystem (fst (Clock_setMonitoringClockJump (sy_clock s))) (sy_calls s) (sy_done s))
| step_persistHLCUpperBound err bound :
    clock_step s (mkSystem (fst (Clock_persistHLCUpperBound (sy_clock s) err bound)) (sy_calls s) (sy_done s)).

(** ** Properties *)

Lemma NowAsClockTimestamp_spec c phys c' t :
  Logical (ck_timestamp c) < MaxInt32 -> -2147483648 <= Logical (ck_timestamp c) ->
  Clock_NowAsClockTimestamp_locked c phys = Ret (c', t) ->
  ck_timestamp c' = t /\ ts_lt (ck_timestamp c) t /\ phys <= WallTime t /\
  (ck_wallTimeUpperBound c <> 0 -> WallTime t <= ck_wallTimeUpperBound c).
Proof.
  intros Hmax Hmin. unfold Clock_NowAsClockTimestamp_locked, Clock_enforceWallTimeWithinBoundLocked.
  rewrite Z.geb_leb. destruct (Z.leb_spec phys (WallTime (ck_timestamp c))); cbn.
  - rewrite int32_small by lia. destruct (Z.eqb_spec (ck_wallTimeUpperBound c) 0); cbn.
    + intros [= <- <-]. cbn. unfold ts_lt, ts_le. cbn. split_and!; [done|lia|lia|done].
    + rewrite Z.gtb_ltb. destruct (Z.ltb_spec (ck_wallTimeUpperBound c) (WallTime (ck_timestamp c))); [done|].
      cbn. intros [= <- <-]. unfold ts_lt, ts_le. cbn. split_and!; [done|lia..].
  - destruct (Z.eqb_spec (ck_wallTimeUpperBound c) 0); cbn.
    + intros [= <- <-]. cbn. unfold ts_lt, ts_le. cbn. split_and!; [done|lia|lia|done].
    + rewrite Z.gtb_ltb. destruct (Z.ltb_spec (ck_wallTimeUpperBound c) phys); [done|].
      cbn. intros [= <- <-]. unfold ts_lt, ts_le. cbn. split_and!; [done|lia..].
Qed.

(** [Update] moves the clock to the later of its own time and the argument. *)
Lemma Update_locked_spec c rt c' :
  Clock_Update_locked c rt = Ret c' ->
  ck_timestamp c' = fst (Timestamp_Forward (ck_timestamp c) rt).
Proof.
  unfold Clock_Update_locked, Timestamp_Forward, Timestamp_Less. destruct c as [? ? ? ? ? [w g] ? ?], rt as [w' g']. cbn.
  rewrite !Z.gtb_ltb. destruct (Z.ltb_spec w w'); cbn.
  { destruct (Clock_enforceWallTimeWithinBoundLocked _); [|done]. by intros [= <-]. }
  rewrite (Z.eqb_sym w w'). destruct (Z.eqb_spec w' w) as [->|]; cbn.
  - destruct (Z.ltb_spec g g'); destruct (Clock_enforceWallTimeWithinBoundLocked _); try done; by intros [= <-].
  - destruct (Clock_enforceWallTimeWithinBoundLocked _); [|done]. by intros [= <-].
Qed.

Lemma checkPhysicalClock_timestamp c old new c' :
  Clock_checkPhysicalClock c old new = Ret c' -> ck_timestamp c' = ck_timestamp c.
Proof.
  unfold Clock_checkPhysicalClock. destruct (_ =? _); [by intros [= <-]|].
  destruct (_ >? _); destruct (negb _); try destruct (_ <=? _); try done; by intros [= <-].
Qed.

(** The order in which calls complete is reflected in the timestamps. *)
Fixpoint causal (es : list completed) : Prop :=
  match es with
  | [] => True
  | e :: es =>
    (forall phys t, DidNow phys t ∈ es -> ts_lt (completed_ts e) t) /\ causal es
  end.

Definition clock_inv (s : system) : Prop :=
  causal (sy_done s) /\
  (forall e, e ∈ sy_done s -> ts_le (completed_ts e) (ck_timestamp (sy_clock s))) /\
  (forall phys t, DidNow phys t ∈ sy_done s -> phys <= WallTime t).

(** The logical component has room for another tick. *)
Definition clock_room (s : system) : Prop :=
  -2147483648 <= Logical (ck_timestamp (sy_clock s)) < MaxInt32.

Lemma causal_snoc es e :
  causal (es ++ [e]) <->
  causal es /\ (forall phys t, e = DidNow phys t -> forall e', e' ∈ es -> ts_lt (completed_ts e') t).
Proof.
  induction es as [|x es IH]; cbn.
  - split; [intros _; split; [done|]; intros ????; by intros []%elem_of_nil|intros _; split; [|done]; intros ??; by intros []%elem_of_nil].
  - rewrite IH. setoid_rewrite elem_of_app. setoid_rewrite list_elem_of_singleton. setoid_rewrite elem_of_cons.
    split.
    + intros (H1&H2&H3). split_and!; [intros phys t Hin; exact (H1 _ _ (or_introl Hin))|done|]. intros phys t -> e' [->|He']; [exact (H1 _ _ (or_intror eq_refl))|exact (H3 _ _ eq_refl _ He')].
    + intros ((H1&H2)&H3). split_and!; [|done|].
      * intros phys t [Hin|<-]; [exact (H1 _ _ Hin)|]. exact (H3 _ _ eq_refl _ (or_introl eq_refl)).
      * intros phys t -> e' He'. exact (H3 _ _ eq_refl _ (or_intror He')).
Qed.

(** Steps that leave the time alone, or move it forward and complete no call or
    an update it covers. *)
Lemma clock_inv_keep s c calls :
  clock_inv s -> ts_le (ck_timestamp (sy_clock s)) (ck_timestamp c) -> clock_inv (mkSystem c calls (sy_done s)).
Proof. intros (H1&H2&H3) Hle. split_and!; try done. intros e He. etransitivity; [by apply H2|done]. Qed.

Lemma clock_inv_update s c calls rt :
  clock_inv s -> ts_le (ck_timestamp (sy_clock s)) (ck_timestamp c) -> ts_le rt (ck_timestamp c) ->
  clock_inv (mkSystem c calls (sy_done s ++ [DidUpdate rt])).
Proof.
  intros (H1&H2&H3) Hle Hrt. split_and!; cbn.
  - apply causal_snoc. split; [done|]. by intros ???.
  - intros e [He|He%list_elem_of_singleton]%elem_of_app; [|by subst e]. etransitivity; [by apply H2|done].
  - intros phys t [He|He%list_elem_of_singleton]%elem_of_app; [by eapply H3|done].
Qed.

Lemma clock_inv_now s c calls phys t :
  clock_inv s -> ts_lt (ck_timestamp (sy_clock s)) t -> ck_timestamp c = t -> phys <= WallTime t ->
  clock_inv (mkSystem c calls (sy_done s ++ [DidNow phys t])).
Proof.
  intros (H1&H2&H3) Hlt Ht Hphys.
  assert (Hall : forall e, e ∈ sy_done s -> ts_lt (completed_ts e) t).
  { intros e He Hle. apply Hlt. etransitivity; [exact Hle|by apply H2]. }
  split_and!; cbn.
  - apply causal_snoc. split; [done|]. intros ?? [= -> ->] e He. by apply Hall.
  - rewrite Ht. intros e [He|He%list_elem_of_singleton]%elem_of_app; [|by subst e].
    destruct (total ts_le (completed_ts e) t) as [|Hge]; [done|]. by destruct (Hall e He).
  - intros phys' t' [He|He%list_elem_of_singleton]%elem_of_app; [by eapply H3|]. by injection He as -> ->.
Qed.

Lemma clock_step_inv s s' : clock_inv s -> clock_room s -> clock_step s s' -> clock_inv s'.
Proof.
  intros Hinv [Hmin Hmax] Hstep. destruct Hstep; unfold at_call, finish;
    try (apply (clock_inv_keep s); [done|reflexivity]).
  - destruct (_ =? _); by apply (clock_inv_keep s).
  - match goal with H : Clock_checkPhysicalClock _ _ _ = _ |- _ => apply checkPhysicalClock_timestamp in H as Hc end.
    unfold after_check, at_call, finish. destruct k; [|destruct (Clock_checkMaxOffset _ _ _)]; cbn; rewrite ?app_nil_r;
      apply (clock_inv_keep s); try done; by rewrite Hc.
  - match goal with H : Clock_NowAsClockTimestamp_locked _ _ = _ |- _ =>
      apply NowAsClockTimestamp_spec in H as (Hc&Hlt&Hphys&_); [|lia..] end. by apply clock_inv_now.
  - destruct (Clock_Update_fast _ _) eqn:Ef; [|by apply (clock_inv_keep s)].
    apply clock_inv_update; [done|done|]. apply Z.ltb_lt in Ef. by left.
  - match goal with H : Clock_Update_locked _ _ = _ |- _ => apply Update_locked_spec in H as Hc end.
    destruct (Timestamp_Forward_le (ck_timestamp (sy_clock s)) rt) as [H1 H2].
    apply clock_inv_update; [done|by rewrite Hc..].
  - by destruct err; apply (clock_inv_keep s).
Qed.

Lemma clock_steps_inv s s' :
  rtc (fun s s' => clock_room s /\ clock_step s s') s s' -> clock_inv s -> clock_inv s'.
Proof. induction 1 as [|s1 s2 s3 [Hroom Hstep] _ IH]; [done|]. intros Hinv. by eapply IH, clock_step_inv. Qed.

Definition clock_start (maxOffset toleratedOffset : Z) : system := mkSystem (NewClock maxOffset toleratedOffset) ∅ [].

(** C29. The clock tracks causality across any interleaving of calls: a [Now] that
    completes after other calls returns a timestamp strictly after all the
    timestamps these [Now]s returned and these [Update]s were given, and never
    before the wall clock it read. The only assumption is that the logical
    component does not overflow, which takes 2^31 calls within one reading. *)
Theorem Clock_causal maxOffset toleratedOffset s es1 phys t es2 :
  rtc (fun s s' => clock_room s /\ clock_step s s') (clock_start maxOffset toleratedOffset) s ->
  sy_done s = es1 ++ DidNow phys t :: es2 ->
  phys <= WallTime t /\ forall e, e ∈ es1 -> Timestamp_Less (completed_ts e) t = true.
Proof.
  intros Hsteps Hdone. assert (Hinv : clock_inv s).
  { eapply clock_steps_inv; [exact Hsteps|]. split_and!; [done|by intros ? []%elem_of_nil|by intros ?? []%elem_of_nil]. }
  destruct Hinv as (H1&_&H3). rewrite Hdone in H1, H3. split; [apply H3; set_solver|].
  intros e He. apply Timestamp_Less_spec. fold (ts_lt (completed_ts e) t). clear H3 Hdone.
  induction es1 as [|x es1 IH]; [by apply elem_of_nil in He|]. destruct H1 as [H1 H1'].
  apply elem_of_cons in He as [->|He]; [|by apply IH]. apply (H1 phys). set_solver.
Qed.

(** A node is told the time (5, 3), and then asks for the time while its wall
    clock reads 2. *)
Definition example_clock (last : Z) (t : Timestamp) : Clock := mkClock 100 80 last 0 0 t false 0.

Definition example_system (last : Z) (t : Timestamp) (p : option call) (es : list completed) : system :=
  mkSystem (example_clock last t) (match p with Some p => {[0%nat := p]} | None => ∅ end) es.

Lemma example_clock_run :
  rtc (fun s s' => clock_room s /\ clock_step s s') (clock_start 100 80)
    (example_system 2 (mkTimestamp 5 4) None [DidUpdate (mkTimestamp 5 3); DidNow 2 (mkTimestamp 5 4)]).
Proof.
  pose (z := mkTimestamp 0 0). pose (rt := mkTimestamp 5 3). pose (es := [DidUpdate rt]).
  apply (rtc_l _ _ (example_system 0 z (Some (AtFast rt)) [])); [by split; [|exact (call_Update (clock_start 100 80) 0 rt eq_refl)]|].
  apply (rtc_l _ _ (example_system 0 z (Some (AtUpdateLock rt)) [])).
  { split; [done|exact (step_fast (example_system 0 z (Some (AtFast rt)) []) 0 rt eq_refl)]. }
  apply (rtc_l _ _ (example_system 0 rt None es)).
  { split; [done|exact (step_update (example_system 0 z (Some (AtUpdateLock rt)) []) 0 rt _ eq_refl eq_refl)]. }
  apply (rtc_l _ _ (example_system 0 rt (Some (AtLoad ForNow)) es)).
  { split; [done|exact (call_Now (example_system 0 rt None es) 0 eq_refl)]. }
  apply (rtc_l _ _ (example_system 0 rt (Some (AtRead ForNow 0)) es)).
  { split; [done|exact (step_load (example_system 0 rt (Some (AtLoad ForNow)) es) 0 _ eq_refl)]. }
  apply (rtc_l _ _ (example_system 0 rt (Some (AtCAS ForNow 0 2 0)) es)).
  { split; [done|exact (step_read (example_system 0 rt (Some (AtRead ForNow 0)) es) 0 _ _ 2 eq_refl)]. }
  apply (rtc_l _ _ (example_system 2 rt (Some (AtCheck ForNow 0 2)) es)).
  { split; [done|exact (step_cas (example_system 0 rt (Some (AtCAS ForNow 0 2 0)) es) 0 _ _ _ _ eq_refl)]. }
  apply (rtc_l _ _ (example_system 2 rt (Some (AtNowLock 2)) es)).
  { split; [done|exact (step_check (example_system 2 rt (Some (AtCheck ForNow 0 2)) es) 0 _ _ _ _ eq_refl eq_refl)]. }
  apply rtc_once. split; [done|].
  exact (step_now (example_system 2 rt (Some (AtNowLock 2)) es) 0 _ _ _ eq_refl eq_refl).
Qed.

Lemma Clock_causal_witness :
  Timestamp_Less (completed_ts (DidUpdate (mkTimestamp 5 3))) (mkTimestamp 5 4) = true.
Proof.
  apply (Clock_causal 100 80 _ [DidUpdate (mkTimestamp 5 3)] 2 (mkTimestamp 5 4) [] example_clock_run eq_refl). left.
Defined.

(** The upper bound itself is an admissible wall time. *)
Lemma wallTimeUpperBound_inclusive :
  Clock_NowAsClockTimestamp_locked (mkClock 0 0 0 0 0 (mkTimestamp 0 0) false 7) 7 =
    Ret (mkClock 0 0 0 0 0 (mkTimestamp 7 0) false 7, mkTimestamp 7 0).
Proof. reflexivity. Qed.
