(* ===== verification/Quorum.v ===== *)
(** * Quorums (src/pkg/raft/quorum)

    Majority and joint quorum configurations, the commit index computed from
    the acknowledged indexes, the vote count, and the lead support expiration.

    A Go [map[pb.PeerID]struct{}] is an [option (gset Z)], [None] being the nil
    map: confchange.go tells the two apart. Ranging over a map is a fold over
    [elements], and the [_iter] theorems show that the results are the same for
    every iteration order. *)

From S2P Require Import Prelude Hlc.

Abbreviation PeerID := Z (only parsing).
Abbreviation idmap := (option (gset Z)).

Definition ids (m : idmap) : gset Z := default ∅ m.
Definition map_len (m : idmap) : Z := Z.of_nat (size (ids m)).

(** ** quorum.go *)

Inductive VoteResult : Set := VotePending | VoteLost | VoteWon.

#[global] Instance VoteResult_eq_dec : EqDecision VoteResult.
Proof. solve_decision. Defined.

(** ** majority.go *)

(** The block that fills [srt], zero-initialised, from the right with the
    values found for the ids, in iteration order. *)
Definition fill_right {A} (get : PeerID -> option A) (order : list PeerID) (srt : list A) : list A :=
  fst (fold_left (fun '(srt, i) id =>
    match get id with
    | Some x => (<[Z.to_nat i := x]> srt, i - 1)
    | None => (srt, i)
    end) order (srt, len srt - 1)).

Definition MajorityConfig_Slice (c : idmap) : list PeerID := merge_sort Z.le (elements (ids c)).

(** [CommittedIndex] with the iteration order of the map made explicit. *)
Definition CommittedIndex_iter (order : list PeerID) (AckedIndex : PeerID -> option Z) : Z :=
  let n := len order in
  if n =? 0 then MaxUint64
  else
    let srt := fill_right AckedIndex order (replicate (Z.to_nat n) 0) in
    let srt := merge_sort Z.le srt in
    let pos := n - (n `div` 2 + 1) in
    srt !!! Z.to_nat pos.

Definition MajorityConfig_CommittedIndex (c : idmap) (AckedIndex : PeerID -> option Z) : Z :=
  CommittedIndex_iter (elements (ids c)) AckedIndex.

Definition VoteResult_iter (order : list PeerID) (votes : gmap Z bool) : VoteResult :=
  if len order =? 0 then VoteWon
  else
    let '(votedCnt, missing) :=
      fold_left (fun '(votedCnt, missing) id =>
        match votes !! id with
        | None => (votedCnt, missing + 1)
        | Some true => (votedCnt + 1, missing)
        | Some false => (votedCnt, missing)
        end) order (0, 0) in
    let q := len order `div` 2 + 1 in
    if votedCnt >=? q then VoteWon
    else if votedCnt + missing >=? q then VotePending
    else VoteLost.

Definition MajorityConfig_VoteResult (c : idmap) (votes : gmap Z bool) : VoteResult :=
  VoteResult_iter (elements (ids c)) votes.

#[global] Instance Timestamp_inhabited : Inhabited Timestamp := populate (mkTimestamp 0 0).

Definition LeadSupportExpiration_iter (order : list PeerID) (supported : gmap Z Timestamp) : Timestamp :=
  let n := len order in
  if n =? 0 then MaxTimestamp
  else
    let srt := fill_right (fun id => supported !! id) order (replicate (Z.to_nat n) (mkTimestamp 0 0)) in
    let srt := merge_sort ts_le srt in
    let pos := n - (n `div` 2 + 1) in
    srt !!! Z.to_nat pos.

Definition MajorityConfig_LeadSupportExpiration (c : idmap) (supported : gmap Z Timestamp) : Timestamp :=
  LeadSupportExpiration_iter (elements (ids c)) supported.

(** ** joint.go *)

Abbreviation JointConfig := (idmap * idmap)%type.

Definition JointConfig_IDs (c : JointConfig) : gset Z := ids (fst c) ∪ ids (snd c).

Definition JointConfig_CommittedIndex (c : JointConfig) (AckedIndex : PeerID -> option Z) : Z :=
  let idx0 := MajorityConfig_CommittedIndex (fst c) AckedIndex in
  let idx1 := MajorityConfig_CommittedIndex (snd c) AckedIndex in
  if idx0 <? idx1 then idx0 else idx1.

Definition JointConfig_VoteResult (c : JointConfig) (votes : gmap Z bool) : VoteResult :=
  let r1 := MajorityConfig_VoteResult (fst c) votes in
  let r2 := MajorityConfig_VoteResult (snd c) votes in
  if bool_decide (r1 = r2) then r1
  else if bool_decide (r1 = VoteLost) || bool_decide (r2 = VoteLost) then VoteLost
  else VotePending.

Definition JointConfig_LeadSupportExpiration (c : JointConfig) (supported : gmap Z Timestamp) : Timestamp :=
  let qse := MajorityConfig_LeadSupportExpiration (fst c) supported in
  Timestamp_Backward qse (MajorityConfig_LeadSupportExpiration (snd c) supported).

(** ** config.go *)

Record Config : Type := mkConfig {
  Voters : JointConfig;
  AutoLeave : bool;
  Learners : idmap;
  LearnersNext : idmap
}.

#[global] Instance eta_Config : Eta Config :=
  fun c => mkConfig (Voters c) (AutoLeave c) (Learners c) (LearnersNext c).

#[global] Instance Config_eq_dec : EqDecision Config.
Proof. solve_decision. Defined.

(** The zero value [quorum.Config{}]. *)
Definition zero_Config : Config := mkConfig (None, None) false None None.

Definition MakeEmptyConfig : Config := mkConfig (Some ∅, None) false None None.

(** Clone copies the four maps; the returned struct literal does not mention
    [AutoLeave], which is therefore false. *)
Definition Config_Clone (c : Config) : Config :=
  mkConfig (fst (Voters c), snd (Voters c)) false (Learners c) (LearnersNext c).

(** [pb.ConfState] (src/pkg/raft/raftpb/raft.proto) *)
Record ConfState : Type := mkConfState {
  cs_Voters : list PeerID;
  cs_Learners : list PeerID;
  cs_VotersOutgoing : list PeerID;
  cs_LearnersNext : list PeerID;
  cs_AutoLeave : bool
}.

#[global] Instance ConfState_eq_dec : EqDecision ConfState.
Proof. solve_decision. Defined.

Definition Config_ConfState (c : Config) : ConfState := {|
  cs_Voters := MajorityConfig_Slice (fst (Voters c));
  cs_VotersOutgoing := MajorityConfig_Slice (snd (Voters c));
  cs_Learners := MajorityConfig_Slice (Learners c);
  cs_LearnersNext := MajorityConfig_Slice (LearnersNext c);
  cs_AutoLeave := AutoLeave c
|}.

(** ** Iteration order and sorting *)

Lemma fill_right_aux {A} (get : PeerID -> option A) z order k acc :
  (length order <= k)%nat ->
  fst (fold_left (fun '(srt, i) id =>
    match get id with
    | Some x => (<[Z.to_nat i := x]> srt, i - 1)
    | None => (srt, i)
    end) order (replicate k z ++ acc, Z.of_nat k - 1))
  ≡ₚ map (fun id => default z (get id)) order ++ replicate (k - length order) z ++ acc.
Proof.
  revert k acc. induction order as [|id order IH]; intros k acc Hk; simpl.
  - by rewrite Nat.sub_0_r.
  - simpl in Hk. destruct (get id) as [x|]; simpl.
    + destruct k as [|k]; [lia|].
      replace (Z.to_nat (Z.of_nat (S k) - 1)) with (length (replicate k z) + 0)%nat
        by (rewrite length_replicate; lia).
      rewrite replicate_S_end, <- app_assoc, insert_app_r. simpl.
      replace (Z.of_nat (S k) - 1 - 1) with (Z.of_nat k - 1) by lia.
      rewrite IH by lia. rewrite <- !Permutation_middle. done.
    + rewrite IH by lia. replace (k - length order)%nat with (S (k - S (length order))) by lia.
      simpl. by rewrite <- Permutation_middle.
Qed.

Lemma fill_right_perm {A} (get : PeerID -> option A) z order :
  fill_right get order (replicate (length order) z) ≡ₚ map (fun id => default z (get id)) order.
Proof.
  unfold fill_right. pose proof (fill_right_aux get z order (length order) [] ltac:(lia)) as H.
  rewrite Nat.sub_diag in H. simpl in H. rewrite !app_nil_r in H.
  unfold len. by rewrite length_replicate.
Qed.

(** The value both quorum computations select: reached by a majority. *)
Lemma quorum_select {A} (R : relation A) `{!RelDecision R, !PartialOrder R, !Total R, !Inhabited A}
    (get : PeerID -> option A) z order y :
  order <> [] ->
  let n := len order in
  R y (merge_sort R (fill_right get order (replicate (Z.to_nat n) z)) !!! Z.to_nat (n - (n `div` 2 + 1)))
  <-> n `div` 2 + 1 <= countp (fun id => R y (default z (get id))) order.
Proof.
  intros Hne n. assert (0 < n) as Hn by (destruct order; [done|unfold n, len; simpl; lia]).
  replace (Z.to_nat n) with (length order) by (unfold n, len; lia).
  set (s := merge_sort R _).
  assert (s ≡ₚ map (fun id => default z (get id)) order) as Hperm.
  { unfold s. rewrite merge_sort_Permutation. apply fill_right_perm. }
  assert (len s = n) as Hlen.
  { unfold len. rewrite Hperm. by rewrite length_map. }
  assert (exists x, s !! Z.to_nat (n - (n `div` 2 + 1)) = Some x) as [x Hx].
  { apply lookup_lt_is_Some_2. unfold len in Hlen. clearbody n. pose proof (Z.div_pos n 2). pose proof (Z.mul_div_le n 2). lia. }
  rewrite (list_lookup_total_correct _ _ _ Hx).
  rewrite (sorted_rank R s _ x y (StronglySorted_merge_sort _ _) Hx).
  rewrite Hlen, (countp_perm _ _ _ Hperm).
  assert (forall l, countp (R y) (map (fun id => default z (get id)) l)
    = countp (fun id => R y (default z (get id))) l) as ->.
  { induction l as [|id l IH]; [done|]. simpl. rewrite !countp_cons. by rewrite IH. }
  clearbody n. pose proof (Z.mul_div_le n 2). lia.
Qed.

Lemma quorum_select_order {A} (R : relation A) `{!RelDecision R, !PartialOrder R, !Total R, !Inhabited A}
    (get : PeerID -> option A) z order1 order2 :
  order1 ≡ₚ order2 -> order1 <> [] ->
  let n := len order1 in
  merge_sort R (fill_right get order1 (replicate (Z.to_nat n) z)) !!! Z.to_nat (n - (n `div` 2 + 1))
  = merge_sort R (fill_right get order2 (replicate (Z.to_nat n) z)) !!! Z.to_nat (n - (n `div` 2 + 1)).
Proof.
  intros Hp Hne1 n.
  assert (n = len order2) as Hn by (unfold n, len; by rewrite Hp).
  assert (order2 <> []) as Hne2 by (intros ->; by apply Permutation_nil_r in Hp).
  pose proof (fun y => quorum_select R get z order1 y Hne1) as H1.
  pose proof (fun y => quorum_select R get z order2 y Hne2) as H2.
  cbv zeta in H1, H2. rewrite <- Hn in H2. fold n in H1.
  assert (forall y, countp (fun id => R y (default z (get id))) order1
    = countp (fun id => R y (default z (get id))) order2) as Hc by (intros; by apply countp_perm).
  apply (anti_symm R).
  - apply H2. rewrite <- Hc. by apply H1.
  - apply H1. rewrite Hc. by apply H2.
Qed.

(** ** The commit index *)

(** [id] acknowledged an index of at least [y]. *)
Definition acks (AckedIndex : PeerID -> option Z) (y : Z) (id : PeerID) : Prop :=
  match AckedIndex id with Some idx => y <= idx | None => False end.

#[global] Instance acks_dec l y id : Decision (acks l y id).
Proof. unfold acks. destruct (l id); apply _. Defined.

(** The majority of a set of voters. *)
Definition majority (c : idmap) (P : PeerID -> Prop) {Pdec : forall id, Decision (P id)} : Prop :=
  map_len c `div` 2 + 1 <= countp P (elements (ids c)).

Lemma len_elements (c : idmap) : len (elements (ids c)) = map_len c.
Proof. done. Qed.

Lemma elements_ne (c : idmap) : ids c <> ∅ -> elements (ids c) <> [].
Proof. intros Hne He. apply Hne. apply elements_empty_inv in He. by apply leibniz_equiv. Qed.

Lemma len_eqb_0 {A} (l : list A) : (len l =? 0) = true <-> l = [].
Proof. unfold len. destruct l; simpl; [done|]. split; [lia|done]. Qed.

Lemma CommittedIndex_iter_spec order l y :
  order <> [] -> 0 < y ->
  y <= CommittedIndex_iter order l <-> len order `div` 2 + 1 <= countp (acks l y) order.
Proof.
  intros Hne Hy. unfold CommittedIndex_iter.
  destruct (len order =? 0) eqn:E; [by apply len_eqb_0 in E|].
  rewrite (quorum_select Z.le) by done.
  rewrite (countp_ext _ (acks l y)); [done|].
  intros id _. unfold acks. destruct (l id); simpl; lia.
Qed.

Lemma MajorityConfig_committed_iff (c : idmap) AckedIndex y :
  ids c <> ∅ -> 0 < y ->
  y <= MajorityConfig_CommittedIndex c AckedIndex <-> majority c (acks AckedIndex y).
Proof.
  intros Hne Hy. unfold majority, MajorityConfig_CommittedIndex.
  rewrite <- len_elements. apply CommittedIndex_iter_spec; [by apply elements_ne|done].
Qed.

Lemma CommittedIndex_iter_order order1 order2 l :
  order1 ≡ₚ order2 -> CommittedIndex_iter order1 l = CommittedIndex_iter order2 l.
Proof.
  intros Hp. unfold CommittedIndex_iter.
  assert (len order2 = len order1) as -> by (unfold len; by rewrite Hp).
  destruct (len order1 =? 0) eqn:E; [done|].
  apply (quorum_select_order Z.le); [done|]. intros ->. done.
Qed.

Lemma LeadSupportExpiration_iter_order order1 order2 s :
  order1 ≡ₚ order2 -> LeadSupportExpiration_iter order1 s = LeadSupportExpiration_iter order2 s.
Proof.
  intros Hp. unfold LeadSupportExpiration_iter.
  assert (len order2 = len order1) as -> by (unfold len; by rewrite Hp).
  destruct (len order1 =? 0) eqn:E; [done|].
  apply (quorum_select_order ts_le); [done|]. intros ->. done.
Qed.

(** ** Votes *)

Definition voted (votes : gmap Z bool) (v : bool) (id : PeerID) : Prop := votes !! id = Some v.
Definition unvoted (votes : gmap Z bool) (id : PeerID) : Prop := votes !! id = None.

#[global] Instance voted_dec votes v id : Decision (voted votes v id).
Proof. unfold voted. apply _. Defined.
#[global] Instance unvoted_dec votes id : Decision (unvoted votes id).
Proof. unfold unvoted. apply _. Defined.

Lemma VoteResult_fold votes order a b :
  fold_left (fun '(votedCnt, missing) id =>
        match votes !! id with
        | None => (votedCnt, missing + 1)
        | Some true => (votedCnt + 1, missing)
        | Some false => (votedCnt, missing)
        end) order (a, b)
  = (a + countp (voted votes true) order, b + countp (unvoted votes) order).
Proof.
  revert a b. induction order as [|id order IH]; intros a b; simpl.
  - rewrite !countp_nil. f_equal; lia.
  - rewrite !countp_cons.
    destruct (votes !! id) as [[]|] eqn:E; rewrite IH; f_equal;
      repeat case_decide; unfold voted, unvoted in *; (lia || congruence).
Qed.

Lemma VoteResult_iter_eq order votes :
  VoteResult_iter order votes =
    if len order =? 0 then VoteWon
    else if countp (voted votes true) order >=? len order `div` 2 + 1 then VoteWon
    else if countp (voted votes true) order + countp (unvoted votes) order >=? len order `div` 2 + 1
    then VotePending else VoteLost.
Proof. unfold VoteResult_iter. by rewrite VoteResult_fold, !Z.add_0_l. Qed.

Lemma VoteResult_iter_order order1 order2 votes :
  order1 ≡ₚ order2 -> VoteResult_iter order1 votes = VoteResult_iter order2 votes.
Proof.
  intros Hp. rewrite !VoteResult_iter_eq.
  assert (len order1 = len order2) as -> by (unfold len; by rewrite Hp).
  by rewrite !(countp_perm _ _ _ Hp).
Qed.

(** The commit index, the vote result and the lead support expiration of a
    majority config do not depend on the order in which Go iterates over the
    map of voters. *)
Theorem quorum_iteration_order (c : idmap) (order : list PeerID) AckedIndex votes supported :
  order ≡ₚ elements (ids c) ->
  CommittedIndex_iter order AckedIndex = MajorityConfig_CommittedIndex c AckedIndex /\
  VoteResult_iter order votes = MajorityConfig_VoteResult c votes /\
  LeadSupportExpiration_iter order supported = MajorityConfig_LeadSupportExpiration c supported.
Proof.
  intros Hp. split_and!.
  - by apply CommittedIndex_iter_order.
  - by apply VoteResult_iter_order.
  - by apply LeadSupportExpiration_iter_order.
Qed.

Lemma MajorityConfig_VoteResult_won c votes :
  MajorityConfig_VoteResult c votes = VoteWon <-> ids c = ∅ \/ majority c (voted votes true).
Proof.
  unfold MajorityConfig_VoteResult, majority. rewrite VoteResult_iter_eq, <- len_elements.
  destruct (len (elements (ids c)) =? 0) eqn:E.
  - apply len_eqb_0, elements_empty_inv in E. split; [left; by apply leibniz_equiv|done].
  - assert (ids c <> ∅) as Hne by (intros H; rewrite H in E; done).
    destruct (countp (voted votes true) _ >=? _) eqn:Ew; [split; [right; lia|done]|].
    split; [case_match; discriminate|]. intros [|]; [done|lia].
Qed.

Lemma voted_unvoted_split votes votes' order :
  votes ⊆ votes' ->
  countp (voted votes' true) order <= countp (voted votes true) order + countp (unvoted votes) order.
Proof.
  intros Hsub. induction order as [|id order IH]; [done|]. rewrite !countp_cons.
  repeat case_decide; unfold voted, unvoted in *; try lia.
  destruct (votes !! id) as [b|] eqn:E; [|done].
  pose proof (lookup_weaken _ _ _ _ E Hsub) as E'. congruence.
Qed.

(** The votes in which every voter of [c] that has not voted votes yes. *)
Definition all_yes (c : idmap) (votes : gmap Z bool) : gmap Z bool :=
  votes ∪ gset_to_gmap true (ids c).

Lemma all_yes_count c votes :
  countp (voted (all_yes c votes) true) (elements (ids c))
  = countp (voted votes true) (elements (ids c)) + countp (unvoted votes) (elements (ids c)).
Proof.
  assert (forall id, id ∈ elements (ids c) -> id ∈ ids c) as Hin by (intros; by apply elem_of_elements).
  revert Hin. generalize (elements (ids c)) as order. induction order as [|id order IH]; intros Hin; [done|].
  rewrite !countp_cons, IH by (intros; apply Hin; by right).
  assert (all_yes c votes !! id = Some (default true (votes !! id))) as Ha.
  { unfold all_yes. rewrite lookup_union, lookup_gset_to_gmap.
    rewrite option_guard_True by (apply Hin; by left). by destruct (votes !! id). }
  destruct (votes !! id) as [[]|] eqn:E; simpl in Ha;
    repeat case_decide; unfold voted, unvoted in *; (lia || congruence).
Qed.

(** [MajorityConfig.VoteResult] reports a loss exactly when the vote is
    lost for good: no way of casting the missing votes turns it into a win. A
    win is equally final: it survives every extension of the votes. *)
Theorem MajorityConfig_VoteResult_final (c : idmap) (votes : gmap Z bool) :
  (MajorityConfig_VoteResult c votes = VoteLost <->
     forall votes', votes ⊆ votes' -> MajorityConfig_VoteResult c votes' <> VoteWon) /\
  (MajorityConfig_VoteResult c votes = VoteWon ->
     forall votes', votes ⊆ votes' -> MajorityConfig_VoteResult c votes' = VoteWon).
Proof.
  split; [split|].
  - intros Hlost votes' Hsub Hwon. apply MajorityConfig_VoteResult_won in Hwon as [He|Hm].
    + unfold MajorityConfig_VoteResult in Hlost. by rewrite He in Hlost.
    + unfold majority in Hm. rewrite <- len_elements in Hm.
      pose proof (voted_unvoted_split votes votes' (elements (ids c)) Hsub).
      unfold MajorityConfig_VoteResult in Hlost. rewrite VoteResult_iter_eq in Hlost.
      repeat case_match; (discriminate || lia).
  - intros Hall. destruct (MajorityConfig_VoteResult c votes) eqn:E; [exfalso|done|exfalso].
    + apply (Hall (all_yes c votes)); [apply map_union_subseteq_l|].
      apply MajorityConfig_VoteResult_won. right. unfold majority. rewrite all_yes_count, <- len_elements.
      unfold MajorityConfig_VoteResult in E. rewrite VoteResult_iter_eq in E.
      repeat case_match; (discriminate || lia).
    + by apply (Hall votes).
  - rewrite MajorityConfig_VoteResult_won. intros Hw votes' Hsub.
    apply MajorityConfig_VoteResult_won. destruct Hw as [He|Hm]; [by left|right].
    unfold majority in *. etransitivity; [apply Hm|].
    apply countp_impl. intros id _ Hv. by eapply lookup_weaken.
Qed.

(** ** Joint configurations *)

Lemma JointConfig_VoteResult_won c votes :
  JointConfig_VoteResult c votes = VoteWon <->
  MajorityConfig_VoteResult (fst c) votes = VoteWon /\ MajorityConfig_VoteResult (snd c) votes = VoteWon.
Proof.
  unfold JointConfig_VoteResult.
  destruct (MajorityConfig_VoteResult (fst c) votes), (MajorityConfig_VoteResult (snd c) votes);
    simpl; intuition congruence.
Qed.

Lemma CommittedIndex_empty c l : ids c = ∅ -> MajorityConfig_CommittedIndex c l = MaxUint64.
Proof. intros He. unfold MajorityConfig_CommittedIndex. by rewrite He. Qed.

(** [P] holds of a majority of [c], vacuously when [c] has no members. *)
Definition quorum_of (c : idmap) (P : PeerID -> Prop) {Pdec : forall id, Decision (P id)} : Prop :=
  ids c = ∅ \/ majority c P.

Lemma MajorityConfig_committed_quorum m AckedIndex y :
  0 < y <= MaxUint64 ->
  y <= MajorityConfig_CommittedIndex m AckedIndex <-> quorum_of m (acks AckedIndex y).
Proof.
  intros Hy. unfold quorum_of. destruct (decide (ids m = ∅)) as [He|Hne].
  - rewrite CommittedIndex_empty by done. split; [by left|lia].
  - rewrite (MajorityConfig_committed_iff m) by (done || lia). split; [by right|by intros [|]].
Qed.

Lemma JointConfig_committed_iff c AckedIndex y :
  0 < y <= MaxUint64 ->
  y <= JointConfig_CommittedIndex c AckedIndex <->
  quorum_of (fst c) (acks AckedIndex y) /\ quorum_of (snd c) (acks AckedIndex y).
Proof.
  intros Hy. rewrite <- !MajorityConfig_committed_quorum by done.
  unfold JointConfig_CommittedIndex. destruct (_ <? _) eqn:E; lia.
Qed.

Lemma JointConfig_won_iff c votes :
  JointConfig_VoteResult c votes = VoteWon <->
  quorum_of (fst c) (voted votes true) /\ quorum_of (snd c) (voted votes true).
Proof. by rewrite JointConfig_VoteResult_won, !MajorityConfig_VoteResult_won. Qed.

Lemma majority_intersect (c : idmap) P Q {Pdec : forall id, Decision (P id)} {Qdec : forall id, Decision (Q id)} :
  majority c P -> majority c Q -> exists id, id ∈ ids c /\ P id /\ Q id.
Proof.
  unfold majority. intros HP HQ. rewrite <- len_elements in *.
  destruct (majority_overlap P Q (elements (ids c))) as (id & Hid & ?).
  - pose proof (Z.mul_succ_div_gt (len (elements (ids c))) 2). lia.
  - exists id. split; [by apply elem_of_elements|done].
Qed.

Lemma quorum_intersect (c : idmap) P Q {Pdec : forall id, Decision (P id)} {Qdec : forall id, Decision (Q id)} :
  ids c <> ∅ -> quorum_of c P -> quorum_of c Q -> exists id, id ∈ ids c /\ P id /\ Q id.
Proof. intros Hne [|HP] [|HQ]; try done. by apply (majority_intersect c P Q). Qed.

(** ** Properties *)

(** [JointConfig.CommittedIndex] is the largest index acknowledged by a
    majority of each half of the configuration, an empty half imposing no
    condition: a positive index is at or below the result if and only if at
    least n/2+1 of the n voters of each non-empty half acknowledged it. *)
Theorem JointConfig_CommittedIndex_spec (c : JointConfig) (AckedIndex : PeerID -> option Z) (y : Z) :
  0 < y <= MaxUint64 ->
  y <= JointConfig_CommittedIndex c AckedIndex <->
  quorum_of (fst c) (acks AckedIndex y) /\ quorum_of (snd c) (acks AckedIndex y).
Proof. apply JointConfig_committed_iff. Qed.

Definition three_voters : JointConfig := (Some {[1; 2; 3]}, Some {[1; 2; 4]}).
Definition some_acks (id : Z) : option Z :=
  if id =? 1 then Some 12 else if id =? 2 then Some 5 else if id =? 3 then Some 9 else None.

Lemma JointConfig_CommittedIndex_spec_witness :
  quorum_of (fst three_voters) (acks some_acks 5) /\ quorum_of (snd three_voters) (acks some_acks 5) /\
  ~ (quorum_of (fst three_voters) (acks some_acks 6) /\ quorum_of (snd three_voters) (acks some_acks 6)).
Proof.
  assert (5 <= JointConfig_CommittedIndex three_voters some_acks) as H5 by (vm_compute; congruence).
  assert (~ 6 <= JointConfig_CommittedIndex three_voters some_acks) as H6 by (vm_compute; congruence).
  split; [|split].
  - apply (JointConfig_CommittedIndex_spec three_voters some_acks 5); [unfold MaxUint64; lia|done].
  - apply (JointConfig_CommittedIndex_spec three_voters some_acks 5); [unfold MaxUint64; lia|done].
  - intros Hq. apply H6.
    apply (JointConfig_CommittedIndex_spec three_voters some_acks 6); [unfold MaxUint64; lia|done].
Defined.

(** C14. Quorum intersection in a joint configuration with a non-empty incoming
    half: two winning vote counts share a voter that voted yes in both, and a
    winning vote count shares a voter with the acknowledgers of every committed
    index. The latter is what makes an elected leader aware of every committed
    entry. *)
Theorem JointConfig_quorum_overlap (c : JointConfig) AckedIndex votes1 votes2 y :
  ids (fst c) <> ∅ -> 0 < y <= MaxUint64 ->
  JointConfig_VoteResult c votes1 = VoteWon ->
  (JointConfig_VoteResult c votes2 = VoteWon ->
     exists id, id ∈ ids (fst c) /\ votes1 !! id = Some true /\ votes2 !! id = Some true) /\
  (y <= JointConfig_CommittedIndex c AckedIndex ->
     exists id, id ∈ ids (fst c) /\ votes1 !! id = Some true /\ acks AckedIndex y id).
Proof.
  intros Hne Hy [Hv1 _]%JointConfig_won_iff. split.
  - intros [Hv2 _]%JointConfig_won_iff.
    by apply (quorum_intersect (fst c) (voted votes1 true) (voted votes2 true)).
  - intros [Hc _]%JointConfig_committed_iff; [|done].
    by apply (quorum_intersect (fst c) (voted votes1 true) (acks AckedIndex y)).
Qed.

Lemma JointConfig_quorum_overlap_witness :
  exists id, id ∈ ids (fst three_voters) /\ ({[1 := true; 2 := true]} : gmap Z bool) !! id = Some true
    /\ acks some_acks 5 id.
Proof.
  apply (JointConfig_quorum_overlap three_voters some_acks {[1 := true; 2 := true]} ∅ 5).
  - vm_compute. congruence.
  - unfold MaxUint64. lia.
  - reflexivity.
  - vm_compute. congruence.
Defined.

Definition supports (supported : gmap Z Timestamp) (t : Timestamp) (id : PeerID) : Prop :=
  match supported !! id with Some e => ts_le t e | None => False end.

#[global] Instance supports_dec s t id : Decision (supports s t id).
Proof. unfold supports. destruct (s !! id); apply _. Defined.

Lemma MajorityConfig_expiration_quorum m supported t :
  ts_le MinTimestamp t -> ts_le t MaxTimestamp ->
  ts_le t (MajorityConfig_LeadSupportExpiration m supported) <-> quorum_of m (supports supported t).
Proof.
  intros Hmin Hmax. unfold MajorityConfig_LeadSupportExpiration, LeadSupportExpiration_iter, quorum_of, majority.
  rewrite <- len_elements. destruct (len (elements (ids m)) =? 0) eqn:E.
  - apply len_eqb_0, elements_empty_inv, leibniz_equiv in E. split; [by left|done].
  - assert (ids m <> ∅) as Hne by (intros H; rewrite H in E; done).
    rewrite (quorum_select ts_le) by (by apply elements_ne).
    rewrite (countp_ext _ (supports supported t)).
    + split; [by right|by intros [|]].
    + intros id _. unfold supports. destruct (supported !! id); simpl; [done|].
      split; [|done]. intros Ht. assert (ts_le MinTimestamp (mkTimestamp 0 0)) as Hbad by (by transitivity t).
      unfold ts_le in Hbad. simpl in Hbad. lia.
Qed.

(** [JointConfig.LeadSupportExpiration] is the largest timestamp up to which
    a majority of each half of the configuration has promised its support. *)
Theorem JointConfig_LeadSupportExpiration_spec (c : JointConfig) (supported : gmap Z Timestamp) t :
  ts_le MinTimestamp t -> ts_le t MaxTimestamp ->
  ts_le t (JointConfig_LeadSupportExpiration c supported) <->
  quorum_of (fst c) (supports supported t) /\ quorum_of (snd c) (supports supported t).
Proof.
  intros Hmin Hmax. rewrite <- !MajorityConfig_expiration_quorum by done.
  unfold JointConfig_LeadSupportExpiration. apply Timestamp_Backward_le.
Qed.

Lemma JointConfig_LeadSupportExpiration_spec_witness :
  quorum_of (Some {[1; 2; 3]})
    (supports {[1 := mkTimestamp 10 0; 2 := mkTimestamp 7 3]} (mkTimestamp 7 2)).
Proof.
  apply (JointConfig_LeadSupportExpiration_spec (Some {[1; 2; 3]}, None)
    {[1 := mkTimestamp 10 0; 2 := mkTimestamp 7 3]} (mkTimestamp 7 2)).
  - apply Timestamp_LessEq_spec. reflexivity.
  - apply Timestamp_LessEq_spec. reflexivity.
  - apply Timestamp_LessEq_spec. reflexivity.
Defined.

Lemma quorum_iteration_order_witness :
  CommittedIndex_iter [3; 1; 2] some_acks = 9.
Proof.
  destruct (quorum_iteration_order (fst three_voters) [3; 1; 2] some_acks ∅ ∅) as [-> _].
  - change (elements _) with [3; 2; 1]. do 2 constructor.
  - reflexivity.
Defined.

(** [Clone] copies the members but not [AutoLeave]. *)
Lemma Config_Clone_fields (c : Config) :
  Voters (Config_Clone c) = Voters c /\ Learners (Config_Clone c) = Learners c /\
  LearnersNext (Config_Clone c) = LearnersNext c /\ AutoLeave (Config_Clone c) = false.
Proof. unfold Config_Clone. destruct (Voters c). split_and!; done. Qed.
