(* ===== verification/Tracker.v ===== *)
(** * Progress tracking (src/pkg/raft/tracker)

    The leader's view of each follower: the in-flight window [Inflights] (a ring
    buffer that grows on demand), the [Progress] state machine, the
    [ProgressTracker] that aggregates the progress of the active configuration,
    and the [ElectionTracker] that counts votes.

    [Progress] objects are reached through a Go map of pointers, one object per
    peer; the map is a [gmap] from peer to [Progress], and code that mutates
    [*pr] re-inserts it. The configuration pointer shared by the trackers is an
    argument of the operations that read it. *)

From S2P Require Import Prelude Hlc Quorum.

(** ** inflights.go *)

Record inflight : Type := mkInflight { if_index : Z; if_bytes : Z }.

Record Inflights : Type := mkInflights {
  in_start : Z;
  in_count : Z;
  in_bytes : Z;
  in_size : Z;
  in_maxBytes : Z;
  in_buffer : list inflight
}.

#[global] Instance inflight_inhabited : Inhabited inflight := populate (mkInflight 0 0).
#[global] Instance inflight_eq_dec : EqDecision inflight.
Proof. solve_decision. Defined.
#[global] Instance Inflights_eq_dec : EqDecision Inflights.
Proof. solve_decision. Defined.

#[global] Instance eta_Inflights : Eta Inflights := fun i =>
  mkInflights (in_start i) (in_count i) (in_bytes i) (in_size i) (in_maxBytes i) (in_buffer i).

Definition NewInflights (size maxBytes : Z) : Inflights := mkInflights 0 0 0 size maxBytes [].

Definition Inflights_Full (i : Inflights) : bool :=
  (in_count i =? in_size i) || (negb (in_maxBytes i =? 0) && (in_bytes i >=? in_maxBytes i)).

Definition Inflights_Count (i : Inflights) : Z := in_count i.

Definition Inflights_grow (i : Inflights) : Inflights :=
  let newSize := len (in_buffer i) * 2 in
  let newSize := if newSize =? 0 then 1
                 else if newSize >? in_size i then in_size i else newSize in
  (* copy(newBuffer, in.buffer) into a zeroed buffer of newSize elements *)
  let kept := take (Z.to_nat newSize) (in_buffer i) in
  let newBuffer := kept ++ replicate (Z.to_nat newSize - length kept) (mkInflight 0 0) in
  i <| in_buffer := newBuffer |>.

Definition Inflights_Add (i : Inflights) (index bytes : Z) : outcome Inflights :=
  if Inflights_Full i then Panic "cannot add into a Full inflights"
  else
    let next := in_start i + in_count i in
    let size := in_size i in
    let next := if next >=? size then next - size else next in
    let i := if next >=? len (in_buffer i) then Inflights_grow i else i in
    let! buffer := slice_set (in_buffer i) next (mkInflight index bytes) in
    Ret (i <| in_buffer := buffer |>
           <| in_count := in_count i + 1 |>
           <| in_bytes := in_bytes i +u bytes |>).

(** The loop of [FreeLE]: [n] iterations are left; [k], [bytes] and [idx] are
    the loop variables. *)
Fixpoint FreeLE_loop (i : Inflights) (to : Z) (n : nat) (k bytes idx : Z) : outcome (Z * Z * Z) :=
  match n with
  | O => Ret (k, bytes, idx)
  | S n =>
    let! x := slice_get (in_buffer i) idx in
    if to <? if_index x then Ret (k, bytes, idx)
    else
      let bytes := bytes +u if_bytes x in
      let idx := idx + 1 in
      let idx := if idx >=? in_size i then idx - in_size i else idx in
      FreeLE_loop i to n (k + 1) bytes idx
  end.

Definition Inflights_FreeLE (i : Inflights) (to : Z) : outcome Inflights :=
  if in_count i =? 0 then Ret i
  else
    let! first := slice_get (in_buffer i) (in_start i) in
    if to <? if_index first then Ret i
    else
      let! '(k, bytes, idx) := FreeLE_loop i to (Z.to_nat (in_count i)) 0 0 (in_start i) in
      let i := i <| in_count := in_count i - k |> <| in_bytes := in_bytes i -u bytes |>
                 <| in_start := idx |> in
      Ret (if in_count i =? 0 then i <| in_start := 0 |> else i).

Definition Inflights_reset (i : Inflights) : Inflights :=
  i <| in_start := 0 |> <| in_count := 0 |> <| in_bytes := 0 |>.

(** ** state.go *)

Inductive ProgressStateType : Set := StateProbe | StateReplicate | StateSnapshot.

#[global] Instance ProgressStateType_eq_dec : EqDecision ProgressStateType.
Proof. solve_decision. Defined.

(** ** progress.go *)

Record Progress : Type := mkProgress {
  Match : Z;
  Next : Z;
  SentCommit : Z;
  MatchCommit : Z;
  State : ProgressStateType;
  PendingSnapshot : Z;
  RecentActive : bool;
  MsgAppProbesPaused : bool;
  PInflights : Inflights;
  IsLearner : bool
}.

#[global] Instance eta_Progress : Eta Progress := fun pr =>
  mkProgress (Match pr) (Next pr) (SentCommit pr) (MatchCommit pr) (State pr)
    (PendingSnapshot pr) (RecentActive pr) (MsgAppProbesPaused pr) (PInflights pr) (IsLearner pr).

#[global] Instance Progress_eq_dec : EqDecision Progress.
Proof. solve_decision. Defined.

Definition Progress_ResetState (pr : Progress) (state : ProgressStateType) : Progress :=
  pr <| MsgAppProbesPaused := false |>
     <| PendingSnapshot := 0 |>
     <| State := state |>
     <| PInflights := Inflights_reset (PInflights pr) |>.

Definition Progress_BecomeProbe (pr : Progress) : Progress :=
  let pr :=
    if bool_decide (State pr = StateSnapshot) then
      let pendingSnapshot := PendingSnapshot pr in
      let pr := Progress_ResetState pr StateProbe in
      pr <| Next := Z.max (Match pr +u 1) (pendingSnapshot +u 1) |>
    else
      let pr := Progress_ResetState pr StateProbe in
      pr <| Next := Match pr +u 1 |> in
  pr <| SentCommit := Z.min (SentCommit pr) (Next pr -u 1) |>.

Definition Progress_BecomeReplicate (pr : Progress) : Progress :=
  let pr := Progress_ResetState pr StateReplicate in
  pr <| Next := Match pr +u 1 |>.

Definition Progress_BecomeSnapshot (pr : Progress) (snapshoti : Z) : Progress :=
  let pr := Progress_ResetState pr StateSnapshot in
  pr <| PendingSnapshot := snapshoti |>
     <| Next := snapshoti +u 1 |>
     <| SentCommit := snapshoti |>.

Definition Progress_SentEntries (pr : Progress) (entries bytes : Z) : outcome Progress :=
  let! pr :=
    if bool_decide (State pr = StateReplicate) && (entries >? 0) then
      let pr := pr <| Next := Next pr +u entries |> in
      let! inflights := Inflights_Add (PInflights pr) (Next pr -u 1) bytes in
      Ret (pr <| PInflights := inflights |>)
    else Ret pr in
  Ret (pr <| MsgAppProbesPaused := true |>).

Definition Progress_CanSendEntries (pr : Progress) (lastIndex : Z) : bool :=
  (Next pr <=? lastIndex) &&
  (bool_decide (State pr = StateProbe) || negb (Inflights_Full (PInflights pr))).

Definition Progress_CanBumpCommit (pr : Progress) (index : Z) : bool :=
  (index >? SentCommit pr) && (SentCommit pr <? Next pr -u 1).

Definition Progress_IsFollowerCommitStale (pr : Progress) (index : Z) : bool :=
  (index >? MatchCommit pr) && (MatchCommit pr +u 1 <? Next pr).

Definition Progress_MaybeUpdateSentCommit (pr : Progress) (commit : Z) : Progress :=
  if commit >? SentCommit pr then pr <| SentCommit := commit |> else pr.

Definition Progress_MaybeUpdate (pr : Progress) (n : Z) : Progress * bool :=
  if n <=? Match pr then (pr, false)
  else
    let pr := pr <| Match := n |> in
    (pr <| Next := Z.max (Next pr) (n +u 1) |>, true).

Definition Progress_MaybeUpdateMatchCommit (pr : Progress) (commit : Z) : Progress :=
  if commit >? MatchCommit pr then
    pr <| MatchCommit := commit |> <| SentCommit := Z.max (SentCommit pr) commit |>
  else pr.

Definition Progress_MaybeDecrTo (pr : Progress) (rejected matchHint : Z) : Progress * bool :=
  if bool_decide (State pr = StateReplicate) then
    if rejected <=? Match pr then (pr, false)
    else
      let pr := pr <| Next := Match pr +u 1 |> in
      (pr <| SentCommit := Z.min (SentCommit pr) (Next pr -u 1) |>, true)
  else if negb (Next pr -u 1 =? rejected) then (pr, false)
  else
    let pr := pr <| Next := Z.max (Z.min rejected (matchHint +u 1)) (Match pr +u 1) |> in
    let pr := pr <| SentCommit := Z.min (SentCommit pr) (Next pr -u 1) |> in
    (pr <| MsgAppProbesPaused := false |>, true).

Definition Progress_IsPaused (pr : Progress) : bool :=
  match State pr with
  | StateProbe => MsgAppProbesPaused pr
  | StateReplicate => MsgAppProbesPaused pr && Inflights_Full (PInflights pr)
  | StateSnapshot => true
  end.

Definition Progress_ShouldSendMsgApp (pr : Progress) (last commit : Z) (advanceCommit : bool) : bool :=
  match State pr with
  | StateProbe => negb (MsgAppProbesPaused pr)
  | StateReplicate =>
    if Progress_CanSendEntries pr last then true
    else if (Match pr <? last) && negb (MsgAppProbesPaused pr) then true
    else if Progress_CanBumpCommit pr commit then true
    else if advanceCommit then
      Progress_IsFollowerCommitStale pr commit && negb (MsgAppProbesPaused pr)
    else false
  | StateSnapshot => false
  end.

(** ** progresstracker.go *)

Abbreviation ProgressMap := (gmap Z Progress).

(** The sorted ids over which [Visit] calls its argument. *)
Definition ProgressTracker_Visit_ids (progress : ProgressMap) : list PeerID :=
  merge_sort Z.le (elements (dom progress)).

Definition matchAckIndexer_AckedIndex (progress : ProgressMap) (id : PeerID) : option Z :=
  match progress !! id with
  | None => None
  | Some pr => Some (Match pr)
  end.

Definition ProgressTracker_Committed (config : Config) (progress : ProgressMap) : Z :=
  JointConfig_CommittedIndex (Voters config) (matchAckIndexer_AckedIndex progress).

Definition ProgressTracker_QuorumActive (config : Config) (progress : ProgressMap) : bool :=
  let votes := fold_left (fun votes id =>
    match progress !! id with
    | None => votes
    | Some pr => if IsLearner pr then votes else <[id := RecentActive pr]> votes
    end) (ProgressTracker_Visit_ids progress) (∅ : gmap Z bool) in
  bool_decide (JointConfig_VoteResult (Voters config) votes = VoteWon).

Definition ProgressTracker_VoterNodes (config : Config) : list PeerID :=
  merge_sort Z.le (elements (JointConfig_IDs (Voters config))).

Definition ProgressTracker_LearnerNodes (config : Config) : list PeerID :=
  if map_len (Learners config) =? 0 then []
  else merge_sort Z.le (elements (ids (Learners config))).

(** ** electiontracker.go: the state is the map of votes *)

Definition ElectionTracker_RecordVote (votes : gmap Z bool) (id : PeerID) (vote : bool) : gmap Z bool :=
  match votes !! id with
  | Some _ => votes
  | None => <[id := vote]> votes
  end.

Definition ElectionTracker_TallyVotes (config : Config) (votes : gmap Z bool) : Z * Z * VoteResult :=
  let '(granted, rejected) :=
    fold_left (fun '(granted, rejected) '(id, v) =>
      if bool_decide (id ∈ ids (Learners config)) then (granted, rejected)
      else if (v : bool) then (granted + 1, rejected) else (granted, rejected + 1))
      (map_to_list votes) (0, 0) in
  (granted, rejected, JointConfig_VoteResult (Voters config) votes).

Definition ElectionTracker_ResetVotes (votes : gmap Z bool) : gmap Z bool := ∅.

(** ** The in-flight window as a queue *)

(** Buffer position of the [k]-th in-flight message. *)
Definition in_pos (i : Inflights) (k : Z) : Z :=
  if in_start i + k >=? in_size i then in_start i + k - in_size i else in_start i + k.

(** The in-flight messages, oldest first. *)
Definition in_window (i : Inflights) : list inflight :=
  map (fun k => in_buffer i !!! Z.to_nat (in_pos i (Z.of_nat k))) (seq 0 (Z.to_nat (in_count i))).

Definition sum_bytes (q : list inflight) : Z := foldr (fun x acc => if_bytes x + acc) 0 q.

Definition Inflights_wf (i : Inflights) : Prop :=
  (0 <= in_start i /\ (in_count i = 0 -> in_start i = 0)) /\
  0 <= in_count i <= in_size i /\ len (in_buffer i) <= in_size i /\
  (in_start i + in_count i <= len (in_buffer i) \/
   (len (in_buffer i) = in_size i /\ in_start i < in_size i)) /\
  in_bytes i = u64 (sum_bytes (in_window i)).

(** The specification: a bounded queue. *)
Definition queue_Full (size maxBytes : Z) (q : list inflight) : bool :=
  (len q =? size) || (negb (maxBytes =? 0) && (u64 (sum_bytes q) >=? maxBytes)).

Fixpoint queue_FreeLE (q : list inflight) (to : Z) : list inflight :=
  match q with
  | [] => []
  | x :: q' => if to <? if_index x then q else queue_FreeLE q' to
  end.

Lemma sum_bytes_app q r : sum_bytes (q ++ r) = sum_bytes q + sum_bytes r.
Proof. induction q as [|x q IH]; simpl; [done|]. rewrite IH. lia. Qed.

Lemma in_window_len i : 0 <= in_count i -> len (in_window i) = in_count i.
Proof. intros H. unfold in_window, len. rewrite length_map, length_seq. lia. Qed.

Lemma in_pos_range i k :
  Inflights_wf i -> 0 <= k < in_count i -> 0 <= in_pos i k < len (in_buffer i).
Proof.
  intros (? & ? & ? & Hd & _) Hk. unfold in_pos. destruct (_ >=? _) eqn:E; lia.
Qed.

Lemma Inflights_Full_spec i :
  Inflights_wf i -> Inflights_Full i = queue_Full (in_size i) (in_maxBytes i) (in_window i).
Proof.
  intros (_ & Hc & _ & _ & Hb). unfold Inflights_Full, queue_Full.
  rewrite in_window_len by lia. by rewrite Hb.
Qed.

Lemma Inflights_grow_spec i :
  0 < len (in_buffer i) < in_size i \/ (len (in_buffer i) = 0 /\ 0 < in_size i) ->
  len (in_buffer i) < len (in_buffer (Inflights_grow i)) <= in_size i /\
  exists pad, in_buffer (Inflights_grow i) = in_buffer i ++ pad.
Proof.
  intros Hl. unfold Inflights_grow. simpl.
  set (n := if _ =? 0 then 1 else _).
  assert (len (in_buffer i) < n <= in_size i) as Hn by (unfold n; repeat case_match; lia).
  clearbody n. unfold len in *.
  rewrite take_ge by lia. split; [|eauto].
  rewrite length_app, length_replicate. lia.
Qed.

Lemma in_window_ext i j :
  in_start i = in_start j -> in_count i = in_count j -> in_size i = in_size j ->
  (forall k, 0 <= k < in_count i ->
     in_buffer i !!! Z.to_nat (in_pos i k) = in_buffer j !!! Z.to_nat (in_pos i k)) ->
  in_window i = in_window j.
Proof.
  intros Hs Hc Hz Hb. unfold in_window. rewrite Hc. apply map_ext_in. intros k Hk.
  apply in_seq in Hk. rewrite Hb by lia. unfold in_pos. by rewrite Hs, Hz.
Qed.

Lemma in_window_S i x :
  0 <= in_count i ->
  in_buffer i !!! Z.to_nat (in_pos i (in_count i)) = x ->
  in_window (i <| in_count := in_count i + 1 |>) = in_window i ++ [x].
Proof.
  intros Hc Hx. unfold in_window. simpl.
  replace (Z.to_nat (in_count i + 1)) with (S (Z.to_nat (in_count i))) by lia.
  rewrite seq_S, map_app. simpl. f_equal. f_equal.
  rewrite <- Hx. unfold in_pos. simpl. by rewrite Z2Nat.id.
Qed.

Lemma Inflights_Add_spec i index bytes :
  Inflights_wf i -> Inflights_Full i = false ->
  exists i', Inflights_Add i index bytes = Ret i' /\ Inflights_wf i' /\
    in_size i' = in_size i /\ in_maxBytes i' = in_maxBytes i /\
    in_window i' = in_window i ++ [mkInflight index bytes].
Proof.
  intros Hwf Hfull. pose proof Hwf as (Hs & Hc & Hl & Hd & Hb).
  unfold Inflights_Add. rewrite Hfull.
  assert (in_count i < in_size i) as Hlt.
  { unfold Inflights_Full in Hfull. apply orb_false_iff in Hfull as [Hf _]. lia. }
  cbv zeta. fold (in_pos i (in_count i)). set (next := in_pos i (in_count i)).
  assert (0 <= next <= len (in_buffer i) /\ next < in_size i) as Hnext.
  { unfold next, in_pos. destruct (_ >=? _) eqn:E; lia. }
  set (j := if next >=? len (in_buffer i) then Inflights_grow i else i).
  assert (in_start j = in_start i /\ in_count j = in_count i /\ in_size j = in_size i /\
    in_maxBytes j = in_maxBytes i /\ in_bytes j = in_bytes i) as (Ej1 & Ej2 & Ej3 & Ej4 & Ej5).
  { unfold j. by case_match. }
  assert (next < len (in_buffer j) <= in_size i /\ len (in_buffer i) <= len (in_buffer j) /\
    exists pad, in_buffer j = in_buffer i ++ pad) as (Hj & Hj' & pad & Hpad).
  { unfold j. destruct (next >=? len (in_buffer i)) eqn:E.
    - destruct (Inflights_grow_spec i) as [? [pad ?]]; [pose proof (len_nonneg (in_buffer i)); lia|].
      split; [lia|]. split; [lia|]. eauto.
    - split; [lia|]. split; [lia|]. exists []. by rewrite app_nil_r. }
  rewrite slice_set_ok by lia. simpl.
  set (b := <[Z.to_nat next := _]> (in_buffer j)).
  set (i' := mkInflights (in_start j) (in_count j + 1) (in_bytes j +u bytes) (in_size j) (in_maxBytes j) b).
  exists i'. split; [done|].
  assert (in_window i' = in_window i ++ [mkInflight index bytes]) as Hw.
  { set (i0 := j <| in_buffer := b |>).
    transitivity (in_window (i0 <| in_count := in_count i0 + 1 |>)); [apply in_window_ext; done|].
    rewrite (in_window_S i0 (mkInflight index bytes)).
    - f_equal. apply in_window_ext; try done. simpl. intros k Hk.
      replace (in_pos i0 k) with (in_pos i k) by (unfold in_pos; simpl; by rewrite Ej1, Ej3).
      pose proof (in_pos_range i k Hwf ltac:(lia)) as Hp.
      unfold b. rewrite list_lookup_total_insert_ne.
      + rewrite Hpad. apply lookup_total_app_l. unfold len in Hp. lia.
      + unfold next, in_pos in *. repeat case_match; lia.
    - simpl. lia.
    - simpl. replace (in_pos i0 (in_count j)) with next
        by (unfold next, in_pos; simpl; by rewrite Ej1, Ej2, Ej3).
      unfold b. apply list_lookup_total_insert_eq. unfold len in Hj. lia. }
  assert (len b = len (in_buffer j)) as Hlb by (unfold b, len; by rewrite length_insert).
  split; [|split_and!; done].
  unfold Inflights_wf. rewrite Hw, sum_bytes_app. simpl. rewrite Hlb, Ej1, Ej2, Ej3.
  split_and!; try lia.
  - unfold next, in_pos in *. repeat case_match; lia.
  - rewrite Ej5, Hb, u64_add_u64_l. f_equal. lia.
Qed.

Lemma in_window_cons i :
  Inflights_wf i -> 0 < in_count i ->
  slice_get (in_buffer i) (in_start i) = Ret (in_buffer i !!! Z.to_nat (in_start i)) /\
  in_start i < in_size i.
Proof.
  intros Hwf Hc. pose proof Hwf as (Hs & _ & Hl & Hd & _).
  pose proof (in_pos_range i 0 Hwf ltac:(lia)) as Hp.
  assert (in_start i < in_size i) as Hlt by lia.
  split; [|done]. apply slice_get_total.
  unfold in_pos in Hp. destruct (_ >=? _) eqn:E; lia.
Qed.

(** The loop frees the longest prefix of the window with indexes up to [to]. *)
Lemma FreeLE_loop_spec i to (Hwf : Inflights_wf i) :
  forall n k bytes,
  (n <= Z.to_nat (in_count i))%nat -> k = in_count i - Z.of_nat n -> is_u64 bytes ->
  bytes = u64 (sum_bytes (take (Z.to_nat k) (in_window i))) ->
  let idx := if in_start i + k >=? in_size i then in_start i + k - in_size i else in_start i + k in
  exists k', FreeLE_loop i to n k bytes idx =
      Ret (k', u64 (sum_bytes (take (Z.to_nat k') (in_window i))), in_pos i k') /\
    k <= k' <= in_count i /\
    drop (Z.to_nat k') (in_window i) = queue_FreeLE (drop (Z.to_nat k) (in_window i)) to.
Proof.
  pose proof Hwf as (Hs & Hc & Hl & Hd & _).
  induction n as [|n IH]; intros k bytes Hn Hk Hb Hbytes idx.
  - exists k. simpl. subst bytes. split; [done|]. split; [lia|].
    rewrite drop_ge; [done|]. pose proof (in_window_len i). unfold len in *. lia.
  - simpl. pose proof (in_pos_range i k Hwf ltac:(lia)) as Hp.
    fold (in_pos i k) in idx. unfold idx in *. clear idx.
    rewrite slice_get_total by done. simpl.
    set (x := in_buffer i !!! Z.to_nat (in_pos i k)).
    assert (in_window i !! Z.to_nat k = Some x) as Hx.
    { unfold in_window. rewrite list_lookup_fmap.
      rewrite lookup_seq_lt by lia. simpl. unfold x. by rewrite Z2Nat.id by lia. }
    rewrite (drop_S _ x) by done. simpl.
    destruct (to <? if_index x) eqn:E.
    + exists k. subst bytes. split; [done|]. split; [lia|]. by apply drop_S.
    + assert (S (Z.to_nat k) = Z.to_nat (k + 1)) as HS by lia.
      destruct (IH (k + 1) (u64 (bytes + if_bytes x))) as (k' & Hloop & Hk' & Hdrop); try lia.
      * apply u64_is_u64.
      * rewrite Hbytes, u64_add_u64_l. rewrite <- HS, (take_S_r _ _ x) by done.
        rewrite sum_bytes_app. simpl. f_equal. lia.
      * exists k'. rewrite HS. split; [|split; [lia|done]].
        rewrite <- Hloop. f_equal. unfold in_pos. repeat case_match; lia.
Qed.

Lemma in_window_lookup i n :
  in_window i !! n =
    if decide (n < Z.to_nat (in_count i))%nat then
      Some (in_buffer i !!! Z.to_nat (in_pos i (Z.of_nat n))) else None.
Proof.
  unfold in_window. rewrite list_lookup_fmap. case_decide.
  - by rewrite lookup_seq_lt.
  - by rewrite lookup_seq_ge by lia.
Qed.

Lemma in_window_drop i k :
  Inflights_wf i -> 0 <= k <= in_count i ->
  in_window (i <| in_count := in_count i - k |> <| in_start := in_pos i k |>)
  = drop (Z.to_nat k) (in_window i).
Proof.
  intros (Hs & Hc & Hl & Hd & _) Hk. apply list_eq. intros n.
  rewrite lookup_drop, !in_window_lookup. simpl.
  repeat case_decide; try lia; [|done]. do 3 f_equal.
  unfold in_pos. simpl. repeat case_match; blia.
Qed.

Lemma Inflights_FreeLE_spec i to :
  Inflights_wf i ->
  exists i', Inflights_FreeLE i to = Ret i' /\ Inflights_wf i' /\
    in_size i' = in_size i /\ in_maxBytes i' = in_maxBytes i /\
    in_window i' = queue_FreeLE (in_window i) to.
Proof.
  intros Hwf. pose proof Hwf as (Hs & Hc & Hl & Hd & Hb). unfold Inflights_FreeLE.
  destruct (in_count i =? 0) eqn:Ec.
  { exists i. split_and!; try done. unfold in_window. replace (in_count i) with 0 by lia. done. }
  destruct (in_window_cons i Hwf ltac:(lia)) as [-> Hlt]. simpl.
  set (x := in_buffer i !!! Z.to_nat (in_start i)).
  assert (in_window i = x :: drop 1 (in_window i)) as Hx.
  { apply (drop_S (in_window i) x 0). rewrite in_window_lookup. rewrite decide_True by lia.
    unfold x, in_pos. rewrite Z.add_0_r. by case_match; [lia|]. }
  destruct (to <? if_index x) eqn:Et.
  { exists i. split_and!; try done. rewrite Hx. simpl. by rewrite Et. }
  destruct (FreeLE_loop_spec i to Hwf (Z.to_nat (in_count i)) 0 0) as (k & Hloop & Hk & Hdrop); try done.
  { lia. }
  rewrite Z.add_0_r in Hloop.
  replace (in_start i >=? in_size i) with false in Hloop by lia.
  rewrite Hloop. simpl. clear Hloop. simpl in Hdrop. rewrite drop_0 in Hdrop.
  rewrite <- Hdrop, <- in_window_drop by (done || lia).
  set (j := i <| in_count := in_count i - k |> <| in_start := in_pos i k |>).
  assert (u64 (in_bytes i - u64 (sum_bytes (take (Z.to_nat k) (in_window i)))) =
    u64 (sum_bytes (in_window j))) as Hbytes.
  { rewrite Hb, u64_sub_u64. unfold j. rewrite in_window_drop by (done || lia).
    rewrite <- (take_drop (Z.to_nat k) (in_window i)) at 1. rewrite sum_bytes_app. f_equal. lia. }
  destruct (in_count i - k =? 0) eqn:E0.
  - eexists. split; [done|]. simpl. split.
    + split_and!; simpl; try lia; try done. rewrite Hbytes. f_equal.
      unfold in_window. simpl. by replace (in_count i - k) with 0 by lia.
    + split_and!; try done. unfold in_window. simpl. by replace (in_count i - k) with 0 by lia.
  - eexists. split; [done|]. simpl. split; [|by split_and!].
    pose proof (in_pos_range i k Hwf ltac:(lia)).
    split_and!; simpl; try lia.
    + unfold in_pos. case_match; lia.
    + rewrite Hbytes. done.
Qed.

Lemma NewInflights_wf size maxBytes : 0 <= size -> Inflights_wf (NewInflights size maxBytes).
Proof. intros H. unfold Inflights_wf. simpl. unfold len. simpl. split_and!; try lia. done. Qed.

Lemma Inflights_reset_wf i : Inflights_wf i -> Inflights_wf (Inflights_reset i) /\ in_window (Inflights_reset i) = [].
Proof.
  intros (? & ? & ? & ? & ?). split; [|done]. unfold Inflights_wf. simpl.
  pose proof (len_nonneg (in_buffer i)). split_and!; try lia. done.
Qed.

(** Operations on the window, and their effect on the ring buffer and on the
    queue; [None] is a panic. *)
Inductive inflight_op : Type :=
| OpAdd (index bytes : Z)
| OpFreeLE (to : Z)
| OpReset.

Fixpoint Inflights_run (i : Inflights) (ops : list inflight_op) : outcome Inflights :=
  match ops with
  | [] => Ret i
  | OpAdd index bytes :: ops => let! i := Inflights_Add i index bytes in Inflights_run i ops
  | OpFreeLE to :: ops => let! i := Inflights_FreeLE i to in Inflights_run i ops
  | OpReset :: ops => Inflights_run (Inflights_reset i) ops
  end.

Fixpoint queue_run (size maxBytes : Z) (q : list inflight) (ops : list inflight_op) : option (list inflight) :=
  match ops with
  | [] => Some q
  | OpAdd index bytes :: ops =>
    if queue_Full size maxBytes q then None
    else queue_run size maxBytes (q ++ [mkInflight index bytes]) ops
  | OpFreeLE to :: ops => queue_run size maxBytes (queue_FreeLE q to) ops
  | OpReset :: ops => queue_run size maxBytes [] ops
  end.

Lemma Inflights_run_spec ops i :
  Inflights_wf i ->
  match queue_run (in_size i) (in_maxBytes i) (in_window i) ops with
  | Some q => exists i', Inflights_run i ops = Ret i' /\ Inflights_wf i' /\ in_window i' = q
  | None => Inflights_run i ops = Panic "cannot add into a Full inflights"
  end.
Proof.
  revert i. induction ops as [|[index bytes|to|] ops IH]; intros i Hwf; simpl.
  - exists i. done.
  - rewrite <- Inflights_Full_spec by done. destruct (Inflights_Full i) eqn:E.
    + unfold Inflights_Add. by rewrite E.
    + destruct (Inflights_Add_spec i index bytes Hwf E) as (i' & -> & Hwf' & Hs & Hm & <-).
      rewrite <- Hs, <- Hm. simpl. by apply IH.
  - destruct (Inflights_FreeLE_spec i to Hwf) as (i' & -> & Hwf' & Hs & Hm & <-).
    rewrite <- Hs, <- Hm. simpl. by apply IH.
  - destruct (Inflights_reset_wf i Hwf) as [Hwf' Hw]. rewrite <- Hw. by apply (IH (Inflights_reset i)).
Qed.

(** The ring buffer refines a bounded FIFO queue. For every sequence of
    [Add], [FreeLE] and [reset] calls on a new window of any size, the ring
    buffer never reads or writes out of range, panics exactly when the queue is
    asked to take a message while full, and otherwise holds exactly the messages
    of the queue in order, with [Full] and the byte count agreeing. *)
Theorem Inflights_refines_queue (size maxBytes : Z) (ops : list inflight_op) :
  0 <= size ->
  match queue_run size maxBytes [] ops with
  | Some q => exists i, Inflights_run (NewInflights size maxBytes) ops = Ret i /\
      in_window i = q /\ Inflights_Count i = len q /\ in_bytes i = u64 (sum_bytes q) /\
      Inflights_wf i
  | None => Inflights_run (NewInflights size maxBytes) ops = Panic "cannot add into a Full inflights"
  end.
Proof.
  intros Hs. pose proof (Inflights_run_spec ops _ (NewInflights_wf size maxBytes Hs)) as H.
  change (in_window (NewInflights size maxBytes)) with (@nil inflight) in H. simpl in H.
  destruct (queue_run size maxBytes [] ops) as [q|]; [|done].
  destruct H as (i & Hrun & Hwf & <-). exists i. pose proof Hwf as (_ & Hc & _ & _ & Hb).
  split_and!; try done. unfold Inflights_Count. rewrite in_window_len; lia.
Qed.

Lemma Inflights_refines_queue_witness :
  exists i, Inflights_run (NewInflights 3 100)
    [OpAdd 1 10; OpAdd 2 20; OpFreeLE 1; OpAdd 3 30; OpAdd 4 5; OpFreeLE 3] = Ret i /\
    in_window i = [mkInflight 4 5].
Proof.
  destruct (Inflights_refines_queue 3 100
    [OpAdd 1 10; OpAdd 2 20; OpFreeLE 1; OpAdd 3 30; OpAdd 4 5; OpFreeLE 3] ltac:(lia))
    as (i & Hrun & Hq & _).
  exists i. split; [exact Hrun|exact Hq].
Defined.

(** ** The progress state machine *)

(** Match and Next stay ordered and in range, and the in-flight window stays a
    well-formed ring. *)
Definition Progress_inv (pr : Progress) : Prop :=
  0 <= Match pr < Next pr /\ Next pr <= MaxUint64 /\
  is_u64 (SentCommit pr) /\ is_u64 (MatchCommit pr) /\ Inflights_wf (PInflights pr).

(** One call of an operation of Progress, with what its callers in raft.go
    guarantee: acknowledged, sent and snapshot indexes are log indexes below the
    maximal uint64, a snapshot is sent only when it is ahead of Match, and
    entries are sent only when the window is not full. *)
Inductive Progress_step : Progress -> Progress -> Prop :=
| step_BecomeProbe pr : PendingSnapshot pr < MaxUint64 -> 0 <= PendingSnapshot pr ->
    Progress_step pr (Progress_BecomeProbe pr)
| step_BecomeReplicate pr : Progress_step pr (Progress_BecomeReplicate pr)
| step_BecomeSnapshot pr i : Match pr <= i < MaxUint64 ->
    Progress_step pr (Progress_BecomeSnapshot pr i)
| step_SentEntries pr n bytes pr' : 0 <= n -> Next pr + n <= MaxUint64 ->
    Progress_SentEntries pr n bytes = Ret pr' -> Progress_step pr pr'
| step_MaybeUpdateSentCommit pr c : is_u64 c -> Progress_step pr (Progress_MaybeUpdateSentCommit pr c)
| step_MaybeUpdate pr n : 0 <= n < MaxUint64 -> Progress_step pr (fst (Progress_MaybeUpdate pr n))
| step_MaybeUpdateMatchCommit pr c : is_u64 c -> Progress_step pr (Progress_MaybeUpdateMatchCommit pr c)
| step_MaybeDecrTo pr rejected hint : is_u64 rejected -> is_u64 hint ->
    Progress_step pr (fst (Progress_MaybeDecrTo pr rejected hint))
| step_FreeLE pr to i : Inflights_FreeLE (PInflights pr) to = Ret i ->
    Progress_step pr (pr <| PInflights := i |>).

Ltac progress_unfold :=
  unfold Progress_BecomeProbe, Progress_BecomeReplicate, Progress_BecomeSnapshot,
    Progress_ResetState, Progress_MaybeUpdateSentCommit, Progress_MaybeUpdate,
    Progress_MaybeUpdateMatchCommit, Progress_MaybeDecrTo in *.

Lemma Progress_step_inv pr pr' : Progress_inv pr -> Progress_step pr pr' -> Progress_inv pr'.
Proof.
  intros Hinv Hstep. pose proof Hinv as (HM & HN & HS & HC & Hwf).
  pose proof (proj1 (Inflights_reset_wf _ Hwf)) as Hr.
  destruct Hstep; progress_unfold; unfold Progress_inv.
  - case_match; simpl; (split_and!; [u64_lia..|done]).
  - simpl; (split_and!; [u64_lia..|done]).
  - simpl; (split_and!; [u64_lia..|done]).
  - unfold Progress_SentEntries in *.
    destruct (bool_decide (State pr = StateReplicate) && (n >? 0)) eqn:E; inv_ret; simpl.
    + bool_to_prop. match goal with H : Inflights_Add ?i ?x ?b = Ret ?j |- _ =>
        destruct (Inflights_Full i) eqn:Ef; [unfold Inflights_Add in H; simpl in *; by rewrite Ef in H|];
        destruct (Inflights_Add_spec i x b Hwf Ef) as (j' & Hj & Hwfj & _) end.
      simpl in *. assert (x0 = j') as -> by congruence. split_and!; [u64_lia..|done].
    + done.
  - case_match; simpl; (split_and!; [u64_lia..|done]).
  - case_match; simpl; (split_and!; [u64_lia..|done]).
  - case_match; simpl; (split_and!; [u64_lia..|done]).
  - repeat case_match; simpl; (split_and!; [u64_lia..|done]).
  - simpl. destruct (Inflights_FreeLE_spec _ to Hwf) as (j & Hj & Hwfj & _).
    assert (i = j) as -> by congruence. split_and!; done || lia.
Qed.

(** The progress of every peer keeps Match below Next. From a progress that
    satisfies the invariant, no sequence of operations of the replication state
    machine (probing, replicating, snapshots, acknowledgements, rejections,
    window releases) leaves Match >= Next, wraps an index around, or corrupts
    the in-flight window. *)
Theorem Progress_inv_reachable (pr pr' : Progress) :
  Progress_inv pr -> rtc Progress_step pr pr' -> Progress_inv pr'.
Proof. intros Hinv. induction 1; eauto using Progress_step_inv. Qed.

Definition example_Progress : Progress :=
  mkProgress 5 6 0 0 StateProbe 0 true false (NewInflights 4 0) false.

Lemma Progress_inv_reachable_witness :
  Progress_inv (fst (Progress_MaybeUpdate (Progress_BecomeReplicate example_Progress) 9)).
Proof.
  apply (Progress_inv_reachable example_Progress).
  - split_and!; [done..|apply NewInflights_wf; lia].
  - eapply rtc_l; [apply step_BecomeReplicate|].
    eapply rtc_l; [apply (step_MaybeUpdate _ 9); done|apply rtc_refl].
Defined.

(** A rejection always makes probing progress. Outside of replication, a
    rejection that [MaybeDecrTo] accepts moves Next strictly down or is already
    at its floor Match + 1, never below that floor, and un-pauses the peer; so a
    leader probing a peer backs off to Match + 1 in finitely many rejections.
    While replicating, an accepted rejection falls straight back to Match + 1.
    A rejection that is not accepted leaves the progress unchanged. *)
Theorem Progress_MaybeDecrTo_spec (pr pr' : Progress) (rejected matchHint : Z) (ok : bool) :
  Progress_inv pr -> is_u64 rejected -> is_u64 matchHint ->
  Progress_MaybeDecrTo pr rejected matchHint = (pr', ok) ->
  if ok then
    Match pr' = Match pr /\ State pr' = State pr /\
    Match pr + 1 <= Next pr' <= Next pr /\ SentCommit pr' <= Next pr' - 1 /\
    match State pr with
    | StateReplicate => Match pr < rejected /\ Next pr' = Match pr + 1
    | _ => rejected = Next pr - 1 /\ MsgAppProbesPaused pr' = false /\
           (Next pr' < Next pr \/ Next pr = Match pr + 1)
    end
  else pr' = pr /\
    match State pr with
    | StateReplicate => rejected <= Match pr
    | _ => rejected <> Next pr - 1
    end.
Proof.
  intros (HM & HN & HS & HC & _) Hr Hh. unfold Progress_MaybeDecrTo.
  destruct (bool_decide (State pr = StateReplicate)) eqn:E; bool_to_prop.
  - rewrite E. destruct (rejected <=? Match pr) eqn:Er; intros [= <- <-]; bool_to_prop; simpl;
      split_and!; try done; u64_lia.
  - destruct (negb (Next pr -u 1 =? rejected)) eqn:En; intros [= <- <-]; bool_to_prop; simpl;
      (destruct (State pr) eqn:Es; [|done|]); split_and!; try done; u64_lia.
Qed.

Lemma Progress_MaybeDecrTo_spec_witness :
  Progress_MaybeDecrTo (example_Progress <| Next := 20 |>) 19 7 =
    (mkProgress 5 8 0 0 StateProbe 0 true false (NewInflights 4 0) false, true) /\
  8 < 20.
Proof.
  assert (H : Progress_MaybeDecrTo (example_Progress <| Next := 20 |>) 19 7 =
    (mkProgress 5 8 0 0 StateProbe 0 true false (NewInflights 4 0) false, true)) by reflexivity.
  split; [exact H|].
  destruct (Progress_MaybeDecrTo_spec (example_Progress <| Next := 20 |>) _ 19 7 true
    ltac:(split_and!; [done..|apply NewInflights_wf; lia]) ltac:(done) ltac:(done) H)
    as (_ & _ & _ & _ & _ & _ & [Hlt|Heq]); [exact Hlt|discriminate Heq].
Defined.

(** A rejection at the index of the pending snapshot lowers [Next] below
    [PendingSnapshot + 1] without leaving StateSnapshot. *)
Lemma MaybeDecrTo_in_snapshot :
  exists pr, State pr = StateSnapshot /\ Next pr = PendingSnapshot pr + 1 /\
    let pr' := fst (Progress_MaybeDecrTo pr (PendingSnapshot pr) 5) in
    State pr' = StateSnapshot /\ Next pr' <> PendingSnapshot pr' + 1.
Proof.
  exists (Progress_BecomeSnapshot (mkProgress 3 4 0 0 StateProbe 0 true false (NewInflights 4 0) false) 10).
  vm_compute. split_and!; congruence.
Qed.
