(* ===== verification/RaftPb.v ===== *)
(** * Raft messages and configuration changes (src/pkg/raft/raftpb)

    The data of raft.proto (entries, snapshots, hard states, messages,
    configuration changes), as records with the fields of the protocol buffers,
    and the hand-written operations of confchange.go and confstate.go. The
    generated codecs (raft.pb.go is produced by the build) are not modelled: what
    the code uses of them, [Size], is an argument of the definitions that need
    it.

    Enumerations hold their declared values; the two on which the code has a
    default branch also have a constructor for the other integers. *)

From Stdlib Require Strings.Byte.
From S2P Require Import Prelude Hlc Quorum.

Abbreviation bytes := (list Byte.byte).

#[global] Instance byte_eq_dec : EqDecision Byte.byte := Byte.byte_eq_dec.

(** ** raft.proto *)

Inductive EntryType : Set := EntryNormal | EntryConfChange | EntryConfChangeV2.

#[global] Instance EntryType_eq_dec : EqDecision EntryType.
Proof. solve_decision. Defined.

Record Entry : Type := mkEntry {
  e_Term : Z;
  e_Index : Z;
  e_Type : EntryType;
  e_Data : bytes
}.

#[global] Instance eta_Entry : Eta Entry := fun e => mkEntry (e_Term e) (e_Index e) (e_Type e) (e_Data e).
#[global] Instance Entry_eq_dec : EqDecision Entry.
Proof. solve_decision. Defined.
#[global] Instance Entry_inhabited : Inhabited Entry := populate (mkEntry 0 0 EntryNormal []).

Record SnapshotMetadata : Type := mkSnapshotMetadata {
  sm_ConfState : ConfState;
  sm_Index : Z;
  sm_Term : Z
}.

#[global] Instance eta_SnapshotMetadata : Eta SnapshotMetadata := fun s =>
  mkSnapshotMetadata (sm_ConfState s) (sm_Index s) (sm_Term s).
#[global] Instance SnapshotMetadata_eq_dec : EqDecision SnapshotMetadata.
Proof. solve_decision. Defined.

Record Snapshot : Type := mkSnapshot {
  s_Data : bytes;
  s_Metadata : SnapshotMetadata
}.

#[global] Instance eta_Snapshot : Eta Snapshot := fun s => mkSnapshot (s_Data s) (s_Metadata s).
#[global] Instance Snapshot_eq_dec : EqDecision Snapshot.
Proof. solve_decision. Defined.

Definition s_Index (s : Snapshot) : Z := sm_Index (s_Metadata s).
Definition s_Term (s : Snapshot) : Z := sm_Term (s_Metadata s).

Definition empty_ConfState : ConfState := mkConfState [] [] [] [] false.
Definition empty_Snapshot : Snapshot := mkSnapshot [] (mkSnapshotMetadata empty_ConfState 0 0).

Record HardState : Type := mkHardState {
  hs_Term : Z;
  hs_Vote : PeerID;
  hs_Commit : Z;
  hs_Lead : PeerID;
  hs_LeadEpoch : Z
}.

#[global] Instance eta_HardState : Eta HardState := fun h =>
  mkHardState (hs_Term h) (hs_Vote h) (hs_Commit h) (hs_Lead h) (hs_LeadEpoch h).
#[global] Instance HardState_eq_dec : EqDecision HardState.
Proof. solve_decision. Defined.

Inductive MessageType : Set :=
| MsgHup | MsgBeat | MsgProp | MsgApp | MsgAppResp | MsgVote | MsgVoteResp | MsgSnap
| MsgHeartbeat | MsgHeartbeatResp | MsgUnreachable | MsgSnapStatus | MsgCheckQuorum
| MsgTransferLeader | MsgTimeoutNow | MsgPreVote | MsgPreVoteResp | MsgStorageAppend
| MsgStorageAppendResp | MsgStorageApply | MsgStorageApplyResp | MsgForgetLeader
| MsgFortifyLeader | MsgFortifyLeaderResp.

#[global] Instance MessageType_eq_dec : EqDecision MessageType.
Proof. solve_decision. Defined.

#[warnings="-register-all"] Inductive Message : Type := mkMessage {
  m_Type : MessageType;
  m_To : PeerID;
  m_From : PeerID;
  m_Term : Z;
  m_LogTerm : Z;
  m_Index : Z;
  m_Entries : list Entry;
  m_Commit : Z;
  m_Lead : PeerID;
  m_LeadEpoch : Z;
  m_Vote : PeerID;
  m_Snapshot : option Snapshot;
  m_Reject : bool;
  m_RejectHint : Z;
  m_Context : bytes;
  m_Responses : list Message;
  m_Match : Z
}.

#[global] Instance eta_Message : Eta Message := fun m =>
  mkMessage (m_Type m) (m_To m) (m_From m) (m_Term m) (m_LogTerm m) (m_Index m) (m_Entries m)
    (m_Commit m) (m_Lead m) (m_LeadEpoch m) (m_Vote m) (m_Snapshot m) (m_Reject m)
    (m_RejectHint m) (m_Context m) (m_Responses m) (m_Match m).

(** The zero message with the given type, to which literals add fields. *)
Definition Msg (t : MessageType) : Message :=
  mkMessage t 0 0 0 0 0 [] 0 0 0 0 None false 0 [] [] 0.

(** ** Configuration changes *)

Inductive ConfChangeTransition : Set :=
| ConfChangeTransitionAuto
| ConfChangeTransitionJointImplicit
| ConfChangeTransitionJointExplicit
| ConfChangeTransitionOther (n : Z).

#[global] Instance ConfChangeTransition_eq_dec : EqDecision ConfChangeTransition.
Proof. solve_decision. Defined.

Inductive ConfChangeType : Set :=
| ConfChangeAddNode
| ConfChangeRemoveNode
| ConfChangeUpdateNode
| ConfChangeAddLearnerNode
| ConfChangeOther (n : Z).

Record ConfChangeSingle : Type := mkConfChangeSingle {
  ccs_Type : ConfChangeType;
  ccs_NodeID : PeerID
}.

Record ConfChange : Type := mkConfChange {
  cc_Type : ConfChangeType;
  cc_NodeID : PeerID;
  cc_Context : bytes;
  cc_ID : Z
}.

Record ConfChangeV2 : Type := mkConfChangeV2 {
  ccv2_Transition : ConfChangeTransition;
  ccv2_Changes : list ConfChangeSingle;
  ccv2_Context : bytes
}.

(** The implementations of the interface [ConfChangeI]. *)
Inductive ConfChangeI : Type :=
| ConfChangeI_V1 (c : ConfChange)
| ConfChangeI_V2 (c : ConfChangeV2).

Definition ConfChange_AsV2 (c : ConfChange) : ConfChangeV2 :=
  mkConfChangeV2 ConfChangeTransitionAuto [mkConfChangeSingle (cc_Type c) (cc_NodeID c)] (cc_Context c).

Definition ConfChangeI_AsV2 (c : ConfChangeI) : ConfChangeV2 :=
  match c with
  | ConfChangeI_V1 c => ConfChange_AsV2 c
  | ConfChangeI_V2 c => c
  end.

(** [EnterJoint] returns [(autoLeave, ok)]. *)
Definition ConfChangeV2_EnterJoint (c : ConfChangeV2) : outcome (bool * bool) :=
  if negb (bool_decide (ccv2_Transition c = ConfChangeTransitionAuto)) || (len (ccv2_Changes c) >? 1) then
    match ccv2_Transition c with
    | ConfChangeTransitionAuto => Ret (true, true)
    | ConfChangeTransitionJointImplicit => Ret (true, true)
    | ConfChangeTransitionJointExplicit => Ret (false, true)
    | ConfChangeTransitionOther _ => Panic "unknown transition"
    end
  else Ret (false, false).

(** [proto.Equal] with the zero message, the context set aside: every field has
    its zero value. *)
Definition ConfChangeV2_LeaveJoint (c : ConfChangeV2) : bool :=
  bool_decide (ccv2_Transition c = ConfChangeTransitionAuto) && (len (ccv2_Changes c) =? 0).

(** ** confstate.go *)

Definition ConfState_Equivalent (cs1 cs2 : ConfState) : bool :=
  let s (sl : list PeerID) := merge_sort Z.le sl in
  bool_decide (s (cs_Voters cs1) = s (cs_Voters cs2)) &&
  bool_decide (s (cs_Learners cs1) = s (cs_Learners cs2)) &&
  bool_decide (s (cs_VotersOutgoing cs1) = s (cs_VotersOutgoing cs2)) &&
  bool_decide (s (cs_LearnersNext cs1) = s (cs_LearnersNext cs2)) &&
  bool_decide (cs_AutoLeave cs1 = cs_AutoLeave cs2).
