(* ===== verification/ConfChange.v ===== *)
(** * Membership changes (src/pkg/raft/confchange)

    [Changer] computes the configuration that results from a sequence of single
    changes, either directly ([Simple], one voter at a time) or through a joint
    configuration ([EnterJoint], [LeaveJoint]); [Restore] rebuilds a
    configuration from the [ConfState] of a snapshot.

    Go maps from peer to struct{} are [option (gset Z)], with [None] the nil map:
    a write to a nil map panics, and the code nils empty maps. A
    [tracker.ProgressMap] holds pointers; the Changer copies every Progress
    before it starts, so the map of copies is a [gmap] of values. *)

From S2P Require Import Prelude Hlc Quorum Tracker RaftPb.

(** ** confchange.go *)

Record Changer : Type := mkChanger {
  ch_Config : Config;
  ch_ProgressMap : ProgressMap;
  ch_MaxInflight : Z;
  ch_MaxInflightBytes : Z;
  ch_LastIndex : Z
}.

#[global] Instance eta_Changer : Eta Changer := fun c =>
  mkChanger (ch_Config c) (ch_ProgressMap c) (ch_MaxInflight c) (ch_MaxInflightBytes c) (ch_LastIndex c).

Definition incoming (voters : JointConfig) : idmap := fst voters.
Definition outgoing (voters : JointConfig) : idmap := snd voters.
Definition joint (cfg : Config) : bool := map_len (outgoing (Voters cfg)) >? 0.

(** Go's [m[id] = struct{}{}], [delete(m, id)] and [_, ok := m[id]]. *)
Definition map_put (m : idmap) (id : PeerID) : outcome idmap :=
  match m with
  | None => Panic "assignment to entry in nil map"
  | Some s => Ret (Some ({[id]} ∪ s))
  end.

Definition map_del (m : idmap) (id : PeerID) : idmap := (fun s => s ∖ {[id]}) <$> m.
Definition map_has (m : idmap) (id : PeerID) : bool := bool_decide (id ∈ ids m).

Definition nilAwareAdd (m : idmap) (id : PeerID) : idmap := Some ({[id]} ∪ ids m).

Definition nilAwareDelete (m : idmap) (id : PeerID) : idmap :=
  match m with
  | None => None
  | Some s =>
    let s := s ∖ {[id]} in
    if decide (s = ∅) then None else Some s
  end.

Definition symdiff (l r : idmap) : Z :=
  let count (p q : idmap) := len (filter (fun id => id ∉ ids q) (elements (ids p))) in
  count l r + count r l.

Definition Changer_initProgress (c : Changer) (cfg : Config) (trk : ProgressMap) (id : PeerID)
    (isLearner : bool) : outcome (Config * ProgressMap) :=
  let! cfg :=
    if negb isLearner then
      let! inc := map_put (incoming (Voters cfg)) id in
      Ret (cfg <| Voters := (inc, outgoing (Voters cfg)) |>)
    else Ret (cfg <| Learners := nilAwareAdd (Learners cfg) id |>) in
  Ret (cfg, <[id := {|
    Match := 0;
    Next := Z.max (ch_LastIndex c) 1;
    SentCommit := 0;
    MatchCommit := 0;
    State := StateProbe;
    PendingSnapshot := 0;
    RecentActive := true;
    MsgAppProbesPaused := false;
    PInflights := NewInflights (ch_MaxInflight c) (ch_MaxInflightBytes c);
    IsLearner := isLearner |}]> trk).

Definition Changer_makeVoter (c : Changer) (cfg : Config) (trk : ProgressMap) (id : PeerID) :
    outcome (Config * ProgressMap) :=
  match trk !! id with
  | None => Changer_initProgress c cfg trk id false
  | Some pr =>
    let trk := <[id := pr <| IsLearner := false |>]> trk in
    let cfg := cfg <| Learners := nilAwareDelete (Learners cfg) id |>
                   <| LearnersNext := nilAwareDelete (LearnersNext cfg) id |> in
    let! inc := map_put (incoming (Voters cfg)) id in
    Ret (cfg <| Voters := (inc, outgoing (Voters cfg)) |>, trk)
  end.

Definition Changer_remove (c : Changer) (cfg : Config) (trk : ProgressMap) (id : PeerID) :
    Config * ProgressMap :=
  match trk !! id with
  | None => (cfg, trk)
  | Some _ =>
    let cfg := cfg <| Voters := (map_del (incoming (Voters cfg)) id, outgoing (Voters cfg)) |>
                   <| Learners := nilAwareDelete (Learners cfg) id |>
                   <| LearnersNext := nilAwareDelete (LearnersNext cfg) id |> in
    if negb (map_has (outgoing (Voters cfg)) id) then (cfg, delete id trk) else (cfg, trk)
  end.

Definition Changer_makeLearner (c : Changer) (cfg : Config) (trk : ProgressMap) (id : PeerID) :
    outcome (Config * ProgressMap) :=
  match trk !! id with
  | None => Changer_initProgress c cfg trk id true
  | Some pr =>
    if IsLearner pr then Ret (cfg, trk)
    else
      let '(cfg, trk) := Changer_remove c cfg trk id in
      let trk := <[id := pr]> trk in
      if map_has (outgoing (Voters cfg)) id then
        Ret (cfg <| LearnersNext := nilAwareAdd (LearnersNext cfg) id |>, trk)
      else
        Ret (cfg <| Learners := nilAwareAdd (Learners cfg) id |>,
             <[id := pr <| IsLearner := true |>]> trk)
  end.

(** The loop of [apply]. *)
Fixpoint apply_loop (c : Changer) (cfg : Config) (trk : ProgressMap) (ccs : list ConfChangeSingle) :
    outcome (error + Config * ProgressMap) :=
  match ccs with
  | [] => Ret (inr (cfg, trk))
  | cc :: ccs =>
    if ccs_NodeID cc =? 0 then apply_loop c cfg trk ccs
    else
      match ccs_Type cc with
      | ConfChangeAddNode =>
        let! '(cfg, trk) := Changer_makeVoter c cfg trk (ccs_NodeID cc) in apply_loop c cfg trk ccs
      | ConfChangeAddLearnerNode =>
        let! '(cfg, trk) := Changer_makeLearner c cfg trk (ccs_NodeID cc) in apply_loop c cfg trk ccs
      | ConfChangeRemoveNode =>
        let '(cfg, trk) := Changer_remove c cfg trk (ccs_NodeID cc) in apply_loop c cfg trk ccs
      | ConfChangeUpdateNode => apply_loop c cfg trk ccs
      | ConfChangeOther t => Ret (inl (Errorf "unexpected conf type %d" [t]))
      end
  end.

Definition Changer_apply (c : Changer) (cfg : Config) (trk : ProgressMap) (ccs : list ConfChangeSingle) :
    outcome (error + Config * ProgressMap) :=
  let? '(cfg, trk) := apply_loop c cfg trk ccs in
  if map_len (incoming (Voters cfg)) =? 0 then Ret (inl (Errorf "removed all voters" []))
  else Ret (inr (cfg, trk)).

(** The loops of [checkInvariants]. A loop over a Go map returns on the first
    offending key in an unspecified order; which of several errors is reported is
    the only thing that depends on the order. *)
Fixpoint for_ids (f : PeerID -> outcome (option error)) (order : list PeerID) : outcome (option error) :=
  match order with
  | [] => Ret None
  | id :: order =>
    let! err := f id in
    match err with
    | Some e => Ret (Some e)
    | None => for_ids f order
    end
  end.

(** [trk[id].IsLearner], a nil dereference when the peer has no progress. *)
Definition trk_IsLearner (trk : ProgressMap) (id : PeerID) : outcome bool :=
  match trk !! id with
  | Some pr => Ret (IsLearner pr)
  | None => Panic "nil pointer dereference"
  end.

Definition check_progress (trk : ProgressMap) (id : PeerID) : outcome (option error) :=
  match trk !! id with
  | Some _ => Ret None
  | None => Ret (Some (Errorf "no progress for %d" [id]))
  end.

Definition check_LearnersNext (cfg : Config) (trk : ProgressMap) (id : PeerID) : outcome (option error) :=
  if negb (map_has (outgoing (Voters cfg)) id) then
    Ret (Some (Errorf "%d is in LearnersNext, but not Voters[1]" [id]))
  else
    let! l := trk_IsLearner trk id in
    if l then Ret (Some (Errorf "%d is in LearnersNext, but is already marked as learner" [id]))
    else Ret None.

Definition check_Learners (cfg : Config) (trk : ProgressMap) (id : PeerID) : outcome (option error) :=
  if map_has (outgoing (Voters cfg)) id then
    Ret (Some (Errorf "%d is in Learners and Voters[1]" [id]))
  else if map_has (incoming (Voters cfg)) id then
    Ret (Some (Errorf "%d is in Learners and Voters[0]" [id]))
  else
    let! l := trk_IsLearner trk id in
    if negb l then Ret (Some (Errorf "%d is in Learners, but is not marked as learner" [id]))
    else Ret None.

Definition check_nonjoint (cfg : Config) : option error :=
  if negb (joint cfg) then
    if negb (bool_decide (outgoing (Voters cfg) = None)) then
      Some (Errorf "cfg.Voters[1] must be nil when not joint" [])
    else if negb (bool_decide (LearnersNext cfg = None)) then
      Some (Errorf "cfg.LearnersNext must be nil when not joint" [])
    else if AutoLeave cfg then Some (Errorf "AutoLeave must be false when not joint" [])
    else None
  else None.

(** [andthen m k]: the idiom [if err := m; err != nil { return err }]. *)
Definition andthen (m k : outcome (option error)) : outcome (option error) :=
  let! err := m in match err with Some e => Ret (Some e) | None => k end.

Definition checkInvariants (cfg : Config) (trk : ProgressMap) : outcome (option error) :=
  andthen (for_ids (check_progress trk)
    (elements (JointConfig_IDs (Voters cfg)) ++ elements (ids (Learners cfg)) ++
     elements (ids (LearnersNext cfg))))
  (andthen (for_ids (check_LearnersNext cfg trk) (elements (ids (LearnersNext cfg))))
  (andthen (for_ids (check_Learners cfg trk) (elements (ids (Learners cfg))))
  (Ret (check_nonjoint cfg)))).

Definition checkAndReturn (cfg : Config) (trk : ProgressMap) : outcome (error + Config * ProgressMap) :=
  let! err := checkInvariants cfg trk in
  match err with
  | Some e => Ret (inl e)
  | None => Ret (inr (cfg, trk))
  end.

Definition Changer_checkAndCopy (c : Changer) : outcome (error + Config * ProgressMap) :=
  checkAndReturn (Config_Clone (ch_Config c)) (ch_ProgressMap c).

Definition Changer_EnterJoint (c : Changer) (autoLeave : bool) (ccs : list ConfChangeSingle) :
    outcome (error + Config * ProgressMap) :=
  let? '(cfg, trk) := Changer_checkAndCopy c in
  if joint cfg then Ret (inl (Errorf "config is already joint" []))
  else if map_len (incoming (Voters cfg)) =? 0 then
    Ret (inl (Errorf "can't make a zero-voter config joint" []))
  else
    let cfg := cfg <| Voters := (incoming (Voters cfg), Some (ids (incoming (Voters cfg)))) |> in
    let? '(cfg, trk) := Changer_apply c cfg trk ccs in
    checkAndReturn (cfg <| AutoLeave := autoLeave |>) trk.

(** The loop of [LeaveJoint] over the staged learners. *)
Fixpoint promote_LearnersNext (cfg : Config) (trk : ProgressMap) (order : list PeerID) :
    outcome (Config * ProgressMap) :=
  match order with
  | [] => Ret (cfg, trk)
  | id :: order =>
    match trk !! id with
    | None => Panic "nil pointer dereference"
    | Some pr =>
      promote_LearnersNext (cfg <| Learners := nilAwareAdd (Learners cfg) id |>)
        (<[id := pr <| IsLearner := true |>]> trk) order
    end
  end.

(** The loop of [LeaveJoint] over the outgoing voters. *)
Definition drop_outgoing (cfg : Config) (trk : ProgressMap) (order : list PeerID) : ProgressMap :=
  foldl (fun trk id =>
    if negb (map_has (incoming (Voters cfg)) id) && negb (map_has (Learners cfg) id)
    then delete id trk else trk) trk order.

Definition Changer_LeaveJoint (c : Changer) : outcome (error + Config * ProgressMap) :=
  let? '(cfg, trk) := Changer_checkAndCopy c in
  if negb (joint cfg) then Ret (inl (Errorf "can't leave a non-joint config" []))
  else
    let! '(cfg, trk) := promote_LearnersNext cfg trk (elements (ids (LearnersNext cfg))) in
    let cfg := cfg <| LearnersNext := None |> in
    let trk := drop_outgoing cfg trk (elements (ids (outgoing (Voters cfg)))) in
    let cfg := cfg <| Voters := (incoming (Voters cfg), None) |> <| AutoLeave := false |> in
    checkAndReturn cfg trk.

Definition Changer_Simple (c : Changer) (ccs : list ConfChangeSingle) :
    outcome (error + Config * ProgressMap) :=
  let? '(cfg, trk) := Changer_checkAndCopy c in
  if joint cfg then Ret (inl (Errorf "can't apply simple config change in joint config" []))
  else
    let? '(cfg, trk) := Changer_apply c cfg trk ccs in
    if symdiff (incoming (Voters (ch_Config c))) (incoming (Voters cfg)) >? 1 then
      Ret (inl (Errorf "more than one voter changed without entering joint config" []))
    else checkAndReturn cfg trk.

(** ** restore.go *)

Definition toConfChangeSingle (cs : ConfState) : list ConfChangeSingle * list ConfChangeSingle :=
  (map (mkConfChangeSingle ConfChangeAddNode) (cs_VotersOutgoing cs),
   map (mkConfChangeSingle ConfChangeRemoveNode) (cs_VotersOutgoing cs) ++
   map (mkConfChangeSingle ConfChangeAddNode) (cs_Voters cs) ++
   map (mkConfChangeSingle ConfChangeAddLearnerNode) (cs_Learners cs) ++
   map (mkConfChangeSingle ConfChangeAddLearnerNode) (cs_LearnersNext cs)).

Fixpoint chain (chg : Changer) (ops : list (Changer -> outcome (error + Config * ProgressMap))) :
    outcome (error + Config * ProgressMap) :=
  match ops with
  | [] => Ret (inr (ch_Config chg, ch_ProgressMap chg))
  | op :: ops =>
    let? '(cfg, progressMap) := op chg in
    chain (chg <| ch_Config := cfg |> <| ch_ProgressMap := progressMap |>) ops
  end.

Definition simple_op (cc : ConfChangeSingle) : Changer -> outcome (error + Config * ProgressMap) :=
  fun chg => Changer_Simple chg [cc].

Definition Restore (chg : Changer) (cs : ConfState) : outcome (error + Config * ProgressMap) :=
  let '(out, inc) := toConfChangeSingle cs in
  let ops :=
    if len out =? 0 then map simple_op inc
    else map simple_op out ++ [fun chg => Changer_EnterJoint chg (cs_AutoLeave cs) inc] in
  chain chg ops.

(** ** Well-formed configurations *)

(** What every reachable configuration and its progress map satisfy. It is
    stronger than [checkInvariants]: exactly the members have a progress, exactly
    the learners are marked as such, and empty maps are nil. *)
Record conf_wf (cfg : Config) (trk : ProgressMap) : Prop := {
  wf_dom : forall id, is_Some (trk !! id) <->
    (id ∈ ids (incoming (Voters cfg)) \/ id ∈ ids (outgoing (Voters cfg)) \/
     id ∈ ids (Learners cfg) \/ id ∈ ids (LearnersNext cfg));
  wf_learner : forall id pr, trk !! id = Some pr -> (IsLearner pr = true <-> id ∈ ids (Learners cfg));
  wf_next : forall id, id ∈ ids (LearnersNext cfg) ->
    (id ∈ ids (outgoing (Voters cfg)) /\ id ∉ ids (incoming (Voters cfg)));
  wf_disjoint : forall id, id ∈ ids (Learners cfg) ->
    ((id ∉ ids (incoming (Voters cfg))) /\ id ∉ ids (outgoing (Voters cfg)));
  wf_incoming : incoming (Voters cfg) <> None;
  wf_nil : outgoing (Voters cfg) <> Some ∅ /\ Learners cfg <> Some ∅ /\ LearnersNext cfg <> Some ∅
}.

(** A configuration at rest: AutoLeave is set only in a joint configuration. *)
Definition conf_ok (cfg : Config) (trk : ProgressMap) : Prop :=
  conf_wf cfg trk /\ (AutoLeave cfg = true -> outgoing (Voters cfg) <> None).

(** ** The abstract configuration: a role for each peer *)

(** [Some true] a voter of the incoming configuration, [Some false] a learner,
    possibly one that waits for the outgoing configuration to be left. *)
Definition cfg_role (cfg : Config) (id : PeerID) : option bool :=
  if decide (id ∈ ids (incoming (Voters cfg))) then Some true
  else if decide (id ∈ ids (Learners cfg) ∪ ids (LearnersNext cfg)) then Some false
  else None.

Definition upd_role (r : PeerID -> option bool) (id : PeerID) (v : option bool) : PeerID -> option bool :=
  fun id' => if decide (id' = id) then v else r id'.

(** What one change means for the roles. *)
Definition change_role (r : PeerID -> option bool) (cc : ConfChangeSingle) : PeerID -> option bool :=
  if ccs_NodeID cc =? 0 then r
  else match ccs_Type cc with
  | ConfChangeAddNode => upd_role r (ccs_NodeID cc) (Some true)
  | ConfChangeAddLearnerNode => upd_role r (ccs_NodeID cc) (Some false)
  | ConfChangeRemoveNode => upd_role r (ccs_NodeID cc) None
  | _ => r
  end.

Definition change_roles (r : PeerID -> option bool) (ccs : list ConfChangeSingle) : PeerID -> option bool :=
  foldl change_role r ccs.

Lemma elem_of_nilAwareDelete m id x : x ∈ ids (nilAwareDelete m id) <-> x ∈ ids m /\ x <> id.
Proof.
  destruct m as [s|]; unfold ids; simpl; [|set_solver].
  case_decide as E; simpl; set_solver.
Qed.

Lemma nilAwareDelete_nil m id : nilAwareDelete m id <> Some ∅.
Proof. destruct m as [s|]; simpl; [case_decide; congruence|done]. Qed.

Lemma elem_of_nilAwareAdd m id x : x ∈ ids (nilAwareAdd m id) <-> x = id \/ x ∈ ids m.
Proof. unfold ids; simpl. set_solver. Qed.

Lemma nilAwareAdd_nil m id : nilAwareAdd m id <> Some ∅.
Proof. intros [= E]. assert (id ∈ (∅ : gset Z)) by (rewrite <- E; set_solver). set_solver. Qed.

Lemma elem_of_map_del m id x : x ∈ ids (map_del m id) <-> x ∈ ids m /\ x <> id.
Proof. destruct m as [s|]; unfold ids; simpl; set_solver. Qed.

Lemma map_del_nil m id : m <> None -> map_del m id <> None.
Proof. by destruct m. Qed.

Lemma map_put_ok m id : m <> None ->
  exists m', map_put m id = Ret m' /\ m' <> None /\ forall x, x ∈ ids m' <-> x = id \/ x ∈ ids m.
Proof. destruct m as [s|]; [|done]. intros _. eexists. split_and!; [done..|]. intros x. unfold ids; simpl. set_solver. Qed.

#[global] Arguments nilAwareAdd : simpl never.
#[global] Arguments nilAwareDelete : simpl never.
#[global] Arguments ids : simpl never.
#[global] Arguments Config_Clone : simpl never.

Create Rewrite HintDb ids.
#[export] Hint Rewrite elem_of_nilAwareDelete elem_of_nilAwareAdd elem_of_map_del : ids.
#[export] Hint Resolve nilAwareDelete_nil nilAwareAdd_nil map_del_nil : go.

Lemma map_has_true m id : map_has m id = true <-> id ∈ ids m.
Proof. apply bool_decide_eq_true. Qed.

Lemma map_has_false m id : map_has m id = false <-> id ∉ ids m.
Proof. apply bool_decide_eq_false. Qed.

(** The role of a peer, by where it is. *)
Lemma cfg_role_spec cfg trk id : conf_wf cfg trk ->
  (cfg_role cfg id = Some true <-> id ∈ ids (incoming (Voters cfg))) /\
  (cfg_role cfg id = Some false <-> id ∈ ids (Learners cfg) \/ id ∈ ids (LearnersNext cfg)).
Proof.
  intros [_ _ Hn Hd _ _]. unfold cfg_role. specialize (Hn id). specialize (Hd id).
  repeat case_decide; rewrite ?elem_of_union in *; intuition congruence.
Qed.

Lemma cfg_role_ext cfg' id v :
  (v = Some true <-> id ∈ ids (incoming (Voters cfg'))) ->
  (v = Some false <-> id ∈ ids (Learners cfg') \/ id ∈ ids (LearnersNext cfg')) ->
  cfg_role cfg' id = v.
Proof.
  intros H1 H2. unfold cfg_role.
  repeat case_decide; rewrite ?elem_of_union in *; destruct v as [[]|]; intuition congruence.
Qed.

(** One step of [apply] keeps the configuration well-formed, changes the role of
    one peer, and leaves the outgoing voters and AutoLeave alone. *)
Definition conf_step (cfg cfg' : Config) (trk' : ProgressMap) (id : PeerID) (v : option bool) : Prop :=
  conf_wf cfg' trk' /\ (forall x, cfg_role cfg' x = upd_role (cfg_role cfg) id v x) /\
  outgoing (Voters cfg') = outgoing (Voters cfg) /\ AutoLeave cfg' = AutoLeave cfg.

Ltac ids_simpl := autorewrite with ids in *; rewrite ?elem_of_union, ?elem_of_singleton in *.

(** The goals of [conf_step]: case analysis on whether the peer at hand is the
    one that changes. *)
Lemma conf_step_intro cfg trk cfg' trk' id v :
  conf_wf cfg trk ->
  (v = Some true <-> id ∈ ids (incoming (Voters cfg'))) ->
  (v = Some false <-> id ∈ ids (Learners cfg') \/ id ∈ ids (LearnersNext cfg')) ->
  (id ∈ ids (Learners cfg') -> id ∉ ids (outgoing (Voters cfg))) ->
  (id ∈ ids (LearnersNext cfg') -> id ∈ ids (outgoing (Voters cfg))) ->
  match trk' !! id with
  | Some pr => (v <> None \/ id ∈ ids (outgoing (Voters cfg))) /\
      (IsLearner pr = true <-> id ∈ ids (Learners cfg'))
  | None => v = None /\ id ∉ ids (outgoing (Voters cfg))
  end ->
  (forall x, x <> id ->
    trk' !! x = trk !! x /\
    (x ∈ ids (incoming (Voters cfg')) <-> x ∈ ids (incoming (Voters cfg))) /\
    (x ∈ ids (Learners cfg') <-> x ∈ ids (Learners cfg)) /\
    (x ∈ ids (LearnersNext cfg') <-> x ∈ ids (LearnersNext cfg))) ->
  outgoing (Voters cfg') = outgoing (Voters cfg) -> AutoLeave cfg' = AutoLeave cfg ->
  incoming (Voters cfg') <> None -> Learners cfg' <> Some ∅ -> LearnersNext cfg' <> Some ∅ ->
  conf_step cfg cfg' trk' id v.
Proof.
  intros [Hdom Hl Hn Hd Hi (Ho & HL & HN)] Ht Hf HL' HLN' Hpr Hother Hout Hauto Hin HLn HNn.
  split_and!; [constructor|..]; try done.
  - intros x. rewrite Hout. destruct (decide (x = id)) as [->|Hx].
    + destruct (trk' !! id) eqn:E; destruct v as [[]|]; split; intuition (try congruence; eauto).
      all: match goal with H : is_Some None |- _ => by destruct H | _ => idtac end.
    + destruct (Hother x Hx) as (-> & -> & -> & ->). apply Hdom.
  - intros x pr E. destruct (decide (x = id)) as [->|Hx].
    + rewrite E in Hpr. tauto.
    + destruct (Hother x Hx) as (Et & _ & -> & _). rewrite Et in E. eauto.
  - intros x. rewrite Hout. destruct (decide (x = id)) as [->|Hx].
    + destruct v as [[]|]; intuition congruence.
    + destruct (Hother x Hx) as (_ & -> & _ & ->). apply Hn.
  - intros x. rewrite Hout. destruct (decide (x = id)) as [->|Hx].
    + destruct v as [[]|]; intuition congruence.
    + destruct (Hother x Hx) as (_ & -> & -> & _). apply Hd.
  - by rewrite Hout.
  - intros x. unfold upd_role. case_decide as Hx; [subst x; by apply cfg_role_ext|].
    destruct (Hother x Hx) as (_ & E1 & E2 & E3). unfold cfg_role.
    repeat case_decide; rewrite ?elem_of_union in *; intuition congruence.
Qed.

Ltac conf_other :=
  intros x Hx; rewrite ?lookup_insert_ne, ?lookup_delete_ne, ?lookup_insert_ne by congruence; simpl;
  repeat match goal with H : forall y, y ∈ ids _ <-> _ |- _ => rewrite H end;
  autorewrite with ids; intuition congruence.

Lemma conf_wf_absent cfg trk id : conf_wf cfg trk -> trk !! id = None ->
  (id ∉ ids (incoming (Voters cfg))) /\ (id ∉ ids (outgoing (Voters cfg))) /\
  (id ∉ ids (Learners cfg)) /\ id ∉ ids (LearnersNext cfg).
Proof. intros [Hdom _ _ _ _ _] E. specialize (Hdom id). rewrite E in Hdom. rewrite is_Some_alt in Hdom. tauto. Qed.

Lemma makeVoter_step c cfg trk id : conf_wf cfg trk ->
  exists cfg' trk', Changer_makeVoter c cfg trk id = Ret (cfg', trk') /\
    conf_step cfg cfg' trk' id (Some true).
Proof.
  intros Hwf. unfold Changer_makeVoter, Changer_initProgress.
  destruct (map_put_ok (incoming (Voters cfg)) id (wf_incoming _ _ Hwf)) as (m' & Em & Hm & Hm').
  pose proof (wf_nil _ _ Hwf) as (_ & HL & HN).
  destruct (trk !! id) as [pr|] eqn:E; simpl; rewrite Em; simpl; do 2 eexists; (split; [done|]).
  - apply (conf_step_intro cfg trk); simpl; rewrite ?lookup_insert_eq, ?Hm'; simpl; autorewrite with ids;
      auto using nilAwareDelete_nil; try (intuition congruence). conf_other.
  - destruct (conf_wf_absent _ _ _ Hwf E) as (? & ? & ? & ?).
    apply (conf_step_intro cfg trk); simpl; rewrite ?lookup_insert_eq, ?Hm'; simpl; autorewrite with ids;
      auto; try (intuition congruence). conf_other.
Qed.

Lemma remove_step c cfg trk id cfg' trk' : conf_wf cfg trk ->
  Changer_remove c cfg trk id = (cfg', trk') -> conf_step cfg cfg' trk' id None.
Proof.
  intros Hwf. unfold Changer_remove. pose proof (wf_nil _ _ Hwf) as (_ & HL & HN).
  pose proof (wf_incoming _ _ Hwf) as Hi.
  destruct (trk !! id) as [pr|] eqn:E; simpl.
  - destruct (map_has (outgoing (Voters cfg)) id) eqn:Eo; simpl; intros [= <- <-];
      [apply map_has_true in Eo|apply map_has_false in Eo];
      apply (conf_step_intro cfg trk); simpl; autorewrite with ids;
      rewrite ?lookup_delete_eq, ?E; auto using nilAwareDelete_nil, map_del_nil;
      try (intuition congruence); try conf_other.
    pose proof (wf_learner _ _ Hwf id pr E). pose proof (wf_disjoint _ _ Hwf id).
    autorewrite with ids. intuition congruence.
  - intros [= <- <-]. destruct (conf_wf_absent _ _ _ Hwf E) as (? & ? & ? & ?).
    apply (conf_step_intro cfg trk); auto; try rewrite E; try (intuition congruence).
Qed.

Lemma makeLearner_step c cfg trk id : conf_wf cfg trk ->
  exists cfg' trk', Changer_makeLearner c cfg trk id = Ret (cfg', trk') /\
    conf_step cfg cfg' trk' id (Some false).
Proof.
  intros Hwf. unfold Changer_makeLearner, Changer_initProgress.
  pose proof (wf_nil _ _ Hwf) as (_ & HL & HN). pose proof (wf_incoming _ _ Hwf) as Hi.
  destruct (trk !! id) as [pr|] eqn:E; simpl.
  - pose proof (wf_learner _ _ Hwf id pr E) as Hl. pose proof (wf_disjoint _ _ Hwf id) as Hd.
    destruct (IsLearner pr) eqn:El.
    { do 2 eexists. split; [done|].
      apply (conf_step_intro cfg trk); auto; rewrite ?E; try (intuition congruence). 
      intros H. destruct (wf_next _ _ Hwf id H); tauto. }
    unfold Changer_remove. rewrite E. simpl.
    destruct (map_has (outgoing (Voters cfg)) id) eqn:Eo; simpl; rewrite Eo; do 2 eexists; (split; [done|]);
      [apply map_has_true in Eo|apply map_has_false in Eo];
      apply (conf_step_intro cfg trk); simpl; rewrite ?lookup_insert_eq; simpl; autorewrite with ids;
      auto using nilAwareDelete_nil, nilAwareAdd_nil, map_del_nil;
      try (intuition congruence); try conf_other.
  - do 2 eexists. split; [done|]. destruct (conf_wf_absent _ _ _ Hwf E) as (? & ? & ? & ?).
    apply (conf_step_intro cfg trk); simpl; rewrite ?lookup_insert_eq; simpl; autorewrite with ids;
      auto using nilAwareAdd_nil; try (intuition congruence). conf_other.
Qed.

(** ** [apply] computes the roles *)

(** A change that [apply] accepts: an ignored one or one of a known type. *)
Definition change_known (cc : ConfChangeSingle) : bool :=
  (ccs_NodeID cc =? 0) || match ccs_Type cc with ConfChangeOther _ => false | _ => true end.

Lemma change_roles_ext ccs r r' :
  (forall x, r x = r' x) -> forall x, change_roles r ccs x = change_roles r' ccs x.
Proof.
  unfold change_roles. revert r r'. induction ccs as [|cc ccs IH]; intros r r' H; simpl; [done|].
  apply IH. intros x. unfold change_role, upd_role. destruct (ccs_NodeID cc =? 0); [done|].
  destruct (ccs_Type cc); try case_decide; done.
Qed.

(** The result of a sequence of changes. *)
Definition conf_steps (cfg cfg' : Config) (trk' : ProgressMap) (ccs : list ConfChangeSingle) : Prop :=
  conf_wf cfg' trk' /\ (forall x, cfg_role cfg' x = change_roles (cfg_role cfg) ccs x) /\
  outgoing (Voters cfg') = outgoing (Voters cfg) /\ AutoLeave cfg' = AutoLeave cfg.

Lemma conf_steps_cons cfg cfg1 trk1 cfg' trk' cc ccs :
  (forall x, cfg_role cfg1 x = change_role (cfg_role cfg) cc x) ->
  outgoing (Voters cfg1) = outgoing (Voters cfg) -> AutoLeave cfg1 = AutoLeave cfg ->
  conf_wf cfg1 trk1 -> conf_steps cfg1 cfg' trk' ccs -> conf_steps cfg cfg' trk' (cc :: ccs).
Proof.
  intros Hr Ho Ha Hwf (Hwf' & Hr' & Ho' & Ha'). split_and!; [done| |congruence..].
  intros x. rewrite Hr'. by apply (change_roles_ext ccs).
Qed.

Lemma apply_loop_step c cfg trk cc ccs :
  conf_wf cfg trk -> change_known cc = true ->
  exists cfg1 trk1, apply_loop c cfg trk (cc :: ccs) = apply_loop c cfg1 trk1 ccs /\
    conf_wf cfg1 trk1 /\ (forall x, cfg_role cfg1 x = change_role (cfg_role cfg) cc x) /\
    outgoing (Voters cfg1) = outgoing (Voters cfg) /\ AutoLeave cfg1 = AutoLeave cfg.
Proof.
  intros Hwf. simpl. unfold change_known, change_role.
  destruct (ccs_NodeID cc =? 0); [intros _; by exists cfg, trk|].
  destruct (ccs_Type cc); simpl; intros Hk; try discriminate.
  - destruct (makeVoter_step c cfg trk (ccs_NodeID cc) Hwf) as (cfg1 & trk1 & -> & H & ?). eauto 10.
  - destruct (Changer_remove c cfg trk (ccs_NodeID cc)) as [cfg1 trk1] eqn:E.
    apply remove_step in E as (? & ? & ?); eauto 10.
  - by exists cfg, trk.
  - destruct (makeLearner_step c cfg trk (ccs_NodeID cc) Hwf) as (cfg1 & trk1 & -> & H & ?). eauto 10.
Qed.

Lemma apply_loop_spec c ccs cfg trk :
  conf_wf cfg trk -> forallb change_known ccs = true ->
  exists cfg' trk', apply_loop c cfg trk ccs = Ret (inr (cfg', trk')) /\ conf_steps cfg cfg' trk' ccs.
Proof.
  revert cfg trk. induction ccs as [|cc ccs IH]; intros cfg trk Hwf Hk.
  - exists cfg, trk. done.
  - cbn [forallb] in Hk. apply andb_true_iff in Hk as [Hk Hks].
    destruct (apply_loop_step c cfg trk cc ccs Hwf Hk) as (cfg1 & trk1 & -> & Hwf1 & Hr & Ho & Ha).
    destruct (IH cfg1 trk1 Hwf1 Hks) as (cfg' & trk' & -> & Hs).
    eauto 10 using conf_steps_cons.
Qed.

Lemma map_len_0 m : map_len m = 0 <-> ids m = ∅.
Proof. unfold map_len. rewrite <- leibniz_equiv_iff, <- size_empty_iff. lia. Qed.

(** [apply] on known changes: it fails exactly when no voter is left. *)
Lemma Changer_apply_spec c ccs cfg trk :
  conf_wf cfg trk -> forallb change_known ccs = true ->
  exists res, Changer_apply c cfg trk ccs = Ret res /\
  match res with
  | inr (cfg', trk') => conf_steps cfg cfg' trk' ccs /\ ids (incoming (Voters cfg')) <> ∅
  | inl e => e = Errorf "removed all voters" [] /\
      forall id, change_roles (cfg_role cfg) ccs id <> Some true
  end.
Proof.
  intros Hwf Hk. destruct (apply_loop_spec c ccs cfg trk Hwf Hk) as (cfg' & trk' & E & Hs).
  unfold Changer_apply. rewrite E. simpl.
  destruct (map_len (incoming (Voters cfg')) =? 0) eqn:E0; bool_to_prop; rewrite map_len_0 in E0;
    eexists; (split; [done|]); simpl; [|done].
  split; [done|]. intros id. destruct Hs as (Hwf' & <- & _).
  rewrite (proj1 (cfg_role_spec _ _ id Hwf')), E0. set_solver.
Qed.

(** ** The final check is redundant *)

Lemma for_ids_ok f order : (forall id, id ∈ order -> f id = Ret None) -> for_ids f order = Ret None.
Proof.
  induction order as [|id order IH]; intros H; simpl; [done|].
  rewrite H by left. simpl. apply IH. intros x Hx. apply H. by right.
Qed.

Lemma joint_spec cfg : joint cfg = true <-> ids (outgoing (Voters cfg)) <> ∅.
Proof.
  unfold joint. rewrite <- map_len_0. rewrite Z.gtb_ltb, Z.ltb_lt.
  unfold map_len. lia.
Qed.

Lemma joint_false cfg trk : conf_wf cfg trk -> joint cfg = false ->
  outgoing (Voters cfg) = None /\ LearnersNext cfg = None.
Proof.
  intros [_ _ Hn _ _ (Ho & _ & HN)] Hj.
  assert (E : ids (outgoing (Voters cfg)) = ∅).
  { destruct (decide (ids (outgoing (Voters cfg)) = ∅)) as [?|Hne]; [done|].
    apply joint_spec in Hne. congruence. }
  assert (EN : ids (LearnersNext cfg) = ∅).
  { apply set_eq. intros x. split; [|set_solver]. intros Hx. apply Hn in Hx as [Hx _].
    by rewrite E in Hx. }
  unfold ids in *. destruct (outgoing (Voters cfg)), (LearnersNext cfg); simpl in *; subst; done.
Qed.

Lemma checkInvariants_ok cfg trk : conf_ok cfg trk -> checkInvariants cfg trk = Ret None.
Proof.
  intros [Hwf Ha]. unfold checkInvariants, andthen. pose proof Hwf as [Hdom Hl Hn Hd Hi Hnil].
  assert (Hsome : forall id, id ∈ elements (JointConfig_IDs (Voters cfg)) ++
    elements (ids (Learners cfg)) ++ elements (ids (LearnersNext cfg)) -> is_Some (trk !! id)).
  { intros id. rewrite !elem_of_app, !elem_of_elements. unfold JointConfig_IDs.
    rewrite elem_of_union. specialize (Hdom id). unfold incoming, outgoing in *. tauto. }
  rewrite !for_ids_ok; simpl.
  - unfold check_nonjoint. destruct (joint cfg) eqn:Ej; [done|].
    destruct (joint_false cfg trk Hwf Ej) as [Eo EN]. simpl. rewrite !bool_decide_eq_true_2 by done.
    simpl. destruct (AutoLeave cfg); [|done]. by destruct Ha.
  - intros id Hid. assert (is_Some (trk !! id)) as [pr Hpr].
    { apply Hsome. rewrite !elem_of_app. tauto. }
    apply elem_of_elements in Hid. unfold check_Learners, trk_IsLearner. rewrite Hpr.
    destruct (Hd id Hid) as [H1 H2]. rewrite (proj2 (map_has_false _ _) H1), (proj2 (map_has_false _ _) H2).
    simpl. by rewrite (proj2 (Hl id pr Hpr) Hid).
  - intros id Hid. assert (is_Some (trk !! id)) as [pr Hpr].
    { apply Hsome. rewrite !elem_of_app. tauto. }
    apply elem_of_elements in Hid. unfold check_LearnersNext, trk_IsLearner. rewrite Hpr.
    destruct (Hn id Hid) as [H1 H2]. rewrite (proj2 (map_has_true _ _) H1). simpl.
    destruct (IsLearner pr) eqn:El; [|done]. apply (Hl id pr Hpr) in El. by destruct (Hd id El).
  - intros id Hid. unfold check_progress. by destruct (Hsome id Hid) as [pr ->].
Qed.

Lemma checkAndReturn_ok cfg trk : conf_ok cfg trk -> checkAndReturn cfg trk = Ret (inr (cfg, trk)).
Proof. intros H. unfold checkAndReturn. by rewrite checkInvariants_ok. Qed.

Lemma conf_wf_ext cfg cfg' trk : conf_wf cfg trk -> Voters cfg' = Voters cfg ->
  Learners cfg' = Learners cfg -> LearnersNext cfg' = LearnersNext cfg -> conf_wf cfg' trk.
Proof. intros [] E1 E2 E3. constructor; rewrite ?E1, ?E2, ?E3; done. Qed.

Lemma Clone_Voters cfg : Voters (Config_Clone cfg) = Voters cfg.
Proof. unfold Config_Clone. simpl. by destruct (Voters cfg). Qed.

Lemma checkAndCopy_ok c : conf_wf (ch_Config c) (ch_ProgressMap c) ->
  Changer_checkAndCopy c = Ret (inr (Config_Clone (ch_Config c), ch_ProgressMap c)).
Proof.
  intros H. apply checkAndReturn_ok. split; [|done].
  eapply conf_wf_ext; eauto using Clone_Voters.
Qed.

(** ** [symdiff] *)

Lemma filter_elements_size (X Y : gset Z) :
  len (filter (fun id => id ∉ Y) (elements X)) = Z.of_nat (size (X ∖ Y)).
Proof.
  unfold len, size, set_size. simpl. f_equal. apply Permutation_length, NoDup_Permutation.
  - apply NoDup_filter, NoDup_elements.
  - apply NoDup_elements.
  - intros x. rewrite list_elem_of_filter, !elem_of_elements, elem_of_difference. tauto.
Qed.

Lemma symdiff_size l r :
  symdiff l r = Z.of_nat (size ((ids l ∖ ids r) ∪ (ids r ∖ ids l))).
Proof.
  unfold symdiff. rewrite !filter_elements_size. pose proof (size_union (ids l ∖ ids r) (ids r ∖ ids l) ltac:(set_solver)) as ->. lia.
Qed.

Lemma symdiff_le_1 l r : symdiff l r <= 1 <->
  forall x y, ~ (x ∈ ids l <-> x ∈ ids r) -> ~ (y ∈ ids l <-> y ∈ ids r) -> x = y.
Proof.
  rewrite symdiff_size. set (D := (ids l ∖ ids r) ∪ (ids r ∖ ids l)).
  assert (HD : forall x, x ∈ D <-> ~ (x ∈ ids l <-> x ∈ ids r)).
  { intros x. unfold D. rewrite elem_of_union, !elem_of_difference.
    destruct (decide (x ∈ ids l)), (decide (x ∈ ids r)); tauto. }
  setoid_rewrite <- HD. split.
  - intros Hs x y Hx Hy. destruct (decide (size D = 1%nat)) as [H1|H1].
    + exact (size_singleton_inv D x y H1 Hx Hy).
    + assert (size D = 0%nat) as H0 by lia. apply (size_empty_iff D), leibniz_equiv in H0.
      rewrite H0 in Hx. by apply not_elem_of_empty in Hx.
  - intros H. destruct (decide (D = ∅)) as [->|Hne]; [rewrite (size_empty (C:=gset Z)); lia|].
    destruct (set_choose_L D Hne) as [x Hx].
    assert (D = {[x]}) as -> by (apply set_eq; intros y; rewrite elem_of_singleton; split;
      [intros Hy; by apply H|by intros ->]).
    rewrite (size_singleton (C:=gset Z) x). lia.
Qed.

(** ** The three transitions *)

(** At most one peer is a voter on one side only. *)
Definition one_voter_changes (r r' : PeerID -> option bool) : Prop :=
  forall x y, ~ (r x = Some true <-> r' x = Some true) -> ~ (r y = Some true <-> r' y = Some true) -> x = y.

Lemma symdiff_roles cfg trk cfg' trk' : conf_wf cfg trk -> conf_wf cfg' trk' ->
  symdiff (incoming (Voters cfg)) (incoming (Voters cfg')) <= 1 <->
  one_voter_changes (cfg_role cfg) (cfg_role cfg').
Proof.
  intros Hwf Hwf'. rewrite symdiff_le_1. unfold one_voter_changes.
  setoid_rewrite (fun x => proj1 (cfg_role_spec cfg trk x Hwf)).
  by setoid_rewrite (fun x => proj1 (cfg_role_spec cfg' trk' x Hwf')).
Qed.

Lemma Clone_role cfg x : cfg_role (Config_Clone cfg) x = cfg_role cfg x.
Proof. unfold cfg_role. by rewrite Clone_Voters. Qed.

Lemma Clone_wf cfg trk : conf_wf cfg trk -> conf_wf (Config_Clone cfg) trk.
Proof. intros H. eapply conf_wf_ext; eauto using Clone_Voters. Qed.

Lemma joint_ext cfg cfg' : outgoing (Voters cfg) = outgoing (Voters cfg') -> joint cfg = joint cfg'.
Proof. unfold joint. by intros ->. Qed.

Lemma joint_None cfg : outgoing (Voters cfg) = None -> joint cfg = false.
Proof. unfold joint. by intros ->. Qed.

Lemma Simple_result c ccs :
  conf_wf (ch_Config c) (ch_ProgressMap c) -> joint (ch_Config c) = false ->
  forallb change_known ccs = true ->
  exists res, Changer_Simple c ccs = Ret res /\
  match res with
  | inr (cfg', trk') =>
    conf_ok cfg' trk' /\ joint cfg' = false /\ ids (incoming (Voters cfg')) <> ∅ /\
    (forall id, cfg_role cfg' id = change_roles (cfg_role (ch_Config c)) ccs id) /\
    symdiff (incoming (Voters (ch_Config c))) (incoming (Voters cfg')) <= 1
  | inl e =>
    (e = Errorf "removed all voters" [] /\
       forall id, change_roles (cfg_role (ch_Config c)) ccs id <> Some true) \/
    (e = Errorf "more than one voter changed without entering joint config" [] /\
       ~ one_voter_changes (cfg_role (ch_Config c)) (change_roles (cfg_role (ch_Config c)) ccs))
  end.
Proof.
  intros Hwf Hj Hk. unfold Changer_Simple. rewrite checkAndCopy_ok by done. simpl.
  assert (joint (Config_Clone (ch_Config c)) = false) as ->
    by (rewrite <- Hj; apply joint_ext; by rewrite Clone_Voters).
  destruct (Changer_apply_spec c ccs _ _ (Clone_wf _ _ Hwf) Hk) as (res & -> & Hres). simpl.
  pose proof (change_roles_ext ccs _ _ (Clone_role (ch_Config c))) as Hc.
  destruct res as [e|[cfg' trk']].
  - destruct Hres as [-> Hr]. eexists. split; [done|]. left. split; [done|]. intros id. by rewrite <- Hc.
  - destruct Hres as ((Hwf' & Hr & Ho & Ha) & Hne). rewrite Clone_Voters in Ho.
    assert (Hr' : forall id, cfg_role cfg' id = change_roles (cfg_role (ch_Config c)) ccs id)
      by (intros; by rewrite Hr, Hc).
    destruct (_ >? 1) eqn:Es.
    + eexists. split; [done|]. right. split; [done|]. intros Hone.
      assert (symdiff (incoming (Voters (ch_Config c))) (incoming (Voters cfg')) <= 1); [|blia].
      eapply symdiff_roles; eauto. intros x y. rewrite !Hr'. apply Hone.
    + assert (Hok : conf_ok cfg' trk') by (split; [done|by rewrite Ha]).
      rewrite checkAndReturn_ok by done. eexists. split; [done|]. simpl.
      split_and!; try done; [|blia]. rewrite <- Hj. by apply joint_ext.
Qed.

Lemma enter_wf cfg trk : conf_wf cfg trk -> joint cfg = false -> ids (incoming (Voters cfg)) <> ∅ ->
  let cfg1 := Config_Clone cfg <| Voters := (incoming (Voters cfg), Some (ids (incoming (Voters cfg)))) |> in
  conf_wf cfg1 trk /\ forall x, cfg_role cfg1 x = cfg_role cfg x.
Proof.
  intros Hwf Hj Hne. destruct (joint_false _ _ Hwf Hj) as [Eo EN].
  pose proof Hwf as [Hdom Hl Hn Hd Hi (_ & HL & _)]. simpl. split; [|done].
  constructor; simpl; try done.
  - intros id. rewrite Hdom, Eo. change (ids None) with (∅ : gset Z). rewrite elem_of_empty.
    change (ids (Some (ids (incoming (Voters cfg))))) with (ids (incoming (Voters cfg))). tauto.
  - intros id. by rewrite EN.
  - intros id Hid. destruct (Hd id Hid) as [H1 _]. done.
  - rewrite EN. split_and!; [congruence|done..].
Qed.

Lemma EnterJoint_result c autoLeave ccs :
  conf_wf (ch_Config c) (ch_ProgressMap c) -> joint (ch_Config c) = false ->
  ids (incoming (Voters (ch_Config c))) <> ∅ -> forallb change_known ccs = true ->
  exists res, Changer_EnterJoint c autoLeave ccs = Ret res /\
  match res with
  | inr (cfg', trk') =>
    conf_ok cfg' trk' /\ outgoing (Voters cfg') = Some (ids (incoming (Voters (ch_Config c)))) /\
    AutoLeave cfg' = autoLeave /\ ids (incoming (Voters cfg')) <> ∅ /\
    (forall id, cfg_role cfg' id = change_roles (cfg_role (ch_Config c)) ccs id)
  | inl e =>
    e = Errorf "removed all voters" [] /\
    forall id, change_roles (cfg_role (ch_Config c)) ccs id <> Some true
  end.
Proof.
  intros Hwf Hj Hne Hk. unfold Changer_EnterJoint. rewrite checkAndCopy_ok by done. simpl.
  assert (joint (Config_Clone (ch_Config c)) = false) as ->
    by (rewrite <- Hj; apply joint_ext; by rewrite Clone_Voters).
  change (Voters (ch_Config c)).1 with (incoming (Voters (ch_Config c))). destruct (_ =? 0) eqn:E0; bool_to_prop; rewrite map_len_0 in E0; [done|].
  destruct (enter_wf _ _ Hwf Hj Hne) as [Hwf1 Hr1].
  destruct (Changer_apply_spec c ccs _ _ Hwf1 Hk) as (res & -> & Hres). simpl.
  pose proof (change_roles_ext ccs _ _ Hr1) as Hc.
  destruct res as [e|[cfg' trk']].
  - destruct Hres as [-> Hr]. eexists. split; [done|]. split; [done|]. intros id. by rewrite <- Hc.
  - destruct Hres as ((Hwf' & Hr & Ho & Ha) & Hne'). simpl in Ho.
    assert (Hok : conf_ok (cfg' <| AutoLeave := autoLeave |>) trk').
    { split; [by eapply conf_wf_ext|]. simpl. by rewrite Ho. }
    rewrite checkAndReturn_ok by done. eexists. split; [done|]. split_and!; [done..|].
    intros id. change (cfg_role cfg' id = change_roles (cfg_role (ch_Config c)) ccs id).
    by rewrite Hr, Hc.
Qed.

Lemma promote_spec order cfg trk :
  (forall x, x ∈ order -> is_Some (trk !! x)) -> Learners cfg <> Some ∅ ->
  exists cfg' trk', promote_LearnersNext cfg trk order = Ret (cfg', trk') /\
    Voters cfg' = Voters cfg /\ LearnersNext cfg' = LearnersNext cfg /\ Learners cfg' <> Some ∅ /\
    (forall x, x ∈ ids (Learners cfg') <-> x ∈ order \/ x ∈ ids (Learners cfg)) /\
    (forall x, trk' !! x = if decide (x ∈ order) then (fun pr => pr <| IsLearner := true |>) <$> trk !! x
                           else trk !! x).
Proof.
  revert cfg trk. induction order as [|id order IH]; intros cfg trk Hsome HL; simpl.
  - exists cfg, trk. split_and!; try done. intros x. split; [by right|]. intros [Hx|]; [inversion Hx|done].
  - destruct (Hsome id) as [pr Hpr]; [by left|]. rewrite Hpr.
    destruct (IH (cfg <| Learners := nilAwareAdd (Learners cfg) id |>)
      (<[id := pr <| IsLearner := true |>]> trk)) as (cfg' & trk' & -> & E1 & E2 & E3 & E4 & E5); simpl.
    + intros x Hx. destruct (decide (x = id)) as [->|]; [by rewrite lookup_insert_eq|].
      rewrite lookup_insert_ne by done. apply Hsome. by right.
    + apply nilAwareAdd_nil.
    + exists cfg', trk'. split_and!; try done.
      * intros x. rewrite E4. simpl. autorewrite with ids. rewrite elem_of_cons. tauto.
      * intros x. rewrite E5. destruct (decide (x = id)) as [->|Hx].
        -- rewrite lookup_insert_eq, Hpr. destruct (decide (id ∈ id :: order)) as [_|Hn];
             [by case_decide|destruct Hn; by left].
        -- rewrite lookup_insert_ne by done. repeat case_decide; try done; rewrite elem_of_cons in *; tauto.
Qed.

Lemma drop_outgoing_lookup cfg order trk x :
  drop_outgoing cfg trk order !! x =
  if decide (x ∈ order /\ (x ∉ ids (incoming (Voters cfg))) /\ x ∉ ids (Learners cfg)) then None else trk !! x.
Proof.
  unfold drop_outgoing. revert trk. induction order as [|id order IH]; intros trk; cbn [foldl].
  { rewrite decide_False; [done|]. intros [H _]. inversion H. }
  rewrite IH. unfold map_has. destruct (decide (x = id)) as [->|Hx].
  - repeat case_decide; repeat case_bool_decide; simpl; rewrite ?lookup_delete_eq; try done;
      rewrite elem_of_cons in *; tauto.
  - assert ((if negb (bool_decide (id ∈ ids (incoming (Voters cfg)))) && negb (bool_decide (id ∈ ids (Learners cfg)))
      then delete id trk else trk) !! x = trk !! x) as ->
      by (destruct (_ && _); [by rewrite lookup_delete_ne|done]).
    repeat case_decide; try done; rewrite elem_of_cons in *; tauto.
Qed.

(** What [LeaveJoint] does to the configuration and to the progress map. *)
Definition left_joint (cfg cfg' : Config) (trk trk' : ProgressMap) : Prop :=
  Voters cfg' = (incoming (Voters cfg), None) /\ LearnersNext cfg' = None /\
  AutoLeave cfg' = false /\ Learners cfg' <> Some ∅ /\
  (forall x, x ∈ ids (Learners cfg') <-> x ∈ ids (LearnersNext cfg) \/ x ∈ ids (Learners cfg)) /\
  (forall x, trk' !! x = match cfg_role cfg x with
    | Some voter => (fun pr => pr <| IsLearner := negb voter |>) <$> trk !! x
    | None => None
    end).

Lemma set_IsLearner_id pr b : IsLearner pr = b -> pr <| IsLearner := b |> = pr.
Proof. intros <-. by destruct pr. Qed.

Lemma left_joint_trk cfg (trk trk1 : ProgressMap) L' x : conf_wf cfg trk ->
  (forall x, trk1 !! x = if decide (x ∈ elements (ids (LearnersNext cfg)))
    then (fun pr => pr <| IsLearner := true |>) <$> trk !! x else trk !! x) ->
  (x ∈ ids L' <-> x ∈ ids (LearnersNext cfg) \/ x ∈ ids (Learners cfg)) ->
  (if decide (x ∈ elements (ids (outgoing (Voters cfg))) /\ (x ∉ ids (incoming (Voters cfg))) /\ x ∉ ids L')
   then None else trk1 !! x) =
  match cfg_role cfg x with
  | Some voter => (fun pr => pr <| IsLearner := negb voter |>) <$> trk !! x
  | None => None
  end.
Proof.
  intros Hwf -> HL'. pose proof Hwf as [Hdom Hl Hn Hd _ _].
  specialize (Hdom x). specialize (Hl x). specialize (Hn x). specialize (Hd x).
  destruct (cfg_role_spec cfg trk x Hwf) as [H1 H2].
  pose proof (elem_of_elements (ids (outgoing (Voters cfg))) x) as Ho.
  pose proof (elem_of_elements (ids (LearnersNext cfg)) x) as HN.
  destruct (trk !! x) as [pr|] eqn:E; simpl.
  - specialize (Hl pr eq_refl). assert (Hm := proj1 Hdom ltac:(eauto)).
    destruct (cfg_role cfg x) as [[]|] eqn:Er; simpl.
    + rewrite !decide_False by intuition congruence. rewrite set_IsLearner_id; [done|].
      destruct (IsLearner pr); intuition congruence.
    + rewrite decide_False by intuition congruence.
      destruct (decide (x ∈ elements (ids (LearnersNext cfg)))); [done|].
      rewrite set_IsLearner_id; [done|]. intuition congruence.
    + rewrite decide_True; [done|]. intuition congruence.
  - by destruct (cfg_role cfg x); repeat case_decide.
Qed.

Lemma left_joint_ok cfg cfg' trk trk' : conf_wf cfg trk -> left_joint cfg cfg' trk trk' ->
  conf_ok cfg' trk' /\ forall x, cfg_role cfg' x = cfg_role cfg x.
Proof.
  intros Hwf (EV & EN & EA & EL & HL & Ht). pose proof Hwf as [Hdom Hl Hn Hd Hi _].
  assert (Hr : forall x, cfg_role cfg' x = cfg_role cfg x).
  { intros x. destruct (cfg_role_spec cfg trk x Hwf) as [H1 H2]. apply cfg_role_ext.
    - by rewrite EV.
    - rewrite EN, H2, HL. change (ids None) with (∅ : gset Z). rewrite elem_of_empty. tauto. }
  split; [|done]. split; [|by rewrite EA]. constructor; rewrite ?EV, ?EN; simpl;
    change (ids None) with (∅ : gset Z).
  - intros x. rewrite HL, Ht. destruct (cfg_role_spec cfg trk x Hwf) as [H1 H2].
    specialize (Hdom x). destruct (cfg_role cfg x) as [[]|].
    all: rewrite ?fmap_is_Some, ?Hdom, ?elem_of_empty; try rewrite is_Some_alt; intuition congruence.
  - intros x pr E. rewrite Ht in E. rewrite HL. destruct (cfg_role_spec cfg trk x Hwf) as [H1 H2].
    destruct (cfg_role cfg x) as [[]|]; [..|done];
      apply fmap_Some in E as (pr0 & E0 & ->); simpl; intuition congruence.
  - set_solver.
  - intros x. rewrite HL. rewrite elem_of_empty. intros [Hx|Hx]; [apply Hn in Hx|apply Hd in Hx]; tauto.
  - done.
  - split_and!; done.
Qed.

Lemma LeaveJoint_result c :
  conf_wf (ch_Config c) (ch_ProgressMap c) -> joint (ch_Config c) = true ->
  exists cfg' trk', Changer_LeaveJoint c = Ret (inr (cfg', trk')) /\
    left_joint (ch_Config c) cfg' (ch_ProgressMap c) trk'.
Proof.
  intros Hwf Hj. unfold Changer_LeaveJoint. rewrite checkAndCopy_ok by done. simpl.
  assert (joint (Config_Clone (ch_Config c)) = true) as ->
    by (rewrite <- Hj; apply joint_ext; by rewrite Clone_Voters). simpl.
  destruct (promote_spec (elements (ids (LearnersNext (ch_Config c)))) (Config_Clone (ch_Config c))
    (ch_ProgressMap c)) as (cfg1 & trk1 & -> & E1 & E2 & E3 & E4 & E5).
  { intros x. rewrite elem_of_elements. intros Hx. apply (wf_dom _ _ Hwf). tauto. }
  { apply (wf_nil _ _ Hwf). }
  rewrite Clone_Voters in E1. simpl. rewrite E1. simpl.
  match goal with |- context [checkAndReturn ?c ?t] => set (cfg' := c); set (trk' := t) end.
  assert (HL : left_joint (ch_Config c) cfg' (ch_ProgressMap c) trk').
  { subst cfg' trk'. split_and!; simpl; try done.
    - intros x. by rewrite E4, elem_of_elements.
    - intros x. rewrite drop_outgoing_lookup. simpl. rewrite E1.
      apply (left_joint_trk _ _ _ (Learners cfg1)); [done..|]. by rewrite E4, elem_of_elements. }
  exists cfg', trk'. split; [|done].
  by rewrite checkAndReturn_ok by (by eapply left_joint_ok).
Qed.

(** ** A well-formed configuration is determined by its roles *)

Lemma idmap_eq (m m' : idmap) : m <> Some ∅ -> m' <> Some ∅ -> (forall x, x ∈ ids m <-> x ∈ ids m') -> m = m'.
Proof.
  intros Hm Hm' H. assert (E : ids m = ids m') by (by apply set_eq). unfold ids in E.
  destruct m, m'; simpl in E; subst; done.
Qed.

Lemma conf_canonical cfg trk cfg' trk' : conf_wf cfg trk -> conf_wf cfg' trk' ->
  (forall x, cfg_role cfg' x = cfg_role cfg x) ->
  outgoing (Voters cfg') = outgoing (Voters cfg) -> AutoLeave cfg' = AutoLeave cfg -> cfg' = cfg.
Proof.
  intros Hwf Hwf' Hr Ho Ha.
  assert (HR : forall x, (x ∈ ids (incoming (Voters cfg')) <-> x ∈ ids (incoming (Voters cfg))) /\
    (x ∈ ids (Learners cfg') \/ x ∈ ids (LearnersNext cfg') <-> x ∈ ids (Learners cfg) \/ x ∈ ids (LearnersNext cfg))).
  { intros x. destruct (cfg_role_spec _ _ x Hwf) as [<- <-], (cfg_role_spec _ _ x Hwf') as [<- <-]. by rewrite Hr. }
  pose proof Hwf as [_ _ Hn Hd Hi (_ & HL & HN)]. pose proof Hwf' as [_ _ Hn' Hd' Hi' (_ & HL' & HN')].
  rewrite Ho in *.
  assert (EL : Learners cfg' = Learners cfg).
  { apply idmap_eq; try done. intros x. specialize (HR x). specialize (Hn x). specialize (Hn' x).
    specialize (Hd x). specialize (Hd' x). tauto. }
  assert (EN : LearnersNext cfg' = LearnersNext cfg).
  { apply idmap_eq; try done. intros x. specialize (HR x). specialize (Hn x). specialize (Hn' x).
    specialize (Hd x). specialize (Hd' x). tauto. }
  assert (EI : ids (incoming (Voters cfg')) = ids (incoming (Voters cfg))).
  { apply set_eq. intros x. apply HR. }
  destruct cfg as [[i o] a l n], cfg' as [[i' o'] a' l' n']. unfold incoming, outgoing, ids in *. simpl in *.
  destruct i, i'; simpl in *; congruence.
Qed.

(** ** Restore *)

Definition type_role (t : ConfChangeType) : option bool :=
  match t with
  | ConfChangeAddNode => Some true
  | ConfChangeAddLearnerNode => Some false
  | _ => None
  end.

Lemma change_roles_app r l k x : change_roles r (l ++ k) x = change_roles (change_roles r l) k x.
Proof. unfold change_roles. by rewrite foldl_app. Qed.

Lemma change_roles_map r t l x :
  t <> ConfChangeUpdateNode -> (forall n, t <> ConfChangeOther n) -> 0 ∉ l ->
  change_roles r (map (mkConfChangeSingle t) l) x = if decide (x ∈ l) then type_role t else r x.
Proof.
  intros Ht Ho. revert r. induction l as [|id l IH]; intros r H0.
  - destruct (decide (x ∈ [])) as [H|]; [inversion H|done].
  - rewrite not_elem_of_cons in H0. destruct H0 as [H0 H0'].
    cbn [map]. change (change_roles r (?a :: ?l) x) with (change_roles (change_role r a) l x).
    rewrite IH by done. unfold change_role. simpl. rewrite (proj2 (Z.eqb_neq id 0)) by done.
    unfold upd_role. destruct (decide (x ∈ l)) as [Hx|Hx].
    + rewrite decide_True; [done|by right].
    + destruct (decide (x = id)) as [->|Hne].
      * rewrite (decide_True (P := id ∈ id :: l)) by (by left). destruct t; try done; by (rewrite decide_True || destruct (Ho n)).
      * rewrite (decide_False (P := x ∈ id :: l)) by (rewrite elem_of_cons; tauto).
        destruct t; try done; by rewrite decide_False.
Qed.

(** A sequence of single changes, each of which is carried out by [Simple]. Some
    voter [v] is there from the first change on, so no prefix is refused. *)
Lemma chain_simple v ccs c ops :
  conf_ok (ch_Config c) (ch_ProgressMap c) -> joint (ch_Config c) = false ->
  forallb change_known ccs = true ->
  Forall (fun cc => ccs_NodeID cc = v -> ccs_Type cc = ConfChangeAddNode) ccs ->
  (cfg_role (ch_Config c) v = Some true \/
   exists ccs', ccs = mkConfChangeSingle ConfChangeAddNode v :: ccs' /\ v <> 0) ->
  exists cfg' trk', chain c (map simple_op ccs ++ ops) =
      chain (c <| ch_Config := cfg' |> <| ch_ProgressMap := trk' |>) ops /\
    conf_ok cfg' trk' /\ joint cfg' = false /\
    (forall x, cfg_role cfg' x = change_roles (cfg_role (ch_Config c)) ccs x).
Proof.
  revert c. induction ccs as [|cc ccs IH]; intros c Hok Hj Hk Hf Hv.
  - exists (ch_Config c), (ch_ProgressMap c). split_and!; try done. by destruct c.
  - cbn [forallb] in Hk. apply andb_true_iff in Hk as [Hk Hks]. apply Forall_cons in Hf as [Hcc Hf].
    destruct (Simple_result c [cc]) as (res & E & Hres); [apply Hok|done|cbn; by rewrite Hk|].
    assert (Hrv : change_roles (cfg_role (ch_Config c)) [cc] v = Some true).
    { unfold change_roles, change_role, upd_role. simpl. destruct Hv as [Hv|(ccs' & [= -> <-] & Hv)].
      - destruct (_ =? 0); [done|]. destruct (decide (v = ccs_NodeID cc)) as [->|Hne].
        + by rewrite Hcc, decide_True.
        + destruct (ccs_Type cc); try done; by rewrite decide_False.
      - simpl. rewrite (proj2 (Z.eqb_neq v 0)) by done. by rewrite decide_True. }
    cbn [map app chain]. unfold simple_op at 1. rewrite E. destruct res as [e|[cfg1 trk1]].
    { destruct Hres as [[_ H]|[_ H]]; [by destruct (H v)|]. destruct H. intros x y.
      unfold change_roles, change_role, upd_role. simpl.
      destruct (_ =? 0), (ccs_Type cc); repeat case_decide; try tauto; congruence. }
    destruct Hres as (Hok1 & Hj1 & _ & Hr1 & _). cbn [ebind obind].
    destruct (IH (c <| ch_Config := cfg1 |> <| ch_ProgressMap := trk1 |>)) as (cfg' & trk' & -> & ? & ? & Hr');
      simpl; try done.
    + left. by rewrite Hr1.
    + exists cfg', trk'. split_and!; try done. intros x. rewrite Hr'. by apply (change_roles_ext ccs).
Qed.

Lemma elem_of_Slice m x : x ∈ MajorityConfig_Slice m <-> x ∈ ids m.
Proof. unfold MajorityConfig_Slice. by rewrite merge_sort_Permutation, elem_of_elements. Qed.

Lemma Equivalent_elem cs cfg : ConfState_Equivalent cs (Config_ConfState cfg) = true ->
  (forall x, x ∈ cs_Voters cs <-> x ∈ ids (incoming (Voters cfg))) /\
  (forall x, x ∈ cs_VotersOutgoing cs <-> x ∈ ids (outgoing (Voters cfg))) /\
  (forall x, x ∈ cs_Learners cs <-> x ∈ ids (Learners cfg)) /\
  (forall x, x ∈ cs_LearnersNext cs <-> x ∈ ids (LearnersNext cfg)) /\
  cs_AutoLeave cs = AutoLeave cfg.
Proof.
  assert (Hs : forall l k : list Z, merge_sort Z.le l = merge_sort Z.le k -> l ≡ₚ k).
  { intros l k E. by rewrite <- (merge_sort_Permutation Z.le l), E, merge_sort_Permutation. }
  unfold ConfState_Equivalent. rewrite !andb_true_iff, !bool_decide_eq_true.
  intros ((((H1 & H2) & H3) & H4) & H5). split_and!; [intros x..|done];
    rewrite <- elem_of_Slice; apply elem_of_Permutation_proper, Hs; assumption.
Qed.

Lemma empty_conf_ok : conf_ok MakeEmptyConfig ∅.
Proof.
  split; [|done]. constructor; simpl; try done.
  intros id. rewrite lookup_empty, is_Some_alt. unfold ids. simpl. rewrite elem_of_empty. tauto.
Qed.

Lemma known_map t l : (forall n, t <> ConfChangeOther n) ->
  forallb change_known (map (mkConfChangeSingle t) l) = true.
Proof.
  intros Ht. apply forallb_forall. intros cc Hcc. apply in_map_iff in Hcc as (id & <- & _).
  unfold change_known. simpl. destruct t; rewrite ?orb_true_r; try done. by destruct (Ht n).
Qed.

Lemma Forall_type_map v t l : (v ∈ l -> t = ConfChangeAddNode) ->
  Forall (fun cc => ccs_NodeID cc = v -> ccs_Type cc = ConfChangeAddNode) (map (mkConfChangeSingle t) l).
Proof.
  intros H. rewrite Forall_forall. intros cc Hcc. apply list_elem_of_In, in_map_iff in Hcc as (id & <- & Hid).
  simpl. intros ->. apply H. by apply list_elem_of_In.
Qed.

Section restore.
Context (c : Changer) (cfg : Config) (trk : ProgressMap) (cs : ConfState).
Context (Hok : conf_ok cfg trk) (Hne : ids (incoming (Voters cfg)) <> ∅).
Context (Hzero : trk !! 0 = None).
Context (Hcfg : ch_Config c = MakeEmptyConfig) (Htrk : ch_ProgressMap c = ∅).
Context (Hcs : ConfState_Equivalent cs (Config_ConfState cfg) = true).

Lemma restore_start : conf_ok (ch_Config c) (ch_ProgressMap c) /\ joint (ch_Config c) = false /\
  forall x, cfg_role (ch_Config c) x = None.
Proof. rewrite Hcfg, Htrk. split_and!; [apply empty_conf_ok|done|done]. Qed.

Lemma restore_nozero : (0 ∉ cs_Voters cs) /\ (0 ∉ cs_VotersOutgoing cs) /\ (0 ∉ cs_Learners cs) /\
  0 ∉ cs_LearnersNext cs.
Proof.
  destruct (Equivalent_elem _ _ Hcs) as (-> & -> & -> & -> & _).
  exact (conf_wf_absent cfg trk 0 (proj1 Hok) Hzero).
Qed.

Lemma restore_incoming_roles r x : (forall y, r y <> None -> y ∈ ids (outgoing (Voters cfg))) ->
  change_roles r (snd (toConfChangeSingle cs)) x = cfg_role cfg x.
Proof.
  intros Hr. destruct restore_nozero as (Z1 & Z2 & Z3 & Z4). simpl.
  rewrite !change_roles_app, !change_roles_map by done.
  destruct (Equivalent_elem _ _ Hcs) as (E1 & E2 & E3 & E4 & _).
  destruct (cfg_role_spec cfg trk x (proj1 Hok)) as [H1 H2].
  pose proof (wf_next _ _ (proj1 Hok) x) as Hn. pose proof (wf_disjoint _ _ (proj1 Hok) x) as Hd.
  specialize (E1 x). specialize (E2 x). specialize (E3 x). specialize (E4 x). specialize (Hr x).
  unfold type_role. destruct (cfg_role cfg x) as [[]|]; repeat case_decide; try done; try tauto; try (intuition congruence).
  destruct (r x); [|done]; assert (x ∈ ids (outgoing (Voters cfg))) by (by apply Hr); tauto.
Qed.

Lemma known_incoming : forallb change_known (snd (toConfChangeSingle cs)) = true.
Proof. simpl. by rewrite !forallb_app, !known_map. Qed.

Lemma nonjoint_AutoLeave cfg' trk' : conf_ok cfg' trk' -> joint cfg' = false -> AutoLeave cfg' = false.
Proof.
  intros [Hwf Ha] Hj. destruct (joint_false _ _ Hwf Hj) as [Eo _].
  destruct (AutoLeave cfg'); [by destruct Ha|done].
Qed.

Lemma restore_nonjoint : joint cfg = false ->
  exists trk', Restore c cs = Ret (inr (cfg, trk')) /\ conf_ok cfg trk'.
Proof.
  intros Hj. destruct (joint_false _ _ (proj1 Hok) Hj) as [Eo _].
  destruct (Equivalent_elem _ _ Hcs) as (E1 & E2 & E3 & E4 & _).
  assert (Hout : cs_VotersOutgoing cs = []).
  { apply elem_of_nil_inv. intros x. rewrite E2, Eo. apply not_elem_of_empty. }
  pose proof (fun x => restore_incoming_roles (cfg_role (ch_Config c)) x) as Hr.
  pose proof known_incoming as Hk. destruct restore_start as (Hok0 & Hj0 & Hr0).
  destruct restore_nozero as (Z1 & _).
  unfold Restore. destruct (toConfChangeSingle cs) as [out inc] eqn:Et.
  unfold toConfChangeSingle in Et. rewrite Hout in Et. simpl in Et. injection Et as <- Hinc. simpl in *.
  destruct (cs_Voters cs) as [|v vs] eqn:EV.
  { destruct (set_choose_L _ Hne) as [x Hx]. apply E1 in Hx. inversion Hx. }
  assert (Hv : v ∈ ids (incoming (Voters cfg))) by (apply E1; by left).
  destruct (chain_simple v inc c []) as (cfg' & trk' & E & Hok' & Hj' & Hr'); try done.
  - subst inc. cbn [map app]. apply Forall_cons. split; [done|]. rewrite !Forall_app.
    split_and!; apply Forall_type_map; [done|..]; rewrite ?E3, ?E4; intros Hx;
      [by destruct (wf_disjoint _ _ (proj1 Hok) v Hx)|by destruct (wf_next _ _ (proj1 Hok) v Hx)].
  - right. subst inc. eexists. split; [done|]. intros ->. apply Z1. by left.
  - rewrite app_nil_r in E. rewrite E. simpl.
    assert (cfg' = cfg) as -> by (apply (conf_canonical cfg trk cfg' trk'); [apply Hok|apply Hok'|..];
      [intros x; rewrite Hr'; apply Hr; intros y; by rewrite Hr0
      |rewrite Eo; by apply (joint_false _ _ (proj1 Hok') Hj')
      |by rewrite (nonjoint_AutoLeave cfg' trk'), (nonjoint_AutoLeave cfg trk)]).
    by exists trk'.
Qed.

Lemma restore_joint : joint cfg = true ->
  exists trk', Restore c cs = Ret (inr (cfg, trk')) /\ conf_ok cfg trk'.
Proof.
  intros Hj. destruct (Equivalent_elem _ _ Hcs) as (E1 & E2 & _ & _ & E5).
  pose proof (fun r x => restore_incoming_roles r x) as Hr. pose proof known_incoming as Hk.
  destruct restore_start as (Hok0 & Hj0 & Hr0). destruct restore_nozero as (_ & Z2 & _).
  unfold Restore. destruct (toConfChangeSingle cs) as [out inc] eqn:Et. cbn [snd] in Hr, Hk.
  assert (Hout : out = map (mkConfChangeSingle ConfChangeAddNode) (cs_VotersOutgoing cs))
    by (unfold toConfChangeSingle in Et; congruence).
  clear Et. apply joint_spec in Hj.
  destruct (cs_VotersOutgoing cs) as [|v vs] eqn:EO.
  { destruct (set_choose_L _ Hj) as [x Hx]. apply E2 in Hx. inversion Hx. }
  assert ((len out =? 0) = false) as -> by (by subst out).
  destruct (chain_simple v out c [fun chg => Changer_EnterJoint chg (cs_AutoLeave cs) inc])
    as (cfg1 & trk1 & -> & Hok1 & Hj1 & Hr1); try done.
  { subst out. by apply known_map. }
  { subst out. by apply Forall_type_map. }
  { right. subst out. eexists. split; [done|]. intros ->. apply Z2. by left. }
  assert (Hr1' : forall x, cfg_role cfg1 x = if decide (x ∈ v :: vs) then Some true else None).
  { intros x. rewrite Hr1, Hout, change_roles_map by done. by rewrite Hr0. }
  assert (Ein : ids (incoming (Voters cfg1)) = ids (outgoing (Voters cfg))).
  { apply set_eq. intros x. rewrite <- E2. destruct (cfg_role_spec _ _ x (proj1 Hok1)) as [<- _].
    rewrite Hr1'. by case_decide. }
  set (c1 := c <| ch_Config := cfg1 |> <| ch_ProgressMap := trk1 |>).
  destruct (EnterJoint_result c1 (cs_AutoLeave cs) inc) as (res & E & Hres); simpl; try done.
  { apply Hok1. }
  { by rewrite Ein. }
  assert (Hroles : forall x, change_roles (cfg_role cfg1) inc x = cfg_role cfg x).
  { intros x. apply Hr. intros y. rewrite Hr1'. case_decide; [intros _; by apply E2|done]. }
  cbn [chain]. rewrite E. destruct res as [e|[cfg2 trk2]]; cbn [ebind obind chain].
  { exfalso. destruct (set_choose_L _ Hne) as [x Hx]. destruct Hres as [_ Hres]. apply (Hres x).
    simpl. rewrite Hroles. by apply (cfg_role_spec cfg trk x (proj1 Hok)). }
  destruct Hres as (Hok2 & Eo2 & Ea2 & _ & Hr2). simpl in Eo2, Hr2.
  assert (cfg2 = cfg) as -> by (apply (conf_canonical cfg trk cfg2 trk2); [apply Hok|apply Hok2|..];
    [intros x; by rewrite Hr2, Hroles
    |rewrite Eo2, Ein; unfold ids in Hj |- *; by destruct (outgoing (Voters cfg))
    |by rewrite Ea2]).
  exists trk2. by split.
Qed.
End restore.

(** ** Quorums across a change *)

Lemma countp_within (X U : gset Z) (P : Z -> Prop) {Pdec : forall x, Decision (P x)} : X ⊆ U ->
  countp P (elements X) = countp (fun x => P x /\ x ∈ X) (elements U).
Proof.
  intros Hs. unfold countp, len. f_equal. apply Permutation_length, NoDup_Permutation.
  - apply NoDup_filter, NoDup_elements.
  - apply NoDup_filter, NoDup_elements.
  - intros x. rewrite !list_elem_of_filter, !elem_of_elements. set_solver.
Qed.

(** Majorities of two sets of voters that differ in at most one peer intersect. *)
Lemma majority_symdiff (l r : idmap) P Q {Pdec : forall x, Decision (P x)} {Qdec : forall x, Decision (Q x)} :
  symdiff l r <= 1 -> majority l P -> majority r Q -> exists id, P id /\ Q id.
Proof.
  unfold majority, map_len. intros Hs HP HQ. rewrite symdiff_size in Hs.
  set (U := ids l ∪ ids r) in *.
  rewrite (countp_within (ids l) U) in HP by set_solver.
  rewrite (countp_within (ids r) U) in HQ by set_solver.
  destruct (majority_overlap (fun x => P x /\ x ∈ ids l) (fun x => Q x /\ x ∈ ids r) (elements U))
    as (x & _ & [? _] & [? _]); [|by exists x].
  assert (HU1 : size U = (size (ids l) + size (ids r ∖ ids l))%nat).
  { rewrite <- size_union by set_solver. f_equal. apply set_eq. intros x. subst U.
    rewrite !elem_of_union, elem_of_difference. destruct (decide (x ∈ ids l)); tauto. }
  assert (HU2 : size U = (size (ids r) + size (ids l ∖ ids r))%nat).
  { rewrite <- size_union by set_solver. f_equal. apply set_eq. intros x. subst U.
    rewrite !elem_of_union, elem_of_difference. destruct (decide (x ∈ ids r)); tauto. }
  rewrite size_union in Hs by set_solver.
  change (len (elements U)) with (Z.of_nat (size U)). Z.to_euclidean_division_equations. lia.
Qed.

Lemma apply_loop_known c ccs cfg trk res :
  conf_wf cfg trk -> apply_loop c cfg trk ccs = Ret (inr res) -> forallb change_known ccs = true.
Proof.
  revert cfg trk. induction ccs as [|cc ccs IH]; intros cfg trk Hwf E; [done|]. cbn [forallb].
  destruct (change_known cc) eqn:Ek.
  - destruct (apply_loop_step c cfg trk cc ccs Hwf Ek) as (cfg1 & trk1 & E1 & Hwf1 & _).
    rewrite E1 in E. by eapply IH.
  - exfalso. unfold change_known in Ek. apply orb_false_iff in Ek as [E0 Et]. simpl in E. rewrite E0 in E.
    by destruct (ccs_Type cc).
Qed.

Lemma Simple_success c ccs res :
  conf_wf (ch_Config c) (ch_ProgressMap c) -> Changer_Simple c ccs = Ret (inr res) ->
  joint (ch_Config c) = false /\ forallb change_known ccs = true.
Proof.
  intros Hwf. unfold Changer_Simple. rewrite checkAndCopy_ok by done. simpl.
  rewrite (joint_ext (Config_Clone _) (ch_Config c)) by (by rewrite Clone_Voters).
  destruct (joint _); [done|]. unfold Changer_apply.
  destruct (apply_loop _ _ _ _) as [[e|r]|] eqn:E; try done.
  intros _. eauto using apply_loop_known, Clone_wf.
Qed.

Lemma EnterJoint_success c autoLeave ccs res :
  conf_wf (ch_Config c) (ch_ProgressMap c) -> Changer_EnterJoint c autoLeave ccs = Ret (inr res) ->
  joint (ch_Config c) = false /\ ids (incoming (Voters (ch_Config c))) <> ∅ /\ forallb change_known ccs = true.
Proof.
  intros Hwf. unfold Changer_EnterJoint. rewrite checkAndCopy_ok by done. simpl.
  rewrite (joint_ext (Config_Clone _) (ch_Config c)) by (by rewrite Clone_Voters).
  destruct (joint _) eqn:Ej; [done|]. destruct (_ =? 0) eqn:E0; [done|]. bool_to_prop.
  rewrite map_len_0 in E0. unfold Changer_apply.
  destruct (apply_loop _ _ _ _) as [[e|r]|] eqn:E; try done.
  intros _. split_and!; [done..|]. eapply apply_loop_known; [|exact E]. by apply enter_wf.
Qed.

Lemma LeaveJoint_success c res :
  conf_wf (ch_Config c) (ch_ProgressMap c) -> Changer_LeaveJoint c = Ret (inr res) ->
  joint (ch_Config c) = true.
Proof.
  intros Hwf. unfold Changer_LeaveJoint. rewrite checkAndCopy_ok by done. simpl.
  rewrite (joint_ext (Config_Clone _) (ch_Config c)) by (by rewrite Clone_Voters).
  by destruct (joint _).
Qed.

(** A successful membership change. *)
Inductive conf_change (c : Changer) (cfg' : Config) (trk' : ProgressMap) : Prop :=
| conf_change_simple ccs : Changer_Simple c ccs = Ret (inr (cfg', trk')) -> conf_change c cfg' trk'
| conf_change_enter autoLeave ccs :
    Changer_EnterJoint c autoLeave ccs = Ret (inr (cfg', trk')) -> conf_change c cfg' trk'
| conf_change_leave : Changer_LeaveJoint c = Ret (inr (cfg', trk')) -> conf_change c cfg' trk'.

Lemma conf_change_quorums (c : Changer) (cfg' : Config) (trk' : ProgressMap) (votes votes' : gmap Z bool) :
  conf_ok (ch_Config c) (ch_ProgressMap c) -> ids (incoming (Voters (ch_Config c))) <> ∅ ->
  conf_change c cfg' trk' ->
  (conf_ok cfg' trk' /\ ids (incoming (Voters cfg')) <> ∅) /\
  (JointConfig_VoteResult (Voters (ch_Config c)) votes = VoteWon ->
   JointConfig_VoteResult (Voters cfg') votes' = VoteWon ->
   exists id, votes !! id = Some true /\ votes' !! id = Some true).
Proof.
  intros [Hwf Ha] Hne Hch. rewrite !JointConfig_won_iff. destruct Hch as [ccs E|autoLeave ccs E|E].
  - destruct (Simple_success _ _ _ Hwf E) as [Hj Hk].
    destruct (Simple_result c ccs Hwf Hj Hk) as (res & E' & Hres). rewrite E in E'. injection E' as <-.
    destruct Hres as (Hok' & Hj' & Hne' & _ & Hs). split; [done|]. intros [[|H1] _] [[|H2] _]; try done.
    exact (majority_symdiff _ _ (voted votes true) (voted votes' true) Hs H1 H2).
  - destruct (EnterJoint_success _ _ _ _ Hwf E) as (Hj & _ & Hk).
    destruct (EnterJoint_result c autoLeave ccs Hwf Hj Hne Hk) as (res & E' & Hres). rewrite E in E'.
    injection E' as <-. destruct Hres as (Hok' & Ho & _ & Hne' & _). split; [done|]. intros [H1 _] [_ H2].
    unfold outgoing in Ho. rewrite Ho in H2. destruct H2 as [|H2]; [done|]. destruct H1 as [|H1]; [done|].
    destruct (majority_intersect _ (voted votes true) (voted votes' true) H1 H2) as (id & _ & ?). by exists id.
  - pose proof (LeaveJoint_success _ _ Hwf E) as Hj.
    destruct (LeaveJoint_result c Hwf Hj) as (cfg2 & trk2 & E' & HL). rewrite E in E'. injection E' as <- <-.
    destruct (left_joint_ok _ _ _ _ Hwf HL) as [Hok' _]. destruct HL as (EV & _). rewrite EV.
    split; [done|]. intros [[|H1] _] [[|H2] _]; try done.
    destruct (majority_intersect _ (voted votes true) (voted votes' true) H1 H2) as (id & _ & ?). by exists id.
Qed.

(** C15. Membership changes never create disjoint quorums. Whatever change is
    carried out on a configuration with voters (several changes at once through a
    joint configuration, one voter directly, or leaving a joint configuration),
    the resulting configuration satisfies the invariants again and has voters,
    and every set of votes that wins an election in the old configuration shares
    a yes-voter with every set of votes that wins one in the new configuration. *)
Theorem conf_change_safe (c : Changer) (cfg' : Config) (trk' : ProgressMap) (votes votes' : gmap Z bool) :
  conf_ok (ch_Config c) (ch_ProgressMap c) -> ids (incoming (Voters (ch_Config c))) <> ∅ ->
  conf_change c cfg' trk' ->
  (conf_ok cfg' trk' /\ ids (incoming (Voters cfg')) <> ∅) /\
  (JointConfig_VoteResult (Voters (ch_Config c)) votes = VoteWon ->
   JointConfig_VoteResult (Voters cfg') votes' = VoteWon ->
   exists id, votes !! id = Some true /\ votes' !! id = Some true).
Proof. intros. by apply (conf_change_quorums c cfg' trk'). Qed.

(** A configuration of three voters and a learner, built by [Simple]. *)
Definition example_changes : list ConfChangeSingle := [
  mkConfChangeSingle ConfChangeAddNode 1; mkConfChangeSingle ConfChangeAddNode 2;
  mkConfChangeSingle ConfChangeAddNode 3; mkConfChangeSingle ConfChangeAddLearnerNode 4].

Definition empty_Changer : Changer := mkChanger MakeEmptyConfig ∅ 4 0 10.

Definition example_Changer : Changer :=
  match chain empty_Changer (map simple_op example_changes) with
  | Ret (inr (cfg, trk)) => empty_Changer <| ch_Config := cfg |> <| ch_ProgressMap := trk |>
  | _ => empty_Changer
  end.

Lemma example_Changer_ok : conf_ok (ch_Config example_Changer) (ch_ProgressMap example_Changer).
Proof.
  destruct (chain_simple 1 example_changes empty_Changer []) as (cfg' & trk' & E & Hok & _).
  - apply empty_conf_ok.
  - done.
  - done.
  - unfold example_changes. repeat constructor; simpl; lia.
  - right. eexists. split; [done|lia].
  - unfold example_Changer. rewrite app_nil_r in E. rewrite E. simpl. done.
Qed.

Definition example_joint_changes : list ConfChangeSingle := [
  mkConfChangeSingle ConfChangeAddNode 5; mkConfChangeSingle ConfChangeRemoveNode 1;
  mkConfChangeSingle ConfChangeAddLearnerNode 2].

Lemma conf_change_safe_witness :
  exists cfg' trk', Changer_EnterJoint example_Changer true example_joint_changes = Ret (inr (cfg', trk')) /\
    Voters cfg' = (Some {[3; 5]}, Some {[1; 2; 3]}) /\ LearnersNext cfg' = Some {[2]} /\
    conf_ok cfg' trk' /\
    exists id, ({[1 := true; 3 := true]} : gmap Z bool) !! id = Some true /\
      ({[1 := true; 2 := false; 3 := true; 5 := true]} : gmap Z bool) !! id = Some true.
Proof.
  destruct (Changer_EnterJoint example_Changer true example_joint_changes) as [[e|[cfg' trk']]|] eqn:E;
    [vm_compute in E; discriminate E| |vm_compute in E; discriminate E].
  exists cfg', trk'. split; [done|].
  assert (EV : Voters cfg' = (Some {[3; 5]}, Some {[1; 2; 3]}) /\ LearnersNext cfg' = Some {[2]}).
  { vm_compute in E. injection E as <- <-. split; vm_compute; reflexivity. }
  destruct (conf_change_safe example_Changer cfg' trk' {[1 := true; 3 := true]}
    {[1 := true; 2 := false; 3 := true; 5 := true]} example_Changer_ok ltac:(by vm_compute)
    (conf_change_enter _ _ _ true example_joint_changes E)) as [[Hok _] Hov].
  split; [apply EV|]. split; [apply EV|]. split; [exact Hok|]. apply Hov.
  - vm_compute. reflexivity.
  - rewrite (proj1 EV). vm_compute. reflexivity.
Defined.

(** [Simple] does what its changes say, or refuses for a reason. On a
    well-formed configuration that is not joint, [Simple] never panics; it either
    returns a well-formed configuration in which every peer has exactly the role
    that the changes, taken in order, give it, with at least one voter and at
    most one peer entering or leaving the set of voters, or it reports that no
    voter is left, or that more than one voter changes, and this is so. The
    invariant check of the result never fails. *)
Theorem Changer_Simple_spec (c : Changer) (ccs : list ConfChangeSingle) :
  conf_ok (ch_Config c) (ch_ProgressMap c) -> joint (ch_Config c) = false ->
  forallb change_known ccs = true ->
  exists res, Changer_Simple c ccs = Ret res /\
  let r := cfg_role (ch_Config c) in
  let r' := change_roles r ccs in
  match res with
  | inr (cfg', trk') =>
    conf_ok cfg' trk' /\ joint cfg' = false /\ (forall id, cfg_role cfg' id = r' id) /\
    (exists id, r' id = Some true) /\ one_voter_changes r r'
  | inl e =>
    (e = Errorf "removed all voters" [] /\ forall id, r' id <> Some true) \/
    (e = Errorf "more than one voter changed without entering joint config" [] /\ ~ one_voter_changes r r')
  end.
Proof.
  intros [Hwf Ha] Hj Hk. destruct (Simple_result c ccs Hwf Hj Hk) as (res & E & Hres).
  exists res. split; [done|]. cbn zeta. destruct res as [e|[cfg' trk']]; [done|].
  destruct Hres as (Hok' & Hj' & Hne' & Hr & Hs). split_and!; try done.
  - destruct (set_choose_L _ Hne') as [x Hx]. exists x. rewrite <- Hr.
    by apply (cfg_role_spec cfg' trk' x (proj1 Hok')).
  - apply (symdiff_roles _ _ _ _ Hwf (proj1 Hok')) in Hs. intros x y. rewrite <- !Hr. apply Hs.
Qed.

Lemma Changer_Simple_spec_witness :
  exists res, Changer_Simple example_Changer [mkConfChangeSingle ConfChangeAddNode 4] = Ret res /\
  match res with
  | inr (cfg', trk') => conf_ok cfg' trk' /\ cfg_role cfg' 4 = Some true
  | inl _ => False
  end.
Proof.
  destruct (Changer_Simple_spec example_Changer [mkConfChangeSingle ConfChangeAddNode 4]
    example_Changer_ok ltac:(by vm_compute) ltac:(by vm_compute)) as (res & E & H).
  exists res. split; [exact E|]. destruct res as [e|[cfg' trk']].
  - vm_compute in E. discriminate E.
  - destruct H as (Hok & _ & Hr & _). split; [exact Hok|]. rewrite Hr. vm_compute. reflexivity.
Defined.

(** Entering and leaving a joint configuration. From a well-formed
    configuration with voters, [EnterJoint] never panics and fails only when no
    voter is left; otherwise the old voters become the outgoing half, every peer
    has the role the changes give it, and from the result [LeaveJoint] succeeds,
    drops the outgoing half, keeps every role, and keeps the progress of exactly
    the peers that have a role. *)
Theorem Changer_joint_spec (c : Changer) (autoLeave : bool) (ccs : list ConfChangeSingle) :
  conf_ok (ch_Config c) (ch_ProgressMap c) -> joint (ch_Config c) = false ->
  ids (incoming (Voters (ch_Config c))) <> ∅ -> forallb change_known ccs = true ->
  let r' := change_roles (cfg_role (ch_Config c)) ccs in
  exists res, Changer_EnterJoint c autoLeave ccs = Ret res /\
  match res with
  | inl e => e = Errorf "removed all voters" [] /\ forall id, r' id <> Some true
  | inr (cfg1, trk1) =>
    conf_ok cfg1 trk1 /\ joint cfg1 = true /\ AutoLeave cfg1 = autoLeave /\
    ids (outgoing (Voters cfg1)) = ids (incoming (Voters (ch_Config c))) /\
    (forall id, cfg_role cfg1 id = r' id) /\
    exists cfg2 trk2,
      Changer_LeaveJoint (c <| ch_Config := cfg1 |> <| ch_ProgressMap := trk1 |>) = Ret (inr (cfg2, trk2)) /\
      conf_ok cfg2 trk2 /\ Voters cfg2 = (incoming (Voters cfg1), None) /\
      (forall id, cfg_role cfg2 id = r' id) /\
      (forall id, trk2 !! id = match r' id with
        | Some voter => (fun pr => pr <| IsLearner := negb voter |>) <$> trk1 !! id
        | None => None
        end)
  end.
Proof.
  intros [Hwf Ha] Hj Hne Hk. cbn zeta.
  destruct (EnterJoint_result c autoLeave ccs Hwf Hj Hne Hk) as (res & E & Hres).
  exists res. split; [done|]. destruct res as [e|[cfg1 trk1]]; [done|].
  destruct Hres as (Hok1 & Ho & Ha1 & Hne1 & Hr1).
  assert (Hj1 : joint cfg1 = true) by (apply joint_spec; by rewrite Ho).
  split_and!; try done; [by rewrite Ho|].
  destruct (LeaveJoint_result (c <| ch_Config := cfg1 |> <| ch_ProgressMap := trk1 |>))
    as (cfg2 & trk2 & E2 & HL); [apply Hok1|done|].
  destruct (left_joint_ok cfg1 cfg2 trk1 trk2 (proj1 Hok1) HL) as [Hok2 Hr2].
  destruct HL as (EV & _ & _ & _ & _ & Ht). exists cfg2, trk2. simpl in EV, Ht.
  split_and!; try done; intros id.
  - by rewrite Hr2, Hr1.
  - by rewrite Ht, Hr1.
Qed.

Lemma Changer_joint_spec_witness :
  exists res, Changer_EnterJoint example_Changer false example_joint_changes = Ret res /\
  match res with
  | inl _ => False
  | inr (cfg1, trk1) => exists cfg2 trk2,
      Changer_LeaveJoint (example_Changer <| ch_Config := cfg1 |> <| ch_ProgressMap := trk1 |>) =
        Ret (inr (cfg2, trk2)) /\ trk2 !! 1 = None /\ cfg_role cfg2 2 = Some false
  end.
Proof.
  destruct (Changer_joint_spec example_Changer false example_joint_changes example_Changer_ok
    ltac:(by vm_compute) ltac:(by vm_compute) ltac:(by vm_compute)) as (res & E & H).
  exists res. split; [exact E|]. destruct res as [e|[cfg1 trk1]].
  - vm_compute in E. discriminate E.
  - destruct H as (_ & _ & _ & _ & _ & cfg2 & trk2 & E2 & _ & _ & Hr & Ht).
    exists cfg2, trk2. split; [exact E2|]. rewrite Ht, Hr. split; vm_compute; reflexivity.
Defined.

(** A configuration survives a snapshot. Restoring from a [ConfState] that is
    equivalent to the one a well-formed configuration reports (same members, in
    any order) succeeds and yields exactly that configuration, joint or not, with
    a progress map for exactly its members. Peer id 0 is reserved: the changes
    that mention it are ignored. *)
Theorem Restore_roundtrip (c : Changer) (cfg : Config) (trk : ProgressMap) (cs : ConfState) :
  conf_ok cfg trk -> ids (incoming (Voters cfg)) <> ∅ -> trk !! 0 = None ->
  ch_Config c = MakeEmptyConfig -> ch_ProgressMap c = ∅ ->
  ConfState_Equivalent cs (Config_ConfState cfg) = true ->
  exists trk', Restore c cs = Ret (inr (cfg, trk')) /\ conf_ok cfg trk'.
Proof.
  intros. destruct (joint cfg) eqn:Ej; [eapply restore_joint|eapply restore_nonjoint]; eauto.
Qed.

Lemma Restore_roundtrip_witness :
  exists trk', Restore empty_Changer (mkConfState [3; 1; 2] [4] [] [] false) =
    Ret (inr (ch_Config example_Changer, trk')) /\ conf_ok (ch_Config example_Changer) trk'.
Proof.
  apply (Restore_roundtrip empty_Changer (ch_Config example_Changer) (ch_ProgressMap example_Changer)).
  - apply example_Changer_ok.
  - by vm_compute.
  - by vm_compute.
  - done.
  - done.
  - by vm_compute.
Defined.
