(* ===== verification/LogTypes.v ===== *)
(** * Log slices and their sizes (src/pkg/raft/types.go, src/pkg/raft/util.go)

    [entryID], [LogMark], [logSlice] and [snapshot] with their operations, and the
    size arithmetic of util.go. The encoded size of an entry is computed by
    generated code: [Size] is an argument of the definitions that use it.

    Index arithmetic is modulo 2^64, as in the code; a slice access out of range
    is a panic. *)

From S2P Require Import Prelude Hlc Quorum RaftPb.

(** ** types.go *)

Record entryID : Type := mkEntryID { id_term : Z; id_index : Z }.

#[global] Instance eta_entryID : Eta entryID := fun i => mkEntryID (id_term i) (id_index i).
#[global] Instance entryID_eq_dec : EqDecision entryID.
Proof. solve_decision. Defined.

Definition pbEntryID (e : Entry) : entryID := mkEntryID (e_Term e) (e_Index e).

Record LogMark : Type := mkLogMark { mark_Term : Z; mark_Index : Z }.

#[global] Instance LogMark_eq_dec : EqDecision LogMark.
Proof. solve_decision. Defined.

Definition LogMark_After (l other : LogMark) : bool :=
  (mark_Term l >? mark_Term other) ||
  (mark_Term l =? mark_Term other) && (mark_Index l >? mark_Index other).

Record logSlice : Type := mkLogSlice {
  ls_term : Z;
  ls_prev : entryID;
  ls_entries : list Entry
}.

#[global] Instance eta_logSlice : Eta logSlice := fun s => mkLogSlice (ls_term s) (ls_prev s) (ls_entries s).

Definition logSlice_lastIndex (s : logSlice) : Z := id_index (ls_prev s) +u len (ls_entries s).

Definition logSlice_lastEntryID (s : logSlice) : outcome entryID :=
  let ln := len (ls_entries s) in
  if negb (ln =? 0) then
    let! e := slice_get (ls_entries s) (ln - 1) in Ret (pbEntryID e)
  else Ret (ls_prev s).

Definition logSlice_mark (s : logSlice) : LogMark := mkLogMark (ls_term s) (logSlice_lastIndex s).

Definition logSlice_termAt (s : logSlice) (index : Z) : outcome Z :=
  if index =? id_index (ls_prev s) then Ret (id_term (ls_prev s))
  else
    let! e := slice_get (ls_entries s) (index -u id_index (ls_prev s) -u 1) in Ret (e_Term e).

Definition logSlice_forward (s : logSlice) (index : Z) : outcome logSlice :=
  let! t := logSlice_termAt s index in
  let! entries := slice_from (ls_entries s) (index -u id_index (ls_prev s)) in
  Ret (mkLogSlice (ls_term s) (mkEntryID t index) entries).

(** The loop of [valid]: the last entry id, or the error. *)
Fixpoint valid_loop (term : Z) (prev : entryID) (entries : list Entry) : error + entryID :=
  match entries with
  | [] => inr prev
  | e :: entries =>
    let id := pbEntryID e in
    if (id_term id <? id_term prev) || negb (id_index id =? id_index prev +u 1) then
      inl (Errorf "leader term %d: entries %+v and %+v not consistent"
        [term; id_term prev; id_index prev; id_term id; id_index id])
    else valid_loop term id entries
  end.

Definition logSlice_valid (s : logSlice) : option error :=
  match valid_loop (ls_term s) (ls_prev s) (ls_entries s) with
  | inl err => Some err
  | inr prev =>
    if ls_term s <? id_term prev then
      Some (Errorf "leader term %d: entry %+v has a newer term" [ls_term s; id_term prev; id_index prev])
    else None
  end.

Record snapshot : Type := mkSnap { snap_term : Z; snap_snap : Snapshot }.

Definition snapshot_lastIndex (s : snapshot) : Z := s_Index (snap_snap s).
Definition snapshot_lastEntryID (s : snapshot) : entryID :=
  mkEntryID (s_Term (snap_snap s)) (s_Index (snap_snap s)).
Definition snapshot_mark (s : snapshot) : LogMark := mkLogMark (snap_term s) (s_Index (snap_snap s)).

Definition snapshot_valid (s : snapshot) : option error :=
  let entryTerm := s_Term (snap_snap s) in
  if entryTerm >? snap_term s then
    Some (Errorf "leader term %d: snap %+v has a newer term"
      [snap_term s; s_Term (snap_snap s); s_Index (snap_snap s)])
  else None.

(** ** util.go *)

Section sizes.
Context (Size : Entry -> Z).

(** [entsSize]: a sum of uint64. *)
Definition entsSize (ents : list Entry) : Z := foldl (fun size ent => size +u Size ent) 0 ents.

(** The loop of [limitSize] over [ents[limit:]]; [size] is a Go int. *)
Fixpoint limitSize_loop (all : list Entry) (size limit maxSize : Z) (ents : list Entry) : list Entry :=
  match ents with
  | [] => all
  | e :: ents =>
    let size := size + Size e in
    if u64 size >? maxSize then take (Z.to_nat limit) all
    else limitSize_loop all size (limit + 1) maxSize ents
  end.

Definition limitSize (ents : list Entry) (maxSize : Z) : list Entry :=
  match ents with
  | [] => ents
  | e :: rest => limitSize_loop ents (Size e) 1 maxSize rest
  end.

End sizes.

Definition payloadSize (e : Entry) : Z := len (e_Data e).
Definition payloadsSize (ents : list Entry) : Z := foldl (fun s e => s +u payloadSize e) 0 ents.

(** ** Contiguous runs of entries *)

(** [entries] continues a log that ends at [prev]: indexes increase by one and
    terms do not decrease. *)
Fixpoint log_from (prev : entryID) (entries : list Entry) : Prop :=
  match entries with
  | [] => True
  | e :: entries =>
    e_Index e = id_index prev + 1 /\ id_term prev <= e_Term e /\ log_from (pbEntryID e) entries
  end.

(** The id of the last entry. *)
Fixpoint last_id (prev : entryID) (entries : list Entry) : entryID :=
  match entries with
  | [] => prev
  | e :: entries => last_id (pbEntryID e) entries
  end.

(** The term at an index, from the entry before the run to its last entry. *)
Definition log_term (prev : entryID) (entries : list Entry) (i : Z) : option Z :=
  if i =? id_index prev then Some (id_term prev)
  else if i <? id_index prev then None
  else e_Term <$> entries !! Z.to_nat (i - id_index prev - 1).

(** All indexes of the run, and the one after it, are uint64 values. *)
Definition log_bounded (prev : entryID) (entries : list Entry) : Prop :=
  0 <= id_index prev /\ id_index prev + len entries < MaxUint64.

(** Properties (1) to (4) of the comment of [logSlice]. *)
Definition logSlice_wf (s : logSlice) : Prop :=
  (forall i e, ls_entries s !! i = Some e -> e_Index e = id_index (ls_prev s) + 1 + Z.of_nat i) /\
  (forall e, ls_entries s !! 0%nat = Some e -> id_term (ls_prev s) <= e_Term e) /\
  (forall i e e', ls_entries s !! i = Some e -> ls_entries s !! S i = Some e' -> e_Term e <= e_Term e') /\
  id_term (last_id (ls_prev s) (ls_entries s)) <= ls_term s.

Lemma log_from_app prev l k : log_from prev (l ++ k) <-> log_from prev l /\ log_from (last_id prev l) k.
Proof. revert prev. induction l as [|e l IH]; intros prev; simpl; [tauto|]. rewrite IH. tauto. Qed.

Lemma last_id_app prev l k : last_id prev (l ++ k) = last_id (last_id prev l) k.
Proof. revert prev. induction l as [|e l IH]; intros prev; simpl; auto. Qed.

Lemma last_id_index prev l : log_from prev l -> id_index (last_id prev l) = id_index prev + len l.
Proof.
  revert prev. induction l as [|e l IH]; intros prev; simpl; [intros _; unfold len; simpl; lia|].
  intros (Hi & _ & H). rewrite IH by done. simpl. rewrite len_cons. lia.
Qed.

Lemma last_id_term prev l : log_from prev l -> id_term prev <= id_term (last_id prev l).
Proof.
  revert prev. induction l as [|e l IH]; intros prev; simpl; [lia|].
  intros (_ & Ht & H). apply IH in H. simpl in H. lia.
Qed.

Lemma log_from_lookup prev l i e : log_from prev l -> l !! i = Some e ->
  e_Index e = id_index prev + 1 + Z.of_nat i /\ id_term prev <= e_Term e.
Proof.
  revert prev i. induction l as [|x l IH]; intros prev i; [done|].
  intros (Hi & Ht & H). destruct i as [|i]; simpl.
  - intros [= ->]. lia.
  - intros E. destruct (IH _ _ H E) as [H1 H2]. simpl in *. lia.
Qed.

Lemma log_from_iff prev l : log_from prev l <->
  (forall i e, l !! i = Some e -> e_Index e = id_index prev + 1 + Z.of_nat i) /\
  (forall e, l !! 0%nat = Some e -> id_term prev <= e_Term e) /\
  (forall i e e', l !! i = Some e -> l !! S i = Some e' -> e_Term e <= e_Term e').
Proof.
  split.
  - intros H. split_and!.
    + intros i e E. by apply (log_from_lookup _ _ _ _ H E).
    + intros e E. by apply (log_from_lookup _ _ _ _ H E).
    + intros i e e' E E'. rewrite <- (take_drop_middle l i e E) in H.
      apply log_from_app in H as [_ (_ & _ & H)].
      apply (log_from_lookup _ _ 0 e') in H; [by destruct H|]. rewrite lookup_drop. by rewrite Nat.add_0_r.
  - revert prev. induction l as [|x l IH]; intros prev (H1 & H2 & H3); simpl; [done|]. split_and!.
    + specialize (H1 0%nat x eq_refl). lia.
    + by apply H2.
    + apply IH. split_and!.
      * intros i e E. pose proof (H1 (S i) e E). pose proof (H1 0%nat x eq_refl). simpl. lia.
      * intros e E. by apply (H3 0%nat x e).
      * intros i e e' E E'. by apply (H3 (S i) e e').
Qed.

Lemma log_from_take_drop prev l n : log_from prev l ->
  log_from prev (take n l) /\ log_from (last_id prev (take n l)) (drop n l).
Proof. intros H. rewrite <- (take_drop n l) in H. by apply log_from_app. Qed.

Lemma log_term_last prev l : log_from prev l ->
  log_term prev l (id_index prev + len l) = Some (id_term (last_id prev l)).
Proof.
  unfold log_term. revert prev. induction l as [|e l IH]; intros prev; simpl.
  - intros _. change (len (@nil Entry)) with 0. by rewrite Z.add_0_r, Z.eqb_refl.
  - intros (Hi & _ & H). specialize (IH _ H). simpl in IH. rewrite len_cons. pose proof (len_nonneg l).
    rewrite Hi in IH. rewrite (proj2 (Z.eqb_neq _ _)), (proj2 (Z.ltb_ge _ _)) by lia.
    replace (Z.to_nat (id_index prev + (1 + len l) - id_index prev - 1)) with (length l) by (unfold len; lia).
    destruct l as [|e' l]; [done|]. rewrite len_cons in IH. pose proof (len_nonneg l).
    rewrite (proj2 (Z.eqb_neq _ _)), (proj2 (Z.ltb_ge _ _)) in IH by lia.
    rewrite <- IH. cbn [length]. cbn [lookup list_lookup].
    f_equal. replace (Z.to_nat _) with (length l) by (unfold len; lia). done.
Qed.

(** The prefix of a run up to an index ends with the term at that index. *)
Lemma last_id_take prev l n : log_from prev l -> (n <= length l)%nat ->
  log_term prev l (id_index prev + Z.of_nat n) = Some (id_term (last_id prev (take n l))) /\
  id_index (last_id prev (take n l)) = id_index prev + Z.of_nat n.
Proof.
  intros H Hn. destruct (log_from_take_drop prev l n H) as [H1 H2].
  assert (len (take n l) = Z.of_nat n) as Hl by (unfold len; rewrite length_take; lia).
  split; [|by rewrite last_id_index, Hl].
  rewrite <- (log_term_last _ _ H1), Hl. unfold log_term.
  destruct (_ =? _) eqn:E1; [done|]. destruct (_ <? _) eqn:E2; [done|].
  rewrite lookup_take_lt; [done|]. blia.
Qed.

Lemma log_term_Some prev l i t : log_term prev l i = Some t ->
  id_index prev <= i <= id_index prev + len l.
Proof.
  unfold log_term. pose proof (len_nonneg l). destruct (_ =? _) eqn:E1; [blia|].
  destruct (_ <? _) eqn:E2; [done|]. intros E. apply fmap_Some in E as (e & E & _).
  apply lookup_lt_Some in E. unfold len. blia.
Qed.

Lemma log_term_is_Some prev l i : id_index prev <= i <= id_index prev + len l ->
  is_Some (log_term prev l i).
Proof.
  unfold log_term. intros H. destruct (_ =? _) eqn:E1; [done|]. rewrite (proj2 (Z.ltb_ge _ _)) by lia.
  apply fmap_is_Some, lookup_lt_is_Some. unfold len in H. blia.
Qed.

Lemma log_term_app_l prev l k i : i <= id_index prev + len l ->
  log_term prev (l ++ k) i = log_term prev l i.
Proof.
  unfold log_term, len. intros H. destruct (_ =? _) eqn:E1; [done|]. destruct (_ <? _) eqn:E2; [done|].
  rewrite lookup_app_l; [done|]. blia.
Qed.

Lemma log_term_app_r prev l k i : log_from prev l -> id_index prev + len l <= i ->
  log_term prev (l ++ k) i = log_term (last_id prev l) k i.
Proof.
  intros Hl Hi. pose proof (len_nonneg l). destruct (decide (i = id_index prev + len l)) as [->|Hne].
  - rewrite log_term_app_l by lia. rewrite log_term_last by done. unfold log_term.
    by rewrite last_id_index, Z.eqb_refl.
  - unfold log_term. rewrite last_id_index by done.
    rewrite !(proj2 (Z.eqb_neq _ _)), !(proj2 (Z.ltb_ge _ _)) by lia.
    unfold len in *. rewrite lookup_app_r by lia. do 2 f_equal. lia.
Qed.

(** Terms do not decrease along a run. *)
Lemma log_term_mono prev l i j t t' : log_from prev l -> i <= j ->
  log_term prev l i = Some t -> log_term prev l j = Some t' -> t <= t'.
Proof.
  intros H Hij Hi Hj. pose proof (log_term_Some _ _ _ _ Hi). pose proof (log_term_Some _ _ _ _ Hj).
  set (n := Z.to_nat (i - id_index prev)). set (m := Z.to_nat (j - id_index prev)).
  assert (Hn : (n <= length l)%nat) by (unfold len in *; lia).
  assert (Hm : (m <= length l)%nat) by (unfold len in *; lia).
  destruct (last_id_take prev l n H Hn) as [En _]. destruct (last_id_take prev l m H Hm) as [Em _].
  replace (id_index prev + Z.of_nat n) with i in En by lia.
  replace (id_index prev + Z.of_nat m) with j in Em by lia.
  assert (t = id_term (last_id prev (take n l))) as -> by congruence.
  assert (t' = id_term (last_id prev (take m l))) as -> by congruence.
  replace (take m l) with (take n l ++ drop n (take m l))
    by (rewrite <- (take_drop n (take m l)) at 2; rewrite take_take, Nat.min_l by lia; done).
  rewrite last_id_app. apply last_id_term.
  destruct (log_from_take_drop prev l m H) as [Hp _].
  destruct (log_from_take_drop prev _ n Hp) as [_ Hq].
  by rewrite take_take, Nat.min_l in Hq by lia.
Qed.

(** ** The operations of logSlice *)

Section slice.
Context (s : logSlice) (Hs : log_from (ls_prev s) (ls_entries s)).
Context (Hb : log_bounded (ls_prev s) (ls_entries s)).

Lemma logSlice_lastIndex_eq : logSlice_lastIndex s = id_index (ls_prev s) + len (ls_entries s).
Proof.
  clear Hs. unfold logSlice_lastIndex. destruct Hb. pose proof (len_nonneg (ls_entries s)).
  apply u64_small. unfold is_u64, MaxUint64, u64_modulus in *. lia.
Qed.

Lemma slice_offset i : id_index (ls_prev s) <= i <= id_index (ls_prev s) + len (ls_entries s) ->
  i -u id_index (ls_prev s) = i - id_index (ls_prev s).
Proof.
  clear Hs. destruct Hb. intros Hi. apply u64_small. unfold is_u64, MaxUint64, u64_modulus in *. lia.
Qed.

Lemma logSlice_lastEntryID_eq : logSlice_lastEntryID s = Ret (last_id (ls_prev s) (ls_entries s)).
Proof.
  clear Hs Hb. unfold logSlice_lastEntryID. generalize (ls_prev s). generalize (ls_entries s).
  intros l. destruct l as [|e l] using rev_ind; intros prev; [done|].
  rewrite len_app. change (len [e]) with 1. pose proof (len_nonneg l).
  rewrite (proj2 (Z.eqb_neq _ _)) by lia. simpl. rewrite last_id_app. simpl.
  rewrite (slice_get_Some _ _ e); [done|lia|].
  rewrite lookup_app_r by (unfold len; lia). unfold len.
  replace (Z.to_nat _ - length l)%nat with 0%nat by lia. done.
Qed.

Lemma logSlice_termAt_eq i t : log_term (ls_prev s) (ls_entries s) i = Some t -> logSlice_termAt s i = Ret t.
Proof.
  clear Hs. intros H. pose proof (log_term_Some _ _ _ _ H) as Hi. unfold logSlice_termAt, log_term in *.
  destruct (_ =? _) eqn:E; [congruence|]. bool_to_prop.
  rewrite (proj2 (Z.ltb_ge _ _)) in H by lia. apply fmap_Some in H as (e & He & ->).
  rewrite slice_offset by done.
  rewrite u64_small by (destruct Hb; unfold is_u64, MaxUint64, u64_modulus in *; lia).
  rewrite (slice_get_Some _ _ e); [done|lia|done].
Qed.

Lemma logSlice_forward_eq i : id_index (ls_prev s) <= i <= id_index (ls_prev s) + len (ls_entries s) ->
  let n := Z.to_nat (i - id_index (ls_prev s)) in
  logSlice_forward s i =
    Ret (mkLogSlice (ls_term s) (last_id (ls_prev s) (take n (ls_entries s))) (drop n (ls_entries s))).
Proof.
  intros Hi n. unfold logSlice_forward.
  destruct (last_id_take (ls_prev s) (ls_entries s) n Hs) as [Ht Hx]; [unfold len in *; lia|].
  replace (id_index (ls_prev s) + Z.of_nat n) with i in * by lia.
  rewrite (logSlice_termAt_eq _ _ Ht). simpl. rewrite slice_offset by done.
  unfold slice_from. rewrite bool_decide_true by (unfold len in *; lia). simpl.
  f_equal. f_equal. destruct (last_id _ _). simpl in *. congruence.
Qed.
End slice.

Lemma valid_loop_spec term prev l :
  log_bounded prev l ->
  (forall id, valid_loop term prev l = inr id <-> log_from prev l /\ id = last_id prev l).
Proof.
  revert prev. induction l as [|e l IH]; intros prev [Hb1 Hb2] id; simpl.
  - split; [intros [= ->]; done|]. intros [_ ->]. done.
  - rewrite len_cons in Hb2. pose proof (len_nonneg l).
    rewrite (u64_small (id_index prev + 1)) by (unfold is_u64, MaxUint64, u64_modulus in *; lia).
    destruct (e_Term e <? id_term prev) eqn:E1; simpl; [split; [done|]; intros ((?&?&?)&?); blia|].
    destruct (e_Index e =? id_index prev + 1) eqn:E2; simpl; [|split; [done|]; intros ((?&?&?)&?); blia].
    bool_to_prop. rewrite IH by (split; simpl; lia). simpl. intuition lia.
Qed.

Lemma logSlice_wf_iff s : logSlice_wf s <->
  log_from (ls_prev s) (ls_entries s) /\ id_term (last_id (ls_prev s) (ls_entries s)) <= ls_term s.
Proof. unfold logSlice_wf. rewrite log_from_iff. tauto. Qed.

(** [logSlice.valid] accepts exactly the slices with the four documented
    properties: contiguous indexes following [prev], terms that never regress
    from [prev] on, and no entry from a term above that of the leader. *)
Theorem logSlice_valid_spec (s : logSlice) :
  log_bounded (ls_prev s) (ls_entries s) -> logSlice_valid s = None <-> logSlice_wf s.
Proof.
  intros Hb. rewrite logSlice_wf_iff. unfold logSlice_valid.
  pose proof (valid_loop_spec (ls_term s) _ _ Hb) as H.
  destruct (valid_loop _ _ _) as [e|id].
  - split; [done|]. intros [Hl _]. discriminate (proj2 (H (last_id (ls_prev s) (ls_entries s))) (conj Hl eq_refl)).
  - destruct (proj1 (H id) eq_refl) as [Hl ->]. destruct (_ <? _) eqn:E; split; try done; try tauto; try blia.
    intros _. split; [done|blia].
Qed.

Definition example_slice : logSlice :=
  mkLogSlice 5 (mkEntryID 2 10) [mkEntry 2 11 EntryNormal []; mkEntry 4 12 EntryNormal []].

Lemma logSlice_valid_spec_witness : logSlice_wf example_slice.
Proof.
  apply (logSlice_valid_spec example_slice).
  - split; done.
  - vm_compute. reflexivity.
Defined.

(** ** Sizes *)

Section size_lemmas.
Context (Size : Entry -> Z) (HSize : forall e, 0 < Size e).

Definition sum_size (l : list Entry) : Z := foldr (fun e s => Size e + s) 0 l.

Lemma sum_size_app l k : sum_size (l ++ k) = sum_size l + sum_size k.
Proof. clear HSize. unfold sum_size. induction l as [|e l IH]; simpl; lia. Qed.

Lemma sum_size_nonneg l : 0 <= sum_size l.
Proof. unfold sum_size. induction l as [|e l IH]; simpl; [lia|]. specialize (HSize e). lia. Qed.

Lemma entsSize_eq l : entsSize Size l = u64 (sum_size l).
Proof.
  clear HSize. unfold entsSize. assert (forall a, foldl (fun size ent => size +u Size ent) (u64 a) l = u64 (a + sum_size l)) as H.
  { induction l as [|e l IH]; intros a; simpl; [by rewrite Z.add_0_r|].
    rewrite u64_add_u64_l, IH. f_equal. lia. }
  change 0 with (u64 0) at 1. by rewrite H.
Qed.

Lemma sum_size_take_mono l n m : (n <= m)%nat -> sum_size (take n l) <= sum_size (take m l).
Proof.
  intros Hnm. rewrite <- (take_drop n (take m l)), take_take, Nat.min_l by done.
  rewrite sum_size_app. pose proof (sum_size_nonneg (drop n (take m l))). lia.
Qed.

(** How many entries [limitSize] keeps: as many as fit, but at least one. *)
Definition limit_count (l : list Entry) (maxSize : Z) (k : nat) : Prop :=
  (1 <= k <= length l)%nat /\ (k = 1%nat \/ sum_size (take k l) <= maxSize) /\
  ((k < length l)%nat -> maxSize < sum_size (take (S k) l)).

Lemma limit_count_unique l maxSize k k' :
  limit_count l maxSize k -> limit_count l maxSize k' -> k = k'.
Proof.
  assert (forall k k', limit_count l maxSize k -> limit_count l maxSize k' -> ~ (k < k')%nat) as H.
  { intros i j (Hi & _ & Hi3) (Hj & [->|Hj2] & _) Hlt; [lia|].
    specialize (Hi3 ltac:(lia)). pose proof (sum_size_take_mono l (S i) j ltac:(lia)). lia. }
  intros H1 H2. pose proof (H _ _ H1 H2). pose proof (H _ _ H2 H1). lia.
Qed.

Lemma limitSize_loop_spec l k rest maxSize :
  (1 <= k)%nat -> rest = drop k l -> (k <= length l)%nat -> sum_size l < u64_modulus ->
  (k = 1%nat \/ sum_size (take k l) <= maxSize) ->
  exists k', limit_count l maxSize k' /\
    limitSize_loop Size l (sum_size (take k l)) (Z.of_nat k) maxSize rest = take k' l.
Proof.
  revert k. induction rest as [|e rest IH]; intros k Hk Hr Hkl Hsum Hle; simpl.
  - exists (length l). assert (k = length l) as ->.
    { apply (f_equal length) in Hr. rewrite length_drop in Hr. simpl in Hr. lia. }
    split; [|by rewrite firstn_all]. split_and!; lia.
  - assert (He : l !! k = Some e).
    { rewrite <- (Nat.add_0_r k), <- lookup_drop, <- Hr. done. }
    assert (Hlt := lookup_lt_Some _ _ _ He).
    assert (Hsz : sum_size (take k l) + Size e = sum_size (take (S k) l)).
    { rewrite (take_S_r l k e) by done. rewrite sum_size_app. simpl. lia. }
    assert (Hb : sum_size (take (S k) l) <= sum_size l).
    { rewrite <- (take_drop (S k) l) at 2. rewrite sum_size_app. pose proof (sum_size_nonneg (drop (S k) l)). lia. }
    rewrite Hsz, u64_small by (split; [apply sum_size_nonneg|lia]).
    destruct (_ >? maxSize) eqn:E.
    + exists k. split; [|by rewrite Nat2Z.id]. split_and!; try done; blia.
    + replace (Z.of_nat k + 1) with (Z.of_nat (S k)) by lia. apply IH; try lia.
      apply (f_equal (drop 1)) in Hr. rewrite drop_drop, Nat.add_1_r in Hr. done.
Qed.

Lemma limitSize_spec l maxSize : l <> [] -> sum_size l < u64_modulus ->
  exists k, limit_count l maxSize k /\ limitSize Size l maxSize = take k l.
Proof.
  intros Hl Hsum. destruct l as [|e l]; [done|].
  destruct (limitSize_loop_spec (e :: l) 1 l maxSize) as (k & Hk & E); simpl; try lia; try done.
  exists k. split; [done|]. rewrite <- E. simpl. by rewrite Z.add_0_r.
Qed.
End size_lemmas.
