(* ===== verification/Unstable.v ===== *)
(** * The unstable log suffix (src/pkg/raft/log_unstable.go)

    [unstable] holds the snapshot and the entries that are not yet in Storage, and
    what of them is being written. The documented invariants of the struct are
    [unstable_inv]; every operation preserves them. Log messages are not
    modelled; [logger.Panicf] is a panic. Slices are values: the code protects the
    slices it hands out against later appends by full slice expressions, and the
    capacity that [shrinkEntriesArray] looks at does not change the contents. *)

From S2P Require Import Prelude Hlc Quorum RaftPb LogTypes.

Record unstable : Type := mkUnstable {
  u_snapshot : option Snapshot;
  u_logSlice : logSlice;
  u_snapshotInProgress : bool;
  u_entryInProgress : Z
}.

#[global] Instance eta_unstable : Eta unstable := fun u =>
  mkUnstable (u_snapshot u) (u_logSlice u) (u_snapshotInProgress u) (u_entryInProgress u).

(** The promoted fields of the embedded logSlice. *)
Definition u_term (u : unstable) : Z := ls_term (u_logSlice u).
Definition u_prev (u : unstable) : entryID := ls_prev (u_logSlice u).
Definition u_entries (u : unstable) : list Entry := ls_entries (u_logSlice u).
Definition u_lastIndex (u : unstable) : Z := logSlice_lastIndex (u_logSlice u).

Definition newUnstable (last : entryID) : unstable :=
  mkUnstable None (mkLogSlice (id_term last) last []) false (id_index last).

Definition unstable_maybeFirstIndex (u : unstable) : option Z :=
  match u_snapshot u with
  | Some s => Some (s_Index s +u 1)
  | None => None
  end.

Definition unstable_maybeTerm (u : unstable) (i : Z) : outcome (option Z) :=
  if (i <? id_index (u_prev u)) || (i >? u_lastIndex u) then Ret None
  else let! t := logSlice_termAt (u_logSlice u) i in Ret (Some t).

Definition unstable_nextEntries (u : unstable) : outcome (list Entry) :=
  if u_entryInProgress u =? u_lastIndex u then Ret []
  else slice_from (u_entries u) (u_entryInProgress u -u id_index (u_prev u)).

Definition unstable_nextSnapshot (u : unstable) : option Snapshot :=
  if bool_decide (u_snapshot u = None) || u_snapshotInProgress u then None else u_snapshot u.

Definition unstable_acceptInProgress (u : unstable) : unstable :=
  u <| u_snapshotInProgress := negb (bool_decide (u_snapshot u = None)) |>
    <| u_entryInProgress := u_lastIndex u |>.

Definition unstable_stableTo (u : unstable) (mark : LogMark) : outcome unstable :=
  if negb (mark_Term mark =? u_term u) then Ret u
  else if match u_snapshot u with Some s => mark_Index mark =? s_Index s | None => false end then Ret u
  else if (mark_Index mark <=? id_index (u_prev u)) || (mark_Index mark >? u_lastIndex u) then Ret u
  else if negb (bool_decide (u_snapshot u = None)) then Panic "mark acked earlier than the snapshot"
  else
    let! s := logSlice_forward (u_logSlice u) (mark_Index mark) in
    Ret (u <| u_logSlice := s |> <| u_entryInProgress := Z.max (u_entryInProgress u) (mark_Index mark) |>).

Definition unstable_stableSnapTo (u : unstable) (i : Z) : unstable :=
  match u_snapshot u with
  | Some s =>
    if s_Index s =? i then u <| u_snapshotInProgress := false |> <| u_snapshot := None |> else u
  | None => u
  end.

Definition unstable_restore (u : unstable) (s : snapshot) : unstable * bool :=
  if (snap_term s <=? u_term u) && (snapshot_lastIndex s <? u_lastIndex u) then (u, false)
  else
    let term := Z.max (u_term u) (snap_term s) in
    let u := u <| u_snapshot := Some (snap_snap s) |>
               <| u_logSlice := mkLogSlice term (snapshot_lastEntryID s) [] |>
               <| u_snapshotInProgress := false |> in
    (u <| u_entryInProgress := id_index (u_prev u) |>, true).

(** [u.term = a.term; u.entries = append(u.entries, a.entries...)] *)
Definition append_entries (u : unstable) (a : logSlice) : unstable :=
  u <| u_logSlice := mkLogSlice (ls_term a) (u_prev u) (u_entries u ++ ls_entries a) |>.

Definition unstable_append (u : unstable) (a : logSlice) : outcome (unstable * bool) :=
  if ls_term a <? u_term u then Ret (u, false)
  else
    let! last := logSlice_lastEntryID (u_logSlice u) in
    if negb (bool_decide (ls_prev a = last)) then Ret (u, false)
    else Ret (append_entries u a, true).

Definition unstable_truncateAndAppend (u : unstable) (a : logSlice) : outcome (unstable * bool) :=
  if ls_term a <? u_term u then Ret (u, false)
  else
    let! last := logSlice_lastEntryID (u_logSlice u) in
    if bool_decide (ls_prev a = last) then Ret (append_entries u a, true)
    else if id_index (ls_prev a) >=? id_index last then Ret (u, false)
    else if ls_term a =? u_term u then Ret (u, false)
    else if match u_snapshot u with Some s => id_index (ls_prev a) <? s_Index s | None => false end then
      Panic "appending before snapshot"
    else
      let! u :=
        if id_index (ls_prev a) <=? id_index (u_prev u) then Ret (u <| u_logSlice := a |>)
        else
          let! keep := slice_to (u_entries u) (id_index (ls_prev a) -u id_index (u_prev u)) in
          Ret (u <| u_logSlice := mkLogSlice (ls_term a) (u_prev u) (keep ++ ls_entries a) |>) in
      Ret (u <| u_entryInProgress := Z.min (u_entryInProgress u) (id_index (ls_prev a)) |>, true).

Definition unstable_mustCheckOutOfBounds (u : unstable) (lo hi : Z) : outcome unit :=
  if lo >? hi then Panic "invalid unstable.slice"
  else if (lo <=? id_index (u_prev u)) || (hi >? u_lastIndex u +u 1) then
    Panic "unstable.slice out of bound"
  else Ret tt.

Definition unstable_slice (u : unstable) (lo hi : Z) : outcome (list Entry) :=
  let! _ := unstable_mustCheckOutOfBounds u lo hi in
  let offset := id_index (u_prev u) +u 1 in
  slice_range (u_entries u) (lo -u offset) (hi -u offset).

(** ** The invariants of the struct *)

Lemma entryID_eq a b : id_term a = id_term b -> id_index a = id_index b -> a = b.
Proof. destruct a, b. simpl. congruence. Qed.

Record unstable_inv (u : unstable) : Prop := {
  inv_log : log_from (u_prev u) (u_entries u);
  inv_bounded : log_bounded (u_prev u) (u_entries u);
  inv_term : id_term (last_id (u_prev u) (u_entries u)) <= u_term u;
  inv_snapshot : forall s, u_snapshot u = Some s -> u_prev u = mkEntryID (s_Term s) (s_Index s);
  inv_inProgress : u_snapshotInProgress u = true -> u_snapshot u <> None;
  inv_entryInProgress :
    id_index (u_prev u) <= u_entryInProgress u <= id_index (u_prev u) + len (u_entries u);
  inv_order : id_index (u_prev u) < u_entryInProgress u -> u_snapshot u <> None ->
    u_snapshotInProgress u = true
}.

Lemma u_lastIndex_eq u : unstable_inv u -> u_lastIndex u = id_index (u_prev u) + len (u_entries u).
Proof. intros H. apply logSlice_lastIndex_eq, (inv_bounded _ H). Qed.

Lemma u_lastEntryID_eq u : logSlice_lastEntryID (u_logSlice u) = Ret (last_id (u_prev u) (u_entries u)).
Proof. apply logSlice_lastEntryID_eq. Qed.

Lemma last_id_u_index u : unstable_inv u ->
  id_index (last_id (u_prev u) (u_entries u)) = id_index (u_prev u) + len (u_entries u).
Proof. intros H. apply last_id_index, (inv_log _ H). Qed.

Lemma maybeTerm_spec u i : unstable_inv u ->
  unstable_maybeTerm u i = Ret (log_term (u_prev u) (u_entries u) i).
Proof.
  intros H. unfold unstable_maybeTerm. rewrite u_lastIndex_eq by done.
  destruct (log_term (u_prev u) (u_entries u) i) as [t|] eqn:E.
  - pose proof (log_term_Some _ _ _ _ E). rewrite (proj2 (Z.ltb_ge _ _)) by lia.
    rewrite Z.gtb_ltb, (proj2 (Z.ltb_ge _ _)) by lia. simpl.
    by rewrite (logSlice_termAt_eq (u_logSlice u) (inv_bounded _ H) i t).
  - destruct (_ || _) eqn:Eb; [done|]. apply orb_false_iff in Eb as [E1 E2]. bool_to_prop.
    destruct (log_term_is_Some (u_prev u) (u_entries u) i) as [t Ht]; [lia|congruence].
Qed.

(** The entries that are not being written yet. *)
Lemma nextEntries_spec u : unstable_inv u ->
  unstable_nextEntries u =
  Ret (drop (Z.to_nat (u_entryInProgress u - id_index (u_prev u))) (u_entries u)).
Proof.
  intros H. unfold unstable_nextEntries. rewrite u_lastIndex_eq by done.
  pose proof (inv_entryInProgress _ H). destruct (_ =? _) eqn:E; bool_to_prop.
  - rewrite drop_ge; [done|]. unfold len in *. lia.
  - rewrite (slice_offset (u_logSlice u) (inv_bounded _ H)) by done.
    change (id_index (ls_prev (u_logSlice u))) with (id_index (u_prev u)).
    unfold slice_from. rewrite bool_decide_true by lia. done.
Qed.

Lemma slice_spec u lo hi : unstable_inv u ->
  id_index (u_prev u) < lo <= hi -> hi <= id_index (u_prev u) + len (u_entries u) + 1 ->
  unstable_slice u lo hi =
  Ret (take (Z.to_nat (hi - lo)) (drop (Z.to_nat (lo - id_index (u_prev u) - 1)) (u_entries u))).
Proof.
  intros H Hlo Hhi. destruct (inv_bounded _ H) as [Hb1 Hb2].
  unfold unstable_slice, unstable_mustCheckOutOfBounds. rewrite u_lastIndex_eq by done.
  pose proof (len_nonneg (u_entries u)). unfold MaxUint64 in *.
  rewrite (u64_small (id_index (u_prev u) + 1)), (u64_small (id_index (u_prev u) + _ + 1)),
    !u64_small by (unfold is_u64, u64_modulus; lia).
  rewrite !Z.gtb_ltb, !(proj2 (Z.ltb_ge _ _)), (proj2 (Z.leb_gt _ _)) by lia. simpl.
  unfold slice_range. rewrite bool_decide_true by lia. do 3 f_equal; lia.
Qed.

(** ** Appends *)

Lemma append_entries_inv u a : unstable_inv u -> logSlice_wf a -> u_term u <= ls_term a ->
  ls_prev a = last_id (u_prev u) (u_entries u) -> log_bounded (ls_prev a) (ls_entries a) ->
  unstable_inv (append_entries u a).
Proof.
  intros H Ha Ht Hp [Hb1 Hb2]. apply logSlice_wf_iff in Ha as [Hl Hlt]. destruct H as [H1 H2 H3 H4 H5 H6 H7].
  rewrite Hp in *. rewrite last_id_index in Hb2 by done. destruct H2 as [H2 H2'].
  pose proof (len_nonneg (ls_entries a)).
  constructor; unfold append_entries, u_prev, u_entries, u_term in *; simpl in *; try done.
  - by apply log_from_app.
  - split; [done|]. rewrite len_app. lia.
  - by rewrite last_id_app.
  - rewrite len_app. lia.
Qed.

Lemma unstable_append_spec u a : unstable_inv u -> logSlice_wf a ->
  log_bounded (ls_prev a) (ls_entries a) ->
  exists u' ok, unstable_append u a = Ret (u', ok) /\ unstable_inv u' /\
  (if ok then u' = append_entries u a else u' = u) /\
  (ok = true <-> u_term u <= ls_term a /\ ls_prev a = last_id (u_prev u) (u_entries u)).
Proof.
  intros H Ha Hb. unfold unstable_append. destruct (_ <? _) eqn:E1.
  { exists u, false. split_and!; try done. split; [done|blia]. }
  rewrite u_lastEntryID_eq. simpl. destruct (bool_decide _) eqn:E2; simpl.
  - exists (append_entries u a), true. bool_to_prop. split_and!; try done.
    by apply append_entries_inv.
  - exists u, false. split_and!; try done. bool_to_prop. split; [done|tauto].
Qed.

(** What a truncating append leaves: the log up to [a.prev], then [a]. *)
Definition truncated (u : unstable) (a : logSlice) (u' : unstable) : Prop :=
  let n := id_index (ls_prev a) - id_index (u_prev u) in
  u_snapshot u' = u_snapshot u /\ u_term u' = ls_term a /\
  if n <=? 0 then u_prev u' = ls_prev a /\ u_entries u' = ls_entries a
  else u_prev u' = u_prev u /\ u_entries u' = take (Z.to_nat n) (u_entries u) ++ ls_entries a.

Lemma append_truncated u a : unstable_inv u -> ls_prev a = last_id (u_prev u) (u_entries u) ->
  truncated u a (append_entries u a).
Proof.
  intros H E. pose proof (last_id_u_index u H) as Hlast. split_and!; try done. rewrite E, Hlast.
  destruct (_ <=? 0) eqn:E0; bool_to_prop; unfold append_entries, u_prev, u_entries in *; simpl.
  - destruct (ls_entries (u_logSlice u)); [done|]. rewrite len_cons in *. pose proof (len_nonneg l). lia.
  - rewrite take_ge; [done|]. unfold len. lia.
Qed.

Lemma truncate_inv u a u' : unstable_inv u -> logSlice_wf a -> log_bounded (ls_prev a) (ls_entries a) ->
  (forall t, log_term (u_prev u) (u_entries u) (id_index (ls_prev a)) = Some t -> t = id_term (ls_prev a)) ->
  (forall s, u_snapshot u = Some s -> s_Index s <= id_index (ls_prev a)) ->
  id_index (ls_prev a) <= id_index (u_prev u) + len (u_entries u) ->
  truncated u a u' -> u_snapshotInProgress u' = u_snapshotInProgress u ->
  u_entryInProgress u' = Z.min (u_entryInProgress u) (id_index (ls_prev a)) ->
  unstable_inv u'.
Proof.
  intros H Ha Hb Hm Hs Hle (Es & Et & Hl) Ei Ee.
  pose proof Ha as Ha'. apply logSlice_wf_iff in Ha' as [Hla Hlt].
  destruct H as [H1 [H2 H2'] H3 H4 H5 H6 H7]. pose proof (len_nonneg (ls_entries a)).
  destruct (id_index (ls_prev a) - id_index (u_prev u) <=? 0) eqn:En; bool_to_prop; destruct Hl as [Ep El].
  - assert (Heq : u_snapshot u <> None -> ls_prev a = u_prev u).
    { intros Hsn. destruct (u_snapshot u) as [s|] eqn:Eu; [|done]. specialize (Hs s eq_refl).
      specialize (H4 s eq_refl). rewrite H4 in *. simpl in *.
      assert (Hi : id_index (ls_prev a) = s_Index s) by lia.
      specialize (Hm (s_Term s)). destruct (ls_prev a) as [pt pi]. simpl in *. subst pi. f_equal.
      symmetry. apply Hm. unfold log_term. simpl. by rewrite Z.eqb_refl. }
    constructor; rewrite ?Es, ?Et, ?Ep, ?El, ?Ei, ?Ee; try done; try lia.
    intros s Hsn. rewrite Heq by congruence. by apply H4.
  - set (n := Z.to_nat (id_index (ls_prev a) - id_index (u_prev u))) in *.
    assert (Hn : (n <= length (u_entries u))%nat) by (unfold len in *; lia).
    destruct (last_id_take (u_prev u) (u_entries u) n H1 Hn) as [Ht Hx].
    replace (id_index (u_prev u) + Z.of_nat n) with (id_index (ls_prev a)) in * by lia.
    assert (Hprev : ls_prev a = last_id (u_prev u) (take n (u_entries u))).
    { apply Hm in Ht. by apply entryID_eq. }
    assert (Hlen : len (take n (u_entries u)) = id_index (ls_prev a) - id_index (u_prev u))
      by (unfold len; rewrite length_take; lia).
    constructor; rewrite ?Es, ?Et, ?Ep, ?El, ?Ei, ?Ee; try done.
    + apply log_from_app. rewrite <- Hprev. split; [|done]. by apply log_from_take_drop.
    + destruct Hb. split; [done|]. rewrite len_app, Hlen. lia.
    + by rewrite last_id_app, <- Hprev.
    + rewrite len_app, Hlen. lia.
    + intros Hi. apply H7. lia.
Qed.

Lemma truncateAndAppend_spec u a : unstable_inv u -> logSlice_wf a ->
  log_bounded (ls_prev a) (ls_entries a) ->
  (forall t, log_term (u_prev u) (u_entries u) (id_index (ls_prev a)) = Some t -> t = id_term (ls_prev a)) ->
  (forall s, u_snapshot u = Some s -> s_Index s <= id_index (ls_prev a)) ->
  exists u' ok, unstable_truncateAndAppend u a = Ret (u', ok) /\ unstable_inv u' /\
  (if ok then truncated u a u' else u' = u) /\
  (ok = true <-> u_term u <= ls_term a /\
    id_index (ls_prev a) <= id_index (u_prev u) + len (u_entries u) /\
    (u_term u = ls_term a -> id_index (ls_prev a) = id_index (u_prev u) + len (u_entries u))).
Proof.
  intros H Ha Hb Hm Hs. unfold unstable_truncateAndAppend. pose proof (len_nonneg (u_entries u)).
  pose proof (last_id_u_index u H) as Hlast. destruct (inv_bounded _ H) as [Hb1 Hb2].
  destruct (_ <? _) eqn:E1; bool_to_prop. { exists u, false. split_and!; try done. split; [done|lia]. }
  rewrite u_lastEntryID_eq. simpl. destruct (bool_decide _) eqn:E2; bool_to_prop.
  { exists (append_entries u a), true. split_and!; try done; [by apply append_entries_inv|by apply append_truncated|rewrite E2, Hlast; lia]. }
  destruct (_ >=? _) eqn:E3; bool_to_prop.
  { exists u, false. split_and!; try done. split; [done|]. intros (_ & Hle & _). exfalso. apply E2.
    assert (Hi : id_index (ls_prev a) = id_index (u_prev u) + len (u_entries u)) by lia.
    specialize (Hm (id_term (last_id (u_prev u) (u_entries u)))). rewrite Hi, log_term_last in Hm by apply H.
    specialize (Hm eq_refl). apply entryID_eq; [done|lia]. }
  destruct (_ =? _) eqn:E4; bool_to_prop.
  { exists u, false. split_and!; try done. split; [done|]. intros (_ & _ & Hle). specialize (Hle ltac:(lia)). lia. }
  assert (match u_snapshot u with Some s => id_index (ls_prev a) <? s_Index s | None => false end = false) as ->.
  { destruct (u_snapshot u) as [s|] eqn:Es; [|done]. specialize (Hs s eq_refl). blia. }
  destruct (_ <=? _) eqn:E5; bool_to_prop.
  - simpl. eexists _, true. split; [done|]. match goal with |- unstable_inv ?x /\ _ => set (u' := x) end.
    assert (Ht : truncated u a u').
    { split_and!; try done. rewrite (proj2 (Z.leb_le _ _)) by lia. done. }
    split_and!; [apply (truncate_inv u a u'); try done; lia|done|intuition lia].
  - rewrite u64_small by (unfold is_u64, MaxUint64, u64_modulus in *; lia).
    unfold slice_to. rewrite bool_decide_true by lia. simpl.
    eexists _, true. split; [done|]. match goal with |- unstable_inv ?x /\ _ => set (u' := x) end.
    assert (Ht : truncated u a u').
    { split_and!; try done. rewrite (proj2 (Z.leb_gt _ _)) by lia. done. }
    split_and!; [apply (truncate_inv u a u'); try done; lia|done|intuition lia].
Qed.

(** ** Acknowledgements, snapshots *)

Lemma stableTo_cases u mark : unstable_inv u ->
  let n := Z.to_nat (mark_Index mark - id_index (u_prev u)) in
  let hit := mark_Term mark = u_term u /\
    id_index (u_prev u) < mark_Index mark <= id_index (u_prev u) + len (u_entries u) in
  match unstable_stableTo u mark with
  | Panic _ => hit /\ u_snapshot u <> None
  | Ret u' => (~ hit /\ u' = u) \/
    (hit /\ u_snapshot u = None /\
     u' = mkUnstable None
       (mkLogSlice (u_term u) (last_id (u_prev u) (take n (u_entries u))) (drop n (u_entries u)))
       (u_snapshotInProgress u) (Z.max (u_entryInProgress u) (mark_Index mark)))
  end.
Proof.
  intros H n hit. unfold unstable_stableTo. rewrite u_lastIndex_eq by done.
  destruct (mark_Term mark =? u_term u) eqn:E1; bool_to_prop; simpl; [|left; split; [intros []; done|done]].
  destruct (match u_snapshot u with Some s => _ | None => false end) eqn:E2.
  { left. split; [|done]. intros [_ Hm]. destruct (u_snapshot u) as [s|] eqn:Es; [|done].
    rewrite (inv_snapshot _ H s Es) in Hm. simpl in Hm. blia. }
  destruct ((_ <=? _) || _) eqn:E3.
  { left. split; [|done]. intros [_ Hm]. apply orb_true_iff in E3 as [E3|E3]; blia. }
  apply orb_false_iff in E3 as [E3 E4]. bool_to_prop.
  assert (Hhit : hit) by (split; [done|lia]).
  destruct (bool_decide (u_snapshot u = None)) eqn:E5; bool_to_prop; simpl; [|done].
  rewrite (logSlice_forward_eq (u_logSlice u) (inv_log _ H) (inv_bounded _ H)) by
    (destruct Hhit; unfold u_prev, u_entries in *; lia).
  simpl. right. split_and!; try done. destruct u. simpl in *. by subst.
Qed.

Lemma unstable_inv_mk sn t p es ip ei :
  log_from p es -> log_bounded p es -> id_term (last_id p es) <= t ->
  (forall s, sn = Some s -> p = mkEntryID (s_Term s) (s_Index s)) ->
  (ip = true -> sn <> None) -> id_index p <= ei <= id_index p + len es ->
  (id_index p < ei -> sn <> None -> ip = true) -> unstable_inv (mkUnstable sn (mkLogSlice t p es) ip ei).
Proof. by constructor. Qed.

Lemma stableTo_inv u mark u' : unstable_inv u -> unstable_stableTo u mark = Ret u' -> unstable_inv u'.
Proof.
  intros H E. pose proof (stableTo_cases u mark H) as Hc. rewrite E in Hc. cbn zeta in Hc.
  destruct Hc as [[_ ->]|((Hm & Hi) & Es & ->)]; [done|].
  set (n := Z.to_nat (mark_Index mark - id_index (u_prev u))).
  destruct H as [H1 [H2 H2'] H3 H4 H5 H6 H7].
  destruct (log_from_take_drop (u_prev u) (u_entries u) n H1) as [Ht Hd].
  destruct (last_id_take (u_prev u) (u_entries u) n H1) as [_ Hx]; [unfold len in *; lia|].
  assert (Hlen : len (drop n (u_entries u)) = len (u_entries u) - Z.of_nat n)
    by (unfold len in *; rewrite length_drop; lia).
  apply unstable_inv_mk; try done.
  - split; rewrite ?Hx, ?Hlen; lia.
  - by rewrite <- last_id_app, take_drop.
  - intros Hp. by apply H5 in Hp.
  - rewrite Hx, Hlen. lia.
Qed.

Lemma stableSnapTo_inv u i : unstable_inv u -> unstable_inv (unstable_stableSnapTo u i).
Proof.
  intros H. unfold unstable_stableSnapTo. destruct (u_snapshot u) eqn:E; [|done].
  destruct (_ =? i); [|done]. destruct H. by constructor.
Qed.

Lemma acceptInProgress_inv u : unstable_inv u -> unstable_inv (unstable_acceptInProgress u).
Proof.
  intros H. pose proof (u_lastIndex_eq u H) as E. pose proof (len_nonneg (u_entries u)).
  destruct H. unfold unstable_acceptInProgress.
  constructor; try done; simpl; unfold u_prev, u_entries in *; simpl.
  - destruct (u_snapshot u); [done|]. by rewrite bool_decide_eq_true_2.
  - lia.
  - intros _ Hs. by rewrite bool_decide_eq_false_2.
Qed.

Lemma restore_inv u s : unstable_inv u -> snapshot_valid s = None ->
  0 <= snapshot_lastIndex s < MaxUint64 -> unstable_inv (fst (unstable_restore u s)).
Proof.
  intros H Hv Hi. unfold unstable_restore. destruct (_ && _); [done|]. simpl.
  unfold snapshot_valid in Hv. destruct (_ >? _) eqn:E in Hv; [done|]. bool_to_prop.
  constructor; unfold u_prev, u_entries, u_term in *; simpl; try done; try lia.
  - split; [apply Hi|]. change (len (@nil Entry)) with 0. simpl. unfold snapshot_lastIndex in Hi. lia.
  - by intros s' [= <-].
  - change (len (@nil Entry)) with 0. lia.
Qed.

(** One operation on the unstable log, with what its callers guarantee: slices
    and snapshots are well-formed and in range, and a truncating append does not
    contradict the entry at [a.prev] nor precedes the snapshot. *)
Inductive unstable_step (u : unstable) : unstable -> Prop :=
| ustep_acceptInProgress : unstable_step u (unstable_acceptInProgress u)
| ustep_stableTo mark u' : unstable_stableTo u mark = Ret u' -> unstable_step u u'
| ustep_stableSnapTo i : unstable_step u (unstable_stableSnapTo u i)
| ustep_restore s : snapshot_valid s = None -> 0 <= snapshot_lastIndex s < MaxUint64 ->
    unstable_step u (fst (unstable_restore u s))
| ustep_append a u' ok : logSlice_wf a -> log_bounded (ls_prev a) (ls_entries a) ->
    unstable_append u a = Ret (u', ok) -> unstable_step u u'
| ustep_truncateAndAppend a u' ok : logSlice_wf a -> log_bounded (ls_prev a) (ls_entries a) ->
    (forall t, log_term (u_prev u) (u_entries u) (id_index (ls_prev a)) = Some t -> t = id_term (ls_prev a)) ->
    (forall s, u_snapshot u = Some s -> s_Index s <= id_index (ls_prev a)) ->
    unstable_truncateAndAppend u a = Ret (u', ok) -> unstable_step u u'.

Lemma unstable_step_inv u u' : unstable_inv u -> unstable_step u u' -> unstable_inv u'.
Proof.
  intros H []; eauto using acceptInProgress_inv, stableTo_inv, stableSnapTo_inv, restore_inv.
  - destruct (unstable_append_spec u a) as (u2 & ok2 & E & ? & _); try done. congruence.
  - destruct (truncateAndAppend_spec u a) as (u2 & ok2 & E & ? & _); try done. congruence.
Qed.

Lemma newUnstable_inv last : 0 <= id_index last < MaxUint64 -> unstable_inv (newUnstable last).
Proof.
  intros Hi. constructor; unfold u_prev, u_entries, u_term; simpl; try done; try lia.
  - split; simpl; change (len (@nil Entry)) with 0; lia.
  - change (len (@nil Entry)) with 0. lia.
Qed.

(** The documented invariants of the unstable log hold at all times. Starting
    from a new unstable log, after any sequence of appends, truncations,
    snapshot restores, hand-offs to storage and acknowledgements in any order,
    the entries are contiguous with non-regressing terms below the accepted term,
    a pending snapshot sits immediately before them, the in-progress mark lies
    within them, and entries are never in progress ahead of their snapshot. *)
Theorem unstable_inv_reachable (last : entryID) (u : unstable) :
  0 <= id_index last < MaxUint64 -> rtc unstable_step (newUnstable last) u -> unstable_inv u.
Proof.
  intros Hi H. assert (forall u1 u2, rtc unstable_step u1 u2 -> unstable_inv u1 -> unstable_inv u2) as Hind.
  { induction 1; eauto using unstable_step_inv. }
  eauto using newUnstable_inv.
Qed.

Definition example_append : logSlice :=
  mkLogSlice 5 (mkEntryID 2 10) [mkEntry 3 11 EntryNormal []; mkEntry 5 12 EntryNormal []].

Lemma unstable_inv_reachable_witness :
  exists u, unstable_append (newUnstable (mkEntryID 2 10)) example_append = Ret (u, true) /\
    unstable_inv (unstable_acceptInProgress u).
Proof.
  eexists. split; [reflexivity|].
  apply (unstable_inv_reachable (mkEntryID 2 10)); [done|].
  eapply rtc_l; [eapply (ustep_append _ example_append); [|split; done|reflexivity]|].
  - apply logSlice_wf_iff. simpl. lia.
  - eapply rtc_l; [apply ustep_acceptInProgress|apply rtc_refl].
Defined.

(** An acknowledgement releases exactly what it covers. [stableTo] ignores a
    mark of another leader term; otherwise it drops no entry above the mark,
    changes neither the end of the log nor the term of any entry that remains,
    and does not touch the pending snapshot. *)
Theorem unstable_stableTo_spec (u u' : unstable) (mark : LogMark) :
  unstable_inv u -> unstable_stableTo u mark = Ret u' ->
  (mark_Term mark <> u_term u -> u' = u) /\
  u_snapshot u' = u_snapshot u /\ u_term u' = u_term u /\
  last_id (u_prev u') (u_entries u') = last_id (u_prev u) (u_entries u) /\
  id_index (u_prev u') <= Z.max (id_index (u_prev u)) (mark_Index mark) /\
  (forall i, id_index (u_prev u') <= i ->
    log_term (u_prev u') (u_entries u') i = log_term (u_prev u) (u_entries u) i).
Proof.
  intros H E. pose proof (stableTo_cases u mark H) as Hc. rewrite E in Hc. cbn zeta in Hc.
  destruct Hc as [[_ ->]|((Hm & Hi) & Es & ->)]; [split_and!; try done; lia|].
  set (n := Z.to_nat (mark_Index mark - id_index (u_prev u))) in *.
  destruct (last_id_take (u_prev u) (u_entries u) n (inv_log _ H)) as [_ Hx]; [unfold len in *; lia|].
  destruct (log_from_take_drop (u_prev u) (u_entries u) n (inv_log _ H)) as [Ht _].
  split_and!; try done.
  - change (last_id (last_id (u_prev u) (take n (u_entries u))) (drop n (u_entries u)) =
      last_id (u_prev u) (u_entries u)). by rewrite <- last_id_app, take_drop.
  - change (id_index (last_id (u_prev u) (take n (u_entries u))) <=
      Z.max (id_index (u_prev u)) (mark_Index mark)). lia.
  - intros i. change (id_index (last_id (u_prev u) (take n (u_entries u))) <= i ->
      log_term (last_id (u_prev u) (take n (u_entries u))) (drop n (u_entries u)) i =
      log_term (u_prev u) (u_entries u) i).
    intros Hle. rewrite <- (take_drop n (u_entries u)) at 3. rewrite log_term_app_r; [done|done|].
    rewrite <- last_id_index by done. done.
Qed.

Lemma unstable_stableTo_spec_witness :
  let u := append_entries (newUnstable (mkEntryID 2 10)) example_append in
  exists u', unstable_stableTo u (mkLogMark 5 11) = Ret u' /\
    last_id (u_prev u') (u_entries u') = mkEntryID 5 12.
Proof.
  set (u := append_entries (newUnstable (mkEntryID 2 10)) example_append). cbn zeta.
  destruct (unstable_stableTo u (mkLogMark 5 11)) as [u'|] eqn:E; [|discriminate E].
  exists u'. split; [reflexivity|].
  assert (H : unstable_inv u).
  { apply append_entries_inv; [apply newUnstable_inv; done|apply logSlice_wf_iff; simpl; lia|done|done|done]. }
  destruct (unstable_stableTo_spec u u' (mkLogMark 5 11) H E) as (_ & _ & _ & Hl & _).
  rewrite Hl. reflexivity.
Defined.
