(* ===== verification/Storage.v ===== *)
(** * Log storage (src/pkg/raft/storage.go)

    The interface [Storage] through which raft reads the persisted log, as a
    record of operations; what its comments promise, as the class
    [StorageLaws]; and [MemoryStorage], the implementation under src/, with the
    instance that discharges the class. The raft code is verified against the
    class only.

    The mutex of MemoryStorage makes every method atomic and the call counters
    are only read by tests; neither is modelled. *)

From S2P Require Import Prelude Hlc Quorum RaftPb LogTypes.

(** ** The interface *)

Record Storage : Type := mkStorage {
  st_InitialState : outcome (error + HardState * ConfState);
  st_Entries : Z -> Z -> Z -> outcome (error + list Entry);
  st_Term : Z -> outcome (error + Z);
  st_LastIndex : outcome (error + Z);
  st_FirstIndex : outcome (error + Z);
  st_Snapshot : outcome (error + Snapshot)
}.

(** ** MemoryStorage *)

Record MemoryStorage : Type := mkMemoryStorage {
  ms_hardState : HardState;
  ms_snapshot : Snapshot;
  ms_ents : list Entry
}.

#[global] Instance eta_MemoryStorage : Eta MemoryStorage := fun ms =>
  mkMemoryStorage (ms_hardState ms) (ms_snapshot ms) (ms_ents ms).

Definition zero_Entry : Entry := mkEntry 0 0 EntryNormal [].

Definition NewMemoryStorage : MemoryStorage :=
  mkMemoryStorage (mkHardState 0 0 0 0 0) empty_Snapshot [zero_Entry].

Definition MemoryStorage_SetHardState (ms : MemoryStorage) (st : HardState) : MemoryStorage :=
  ms <| ms_hardState := st |>.

(** [ms.ents[0].Index] *)
Definition ms_offset (ms : MemoryStorage) : outcome Z :=
  let! e := slice_get (ms_ents ms) 0 in Ret (e_Index e).

Definition MemoryStorage_lastIndex (ms : MemoryStorage) : outcome Z :=
  let! offset := ms_offset ms in Ret (offset +u len (ms_ents ms) -u 1).

Definition MemoryStorage_firstIndex (ms : MemoryStorage) : outcome Z :=
  let! offset := ms_offset ms in Ret (offset +u 1).

Definition MemoryStorage_Entries (Size : Entry -> Z) (ms : MemoryStorage) (lo hi maxSize : Z) :
    outcome (error + list Entry) :=
  let! offset := ms_offset ms in
  if lo <=? offset then Ret (inl ErrCompacted)
  else
    let! last := MemoryStorage_lastIndex ms in
    if hi >? last +u 1 then Panic "entries' hi is out of bound lastindex"
    else if len (ms_ents ms) =? 1 then Ret (inl ErrUnavailable)
    else
      let! ents := slice_range (ms_ents ms) (lo -u offset) (hi -u offset) in
      Ret (inr (limitSize Size ents maxSize)).

(** [int(i-offset)] is the uint64 difference as a signed integer. *)
Definition int_of_u64 (z : Z) : Z := if z <? 9223372036854775808 then z else z - u64_modulus.

Definition MemoryStorage_Term (ms : MemoryStorage) (i : Z) : outcome (error + Z) :=
  let! offset := ms_offset ms in
  if i <? offset then Ret (inl ErrCompacted)
  else if int_of_u64 (i -u offset) >=? len (ms_ents ms) then Ret (inl ErrUnavailable)
  else
    let! e := slice_get (ms_ents ms) (i -u offset) in
    Ret (inr (e_Term e)).

Definition MemoryStorage_ApplySnapshot (ms : MemoryStorage) (snap : Snapshot) :
    MemoryStorage * option error :=
  if s_Index (ms_snapshot ms) >=? s_Index snap then (ms, Some ErrSnapOutOfDate)
  else
    (ms <| ms_snapshot := snap |>
        <| ms_ents := [mkEntry (s_Term snap) (s_Index snap) EntryNormal []] |>, None).

Definition MemoryStorage_CreateSnapshot (ms : MemoryStorage) (i : Z) (cs : option ConfState) (data : bytes) :
    outcome (MemoryStorage * (error + Snapshot)) :=
  if i <=? s_Index (ms_snapshot ms) then Ret (ms, inl ErrSnapOutOfDate)
  else
    let! offset := ms_offset ms in
    let! last := MemoryStorage_lastIndex ms in
    if i >? last then Panic "snapshot is out of bound lastindex"
    else
      let! e := slice_get (ms_ents ms) (i -u offset) in
      let snap := mkSnapshot data
        (mkSnapshotMetadata
          (match cs with Some cs => cs | None => sm_ConfState (s_Metadata (ms_snapshot ms)) end)
          i (e_Term e)) in
      Ret (ms <| ms_snapshot := snap |>, inr snap).

Definition MemoryStorage_Compact (ms : MemoryStorage) (compactIndex : Z) :
    outcome (MemoryStorage * option error) :=
  let! offset := ms_offset ms in
  if compactIndex <=? offset then Ret (ms, Some ErrCompacted)
  else
    let! last := MemoryStorage_lastIndex ms in
    if compactIndex >? last then Panic "compact is out of bound lastindex"
    else
      let i := compactIndex -u offset in
      let! e := slice_get (ms_ents ms) i in
      let! rest := slice_from (ms_ents ms) (i +u 1) in
      Ret (ms <| ms_ents := mkEntry (e_Term e) (e_Index e) EntryNormal [] :: rest |>, None).

Definition MemoryStorage_Append (ms : MemoryStorage) (entries : list Entry) : outcome MemoryStorage :=
  if len entries =? 0 then Ret ms
  else
    let! first := MemoryStorage_firstIndex ms in
    let! e0 := slice_get entries 0 in
    let last := e_Index e0 +u len entries -u 1 in
    if last <? first then Ret ms
    else
      let! entries :=
        if first >? e_Index e0 then slice_from entries (first -u e_Index e0) else Ret entries in
      let! e0 := slice_get entries 0 in
      let! msOffset := ms_offset ms in
      let offset := e_Index e0 -u msOffset in
      if len (ms_ents ms) >? offset then
        let! keep := slice_to (ms_ents ms) offset in
        Ret (ms <| ms_ents := keep ++ entries |>)
      else if len (ms_ents ms) =? offset then Ret (ms <| ms_ents := ms_ents ms ++ entries |>)
      else Panic "missing log entry".

(** MemoryStorage as a Storage. *)
Definition MemoryStorage_Storage (Size : Entry -> Z) (ms : MemoryStorage) : Storage := {|
  st_InitialState := Ret (inr (ms_hardState ms, sm_ConfState (s_Metadata (ms_snapshot ms))));
  st_Entries := MemoryStorage_Entries Size ms;
  st_Term := MemoryStorage_Term ms;
  st_LastIndex := let! i := MemoryStorage_lastIndex ms in Ret (inr i);
  st_FirstIndex := let! i := MemoryStorage_firstIndex ms in Ret (inr i);
  st_Snapshot := Ret (inr (ms_snapshot ms))
|}.

(** ** The contract of the interface *)

(** The entries of a run in [lo, hi). *)
Definition log_range (prev : entryID) (ents : list Entry) (lo hi : Z) : list Entry :=
  take (Z.to_nat (hi - lo)) (drop (Z.to_nat (lo - id_index prev - 1)) ents).

(** The storage holds the run [ents] after the compacted entry [prev]. *)
Class StorageLaws (Size : Entry -> Z) (st : Storage) (prev : entryID) (ents : list Entry) : Prop := {
  st_log : log_from prev ents;
  st_bounded : log_bounded prev ents;
  st_first : st_FirstIndex st = Ret (inr (id_index prev + 1));
  st_last : st_LastIndex st = Ret (inr (id_index prev + len ents));
  st_term : forall i t, log_term prev ents i = Some t -> st_Term st i = Ret (inr t);
  st_entries : forall lo hi maxSize,
    id_index prev < lo < hi -> hi <= id_index prev + len ents + 1 ->
    st_Entries st lo hi maxSize = Ret (inr (limitSize Size (log_range prev ents lo hi) maxSize))
}.

(** ** MemoryStorage satisfies it *)

(** The first element of [ents] is the dummy entry for the compacted position. *)
Definition ms_log (ms : MemoryStorage) (prev : entryID) (ents : list Entry) : Prop :=
  exists e, ms_ents ms = e :: ents /\ pbEntryID e = prev /\ log_from prev ents /\ log_bounded prev ents.

Section memory.
Context (ms : MemoryStorage) (prev : entryID) (ents : list Entry) (Hms : ms_log ms prev ents).

Lemma ms_offset_eq : ms_offset ms = Ret (id_index prev).
Proof. destruct Hms as (e & E & <- & _). unfold ms_offset. by rewrite E. Qed.

Lemma ms_len : len (ms_ents ms) = 1 + len ents.
Proof. destruct Hms as (e & E & _). by rewrite E, len_cons. Qed.

Lemma ms_run : log_from prev ents /\ log_bounded prev ents.
Proof. destruct Hms as (e & _ & _ & H). done. Qed.

Lemma ms_bounds : 0 <= id_index prev /\ 0 <= len ents /\ id_index prev + len ents < 18446744073709551615.
Proof. destruct ms_run as [_ [? ?]]. pose proof (len_nonneg ents). unfold MaxUint64 in *. lia. Qed.

Lemma ms_lastIndex_eq : MemoryStorage_lastIndex ms = Ret (id_index prev + len ents).
Proof.
  unfold MemoryStorage_lastIndex. rewrite ms_offset_eq, ms_len. simpl. pose proof ms_bounds.
  f_equal. u64_lia.
Qed.

Lemma ms_firstIndex_eq : MemoryStorage_firstIndex ms = Ret (id_index prev + 1).
Proof.
  unfold MemoryStorage_firstIndex. rewrite ms_offset_eq. simpl. pose proof ms_bounds. f_equal. u64_lia.
Qed.

Lemma ms_lookup i : id_index prev <= i <= id_index prev + len ents ->
  exists e, ms_ents ms !! Z.to_nat (i - id_index prev) = Some e /\
    log_term prev ents i = Some (e_Term e) /\ e_Index e = i.
Proof.
  intros Hi. destruct Hms as (e0 & E & <- & Hl & _). rewrite E. simpl in *. unfold log_term. simpl.
  destruct (decide (i = e_Index e0)) as [->|Hne].
  - exists e0. by rewrite Z.sub_diag, Z.eqb_refl.
  - rewrite (proj2 (Z.eqb_neq _ _)), (proj2 (Z.ltb_ge _ _)) by lia.
    replace (Z.to_nat (i - e_Index e0)) with (S (Z.to_nat (i - e_Index e0 - 1))) by lia. simpl.
    destruct (lookup_lt_is_Some_2 ents (Z.to_nat (i - e_Index e0 - 1))) as [e He]; [unfold len in *; lia|].
    rewrite He. exists e. split_and!; try done. destruct (log_from_lookup _ _ _ _ Hl He). simpl in *. lia.
Qed.

Lemma ms_Term_eq i t : log_term prev ents i = Some t -> MemoryStorage_Term ms i = Ret (inr t).
Proof.
  intros Ht. pose proof (log_term_Some _ _ _ _ Ht) as Hi. destruct (ms_lookup i Hi) as (e & He & Ht' & _).
  unfold MemoryStorage_Term. rewrite ms_offset_eq, ms_len. simpl. pose proof ms_bounds.
  rewrite (proj2 (Z.ltb_ge _ _)) by lia. rewrite u64_small by (unfold is_u64, u64_modulus; lia).
  destruct (_ >=? _) eqn:E.
  { unfold int_of_u64, u64_modulus in E. destruct (_ <? _); blia. }
  rewrite (slice_get_Some _ _ e) by (done || lia). simpl. congruence.
Qed.

Lemma ms_Entries_eq Size lo hi maxSize :
  id_index prev < lo < hi -> hi <= id_index prev + len ents + 1 ->
  MemoryStorage_Entries Size ms lo hi maxSize = Ret (inr (limitSize Size (log_range prev ents lo hi) maxSize)).
Proof.
  intros Hlo Hhi. unfold MemoryStorage_Entries. pose proof ms_bounds.
  rewrite ms_offset_eq, ms_lastIndex_eq, ms_len. simpl.
  rewrite (proj2 (Z.leb_gt _ _)) by lia. simpl.
  rewrite !u64_small by (unfold is_u64, u64_modulus; lia).
  rewrite Z.gtb_ltb, (proj2 (Z.ltb_ge _ _)), (proj2 (Z.eqb_neq _ _)) by lia.
  unfold slice_range. rewrite bool_decide_true by (rewrite ms_len; lia). simpl.
  do 3 f_equal. unfold log_range. destruct Hms as (e & E & <- & _). rewrite E. simpl in *.
  f_equal; [lia|]. replace (Z.to_nat (lo - e_Index e)) with (S (Z.to_nat (lo - e_Index e - 1))) by lia. done.
Qed.
End memory.

(** MemoryStorage keeps the promises of the Storage interface. As long as its
    slice is a contiguous run after the dummy entry, it reports the run's bounds,
    the term of every entry from the dummy one on, and any range of entries cut
    to the size limit, without wrapping around and without a slice access out of
    range. *)
Theorem MemoryStorage_laws (Size : Entry -> Z) (ms : MemoryStorage) (prev : entryID) (ents : list Entry) :
  ms_log ms prev ents -> StorageLaws Size (MemoryStorage_Storage Size ms) prev ents.
Proof.
  intros H. destruct (ms_run _ _ _ H). constructor; simpl; try done.
  - by rewrite (ms_firstIndex_eq _ _ _ H).
  - by rewrite (ms_lastIndex_eq _ _ _ H).
  - eauto using ms_Term_eq.
  - eauto using ms_Entries_eq.
Qed.

Definition example_storage : MemoryStorage :=
  mkMemoryStorage (mkHardState 3 1 11 0 0) empty_Snapshot
    [mkEntry 2 10 EntryNormal []; mkEntry 2 11 EntryNormal []; mkEntry 3 12 EntryNormal []].

Lemma MemoryStorage_laws_witness :
  st_Term (MemoryStorage_Storage (fun _ => 8) example_storage) 12 = Ret (inr 3).
Proof.
  apply (MemoryStorage_laws (fun _ => 8) example_storage (mkEntryID 2 10)
    [mkEntry 2 11 EntryNormal []; mkEntry 3 12 EntryNormal []]).
  - eexists. split; [reflexivity|]. simpl. split_and!; try done; lia.
  - reflexivity.
Defined.

(** ** Writes to MemoryStorage *)

Lemma MemoryStorage_Compact_eq ms prev ents i : ms_log ms prev ents ->
  id_index prev < i <= id_index prev + len ents ->
  exists ms', MemoryStorage_Compact ms i = Ret (ms', None) /\
    let n := Z.to_nat (i - id_index prev) in
    ms_log ms' (last_id prev (take n ents)) (drop n ents).
Proof.
  intros H Hi. destruct (ms_lookup _ _ _ H i) as (e & He & Ht & Hx); [lia|].
  destruct (ms_run _ _ _ H) as [Hl [Hb1 Hb2]]. pose proof (ms_bounds _ _ _ H).
  unfold MemoryStorage_Compact. rewrite (ms_offset_eq _ _ _ H), (ms_lastIndex_eq _ _ _ H). simpl.
  rewrite (proj2 (Z.leb_gt _ _)) by lia. rewrite Z.gtb_ltb, (proj2 (Z.ltb_ge _ _)) by lia.
  rewrite (u64_small (i - _)) by (unfold is_u64, u64_modulus; lia).
  rewrite (slice_get_Some _ _ e) by (done || lia). simpl.
  rewrite u64_small by (unfold is_u64, u64_modulus; lia).
  unfold slice_from. rewrite bool_decide_true by (rewrite (ms_len _ _ _ H); lia). simpl.
  eexists. split; [reflexivity|]. set (n := Z.to_nat (i - id_index prev)).
  destruct (last_id_take prev ents n Hl) as [Ht' Hx']; [unfold len in *; lia|].
  destruct (log_from_take_drop prev ents n Hl) as [_ Hd].
  replace (id_index prev + Z.of_nat n) with i in * by lia.
  eexists. split; [|split; [|split; [exact Hd|]]].
  - cbn [ms_ents set_field]. destruct H as (e0 & E & _). rewrite E.
    replace (Z.to_nat (i - id_index prev + 1)) with (S n) by lia. reflexivity.
  - unfold pbEntryID. simpl. rewrite Hx. destruct (last_id _ _). simpl in *. congruence.
  - split; [lia|]. rewrite Hx'. unfold len in *. rewrite length_drop. lia.
Qed.

Lemma log_from_tail prev l n : log_from prev l -> (n < length l)%nat ->
  exists e, drop n l !! 0%nat = Some e /\ e_Index e = id_index prev + 1 + Z.of_nat n.
Proof.
  intros Hl Hn. destruct (lookup_lt_is_Some_2 l n Hn) as [e He]. exists e.
  rewrite lookup_drop, Nat.add_0_r. split; [done|]. by apply (log_from_lookup prev l n e).
Qed.

Lemma MemoryStorage_Append_eq ms prev ents p entries :
  ms_log ms prev ents -> log_from p entries -> log_bounded p entries ->
  id_index p <= id_index prev + len ents ->
  let n := Z.to_nat (id_index prev - id_index p) in
  let q := last_id p (take n entries) in
  (n < length entries)%nat -> log_term prev ents (id_index q) = Some (id_term q) ->
  exists ms', MemoryStorage_Append ms entries = Ret ms' /\
    ms_log ms' prev (take (Z.to_nat (id_index q - id_index prev)) ents ++ drop n entries).
Proof.
  intros H Hl [Hb1 Hb2] Hle n q Hn Hq. destruct (ms_run _ _ _ H) as [Hl' [Hb1' Hb2']].
  pose proof (ms_bounds _ _ _ H). pose proof (log_term_Some _ _ _ _ Hq) as Hqr.
  destruct (last_id_take p entries n Hl) as [_ Hqi]; [lia|]. fold q in Hqi.
  destruct (log_from_tail p entries 0 Hl) as (e0 & He0 & Hi0); [lia|].
  destruct (log_from_tail p entries n Hl Hn) as (en & Hen & Hin).
  assert (Hlen : (0 < length entries)%nat) by lia. unfold MaxUint64, len in Hb2.
  unfold MemoryStorage_Append, len. rewrite (proj2 (Z.eqb_neq _ _)) by lia.
  rewrite (ms_firstIndex_eq _ _ _ H). simpl. rewrite (slice_get_Some _ _ e0) by done. simpl.
  replace (e_Index e0 +u Z.of_nat (length entries) -u 1) with (id_index p + Z.of_nat (length entries)) by u64_lia.
  rewrite (proj2 (Z.ltb_ge _ _)) by lia.
  assert ((if id_index prev + 1 >? e_Index e0 then slice_from entries (id_index prev + 1 -u e_Index e0)
    else Ret entries) = Ret (drop n entries)) as ->.
  { destruct (_ >? _) eqn:E; bool_to_prop.
    - rewrite u64_small by (unfold is_u64, u64_modulus; lia). unfold slice_from, len.
      rewrite bool_decide_true by lia. do 2 f_equal. lia.
    - replace n with 0%nat by lia. done. }
  simpl. rewrite (slice_get_Some _ _ en) by done. simpl. rewrite (ms_offset_eq _ _ _ H). simpl.
  rewrite u64_small by (unfold is_u64, u64_modulus; lia). fold (len (ms_ents ms)).
  set (k := e_Index en - id_index prev) in *.
  assert (Hk : Z.to_nat k = S (Z.to_nat (id_index q - id_index prev))) by lia.
  assert (Hrun : log_from prev (take (Z.to_nat (id_index q - id_index prev)) ents ++ drop n entries)).
  { apply log_from_app. split; [by apply log_from_take_drop|].
    destruct (last_id_take prev ents (Z.to_nat (id_index q - id_index prev)) Hl') as [Ht Hx]; [unfold len in *; lia|].
    replace (last_id prev _) with q; [by apply log_from_take_drop|].
    replace (id_index prev + Z.of_nat (Z.to_nat (id_index q - id_index prev))) with (id_index q) in * by lia.
    destruct q, (last_id prev _). simpl in *. congruence. }
  assert (Hbd : log_bounded prev (take (Z.to_nat (id_index q - id_index prev)) ents ++ drop n entries)).
  { split; [lia|]. unfold MaxUint64, len in *. rewrite length_app, length_take, length_drop. lia. }
  destruct H as (d & E & Ed & _). 
  assert (Hlms : len (ms_ents ms) = 1 + len ents) by (by rewrite E, len_cons).
  destruct (_ >? _) eqn:Ek; bool_to_prop.
  - unfold slice_to. rewrite bool_decide_true by lia. simpl. eexists. split; [reflexivity|].
    exists d. split_and!; try done. cbn [ms_ents set_field]. by rewrite E, Hk.
  - rewrite (proj2 (Z.eqb_eq _ _)) by (unfold len in *; lia). eexists. split; [reflexivity|].
    exists d. split_and!; try done. cbn [ms_ents set_field]. rewrite E. simpl. f_equal. f_equal.
    rewrite take_ge; [done|]. unfold len in *. lia.
Qed.

(** Writes to MemoryStorage keep it a contiguous run and have exactly the
    documented effect: [Compact] moves the dummy entry up and drops what precedes
    it, [Append] skips the part that is already compacted, truncates the
    conflicting suffix and appends the rest, for entries that attach to the log
    (their first entry that is not compacted follows an entry with a matching
    id), and [ApplySnapshot] replaces the log, refusing a snapshot that is not
    newer than the current one. *)
Theorem MemoryStorage_writes (ms : MemoryStorage) (prev : entryID) (ents : list Entry) :
  ms_log ms prev ents ->
  (forall i, id_index prev < i <= id_index prev + len ents ->
    exists ms', MemoryStorage_Compact ms i = Ret (ms', None) /\
      let n := Z.to_nat (i - id_index prev) in
      ms_log ms' (last_id prev (take n ents)) (drop n ents)) /\
  (forall p entries, log_from p entries -> log_bounded p entries ->
    id_index p <= id_index prev + len ents ->
    let n := Z.to_nat (id_index prev - id_index p) in
    let q := last_id p (take n entries) in
    (n < length entries)%nat -> log_term prev ents (id_index q) = Some (id_term q) ->
    exists ms', MemoryStorage_Append ms entries = Ret ms' /\
      ms_log ms' prev (take (Z.to_nat (id_index q - id_index prev)) ents ++ drop n entries)) /\
  (forall snap, s_Index (ms_snapshot ms) < s_Index snap < MaxUint64 -> 0 <= s_Index snap ->
    exists ms', MemoryStorage_ApplySnapshot ms snap = (ms', None) /\ ms_snapshot ms' = snap /\
      ms_log ms' (mkEntryID (s_Term snap) (s_Index snap)) []) /\
  (forall snap, s_Index snap <= s_Index (ms_snapshot ms) ->
    MemoryStorage_ApplySnapshot ms snap = (ms, Some ErrSnapOutOfDate)).
Proof.
  intros H. split_and!.
  - intros i Hi. by apply MemoryStorage_Compact_eq.
  - intros p entries. by apply MemoryStorage_Append_eq.
  - intros snap Hs H0. unfold MemoryStorage_ApplySnapshot. rewrite Z.geb_leb, (proj2 (Z.leb_gt _ _)) by lia.
    eexists. split; [reflexivity|]. split; [done|]. eexists. split_and!; try done.
    split; simpl; change (len (@nil Entry)) with 0; lia.
  - intros snap Hs. unfold MemoryStorage_ApplySnapshot. by rewrite Z.geb_leb, (proj2 (Z.leb_le _ _)) by lia.
Qed.

Lemma MemoryStorage_writes_witness :
  exists ms', MemoryStorage_Append example_storage
      [mkEntry 2 10 EntryNormal []; mkEntry 2 11 EntryNormal []; mkEntry 4 12 EntryNormal []] = Ret ms' /\
    ms_log ms' (mkEntryID 2 10) [mkEntry 2 11 EntryNormal []; mkEntry 4 12 EntryNormal []].
Proof.
  destruct (MemoryStorage_writes example_storage (mkEntryID 2 10)
    [mkEntry 2 11 EntryNormal []; mkEntry 3 12 EntryNormal []]) as (_ & Happ & _).
  - eexists. split; [reflexivity|]. simpl. split_and!; try done; lia.
  - apply (Happ (mkEntryID 1 9)
      [mkEntry 2 10 EntryNormal []; mkEntry 2 11 EntryNormal []; mkEntry 4 12 EntryNormal []]).
    + simpl. split_and!; try done; lia.
    + split; done.
    + done.
    + simpl. lia.
    + reflexivity.
Defined.
