(* ===== verification/RaftLog.v ===== *)
(** * The raft log (src/pkg/raft/log.go)

    [raftLog] presents the log as one sequence of entries: a prefix in Storage and
    the unstable suffix, with the commit, applying and applied indexes. The
    storage is read through the interface; its laws ([StorageLaws]) say that it
    holds a contiguous run, and the theorems are proved against them.

    The log is specified by the run of entries it stands for ([raftLog_abs]);
    lookups, range reads, appends, commits and applies are verified against that
    run. *)

From S2P Require Import Prelude Hlc Quorum RaftPb LogTypes Unstable Storage.

Record raftLog : Type := mkRaftLog {
  l_storage : Storage;
  l_unstable : unstable;
  l_committed : Z;
  l_applying : Z;
  l_applied : Z;
  l_maxApplyingEntsSize : Z;
  l_applyingEntsSize : Z;
  l_applyingEntsPaused : bool
}.

#[global] Instance eta_raftLog : Eta raftLog := fun l =>
  mkRaftLog (l_storage l) (l_unstable l) (l_committed l) (l_applying l) (l_applied l)
    (l_maxApplyingEntsSize l) (l_applyingEntsSize l) (l_applyingEntsPaused l).

Definition noLimit : Z := MaxUint64.

(** [v, err := m; if err != nil { panic(err) }] *)
Definition must {A} (m : outcome (error + A)) : outcome A :=
  let! r := m in
  match r with
  | inl _ => Panic "unexpected error"
  | inr x => Ret x
  end.

Definition newLogWithSize (storage : Storage) (maxApplyingEntsSize : Z) : outcome raftLog :=
  let! firstIndex := must (st_FirstIndex storage) in
  let! lastIndex := must (st_LastIndex storage) in
  let! lastTerm := must (st_Term storage lastIndex) in
  let last := mkEntryID lastTerm lastIndex in
  Ret {|
    l_storage := storage;
    l_unstable := newUnstable last;
    l_committed := firstIndex -u 1;
    l_applying := firstIndex -u 1;
    l_applied := firstIndex -u 1;
    l_maxApplyingEntsSize := maxApplyingEntsSize;
    l_applyingEntsSize := 0;
    l_applyingEntsPaused := false
  |}.

Definition newLog (storage : Storage) : outcome raftLog := newLogWithSize storage noLimit.

Definition raftLog_accTerm (l : raftLog) : Z := u_term (l_unstable l).
Definition raftLog_lastIndex (l : raftLog) : Z := u_lastIndex (l_unstable l).

Definition raftLog_firstIndex (l : raftLog) : outcome Z :=
  match unstable_maybeFirstIndex (l_unstable l) with
  | Some i => Ret i
  | None => must (st_FirstIndex (l_storage l))
  end.

Definition raftLog_term (l : raftLog) (i : Z) : outcome (error + Z) :=
  let! t := unstable_maybeTerm (l_unstable l) i in
  match t with
  | Some t => Ret (inr t)
  | None =>
    let! first := raftLog_firstIndex l in
    if i +u 1 <? first then Ret (inl ErrCompacted)
    else if i >? raftLog_lastIndex l then Ret (inl ErrUnavailable)
    else
      let! r := st_Term (l_storage l) i in
      match r with
      | inr t => Ret (inr t)
      | inl ErrCompacted => Ret (inl ErrCompacted)
      | inl ErrUnavailable => Ret (inl ErrUnavailable)
      | inl _ => Panic "unexpected error"
      end
  end.

Definition raftLog_zeroTermOnOutOfBounds (r : error + Z) : outcome Z :=
  match r with
  | inr t => Ret t
  | inl ErrCompacted => Ret 0
  | inl ErrUnavailable => Ret 0
  | inl _ => Panic "unexpected error"
  end.

Definition raftLog_lastEntryID (l : raftLog) : outcome entryID :=
  let index := raftLog_lastIndex l in
  let! t := must (raftLog_term l index) in
  Ret (mkEntryID t index).

Definition raftLog_matchTerm (l : raftLog) (id : entryID) : outcome bool :=
  let! r := raftLog_term l (id_index id) in
  match r with
  | inl _ => Ret false
  | inr t => Ret (t =? id_term id)
  end.

Definition raftLog_isUpToDate (l : raftLog) (their : entryID) : outcome bool :=
  let! our := raftLog_lastEntryID l in
  Ret ((id_term their >? id_term our) ||
       (id_term their =? id_term our) && (id_index their >=? id_index our)).

(** The loop of [match] over the entries of the slice. The term that the code
    looks up for its log message is part of the evaluation. *)
Fixpoint match_loop (l : raftLog) (m : Z) (entries : list Entry) : outcome Z :=
  match entries with
  | [] => Ret m
  | e :: entries =>
    let id := pbEntryID e in
    let! ok := raftLog_matchTerm l id in
    if ok then match_loop l (id_index id) entries
    else if id_index id <=? raftLog_lastIndex l then
      let! r := raftLog_term l (id_index id) in
      let! _ := raftLog_zeroTermOnOutOfBounds r in
      Ret m
    else Ret m
  end.

Definition raftLog_match (l : raftLog) (s : logSlice) : outcome (option Z) :=
  let! ok := raftLog_matchTerm l (ls_prev s) in
  if negb ok then Ret None
  else
    let! m := match_loop l (id_index (ls_prev s)) (ls_entries s) in
    Ret (Some m).

Definition raftLog_maybeAppend (l : raftLog) (a : logSlice) : outcome (raftLog * bool) :=
  let! m := raftLog_match l a in
  match m with
  | None => Ret (l, false)
  | Some m =>
    let! a := logSlice_forward a m in
    if len (ls_entries a) =? 0 then Ret (l, true)
    else
      let! e0 := slice_get (ls_entries a) 0 in
      if e_Index e0 <=? l_committed l then Panic "entry is already committed"
      else
        let! '(u, ok) := unstable_truncateAndAppend (l_unstable l) a in
        Ret (l <| l_unstable := u |>, ok)
  end.

Definition raftLog_append (l : raftLog) (a : logSlice) : outcome (raftLog * bool) :=
  let! '(u, ok) := unstable_append (l_unstable l) a in
  Ret (l <| l_unstable := u |>, ok).

(** The loop of [findConflictByTerm]; [fuel] bounds the remaining iterations. *)
Fixpoint findConflict_loop (l : raftLog) (term : Z) (fuel : nat) (index : Z) : outcome (Z * Z) :=
  match fuel with
  | O => Ret (0, 0)
  | S fuel =>
    if index >? 0 then
      let! r := raftLog_term l index in
      match r with
      | inl _ => Ret (index, 0)
      | inr ourTerm =>
        if ourTerm <=? term then Ret (index, ourTerm)
        else findConflict_loop l term fuel (index -u 1)
      end
    else Ret (0, 0)
  end.

(** The index decreases by one in every iteration and the loop stops at zero. *)
Definition raftLog_findConflictByTerm (l : raftLog) (index term : Z) : outcome (Z * Z) :=
  findConflict_loop l term (S (Z.to_nat index)) index.

Definition raftLog_nextUnstableEnts (l : raftLog) : outcome (list Entry) := unstable_nextEntries (l_unstable l).

Definition raftLog_hasNextUnstableEnts (l : raftLog) : outcome bool :=
  let! ents := raftLog_nextUnstableEnts l in Ret (len ents >? 0).

Definition raftLog_nextUnstableSnapshot (l : raftLog) : option Snapshot := unstable_nextSnapshot (l_unstable l).

Definition raftLog_hasNextUnstableSnapshot (l : raftLog) : bool :=
  negb (bool_decide (unstable_nextSnapshot (l_unstable l) = None)).

Definition raftLog_hasNextOrInProgressSnapshot (l : raftLog) : bool :=
  negb (bool_decide (u_snapshot (l_unstable l) = None)).

Definition raftLog_maxAppliableIndex (l : raftLog) (allowUnstable : bool) : Z :=
  let hi := l_committed l in
  if negb allowUnstable then Z.min hi (id_index (u_prev (l_unstable l))) else hi.

Definition raftLog_snapshot (l : raftLog) : outcome (error + Snapshot) :=
  match u_snapshot (l_unstable l) with
  | Some s => Ret (inr s)
  | None => st_Snapshot (l_storage l)
  end.

Definition raftLog_commitTo (l : raftLog) (mark : LogMark) : outcome raftLog :=
  if l_committed l <? mark_Index mark then
    if raftLog_lastIndex l <? mark_Index mark then Panic "tocommit is out of range"
    else Ret (l <| l_committed := mark_Index mark |>)
  else Ret l.

Definition raftLog_appliedTo (l : raftLog) (i size : Z) : outcome raftLog :=
  if (l_committed l <? i) || (i <? l_applied l) then Panic "applied is out of range"
  else
    let l := l <| l_applied := i |> <| l_applying := Z.max (l_applying l) i |> in
    let l :=
      if l_applyingEntsSize l >? size then l <| l_applyingEntsSize := l_applyingEntsSize l -u size |>
      else l <| l_applyingEntsSize := 0 |> in
    Ret (l <| l_applyingEntsPaused := l_applyingEntsSize l >=? l_maxApplyingEntsSize l |>).

Definition raftLog_acceptApplying (l : raftLog) (i size : Z) (allowUnstable : bool) : outcome raftLog :=
  if l_committed l <? i then Panic "applying is out of range"
  else
    let l := l <| l_applying := i |> <| l_applyingEntsSize := l_applyingEntsSize l +u size |> in
    Ret (l <| l_applyingEntsPaused :=
      (l_applyingEntsSize l >=? l_maxApplyingEntsSize l) || (i <? raftLog_maxAppliableIndex l allowUnstable) |>).

Definition raftLog_stableTo (l : raftLog) (mark : LogMark) : outcome raftLog :=
  let! u := unstable_stableTo (l_unstable l) mark in Ret (l <| l_unstable := u |>).

Definition raftLog_stableSnapTo (l : raftLog) (i : Z) : raftLog :=
  l <| l_unstable := unstable_stableSnapTo (l_unstable l) i |>.

Definition raftLog_acceptUnstable (l : raftLog) : raftLog :=
  l <| l_unstable := unstable_acceptInProgress (l_unstable l) |>.

Definition raftLog_restore (l : raftLog) (s : snapshot) : raftLog * bool :=
  let id := snapshot_lastEntryID s in
  let '(u, ok) := unstable_restore (l_unstable l) s in
  if negb ok then (l <| l_unstable := u |>, false)
  else (l <| l_unstable := u |> <| l_committed := id_index id |>, true).

Definition raftLog_mustCheckOutOfBounds (l : raftLog) (lo hi : Z) : outcome (option error) :=
  if lo >? hi then Panic "invalid slice"
  else
    let! fi := raftLog_firstIndex l in
    if lo <? fi then Ret (Some ErrCompacted)
    else
      let length := raftLog_lastIndex l +u 1 -u fi in
      if hi >? fi +u length then Panic "slice out of bound" else Ret None.

Section reads.
Context (Size : Entry -> Z).

Definition raftLog_slice (l : raftLog) (lo hi maxSize : Z) : outcome (error + list Entry) :=
  let! err := raftLog_mustCheckOutOfBounds l lo hi in
  match err with
  | Some e => Ret (inl e)
  | None =>
    let u := l_unstable l in
    if lo =? hi then Ret (inr [])
    else if lo >? id_index (u_prev u) then
      let! ents := unstable_slice u lo hi in
      Ret (inr (limitSize Size ents maxSize))
    else
      let cut := Z.min hi (id_index (u_prev u) +u 1) in
      let! r := st_Entries (l_storage l) lo cut maxSize in
      match r with
      | inl ErrCompacted => Ret (inl ErrCompacted)
      | inl ErrUnavailable => Panic "entries are unavailable from storage"
      | inl _ => Panic "unexpected error"
      | inr ents =>
        if hi <=? id_index (u_prev u) +u 1 then Ret (inr ents)
        else if len ents <? cut -u lo then Ret (inr ents)
        else
          let size := entsSize Size ents in
          if size >=? maxSize then Ret (inr ents)
          else
            let! uents := unstable_slice u (id_index (u_prev u) +u 1) hi in
            let uents := limitSize Size uents (maxSize -u size) in
            if (len uents =? 1) && (size +u entsSize Size uents >? maxSize) then Ret (inr ents)
            else Ret (inr (ents ++ uents))
      end
  end.

Definition raftLog_entries (l : raftLog) (i maxSize : Z) : outcome (error + list Entry) :=
  if i >? raftLog_lastIndex l then Ret (inr [])
  else raftLog_slice l i (raftLog_lastIndex l +u 1) maxSize.

(** The storage does not change during a call here, so the retry of
    [allEntries] after a racing compaction, which would not terminate, is a
    panic. *)
Definition raftLog_allEntries (l : raftLog) : outcome (list Entry) :=
  let! first := raftLog_firstIndex l in
  must (raftLog_entries l first noLimit).

(** The callback of [scan] is a closure: it updates its captured state [A] and
    returns an error or nil. *)
Fixpoint scan_loop {A} (l : raftLog) (v : A -> list Entry -> outcome (A * option error)) (pageSize hi : Z)
    (fuel : nat) (lo : Z) (a : A) : outcome (A * option error) :=
  match fuel with
  | O => Ret (a, None)
  | S fuel =>
    if lo <? hi then
      let! r := raftLog_slice l lo hi pageSize in
      match r with
      | inl err => Ret (a, Some err)
      | inr ents =>
        if len ents =? 0 then Ret (a, Some (Errorf "got 0 entries in [%d, %d)" [lo; hi]))
        else
          let! '(a, err) := v a ents in
          match err with
          | Some err => Ret (a, Some err)
          | None => scan_loop l v pageSize hi fuel (lo +u len ents) a
          end
      end
    else Ret (a, None)
  end.

(** Every iteration advances [lo] by at least one. *)
Definition raftLog_scan {A} (l : raftLog) (lo hi pageSize : Z)
    (v : A -> list Entry -> outcome (A * option error)) (a : A) : outcome (A * option error) :=
  scan_loop l v pageSize hi (S (Z.to_nat (hi - lo))) lo a.

Definition raftLog_nextCommittedEnts (l : raftLog) (allowUnstable : bool) : outcome (list Entry) :=
  if l_applyingEntsPaused l then Ret []
  else if raftLog_hasNextOrInProgressSnapshot l then Ret []
  else
    let lo := l_applying l +u 1 in
    let hi := raftLog_maxAppliableIndex l allowUnstable +u 1 in
    if lo >=? hi then Ret []
    else
      let maxSize := l_maxApplyingEntsSize l -u l_applyingEntsSize l in
      if maxSize <=? 0 then Panic "applying entry size not positive"
      else must (raftLog_slice l lo hi maxSize).

End reads.

Definition raftLog_hasNextCommittedEnts (l : raftLog) (allowUnstable : bool) : bool :=
  if l_applyingEntsPaused l then false
  else if raftLog_hasNextOrInProgressSnapshot l then false
  else (l_applying l +u 1 <? raftLog_maxAppliableIndex l allowUnstable +u 1).

(** ** The log as one run of entries *)

(** [l] stands for the run [ents] after [prev], given the run [sents] after
    [sprev] in storage: with a pending snapshot the storage is superseded, and
    otherwise the unstable entries replace what the storage holds beyond them. *)
Record raftLog_rep (Size : Entry -> Z) (l : raftLog) (sprev : entryID) (sents : list Entry)
    (prev : entryID) (ents : list Entry) : Prop := {
  rep_storage : StorageLaws Size (l_storage l) sprev sents;
  rep_unstable : unstable_inv (l_unstable l);
  rep_run :
    match u_snapshot (l_unstable l) with
    | Some _ => prev = u_prev (l_unstable l) /\ ents = u_entries (l_unstable l)
    | None =>
      prev = sprev /\
      log_term sprev sents (id_index (u_prev (l_unstable l))) = Some (id_term (u_prev (l_unstable l))) /\
      ents = take (Z.to_nat (id_index (u_prev (l_unstable l)) - id_index sprev)) sents ++
             u_entries (l_unstable l)
    end
}.

(** The log stands for the run, whatever the storage holds. *)
Definition raftLog_abs (Size : Entry -> Z) (l : raftLog) (prev : entryID) (ents : list Entry) : Prop :=
  exists sprev sents, raftLog_rep Size l sprev sents prev ents.

Section rep.
Context (Size : Entry -> Z) (l : raftLog) (sprev : entryID) (sents : list Entry).
Context (prev : entryID) (ents : list Entry) (Hrep : raftLog_rep Size l sprev sents prev ents).

Let u := l_unstable l.
Let n := Z.to_nat (id_index (u_prev u) - id_index prev).

(** The part of the run that precedes the unstable entries. *)
Lemma rep_split : id_index prev <= id_index (u_prev u) /\
  exists pre, ents = pre ++ u_entries u /\ log_from prev pre /\ last_id prev pre = u_prev u /\
    length pre = n.
Proof.
  destruct Hrep as [Hst Hu Hrun]. subst n. fold u in Hu, Hrun. destruct (u_snapshot u).
  - destruct Hrun as [-> ->]. split; [lia|]. exists []. by rewrite Z.sub_diag.
  - destruct Hrun as (-> & Ht & ->). pose proof (log_term_Some _ _ _ _ Ht) as Hi.
    split; [lia|]. eexists. split; [reflexivity|].
    set (k := Z.to_nat (id_index (u_prev u) - id_index sprev)).
    destruct (last_id_take sprev sents k (st_log (StorageLaws := Hst))) as [Ht' Hx]; [unfold len in *; lia|].
    replace (id_index sprev + Z.of_nat k) with (id_index (u_prev u)) in * by lia.
    split_and!.
    + by apply log_from_take_drop, (st_log (StorageLaws := Hst)).
    + apply entryID_eq; [|done]. congruence.
    + rewrite length_take. unfold len in *. lia.
Qed.

Lemma rep_log : log_from prev ents.
Proof.
  destruct rep_split as (_ & pre & -> & Hl & Hlast & _). apply log_from_app. split; [done|].
  rewrite Hlast. apply (inv_log _ (rep_unstable _ _ _ _ _ _ Hrep)).
Qed.

Lemma rep_len : id_index prev + len ents = id_index (u_prev u) + len (u_entries u).
Proof.
  destruct rep_split as (Hle & pre & -> & _ & _ & Hlen). rewrite len_app. unfold len at 1. subst n. lia.
Qed.

Lemma rep_bounded : log_bounded prev ents.
Proof.
  destruct (inv_bounded _ (rep_unstable _ _ _ _ _ _ Hrep)) as [H1 H2]. pose proof rep_len as Hlen. fold u in H1, H2.
  split; [|lia]. pose proof (rep_run _ _ _ _ _ _ Hrep) as Hrun. fold u in Hrun. destruct (u_snapshot u).
  - destruct Hrun as [-> _]. done.
  - destruct Hrun as [-> _]. apply (st_bounded (StorageLaws := rep_storage _ _ _ _ _ _ Hrep)).
Qed.

Lemma rep_bounds : 0 <= id_index prev /\ 0 <= len ents /\ id_index prev + len ents < 18446744073709551615.
Proof. destruct rep_bounded as [? ?]. pose proof (len_nonneg ents). unfold MaxUint64 in *. lia. Qed.

Lemma rep_last_id : last_id prev ents = last_id (u_prev u) (u_entries u).
Proof. destruct rep_split as (_ & pre & -> & _ & Hlast & _). by rewrite last_id_app, Hlast. Qed.

Lemma rep_lastIndex : raftLog_lastIndex l = id_index prev + len ents.
Proof. rewrite rep_len. apply u_lastIndex_eq, Hrep. Qed.

Lemma rep_firstIndex : raftLog_firstIndex l = Ret (id_index prev + 1).
Proof.
  unfold raftLog_firstIndex, unstable_maybeFirstIndex. pose proof rep_bounds.
  pose proof (rep_run _ _ _ _ _ _ Hrep) as Hrun. destruct (u_snapshot (l_unstable l)) as [s|] eqn:E.
  - destruct Hrun as [Hp _]. rewrite (inv_snapshot _ (rep_unstable _ _ _ _ _ _ Hrep) s E) in Hp. subst prev. simpl in *.
    by rewrite u64_small by (unfold is_u64, u64_modulus; lia).
  - destruct Hrun as [-> _]. unfold must.
    by rewrite (st_first (StorageLaws := rep_storage _ _ _ _ _ _ Hrep)).
Qed.

Lemma rep_term_unstable i : id_index (u_prev u) <= i ->
  log_term prev ents i = log_term (u_prev u) (u_entries u) i.
Proof.
  intros Hi. destruct rep_split as (Hle & pre & -> & Hl & Hlast & Hlen).
  rewrite log_term_app_r; [by rewrite Hlast|done|]. unfold len. subst n. lia.
Qed.

(** Below the unstable entries the run is what the storage holds. *)
Lemma rep_stored i t : i < id_index (u_prev u) -> log_term prev ents i = Some t ->
  st_Term (l_storage l) i = Ret (inr t).
Proof.
  intros Hi Ht. pose proof (log_term_Some _ _ _ _ Ht) as Hr.
  pose proof (rep_run _ _ _ _ _ _ Hrep) as Hrun. fold u in Hrun. destruct (u_snapshot u).
  - destruct Hrun as [-> _]. lia.
  - destruct Hrun as (-> & Hp & ->). apply (st_term (StorageLaws := rep_storage _ _ _ _ _ _ Hrep)).
    pose proof (log_term_Some _ _ _ _ Hp) as Hpr.
    rewrite <- Ht, log_term_app_l.
    + rewrite <- (take_drop (Z.to_nat (id_index (u_prev u) - id_index sprev)) sents) at 1.
      apply log_term_app_l. unfold len in *. rewrite length_take. lia.
    + unfold len in *. rewrite length_take. lia.
Qed.

(** The result of a term lookup. *)
Definition term_result (i : Z) : error + Z :=
  if i <? id_index prev then inl ErrCompacted
  else match log_term prev ents i with
  | Some t => inr t
  | None => inl ErrUnavailable
  end.

Lemma rep_term i : 0 <= i < MaxUint64 -> raftLog_term l i = Ret (term_result i).
Proof.
  intros Hi. unfold raftLog_term. rewrite maybeTerm_spec by apply Hrep. fold u. simpl.
  destruct (log_term (u_prev u) (u_entries u) i) as [t|] eqn:E.
  - pose proof (log_term_Some _ _ _ _ E). destruct rep_split as [Hle _]. unfold term_result.
    rewrite (proj2 (Z.ltb_ge _ _)) by lia. rewrite rep_term_unstable by lia. by rewrite E.
  - rewrite rep_firstIndex, rep_lastIndex. simpl. unfold MaxUint64 in Hi.
    rewrite u64_small by (unfold is_u64, u64_modulus; lia). unfold term_result.
    destruct (i <? id_index prev) eqn:E1; bool_to_prop; [by rewrite (proj2 (Z.ltb_lt _ _)) by lia|].
    rewrite (proj2 (Z.ltb_ge _ _)) by lia. destruct (i >? _) eqn:E2; bool_to_prop.
    + destruct (log_term prev ents i) eqn:E3; [|done]. apply log_term_Some in E3. lia.
    + destruct (log_term_is_Some prev ents i) as [t Ht]; [lia|]. rewrite Ht.
      destruct (decide (id_index (u_prev u) <= i)).
      * rewrite rep_term_unstable in Ht by done. congruence.
      * rewrite (rep_stored i t) by (done || lia). done.
Qed.

Lemma rep_lastEntryID : raftLog_lastEntryID l = Ret (last_id prev ents).
Proof.
  unfold raftLog_lastEntryID, must. rewrite rep_lastIndex. pose proof rep_bounds. pose proof rep_log as Hl.
  rewrite rep_term by (unfold MaxUint64; lia). unfold term_result. rewrite (proj2 (Z.ltb_ge _ _)) by lia.
  rewrite log_term_last by done. simpl. f_equal. apply entryID_eq; [done|]. simpl. by rewrite last_id_index.
Qed.

Lemma rep_matchTerm id : 0 <= id_index id < MaxUint64 ->
  raftLog_matchTerm l id = Ret (bool_decide (log_term prev ents (id_index id) = Some (id_term id))).
Proof.
  intros Hi. unfold raftLog_matchTerm. rewrite rep_term by done. unfold term_result. simpl.
  destruct (_ <? _) eqn:E; bool_to_prop.
  - rewrite bool_decide_eq_false_2; [done|]. intros H. apply log_term_Some in H. lia.
  - destruct (log_term prev ents (id_index id)) as [t|]; [|by rewrite bool_decide_eq_false_2].
    destruct (t =? id_term id) eqn:Et; bool_to_prop.
    + by rewrite bool_decide_eq_true_2 by congruence.
    + by rewrite bool_decide_eq_false_2 by congruence.
Qed.
End rep.

(** ** Range reads *)

Lemma log_range_app prev l k lo mid hi : id_index prev < lo <= mid -> mid <= hi ->
  mid = id_index prev + len l + 1 ->
  log_range prev (l ++ k) lo hi = log_range prev l lo mid ++ take (Z.to_nat (hi - mid)) k.
Proof.
  intros Hlo Hhi Hmid. unfold log_range, len in *.
  set (a := Z.to_nat (lo - id_index prev - 1)).
  rewrite drop_app_le by lia. rewrite take_app. f_equal.
  - rewrite !take_ge; [done|rewrite length_drop; lia..].
  - rewrite length_drop. f_equal. lia.
Qed.

Lemma log_range_app_l prev l k lo hi : id_index prev < lo <= hi -> hi <= id_index prev + len l + 1 ->
  log_range prev (l ++ k) lo hi = log_range prev l lo hi.
Proof.
  intros Hlo Hhi. unfold log_range, len in *. rewrite drop_app_le by lia.
  rewrite take_app_le; [done|]. rewrite length_drop. lia.
Qed.

Lemma log_range_app_r prev l k lo hi : log_from prev l -> id_index prev + len l < lo -> 
  log_range prev (l ++ k) lo hi = log_range (last_id prev l) k lo hi.
Proof.
  intros Hl Hlo. unfold log_range. rewrite last_id_index by done. unfold len in *.
  rewrite drop_app_ge by lia. do 2 f_equal. lia.
Qed.

Lemma log_range_take prev l m lo hi : hi <= id_index prev + Z.of_nat m + 1 -> id_index prev < lo ->
  log_range prev (take m l) lo hi = log_range prev l lo hi.
Proof.
  intros Hhi Hlo. unfold log_range. rewrite skipn_firstn_comm, take_take. f_equal. lia.
Qed.

Lemma log_range_length prev l lo hi : id_index prev < lo <= hi -> hi <= id_index prev + len l + 1 ->
  length (log_range prev l lo hi) = Z.to_nat (hi - lo).
Proof. intros H1 H2. unfold log_range, len in *. rewrite length_take, length_drop. lia. Qed.

Section limit.
Context (Size : Entry -> Z) (HSize : forall e, 0 < Size e).

(** The number of entries that fit is monotone in the candidates. *)
Lemma limit_count_app A B maxSize k : (k < length A)%nat ->
  limit_count Size A maxSize k -> limit_count Size (A ++ B) maxSize k.
Proof.
  intros Hk (H1 & H2 & H3). unfold limit_count. rewrite length_app, !take_app_le by lia.
  split_and!; [lia..|done|]. intros _. by apply H3.
Qed.

Lemma limit_count_exact A B maxSize : A <> [] -> B <> [] ->
  limit_count Size A maxSize (length A) -> (forall b, B !! 0%nat = Some b -> maxSize < sum_size Size A + Size b) ->
  limit_count Size (A ++ B) maxSize (length A).
Proof.
  clear HSize. intros HA HB (H1 & H2 & _) Hb. unfold limit_count. rewrite length_app, take_app_length.
  rewrite firstn_all in H2. split_and!; [lia..|done|]. intros _.
  destruct B as [|b B]; [done|]. specialize (Hb b eq_refl).
  rewrite take_app_ge by lia. replace (S (length A) - length A)%nat with 1%nat by lia.
  rewrite sum_size_app. simpl. lia.
Qed.

Lemma limit_count_join A B maxSize k : A <> [] -> sum_size Size A < maxSize ->
  limit_count Size B (maxSize - sum_size Size A) k ->
  sum_size Size A + sum_size Size (take k B) <= maxSize ->
  limit_count Size (A ++ B) maxSize (length A + k).
Proof.
  clear HSize. intros HA Hs (H1 & H2 & H3) Hle. unfold limit_count. rewrite length_app.
  rewrite !take_app_ge by lia. replace (length A + k - length A)%nat with k by lia.
  replace (S (length A + k) - length A)%nat with (S k) by lia. rewrite !sum_size_app.
  split_and!; [lia..| |].
  - right. lia.
  - intros Hk. specialize (H3 ltac:(lia)). lia.
Qed.
End limit.

Section slice.
Context (Size : Entry -> Z) (HSize : forall e, 0 < Size e).

Lemma sum_size_range prev l lo hi : sum_size Size (log_range prev l lo hi) <= sum_size Size l.
Proof.
  unfold log_range. set (a := Z.to_nat (lo - id_index prev - 1)). set (b := Z.to_nat (hi - lo)).
  rewrite <- (take_drop a l) at 2. rewrite <- (take_drop b (drop a l)) at 2. rewrite !sum_size_app.
  pose proof (sum_size_nonneg Size HSize (take a l)).
  pose proof (sum_size_nonneg Size HSize (drop b (drop a l))). lia.
Qed.

Lemma limitSize_unique L maxSize k : L <> [] -> sum_size Size L < u64_modulus ->
  limit_count Size L maxSize k -> limitSize Size L maxSize = take k L.
Proof.
  intros HL Hs Hk. destruct (limitSize_spec Size HSize L maxSize HL Hs) as (k' & Hk' & ->).
  by rewrite (limit_count_unique Size HSize _ _ _ _ Hk Hk').
Qed.

(** The stored and the unstable part of a range, each cut to what is left of the
    limit, are the range cut to the limit. *)
Lemma limitSize_two_parts A B maxSize : A <> [] -> B <> [] ->
  sum_size Size (A ++ B) < u64_modulus -> 0 <= maxSize < u64_modulus ->
  let ents := limitSize Size A maxSize in
  limitSize Size (A ++ B) maxSize =
  if len ents <? len A then ents
  else if entsSize Size ents >=? maxSize then ents
  else
    let uents := limitSize Size B (maxSize -u entsSize Size ents) in
    if (len uents =? 1) && (entsSize Size ents +u entsSize Size uents >? maxSize) then ents
    else ents ++ uents.
Proof.
  intros HA HB Hs Hmax. cbn zeta. rewrite sum_size_app in Hs.
  pose proof (sum_size_nonneg Size HSize A) as HsA. pose proof (sum_size_nonneg Size HSize B) as HsB.
  assert (HAB : A ++ B <> []) by (by destruct A).
  assert (Hs' : sum_size Size (A ++ B) < u64_modulus) by (by rewrite sum_size_app).
  destruct (limitSize_spec Size HSize A maxSize HA ltac:(lia)) as (k & Hk & ->).
  pose proof Hk as (Hk1 & _). unfold len. rewrite length_take, Nat.min_l by lia.
  destruct (_ <? Z.of_nat (length A)) eqn:E1; bool_to_prop.
  { rewrite (limitSize_unique (A ++ B) maxSize k) by (auto using limit_count_app || (apply limit_count_app; [lia|done])).
    by rewrite take_app_le by lia. }
  assert (k = length A) as -> by lia. rewrite firstn_all, entsSize_eq, (u64_small (sum_size Size A)) by (split; lia).
  destruct (_ >=? _) eqn:E2; bool_to_prop.
  { rewrite (limitSize_unique (A ++ B) maxSize (length A)); [by rewrite take_app_length|done..|].
    apply limit_count_exact; try done. intros b _. specialize (HSize b). lia. }
  rewrite (u64_small (maxSize - _)) by (split; lia).
  destruct (limitSize_spec Size HSize B (maxSize - sum_size Size A) HB ltac:(lia)) as (j & Hj & ->).
  pose proof Hj as (Hj1 & Hj2 & Hj3). rewrite length_take, Nat.min_l by lia.
  assert (HsB' : 0 <= sum_size Size (take j B) <= sum_size Size B).
  { rewrite <- (take_drop j B) at 3. rewrite sum_size_app. pose proof (sum_size_nonneg Size HSize (drop j B)).
    pose proof (sum_size_nonneg Size HSize (take j B)). lia. }
  rewrite entsSize_eq, (u64_small (sum_size Size (take j B))), (u64_small (_ + _)) by (split; lia).
  destruct ((_ =? 1) && _) eqn:E3.
  - apply andb_true_iff in E3 as [E3 E4]. bool_to_prop. assert (j = 1%nat) as -> by lia.
    rewrite (limitSize_unique (A ++ B) maxSize (length A)); [by rewrite take_app_length|done..|].
    apply limit_count_exact; try done. intros b Hb. destruct B as [|b' B]; [done|]. injection Hb as ->.
    simpl in E4. lia.
  - rewrite (limitSize_unique (A ++ B) maxSize (length A + j)); [|done..|].
    + rewrite take_app_ge by lia. by replace (length A + j - length A)%nat with j by lia.
    + apply limit_count_join; try done. apply andb_false_iff in E3 as [E3|E3]; bool_to_prop; lia.
Qed.

Context (l : raftLog) (sprev : entryID) (sents : list Entry) (prev : entryID) (ents : list Entry).
Context (Hrep : raftLog_rep Size l sprev sents prev ents).

Lemma rep_mustCheckOutOfBounds lo hi : 0 <= lo <= hi -> hi <= id_index prev + len ents + 1 ->
  raftLog_mustCheckOutOfBounds l lo hi = Ret (if lo <=? id_index prev then Some ErrCompacted else None).
Proof.
  intros Hlo Hhi. unfold raftLog_mustCheckOutOfBounds. rewrite Z.gtb_ltb, (proj2 (Z.ltb_ge _ _)) by lia.
  rewrite (rep_firstIndex _ _ _ _ _ _ Hrep). simpl.
  pose proof (rep_bounds _ _ _ _ _ _ Hrep).
  destruct (lo <? id_index prev + 1) eqn:E; bool_to_prop.
  - by rewrite (proj2 (Z.leb_le _ _)) by lia.
  - rewrite (rep_lastIndex _ _ _ _ _ _ Hrep).
    rewrite (u64_small (_ + 1)), (u64_small (_ - _)), (u64_small (_ + _)) by (unfold is_u64, u64_modulus; lia).
    rewrite Z.gtb_ltb, (proj2 (Z.ltb_ge _ _)), (proj2 (Z.leb_gt _ _)) by lia. done.
Qed.

Lemma rep_slice lo hi maxSize : sum_size Size ents < u64_modulus -> 0 <= maxSize < u64_modulus ->
  id_index prev < lo <= hi -> hi <= id_index prev + len ents + 1 ->
  raftLog_slice Size l lo hi maxSize = Ret (inr (limitSize Size (log_range prev ents lo hi) maxSize)).
Proof.
  intros Hs Hmax Hlo Hhi. unfold raftLog_slice. pose proof (rep_bounds _ _ _ _ _ _ Hrep).
  rewrite rep_mustCheckOutOfBounds by lia. simpl. rewrite (proj2 (Z.leb_gt _ _)) by lia.
  destruct (lo =? hi) eqn:E0; bool_to_prop.
  { subst hi. unfold log_range. by rewrite Z.sub_diag. }
  destruct (rep_split _ _ _ _ _ _ Hrep) as (Hle & pre & Eents & Hpre & Hlast & Hlen).
  pose proof (rep_unstable _ _ _ _ _ _ Hrep) as Hu. pose proof (rep_len _ _ _ _ _ _ Hrep) as Hl.
  set (u := l_unstable l) in *. set (q := id_index (u_prev u)) in *.
  assert (Hlenp : len pre = q - id_index prev) by (unfold len; lia).
  pose proof (len_nonneg (u_entries u)).
  destruct (lo >? q) eqn:E1; bool_to_prop.
  { rewrite slice_spec by (fold u q; lia || done). fold u q. simpl. do 3 f_equal.
    rewrite Eents, log_range_app_r by (done || lia). by rewrite Hlast. }
  rewrite (u64_small (q + 1)) by (unfold is_u64, u64_modulus; lia).
  pose proof (rep_run _ _ _ _ _ _ Hrep) as Hrun. fold u in Hrun.
  destruct (u_snapshot u); [destruct Hrun as [-> _]; fold q in Hlo; lia|]. destruct Hrun as (-> & Hp & Ep).
  assert (pre = take (Z.to_nat (q - id_index sprev)) sents) as -> by (subst ents; by apply app_inj_tail_iff || (apply app_inv_tail in Ep; done)).
  assert (Hst := st_entries (StorageLaws := rep_storage _ _ _ _ _ _ Hrep)).
  pose proof (log_term_Some _ _ _ _ Hp) as Hpr.
  rewrite Hst by lia. cbn [obind].
  destruct (hi <=? q + 1) eqn:E2; bool_to_prop.
  { rewrite Z.min_l by lia. do 3 f_equal. rewrite Eents, log_range_app_l by lia.
    by rewrite log_range_take by lia. }
  rewrite Z.min_r by lia. rewrite (u64_small (q + 1 - lo)) by (unfold is_u64, u64_modulus; lia).
  rewrite slice_spec by (fold u q; lia || done). fold u q. cbn [obind]. replace (q + 1 - q - 1) with 0 by lia. rewrite drop_0.
  set (A := log_range sprev sents lo (q + 1)). set (B := take (Z.to_nat (hi - (q + 1))) (u_entries u)).
  assert (ER : log_range sprev ents lo hi = A ++ B).
  { rewrite Eents, (log_range_app _ _ _ lo (q + 1) hi) by lia. by rewrite log_range_take by lia. }
  assert (HlA : len A = q + 1 - lo) by (unfold len, A; rewrite log_range_length; lia).
  rewrite ER, <- HlA, (limitSize_two_parts A B maxSize).
  - cbn zeta. destruct (_ <? _); [done|]. destruct (_ >=? _); [done|]. by destruct (_ && _).
  - intros E. rewrite E in HlA. change (len (@nil Entry)) with 0 in HlA. lia.
  - intros E. apply (f_equal len) in E. unfold B, len in E. rewrite length_take in E. unfold len in Hl, Hhi. simpl in E. lia.
  - rewrite <- ER. pose proof (sum_size_range sprev ents lo hi). lia.
  - done.
Qed.
End slice.

(** ** Appends *)

(** How many leading entries of [entries] the run already has. *)
Fixpoint match_len (prev : entryID) (ents : list Entry) (entries : list Entry) : nat :=
  match entries with
  | [] => 0
  | e :: entries =>
    if decide (log_term prev ents (e_Index e) = Some (e_Term e)) then S (match_len prev ents entries) else 0
  end.

Lemma match_len_le prev ents entries : (match_len prev ents entries <= length entries)%nat.
Proof. induction entries as [|e entries IH]; simpl; [lia|]. case_decide; lia. Qed.

(** The matched entries are in the run, and the next one is not. *)
Lemma match_len_spec prev ents entries i e : entries !! i = Some e ->
  ((i < match_len prev ents entries)%nat -> log_term prev ents (e_Index e) = Some (e_Term e)) /\
  (i = match_len prev ents entries -> log_term prev ents (e_Index e) <> Some (e_Term e)).
Proof.
  revert i. induction entries as [|x entries IH]; intros i E; [done|]. simpl.
  destruct i as [|i]; simpl in E.
  - injection E as ->. case_decide; split; [done|lia|lia|done].
  - destruct (IH i E) as [IH1 IH2]. case_decide; split; try lia.
    + intros Hi. apply IH1. lia.
    + intros [= Hi]. by apply IH2.
Qed.

Lemma match_len_last prev ents p entries :
  log_from p entries -> log_term prev ents (id_index p) = Some (id_term p) ->
  let q := last_id p (take (match_len prev ents entries) entries) in
  log_term prev ents (id_index q) = Some (id_term q).
Proof.
  revert p. induction entries as [|e entries IH]; intros p; simpl; [done|].
  intros (_ & _ & Hl) Hp. case_decide as E; simpl; [|done]. by apply IH.
Qed.

Section append.
Context (Size : Entry -> Z) (l : raftLog) (sprev : entryID) (sents : list Entry).
Context (prev : entryID) (ents : list Entry) (Hrep : raftLog_rep Size l sprev sents prev ents).

Lemma rep_match_loop p entries : log_from p entries -> log_bounded p entries ->
  match_loop l (id_index p) entries = Ret (id_index p + Z.of_nat (match_len prev ents entries)).
Proof.
  revert p. induction entries as [|e entries IH]; intros p Hl [Hb1 Hb2]; [simpl; by rewrite Z.add_0_r|].
  destruct Hl as (Hi & _ & Hl). rewrite len_cons in Hb2. pose proof (len_nonneg entries).
  cbn [match_loop match_len].
  assert (Hr : 0 <= e_Index e < MaxUint64) by lia.
  rewrite (rep_matchTerm _ _ _ _ _ _ Hrep (pbEntryID e) Hr). cbn [obind id_index id_term pbEntryID].
  destruct (decide (log_term prev ents (e_Index e) = Some (e_Term e))) as [E|E].
  - rewrite bool_decide_eq_true_2 by done. change (e_Index e) with (id_index (pbEntryID e)) at 1.
    rewrite IH; [simpl; f_equal; lia|done|split; simpl; lia].
  - rewrite bool_decide_eq_false_2 by done. rewrite Z.add_0_r. destruct (_ <=? _); [|done].
    rewrite (rep_term _ _ _ _ _ _ Hrep _ Hr). simpl. unfold term_result, raftLog_zeroTermOnOutOfBounds.
    destruct (_ <? _); [done|]. by destruct (log_term _ _ _).
Qed.

(** Without a pending snapshot, the storage agrees up to the unstable entries. *)
Lemma rep_stored_term i : u_snapshot (l_unstable l) = None -> i <= id_index (u_prev (l_unstable l)) ->
  log_term prev ents i = log_term sprev sents i.
Proof.
  intros Es Hi. destruct Hrep as [_ _ Hrun]. rewrite Es in Hrun. destruct Hrun as (-> & Hp & ->).
  pose proof (log_term_Some _ _ _ _ Hp) as Hpr.
  set (k := Z.to_nat (id_index (u_prev (l_unstable l)) - id_index sprev)).
  assert (len (take k sents) = id_index (u_prev (l_unstable l)) - id_index sprev)
    by (unfold len in *; rewrite length_take; lia).
  rewrite log_term_app_l by lia. rewrite <- (take_drop k sents) at 2. by rewrite log_term_app_l by lia.
Qed.

(** A truncating append of the unstable log truncates and appends to the run. *)
Lemma rep_truncate a u' : truncated (l_unstable l) a u' -> unstable_inv u' ->
  log_term prev ents (id_index (ls_prev a)) = Some (id_term (ls_prev a)) ->
  (forall s, u_snapshot (l_unstable l) = Some s -> s_Index s <= id_index (ls_prev a)) ->
  raftLog_rep Size (l <| l_unstable := u' |>) sprev sents prev
    (take (Z.to_nat (id_index (ls_prev a) - id_index prev)) ents ++ ls_entries a).
Proof.
  intros (Es & Et & Htr) Hinv Hm Hs. constructor; [apply Hrep|done|]. cbn [l_unstable set_field]. rewrite Es.
  pose proof (log_term_Some _ _ _ _ Hm) as Hmr.
  pose proof (rep_run _ _ _ _ _ _ Hrep) as Hrun. pose proof (rep_stored_term (id_index (ls_prev a))) as Hst.
  pose proof (rep_term_unstable _ _ _ _ _ _ Hrep (id_index (ls_prev a))) as Hun.
  destruct (u_snapshot (l_unstable l)) as [s|] eqn:Esn.
  - destruct Hrun as [-> ->]. specialize (Hs s eq_refl).
    pose proof (inv_snapshot _ (rep_unstable _ _ _ _ _ _ Hrep) s Esn) as Hps.
    destruct (_ <=? 0) eqn:E; bool_to_prop; destruct Htr as [-> ->]; [|done].
    replace (Z.to_nat _) with 0%nat by lia. split; [|done].
    rewrite Hps in *. simpl in *. assert (Hi : id_index (ls_prev a) = s_Index s) by lia.
    apply entryID_eq; [|done]. simpl. rewrite Hi in Hm. unfold log_term in Hm. simpl in Hm.
    rewrite Z.eqb_refl in Hm. congruence.
  - destruct Hrun as (-> & Hp & ->). pose proof (log_term_Some _ _ _ _ Hp) as Hpr.
    destruct (_ <=? 0) eqn:E; bool_to_prop; destruct Htr as [-> ->].
    + split_and!; [done|rewrite <- Hst by (done || lia); done|]. f_equal.
      rewrite take_app_le by (unfold len in *; rewrite length_take; lia).
      rewrite take_take. f_equal. lia.
    + split_and!; try done. rewrite app_assoc. f_equal.
      rewrite take_app_ge by (unfold len in *; rewrite length_take; lia). f_equal. f_equal.
      unfold len in *. rewrite length_take. lia.
Qed.

Context (a : logSlice) (Ha : logSlice_wf a) (Hb : log_bounded (ls_prev a) (ls_entries a)).

Lemma rep_match : raftLog_match l a =
  Ret (if decide (log_term prev ents (id_index (ls_prev a)) = Some (id_term (ls_prev a)))
       then Some (id_index (ls_prev a) + Z.of_nat (match_len prev ents (ls_entries a))) else None).
Proof.
  unfold raftLog_match. destruct Hb as [Hb1 Hb2]. pose proof (len_nonneg (ls_entries a)).
  rewrite (rep_matchTerm _ _ _ _ _ _ Hrep) by lia. simpl. case_decide as E.
  - rewrite bool_decide_eq_true_2 by done. simpl. apply logSlice_wf_iff in Ha as [Hl _].
    by rewrite rep_match_loop.
  - by rewrite bool_decide_eq_false_2.
Qed.
End append.

(** The result of [maybeAppend]: [m] is the last index at which the slice and the
    log agree. *)
Inductive append_result (l : raftLog) (prev : entryID) (ents : list Entry) (a : logSlice) :
    outcome (raftLog * bool) -> list Entry -> Prop :=
| append_mismatch :
    log_term prev ents (id_index (ls_prev a)) <> Some (id_term (ls_prev a)) ->
    append_result l prev ents a (Ret (l, false)) ents
| append_noop :
    log_term prev ents (id_index (ls_prev a)) = Some (id_term (ls_prev a)) ->
    (forall e, e ∈ ls_entries a -> log_term prev ents (e_Index e) = Some (e_Term e)) ->
    append_result l prev ents a (Ret (l, true)) ents
| append_committed_conflict e msg :
    e ∈ ls_entries a -> e_Index e <= l_committed l -> log_term prev ents (e_Index e) <> Some (e_Term e) ->
    append_result l prev ents a (Panic msg) ents
| append_refused :
    ls_term a <= raftLog_accTerm l ->
    append_result l prev ents a (Ret (l, false)) ents
| append_done u' k :
    let m := id_index (ls_prev a) + Z.of_nat k in
    (k < length (ls_entries a))%nat -> l_committed l <= m <= id_index prev + len ents ->
    raftLog_accTerm l <= ls_term a -> u_term u' = ls_term a -> u_snapshot u' = u_snapshot (l_unstable l) ->
    (forall i, id_index (ls_prev a) <= i <= m ->
      log_term prev ents i = log_term (ls_prev a) (ls_entries a) i) ->
    append_result l prev ents a (Ret (l <| l_unstable := u' |>, true))
      (take (Z.to_nat (m - id_index prev)) ents ++ drop k (ls_entries a)).

Lemma set_unstable_id l : l <| l_unstable := l_unstable l |> = l.
Proof. by destruct l. Qed.

Lemma slice_get_0 {A} (x : A) (l : list A) : slice_get (x :: l) 0 = Ret x.
Proof. done. Qed.

(** Where the slice matches the run, their terms agree. *)
Lemma match_terms prev ents p entries i : log_from p entries ->
  log_term prev ents (id_index p) = Some (id_term p) ->
  id_index p <= i <= id_index p + Z.of_nat (match_len prev ents entries) ->
  log_term prev ents i = log_term p entries i.
Proof.
  intros Hl Hp Hi. pose proof (match_len_le prev ents entries).
  destruct (decide (i = id_index p)) as [->|Hne].
  - rewrite Hp. unfold log_term. by rewrite Z.eqb_refl.
  - destruct (lookup_lt_is_Some_2 entries (Z.to_nat (i - id_index p - 1))) as [e He]; [lia|].
    destruct (match_len_spec prev ents entries _ e He) as [Hm _].
    destruct (log_from_lookup p entries _ e Hl He) as [Hx _].
    unfold log_term at 2. rewrite (proj2 (Z.eqb_neq _ _)), (proj2 (Z.ltb_ge _ _)) by lia.
    rewrite He. simpl. rewrite <- Hm by lia. f_equal. lia.
Qed.

(** The point at which a slice is appended agrees with the unstable entries and is
    not below a pending snapshot. *)
Lemma rep_append_point Size l sprev sents prev ents :
  raftLog_rep Size l sprev sents prev ents -> forall q,
  log_term prev ents (id_index q) = Some (id_term q) ->
  (forall t, log_term (u_prev (l_unstable l)) (u_entries (l_unstable l)) (id_index q) = Some t -> t = id_term q) /\
  (forall s, u_snapshot (l_unstable l) = Some s -> s_Index s <= id_index q).
Proof.
  intros Hrep q Hq. split.
  - intros t Ht. pose proof (log_term_Some _ _ _ _ Ht).
    rewrite <- (rep_term_unstable _ _ _ _ _ _ Hrep) in Ht by lia. congruence.
  - intros s Es. pose proof (inv_snapshot _ (rep_unstable _ _ _ _ _ _ Hrep) s Es) as Hps.
    pose proof (rep_run _ _ _ _ _ _ Hrep) as Hrun. rewrite Es in Hrun. destruct Hrun as [Hpp _].
    apply log_term_Some in Hq. rewrite Hps in Hpp. subst prev. simpl in *. lia.
Qed.

Lemma rep_maybeAppend Size l sprev sents prev ents a :
  raftLog_rep Size l sprev sents prev ents -> id_index prev <= l_committed l ->
  logSlice_wf a -> log_bounded (ls_prev a) (ls_entries a) ->
  exists ents', append_result l prev ents a (raftLog_maybeAppend l a) ents' /\
    match raftLog_maybeAppend l a with
    | Ret (l', _) => raftLog_rep Size l' sprev sents prev ents'
    | Panic _ => True
    end.
Proof.
  intros Hrep Hc Ha Hb. unfold raftLog_maybeAppend. rewrite (rep_match _ _ _ _ _ _ Hrep a Ha Hb). simpl.
  case_decide as Hm; [|exists ents; split; [by constructor|done]].
  pose proof (match_len_le prev ents (ls_entries a)) as Hk. set (k := match_len prev ents (ls_entries a)) in *.
  pose proof Ha as Ha'. apply logSlice_wf_iff in Ha' as [Hl Hlt].
  rewrite (logSlice_forward_eq a Hl Hb) by (unfold len; lia).
  replace (Z.to_nat (_ + _ - _)) with k by lia. cbn [obind ls_entries].
  pose proof (match_len_last prev ents (ls_prev a) (ls_entries a) Hl Hm) as Hq. fold k in Hq. cbn zeta in Hq.
  set (q := last_id (ls_prev a) (take k (ls_entries a))) in *.
  destruct (last_id_take (ls_prev a) (ls_entries a) k Hl Hk) as [Htq Hqi]. fold q in Htq, Hqi.
  destruct (log_from_take_drop (ls_prev a) (ls_entries a) k Hl) as [_ Hd]. fold q in Hd.
  destruct (drop k (ls_entries a)) as [|e0 rest] eqn:Edrop.
  { exists ents. split; [|done]. apply append_noop; [done|]. intros e He.
    apply list_elem_of_lookup in He as [i Hi]. apply (match_len_spec prev ents _ i e Hi). fold k.
    apply (f_equal length) in Edrop. rewrite length_drop in Edrop. apply lookup_lt_Some in Hi. simpl in Edrop. lia. }
  rewrite len_cons, (proj2 (Z.eqb_neq _ _)) by (pose proof (len_nonneg rest); lia).
  rewrite slice_get_0. cbn [obind].
  assert (He0 : ls_entries a !! k = Some e0) by (rewrite <- (Nat.add_0_r k), <- lookup_drop, Edrop; done).
  pose proof (lookup_lt_Some _ _ _ He0) as Hklt. destruct Hd as (Hi0 & Ht0 & Hd).
  destruct (_ <=? l_committed l) eqn:Ec; bool_to_prop.
  { exists ents. split; [|done]. apply (append_committed_conflict _ _ _ _ e0); [|done|].
    - by apply list_elem_of_lookup_2 in He0.
    - apply (match_len_spec prev ents _ k e0 He0). done. }
  set (a' := mkLogSlice (ls_term a) q (e0 :: rest)).
  assert (Ha' : logSlice_wf a').
  { apply logSlice_wf_iff. simpl. split; [done|].
    change (id_term (last_id q (e0 :: rest)) <= ls_term a). unfold q. by rewrite <- Edrop, <- last_id_app, take_drop. }
  pose proof (log_term_Some _ _ _ _ Hq) as Hqr. pose proof (rep_bounds _ _ _ _ _ _ Hrep) as Hbd.
  assert (Hb' : log_bounded (ls_prev a') (ls_entries a')).
  { destruct Hb as [Hb1 Hb2]. split; simpl; [lia|]. rewrite <- Edrop. unfold len in *. rewrite length_drop. lia. }
  destruct (rep_append_point _ _ _ _ _ _ Hrep q Hq) as [Hmu Hs].
  destruct (truncateAndAppend_spec _ _ (rep_unstable _ _ _ _ _ _ Hrep) Ha' Hb' Hmu Hs) as (u' & ok & -> & Hinv & Hu & Hok).
  cbn [obind]. destruct ok.
  - exists (take (Z.to_nat (id_index q - id_index prev)) ents ++ e0 :: rest). split; [|by apply (rep_truncate _ _ _ _ _ _ Hrep a')].
    rewrite <- Edrop, Hqi. destruct (proj1 Hok eq_refl) as (H1 & H2 & H3). destruct Hu as (Esn & Et & _).
    apply append_done; try done; [lia|].
    intros i Hi. by apply match_terms.
  - subst u'. rewrite set_unstable_id. exists ents. split; [|done]. apply append_refused. unfold raftLog_accTerm.
    destruct (decide (ls_term a <= u_term (l_unstable l))); [done|]. 
    assert (false = true); [|done]. apply Hok. simpl. pose proof (rep_len _ _ _ _ _ _ Hrep). lia.
Qed.

(** The run after a truncating append: the old terms up to [m], those of the slice
    from [a.prev] on. *)
Lemma append_done_terms prev ents p entries k :
  log_from prev ents -> log_from p entries -> (k <= length entries)%nat ->
  let m := id_index p + Z.of_nat k in
  id_index prev <= m <= id_index prev + len ents ->
  (forall i, id_index p <= i <= m -> log_term prev ents i = log_term p entries i) ->
  let ents' := take (Z.to_nat (m - id_index prev)) ents ++ drop k entries in
  (forall i, i <= m -> log_term prev ents' i = log_term prev ents i) /\
  (forall i, id_index p <= i -> log_term prev ents' i = log_term p entries i).
Proof.
  intros Hl Hp Hk m Hm Hmatch ents'.
  set (n := Z.to_nat (m - id_index prev)) in *.
  assert (Hlen : len (take n ents) = m - id_index prev) by (unfold len in *; rewrite length_take; lia).
  destruct (log_from_take_drop prev ents n Hl) as [Ht _].
  assert (H1 : forall i, i <= m -> log_term prev ents' i = log_term prev ents i).
  { intros i Hi. unfold ents'. rewrite log_term_app_l by lia.
    rewrite <- (take_drop n ents) at 2. by rewrite log_term_app_l by lia. }
  split; [done|]. intros i Hi. destruct (decide (i <= m)).
  - rewrite H1 by done. by apply Hmatch.
  - unfold ents'. rewrite log_term_app_r by (done || lia).
    destruct (last_id_take prev ents n Hl) as [Ht1 Hx1]; [unfold len in *; lia|].
    destruct (last_id_take p entries k Hp Hk) as [Ht2 Hx2].
    assert (E : last_id prev (take n ents) = last_id p (take k entries)).
    { apply entryID_eq; [|lia]. fold m in Ht2. replace (id_index prev + Z.of_nat n) with m in Ht1 by lia.
      rewrite Hmatch in Ht1 by lia. congruence. }
    rewrite E. rewrite <- (take_drop k entries) at 3. rewrite log_term_app_r; [done| |].
    + by apply log_from_take_drop.
    + unfold len. rewrite length_take. lia.
Qed.

Lemma log_from_term prev ents e : log_from prev ents -> e ∈ ents -> log_term prev ents (e_Index e) = Some (e_Term e).
Proof.
  intros Hl He. apply list_elem_of_lookup in He as [i Hi]. destruct (log_from_lookup _ _ _ _ Hl Hi) as [Hx _].
  unfold log_term. rewrite (proj2 (Z.eqb_neq _ _)), (proj2 (Z.ltb_ge _ _)) by lia.
  replace (Z.to_nat _) with i by lia. by rewrite Hi.
Qed.

(** C16. [maybeAppend] makes the log consistent with the leader's slice or leaves it
    alone. If it succeeds, the log has the slice: the entry before it and every
    entry of it, with the leader's terms; nothing at or below the commit index
    changes, and the accepted term does not regress. If it declines, the log is
    unchanged, and either the entry before the slice does not match or the slice
    is from a leader term that is not newer than the last accepted one. It panics
    only when the slice contradicts a committed entry. *)
Theorem raftLog_maybeAppend_spec (Size : Entry -> Z) (l : raftLog) (prev : entryID) (ents : list Entry)
    (a : logSlice) :
  raftLog_abs Size l prev ents -> id_index prev <= l_committed l ->
  logSlice_wf a -> log_bounded (ls_prev a) (ls_entries a) ->
  match raftLog_maybeAppend l a with
  | Ret (l', true) => exists ents', raftLog_abs Size l' prev ents' /\
      log_term prev ents' (id_index (ls_prev a)) = Some (id_term (ls_prev a)) /\
      (forall e, e ∈ ls_entries a -> log_term prev ents' (e_Index e) = Some (e_Term e)) /\
      (forall i, i <= l_committed l -> log_term prev ents' i = log_term prev ents i) /\
      l_committed l' = l_committed l /\ raftLog_accTerm l <= raftLog_accTerm l'
  | Ret (l', false) => l' = l /\
      (log_term prev ents (id_index (ls_prev a)) <> Some (id_term (ls_prev a)) \/
       ls_term a <= raftLog_accTerm l)
  | Panic _ => exists e, e ∈ ls_entries a /\ e_Index e <= l_committed l /\
      log_term prev ents (e_Index e) <> Some (e_Term e)
  end.
Proof.
  intros (sprev & sents & Hrep) Hc Ha Hb.
  destruct (rep_maybeAppend Size l sprev sents prev ents a Hrep Hc Ha Hb) as (ents' & Hres & Hrep').
  destruct Hres as [Hm|Hm Hall|e msg He Hce Hne|Ht|u' k m Hk Hcm Hacc Hu _ Hmatch].
  - by split; [|left].
  - exists ents. split_and!; try done. by exists sprev, sents.
  - by exists e.
  - by split; [|right].
  - apply logSlice_wf_iff in Ha as [Hl _].
    destruct (append_done_terms prev ents (ls_prev a) (ls_entries a) k (rep_log _ _ _ _ _ _ Hrep) Hl
      ltac:(lia) ltac:(fold m; lia) Hmatch) as [H1 H2]. fold m in H1, H2.
    eexists. split; [by exists sprev, sents|]. split_and!.
    + rewrite H2 by lia. unfold log_term. by rewrite Z.eqb_refl.
    + intros e He. pose proof (log_from_term _ _ _ Hl He) as Ht. rewrite H2; [done|].
      apply log_term_Some in Ht. lia.
    + intros i Hi. apply H1. lia.
    + done.
    + unfold raftLog_accTerm in *. simpl. lia.
Qed.

(** A log with two entries in storage, the second superseded by two unstable ones. *)
Definition example_log : raftLog := {|
  l_storage := MemoryStorage_Storage (fun _ => 8) example_storage;
  l_unstable := mkUnstable None (mkLogSlice 4 (mkEntryID 2 11)
    [mkEntry 4 12 EntryNormal []; mkEntry 4 13 EntryNormal []]) false 11;
  l_committed := 11; l_applying := 10; l_applied := 10;
  l_maxApplyingEntsSize := 100; l_applyingEntsSize := 0; l_applyingEntsPaused := false
|}.

Definition example_ents : list Entry :=
  [mkEntry 2 11 EntryNormal []; mkEntry 4 12 EntryNormal []; mkEntry 4 13 EntryNormal []].

Lemma example_storage_log :
  ms_log example_storage (mkEntryID 2 10) [mkEntry 2 11 EntryNormal []; mkEntry 3 12 EntryNormal []].
Proof. eexists. split; [reflexivity|]. simpl. split_and!; try done; lia. Qed.

Lemma example_log_rep : raftLog_rep (fun _ => 8) example_log (mkEntryID 2 10)
  [mkEntry 2 11 EntryNormal []; mkEntry 3 12 EntryNormal []] (mkEntryID 2 10) example_ents.
Proof.
  pose proof example_storage_log as Hms. destruct (ms_run _ _ _ Hms). constructor.
  - constructor; simpl; try done; eauto using ms_Term_eq, ms_Entries_eq.
  - apply unstable_inv_mk; simpl; try done; lia.
  - done.
Qed.

Lemma raftLog_maybeAppend_spec_witness :
  match raftLog_maybeAppend example_log (mkLogSlice 6 (mkEntryID 2 11)
      [mkEntry 4 12 EntryNormal []; mkEntry 6 13 EntryNormal []]) with
  | Ret (l', true) => exists ents', raftLog_abs (fun _ => 8) l' (mkEntryID 2 10) ents' /\
      log_term (mkEntryID 2 10) ents' 13 = Some 6
  | _ => False
  end.
Proof.
  assert (H := raftLog_maybeAppend_spec (fun _ => 8) example_log (mkEntryID 2 10) example_ents
    (mkLogSlice 6 (mkEntryID 2 11) [mkEntry 4 12 EntryNormal []; mkEntry 6 13 EntryNormal []])).
  assert (Hok : match raftLog_maybeAppend example_log (mkLogSlice 6 (mkEntryID 2 11)
      [mkEntry 4 12 EntryNormal []; mkEntry 6 13 EntryNormal []]) with
    | Ret (_, ok) => ok | Panic _ => false end = true) by (vm_compute; reflexivity).
  destruct (raftLog_maybeAppend example_log _) as [[l' [|]]|]; [|discriminate Hok|discriminate Hok].
  destruct H as (ents' & Habs & _ & Hall & _).
  - exists (mkEntryID 2 10), [mkEntry 2 11 EntryNormal []; mkEntry 3 12 EntryNormal []]. apply example_log_rep.
  - simpl. lia.
  - apply logSlice_wf_iff. simpl. lia.
  - split; done.
  - exists ents'. split; [exact Habs|]. apply (Hall (mkEntry 6 13 EntryNormal [])). simpl. right. left.
Defined.

(** The log reads as one sequence. Whatever part of it is in storage, in the
    unstable suffix or superseded by a snapshot, the index bounds, the last entry
    and the term at every index are those of the run of entries the log stands
    for; an index below the run is compacted, one above it is unavailable. *)
Theorem raftLog_lookup_spec (Size : Entry -> Z) (l : raftLog) (prev : entryID) (ents : list Entry) :
  raftLog_abs Size l prev ents ->
  raftLog_firstIndex l = Ret (id_index prev + 1) /\
  raftLog_lastIndex l = id_index prev + len ents /\
  raftLog_lastEntryID l = Ret (last_id prev ents) /\
  (forall i, 0 <= i < MaxUint64 -> raftLog_term l i = Ret
    (if i <? id_index prev then inl ErrCompacted
     else match log_term prev ents i with Some t => inr t | None => inl ErrUnavailable end)) /\
  (forall id, raftLog_isUpToDate l id = Ret
    ((id_term id >? id_term (last_id prev ents)) ||
     (id_term id =? id_term (last_id prev ents)) && (id_index id >=? id_index prev + len ents))).
Proof.
  intros (sprev & sents & Hrep). split_and!.
  - by apply (rep_firstIndex _ _ _ _ _ _ Hrep).
  - by apply (rep_lastIndex _ _ _ _ _ _ Hrep).
  - by apply (rep_lastEntryID _ _ _ _ _ _ Hrep).
  - intros i Hi. by apply (rep_term _ _ _ _ _ _ Hrep).
  - intros id. unfold raftLog_isUpToDate. rewrite (rep_lastEntryID _ _ _ _ _ _ Hrep). simpl.
    by rewrite last_id_index by apply (rep_log _ _ _ _ _ _ Hrep).
Qed.

Lemma raftLog_lookup_spec_witness :
  raftLog_term example_log 12 = Ret (inr 4) /\ raftLog_lastEntryID example_log = Ret (mkEntryID 4 13).
Proof.
  destruct (raftLog_lookup_spec (fun _ => 8) example_log (mkEntryID 2 10) example_ents) as (_ & _ & Hl & Ht & _).
  - exists (mkEntryID 2 10), [mkEntry 2 11 EntryNormal []; mkEntry 3 12 EntryNormal []]. apply example_log_rep.
  - split; [rewrite Ht by done; reflexivity|exact Hl].
Defined.

(** Range reads return the requested entries, cut to the size limit. For a
    range within the log, the entries assembled from storage and from the
    unstable suffix are exactly the entries of the range, cut to the longest
    non-empty prefix whose total size is within the limit, as if the log were one
    slice. Entry sizes are positive and the total fits in 64 bits. *)
Theorem raftLog_slice_spec (Size : Entry -> Z) (l : raftLog) (prev : entryID) (ents : list Entry)
    (lo hi maxSize : Z) :
  (forall e, 0 < Size e) -> raftLog_abs Size l prev ents -> sum_size Size ents < u64_modulus ->
  is_u64 maxSize -> 0 <= lo <= hi -> hi <= id_index prev + len ents + 1 ->
  raftLog_slice Size l lo hi maxSize = Ret
    (if lo <=? id_index prev then inl ErrCompacted
     else inr (limitSize Size (log_range prev ents lo hi) maxSize)).
Proof.
  intros HS (sprev & sents & Hrep) Hsum Hmax Hlo Hhi. destruct (lo <=? id_index prev) eqn:E; bool_to_prop.
  - unfold raftLog_slice. rewrite (rep_mustCheckOutOfBounds Size l sprev sents prev ents Hrep) by lia. simpl.
    by rewrite (proj2 (Z.leb_le _ _)) by lia.
  - apply (rep_slice Size HS l sprev sents prev ents Hrep); done || lia.
Qed.

Lemma raftLog_slice_spec_witness :
  raftLog_slice (fun _ => 8) example_log 11 14 20 =
    Ret (inr [mkEntry 2 11 EntryNormal []; mkEntry 4 12 EntryNormal []]).
Proof.
  rewrite (raftLog_slice_spec (fun _ => 8) example_log (mkEntryID 2 10) example_ents 11 14 20);
    [reflexivity|lia| |done|done|done|done].
  exists (mkEntryID 2 10), [mkEntry 2 11 EntryNormal []; mkEntry 3 12 EntryNormal []]. apply example_log_rep.
Defined.
