(* ===== verification/LogApply.v ===== *)
(** * Scanning, committing, applying and persisting the raft log

    Theorems about the operations of [raftLog] that walk the log
    ([findConflictByTerm], [scan]), that move its commit and apply indexes, and
    about the cycle in which the application persists the unstable suffix. *)

From S2P Require Import Prelude Hlc Quorum RaftPb LogTypes Unstable Storage RaftLog.

(** ** Searching for a conflict *)

Lemma findConflict_loop_spec Size l sprev sents prev ents term fuel index :
  raftLog_rep Size l sprev sents prev ents -> 0 <= index < MaxUint64 -> index < Z.of_nat fuel ->
  exists g gt, findConflict_loop l term fuel index = Ret (g, gt) /\ 0 <= g <= index /\
    (forall j, g < j <= index -> exists t, log_term prev ents j = Some t /\ term < t) /\
    (g = 0 /\ gt = 0 \/ 0 < g /\ log_term prev ents g = Some gt /\ gt <= term \/
     0 < g /\ log_term prev ents g = None /\ gt = 0).
Proof.
  intros Hrep. revert index. induction fuel as [|fuel IH]; intros index Hi Hf; [lia|]. simpl.
  destruct (index >? 0) eqn:E; bool_to_prop.
  - rewrite (rep_term _ _ _ _ _ _ Hrep) by done. simpl. unfold term_result.
    destruct (log_term prev ents index) as [t|] eqn:Et.
    + pose proof (log_term_Some _ _ _ _ Et). rewrite (proj2 (Z.ltb_ge _ _)) by lia.
      destruct (t <=? term) eqn:Ele; bool_to_prop.
      * exists index, t. split_and!; try done; try lia. right; left. by (split_and!; [lia| |]).
      * rewrite u64_small by (unfold is_u64, MaxUint64, u64_modulus in *; lia).
        destruct (IH (index - 1)) as (g & gt & -> & Hg & Hall & Hcase); [lia..|].
        exists g, gt. split_and!; try done; try lia.
        intros j Hj. destruct (decide (j = index)) as [->|]; [eauto|]. apply Hall. lia.
    + exists index, 0. destruct (_ <? _); (split_and!; [done|lia..|right; right; by (split_and!; [lia| |])]).
  - assert (index = 0) as -> by lia. exists 0, 0. split_and!; try done; lia.
Qed.

(** [findConflictByTerm] terminates and returns the best guess its comment
    describes: the largest index at or below the given one whose term is unknown
    or does not exceed the given term; every index above it, up to the given one,
    is known to have a larger term. The second result is the term at that index,
    or zero if it is unknown. *)
Theorem raftLog_findConflictByTerm_spec (Size : Entry -> Z) (l : raftLog) (prev : entryID) (ents : list Entry)
    (index term : Z) :
  raftLog_abs Size l prev ents -> 0 <= index < MaxUint64 ->
  exists g gt, raftLog_findConflictByTerm l index term = Ret (g, gt) /\ 0 <= g <= index /\
    (forall j, g < j <= index -> exists t, log_term prev ents j = Some t /\ term < t) /\
    (g = 0 /\ gt = 0 \/ 0 < g /\ log_term prev ents g = Some gt /\ gt <= term \/
     0 < g /\ log_term prev ents g = None /\ gt = 0).
Proof.
  intros (sprev & sents & Hrep) Hi. eapply findConflict_loop_spec; eauto. lia.
Qed.

Lemma raftLog_findConflictByTerm_spec_witness :
  exists g gt, raftLog_findConflictByTerm example_log 13 3 = Ret (g, gt) /\ 0 <= g <= 13 /\
    (forall j, g < j <= 13 -> exists t, log_term (mkEntryID 2 10) example_ents j = Some t /\ 3 < t).
Proof.
  destruct (raftLog_findConflictByTerm_spec (fun _ => 8) example_log (mkEntryID 2 10) example_ents 13 3)
    as (g & gt & E & Hg & Hall & _); [|done|by exists g, gt].
  exists (mkEntryID 2 10), [mkEntry 2 11 EntryNormal []; mkEntry 3 12 EntryNormal []]. apply example_log_rep.
Defined.

(** ** Scanning *)

(** Calling the callback of [scan] on a sequence of pages. *)
Fixpoint visit {A} (v : A -> list Entry -> outcome (A * option error)) (pages : list (list Entry)) (a : A) :
    outcome (A * option error) :=
  match pages with
  | [] => Ret (a, None)
  | page :: pages =>
    let! '(a, err) := v a page in
    match err with
    | Some err => Ret (a, Some err)
    | None => visit v pages a
    end
  end.

(** A page is non-empty and within the limit, unless it is a single entry. *)
Definition page_ok (Size : Entry -> Z) (pageSize : Z) (page : list Entry) : Prop :=
  page <> [] /\ (length page = 1%nat \/ sum_size Size page <= pageSize).

Lemma log_range_split prev ents lo hi k : id_index prev < lo -> 0 <= k <= hi - lo ->
  log_range prev ents lo hi =
  take (Z.to_nat k) (log_range prev ents lo hi) ++ log_range prev ents (lo + k) hi.
Proof.
  intros Hlo Hk. unfold log_range. rewrite take_take, Nat.min_l by lia.
  rewrite <- (take_drop (Z.to_nat k) (take (Z.to_nat (hi - lo)) _)) at 1.
  rewrite take_take, Nat.min_l by lia. f_equal. rewrite skipn_firstn_comm, drop_drop. f_equal; [lia|].
  f_equal. lia.
Qed.

Lemma scan_loop_spec Size (HSize : forall e, 0 < Size e) l sprev sents prev ents pageSize hi fuel lo :
  raftLog_rep Size l sprev sents prev ents -> sum_size Size ents < u64_modulus -> is_u64 pageSize ->
  id_index prev < lo -> lo <= hi <= id_index prev + len ents + 1 -> hi - lo < Z.of_nat fuel ->
  exists pages, concat pages = log_range prev ents lo hi /\ Forall (page_ok Size pageSize) pages /\
    forall (A : Type) (v : A -> list Entry -> outcome (A * option error)) a,
      scan_loop Size l v pageSize hi fuel lo a = visit v pages a.
Proof.
  intros Hrep Hsum Hps. revert lo. induction fuel as [|fuel IH]; intros lo Hlo Hhi Hf; [lia|].
  pose proof (rep_bounds _ _ _ _ _ _ Hrep) as Hb. destruct (decide (lo = hi)) as [->|Hne].
  { exists []. split_and!; [|done|].
    - unfold log_range. by rewrite Z.sub_diag.
    - intros A v a. simpl. by rewrite Z.ltb_irrefl. }
  pose proof (log_range_length prev ents lo hi ltac:(lia) ltac:(lia)) as Hlen.
  assert (Hrne : log_range prev ents lo hi <> []) by (intros E; rewrite E in Hlen; simpl in Hlen; lia).
  pose proof (sum_size_range Size HSize prev ents lo hi) as Hsr.
  destruct (limitSize_spec Size HSize (log_range prev ents lo hi) pageSize Hrne ltac:(lia)) as (k & Hk & Ek).
  pose proof Hk as (Hk1 & Hk2 & _).
  destruct (IH (lo + Z.of_nat k)) as (pages & Hc & Hp & Hv); [lia..|].
  exists (take k (log_range prev ents lo hi) :: pages). split_and!.
  - simpl. rewrite Hc. rewrite (log_range_split prev ents lo hi (Z.of_nat k)) at 2 by lia. by rewrite Nat2Z.id.
  - constructor; [|done]. split.
    + intros E. apply (f_equal length) in E. rewrite length_take in E. simpl in E. lia.
    + destruct Hk2 as [->|Hk2]; [left|by right]. rewrite length_take. lia.
  - intros A v a. simpl. rewrite (proj2 (Z.ltb_lt _ _)) by lia.
    rewrite (rep_slice Size HSize l sprev sents prev ents Hrep) by (done || lia). simpl. rewrite Ek.
    assert (Hlk : len (take k (log_range prev ents lo hi)) = Z.of_nat k) by (unfold len; rewrite length_take; lia).
    rewrite Hlk, (proj2 (Z.eqb_neq _ _)) by lia.
    destruct (v a _) as [[a' [err|]]|]; simpl; try done.
    rewrite u64_small by (unfold is_u64, u64_modulus; lia). apply Hv.
Qed.

(** [scan] visits the range once, in order, in pages. For a range within the
    log there is a partition of its entries into consecutive non-empty pages,
    each within the page size or a single entry, such that for every callback
    [scan] terminates and has the effect of calling the callback on the pages in
    order until it fails. *)
Theorem raftLog_scan_spec (Size : Entry -> Z) (l : raftLog) (prev : entryID) (ents : list Entry) (lo hi pageSize : Z) :
  (forall e, 0 < Size e) -> raftLog_abs Size l prev ents -> sum_size Size ents < u64_modulus ->
  is_u64 pageSize -> id_index prev < lo -> lo <= hi <= id_index prev + len ents + 1 ->
  exists pages, concat pages = log_range prev ents lo hi /\ Forall (page_ok Size pageSize) pages /\
    forall (A : Type) (v : A -> list Entry -> outcome (A * option error)) (a : A),
      raftLog_scan Size l lo hi pageSize v a = visit v pages a.
Proof.
  intros HS (sprev & sents & Hrep) Hsum Hps Hlo Hhi.
  destruct (scan_loop_spec Size HS l sprev sents prev ents pageSize hi (S (Z.to_nat (hi - lo))) lo)
    as (pages & Hc & Hp & Hv); try done; try lia.
  by exists pages.
Qed.

Lemma raftLog_scan_spec_witness :
  exists pages, concat pages = example_ents /\ Forall (page_ok (fun _ => 8) 16) pages /\
    raftLog_scan (fun _ => 8) example_log 11 14 16 (fun a p => Ret (a ++ p, None)) [] =
    visit (fun a p => Ret (a ++ p, None)) pages [].
Proof.
  destruct (raftLog_scan_spec (fun _ => 8) example_log (mkEntryID 2 10) example_ents 11 14 16)
    as (pages & Hc & Hp & Hv); [lia| |done|done|done|done|].
  - exists (mkEntryID 2 10), [mkEntry 2 11 EntryNormal []; mkEntry 3 12 EntryNormal []]. apply example_log_rep.
  - exists pages. split; [exact Hc|]. split; [exact Hp|apply Hv].
Defined.

(** ** Committing and applying *)

(** The commit, applying and applied indexes are ordered and within the log, the
    storage has not been compacted past the applied index, and unless application
    is paused there is room for more outstanding bytes. *)
Record raftLog_inv (l : raftLog) (prev : entryID) (ents : list Entry) : Prop := {
  li_committed : id_index prev <= l_committed l <= id_index prev + len ents;
  li_applied : 0 <= l_applied l <= l_applying l;
  li_applying : l_applying l <= l_committed l;
  li_compacted : u_snapshot (l_unstable l) = None -> id_index prev <= l_applied l;
  li_size : is_u64 (l_applyingEntsSize l) /\ is_u64 (l_maxApplyingEntsSize l);
  li_room : l_applyingEntsPaused l = false -> l_applyingEntsSize l < l_maxApplyingEntsSize l
}.

(** Nothing is handed out for application: it is paused, a snapshot comes first, or
    everything that may be applied is being applied. *)
Definition apply_blocked (l : raftLog) (allowUnstable : bool) : bool :=
  l_applyingEntsPaused l || raftLog_hasNextOrInProgressSnapshot l ||
  (raftLog_maxAppliableIndex l allowUnstable <=? l_applying l).

Lemma nextCommittedEnts_eq (Size : Entry -> Z) (l : raftLog) (prev : entryID) (ents : list Entry)
    (allowUnstable : bool) :
  (forall e, 0 < Size e) -> raftLog_abs Size l prev ents -> raftLog_inv l prev ents ->
  sum_size Size ents < u64_modulus ->
  exists es, raftLog_nextCommittedEnts Size l allowUnstable = Ret es /\
    raftLog_hasNextCommittedEnts l allowUnstable = negb (apply_blocked l allowUnstable) /\
    (if apply_blocked l allowUnstable then es = []
     else es <> [] /\ es = limitSize Size
       (log_range prev ents (l_applying l + 1) (raftLog_maxAppliableIndex l allowUnstable + 1))
       (l_maxApplyingEntsSize l - l_applyingEntsSize l)) /\
    (forall i e, es !! i = Some e ->
      e_Index e = l_applying l + 1 + Z.of_nat i /\ e_Index e <= l_committed l).
Proof.
  intros HS (sprev & sents & Hrep) [Hc Ha1 Ha2 Hcmp [Hsz1 Hsz2] Hroom] Hsum.
  unfold raftLog_nextCommittedEnts, raftLog_hasNextCommittedEnts, apply_blocked.
  destruct (l_applyingEntsPaused l); [by exists []|].
  destruct (raftLog_hasNextOrInProgressSnapshot l) eqn:Es; [by exists []|]. simpl.
  unfold raftLog_hasNextOrInProgressSnapshot in Es. bool_to_prop. specialize (Hcmp Es). specialize (Hroom eq_refl).
  pose proof (rep_bounds _ _ _ _ _ _ Hrep) as Hb.
  set (hi := raftLog_maxAppliableIndex l allowUnstable).
  assert (Hhi : 0 <= hi <= l_committed l).
  { unfold hi, raftLog_maxAppliableIndex. destruct (rep_split _ _ _ _ _ _ Hrep) as [Hle _].
    destruct allowUnstable; simpl; lia. }
  rewrite (u64_small (l_applying l + 1)), (u64_small (hi + 1)) by (unfold is_u64, u64_modulus; lia).
  replace (l_applying l + 1 <? hi + 1) with (negb (hi <=? l_applying l)) by (destruct (hi <=? _) eqn:E; blia).
  destruct (hi <=? l_applying l) eqn:Eh; bool_to_prop.
  { exists []. rewrite Z.geb_leb, (proj2 (Z.leb_le _ _)) by lia. done. }
  rewrite Z.geb_leb, (proj2 (Z.leb_gt _ _)) by lia.
  rewrite (u64_small (_ - _)) by (unfold is_u64, u64_modulus in *; lia).
  rewrite (proj2 (Z.leb_gt _ _)) by lia. unfold must.
  rewrite (rep_slice Size HS l sprev sents prev ents Hrep) by (unfold is_u64, u64_modulus in *; done || lia). simpl.
  set (R := log_range prev ents (l_applying l + 1) (hi + 1)).
  assert (HlR : length R = Z.to_nat (hi - l_applying l)) by (unfold R; rewrite log_range_length; lia).
  assert (HRne : R <> []) by (intros E; rewrite E in HlR; simpl in HlR; lia).
  pose proof (sum_size_range Size HS prev ents (l_applying l + 1) (hi + 1)) as Hsr. fold R in Hsr.
  destruct (limitSize_spec Size HS R (l_maxApplyingEntsSize l - l_applyingEntsSize l) HRne ltac:(lia)) as (k & (Hk & _) & Ek).
  eexists. split; [reflexivity|]. split; [done|]. split; [split; [|done]|].
  - rewrite Ek. intros E. apply (f_equal length) in E. rewrite length_take in E. simpl in E. lia.
  - intros i e He. rewrite Ek in He. apply lookup_take_Some in He as [He Hik].
    unfold R, log_range in He. apply lookup_take_Some in He as [He Hlt]. rewrite lookup_drop in He.
    destruct (log_from_lookup _ _ _ _ (rep_log _ _ _ _ _ _ Hrep) He) as [Hx _]. lia.
Qed.

(** [nextCommittedEnts] hands out each committed entry once, in order. Unless
    application is blocked, it returns the entries from the one after the applying
    index on, up to the last one that may be applied, cut to the bytes that are
    left, at least one; it never panics, and [hasNextCommittedEnts] tells whether
    there are any. *)
Theorem raftLog_nextCommittedEnts_spec (Size : Entry -> Z) (l : raftLog) (prev : entryID) (ents : list Entry)
    (allowUnstable : bool) :
  (forall e, 0 < Size e) -> raftLog_abs Size l prev ents -> raftLog_inv l prev ents ->
  sum_size Size ents < u64_modulus ->
  exists es, raftLog_nextCommittedEnts Size l allowUnstable = Ret es /\
    raftLog_hasNextCommittedEnts l allowUnstable = negb (apply_blocked l allowUnstable) /\
    (if apply_blocked l allowUnstable then es = []
     else es <> [] /\ es = limitSize Size
       (log_range prev ents (l_applying l + 1) (raftLog_maxAppliableIndex l allowUnstable + 1))
       (l_maxApplyingEntsSize l - l_applyingEntsSize l)) /\
    (forall i e, es !! i = Some e ->
      e_Index e = l_applying l + 1 + Z.of_nat i /\ e_Index e <= l_committed l).
Proof. intros. by apply nextCommittedEnts_eq. Qed.

Lemma example_log_inv : raftLog_inv example_log (mkEntryID 2 10) example_ents.
Proof. by constructor. Qed.

Lemma raftLog_nextCommittedEnts_spec_witness :
  exists es, raftLog_nextCommittedEnts (fun _ => 8) example_log true = Ret es /\ es = [mkEntry 2 11 EntryNormal []].
Proof.
  destruct (raftLog_nextCommittedEnts_spec (fun _ => 8) example_log (mkEntryID 2 10) example_ents true)
    as (es & E & _ & (_ & Hes) & _); [lia| |apply example_log_inv|done|].
  - exists (mkEntryID 2 10), [mkEntry 2 11 EntryNormal []; mkEntry 3 12 EntryNormal []]. apply example_log_rep.
  - exists es. split; [exact E|]. rewrite Hes. reflexivity.
Defined.

Lemma rep_append Size l sprev sents prev ents a l' ok :
  raftLog_rep Size l sprev sents prev ents -> logSlice_wf a -> log_bounded (ls_prev a) (ls_entries a) ->
  raftLog_append l a = Ret (l', ok) ->
  if ok then raftLog_rep Size l' sprev sents prev (ents ++ ls_entries a) /\
    l' = l <| l_unstable := append_entries (l_unstable l) a |> /\ ls_prev a = last_id prev ents /\
    raftLog_accTerm l <= ls_term a
  else l' = l.
Proof.
  intros Hrep Ha Hb. unfold raftLog_append.
  destruct (unstable_append_spec (l_unstable l) a (rep_unstable _ _ _ _ _ _ Hrep) Ha Hb) as (u' & ok' & -> & Hinv & Hu & Hok).
  simpl. intros [= <- <-]. destruct ok'; [|subst u'; apply set_unstable_id]. subst u'.
  destruct (proj1 Hok eq_refl) as [Ht Hp]. rewrite <- (rep_last_id _ _ _ _ _ _ Hrep) in Hp.
  pose proof (rep_log _ _ _ _ _ _ Hrep) as Hl. split_and!; try done.
  replace ents with (take (Z.to_nat (id_index (ls_prev a) - id_index prev)) ents) at 1
    by (rewrite take_ge; [done|]; rewrite Hp, last_id_index by done; unfold len; lia).
  apply (rep_truncate _ _ _ _ _ _ Hrep a); try done.
  - apply append_truncated; [apply Hrep|]. by rewrite Hp, (rep_last_id _ _ _ _ _ _ Hrep).
  - rewrite Hp, last_id_index by done. by apply log_term_last.
  - intros s Es. rewrite Hp, (rep_last_id _ _ _ _ _ _ Hrep), (last_id_u_index _ (rep_unstable _ _ _ _ _ _ Hrep)).
    rewrite (inv_snapshot _ (rep_unstable _ _ _ _ _ _ Hrep) s Es). simpl.
    pose proof (len_nonneg (u_entries (l_unstable l))). lia.
Qed.

Lemma rep_restore Size l sprev sents prev ents s l' :
  raftLog_rep Size l sprev sents prev ents -> snapshot_valid s = None ->
  0 <= snapshot_lastIndex s < MaxUint64 -> raftLog_restore l s = (l', true) ->
  raftLog_rep Size l' sprev sents (snapshot_lastEntryID s) [] /\ l_committed l' = snapshot_lastIndex s /\
  l_applied l' = l_applied l /\ l_applying l' = l_applying l /\
  u_snapshot (l_unstable l') = Some (snap_snap s).
Proof.
  intros Hrep Hv Hi. unfold raftLog_restore.
  pose proof (restore_inv _ s (rep_unstable _ _ _ _ _ _ Hrep) Hv Hi) as Hinv.
  destruct (unstable_restore (l_unstable l) s) as [u ok] eqn:E. simpl in Hinv. destruct ok; simpl; [|done].
  intros [= <-]. unfold unstable_restore in E. destruct (_ && _); [done|]. injection E as <-.
  split_and!; try done. constructor; [apply Hrep|done|done].
Qed.

(** One operation on the log that leaves the storage alone. The callers guarantee
    that slices and snapshots are well-formed, that the applying index does not
    regress, and that a restored snapshot is not behind the commit index. *)
Inductive raftLog_op (l : raftLog) : raftLog -> Prop :=
| lop_maybeAppend a l' ok : logSlice_wf a -> log_bounded (ls_prev a) (ls_entries a) ->
    raftLog_maybeAppend l a = Ret (l', ok) -> raftLog_op l l'
| lop_append a l' ok : logSlice_wf a -> log_bounded (ls_prev a) (ls_entries a) ->
    raftLog_append l a = Ret (l', ok) -> raftLog_op l l'
| lop_commitTo mark l' : raftLog_commitTo l mark = Ret l' -> raftLog_op l l'
| lop_acceptApplying i size allowUnstable l' : l_applying l <= i ->
    raftLog_acceptApplying l i size allowUnstable = Ret l' -> raftLog_op l l'
| lop_appliedTo i size l' : is_u64 size -> raftLog_appliedTo l i size = Ret l' -> raftLog_op l l'
| lop_restore s l' : snapshot_valid s = None -> l_committed l <= snapshot_lastIndex s < MaxUint64 ->
    raftLog_restore l s = (l', true) -> raftLog_op l l'
| lop_acceptUnstable : raftLog_op l (raftLog_acceptUnstable l).

(** The storage has an entry, or the dummy entry of its compacted part, with this id. *)
Definition ms_has (ms : MemoryStorage) (id : entryID) : Prop :=
  exists e, e ∈ ms_ents ms /\ pbEntryID e = id.

(** The log [l] after its storage has become [ms]. *)
Definition on_storage (Size : Entry -> Z) (l : raftLog) (ms : MemoryStorage) : raftLog :=
  l <| l_storage := MemoryStorage_Storage Size ms |>.

(** One step of a log on a MemoryStorage: an operation on the log, a write of the
    application to the storage, or the acknowledgement of a write. Writes and
    acknowledgements are not tied together: entries that were handed over earlier
    may be written after the log has moved on. The application writes entries that
    attach to what it has written and lie above the acknowledged part, writes the
    pending snapshot, and compacts what is applied and acknowledged. It
    acknowledges a mark of the current term when the unstable entries up to the
    mark are in the storage (a mark of another term may be acknowledged at any
    time), and a snapshot when the storage has reached it. [raft.appliedSnap]
    calls [stableSnapTo] and [appliedTo] together. *)
Inductive raftLog_step (Size : Entry -> Z) : MemoryStorage * raftLog -> MemoryStorage * raftLog -> Prop :=
| lstep_op ms l l' : raftLog_op l l' -> raftLog_step Size (ms, l) (ms, l')
| lstep_Append ms l p es ms' : log_from p es -> log_bounded p es -> ms_has ms p ->
    (u_snapshot (l_unstable l) = None -> id_index (u_prev (l_unstable l)) <= id_index p) ->
    MemoryStorage_Append ms es = Ret ms' -> raftLog_step Size (ms, l) (ms', on_storage Size l ms')
| lstep_ApplySnapshot ms l s ms' err : u_snapshot (l_unstable l) = Some s ->
    MemoryStorage_ApplySnapshot ms s = (ms', err) -> raftLog_step Size (ms, l) (ms', on_storage Size l ms')
| lstep_Compact ms l i ms' err : i <= l_applied l ->
    (u_snapshot (l_unstable l) = None -> i <= id_index (u_prev (l_unstable l))) ->
    MemoryStorage_Compact ms i = Ret (ms', err) -> raftLog_step Size (ms, l) (ms', on_storage Size l ms')
| lstep_stableTo ms l mark l' :
    (mark_Term mark = raftLog_accTerm l ->
     forall e, e ∈ u_entries (l_unstable l) -> e_Index e <= mark_Index mark -> e ∈ tail (ms_ents ms)) ->
    raftLog_stableTo l mark = Ret l' -> raftLog_step Size (ms, l) (ms, l')
| lstep_appliedSnap ms l i l' :
    (forall s, u_snapshot (l_unstable l) = Some s -> s_Index s = i -> ms_has ms (mkEntryID (s_Term s) i)) ->
    raftLog_appliedTo (raftLog_stableSnapTo l i) (Z.max i (l_applied l)) 0 = Ret l' ->
    raftLog_step Size (ms, l) (ms, l').

(** The log is on the storage, the storage holds the run [sents] that follows
    [sprev], the log stands for the run [ents] that follows [prev], and the
    indexes are in order. *)
Record log_on (Size : Entry -> Z) (ms : MemoryStorage) (l : raftLog)
    (sprev : entryID) (sents : list Entry) (prev : entryID) (ents : list Entry) : Prop := {
  lo_storage : l_storage l = MemoryStorage_Storage Size ms;
  lo_ms : ms_log ms sprev sents;
  lo_rep : raftLog_rep Size l sprev sents prev ents;
  lo_inv : raftLog_inv l prev ents
}.

Definition raftLog_ok (Size : Entry -> Z) (ms : MemoryStorage) (l : raftLog) : Prop :=
  exists sprev sents prev ents, log_on Size ms l sprev sents prev ents.

(** *** Operations on the log *)

Lemma maybeAppend_storage l a l' ok : raftLog_maybeAppend l a = Ret (l', ok) -> l_storage l' = l_storage l.
Proof.
  unfold raftLog_maybeAppend. intros E. destruct (raftLog_match l a) as [[m|]|]; cbn [obind] in E; [|by simplify_eq|done].
  destruct (logSlice_forward a m) as [b|]; cbn [obind] in E; [|done]. destruct (_ =? 0); [by simplify_eq|].
  destruct (slice_get _ _); cbn [obind] in E; [|done]. destruct (_ <=? _); [done|].
  destruct (unstable_truncateAndAppend _ _) as [[u ok']|]; cbn [obind] in E; [by simplify_eq|done].
Qed.

Lemma maybeAppend_ok Size ms l a l' ok : raftLog_ok Size ms l -> logSlice_wf a ->
  log_bounded (ls_prev a) (ls_entries a) -> raftLog_maybeAppend l a = Ret (l', ok) -> raftLog_ok Size ms l'.
Proof.
  intros (sprev & sents & prev & ents & [Est Hms Hrep Hi]) Ha Hb E. pose proof Hi as [Hc H1 H2 H3 H4 H5].
  destruct (rep_maybeAppend Size l sprev sents prev ents a Hrep ltac:(lia) Ha Hb) as (ents' & Hres & Hrep').
  pose proof (maybeAppend_storage _ _ _ _ E) as Est'.
  rewrite E in Hres, Hrep'. exists sprev, sents, prev, ents'. constructor; [congruence|done|done|].
  remember (Ret (l', ok)) as r eqn:Er. destruct Hres as [_|_ _|e msg _ _ _|_|u' k m Hk Hcm Hacc Hu Hs _];
    first [discriminate Er|injection Er as <- <-]; try done.
  constructor; simpl; try done; [|by rewrite Hs].
  rewrite len_app. unfold len. rewrite length_take, length_drop. unfold len in *. lia.
Qed.

Lemma appliedTo_inv l prev ents i size l' : is_u64 size ->
  id_index prev <= l_committed l <= id_index prev + len ents ->
  0 <= l_applied l -> l_applying l <= l_committed l ->
  is_u64 (l_applyingEntsSize l) /\ is_u64 (l_maxApplyingEntsSize l) ->
  (u_snapshot (l_unstable l) = None -> id_index prev <= i) ->
  raftLog_appliedTo l i size = Ret l' ->
  l_storage l' = l_storage l /\ l_unstable l' = l_unstable l /\ raftLog_inv l' prev ents.
Proof.
  intros Hs Hc H1 H2 [H4 H4'] H3 E. unfold raftLog_appliedTo in E. destruct (_ || _) eqn:E1; [done|].
  apply orb_false_iff in E1 as [E1 E2]. cbn [obind] in E.
  destruct (_ >? size) eqn:E3; inv_ret; (split_and!; [done|done|]);
    constructor; simpl in *; try done; try blia; by split; [apply u64_is_u64|].
Qed.

Lemma rep_same Size l l' sprev sents prev ents : raftLog_rep Size l sprev sents prev ents ->
  l_storage l' = l_storage l -> l_unstable l' = l_unstable l -> raftLog_rep Size l' sprev sents prev ents.
Proof. intros [H1 H2 H3] E1 E2. constructor; rewrite ?E1, ?E2; done. Qed.

Lemma raftLog_op_ok Size ms l l' : raftLog_ok Size ms l -> raftLog_op l l' -> raftLog_ok Size ms l'.
Proof.
  intros Hok Hop.
  pose proof Hok as (sprev & sents & prev & ents & [Est Hms Hrep [Hc H1 H2 H3 [H4 H4'] H5]]).
  destruct Hop as [a l' ok Ha Hb E|a l' ok Ha Hb E|mark l' E|i size au l' Hi E|i size l' Hs E|s l' Hv Hi E|].
  - eauto using maybeAppend_ok.
  - apply (rep_append Size l sprev sents prev ents a) in E; try done. destruct ok; [|by subst].
    destruct E as (Hrep' & -> & _). exists sprev, sents, prev, (ents ++ ls_entries a). constructor; try done.
    constructor; simpl; try done. rewrite len_app. pose proof (len_nonneg (ls_entries a)). lia.
  - unfold raftLog_commitTo in E. rewrite (rep_lastIndex _ _ _ _ _ _ Hrep) in E.
    destruct (_ <? mark_Index mark) eqn:E1; [destruct (_ <? mark_Index mark) eqn:E2 in E|]; inv_ret; [|done].
    exists sprev, sents, prev, ents. constructor; [done|done|by eapply rep_same|].
    constructor; simpl; try done; blia.
  - unfold raftLog_acceptApplying in E. destruct (_ <? i) eqn:E1; inv_ret.
    exists sprev, sents, prev, ents. constructor; [done|done|by eapply rep_same|].
    constructor; simpl; try done; try blia. by split; [apply u64_is_u64|].
  - assert (l_applied l <= i) by (unfold raftLog_appliedTo in E; destruct (_ || _) eqn:E1; [done|];
      apply orb_false_iff in E1 as [? ?]; blia).
    apply (appliedTo_inv l prev ents) in E as (E1 & E2 & Hi); try done; try lia;
      [|intros Hn; specialize (H3 Hn); lia].
    exists sprev, sents, prev, ents. constructor; [congruence|done|by eapply rep_same|done].
  - destruct (rep_restore Size l sprev sents prev ents s l') as (Hrep' & Ec & Ea & Eg & Es); try done; [lia|].
    exists sprev, sents, (snapshot_lastEntryID s), [].
    unfold raftLog_restore in E. destruct (unstable_restore _ _) as [u [|]] eqn:Eu; [|done]. injection E as <-.
    constructor; try done. constructor; simpl in *; try done; try lia; [|congruence].
    change (len (@nil Entry)) with 0. unfold snapshot_lastIndex in *. lia.
  - exists sprev, sents, prev, ents. constructor; [done|done| |by constructor]. destruct Hrep as [Hst Hu Hrun].
    constructor; [done|by apply acceptInProgress_inv|done].
Qed.

(** *** Writes to the storage *)

Lemma ms_laws Size ms prev ents : ms_log ms prev ents ->
  StorageLaws Size (MemoryStorage_Storage Size ms) prev ents.
Proof.
  intros H. destruct (ms_run _ _ _ H). constructor; simpl; try done; eauto using ms_Term_eq, ms_Entries_eq.
  - by rewrite (ms_firstIndex_eq _ _ _ H).
  - by rewrite (ms_lastIndex_eq _ _ _ H).
Qed.

Lemma ms_has_term ms prev ents id : ms_log ms prev ents -> ms_has ms id ->
  log_term prev ents (id_index id) = Some (id_term id).
Proof.
  intros (d & E & <- & Hl & _) (e & He & <-). rewrite E in He. apply elem_of_cons in He as [->|He].
  - unfold log_term. simpl. by rewrite Z.eqb_refl.
  - by apply log_from_term.
Qed.

Lemma log_term_take prev l k i : id_index prev + Z.of_nat k <= id_index prev + len l ->
  i <= id_index prev + Z.of_nat k -> log_term prev (take k l) i = log_term prev l i.
Proof.
  intros Hk Hi. rewrite <- (take_drop k l) at 2. rewrite log_term_app_l; [done|].
  unfold len in *. rewrite length_take. lia.
Qed.

(** Entries written at or above the acknowledged part do not touch what the log
    reads from the storage. *)
Lemma Append_prefix ms prev ents p es ms' : ms_log ms prev ents -> log_from p es -> log_bounded p es ->
  ms_has ms p -> MemoryStorage_Append ms es = Ret ms' ->
  exists ents', ms_log ms' prev ents' /\ forall i, id_index prev <= i <= id_index p ->
    log_term prev ents' i = log_term prev ents i /\
    take (Z.to_nat (i - id_index prev)) ents' = take (Z.to_nat (i - id_index prev)) ents.
Proof.
  intros Hms Hl Hb Hp E. pose proof (ms_has_term _ _ _ _ Hms Hp) as Ht.
  pose proof (log_term_Some _ _ _ _ Ht) as Hr. destruct es as [|e es].
  { injection E as <-. by exists ents. }
  destruct (MemoryStorage_Append_eq ms prev ents p (e :: es) Hms Hl Hb) as (ms2 & E2 & Hms2); [lia|simpl; lia| |].
  { by replace (Z.to_nat (id_index prev - id_index p)) with 0%nat by lia. }
  replace (Z.to_nat (id_index prev - id_index p)) with 0%nat in Hms2 by lia.
  rewrite E2 in E. injection E as <-. rewrite drop_0 in Hms2. change (last_id p (take 0 (e :: es))) with p in Hms2.
  set (k := Z.to_nat (id_index p - id_index prev)) in *. exists (take k ents ++ e :: es). split; [done|].
  intros i Hi. assert (Hk : length (take k ents) = k) by (rewrite length_take; unfold len in *; lia). split.
  - rewrite log_term_app_l by (unfold len; lia). apply log_term_take; lia.
  - rewrite take_app_le by lia. rewrite take_take. f_equal. lia.
Qed.

Lemma log_on_Append Size ms l sprev sents prev ents p es ms' : log_on Size ms l sprev sents prev ents ->
  log_from p es -> log_bounded p es -> ms_has ms p ->
  (u_snapshot (l_unstable l) = None -> id_index (u_prev (l_unstable l)) <= id_index p) ->
  MemoryStorage_Append ms es = Ret ms' -> raftLog_ok Size ms' (on_storage Size l ms').
Proof.
  intros [Est Hms [Hst Hu Hrun] Hi] Hl Hb Hp Hle E.
  destruct (Append_prefix _ _ _ _ _ _ Hms Hl Hb Hp E) as (sents' & Hms' & Hpre).
  exists sprev, sents', prev, ents. constructor; [done|done| |by destruct Hi].
  constructor; [by apply ms_laws|done|]. simpl. destruct (u_snapshot (l_unstable l)); [done|].
  destruct Hrun as (-> & Ht & ->). pose proof (log_term_Some _ _ _ _ Ht).
  destruct (Hpre (id_index (u_prev (l_unstable l)))) as [-> ->]; [specialize (Hle eq_refl); lia|done].
Qed.

Lemma log_on_ApplySnapshot Size ms l sprev sents prev ents s ms' err :
  log_on Size ms l sprev sents prev ents -> u_snapshot (l_unstable l) = Some s ->
  MemoryStorage_ApplySnapshot ms s = (ms', err) -> raftLog_ok Size ms' (on_storage Size l ms').
Proof.
  intros [Est Hms [Hst Hu Hrun] Hi] Es E. rewrite Es in Hrun.
  assert (exists sprev' sents', ms_log ms' sprev' sents') as (sprev' & sents' & Hms').
  { unfold MemoryStorage_ApplySnapshot in E. destruct (_ >=? _); injection E as <- <-; [eauto|].
    exists (mkEntryID (s_Term s) (s_Index s)), []. eexists. split; [reflexivity|].
    pose proof (inv_bounded _ Hu) as [H1 H2]. rewrite (inv_snapshot _ Hu s Es) in H1, H2. simpl in H1, H2.
    pose proof (len_nonneg (u_entries (l_unstable l))). split_and!; try done. split; [done|]. simpl.
    change (len (@nil Entry)) with 0. lia. }
  exists sprev', sents', prev, ents. constructor; [done|done| |by destruct Hi].
  constructor; [by apply ms_laws|done|]. simpl. by rewrite Es.
Qed.

Lemma Compact_cases ms prev ents i ms' err : ms_log ms prev ents -> MemoryStorage_Compact ms i = Ret (ms', err) ->
  ms' = ms \/ id_index prev < i <= id_index prev + len ents /\
    let n := Z.to_nat (i - id_index prev) in ms_log ms' (last_id prev (take n ents)) (drop n ents).
Proof.
  intros Hms E. destruct (decide (id_index prev < i <= id_index prev + len ents)) as [Hi|Hi].
  - right. destruct (MemoryStorage_Compact_eq ms prev ents i Hms Hi) as (ms2 & E2 & H2).
    rewrite E in E2. injection E2 as <- _. done.
  - left. unfold MemoryStorage_Compact in E. rewrite (ms_offset_eq _ _ _ Hms), (ms_lastIndex_eq _ _ _ Hms) in E.
    simpl in E. destruct (_ <=? _) eqn:E1; [by injection E as <- _|].
    destruct (_ >? _) eqn:E2; [done|]. blia.
Qed.

Lemma log_on_Compact Size ms l sprev sents prev ents i ms' err : log_on Size ms l sprev sents prev ents ->
  i <= l_applied l -> (u_snapshot (l_unstable l) = None -> i <= id_index (u_prev (l_unstable l))) ->
  MemoryStorage_Compact ms i = Ret (ms', err) -> raftLog_ok Size ms' (on_storage Size l ms').
Proof.
  intros [Est Hms [Hst Hu Hrun] Hi] Ha Hui E.
  destruct (Compact_cases _ _ _ _ _ _ Hms E) as [->|[Hr Hms']].
  { exists sprev, sents, prev, ents. constructor; [done|done| |by destruct Hi].
    constructor; [by apply ms_laws|done|done]. }
  cbn zeta in Hms'. set (n := Z.to_nat (i - id_index sprev)) in *.
  destruct (ms_run _ _ _ Hms) as [Hl _]. pose proof Hi as [Hc H1 H2 H3 H4 H5].
  destruct (last_id_take sprev sents n Hl) as [_ Hx]; [unfold len in *; lia|].
  eexists _, _. destruct (u_snapshot (l_unstable l)) eqn:Es.
  { exists prev, ents. constructor; [done|exact Hms'| |by destruct Hi].
    constructor; [by apply ms_laws|done|]. simpl. by rewrite Es. }
  specialize (Hui eq_refl). destruct Hrun as (-> & Ht & ->). pose proof (log_term_Some _ _ _ _ Ht) as Hru.
  set (a := Z.to_nat (id_index (u_prev (l_unstable l)) - id_index sprev)) in *.
  assert (Hlen : length (take n sents) = n) by (rewrite length_take; unfold len in *; lia).
  exists (last_id sprev (take n sents)), (drop n (take a sents) ++ u_entries (l_unstable l)).
  constructor; [done|exact Hms'| |].
  - constructor; [by apply ms_laws|done|]. simpl. rewrite Es. split_and!; [done| |].
    + rewrite <- Ht. symmetry. rewrite <- (take_drop n sents) at 1. apply log_term_app_r.
      * by apply log_from_take_drop.
      * unfold len. lia.
    + f_equal. rewrite Hx, skipn_firstn_comm. f_equal. lia.
  - rewrite len_app in Hc. constructor; simpl; try done; rewrite ?Hx; [|lia].
    rewrite len_app. unfold len in *. rewrite length_drop, length_take in *. lia.
Qed.

(** *** Acknowledgements *)

(** A run all of whose entries are in another run is a slice of it. *)
Lemma run_slice prev l p k : log_from prev l -> log_from p k -> id_index prev <= id_index p ->
  (forall e, e ∈ k -> e ∈ l) -> k = take (length k) (drop (Z.to_nat (id_index p - id_index prev)) l).
Proof.
  intros Hl Hk Hle Hin. apply list_eq. intros i. destruct (k !! i) as [e|] eqn:E.
  - symmetry. rewrite lookup_take_lt by (by eapply lookup_lt_Some). rewrite lookup_drop.
    destruct (log_from_lookup _ _ _ _ Hk E) as [Hi _]. apply list_elem_of_lookup_2, Hin in E.
    apply list_elem_of_lookup_1 in E as [j Hj]. destruct (log_from_lookup _ _ _ _ Hl Hj) as [Hi' _].
    rewrite <- Hj. f_equal. lia.
  - symmetry. apply lookup_ge_None in E. apply lookup_take_ge. done.
Qed.

Lemma log_on_stableTo Size ms l sprev sents prev ents mark l' : log_on Size ms l sprev sents prev ents ->
  (mark_Term mark = raftLog_accTerm l ->
   forall e, e ∈ u_entries (l_unstable l) -> e_Index e <= mark_Index mark -> e ∈ tail (ms_ents ms)) ->
  raftLog_stableTo l mark = Ret l' -> raftLog_ok Size ms l'.
Proof.
  intros [Est Hms Hrep Hi] Hack E. unfold raftLog_stableTo in E.
  destruct (unstable_stableTo (l_unstable l) mark) as [u'|] eqn:Eu; [|done]. injection E as <-.
  pose proof Hrep as [Hst Hu Hrun]. pose proof (stableTo_cases _ mark Hu) as Hc. rewrite Eu in Hc. cbn zeta in Hc.
  pose proof (stableTo_inv _ _ _ Hu Eu) as Hu'.
  exists sprev, sents, prev, ents. destruct Hc as [[_ ->]|((Hm & Hr) & Es & Hu'')].
  { by constructor; [| |rewrite set_unstable_id|rewrite set_unstable_id]. }
  rewrite Es in Hrun. destruct (rep_split _ _ _ _ _ _ Hrep) as (_ & pre & Hpre & Hlp & Hlast & Hlen).
  destruct Hrun as (-> & Ht & Hents). pose proof (log_term_Some _ _ _ _ Ht) as Hru.
  set (n := Z.to_nat (mark_Index mark - id_index (u_prev (l_unstable l)))) in *.
  set (a := Z.to_nat (id_index (u_prev (l_unstable l)) - id_index sprev)) in *.
  destruct (ms_run _ _ _ Hms) as [Hl _].
  destruct (log_from_take_drop _ _ n (inv_log _ Hu)) as [Hlt _].
  assert (Hpre' : pre = take a sents) by (rewrite Hpre in Hents; by apply app_inv_tail in Hents).
  destruct (last_id_take (u_prev (l_unstable l)) (u_entries (l_unstable l)) n (inv_log _ Hu)) as [_ Hx];
    [unfold len in *; lia|].
  assert (Hlt' : length (take n (u_entries (l_unstable l))) = n) by (rewrite length_take; unfold len in *; lia).
  assert (Hslice : take n (u_entries (l_unstable l)) = take n (drop a sents)).
  { rewrite <- Hlt' at 2. apply (run_slice sprev sents (u_prev (l_unstable l))); try done; [lia|].
    intros e He. assert (Hin : e ∈ u_entries (l_unstable l)) by (by apply elem_of_take in He as (? & ? & _);
      eapply list_elem_of_lookup_2).
    destruct Hms as (d & Ed & _). specialize (Hack Hm e Hin). rewrite Ed in Hack. apply Hack.
    apply list_elem_of_lookup_1 in He as [j Hj]. destruct (log_from_lookup _ _ _ _ Hlt Hj) as [He _].
    apply lookup_lt_Some in Hj. lia. }
  assert (Htake : take (a + n) sents = take a sents ++ take n (u_entries (l_unstable l)))
    by (rewrite Hslice; symmetry; apply take_take_drop).
  assert (Hlen' : (a + n <= length sents)%nat).
  { apply (f_equal length) in Hslice. rewrite Hlt', length_take, length_drop in Hslice. unfold len in *. lia. }
  destruct (last_id_take sprev sents (a + n) Hl Hlen') as [Ht' Hx'].
  constructor; [done|done| |destruct Hi; constructor; simpl; by auto].
  assert (u_snapshot u' = None /\ u_entries u' = drop n (u_entries (l_unstable l)) /\
    u_prev u' = last_id (u_prev (l_unstable l)) (take n (u_entries (l_unstable l)))) as (E1 & E2 & E3) by (by rewrite Hu'').
  constructor; [done|done|]. cbn [l_unstable set_field]. rewrite E1, E2, E3, Hx.
  replace (Z.to_nat (id_index _ + _ - _)) with (a + n)%nat by lia. split_and!; [done| |].
  - rewrite Htake, last_id_app, <- Hpre', Hlast in Ht'. rewrite <- Ht'. f_equal. lia.
  - rewrite Htake, <- app_assoc, take_drop. exact Hents.
Qed.

Lemma log_on_appliedSnap Size ms l sprev sents prev ents i l' : log_on Size ms l sprev sents prev ents ->
  (forall s, u_snapshot (l_unstable l) = Some s -> s_Index s = i -> ms_has ms (mkEntryID (s_Term s) i)) ->
  raftLog_appliedTo (raftLog_stableSnapTo l i) (Z.max i (l_applied l)) 0 = Ret l' -> raftLog_ok Size ms l'.
Proof.
  intros [Est Hms Hrep Hi] Hack E. pose proof Hrep as [Hst Hu Hrun]. pose proof Hi as [Hc H1 H2 H3 H4 H5].
  assert (exists prev' ents', raftLog_rep Size (raftLog_stableSnapTo l i) sprev sents prev' ents' /\
    id_index prev' <= id_index prev /\ id_index prev' + len ents' = id_index prev + len ents /\
    (u_snapshot (l_unstable (raftLog_stableSnapTo l i)) = None -> id_index prev' <= Z.max i (l_applied l)))
    as (prev' & ents' & Hrep' & Hle & Hlen & Hcmp).
  { pose proof (stableSnapTo_inv _ i Hu) as Hu'.
    unfold raftLog_stableSnapTo, unstable_stableSnapTo in *. destruct (u_snapshot (l_unstable l)) as [s|] eqn:Es.
    2: { exists prev, ents. rewrite set_unstable_id. split_and!; try done; try lia. intros Hn. specialize (H3 eq_refl). lia. }
    destruct (s_Index s =? i) eqn:Ei; bool_to_prop.
    2: { exists prev, ents. rewrite set_unstable_id. split_and!; try done; try lia. congruence. }
    pose proof (ms_has_term _ _ _ _ Hms (Hack s eq_refl Ei)) as Ht. simpl in Ht.
    pose proof (log_term_Some _ _ _ _ Ht) as Hr. destruct Hrun as [-> ->].
    pose proof (inv_snapshot _ Hu s Es) as Hp. rewrite Hp in *. simpl in *.
    exists sprev, (take (Z.to_nat (i - id_index sprev)) sents ++ u_entries (l_unstable l)).
    split_and!; [|lia| |lia].
    - constructor; [done|done|]. simpl. change (u_prev _) with (u_prev (l_unstable l)). rewrite Hp. simpl.
      rewrite Ei. done.
    - rewrite len_app. unfold len at 1. rewrite length_take. unfold len in *. lia. }
  apply (appliedTo_inv _ prev' ents') in E as (E1 & E2 & Hi'); try done; simpl in *; try lia.
  exists sprev, sents, prev', ents'. constructor; [congruence|done|by eapply rep_same|done].
Qed.

Lemma raftLog_step_ok Size ms l ms' l' : raftLog_ok Size ms l ->
  raftLog_step Size (ms, l) (ms', l') -> raftLog_ok Size ms' l'.
Proof.
  intros Hok Hstep. pose proof Hok as (sprev & sents & prev & ents & Hon).
  inv Hstep; eauto using raftLog_op_ok, log_on_Append, log_on_ApplySnapshot, log_on_Compact,
    log_on_stableTo, log_on_appliedSnap.
Qed.

(** C39. The documented order of the log's indexes holds at all times. From a log
    on a MemoryStorage whose indexes are in order, after any sequence of appends,
    truncations, commits, applies and snapshot restores, interleaved in any way
    with writes of entries and snapshots to the storage, compactions of applied
    and acknowledged entries, and acknowledgements ([stableTo], [appliedSnap]) of
    what the storage holds, the log still stands for one contiguous run, split
    between the storage and the unstable suffix, with
    applied <= applying <= committed <= lastIndex, the entries that are yet to be
    applied are not compacted, and the byte accounting leaves room for application
    unless it is paused. *)
Theorem raftLog_ok_reachable (Size : Entry -> Z) (ms ms' : MemoryStorage) (l l' : raftLog) :
  raftLog_ok Size ms l -> rtc (raftLog_step Size) (ms, l) (ms', l') -> raftLog_ok Size ms' l'.
Proof.
  intros Hok H. remember (ms, l) as x eqn:Ex. remember (ms', l') as y eqn:Ey. revert ms l Hok Ex.
  induction H as [x|x [ms1 l1] y Hs _ IH]; intros ms l Hok ->.
  - by injection Ey as -> ->.
  - eauto using raftLog_step_ok.
Qed.

(** A leader's overwrite of the entry at 12 is committed, handed over, written,
    acknowledged, applied, and the storage compacted: the log ends at 13 with an
    empty unstable suffix and starts after 11. *)
Lemma raftLog_ok_reachable_witness :
  exists ms' l', raftLog_ok (fun _ => 8) ms' l' /\ l_committed l' = 13 /\ l_applied l' = 11 /\
    u_entries (l_unstable l') = [] /\ tail (ms_ents ms') = [mkEntry 4 12 EntryNormal []; mkEntry 4 13 EntryNormal []].
Proof.
  eexists _, _. split; [apply (raftLog_ok_reachable (fun _ => 8) example_storage _ example_log)|].
  - exists (mkEntryID 2 10), [mkEntry 2 11 EntryNormal []; mkEntry 3 12 EntryNormal []], (mkEntryID 2 10), example_ents.
    constructor; [done|apply example_storage_log|apply example_log_rep|apply example_log_inv].
  - eapply rtc_l; [apply lstep_op; eapply (lop_commitTo _ (mkLogMark 4 13)); reflexivity|].
    eapply rtc_l; [apply lstep_op, lop_acceptUnstable|].
    eapply rtc_l; [eapply (lstep_Append _ _ _ (mkEntryID 2 11) [mkEntry 4 12 EntryNormal []; mkEntry 4 13 EntryNormal []]);
      [simpl; split_and!; done|split; simpl; unfold len, MaxUint64; simpl; lia| |intros _; simpl; lia|reflexivity]|].
    { exists (mkEntry 2 11 EntryNormal []). split; [|done]. apply list_elem_of_lookup. by exists 1%nat. }
    eapply rtc_l; [eapply (lstep_stableTo _ _ _ (mkLogMark 4 13)); [|reflexivity]|].
    { intros _ e He _. apply elem_of_cons. right. exact He. }
    eapply rtc_l; [apply lstep_op; eapply (lop_acceptApplying _ 11 8 false); [simpl; lia|reflexivity]|].
    eapply rtc_l; [apply lstep_op; eapply (lop_appliedTo _ 11 8); [by unfold is_u64, u64_modulus|reflexivity]|].
    eapply rtc_l; [eapply (lstep_Compact _ _ _ 11); [simpl; lia|intros _; simpl; lia|reflexivity]|].
    apply rtc_refl.
  - split_and!; reflexivity.
Defined.

(** ** Persisting the unstable entries *)

(** Persisting the log does not change it. Writing the unstable entries to a
    MemoryStorage, as the application does on a Ready, and acknowledging the write
    leaves the log standing for the same run of entries, now held entirely by the
    storage, with the unstable suffix empty; superseded entries that the storage
    still held are gone. No step panics. *)
Theorem persist_preserves_log (Size : Entry -> Z) (ms : MemoryStorage) (l : raftLog)
    (sprev : entryID) (sents : list Entry) (prev : entryID) (ents : list Entry) :
  raftLog_rep Size l sprev sents prev ents -> ms_log ms sprev sents ->
  u_snapshot (l_unstable l) = None -> u_entries (l_unstable l) <> [] ->
  u_entryInProgress (l_unstable l) = id_index (u_prev (l_unstable l)) ->
  exists es ms' l',
    raftLog_nextUnstableEnts l = Ret es /\ MemoryStorage_Append ms es = Ret ms' /\
    raftLog_stableTo (raftLog_acceptUnstable l <| l_storage := MemoryStorage_Storage Size ms' |>)
      (mkLogMark (raftLog_accTerm l) (raftLog_lastIndex l)) = Ret l' /\
    raftLog_abs Size l' prev ents /\ ms_log ms' prev ents /\ u_entries (l_unstable l') = [].
Proof.
  intros Hrep Hms Es Hne Hip. pose proof (rep_unstable _ _ _ _ _ _ Hrep) as Hu.
  pose proof (rep_run _ _ _ _ _ _ Hrep) as Hrun. rewrite Es in Hrun. destruct Hrun as (-> & Hp & Hents).
  pose proof (log_term_Some _ _ _ _ Hp) as Hpr. pose proof (rep_log _ _ _ _ _ _ Hrep) as Hl.
  unfold raftLog_nextUnstableEnts. rewrite nextEntries_spec by done. rewrite Hip, Z.sub_diag, drop_0.
  assert (Hlen : (0 < length (u_entries (l_unstable l)))%nat) by (destruct (u_entries (l_unstable l)); simpl; [done|lia]).
  destruct (MemoryStorage_Append_eq ms sprev sents (u_prev (l_unstable l)) (u_entries (l_unstable l)) Hms
    (inv_log _ Hu) (inv_bounded _ Hu)) as (ms' & Ems & Hms'); [lia|lia| |].
  { replace (Z.to_nat _) with 0%nat by lia. done. }
  replace (Z.to_nat (id_index sprev - id_index (u_prev (l_unstable l)))) with 0%nat in Hms' by lia.
  rewrite drop_0 in Hms'. simpl in Hms'. rewrite <- Hents in Hms'.
  unfold raftLog_stableTo. cbn [l_unstable set_field raftLog_acceptUnstable].
  set (u := l_unstable l) in *. pose proof (acceptInProgress_inv u Hu) as Hu2.
  pose proof (stableTo_cases _ (mkLogMark (raftLog_accTerm l) (raftLog_lastIndex l)) Hu2) as Hst.
  change (u_prev (unstable_acceptInProgress u)) with (u_prev u) in Hst.
  change (u_entries (unstable_acceptInProgress u)) with (u_entries u) in Hst.
  change (u_snapshot (unstable_acceptInProgress u)) with (u_snapshot u) in Hst.
  cbn zeta in Hst. cbn [mark_Index mark_Term] in Hst.
  rewrite (rep_lastIndex _ _ _ _ _ _ Hrep), (rep_len _ _ _ _ _ _ Hrep) in *. fold u in Hst |- *.
  replace (Z.to_nat (id_index (u_prev u) + len (u_entries u) - id_index (u_prev u))) with (length (u_entries u)) in Hst
    by (unfold len; lia).
  rewrite firstn_all, drop_all in Hst.
  destruct (unstable_stableTo _ _) as [u'|] eqn:E; [|destruct Hst; congruence].
  pose proof (stableTo_inv _ _ _ Hu2 E) as Hinv.
  destruct Hst as [[Hno _]|(_ & _ & Hu')]; [destruct Hno; split; [done|unfold len; lia]|].
  eexists _, ms', _. split; [reflexivity|]. split; [done|]. split; [reflexivity|]. split_and!; [|done|by rewrite Hu'].
  exists sprev, ents. constructor; simpl.
  - by apply ms_laws.
  - done.
  - pose proof (rep_last_id _ _ _ _ _ _ Hrep) as Hlast. fold u in Hlast.
    assert (u_snapshot u' = None /\ u_prev u' = last_id sprev ents /\ u_entries u' = []) as (-> & -> & ->)
      by (rewrite Hu', Hlast; done).
    rewrite last_id_index by done. split_and!; [done|by apply log_term_last|].
    rewrite app_nil_r, take_ge; [done|]. unfold len. lia.
Qed.

Lemma persist_preserves_log_witness :
  exists es ms' l',
    raftLog_nextUnstableEnts example_log = Ret es /\ MemoryStorage_Append example_storage es = Ret ms' /\
    raftLog_stableTo (raftLog_acceptUnstable example_log <| l_storage := MemoryStorage_Storage (fun _ => 8) ms' |>)
      (mkLogMark 4 13) = Ret l' /\ ms_log ms' (mkEntryID 2 10) example_ents.
Proof.
  destruct (persist_preserves_log (fun _ => 8) example_storage example_log _ _ _ _ example_log_rep example_storage_log)
    as (es & ms' & l' & H1 & H2 & H3 & _ & H4 & _); [done|done|done|].
  exists es, ms', l'. split_and!; [exact H1|exact H2|exact H3|exact H4].
Defined.
