(* ===== verification/Raft.v ===== *)
(** * The raft state machine (src/pkg/raft/raft.go)

    [raft] is the state of one peer, a record with the fields of the Go struct, and
    every method is an action of a state monad that can panic. The function
    pointers [tick] and [step] are the enumerations of the functions they are ever
    set to. Log messages are not modelled, but what the code evaluates for them
    is.

    What lies outside of src/ or outside of the package is the environment [Env]:
    the store liveness fabric, the random source, the active cluster version, the
    decoders of configuration changes and the encoded size of an entry. Store
    liveness and the cluster version vary over time: every query is answered by an
    oracle indexed with the number of queries made so far, which the state counts
    ([r_calls]). The storage is a field of the log and is read through its
    interface. *)

From S2P Require Import Prelude Hlc Quorum Tracker RaftPb ConfChange LogTypes Unstable Storage RaftLog.

Record Env : Type := mkEnv {
  env_Size : Entry -> Z;
  env_SupportFor : nat -> PeerID -> Z * bool;
  env_SupportFromEnabled : nat -> bool;
  env_IsActive_AdvanceCommitIndexViaMsgApps : nat -> bool;
  env_Intn : nat -> Z -> Z;
  env_Unmarshal_ConfChange : bytes -> option ConfChange;
  env_Unmarshal_ConfChangeV2 : bytes -> option ConfChangeV2
}.

(** ** Constants and enumerations *)

Definition None_ID : PeerID := 0.
Definition LocalAppendThread : PeerID := MaxUint64.
Definition LocalApplyThread : PeerID := MaxUint64 - 1.

Inductive StateType : Set := StateFollower | StateCandidate | StateLeader | StatePreCandidate.

#[global] Instance StateType_eq_dec : EqDecision StateType.
Proof. solve_decision. Defined.

Inductive CampaignType : Set := campaignPreElection | campaignElection | campaignTransfer.

#[global] Instance CampaignType_eq_dec : EqDecision CampaignType.
Proof. solve_decision. Defined.

(** [[]byte(campaignTransfer)] *)
Definition campaignTransfer_bytes : bytes := String.list_byte_of_string "CampaignTransfer".

(** The values of the function pointers. *)
Inductive tickFunc : Set := tickElection_f | tickHeartbeat_f.
Inductive stepFunc : Set := stepFollower_f | stepCandidate_f | stepLeader_f.

(** ** util.go, node.go *)

Definition IsMsgFromLeader (t : MessageType) : bool :=
  match t with
  | MsgApp | MsgSnap | MsgHeartbeat | MsgFortifyLeader | MsgTimeoutNow => true
  | _ => false
  end.

Definition IsLocalMsg (t : MessageType) : bool :=
  match t with
  | MsgHup | MsgBeat | MsgUnreachable | MsgSnapStatus | MsgCheckQuorum | MsgStorageAppend
  | MsgStorageAppendResp | MsgStorageApply | MsgStorageApplyResp => true
  | _ => false
  end.

Definition IsResponseMsg (t : MessageType) : bool :=
  match t with
  | MsgAppResp | MsgVoteResp | MsgHeartbeatResp | MsgUnreachable | MsgPreVoteResp
  | MsgStorageAppendResp | MsgStorageApplyResp | MsgFortifyLeaderResp => true
  | _ => false
  end.

Definition IsLocalMsgTarget (id : PeerID) : bool := (id =? LocalAppendThread) || (id =? LocalApplyThread).

Definition voteRespMsgType (t : MessageType) : outcome MessageType :=
  match t with
  | MsgVote => Ret MsgVoteResp
  | MsgPreVote => Ret MsgPreVoteResp
  | _ => Panic "not a vote message"
  end.

Definition IsEmptySnap (s : Snapshot) : bool := s_Index s =? 0.

Definition IsEmptyHardState (st : HardState) : bool := bool_decide (st = mkHardState 0 0 0 0 0).

(** [confChangeToMsg(nil)]: nil data of type EntryConfChangeV2. *)
Definition confChangeToMsg_nil : Message :=
  Msg MsgProp <| m_Entries := [mkEntry 0 0 EntryConfChangeV2 []] |>.

(** ** The state *)

Record raft : Type := mkRaft {
  r_id : PeerID;
  r_Term : Z;
  r_Vote : PeerID;
  r_raftLog : raftLog;
  r_maxMsgSize : Z;
  r_maxUncommittedSize : Z;
  r_config : Config;
  r_trk : ProgressMap;
  r_votes : gmap Z bool;
  r_state : StateType;
  r_isLearner : bool;
  r_msgs : list Message;
  r_msgsAfterAppend : list Message;
  r_lead : PeerID;
  r_leadEpoch : Z;
  r_leadTransferee : PeerID;
  r_pendingConfIndex : Z;
  r_disableConfChangeValidation : bool;
  r_uncommittedSize : Z;
  r_electionElapsed : Z;
  r_heartbeatElapsed : Z;
  r_maxInflight : Z;
  r_maxInflightBytes : Z;
  r_checkQuorum : bool;
  r_preVote : bool;
  r_heartbeatTimeout : Z;
  r_electionTimeout : Z;
  r_randomizedElectionTimeout : Z;
  r_disableProposalForwarding : bool;
  r_stepDownOnRemoval : bool;
  r_tick : tickFunc;
  r_step : stepFunc;
  r_calls : nat
}.

#[global] Instance eta_raft : Eta raft := fun r =>
  mkRaft (r_id r) (r_Term r) (r_Vote r) (r_raftLog r) (r_maxMsgSize r) (r_maxUncommittedSize r)
    (r_config r) (r_trk r) (r_votes r) (r_state r) (r_isLearner r) (r_msgs r) (r_msgsAfterAppend r)
    (r_lead r) (r_leadEpoch r) (r_leadTransferee r) (r_pendingConfIndex r)
    (r_disableConfChangeValidation r) (r_uncommittedSize r) (r_electionElapsed r) (r_heartbeatElapsed r)
    (r_maxInflight r) (r_maxInflightBytes r) (r_checkQuorum r) (r_preVote r) (r_heartbeatTimeout r)
    (r_electionTimeout r) (r_randomizedElectionTimeout r) (r_disableProposalForwarding r)
    (r_stepDownOnRemoval r) (r_tick r) (r_step r) (r_calls r).

(** ** The monad *)

Definition M (A : Type) : Type := raft -> outcome (A * raft).

Definition mret {A} (x : A) : M A := fun r => Ret (x, r).
Definition rbind {A B} (m : M A) (k : A -> M B) : M B := fun r => let! '(x, r) := m r in k x r.
Definition rpanic {A} (msg : string) : M A := fun _ => Panic msg.
Definition gets {A} (f : raft -> A) : M A := fun r => Ret (f r, r).
Definition modify (f : raft -> raft) : M unit := fun r => Ret (tt, f r).
(** A computation on the current state that does not change it. *)
Definition reads {A} (f : raft -> outcome A) : M A := fun r => let! x := f r in Ret (x, r).

Notation "'let*' x := m 'in' k" := (rbind m (fun x => k))
  (at level 10, x name, m at level 150, k at level 200) : go_scope.
Notation "'let*' ' p := m 'in' k" := (rbind m (fun p => k))
  (at level 10, p strict pattern, m at level 150, k at level 200) : go_scope.

Definition assertTrue (condition : bool) (msg : string) : M unit :=
  if condition then mret tt else rpanic msg.

(** Operations of the log, with a result and without. *)
Definition log_op {A} (f : raftLog -> outcome (raftLog * A)) : M A := fun r =>
  let! '(l, x) := f (r_raftLog r) in Ret (x, r <| r_raftLog := l |>).

Definition log_upd (f : raftLog -> outcome raftLog) : M unit := fun r =>
  let! l := f (r_raftLog r) in Ret (tt, r <| r_raftLog := l |>).

(** [r.trk.Progress(id)], a nil pointer when the peer is not tracked. *)
Definition Progress_of (id : PeerID) : M (option Progress) := gets (fun r => r_trk r !! id).

(** An operation on [*r.trk.Progress(id)]. *)
Definition pr_op {A} (id : PeerID) (f : Progress -> outcome (Progress * A)) : M A := fun r =>
  match r_trk r !! id with
  | None => Panic "nil pointer dereference"
  | Some pr => let! '(pr, x) := f pr in Ret (x, r <| r_trk := <[id := pr]> (r_trk r) |>)
  end.

Definition pr_set (id : PeerID) (f : Progress -> Progress) : M unit :=
  pr_op id (fun pr => Ret (f pr, tt)).

Definition pr_get {A} (id : PeerID) (f : Progress -> A) : M A :=
  pr_op id (fun pr => Ret (pr, f pr)).

Fixpoint for_each {X} (f : X -> M unit) (l : list X) : M unit :=
  match l with
  | [] => mret tt
  | x :: l => let* _ := f x in for_each f l
  end.

(** [r.trk.Visit(f)] *)
Definition Visit (f : PeerID -> M unit) : M unit :=
  let* order := gets (fun r => ProgressTracker_Visit_ids (r_trk r)) in for_each f order.

(** A query to the environment. *)
Definition query {A} (f : nat -> A) : M A := fun r =>
  Ret (f (r_calls r), r <| r_calls := S (r_calls r) |>).

Section raft.

Context (E : Env).

Definition Size : Entry -> Z := env_Size E.

(** ** Small methods *)

Definition advanceCommitViaMsgAppOnly : M bool := query (env_IsActive_AdvanceCommitIndexViaMsgApps E).
Definition SupportFor (id : PeerID) : M (Z * bool) := query (fun n => env_SupportFor E n id).
Definition SupportFromEnabled : M bool := query (env_SupportFromEnabled E).

(** [rand.Int] panics when its bound is not positive. *)
Definition Intn (n : Z) : M Z :=
  if n <=? 0 then rpanic "argument to Int is <= 0" else query (fun k => env_Intn E k n).

Definition raft_hardState (r : raft) : HardState := {|
  hs_Term := r_Term r;
  hs_Vote := r_Vote r;
  hs_Commit := l_committed (r_raftLog r);
  hs_Lead := r_lead r;
  hs_LeadEpoch := r_leadEpoch r
|}.

Definition promotable : M bool := gets (fun r =>
  match r_trk r !! r_id r with
  | None => false
  | Some pr => negb (IsLearner pr) && negb (raftLog_hasNextOrInProgressSnapshot (r_raftLog r))
  end).

Definition pastElectionTimeout (r : raft) : bool := r_electionElapsed r >=? r_randomizedElectionTimeout r.

Definition resetRandomizedElectionTimeout : M unit :=
  let* n := gets r_electionTimeout in
  let* x := Intn n in
  modify (fun r => r <| r_randomizedElectionTimeout := r_electionTimeout r + x |>).

Definition abortLeaderTransfer : M unit := modify (fun r => r <| r_leadTransferee := None_ID |>).

Definition increaseUncommittedSize (ents : list Entry) : M bool :=
  let s := payloadsSize ents in
  let* sz := gets r_uncommittedSize in
  let* mx := gets r_maxUncommittedSize in
  if (sz >? 0) && (s >? 0) && (sz +u s >? mx) then mret false
  else
    let* _ := modify (fun r => r <| r_uncommittedSize := r_uncommittedSize r +u s |>) in
    mret true.

Definition reduceUncommittedSize (s : Z) : M unit :=
  modify (fun r =>
    if s >? r_uncommittedSize r then r <| r_uncommittedSize := 0 |>
    else r <| r_uncommittedSize := r_uncommittedSize r -u s |>).

Definition supportingFortifiedLeader : M bool :=
  let* leadEpoch := gets r_leadEpoch in
  if leadEpoch =? 0 then mret false
  else
    let* lead := gets r_lead in
    let* _ := assertTrue (negb (lead =? None_ID)) "lead epoch is set but leader is not" in
    let* '(epoch, live) := SupportFor lead in
    let* _ := assertTrue (epoch >=? leadEpoch) "epochs in store liveness shouldn't regress" in
    mret (live && (epoch =? leadEpoch)).

Definition deFortify (from : PeerID) (term : Z) : M unit :=
  let* rTerm := gets r_Term in
  let* lead := gets r_lead in
  let* id := gets r_id in
  let* ok :=
    if (term >? rTerm) || ((term =? rTerm) && (from =? lead)) then mret true
    else if (term =? rTerm) && (from =? id) then
      let* supporting := supportingFortifiedLeader in mret (negb supporting)
    else mret false in
  let* _ := assertTrue ok "can only defortify at current term if told by the leader or if fortification support has expired" in
  modify (fun r => r <| r_leadEpoch := 0 |>).

(** ** Sending *)

Definition is_campaign_msg (t : MessageType) : bool :=
  match t with MsgVote | MsgVoteResp | MsgPreVote | MsgPreVoteResp => true | _ => false end.

Definition is_after_append (t : MessageType) : bool :=
  match t with MsgAppResp | MsgVoteResp | MsgPreVoteResp | MsgFortifyLeaderResp => true | _ => false end.

Definition send (m : Message) : M unit :=
  let* id := gets r_id in
  let* rTerm := gets r_Term in
  let m := if m_From m =? None_ID then m <| m_From := id |> else m in
  let* m :=
    if is_campaign_msg (m_Type m) then
      if m_Term m =? 0 then rpanic "term should be set when sending" else mret m
    else if negb (m_Term m =? 0) then rpanic "term should not be set when sending"
    else if bool_decide (m_Type m <> MsgProp) then mret (m <| m_Term := rTerm |>) else mret m in
  if is_after_append (m_Type m) then
    modify (fun r => r <| r_msgsAfterAppend := r_msgsAfterAppend r ++ [m] |>)
  else if m_To m =? id then rpanic "message should not be self-addressed when sending"
  else modify (fun r => r <| r_msgs := r_msgs r ++ [m] |>).

(** ** Replication *)

Definition maybeSendSnapshot (to : PeerID) : M bool :=
  let* active := pr_get to RecentActive in
  if negb active then mret false
  else
    let* res := reads (fun r => raftLog_snapshot (r_raftLog r)) in
    match res with
    | inl ErrSnapshotTemporarilyUnavailable => mret false
    | inl _ => rpanic "unexpected error"
    | inr snapshot =>
      if IsEmptySnap snapshot then rpanic "need non-empty snapshot"
      else
        let* _ := reads (fun r => raftLog_firstIndex (r_raftLog r)) in
        let* _ := pr_set to (fun pr => Progress_BecomeSnapshot pr (s_Index snapshot)) in
        let* _ := send (Msg MsgSnap <| m_To := to |> <| m_Snapshot := Some snapshot |>) in
        mret true
    end.

Definition maybeSendAppend (to : PeerID) : M bool :=
  let* last := gets (fun r => raftLog_lastIndex (r_raftLog r)) in
  let* commit := gets (fun r => l_committed (r_raftLog r)) in
  let* advanceCommit := advanceCommitViaMsgAppOnly in
  let* should := pr_get to (fun pr => Progress_ShouldSendMsgApp pr last commit advanceCommit) in
  if negb should then mret false
  else
    let* next := pr_get to Next in
    let prevIndex := next -u 1 in
    let* prevTerm := reads (fun r => raftLog_term (r_raftLog r) prevIndex) in
    match prevTerm with
    | inl _ => maybeSendSnapshot to
    | inr prevTerm =>
      let* can := pr_get to (fun pr => Progress_CanSendEntries pr last) in
      let* maxSize := gets r_maxMsgSize in
      let* entries :=
        if can then reads (fun r => raftLog_entries Size (r_raftLog r) next maxSize) else mret (inr []) in
      match entries with
      | inl _ => maybeSendSnapshot to
      | inr entries =>
        let* matched := pr_get to Match in
        let* _ := send (Msg MsgApp <| m_To := to |> <| m_Index := prevIndex |> <| m_LogTerm := prevTerm |>
                          <| m_Entries := entries |> <| m_Commit := commit |> <| m_Match := matched |>) in
        let* _ := pr_op to (fun pr =>
          let! pr := Progress_SentEntries pr (len entries) (payloadsSize entries) in Ret (pr, tt)) in
        let* _ := pr_set to (fun pr => Progress_MaybeUpdateSentCommit pr commit) in
        mret true
      end
    end.

(** [for r.maybeSendAppend(to) {}], with fuel. *)
Fixpoint send_loop (fuel : nat) (to : PeerID) : M unit :=
  match fuel with
  | O => rpanic "out of fuel"
  | S fuel => let* sent := maybeSendAppend to in if sent then send_loop fuel to else mret tt
  end.

(** A message carries at least one of the entries from [Next] on, apart from one
    that carries none and pauses the flow, or a snapshot. *)
Definition send_fuel (to : PeerID) (r : raft) : nat :=
  match r_trk r !! to with
  | Some pr => Z.to_nat (raftLog_lastIndex (r_raftLog r) + 1 - Next pr) + 3
  | None => 1
  end.

Definition sendAppend_all (to : PeerID) : M unit :=
  let* fuel := gets (send_fuel to) in send_loop fuel to.

Definition sendHeartbeat (to : PeerID) : M unit :=
  let* advance := advanceCommitViaMsgAppOnly in
  let* commit :=
    if negb advance then
      let* matched := pr_get to Match in
      gets (fun r => Z.min matched (l_committed (r_raftLog r)))
    else mret 0 in
  let* matched := pr_get to Match in
  let* _ := send (Msg MsgHeartbeat <| m_To := to |> <| m_Commit := commit |> <| m_Match := matched |>) in
  pr_set to (fun pr => Progress_MaybeUpdateSentCommit pr commit).

Definition sendFortify (to : PeerID) : M unit :=
  let* enabled := SupportFromEnabled in
  if negb enabled then mret tt
  else
    let* id := gets r_id in
    if to =? id then
      let* lead := gets r_lead in
      let* '(epoch, live) := SupportFor lead in
      if live then modify (fun r => r <| r_leadEpoch := epoch |>) else mret tt
    else send (Msg MsgFortifyLeader <| m_To := to |>).

Definition bcastAppend : M unit :=
  Visit (fun id =>
    let* self := gets r_id in
    if id =? self then mret tt else let* _ := maybeSendAppend id in mret tt).

Definition bcastHeartbeat : M unit :=
  Visit (fun id => let* self := gets r_id in if id =? self then mret tt else sendHeartbeat id).

Definition bcastFortify : M unit :=
  let* state := gets r_state in
  let* _ := assertTrue (bool_decide (state = StateLeader)) "only leaders can fortify" in
  Visit sendFortify.

Definition maybeCommit : M bool :=
  let* index := gets (fun r => ProgressTracker_Committed (r_config r) (r_trk r)) in
  let* committed := gets (fun r => l_committed (r_raftLog r)) in
  if index <=? committed then mret false
  else
    let* term := gets r_Term in
    let* ok := reads (fun r => raftLog_matchTerm (r_raftLog r) (mkEntryID term index)) in
    if negb ok then mret false
    else
      let* _ := log_upd (fun l => raftLog_commitTo l (mkLogMark term index)) in
      mret true.

(** [appendEntry] writes the terms and indices into its arguments. *)
Definition stamp_entries (term first : Z) (es : list Entry) : list Entry :=
  imap (fun i e => e <| e_Term := term |> <| e_Index := first +u Z.of_nat i |>) es.

Definition appendEntry (es : list Entry) : M bool :=
  let* last := reads (fun r => raftLog_lastEntryID (r_raftLog r)) in
  let* term := gets r_Term in
  let es := stamp_entries term (id_index last +u 1) es in
  let* ok := increaseUncommittedSize es in
  if negb ok then mret false
  else
    let app := mkLogSlice term last es in
    match logSlice_valid app with
    | Some _ => rpanic "leader could not append to its log"
    | None =>
      let* ok := log_op (fun l => raftLog_append l app) in
      if negb ok then rpanic "leader could not append to its log"
      else
        let* id := gets r_id in
        let* _ := pr_set id (fun pr => pr <| Next := logSlice_lastIndex app +u 1 |>) in
        let* lastIndex := gets (fun r => raftLog_lastIndex (r_raftLog r)) in
        let* committed := gets (fun r => l_committed (r_raftLog r)) in
        let* _ := send (Msg MsgAppResp <| m_To := id |> <| m_Index := lastIndex |> <| m_Commit := committed |>) in
        mret true
    end.

(** ** Changing roles *)

Definition reset_Progress (r : raft) (id : PeerID) (pr : Progress) : Progress :=
  mkProgress (if id =? r_id r then raftLog_lastIndex (r_raftLog r) else 0)
    (raftLog_lastIndex (r_raftLog r) +u 1) 0 0 StateProbe 0 false false
    (NewInflights (r_maxInflight r) (r_maxInflightBytes r)) (IsLearner pr).

Definition reset (term : Z) : M unit :=
  let* rTerm := gets r_Term in
  let* _ :=
    if negb (rTerm =? term) then
      let* supporting := supportingFortifiedLeader in
      let* ok := gets (fun r => negb supporting || (r_lead r =? r_id r)) in
      let* _ := assertTrue ok "should not be changing terms when supporting a fortified leader; leader exempted" in
      modify (fun r => r <| r_Term := term |> <| r_Vote := None_ID |> <| r_lead := None_ID |> <| r_leadEpoch := 0 |>)
    else mret tt in
  let* _ := modify (fun r => r <| r_electionElapsed := 0 |> <| r_heartbeatElapsed := 0 |>) in
  let* _ := resetRandomizedElectionTimeout in
  let* _ := abortLeaderTransfer in
  let* _ := modify (fun r => r <| r_votes := ElectionTracker_ResetVotes (r_votes r) |>) in
  let* _ := Visit (fun id r => pr_set id (reset_Progress r id) r) in
  modify (fun r => r <| r_pendingConfIndex := 0 |> <| r_uncommittedSize := 0 |>).

Definition becomeFollower (term : Z) (lead : PeerID) : M unit :=
  let* _ := modify (fun r => r <| r_step := stepFollower_f |>) in
  let* _ := reset term in
  modify (fun r => r <| r_tick := tickElection_f |> <| r_lead := lead |> <| r_state := StateFollower |>).

Definition becomeCandidate : M unit :=
  let* state := gets r_state in
  if bool_decide (state = StateLeader) then rpanic "invalid transition [leader -> candidate]"
  else
    let* _ := modify (fun r => r <| r_step := stepCandidate_f |>) in
    let* term := gets r_Term in
    let* _ := reset (term +u 1) in
    modify (fun r => r <| r_tick := tickElection_f |> <| r_Vote := r_id r |> <| r_state := StateCandidate |>).

Definition becomePreCandidate : M unit :=
  let* state := gets r_state in
  if bool_decide (state = StateLeader) then rpanic "invalid transition [leader -> pre-candidate]"
  else
    let* supporting := supportingFortifiedLeader in
    let* ok := gets (fun r => negb supporting || (r_lead r =? r_id r)) in
    let* _ := assertTrue ok "should not be supporting a fortified leader when becoming pre-candidate; leader exempted" in
    modify (fun r => r <| r_step := stepCandidate_f |> <| r_votes := ElectionTracker_ResetVotes (r_votes r) |>
                       <| r_tick := tickElection_f |> <| r_lead := None_ID |> <| r_leadEpoch := 0 |>
                       <| r_state := StatePreCandidate |>).

Definition becomeLeader : M unit :=
  let* state := gets r_state in
  if bool_decide (state = StateFollower) then rpanic "invalid transition [follower -> leader]"
  else
    let* _ := modify (fun r => r <| r_step := stepLeader_f |>) in
    let* term := gets r_Term in
    let* _ := reset term in
    let* _ := modify (fun r => r <| r_tick := tickHeartbeat_f |> <| r_lead := r_id r |> <| r_state := StateLeader |>) in
    let* id := gets r_id in
    let* _ := pr_set id Progress_BecomeReplicate in
    let* _ := pr_set id (fun pr => pr <| RecentActive := true |>) in
    let* _ := modify (fun r => r <| r_pendingConfIndex := raftLog_lastIndex (r_raftLog r) |>) in
    let* ok := appendEntry [mkEntry 0 0 EntryNormal []] in
    if negb ok then rpanic "empty entry was dropped" else mret tt.

Definition is_conf_change (t : EntryType) : bool :=
  match t with EntryConfChange | EntryConfChangeV2 => true | EntryNormal => false end.

(** The callback of the scan: its state is the captured variable [found]. *)
Definition find_conf_change (found : bool) (ents : list Entry) : outcome (bool * option error) :=
  if existsb (fun e => is_conf_change (e_Type e)) ents then Ret (true, Some errBreak) else Ret (found, None).

Definition hasUnappliedConfChanges : M bool := reads (fun r =>
  let l := r_raftLog r in
  if l_applied l >=? l_committed l then Ret false
  else
    let lo := l_applied l +u 1 in
    let hi := l_committed l +u 1 in
    let! '(found, err) := raftLog_scan Size l lo hi (l_maxApplyingEntsSize l) find_conf_change false in
    match err with
    | None | Some errBreak => Ret found
    | Some _ => Panic "error scanning unapplied entries"
    end).

Definition campaign (t : CampaignType) : M unit :=
  let* '(voteMsg, term) :=
    if bool_decide (t = campaignPreElection) then
      let* _ := becomePreCandidate in
      let* term := gets r_Term in
      mret (MsgPreVote, term +u 1)
    else
      let* _ := becomeCandidate in
      let* term := gets r_Term in
      mret (MsgVote, term) in
  let* order := gets (fun r => merge_sort Z.le (elements (JointConfig_IDs (Voters (r_config r))))) in
  for_each (fun id =>
    let* self := gets r_id in
    if id =? self then
      let* resp := reads (fun _ => voteRespMsgType voteMsg) in
      send (Msg resp <| m_To := id |> <| m_Term := term |>)
    else
      let* last := reads (fun r => raftLog_lastEntryID (r_raftLog r)) in
      let ctx := if bool_decide (t = campaignTransfer) then campaignTransfer_bytes else [] in
      send (Msg voteMsg <| m_To := id |> <| m_Term := term |> <| m_Index := id_index last |>
              <| m_LogTerm := id_term last |> <| m_Context := ctx |>)) order.

Definition hup (t : CampaignType) : M unit :=
  let* state := gets r_state in
  if bool_decide (state = StateLeader) then mret tt
  else
    let* ok := promotable in
    if negb ok then mret tt
    else
      let* supporting := supportingFortifiedLeader in
      let* fortified := gets (fun r => supporting && negb (r_lead r =? r_id r)) in
      if (fortified : bool) then mret tt
      else
        let* pending := hasUnappliedConfChanges in
        if (pending : bool) then mret tt else campaign t.

Definition poll (id : PeerID) (v : bool) : M (Z * Z * VoteResult) :=
  let* _ := modify (fun r => r <| r_votes := ElectionTracker_RecordVote (r_votes r) id v |>) in
  gets (fun r => ElectionTracker_TallyVotes (r_config r) (r_votes r)).

Definition transferLeader (to : PeerID) : M unit :=
  let* state := gets r_state in
  let* _ := assertTrue (bool_decide (state = StateLeader)) "only the leader can transfer leadership" in
  let* _ := send (Msg MsgTimeoutNow <| m_To := to |>) in
  let* term := gets r_Term in
  let* lead := gets r_lead in
  becomeFollower term lead.

(** ** Configuration changes *)

Definition switchToConfig (cfg : Config) (progressMap : ProgressMap) : M ConfState :=
  let* _ := modify (fun r => r <| r_config := cfg |> <| r_trk := progressMap |>) in
  let cs := Config_ConfState cfg in
  let* self := gets r_id in
  let* pr := Progress_of self in
  let isLearner := match pr with Some pr => IsLearner pr | None => false end in
  let* _ := modify (fun r => r <| r_isLearner := isLearner |>) in
  let* state := gets r_state in
  let* lead := gets r_lead in
  let* stepDown := gets r_stepDownOnRemoval in
  if (negb (bool_decide (is_Some pr)) || isLearner) && bool_decide (state = StateLeader) then
    let* _ :=
      if (stepDown : bool) then let* term := gets r_Term in becomeFollower term lead else mret tt in
    mret cs
  else if negb (bool_decide (state = StateLeader)) || (len (cs_Voters cs) =? 0) then mret cs
  else
    let* _ := maybeCommit in
    let* _ := bcastAppend in
    let* gone := gets (fun r =>
      negb (bool_decide (r_leadTransferee r ∈ JointConfig_IDs (Voters (r_config r)))) &&
      negb (r_leadTransferee r =? 0)) in
    let* _ := if (gone : bool) then abortLeaderTransfer else mret tt in
    mret cs.

Definition applyConfChange (cc : ConfChangeV2) : M ConfState :=
  let* res := reads (fun r =>
    let changer := mkChanger (r_config r) (r_trk r) (r_maxInflight r) (r_maxInflightBytes r)
                     (raftLog_lastIndex (r_raftLog r)) in
    if ConfChangeV2_LeaveJoint cc then Changer_LeaveJoint changer
    else
      let! '(autoLeave, ok) := ConfChangeV2_EnterJoint cc in
      if (ok : bool) then Changer_EnterJoint changer autoLeave (ccv2_Changes cc)
      else Changer_Simple changer (ccv2_Changes cc)) in
  match res with
  | inl _ => rpanic "unexpected error"
  | inr (cfg, progressMap) => switchToConfig cfg progressMap
  end.

(** ** Message handlers *)

Definition logSliceFromMsgApp (m : Message) : logSlice :=
  mkLogSlice (m_Term m) (mkEntryID (m_LogTerm m) (m_Index m)) (m_Entries m).

Definition checkMatch (matched : Z) : M unit :=
  let* last := gets (fun r => raftLog_lastIndex (r_raftLog r)) in
  if last <? matched then rpanic "match is out of range" else mret tt.

(** A MsgAppResp with the given index and the local commit index. *)
Definition send_ack (to : PeerID) (index : Z) : M unit :=
  let* committed := gets (fun r => l_committed (r_raftLog r)) in
  send (Msg MsgAppResp <| m_To := to |> <| m_Index := index |> <| m_Commit := committed |>).

Definition handleAppendEntries (m : Message) : M unit :=
  let* _ := checkMatch (m_Match m) in
  let a := logSliceFromMsgApp m in
  match logSlice_valid a with
  | Some _ => mret tt
  | None =>
    let* committed := gets (fun r => l_committed (r_raftLog r)) in
    if id_index (ls_prev a) <? committed then send_ack (m_From m) committed
    else
      let* ok := log_op (fun l => raftLog_maybeAppend l a) in
      if (ok : bool) then
        let lastIndex := logSlice_lastIndex a in
        let* _ := log_upd (fun l => raftLog_commitTo l (mkLogMark (m_Term m) (Z.min (m_Commit m) lastIndex))) in
        send_ack (m_From m) lastIndex
      else
        let* _ := reads (fun r =>
          let! t := raftLog_term (r_raftLog r) (m_Index m) in raftLog_zeroTermOnOutOfBounds t) in
        let* '(hintIndex, hintTerm) := reads (fun r =>
          raftLog_findConflictByTerm (r_raftLog r) (Z.min (m_Index m) (raftLog_lastIndex (r_raftLog r))) (m_LogTerm m)) in
        let* committed := gets (fun r => l_committed (r_raftLog r)) in
        send (Msg MsgAppResp <| m_To := m_From m |> <| m_Index := m_Index m |> <| m_Commit := committed |>
                <| m_Reject := true |> <| m_RejectHint := hintIndex |> <| m_LogTerm := hintTerm |>)
  end.

Definition handleHeartbeat (m : Message) : M unit :=
  let* _ := checkMatch (m_Match m) in
  let* last := gets (fun r => raftLog_lastIndex (r_raftLog r)) in
  let mark := mkLogMark (m_Term m) (Z.min (m_Commit m) last) in
  let* accTerm := gets (fun r => raftLog_accTerm (r_raftLog r)) in
  let* _ := if mark_Term mark =? accTerm then log_upd (fun l => raftLog_commitTo l mark) else mret tt in
  send (Msg MsgHeartbeatResp <| m_To := m_From m |>).

Definition in_ConfState (id : PeerID) (cs : ConfState) : bool :=
  bool_decide (id ∈ cs_Voters cs) || bool_decide (id ∈ cs_Learners cs) ||
  bool_decide (id ∈ cs_VotersOutgoing cs).

Definition assertConfStatesEquivalent (cs1 cs2 : ConfState) : M unit :=
  if ConfState_Equivalent cs1 cs2 then mret tt else rpanic "ConfStates not equivalent".

(** [confchange.Restore] into an empty configuration, and the switch to it. *)
Definition restoreConfig (lastIndex : Z) (cs : ConfState) : M unit :=
  let* res := reads (fun r =>
    Restore (mkChanger MakeEmptyConfig ∅ (r_maxInflight r) (r_maxInflightBytes r) lastIndex) cs) in
  match res with
  | inl _ => rpanic "unable to restore config"
  | inr (cfg, progressMap) =>
    let* cs' := switchToConfig cfg progressMap in assertConfStatesEquivalent cs cs'
  end.

Definition restore (s : snapshot) : M bool :=
  let id := snapshot_lastEntryID s in
  let cs := sm_ConfState (s_Metadata (snap_snap s)) in
  let* committed := gets (fun r => l_committed (r_raftLog r)) in
  if id_index id <=? committed then mret false
  else
    let* state := gets r_state in
    if negb (bool_decide (state = StateFollower)) then rpanic "attempted to restore snapshot in state"
    else
      let* self := gets r_id in
      if negb (in_ConfState self cs) then mret false
      else
        let* matches := reads (fun r => raftLog_matchTerm (r_raftLog r) id) in
        if (matches : bool) then
          let* _ := reads (fun r => raftLog_lastEntryID (r_raftLog r)) in
          let* _ := log_upd (fun l => raftLog_commitTo l (snapshot_mark s)) in
          mret false
        else
          let* ok := log_op (fun l => Ret (raftLog_restore l s)) in
          if negb ok then mret false
          else
            let* last := gets (fun r => raftLog_lastIndex (r_raftLog r)) in
            let* _ := restoreConfig last cs in
            let* _ := reads (fun r => raftLog_lastEntryID (r_raftLog r)) in
            mret true.

Definition handleSnapshot (m : Message) : M unit :=
  let s := mkSnap (m_Term m) (default empty_Snapshot (m_Snapshot m)) in
  match snapshot_valid s with
  | Some _ => mret tt
  | None =>
    let* ok := restore s in
    let* index := gets (fun r =>
      if (ok : bool) then raftLog_lastIndex (r_raftLog r) else l_committed (r_raftLog r)) in
    send_ack (m_From m) index
  end.

Definition handleFortify (m : Message) : M unit :=
  let* state := gets r_state in
  let* _ := assertTrue (bool_decide (state = StateFollower)) "leaders should locally fortify without sending a message" in
  let* lead := gets r_lead in
  let* _ := assertTrue (lead =? m_From m) "only the leader should send fortification requests" in
  let* '(epoch, live) := SupportFor lead in
  if negb live then send (Msg MsgFortifyLeaderResp <| m_To := m_From m |> <| m_Reject := true |>)
  else
    let* _ := modify (fun r => r <| r_leadEpoch := epoch |>) in
    send (Msg MsgFortifyLeaderResp <| m_To := m_From m |> <| m_LeadEpoch := epoch |>).

Definition handleFortifyResp (m : Message) : M unit :=
  let* state := gets r_state in
  assertTrue (bool_decide (state = StateLeader)) "only leaders should be handling fortification responses".

(** ** The step functions *)

(** The configuration change an entry carries: [Some None] when decoding it
    fails. *)
Definition decode_conf_change (e : Entry) : option (option ConfChangeI) :=
  match e_Type e with
  | EntryNormal => None
  | EntryConfChange => Some (ConfChangeI_V1 <$> env_Unmarshal_ConfChange E (e_Data e))
  | EntryConfChangeV2 => Some (ConfChangeI_V2 <$> env_Unmarshal_ConfChangeV2 E (e_Data e))
  end.

(** The loop over the proposed entries: a configuration change that may not be
    proposed now is replaced with an empty entry. *)
Fixpoint check_proposals (i : Z) (es : list Entry) : M (list Entry) :=
  match es with
  | [] => mret []
  | e :: es =>
    let* e :=
      match decode_conf_change e with
      | None => mret e
      | Some None => rpanic "unexpected error"
      | Some (Some cc) =>
        let* alreadyPending := gets (fun r => r_pendingConfIndex r >? l_applied (r_raftLog r)) in
        let* alreadyJoint := gets (fun r => map_len (outgoing (Voters (r_config r))) >? 0) in
        let wantsLeaveJoint := len (ccv2_Changes (ConfChangeI_AsV2 cc)) =? 0 in
        let failedCheck := alreadyPending || (alreadyJoint && negb wantsLeaveJoint) || (negb alreadyJoint && wantsLeaveJoint) in
        let* disabled := gets r_disableConfChangeValidation in
        if alreadyPending || (failedCheck && negb disabled) then mret (mkEntry 0 0 EntryNormal [])
        else
          let* _ := modify (fun r => r <| r_pendingConfIndex := (raftLog_lastIndex (r_raftLog r) +u i) +u 1 |>) in
          mret e
      end in
    let* es := check_proposals (i + 1) es in
    mret (e :: es)
  end.

Definition stepLeader_MsgProp (m : Message) : M (option error) :=
  if len (m_Entries m) =? 0 then rpanic "stepped empty MsgProp"
  else
    let* self := gets r_id in
    let* pr := Progress_of self in
    let* leadTransferee := gets r_leadTransferee in
    if negb (bool_decide (is_Some pr)) then mret (Some ErrProposalDropped)
    else if negb (leadTransferee =? None_ID) then mret (Some ErrProposalDropped)
    else
      let* entries := check_proposals 0 (m_Entries m) in
      let* ok := appendEntry entries in
      if negb ok then mret (Some ErrProposalDropped)
      else
        let* _ := bcastAppend in
        mret None.

Definition stepLeader_MsgAppResp_reject (m : Message) : M unit :=
  let from := m_From m in
  let* nextProbeIdx :=
    if m_LogTerm m >? 0 then
      let* '(index, _) := reads (fun r =>
        raftLog_findConflictByTerm (r_raftLog r) (m_RejectHint m) (m_LogTerm m)) in
      mret index
    else mret (m_RejectHint m) in
  let* decreased := pr_op from (fun pr => Ret (Progress_MaybeDecrTo pr (m_Index m) nextProbeIdx)) in
  if (decreased : bool) then
    let* _ := pr_set from (fun pr =>
      if bool_decide (State pr = StateReplicate) then Progress_BecomeProbe pr else pr) in
    let* _ := maybeSendAppend from in
    mret tt
  else mret tt.

(** The switch over the state of the progress of an acknowledging peer. *)
Definition advance_progress (from : PeerID) (index : Z) : M unit :=
  let* state := pr_get from State in
  match state with
  | StateProbe => pr_set from Progress_BecomeReplicate
  | StateSnapshot =>
    let* matched := pr_get from Match in
    let* fi := reads (fun r => raftLog_firstIndex (r_raftLog r)) in
    if matched +u 1 >=? fi then
      let* _ := pr_set from Progress_BecomeProbe in
      pr_set from Progress_BecomeReplicate
    else mret tt
  | StateReplicate =>
    pr_op from (fun pr =>
      let! inflights := Inflights_FreeLE (PInflights pr) index in
      Ret (pr <| PInflights := inflights |>, tt))
  end.

Definition stepLeader_MsgAppResp_accept (m : Message) : M unit :=
  let from := m_From m in
  let* updated := pr_op from (fun pr => Ret (Progress_MaybeUpdate pr (m_Index m))) in
  let* probing := pr_get from (fun pr => (Match pr =? m_Index m) && bool_decide (State pr = StateProbe)) in
  if updated || probing then
    let* _ := advance_progress from (m_Index m) in
    let* advanced := maybeCommit in
    let* _ := if (advanced : bool) then bcastAppend else mret tt in
    let* self := gets r_id in
    let* _ := if negb (self =? from) then sendAppend_all from else mret tt in
    let* leadTransferee := gets r_leadTransferee in
    let* matched := pr_get from Match in
    let* last := gets (fun r => raftLog_lastIndex (r_raftLog r)) in
    if (from =? leadTransferee) && (matched =? last) then transferLeader from else mret tt
  else mret tt.

Definition stepLeader_MsgAppResp (m : Message) : M unit :=
  let* _ := pr_set (m_From m) (fun pr => pr <| RecentActive := true |>) in
  let* _ := pr_set (m_From m) (fun pr => Progress_MaybeUpdateMatchCommit pr (m_Commit m)) in
  if m_Reject m then stepLeader_MsgAppResp_reject m else stepLeader_MsgAppResp_accept m.

Definition stepLeader_MsgTransferLeader (m : Message) : M unit :=
  let leadTransferee := m_From m in
  let* learner := pr_get leadTransferee IsLearner in
  let* lastLeadTransferee := gets r_leadTransferee in
  if (learner : bool) then mret tt
  else if negb (lastLeadTransferee =? None_ID) && (lastLeadTransferee =? leadTransferee) then mret tt
  else
    let* _ := if negb (lastLeadTransferee =? None_ID) then abortLeaderTransfer else mret tt in
    let* self := gets r_id in
    if leadTransferee =? self then mret tt
    else
      let* _ := modify (fun r => r <| r_electionElapsed := 0 |> <| r_leadTransferee := leadTransferee |>) in
      let* matched := pr_get leadTransferee Match in
      let* last := gets (fun r => raftLog_lastIndex (r_raftLog r)) in
      if matched =? last then transferLeader leadTransferee
      else
        let* _ := pr_set leadTransferee (fun pr => pr <| MsgAppProbesPaused := false |>) in
        let* _ := maybeSendAppend leadTransferee in
        mret tt.

(** The second switch of stepLeader, on messages from a tracked peer. *)
Definition stepLeader_peer (m : Message) : M unit :=
  let from := m_From m in
  match m_Type m with
  | MsgAppResp => stepLeader_MsgAppResp m
  | MsgHeartbeatResp =>
    let* _ := pr_set from (fun pr => pr <| RecentActive := true |>) in
    let* _ := pr_set from (fun pr => pr <| MsgAppProbesPaused := false |>) in
    let* _ := maybeSendAppend from in
    mret tt
  | MsgSnapStatus =>
    pr_set from (fun pr =>
      if negb (bool_decide (State pr = StateSnapshot)) then pr
      else
        let pr :=
          if negb (m_Reject m) then Progress_BecomeProbe pr
          else Progress_BecomeProbe (pr <| PendingSnapshot := 0 |>) in
        pr <| MsgAppProbesPaused := true |>)
  | MsgUnreachable =>
    pr_set from (fun pr => if bool_decide (State pr = StateReplicate) then Progress_BecomeProbe pr else pr)
  | MsgTransferLeader => stepLeader_MsgTransferLeader m
  | _ => mret tt
  end.

Definition stepLeader_from (m : Message) : M (option error) :=
  let* pr := Progress_of (m_From m) in
  match pr with
  | None => mret None
  | Some _ => let* _ := stepLeader_peer m in mret None
  end.

Definition stepLeader (m : Message) : M (option error) :=
  match m_Type m with
  | MsgBeat => let* _ := bcastHeartbeat in mret None
  | MsgCheckQuorum =>
    let* active := gets (fun r => ProgressTracker_QuorumActive (r_config r) (r_trk r)) in
    let* _ :=
      if negb active then
        let* term := gets r_Term in
        let* self := gets r_id in
        becomeFollower term self
      else mret tt in
    let* _ := Visit (fun id =>
      let* self := gets r_id in
      if negb (id =? self) then pr_set id (fun pr => pr <| RecentActive := false |>) else mret tt) in
    mret None
  | MsgProp => stepLeader_MsgProp m
  | MsgForgetLeader => mret None
  | MsgFortifyLeaderResp =>
    let* _ := handleFortifyResp m in stepLeader_from m
  | _ => stepLeader_from m
  end.

Definition stepCandidate_poll (m : Message) : M unit :=
  let* '(_, _, res) := poll (m_From m) (negb (m_Reject m)) in
  match res with
  | VoteWon =>
    let* state := gets r_state in
    if bool_decide (state = StatePreCandidate) then campaign campaignElection
    else
      let* _ := becomeLeader in
      let* _ := bcastFortify in
      bcastAppend
  | VoteLost =>
    let* term := gets r_Term in
    let* lead := gets r_lead in
    becomeFollower term lead
  | VotePending => mret tt
  end.

(** [r.becomeFollower(m.Term, m.From)] and the handler. *)
Definition follow_and (m : Message) (handler : Message -> M unit) : M (option error) :=
  let* _ := becomeFollower (m_Term m) (m_From m) in
  let* _ := handler m in
  mret None.

Definition stepCandidate (m : Message) : M (option error) :=
  let* state := gets r_state in
  let myVoteRespType := if bool_decide (state = StatePreCandidate) then MsgPreVoteResp else MsgVoteResp in
  match m_Type m with
  | MsgProp => mret (Some ErrProposalDropped)
  | MsgApp => follow_and m handleAppendEntries
  | MsgHeartbeat => follow_and m handleHeartbeat
  | MsgSnap => follow_and m handleSnapshot
  | MsgFortifyLeader => follow_and m handleFortify
  | t => if bool_decide (t = myVoteRespType) then let* _ := stepCandidate_poll m in mret None else mret None
  end.

(** [r.electionElapsed = 0; r.lead = m.From] and the handler. *)
Definition heed_and (m : Message) (handler : Message -> M unit) : M (option error) :=
  let* _ := modify (fun r => r <| r_electionElapsed := 0 |> <| r_lead := m_From m |>) in
  let* _ := handler m in
  mret None.

Definition stepFollower (m : Message) : M (option error) :=
  let* lead := gets r_lead in
  let* self := gets r_id in
  match m_Type m with
  | MsgProp =>
    let* disabled := gets r_disableProposalForwarding in
    if (lead =? None_ID) || disabled || (lead =? self) then mret (Some ErrProposalDropped)
    else let* _ := send (m <| m_To := lead |>) in mret None
  | MsgApp => heed_and m handleAppendEntries
  | MsgHeartbeat => heed_and m handleHeartbeat
  | MsgSnap => heed_and m handleSnapshot
  | MsgFortifyLeader => heed_and m handleFortify
  | MsgTransferLeader =>
    if (lead =? None_ID) || (lead =? self) then mret None
    else let* _ := send (m <| m_To := lead |>) in mret None
  | MsgForgetLeader =>
    if lead =? None_ID then mret None
    else
      let* supporting := supportingFortifiedLeader in
      if supporting && negb (lead =? m_From m) then mret None
      else
        let* _ := modify (fun r => r <| r_lead := None_ID |> <| r_leadEpoch := 0 |>) in
        mret None
  | MsgTimeoutNow =>
    let* _ := modify (fun r => r <| r_leadEpoch := 0 |>) in
    let* _ := hup campaignTransfer in
    mret None
  | _ => mret None
  end.

Definition step (m : Message) : M (option error) :=
  let* f := gets r_step in
  match f with
  | stepFollower_f => stepFollower m
  | stepCandidate_f => stepCandidate m
  | stepLeader_f => stepLeader m
  end.

(** ** Step *)

(** What handling the term of a message decides: return at once, or go on with
    the message. *)
Inductive term_verdict : Set := Done | GoOn.

Definition Step_higher_term (m : Message) : M term_verdict :=
  let is_vote := bool_decide (m_Type m = MsgVote) || bool_decide (m_Type m = MsgPreVote) in
  let* ignore :=
    if is_vote then
      let force := bool_decide (m_Context m = campaignTransfer_bytes) in
      let* inHeartbeatLease := gets (fun r =>
        r_checkQuorum r && negb (r_lead r =? None_ID) && (r_electionElapsed r <? r_electionTimeout r)) in
      let* supporting := supportingFortifiedLeader in
      let* inFortifyLease := gets (fun r => supporting && negb (r_lead r =? m_From m)) in
      if negb force && (inHeartbeatLease || inFortifyLease) then
        let* _ := reads (fun r => raftLog_lastEntryID (r_raftLog r)) in mret true
      else
        let* _ := deFortify (m_From m) (m_Term m) in mret false
    else mret false in
  if (ignore : bool) then mret Done
  else
    let* _ :=
      if bool_decide (m_Type m = MsgPreVote) then mret tt
      else if bool_decide (m_Type m = MsgPreVoteResp) && negb (m_Reject m) then mret tt
      else if IsMsgFromLeader (m_Type m) then
        let* _ := deFortify (m_From m) (m_Term m) in
        becomeFollower (m_Term m) (m_From m)
      else becomeFollower (m_Term m) None_ID in
    mret GoOn.

Definition Step_lower_term (m : Message) : M unit :=
  let* cq := gets (fun r => r_checkQuorum r || r_preVote r) in
  if cq && (bool_decide (m_Type m = MsgHeartbeat) || bool_decide (m_Type m = MsgApp)) then
    send (Msg MsgAppResp <| m_To := m_From m |>)
  else if bool_decide (m_Type m = MsgPreVote) then
    let* _ := reads (fun r => raftLog_lastEntryID (r_raftLog r)) in
    let* term := gets r_Term in
    send (Msg MsgPreVoteResp <| m_To := m_From m |> <| m_Term := term |> <| m_Reject := true |>)
  else mret tt.

Definition Step_term (m : Message) : M term_verdict :=
  let* term := gets r_Term in
  if m_Term m =? 0 then mret GoOn
  else if m_Term m >? term then Step_higher_term m
  else if m_Term m <? term then let* _ := Step_lower_term m in mret Done
  else mret GoOn.

Definition Step_vote (m : Message) : M unit :=
  let* canVote := gets (fun r =>
    (r_Vote r =? m_From m) || ((r_Vote r =? None_ID) && (r_lead r =? None_ID)) ||
    (bool_decide (m_Type m = MsgPreVote) && (m_Term m >? r_Term r))) in
  let* _ := reads (fun r => raftLog_lastEntryID (r_raftLog r)) in
  let candLastID := mkEntryID (m_LogTerm m) (m_Index m) in
  let* grant := if (canVote : bool) then reads (fun r => raftLog_isUpToDate (r_raftLog r) candLastID) else mret false in
  let* resp := reads (fun _ => voteRespMsgType (m_Type m)) in
  if (grant : bool) then
    let* _ := send (Msg resp <| m_To := m_From m |> <| m_Term := m_Term m |>) in
    if bool_decide (m_Type m = MsgVote) then
      modify (fun r => r <| r_electionElapsed := 0 |> <| r_Vote := m_From m |>)
    else mret tt
  else
    let* term := gets r_Term in
    send (Msg resp <| m_To := m_From m |> <| m_Term := term |> <| m_Reject := true |>).

(** [Step] and [appliedTo] call each other; the recursive call of [appliedTo] is a
    parameter. *)
Definition appliedTo_with (rec : Message -> M (option error)) (index size : Z) : M unit :=
  let* oldApplied := gets (fun r => l_applied (r_raftLog r)) in
  let newApplied := Z.max index oldApplied in
  let* _ := log_upd (fun l => raftLog_appliedTo l newApplied size) in
  let* leave := gets (fun r =>
    AutoLeave (r_config r) && (newApplied >=? r_pendingConfIndex r) && bool_decide (r_state r = StateLeader)) in
  if (leave : bool) then let* _ := rec confChangeToMsg_nil in mret tt else mret tt.

Definition appliedSnap_with (rec : Message -> M (option error)) (snap : Snapshot) : M unit :=
  let* _ := log_upd (fun l => Ret (raftLog_stableSnapTo l (s_Index snap))) in
  appliedTo_with rec (s_Index snap) 0.

Definition Step_dispatch (rec : Message -> M (option error)) (m : Message) : M (option error) :=
  match m_Type m with
  | MsgHup =>
    let* preVote := gets r_preVote in
    let* _ := hup (if (preVote : bool) then campaignPreElection else campaignElection) in
    mret None
  | MsgStorageAppendResp =>
    let* _ := match m_Snapshot m with Some snap => appliedSnap_with rec snap | None => mret tt end in
    let* _ :=
      if negb (m_Index m =? 0) then log_upd (fun l => raftLog_stableTo l (mkLogMark (m_LogTerm m) (m_Index m)))
      else mret tt in
    mret None
  | MsgStorageApplyResp =>
    if len (m_Entries m) >? 0 then
      let* e := reads (fun _ => slice_get (m_Entries m) (len (m_Entries m) - 1)) in
      let* _ := appliedTo_with rec (e_Index e) (entsSize Size (m_Entries m)) in
      let* _ := reduceUncommittedSize (payloadsSize (m_Entries m)) in
      mret None
    else mret None
  | MsgVote | MsgPreVote => let* _ := Step_vote m in mret None
  | _ => step m
  end.

Definition Step_with (rec : Message -> M (option error)) (m : Message) : M (option error) :=
  let* verdict := Step_term m in
  match verdict with
  | Done => mret None
  | GoOn => Step_dispatch rec m
  end.

(** The recursive call handles a local proposal, which makes no further one. *)
Definition Step : Message -> M (option error) := Step_with (Step_with (fun _ => rpanic "unreachable")).
Definition appliedTo : Z -> Z -> M unit := appliedTo_with Step.
Definition appliedSnap : Snapshot -> M unit := appliedSnap_with Step.

(** ** Ticking *)

Definition tickElection : M unit :=
  let* state := gets r_state in
  let* _ := assertTrue (negb (bool_decide (state = StateLeader))) "tickElection called by leader" in
  let* leadEpoch := gets r_leadEpoch in
  let* supported :=
    if negb (leadEpoch =? 0) then
      let* supporting := supportingFortifiedLeader in
      if (supporting : bool) then mret true
      else
        let* self := gets r_id in
        let* term := gets r_Term in
        let* _ := deFortify self term in
        let* _ := modify (fun r =>
          if r_electionElapsed r =? 0 then r <| r_electionElapsed := r_electionTimeout r - 1 |> else r) in
        mret false
    else mret false in
  if (supported : bool) then modify (fun r => r <| r_electionElapsed := 0 |>)
  else
    let* _ := modify (fun r => r <| r_electionElapsed := r_electionElapsed r + 1 |>) in
    let* ok := promotable in
    let* past := gets pastElectionTimeout in
    if ok && past then
      let* _ := modify (fun r => r <| r_electionElapsed := 0 |>) in
      let* self := gets r_id in
      let* _ := Step (Msg MsgHup <| m_From := self |>) in
      mret tt
    else mret tt.

Definition tickHeartbeat : M unit :=
  let* state := gets r_state in
  let* _ := assertTrue (bool_decide (state = StateLeader)) "tickHeartbeat called by non-leader" in
  let* _ := modify (fun r => r <| r_heartbeatElapsed := r_heartbeatElapsed r + 1 |>
                               <| r_electionElapsed := r_electionElapsed r + 1 |>) in
  let* self := gets r_id in
  let* timeout := gets (fun r => r_electionElapsed r >=? r_electionTimeout r) in
  let* stepped_down :=
    if (timeout : bool) then
      let* _ := modify (fun r => r <| r_electionElapsed := 0 |>) in
      let* cq := gets r_checkQuorum in
      let* down :=
        if (cq : bool) then
          let* err := Step (Msg MsgCheckQuorum <| m_From := self |>) in
          match err with
          | Some _ => mret false
          | None => gets (fun r => negb (bool_decide (r_state r = StateLeader)))
          end
        else mret false in
      if (down : bool) then mret true
      else
        let* _ := modify (fun r =>
          if negb (r_leadTransferee r =? None_ID) then r <| r_leadTransferee := None_ID |> else r) in
        mret false
    else mret false in
  if (stepped_down : bool) then mret tt
  else
    let* beat := gets (fun r => r_heartbeatElapsed r >=? r_heartbeatTimeout r) in
    if (beat : bool) then
      let* _ := modify (fun r => r <| r_heartbeatElapsed := 0 |>) in
      let* _ := Step (Msg MsgBeat <| m_From := self |>) in
      mret tt
    else mret tt.

Definition tick : M unit :=
  let* f := gets r_tick in
  match f with
  | tickElection_f => tickElection
  | tickHeartbeat_f => tickHeartbeat
  end.

Definition testingStepDown : M (option error) :=
  let* lead := gets r_lead in
  let* self := gets r_id in
  if negb (lead =? self) then mret (Some (Errorf "cannot step down if not the leader" []))
  else
    let* term := gets r_Term in
    let* _ := becomeFollower term self in
    mret None.

(** ** Construction *)

(** The struct Config of raft.go, apart from the logger and the interfaces that
    are part of [Env]. *)
Record RaftConfig : Type := mkRaftConfig {
  c_ID : PeerID;
  c_ElectionTick : Z;
  c_HeartbeatTick : Z;
  c_Storage : option Storage;
  c_Applied : Z;
  c_AsyncStorageWrites : bool;
  c_MaxSizePerMsg : Z;
  c_MaxCommittedSizePerReady : Z;
  c_MaxUncommittedEntriesSize : Z;
  c_MaxInflightMsgs : Z;
  c_MaxInflightBytes : Z;
  c_CheckQuorum : bool;
  c_PreVote : bool;
  c_DisableProposalForwarding : bool;
  c_DisableConfChangeValidation : bool;
  c_StepDownOnRemoval : bool
}.

(** Rewrites the defaulted fields, or fails. *)
Definition RaftConfig_validate (c : RaftConfig) : error + (RaftConfig * Storage) :=
  if c_ID c =? None_ID then inl (Errorf "cannot use none as id" [])
  else if IsLocalMsgTarget (c_ID c) then inl (Errorf "cannot use local target as id" [])
  else if c_HeartbeatTick c <=? 0 then inl (Errorf "heartbeat tick must be greater than 0" [])
  else if c_ElectionTick c <=? c_HeartbeatTick c then
    inl (Errorf "election tick must be greater than heartbeat tick" [])
  else
    match c_Storage c with
    | None => inl (Errorf "storage cannot be nil" [])
    | Some storage =>
      let maxUncommitted := if c_MaxUncommittedEntriesSize c =? 0 then noLimit else c_MaxUncommittedEntriesSize c in
      let maxCommitted := if c_MaxCommittedSizePerReady c =? 0 then c_MaxSizePerMsg c else c_MaxCommittedSizePerReady c in
      if c_MaxInflightMsgs c <=? 0 then inl (Errorf "max inflight messages must be greater than 0" [])
      else if negb (c_MaxInflightBytes c =? 0) && (c_MaxInflightBytes c <? c_MaxSizePerMsg c) then
        inl (Errorf "max inflight bytes must be >= max message size" [])
      else
        let maxInflightBytes := if c_MaxInflightBytes c =? 0 then noLimit else c_MaxInflightBytes c in
        inr (mkRaftConfig (c_ID c) (c_ElectionTick c) (c_HeartbeatTick c) (c_Storage c) (c_Applied c)
               (c_AsyncStorageWrites c) (c_MaxSizePerMsg c) maxCommitted maxUncommitted (c_MaxInflightMsgs c)
               maxInflightBytes (c_CheckQuorum c) (c_PreVote c) (c_DisableProposalForwarding c)
               (c_DisableConfChangeValidation c) (c_StepDownOnRemoval c), storage)
    end.

Definition loadState (state : HardState) : M unit :=
  let* l := gets r_raftLog in
  if (hs_Commit state <? l_committed l) || (hs_Commit state >? raftLog_lastIndex l) then
    rpanic "state.commit is out of range"
  else
    modify (fun r => r <| r_raftLog := r_raftLog r <| l_committed := hs_Commit state |> |>
                       <| r_Term := hs_Term state |> <| r_Vote := hs_Vote state |>
                       <| r_lead := hs_Lead state |> <| r_leadEpoch := hs_LeadEpoch state |>).

(** The struct literal of [newRaft]. *)
Definition initial_raft (c : RaftConfig) (raftlog : raftLog) : raft := {|
  r_id := c_ID c;
  r_Term := 0;
  r_Vote := None_ID;
  r_raftLog := raftlog;
  r_maxMsgSize := c_MaxSizePerMsg c;
  r_maxUncommittedSize := c_MaxUncommittedEntriesSize c;
  r_config := zero_Config;
  r_trk := ∅;
  r_votes := ∅;
  r_state := StateFollower;
  r_isLearner := false;
  r_msgs := [];
  r_msgsAfterAppend := [];
  r_lead := None_ID;
  r_leadEpoch := 0;
  r_leadTransferee := None_ID;
  r_pendingConfIndex := 0;
  r_disableConfChangeValidation := c_DisableConfChangeValidation c;
  r_uncommittedSize := 0;
  r_electionElapsed := 0;
  r_heartbeatElapsed := 0;
  r_maxInflight := c_MaxInflightMsgs c;
  r_maxInflightBytes := c_MaxInflightBytes c;
  r_checkQuorum := c_CheckQuorum c;
  r_preVote := c_PreVote c;
  r_heartbeatTimeout := c_HeartbeatTick c;
  r_electionTimeout := c_ElectionTick c;
  r_randomizedElectionTimeout := 0;
  r_disableProposalForwarding := c_DisableProposalForwarding c;
  r_stepDownOnRemoval := c_StepDownOnRemoval c;
  r_tick := tickElection_f;
  r_step := stepFollower_f;
  r_calls := 0
|}.

(** What [newRaft] does with the struct. The function pointers are nil until
    [becomeFollower] sets them, at the end. *)
Definition start (c : RaftConfig) (lastID : entryID) (hs : HardState) (cs : ConfState) : M unit :=
  let* _ := restoreConfig (id_index lastID) cs in
  let* _ := if negb (IsEmptyHardState hs) then loadState hs else mret tt in
  let* _ := if c_Applied c >? 0 then log_upd (fun l => raftLog_appliedTo l (c_Applied c) 0) else mret tt in
  let* term := gets r_Term in
  let* lead := gets r_lead in
  becomeFollower term lead.

Definition newRaft (c : RaftConfig) : outcome raft :=
  match RaftConfig_validate c with
  | inl _ => Panic "invalid configuration"
  | inr (c, storage) =>
    let! raftlog := newLogWithSize storage (c_MaxCommittedSizePerReady c) in
    let! '(hs, cs) := must (st_InitialState storage) in
    let! lastID := raftLog_lastEntryID raftlog in
    let! '(_, r) := start c lastID hs cs (initial_raft c raftlog) in
    Ret r
  end.

End raft.

(** ** An example peer *)

(** An environment in which every store supports every other one, as the mock
    AlwaysLive of raftstoreliveness has it, and the random source returns zero. *)
Definition example_Env : Env := {|
  env_Size := fun _ => 8;
  env_SupportFor := fun _ _ => (1, true);
  env_SupportFromEnabled := fun _ => true;
  env_IsActive_AdvanceCommitIndexViaMsgApps := fun _ => true;
  env_Intn := fun _ _ => 0;
  env_Unmarshal_ConfChange := fun _ => None;
  env_Unmarshal_ConfChangeV2 := fun data =>
    match data with [] => Some (mkConfChangeV2 ConfChangeTransitionAuto [] []) | _ => None end
|}.

(** Peer 1 of three voters, at term 4, with a snapshot at index 10 and the
    entries 11 and 12. *)
Definition example_MemoryStorage : MemoryStorage := {|
  ms_hardState := mkHardState 4 0 11 0 0;
  ms_snapshot := mkSnapshot [] (mkSnapshotMetadata (mkConfState [1; 2; 3] [] [] [] false) 10 3);
  ms_ents := [mkEntry 3 10 EntryNormal []; mkEntry 4 11 EntryNormal []; mkEntry 4 12 EntryNormal []]
|}.

Definition example_RaftConfig : RaftConfig := {|
  c_ID := 1; c_ElectionTick := 10; c_HeartbeatTick := 1;
  c_Storage := Some (MemoryStorage_Storage (env_Size example_Env) example_MemoryStorage);
  c_Applied := 0; c_AsyncStorageWrites := true; c_MaxSizePerMsg := 100; c_MaxCommittedSizePerReady := 0;
  c_MaxUncommittedEntriesSize := 0; c_MaxInflightMsgs := 4; c_MaxInflightBytes := 0;
  c_CheckQuorum := true; c_PreVote := false; c_DisableProposalForwarding := false;
  c_DisableConfChangeValidation := false; c_StepDownOnRemoval := true
|}.

(** The state an action ends in, if it does not panic. *)
Definition final {A} (m : M A) (r : raft) : raft := match m r with Ret (_, r') => r' | Panic _ => r end.
Definition returns {A} (m : M A) (r : raft) : bool := match m r with Ret _ => true | Panic _ => false end.

Lemma final_returns {A} (m : M A) r : returns m r = true -> exists x, m r = Ret (x, final m r).
Proof. unfold returns, final. destruct (m r) as [[x r']|]; [|done]. eauto. Qed.

Definition example_raft : raft :=
  match newRaft example_Env example_RaftConfig with
  | Ret r => r
  | Panic _ => initial_raft example_RaftConfig example_log
  end.

(** The peer is asked for a vote at term 5 by peer 2, whose log is as long. *)
Definition example_MsgVote : Message :=
  Msg MsgVote <| m_From := 2 |> <| m_To := 1 |> <| m_Term := 5 |> <| m_LogTerm := 4 |> <| m_Index := 12 |>.

(** The peer campaigns, and wins with the vote of peer 2. *)
Definition example_campaign : M unit :=
  let* _ := Step example_Env (Msg MsgHup <| m_From := 1 |>) in
  let* _ := Step example_Env (Msg MsgVoteResp <| m_From := 1 |> <| m_To := 1 |> <| m_Term := 5 |>) in
  let* _ := Step example_Env (Msg MsgVoteResp <| m_From := 2 |> <| m_To := 1 |> <| m_Term := 5 |>) in
  mret tt.

Definition example_leader : raft := final example_campaign example_raft.
