(* ===== verification/RawNode.v ===== *)
(** * The Ready loop (src/pkg/raft/rawnode.go, bootstrap.go, status.go)

    [RawNode] wraps a peer for the application that drives it: the application
    feeds it messages and ticks, takes the outstanding work with [Ready], and
    reports completion either with [Advance] or, with asynchronous storage writes,
    through the responses attached to the messages for the storage threads.

    The encoders of configuration changes are generated code and an argument of
    the operations that use them. The theorem of this file shows that [Ready] never
    panics, that [HasReady] announces exactly the work there is, and that taking
    it leaves none. *)

From S2P Require Import Prelude Hlc Quorum Tracker RaftPb ConfChange LogTypes Unstable Storage RaftLog LogApply Raft.

(** ** node.go *)

Record SoftState : Type := mkSoftState { RaftState : StateType }.

Definition SoftState_equal (a b : SoftState) : bool := bool_decide (RaftState a = RaftState b).

Definition emptyState : HardState := mkHardState 0 0 0 0 0.

Definition isHardStateEqual (a b : HardState) : bool := bool_decide (a = b).

Record Ready : Type := mkReady {
  rd_SoftState : option SoftState;
  rd_HardState : HardState;
  rd_Entries : list Entry;
  rd_Snapshot : Snapshot;
  rd_CommittedEntries : list Entry;
  rd_Messages : list Message;
  rd_MustSync : bool
}.

#[global] Instance eta_Ready : Eta Ready := fun rd =>
  mkReady (rd_SoftState rd) (rd_HardState rd) (rd_Entries rd) (rd_Snapshot rd) (rd_CommittedEntries rd)
    (rd_Messages rd) (rd_MustSync rd).

Definition raft_softState (r : raft) : SoftState := mkSoftState (r_state r).

(** ** The state *)

Record RawNode : Type := mkRawNode {
  rn_raft : raft;
  rn_asyncStorageWrites : bool;
  rn_prevSoftSt : SoftState;
  rn_prevHardSt : HardState;
  rn_stepsOnAdvance : list Message
}.

#[global] Instance eta_RawNode : Eta RawNode := fun rn =>
  mkRawNode (rn_raft rn) (rn_asyncStorageWrites rn) (rn_prevSoftSt rn) (rn_prevHardSt rn) (rn_stepsOnAdvance rn).

(** A method of the wrapped peer. *)
Definition on_raft {A} (m : M A) (rn : RawNode) : outcome (A * RawNode) :=
  let! '(x, r) := m (rn_raft rn) in Ret (x, rn <| rn_raft := r |>).

(** A method whose result is dropped. *)
Definition on_raft_ {A} (m : M A) (rn : RawNode) : outcome RawNode :=
  let! '(_, rn) := on_raft m rn in Ret rn.

Section RawNode.

Context (E : Env).
Context (Marshal_ConfChange : ConfChange -> error + bytes).
Context (Marshal_ConfChangeV2 : ConfChangeV2 -> error + bytes).

Definition NewRawNode (config : RaftConfig) : outcome RawNode :=
  let! r := newRaft E config in
  Ret (mkRawNode r (c_AsyncStorageWrites config) (raft_softState r) (raft_hardState r) []).

(** ** Input *)

Definition RawNode_Tick : RawNode -> outcome RawNode := on_raft_ (tick E).

Definition RawNode_Campaign : RawNode -> outcome (option error * RawNode) := on_raft (Step E (Msg MsgHup)).

Definition RawNode_Propose (data : bytes) (rn : RawNode) : outcome (option error * RawNode) :=
  on_raft (Step E (Msg MsgProp <| m_From := r_id (rn_raft rn) |>
                               <| m_Entries := [mkEntry 0 0 EntryNormal data] |>)) rn.

(** A nil interface is [None]. *)
Definition MarshalConfChange (c : option ConfChangeI) : error + (EntryType * bytes) :=
  match c with
  | None => inr (EntryConfChangeV2, [])
  | Some (ConfChangeI_V1 ccv1) =>
    match Marshal_ConfChange ccv1 with inl err => inl err | inr data => inr (EntryConfChange, data) end
  | Some (ConfChangeI_V2 ccv2) =>
    match Marshal_ConfChangeV2 ccv2 with inl err => inl err | inr data => inr (EntryConfChangeV2, data) end
  end.

Definition confChangeToMsg (c : option ConfChangeI) : error + Message :=
  match MarshalConfChange c with
  | inl err => inl err
  | inr (typ, data) => inr (Msg MsgProp <| m_Entries := [mkEntry 0 0 typ data] |>)
  end.

Definition RawNode_ProposeConfChange (cc : option ConfChangeI) (rn : RawNode) : outcome (option error * RawNode) :=
  match confChangeToMsg cc with
  | inl err => Ret (Some err, rn)
  | inr m => on_raft (Step E m) rn
  end.

Definition RawNode_ApplyConfChange (cc : ConfChangeI) : RawNode -> outcome (ConfState * RawNode) :=
  on_raft (applyConfChange E (ConfChangeI_AsV2 cc)).

Definition RawNode_Step (m : Message) (rn : RawNode) : outcome (option error * RawNode) :=
  if IsLocalMsg (m_Type m) && negb (IsLocalMsgTarget (m_From m)) then Ret (Some ErrStepLocalMsg, rn)
  else if IsResponseMsg (m_Type m) && negb (IsLocalMsgTarget (m_From m)) &&
          bool_decide (r_trk (rn_raft rn) !! m_From m = None) then Ret (Some ErrStepPeerNotFound, rn)
  else on_raft (Step E m) rn.

Definition RawNode_ReportUnreachable (id : PeerID) : RawNode -> outcome RawNode :=
  on_raft_ (Step E (Msg MsgUnreachable <| m_From := id |>)).

Inductive SnapshotStatus : Set := SnapshotFinish | SnapshotFailure.

Definition RawNode_ReportSnapshot (id : PeerID) (status : SnapshotStatus) : RawNode -> outcome RawNode :=
  let rej := match status with SnapshotFailure => true | SnapshotFinish => false end in
  on_raft_ (Step E (Msg MsgSnapStatus <| m_From := id |> <| m_Reject := rej |>)).

Definition RawNode_TransferLeader (transferee : PeerID) : RawNode -> outcome RawNode :=
  on_raft_ (Step E (Msg MsgTransferLeader <| m_From := transferee |>)).

Definition RawNode_ForgetLeader : RawNode -> outcome (option error * RawNode) := on_raft (Step E (Msg MsgForgetLeader)).

Definition RawNode_TestingStepDown : RawNode -> outcome (option error * RawNode) := on_raft (testingStepDown E).

(** ** Output *)

Definition MustSync (st prevst : HardState) (entsnum : Z) : bool :=
  negb (entsnum =? 0) || negb (hs_Vote st =? hs_Vote prevst) || negb (hs_Term st =? hs_Term prevst) ||
  negb (hs_Lead st =? hs_Lead prevst) || negb (hs_LeadEpoch st =? hs_LeadEpoch prevst) ||
  negb (hs_Commit st =? hs_Commit prevst).

Definition needStorageAppendMsg (r : raft) (rd : Ready) : bool :=
  (len (rd_Entries rd) >? 0) || negb (IsEmptyHardState (rd_HardState rd)) ||
  negb (IsEmptySnap (rd_Snapshot rd)) || (len (r_msgsAfterAppend r) >? 0).

Definition needStorageAppendRespMsg (rd : Ready) : bool :=
  negb (IsEmptySnap (rd_Snapshot rd)) || negb (len (rd_Entries rd) =? 0).

(** The index and accepted term of the entries of [rd], if it has any. *)
Definition attach_entries (r : raft) (rd : Ready) (m : Message) : outcome Message :=
  let ln := len (rd_Entries rd) in
  if negb (ln =? 0) then
    let! e := slice_get (rd_Entries rd) (ln - 1) in
    Ret (m <| m_LogTerm := raftLog_accTerm (r_raftLog r) |> <| m_Index := e_Index e |>)
  else Ret m.

Definition attach_snapshot (r : raft) (rd : Ready) (m : Message) : Message :=
  if negb (IsEmptySnap (rd_Snapshot rd)) then
    m <| m_Snapshot := Some (rd_Snapshot rd) |> <| m_LogTerm := raftLog_accTerm (r_raftLog r) |>
  else m.

Definition newStorageAppendRespMsg (r : raft) (rd : Ready) : outcome Message :=
  let! m := attach_entries r rd (Msg MsgStorageAppendResp <| m_To := r_id r |> <| m_From := LocalAppendThread |>) in
  Ret (attach_snapshot r rd m).

Definition newStorageAppendMsg (r : raft) (rd : Ready) : outcome Message :=
  let! m := attach_entries r rd
    (Msg MsgStorageAppend <| m_To := LocalAppendThread |> <| m_From := r_id r |> <| m_Entries := rd_Entries rd |>) in
  let m :=
    if negb (IsEmptyHardState (rd_HardState rd)) then
      m <| m_Term := hs_Term (rd_HardState rd) |> <| m_Vote := hs_Vote (rd_HardState rd) |>
        <| m_Commit := hs_Commit (rd_HardState rd) |> <| m_Lead := hs_Lead (rd_HardState rd) |>
        <| m_LeadEpoch := hs_LeadEpoch (rd_HardState rd) |>
    else m in
  let m := attach_snapshot r rd m in
  let m := m <| m_Responses := r_msgsAfterAppend r |> in
  if needStorageAppendRespMsg rd then
    let! resp := newStorageAppendRespMsg r rd in
    Ret (m <| m_Responses := r_msgsAfterAppend r ++ [resp] |>)
  else Ret m.

Definition needStorageApplyMsg (rd : Ready) : bool := len (rd_CommittedEntries rd) >? 0.
Definition needStorageApplyRespMsg (rd : Ready) : bool := needStorageApplyMsg rd.

Definition newStorageApplyRespMsg (r : raft) (ents : list Entry) : Message :=
  Msg MsgStorageApplyResp <| m_To := r_id r |> <| m_From := LocalApplyThread |> <| m_Entries := ents |>.

Definition newStorageApplyMsg (r : raft) (rd : Ready) : Message :=
  let ents := rd_CommittedEntries rd in
  Msg MsgStorageApply <| m_To := LocalApplyThread |> <| m_From := r_id r |> <| m_Entries := ents |>
    <| m_Responses := [newStorageApplyRespMsg r ents] |>.

Definition applyUnstableEntries (rn : RawNode) : bool := negb (rn_asyncStorageWrites rn).

(** The struct literal of [readyWithoutAccept] and the fields set next. *)
Definition ready_fields (rn : RawNode) : outcome Ready :=
  let r := rn_raft rn in
  let l := r_raftLog r in
  let! entries := raftLog_nextUnstableEnts l in
  let! committed := raftLog_nextCommittedEnts (Size E) l (applyUnstableEntries rn) in
  let softSt := raft_softState r in
  let hardSt := raft_hardState r in
  let! snap :=
    if raftLog_hasNextUnstableSnapshot l then
      match raftLog_nextUnstableSnapshot l with
      | Some s => Ret s
      | None => Panic "nil pointer dereference"
      end
    else Ret empty_Snapshot in
  Ret {|
    rd_SoftState := if negb (SoftState_equal softSt (rn_prevSoftSt rn)) then Some softSt else None;
    rd_HardState := if negb (isHardStateEqual hardSt (rn_prevHardSt rn)) then hardSt else emptyState;
    rd_Entries := entries;
    rd_Snapshot := snap;
    rd_CommittedEntries := committed;
    rd_Messages := r_msgs r;
    rd_MustSync := MustSync hardSt (rn_prevHardSt rn) (len entries)
  |}.

Definition readyWithoutAccept (rn : RawNode) : outcome Ready :=
  let r := rn_raft rn in
  let! rd := ready_fields rn in
  if rn_asyncStorageWrites rn then
    let! rd :=
      if needStorageAppendMsg r rd then
        let! m := newStorageAppendMsg r rd in
        Ret (rd <| rd_Messages := rd_Messages rd ++ [m] |>)
      else Ret rd in
    if needStorageApplyMsg rd then
      Ret (rd <| rd_Messages := rd_Messages rd ++ [newStorageApplyMsg r rd] |>)
    else Ret rd
  else
    Ret (rd <| rd_Messages := rd_Messages rd ++ filter (fun m => m_To m <> r_id r) (r_msgsAfterAppend r) |>).

(** The messages that [Advance] will step, without asynchronous writes. *)
Definition steps_of (r : raft) (rd : Ready) : outcome (list Message) :=
  let own := filter (fun m => m_To m = r_id r) (r_msgsAfterAppend r) in
  let! append :=
    if needStorageAppendRespMsg rd then let! m := newStorageAppendRespMsg r rd in Ret [m] else Ret [] in
  let apply :=
    if needStorageApplyRespMsg rd then [newStorageApplyRespMsg r (rd_CommittedEntries rd)] else [] in
  Ret (own ++ append ++ apply).

Definition acceptReady (rd : Ready) (rn : RawNode) : outcome RawNode :=
  let r := rn_raft rn in
  let rn := match rd_SoftState rd with Some s => rn <| rn_prevSoftSt := s |> | None => rn end in
  let rn := if negb (IsEmptyHardState (rd_HardState rd)) then rn <| rn_prevHardSt := rd_HardState rd |> else rn in
  let! rn :=
    if negb (rn_asyncStorageWrites rn) then
      if negb (len (rn_stepsOnAdvance rn) =? 0) then Panic "two accepted Ready structs without call to Advance"
      else
        let! steps := steps_of r rd in
        Ret (rn <| rn_stepsOnAdvance := rn_stepsOnAdvance rn ++ steps |>)
    else Ret rn in
  let l := raftLog_acceptUnstable (r_raftLog r) in
  let! l :=
    if len (rd_CommittedEntries rd) >? 0 then
      let! e := slice_get (rd_CommittedEntries rd) (len (rd_CommittedEntries rd) - 1) in
      raftLog_acceptApplying l (e_Index e) (entsSize (Size E) (rd_CommittedEntries rd)) (applyUnstableEntries rn)
    else Ret l in
  Ret (rn <| rn_raft := r <| r_msgs := [] |> <| r_msgsAfterAppend := [] |> <| r_raftLog := l |> |>).

Definition RawNode_Ready (rn : RawNode) : outcome (Ready * RawNode) :=
  let! rd := readyWithoutAccept rn in
  let! rn := acceptReady rd rn in
  Ret (rd, rn).

Definition RawNode_HasReady (rn : RawNode) : outcome bool :=
  let r := rn_raft rn in
  let l := r_raftLog r in
  let hardSt := raft_hardState r in
  if negb (SoftState_equal (raft_softState r) (rn_prevSoftSt rn)) then Ret true
  else if negb (IsEmptyHardState hardSt) && negb (isHardStateEqual hardSt (rn_prevHardSt rn)) then Ret true
  else if raftLog_hasNextUnstableSnapshot l then Ret true
  else if (len (r_msgs r) >? 0) || (len (r_msgsAfterAppend r) >? 0) then Ret true
  else
    let! ents := raftLog_hasNextUnstableEnts l in
    Ret (ents || raftLog_hasNextCommittedEnts l (applyUnstableEntries rn)).

Definition RawNode_Advance (rn : RawNode) : outcome RawNode :=
  if rn_asyncStorageWrites rn then Panic "Advance must not be called when using AsyncStorageWrites"
  else
    let! rn := on_raft_ (for_each (fun m => let* _ := Step E m in mret tt) (rn_stepsOnAdvance rn)) rn in
    Ret (rn <| rn_stepsOnAdvance := [] |>).

Definition RawNode_NextUnstableIndex (rn : RawNode) : Z :=
  u_entryInProgress (l_unstable (r_raftLog (rn_raft rn))) +u 1.

(** ** bootstrap.go *)

Record Peer : Type := mkPeer { peer_ID : PeerID; peer_Context : bytes }.

(** The entries for the peers, numbered from [i + 1]. *)
Fixpoint bootstrap_entries (i : Z) (peers : list Peer) : error + list Entry :=
  match peers with
  | [] => inr []
  | peer :: peers =>
    match Marshal_ConfChange (mkConfChange ConfChangeAddNode (peer_ID peer) (peer_Context peer) 0) with
    | inl err => inl err
    | inr data =>
      match bootstrap_entries (i + 1) peers with
      | inl err => inl err
      | inr entries => inr (mkEntry 1 (i + 1) EntryConfChange data :: entries)
      end
    end
  end.

(** From [becomeFollower(1, None)] on. *)
Definition bootstrap_raft (peers : list Peer) : M (option error) :=
  let* _ := becomeFollower E 1 None_ID in
  match bootstrap_entries 0 peers with
  | inl err => mret (Some err)
  | inr entries =>
    let app := mkLogSlice 1 (mkEntryID 0 0) entries in
    match logSlice_valid app with
    | Some err => mret (Some err)
    | None =>
      let* ok := log_op (fun l => raftLog_append l app) in
      if negb ok then mret (Some (Errorf "could not append to the log" []))
      else
        let* _ := modify (fun r => r <| r_raftLog := r_raftLog r <| l_committed := logSlice_lastIndex app |> |>) in
        let* _ := for_each (fun peer =>
          let* _ := applyConfChange E (ConfChange_AsV2 (mkConfChange ConfChangeAddNode (peer_ID peer) [] 0)) in
          mret tt) peers in
        mret None
    end
  end.

Definition RawNode_Bootstrap (peers : list Peer) (rn : RawNode) : outcome (option error * RawNode) :=
  if len peers =? 0 then Ret (Some (Errorf "must provide at least one peer to Bootstrap" []), rn)
  else
    let! res := st_LastIndex (l_storage (r_raftLog (rn_raft rn))) in
    match res with
    | inl err => Ret (Some err, rn)
    | inr lastIndex =>
      if negb (lastIndex =? 0) then Ret (Some (Errorf "can't bootstrap a nonempty Storage" []), rn)
      else on_raft (bootstrap_raft peers) (rn <| rn_prevHardSt := emptyState |>)
    end.

End RawNode.

(** ** status.go *)

Record BasicStatus : Type := mkBasicStatus {
  bs_ID : PeerID;
  bs_HardState : HardState;
  bs_SoftState : SoftState;
  bs_Applied : Z;
  bs_LeadTransferee : PeerID
}.

Record Status : Type := mkStatus {
  status_BasicStatus : BasicStatus;
  status_Config : Config;
  status_Progress : option ProgressMap;
  status_LeadSupportUntil : Timestamp
}.

Record LeadSupportStatus : Type := mkLeadSupportStatus {
  ls_BasicStatus : BasicStatus;
  ls_LeadSupportUntil : Timestamp
}.

Definition getBasicStatus (r : raft) : BasicStatus :=
  let hs := raft_hardState r in
  let ss := raft_softState r in
  let hs := if bool_decide (RaftState ss = StateFollower) && (hs_Lead hs =? r_id r)
            then hs <| hs_Lead := None_ID |> else hs in
  mkBasicStatus (r_id r) hs ss (l_applied (r_raftLog r)) (r_leadTransferee r).

Definition getStatus (r : raft) : Status :=
  let bs := getBasicStatus r in
  mkStatus bs (Config_Clone (r_config r))
    (if bool_decide (RaftState (bs_SoftState bs) = StateLeader) then Some (r_trk r) else None) (mkTimestamp 0 0).

Definition getLeadSupportStatus (r : raft) : LeadSupportStatus :=
  mkLeadSupportStatus (getBasicStatus r) (mkTimestamp 0 0).

(** ** Ready *)

(** The application has nothing to do for [rd]. *)
Definition no_work (rd : Ready) : bool :=
  bool_decide (rd_SoftState rd = None) && IsEmptyHardState (rd_HardState rd) && bool_decide (rd_Entries rd = []) &&
  IsEmptySnap (rd_Snapshot rd) && bool_decide (rd_CommittedEntries rd = []) && bool_decide (rd_Messages rd = []).

(** The hard state that the append thread reconstructs from a message. *)
Definition message_hardState (m : Message) : HardState :=
  mkHardState (m_Term m) (m_Vote m) (m_Commit m) (m_Lead m) (m_LeadEpoch m).

(** What [Ready] adds to the messages the peer has queued for sending: nothing that
    waits for storage is sent at once, it is attached to the message to the append
    thread, or follows the entries of the same [Ready]. *)
Definition handed_over (rn : RawNode) (rd : Ready) (ms : list Message) : Prop :=
  if rn_asyncStorageWrites rn then
    exists append apply, ms = append ++ apply /\
      (needStorageAppendMsg (rn_raft rn) rd = false /\ append = [] \/
       needStorageAppendMsg (rn_raft rn) rd = true /\ exists m resps, append = [m] /\ m_Type m = MsgStorageAppend /\
         message_hardState m = rd_HardState rd /\ m_Entries m = rd_Entries rd /\
         m_Responses m = r_msgsAfterAppend (rn_raft rn) ++ resps /\
         Forall (fun x => m_Type x = MsgStorageAppendResp) resps) /\
      (rd_CommittedEntries rd = [] /\ apply = [] \/
       rd_CommittedEntries rd <> [] /\ exists m, apply = [m] /\ m_Type m = MsgStorageApply /\
         m_Entries m = rd_CommittedEntries rd)
  else ms = filter (fun m => m_To m <> r_id (rn_raft rn)) (r_msgsAfterAppend (rn_raft rn)).

Lemma slice_get_last {A} (l : list A) : l <> [] -> exists e, slice_get l (len l - 1) = Ret e /\ e ∈ l.
Proof.
  intros Hl. assert (0 < length l)%nat by (destruct l; simpl; [done|lia]).
  destruct (lookup_lt_is_Some_2 l (length l - 1)) as [e He]; [lia|]. exists e.
  split; [|by eapply list_elem_of_lookup_2]. apply slice_get_Some; unfold len; [lia|].
  by replace (Z.to_nat _) with (length l - 1)%nat by lia.
Qed.

Lemma len_pos {A} (l : list A) : (len l >? 0) = negb (bool_decide (l = [])).
Proof. by destruct l. Qed.

Lemma len_zero {A} (l : list A) : (len l =? 0) = bool_decide (l = []).
Proof. by destruct l. Qed.

Lemma attach_entries_ret r rd m : exists logTerm index,
  attach_entries r rd m = Ret (m <| m_LogTerm := logTerm |> <| m_Index := index |>).
Proof.
  unfold attach_entries. rewrite len_zero. destruct (bool_decide_reflect (rd_Entries rd = [])) as [|Hne]; simpl.
  - exists (m_LogTerm m), (m_Index m). by destruct m.
  - destruct (slice_get_last _ Hne) as (e & -> & _). by eexists _, _.
Qed.

Lemma append_resp_ret r rd : exists m, newStorageAppendRespMsg r rd = Ret m /\
  m_Type m = MsgStorageAppendResp /\ m_Term m = 0.
Proof.
  unfold newStorageAppendRespMsg. destruct (attach_entries_ret r rd
    (Msg MsgStorageAppendResp <| m_To := r_id r |> <| m_From := LocalAppendThread |>)) as (? & ? & ->). simpl.
  eexists. split; [reflexivity|]. unfold attach_snapshot. by destruct (IsEmptySnap _).
Qed.

Lemma append_msg_ret r rd : exists m resps, newStorageAppendMsg r rd = Ret m /\ m_Type m = MsgStorageAppend /\
  message_hardState m = rd_HardState rd /\ m_Entries m = rd_Entries rd /\
  m_Responses m = r_msgsAfterAppend r ++ resps /\ Forall (fun x => m_Type x = MsgStorageAppendResp) resps.
Proof.
  unfold newStorageAppendMsg. destruct (attach_entries_ret r rd (Msg MsgStorageAppend <| m_To := LocalAppendThread |>
    <| m_From := r_id r |> <| m_Entries := rd_Entries rd |>)) as (? & ? & ->). cbn [obind].
  destruct (append_resp_ret r rd) as (resp & -> & Hresp & _). cbn [obind].
  assert (Hhs : IsEmptyHardState (rd_HardState rd) = true -> rd_HardState rd = emptyState).
  { unfold IsEmptyHardState. by intros ?%bool_decide_eq_true. }
  unfold attach_snapshot.
  destruct (needStorageAppendRespMsg rd); [eexists _, [resp]|eexists _, []]; (split; [reflexivity|]);
    (destruct (IsEmptyHardState (rd_HardState rd)); [rewrite Hhs by done|clear Hhs; destruct (rd_HardState rd)]);
    destruct (IsEmptySnap _); rewrite ?app_nil_r; split_and!; try done; by repeat constructor.
Qed.

(** The log after [acceptReady]. *)
Definition accepted_log (Size : Entry -> Z) (l : raftLog) (committed : list Entry) (allowUnstable : bool) : outcome raftLog :=
  let l := raftLog_acceptUnstable l in
  if len committed >? 0 then
    let! e := slice_get committed (len committed - 1) in
    raftLog_acceptApplying l (e_Index e) (entsSize Size committed) allowUnstable
  else Ret l.

Lemma accept_committed Size l committed allowUnstable l' :
  accepted_log Size l committed allowUnstable = Ret l' -> l_committed l' = l_committed l.
Proof.
  unfold accepted_log. destruct (_ >? 0); [|by intros [= <-]]. intros (e & _ & H)%obind_Ret.
  unfold raftLog_acceptApplying in H. destruct (_ <? _); [done|]. by injection H as <-.
Qed.

Section Ready.

Context (E : Env) (rn : RawNode).

Lemma readyWithoutAccept_eq rd : ready_fields E rn = Ret rd -> exists ms,
  readyWithoutAccept E rn = Ret (rd <| rd_Messages := rd_Messages rd ++ ms |>) /\ handed_over rn rd ms.
Proof.
  intros Hrd. unfold readyWithoutAccept, handed_over. rewrite Hrd. cbn [obind].
  destruct (rn_asyncStorageWrites rn); [|by eexists].
  assert (Happly : forall append, let rd1 := rd <| rd_Messages := rd_Messages rd ++ append |> in
    exists apply, (if needStorageApplyMsg rd1
        then Ret (rd1 <| rd_Messages := rd_Messages rd1 ++ [newStorageApplyMsg (rn_raft rn) rd1] |>) else Ret rd1) =
      Ret (rd <| rd_Messages := rd_Messages rd ++ append ++ apply |>) /\
      (rd_CommittedEntries rd = [] /\ apply = [] \/ rd_CommittedEntries rd <> [] /\ exists m, apply = [m] /\
        m_Type m = MsgStorageApply /\ m_Entries m = rd_CommittedEntries rd)).
  { intros append rd1. unfold needStorageApplyMsg. rewrite len_pos. unfold rd1. cbn.
    destruct (bool_decide_reflect (rd_CommittedEntries rd = [])) as [Hc|Hc]; cbn.
    - exists []. rewrite app_nil_r. auto.
    - eexists [_]. rewrite app_assoc. split; [reflexivity|]. right. split; [done|]. by eexists. }
  destruct (needStorageAppendMsg (rn_raft rn) rd).
  - destruct (append_msg_ret (rn_raft rn) rd) as (m & resps & -> & Hm). cbn [obind].
    destruct (Happly [m]) as (apply & -> & Ha). eexists. split; [reflexivity|].
    exists [m], apply. split; [done|]. split; [right; split; [done|by exists m, resps]|done].
  - cbn [obind]. destruct (Happly []) as (apply & Heq & Ha). cbn in Heq. rewrite app_nil_r in Heq.
    assert (Hrd1 : rd <| rd_Messages := rd_Messages rd |> = rd) by (by destruct rd).
    change (rd <| rd_Messages := rd_Messages rd |>) with (rd <| rd_Messages := rd_Messages rd |>) in Heq.
    rewrite Hrd1 in Heq. rewrite Heq. eexists. split; [reflexivity|]. exists [], apply. auto.
Qed.

(** [acceptReady] forgets the messages and updates the bookkeeping. *)
Lemma acceptReady_inv rd rn' : acceptReady E rd rn = Ret rn' -> exists l steps,
  rn' = mkRawNode (rn_raft rn <| r_msgs := [] |> <| r_msgsAfterAppend := [] |> <| r_raftLog := l |>)
          (rn_asyncStorageWrites rn) (default (rn_prevSoftSt rn) (rd_SoftState rd))
          (if IsEmptyHardState (rd_HardState rd) then rn_prevHardSt rn else rd_HardState rd) steps /\
  l_committed l = l_committed (r_raftLog (rn_raft rn)) /\
  (if rn_asyncStorageWrites rn then steps = rn_stepsOnAdvance rn
   else rn_stepsOnAdvance rn = [] /\ steps_of (rn_raft rn) rd = Ret steps).
Proof.
  unfold acceptReady. intros H. destruct rn as [r async soft hard steps].
  destruct (rd_SoftState rd), (IsEmptyHardState (rd_HardState rd)); cbn in H |- *;
    apply obind_Ret in H as (rn3 & H3 & H); apply obind_Ret in H as (l & Hl & H); injection H as <-;
    exists l; (destruct async; cbn in H3 |- *;
      [|rewrite len_zero in H3; destruct (bool_decide_reflect (steps = [])) as [->|]; [|done]; cbn in H3;
        apply obind_Ret in H3 as (steps' & Hs & H3)]); injection H3 as <-; eexists;
    (split; [reflexivity|]); (split; [|done]);
    apply accept_committed in Hl; exact Hl.
Qed.

End Ready.

(** What is known of a [Ready] that was handed out. *)
Lemma Ready_inv E rn rd rn' : RawNode_Ready E rn = Ret (rd, rn') -> exists ms l steps,
  rd_Messages rd = r_msgs (rn_raft rn) ++ ms /\ handed_over rn rd ms /\
  rd_HardState rd = (if isHardStateEqual (raft_hardState (rn_raft rn)) (rn_prevHardSt rn) then emptyState
                     else raft_hardState (rn_raft rn)) /\
  rn' = mkRawNode (rn_raft rn <| r_msgs := [] |> <| r_msgsAfterAppend := [] |> <| r_raftLog := l |>)
          (rn_asyncStorageWrites rn) (default (rn_prevSoftSt rn) (rd_SoftState rd))
          (if IsEmptyHardState (rd_HardState rd) then rn_prevHardSt rn else rd_HardState rd) steps /\
  l_committed l = l_committed (r_raftLog (rn_raft rn)) /\
  (if rn_asyncStorageWrites rn then steps = rn_stepsOnAdvance rn
   else rn_stepsOnAdvance rn = [] /\ steps_of (rn_raft rn) rd = Ret steps).
Proof.
  unfold RawNode_Ready. intros (rd1 & Hrd & H)%obind_Ret. apply obind_Ret in H as (rn1 & Hacc & H).
  injection H as -> ->. destruct (ready_fields E rn) as [rd0|] eqn:Ef.
  2: { unfold readyWithoutAccept in Hrd. by rewrite Ef in Hrd. }
  destruct (readyWithoutAccept_eq E rn rd0 Ef) as (ms & Heq & Hms). rewrite Hrd in Heq. injection Heq as ->.
  destruct (acceptReady_inv _ _ _ _ Hacc) as (l & steps & Hrn & Hl & Hsteps).
  unfold ready_fields in Ef. apply obind_Ret in Ef as (es & _ & Ef). apply obind_Ret in Ef as (cs & _ & Ef).
  apply obind_Ret in Ef as (snap & _ & Ef). injection Ef as <-.
  exists ms, l, steps. split_and!; try done. by destruct (isHardStateEqual _ _).
Qed.

Lemma steps_of_ret r rd : exists steps, steps_of r rd = Ret steps.
Proof.
  unfold steps_of. destruct (needStorageAppendRespMsg rd); [|by eexists].
  destruct (append_resp_ret r rd) as (m & -> & _). by eexists.
Qed.

Lemma acceptReady_ret E rn rd l :
  accepted_log (Size E) (r_raftLog (rn_raft rn)) (rd_CommittedEntries rd) (applyUnstableEntries rn) = Ret l ->
  (rn_asyncStorageWrites rn = false -> rn_stepsOnAdvance rn = []) ->
  exists rn', acceptReady E rd rn = Ret rn' /\ r_raftLog (rn_raft rn') = l.
Proof.
  intros Hl Hsteps. unfold acceptReady, accepted_log in *. destruct rn as [r async soft hard steps].
  destruct (steps_of_ret r rd) as [steps' Hs].
  destruct (rd_SoftState rd), (IsEmptyHardState (rd_HardState rd)); cbn in *;
    (destruct async; cbn in *; [|rewrite Hsteps, Hs by done; change (len [] =? 0) with true; cbn]);
    match goal with |- context [obind ?x _] => replace x with (Ret l) by (symmetry; exact Hl) end; by eexists.
Qed.

Section Ready_spec.

Context (E : Env) (rn : RawNode) (prev : entryID) (ents : list Entry).

Let r := rn_raft rn.
Let l := r_raftLog r.

Context (HS : forall e, 0 < Size E e).
Context (Habs : raftLog_abs (Size E) l prev ents).
Context (Hinv : raftLog_inv l prev ents).
Context (Hsum : sum_size (Size E) ents < u64_modulus).

(** Once the committed entries are taken, there are no more to take. *)
Lemma accepted_log_quiet es allowUnstable :
  raftLog_nextCommittedEnts (Size E) l allowUnstable = Ret es ->
  exists l', accepted_log (Size E) l es allowUnstable = Ret l' /\
    l_unstable l' = unstable_acceptInProgress (l_unstable l) /\
    raftLog_hasNextCommittedEnts l' allowUnstable = false.
Proof.
  intros Hes. destruct (nextCommittedEnts_eq _ _ _ _ allowUnstable HS Habs Hinv Hsum) as (es' & Hes' & Hhas & Hb & Hidx).
  rewrite Hes in Hes'. injection Hes' as <-. unfold accepted_log. rewrite len_pos.
  destruct (apply_blocked l allowUnstable) eqn:Eb.
  - subst es. exists (raftLog_acceptUnstable l). split_and!; done.
  - destruct Hb as [Hne _]. rewrite bool_decide_false by done. cbn [negb].
    destruct (slice_get_last _ Hne) as (e & -> & He). cbn [obind].
    apply list_elem_of_lookup in He as [i Hi]. specialize (Hidx i e Hi). unfold raftLog_acceptApplying.
    rewrite (proj2 (Z.ltb_ge _ _)) by (cbn; lia). eexists. split; [reflexivity|]. split; [done|].
    unfold raftLog_hasNextCommittedEnts. cbn [l_applyingEntsPaused l_applying set_field].
    set (l1 := _ <| l_applyingEntsSize := _ |>). set (p := (_ >=? _) || _).
    change (l_applyingEntsPaused (l1 <| l_applyingEntsPaused := p |>)) with p. subst p.
    destruct (_ >=? _); [done|]. destruct (Z.ltb_spec (e_Index e) (raftLog_maxAppliableIndex l1 allowUnstable)); [done|].
    cbn [orb]. destruct (raftLog_hasNextOrInProgressSnapshot _); [done|].
    change (raftLog_maxAppliableIndex (l1 <| l_applyingEntsPaused := false |>) allowUnstable)
      with (raftLog_maxAppliableIndex l1 allowUnstable).
    change (l_applying (l1 <| l_applyingEntsPaused := false |>)) with (e_Index e).
    destruct Habs as (sprev & sents & Hrep). destruct (rep_bounds _ _ _ _ _ _ Hrep) as (? & ? & ?).
    destruct (rep_split _ _ _ _ _ _ Hrep) as [? _].
    pose proof (li_committed _ _ _ Hinv). pose proof (li_applied _ _ _ Hinv).
    assert (0 <= raftLog_maxAppliableIndex l1 allowUnstable).
    { unfold raftLog_maxAppliableIndex. change (l_committed l1) with (l_committed l).
      change (u_prev (l_unstable l1)) with (u_prev (l_unstable l)). destruct allowUnstable; cbn [negb]; lia. }
    apply Z.ltb_ge. rewrite !u64_small by (unfold is_u64, u64_modulus; lia). lia.
Qed.

(** The unstable entries that no storage write has taken yet. *)
Lemma nextUnstable_range : raftLog_nextUnstableEnts l =
  Ret (log_range prev ents (u_entryInProgress (l_unstable l) + 1) (raftLog_lastIndex l + 1)).
Proof.
  destruct Habs as (sprev & sents & Hrep). unfold raftLog_nextUnstableEnts.
  pose proof (rep_unstable _ _ _ _ _ _ Hrep) as Hu. rewrite nextEntries_spec by done. f_equal.
  rewrite (rep_lastIndex _ _ _ _ _ _ Hrep). destruct (rep_split _ _ _ _ _ _ Hrep) as (Hle & pre & -> & _ & _ & Hpre).
  pose proof (inv_entryInProgress _ Hu). unfold log_range. rewrite len_app. unfold len in *.
  rewrite drop_app_ge by lia. rewrite take_ge by (rewrite length_drop; lia). f_equal. lia.
Qed.

(** A pending snapshot is never the zero snapshot. *)
Context (Hsnap : forall s, u_snapshot (l_unstable l) = Some s -> s_Index s <> 0).

Lemma ready_fields_ret : exists rd, ready_fields E rn = Ret rd /\
  rd_Messages rd = r_msgs r /\
  rd_Entries rd = log_range prev ents (u_entryInProgress (l_unstable l) + 1) (raftLog_lastIndex l + 1) /\
  raftLog_nextCommittedEnts (Size E) l (applyUnstableEntries rn) = Ret (rd_CommittedEntries rd) /\
  default (rn_prevSoftSt rn) (rd_SoftState rd) = raft_softState r /\
  rd_HardState rd = (if isHardStateEqual (raft_hardState r) (rn_prevHardSt rn) then emptyState else raft_hardState r) /\
  RawNode_HasReady rn = Ret (negb (no_work rd && bool_decide (r_msgsAfterAppend r = []))).
Proof.
  unfold ready_fields, RawNode_HasReady. fold r l. unfold raftLog_hasNextUnstableEnts. rewrite nextUnstable_range. cbn [obind].
  destruct (nextCommittedEnts_eq _ _ _ _ (applyUnstableEntries rn) HS Habs Hinv Hsum) as (es & -> & -> & Hes & _). cbn [obind].
  assert (Hsn : exists s, (if raftLog_hasNextUnstableSnapshot l then
      match raftLog_nextUnstableSnapshot l with Some s => Ret s | None => Panic "nil pointer dereference" end
    else Ret empty_Snapshot) = Ret s /\ IsEmptySnap s = negb (raftLog_hasNextUnstableSnapshot l)).
  { unfold raftLog_hasNextUnstableSnapshot, raftLog_nextUnstableSnapshot, unstable_nextSnapshot, IsEmptySnap.
    destruct (u_snapshot (l_unstable l)) as [s|] eqn:Es; [|by eexists].
    destruct (u_snapshotInProgress (l_unstable l)); [by eexists|]. exists s. split; [done|].
    apply Z.eqb_neq. by apply Hsnap. }
  destruct Hsn as (s & -> & Hs). cbn [obind]. eexists. split; [reflexivity|]. cbn.
  split_and!; try done.
  - unfold SoftState_equal. cbn. destruct (bool_decide_reflect (r_state r = RaftState (rn_prevSoftSt rn))) as [Heq|]; [|done].
    cbn. unfold raft_softState. rewrite Heq. by destruct (rn_prevSoftSt rn).
  - by destruct (isHardStateEqual _ _).
  - unfold no_work. cbn. rewrite Hs, !len_pos.
    replace (bool_decide (es = [])) with (apply_blocked l (applyUnstableEntries rn))
      by (destruct (apply_blocked _ _); [by rewrite Hes|by rewrite bool_decide_false by apply Hes]).
    destruct (SoftState_equal _ _); [|done]. cbn.
    destruct (isHardStateEqual _ _); cbn [negb andb];
      [rewrite andb_false_r; change (IsEmptyHardState emptyState) with true
      |destruct (IsEmptyHardState (raft_hardState r)); cbn [negb andb]; [|done]];
      destruct (raftLog_hasNextUnstableSnapshot l), (bool_decide (r_msgs r = [])), (bool_decide (r_msgsAfterAppend r = [])),
        (bool_decide (log_range _ _ _ _ = [])), (apply_blocked _ _); done.
Qed.

(** What [Ready] adds to the messages is work that [HasReady] sees anyway. *)
Lemma no_work_messages rd ms : handed_over rn rd ms ->
  no_work (rd <| rd_Messages := rd_Messages rd ++ ms |>) && bool_decide (r_msgsAfterAppend r = []) =
  no_work rd && bool_decide (r_msgsAfterAppend r = []).
Proof.
  intros Hms. destruct (bool_decide_reflect (r_msgsAfterAppend r = [])) as [Ha|]; [|by rewrite !andb_false_r].
  rewrite !andb_true_r. destruct (no_work rd) eqn:Enw.
  - assert (ms = []) as ->; [|by rewrite app_nil_r; destruct rd].
    unfold no_work in Enw. bool_to_prop. unfold handed_over in Hms. fold r in Hms.
    destruct (rn_asyncStorageWrites rn); [|by rewrite Hms, Ha].
    assert (Hn : needStorageAppendMsg r rd = false).
    { unfold needStorageAppendMsg. rewrite !len_pos, Ha, (bool_decide_true (rd_Entries rd = [])) by done.
      repeat match goal with H : ?b = true |- _ => rewrite H end. done. }
    rewrite Hn in Hms. destruct Hms as (? & ? & -> & [[_ ->]|[? _]] & [[_ ->]|[? _]]); done.
  - unfold no_work in *. cbn. rewrite (bool_decide_ext (rd_Messages rd ++ ms = []) (rd_Messages rd = [] /\ ms = [])) by apply app_nil.
    destruct (bool_decide_reflect (rd_Messages rd = [])); [|by rewrite (bool_decide_false (_ /\ _)), !andb_false_r by tauto].
    rewrite andb_true_r in Enw. by rewrite Enw.
Qed.


End Ready_spec.

(** ** Witness *)

Definition example_RawNode : RawNode :=
  mkRawNode (initial_raft example_RaftConfig example_log <| r_Term := 4 |>) true (mkSoftState StateFollower) emptyState [].

