(* ===== verification/RaftInv.v ===== *)
(** * Local safety of a raft peer (src/pkg/raft/raft.go)

    What every step of a peer preserves: the consistency of its role
    ([raft_inv]), and the relation [evolves] between the states before and after:
    the term and the commit index do not go back, a vote is not changed within a
    term, messages are only appended to the two queues, and what is appended to
    them obeys the sending discipline that the durability argument of [send]
    relies on.

    The proofs are compositional. [wp] is the weakest precondition of an action for
    runs that do not panic; [keeps m] says that [m] preserves the invariant and
    evolves the state. *)

From S2P Require Import Prelude Hlc Quorum Tracker RaftPb ConfChange LogTypes Unstable Storage RaftLog Raft.

(** ** The invariant *)

(** The function pointers agree with the role, candidates and leaders have voted
    for themselves, a candidate knows no leader and a leader knows itself, and
    support is only ever given to a known leader. *)
Record raft_inv (r : raft) : Prop := {
  inv_id : r_id r <> None_ID;
  inv_Term : 0 <= r_Term r;
  inv_role :
    match r_state r with
    | StateFollower => r_step r = stepFollower_f /\ r_tick r = tickElection_f
    | StateCandidate | StatePreCandidate => r_step r = stepCandidate_f /\ r_tick r = tickElection_f
    | StateLeader => r_step r = stepLeader_f /\ r_tick r = tickHeartbeat_f
    end;
  inv_vote : r_state r = StateCandidate \/ r_state r = StateLeader -> r_Vote r = r_id r;
  inv_lead :
    match r_state r with
    | StateFollower => True
    | StateCandidate | StatePreCandidate => r_lead r = None_ID
    | StateLeader => r_lead r = r_id r
    end;
  inv_epoch : r_leadEpoch r <> 0 -> r_lead r <> None_ID
}.

(** ** Evolution *)

(** A response that grants a vote. *)
Definition vote_granted (m : Message) : Prop := m_Type m = MsgVoteResp /\ m_Reject m = false.

(** The messages sent at once: none that needs durability, none to the sender,
    and the term is one the peer has reached. *)
Definition sent_ok (r r' : raft) (m : Message) : Prop :=
  is_after_append (m_Type m) = false /\ m_Type m <> MsgStorageAppend /\ m_To m <> r_id r /\ m_From m <> None_ID /\
  (m_Type m <> MsgProp -> m_Type m <> MsgPreVote -> r_Term r <= m_Term m <= r_Term r').

(** The messages held until the state is durable. A granted vote is the vote of
    the state for that term. *)
Definition held_ok (r r' : raft) (m : Message) : Prop :=
  is_after_append (m_Type m) = true /\ m_From m <> None_ID /\
  (m_Type m <> MsgPreVoteResp -> r_Term r <= m_Term m <= r_Term r') /\
  (vote_granted m ->
    m_From m = r_id r /\ m_Term m <> 0 /\ m_To m <> None_ID /\
    (m_Term m = r_Term r' -> r_Vote r' = m_To m) /\
    (m_Term m = r_Term r -> r_Vote r <> None_ID -> m_To m = r_Vote r)).

Definition one_vote_per_term (ms : list Message) : Prop :=
  forall m1 m2, m1 ∈ ms -> m2 ∈ ms -> vote_granted m1 -> vote_granted m2 ->
    m_Term m1 = m_Term m2 -> m_To m1 = m_To m2.

Record evolves (r r' : raft) : Prop := {
  ev_id : r_id r' = r_id r;
  ev_Term : r_Term r <= r_Term r';
  ev_Vote : r_Term r' = r_Term r -> r_Vote r <> None_ID -> r_Vote r' = r_Vote r;
  ev_commit : l_committed (r_raftLog r) <= l_committed (r_raftLog r');
  ev_sent : exists sent, r_msgs r' = r_msgs r ++ sent /\ Forall (sent_ok r r') sent;
  ev_held : exists held, r_msgsAfterAppend r' = r_msgsAfterAppend r ++ held /\
    Forall (held_ok r r') held /\ one_vote_per_term held
}.

Lemma evolves_refl r : evolves r r.
Proof.
  split; try done; try lia.
  - exists []. by rewrite app_nil_r.
  - exists []. rewrite app_nil_r. split_and!; try done. intros ?? Hin. by apply elem_of_nil in Hin.
Qed.

Lemma sent_ok_mono r1 r2 r3 r4 m :
  r_id r2 = r_id r1 -> r_Term r1 <= r_Term r2 -> r_Term r3 <= r_Term r4 ->
  sent_ok r2 r3 m -> sent_ok r1 r4 m.
Proof.
  intros Hid ?? (?&?&?&?&HT). rewrite Hid in *. split_and!; try done.
  intros Ha Hb. specialize (HT Ha Hb). lia.
Qed.

Lemma evolves_trans r1 r2 r3 : evolves r1 r2 -> evolves r2 r3 -> evolves r1 r3.
Proof.
  intros [Hid1 HT1 HV1 HC1 (s1&Hs1&Fs1) (h1&Hh1&Fh1&O1)] [Hid2 HT2 HV2 HC2 (s2&Hs2&Fs2) (h2&Hh2&Fh2&O2)].
  split; [congruence|lia| |lia| |].
  - intros HT Hv. assert (Hv2 : r_Vote r2 = r_Vote r1) by (apply HV1; [lia|done]).
    rewrite HV2; [done|lia|]. by rewrite Hv2.
  - exists (s1 ++ s2). rewrite Hs2, Hs1, app_assoc. split; [done|]. apply Forall_app. split.
    + eapply Forall_impl; [exact Fs1|]. intros m. by apply sent_ok_mono.
    + eapply Forall_impl; [exact Fs2|]. intros m. apply sent_ok_mono; congruence || lia.
  - exists (h1 ++ h2). rewrite Hh2, Hh1, app_assoc. split; [done|]. rewrite Forall_forall in Fh1, Fh2. split.
    + apply Forall_forall. intros m [Hm|Hm]%elem_of_app.
      * destruct (Fh1 _ Hm) as (?&?&Hterm&Hg). split_and!; try done.
        { intros Ht. specialize (Hterm Ht). lia. }
        intros Hgr. destruct (Hg Hgr) as (Hfr&Hnz&Hto&Hnew&Hold). split_and!; try done.
        destruct Hgr as [Hty _]. specialize (Hterm ltac:(by rewrite Hty)).
        intros HT. rewrite <- Hnew by lia. apply HV2; [lia|]. rewrite Hnew by lia. done.
      * destruct (Fh2 _ Hm) as (?&?&Hterm&Hg). split_and!; try done.
        { intros Ht. specialize (Hterm Ht). lia. }
        intros Hgr. destruct (Hg Hgr) as (Hfr&Hnz&Hto&Hnew&Hold). split_and!; try done; [congruence|].
        destruct Hgr as [Hty _]. specialize (Hterm ltac:(by rewrite Hty)).
        intros HT Hv. rewrite <- HV1 by (done || lia). apply Hold; [lia|]. rewrite HV1 by (done || lia). done.
    + assert (Hx : forall a b, a ∈ h1 -> b ∈ h2 -> vote_granted a -> vote_granted b ->
        m_Term a = m_Term b -> m_To a = m_To b).
      { intros a b Ha Hb Hga Hgb Heq. destruct (Fh1 _ Ha) as (_&_&Ta&Ga), (Fh2 _ Hb) as (_&_&Tb&Gb).
        specialize (Ga Hga). specialize (Gb Hgb). destruct Hga as [Hta _], Hgb as [Htb _].
        specialize (Ta ltac:(by rewrite Hta)). specialize (Tb ltac:(by rewrite Htb)).
        destruct Ga as (_&_&?&Ga&_), Gb as (_&_&_&_&Gb). rewrite Gb, Ga; [done|lia|lia|]. rewrite Ga; [done|lia]. }
      intros m1 m2 [H1|H1]%elem_of_app [H2|H2]%elem_of_app G1 G2 Heq.
      * by eapply O1.
      * by eapply Hx.
      * symmetry. by eapply Hx.
      * by eapply O2.
Qed.

(** What [evolves] looks at, and what [raft_inv] looks at besides. *)
Definition ledger (r : raft) :=
  (r_id r, r_Term r, r_Vote r, l_committed (r_raftLog r), r_msgs r, r_msgsAfterAppend r).

Definition core (r : raft) := (ledger r, r_state r, r_step r, r_tick r, r_lead r, r_leadEpoch r).

Lemma raft_inv_core r r' : core r' = core r -> raft_inv r -> raft_inv r'.
Proof.
  intros [= H1 H2 H3 H4 H5 H6 H7 H8 H9 H10 H11] [].
  split; rewrite ?H1, ?H2, ?H3, ?H7, ?H8, ?H9, ?H10, ?H11; done.
Qed.

Lemma evolves_ledger r r' : ledger r' = ledger r -> evolves r r'.
Proof.
  intros [= H1 H2 H3 H4 H5 H6]. split; try lia; try congruence.
  - exists []. by rewrite app_nil_r.
  - exists []. rewrite app_nil_r. split_and!; try done. intros ?? Hin. by apply elem_of_nil in Hin.
Qed.

Lemma evolves_core r r' : core r' = core r -> evolves r r'.
Proof. intros Hc. apply evolves_ledger. exact (f_equal (fun c => c.1.1.1.1.1) Hc). Qed.

(** ** Weakest preconditions *)

Definition wp {A} (m : M A) (Q : A -> raft -> Prop) (r : raft) : Prop :=
  forall x r', m r = Ret (x, r') -> Q x r'.

Lemma wp_mono {A} (m : M A) (Q Q' : A -> raft -> Prop) r :
  wp m Q r -> (forall x r', Q x r' -> Q' x r') -> wp m Q' r.
Proof. intros H HQ x r' Hm. by apply HQ, H. Qed.

Lemma wp_mret {A} (x : A) (Q : A -> raft -> Prop) r : Q x r -> wp (mret x) Q r.
Proof. by intros H ?? [= <- <-]. Qed.

Lemma wp_bind {A B} (m : M A) (k : A -> M B) (Q : B -> raft -> Prop) r :
  wp m (fun x => wp (k x) Q) r -> wp (rbind m k) Q r.
Proof.
  intros H y r'. unfold rbind. destruct (m r) as [[x r1]|] eqn:E; [|done]. cbn. by apply H.
Qed.

Lemma wp_rpanic {A} msg (Q : A -> raft -> Prop) r : wp (rpanic msg) Q r.
Proof. done. Qed.

Lemma wp_gets {A} (f : raft -> A) (Q : A -> raft -> Prop) r : Q (f r) r -> wp (gets f) Q r.
Proof. by intros H ?? [= <- <-]. Qed.

Lemma wp_modify f (Q : unit -> raft -> Prop) r : Q tt (f r) -> wp (modify f) Q r.
Proof. by intros H ?? [= <- <-]. Qed.

Lemma wp_reads {A} (f : raft -> outcome A) (Q : A -> raft -> Prop) r :
  (forall x, f r = Ret x -> Q x r) -> wp (reads f) Q r.
Proof. intros H x r'. unfold reads. destruct (f r) eqn:E; [|done]. intros [= <- <-]. by apply H. Qed.

Lemma wp_log_upd f (Q : unit -> raft -> Prop) r :
  (forall l, f (r_raftLog r) = Ret l -> Q tt (r <| r_raftLog := l |>)) -> wp (log_upd f) Q r.
Proof. intros H x r'. unfold log_upd. destruct (f _) eqn:E; [|done]. intros [= <- <-]. by apply H. Qed.

Lemma wp_log_op {A} f (Q : A -> raft -> Prop) r :
  (forall l x, f (r_raftLog r) = Ret (l, x) -> Q x (r <| r_raftLog := l |>)) -> wp (log_op f) Q r.
Proof. intros H x r'. unfold log_op. destruct (f _) as [[l y]|] eqn:E; [|done]. intros [= <- <-]. by apply H. Qed.

Lemma wp_pr_op {A} id f (Q : A -> raft -> Prop) r :
  (forall pr pr' x, r_trk r !! id = Some pr -> f pr = Ret (pr', x) ->
    Q x (r <| r_trk := <[id := pr']> (r_trk r) |>)) ->
  wp (pr_op id f) Q r.
Proof.
  intros H x r'. unfold pr_op. destruct (r_trk r !! id) as [pr|] eqn:E; [|done].
  destruct (f pr) as [[pr' y]|] eqn:Ef; [|done]. intros [= <- <-]. by eapply H.
Qed.

Lemma wp_query {A} (f : nat -> A) (Q : A -> raft -> Prop) r :
  (forall x, Q x (r <| r_calls := S (r_calls r) |>)) -> wp (query f) Q r.
Proof. intros H x r' [= <- <-]. apply H. Qed.

Lemma wp_assertTrue b msg (Q : unit -> raft -> Prop) r : (b = true -> Q tt r) -> wp (assertTrue b msg) Q r.
Proof. intros H. destruct b; [|done]. by apply wp_mret, H. Qed.

Lemma wp_for_each {X} (f : X -> M unit) (I : raft -> Prop) l r :
  (forall x r, x ∈ l -> I r -> wp (f x) (fun _ => I) r) -> I r -> wp (for_each f l) (fun _ => I) r.
Proof.
  revert r. induction l as [|x l IH]; intros r Hf Hr; [by apply wp_mret|].
  cbn. apply wp_bind. eapply wp_mono; [apply Hf; [by left|done]|].
  intros ? r' Hr'. apply IH; [|done]. intros y ? Hy. apply Hf. by right.
Qed.

(** ** Preservation *)

Definition keeps {A} (m : M A) : Prop :=
  forall r, raft_inv r -> wp m (fun _ r' => raft_inv r' /\ evolves r r') r.

(** Under a precondition, with a postcondition on the result. *)
Lemma keeps_bind_pre {A B} (m : M A) (k : A -> M B) (P : A -> raft -> Prop) r :
  wp m (fun x r' => raft_inv r' /\ evolves r r' /\ P x r') r ->
  (forall x r', raft_inv r' -> P x r' -> wp (k x) (fun _ r'' => raft_inv r'' /\ evolves r' r'') r') ->
  wp (rbind m k) (fun _ r' => raft_inv r' /\ evolves r r') r.
Proof.
  intros Hm Hk. apply wp_bind. eapply wp_mono; [exact Hm|].
  intros x r1 (H1&E1&P1). eapply wp_mono; [by apply Hk|].
  intros y r2 (H2&E2). split; [done|]. by eapply evolves_trans.
Qed.

Lemma wp_after {A} (m : M A) r r1 :
  evolves r r1 -> wp m (fun _ r' => raft_inv r' /\ evolves r1 r') r1 ->
  wp m (fun _ r' => raft_inv r' /\ evolves r r') r1.
Proof.
  intros H1 Hm. eapply wp_mono; [exact Hm|]. intros x r2 [H2 E2]. split; [done|]. by eapply evolves_trans.
Qed.

Lemma keeps_bind {A B} (m : M A) (k : A -> M B) : keeps m -> (forall x, keeps (k x)) -> keeps (rbind m k).
Proof.
  intros Hm Hk r Hr. eapply (keeps_bind_pre m k (fun _ _ => True)).
  - eapply wp_mono; [by apply Hm|]. intros ?? []. done.
  - intros x r' Hr' _. by apply Hk.
Qed.

Lemma keeps_core {A} (m : M A) : (forall r, wp m (fun _ r' => core r' = core r) r) -> keeps m.
Proof.
  intros H r Hr. eapply wp_mono; [apply H|]. intros x r' Hc.
  split; [by apply (raft_inv_core r)|by apply evolves_core].
Qed.

Lemma keeps_mret {A} (x : A) : keeps (mret x).
Proof. apply keeps_core. intros r. by apply wp_mret. Qed.

Lemma keeps_rpanic {A} msg : keeps (A := A) (rpanic msg).
Proof. intros r _. apply wp_rpanic. Qed.

Lemma keeps_gets {A} (f : raft -> A) : keeps (gets f).
Proof. apply keeps_core. intros r. by apply wp_gets. Qed.

Lemma keeps_reads {A} (f : raft -> outcome A) : keeps (reads f).
Proof. apply keeps_core. intros r. by apply wp_reads. Qed.

Lemma keeps_query {A} (f : nat -> A) : keeps (query f).
Proof. apply keeps_core. intros r. by apply wp_query. Qed.

Lemma keeps_assertTrue b msg : keeps (assertTrue b msg).
Proof. destruct b; [apply keeps_mret|apply keeps_rpanic]. Qed.

Lemma keeps_modify f : (forall r, core (f r) = core r) -> keeps (modify f).
Proof. intros H. apply keeps_core. intros r. by apply wp_modify. Qed.

Lemma keeps_modify_inv f :
  (forall r, ledger (f r) = ledger r) -> (forall r, raft_inv r -> raft_inv (f r)) -> keeps (modify f).
Proof. intros H1 H2 r Hr. apply wp_modify. split; [by apply H2|by apply evolves_ledger]. Qed.

Lemma keeps_pr_op {A} id (f : Progress -> outcome (Progress * A)) : keeps (pr_op id f).
Proof. apply keeps_core. intros r. by apply wp_pr_op. Qed.

Lemma keeps_for_each {X} (f : X -> M unit) l : (forall x, keeps (f x)) -> keeps (for_each f l).
Proof. intros Hf. induction l; cbn; [apply keeps_mret|]. apply keeps_bind; [apply Hf|done]. Qed.

Lemma keeps_Visit f : (forall x, keeps (f x)) -> keeps (Visit f).
Proof. intros Hf. apply keeps_bind; [apply keeps_gets|]. intros l. by apply keeps_for_each. Qed.

Lemma evolves_log r l :
  l_committed (r_raftLog r) <= l_committed l -> evolves r (r <| r_raftLog := l |>).
Proof.
  intros Hc. split; try done; try (cbn; lia).
  - exists []. by rewrite app_nil_r.
  - exists []. rewrite app_nil_r. split_and!; try done. intros ?? Hin. by apply elem_of_nil in Hin.
Qed.

Lemma raft_inv_log r l : raft_inv r -> raft_inv (r <| r_raftLog := l |>).
Proof. by intros []. Qed.

(** Log operations do not lower the commit index. *)
Definition commit_monotone (f : raftLog -> outcome raftLog) : Prop :=
  forall l l', f l = Ret l' -> l_committed l <= l_committed l'.

Lemma keeps_log_upd f : commit_monotone f -> keeps (log_upd f).
Proof.
  intros Hf r Hr. apply wp_log_upd. intros l Hl. split; [by apply raft_inv_log|].
  apply evolves_log. by apply Hf.
Qed.

Lemma keeps_log_op {A} (f : raftLog -> outcome (raftLog * A)) :
  (forall l l' x, f l = Ret (l', x) -> l_committed l <= l_committed l') -> keeps (log_op f).
Proof.
  intros Hf r Hr. apply wp_log_op. intros l x Hl. split; [by apply raft_inv_log|].
  apply evolves_log. by eapply Hf.
Qed.

Lemma commitTo_monotone mark : commit_monotone (fun l => raftLog_commitTo l mark).
Proof.
  intros l l'. unfold raftLog_commitTo. destruct (Z.ltb_spec (l_committed l) (mark_Index mark)); [|by intros [= <-]].
  destruct (_ <? _); [done|]. intros [= <-]. cbn. lia.
Qed.

Lemma appliedTo_monotone i size : commit_monotone (fun l => raftLog_appliedTo l i size).
Proof.
  intros l l'. unfold raftLog_appliedTo. destruct (_ || _); [done|].
  destruct (_ >? _); intros [= <-]; cbn; lia.
Qed.

Lemma stableTo_monotone mark : commit_monotone (fun l => raftLog_stableTo l mark).
Proof.
  intros l l'. unfold raftLog_stableTo. destruct (unstable_stableTo _ _); [|done]. intros [= <-]. cbn. lia.
Qed.

Lemma stableSnapTo_monotone i : commit_monotone (fun l => Ret (raftLog_stableSnapTo l i)).
Proof. intros l l' [= <-]. cbn. lia. Qed.

Lemma raftLog_append_commit a l l' x : raftLog_append l a = Ret (l', x) -> l_committed l <= l_committed l'.
Proof.
  unfold raftLog_append. destruct (unstable_append _ _) as [[]|]; [|done]. intros [= <- <-]. cbn. lia.
Qed.

Lemma raftLog_maybeAppend_commit a l l' x :
  raftLog_maybeAppend l a = Ret (l', x) -> l_committed l <= l_committed l'.
Proof.
  unfold raftLog_maybeAppend. destruct (raftLog_match l a) as [[m|]|]; cbn; [|by intros [= <- <-]|done].
  destruct (logSlice_forward a m) as [b|]; cbn; [|done].
  destruct (_ =? _); [by intros [= <- <-]|]. destruct (slice_get _ _); cbn; [|done].
  destruct (_ <=? _); [done|]. destruct (unstable_truncateAndAppend _ _) as [[]|]; cbn; [|done].
  intros [= <- <-]. cbn. lia.
Qed.

Create HintDb keeps discriminated.

#[export] Hint Resolve keeps_mret keeps_rpanic keeps_gets keeps_reads keeps_query keeps_assertTrue
  keeps_pr_op keeps_log_upd keeps_log_op commitTo_monotone appliedTo_monotone
  stableTo_monotone stableSnapTo_monotone raftLog_append_commit raftLog_maybeAppend_commit : keeps.

(** Goes through the structure of an action; the leaves are lemmas of the hint
    database or updates of fields the core does not include. *)
Ltac keeps_step :=
  match goal with
  | |- forall _, _ => intros ?
  | |- keeps (rbind _ _) => apply keeps_bind
  | |- keeps (Visit _) => apply keeps_Visit
  | |- keeps (for_each _ _) => apply keeps_for_each
  | |- keeps (modify _) => apply keeps_modify; intros ?; repeat case_match; reflexivity
  | |- keeps (let '(_, _) := ?x in _) => destruct x
  | |- keeps (if ?b then _ else _) => destruct b
  | |- keeps (match ?x with _ => _ end) => destruct x
  | |- _ => solve [eauto with keeps nocore]
  end.

Ltac keeps_auto := repeat keeps_step.

(** ** Sending *)

(** The message as [send] completes it. *)
Definition stamped (r : raft) (m : Message) : Message :=
  let m := if m_From m =? None_ID then m <| m_From := r_id r |> else m in
  if is_campaign_msg (m_Type m) || bool_decide (m_Type m = MsgProp) then m else m <| m_Term := r_Term r |>.

Lemma stamped_fields r m :
  m_Type (stamped r m) = m_Type m /\ m_To (stamped r m) = m_To m /\ m_Reject (stamped r m) = m_Reject m /\
  m_From (stamped r m) = (if m_From m =? None_ID then r_id r else m_From m) /\
  m_Term (stamped r m) =
    (if is_campaign_msg (m_Type m) || bool_decide (m_Type m = MsgProp) then m_Term m else r_Term r).
Proof.
  unfold stamped. destruct (m_From m =? None_ID); cbn;
    destruct (is_campaign_msg _ || _); split_and!; reflexivity.
Qed.

Lemma send_result m r x r' :
  send m r = Ret (x, r') ->
  (if is_campaign_msg (m_Type m) then m_Term m <> 0 else m_Term m = 0) /\
  if is_after_append (m_Type m) then
    r' = r <| r_msgsAfterAppend := r_msgsAfterAppend r ++ [stamped r m] |>
  else m_To m <> r_id r /\ r' = r <| r_msgs := r_msgs r ++ [stamped r m] |>.
Proof.
  assert (Hm : forall b : bool, let m' := if b then m <| m_From := r_id r |> else m in
    m_Type m' = m_Type m /\ m_To m' = m_To m /\ m_Term m' = m_Term m) by (intros []; done).
  unfold send, stamped, rbind, gets. cbn. specialize (Hm (m_From m =? None_ID)). cbn in Hm.
  set (m' := if m_From m =? None_ID then _ else m) in *. destruct Hm as (HT&Hto&Htm).
  rewrite HT, Htm. destruct (is_campaign_msg (m_Type m)) eqn:Ec; cbn.
  - destruct (Z.eqb_spec (m_Term m) 0); [done|]. cbn. rewrite HT, Hto.
    destruct (is_after_append (m_Type m)); [by intros [= <- <-]|].
    destruct (Z.eqb_spec (m_To m) (r_id r)); [done|]. by intros [= <- <-].
  - destruct (Z.eqb_spec (m_Term m) 0); [|done]. cbn.
    destruct (decide (m_Type m = MsgProp)) as [Hp|Hp].
    + rewrite Hp, !bool_decide_eq_false_2, bool_decide_eq_true_2 by naive_solver. cbn. rewrite HT, Hp. cbn.
      rewrite Hto. destruct (Z.eqb_spec (m_To m) (r_id r)); [done|]. by intros [= <- <-].
    + rewrite bool_decide_eq_true_2, bool_decide_eq_false_2 by done. cbn. rewrite HT, Hto.
      destruct (is_after_append (m_Type m)); [by intros [= <- <-]|].
      destruct (Z.eqb_spec (m_To m) (r_id r)); [done|]. by intros [= <- <-].
Qed.

(** What [send] needs of a vote message: it is stamped with the term of the peer,
    and grants only the vote of the peer. *)
Definition vote_msg_ok (r : raft) (m : Message) : Prop :=
  m_Type m <> MsgStorageAppend /\
  (m_Type m = MsgVote \/ m_Type m = MsgVoteResp -> m_Term m <> 0 -> m_Term m = r_Term r) /\
  (vote_granted m -> m_From m = None_ID /\ m_To m <> None_ID /\ r_Vote r = m_To m).

Lemma stamped_ok r m :
  raft_inv r -> vote_msg_ok r m ->
  (if is_campaign_msg (m_Type m) then m_Term m <> 0 else m_Term m = 0) ->
  m_From (stamped r m) <> None_ID /\
  (m_Type m <> MsgProp -> m_Type m <> MsgPreVote -> m_Type m <> MsgPreVoteResp -> m_Term (stamped r m) = r_Term r).
Proof.
  intros Hr (_&Hv&_) Ht. destruct (stamped_fields r m) as (_&_&_&->&->). split.
  - destruct (Z.eqb_spec (m_From m) None_ID); [apply Hr|done].
  - intros Hp Hpv Hpr. rewrite (bool_decide_eq_false_2 _ Hp), orb_false_r.
    destruct (m_Type m); cbn in *; try done; auto.
Qed.

Lemma evolves_send m r :
  raft_inv r -> vote_msg_ok r m ->
  wp (send m) (fun _ r' => raft_inv r' /\ evolves r r' /\
    exists ms ma, r' = r <| r_msgs := ms |> <| r_msgsAfterAppend := ma |>) r.
Proof.
  intros Hr Hv x r' Hs. apply send_result in Hs as [Ht Hs].
  destruct (stamped_ok r m Hr Hv Ht) as [Hfrom Hterm].
  destruct (stamped_fields r m) as (Hty&Hto&Hrej&Hfr&Htm). destruct Hv as (Hsa&_&Hv).
  destruct (is_after_append (m_Type m)) eqn:Ea.
  - subst r'. split_and!; [by destruct Hr| |by eexists (r_msgs r), _]. split; try done; try (cbn; lia).
    { exists []. by rewrite app_nil_r. }
    exists [stamped r m]. split_and!; try done.
    + apply Forall_singleton. unfold held_ok. cbn. rewrite Hty, Hto. split_and!; try done.
      * intros Hpr. rewrite Hterm; [lia|by intros Hx; rewrite Hx in Ea..].
      * intros [Hg1 Hg2]. rewrite Hty in Hg1. rewrite Hrej in Hg2. destruct (Hv (conj Hg1 Hg2)) as (Hn&?&?).
        rewrite Hfr, Htm, Hn, Hg1. rewrite Hg1 in Ht. by split_and!.
    + intros m1 m2 ->%list_elem_of_singleton ->%list_elem_of_singleton. done.
  - destruct Hs as [Hne ->]. split_and!; [by destruct Hr| |by eexists _, (r_msgsAfterAppend r)]. split; try done; try (cbn; lia).
    + exists [stamped r m]. split; [done|]. apply Forall_singleton. unfold sent_ok. cbn. rewrite Hty, Hto.
      split_and!; try done. intros Hp Hpv. rewrite Hterm; [lia|done..|]. by intros Hx; rewrite Hx in Ea.
    + exists []. rewrite app_nil_r. split_and!; try done. intros ?? Hin. by apply elem_of_nil in Hin.
Qed.

Lemma keeps_send m :
  m_Type m <> MsgVote -> m_Type m <> MsgVoteResp -> m_Type m <> MsgStorageAppend -> keeps (send m).
Proof.
  intros H1 H2 H3 r Hr. eapply wp_mono; [apply evolves_send; [done|]|].
  - split_and!; [done|by intros []|by intros []].
  - intros ?? (?&?&_). done.
Qed.

#[export] Hint Extern 1 (keeps (send _)) => apply keeps_send; cbn; congruence : keeps.

(** ** The operations of a peer *)

Section keeps.

Context (E : Env).

Lemma keeps_supporting : keeps (supportingFortifiedLeader E).
Proof. unfold supportingFortifiedLeader, SupportFor. keeps_auto. Qed.

#[local] Hint Resolve keeps_supporting : keeps.

Lemma keeps_clear_epoch : keeps (modify (fun r => r <| r_leadEpoch := 0 |>)).
Proof. apply keeps_modify_inv; [done|]. intros r []. split; done. Qed.

#[local] Hint Resolve keeps_clear_epoch : keeps.

Lemma keeps_deFortify from term : keeps (deFortify E from term).
Proof.
  unfold deFortify. do 3 (apply keeps_bind; [auto with keeps|intros ?]).
  apply keeps_bind; [keeps_auto|intros ?]. apply keeps_bind; auto with keeps.
Qed.

Lemma keeps_maybeSendSnapshot to : keeps (maybeSendSnapshot to).
Proof. unfold maybeSendSnapshot, pr_get, pr_set. keeps_auto. Qed.

#[local] Hint Resolve keeps_deFortify keeps_maybeSendSnapshot : keeps.

Lemma keeps_maybeSendAppend to : keeps (maybeSendAppend E to).
Proof. unfold maybeSendAppend, advanceCommitViaMsgAppOnly, pr_get, pr_set. keeps_auto. Qed.

#[local] Hint Resolve keeps_maybeSendAppend : keeps.

Lemma keeps_sendAppend_all to : keeps (sendAppend_all E to).
Proof.
  apply keeps_bind; [auto with keeps|]. intros fuel.
  induction fuel; cbn; keeps_auto.
Qed.

Lemma keeps_sendHeartbeat to : keeps (sendHeartbeat E to).
Proof. unfold sendHeartbeat, advanceCommitViaMsgAppOnly, pr_get, pr_set. keeps_auto. Qed.

#[local] Hint Resolve keeps_sendAppend_all keeps_sendHeartbeat : keeps.

Lemma keeps_bcastAppend : keeps (bcastAppend E).
Proof. apply keeps_Visit. keeps_auto. Qed.

Lemma keeps_bcastHeartbeat : keeps (bcastHeartbeat E).
Proof. apply keeps_Visit. keeps_auto. Qed.

Lemma keeps_maybeCommit : keeps maybeCommit.
Proof. unfold maybeCommit. keeps_auto. Qed.

Lemma keeps_increase es : keeps (increaseUncommittedSize es).
Proof. unfold increaseUncommittedSize. keeps_auto. Qed.

Lemma keeps_reduce s : keeps (reduceUncommittedSize s).
Proof. unfold reduceUncommittedSize. keeps_auto. Qed.

#[local] Hint Resolve keeps_bcastAppend keeps_bcastHeartbeat keeps_maybeCommit keeps_increase keeps_reduce : keeps.

Lemma keeps_appendEntry es : keeps (appendEntry es).
Proof. unfold appendEntry, pr_set. keeps_auto. Qed.

Lemma keeps_send_ack to index : keeps (send_ack to index).
Proof. unfold send_ack. keeps_auto. Qed.

#[local] Hint Resolve keeps_appendEntry keeps_send_ack : keeps.

Lemma keeps_handleAppendEntries m : keeps (handleAppendEntries m).
Proof. unfold handleAppendEntries, checkMatch. keeps_auto. Qed.

Lemma keeps_handleHeartbeat m : keeps (handleHeartbeat m).
Proof. unfold handleHeartbeat, checkMatch. keeps_auto. Qed.

Lemma keeps_check_proposals i es : keeps (check_proposals E i es).
Proof. revert i. induction es; intros i; cbn; keeps_auto. Qed.

#[local] Hint Resolve keeps_handleAppendEntries keeps_handleHeartbeat keeps_check_proposals : keeps.

Lemma keeps_stepLeader_MsgProp m : keeps (stepLeader_MsgProp E m).
Proof. unfold stepLeader_MsgProp, Progress_of. keeps_auto. Qed.

(** Actions that leave the core alone. *)
Definition frames {A} (m : M A) : Prop := forall r, wp m (fun _ r' => core r' = core r) r.

Lemma frames_bind {A B} (m : M A) (k : A -> M B) : frames m -> (forall x, frames (k x)) -> frames (rbind m k).
Proof.
  intros Hm Hk r. apply wp_bind. eapply wp_mono; [apply Hm|]. intros x r1 H1.
  eapply wp_mono; [apply Hk|]. intros y r2 H2. cbn in *. congruence.
Qed.

Lemma frames_Visit f : (forall x, frames (f x)) -> frames (Visit f).
Proof.
  intros Hf r. apply wp_bind, wp_gets. apply (wp_for_each f (fun r' => core r' = core r)); [|done].
  intros x r' _ Hr. eapply wp_mono; [apply Hf|]. intros ? r'' Hr'. cbn in *. congruence.
Qed.

Lemma frames_supporting : frames (supportingFortifiedLeader E).
Proof.
  intros r. unfold supportingFortifiedLeader, SupportFor. apply wp_bind, wp_gets.
  destruct (_ =? _); [by apply wp_mret|]. apply wp_bind, wp_gets. apply wp_bind, wp_assertTrue. intros _.
  apply wp_bind, wp_query. intros [epoch live]. apply wp_bind, wp_assertTrue. intros _. by apply wp_mret.
Qed.

Lemma frames_resetRandomized : frames (resetRandomizedElectionTimeout E).
Proof.
  intros r. unfold resetRandomizedElectionTimeout, Intn. apply wp_bind, wp_gets. apply wp_bind.
  destruct (_ <=? _); [apply wp_rpanic|]. apply wp_query. intros x. by apply wp_modify.
Qed.

(** The effect of [reset] on the core. *)
Definition reset_core (r : raft) (term : Z) : raft :=
  if r_Term r =? term then r
  else r <| r_Term := term |> <| r_Vote := None_ID |> <| r_lead := None_ID |> <| r_leadEpoch := 0 |>.

Lemma wp_reset term r : wp (reset E term) (fun _ r' => core r' = core (reset_core r term)) r.
Proof.
  unfold reset. apply wp_bind, wp_gets. apply wp_bind.
  apply (wp_mono _ (fun _ r' => core r' = core (reset_core r term))).
  - unfold reset_core. destruct (Z.eqb_spec (r_Term r) term); [by apply wp_mret|]. cbn.
    apply wp_bind. eapply wp_mono; [apply frames_supporting|]. intros supporting r1 H1.
    apply wp_bind, wp_gets. apply wp_bind, wp_assertTrue. intros _. apply wp_modify.
    injection H1. intros. unfold core, ledger. cbn. congruence.
  - intros ? r1 H1. eapply wp_mono; [|intros ? r2 H2; rewrite <- H1; exact H2].
    apply frames_bind; [intros ?; by apply wp_modify|]. intros _.
    apply frames_bind; [apply frames_resetRandomized|]. intros _.
    apply frames_bind; [intros ?; by apply wp_modify|]. intros _.
    apply frames_bind; [intros ?; by apply wp_modify|]. intros _.
    apply frames_bind; [|intros _ ?; by apply wp_modify].
    apply frames_Visit. intros id r2. by apply wp_pr_op.
Qed.

Lemma evolves_reset r r' term :
  r_Term r <= term -> ledger r' = ledger (reset_core r term) -> evolves r r'.
Proof.
  intros Ht Hl. eapply evolves_trans; [|by apply evolves_ledger].
  unfold reset_core. destruct (Z.eqb_spec (r_Term r) term); [apply evolves_refl|].
  split; try done; try (cbn; lia).
  - exists []. by rewrite app_nil_r.
  - exists []. rewrite app_nil_r. split_and!; try done. intros ?? Hin. by apply elem_of_nil in Hin.
Qed.

(** A follower forgets support only with the term, and keeps following a known
    leader within it. *)
Lemma wp_becomeFollower term lead r :
  raft_inv r -> 0 <= term -> r_Term r <= term -> (r_Term r = term -> r_leadEpoch r <> 0 -> lead <> None_ID) ->
  wp (becomeFollower E term lead) (fun _ r' =>
    raft_inv r' /\ evolves r r' /\ r_Term r' = term /\ r_state r' = StateFollower /\ r_lead r' = lead) r.
Proof.
  intros Hr Ht0 Ht Hl. unfold becomeFollower. apply wp_bind, wp_modify. apply wp_bind.
  eapply wp_mono; [apply wp_reset|]. intros ? r1 H1. apply wp_modify.
  assert (HT : r_Term (reset_core r term) = term).
  { unfold reset_core. destruct (Z.eqb_spec (r_Term r) term); done. }
  assert (Hc : core r1 = core (reset_core r term <| r_step := stepFollower_f |>)).
  { rewrite H1. unfold reset_core. cbn. by destruct (_ =? _). }
  injection Hc as Hid HTerm HVote Hcom Hm Hma Hst Hstep Htick Hlead Hep. cbn in *.
  assert (Hid' : r_id (reset_core r term) = r_id r) by (unfold reset_core; by destruct (_ =? _)).
  split_and!; [|apply (evolves_reset r _ term); [done|unfold ledger; cbn; congruence]|congruence|done|done].
  split; cbn; [rewrite Hid, Hid'; apply Hr|by rewrite HTerm, HT|done|by intros []|done|].
  rewrite Hep. unfold reset_core. destruct (Z.eqb_spec (r_Term r) term); [by apply Hl|done].
Qed.

Lemma keeps_stepDown :
  keeps (let* term := gets r_Term in let* lead := gets r_lead in becomeFollower E term lead).
Proof.
  intros r Hr. apply wp_bind, wp_gets. apply wp_bind, wp_gets.
  eapply wp_mono; [apply wp_becomeFollower; [done|apply Hr|lia|intros _; apply Hr]|].
  intros ?? (?&?&_). done.
Qed.

#[local] Hint Resolve keeps_stepDown : keeps.

Lemma keeps_transferLeader to : keeps (transferLeader E to).
Proof. unfold transferLeader. do 3 (apply keeps_bind; [auto with keeps|intros ?]). apply keeps_stepDown. Qed.

(** Back from a precondition at a state to [keeps]. *)
Ltac to_keeps :=
  match goal with Hr : raft_inv ?r |- wp ?m _ ?r => refine ((_ : keeps m) r Hr) end.

Lemma keeps_switchToConfig cfg pm : keeps (switchToConfig E cfg pm).
Proof.
  unfold switchToConfig, Progress_of, abortLeaderTransfer.
  do 5 (apply keeps_bind; [keeps_auto|intros ?]).
  intros r Hr. do 2 apply wp_bind, wp_gets. destruct (_ && _); [|to_keeps; keeps_auto].
  apply wp_bind. destruct (r_stepDownOnRemoval r); [|by apply wp_mret, wp_mret; auto using evolves_refl].
  apply wp_bind, wp_gets. eapply wp_mono; [apply wp_becomeFollower; [done|apply Hr|lia|intros _; apply Hr]|].
  intros ? r' (?&?&_). by apply wp_mret.
Qed.

#[local] Hint Resolve keeps_transferLeader keeps_switchToConfig : keeps.

Lemma keeps_applyConfChange cc : keeps (applyConfChange E cc).
Proof. unfold applyConfChange. keeps_auto. Qed.

Lemma keeps_restoreConfig last cs : keeps (restoreConfig E last cs).
Proof. unfold restoreConfig, assertConfStatesEquivalent. keeps_auto. Qed.

#[local] Hint Resolve keeps_restoreConfig : keeps.

Lemma keeps_restore s : keeps (restore E s).
Proof.
  intros r Hr. unfold restore. apply wp_bind, wp_gets.
  destruct (Z.leb_spec (id_index (snapshot_lastEntryID s)) (l_committed (r_raftLog r))) as [|Hlt];
    [to_keeps; keeps_auto|].
  apply wp_bind, wp_gets. destruct (negb _); [apply wp_rpanic|].
  apply wp_bind, wp_gets. destruct (negb _); [to_keeps; keeps_auto|].
  apply wp_bind, wp_reads. intros [] _; [to_keeps; keeps_auto|].
  apply (keeps_bind_pre _ _ (fun _ _ => True)); [|intros ? r' Hr' _; to_keeps; keeps_auto].
  apply wp_log_op. intros l x [= Hl]. split_and!; [by apply raft_inv_log| |done]. apply evolves_log.
  revert Hl. unfold raftLog_restore. destruct (unstable_restore _ _) as [u []]; cbn; intros [= <- <-]; cbn in *; lia.
Qed.

#[local] Hint Resolve keeps_restore : keeps.

Lemma keeps_handleSnapshot m : keeps (handleSnapshot E m).
Proof. unfold handleSnapshot. keeps_auto. Qed.

Lemma keeps_handleFortify m : m_From m <> None_ID -> keeps (handleFortify E m).
Proof.
  intros Hm r Hr. unfold handleFortify, SupportFor. apply wp_bind, wp_gets. apply wp_bind, wp_assertTrue. intros _.
  apply wp_bind, wp_gets. apply wp_bind, wp_assertTrue. intros Hlead%Z.eqb_eq.
  apply (keeps_bind_pre _ _ (fun _ r' => r_lead r' = m_From m)).
  { apply wp_query. intros x. split_and!; [by apply (raft_inv_core r)|by apply evolves_core|done]. }
  intros [epoch live] r' Hr' Hl'. destruct live; cbn; [|to_keeps; keeps_auto].
  apply (keeps_bind_pre _ _ (fun _ _ => True)); [|intros ? r'' Hr'' _; to_keeps; keeps_auto].
  apply wp_modify. split_and!; [|by apply evolves_ledger|done]. destruct Hr'. split; try done. cbn. by rewrite Hl'.
Qed.

(** *** Elections *)

Lemma wp_becomeCandidate r :
  raft_inv r -> r_Term r < MaxUint64 ->
  wp (becomeCandidate E) (fun _ r' =>
    raft_inv r' /\ evolves r r' /\ r_Term r' = r_Term r + 1 /\ r_Vote r' = r_id r /\ r_id r' = r_id r) r.
Proof.
  intros Hr Hmax. pose proof (inv_Term r Hr). unfold becomeCandidate. apply wp_bind, wp_gets.
  destruct (bool_decide _); [apply wp_rpanic|]. apply wp_bind, wp_modify. apply wp_bind, wp_gets. cbn.
  rewrite (u64_small (r_Term r + 1)) by (unfold is_u64, u64_modulus, MaxUint64 in *; lia).
  apply wp_bind. eapply wp_mono; [apply wp_reset|]. intros ? r1 H1. apply wp_modify.
  unfold reset_core in H1. cbn in H1. destruct (Z.eqb_spec (r_Term r) (r_Term r + 1)); [lia|].
  injection H1 as Hid HT HV Hc Hm Hma Hs Hst Htk Hl He.
  split_and!; cbn; [| |done|done|done].
  - pose proof (inv_id r Hr). split; cbn; try done; try lia; congruence.
  - split; cbn; try lia; try done.
    + exists []. by rewrite app_nil_r.
    + exists []. rewrite app_nil_r. split_and!; try done. intros ?? Hin. by apply elem_of_nil in Hin.
Qed.

Lemma keeps_becomePreCandidate : keeps (becomePreCandidate E).
Proof.
  unfold becomePreCandidate. apply keeps_bind; [auto with keeps|intros state].
  destruct (bool_decide _); [auto with keeps|]. do 3 (apply keeps_bind; [auto with keeps|intros ?]).
  apply keeps_modify_inv; [done|]. intros r []. split; cbn; try done. by intros [].
Qed.

Lemma keeps_becomeLeader r :
  raft_inv r -> r_state r = StateCandidate ->
  wp (becomeLeader E) (fun _ r' => raft_inv r' /\ evolves r r') r.
Proof.
  intros Hr Hst. unfold becomeLeader, pr_set. apply wp_bind, wp_gets. rewrite Hst. cbn.
  apply wp_bind, wp_modify. apply wp_bind, wp_gets. apply wp_bind.
  eapply wp_mono; [apply wp_reset|]. intros ? r1 H1. cbn.
  unfold reset_core in H1. cbn in H1. rewrite Z.eqb_refl in H1.
  injection H1 as Hid HT HV Hc Hm Hma Hs Hstep Htk Hl He.
  apply wp_bind, wp_modify.
  match goal with |- wp ?m _ ?r1 => assert (Hr1 : raft_inv r1 /\ evolves r r1) end.
  { split; [|apply evolves_ledger; unfold ledger; cbn; congruence].
    pose proof (inv_id r Hr). split; cbn; try done; try congruence.
    - rewrite HT. apply Hr.
    - intros _. rewrite HV, Hid. apply Hr. by left. }
  destruct Hr1 as [Hr1 E1]. apply wp_after; [done|]. to_keeps. keeps_auto.
Qed.

Lemma keeps_bcastFortify : keeps (bcastFortify E).
Proof.
  intros r Hr. unfold bcastFortify. apply wp_bind, wp_gets. apply wp_bind, wp_assertTrue.
  intros Hst%bool_decide_eq_true. unfold Visit. apply wp_bind, wp_gets.
  eapply wp_mono; [apply (wp_for_each _ (fun r' => raft_inv r' /\ evolves r r' /\ r_state r' = StateLeader))|].
  - intros to r1 _ (Hr1&E1&S1). unfold sendFortify, SupportFromEnabled, SupportFor.
    assert (Hcalls : forall n, let r2 := r1 <| r_calls := n |> in
      raft_inv r2 /\ evolves r r2 /\ r_state r2 = StateLeader).
    { intros n. split_and!; [by apply (raft_inv_core r1)| |done]. eapply evolves_trans; [done|by apply evolves_core]. }
    apply wp_bind, wp_query. intros enabled. destruct enabled; cbn; [|apply wp_mret, Hcalls].
    apply wp_bind, wp_gets. cbn. destruct (Z.eqb_spec to (r_id r1)).
    + apply wp_bind, wp_gets. apply wp_bind, wp_query. intros [epoch live].
      destruct live; [|apply wp_mret, (Hcalls (S (S (r_calls r1))))]. apply wp_modify. destruct (Hcalls (S (S (r_calls r1)))) as (Hr2&E2&S2).
      split_and!; [|by eapply evolves_trans; [exact E2|apply evolves_ledger]|done].
      assert (Hl : r_lead r1 = r_id r1) by (pose proof (inv_lead r1 Hr1) as Hl; by rewrite S1 in Hl).
      destruct Hr2. split; try done. intros _. cbn. rewrite Hl. apply Hr1.
    + destruct (Hcalls (S (r_calls r1))) as (Hr2&E2&S2).
      eapply wp_mono; [apply evolves_send; [done|split_and!; [done|by intros []|by intros []]]|].
      intros ? r3 (Hr3&E3&ms&ma&->). split_and!; [done|by eapply evolves_trans|done].
  - split_and!; try done. apply evolves_refl.
  - intros ? r' (?&?&_). done.
Qed.

(** The loop of [campaign] that sends the requests of an election at the current
    term, for which the candidate has voted for itself. *)
Lemma keeps_campaign_loop order t r :
  raft_inv r -> r_Vote r = r_id r ->
  wp (for_each (fun id =>
    let* self := gets r_id in
    if id =? self then
      let* resp := reads (fun _ => voteRespMsgType MsgVote) in
      send (Msg resp <| m_To := id |> <| m_Term := r_Term r |>)
    else
      let* last := reads (fun r => raftLog_lastEntryID (r_raftLog r)) in
      let ctx := if bool_decide (t = campaignTransfer) then campaignTransfer_bytes else [] in
      send (Msg MsgVote <| m_To := id |> <| m_Term := r_Term r |> <| m_Index := id_index last |>
              <| m_LogTerm := id_term last |> <| m_Context := ctx |>)) order)
    (fun _ r' => raft_inv r' /\ evolves r r') r.
Proof.
  intros Hr Hv. eapply wp_mono;
    [apply (wp_for_each _ (fun r' => (raft_inv r' /\ evolves r r') /\ r_Term r' = r_Term r /\
       r_Vote r' = r_Vote r /\ r_id r' = r_id r))|by intros ?? [? _]].
  2: { split_and!; try done. apply evolves_refl. }
  intros id r1 _ ([Hr1 E1]&T1&V1&I1). apply wp_bind, wp_gets.
  assert (Hsend : forall m, vote_msg_ok r1 m -> wp (send m) (fun _ r' => (raft_inv r' /\ evolves r r') /\
    r_Term r' = r_Term r /\ r_Vote r' = r_Vote r /\ r_id r' = r_id r) r1).
  { intros m Hm. eapply wp_mono; [by apply evolves_send|]. intros ? r2 (Hr2&E2&ms&ma&->).
    split_and!; try done. by eapply evolves_trans. }
  destruct (Z.eqb_spec id (r_id r1)) as [->|].
  - apply wp_bind, wp_reads. intros resp [= <-]. apply Hsend. split_and!; cbn; [done|done|].
    intros _. split_and!; [done|apply Hr1|congruence].
  - apply wp_bind, wp_reads. intros last _. apply Hsend. split_and!; cbn; [done|done|]. by intros [].
Qed.

Lemma keeps_campaign t r :
  raft_inv r -> r_Term r < MaxUint64 -> wp (campaign E t) (fun _ r' => raft_inv r' /\ evolves r r') r.
Proof.
  intros Hr Hmax. unfold campaign. apply wp_bind. destruct (bool_decide _); apply wp_bind.
  - eapply wp_mono; [by apply keeps_becomePreCandidate|]. intros ? r1 [Hr1 E1].
    apply wp_bind, wp_gets. apply wp_mret, wp_after; [done|].
    to_keeps. apply keeps_bind; [auto with keeps|]. intros order.
    apply keeps_for_each. intros id. apply keeps_bind; [auto with keeps|]. intros self.
    destruct (_ =? _); [|keeps_auto].
    intros r2 Hr2. apply wp_bind, wp_reads. intros resp [= <-]. to_keeps. keeps_auto.
  - eapply wp_mono; [by apply wp_becomeCandidate|]. intros ? r1 (Hr1&E1&T1&V1&I1).
    apply wp_bind, wp_gets. apply wp_mret. apply wp_bind, wp_gets.
    apply wp_after; [done|]. apply keeps_campaign_loop; congruence.
Qed.

Lemma keeps_hup t r :
  raft_inv r -> r_Term r < MaxUint64 -> wp (hup E t) (fun _ r' => raft_inv r' /\ evolves r r') r.
Proof.
  intros Hr Hmax. unfold hup, promotable, hasUnappliedConfChanges. apply wp_bind, wp_gets.
  destruct (bool_decide _); [to_keeps; keeps_auto|]. apply wp_bind, wp_gets.
  destruct (negb _); [to_keeps; keeps_auto|]. apply wp_bind.
  eapply wp_mono; [apply frames_supporting|]. intros supporting r1 Hc.
  assert (Hr1 : raft_inv r1) by by apply (raft_inv_core r).
  apply wp_after; [by apply evolves_core|].
  apply wp_bind, wp_gets. destruct (_ && _); [to_keeps; keeps_auto|]. apply wp_bind, wp_reads.
  intros [] _; [to_keeps; keeps_auto|]. apply keeps_campaign; [done|]. injection Hc. intros. congruence.
Qed.

(** *** The step functions *)

Lemma keeps_stepCandidate_poll m r :
  raft_inv r -> r_Term r < MaxUint64 -> r_step r = stepCandidate_f ->
  wp (stepCandidate_poll E m) (fun _ r' => raft_inv r' /\ evolves r r') r.
Proof.
  intros Hr Hmax Hstep. unfold stepCandidate_poll, poll. apply wp_bind, wp_bind, wp_modify, wp_gets.
  set (r1 := r <| r_votes := _ |>).
  assert (Hr1 : raft_inv r1) by by apply (raft_inv_core r).
  apply wp_after; [by apply (evolves_core r r1)|].
  destruct (ElectionTracker_TallyVotes _ _) as [[gr rj] res]. destruct res; [to_keeps; keeps_auto|to_keeps; auto with keeps|].
  apply wp_bind, wp_gets. destruct (bool_decide_reflect (r_state r1 = StatePreCandidate)); [by apply keeps_campaign|].
  apply (keeps_bind_pre _ _ (fun _ _ => True)).
  - eapply wp_mono; [apply keeps_becomeLeader; [done|]|by intros ?? []].
    pose proof (inv_role r1 Hr1) as Hrole. change (r_step r1) with (r_step r) in Hrole. rewrite Hstep in Hrole.
    destruct (r_state r1); try done; by destruct Hrole.
  - intros ? r2 Hr2 _. to_keeps. apply keeps_bind; [apply keeps_bcastFortify|auto with keeps].
Qed.

Definition leader_msg (t : MessageType) : bool :=
  match t with MsgApp | MsgHeartbeat | MsgSnap | MsgFortifyLeader => true | _ => false end.

Lemma keeps_follow_and m handler r :
  raft_inv r -> m_Term m = r_Term r -> m_From m <> None_ID -> keeps (handler m) ->
  wp (follow_and E m handler) (fun _ r' => raft_inv r' /\ evolves r r') r.
Proof.
  intros Hr Ht Hf Hh. unfold follow_and. apply (keeps_bind_pre _ _ (fun _ _ => True)).
  - eapply wp_mono; [apply wp_becomeFollower; [done|rewrite Ht; apply Hr|lia|done]|].
    intros ?? (?&?&_). done.
  - intros ? r1 Hr1 _. to_keeps. apply keeps_bind; auto with keeps.
Qed.

#[local] Hint Resolve keeps_handleSnapshot keeps_handleFortify : keeps.

Lemma keeps_stepCandidate m r :
  raft_inv r -> r_Term r < MaxUint64 -> r_step r = stepCandidate_f ->
  (leader_msg (m_Type m) = true -> m_Term m = r_Term r /\ m_From m <> None_ID) ->
  wp (stepCandidate E m) (fun _ r' => raft_inv r' /\ evolves r r') r.
Proof.
  intros Hr Hmax Hstep Hm. unfold stepCandidate. apply wp_bind, wp_gets.
  destruct (m_Type m) eqn:Ht; cbn in Hm;
    try (destruct Hm as [Hterm Hfrom]; [done|]; apply keeps_follow_and; auto with keeps);
    try (to_keeps; keeps_auto; fail);
    (destruct (bool_decide _); [|to_keeps; keeps_auto]; apply (keeps_bind_pre _ _ (fun _ _ => True));
     [eapply wp_mono; [by apply keeps_stepCandidate_poll|by intros ?? []]|intros ? r1 Hr1 _; to_keeps; keeps_auto]).
Qed.

Lemma keeps_advance_progress from index : keeps (advance_progress from index).
Proof. unfold advance_progress, pr_get, pr_set. keeps_auto. Qed.

#[local] Hint Resolve keeps_advance_progress : keeps.

Lemma keeps_stepLeader_MsgAppResp m : keeps (stepLeader_MsgAppResp E m).
Proof.
  unfold stepLeader_MsgAppResp, stepLeader_MsgAppResp_reject, stepLeader_MsgAppResp_accept, pr_get, pr_set.
  keeps_auto.
Qed.

Lemma keeps_stepLeader_MsgTransferLeader m : keeps (stepLeader_MsgTransferLeader E m).
Proof. unfold stepLeader_MsgTransferLeader, abortLeaderTransfer, pr_get, pr_set. keeps_auto. Qed.

#[local] Hint Resolve keeps_stepLeader_MsgAppResp keeps_stepLeader_MsgTransferLeader keeps_stepLeader_MsgProp : keeps.

Lemma keeps_stepLeader_from m : keeps (stepLeader_from E m).
Proof. unfold stepLeader_from, stepLeader_peer, Progress_of, pr_get, pr_set. keeps_auto. Qed.

#[local] Hint Resolve keeps_stepLeader_from : keeps.

Lemma keeps_stepDown_self :
  keeps (let* term := gets r_Term in let* self := gets r_id in becomeFollower E term self).
Proof.
  intros r Hr. apply wp_bind, wp_gets. apply wp_bind, wp_gets.
  eapply wp_mono; [apply wp_becomeFollower; [done|apply Hr|lia|intros _ _; apply Hr]|].
  intros ?? (?&?&_). done.
Qed.

#[local] Hint Resolve keeps_stepDown_self : keeps.

Lemma keeps_stepLeader m : keeps (stepLeader E m).
Proof.
  unfold stepLeader, handleFortifyResp. destruct (m_Type m); try (keeps_auto; fail).
  apply keeps_bind; [auto with keeps|]. intros active. apply keeps_bind; [destruct active; cbn [negb]; auto with keeps|].
  intros _. unfold pr_set. keeps_auto.
Qed.

Lemma keeps_heed_and m handler r :
  raft_inv r -> r_step r = stepFollower_f -> m_From m <> None_ID -> keeps (handler m) ->
  wp (heed_and m handler) (fun _ r' => raft_inv r' /\ evolves r r') r.
Proof.
  intros Hr Hs Hf Hh. unfold heed_and. apply wp_bind, wp_modify.
  set (r1 := r <| r_electionElapsed := 0 |> <| r_lead := m_From m |>).
  apply wp_after; [by apply (evolves_ledger r r1)|].
  assert (Hr1 : raft_inv r1).
  { destruct Hr as [Hid HT Hrole Hv Hl He]. split; try done. cbn. rewrite Hs in Hrole.
    destruct (r_state r); [done|by destruct Hrole..]. }
  to_keeps. apply keeps_bind; auto with keeps.
Qed.

Lemma keeps_stepFollower m r :
  raft_inv r -> r_Term r < MaxUint64 -> r_step r = stepFollower_f ->
  (leader_msg (m_Type m) = true -> m_From m <> None_ID) ->
  wp (stepFollower E m) (fun _ r' => raft_inv r' /\ evolves r r') r.
Proof.
  intros Hr Hmax Hstep Hm. unfold stepFollower. do 2 apply wp_bind, wp_gets.
  destruct (m_Type m) eqn:Ht; cbn in Hm; try (apply keeps_heed_and; auto with keeps; fail);
    try (to_keeps; keeps_auto; apply keeps_send; cbn; rewrite Ht; done).
  - apply (keeps_bind_pre _ _ (fun _ r' => r_Term r' = r_Term r)).
    + apply wp_modify. split_and!; [|by apply evolves_ledger|done]. destruct Hr; split; done.
    + intros ? r1 Hr1 HT. apply (keeps_bind_pre _ _ (fun _ _ => True)); [|intros ? r2 Hr2 _; to_keeps; keeps_auto].
      eapply wp_mono; [apply keeps_hup; [done|lia]|by intros ?? []].
  - destruct (_ =? _); [to_keeps; keeps_auto|]. apply wp_bind.
    eapply wp_mono; [apply frames_supporting|]. intros supporting r1 Hc.
    assert (Hr1 : raft_inv r1) by by apply (raft_inv_core r).
    apply wp_after; [by apply evolves_core|]. destruct (_ && _); [to_keeps; keeps_auto|].
    apply wp_bind, wp_modify, wp_mret. split; [|by apply evolves_ledger].
    destruct Hr1 as [Hid HT Hrole Hv Hl He]. split; try done. cbn.
    injection Hc as _ _ _ _ _ _ _ Hs _ _ _. rewrite Hs, Hstep in Hrole.
    destruct (r_state r1); try done; by destruct Hrole.
Qed.

(** *** Step *)

(** What a peer needs of the messages it is given: the term leaves room for an
    election, a vote request and a message of a leader name their sender, and the
    latter carry a term. *)
Definition msg_ok (m : Message) : Prop :=
  0 <= m_Term m < MaxUint64 /\
  (leader_msg (m_Type m) = true -> m_Term m <> 0 /\ m_From m <> None_ID) /\
  (m_Type m = MsgVote -> m_From m <> None_ID).

(** After the terms are compared the message is for the current term, unless it
    is local or belongs to a pre-election. *)
Definition same_term (m : Message) (r : raft) : Prop :=
  r_Term r < MaxUint64 /\
  (m_Type m <> MsgPreVote -> m_Type m <> MsgPreVoteResp -> m_Term m <> 0 -> m_Term m = r_Term r).

Lemma wp_deFortify from term r :
  raft_inv r ->
  wp (deFortify E from term) (fun _ r' => raft_inv r' /\ evolves r r' /\ r_Term r' = r_Term r) r.
Proof.
  intros Hr.
  assert (Hc : wp (deFortify E from term) (fun _ r' => core r' = core (r <| r_leadEpoch := 0 |>)) r).
  { unfold deFortify. do 3 apply wp_bind, wp_gets. apply wp_bind.
    apply (wp_mono _ (fun _ r' => core r' = core r)).
    - destruct (_ || _); [by apply wp_mret|]. destruct (_ && _); [|by apply wp_mret].
      apply wp_bind. eapply wp_mono; [apply frames_supporting|]. intros b r1 H1. by apply wp_mret.
    - intros ok r1 H1. apply wp_bind, wp_assertTrue. intros _. apply wp_modify.
      injection H1. intros. unfold core, ledger. cbn. congruence. }
  eapply wp_mono; [exact Hc|]. intros ? r' H'. split_and!; [|by apply evolves_ledger; injection H'; intros; unfold ledger; cbn in *; congruence|by injection H'].
  eapply raft_inv_core; [exact H'|]. destruct Hr; split; done.
Qed.

Lemma wp_Step_higher_term m r :
  raft_inv r -> r_Term r < m_Term m < MaxUint64 ->
  wp (Step_higher_term E m) (fun v r' => raft_inv r' /\ evolves r r' /\ (v = GoOn -> same_term m r')) r.
Proof.
  intros Hr Ht. pose proof (inv_Term r Hr). unfold Step_higher_term. apply wp_bind.
  apply (wp_mono _ (fun _ r' => raft_inv r' /\ evolves r r' /\ r_Term r' = r_Term r)).
  { destruct (_ || _); [|apply wp_mret; auto using evolves_refl].
    apply wp_bind, wp_gets. apply wp_bind. eapply wp_mono; [apply frames_supporting|]. intros sup r1 Hc.
    assert (Hr1 : raft_inv r1) by by apply (raft_inv_core r).
    assert (E1 : evolves r r1) by by apply evolves_core.
    assert (HT : r_Term r1 = r_Term r) by by injection Hc.
    apply wp_bind, wp_gets. destruct (_ && _).
    - apply wp_bind, wp_reads. intros last _. by apply wp_mret.
    - apply wp_bind. eapply wp_mono; [by apply wp_deFortify|]. intros ? r2 (Hr2&E2&T2). apply wp_mret.
      split_and!; [done|by eapply evolves_trans|congruence]. }
  intros ignore r1 (Hr1&E1&T1). destruct ignore; [by apply wp_mret|].
  assert (Hfollow : forall lead r2, raft_inv r2 -> evolves r r2 -> r_Term r2 = r_Term r ->
    wp (becomeFollower E (m_Term m) lead) (fun _ r' => raft_inv r' /\ evolves r r' /\ same_term m r') r2).
  { intros lead r2 Hr2 E2 T2. eapply wp_mono; [apply wp_becomeFollower; [done|lia|lia|lia]|].
    intros ? r3 (Hr3&E3&T3&_). split_and!; [done|by eapply evolves_trans|split; [lia|done]]. }
  apply wp_bind, (wp_mono _ (fun _ r' => raft_inv r' /\ evolves r r' /\ same_term m r')).
  2: { intros ? r2 (?&?&?). by apply wp_mret. }
  destruct (bool_decide_reflect (m_Type m = MsgPreVote)); [apply wp_mret; split_and!; [done|done|split; [lia|done]]|].
  destruct (bool_decide_reflect (m_Type m = MsgPreVoteResp)); cbn; [destruct (negb _)|];
    [apply wp_mret; split_and!; [done|done|split; [lia|done]]|..].
  all: destruct (IsMsgFromLeader _); [|by apply Hfollow].
  all: apply wp_bind; eapply wp_mono; [by apply wp_deFortify|]; intros ? r2 (Hr2&E2&T2);
    apply Hfollow; [done|by eapply evolves_trans|congruence].
Qed.

Lemma keeps_Step_lower_term m : keeps (Step_lower_term m).
Proof. unfold Step_lower_term. keeps_auto. Qed.

Lemma wp_Step_term m r :
  raft_inv r -> r_Term r < MaxUint64 -> msg_ok m ->
  wp (Step_term E m) (fun v r' => raft_inv r' /\ evolves r r' /\ (v = GoOn -> same_term m r')) r.
Proof.
  intros Hr Hmax (Hm&_). unfold Step_term. apply wp_bind, wp_gets.
  destruct (Z.eqb_spec (m_Term m) 0).
  { apply wp_mret. split_and!; [done|apply evolves_refl|by split]. }
  rewrite Z.gtb_ltb. destruct (Z.ltb_spec (r_Term r) (m_Term m)); [apply wp_Step_higher_term; [done|lia]|].
  destruct (Z.ltb_spec (m_Term m) (r_Term r)).
  - apply wp_bind. eapply wp_mono; [by apply keeps_Step_lower_term|]. intros ? r' []. by apply wp_mret.
  - apply wp_mret. split_and!; [done|apply evolves_refl|split; [done|lia]].
Qed.

(** Granting a vote: the vote is recorded after the response is queued. *)
Lemma evolves_grant m r :
  raft_inv r -> m_Term m = r_Term r -> m_Term m <> 0 -> m_From m <> None_ID ->
  r_Vote r = m_From m \/ r_Vote r = None_ID /\ r_lead r = None_ID ->
  let r' := r <| r_msgsAfterAppend := r_msgsAfterAppend r ++
                   [stamped r (Msg MsgVoteResp <| m_To := m_From m |> <| m_Term := m_Term m |>)] |>
              <| r_electionElapsed := 0 |> <| r_Vote := m_From m |> in
  raft_inv r' /\ evolves r r'.
Proof.
  intros Hr Ht Hnz Hf Hcan r'. split.
  - destruct Hr as [Hid HT Hrole Hv Hl He]. split; try done. cbn. intros Hst.
    specialize (Hv Hst). destruct Hcan as [<-|[Hn _]]; [done|congruence].
  - split; [done|cbn; lia|cbn; lia|cbn; lia| |].
    + exists []. by rewrite app_nil_r.
    + eexists. split; [reflexivity|]. split.
      * apply Forall_singleton. unfold held_ok. cbn. rewrite Ht. split_and!; [done|apply Hr|lia|].
        intros _. split_and!; [done|congruence|done|lia|lia].
      * intros m1 m2 ->%list_elem_of_singleton ->%list_elem_of_singleton. done.
Qed.

Lemma keeps_Step_vote m r :
  raft_inv r -> m_Type m = MsgVote \/ m_Type m = MsgPreVote -> same_term m r ->
  (m_Type m = MsgVote -> m_From m <> None_ID) ->
  wp (Step_vote m) (fun _ r' => raft_inv r' /\ evolves r r') r.
Proof.
  intros Hr Hty [Hmax Hterm] Hf. unfold Step_vote. apply wp_bind, wp_gets. apply wp_bind, wp_reads. intros last _.
  apply wp_bind, (wp_mono _ (fun grant r' => r' = r /\ (grant = true ->
    m_Type m = MsgVote -> r_Vote r = m_From m \/ r_Vote r = None_ID /\ r_lead r = None_ID))).
  { destruct (_ || _) eqn:Ecan; [|by apply wp_mret]. apply wp_reads. intros grant _. split; [done|].
    intros _ Hv. rewrite Hv, (bool_decide_eq_false_2 (MsgVote = MsgPreVote)), orb_false_r in Ecan by done.
    apply orb_true_iff in Ecan as [Ecan|[? ?]%andb_true_iff]; lia. }
  intros grant ? [-> Hcan]. apply wp_bind, wp_reads. intros resp Hresp. destruct grant.
  - destruct Hty as [Hty|Hty]; rewrite Hty in Hresp |- *; injection Hresp as <-; cbn.
    + apply wp_bind. intros x r1 Hs. apply send_result in Hs as [Hne ->]. apply wp_modify.
      rewrite Hty in Hterm. apply evolves_grant; auto.
    + rewrite bool_decide_eq_false_2 by done. to_keeps. keeps_auto.
  - apply wp_bind, wp_gets. eapply wp_mono; [apply evolves_send; [done|]|by intros ?? (?&?&_)].
    split_and!; cbn; [|done|by intros []].
    destruct Hty as [Hty|Hty]; rewrite Hty in Hresp; by injection Hresp as <-.
Qed.

(** *** The recursion through [appliedTo] *)

Definition keeps_below {A} (m : M A) : Prop :=
  forall r, raft_inv r -> r_Term r < MaxUint64 -> wp m (fun _ r' => raft_inv r' /\ evolves r r') r.

Lemma keeps_appliedTo_with rec index size :
  keeps_below (rec confChangeToMsg_nil) -> keeps_below (appliedTo_with rec index size).
Proof.
  intros Hrec r Hr Hmax. unfold appliedTo_with. apply wp_bind, wp_gets.
  apply (keeps_bind_pre _ _ (fun _ r' => r_Term r' < MaxUint64)).
  - apply wp_log_upd. intros l Hl. split_and!; [by apply raft_inv_log| |done].
    apply evolves_log. by eapply appliedTo_monotone.
  - intros ? r1 Hr1 Hmax1. apply wp_bind, wp_gets. destruct (_ && _); [|to_keeps; keeps_auto].
    apply (keeps_bind_pre _ _ (fun _ _ => True)); [|intros ? r2 Hr2 _; to_keeps; keeps_auto].
    eapply wp_mono; [by apply Hrec|by intros ?? []].
Qed.

Lemma keeps_appliedSnap_with rec snap :
  keeps_below (rec confChangeToMsg_nil) -> keeps_below (appliedSnap_with rec snap).
Proof.
  intros Hrec r Hr Hmax. unfold appliedSnap_with.
  apply (keeps_bind_pre _ _ (fun _ r' => r_Term r' < MaxUint64)).
  - apply wp_log_upd. intros l [= <-]. split_and!; [by apply raft_inv_log| |done]. apply evolves_log. cbn. lia.
  - intros ? r1 Hr1 Hmax1. by apply keeps_appliedTo_with.
Qed.

Lemma keeps_step m r :
  raft_inv r -> same_term m r -> msg_ok m -> m_Type m <> MsgPreVote ->
  wp (step E m) (fun _ r' => raft_inv r' /\ evolves r r') r.
Proof.
  intros Hr [Hmax Ht] (_&Hl&_) Hne. unfold step. apply wp_bind, wp_gets.
  destruct (r_step r) eqn:Hs; [| |by apply keeps_stepLeader].
  - apply keeps_stepFollower; auto. intros H. by apply Hl.
  - apply keeps_stepCandidate; auto. intros H. destruct (Hl H). split; [|done].
    apply Ht; auto. by intros Hx; rewrite Hx in H.
Qed.

Lemma wp_then {A B} (m : M A) (k : M B) r :
  wp m (fun _ r' => raft_inv r' /\ evolves r r') r -> keeps k ->
  wp (let* _ := m in k) (fun _ r' => raft_inv r' /\ evolves r r') r.
Proof.
  intros Hm Hk. apply (keeps_bind_pre _ _ (fun _ _ => True)); [|intros ? r1 Hr1 _; by to_keeps].
  eapply wp_mono; [exact Hm|by intros ?? []].
Qed.

Lemma keeps_Step_dispatch rec m r :
  keeps_below (rec confChangeToMsg_nil) -> raft_inv r -> same_term m r -> msg_ok m ->
  wp (Step_dispatch E rec m) (fun _ r' => raft_inv r' /\ evolves r r') r.
Proof.
  intros Hrec Hr Hs Hm. pose proof Hs as [Hmax _]. pose proof Hm as (_&_&Hv). unfold Step_dispatch.
  destruct (m_Type m) eqn:Ht; try (apply keeps_step; [done..|by rewrite Ht]).
  - apply wp_bind, wp_gets. apply wp_then; [by apply keeps_hup|keeps_auto].
  - apply wp_then; [|keeps_auto]. apply keeps_Step_vote; auto.
  - apply wp_then; [|keeps_auto]. apply keeps_Step_vote; auto. congruence.
  - apply wp_then; [|keeps_auto].
    destruct (m_Snapshot m); [by apply keeps_appliedSnap_with|to_keeps; keeps_auto].
  - destruct (_ >? _); [|to_keeps; keeps_auto]. apply wp_bind, wp_reads. intros e _.
    apply wp_then; [by apply keeps_appliedTo_with|keeps_auto].
Qed.

Lemma keeps_Step_with rec m :
  keeps_below (rec confChangeToMsg_nil) -> msg_ok m -> keeps_below (Step_with E rec m).
Proof.
  intros Hrec Hm r Hr Hmax. unfold Step_with. apply wp_bind. eapply wp_mono; [by apply wp_Step_term|].
  intros verdict r1 (Hr1&E1&HS). destruct verdict; [by apply wp_mret|].
  apply wp_after; [done|]. apply keeps_Step_dispatch; auto.
Qed.

Lemma keeps_Step m : msg_ok m -> keeps_below (Step E m).
Proof.
  intros Hm. apply keeps_Step_with; [|done]. apply keeps_Step_with; [intros ???; apply wp_rpanic|].
  split_and!; cbn; done.
Qed.

(** *** Ticks *)

Lemma local_msg_ok t self : leader_msg t = false -> t <> MsgVote -> msg_ok (Msg t <| m_From := self |>).
Proof. intros Hl Hv. split_and!; cbn; [lia|done|congruence|done]. Qed.

Lemma keeps_tickElection : keeps_below (tickElection E).
Proof.
  intros r Hr Hmax. unfold tickElection. apply wp_bind, wp_gets. apply wp_bind, wp_assertTrue. intros _.
  apply wp_bind, wp_gets.
  apply (keeps_bind_pre _ _ (fun _ r' => r_Term r' < MaxUint64)).
  { destruct (negb _); [|apply wp_mret; auto using evolves_refl]. apply wp_bind.
    eapply wp_mono; [apply frames_supporting|]. intros sup r1 Hc.
    assert (Hr1 : raft_inv r1) by by apply (raft_inv_core r).
    assert (HT : r_Term r1 = r_Term r) by by injection Hc.
    destruct sup; [apply wp_mret; split_and!; [done|by apply evolves_core|lia]|].
    do 2 apply wp_bind, wp_gets. apply wp_bind. eapply wp_mono; [by apply wp_deFortify|].
    intros ? r2 (Hr2&E2&T2). apply wp_bind, wp_modify, wp_mret.
    match goal with |- raft_inv ?x /\ _ => set (r3 := x) end.
    assert (H3 : core r3 = core r2) by (unfold r3; by destruct (_ =? _)).
    split_and!; [by apply (raft_inv_core r2)| |injection H3; lia].
    eapply evolves_trans; [by apply evolves_core|]. eapply evolves_trans; [done|by apply evolves_core]. }
  intros supported r1 Hr1 Hmax1. destruct supported; [to_keeps; keeps_auto|].
  unfold promotable. apply wp_bind, wp_modify. do 2 apply wp_bind, wp_gets. set (r2 := r1 <| r_electionElapsed := _ |>).
  assert (Hr2 : raft_inv r2) by by apply (raft_inv_core r1). apply wp_after; [by apply (evolves_core r1)|].
  destruct (_ && _); [|to_keeps; keeps_auto]. apply wp_bind, wp_modify. apply wp_bind, wp_gets.
  set (r3 := r2 <| r_electionElapsed := 0 |>).
  assert (Hr3 : raft_inv r3) by by apply (raft_inv_core r2). apply wp_after; [by apply (evolves_core r2)|].
  apply wp_then; [|keeps_auto]. apply keeps_Step; [by apply local_msg_ok|done|done].
Qed.

(** Local messages that [Step] passes on to the step function. *)
Definition stepped (t : MessageType) : bool :=
  match t with
  | MsgHup | MsgStorageAppendResp | MsgStorageApplyResp | MsgVote | MsgPreVote => false
  | _ => true
  end.

Lemma Step_with_local rec m r : m_Term m = 0 -> stepped (m_Type m) = true -> Step_with E rec m r = step E m r.
Proof.
  intros Ht Hs. unfold Step_with, Step_term, Step_dispatch, rbind, gets. cbn. rewrite Ht. cbn.
  by destruct (m_Type m).
Qed.

Lemma wp_ext {A} (m m' : M A) (Q : A -> raft -> Prop) r : m r = m' r -> wp m' Q r -> wp m Q r.
Proof. intros Heq H x r' Hm. apply H. by rewrite <- Heq. Qed.

Lemma keeps_Step_leader_tick t self :
  t = MsgBeat \/ t = MsgCheckQuorum -> keeps (Step E (Msg t <| m_From := self |>)).
Proof.
  intros Ht r Hr. eapply wp_ext; [apply Step_with_local; destruct Ht as [->| ->]; done|].
  unfold step. apply wp_bind, wp_gets. destruct (r_step r); [| |by apply keeps_stepLeader]; to_keeps.
  - unfold stepFollower. destruct Ht as [->| ->]; cbn; keeps_auto.
  - unfold stepCandidate. apply keeps_bind; [auto with keeps|]. intros state.
    destruct Ht as [->| ->]; cbn; rewrite bool_decide_eq_false_2; auto with keeps; by destruct (bool_decide _).
Qed.

Lemma keeps_tickHeartbeat : keeps (tickHeartbeat E).
Proof. unfold tickHeartbeat. keeps_auto; apply keeps_Step_leader_tick; auto. Qed.

Lemma keeps_tick : keeps_below (tick E).
Proof.
  intros r Hr Hmax. unfold tick. apply wp_bind, wp_gets.
  destruct (r_tick r); [by apply keeps_tickElection|by apply keeps_tickHeartbeat].
Qed.

Lemma keeps_testingStepDown : keeps (testingStepDown E).
Proof.
  intros r Hr. unfold testingStepDown. do 2 apply wp_bind, wp_gets.
  destruct (Z.eqb_spec (r_lead r) (r_id r)); cbn; [|to_keeps; keeps_auto].
  apply wp_bind, wp_gets. apply wp_then; [|keeps_auto].
  eapply wp_mono; [apply wp_becomeFollower; [done|apply Hr|lia|intros _ _; apply Hr]|].
  intros ?? (?&?&_). done.
Qed.

(** ** Executions *)

(** The steps of a peer: a message, a tick, a configuration change to apply. *)
Inductive raft_step (r : raft) : raft -> Prop :=
| step_Step m err r' : r_Term r < MaxUint64 -> msg_ok m -> Step E m r = Ret (err, r') -> raft_step r r'
| step_tick r' : r_Term r < MaxUint64 -> tick E r = Ret (tt, r') -> raft_step r r'
| step_applyConfChange cc cs r' : applyConfChange E cc r = Ret (cs, r') -> raft_step r r'
| step_stepDown err r' : testingStepDown E r = Ret (err, r') -> raft_step r r'.

Lemma raft_step_good r r' : raft_inv r -> raft_step r r' -> raft_inv r' /\ evolves r r'.
Proof.
  intros Hr [m err r2 Hmax Hm Hs|r2 Hmax Hs|cc cs r2 Hs|err r2 Hs].
  - by apply (keeps_Step m Hm r Hr Hmax) in Hs.
  - by apply (keeps_tick r Hr Hmax) in Hs.
  - by apply (keeps_applyConfChange cc r Hr) in Hs.
  - by apply (keeps_testingStepDown r Hr) in Hs.
Qed.

Lemma raft_steps_good r r' : raft_inv r -> rtc raft_step r r' -> raft_inv r' /\ evolves r r'.
Proof.
  intros Hr Hsteps. induction Hsteps as [r|r1 r2 r3 H12 _ IH]; [auto using evolves_refl|].
  destruct (raft_step_good r1 r2) as [Hr2 E12]; [done..|]. destruct IH as [Hr3 E23]; [done|].
  split; [done|]. by eapply evolves_trans.
Qed.

(** C11. The persistent state of a peer only moves forward: however many messages,
    ticks and configuration changes it handles, its term and its commit index
    do not decrease, and a vote cast in a term is never changed within it. *)
Theorem hardState_monotone r r' :
  raft_inv r -> rtc raft_step r r' ->
  hs_Term (raft_hardState r) <= hs_Term (raft_hardState r') /\
  hs_Commit (raft_hardState r) <= hs_Commit (raft_hardState r') /\
  (hs_Term (raft_hardState r') = hs_Term (raft_hardState r) -> hs_Vote (raft_hardState r) <> None_ID ->
    hs_Vote (raft_hardState r') = hs_Vote (raft_hardState r)).
Proof. intros Hr Hs. destruct (raft_steps_good r r' Hr Hs) as [_ []]. done. Qed.

(** C10. A peer grants at most one vote per term: of all the vote responses it
    queues during an execution, those that grant a vote in the same term grant it
    to the same candidate, and in the current term that candidate is the vote of
    the persistent state, and so is the one voted for before. *)
Theorem raft_votes_once r r' :
  raft_inv r -> rtc raft_step r r' ->
  exists held, r_msgsAfterAppend r' = r_msgsAfterAppend r ++ held /\
    (forall m1 m2, m1 ∈ held -> m2 ∈ held -> vote_granted m1 -> vote_granted m2 ->
      m_Term m1 = m_Term m2 -> m_To m1 = m_To m2) /\
    (forall m, m ∈ held -> vote_granted m -> m_Term m = r_Term r' -> r_Vote r' = m_To m) /\
    (forall m, m ∈ held -> vote_granted m -> m_Term m = r_Term r -> r_Vote r <> None_ID -> m_To m = r_Vote r).
Proof.
  intros Hr Hs. destruct (raft_steps_good r r' Hr Hs) as [_ [_ _ _ _ _ (held&Hh&Hok&Hone)]].
  exists held. rewrite Forall_forall in Hok. split_and!; [done|exact Hone|..].
  - intros m Hm Hg. by apply (Hok m Hm).
  - intros m Hm Hg. by apply (Hok m Hm).
Qed.


(** The role of a peer is consistent throughout: its tick and step functions
    are those of its role, candidates and leaders have voted for themselves, a
    leader knows itself as the leader, a candidate knows none, and support is
    only given to a known leader, so that the assertion of
    [supportingFortifiedLeader] on the leader never fails. *)
Theorem raft_inv_reachable r r' : raft_inv r -> rtc raft_step r r' -> raft_inv r'.
Proof. intros Hr Hs. by apply (raft_steps_good r r'). Qed.

Lemma rbind_ext {A B} (m m' : M A) (k k' : A -> M B) r :
  m r = m' r -> (forall x r', k x r' = k' x r') -> rbind m k r = rbind m' k' r.
Proof. intros Hm Hk. unfold rbind. rewrite Hm. destruct (m' r) as [[x r']|]; cbn; [apply Hk|done]. Qed.

Lemma appliedTo_with_ext rec rec' index size r :
  (forall r, rec confChangeToMsg_nil r = rec' confChangeToMsg_nil r) ->
  appliedTo_with rec index size r = appliedTo_with rec' index size r.
Proof.
  intros H. unfold appliedTo_with. do 3 (apply rbind_ext; [done|intros ??]).
  case_match; [|done]. by apply rbind_ext.
Qed.

Lemma Step_with_ext rec rec' m r :
  (forall r, rec confChangeToMsg_nil r = rec' confChangeToMsg_nil r) ->
  Step_with E rec m r = Step_with E rec' m r.
Proof.
  intros H. unfold Step_with. apply rbind_ext; [done|]. intros [] r1; [done|].
  unfold Step_dispatch. destruct (m_Type m); try done.
  - apply rbind_ext; [|done]. destruct (m_Snapshot m); [|done]. unfold appliedSnap_with.
    apply rbind_ext; [done|]. intros ??. by apply appliedTo_with_ext.
  - destruct (_ >? _); [|done]. apply rbind_ext; [done|]. intros e r2.
    apply rbind_ext; [by apply appliedTo_with_ext|done].
Qed.

(** [Step] is the fixed point of its defining equation: the recursion through
    [appliedTo], which proposes leaving a joint configuration, has depth one. *)
Theorem Step_unfold m r : Step E m r = Step_with E (Step E) m r.
Proof. apply Step_with_ext. intros r'. unfold Step. by rewrite !Step_with_local. Qed.

End keeps.

(** ** Witnesses *)

Lemma example_raft_inv : raft_inv example_raft.
Proof. split; vm_compute; try done; try split; try reflexivity; try lia; intros []; done. Qed.

Definition example_voted : raft := final (Step example_Env example_MsgVote) example_raft.

Lemma example_steps : rtc (raft_step example_Env) example_raft example_voted.
Proof.
  destruct (final_returns (Step example_Env example_MsgVote) example_raft) as [err Hs]; [by vm_compute|].
  apply rtc_once. eapply step_Step; [by vm_compute| |exact Hs]. split_and!; vm_compute; done.
Qed.

Lemma hardState_monotone_witness :
  r_Term example_raft = 4 /\ r_Term example_voted = 5 /\
  hs_Term (raft_hardState example_raft) <= hs_Term (raft_hardState example_voted).
Proof.
  split_and!; [by vm_compute|by vm_compute|].
  apply (hardState_monotone example_Env example_raft example_voted example_raft_inv example_steps).
Defined.

Lemma raft_votes_once_witness :
  exists m, m ∈ r_msgsAfterAppend example_voted /\ m_Type m = MsgVoteResp /\ m_To m = 2 /\
    exists held, r_msgsAfterAppend example_voted = r_msgsAfterAppend example_raft ++ held /\
      (forall m, m ∈ held -> vote_granted m -> m_Term m = r_Term example_voted -> r_Vote example_voted = m_To m).
Proof.
  exists (stamped example_raft (Msg MsgVoteResp <| m_To := 2 |> <| m_Term := 5 |>)).
  split_and!; [vm_compute; left|done|done|].
  destruct (raft_votes_once example_Env example_raft example_voted example_raft_inv example_steps)
    as (held&H1&_&H2&_). exists held. exact (conj H1 H2).
Defined.


Lemma raft_inv_reachable_witness : raft_inv example_voted.
Proof. exact (raft_inv_reachable example_Env example_raft example_voted example_raft_inv example_steps). Defined.
