(* ===== verification/RaftCommit.v ===== *)
(** * Committing, voting, replicating and restarting (src/pkg/raft/raft.go)

    Functional specifications of the decisions of a peer that the safety of raft
    rests on: which index a leader commits ([maybeCommit]), which vote requests are
    ignored and which votes granted ([Step] on MsgVote and MsgPreVote), that the
    replication loop of a leader terminates ([sendAppend_all]), and what a
    restarted peer remembers ([newRaft]). The log is seen as the run of entries it
    stands for ([raftLog_abs]). *)

From S2P Require Import Prelude Hlc Quorum Tracker RaftPb ConfChange LogTypes Unstable Storage RaftLog LogApply Raft RaftInv.

(** ** Committing *)

(** The indexes a leader may commit by counting replicas: entries of its own term
    acknowledged by a quorum. *)
Definition committable (r : raft) (prev : entryID) (ents : list Entry) (i : Z) : Prop :=
  l_committed (r_raftLog r) < i /\ log_term prev ents i = Some (r_Term r) /\
  quorum_of (fst (Voters (r_config r))) (acks (matchAckIndexer_AckedIndex (r_trk r)) i) /\
  quorum_of (snd (Voters (r_config r))) (acks (matchAckIndexer_AckedIndex (r_trk r)) i).

(** No peer acknowledged more than the leader has. *)
Definition acks_bounded (r : raft) : Prop :=
  forall id pr, r_trk r !! id = Some pr -> Match pr <= raftLog_lastIndex (r_raftLog r).

Lemma committed_bounded r :
  ids (fst (Voters (r_config r))) <> ∅ -> acks_bounded r -> 0 <= raftLog_lastIndex (r_raftLog r) ->
  ProgressTracker_Committed (r_config r) (r_trk r) <= raftLog_lastIndex (r_raftLog r).
Proof.
  intros Hne Hb Hlast. unfold ProgressTracker_Committed, JointConfig_CommittedIndex.
  set (i := MajorityConfig_CommittedIndex (fst _) _). enough (i <= raftLog_lastIndex (r_raftLog r)) by (case_match; lia).
  destruct (Z_le_gt_dec i (raftLog_lastIndex (r_raftLog r))) as [|Hgt]; [done|exfalso].
  assert (Hq : majority (fst (Voters (r_config r))) (acks (matchAckIndexer_AckedIndex (r_trk r)) i)).
  { apply MajorityConfig_committed_iff; [done|lia|]. unfold i. lia. }
  unfold majority in Hq. rewrite countp_none in Hq.
  - pose proof (Z.div_pos (map_len (fst (Voters (r_config r)))) 2). unfold map_len in *. lia.
  - intros id _. unfold acks, matchAckIndexer_AckedIndex. destruct (r_trk r !! id) as [pr|] eqn:Ep; [|tauto].
    specialize (Hb id pr Ep). lia.
Qed.

Section commit.

Context (Sz : Entry -> Z) (r : raft) (prev : entryID) (ents : list Entry).
Context (Habs : raftLog_abs Sz (r_raftLog r) prev ents) (Hcom : id_index prev <= l_committed (r_raftLog r)).
Context (Hvoters : ids (fst (Voters (r_config r))) <> ∅) (Hacks : acks_bounded r).

Lemma committable_iff i : i <= MaxUint64 ->
  committable r prev ents i <->
  l_committed (r_raftLog r) < i /\ log_term prev ents i = Some (r_Term r) /\
  i <= ProgressTracker_Committed (r_config r) (r_trk r).
Proof.
  intros Hi. unfold committable, ProgressTracker_Committed. destruct Habs as (sprev & sents & Hrep).
  pose proof (rep_bounds _ _ _ _ _ _ Hrep) as (Hb&_&_). split.
  - intros (H1&H2&Hq). split_and!; try done. apply JointConfig_committed_iff; [lia|done].
  - intros (H1&H2&Hq). apply JointConfig_committed_iff in Hq; [tauto|lia].
Qed.

(** C12. The commit rule (section 5.4.2 of the raft paper): a leader commits the
    largest index above its commit index that holds an entry of its own term and
    is acknowledged by a majority of each half of the configuration, and nothing
    when there is no such index. It never panics. *)
Theorem maybeCommit_spec :
  id_term (last_id prev ents) <= r_Term r ->
  match maybeCommit r with
  | Ret (true, r') => exists i, committable r prev ents i /\ (forall j, committable r prev ents j -> j <= i) /\
      r' = r <| r_raftLog := r_raftLog r <| l_committed := i |> |>
  | Ret (false, r') => r' = r /\ forall j, ~ committable r prev ents j
  | Panic _ => False
  end.
Proof.
  intros Hterm. destruct Habs as (sprev & sents & Hrep).
  pose proof (rep_bounds _ _ _ _ _ _ Hrep) as (Hb0&Hb1&Hb2).
  pose proof (rep_lastIndex _ _ _ _ _ _ Hrep) as Hlast. pose proof (rep_log _ _ _ _ _ _ Hrep) as Hlog.
  assert (Hci : forall j, committable r prev ents j -> j <= MaxUint64).
  { intros j (_&Hj&_). apply log_term_Some in Hj. unfold MaxUint64. lia. }
  pose proof (committed_bounded r Hvoters Hacks ltac:(lia)) as Hle.
  unfold maybeCommit, rbind, gets, reads, log_upd. cbn.
  set (i := ProgressTracker_Committed _ _) in *.
  destruct (Z.leb_spec i (l_committed (r_raftLog r))) as [Hi|Hi].
  { split; [done|]. intros j Hj. apply committable_iff in Hj; [|by apply Hci]. fold i in Hj. lia. }
  rewrite (rep_matchTerm _ _ _ _ _ _ Hrep) by (cbn; unfold MaxUint64; lia). cbn.
  destruct (bool_decide_reflect (log_term prev ents i = Some (r_Term r))) as [Ht|Ht]; cbn.
  - unfold raftLog_commitTo. cbn. rewrite (proj2 (Z.ltb_lt _ _)), (proj2 (Z.ltb_ge _ _)) by lia. cbn.
    exists i. split_and!; [|intros j Hj|done].
    + apply committable_iff; [unfold MaxUint64; lia|]. fold i. split_and!; [done|done|lia].
    + apply committable_iff in Hj; [|by apply Hci]. fold i in Hj. lia.
  - split; [done|]. intros j Hj. apply committable_iff in Hj as (H1&H2&H3); [|by apply Hci]. fold i in H3.
    destruct (log_term_is_Some prev ents i) as [t Hti]; [lia|]. apply Ht. rewrite Hti. f_equal.
    pose proof (log_term_mono _ _ _ _ _ _ Hlog H3 H2 Hti) as Hm1.
    pose proof (log_term_mono prev ents i (id_index prev + len ents) _ _ Hlog ltac:(lia) Hti (log_term_last _ _ Hlog)).
    lia.
Qed.

End commit.

(** ** Voting *)

#[local] Arguments supportingFortifiedLeader : simpl never.
#[local] Arguments deFortify : simpl never.
#[local] Arguments hup : simpl never.
#[local] Arguments Step_vote : simpl never.
#[local] Arguments becomeFollower : simpl never.
#[local] Arguments send : simpl never.

Section voting.

Context (E : Env).

(** Store liveness keeps its promise that the epochs it reports do not regress,
    and only a known leader is supported. *)
Definition support_ok (r : raft) : Prop :=
  r_leadEpoch r <> 0 ->
  r_lead r <> None_ID /\ r_leadEpoch r <= fst (env_SupportFor E (r_calls r) (r_lead r)).

(** The peer supports a fortified leader at the moment. *)
Definition supporting (r : raft) : bool :=
  negb (r_leadEpoch r =? 0) &&
  (let '(epoch, live) := env_SupportFor E (r_calls r) (r_lead r) in live && (epoch =? r_leadEpoch r)).

Lemma supporting_eq r : support_ok r ->
  exists n, supportingFortifiedLeader E r = Ret (supporting r, r <| r_calls := n |>).
Proof.
  intros Hok. unfold supportingFortifiedLeader, supporting, SupportFor, rbind, gets, query. cbn.
  destruct (Z.eqb_spec (r_leadEpoch r) 0) as [|Hne]; cbn; [exists (r_calls r); by destruct r|].
  destruct (Hok Hne) as [Hlead Hep]. rewrite (proj2 (Z.eqb_neq _ _) Hlead). cbn.
  destruct (env_SupportFor E (r_calls r) (r_lead r)) as [epoch live]. cbn in *.
  rewrite Z.geb_leb, (proj2 (Z.leb_le _ _) Hep). by eexists.
Qed.

(** In the lease of a leader: it was heard of recently, or the peer supports it
    and the candidate is not the leader itself. *)
Definition in_lease (r : raft) (from : PeerID) : Prop :=
  (r_checkQuorum r = true /\ r_lead r <> None_ID /\ r_electionElapsed r < r_electionTimeout r) \/
  (supporting r = true /\ r_lead r <> from).

(** Inside a lease a peer does not help to depose its leader: a vote or
    pre-vote request at a higher term that is not part of a leadership transfer is
    ignored. Nothing is sent and nothing changes, apart from the count of queries
    to store liveness. *)
Theorem Step_vote_lease m r Sz prev ents :
  m_Type m = MsgVote \/ m_Type m = MsgPreVote -> 0 <= r_Term r < m_Term m ->
  m_Context m <> campaignTransfer_bytes -> raftLog_abs Sz (r_raftLog r) prev ents ->
  support_ok r -> in_lease r (m_From m) ->
  exists n, Step E m r = Ret (None, r <| r_calls := n |>).
Proof.
  intros Hty Ht Hctx (sprev & sents & Hrep) Hok Hlease.
  unfold Step, Step_with at 1, Step_term, Step_higher_term, rbind, gets, reads. cbn.
  rewrite (proj2 (Z.eqb_neq (m_Term m) 0)) by lia. rewrite Z.gtb_ltb, (proj2 (Z.ltb_lt _ _)) by lia.
  assert (Hv : bool_decide (m_Type m = MsgVote) || bool_decide (m_Type m = MsgPreVote) = true).
  { apply orb_true_iff. by rewrite !bool_decide_eq_true. }
  rewrite Hv. cbn. destruct (supporting_eq r Hok) as [n ->]. cbn.
  rewrite bool_decide_eq_false_2 by done. cbn.
  set (hb := r_checkQuorum r && _ && _). set (fl := supporting r && _).
  assert (Hl : hb || fl = true).
  { apply orb_true_iff. unfold hb, fl. rewrite !andb_true_iff, !negb_true_iff, !Z.eqb_neq, Z.ltb_lt.
    destruct Hlease as [(?&?&?)|(?&?)]; tauto. }
  rewrite Hl. cbn. rewrite (rep_lastEntryID _ _ _ _ _ _ Hrep). cbn. by exists n.
Qed.

(** While it supports a fortified leader other than itself, a peer that is not
    the leader does not campaign: neither a tick nor MsgHup changes anything but
    the election timer and the count of queries to store liveness. *)
Theorem fortified_no_campaign r :
  r_state r <> StateLeader -> r_tick r = tickElection_f -> support_ok r -> supporting r = true -> r_lead r <> r_id r ->
  (exists n, tick E r = Ret (tt, r <| r_electionElapsed := 0 |> <| r_calls := n |>)) /\
  (exists n, Step E (Msg MsgHup <| m_From := r_id r |>) r = Ret (None, r <| r_calls := n |>)).
Proof.
  intros Hst Htick Hok Hsup Hlead. destruct (supporting_eq r Hok) as [n Hs]. rewrite Hsup in Hs.
  assert (Hep : (r_leadEpoch r =? 0) = false).
  { apply Z.eqb_neq. intros He. unfold supporting in Hsup. by rewrite He in Hsup. }
  split.
  - exists n. unfold tick, tickElection, rbind, gets. cbn. rewrite Htick, bool_decide_eq_false_2 by done. cbn.
    rewrite Hep. cbn. rewrite Hs. by cbn.
  - unfold Step, Step_with at 1, Step_term, Step_dispatch, rbind, gets. cbn. unfold hup, rbind, gets. cbn.
    rewrite bool_decide_eq_false_2 by done. unfold promotable, gets. cbn.
    destruct (negb _); [exists (r_calls r); by destruct r|]. rewrite Hs. cbn.
    rewrite (proj2 (Z.eqb_neq _ _) Hlead). by exists n.
Qed.

(** The decision on a vote request at the current term. *)
Definition grants (r : raft) (last : entryID) (m : Message) : bool :=
  ((r_Vote r =? m_From m) || (r_Vote r =? None_ID) && (r_lead r =? None_ID)) &&
  ((id_term last <? m_LogTerm m) || (id_term last =? m_LogTerm m) && (id_index last <=? m_Index m)).

(** C13. A vote request at the current term is granted exactly when the peer has
    voted for this candidate already, or for nobody while it knows no leader, and
    the candidate's log is at least as up-to-date as its own: the last entry has a
    higher term, or the same term and no smaller index. The response is held until
    the vote is durable, and the vote is recorded; a refusal records nothing. *)
Theorem Step_MsgVote_spec m r Sz prev ents :
  m_Type m = MsgVote -> m_Term m = r_Term r -> 0 < r_Term r -> r_id r <> None_ID ->
  raftLog_abs Sz (r_raftLog r) prev ents ->
  let resp := Msg MsgVoteResp <| m_From := r_id r |> <| m_To := m_From m |> <| m_Term := r_Term r |> in
  Step E m r = Ret (None,
    if grants r (last_id prev ents) m then
      r <| r_msgsAfterAppend := r_msgsAfterAppend r ++ [resp] |>
        <| r_electionElapsed := 0 |> <| r_Vote := m_From m |>
    else r <| r_msgsAfterAppend := r_msgsAfterAppend r ++ [resp <| m_Reject := true |>] |>).
Proof.
  intros Hty Ht Hpos Hid (sprev & sents & Hrep) resp.
  unfold Step, Step_with at 1, Step_term, Step_dispatch, rbind, gets. cbn.
  rewrite (proj2 (Z.eqb_neq (m_Term m) 0)) by lia.
  rewrite Z.gtb_ltb, (proj2 (Z.ltb_ge (r_Term r) (m_Term m))), (proj2 (Z.ltb_ge (m_Term m) (r_Term r))) by lia.
  cbn. rewrite Hty. unfold Step_vote, rbind, gets, reads. cbn.
  rewrite (rep_lastEntryID _ _ _ _ _ _ Hrep). cbn. rewrite Hty. cbn.
  rewrite (bool_decide_eq_false_2 (MsgVote = MsgPreVote)), (bool_decide_eq_true_2 (MsgVote = MsgVote)), orb_false_r by done.
  assert (Hsend : forall rej, send (Msg MsgVoteResp <| m_To := m_From m |> <| m_Term := r_Term r |> <| m_Reject := rej |>) r =
    Ret (tt, r <| r_msgsAfterAppend := r_msgsAfterAppend r ++ [resp <| m_Reject := rej |>] |>)).
  { intros rej. unfold send, rbind, gets. cbn. by rewrite (proj2 (Z.eqb_neq (r_Term r) 0)) by lia. }
  specialize (Hsend true) as Hrej. specialize (Hsend false) as Hgrant. clear Hsend. rewrite Ht.
  unfold grants. destruct (_ || _); cbn; [|by rewrite Hrej].
  unfold raftLog_isUpToDate. rewrite (rep_lastEntryID _ _ _ _ _ _ Hrep). cbn.
  rewrite Z.gtb_ltb, Z.geb_leb, (Z.eqb_sym (m_LogTerm m)). destruct (_ || _); [|by rewrite Hrej].
  change (Msg MsgVoteResp <| m_To := m_From m |> <| m_Term := r_Term r |>)
    with (Msg MsgVoteResp <| m_To := m_From m |> <| m_Term := r_Term r |> <| m_Reject := false |>).
  by rewrite Hgrant.
Qed.

End voting.

(** ** Replicating *)

(** The executions of [for r.maybeSendAppend(to) {}], which end when it returns
    false or panics. *)
Inductive sends (E : Env) (to : PeerID) (r : raft) : outcome raft -> Prop :=
| sends_stop r' : maybeSendAppend E to r = Ret (false, r') -> sends E to r (Ret r')
| sends_more r' o : maybeSendAppend E to r = Ret (true, r') -> sends E to r' o -> sends E to r o
| sends_panic msg : maybeSendAppend E to r = Panic msg -> sends E to r (Panic msg).

Section sending.

Context (E : Env) (to : PeerID) (l : raftLog) (mx : Z) (sprev : entryID) (sents : list Entry).
Context (prev : entryID) (ents : list Entry) (Hrep : raftLog_rep (Size E) l sprev sents prev ents).
Context (HSize : forall e, 0 < Size E e) (Hsum : sum_size (Size E) ents < u64_modulus) (Hmx : is_u64 mx).

Definition at_progress (r : raft) (pr : Progress) : Prop :=
  r_trk r !! to = Some pr /\ r_raftLog r = l /\ r_maxMsgSize r = mx.

(** Nothing is left to send. *)
Definition drained (pr : Progress) : Prop :=
  match State pr with
  | StateProbe => MsgAppProbesPaused pr = true
  | StateReplicate => MsgAppProbesPaused pr = true /\ l_committed l <= SentCommit pr /\
      Progress_CanSendEntries pr (raftLog_lastIndex l) = false
  | StateSnapshot => True
  end.

#[local] Instance drained_dec pr : Decision (drained pr).
Proof. unfold drained. destruct (State pr); apply _. Defined.

Definition sends_left (pr : Progress) : nat :=
  if decide (drained pr) then 0 else S (Z.to_nat (raftLog_lastIndex l + 1 - Next pr)).

Lemma drained_no_send pr advance : drained pr ->
  Progress_ShouldSendMsgApp pr (raftLog_lastIndex l) (l_committed l) advance = false.
Proof.
  unfold drained, Progress_ShouldSendMsgApp. destruct (State pr); [by intros ->| |done].
  intros (Hp&Hs&->). rewrite Hp, andb_false_r. unfold Progress_CanBumpCommit.
  rewrite Z.gtb_ltb, (proj2 (Z.ltb_ge _ _)) by lia. cbn. destruct advance; [|done]. by rewrite andb_false_r.
Qed.

Lemma wp_pr_get {A} (f : Progress -> A) (Q : A -> raft -> Prop) r pr :
  r_trk r !! to = Some pr -> Q (f pr) r -> wp (pr_get to f) Q r.
Proof.
  intros Hpr HQ. apply wp_pr_op. intros pr0 pr' x H0 [= <- <-].
  assert (pr0 = pr) as -> by congruence. rewrite insert_id by done. by destruct r.
Qed.

Lemma at_progress_send m r pr : at_progress r pr -> wp (send m) (fun _ r' => at_progress r' pr) r.
Proof.
  intros (?&?&?) x r' Hs. apply send_result in Hs as [_ Hs].
  case_match; [subst r'; by split_and!|]. destruct Hs as [_ ->]. by split_and!.
Qed.

Lemma at_progress_set f r pr : at_progress r pr -> wp (pr_set to f) (fun _ r' => at_progress r' (f pr)) r.
Proof.
  intros (H1&H2&H3). apply wp_pr_op. intros pr0 pr' x H0 [= <- <-].
  assert (pr0 = pr) as -> by congruence. split_and!; try done. cbn. by rewrite lookup_insert_eq.
Qed.

Lemma wp_maybeSendSnapshot r pr : at_progress r pr ->
  wp (maybeSendSnapshot to) (fun b r' => b = true -> exists pr', at_progress r' pr' /\ State pr' = StateSnapshot) r.
Proof.
  intros Hr. unfold maybeSendSnapshot. apply wp_bind, (wp_pr_get _ _ r pr); [apply Hr|].
  destruct (negb _); [by apply wp_mret|]. apply wp_bind, wp_reads. intros [err|snap] _.
  { by destruct err; try apply wp_mret. }
  destruct (IsEmptySnap snap); [done|]. apply wp_bind, wp_reads. intros fi _.
  apply wp_bind. eapply wp_mono; [by apply at_progress_set|]. intros ? r1 H1.
  apply wp_bind. eapply wp_mono; [exact (at_progress_send _ _ _ H1)|]. intros ? r2 H2. apply wp_mret.
  intros _. eexists. split; [exact H2|done].
Qed.

(** What can be sent from an index whose predecessor is known. *)
Lemma entries_to_send next t : 0 < next <= raftLog_lastIndex l -> raftLog_term l (next - 1) = Ret (inr t) ->
  exists es, raftLog_entries (Size E) l next mx = Ret (inr es) /\ 0 < len es <= raftLog_lastIndex l + 1 - next.
Proof.
  intros Hn Ht. pose proof (rep_bounds _ _ _ _ _ _ Hrep) as (Hb0&Hb1&Hb2).
  pose proof (rep_lastIndex _ _ _ _ _ _ Hrep) as Hlast.
  rewrite (rep_term _ _ _ _ _ _ Hrep) in Ht by (unfold MaxUint64; lia). unfold term_result in Ht.
  destruct (Z.ltb_spec (next - 1) (id_index prev)); [done|].
  unfold raftLog_entries. rewrite Z.gtb_ltb, (proj2 (Z.ltb_ge _ _)) by lia.
  rewrite u64_small by (unfold is_u64, u64_modulus; lia).
  rewrite (rep_slice _ HSize _ _ _ _ _ Hrep) by (done || lia).
  eexists. split; [reflexivity|].
  pose proof (log_range_length prev ents next (raftLog_lastIndex l + 1) ltac:(lia) ltac:(lia)) as Hlen.
  destruct (limitSize_spec (Size E) HSize (log_range prev ents next (raftLog_lastIndex l + 1)) mx) as (k&(Hk&_&_)&->).
  - intros Hnil. rewrite Hnil in Hlen. cbn in Hlen. lia.
  - pose proof (sum_size_range (Size E) HSize prev ents next (raftLog_lastIndex l + 1)). lia.
  - unfold len. rewrite length_take. lia.
Qed.

(** A message that carries [n] entries is accounted for in the progress. *)
Lemma sent_progress pr pr' n bytes :
  Progress_SentEntries pr n bytes = Ret pr' -> 0 < Next pr <= MaxUint64 -> State pr <> StateSnapshot ->
  0 <= n -> (0 < n -> Next pr + n <= MaxUint64) ->
  (n = 0 -> Progress_CanSendEntries pr (raftLog_lastIndex l) = false \/ State pr = StateProbe) ->
  let pr'' := Progress_MaybeUpdateSentCommit pr' (l_committed l) in
  drained pr'' \/ 0 < n /\ Next pr'' = Next pr + n.
Proof.
  intros Hsent Hnext Hst Hn0 Hwrap Hn. unfold Progress_SentEntries in Hsent.
  assert (Hup : forall p, State (Progress_MaybeUpdateSentCommit p (l_committed l)) = State p /\
    Next (Progress_MaybeUpdateSentCommit p (l_committed l)) = Next p /\
    MsgAppProbesPaused (Progress_MaybeUpdateSentCommit p (l_committed l)) = MsgAppProbesPaused p /\
    PInflights (Progress_MaybeUpdateSentCommit p (l_committed l)) = PInflights p /\
    l_committed l <= SentCommit (Progress_MaybeUpdateSentCommit p (l_committed l))).
  { intros p. unfold Progress_MaybeUpdateSentCommit. rewrite Z.gtb_ltb.
    destruct (Z.ltb_spec (SentCommit p) (l_committed l)); split_and!; try done; cbn; lia. }
  destruct (Hup pr') as (H1&H2&H3&H4&H5). intros pr''. fold pr'' in H1, H2, H3, H4, H5.
  unfold drained. rewrite H1, H3.
  destruct (bool_decide_reflect (State pr = StateReplicate)) as [Hr|Hr]; cbn in Hsent.
  - rewrite Z.gtb_ltb in Hsent. destruct (Z.ltb_spec 0 n); cbn in Hsent.
    + right. split; [done|]. destruct (Inflights_Add _ _ _) as [inf|]; [|done]. injection Hsent as <-.
      rewrite H2. cbn. apply u64_small. unfold is_u64, u64_modulus, MaxUint64 in *. lia.
    + left. injection Hsent as <-. cbn. rewrite Hr. split_and!; [done|done|].
      destruct (Hn ltac:(lia)) as [Hc|Hc]; [|congruence].
      revert Hc. unfold Progress_CanSendEntries. rewrite H1, H2, H4. by cbn.
  - left. injection Hsent as <-. cbn. by destruct (State pr).
Qed.

Lemma sends_left_lt pr pr' : ~ drained pr ->
  drained pr' \/ Next pr < Next pr' /\ Next pr <= raftLog_lastIndex l -> (sends_left pr' < sends_left pr)%nat.
Proof.
  intros Hnd Hor. unfold sends_left. rewrite (decide_False (P := drained pr)) by done.
  destruct (decide (drained pr')); [lia|]. destruct Hor as [|[]]; [done|lia].
Qed.

(** The entries that go into a message: none only if none can be sent, and no more
    than there are. *)
Lemma wp_read_entries r pr t :
  r_raftLog r = l -> 0 < Next pr <= MaxUint64 -> raftLog_term l (Next pr - 1) = Ret (inr t) ->
  wp (if Progress_CanSendEntries pr (raftLog_lastIndex l) then
        reads (fun r => raftLog_entries (Size E) (r_raftLog r) (Next pr) mx)
      else mret (inr []))
    (fun es r' => r' = r /\ match es with
      | inl _ => True
      | inr es =>
        (len es = 0 -> Progress_CanSendEntries pr (raftLog_lastIndex l) = false) /\
        (0 < len es -> Next pr + len es <= raftLog_lastIndex l + 1)
      end) r.
Proof.
  intros Hl Hnext Hterm.
  destruct (Progress_CanSendEntries pr (raftLog_lastIndex l)) eqn:Ecan; [|apply wp_mret; cbn; done].
  apply wp_reads. intros es Hes. rewrite Hl in Hes. split; [done|].
  apply andb_true_iff in Ecan as [Hle%Z.leb_le _].
  destruct (entries_to_send (Next pr) t ltac:(lia) Hterm) as (es'&Hes'&Hlen).
  rewrite Hes in Hes'. injection Hes' as ->. split; lia.
Qed.

Lemma wp_maybeSendAppend r pr : at_progress r pr -> 0 < Next pr <= MaxUint64 \/ drained pr ->
  wp (maybeSendAppend E to) (fun b r' => b = true ->
    exists pr', at_progress r' pr' /\ (0 < Next pr' <= MaxUint64 \/ drained pr') /\
      (sends_left pr' < sends_left pr)%nat) r.
Proof.
  intros Hr Hnext. unfold maybeSendAppend, advanceCommitViaMsgAppOnly.
  assert (Hl : r_raftLog r = l) by apply Hr. do 2 apply wp_bind, wp_gets. rewrite Hl.
  apply wp_bind, wp_query. intros advance. set (r1 := r <| r_calls := _ |>).
  assert (Hr1 : at_progress r1 pr) by apply Hr. clearbody r1. clear r Hr Hl. rename r1 into r, Hr1 into Hr.
  destruct Hr as (Hpr&Hl&Hm). assert (Hr : at_progress r pr) by done.
  apply wp_bind, (wp_pr_get _ _ r pr Hpr).
  destruct (Progress_ShouldSendMsgApp pr _ _ advance) eqn:Eshould; cbn [negb]; [|by apply wp_mret].
  assert (Hnd : ~ drained pr) by (intros Hd; by rewrite drained_no_send in Eshould).
  destruct Hnext as [Hnext|]; [|done].
  assert (Hst : State pr <> StateSnapshot).
  { intros Hst. apply Hnd. unfold drained. by rewrite Hst. }
  assert (Hsnap : wp (maybeSendSnapshot to) (fun b r' => b = true ->
    exists pr', at_progress r' pr' /\ (0 < Next pr' <= MaxUint64 \/ drained pr') /\
      (sends_left pr' < sends_left pr)%nat) r).
  { eapply wp_mono; [exact (wp_maybeSendSnapshot r pr Hr)|]. intros b r' Hb ->.
    destruct Hb as (pr'&Hpr'&Hs); [done|]. assert (Hd : drained pr') by (unfold drained; by rewrite Hs).
    exists pr'. split_and!; [done|by right|]. apply sends_left_lt; auto. }
  apply wp_bind, (wp_pr_get _ _ r pr Hpr). apply wp_bind, wp_reads. intros [err|t] Hterm; [exact Hsnap|].
  rewrite u64_small, Hl in Hterm by (unfold is_u64, u64_modulus, MaxUint64 in *; lia).
  apply wp_bind, (wp_pr_get _ _ r pr Hpr). apply wp_bind, wp_gets. rewrite Hm.
  pose proof (rep_bounds _ _ _ _ _ _ Hrep) as (_&_&Hb). pose proof (rep_lastIndex _ _ _ _ _ _ Hrep) as Hlast.
  apply wp_bind. eapply wp_mono; [exact (wp_read_entries r pr t Hl Hnext Hterm)|].
  intros [err|es] ? [-> Hes]; [exact Hsnap|]. destruct Hes as [Hes0 Hes1].
  apply wp_bind, (wp_pr_get _ _ r pr Hpr). apply wp_bind.
  eapply wp_mono; [exact (at_progress_send _ _ _ Hr)|]. intros ? r2 H2.
  apply wp_bind, wp_pr_op. intros pr0 pr1 ? H0 Hsent.
  assert (pr0 = pr) as -> by (destruct H2; congruence).
  destruct (Progress_SentEntries pr _ _) as [pr1'|] eqn:Es; [|done]. injection Hsent as -> <-.
  apply wp_bind. eapply wp_mono; [apply (at_progress_set _ _ pr1); split_and!; [cbn; by rewrite lookup_insert_eq|apply H2..]|].
  intros ? r3 H3. apply wp_mret. intros _. eexists. split; [exact H3|].
  pose proof (len_nonneg es).
  destruct (sent_progress pr pr1 (len es) (payloadsSize es) Es Hnext Hst ltac:(lia)) as [Hd|[Hpos Hn]].
  - intros Hpos. specialize (Hes1 Hpos). unfold MaxUint64. lia.
  - auto.
  - split; [by right|]. apply sends_left_lt; auto.
  - specialize (Hes1 Hpos). split; [left; unfold MaxUint64; lia|]. apply sends_left_lt; [done|]. right. lia.
Qed.

Lemma send_loop_sends fuel r pr : at_progress r pr -> 0 < Next pr <= MaxUint64 \/ drained pr ->
  (sends_left pr < fuel)%nat ->
  sends E to r (match send_loop E fuel to r with Ret (_, r') => Ret r' | Panic msg => Panic msg end).
Proof.
  revert r pr. induction fuel as [|fuel IH]; intros r pr Hr Hnext Hfuel; [lia|].
  cbn [send_loop]. unfold rbind. destruct (maybeSendAppend E to r) as [[b r']|msg] eqn:Em; cbn.
  - destruct b; [|by apply sends_stop]. destruct (wp_maybeSendAppend r pr Hr Hnext _ _ Em) as (pr'&Hr'&Hn'&Hlt); [done|].
    eapply sends_more; [exact Em|]. apply (IH r' pr'); [done|done|lia].
  - by apply sends_panic.
Qed.

End sending.

(** C40. The replication loop of a leader terminates: [for r.maybeSendAppend(to) {}]
    either stops after finitely many messages or panics in one of the calls, and
    the bounded loop of the model computes exactly its result. Every message but
    the last carries at least one further entry of the log. *)
Theorem sendAppend_all_terminates E to r pr prev ents :
  r_trk r !! to = Some pr -> 0 < Next pr <= MaxUint64 ->
  raftLog_abs (Size E) (r_raftLog r) prev ents ->
  (forall e, 0 < Size E e) -> sum_size (Size E) ents < u64_modulus -> is_u64 (r_maxMsgSize r) ->
  sends E to r (match sendAppend_all E to r with Ret (_, r') => Ret r' | Panic msg => Panic msg end).
Proof.
  intros Hpr Hnext (sprev & sents & Hrep) HSize Hsum Hmx. unfold sendAppend_all, rbind, gets. cbn.
  apply (send_loop_sends E to (r_raftLog r) (r_maxMsgSize r) sprev sents prev ents Hrep HSize Hsum Hmx _ r pr);
    [done|by left|].
  unfold send_fuel, sends_left. rewrite Hpr. case_decide; lia.
Qed.

(** ** Restarting *)

Section restart.

Context (E : Env).

Definition frames_of {X A} (f : raft -> X) (m : M A) : Prop := forall r, wp m (fun _ r' => f r' = f r) r.

Lemma frames_of_bind {X A B} (f : raft -> X) (m : M A) (k : A -> M B) :
  frames_of f m -> (forall x, frames_of f (k x)) -> frames_of f (rbind m k).
Proof.
  intros Hm Hk r. apply wp_bind. eapply wp_mono; [apply Hm|]. intros x r1 H1.
  eapply wp_mono; [apply Hk|]. intros y r2 H2. cbn in *. congruence.
Qed.

Lemma frames_of_Visit {X} (f : raft -> X) g : (forall x, frames_of f (g x)) -> frames_of f (Visit g).
Proof.
  intros Hf r. apply wp_bind, wp_gets. apply (wp_for_each g (fun r' => f r' = f r)); [|done].
  intros x r' _ Hr. eapply wp_mono; [apply Hf|]. intros ? r'' Hr'. cbn in *. congruence.
Qed.

Lemma reset_config term : frames_of r_config (reset E term).
Proof.
  unfold reset, supportingFortifiedLeader, SupportFor, resetRandomizedElectionTimeout, Intn, abortLeaderTransfer, pr_set.
  repeat first
    [ apply frames_of_Visit; intros ? | apply frames_of_bind; [|intros ?]
    | intros ?; by apply wp_gets | intros ?; by apply wp_modify | intros ?; by apply wp_mret
    | intros ?; apply wp_query; intros ?; done | intros ?; by apply wp_assertTrue | intros ?; apply wp_rpanic
    | intros ?; by apply wp_pr_op | progress case_match ].
Qed.

Lemma becomeFollower_same r :
  raft_inv r ->
  wp (becomeFollower E (r_Term r) (r_lead r)) (fun _ r' =>
    raft_hardState r' = raft_hardState r /\ r_config r' = r_config r /\ r_msgs r' = r_msgs r /\
    r_msgsAfterAppend r' = r_msgsAfterAppend r /\ r_id r' = r_id r) r.
Proof.
  intros Hr. unfold becomeFollower. apply wp_bind, wp_modify. apply wp_bind.
  intros x r1 H1. pose proof (wp_reset _ _ _ _ _ H1) as Hc. apply reset_config in H1.
  unfold reset_core in Hc. cbn in Hc, H1. rewrite Z.eqb_refl in Hc. injection Hc as Hid HT HV Hcm Hm Hma Hs Hst Htk Hl He.
  apply wp_modify. unfold raft_hardState. cbn. by rewrite HT, HV, Hcm, He.
Qed.

(** A peer that has just been made: nothing but the log and the fixed settings. *)
Lemma wp_restoreConfig last cs r :
  r_state r = StateFollower ->
  wp (restoreConfig E last cs) (fun _ r' => exists cfg trk b,
    r' = r <| r_config := cfg |> <| r_trk := trk |> <| r_isLearner := b |> /\
    ConfState_Equivalent cs (Config_ConfState cfg) = true) r.
Proof.
  intros Hs. unfold restoreConfig. apply wp_bind, wp_reads. intros [err|[cfg trk]] _; [apply wp_rpanic|].
  apply wp_bind, (wp_mono _ (fun cs' r' => cs' = Config_ConfState cfg /\ exists b,
    r' = r <| r_config := cfg |> <| r_trk := trk |> <| r_isLearner := b |>)).
  - unfold switchToConfig, Progress_of. apply wp_bind, wp_modify. do 2 apply wp_bind, wp_gets.
    apply wp_bind, wp_modify. do 3 apply wp_bind, wp_gets. cbn [r_state set_field].
    change (r_state (_ <| r_isLearner := _ |>)) with (r_state r). rewrite Hs.
    rewrite (bool_decide_eq_false_2 (StateFollower = StateLeader)), andb_false_r by done. cbn [negb orb].
    apply wp_mret. split; [done|]. by eexists.
  - intros ? r1 [-> [b ->]]. unfold assertConfStatesEquivalent.
    destruct (ConfState_Equivalent _ _) eqn:Heq; [|apply wp_rpanic]. apply wp_mret. by eexists _, _, _.
Qed.

Lemma RaftConfig_validate_id c c' storage :
  RaftConfig_validate c = inr (c', storage) ->
  c_ID c' = c_ID c /\ c_ID c <> None_ID /\ c_Storage c = Some storage /\ c_Applied c' = c_Applied c.
Proof.
  unfold RaftConfig_validate. destruct (Z.eqb_spec (c_ID c) None_ID); [done|].
  destruct (IsLocalMsgTarget _); [done|]. destruct (_ <=? _); [done|]. destruct (_ <=? _); [done|].
  destruct (c_Storage c); [|done]. destruct (_ <=? _); [done|]. destruct (_ && _); [done|].
  intros H. injection H as <- <-. done.
Qed.

(** The state from which [newRaft] becomes a follower. *)
Definition loaded (id : PeerID) (hs : HardState) (cs : ConfState) (r : raft) : Prop :=
  r_id r = id /\ raft_inv r /\ r_state r = StateFollower /\
  (IsEmptyHardState hs = false -> raft_hardState r = hs) /\
  (IsEmptyHardState hs = true -> r_Term r = 0 /\ r_Vote r = None_ID /\ r_lead r = None_ID /\ r_leadEpoch r = 0) /\
  ConfState_Equivalent cs (Config_ConfState (r_config r)) = true /\
  r_msgs r = [] /\ r_msgsAfterAppend r = [].

Lemma wp_loadState hs r :
  wp (loadState hs) (fun _ r' =>
    r' = r <| r_raftLog := r_raftLog r <| l_committed := hs_Commit hs |> |>
           <| r_Term := hs_Term hs |> <| r_Vote := hs_Vote hs |>
           <| r_lead := hs_Lead hs |> <| r_leadEpoch := hs_LeadEpoch hs |>) r.
Proof.
  unfold loadState. apply wp_bind, wp_gets. destruct (_ || _); [apply wp_rpanic|]. by apply wp_modify.
Qed.

Lemma appliedTo_committed l i size l' : raftLog_appliedTo l i size = Ret l' -> l_committed l' = l_committed l.
Proof. unfold raftLog_appliedTo. destruct (_ || _); [done|]. destruct (_ >? _); by intros [= <-]. Qed.

Lemma wp_start c lastID hs cs l :
  c_ID c <> None_ID -> 0 <= hs_Term hs -> (hs_LeadEpoch hs <> 0 -> hs_Lead hs <> None_ID) ->
  wp (start E c lastID hs cs) (fun _ r => loaded (c_ID c) hs cs r) (initial_raft c l).
Proof.
  intros Hid Hterm Hepoch. unfold start. apply wp_bind.
  eapply wp_mono; [by apply wp_restoreConfig|]. intros ? r1 (cfg&trk&b&->&Heq).
  apply wp_bind, (wp_mono _ (fun _ => loaded (c_ID c) hs cs)).
  { destruct (IsEmptyHardState hs) eqn:Ehs; cbn [negb].
    - apply wp_mret. split_and!; [done|split; cbn; try done; by intros []|done|congruence|done..].
    - eapply wp_mono; [apply wp_loadState|]. intros ? r2 ->.
      split_and!; [done|split; cbn; try done; by intros []|done|by destruct hs|congruence|done..]. }
  intros ? r2 H2. apply wp_bind, (wp_mono _ (fun _ => loaded (c_ID c) hs cs)).
  { destruct (_ >? _); [|by apply wp_mret]. apply wp_log_upd. intros l' Hl'. apply appliedTo_committed in Hl'.
    destruct H2 as (Hid2&Hi&Hs&Hne&He&Hc&Hm&Hma). split_and!; try done; [by apply raft_inv_log|].
    unfold raft_hardState in *. cbn. by rewrite Hl'. }
  intros ? r3 (Hid3&Hi&Hs&Hne&He&Hc&Hm&Hma). do 2 apply wp_bind, wp_gets.
  intros ? r4 H4. pose proof (becomeFollower_same _ Hi _ _ H4) as (Hhs&Hcfg&Hm4&Hma4&Hid4).
  apply (wp_becomeFollower E) in H4 as (Hi4&_&_&Hs4&_); [|done|apply Hi|lia|intros _; apply Hi].
  unfold loaded. rewrite Hhs, Hcfg, Hm4, Hma4, Hid4. split_and!; try done.
  intros Hemp. injection Hhs as -> -> _ -> ->. by apply He.
Qed.

Lemma newRaft_loaded c r storage hs cs :
  newRaft E c = Ret r -> c_Storage c = Some storage -> st_InitialState storage = Ret (inr (hs, cs)) ->
  0 <= hs_Term hs -> (hs_LeadEpoch hs <> 0 -> hs_Lead hs <> None_ID) -> loaded (c_ID c) hs cs r.
Proof.
  intros Hnew Hst Hinit Hterm Hepoch. unfold newRaft in Hnew.
  destruct (RaftConfig_validate c) as [|[c' storage']] eqn:Hv; [done|].
  apply RaftConfig_validate_id in Hv as (Hid&Hid0&Hst'&_). rewrite Hst in Hst'. injection Hst' as <-.
  destruct (newLogWithSize _ _) as [l|]; cbn [obind] in Hnew; [|done].
  unfold must in Hnew. rewrite Hinit in Hnew. cbn [obind] in Hnew.
  destruct (raftLog_lastEntryID l) as [lastID|]; cbn [obind] in Hnew; [|done].
  destruct (start E c' lastID hs cs (initial_raft c' l)) as [[x r']|] eqn:Hs; cbn [obind] in Hnew; [|done].
  injection Hnew as ->. apply wp_start in Hs; [by rewrite Hid in Hs|congruence|done|done].
Qed.

(** A restarted peer remembers exactly what it had persisted: [newRaft] yields a
    follower in a consistent state whose hard state is the one in storage (or zero,
    if there is none), whose configuration is equivalent to the one in storage, and
    that has nothing to send. With the sending discipline, no vote or
    acknowledgement that was sent before a crash is forgotten after it. *)
Theorem newRaft_spec c r storage hs cs :
  newRaft E c = Ret r -> c_Storage c = Some storage -> st_InitialState storage = Ret (inr (hs, cs)) ->
  0 <= hs_Term hs -> (hs_LeadEpoch hs <> 0 -> hs_Lead hs <> None_ID) ->
  raft_inv r /\ r_state r = StateFollower /\
  (IsEmptyHardState hs = false -> raft_hardState r = hs) /\
  (IsEmptyHardState hs = true -> r_Term r = 0 /\ r_Vote r = None_ID /\ r_lead r = None_ID /\ r_leadEpoch r = 0) /\
  ConfState_Equivalent cs (Config_ConfState (r_config r)) = true /\
  r_msgs r = [] /\ r_msgsAfterAppend r = [].
Proof. intros. by eapply newRaft_loaded. Qed.

End restart.

(** ** Witnesses *)

(** Peer 1 of three voters at term 4 with the log [example_log], of which peer 2
    has acknowledged everything. *)
Definition example_peer : raft :=
  initial_raft example_RaftConfig example_log
    <| r_Term := 4 |> <| r_config := mkConfig (Some {[1; 2; 3]}, None) false None None |>
    <| r_trk := {[1 := mkProgress 13 14 0 0 StateReplicate 0 true false (NewInflights 4 0) false;
                  2 := mkProgress 13 14 0 0 StateReplicate 0 true false (NewInflights 4 0) false;
                  3 := mkProgress 10 12 0 0 StateReplicate 0 true false (NewInflights 4 0) false]} |>.

Lemma example_peer_abs :
  raftLog_abs (Size example_Env) (r_raftLog example_peer) (mkEntryID 2 10) example_ents.
Proof. eexists _, _. exact example_log_rep. Qed.

Lemma maybeCommit_spec_witness :
  exists i, committable example_peer (mkEntryID 2 10) example_ents i /\
    l_committed (r_raftLog (final maybeCommit example_peer)) = i.
Proof.
  assert (Hb : match maybeCommit example_peer with Ret (b, _) => b | Panic _ => false end = true) by (by vm_compute).
  pose proof (maybeCommit_spec (Size example_Env) example_peer (mkEntryID 2 10) example_ents example_peer_abs) as H.
  unfold final. destruct (maybeCommit example_peer) as [[[] r']|]; [|discriminate Hb|discriminate Hb].
  destruct H as (i&Hi&_&->).
  - cbn. lia.
  - vm_compute. congruence.
  - intros id pr Hpr. cbn in Hpr. change (raftLog_lastIndex (r_raftLog example_peer)) with 13.
    apply lookup_insert_Some in Hpr as [[_ <-]|[_ Hpr]]; [cbn; lia|].
    apply lookup_insert_Some in Hpr as [[_ <-]|[_ Hpr]]; [cbn; lia|].
    apply lookup_singleton_Some in Hpr as [_ <-]. cbn. lia.
  - cbn. lia.
  - exists i. by split.
Defined.

Lemma Step_vote_lease_witness :
  exists n, Step example_Env example_MsgVote (example_peer <| r_lead := 3 |>) =
    Ret (None, example_peer <| r_lead := 3 |> <| r_calls := n |>).
Proof.
  apply (Step_vote_lease example_Env example_MsgVote _ (Size example_Env) (mkEntryID 2 10) example_ents);
    [by left|done|done|exact example_peer_abs|done|by left].
Defined.

Lemma fortified_no_campaign_witness :
  exists n, Step example_Env (Msg MsgHup <| m_From := 1 |>) (example_peer <| r_lead := 3 |> <| r_leadEpoch := 1 |>) =
    Ret (None, example_peer <| r_lead := 3 |> <| r_leadEpoch := 1 |> <| r_calls := n |>).
Proof. apply (fortified_no_campaign example_Env (example_peer <| r_lead := 3 |> <| r_leadEpoch := 1 |>)); done. Defined.

Lemma Step_MsgVote_spec_witness :
  Step example_Env (example_MsgVote <| m_Term := 4 |>) example_peer =
    Ret (None, example_peer <| r_msgsAfterAppend :=
      [Msg MsgVoteResp <| m_From := 1 |> <| m_To := 2 |> <| m_Term := 4 |> <| m_Reject := true |>] |>).
Proof.
  etransitivity; [apply (Step_MsgVote_spec example_Env (example_MsgVote <| m_Term := 4 |>) example_peer
    (Size example_Env) (mkEntryID 2 10) example_ents); [done..|exact example_peer_abs]|reflexivity].
Defined.

Lemma sendAppend_all_terminates_witness :
  sends example_Env 3 example_peer (Ret (final (sendAppend_all example_Env 3) example_peer)).
Proof.
  pose proof (sendAppend_all_terminates example_Env 3 example_peer
    (mkProgress 10 12 0 0 StateReplicate 0 true false (NewInflights 4 0) false) (mkEntryID 2 10) example_ents) as H.
  destruct (final_returns (sendAppend_all example_Env 3) example_peer) as [x Hx]; [by vm_compute|].
  rewrite Hx in H. apply H; clear H Hx.
  - vm_compute. reflexivity.
  - split; vm_compute; congruence.
  - exact example_peer_abs.
  - intros e. vm_compute. reflexivity.
  - vm_compute. reflexivity.
  - split; vm_compute; congruence.
Defined.

Lemma newRaft_spec_witness : raft_hardState example_raft = ms_hardState example_MemoryStorage.
Proof.
  assert (Hr : match newRaft example_Env example_RaftConfig with Ret _ => true | Panic _ => false end = true)
    by (by vm_compute).
  pose proof (newRaft_spec example_Env example_RaftConfig) as H. unfold example_raft.
  destruct (newRaft example_Env example_RaftConfig) as [r|]; [|discriminate Hr].
  apply (H r (MemoryStorage_Storage (env_Size example_Env) example_MemoryStorage)
    (ms_hardState example_MemoryStorage) (mkConfState [1; 2; 3] [] [] [] false)); done.
Defined.
