(* ===== verification/RaftElect.v ===== *)
(** * How a peer becomes leader (src/pkg/raft/raft.go)

    The votes a candidate has counted, and leadership, only ever come from one
    place: [stepCandidate] handling the response to a vote request. [steady] says
    that an action neither counts a vote nor makes a leader; all actions but that
    one are shown to be steady, by a tactic that goes through their structure.
    [polled] says what the exception does. *)

From S2P Require Import Prelude Hlc Quorum Tracker RaftPb ConfChange LogTypes Unstable Storage RaftLog Raft RaftInv.

(** ** Steady actions *)

(** The granted votes of a candidate are among those it had at the same term, and
    a leader was the leader of the term before. *)
Definition steady (r r' : raft) : Prop :=
  (r_state r' = StateCandidate -> forall id, r_votes r' !! id = Some true ->
    r_state r = StateCandidate /\ r_Term r' = r_Term r /\ r_votes r !! id = Some true) /\
  (r_state r' = StateLeader -> r_state r = StateLeader /\ r_Term r' = r_Term r).

Lemma steady_trans r1 r2 r3 : steady r1 r2 -> steady r2 r3 -> steady r1 r3.
Proof.
  intros [V1 L1] [V2 L2]. split.
  - intros Hs id Hv. destruct (V2 Hs id Hv) as (Hs2&HT2&Hv2). destruct (V1 Hs2 id Hv2) as (?&?&?).
    split_and!; congruence.
  - intros Hs. destruct (L2 Hs) as [Hs2 ?]. destruct (L1 Hs2). split; congruence.
Qed.

Lemma steady_same r r' :
  r_state r' = r_state r -> r_Term r' = r_Term r -> r_votes r' = r_votes r -> steady r r'.
Proof. intros Hs HT Hv. unfold steady. rewrite Hs, HT, Hv. done. Qed.

Lemma steady_follower r r' : r_state r' = StateFollower -> steady r r'.
Proof. intros Hs. unfold steady. by rewrite Hs. Qed.

Definition steadies {A} (m : M A) : Prop := forall r, wp m (fun _ r' => steady r r') r.

Lemma steadies_bind {A B} (m : M A) (k : A -> M B) : steadies m -> (forall x, steadies (k x)) -> steadies (rbind m k).
Proof.
  intros Hm Hk r. apply wp_bind. eapply wp_mono; [apply Hm|]. intros x r1 H1.
  eapply wp_mono; [apply Hk|]. intros y r2 H2. exact (steady_trans _ _ _ H1 H2).
Qed.

Lemma steadies_mret {A} (x : A) : steadies (mret x).
Proof. intros r. apply wp_mret. by apply steady_same. Qed.

Lemma steadies_rpanic {A} msg : steadies (A := A) (rpanic msg).
Proof. intros r. apply wp_rpanic. Qed.

Lemma steadies_gets {A} (f : raft -> A) : steadies (gets f).
Proof. intros r. apply wp_gets. by apply steady_same. Qed.

Lemma steadies_reads {A} (f : raft -> outcome A) : steadies (reads f).
Proof. intros r. apply wp_reads. intros. by apply steady_same. Qed.

Lemma steadies_query {A} (f : nat -> A) : steadies (query f).
Proof. intros r. apply wp_query. intros. by apply steady_same. Qed.

Lemma steadies_assertTrue b msg : steadies (assertTrue b msg).
Proof. intros r. apply wp_assertTrue. intros. by apply steady_same. Qed.

Lemma steadies_pr_op {A} id (f : Progress -> outcome (Progress * A)) : steadies (pr_op id f).
Proof. intros r. apply wp_pr_op. intros. by apply steady_same. Qed.

Lemma steadies_log_upd f : steadies (log_upd f).
Proof. intros r. apply wp_log_upd. intros. by apply steady_same. Qed.

Lemma steadies_log_op {A} (f : raftLog -> outcome (raftLog * A)) : steadies (log_op f).
Proof. intros r. apply wp_log_op. intros. by apply steady_same. Qed.

Lemma steadies_modify f :
  (forall r, r_state (f r) = r_state r /\ r_Term (f r) = r_Term r /\ r_votes (f r) = r_votes r) -> steadies (modify f).
Proof. intros H r. apply wp_modify. by apply steady_same; apply H. Qed.

Lemma steadies_for_each {X} (f : X -> M unit) l : (forall x, steadies (f x)) -> steadies (for_each f l).
Proof. intros Hf. induction l; cbn; [apply steadies_mret|]. by apply steadies_bind. Qed.

Lemma steadies_Visit f : (forall x, steadies (f x)) -> steadies (Visit f).
Proof. intros Hf. apply steadies_bind; [apply steadies_gets|]. intros. by apply steadies_for_each. Qed.

Lemma steadies_send m : steadies (send m).
Proof.
  intros r x r' H. apply send_result in H as [_ H].
  destruct (is_after_append _); [subst r'|destruct H as [_ ->]]; by apply steady_same.
Qed.

Create HintDb steady discriminated.

#[export] Hint Resolve steadies_mret steadies_rpanic steadies_gets steadies_reads steadies_query steadies_assertTrue
  steadies_pr_op steadies_log_upd steadies_log_op steadies_send : steady.

(** Goes through the structure of an action. *)
Ltac steady_step :=
  match goal with
  | |- forall _, _ => intros ?
  | |- steadies (rbind _ _) => apply steadies_bind
  | |- steadies (Visit _) => apply steadies_Visit
  | |- steadies (for_each _ _) => apply steadies_for_each
  | |- steadies (modify _) => apply steadies_modify; intros ?; repeat case_match; split_and!; reflexivity
  | |- steadies (let '(_, _) := ?x in _) => destruct x
  | |- steadies (if ?b then _ else _) => destruct b
  | |- steadies (match ?x with _ => _ end) => destruct x
  | |- _ => solve [eauto with steady nocore]
  end.

Ltac steady_auto := repeat steady_step.

Section elect.

Context (E : Env).

(** ** The operations of a peer *)

Lemma steadies_supporting : steadies (supportingFortifiedLeader E).
Proof. unfold supportingFortifiedLeader, SupportFor. steady_auto. Qed.

#[local] Hint Resolve steadies_supporting : steady.

Lemma steadies_deFortify from term : steadies (deFortify E from term).
Proof. unfold deFortify. steady_auto. Qed.

Lemma steadies_maybeSendSnapshot to : steadies (maybeSendSnapshot to).
Proof. unfold maybeSendSnapshot, pr_get, pr_set. steady_auto. Qed.

#[local] Hint Resolve steadies_deFortify steadies_maybeSendSnapshot : steady.

Lemma steadies_maybeSendAppend to : steadies (maybeSendAppend E to).
Proof. unfold maybeSendAppend, advanceCommitViaMsgAppOnly, pr_get, pr_set. steady_auto. Qed.

#[local] Hint Resolve steadies_maybeSendAppend : steady.

Lemma steadies_sendAppend_all to : steadies (sendAppend_all E to).
Proof.
  unfold sendAppend_all. apply steadies_bind; [steady_auto|]. intros fuel.
  induction fuel; cbn; steady_auto.
Qed.

Lemma steadies_sendHeartbeat to : steadies (sendHeartbeat E to).
Proof. unfold sendHeartbeat, advanceCommitViaMsgAppOnly, pr_get, pr_set. steady_auto. Qed.

Lemma steadies_sendFortify to : steadies (sendFortify E to).
Proof. unfold sendFortify, SupportFromEnabled, SupportFor. steady_auto. Qed.

#[local] Hint Resolve steadies_sendAppend_all steadies_sendHeartbeat steadies_sendFortify : steady.

Lemma steadies_bcastAppend : steadies (bcastAppend E).
Proof. unfold bcastAppend. steady_auto. Qed.

Lemma steadies_bcastHeartbeat : steadies (bcastHeartbeat E).
Proof. unfold bcastHeartbeat. steady_auto. Qed.

Lemma steadies_bcastFortify : steadies (bcastFortify E).
Proof. unfold bcastFortify. steady_auto. Qed.

Lemma steadies_maybeCommit : steadies maybeCommit.
Proof. unfold maybeCommit. steady_auto. Qed.

Lemma steadies_appendEntry es : steadies (appendEntry es).
Proof. unfold appendEntry, increaseUncommittedSize, pr_set. steady_auto. Qed.

#[local] Hint Resolve steadies_bcastAppend steadies_bcastHeartbeat steadies_bcastFortify steadies_maybeCommit
  steadies_appendEntry : steady.

(** ** Changes of role *)

Lemma wp_any {A} (m : M A) r : wp m (fun _ _ => True) r.
Proof. done. Qed.

Lemma becomeFollower_state term lead r : wp (becomeFollower E term lead) (fun _ r' => r_state r' = StateFollower) r.
Proof.
  unfold becomeFollower. do 2 (apply wp_bind; eapply wp_mono; [apply wp_any|]; intros ?? _). by apply wp_modify.
Qed.

Lemma steadies_becomeFollower term lead : steadies (becomeFollower E term lead).
Proof. intros r. eapply wp_mono; [apply becomeFollower_state|]. intros ? r'. apply steady_follower. Qed.

(** [reset] forgets the votes. *)
Lemma reset_votes term r : wp (reset E term) (fun _ r' => r_votes r' = ∅) r.
Proof.
  unfold reset. do 5 (apply wp_bind; eapply wp_mono; [apply wp_any|]; intros ?? _).
  apply wp_bind, wp_modify. apply wp_bind.
  eapply wp_mono; [|intros ? r2 H2; apply wp_modify; exact H2].
  unfold Visit. apply wp_bind, wp_gets. apply (wp_for_each _ (fun r' => r_votes r' = ∅)); [|done].
  intros id r1 _ H1. by apply wp_pr_op.
Qed.

Lemma steadies_becomeCandidate : steadies (becomeCandidate E).
Proof.
  intros r. unfold becomeCandidate. apply wp_bind, wp_gets. destruct (bool_decide _); [apply wp_rpanic|].
  apply wp_bind, wp_modify. apply wp_bind, wp_gets. apply wp_bind.
  eapply wp_mono; [apply reset_votes|]. intros ? r1 Hv. apply wp_modify. split; cbn; [|done].
  intros _ id. by rewrite Hv, lookup_empty.
Qed.

Lemma steadies_becomePreCandidate : steadies (becomePreCandidate E).
Proof.
  unfold becomePreCandidate. apply steadies_bind; [steady_auto|]. intros state.
  destruct (bool_decide _); [steady_auto|]. do 3 (apply steadies_bind; [steady_auto|]; intros ?).
  intros r. apply wp_modify. by split.
Qed.

#[local] Hint Resolve steadies_becomeFollower steadies_becomeCandidate steadies_becomePreCandidate : steady.

Lemma steadies_campaign t : steadies (campaign E t).
Proof. unfold campaign. steady_auto. Qed.

#[local] Hint Resolve steadies_campaign : steady.

Lemma steadies_hup t : steadies (hup E t).
Proof. unfold hup, promotable, hasUnappliedConfChanges. steady_auto. Qed.

Lemma steadies_transferLeader to : steadies (transferLeader E to).
Proof. unfold transferLeader. steady_auto. Qed.

#[local] Hint Resolve steadies_hup steadies_transferLeader : steady.

Lemma steadies_switchToConfig cfg pm : steadies (switchToConfig E cfg pm).
Proof. unfold switchToConfig, Progress_of, abortLeaderTransfer. steady_auto. Qed.

#[local] Hint Resolve steadies_switchToConfig : steady.

Lemma steadies_applyConfChange cc : steadies (applyConfChange E cc).
Proof. unfold applyConfChange. steady_auto. Qed.

Lemma steadies_restore s : steadies (restore E s).
Proof. unfold restore, restoreConfig, assertConfStatesEquivalent. steady_auto. Qed.

#[local] Hint Resolve steadies_restore : steady.

(** ** Messages *)

Lemma steadies_handleAppendEntries m : steadies (handleAppendEntries m).
Proof. unfold handleAppendEntries, checkMatch, send_ack. steady_auto. Qed.

Lemma steadies_handleHeartbeat m : steadies (handleHeartbeat m).
Proof. unfold handleHeartbeat, checkMatch. steady_auto. Qed.

Lemma steadies_handleSnapshot m : steadies (handleSnapshot E m).
Proof. unfold handleSnapshot, send_ack. steady_auto. Qed.

Lemma steadies_handleFortify m : steadies (handleFortify E m).
Proof. unfold handleFortify, SupportFor. steady_auto. Qed.

#[local] Hint Resolve steadies_handleAppendEntries steadies_handleHeartbeat steadies_handleSnapshot
  steadies_handleFortify : steady.

Lemma steadies_check_proposals i es : steadies (check_proposals E i es).
Proof. revert i. induction es as [|e es IH]; intros i; cbn [check_proposals]; steady_auto. Qed.

#[local] Hint Resolve steadies_check_proposals : steady.

Lemma steadies_stepLeader m : steadies (stepLeader E m).
Proof.
  assert (Hacc : steadies (stepLeader_MsgAppResp E m)).
  { unfold stepLeader_MsgAppResp, stepLeader_MsgAppResp_reject, stepLeader_MsgAppResp_accept, advance_progress,
      pr_get, pr_set. steady_auto. }
  assert (Hfrom : steadies (stepLeader_from E m)).
  { unfold stepLeader_from, stepLeader_peer, stepLeader_MsgTransferLeader, Progress_of, abortLeaderTransfer, pr_get, pr_set.
    steady_auto. }
  unfold stepLeader, stepLeader_MsgProp, handleFortifyResp, Progress_of, pr_set. steady_auto.
Qed.

Lemma steadies_stepFollower m : steadies (stepFollower E m).
Proof. unfold stepFollower, heed_and. steady_auto. Qed.

#[local] Hint Resolve steadies_stepLeader steadies_stepFollower : steady.

(** ** Counting votes *)

(** A vote of [id] is counted, if it is granted: the granted votes of a candidate
    are those it had at the same term and that one, and a new leader was a candidate
    that has won with these votes. *)
Definition polled (id : PeerID) (granted : bool) (r r' : raft) : Prop :=
  let yes (i : PeerID) := r_votes r !! i = Some true \/ i = id /\ granted = true in
  (r_state r' = StateCandidate -> forall i, r_votes r' !! i = Some true ->
    r_state r = StateCandidate /\ r_Term r' = r_Term r /\ yes i) /\
  (r_state r' = StateLeader -> r_Term r' = r_Term r /\
    (r_state r = StateLeader \/
     r_state r = StateCandidate /\ exists votes, JointConfig_VoteResult (Voters (r_config r)) votes = VoteWon /\
       forall i, votes !! i = Some true -> yes i)).

Lemma steady_polled id granted r r' : steady r r' -> polled id granted r r'.
Proof.
  intros [Hv Hl]. split.
  - intros Hs i Hi. destruct (Hv Hs i Hi) as (?&?&?). auto.
  - intros Hs. destruct (Hl Hs). auto.
Qed.

Lemma steady_then_polled id granted r1 r2 r3 : polled id granted r1 r2 -> steady r2 r3 -> polled id granted r1 r3.
Proof.
  intros [V1 L1] [V2 L2]. split.
  - intros Hs i Hi. destruct (V2 Hs i Hi) as (Hs2&HT&Hi2). destruct (V1 Hs2 i Hi2) as (?&?&?). split_and!; [done|congruence|done].
  - intros Hs. destruct (L2 Hs) as [Hs2 HT]. destruct (L1 Hs2). split; [congruence|done].
Qed.

Lemma RecordVote_true votes id v i :
  ElectionTracker_RecordVote votes id v !! i = Some true -> votes !! i = Some true \/ i = id /\ v = true.
Proof.
  unfold ElectionTracker_RecordVote. destruct (votes !! id); [by left|].
  rewrite lookup_insert_Some. intros [[-> ->]|[_ ?]]; auto.
Qed.

Lemma TallyVotes_result config votes gr rj res :
  ElectionTracker_TallyVotes config votes = (gr, rj, res) -> res = JointConfig_VoteResult (Voters config) votes.
Proof. unfold ElectionTracker_TallyVotes. destruct (fold_left _ _ _). by intros [= _ _ ->]. Qed.

(** The end of a won election: a leader of the same term. *)
Lemma wp_becomeLeader r : wp (becomeLeader E) (fun _ r' => r_state r <> StateFollower /\
  exists r1, r_state r1 = StateLeader /\ r_Term r1 = r_Term r /\ steady r1 r') r.
Proof.
  unfold becomeLeader, pr_set. apply wp_bind, wp_gets. destruct (bool_decide_reflect (r_state r = StateFollower)); [apply wp_rpanic|].
  apply wp_bind, wp_modify. apply wp_bind, wp_gets. apply wp_bind.
  eapply wp_mono; [apply wp_reset|]. intros ? r1 Hc. unfold reset_core in Hc. cbn in Hc. rewrite Z.eqb_refl in Hc.
  apply wp_bind, wp_modify. match goal with |- wp ?m _ ?r2 => assert (Hm : steadies m) by steady_auto end.
  eapply wp_mono; [apply Hm|]. intros ? r3 H3. split; [done|]. eexists. split_and!; [..|exact H3]; [done|].
  cbn. by injection Hc.
Qed.

Lemma stepCandidate_polled m r :
  wp (stepCandidate_poll E m) (fun _ r' => polled (m_From m) (negb (m_Reject m)) r r') r.
Proof.
  unfold stepCandidate_poll, poll. apply wp_bind, wp_bind, wp_modify, wp_gets.
  set (r1 := r <| r_votes := _ |>).
  assert (Hvotes : forall i, r_votes r1 !! i = Some true ->
    r_votes r !! i = Some true \/ i = m_From m /\ negb (m_Reject m) = true) by (intros i; apply RecordVote_true).
  assert (H1 : polled (m_From m) (negb (m_Reject m)) r r1).
  { split; [|by auto]. intros Hs i Hi. split_and!; [done|done|]. by apply Hvotes. }
  assert (Hk : forall A (k : M A), steadies k -> wp k (fun _ r' => polled (m_From m) (negb (m_Reject m)) r r') r1).
  { intros A k Hk. eapply wp_mono; [apply Hk|]. intros ? r2. by apply steady_then_polled. }
  destruct (ElectionTracker_TallyVotes _ _) as [[gr rj] res] eqn:Et. apply TallyVotes_result in Et.
  destruct res; [apply Hk; steady_auto..|]. apply wp_bind, wp_gets.
  destruct (bool_decide_reflect (r_state r1 = StatePreCandidate)) as [|Hpre]; [apply Hk; steady_auto|].
  apply wp_bind. eapply wp_mono; [apply wp_becomeLeader|]. intros ? r2 (Hf&r3&Hs3&HT3&H3).
  match goal with |- wp ?k _ _ => assert (Hb : steadies k) by steady_auto end.
  eapply wp_mono; [apply Hb|]. intros ? r4 H4. destruct (steady_trans _ _ _ H3 H4) as [Hv Hl]. split.
  - intros Hs i Hi. destruct (Hv Hs i Hi). congruence.
  - intros Hs. destruct (Hl Hs) as [_ HT4]. split; [by rewrite HT4, HT3|].
    change (r_state r1) with (r_state r) in *. destruct (r_state r); try done; [right|by left].
    split; [done|]. exists (r_votes r1). split; [by symmetry|exact Hvotes].
Qed.

(** A pre-election does not make a leader. *)
Lemma polled_steady id granted r r' : r_state r <> StateCandidate -> polled id granted r r' -> steady r r'.
Proof.
  intros Hs [Hv Hl]. split.
  - intros Hs' i Hi. by destruct (Hv Hs' i Hi).
  - intros Hs'. destruct (Hl Hs') as [? [?|[? _]]]; done.
Qed.

Lemma steadies_stepCandidate m : m_Type m <> MsgVoteResp -> steadies (stepCandidate E m).
Proof.
  intros Hm r. unfold stepCandidate. apply wp_bind, wp_gets.
  assert (Hpoll : r_state r = StatePreCandidate ->
    wp (let* _ := stepCandidate_poll E m in mret (None : option error)) (fun _ r' => steady r r') r).
  { intros Hs. apply wp_bind. eapply wp_mono; [apply stepCandidate_polled|]. intros ? r1 H1. apply wp_mret.
    apply (polled_steady (m_From m) (negb (m_Reject m))); [by rewrite Hs|exact H1]. }
  unfold follow_and. destruct (bool_decide_reflect (r_state r = StatePreCandidate)) as [Hs|Hs];
    destruct (m_Type m); try done; try (rewrite bool_decide_false by done);
    try (rewrite bool_decide_true by done; by apply Hpoll);
    match goal with |- wp ?k _ _ => assert (Hst : steadies k) by steady_auto end; apply Hst.
Qed.

#[local] Hint Resolve steadies_stepCandidate : steady.

Lemma steadies_step m : m_Type m <> MsgVoteResp -> steadies (step E m).
Proof. intros Hm. unfold step. steady_auto. Qed.

#[local] Hint Resolve steadies_step : steady.

Lemma steadies_Step_term m : steadies (Step_term E m).
Proof. unfold Step_term, Step_higher_term, Step_lower_term. steady_auto. Qed.

Lemma steadies_Step_dispatch rec m :
  steadies (rec confChangeToMsg_nil) -> m_Type m <> MsgVoteResp -> steadies (Step_dispatch E rec m).
Proof.
  intros Hrec Hm. pose proof (steadies_step m Hm) as Hstep.
  unfold Step_dispatch, appliedSnap_with, appliedTo_with, reduceUncommittedSize, Step_vote.
  destruct (m_Type m); try done; steady_auto.
Qed.

Lemma steadies_Step_with rec m :
  steadies (rec confChangeToMsg_nil) -> m_Type m <> MsgVoteResp -> steadies (Step_with E rec m).
Proof.
  intros Hrec Hm. unfold Step_with. apply steadies_bind; [apply steadies_Step_term|]. intros [].
  - apply steadies_mret.
  - by apply steadies_Step_dispatch.
Qed.

Lemma steadies_Step m : m_Type m <> MsgVoteResp -> steadies (Step E m).
Proof.
  intros Hm. apply steadies_Step_with; [|done]. apply steadies_Step_with; [apply steadies_rpanic|done].
Qed.

Lemma steadies_tick : steadies (tick E).
Proof.
  assert (HS : forall t self, t <> MsgVoteResp -> steadies (Step E (Msg t <| m_From := self |>)))
    by (intros; by apply steadies_Step).
  unfold tick, tickElection, tickHeartbeat, promotable.
  repeat first [apply HS; discriminate|steady_step].
Qed.

Lemma steadies_testingStepDown : steadies (testingStepDown E).
Proof. unfold testingStepDown. steady_auto. Qed.

(** A vote is counted at the term of the response. *)
Definition counted (m : Message) (r r' : raft) : Prop :=
  m_Type m = MsgVoteResp /\ (m_Term m = 0 \/ m_Term m = r_Term r) /\ polled (m_From m) (negb (m_Reject m)) r r'.

Lemma step_VoteResp m r : m_Type m = MsgVoteResp ->
  wp (step E m) (fun _ r' => polled (m_From m) (negb (m_Reject m)) r r') r.
Proof.
  intros Hm. assert (Hst : forall A (k : M A), steadies k -> wp k (fun _ r' => polled (m_From m) (negb (m_Reject m)) r r') r).
  { intros A k Hk. eapply wp_mono; [apply Hk|]. intros ? r'. apply steady_polled. }
  unfold step. apply wp_bind, wp_gets. destruct (r_step r); [apply Hst; steady_auto| |apply Hst; steady_auto].
  unfold stepCandidate. apply wp_bind, wp_gets. rewrite Hm. destruct (bool_decide _); [|apply Hst; steady_auto].
  apply wp_bind. eapply wp_mono; [apply stepCandidate_polled|]. intros ? r' H. by apply wp_mret.
Qed.

Lemma Step_election m r : wp (Step E m) (fun _ r' => steady r r' \/ counted m r r') r.
Proof.
  destruct (decide (m_Type m = MsgVoteResp)) as [Hm|Hm].
  2: { eapply wp_mono; [by apply steadies_Step|]. by left. }
  assert (Hdis : forall rec r, Step_dispatch E rec m r = step E m r) by (intros; unfold Step_dispatch; by rewrite Hm).
  unfold Step. unfold Step_with at 1. apply wp_bind. unfold Step_term at 1. apply wp_bind, wp_gets.
  destruct (Z.eqb_spec (m_Term m) 0) as [H0|H0].
  { apply wp_mret. eapply wp_ext; [apply Hdis|]. eapply wp_mono; [by apply step_VoteResp|]. right. split_and!; auto. }
  destruct (Z.gtb_spec (m_Term m) (r_Term r)).
  { unfold Step_higher_term. rewrite Hm. cbn. rewrite !bool_decide_false by done. cbn. apply wp_bind, wp_mret.
    apply wp_bind. eapply wp_mono; [apply becomeFollower_state|]. intros ? r1 H1. apply wp_mret.
    eapply wp_ext; [apply Hdis|]. eapply wp_mono; [by apply step_VoteResp|]. intros ? r' H'. left.
    apply (steady_trans r r1); [by apply steady_follower|]. eapply polled_steady; [|exact H']. by rewrite H1. }
  destruct (Z.ltb_spec (m_Term m) (r_Term r)).
  { assert (Hk : steadies (Step_lower_term m)) by (unfold Step_lower_term; steady_auto).
    apply wp_bind. eapply wp_mono; [apply Hk|]. intros ? r1 Hst. apply wp_mret, wp_mret. by left. }
  apply wp_mret. eapply wp_ext; [apply Hdis|]. eapply wp_mono; [by apply step_VoteResp|]. right. split_and!; auto; right; lia.
Qed.

End elect.
