(* ===== verification/Cluster.v ===== *)
(** * Elections in a cluster (src/pkg/raft)

    Peers with their disks, and the network between them. A node is a [RawNode]
    with the hard state on its disk, the writes that [Ready] has handed to its
    storage and the messages that may leave once a write is durable. Nodes crash at
    any time, lose everything but the disk, and restart from it with [newRaft]. The
    network loses, duplicates and reorders messages; all messages but granted votes
    may even be forged.

    Shown, for both modes of [RawNode]: a peer never grants two votes in a term,
    crashes included, because a vote leaves the node only after the hard state that
    records it is on disk; and two elections won at the same term, under
    configurations whose quorums overlap, were won by the same peer. *)

From S2P Require Import Prelude Hlc Quorum Tracker RaftPb ConfChange LogTypes Unstable Storage RaftLog LogApply Raft RawNode RaftInv RaftCommit RaftElect.

(** ** The system *)

Record node : Type := mkNode {
  n_env : Env;
  n_rn : RawNode;
  n_disk : HardState;
  n_writes : list (HardState * list Message);
  n_outbox : list Message
}.

#[global] Instance eta_node : Eta node := fun n =>
  mkNode (n_env n) (n_rn n) (n_disk n) (n_writes n) (n_outbox n).

(** A won election: the winner, the term, and the voters it was held among. *)
Record win : Type := mkWin {
  w_id : PeerID;
  w_Term : Z;
  w_Voters : JointConfig
}.

Record cluster : Type := mkCluster {
  c_nodes : gmap PeerID node;
  c_net : list Message;
  c_wins : list win
}.

(** Storage keeps the last hard state that is not empty. *)
Definition save (disk hs : HardState) : HardState := if IsEmptyHardState hs then disk else hs.

(** What the application does with a [Ready]: without asynchronous writes, one write,
    after which all messages are sent; otherwise the messages to the append thread
    are writes, followed by their responses, and the others are sent at once. *)
Definition ready_writes (async : bool) (rd : Ready) : list (HardState * list Message) :=
  if async then
    (fun m => (message_hardState m, m_Responses m)) <$> filter (fun m => m_Type m = MsgStorageAppend) (rd_Messages rd)
  else [(rd_HardState rd, rd_Messages rd)].

Definition ready_sends (async : bool) (rd : Ready) : list Message :=
  if async then filter (fun m => m_Type m <> MsgStorageAppend) (rd_Messages rd) else [].

(** The inputs of a peer. A granted vote must have been sent to it. *)
Inductive rn_input (E : Env) (net : list Message) (rn : RawNode) : RawNode -> Prop :=
| in_Step m err rn' : r_Term (rn_raft rn) < MaxUint64 -> msg_ok m ->
    (vote_granted m -> m ∈ net /\ m_To m = r_id (rn_raft rn)) ->
    on_raft (Step E m) rn = Ret (err, rn') -> rn_input E net rn rn'
| in_Tick rn' : r_Term (rn_raft rn) < MaxUint64 -> RawNode_Tick E rn = Ret rn' -> rn_input E net rn rn'
| in_ApplyConfChange cc cs rn' : RawNode_ApplyConfChange E cc rn = Ret (cs, rn') -> rn_input E net rn rn'
| in_TestingStepDown err rn' : RawNode_TestingStepDown E rn = Ret (err, rn') -> rn_input E net rn rn'.

Definition new_win (r r' : raft) : list win :=
  if bool_decide (r_state r' = StateLeader) && negb (bool_decide (r_state r = StateLeader))
  then [mkWin (r_id r') (r_Term r') (Voters (r_config r))] else [].

(** A node has started with the hard state on its disk. *)
Definition started (i : PeerID) (disk : HardState) (E : Env) (rn : RawNode) : Prop :=
  exists config storage cs, c_ID config = i /\ c_Storage config = Some storage /\
    st_InitialState storage = Ret (inr (disk, cs)) /\ NewRawNode E config = Ret rn.

Inductive cluster_step (c : cluster) : cluster -> Prop :=
| cs_input i n rn' : c_nodes c !! i = Some n -> rn_input (n_env n) (c_net c) (n_rn n) rn' ->
    cluster_step c (mkCluster (<[i := n <| n_rn := rn' |>]> (c_nodes c)) (c_net c)
                      (c_wins c ++ new_win (rn_raft (n_rn n)) (rn_raft rn')))
| cs_Ready i n rd rn' : c_nodes c !! i = Some n -> RawNode_Ready (n_env n) (n_rn n) = Ret (rd, rn') ->
    let async := rn_asyncStorageWrites rn' in
    cluster_step c (mkCluster
      (<[i := n <| n_rn := rn' |> <| n_writes := n_writes n ++ ready_writes async rd |>]> (c_nodes c))
      (c_net c ++ ready_sends async rd) (c_wins c))
| cs_persist i n hs ms ws : c_nodes c !! i = Some n -> n_writes n = (hs, ms) :: ws ->
    cluster_step c (mkCluster
      (<[i := n <| n_disk := save (n_disk n) hs |> <| n_writes := ws |> <| n_outbox := n_outbox n ++ ms |>]> (c_nodes c))
      (c_net c) (c_wins c))
| cs_send i n m ms : c_nodes c !! i = Some n -> n_outbox n = m :: ms ->
    cluster_step c (mkCluster (<[i := n <| n_outbox := ms |>]> (c_nodes c)) (c_net c ++ [m]) (c_wins c))
(** An iteration of the loop of [Advance], which the application calls when the
    writes are durable. *)
| cs_Advance i n m ms err r' : c_nodes c !! i = Some n -> n_writes n = [] ->
    rn_stepsOnAdvance (n_rn n) = m :: ms -> 0 <= m_Term m < MaxUint64 -> r_Term (rn_raft (n_rn n)) < MaxUint64 ->
    Step (n_env n) m (rn_raft (n_rn n)) = Ret (err, r') ->
    cluster_step c (mkCluster
      (<[i := n <| n_rn := n_rn n <| rn_raft := r' |> <| rn_stepsOnAdvance := ms |> |>]> (c_nodes c))
      (c_net c ++ [m]) (c_wins c ++ new_win (rn_raft (n_rn n)) r'))
| cs_restart i n E rn' : c_nodes c !! i = Some n -> started i (n_disk n) E rn' ->
    cluster_step c (mkCluster (<[i := mkNode E rn' (n_disk n) [] []]> (c_nodes c)) (c_net c) (c_wins c)).

(** A hard state a peer can start with. *)
Definition hs_ok (hs : HardState) : Prop := 0 <= hs_Term hs /\ (hs_LeadEpoch hs <> 0 -> hs_Lead hs <> None_ID).

Definition cluster_init (c : cluster) : Prop :=
  c_net c = [] /\ c_wins c = [] /\
  forall i n, c_nodes c !! i = Some n ->
    n_writes n = [] /\ n_outbox n = [] /\ hs_ok (n_disk n) /\ started i (n_disk n) (n_env n) (n_rn n).

(** ** Votes and hard states *)

(** A vote is recorded by a hard state, or by one of a later term. *)
Definition backed (hs : HardState) (m : Message) : Prop :=
  vote_granted m -> m_Term m <> 0 /\ m_To m <> None_ID /\ m_Term m <= hs_Term hs /\
    (m_Term m = hs_Term hs -> hs_Vote hs = m_To m).

Definition hs_le (h h' : HardState) : Prop :=
  hs_Term h <= hs_Term h' /\ (hs_Term h' = hs_Term h -> hs_Vote h <> None_ID -> hs_Vote h' = hs_Vote h).

(** The same term and vote. *)
Definition same_vote (h h' : HardState) : Prop := hs_Term h' = hs_Term h /\ hs_Vote h' = hs_Vote h.

Lemma backed_mono h h' m : hs_le h h' -> backed h m -> backed h' m.
Proof.
  intros [HT HV] Hb Hg. destruct (Hb Hg) as (?&?&?&Hv). split_and!; [done|done|lia|].
  intros Heq. rewrite HV, Hv by (lia || rewrite ?Hv; lia || done). done.
Qed.

Lemma same_vote_le h h' : same_vote h h' -> hs_le h h'.
Proof. intros [HT HV]. split; [lia|]. by rewrite HV. Qed.

Lemma hs_le_trans h1 h2 h3 : hs_le h1 h2 -> hs_le h2 h3 -> hs_le h1 h3.
Proof.
  intros [T1 V1] [T2 V2]. split; [lia|]. intros HT Hv.
  rewrite V2; [by apply V1; [lia|]|lia|]. by rewrite V1 by (lia || done).
Qed.

Lemma not_granted_backed h m : ~ vote_granted m -> backed h m.
Proof. done. Qed.

Lemma evolves_hs_le r r' : evolves r r' -> hs_le (raft_hardState r) (raft_hardState r').
Proof. intros [_ HT HV _ _ _]. by split. Qed.

(** The writes lead from the hard state on disk to the last one handed out, and the
    messages after each write are backed by it. *)
Fixpoint writes_ok (disk : HardState) (ws : list (HardState * list Message)) (last : HardState) : Prop :=
  match ws with
  | [] => same_vote disk last
  | (hs, ms) :: ws =>
    let disk' := save disk hs in
    hs_le disk disk' /\ hs_ok disk' /\ Forall (backed disk') ms /\ writes_ok disk' ws last
  end.

Lemma writes_ok_le disk ws last : writes_ok disk ws last -> hs_le disk last.
Proof.
  revert disk. induction ws as [|[hs ms] ws IH]; cbn; intros disk H; [by apply same_vote_le|].
  destruct H as (H1&_&_&H2). eapply hs_le_trans; [exact H1|]. by apply IH.
Qed.

Lemma writes_ok_backed disk ws last m : writes_ok disk ws last -> m ∈ concat ws.*2 -> backed last m.
Proof.
  revert disk. induction ws as [|[hs ms] ws IH]; cbn; intros disk H Hm; [by apply elem_of_nil in Hm|].
  destruct H as (_&_&H1&H2). apply elem_of_app in Hm as [Hm|Hm]; [|by eapply IH].
  rewrite Forall_forall in H1. eapply backed_mono; [by eapply writes_ok_le|by apply H1].
Qed.

Lemma writes_ok_snoc disk ws last hs ms last' :
  writes_ok disk ws last -> same_vote (save last hs) last' -> hs_le last last' ->
  (IsEmptyHardState hs = false -> hs_ok hs) -> hs_ok disk -> Forall (backed last') ms ->
  writes_ok disk (ws ++ [(hs, ms)]) last'.
Proof.
  revert disk. induction ws as [|[hs1 ms1] ws IH]; cbn; intros disk H Hs Hle Hok Hd Hms.
  - assert (Hsave : same_vote (save disk hs) last').
    { unfold save in *. destruct (IsEmptyHardState hs); [|done]. destruct H, Hs. split; congruence. }
    assert (Hle' : hs_le disk (save disk hs)).
    { eapply hs_le_trans; [by apply same_vote_le|]. eapply hs_le_trans; [exact Hle|].
      apply same_vote_le. destruct Hsave. split; congruence. }
    split_and!; [done| | |done].
    + unfold save. destruct (IsEmptyHardState hs) eqn:Eh; [done|by apply Hok].
    + eapply Forall_impl; [exact Hms|]. intros m. apply backed_mono. apply same_vote_le. destruct Hsave. split; congruence.
  - destruct H as (H1&H2&H3&H4). split_and!; [done..|]. by apply IH.
Qed.

(** ** The invariant of a node *)

(** Messages of the node that have not left it. *)
Definition pending (n : node) (m : Message) : Prop :=
  m ∈ n_outbox n \/ m ∈ concat (n_writes n).*2 \/ m ∈ rn_stepsOnAdvance (n_rn n) \/
  m ∈ r_msgsAfterAppend (rn_raft (n_rn n)).

Definition sent_by (i : PeerID) (net : list Message) (m : Message) : Prop := m ∈ net /\ m_From m = i.

Definition one_vote (P : Message -> Prop) : Prop :=
  forall m1 m2, P m1 -> P m2 -> vote_granted m1 -> vote_granted m2 -> m_Term m1 = m_Term m2 -> m_To m1 = m_To m2.

Record node_inv (net : list Message) (i : PeerID) (n : node) : Prop := {
  ni_id : r_id (rn_raft (n_rn n)) = i;
  ni_raft : raft_inv (rn_raft (n_rn n));
  ni_disk : hs_ok (n_disk n);
  ni_msgs : Forall (fun m => ~ vote_granted m /\ m_Type m <> MsgStorageAppend) (r_msgs (rn_raft (n_rn n)));
  ni_after : Forall (fun m => is_after_append (m_Type m) = true) (r_msgsAfterAppend (rn_raft (n_rn n)));
  ni_steps : Forall (fun m => leader_msg (m_Type m) = false /\ m_Type m <> MsgVote /\ (vote_granted m -> m_To m = i))
    (rn_stepsOnAdvance (n_rn n));
  ni_writes : writes_ok (n_disk n) (n_writes n) (rn_prevHardSt (n_rn n));
  ni_last : hs_le (rn_prevHardSt (n_rn n)) (raft_hardState (rn_raft (n_rn n)));
  ni_sent_backed : forall m, m ∈ n_outbox n \/ sent_by i net m -> backed (n_disk n) m;
  ni_steps_backed : Forall (backed (rn_prevHardSt (n_rn n))) (rn_stepsOnAdvance (n_rn n));
  ni_after_backed : Forall (backed (raft_hardState (rn_raft (n_rn n)))) (r_msgsAfterAppend (rn_raft (n_rn n)));
  ni_from : forall m, pending n m -> vote_granted m -> m_From m = i;
  ni_once : one_vote (fun m => sent_by i net m \/ pending n m)
}.

(** Every vote of the node is recorded by its current hard state. *)
Lemma node_votes_backed net i n m :
  node_inv net i n -> sent_by i net m \/ pending n m -> backed (raft_hardState (rn_raft (n_rn n))) m.
Proof.
  intros [] Hm. pose proof (writes_ok_le _ _ _ ni_writes0) as Hle.
  assert (Hdisk : backed (n_disk n) m -> backed (raft_hardState (rn_raft (n_rn n))) m).
  { apply backed_mono. by eapply hs_le_trans. }
  rewrite Forall_forall in ni_steps_backed0, ni_after_backed0.
  destruct Hm as [Hm|[Hm|[Hm|[Hm|Hm]]]]; [auto|auto| | |auto].
  - eapply backed_mono; [exact ni_last0|]. by eapply writes_ok_backed.
  - eapply backed_mono; [exact ni_last0|]. auto.
Qed.

Lemma one_vote_sub (P Q : Message -> Prop) : (forall m, Q m -> vote_granted m -> P m) -> one_vote P -> one_vote Q.
Proof. intros HPQ HP m1 m2 H1 H2 G1 G2. apply HP; auto. Qed.

(** What other nodes send does not matter. *)
Lemma node_inv_net net ms i n :
  (forall m, m ∈ ms -> vote_granted m -> m_From m <> i) -> node_inv net i n -> node_inv (net ++ ms) i n.
Proof.
  intros Hms [].
  assert (Hs : forall m, sent_by i (net ++ ms) m -> vote_granted m -> sent_by i net m).
  { intros m [[Hm|Hm]%elem_of_app Hi] Hg; [done|]. by destruct (Hms m Hm Hg). }
  split; try done.
  - intros m [Hm|Hm] Hg; [by apply ni_sent_backed0; [left|]|]. apply ni_sent_backed0; auto.
  - eapply one_vote_sub; [|exact ni_once0]. cbn. intros m [Hm|Hm] Hg; auto.
Qed.

(** The peer handles an input. *)
Lemma node_inv_evolves net i n r' :
  node_inv net i n -> raft_inv r' -> evolves (rn_raft (n_rn n)) r' ->
  node_inv net i (n <| n_rn := n_rn n <| rn_raft := r' |> |>).
Proof.
  intros Hn Hr' Hev. pose proof (fun m => node_votes_backed net i n m Hn) as Hback. set (r := rn_raft (n_rn n)) in *.
  pose proof (evolves_hs_le _ _ Hev) as Hle. destruct Hev as [Hid HT HV _ (sent&Hsent&Hsok) (held&Hheld&Hhok&Hone)].
  destruct Hn. fold r in ni_raft0, ni_msgs0, ni_after0, ni_last0, ni_after_backed0, ni_id0. rewrite Forall_forall in Hhok, Hsok.
  assert (Hheld_backed : forall m, m ∈ held -> backed (raft_hardState r') m).
  { intros m Hm Hg. destruct (Hhok m Hm) as (_&_&Ht&Hv). destruct (Hv Hg) as (_&?&?&?&_).
    destruct Hg as [Hty _]. specialize (Ht ltac:(by rewrite Hty)). split_and!; [done|done|cbn; lia|done]. }
  assert (Hpend : forall m, pending (n <| n_rn := n_rn n <| rn_raft := r' |> |>) m -> pending n m \/ m ∈ held).
  { unfold pending. cbn. rewrite Hheld. intros m. rewrite elem_of_app. fold r. tauto. }
  split; cbn; try done; try (rewrite ?Hid; congruence).
  - rewrite Hsent. apply Forall_app. split; [done|]. apply Forall_forall. intros m Hm.
    destruct (Hsok m Hm) as (Ha&?&_). split; [|done]. intros [Hty _]. by rewrite Hty in Ha.
  - rewrite Hheld. apply Forall_app. split; [done|]. apply Forall_forall. intros m Hm. by apply (Hhok m Hm).
  - by eapply hs_le_trans.
  - rewrite Hheld. apply Forall_app. split; [|by apply Forall_forall].
    eapply Forall_impl; [exact ni_after_backed0|]. intros m. by apply backed_mono.
  - intros m Hm Hg. apply Hpend in Hm as [Hm|Hm]; [by apply ni_from0|].
    destruct (Hhok m Hm) as (_&_&_&Hv). destruct (Hv Hg). congruence.
  - assert (Hx : forall m1 m2, sent_by i net m1 \/ pending n m1 -> m2 ∈ held -> vote_granted m1 -> vote_granted m2 ->
      m_Term m1 = m_Term m2 -> m_To m1 = m_To m2).
    { intros m1 m2 H1 H2 G1 G2 Heq. destruct (Hback m1 H1 G1) as (_&?&Hle1&Hv1). cbn in Hle1, Hv1.
      destruct (Hhok m2 H2) as (_&_&Ht&Hv). destruct (Hv G2) as (_&_&_&_&Hold).
      destruct G2 as [Hty _]. specialize (Ht ltac:(by rewrite Hty)).
      rewrite Hold; [by rewrite Hv1 by lia|lia|]. by rewrite Hv1 by lia. }
    intros m1 m2 H1 H2 G1 G2 Heq.
    assert (H1' : (sent_by i net m1 \/ pending n m1) \/ m1 ∈ held) by (destruct H1 as [|H1%Hpend]; tauto).
    assert (H2' : (sent_by i net m2 \/ pending n m2) \/ m2 ∈ held) by (destruct H2 as [|H2%Hpend]; tauto).
    destruct H1' as [H1'|H1'], H2' as [H2'|H2'].
    + by apply ni_once0.
    + by apply Hx.
    + symmetry. by apply Hx.
    + by apply Hone.
Qed.

(** The steps of [Advance] that are votes come from the messages held back. *)
Lemma steps_of_votes r rd steps m :
  steps_of r rd = Ret steps -> m ∈ steps ->
  m ∈ r_msgsAfterAppend r /\ m_To m = r_id r \/
  ~ vote_granted m /\ leader_msg (m_Type m) = false /\ m_Type m <> MsgVote.
Proof.
  unfold steps_of. destruct (append_resp_ret r rd) as (resp & Hresp & Hty & _). rewrite Hresp. cbn [obind].
  intros Hs Hm. assert (Hm' : m ∈ filter (fun m => m_To m = r_id r) (r_msgsAfterAppend r) \/ m = resp \/
    m = newStorageApplyRespMsg r (rd_CommittedEntries rd)).
  { destruct (needStorageAppendRespMsg rd), (needStorageApplyRespMsg rd); cbn in Hs; injection Hs as <-;
      repeat first [rewrite elem_of_app in Hm|rewrite elem_of_cons in Hm|rewrite elem_of_nil in Hm]; tauto. }
  destruct Hm' as [[Hto Hm']%list_elem_of_filter|[->| ->]]; [by left|right..].
  - rewrite Hty. split_and!; try done. intros [Ht _]. by rewrite Ht in Hty.
  - split_and!; try done. by intros [].
Qed.

(** What leaves a node with a [Ready]: no vote at once, and what follows the write
    are messages that were held back, apart from others that are not votes. *)
Lemma ready_release net i n rd rn' :
  node_inv net i n -> RawNode_Ready (n_env n) (n_rn n) = Ret (rd, rn') ->
  (forall m, m ∈ ready_sends (rn_asyncStorageWrites rn') rd -> ~ vote_granted m) /\
  (ready_writes (rn_asyncStorageWrites rn') rd = [] /\ rd_HardState rd = emptyState \/
   exists ms, ready_writes (rn_asyncStorageWrites rn') rd = [(rd_HardState rd, ms)] /\
     forall m, m ∈ ms -> vote_granted m -> m ∈ r_msgsAfterAppend (rn_raft (n_rn n))).
Proof.
  intros Hn Hrd. apply Ready_inv in Hrd as (ms & l & steps & Hm & Hover & _ & -> & _). cbn [rn_asyncStorageWrites].
  pose proof (ni_msgs _ _ _ Hn) as Hmsgs. rewrite Forall_forall in Hmsgs.
  unfold handed_over in Hover. unfold ready_writes, ready_sends. rewrite Hm. destruct (rn_asyncStorageWrites (n_rn n)).
  - destruct Hover as (append & apply & -> & Happ & Hap).
    assert (H1 : filter (fun m => m_Type m = MsgStorageAppend) (r_msgs (rn_raft (n_rn n))) = []).
    { apply elem_of_nil_inv. intros m [Ht Hin]%list_elem_of_filter. by destruct (Hmsgs m Hin). }
    assert (Hap' : forall m, m ∈ apply -> m_Type m = MsgStorageApply).
    { destruct Hap as [[_ ->]|(_ & m & -> & Ht & _)]; [by intros m ?%elem_of_nil|by intros ? ->%list_elem_of_singleton]. }
    assert (H2 : filter (fun m => m_Type m = MsgStorageAppend) apply = []).
    { apply elem_of_nil_inv. intros m [Ht Hin]%list_elem_of_filter. rewrite Hap' in Ht by done. done. }
    assert (Happ' : forall m, m ∈ append -> m_Type m = MsgStorageAppend).
    { destruct Happ as [[_ ->]|(_ & m & ? & -> & Ht & _)]; [by intros m ?%elem_of_nil|by intros ? ->%list_elem_of_singleton]. }
    split.
    + intros m [Ht Hin]%list_elem_of_filter Hg. rewrite !elem_of_app in Hin.
      destruct Hin as [Hin|[Hin|Hin]]; [by destruct (Hmsgs m Hin)|by destruct Ht; apply Happ'|].
      destruct Hg as [Hg _]. rewrite Hap' in Hg by done. done.
    + rewrite !filter_app, H1, H2, app_nil_r. cbn [app].
      destruct Happ as [[Hneed ->]|(_ & m & resps & -> & Ht & Hhs & _ & Hr & Hresps)]; [left|right].
      * split; [done|]. unfold needStorageAppendMsg in Hneed. bool_to_prop.
        by apply bool_decide_eq_true in H4.
      * exists (m_Responses m). rewrite filter_cons_True, filter_nil by done. cbn. rewrite Hhs. split; [done|].
        intros x Hx Hg. rewrite Hr in Hx. apply elem_of_app in Hx as [Hx|Hx]; [done|].
        rewrite Forall_forall in Hresps. destruct Hg as [Hg _]. by rewrite Hresps in Hg.
  - split; [by intros m ?%elem_of_nil|right]. exists (r_msgs (rn_raft (n_rn n)) ++ ms). split; [done|].
    intros m [Hin|Hin]%elem_of_app Hg; [by destruct (Hmsgs m Hin)|]. rewrite Hover in Hin.
    by apply list_elem_of_filter in Hin as [_ ?].
Qed.

(** The hard state handed out last has the term and vote of the peer. *)
Lemma ready_same_vote prev hs : hs_le prev hs -> 0 <= hs_Term prev ->
  let out := if isHardStateEqual hs prev then emptyState else hs in same_vote (save prev out) hs.
Proof.
  intros [HT HV] H0. cbn. unfold isHardStateEqual, save, IsEmptyHardState.
  destruct (bool_decide_reflect (hs = prev)) as [->|]; [done|].
  destruct (bool_decide_reflect (hs = mkHardState 0 0 0 0 0)) as [->|]; [|done]. cbn in *.
  split; cbn; [lia|]. destruct (decide (hs_Vote prev = None_ID)) as [->|Hv]; [done|]. apply HV; [lia|done].
Qed.

Lemma node_inv_Ready net i n rd rn' :
  node_inv net i n -> RawNode_Ready (n_env n) (n_rn n) = Ret (rd, rn') ->
  let async := rn_asyncStorageWrites rn' in
  node_inv net i (n <| n_rn := rn' |> <| n_writes := n_writes n ++ ready_writes async rd |>).
Proof.
  intros Hn Hrd async. pose proof (ready_release _ _ _ _ _ Hn Hrd) as [_ Hw]. fold async in Hw.
  apply Ready_inv in Hrd as (ms & l & steps & _ & _ & Hhs & Hrn & Hl & Hsteps).
  clearbody async. subst rn'. destruct Hn. set (r := rn_raft (n_rn n)) in *.
  assert (Hhs' : raft_hardState (r <| r_msgs := [] |> <| r_msgsAfterAppend := [] |> <| r_raftLog := l |>) = raft_hardState r).
  { unfold raft_hardState. cbn. by rewrite Hl. }
  pose proof (writes_ok_le _ _ _ ni_writes0) as Hle0.
  pose proof (ready_same_vote _ _ ni_last0 ltac:(destruct ni_disk0, Hle0; lia)) as Hsame. cbn in Hsame. rewrite <- Hhs in Hsame.
  assert (Hrle : hs_le (raft_hardState r) (save (rn_prevHardSt (n_rn n)) (rd_HardState rd))).
  { apply same_vote_le. destruct Hsame. split; congruence. }
  assert (Hback : forall m, m ∈ r_msgsAfterAppend r -> backed (save (rn_prevHardSt (n_rn n)) (rd_HardState rd)) m).
  { rewrite Forall_forall in ni_after_backed0. intros m Hm. eapply backed_mono; [exact Hrle|auto]. }
  assert (Hws : writes_ok (n_disk n) (n_writes n ++ ready_writes async rd) (save (rn_prevHardSt (n_rn n)) (rd_HardState rd))).
  { destruct Hw as [[-> Hempty]|(ws & -> & Hws)].
    - rewrite app_nil_r, Hempty. done.
    - eapply writes_ok_snoc; [done|done| | |done|].
      + by eapply hs_le_trans.
      + intros _. rewrite Hhs. destruct (isHardStateEqual _ _); [done|]. split; [apply ni_raft0|apply ni_raft0].
      + apply Forall_forall. intros m Hm Hg. by apply Hback; [apply Hws|]. }
  assert (Hst : forall m, m ∈ steps -> m ∈ rn_stepsOnAdvance (n_rn n) \/ m ∈ r_msgsAfterAppend r /\ m_To m = i \/
    ~ vote_granted m /\ leader_msg (m_Type m) = false /\ m_Type m <> MsgVote).
  { destruct (rn_asyncStorageWrites (n_rn n)); [subst; auto|]. destruct Hsteps as [_ Hs]. intros m Hm. right.
    rewrite <- ni_id0. by eapply steps_of_votes. }
  assert (Hpend : forall m, pending (n <| n_rn := mkRawNode (r <| r_msgs := [] |> <| r_msgsAfterAppend := [] |> <| r_raftLog := l |>)
      (rn_asyncStorageWrites (n_rn n)) (default (rn_prevSoftSt (n_rn n)) (rd_SoftState rd))
      (save (rn_prevHardSt (n_rn n)) (rd_HardState rd)) steps |> <| n_writes := n_writes n ++ ready_writes async rd |>) m ->
    vote_granted m -> pending n m).
  { unfold pending. cbn. intros m Hm Hg. rewrite fmap_app, concat_app, elem_of_app in Hm. fold r.
    destruct Hm as [Hm|[[Hm|Hm]|[Hm|Hm]]]; [auto|auto| | |by apply elem_of_nil in Hm].
    - destruct Hw as [[Hw _]|(ws & Hw & Hws')]; rewrite Hw in Hm; cbn in Hm; [by apply elem_of_nil in Hm|].
      rewrite app_nil_r in Hm. auto.
    - destruct (Hst m Hm) as [|[|[? _]]]; tauto. }
  split; cbn; try done.
  - by destruct ni_raft0.
  - apply Forall_forall. intros m Hm. rewrite Forall_forall in ni_steps0, ni_after0.
    destruct (Hst m Hm) as [?|[[Ha Hto]|(?&?&?)]]; [by apply ni_steps0| |done].
    specialize (ni_after0 m Ha). split_and!; [by destruct (m_Type m)..|done].
  - rewrite Hhs'. by apply same_vote_le.
  - apply Forall_forall. intros m Hm. rewrite Forall_forall in ni_steps_backed0.
    destruct (Hst m Hm) as [?|[[Ha _]|(?&_)]]; [|by apply Hback|done].
    eapply backed_mono; [eapply hs_le_trans; [exact ni_last0|exact Hrle]|auto].
  - intros m Hm Hg. apply ni_from0; [|done]. by apply Hpend.
  - eapply one_vote_sub; [|exact ni_once0]. cbn. intros m [Hm|Hm] Hg; [by left|right]. by apply Hpend.
Qed.

Lemma node_inv_persist net i n hs ms ws :
  node_inv net i n -> n_writes n = (hs, ms) :: ws ->
  node_inv net i (n <| n_disk := save (n_disk n) hs |> <| n_writes := ws |> <| n_outbox := n_outbox n ++ ms |>).
Proof.
  intros [] Hw. rewrite Hw in ni_writes0. cbn in ni_writes0. destruct ni_writes0 as (Hle&Hok&Hms&Hws).
  assert (Hpend : forall m, pending (n <| n_disk := save (n_disk n) hs |> <| n_writes := ws |> <| n_outbox := n_outbox n ++ ms |>) m ->
    pending n m).
  { unfold pending. cbn. rewrite Hw. cbn. intros m. rewrite !elem_of_app. tauto. }
  rewrite Forall_forall in Hms. split; cbn; try done.
  - intros m Hm. rewrite elem_of_app in Hm. assert (Hm' : m ∈ ms \/ m ∈ n_outbox n \/ sent_by i net m) by tauto.
    destruct Hm' as [|Hm']; [by apply Hms|]. eapply backed_mono; [exact Hle|]. by apply ni_sent_backed0.
  - intros m Hm. by apply ni_from0, Hpend.
  - eapply one_vote_sub; [|exact ni_once0]. cbn. intros m [Hm|Hm] _; [by left|right]. by apply Hpend.
Qed.

Lemma node_inv_send net i n m ms :
  node_inv net i n -> n_outbox n = m :: ms -> node_inv (net ++ [m]) i (n <| n_outbox := ms |>).
Proof.
  intros [] Hout.
  assert (Hsent : forall x, sent_by i (net ++ [m]) x -> sent_by i net x \/ x ∈ n_outbox n).
  { rewrite Hout. intros x [[Hx|Hx%list_elem_of_singleton]%elem_of_app Hi]; [left; by split|right; subst; left]. }
  assert (Hpend : forall x, pending (n <| n_outbox := ms |>) x -> pending n x).
  { unfold pending. cbn. rewrite Hout. intros x. rewrite elem_of_cons. tauto. }
  split; cbn; try done.
  - intros x [Hx|Hx]; apply ni_sent_backed0; [left; rewrite Hout; by right|]. apply Hsent in Hx. tauto.
  - intros x Hx. by apply ni_from0, Hpend.
  - eapply one_vote_sub; [|exact ni_once0]. cbn. intros x [Hx|Hx] _; [|auto].
    apply Hsent in Hx as [|Hx]; [auto|]. right. by left.
Qed.

(** A step of [Advance] counts as sent to the peer itself. *)
Lemma node_inv_own_step net i n m ms :
  node_inv net i n -> n_writes n = [] -> rn_stepsOnAdvance (n_rn n) = m :: ms ->
  node_inv (net ++ [m]) i (n <| n_rn := n_rn n <| rn_stepsOnAdvance := ms |> |>).
Proof.
  intros [] Hw Hs. rewrite Hw in ni_writes0. cbn in ni_writes0. rewrite Hs in ni_steps0, ni_steps_backed0.
  apply Forall_cons in ni_steps0 as [_ ?], ni_steps_backed0 as [Hm ?].
  assert (Hsent : forall x, sent_by i (net ++ [m]) x -> sent_by i net x \/ x = m).
  { intros x [[Hx|Hx%list_elem_of_singleton]%elem_of_app Hi]; [left; by split|by right]. }
  assert (Hpend : forall x, pending (n <| n_rn := n_rn n <| rn_stepsOnAdvance := ms |> |>) x -> pending n x).
  { unfold pending. cbn. rewrite Hs. intros x. rewrite elem_of_cons. tauto. }
  split; cbn; try done.
  - by rewrite Hw.
  - intros x [Hx|[Hx| ->]%Hsent]; [apply ni_sent_backed0; auto..|]. eapply backed_mono; [|exact Hm].
    apply same_vote_le. destruct ni_writes0. split; congruence.
  - intros x Hx. by apply ni_from0, Hpend.
  - eapply one_vote_sub; [|exact ni_once0]. cbn. intros x [Hx|Hx] _; [|auto].
    apply Hsent in Hx as [|Hx]; [auto|]. right. unfold pending. rewrite Hs. subst. right. right. left. by left.
Qed.

Lemma started_inv i disk E rn : started i disk E rn -> hs_ok disk ->
  r_id (rn_raft rn) = i /\ raft_inv (rn_raft rn) /\ r_state (rn_raft rn) = StateFollower /\
  r_msgs (rn_raft rn) = [] /\ r_msgsAfterAppend (rn_raft rn) = [] /\ rn_stepsOnAdvance rn = [] /\
  rn_prevHardSt rn = raft_hardState (rn_raft rn) /\ same_vote disk (rn_prevHardSt rn).
Proof.
  intros (config & storage & cs & Hid & Hst & Hinit & Hnew) [H0 He].
  unfold NewRawNode in Hnew. apply obind_Ret in Hnew as (r & Hr & Hnew). injection Hnew as <-. cbn.
  destruct (newRaft_loaded _ _ _ _ _ _ Hr Hst Hinit H0 He) as (Hi&Hinv&Hs&Hne&Hem&_&Hm&Hma).
  split_and!; try done; [congruence|]. destruct (IsEmptyHardState disk) eqn:Ed.
  - destruct (Hem eq_refl) as (HT&HV&_&_). apply bool_decide_eq_true in Ed. subst disk. by split.
  - by rewrite Hne.
Qed.

Lemma node_inv_start net i disk E rn :
  started i disk E rn -> hs_ok disk -> (forall m, sent_by i net m -> backed disk m) -> one_vote (sent_by i net) ->
  node_inv net i (mkNode E rn disk [] []).
Proof.
  intros Hst Hok Hback Honce. destruct (started_inv _ _ _ _ Hst Hok) as (?&?&_&Hm&Hma&Hs&Hprev&Hsame).
  assert (Hpend : forall m, ~ pending (mkNode E rn disk [] []) m).
  { intros m. unfold pending. cbn. rewrite Hs, Hma, !elem_of_nil. tauto. }
  split; cbn; try done.
  - by rewrite Hm.
  - by rewrite Hma.
  - by rewrite Hs.
  - rewrite Hprev. by apply same_vote_le.
  - intros m [Hx|?]; [by apply elem_of_nil in Hx|auto].
  - by rewrite Hs.
  - by rewrite Hma.
  - intros m Hp. by destruct (Hpend m).
  - eapply one_vote_sub; [|exact Honce]. cbn. intros m [?|Hp] _; [done|]. by destruct (Hpend m).
Qed.

(** ** The invariant of the cluster *)

Definition voted_for (net : list Message) (v candidate : PeerID) (term : Z) : Prop :=
  exists m, m ∈ net /\ vote_granted m /\ m_From m = v /\ m_To m = candidate /\ m_Term m = term.

(** The winner has the votes of a quorum. *)
Definition elected (net : list Message) (w : win) : Prop :=
  exists votes, JointConfig_VoteResult (w_Voters w) votes = VoteWon /\
    forall v, votes !! v = Some true -> voted_for net v (w_id w) (w_Term w).

(** Candidates have only counted votes sent to them, and leaders have won. *)
Record peer_inv (net : list Message) (wins : list win) (r : raft) : Prop := {
  pi_votes : r_state r = StateCandidate -> forall v, r_votes r !! v = Some true -> voted_for net v (r_id r) (r_Term r);
  pi_leader : r_state r = StateLeader -> exists w, w ∈ wins /\ w_id w = r_id r /\ w_Term w = r_Term r
}.

Record cluster_inv (c : cluster) : Prop := {
  ci_nodes : forall i n, c_nodes c !! i = Some n ->
    node_inv (c_net c) i n /\ peer_inv (c_net c) (c_wins c) (rn_raft (n_rn n));
  ci_net : forall m, m ∈ c_net c -> vote_granted m -> is_Some (c_nodes c !! m_From m);
  ci_wins : forall w, w ∈ c_wins c -> elected (c_net c) w
}.

Lemma voted_app net ms v candidate term : voted_for net v candidate term -> voted_for (net ++ ms) v candidate term.
Proof. intros (m & Hm & ?). exists m. rewrite elem_of_app. tauto. Qed.

Lemma elected_app net ms w : elected net w -> elected (net ++ ms) w.
Proof. intros (votes & Hw & Hv). exists votes. split; [done|]. intros v Hy. by apply voted_app, Hv. Qed.

Lemma peer_inv_app net ms wins ws r : peer_inv net wins r -> peer_inv (net ++ ms) (wins ++ ws) r.
Proof.
  intros [Hv Hl]. split.
  - intros Hs v Hy. by apply voted_app, Hv.
  - intros Hs. destruct (Hl Hs) as (w & ? & ?). exists w. rewrite elem_of_app. tauto.
Qed.

(** One node moves. *)
Lemma cluster_inv_update c i n n' ms ws :
  cluster_inv c -> c_nodes c !! i = Some n ->
  (forall m, m ∈ ms -> vote_granted m -> m_From m = i) ->
  node_inv (c_net c ++ ms) i n' -> peer_inv (c_net c ++ ms) (c_wins c ++ ws) (rn_raft (n_rn n')) ->
  (forall w, w ∈ ws -> elected (c_net c ++ ms) w) ->
  cluster_inv (mkCluster (<[i := n']> (c_nodes c)) (c_net c ++ ms) (c_wins c ++ ws)).
Proof.
  intros [Hn Hnet Hwins] Hi Hms Hn' Hp Hws. split; cbn.
  - intros j nj [[<- <-]|[Hne Hj]]%lookup_insert_Some; [done|]. destruct (Hn j nj Hj) as [Hnj Hpj].
    split; [|by apply peer_inv_app]. apply node_inv_net; [|done]. intros m Hm Hg. rewrite (Hms m Hm Hg). done.
  - intros m [Hm|Hm]%elem_of_app Hg.
    + apply lookup_insert_is_Some. destruct (decide (i = m_From m)); [by left|right]. split; [done|]. by apply Hnet.
    + rewrite (Hms m Hm Hg), lookup_insert_eq. done.
  - intros w [Hw|Hw]%elem_of_app; [by apply elected_app, Hwins|by apply Hws].
Qed.

Lemma net_Term c m : cluster_inv c -> m ∈ c_net c -> vote_granted m -> m_Term m <> 0.
Proof.
  intros [Hn Hnet _] Hm Hg. destruct (Hnet m Hm Hg) as [n Hi]. destruct (Hn _ _ Hi) as [Hnode _].
  by apply (ni_sent_backed _ _ _ Hnode m); [right|].
Qed.

(** A step of the peer counts at most a vote that was sent to it. *)
Definition election_step (net : list Message) (r r' : raft) : Prop :=
  steady r r' \/ exists m, counted m r r' /\ (vote_granted m -> m ∈ net /\ m_To m = r_id r).

Lemma peer_inv_step net wins r r' :
  (forall m, m ∈ net -> vote_granted m -> m_Term m <> 0) -> r_id r' = r_id r ->
  election_step net r r' -> peer_inv net wins r ->
  peer_inv net (wins ++ new_win r r') r' /\ (forall w, w ∈ new_win r r' -> elected net w).
Proof.
  intros Hnz Hid Hstep [Hv Hl].
  assert (Hp : exists id granted, polled id granted r r' /\
    (granted = true -> r_state r = StateCandidate -> voted_for net id (r_id r) (r_Term r))).
  { destruct Hstep as [Hs|(m & (Hty & Ht & Hp) & Hm)]; [exists 0, false; split; [by apply steady_polled|done]|].
    exists (m_From m), (negb (m_Reject m)). split; [done|]. intros Hr _. apply negb_true_iff in Hr.
    destruct (Hm (conj Hty Hr)) as [Hin Hto]. exists m. split_and!; try done.
    destruct Ht as [Ht|Ht]; [|done]. by destruct (Hnz m Hin (conj Hty Hr)). }
  destruct Hp as (id & granted & [Hpv Hpl] & Hid_voted).
  assert (Hyes : r_state r = StateCandidate -> forall v, r_votes r !! v = Some true \/ v = id /\ granted = true ->
    voted_for net v (r_id r) (r_Term r)).
  { intros Hs v [Hy|[-> Hg]]; [by apply Hv|by apply Hid_voted]. }
  unfold new_win. split; [split|].
  - intros Hs v Hy. destruct (Hpv Hs v Hy) as (Hs0 & HT & Hv'). rewrite HT, Hid. by apply Hyes.
  - intros Hs. destruct (Hpl Hs) as [HT [Hlead|_]].
    + destruct (Hl Hlead) as (w & Hw & Hwi & Hwt). exists w. rewrite elem_of_app. split_and!; [by left|congruence..].
    + rewrite (bool_decide_true (r_state r' = _)) by done. destruct (bool_decide_reflect (r_state r = StateLeader)) as [Hlead|].
      * destruct (Hl Hlead) as (w & Hw & Hwi & Hwt). exists w. rewrite elem_of_app. split_and!; [by left|congruence..].
      * eexists. rewrite elem_of_app. split; [right; by left|done].
  - destruct (bool_decide_reflect (r_state r' = StateLeader)) as [Hs|]; cbn; [|by intros w ?%elem_of_nil].
    destruct (bool_decide_reflect (r_state r = StateLeader)); cbn; [by intros w ?%elem_of_nil|].
    intros w ->%list_elem_of_singleton. destruct (Hpl Hs) as [HT [|(Hs0 & votes & Hwon & Hvotes)]]; [done|].
    exists votes. cbn. split; [done|]. intros v Hy. rewrite Hid, HT. by apply Hyes; [|apply Hvotes].
Qed.

Lemma rn_input_step E net rn rn' : rn_input E net rn rn' -> raft_inv (rn_raft rn) ->
  exists r', rn' = rn <| rn_raft := r' |> /\ raft_inv r' /\ evolves (rn_raft rn) r' /\ election_step net (rn_raft rn) r'.
Proof.
  assert (Hon : forall A (k : M A) x, on_raft k rn = Ret (x, rn') ->
    exists r', k (rn_raft rn) = Ret (x, r') /\ rn' = rn <| rn_raft := r' |>).
  { unfold on_raft. intros A k x ([y r'] & Hk & H)%obind_Ret. injection H as <- <-. by exists r'. }
  intros Hin Hinv. set (r := rn_raft rn) in *. destruct Hin as [m err rn' Hmax Hok Hm H|rn' Hmax H|cc cs rn' H|err rn' H].
  - apply Hon in H as (r' & Hs & ->). exists r'. destruct (keeps_Step E m Hok r Hinv Hmax _ _ Hs). split_and!; [done..|].
    destruct (Step_election E m r _ _ Hs) as [|Hc]; [by left|right; exists m; split; [exact Hc|exact Hm]].
  - unfold RawNode_Tick, on_raft_ in H. apply obind_Ret in H as ([u rn1] & H & Heq). injection Heq as ->.
    apply Hon in H as (r' & Hs & ->). exists r'. destruct (keeps_tick E r Hinv Hmax _ _ Hs). split_and!; [done..|].
    left. exact (steadies_tick E r _ _ Hs).
  - apply Hon in H as (r' & Hs & ->). exists r'. destruct (keeps_applyConfChange E _ r Hinv _ _ Hs). split_and!; [done..|].
    left. exact (steadies_applyConfChange E _ r _ _ Hs).
  - apply Hon in H as (r' & Hs & ->). exists r'. destruct (keeps_testingStepDown E r Hinv _ _ Hs). split_and!; [done..|].
    left. exact (steadies_testingStepDown E r _ _ Hs).
Qed.

Lemma cluster_inv_Advance c i n m ms err r' :
  cluster_inv c -> c_nodes c !! i = Some n -> n_writes n = [] -> rn_stepsOnAdvance (n_rn n) = m :: ms ->
  0 <= m_Term m < MaxUint64 -> r_Term (rn_raft (n_rn n)) < MaxUint64 ->
  Step (n_env n) m (rn_raft (n_rn n)) = Ret (err, r') ->
  cluster_inv (mkCluster
    (<[i := n <| n_rn := n_rn n <| rn_raft := r' |> <| rn_stepsOnAdvance := ms |> |>]> (c_nodes c))
    (c_net c ++ [m]) (c_wins c ++ new_win (rn_raft (n_rn n)) r')).
Proof.
  intros Hc Hi Hw Hs Hm Hmax Hstep. destruct (ci_nodes c Hc i n Hi) as [Hn Hp].
  pose proof (ni_steps _ _ _ Hn) as Hty. rewrite Hs in Hty. apply Forall_cons in Hty as [(Hlm & Hnv & Hto) _].
  assert (Hok : msg_ok m) by (split_and!; try lia; [by rewrite Hlm|by intros]).
  destruct (keeps_Step _ m Hok _ (ni_raft _ _ _ Hn) Hmax _ _ Hstep) as [Hr' Hev].
  assert (Hpm : pending n m) by (right; right; left; rewrite Hs; by left).
  assert (Hel : election_step (c_net c ++ [m]) (rn_raft (n_rn n)) r').
  { destruct (Step_election _ m _ _ _ Hstep) as [|Hcnt]; [by left|]. right. exists m. split; [exact Hcnt|].
    intros Hg. split; [rewrite elem_of_app; right; by left|]. rewrite (ni_id _ _ _ Hn). by apply Hto. }
  pose proof (node_inv_own_step _ _ _ _ _ Hn Hw Hs) as Hn1.
  pose proof (node_inv_evolves _ _ _ r' Hn1 Hr' Hev) as Hn2.
  destruct (peer_inv_step (c_net c ++ [m]) (c_wins c) (rn_raft (n_rn n)) r') as [Hp' Hwins]; [|by apply Hev|done| |].
  { intros x [Hx|Hx%list_elem_of_singleton]%elem_of_app Hg; [by eapply net_Term|subst x].
    by apply (node_votes_backed _ _ _ m Hn); [right|]. }
  { rewrite <- (app_nil_r (c_wins c)). by apply peer_inv_app. }
  eapply cluster_inv_update; [done|done| |exact Hn2|exact Hp'|exact Hwins].
  intros x ->%list_elem_of_singleton. by apply (ni_from _ _ _ Hn).
Qed.

Lemma cluster_step_inv c c' : cluster_inv c -> cluster_step c c' -> cluster_inv c'.
Proof.
  intros Hc Hstep. pose proof (fun m => net_Term c m Hc) as Hnz. pose proof (ci_nodes c Hc) as Hnodes.
  destruct Hstep as [i n rn' Hi Hin|i n rd rn' Hi Hrd async|i n hs ms ws Hi Hw|i n m ms Hi Ho
    |i n m ms err r' Hi Hw Hs Hm Hmax Hstep|i n E rn' Hi Hst]; destruct (Hnodes i n Hi) as [Hn Hp].
  - destruct (rn_input_step _ _ _ _ Hin (ni_raft _ _ _ Hn)) as (r' & -> & Hr' & Hev & Hel).
    destruct (peer_inv_step _ _ _ _ Hnz (ev_id _ _ Hev) Hel Hp) as [Hp' Hwins].
    rewrite <- (app_nil_r (c_net c)). eapply cluster_inv_update; [done|done|by intros m ?%elem_of_nil|..];
      rewrite ?app_nil_r; [by apply node_inv_evolves|done|done].
  - pose proof (ready_release _ _ _ _ _ Hn Hrd) as [Hno _]. fold async in Hno.
    rewrite <- (app_nil_r (c_wins c)). eapply cluster_inv_update; [done|done|by intros m ? ?%Hno|..].
    + apply node_inv_net; [by intros m ? ?%Hno|]. by apply node_inv_Ready.
    + apply peer_inv_app. apply Ready_inv in Hrd as (? & l & ? & _ & _ & _ & -> & _). cbn. by destruct Hp.
    + by intros w ?%elem_of_nil.
  - rewrite <- (app_nil_r (c_wins c)), <- (app_nil_r (c_net c)).
    eapply cluster_inv_update; [done|done|by intros m ?%elem_of_nil|..].
    + rewrite app_nil_r. by apply node_inv_persist.
    + by apply peer_inv_app.
    + by intros w ?%elem_of_nil.
  - rewrite <- (app_nil_r (c_wins c)). eapply cluster_inv_update; [done|done|..].
    + intros x ->%list_elem_of_singleton. apply (ni_from _ _ _ Hn). left. rewrite Ho. by left.
    + by apply node_inv_send.
    + by apply peer_inv_app.
    + by intros w ?%elem_of_nil.
  - by eapply cluster_inv_Advance.
  - rewrite <- (app_nil_r (c_wins c)), <- (app_nil_r (c_net c)).
    destruct (started_inv _ _ _ _ Hst (ni_disk _ _ _ Hn)) as (_&_&Hf&_).
    eapply cluster_inv_update; [done|done|by intros m ?%elem_of_nil|..].
    + rewrite app_nil_r. apply node_inv_start; [done|apply Hn| |].
      * intros m Hm. apply (ni_sent_backed _ _ _ Hn). by right.
      * eapply one_vote_sub; [|exact (ni_once _ _ _ Hn)]. cbn. tauto.
    + split; cbn; by rewrite Hf.
    + by intros w ?%elem_of_nil.
Qed.

Lemma cluster_init_inv c : cluster_init c -> cluster_inv c.
Proof.
  intros (Hnet & Hwins & Hn). split; rewrite ?Hnet, ?Hwins; try by intros m Hm%elem_of_nil.
  intros i n Hi. destruct (Hn i n Hi) as (Hw & Ho & Hok & Hst).
  assert (Hno : forall m, ~ sent_by i [] m) by (by intros m [?%elem_of_nil _]).
  destruct (started_inv _ _ _ _ Hst Hok) as (_&_&Hf&_). split; [|split; by rewrite Hf].
  destruct n as [E rn disk ws out]. cbn in *. subst ws out.
  apply node_inv_start; [done|done|by intros m ?%Hno|]. by intros m1 m2 ?%Hno.
Qed.

Lemma cluster_reachable_inv c c' : cluster_init c -> rtc cluster_step c c' -> cluster_inv c'.
Proof.
  intros Hinit%cluster_init_inv Hsteps. revert Hinit. induction Hsteps as [|c1 c2 c3 H12 _ IH]; [done|].
  intros H1. by apply IH, (cluster_step_inv c1).
Qed.

(** Two groups of voters of which one is the other, or follows it by one membership
    change. *)
Definition adjacent (V1 V2 : JointConfig) : Prop :=
  V1 = V2 /\ ids (fst V1) <> ∅ \/
  exists chg cfg' trk', conf_ok (ch_Config chg) (ch_ProgressMap chg) /\
    ids (incoming (Voters (ch_Config chg))) <> ∅ /\ conf_change chg cfg' trk' /\
    (V1 = Voters (ch_Config chg) /\ V2 = Voters cfg' \/ V2 = Voters (ch_Config chg) /\ V1 = Voters cfg').

Lemma adjacent_overlap V1 V2 votes1 votes2 : adjacent V1 V2 ->
  JointConfig_VoteResult V1 votes1 = VoteWon -> JointConfig_VoteResult V2 votes2 = VoteWon ->
  exists v, votes1 !! v = Some true /\ votes2 !! v = Some true.
Proof.
  intros [[<- Hne]|(chg & cfg' & trk' & Hok & Hne & Hch & HV)] H1 H2.
  - apply JointConfig_won_iff in H1 as [H1 _], H2 as [H2 _].
    destruct (quorum_intersect (fst V1) (voted votes1 true) (voted votes2 true) Hne H1 H2) as (v & _ & ?). by exists v.
  - destruct HV as [[-> ->]|[-> ->]].
    + by apply (conf_change_quorums chg cfg' trk').
    + destruct (conf_change_quorums chg cfg' trk' votes2 votes1 Hok Hne Hch) as [_ Hx].
      destruct (Hx H2 H1) as (v & ? & ?). by exists v.
Qed.

(** C5. A peer votes once per term, crashes included: of all the granted votes that
    ever left a peer, those of the same term were given to the same candidate, and
    the hard state on its disk records the vote or is of a later term. *)
Theorem votes_durable c c' :
  cluster_init c -> rtc cluster_step c c' ->
  forall m, m ∈ c_net c' -> vote_granted m -> exists n, c_nodes c' !! m_From m = Some n /\
    (m_Term m <= hs_Term (n_disk n) /\ (m_Term m = hs_Term (n_disk n) -> hs_Vote (n_disk n) = m_To m)) /\
    forall m', m' ∈ c_net c' -> vote_granted m' -> m_From m' = m_From m -> m_Term m' = m_Term m -> m_To m' = m_To m.
Proof.
  intros Hinit Hsteps m Hm Hg. destruct (cluster_reachable_inv c c' Hinit Hsteps) as [Hn Hnet _].
  destruct (Hnet m Hm Hg) as [n Hi]. destruct (Hn _ _ Hi) as [Hnode _]. exists n. split; [done|]. split.
  - by destruct (ni_sent_backed _ _ _ Hnode m) as (_&_&?&?); [right| |].
  - intros m' Hm' Hg' Hf Ht. by apply (ni_once _ _ _ Hnode); [left; split|left; split|..].
Qed.

(** C1. Election safety: two elections won at the same term were won by the same peer,
    if they were held among the same voters or voters one membership change apart;
    and every leader has won the election of its term. *)
Theorem election_safety c c' :
  cluster_init c -> rtc cluster_step c c' ->
  (forall w1 w2, w1 ∈ c_wins c' -> w2 ∈ c_wins c' -> w_Term w1 = w_Term w2 ->
    adjacent (w_Voters w1) (w_Voters w2) -> w_id w1 = w_id w2) /\
  (forall i n, c_nodes c' !! i = Some n -> r_state (rn_raft (n_rn n)) = StateLeader ->
    exists w, w ∈ c_wins c' /\ w_id w = i /\ w_Term w = r_Term (rn_raft (n_rn n))).
Proof.
  intros Hinit Hsteps. destruct (cluster_reachable_inv c c' Hinit Hsteps) as [Hn Hnet Hwins]. split.
  - intros w1 w2 H1 H2 HT Hadj. destruct (Hwins w1 H1) as (votes1 & Hw1 & Hv1), (Hwins w2 H2) as (votes2 & Hw2 & Hv2).
    destruct (adjacent_overlap _ _ _ _ Hadj Hw1 Hw2) as (v & Hy1 & Hy2).
    destruct (Hv1 v Hy1) as (m1 & Hm1 & G1 & F1 & T1 & E1), (Hv2 v Hy2) as (m2 & Hm2 & G2 & F2 & T2 & E2).
    destruct (Hnet m1 Hm1 G1) as [n Hi]. destruct (Hn _ _ Hi) as [Hnode _]. rewrite <- T1, <- T2.
    apply (ni_once _ _ _ Hnode); [by left|left; by split; [|congruence]|done|done|congruence].
  - intros i n Hi Hs. destruct (Hn i n Hi) as [Hnode Hp]. rewrite <- (ni_id _ _ _ Hnode).
    by apply (pi_leader _ _ _ Hp).
Qed.

(** ** The methods of [RawNode] as steps *)

(** Messages that carry no vote may be stepped at any time; [RawNode.Step] rejects some
    before they reach the peer. *)
Lemma RawNode_Step_input E net m rn err rn' :
  r_Term (rn_raft rn) < MaxUint64 -> msg_ok m -> (vote_granted m -> m ∈ net /\ m_To m = r_id (rn_raft rn)) ->
  RawNode_Step E m rn = Ret (err, rn') -> rn' = rn \/ rn_input E net rn rn'.
Proof.
  intros HT Hm Hv. unfold RawNode_Step. destruct (_ && _); [intros [= _ <-]; by left|].
  destruct (_ && _); [intros [= _ <-]; by left|]. intros H. right. by eapply in_Step.
Qed.

(** [Advance] is a sequence of steps of the cluster. *)
Lemma Advance_steps c i n rn' :
  c_nodes c !! i = Some n -> n_writes n = [] -> RawNode_Advance (n_env n) (n_rn n) = Ret rn' ->
  Forall (fun m => 0 <= m_Term m < MaxUint64) (rn_stepsOnAdvance (n_rn n)) ->
  (forall k r, for_each (fun m => let* _ := Step (n_env n) m in mret tt) (take k (rn_stepsOnAdvance (n_rn n)))
     (rn_raft (n_rn n)) = Ret (tt, r) -> r_Term r < MaxUint64) ->
  exists c', rtc cluster_step c c' /\ c_nodes c' !! i = Some (n <| n_rn := rn' |>).
Proof.
  intros Hi Hw Hadv Hms Hmax. unfold RawNode_Advance in Hadv. destruct (rn_asyncStorageWrites (n_rn n)) eqn:Ea; [done|].
  apply obind_Ret in Hadv as (rn1 & Hrun & Heq). injection Heq as <-.
  unfold on_raft_, on_raft in Hrun. apply obind_Ret in Hrun as ([? rn2] & Hrun & Heq). injection Heq as <-.
  apply obind_Ret in Hrun as ([[] r2] & Hrun & Heq). injection Heq as _ <-.
  remember (rn_stepsOnAdvance (n_rn n)) as ms eqn:Hs. revert c n Hi Hw Ea Hrun Hs Hmax.
  induction ms as [|m ms IH]; cbn; intros c n Hi Hw Ea Hrun Hs Hmax.
  - injection Hrun as <-. exists c. split; [done|]. rewrite Hi. f_equal.
    destruct n as [E0 rn0 d w o]. destruct rn0. cbn in *. by rewrite <- Hs.
  - apply Forall_cons in Hms as [Hm Hms]. unfold rbind at 1 in Hrun.
    destruct ((let* _ := Step (n_env n) m in mret tt) (rn_raft (n_rn n))) as [[[] r1]|] eqn:E1; [|done]. cbn in Hrun.
    pose proof E1 as E1'. unfold rbind in E1'. destruct (Step (n_env n) m (rn_raft (n_rn n))) as [[err r1']|] eqn:Est; [|done].
    cbn in E1'. injection E1' as ->.
    set (n1 := n <| n_rn := n_rn n <| rn_raft := r1 |> <| rn_stepsOnAdvance := ms |> |>).
    destruct (IH Hms (mkCluster (<[i := n1]> (c_nodes c)) (c_net c ++ [m]) (c_wins c ++ new_win (rn_raft (n_rn n)) r1)) n1)
      as (c' & Hc' & Hn'); [cbn; by rewrite lookup_insert_eq|done|done|done|done| |].
    { intros k r Hk. apply (Hmax (S k)). cbn. unfold rbind at 1. rewrite E1. exact Hk. }
    exists c'. split; [|by rewrite Hn']. eapply rtc_l; [|exact Hc'].
    eapply cs_Advance; [done|done|by rewrite <- Hs|done| |exact Est]. by apply (Hmax 0%nat).
Qed.

(** ** Witnesses *)

(** The result of a computation that does not panic. *)
Definition value {A} (d : A) (o : outcome A) : A := match o with Ret a => a | Panic _ => d end.
Definition has_value {A} (o : outcome A) : bool := match o with Ret _ => true | Panic _ => false end.

Lemma value_ret {A} (d : A) (o : outcome A) : has_value o = true -> o = Ret (value d o).
Proof. by destruct o. Qed.

(** A cluster of one voter, which campaigns, persists its vote for itself and wins. *)
Definition solo_storage : MemoryStorage := example_MemoryStorage
  <| ms_snapshot := mkSnapshot [] (mkSnapshotMetadata (mkConfState [1] [] [] [] false) 10 3) |>.

Definition solo_config : RaftConfig := {|
  c_ID := 1; c_ElectionTick := 10; c_HeartbeatTick := 1;
  c_Storage := Some (MemoryStorage_Storage (env_Size example_Env) solo_storage);
  c_Applied := 0; c_AsyncStorageWrites := true; c_MaxSizePerMsg := 100; c_MaxCommittedSizePerReady := 0;
  c_MaxUncommittedEntriesSize := 0; c_MaxInflightMsgs := 4; c_MaxInflightBytes := 0;
  c_CheckQuorum := true; c_PreVote := false; c_DisableProposalForwarding := false;
  c_DisableConfChangeValidation := false; c_StepDownOnRemoval := true
|}.

Definition solo_rn : RawNode := value example_RawNode (NewRawNode example_Env solo_config).
Definition solo_hup : RawNode := snd (value (None, solo_rn) (on_raft (Step example_Env (Msg MsgHup)) solo_rn)).
Definition solo_ready : Ready * RawNode :=
  value (mkReady None emptyState [] empty_Snapshot [] [] false, solo_rn) (RawNode_Ready example_Env solo_hup).
Definition solo_vote : Message := Msg MsgVoteResp <| m_From := 1 |> <| m_To := 1 |> <| m_Term := 5 |>.
Definition solo_leader : RawNode :=
  snd (value (None, solo_rn) (on_raft (Step example_Env solo_vote) (snd solo_ready))).

Definition solo_disk : HardState := mkHardState 4 0 11 0 0.
Definition solo_hs : HardState := mkHardState 5 1 11 0 0.

Definition solo_node (rn : RawNode) : node := mkNode example_Env rn solo_disk [] [].

Definition solo_start : cluster := mkCluster {[1 := solo_node solo_rn]} [] [].
Definition solo_end : cluster := mkCluster {[1 := mkNode example_Env solo_leader solo_hs [] []]}
  (ready_sends true (fst solo_ready) ++ [solo_vote]) [mkWin 1 5 (Some {[1]}, None)].

Lemma solo_init : cluster_init solo_start.
Proof.
  split; [done|]. split; [done|]. intros i n Hi. cbn [c_nodes solo_start] in Hi.
  apply lookup_singleton_Some in Hi as [<- <-].
  split; [done|]. split; [done|]. split; [split; cbn; [lia|done]|].
  exists solo_config, (MemoryStorage_Storage (env_Size example_Env) solo_storage), (mkConfState [1] [] [] [] false).
  split_and!; [done|done|done|]. apply (value_ret example_RawNode). by vm_compute.
Qed.

Lemma solo_run : rtc cluster_step solo_start solo_end.
Proof.
  assert (Hsingle : forall (n n' : node), <[1 := n']> ({[1 := n]} : gmap PeerID node) = {[1 := n']}).
  { intros. by apply insert_singleton_eq. }
  assert (Hhup : on_raft (Step example_Env (Msg MsgHup)) solo_rn =
    Ret (fst (value (None, solo_rn) (on_raft (Step example_Env (Msg MsgHup)) solo_rn)), solo_hup)).
  { unfold solo_hup. rewrite <- surjective_pairing. apply value_ret. by vm_compute. }
  assert (Hready : RawNode_Ready example_Env solo_hup = Ret (fst solo_ready, snd solo_ready)).
  { rewrite <- surjective_pairing. apply value_ret. by vm_compute. }
  assert (Hwrites : ready_writes true (fst solo_ready) = [(solo_hs, [solo_vote])]) by (by vm_compute).
  assert (Hvote : on_raft (Step example_Env solo_vote) (snd solo_ready) =
    Ret (fst (value (None, solo_rn) (on_raft (Step example_Env solo_vote) (snd solo_ready))), solo_leader)).
  { unfold solo_leader. rewrite <- surjective_pairing. apply value_ret. by vm_compute. }
  eapply rtc_l; [eapply (cs_input _ 1 (solo_node solo_rn)); [done|]|].
  { eapply in_Step; [| | |exact Hhup]; [by vm_compute|by split_and!|by intros []]. }
  cbn [c_nodes c_net c_wins solo_start]. rewrite Hsingle.
  replace (new_win _ _) with (@nil win) by (by vm_compute).
  eapply rtc_l; [eapply (cs_Ready _ 1 (solo_node solo_hup)); [done|exact Hready]|].
  cbn [c_nodes c_net c_wins]. rewrite Hsingle.
  replace (rn_asyncStorageWrites (snd solo_ready)) with true by (by vm_compute). rewrite Hwrites.
  eapply rtc_l; [eapply (cs_persist _ 1); [done|done]|]. cbn [c_nodes c_net c_wins]. rewrite Hsingle.
  eapply rtc_l; [eapply (cs_send _ 1); [done|done]|]. cbn [c_nodes c_net c_wins]. rewrite Hsingle.
  eapply rtc_l; [eapply (cs_input _ 1); [done|eapply in_Step; [| | |exact Hvote]]|].
  { by vm_compute. }
  { by split_and!. }
  { intros _. cbn [c_net]. split; [rewrite elem_of_app; right; by left|by vm_compute]. }
  cbn [c_nodes c_net c_wins]. rewrite Hsingle. replace (new_win _ _) with [mkWin 1 5 (Some {[1]}, None)] by (by vm_compute).
  apply rtc_refl.
Qed.

Lemma votes_durable_witness : exists n, c_nodes solo_end !! 1 = Some n /\
  (5 <= hs_Term (n_disk n) /\ (5 = hs_Term (n_disk n) -> hs_Vote (n_disk n) = 1)).
Proof.
  destruct (votes_durable solo_start solo_end solo_init solo_run solo_vote) as (n & Hn & Hd & _).
  - cbn [c_net solo_end]. rewrite elem_of_app. right. by left.
  - done.
  - exists n. exact (conj Hn Hd).
Defined.

Lemma election_safety_witness : exists w, w ∈ c_wins solo_end /\ w_id w = 1 /\ w_Term w = r_Term (rn_raft solo_leader).
Proof.
  destruct (election_safety solo_start solo_end solo_init solo_run) as [_ Hl].
  apply (Hl 1 (mkNode example_Env solo_leader solo_hs [] [])); [done|by vm_compute].
Defined.
