(* ===== verification/StoreLiveness.v ===== *)
(** * Store liveness (src/pkg/kv/kvserver/storeliveness)

    Stores promise each other support for an epoch until an expiration.
    [supporterState] is what a store provides, [requesterState] what it was
    promised; both are changed in batches, which concurrent readers do not see
    before they are on disk ([checkOutUpdate], [checkInUpdate]). [SupportManager]
    drives the two. The pointer [checkedIn] of an update is the state of its
    handler, and an argument here.

    The storage engine is [Disk], what it holds of store liveness; which writes
    fail is an argument of the operations that write, and so are the readings of
    the clock. Go maps are iterated in the order of [map_to_list]. *)

From S2P Require Import Prelude Hlc.

(** ** storelivenesspb *)

Record StoreIdent : Type := mkStoreIdent { NodeID : Z; StoreID : Z }.

#[global] Instance StoreIdent_eq_dec : EqDecision StoreIdent.
Proof. solve_decision. Defined.

#[global] Instance StoreIdent_countable : Countable StoreIdent.
Proof.
  apply (inj_countable' (fun s => (NodeID s, StoreID s)) (fun p => mkStoreIdent (fst p) (snd p))). by intros [].
Defined.

Record SupportState : Type := mkSupportState {
  ss_Target : StoreIdent;
  ss_Epoch : Z;
  ss_Expiration : Timestamp
}.

#[global] Instance eta_SupportState : Eta SupportState := fun s =>
  mkSupportState (ss_Target s) (ss_Epoch s) (ss_Expiration s).
#[global] Instance SupportState_eq_dec : EqDecision SupportState.
Proof. solve_decision. Defined.

Record RequesterMeta : Type := mkRequesterMeta { MaxEpoch : Z; MaxRequested : Timestamp }.

#[global] Instance eta_RequesterMeta : Eta RequesterMeta := fun m => mkRequesterMeta (MaxEpoch m) (MaxRequested m).
#[global] Instance RequesterMeta_eq_dec : EqDecision RequesterMeta.
Proof. solve_decision. Defined.

Record SupporterMeta : Type := mkSupporterMeta { MaxWithdrawn : Timestamp }.

#[global] Instance SupporterMeta_eq_dec : EqDecision SupporterMeta.
Proof. solve_decision. Defined.

Inductive LivenessMessageType : Set := MsgHeartbeat | MsgHeartbeatResp.

Record LivenessMessage : Type := mkLivenessMessage {
  lm_Type : LivenessMessageType;
  lm_From : StoreIdent;
  lm_To : StoreIdent;
  lm_Epoch : Z;
  lm_Expiration : Timestamp
}.

#[global] Instance LivenessMessageType_eq_dec : EqDecision LivenessMessageType.
Proof. solve_decision. Defined.
#[global] Instance LivenessMessage_eq_dec : EqDecision LivenessMessage.
Proof. solve_decision. Defined.

Definition zero_ts : Timestamp := mkTimestamp 0 0.
Definition zero_RequesterMeta : RequesterMeta := mkRequesterMeta 0 zero_ts.
Definition zero_SupporterMeta : SupporterMeta := mkSupporterMeta zero_ts.

Definition assert (condition : bool) (msg : string) : outcome unit := if condition then Ret tt else Panic msg.

(** ** persist.go *)

(** What the engine holds under the keys of store liveness. *)
Record Disk : Type := mkDisk {
  dk_RequesterMeta : RequesterMeta;
  dk_SupporterMeta : SupporterMeta;
  dk_supportFor : gmap StoreIdent SupportState
}.

#[global] Instance eta_Disk : Eta Disk := fun d => mkDisk (dk_RequesterMeta d) (dk_SupporterMeta d) (dk_supportFor d).

Definition zero_ident : StoreIdent := mkStoreIdent 0 0.

Definition writeRequesterMeta (rm : RequesterMeta) (disk : Disk) : Disk := disk <| dk_RequesterMeta := rm |>.

Definition writeSupporterMeta (sm : SupporterMeta) (disk : Disk) : Disk := disk <| dk_SupporterMeta := sm |>.

Definition writeSupportForState (ss : SupportState) (disk : Disk) : Disk :=
  disk <| dk_supportFor := <[ss_Target ss := ss <| ss_Target := zero_ident |>]> (dk_supportFor disk) |>.

Definition readSupportForState (disk : Disk) : list SupportState :=
  (fun '(id, ss) => ss <| ss_Target := id |>) <$> map_to_list (dk_supportFor disk).

(** Writes in order, of which those after the first [n] fail (all succeed for
    [None]); the first failure is returned as [false], with the disk it leaves. *)
Fixpoint writes (n : option nat) (puts : list (Disk -> Disk)) (disk : Disk) : bool * Disk :=
  match puts, n with
  | [], _ => (true, disk)
  | _ :: _, Some O => (false, disk)
  | put :: puts, Some (S n) => writes (Some n) puts (put disk)
  | put :: puts, None => writes None puts (put disk)
  end.

(** ** requester_state.go *)

Record requestedSupport : Type := mkRequestedSupport { state : SupportState; recentlyQueried : bool }.

#[global] Instance eta_requestedSupport : Eta requestedSupport := fun r =>
  mkRequestedSupport (state r) (recentlyQueried r).

Record requesterState : Type := mkRequesterState {
  r_meta : RequesterMeta;
  supportFrom : gmap StoreIdent requestedSupport
}.

#[global] Instance eta_requesterState : Eta requesterState := fun r => mkRequesterState (r_meta r) (supportFrom r).

(** The view [inProgress] of an update; its entries are new, so that only their
    state counts. *)
Record requesterStateForUpdate : Type := mkRsfu {
  rp_meta : RequesterMeta;
  rp_supportFrom : gmap StoreIdent SupportState
}.

#[global] Instance eta_rsfu : Eta requesterStateForUpdate := fun r => mkRsfu (rp_meta r) (rp_supportFrom r).

Record requesterStateHandler : Type := mkRsh {
  rsh_state : requesterState;
  rsh_update : option requesterStateForUpdate
}.

#[global] Instance eta_rsh : Eta requesterStateHandler := fun r => mkRsh (rsh_state r) (rsh_update r).

Definition newRequesterStateHandler : requesterStateHandler :=
  mkRsh (mkRequesterState zero_RequesterMeta ∅) (Some (mkRsfu zero_RequesterMeta ∅)).

(** The answer, and the handler with the store marked as queried. *)
Definition rsh_getSupportFrom (rsh : requesterStateHandler) (id : StoreIdent) :
    requesterStateHandler * option SupportState :=
  match supportFrom (rsh_state rsh) !! id with
  | Some rs =>
    (rsh <| rsh_state := rsh_state rsh <| supportFrom :=
       <[id := rs <| recentlyQueried := true |>]> (supportFrom (rsh_state rsh)) |> |>, Some (state rs))
  | None => (rsh, None)
  end.

Definition rsfu_assertMeta (checkedIn : requesterState) (rsfu : requesterStateForUpdate) : outcome unit :=
  let! _ := assert (MaxEpoch (r_meta checkedIn) <=? MaxEpoch (rp_meta rsfu)) "max epoch regressed during update" in
  assert (Timestamp_LessEq (MaxRequested (r_meta checkedIn)) (MaxRequested (rp_meta rsfu)))
    "max requested regressed during update".

Definition rsfu_getMeta (checkedIn : requesterState) (rsfu : requesterStateForUpdate) : outcome RequesterMeta :=
  if negb (bool_decide (rp_meta rsfu = zero_RequesterMeta)) then
    let! _ := rsfu_assertMeta checkedIn rsfu in Ret (rp_meta rsfu)
  else Ret (r_meta checkedIn).

Definition rsfu_getSupportFrom (checkedIn : requesterState) (rsfu : requesterStateForUpdate) (storeID : StoreIdent) :
    option SupportState :=
  match rp_supportFrom rsfu !! storeID with
  | Some ss => Some ss
  | None => state <$> supportFrom checkedIn !! storeID
  end.

Definition rsfu_reset : requesterStateForUpdate := mkRsfu zero_RequesterMeta ∅.

(** Whether the write succeeded, and the disk after it. *)
Definition rsfu_write (checkedIn : requesterState) (rsfu : requesterStateForUpdate) (n : option nat) (disk : Disk) :
    outcome (bool * Disk) :=
  if bool_decide (rp_meta rsfu = zero_RequesterMeta) then Ret (true, disk)
  else
    let! _ := rsfu_assertMeta checkedIn rsfu in
    Ret (writes n [writeRequesterMeta (rp_meta rsfu)] disk).

Definition rsh_read (rsh : requesterStateHandler) (disk : Disk) : requesterStateHandler :=
  rsh <| rsh_state := rsh_state rsh <| r_meta := dk_RequesterMeta disk |> |>.

Definition rsh_checkOutUpdate (rsh : requesterStateHandler) : outcome (requesterStateForUpdate * requesterStateHandler) :=
  match rsh_update rsh with
  | None => Panic "unsupported concurrent update"
  | Some rsfu => Ret (rsfu, rsh <| rsh_update := None |>)
  end.

(** [checkedIn.supportFrom[storeID].state = rs.state] for the stores of the update. *)
Fixpoint check_in_states (from : gmap StoreIdent requestedSupport) (updates : list (StoreIdent * SupportState)) :
    outcome (gmap StoreIdent requestedSupport) :=
  match updates with
  | [] => Ret from
  | (storeID, ss) :: updates =>
    match from !! storeID with
    | None => Panic "nil pointer dereference"
    | Some rs => check_in_states (<[storeID := rs <| state := ss |>]> from) updates
    end
  end.

Definition rsh_checkInUpdate (rsh : requesterStateHandler) (rsfu : requesterStateForUpdate) :
    outcome requesterStateHandler :=
  let checkedIn := rsh_state rsh in
  if bool_decide (rp_meta rsfu = zero_RequesterMeta) && (map_size (rp_supportFrom rsfu) =? 0)%nat then
    Ret (rsh <| rsh_update := Some rsfu_reset |>)
  else
    let! meta :=
      if negb (bool_decide (rp_meta rsfu = zero_RequesterMeta)) then
        let! _ := rsfu_assertMeta checkedIn rsfu in Ret (rp_meta rsfu)
      else Ret (r_meta checkedIn) in
    let! from := check_in_states (supportFrom checkedIn) (map_to_list (rp_supportFrom rsfu)) in
    Ret (mkRsh (mkRequesterState meta from) (Some rsfu_reset)).

Definition rsh_addStore (rsh : requesterStateHandler) (id : StoreIdent) : outcome requesterStateHandler :=
  let! '(rsfu, rsh) := rsh_checkOutUpdate rsh in
  let st := rsh_state rsh in
  let rsh :=
    match supportFrom st !! id with
    | Some _ => rsh
    | None =>
      let rs := mkRequestedSupport (mkSupportState id (MaxEpoch (r_meta st)) zero_ts) true in
      rsh <| rsh_state := st <| supportFrom := <[id := rs]> (supportFrom st) |> |>
    end in
  rsh_checkInUpdate rsh rsfu.

(** The stores that were queried since the last call stay, and are marked as not
    queried. *)
Definition rsh_removeIdleStores (rsh : requesterStateHandler) : outcome requesterStateHandler :=
  let! '(rsfu, rsh) := rsh_checkOutUpdate rsh in
  let st := rsh_state rsh in
  let from := (fun rs => rs <| recentlyQueried := false |>) <$>
                filter (fun '(_, rs) => recentlyQueried rs = true) (supportFrom st) in
  rsh_checkInUpdate (rsh <| rsh_state := st <| supportFrom := from |> |>) rsfu.

(** *** Heartbeats *)

Definition updateMaxRequested (checkedIn : requesterState) (rsfu : requesterStateForUpdate) (now : Timestamp)
    (interval : Z) : outcome requesterStateForUpdate :=
  let newMaxRequested := Timestamp_Add now interval 0 in
  let! meta := rsfu_getMeta checkedIn rsfu in
  let '(maxRequested, forwarded) := Timestamp_Forward (MaxRequested meta) newMaxRequested in
  Ret (if (forwarded : bool) then rsfu <| rp_meta := meta <| MaxRequested := maxRequested |> |> else rsfu).

Definition generateHeartbeats (checkedIn : requesterState) (rsfu : requesterStateForUpdate) (from : StoreIdent) :
    outcome (list LivenessMessage) :=
  let! meta := rsfu_getMeta checkedIn rsfu in
  let maxRequested := MaxRequested meta in
  let! _ := assert (map_size (rp_supportFrom rsfu) =? 0)%nat "reading from checkedIn.supportFrom during an update" in
  Ret ((fun '(_, rs) =>
          mkLivenessMessage MsgHeartbeat from (ss_Target (state rs)) (ss_Epoch (state rs)) maxRequested) <$>
        map_to_list (supportFrom checkedIn)).

Definition getHeartbeatsToSend (checkedIn : requesterState) (rsfu : requesterStateForUpdate) (from : StoreIdent)
    (now : Timestamp) (interval : Z) : outcome (list LivenessMessage * requesterStateForUpdate) :=
  let! rsfu := updateMaxRequested checkedIn rsfu now interval in
  let! heartbeats := generateHeartbeats checkedIn rsfu from in
  Ret (heartbeats, rsfu).

(** *** Responses *)

Definition handleHeartbeatResponse (rm : RequesterMeta) (ss : SupportState) (msg : LivenessMessage) :
    outcome (RequesterMeta * SupportState) :=
  let rm := if MaxEpoch rm <? lm_Epoch msg then rm <| MaxEpoch := lm_Epoch msg |> else rm in
  if ss_Epoch ss =? lm_Epoch msg then
    Ret (rm, ss <| ss_Expiration := fst (Timestamp_Forward (ss_Expiration ss) (lm_Expiration msg)) |>)
  else if ss_Epoch ss <? lm_Epoch msg then
    let! _ := assert (ss_Epoch ss =? int64 (lm_Epoch msg - 1))
                "the supporter epoch leads the requester epoch by more than 1" in
    let! _ := assert (bool_decide (lm_Expiration msg = zero_ts))
                "the supporter responded with an incremented epoch but non-zero timestamp" in
    Ret (rm, ss <| ss_Epoch := lm_Epoch msg |> <| ss_Expiration := lm_Expiration msg |>)
  else Ret (rm, ss).

Definition rsfu_handleHeartbeatResponse (checkedIn : requesterState) (rsfu : requesterStateForUpdate)
    (msg : LivenessMessage) : outcome requesterStateForUpdate :=
  let from := lm_From msg in
  let! meta := rsfu_getMeta checkedIn rsfu in
  let ss := default (mkSupportState from 0 zero_ts) (rsfu_getSupportFrom checkedIn rsfu from) in
  let! '(metaNew, ssNew) := handleHeartbeatResponse meta ss msg in
  let rsfu := if bool_decide (meta = metaNew) then rsfu else rsfu <| rp_meta := metaNew |> in
  Ret (if bool_decide (ss = ssNew) then rsfu else rsfu <| rp_supportFrom := <[from := ssNew]> (rp_supportFrom rsfu) |>).

Definition incrementMaxEpoch (checkedIn : requesterState) (rsfu : requesterStateForUpdate) :
    outcome requesterStateForUpdate :=
  let! meta := rsfu_getMeta checkedIn rsfu in
  Ret (rsfu <| rp_meta := meta <| MaxEpoch := int64 (MaxEpoch meta + 1) |> |>).

(** ** supporter_state.go *)

Record supporterState : Type := mkSupporterState {
  s_meta : SupporterMeta;
  supportFor : gmap StoreIdent SupportState
}.

#[global] Instance eta_supporterState : Eta supporterState := fun s => mkSupporterState (s_meta s) (supportFor s).

(** The view [inProgress] of an update is a [supporterState] too. *)
Record supporterStateHandler : Type := mkSsh {
  ssh_state : supporterState;
  ssh_update : option supporterState
}.

#[global] Instance eta_ssh : Eta supporterStateHandler := fun s => mkSsh (ssh_state s) (ssh_update s).

Definition ssfu_reset : supporterState := mkSupporterState zero_SupporterMeta ∅.

Definition newSupporterStateHandler : supporterStateHandler := mkSsh ssfu_reset (Some ssfu_reset).

Definition ssh_getSupportFor (ssh : supporterStateHandler) (id : StoreIdent) : SupportState :=
  default (mkSupportState zero_ident 0 zero_ts) (supportFor (ssh_state ssh) !! id).

Definition ssfu_assertMeta (checkedIn ssfu : supporterState) : outcome unit :=
  assert (Timestamp_LessEq (MaxWithdrawn (s_meta checkedIn)) (MaxWithdrawn (s_meta ssfu)))
    "max withdrawn regressed during update".

Definition ssfu_getMeta (checkedIn ssfu : supporterState) : outcome SupporterMeta :=
  if negb (bool_decide (s_meta ssfu = zero_SupporterMeta)) then
    let! _ := ssfu_assertMeta checkedIn ssfu in Ret (s_meta ssfu)
  else Ret (s_meta checkedIn).

Definition ssfu_getSupportFor (checkedIn ssfu : supporterState) (storeID : StoreIdent) : option SupportState :=
  match supportFor ssfu !! storeID with
  | Some ss => Some ss
  | None => supportFor checkedIn !! storeID
  end.

Definition ssfu_write (checkedIn ssfu : supporterState) (n : option nat) (disk : Disk) : outcome (bool * Disk) :=
  if bool_decide (s_meta ssfu = zero_SupporterMeta) && (map_size (supportFor ssfu) =? 0)%nat then Ret (true, disk)
  else
    let! metaPuts :=
      if negb (bool_decide (s_meta ssfu = zero_SupporterMeta)) then
        let! _ := ssfu_assertMeta checkedIn ssfu in Ret [writeSupporterMeta (s_meta ssfu)]
      else Ret [] in
    Ret (writes n (metaPuts ++ ((fun '(_, ss) => writeSupportForState ss) <$> map_to_list (supportFor ssfu))) disk).

Definition ssh_read (ssh : supporterStateHandler) (disk : Disk) : supporterStateHandler :=
  ssh <| ssh_state := mkSupporterState (dk_SupporterMeta disk)
           (foldl (fun m s => <[ss_Target s := s]> m) ∅ (readSupportForState disk)) |>.

Definition ssh_checkOutUpdate (ssh : supporterStateHandler) : outcome (supporterState * supporterStateHandler) :=
  match ssh_update ssh with
  | None => Panic "unsupported concurrent update"
  | Some ssfu => Ret (ssfu, ssh <| ssh_update := None |>)
  end.

Definition ssh_checkInUpdate (ssh : supporterStateHandler) (ssfu : supporterState) : outcome supporterStateHandler :=
  let checkedIn := ssh_state ssh in
  if bool_decide (s_meta ssfu = zero_SupporterMeta) && (map_size (supportFor ssfu) =? 0)%nat then
    Ret (ssh <| ssh_update := Some ssfu_reset |>)
  else
    let! meta :=
      if negb (bool_decide (s_meta ssfu = zero_SupporterMeta)) then
        let! _ := ssfu_assertMeta checkedIn ssfu in Ret (s_meta ssfu)
      else Ret (s_meta checkedIn) in
    Ret (mkSsh (mkSupporterState meta (supportFor ssfu ∪ supportFor checkedIn)) (Some ssfu_reset)).

Definition handleHeartbeat (ss : SupportState) (msg : LivenessMessage) : outcome SupportState :=
  if ss_Epoch ss =? lm_Epoch msg then
    Ret (ss <| ss_Expiration := fst (Timestamp_Forward (ss_Expiration ss) (lm_Expiration msg)) |>)
  else if ss_Epoch ss <? lm_Epoch msg then
    let! _ := assert (Timestamp_Less (ss_Expiration ss) (lm_Expiration msg))
                "support expiration regression across epochs" in
    Ret (ss <| ss_Epoch := lm_Epoch msg |> <| ss_Expiration := lm_Expiration msg |>)
  else Ret ss.

Definition ssfu_handleHeartbeat (checkedIn ssfu : supporterState) (msg : LivenessMessage) :
    outcome (LivenessMessage * supporterState) :=
  let from := lm_From msg in
  let ss := default (mkSupportState from 0 zero_ts) (ssfu_getSupportFor checkedIn ssfu from) in
  let! ssNew := handleHeartbeat ss msg in
  let ssfu := if bool_decide (ss = ssNew) then ssfu else ssfu <| supportFor := <[from := ssNew]> (supportFor ssfu) |> in
  Ret (mkLivenessMessage MsgHeartbeatResp (lm_To msg) (lm_From msg) (ss_Epoch ssNew) (ss_Expiration ssNew), ssfu).

Definition maybeWithdrawSupport (ss : SupportState) (now : Timestamp) : SupportState :=
  if negb (Timestamp_IsEmpty (ss_Expiration ss)) && Timestamp_LessEq (ss_Expiration ss) now then
    ss <| ss_Epoch := int64 (ss_Epoch ss + 1) |> <| ss_Expiration := zero_ts |>
  else ss.

(** The loop over [checkedIn.supportFor]. *)
Fixpoint withdraw_loop (checkedIn : supporterState) (now : Timestamp) (stores : list (StoreIdent * SupportState))
    (ssfu : supporterState) : outcome supporterState :=
  match stores with
  | [] => Ret ssfu
  | (id, ss) :: stores =>
    let ssNew := maybeWithdrawSupport ss now in
    if bool_decide (ss = ssNew) then withdraw_loop checkedIn now stores ssfu
    else
      let ssfu := ssfu <| supportFor := <[id := ssNew]> (supportFor ssfu) |> in
      let! meta := ssfu_getMeta checkedIn ssfu in
      let '(maxWithdrawn, forwarded) := Timestamp_Forward (MaxWithdrawn meta) now in
      withdraw_loop checkedIn now stores
        (if (forwarded : bool) then ssfu <| s_meta := mkSupporterMeta maxWithdrawn |> else ssfu)
  end.

Definition ssfu_withdrawSupport (checkedIn ssfu : supporterState) (now : Timestamp) : outcome supporterState :=
  let! _ := assert (map_size (supportFor ssfu) =? 0)%nat "reading from checkedIn.supportFor during an update" in
  withdraw_loop checkedIn now (map_to_list (supportFor checkedIn)) ssfu.

(** ** support_manager.go *)

Record Options : Type := mkOptions { LivenessInterval : Z; SupportWithdrawalGracePeriod : Z }.

Record SupportManager : Type := mkSupportManager {
  sm_storeID : StoreIdent;
  sm_engine : Disk;
  sm_options : Options;
  sm_receiveQueue : list LivenessMessage;
  sm_storesToAdd : gset StoreIdent;
  sm_minWithdrawalTS : Timestamp;
  sm_supporter : supporterStateHandler;
  sm_requester : requesterStateHandler
}.

#[global] Instance eta_SupportManager : Eta SupportManager := fun s =>
  mkSupportManager (sm_storeID s) (sm_engine s) (sm_options s) (sm_receiveQueue s) (sm_storesToAdd s)
    (sm_minWithdrawalTS s) (sm_supporter s) (sm_requester s).

Definition NewSupportManager (storeID : StoreIdent) (engine : Disk) (options : Options) : SupportManager :=
  mkSupportManager storeID engine options [] ∅ zero_ts newSupporterStateHandler newRequesterStateHandler.

Definition receiveQueue_Append (sm : SupportManager) (msg : LivenessMessage) : SupportManager :=
  sm <| sm_receiveQueue := sm_receiveQueue sm ++ [msg] |>.

Definition receiveQueue_Drain (sm : SupportManager) : list LivenessMessage * SupportManager :=
  (sm_receiveQueue sm, sm <| sm_receiveQueue := [] |>).

Definition HandleMessage (sm : SupportManager) (msg : LivenessMessage) : SupportManager := receiveQueue_Append sm msg.

Definition storesToAdd_addStore (sm : SupportManager) (id : StoreIdent) : SupportManager :=
  sm <| sm_storesToAdd := {[id]} ∪ sm_storesToAdd sm |>.

Definition drainStoresToAdd (sm : SupportManager) : list StoreIdent * SupportManager :=
  (elements (sm_storesToAdd sm), sm <| sm_storesToAdd := ∅ |>).

Definition SupportFor (sm : SupportManager) (id : StoreIdent) : Z * bool :=
  let ss := ssh_getSupportFor (sm_supporter sm) id in
  if Timestamp_IsEmpty (ss_Expiration ss) then (0, false) else (ss_Epoch ss, true).

Definition SupportFrom (sm : SupportManager) (id : StoreIdent) : SupportManager * (Z * Timestamp * bool) :=
  let '(rsh, ss) := rsh_getSupportFrom (sm_requester sm) id in
  let sm := sm <| sm_requester := rsh |> in
  match ss with
  | None => (storesToAdd_addStore sm id, (0, zero_ts, false))
  | Some ss =>
    if Timestamp_IsEmpty (ss_Expiration ss) then (sm, (0, zero_ts, false))
    else (sm, (ss_Epoch ss, ss_Expiration ss, true))
  end.

Definition SupportFromEnabled (clusterSettingEnabled versionGateEnabled : bool) : bool :=
  clusterSettingEnabled && versionGateEnabled.

(** [updated] and [slept] are whether UpdateAndCheckMaxOffset and SleepUntil
    return without an error, [now] is the reading after them. The result is whether
    onRestart returns nil. *)
Definition onRestart (sm : SupportManager) (updated slept : bool) (now : Timestamp) (n : option nat) :
    outcome (SupportManager * bool) :=
  let sm := sm <| sm_supporter := ssh_read (sm_supporter sm) (sm_engine sm) |> in
  let sm := sm <| sm_requester := rsh_read (sm_requester sm) (sm_engine sm) |> in
  if negb updated then Ret (sm, false)
  else if negb slept then Ret (sm, false)
  else
    let sm := sm <| sm_minWithdrawalTS := Timestamp_AddDuration now (SupportWithdrawalGracePeriod (sm_options sm)) |> in
    let! '(rsfu, rsh) := rsh_checkOutUpdate (sm_requester sm) in
    let! rsfu := incrementMaxEpoch (rsh_state rsh) rsfu in
    let! '(ok, disk) := rsfu_write (rsh_state rsh) rsfu n (sm_engine sm) in
    let sm := sm <| sm_requester := rsh |> <| sm_engine := disk |> in
    if negb ok then Ret (sm, false)
    else
      let! rsh := rsh_checkInUpdate rsh rsfu in
      Ret (sm <| sm_requester := rsh |>, true).

Fixpoint addStores (rsh : requesterStateHandler) (stores : list StoreIdent) : outcome requesterStateHandler :=
  match stores with
  | [] => Ret rsh
  | store :: stores => let! rsh := rsh_addStore rsh store in addStores rsh stores
  end.

Definition maybeAddStores (sm : SupportManager) : outcome SupportManager :=
  let '(sta, sm) := drainStoresToAdd sm in
  let! rsh := addStores (sm_requester sm) sta in
  Ret (sm <| sm_requester := rsh |>).

(** The manager after the call, and the messages given to the sender. *)
Definition sendHeartbeats (sm : SupportManager) (now : Timestamp) (n : option nat) :
    outcome (SupportManager * list LivenessMessage) :=
  let! '(rsfu, rsh) := rsh_checkOutUpdate (sm_requester sm) in
  let livenessInterval := LivenessInterval (sm_options sm) in
  let! '(heartbeats, rsfu) := getHeartbeatsToSend (rsh_state rsh) rsfu (sm_storeID sm) now livenessInterval in
  let! '(ok, disk) := rsfu_write (rsh_state rsh) rsfu n (sm_engine sm) in
  let sm := sm <| sm_requester := rsh |> <| sm_engine := disk |> in
  if negb ok then Ret (sm, [])
  else
    let! rsh := rsh_checkInUpdate rsh rsfu in
    Ret (sm <| sm_requester := rsh |>, heartbeats).

Definition withdrawSupport (sm : SupportManager) (now : Timestamp) (n : option nat) : outcome SupportManager :=
  if Timestamp_Less now (sm_minWithdrawalTS sm) then Ret sm
  else
    let! '(ssfu, ssh) := ssh_checkOutUpdate (sm_supporter sm) in
    let! ssfu := ssfu_withdrawSupport (ssh_state ssh) ssfu now in
    let! '(_, disk) := ssfu_write (ssh_state ssh) ssfu n (sm_engine sm) in
    let! ssh := ssh_checkInUpdate ssh ssfu in
    Ret (sm <| sm_engine := disk |> <| sm_supporter := ssh |>).

(** The loop of [handleMessages]. *)
Fixpoint handle_loop (r : requesterState) (s : supporterState) (msgs : list LivenessMessage)
    (rsfu : requesterStateForUpdate) (ssfu : supporterState) (responses : list LivenessMessage) :
    outcome (requesterStateForUpdate * supporterState * list LivenessMessage) :=
  match msgs with
  | [] => Ret (rsfu, ssfu, responses)
  | msg :: msgs =>
    match lm_Type msg with
    | MsgHeartbeat =>
      let! '(response, ssfu) := ssfu_handleHeartbeat s ssfu msg in
      handle_loop r s msgs rsfu ssfu (responses ++ [response])
    | MsgHeartbeatResp =>
      let! rsfu := rsfu_handleHeartbeatResponse r rsfu msg in
      handle_loop r s msgs rsfu ssfu responses
    end
  end.

(** [n1] and [n2] are for the writes to the batch, [committed] for the batch; the
    batch is a copy of the disk with its writes. *)
Definition handleMessages (sm : SupportManager) (msgs : list LivenessMessage) (n1 n2 : option nat) (committed : bool) :
    outcome (SupportManager * list LivenessMessage) :=
  let! '(rsfu, rsh) := rsh_checkOutUpdate (sm_requester sm) in
  let! '(ssfu, ssh) := ssh_checkOutUpdate (sm_supporter sm) in
  let! '(rsfu, ssfu, responses) := handle_loop (rsh_state rsh) (ssh_state ssh) msgs rsfu ssfu [] in
  let! '(_, batch) := rsfu_write (rsh_state rsh) rsfu n1 (sm_engine sm) in
  let! '(_, batch) := ssfu_write (ssh_state ssh) ssfu n2 batch in
  let sm := sm <| sm_requester := rsh |> <| sm_supporter := ssh |> in
  if negb committed then Ret (sm, [])
  else
    let sm := sm <| sm_engine := batch |> in
    let! rsh := rsh_checkInUpdate rsh rsfu in
    let! ssh := ssh_checkInUpdate ssh ssfu in
    Ret (sm <| sm_requester := rsh |> <| sm_supporter := ssh |>, responses).

(** The cases of the select in [startLoop]. *)
Inductive loop_case : Type :=
| HeartbeatTick (enabled : bool) (now : Timestamp) (n : option nat)
| SupportExpiryTick (now : Timestamp) (n : option nat)
| IdleSupportFromTick
| ReceiveQueueSig (n1 n2 : option nat) (committed : bool).

(** One iteration of [startLoop]. *)
Definition startLoop_body (sm : SupportManager) (c : loop_case) : outcome (SupportManager * list LivenessMessage) :=
  match c with
  | HeartbeatTick enabled now n =>
    let! sm := maybeAddStores sm in
    if (enabled : bool) then sendHeartbeats sm now n else Ret (sm, [])
  | SupportExpiryTick now n => let! sm := withdrawSupport sm now n in Ret (sm, [])
  | IdleSupportFromTick =>
    let! rsh := rsh_removeIdleStores (sm_requester sm) in
    Ret (sm <| sm_requester := rsh |>, [])
  | ReceiveQueueSig n1 n2 committed =>
    let '(msgs, sm) := receiveQueue_Drain sm in
    handleMessages sm msgs n1 n2 committed
  end.
