(* ===== verification/SupportBatch.v ===== *)
(** * Updates of store liveness

    An update of the requester's or the supporter's state is a view on top of what
    was checked in. Here: what checking in and writing an update do ([s_apply],
    [r_apply]), that an update on top of another is one update ([s_merge],
    [r_merge]), and from these that a batch of messages has the effect of its
    messages handled one after the other. *)

From S2P Require Import Prelude Hlc StoreLiveness.

Lemma assert_true b s : b = true -> assert b s = Ret tt.
Proof. intros ->. done. Qed.

Lemma map_size_zero {A} (m : gmap StoreIdent A) : (map_size m =? 0)%nat = bool_decide (m = ∅).
Proof.
  case_bool_decide as H.
  - subst m. done.
  - apply Nat.eqb_neq. intros E. apply H. by apply map_size_empty_inv.
Qed.

(** ** The supporter's updates *)

Definition newer (old new : SupporterMeta) : SupporterMeta := if decide (new = zero_SupporterMeta) then old else new.

Definition s_apply (c ssfu : supporterState) : supporterState :=
  mkSupporterState (newer (s_meta c) (s_meta ssfu)) (supportFor ssfu ∪ supportFor c).

(** The update [b] made on top of [a]. *)
Definition s_merge (a b : supporterState) : supporterState := s_apply a b.

(** No regression of the metadata, which the code asserts. *)
Definition s_fine (c ssfu : supporterState) : Prop :=
  s_meta ssfu = zero_SupporterMeta \/ ts_le (MaxWithdrawn (s_meta c)) (MaxWithdrawn (s_meta ssfu)).

Definition keyed (m : gmap StoreIdent SupportState) : Prop := map_Forall (fun id ss => ss_Target ss = id) m.

Definition cleared (ss : SupportState) : SupportState := ss <| ss_Target := zero_ident |>.

Definition s_written (ssfu : supporterState) (disk : Disk) : Disk :=
  mkDisk (dk_RequesterMeta disk) (newer (dk_SupporterMeta disk) (s_meta ssfu))
    ((cleared <$> supportFor ssfu) ∪ dk_supportFor disk).

Lemma s_apply_reset c : s_apply c ssfu_reset = c.
Proof. destruct c as [m f]. unfold s_apply, newer. rewrite decide_True by done. cbn. by rewrite (left_id_L ∅ (∪)). Qed.

Lemma s_apply_assoc a b c : s_apply (s_apply a b) c = s_apply a (s_apply b c).
Proof.
  unfold s_apply, newer. cbn. f_equal; [|by rewrite (assoc_L (∪))].
  repeat case_decide; congruence.
Qed.

Lemma s_assertMeta c ssfu :
  s_fine c ssfu -> s_meta ssfu <> zero_SupporterMeta -> ssfu_assertMeta c ssfu = Ret tt.
Proof. intros [?|H] ?; [done|]. by apply assert_true, Timestamp_LessEq_spec. Qed.

Lemma ssh_checkInUpdate_eq ssh c ssfu :
  ssh_state ssh = c -> s_fine c ssfu ->
  ssh_checkInUpdate ssh ssfu = Ret (mkSsh (s_apply c ssfu) (Some ssfu_reset)).
Proof.
  intros <- H. unfold ssh_checkInUpdate. rewrite map_size_zero. unfold s_apply, newer.
  destruct (decide (s_meta ssfu = zero_SupporterMeta)) as [E|E].
  - rewrite (bool_decide_eq_true_2 _ E). cbn [andb negb obind]. case_bool_decide as F; [|done].
    rewrite F, (left_id_L ∅ (∪)). by destruct ssh as [[] u].
  - rewrite (bool_decide_eq_false_2 _ E). cbn [andb negb]. by rewrite s_assertMeta.
Qed.

Lemma writes_all puts disk : writes None puts disk = (true, foldl (fun d put => put d) disk puts).
Proof. revert disk. induction puts as [|put puts IH]; intros disk; cbn; [done|apply IH]. Qed.

Lemma put_states l disk :
  Forall (fun '(id, ss) => ss_Target ss = id) l ->
  NoDup l.*1 ->
  foldl (fun d put => put d) disk ((fun '((_, ss) : StoreIdent * SupportState) => writeSupportForState ss) <$> l) =
    disk <| dk_supportFor := list_to_map ((fun '(id, ss) => (id, cleared ss)) <$> l) ∪ dk_supportFor disk |>.
Proof.
  revert disk. induction l as [|[id ss] l IH]; intros disk Hk Hn.
  { cbn. rewrite (left_id_L ∅ (∪)). by destruct disk. }
  apply Forall_cons in Hk as [Ht Hk]. cbn in Ht. subst id. apply NoDup_cons in Hn as [Hi Hn].
  cbn [fmap list_fmap foldl list_to_map foldr fst snd uncurry]. rewrite IH by done. destruct disk as [rm sm m]. apply (f_equal (mkDisk rm sm)). cbn.
  rewrite <- insert_union_l, insert_union_r; [done|]. apply not_elem_of_list_to_map_1.
  rewrite <- list_fmap_compose. intros (p & Hp & Hl)%list_elem_of_fmap. apply Hi, list_elem_of_fmap. exists p. by destruct p.
Qed.

Lemma put_update m disk :
  keyed m ->
  foldl (fun d put => put d) disk ((fun '((_, ss) : StoreIdent * SupportState) => writeSupportForState ss) <$> map_to_list m) =
    disk <| dk_supportFor := (cleared <$> m) ∪ dk_supportFor disk |>.
Proof.
  intros H. rewrite put_states by (exact (NoDup_fst_map_to_list m) || by apply map_Forall_to_list).
  rewrite <- (list_to_map_to_list m) at 2. rewrite <- list_to_map_fmap. do 3 f_equal. apply list_fmap_ext. by intros ? [].
Qed.

Lemma ssfu_write_all c ssfu disk :
  s_fine c ssfu -> keyed (supportFor ssfu) -> ssfu_write c ssfu None disk = Ret (true, s_written ssfu disk).
Proof.
  intros H Hk. unfold ssfu_write. rewrite map_size_zero. unfold s_written, newer.
  destruct (decide (s_meta ssfu = zero_SupporterMeta)) as [E|E].
  - rewrite (bool_decide_eq_true_2 _ E). cbn [andb negb obind]. case_bool_decide as F.
    + rewrite F, fmap_empty, (left_id_L ∅ (∪)). by destruct disk.
    + cbn [obind]. rewrite writes_all. cbn [app]. rewrite put_update by done. by destruct disk.
  - rewrite (bool_decide_eq_false_2 _ E). cbn [andb negb]. rewrite s_assertMeta by done. cbn [obind].
    rewrite writes_all. cbn [app foldl]. rewrite put_update by done. by destruct disk.
Qed.

Lemma ssfu_getSupportFor_eq c ssfu id : ssfu_getSupportFor c ssfu id = supportFor (s_apply c ssfu) !! id.
Proof.
  unfold ssfu_getSupportFor. cbn. rewrite lookup_union.
  destruct (supportFor ssfu !! id), (supportFor c !! id); done.
Qed.

Lemma ssfu_handleHeartbeat_merge c a b msg :
  ssfu_handleHeartbeat c (s_merge a b) msg =
    let! '(response, b') := ssfu_handleHeartbeat (s_apply c a) b msg in Ret (response, s_merge a b').
Proof.
  unfold ssfu_handleHeartbeat, s_merge. rewrite !ssfu_getSupportFor_eq, s_apply_assoc.
  destruct (handleHeartbeat _ msg) as [ss|]; cbn [obind]; [|done]. case_bool_decide; [done|].
  do 2 f_equal. unfold s_apply. cbn. by rewrite insert_union_l.
Qed.

(** ** The requester's updates *)

Definition r_newer (old new : RequesterMeta) : RequesterMeta := if decide (new = zero_RequesterMeta) then old else new.

Definition r_states (from : gmap StoreIdent requestedSupport) (updates : gmap StoreIdent SupportState) :
    gmap StoreIdent requestedSupport :=
  map_imap (fun id rs => Some (rs <| state := default (state rs) (updates !! id) |>)) from.

Definition r_apply (c : requesterState) (rsfu : requesterStateForUpdate) : requesterState :=
  mkRequesterState (r_newer (r_meta c) (rp_meta rsfu)) (r_states (supportFrom c) (rp_supportFrom rsfu)).

Definition r_merge (a b : requesterStateForUpdate) : requesterStateForUpdate :=
  mkRsfu (r_newer (rp_meta a) (rp_meta b)) (rp_supportFrom b ∪ rp_supportFrom a).

Definition r_fine (c : requesterState) (rsfu : requesterStateForUpdate) : Prop :=
  0 <= MaxEpoch (r_meta c) /\
  (rp_meta rsfu = zero_RequesterMeta \/
   (MaxEpoch (r_meta c) <= MaxEpoch (rp_meta rsfu) /\ ts_le (MaxRequested (r_meta c)) (MaxRequested (rp_meta rsfu)))).

(** The update is about stores that were added. *)
Definition r_known (c : requesterState) (rsfu : requesterStateForUpdate) : Prop :=
  forall id, is_Some (rp_supportFrom rsfu !! id) -> is_Some (supportFrom c !! id).

Definition r_written (rsfu : requesterStateForUpdate) (disk : Disk) : Disk :=
  disk <| dk_RequesterMeta := r_newer (dk_RequesterMeta disk) (rp_meta rsfu) |>.

Lemma r_states_lookup from updates id :
  r_states from updates !! id = (fun rs => rs <| state := default (state rs) (updates !! id) |>) <$> from !! id.
Proof. unfold r_states. rewrite map_lookup_imap. by destruct (from !! id). Qed.

Lemma r_states_empty from : r_states from ∅ = from.
Proof.
  apply map_eq. intros id. rewrite r_states_lookup, lookup_empty. destruct (from !! id) as [[]|]; done.
Qed.

Lemma r_states_insert from updates id ss rs :
  from !! id = Some rs -> updates !! id = None ->
  r_states (<[id := rs <| state := ss |>]> from) updates = r_states from (<[id := ss]> updates).
Proof.
  intros H Hn. apply map_eq. intros id'. rewrite !r_states_lookup.
  destruct (decide (id = id')) as [<-|N].
  - rewrite !lookup_insert_eq, H, Hn. by destruct rs.
  - by rewrite !lookup_insert_ne by done.
Qed.

Lemma check_in_states_eq from l :
  NoDup l.*1 -> (forall id, id ∈ l.*1 -> is_Some (from !! id)) ->
  check_in_states from l = Ret (r_states from (list_to_map l)).
Proof.
  revert from. induction l as [|[id ss] l IH]; intros from Hn Hk.
  { cbn. by rewrite r_states_empty. }
  rewrite fmap_cons in Hn, Hk. apply NoDup_cons in Hn as [Hi Hn].
  destruct (Hk id) as [rs Hrs]; [by constructor|]. cbn [check_in_states list_to_map foldr fst snd uncurry].
  rewrite Hrs, IH; [|done|].
  - rewrite r_states_insert; [done|done|]. by apply not_elem_of_list_to_map_1.
  - intros id' Hid'. destruct (decide (id = id')) as [<-|N]; [by rewrite lookup_insert_eq|].
    rewrite lookup_insert_ne by done. apply Hk. by constructor.
Qed.

Lemma check_in_states_known from l from' :
  check_in_states from l = Ret from' -> forall id, id ∈ l.*1 -> is_Some (from !! id).
Proof.
  revert from. induction l as [|[id ss] l IH]; intros from H id' Hid'; [by apply elem_of_nil in Hid'|].
  cbn in H. destruct (from !! id) as [rs|] eqn:E; [|done].
  rewrite fmap_cons in Hid'. apply elem_of_cons in Hid' as [->|Hid']; [by eexists|].
  specialize (IH _ H _ Hid'). destruct (decide (id = id')) as [<-|N]; [by eexists|].
  by rewrite lookup_insert_ne in IH.
Qed.

Lemma r_assertMeta c rsfu :
  r_fine c rsfu -> rp_meta rsfu <> zero_RequesterMeta -> rsfu_assertMeta c rsfu = Ret tt.
Proof.
  intros (_ & [?|[H1 H2]]) ?; [done|]. unfold rsfu_assertMeta. rewrite assert_true by blia. cbn [obind].
  by apply assert_true, Timestamp_LessEq_spec.
Qed.

Lemma rsfu_getMeta_eq c rsfu : r_fine c rsfu -> rsfu_getMeta c rsfu = Ret (r_newer (r_meta c) (rp_meta rsfu)).
Proof.
  intros H. unfold rsfu_getMeta, r_newer. case_decide as E; case_bool_decide; cbn [negb]; try done.
  by rewrite r_assertMeta.
Qed.

Lemma rsfu_write_all c rsfu disk : r_fine c rsfu -> rsfu_write c rsfu None disk = Ret (true, r_written rsfu disk).
Proof.
  intros H. unfold rsfu_write, r_written, r_newer. case_decide as E; case_bool_decide; try done.
  - by destruct disk.
  - by rewrite r_assertMeta.
Qed.

Lemma map_to_list_known {A} (m : gmap StoreIdent A) id : id ∈ (map_to_list m).*1 <-> is_Some (m !! id).
Proof.
  rewrite list_elem_of_fmap. split.
  - intros ([id' a] & -> & H%elem_of_map_to_list). by eexists.
  - intros [a H%elem_of_map_to_list]. by exists (id, a).
Qed.

Lemma rsh_checkInUpdate_Ret rsh c rsfu rsh' :
  rsh_state rsh = c -> r_fine c rsfu ->
  rsh_checkInUpdate rsh rsfu = Ret rsh' <->
  r_known c rsfu /\ rsh' = mkRsh (r_apply c rsfu) (Some rsfu_reset).
Proof.
  intros <- H. unfold rsh_checkInUpdate, r_apply, r_known. rewrite map_size_zero.
  destruct (bool_decide (rp_meta rsfu = _) && bool_decide (rp_supportFrom rsfu = _)) eqn:B.
  { apply andb_true_iff in B as [B1%bool_decide_eq_true B2%bool_decide_eq_true]. unfold r_newer.
    rewrite B1, B2, r_states_empty, decide_True by done. destruct rsh as [[m f] u]. cbn. split.
    - intros [= <-]. split; [|done]. by intros id [? ?%lookup_empty_Some].
    - by intros [_ ->]. }
  replace (if negb _ then _ else _) with (Ret (r_newer (r_meta (rsh_state rsh)) (rp_meta rsfu))).
  2: { symmetry. by apply rsfu_getMeta_eq. }
  cbn [obind]. split.
  - intros (from & Hf & [= <-])%obind_Ret. pose proof (check_in_states_known _ _ _ Hf) as Hk.
    setoid_rewrite map_to_list_known in Hk. split; [done|].
    rewrite check_in_states_eq, list_to_map_to_list in Hf; [by inversion Hf|exact (NoDup_fst_map_to_list _)|].
    by setoid_rewrite map_to_list_known.
  - intros [Hk ->]. rewrite check_in_states_eq, list_to_map_to_list; [done|exact (NoDup_fst_map_to_list _)|].
    by setoid_rewrite map_to_list_known.
Qed.

Lemma r_getSupportFrom_merge c a b id :
  r_known c a -> rsfu_getSupportFrom c (r_merge a b) id = rsfu_getSupportFrom (r_apply c a) b id.
Proof.
  intros Hk. unfold rsfu_getSupportFrom. cbn. rewrite lookup_union, r_states_lookup. specialize (Hk id).
  destruct (rp_supportFrom b !! id) as [sb|], (rp_supportFrom a !! id) as [sa|]; cbn; try done.
  - destruct Hk as [rs ->]; [by eexists|]. done.
  - by destruct (supportFrom c !! id) as [[]|].
Qed.

Lemma r_newer_assoc a b c : r_newer (r_newer a b) c = r_newer a (r_newer b c).
Proof. unfold r_newer. repeat case_decide; congruence. Qed.

Lemma r_fine_meta c rsfu : r_fine c rsfu -> 0 <= MaxEpoch (r_newer (r_meta c) (rp_meta rsfu)).
Proof. unfold r_fine, r_newer. case_decide; intros [? [?|?]]; done || lia. Qed.

Lemma r_fine_merge c a b : r_fine c a -> r_fine (r_apply c a) b -> r_fine c (r_merge a b).
Proof.
  intros [H0 Ha] [_ Hb]. split; [done|]. cbn in *. unfold r_newer in *.
  destruct (decide (rp_meta b = _)) as [Eb|Eb]; [done|]. destruct Hb as [?|[Hb1 Hb2]]; [done|]. right.
  case_decide; [done|]. destruct Ha as [?|[Ha1 Ha2]]; [done|]. split; [lia|]. by etrans.
Qed.

(** Responses raise the epoch in the metadata, and nothing else of it. *)
Lemma handleHeartbeatResponse_meta rm ss msg rm' ss' :
  handleHeartbeatResponse rm ss msg = Ret (rm', ss') ->
  rm' = mkRequesterMeta (Z.max (MaxEpoch rm) (lm_Epoch msg)) (MaxRequested rm) /\ ss_Target ss' = ss_Target ss.
Proof.
  intros H. unfold handleHeartbeatResponse in H.
  replace (if MaxEpoch rm <? lm_Epoch msg then _ else _)
    with (mkRequesterMeta (Z.max (MaxEpoch rm) (lm_Epoch msg)) (MaxRequested rm)) in H.
  - repeat case_match; inv_ret; by simplify_eq.
  - destruct rm as [e t]. cbn [MaxEpoch MaxRequested]. destruct (e <? lm_Epoch msg) eqn:E;
      [by rewrite Z.max_r by blia|by rewrite Z.max_l by blia].
Qed.

Lemma r_fine_response c rsfu msg rsfu' :
  r_fine c rsfu -> rsfu_handleHeartbeatResponse c rsfu msg = Ret rsfu' -> r_fine c rsfu'.
Proof.
  intros Hf H. unfold rsfu_handleHeartbeatResponse in H. rewrite rsfu_getMeta_eq in H by done. cbn [obind] in H.
  apply obind_Ret in H as ([rm ss] & H & E). apply handleHeartbeatResponse_meta in H as [-> _].
  injection E as <-. set (m := r_newer _ _) in *.
  assert (forall x m, r_fine c x -> r_fine c (x <| rp_supportFrom := m |>)) as Hup by (intros x f; exact id).
  destruct (bool_decide (default _ _ = ss)); [|apply Hup];
  (case_bool_decide; [done|]; destruct Hf as [H0 Hf]; split; [done|]; right; subst m; unfold r_newer; cbn;
     case_decide; [split; [lia|done]|]; destruct Hf as [?|[? ?]]; [done|]; split; [lia|done]).
Qed.

Lemma rsfu_handleHeartbeatResponse_merge c a b msg :
  r_fine c a -> r_known c a -> r_fine (r_apply c a) b ->
  rsfu_handleHeartbeatResponse c (r_merge a b) msg =
    let! b' := rsfu_handleHeartbeatResponse (r_apply c a) b msg in Ret (r_merge a b').
Proof.
  intros Ha Hk Hb. unfold rsfu_handleHeartbeatResponse. pose proof (r_fine_meta _ _ Hb) as H0.
  rewrite (rsfu_getMeta_eq _ _ (r_fine_merge _ _ _ Ha Hb)), (rsfu_getMeta_eq _ _ Hb), r_getSupportFrom_merge by done.
  cbn [obind r_merge rp_meta r_apply r_meta] in *. rewrite <- r_newer_assoc. set (m := r_newer (r_newer _ _) _) in *.
  destruct (handleHeartbeatResponse m _ msg) as [[rm ss]|] eqn:E; cbn [obind]; [|done].
  apply handleHeartbeatResponse_meta in E as [-> _]. f_equal.
  assert (forall b', r_merge a (b' <| rp_supportFrom := <[lm_From msg := ss]> (rp_supportFrom b') |>) =
    (r_merge a b') <| rp_supportFrom := <[lm_From msg := ss]> (rp_supportFrom (r_merge a b')) |>) as Hins.
  { intros b'. apply (f_equal (mkRsfu _)). cbn. by rewrite insert_union_l. }
  assert (forall x, x <> zero_RequesterMeta -> r_merge a (b <| rp_meta := x |>) = r_merge a b <| rp_meta := x |>) as Hm.
  { intros x Hx. unfold r_merge, r_newer. cbn. by rewrite (decide_False _ _ Hx). }
  set (m' := mkRequesterMeta _ _).
  assert ((if bool_decide (m = m') then r_merge a b else r_merge a b <| rp_meta := m' |>) =
    r_merge a (if bool_decide (m = m') then b else b <| rp_meta := m' |>)) as HX.
  { case_bool_decide as Em; [done|]. rewrite Hm; [done|]. intros Hz. apply Em. rewrite Hz. subst m'.
    destruct m as [e t]. cbn in *. injection Hz as ? ?. unfold zero_RequesterMeta. f_equal; [lia|done]. }
  rewrite HX.
  destruct (bool_decide (default _ _ = ss)); [done|by rewrite Hins].
Qed.

Lemma rsfu_handleHeartbeatResponse_known c rsfu msg rsfu' :
  rsfu_handleHeartbeatResponse c rsfu msg = Ret rsfu' -> r_known c rsfu' -> r_known c rsfu.
Proof.
  intros H Hk id Hid. apply Hk. unfold rsfu_handleHeartbeatResponse in H. inv_ret.
  repeat match goal with x : _ * _ |- _ => destruct x end. simplify_eq.
  repeat case_bool_decide; cbn; try done;
    (destruct (decide (lm_From msg = id)) as [<-|?]; [by rewrite lookup_insert_eq|by rewrite lookup_insert_ne]).
Qed.

(** ** Batches of messages *)

Lemma handle_loop_app r s ms1 ms2 rsfu ssfu out :
  handle_loop r s (ms1 ++ ms2) rsfu ssfu out =
    let! '(rsfu, ssfu, out) := handle_loop r s ms1 rsfu ssfu out in handle_loop r s ms2 rsfu ssfu out.
Proof.
  revert rsfu ssfu out. induction ms1 as [|m ms1 IH]; intros rsfu ssfu out; [done|]. cbn.
  destruct (lm_Type m).
  - destruct (ssfu_handleHeartbeat s ssfu m) as [[]|]; cbn; [apply IH|done].
  - destruct (rsfu_handleHeartbeatResponse r rsfu m); cbn; [apply IH|done].
Qed.

(** What holds of an update made by the loop. *)
Definition updates_ok (r : requesterState) (rsfu : requesterStateForUpdate) (ssfu : supporterState) : Prop :=
  r_fine r rsfu /\ s_meta ssfu = zero_SupporterMeta /\ keyed (supportFor ssfu).

Lemma handleHeartbeat_Target ss msg ss' : handleHeartbeat ss msg = Ret ss' -> ss_Target ss' = ss_Target ss.
Proof. unfold handleHeartbeat. intros H. repeat case_match; inv_ret; by simplify_eq. Qed.

Lemma ssfu_handleHeartbeat_keyed s ssfu msg out ssfu' :
  keyed (supportFor s) -> keyed (supportFor ssfu) -> ssfu_handleHeartbeat s ssfu msg = Ret (out, ssfu') ->
  s_meta ssfu' = s_meta ssfu /\ keyed (supportFor ssfu').
Proof.
  intros Hs Hk H. unfold ssfu_handleHeartbeat in H. apply obind_Ret in H as (ss & H%handleHeartbeat_Target & [= <- <-]).
  case_bool_decide; [done|]. split; [done|]. apply map_Forall_insert_2; [|done]. rewrite H.
  rewrite ssfu_getSupportFor_eq. cbn. rewrite lookup_union.
  destruct (supportFor ssfu !! lm_From msg) as [x|] eqn:E; [|destruct (supportFor s !! lm_From msg) as [y|] eqn:F]; cbn.
  - rewrite union_Some_l. exact (Hk _ _ E).
  - exact (Hs _ _ F).
  - done.
Qed.

Lemma handle_loop_ok r s ms rsfu ssfu out rsfu' ssfu' out' :
  keyed (supportFor s) -> updates_ok r rsfu ssfu -> handle_loop r s ms rsfu ssfu out = Ret (rsfu', ssfu', out') ->
  updates_ok r rsfu' ssfu' /\ (r_known r rsfu' -> r_known r rsfu).
Proof.
  intros Hs. revert rsfu ssfu out. induction ms as [|m ms IH]; intros rsfu ssfu out (Hr & Hm & Hk) H; cbn in H.
  { by simplify_eq. }
  destruct (lm_Type m).
  - apply obind_Ret in H as ([o ssfu1] & H1 & H). apply ssfu_handleHeartbeat_keyed in H1 as [Hm1 Hk1]; [|done..].
    apply (IH rsfu ssfu1 _) in H; [done|]. split_and!; [done|congruence|done].
  - apply obind_Ret in H as (rsfu1 & H1 & H). pose proof (r_fine_response _ _ _ _ Hr H1) as Hr1.
    apply (IH rsfu1 ssfu) in H as [? Hkn]; [|done]. split; [done|].
    intros ?%Hkn. by eapply rsfu_handleHeartbeatResponse_known.
Qed.

Lemma handle_loop_merge r s ms a ra b sb out1 out2 :
  r_fine r a -> r_known r a -> r_fine (r_apply r a) ra ->
  handle_loop r s ms (r_merge a ra) (s_merge b sb) (out1 ++ out2) =
    let! '(ra, sb, out) := handle_loop (r_apply r a) (s_apply s b) ms ra sb out2 in
    Ret (r_merge a ra, s_merge b sb, out1 ++ out).
Proof.
  intros Ha Hk. revert ra sb out2. induction ms as [|m ms IH]; intros ra sb out2 Hra; [done|]. cbn.
  destruct (lm_Type m).
  - rewrite ssfu_handleHeartbeat_merge. destruct (ssfu_handleHeartbeat _ sb m) as [[o sb']|]; [|done]. cbn.
    rewrite <- assoc_L by apply _. by apply IH.
  - rewrite rsfu_handleHeartbeatResponse_merge by done.
    destruct (rsfu_handleHeartbeatResponse _ ra m) as [ra'|] eqn:E; [|done]. cbn. apply IH. by eapply r_fine_response.
Qed.

(** A manager whose updates are checked in, and whose maps are what the handlers
    make them. *)
Definition available (sm : SupportManager) : Prop :=
  ssh_update (sm_supporter sm) = Some ssfu_reset /\ rsh_update (sm_requester sm) = Some rsfu_reset /\
  keyed (supportFor (ssh_state (sm_supporter sm))) /\ 0 <= MaxEpoch (r_meta (rsh_state (sm_requester sm))).

Definition batch_done (sm : SupportManager) (rsfu : requesterStateForUpdate) (ssfu : supporterState) : SupportManager :=
  sm <| sm_engine := s_written ssfu (r_written rsfu (sm_engine sm)) |>
     <| sm_requester := mkRsh (r_apply (rsh_state (sm_requester sm)) rsfu) (Some rsfu_reset) |>
     <| sm_supporter := mkSsh (s_apply (ssh_state (sm_supporter sm)) ssfu) (Some ssfu_reset) |>.

Lemma updates_ok_reset sm : available sm -> updates_ok (rsh_state (sm_requester sm)) rsfu_reset ssfu_reset.
Proof. intros (_ & _ & _ & H). split_and!; [split; [done|by left]|done|]. apply map_Forall_empty. Qed.

Lemma handleMessages_Ret sm msgs sm' out :
  available sm ->
  handleMessages sm msgs None None true = Ret (sm', out) <->
  exists rsfu ssfu,
    handle_loop (rsh_state (sm_requester sm)) (ssh_state (sm_supporter sm)) msgs rsfu_reset ssfu_reset [] =
      Ret (rsfu, ssfu, out) /\
    r_known (rsh_state (sm_requester sm)) rsfu /\ sm' = batch_done sm rsfu ssfu.
Proof.
  intros Ha. pose proof (updates_ok_reset _ Ha) as H0. destruct Ha as (Hs & Hr & Hk & _).
  unfold handleMessages, rsh_checkOutUpdate, ssh_checkOutUpdate. rewrite Hs, Hr. cbn [obind].
  change (rsh_state (sm_requester sm <| rsh_update := None |>)) with (rsh_state (sm_requester sm)).
  change (ssh_state (sm_supporter sm <| ssh_update := None |>)) with (ssh_state (sm_supporter sm)).
  destruct (handle_loop _ _ _ _ _ _) as [[[rsfu ssfu] o]|] eqn:E; cbn [obind].
  2: { split; [done|]. by intros (? & ? & ? & _). }
  apply handle_loop_ok in E as [(Hf & Hm & Hks) _]; [|done..].
  assert (s_fine (ssh_state (sm_supporter sm)) ssfu) as Hsf by by left.
  rewrite rsfu_write_all by done. cbn [obind]. rewrite ssfu_write_all by done. cbn [obind negb].
  set (rsh0 := sm_requester sm <| rsh_update := None |>). set (ssh0 := sm_supporter sm <| ssh_update := None |>).
  assert (rsh_state rsh0 = rsh_state (sm_requester sm)) as Er by done.
  assert (ssh_state ssh0 = ssh_state (sm_supporter sm)) as Es by done.
  pose proof (fun rsh' => rsh_checkInUpdate_Ret rsh0 _ rsfu rsh' Er Hf) as Hin.
  rewrite (ssh_checkInUpdate_eq ssh0 _ ssfu Es Hsf). cbn [obind].
  split.
  - intros (rsh & H & [= <- <-])%obind_Ret. apply Hin in H as [Hkn ->]. by exists rsfu, ssfu.
  - intros (? & ? & [= <- <- <-] & Hkn & ->).
    rewrite (proj2 (Hin (mkRsh (r_apply (rsh_state (sm_requester sm)) rsfu) (Some rsfu_reset)))) by done. by destruct sm.
Qed.

Lemma r_states_union from a b : r_states (r_states from a) b = r_states from (b ∪ a).
Proof.
  apply map_eq. intros id. rewrite !r_states_lookup, lookup_union.
  destruct (from !! id), (a !! id), (b !! id); done.
Qed.

Lemma r_apply_assoc c a b : r_apply (r_apply c a) b = r_apply c (r_merge a b).
Proof. unfold r_apply, r_merge. cbn. by rewrite r_newer_assoc, r_states_union. Qed.

Lemma r_merge_reset a : r_merge a rsfu_reset = a.
Proof. destruct a. unfold r_merge, r_newer. rewrite decide_True by done. cbn. by rewrite (left_id_L ∅ (∪)). Qed.

Lemma r_known_apply c a b : r_known (r_apply c a) b <-> r_known c b.
Proof. unfold r_known, r_apply. cbn. setoid_rewrite r_states_lookup. by setoid_rewrite fmap_is_Some. Qed.

Lemma r_known_merge c a b : r_known c (r_merge a b) <-> r_known c a /\ r_known c b.
Proof.
  unfold r_known, r_merge. cbn. setoid_rewrite lookup_union_is_Some. split.
  - intros H. split; intros id Hid; apply H; tauto.
  - intros [Ha Hb] id [Hid|Hid]; [exact (Hb _ Hid)|exact (Ha _ Hid)].
Qed.

Lemma written_merge disk a b ra sb :
  s_written sb (r_written ra (s_written b (r_written a disk))) = s_written (s_merge b sb) (r_written (r_merge a ra) disk).
Proof.
  unfold s_written, r_written, s_merge, s_apply, r_merge. cbn.
  rewrite r_newer_assoc, map_fmap_union, (assoc_L (∪)). f_equal. unfold newer. repeat case_decide; congruence.
Qed.

Lemma batch_done_merge sm a b ra sb :
  batch_done (batch_done sm a b) ra sb = batch_done sm (r_merge a ra) (s_merge b sb).
Proof.
  unfold batch_done. destruct sm as [i d o q t w [ss su] [rs ru]]. cbn.
  by rewrite <- written_merge, <- r_apply_assoc, s_apply_assoc.
Qed.

Lemma batch_done_reset sm : available sm -> batch_done sm rsfu_reset ssfu_reset = sm.
Proof.
  intros (Hs & Hr & _). destruct sm as [i [drm dsm df] o q t w [ss su] [[rm rf] ru]]. cbn in *. subst. unfold batch_done, s_written, r_written, r_apply. cbn.
  rewrite s_apply_reset, fmap_empty, (left_id_L ∅ (∪)), r_states_empty.
  unfold newer, r_newer. by rewrite !decide_True by done.
Qed.

Lemma batch_done_available sm rsfu ssfu :
  available sm -> updates_ok (rsh_state (sm_requester sm)) rsfu ssfu -> available (batch_done sm rsfu ssfu).
Proof.
  intros (_ & _ & Hk & _) (Hf & _ & Hs). split_and!; [done|done| |exact (r_fine_meta _ _ Hf)].
  cbn. intros id ss [H|[_ H]]%lookup_union_Some_raw; [exact (Hs _ _ H)|exact (Hk _ _ H)].
Qed.

Lemma handleMessages_available sm msgs sm' out :
  available sm -> handleMessages sm msgs None None true = Ret (sm', out) -> available sm'.
Proof.
  intros Ha (rsfu & ssfu & H & _ & ->)%handleMessages_Ret; [|done]. apply batch_done_available; [done|].
  eapply handle_loop_ok; [|by apply updates_ok_reset|exact H]. apply Ha.
Qed.

(** Two batches in a row are one batch. *)
Lemma handleMessages_app sm ms1 ms2 sm' out :
  available sm ->
  handleMessages sm (ms1 ++ ms2) None None true = Ret (sm', out) <->
  exists sm1 out1 out2, handleMessages sm ms1 None None true = Ret (sm1, out1) /\
    handleMessages sm1 ms2 None None true = Ret (sm', out2) /\ out = out1 ++ out2.
Proof.
  intros Ha. pose proof Ha as (_ & _ & Hkeyed & _). pose proof (updates_ok_reset _ Ha) as H0.
  rewrite handleMessages_Ret by done. setoid_rewrite handle_loop_app.
  set (r := rsh_state _) in *. set (s := ssh_state _) in *.
  assert (forall a b out1, updates_ok r a b -> r_known r a ->
    handle_loop r s ms2 a b out1 =
      let! '(ra, sb, out2) := handle_loop (r_apply r a) (s_apply s b) ms2 rsfu_reset ssfu_reset [] in
      Ret (r_merge a ra, s_merge b sb, out1 ++ out2)) as Hmerge.
  { intros a b out1 (Hf & Hm & Hk) Hkn. rewrite <- (app_nil_r out1) at 1.
    rewrite <- (r_merge_reset a) at 1. rewrite <- (s_apply_reset b) at 1. rewrite handle_loop_merge; [done|done|done|].
    split; [exact (r_fine_meta _ _ Hf)|by left]. }
  split.
  - intros (rsfu & ssfu & ([[a b] out1] & H1 & H2)%obind_Ret & Hkn & ->).
    pose proof (handle_loop_ok _ _ _ _ _ _ _ _ _ Hkeyed H0 H1) as [Hok _].
    pose proof (handle_loop_ok _ _ _ _ _ _ _ _ _ Hkeyed Hok H2) as [_ Hka]. specialize (Hka Hkn).
    rewrite Hmerge in H2 by done. apply obind_Ret in H2 as ([[ra sb] out2] & H2 & [= <- <- <-]).
    apply r_known_merge in Hkn as [_ Hkn]. exists (batch_done sm a b), out1, out2. split; [|split; [|done]].
    + apply handleMessages_Ret; [done|]. by exists a, b.
    + apply handleMessages_Ret; [by apply batch_done_available|]. exists ra, sb.
      rewrite batch_done_merge. split_and!; [done| |done]. by apply r_known_apply.
  - intros (sm1 & out1 & out2 & (a & b & H1 & Hka & ->)%handleMessages_Ret & H2 & ->); [|done].
    pose proof (handle_loop_ok _ _ _ _ _ _ _ _ _ Hkeyed H0 H1) as [Hok _].
    apply handleMessages_Ret in H2 as (ra & sb & H2 & Hkn & ->); [|by apply batch_done_available].
    exists (r_merge a ra), (s_merge b sb). fold r s in H1. rewrite H1. cbn [obind]. rewrite Hmerge by done.
    cbn in H2. fold r s in H2. rewrite H2. rewrite batch_done_merge. split_and!; [done| |done].
    apply r_known_merge. split; [done|]. by apply r_known_apply in Hkn.
Qed.

Fixpoint one_by_one (sm : SupportManager) (msgs : list LivenessMessage) :
    outcome (SupportManager * list LivenessMessage) :=
  match msgs with
  | [] => Ret (sm, [])
  | msg :: msgs =>
    let! '(sm, out1) := handleMessages sm [msg] None None true in
    let! '(sm, out2) := one_by_one sm msgs in
    Ret (sm, out1 ++ out2)
  end.

(** A batch of drained messages that commits leaves the store's memory, its
    disk and its responses as if every message had been a batch of its own: within
    the batch, later messages see the changes of earlier ones, and nothing is lost
    or doubled when the update is written and checked in. *)
Theorem handleMessages_batch sm msgs sm' out :
  available sm -> handleMessages sm msgs None None true = Ret (sm', out) <-> one_by_one sm msgs = Ret (sm', out).
Proof.
  revert sm sm' out. induction msgs as [|m msgs IH]; intros sm sm' out Ha; cbn [one_by_one].
  { rewrite handleMessages_Ret by done. split.
    - intros (? & ? & [= <- <- <-] & _ & ->). by rewrite batch_done_reset.
    - intros [= <- <-]. exists rsfu_reset, ssfu_reset. rewrite batch_done_reset by done. split_and!; try done. by intros id [? ?]. }
  change (m :: msgs) with ([m] ++ msgs). rewrite handleMessages_app by done. split.
  - intros (sm1 & out1 & out2 & H1 & H2 & ->). rewrite H1. cbn [obind].
    apply IH in H2; [|by eapply handleMessages_available]. by rewrite H2.
  - intros ([sm1 out1] & H1 & ([sm2 out2] & H2 & [= <- <-])%obind_Ret)%obind_Ret. exists sm1, out1, out2.
    split_and!; [done| |done]. apply IH; [by eapply handleMessages_available|done].
Qed.

(** Two heartbeats of one store, the second with a later expiration. *)
Definition example_manager : SupportManager :=
  NewSupportManager (mkStoreIdent 1 1) (mkDisk zero_RequesterMeta zero_SupporterMeta ∅) (mkOptions 10 0).

Definition example_heartbeats : list LivenessMessage :=
  (fun t => mkLivenessMessage MsgHeartbeat (mkStoreIdent 2 2) (mkStoreIdent 1 1) 1 (mkTimestamp t 0)) <$> [12; 13].

Lemma handleMessages_batch_witness : exists r, one_by_one example_manager example_heartbeats = Ret r.
Proof.
  destruct (handleMessages example_manager example_heartbeats None None true) as [[sm out]|] eqn:H; [|by vm_compute in H].
  exists (sm, out). apply (handleMessages_batch example_manager example_heartbeats sm out); [|exact H].
  split_and!; [done|done| |done]. apply map_Forall_empty.
Defined.
