(* ===== verification/SupportFabric.v ===== *)
(** * Stores that support each other

    Any number of stores, each with its [SupportManager] and its clock, and every
    message that was ever sent: the network loses, delays, reorders and duplicates.
    A store handles what it receives, runs its loop, fails writes and commits (except
    writes into the batch for received messages, see [case_ok]), crashes at any
    point between two operations, and restarts from its disk. The clock is what
    Clock.v proves of it: a reading is later than every earlier one, and after a
    restart later than what onRestart waits for.

    [fabric_inv] holds in every reachable state. From it, what the interface
    [Fabric] promises: support that a store believes to have is provided, until the
    supporter's clock reaches its expiration. *)

From S2P Require Import Prelude Hlc StoreLiveness SupportBatch.

(** ** Steps *)

Record store : Type := mkStore { st_sm : SupportManager; st_clock : Timestamp }.

Record fabric : Type := mkFabric { fb_stores : gmap StoreIdent store; fb_net : list LivenessMessage }.

Definition empty_disk : Disk := mkDisk zero_RequesterMeta zero_SupporterMeta ∅.

(** The store [id] runs onRestart on [disk]: [t] is a reading of the clock after
    UpdateAndCheckMaxOffset and SleepUntil, [now] the one onRestart makes. *)
Definition restarted (id : StoreIdent) (disk : Disk) (t : Timestamp) (st : store) : Prop :=
  exists options,
    0 <= LivenessInterval options /\ MaxEpoch (dk_RequesterMeta disk) < MaxInt64 /\
    ts_le zero_ts t /\ ts_le (MaxWithdrawn (dk_SupporterMeta disk)) t /\
    ts_le (MaxRequested (dk_RequesterMeta disk)) t /\ ts_lt t (st_clock st) /\
    onRestart (NewSupportManager id disk options) true true (st_clock st) None = Ret (st_sm st, true).

(** The clock after a case of the loop. *)
Definition case_clock (c : loop_case) (clock : Timestamp) : Timestamp :=
  match c with HeartbeatTick _ now _ | SupportExpiryTick now _ => now | _ => clock end.

(** Readings of the clock are new, the timestamps and epochs do not overflow, and a
    batch takes its writes (it may fail to commit). *)
Definition case_ok (st : store) (c : loop_case) : Prop :=
  match c with
  | HeartbeatTick _ now _ =>
    ts_lt (st_clock st) now /\ Timestamp_valid now /\ WallTime now + LivenessInterval (sm_options (st_sm st)) <= MaxInt64
  | SupportExpiryTick now _ =>
    ts_lt (st_clock st) now /\
    map_Forall (fun _ ss => ss_Epoch ss < MaxInt64) (supportFor (ssh_state (sm_supporter (st_sm st))))
  | IdleSupportFromTick => True
  | ReceiveQueueSig n1 n2 _ => n1 = None /\ n2 = None
  end.

(** As [case_ok], except that a write to the batch of the received messages may fail. *)
Definition case_any (st : store) (c : loop_case) : Prop :=
  match c with ReceiveQueueSig _ _ _ => True | _ => case_ok st c end.

Definition with_store (f : fabric) (id : StoreIdent) (st : store) (out : list LivenessMessage) : fabric :=
  mkFabric (<[id := st]> (fb_stores f)) (out ++ fb_net f).

(** The steps of the stores; [ok] restricts the cases of the loop. *)
Inductive fabric_step_with (ok : store -> loop_case -> Prop) (f : fabric) : fabric -> Prop :=
| fs_HandleMessage id st m :
    fb_stores f !! id = Some st -> m ∈ fb_net f -> lm_To m = id ->
    fabric_step_with ok f (with_store f id (mkStore (HandleMessage (st_sm st) m) (st_clock st)) [])
| fs_SupportFrom id st id' :
    fb_stores f !! id = Some st ->
    fabric_step_with ok f (with_store f id (mkStore (fst (SupportFrom (st_sm st) id')) (st_clock st)) [])
| fs_clock id st t :
    fb_stores f !! id = Some st -> ts_le (st_clock st) t ->
    fabric_step_with ok f (with_store f id (mkStore (st_sm st) t) [])
| fs_loop id st c sm out :
    fb_stores f !! id = Some st -> ok st c -> startLoop_body (st_sm st) c = Ret (sm, out) ->
    fabric_step_with ok f (with_store f id (mkStore sm (case_clock c (st_clock st))) out)
| fs_restart id st t st' :
    fb_stores f !! id = Some st -> restarted id (sm_engine (st_sm st)) t st' ->
    fabric_step_with ok f (with_store f id st' []).

Arguments fs_HandleMessage {ok} f.
Arguments fs_SupportFrom {ok} f.
Arguments fs_clock {ok} f.
Arguments fs_loop {ok} f.
Arguments fs_restart {ok} f.

Abbreviation fabric_step := (fabric_step_with case_ok).

Definition fabric_init (f : fabric) : Prop :=
  fb_net f = [] /\ map_Forall (fun id st => exists t, restarted id empty_disk t st) (fb_stores f).

Abbreviation HB A B e x := (mkLivenessMessage MsgHeartbeat A B e x).
Abbreviation RESP B A e x := (mkLivenessMessage MsgHeartbeatResp B A e x).

(** ** The invariant *)

Abbreviation network := (list LivenessMessage).

(** Where the support ([e], [x]) of [B] for [A] comes from: a heartbeat, or the
    withdrawal of support that came from one. *)
Definition justify (net : network) (A B : StoreIdent) (e : Z) (x : Timestamp) : Prop :=
  if decide (x = zero_ts) then exists y, HB A B (e - 1) y ∈ net else HB A B e x ∈ net.

(** [B] keeps the promise ([e], [x]): it supports [A] as promised, or it withdrew
    after [x], or [A] itself went on to a later epoch. *)
Definition kept (net : network) (A B : StoreIdent) (w : Timestamp) (ss : SupportState) (e : Z) (x : Timestamp) : Prop :=
  (ss_Epoch ss = e /\ ts_le x (ss_Expiration ss)) \/
  (e < ss_Epoch ss /\ (ts_le x w \/ exists e' y, e < e' /\ HB A B e' y ∈ net)).

Record supporter_ok (net : network) (B : StoreIdent) (s : supporterState) : Prop := mkSupporterOk {
  so_justify : forall A ss, supportFor s !! A = Some ss -> justify net A B (ss_Epoch ss) (ss_Expiration ss);
  so_kept : forall A e x, RESP B A e x ∈ net -> x <> zero_ts ->
    exists ss, supportFor s !! A = Some ss /\ kept net A B (MaxWithdrawn (s_meta s)) ss e x
}.

Record requester_ok (net : network) (A : StoreIdent) (meta : RequesterMeta) (from : gmap StoreIdent SupportState) : Prop :=
  mkRequesterOk {
  ro_epoch : 1 <= MaxEpoch meta;
  ro_heartbeat : forall B e x, HB A B e x ∈ net -> e <= MaxEpoch meta /\ ts_le x (MaxRequested meta);
  ro_heartbeat_from : forall B e x ss, HB A B e x ∈ net -> from !! B = Some ss -> e <= ss_Epoch ss;
  ro_from : forall B ss, from !! B = Some ss ->
    ss_Target ss = B /\ 1 <= ss_Epoch ss <= MaxEpoch meta /\
    (ss_Expiration ss <> zero_ts -> RESP B A (ss_Epoch ss) (ss_Expiration ss) ∈ net)
}.

Record net_ok (net : network) : Prop := mkNetOk {
  no_heartbeat : forall A B e x, HB A B e x ∈ net -> 1 <= e /\ ts_lt zero_ts x;
  no_mono : forall A B e1 x1 e2 x2, HB A B e1 x1 ∈ net -> HB A B e2 x2 ∈ net -> e1 < e2 -> ts_lt x1 x2;
  no_response : forall A B e x, RESP B A e x ∈ net -> justify net A B e x
}.

(** What the supporter finds after a restart. *)
Definition on_disk (disk : Disk) : supporterState := mkSupporterState (dk_SupporterMeta disk) (dk_supportFor disk).

(** Support that is provided is on disk. *)
Definition durable (s d : supporterState) : Prop :=
  forall A ss, supportFor s !! A = Some ss -> ss_Expiration ss <> zero_ts ->
    exists ss', supportFor d !! A = Some ss' /\ ss_Epoch ss' = ss_Epoch ss /\ ss_Expiration ss' = ss_Expiration ss.

(** The states of the stores it knows, as the requester sees them. *)
Definition from (rsh : requesterStateHandler) : gmap StoreIdent SupportState := state <$> supportFrom (rsh_state rsh).

(** [interval] after [t]. *)
Definition ahead (t : Timestamp) (interval : Z) : Timestamp := mkTimestamp (WallTime t + interval) (Logical t).

Record requester_side (net : network) (id : StoreIdent) (rsh : requesterStateHandler) (disk : RequesterMeta) (interval : Z)
    (clock : Timestamp) : Prop := mkRequesterSide {
  rs_update : rsh_update rsh = None \/ rsh_update rsh = Some rsfu_reset;
  rs_ok : requester_ok net id (r_meta (rsh_state rsh)) (from rsh);
  rs_disk : disk = r_meta (rsh_state rsh);
  rs_requested : ts_le (MaxRequested disk) (ahead clock interval);
  rs_interval : 0 <= interval
}.

Record supporter_side (net : network) (id : StoreIdent) (ssh : supporterStateHandler) (disk : supporterState)
    (clock : Timestamp) : Prop := mkSupporterSide {
  ss_update : ssh_update ssh = None \/ ssh_update ssh = Some ssfu_reset;
  ss_keyed : keyed (supportFor (ssh_state ssh));
  ss_ok : supporter_ok net id (ssh_state ssh);
  ss_disk : supporter_ok net id disk;
  ss_durable : durable (ssh_state ssh) disk;
  ss_withdrawn : ts_le (MaxWithdrawn (s_meta (ssh_state ssh))) clock;
  ss_disk_withdrawn : ts_le (MaxWithdrawn (s_meta disk)) (MaxWithdrawn (s_meta (ssh_state ssh)))
}.

Record store_ok (net : network) (id : StoreIdent) (st : store) : Prop := mkStoreOk {
  sk_id : sm_storeID (st_sm st) = id;
  sk_queue : Forall (fun m => m ∈ net /\ lm_To m = id) (sm_receiveQueue (st_sm st));
  sk_requester : requester_side net id (sm_requester (st_sm st)) (dk_RequesterMeta (sm_engine (st_sm st)))
    (LivenessInterval (sm_options (st_sm st))) (st_clock st);
  sk_supporter : supporter_side net id (sm_supporter (st_sm st)) (on_disk (sm_engine (st_sm st))) (st_clock st);
  sk_clock : ts_le zero_ts (st_clock st)
}.

Definition fabric_inv (f : fabric) : Prop :=
  net_ok (fb_net f) /\ map_Forall (store_ok (fb_net f)) (fb_stores f).

(** ** What the operations do to the parts of a store *)

Lemma net_cons (m : LivenessMessage) net : net ⊆ m :: net.
Proof. intros x. by right. Qed.

Lemma net_app (out net : network) : net ⊆ out ++ net.
Proof. intros x. rewrite elem_of_app. tauto. Qed.

Lemma justify_grow net net' A B e x : net ⊆ net' -> justify net A B e x -> justify net' A B e x.
Proof. unfold justify. intros H. case_decide; [intros [y Hy]; exists y|]; auto. Qed.

Lemma kept_grow net net' A B w ss e x : net ⊆ net' -> kept net A B w ss e x -> kept net' A B w ss e x.
Proof.
  intros H [K|[He [K|(e' & y & He' & K)]]]; [by left|right; by auto|].
  right. split; [done|]. right. exists e', y. auto.
Qed.

Lemma supporter_ok_grow net net' B s :
  net ⊆ net' -> (forall A e x, RESP B A e x ∈ net' -> RESP B A e x ∈ net) ->
  supporter_ok net B s -> supporter_ok net' B s.
Proof.
  intros Hn Hr [Hj Hk]. split.
  - intros A ss H. eapply justify_grow; [done|by apply Hj].
  - intros A e x H Hx. destruct (Hk A e x) as (ss & Hss & K); [by apply Hr|done|].
    exists ss. split; [done|]. by eapply kept_grow.
Qed.

Lemma requester_ok_grow net net' A meta from :
  net ⊆ net' -> (forall B e x, HB A B e x ∈ net' -> HB A B e x ∈ net) ->
  requester_ok net A meta from -> requester_ok net' A meta from.
Proof. intros Hn Hr []. split; [done|eauto..|]. intros B ss H. destruct (ro_from0 B ss H) as (? & ? & ?). auto. Qed.

(** Promises are about positive times. *)
Lemma response_positive net A B e x : net_ok net -> RESP B A e x ∈ net -> x <> zero_ts -> ts_lt zero_ts x.
Proof.
  intros Hn Hr Hx. apply (no_response _ Hn) in Hr. unfold justify in Hr. rewrite decide_False in Hr by done.
  apply (no_heartbeat _ Hn) in Hr. tauto.
Qed.

Lemma supporter_ok_insert net A B s ss :
  supporter_ok net B s -> HB A B (ss_Epoch ss) (ss_Expiration ss) ∈ net -> ss_Expiration ss <> zero_ts ->
  (forall e x, RESP B A e x ∈ net -> x <> zero_ts ->
     e <= ss_Epoch ss /\ (e = ss_Epoch ss -> ts_le x (ss_Expiration ss))) ->
  supporter_ok net B (s <| supportFor := <[A := ss]> (supportFor s) |>).
Proof.
  intros [Hj Hk] Hb Hx Hp. split; cbn.
  - intros A' ss'. destruct (decide (A = A')) as [<-|N].
    + rewrite lookup_insert_eq. intros [= <-]. unfold justify. by rewrite decide_False.
    + rewrite lookup_insert_ne by done. apply Hj.
  - intros A' e x Hr Hx'. destruct (decide (A = A')) as [<-|N].
    + rewrite lookup_insert_eq. exists ss. split; [done|]. destruct (Hp e x Hr Hx') as [He Hle].
      destruct (decide (e = ss_Epoch ss)); [left; auto|]. right. split; [lia|]. right. exists (ss_Epoch ss), (ss_Expiration ss).
      split; [lia|done].
    + rewrite lookup_insert_ne by done. auto.
Qed.

Lemma supporter_ok_respond net A B s e x :
  supporter_ok net B s ->
  (x <> zero_ts -> exists ss, supportFor s !! A = Some ss /\ ss_Epoch ss = e /\ ss_Expiration ss = x) ->
  supporter_ok (RESP B A e x :: net) B s.
Proof.
  intros [Hj Hk] Hs. split.
  - intros A' ss H. eapply justify_grow; [apply net_cons|by apply Hj].
  - intros A' e' x' [[= -> -> ->]|H]%elem_of_cons Hx.
    + destruct (Hs Hx) as (ss & ? & <- & <-). exists ss. split; [done|]. by left.
    + destruct (Hk A' e' x' H Hx) as (ss & ? & K). exists ss. split; [done|]. by apply kept_grow with net, K; apply net_cons.
Qed.

(** The state a store has for [A] before a message from it. *)
Definition support_of (A : StoreIdent) (s : supporterState) : SupportState :=
  default (mkSupportState A 0 zero_ts) (supportFor s !! A).

Lemma supporter_ok_bounds net A B s e x :
  net_ok net -> supporter_ok net B s -> RESP B A e x ∈ net -> x <> zero_ts ->
  e <= ss_Epoch (support_of A s) /\ (e = ss_Epoch (support_of A s) -> ts_le x (ss_Expiration (support_of A s))).
Proof.
  intros Hn Hs Hr Hx. destruct (so_kept _ _ _ Hs _ _ _ Hr Hx) as (ss & Hss & K). unfold support_of. rewrite Hss. cbn.
  unfold kept in K. destruct K as [[-> ?]|[? ?]]; split; lia || done.
Qed.

(** A heartbeat leaves the state as it is or makes it what it asks for. *)
Lemma handleHeartbeat_cases ss msg ss' :
  handleHeartbeat ss msg = Ret ss' ->
  (ss' = ss /\ (ss_Epoch ss = lm_Epoch msg -> ts_le (lm_Expiration msg) (ss_Expiration ss)) /\ lm_Epoch msg <= ss_Epoch ss) \/
  (ss' = mkSupportState (ss_Target ss) (lm_Epoch msg) (lm_Expiration msg) /\ ss_Epoch ss <= lm_Epoch msg /\
   ts_lt (ss_Expiration ss) (lm_Expiration msg)).
Proof.
  intros H. destruct ss as [T e x]. unfold handleHeartbeat in H. cbn [ss_Epoch ss_Expiration ss_Target] in *.
  destruct (e =? lm_Epoch msg) eqn:E1; bool_to_prop; [|destruct (e <? lm_Epoch msg) eqn:E2; bool_to_prop].
  - injection H as <-. unfold Timestamp_Forward. destruct (Timestamp_Less x (lm_Expiration msg)) eqn:L; cbn.
    + right. apply Timestamp_Less_spec in L. subst e. split; [done|]. split; [lia|done].
    + left. split; [done|]. split; [|lia]. intros _. by apply Timestamp_Less_false.
  - unfold assert in H. destruct (Timestamp_Less x (lm_Expiration msg)) eqn:L; [|done]. injection H as <-. cbn.
    right. apply Timestamp_Less_spec in L. split; [done|]. split; [lia|done].
  - injection H as <-. left. split; [done|]. split; [|lia]. intros; lia.
Qed.

Lemma support_of_positive net A B s :
  net_ok net -> supporter_ok net B s -> 1 <= ss_Epoch (support_of A s) ->
  justify net A B (ss_Epoch (support_of A s)) (ss_Expiration (support_of A s)) /\
  is_Some (supportFor s !! A).
Proof.
  intros Hn Hs H. unfold support_of in *. destruct (supportFor s !! A) as [ss|] eqn:E; cbn in *; [|lia].
  split; [exact (so_justify _ _ _ Hs _ _ E)|done].
Qed.

Lemma net_ok_response net A B e x : net_ok net -> justify net A B e x -> net_ok (RESP B A e x :: net).
Proof.
  intros [Hh Hm Hr] Hj. split.
  - intros A' B' e' x' [?|H]%elem_of_cons; [done|]. eauto.
  - intros A' B' e1 x1 e2 x2 [?|H1]%elem_of_cons [?|H2]%elem_of_cons; try done. eauto.
  - intros A' B' e' x' H. apply justify_grow with net; [apply net_cons|].
    apply elem_of_cons in H as [[= -> -> -> ->]|H]; [done|]. by apply Hr.
Qed.

Lemma ahead_le t t' i : ts_le t t' -> ts_le (ahead t i) (ahead t' i).
Proof. ts_crush. lia. Qed.

Lemma requester_side_grow net net' id rsh disk i clock clock' :
  net ⊆ net' -> (forall B e x, HB id B e x ∈ net' -> HB id B e x ∈ net) -> ts_le clock clock' ->
  requester_side net id rsh disk i clock -> requester_side net' id rsh disk i clock'.
Proof.
  intros Hn Hh Hc []. split; try done; [by eapply requester_ok_grow|]. etrans; [done|]. by apply ahead_le.
Qed.

Lemma supporter_side_grow net net' id ssh disk clock clock' :
  net ⊆ net' -> (forall A e x, RESP id A e x ∈ net' -> RESP id A e x ∈ net) -> ts_le clock clock' ->
  supporter_side net id ssh disk clock -> supporter_side net' id ssh disk clock'.
Proof. intros Hn Hr Hc []. split; try done; [by eapply supporter_ok_grow..|]. by etrans. Qed.

(** *** Heartbeats received *)

(** The supporter after it changed its state for [A] to [ss], in a batch. *)
Definition with_support (sm : SupportManager) (A : StoreIdent) (ss : SupportState) : SupportManager :=
  sm <| sm_engine := sm_engine sm <| dk_supportFor := <[A := cleared ss]> (dk_supportFor (sm_engine sm)) |> |>
     <| sm_supporter := mkSsh (ssh_state (sm_supporter sm) <| supportFor := <[A := ss]> (supportFor (ssh_state (sm_supporter sm))) |>)
                          (Some ssfu_reset) |>.

Lemma batch_done_support sm A ss :
  available sm -> batch_done sm rsfu_reset (mkSupporterState zero_SupporterMeta {[A := ss]}) = with_support sm A ss.
Proof.
  intros (Hs & Hr & _). destruct sm as [i [drm dsm df] o q t w [[m f] su] [[rm rf] ru]]. cbn in *. subst.
  unfold batch_done, with_support, s_written, r_written, r_apply, s_apply. cbn.
  rewrite map_fmap_singleton, <- !insert_union_singleton_l, r_states_empty. unfold newer, r_newer.
  by rewrite !decide_True by done.
Qed.

Lemma handle_heartbeat_Ret sm A B e x sm' out :
  available sm -> handleMessages sm [HB A B e x] None None true = Ret (sm', out) ->
  exists ss', handleHeartbeat (support_of A (ssh_state (sm_supporter sm))) (HB A B e x) = Ret ss' /\
    out = [RESP B A (ss_Epoch ss') (ss_Expiration ss')] /\
    sm' = if decide (support_of A (ssh_state (sm_supporter sm)) = ss') then sm else with_support sm A ss'.
Proof.
  intros Ha (rsfu & ssfu & H & _ & ->)%handleMessages_Ret; [|done]. cbn in H.
  unfold ssfu_handleHeartbeat in H. rewrite ssfu_getSupportFor_eq, s_apply_reset in H. cbn [lm_From] in H.
  fold (support_of A (ssh_state (sm_supporter sm))) in H.
  destruct (handleHeartbeat _ _) as [ss'|]; [|done]. cbn in H. injection H as <- <- <-. exists ss'. split_and!; try done.
  case_bool_decide; case_decide; try done; [by apply batch_done_reset|]. by apply batch_done_support.
Qed.

Lemma supporter_side_heartbeat net A B e x ss sm clock :
  let S := ssh_state (sm_supporter sm) in
  net_ok net -> HB A B e x ∈ net -> supporter_side net B (sm_supporter sm) (on_disk (sm_engine sm)) clock ->
  handleHeartbeat (support_of A S) (HB A B e x) = Ret ss -> support_of A S <> ss ->
  let sm' := with_support sm A ss in
  supporter_side net B (sm_supporter sm') (on_disk (sm_engine sm')) clock /\ HB A B (ss_Epoch ss) (ss_Expiration ss) ∈ net /\
  ss_Expiration ss <> zero_ts.
Proof.
  intros S Hn Hm [] H Hne sm'. pose proof (no_heartbeat _ Hn _ _ _ _ Hm) as [_ Hx].
  assert (x <> zero_ts) as Hx0 by (intros ->; by apply Hx).
  apply handleHeartbeat_cases in H as [[-> _]|(-> & He & Hlt)]; [done|]. cbn in He, Hlt |- *.
  assert (ss_Target (support_of A S) = A) as ->.
  { unfold support_of. destruct (supportFor S !! A) eqn:E; [by apply ss_keyed0 in E|done]. }
  split; [|done]. set (ss := mkSupportState A e x).
  assert (forall e1 x1, RESP B A e1 x1 ∈ net -> x1 <> zero_ts -> e1 <= e /\ (e1 = e -> ts_le x1 x)) as Hp.
  { intros e1 x1 Hr H1. destruct (supporter_ok_bounds _ _ _ _ _ _ Hn ss_ok0 Hr H1) as [Hb1 Hb2]. fold S in Hb1, Hb2.
    split; [lia|]. intros ->. assert (e = ss_Epoch (support_of A S)) as Heq by lia. specialize (Hb2 Heq).
    etrans; [exact Hb2|]. destruct (total ts_le (ss_Expiration (support_of A S)) x); [done|]. by destruct Hlt. }
  split; try done.
  - by right.
  - cbn. by apply map_Forall_insert_2.
  - by apply (supporter_ok_insert net A B S ss).
  - by apply (supporter_ok_insert net A B (on_disk (sm_engine sm)) (cleared ss)).
  - intros A' ss1. cbn. destruct (decide (A = A')) as [<-|N].
    + rewrite !lookup_insert_eq. intros [= <-] _. by exists (cleared ss).
    + rewrite !lookup_insert_ne by done. apply ss_durable0.
Qed.

Lemma supporter_side_respond net A B ssh disk clock e x :
  supporter_side net B ssh disk clock ->
  (x <> zero_ts -> exists ss, supportFor (ssh_state ssh) !! A = Some ss /\ ss_Epoch ss = e /\ ss_Expiration ss = x) ->
  supporter_side (RESP B A e x :: net) B ssh disk clock.
Proof.
  intros [] H. split; try done; apply supporter_ok_respond; try done.
  intros Hx. destruct (H Hx) as (ss & Hss & <- & <-). destruct (ss_durable0 _ _ Hss Hx) as (ss' & ? & ? & ?). by exists ss'.
Qed.

Lemma supporter_side_response net A B e x ss sm clock :
  let S := ssh_state (sm_supporter sm) in
  let sm' := if decide (support_of A S = ss) then sm else with_support sm A ss in
  let m := RESP B A (ss_Epoch ss) (ss_Expiration ss) in
  net_ok net -> HB A B e x ∈ net -> supporter_side net B (sm_supporter sm) (on_disk (sm_engine sm)) clock ->
  handleHeartbeat (support_of A S) (HB A B e x) = Ret ss ->
  supporter_side (m :: net) B (sm_supporter sm') (on_disk (sm_engine sm')) clock /\ net_ok (m :: net).
Proof.
  intros S sm' m Hn Hm Hs H. subst sm'. case_decide as E.
  - assert (1 <= ss_Epoch (support_of A S)) as He.
    { pose proof (no_heartbeat _ Hn _ _ _ _ Hm) as [? Hx].
      apply handleHeartbeat_cases in H as [(_ & _ & ?)|(Hss & _ & Hlt)]; [cbn in *; lia|].
      rewrite E, Hss. cbn. lia. }
    pose proof (support_of_positive _ _ _ _ Hn (ss_ok _ _ _ _ _ Hs) He) as [Hj [ss' Hss]].
    fold S in Hj, Hss. rewrite E in Hj.
    split; [|by apply net_ok_response]. apply supporter_side_respond; [done|]. intros _. exists ss'.
    unfold support_of in E. fold S. rewrite Hss in E. cbn in E. by subst.
  - destruct (supporter_side_heartbeat _ _ _ _ _ _ _ _ Hn Hm Hs H E) as (Hs' & Hb & Hx).
    split; [|apply net_ok_response; [done|]; unfold justify; by rewrite decide_False].
    apply supporter_side_respond; [done|]. intros _. exists ss. cbn. by rewrite lookup_insert_eq.
Qed.

Lemma net_cons_type net m B A e x :
  lm_Type m = MsgHeartbeatResp -> HB A B e x ∈ m :: net -> HB A B e x ∈ net.
Proof. by intros H [<-|?]%elem_of_cons. Qed.

Lemma queue_grow (net net' : network) (id : StoreIdent) q :
  net ⊆ net' -> Forall (fun m => m ∈ net /\ lm_To m = id) q -> Forall (fun m => m ∈ net' /\ lm_To m = id) q.
Proof. intros Hn Hq. eapply Forall_impl; [exact Hq|]. intros m [? ?]. auto. Qed.

(** A heartbeat handled as a batch of its own. *)
Lemma store_heartbeat net id st A e x sm out :
  net_ok net -> store_ok net id st -> available (st_sm st) -> HB A id e x ∈ net ->
  handleMessages (st_sm st) [HB A id e x] None None true = Ret (sm, out) ->
  net_ok (out ++ net) /\ store_ok (out ++ net) id (mkStore sm (st_clock st)) /\ Forall (fun m => lm_From m = id) out.
Proof.
  intros Hn [] Ha Hm H. destruct (handle_heartbeat_Ret _ _ _ _ _ _ _ Ha H) as (ss & Hh & -> & ->).
  pose proof (supporter_side_response _ _ _ _ _ _ _ _ Hn Hm sk_supporter0 Hh) as [Hs Hn'].
  split; [done|]. split; [|by repeat constructor]. split; try done.
  - cbn. by case_decide.
  - apply queue_grow with net; [apply net_app|]. cbn. by case_decide.
  - apply requester_side_grow with net (st_clock st); [apply net_app| |done|cbn; by case_decide].
    intros B e' x'. by apply net_cons_type.
Qed.

(** *** Responses received *)

(** What a requester has of [B] before a message from it. *)
Definition requested_of (B : StoreIdent) (rsh : requesterStateHandler) : SupportState :=
  default (mkSupportState B 0 zero_ts) (from rsh !! B).

Definition response_update (m m' : RequesterMeta) (B : StoreIdent) (ss ss' : SupportState) : requesterStateForUpdate :=
  mkRsfu (if bool_decide (m = m') then zero_RequesterMeta else m') (if bool_decide (ss = ss') then ∅ else {[B := ss']}).

Lemma handle_response_Ret sm A B e x sm' out :
  available sm -> handleMessages sm [RESP B A e x] None None true = Ret (sm', out) ->
  let m := r_meta (rsh_state (sm_requester sm)) in
  let ss := requested_of B (sm_requester sm) in
  exists m' ss', handleHeartbeatResponse m ss (RESP B A e x) = Ret (m', ss') /\ out = [] /\
    (ss <> ss' -> is_Some (from (sm_requester sm) !! B)) /\
    sm' = batch_done sm (response_update m m' B ss ss') ssfu_reset.
Proof.
  intros Ha (rsfu & ssfu & H & Hk & ->)%handleMessages_Ret m ss; [|done]. cbn in H.
  unfold rsfu_handleHeartbeatResponse in H. rewrite rsfu_getMeta_eq in H by (split; [apply Ha|by left]).
  unfold r_newer in H. rewrite decide_True in H by done. cbn [obind lm_From] in H. fold m in H.
  replace (default _ (rsfu_getSupportFrom _ _ _)) with ss in H.
  2: { unfold rsfu_getSupportFrom, ss, requested_of, from. cbn. by rewrite lookup_fmap. }
  destruct (handleHeartbeatResponse m ss _) as [[m' ss']|]; [|done]. cbn in H. injection H as <- <- <-.
  exists m', ss'. split_and!; try done.
  - intros N. specialize (Hk B). unfold from. rewrite lookup_fmap, fmap_is_Some. apply Hk.
    rewrite (bool_decide_eq_false_2 (ss = ss')) by done. cbn. by rewrite lookup_insert_eq.
  - f_equal. unfold response_update. by repeat case_bool_decide.
Qed.

Lemma handleHeartbeatResponse_cases rm ss msg rm' ss' :
  handleHeartbeatResponse rm ss msg = Ret (rm', ss') ->
  rm' = mkRequesterMeta (Z.max (MaxEpoch rm) (lm_Epoch msg)) (MaxRequested rm) /\
  ((ss' = ss /\ lm_Epoch msg <= ss_Epoch ss /\
    (ss_Epoch ss = lm_Epoch msg -> ts_le (lm_Expiration msg) (ss_Expiration ss))) \/
   (ss' = mkSupportState (ss_Target ss) (lm_Epoch msg) (lm_Expiration msg) /\ ss_Epoch ss <= lm_Epoch msg)).
Proof.
  intros H. pose proof (handleHeartbeatResponse_meta _ _ _ _ _ H) as [Hm _]. split; [done|]. clear Hm.
  destruct ss as [T e x]. unfold handleHeartbeatResponse, assert in H. cbn [ss_Epoch ss_Expiration ss_Target] in *.
  destruct (e =? lm_Epoch msg) eqn:E1; bool_to_prop; [|destruct (e <? lm_Epoch msg) eqn:E2; bool_to_prop].
  - injection H as _ <-. unfold Timestamp_Forward. destruct (Timestamp_Less x (lm_Expiration msg)) eqn:L; cbn; subst e.
    + right. split; [done|lia].
    + left. split; [done|]. split; [lia|]. intros _. by apply Timestamp_Less_false.
  - repeat (case_match; [|done]). injection H as _ <-. right. split; [done|]. cbn. lia.
  - injection H as _ <-. left. split; [done|]. split; [lia|]. intros; lia.
Qed.

Lemma requester_ok_meta net A meta meta' from :
  requester_ok net A meta from -> MaxEpoch meta <= MaxEpoch meta' -> ts_le (MaxRequested meta) (MaxRequested meta') ->
  requester_ok net A meta' from.
Proof.
  intros [] He Hr. split; [lia| |done|].
  - intros B e x H. destruct (ro_heartbeat0 _ _ _ H). split; [lia|]. by etrans.
  - intros B ss H. destruct (ro_from0 _ _ H) as (? & ? & ?). split_and!; done || lia.
Qed.

Lemma requester_ok_insert net A B meta from ss ss' :
  requester_ok net A meta from -> from !! B = Some ss -> ss_Target ss' = B ->
  ss_Epoch ss <= ss_Epoch ss' <= MaxEpoch meta -> RESP B A (ss_Epoch ss') (ss_Expiration ss') ∈ net ->
  requester_ok net A meta (<[B := ss']> from).
Proof.
  intros [] Hss HT He Hr. pose proof (ro_from0 _ _ Hss) as (_ & He1 & _). split; try done.
  - intros B' e x s H. destruct (decide (B = B')) as [<-|N].
    + rewrite lookup_insert_eq. intros [= <-]. pose proof (ro_heartbeat_from0 _ _ _ _ H Hss). lia.
    + rewrite lookup_insert_ne by done. by apply ro_heartbeat_from0 with x.
  - intros B' s. destruct (decide (B = B')) as [<-|N].
    + rewrite lookup_insert_eq. intros [= <-]. split_and!; done || lia.
    + rewrite lookup_insert_ne by done. apply ro_from0.
Qed.

Lemma from_response rsh B m' ss ss' u :
  (ss <> ss' -> is_Some (from rsh !! B)) ->
  from (mkRsh (r_apply (rsh_state rsh) (response_update (r_meta (rsh_state rsh)) m' B ss ss')) u) =
    if decide (ss = ss') then from rsh else <[B := ss']> (from rsh).
Proof.
  intros Hk. unfold from, response_update. cbn. case_bool_decide as E; case_decide as D; try done.
  { by rewrite r_states_empty. }
  apply map_eq. intros id. rewrite lookup_fmap, r_states_lookup. specialize (Hk E).
  destruct (decide (B = id)) as [<-|N].
  - rewrite lookup_insert_eq, lookup_singleton_eq. unfold from in Hk. rewrite lookup_fmap, fmap_is_Some in Hk.
    by destruct Hk as [rs ->].
  - rewrite lookup_insert_ne, lookup_singleton_ne, lookup_fmap by done. by destruct (supportFrom _ !! id) as [[]|].
Qed.

(** A response handled as a batch of its own. *)
Lemma requester_side_response net A B e x sm m' ss' i clock :
  let m := r_meta (rsh_state (sm_requester sm)) in
  let ss := requested_of B (sm_requester sm) in
  let sm' := batch_done sm (response_update m m' B ss ss') ssfu_reset in
  requester_side net A (sm_requester sm) (dk_RequesterMeta (sm_engine sm)) i clock ->
  RESP B A e x ∈ net -> handleHeartbeatResponse m ss (RESP B A e x) = Ret (m', ss') ->
  (ss <> ss' -> is_Some (from (sm_requester sm) !! B)) ->
  requester_side net A (sm_requester sm') (dk_RequesterMeta (sm_engine sm')) i clock.
Proof.
  intros m ss sm' [] Hr H Hk. pose proof (ro_epoch _ _ _ _ rs_ok0) as He.
  apply handleHeartbeatResponse_cases in H as [Hm H]. cbn [lm_Epoch lm_Expiration] in Hm, H.
  assert (forall d, d = m -> r_newer d (if bool_decide (m = m') then zero_RequesterMeta else m') = m') as Hnew.
  { intros d ->. unfold r_newer. case_bool_decide; [by rewrite decide_True|]. rewrite decide_False; [done|].
    intros Hz. rewrite Hm in Hz. injection Hz. fold m in He. lia. }
  assert (r_meta (rsh_state (sm_requester sm')) = m') as Hmeta by by apply Hnew.
  assert (dk_RequesterMeta (sm_engine sm') = m') as Hdisk by by apply Hnew.
  assert (from (sm_requester sm') = if decide (ss = ss') then from (sm_requester sm) else <[B := ss']> (from (sm_requester sm)))
    as Hfrom by by apply from_response.
  split; try done; [by right|..]; rewrite ?Hmeta, ?Hdisk, ?Hfrom.
  - assert (requester_ok net A m' (from (sm_requester sm))) as Hok.
    { apply requester_ok_meta with m; [done|rewrite Hm; cbn; lia|by rewrite Hm]. }
    case_decide as D; [done|]. destruct H as [[? _]|[Hss Hle]]; [done|]. specialize (Hk D) as [s Hs].
    unfold ss, requested_of in Hss, Hle. rewrite Hs in Hss, Hle. cbn in Hss, Hle.
    apply requester_ok_insert with s; [done|done| | |by rewrite Hss].
    + rewrite Hss. apply (ro_from _ _ _ _ Hok _ _ Hs).
    + rewrite Hss, Hm. cbn. lia.
  - done.
  - rewrite Hm. cbn. by rewrite rs_disk0 in rs_requested0.
Qed.

Lemma batch_done_requester sm rsfu :
  available sm -> sm_supporter (batch_done sm rsfu ssfu_reset) = sm_supporter sm /\
  on_disk (sm_engine (batch_done sm rsfu ssfu_reset)) = on_disk (sm_engine sm).
Proof.
  intros (Hs & _). cbn. rewrite s_apply_reset. split.
  - destruct (sm_supporter sm). cbn in *. by subst.
  - unfold on_disk. cbn. rewrite fmap_empty, (left_id_L ∅ (∪)). unfold newer. by rewrite decide_True.
Qed.

Lemma store_response net id st B e x sm out :
  net_ok net -> store_ok net id st -> available (st_sm st) -> RESP B id e x ∈ net ->
  handleMessages (st_sm st) [RESP B id e x] None None true = Ret (sm, out) ->
  out = [] /\ store_ok net id (mkStore sm (st_clock st)).
Proof.
  intros Hn [] Ha Hm H. destruct (handle_response_Ret _ _ _ _ _ _ _ Ha H) as (m' & ss' & Hh & -> & Hk & ->).
  split; [done|]. split; try done.
  - by apply (requester_side_response net id B e x).
  - cbn [st_sm st_clock]. destruct (batch_done_requester (st_sm st) (response_update (r_meta (rsh_state (sm_requester (st_sm st)))) m' B
      (requested_of B (sm_requester (st_sm st))) ss') Ha) as [Hs Hd]. by rewrite Hs, Hd.
Qed.

(** *** Withdrawals *)

Definition withdrawn (now : Timestamp) (m : gmap StoreIdent SupportState) : gmap StoreIdent SupportState :=
  omap (fun ss => if decide (ss = maybeWithdrawSupport ss now) then None else Some (maybeWithdrawSupport ss now)) m.

Definition withdrawn_meta (now : Timestamp) (old : SupporterMeta) (m : gmap StoreIdent SupportState) : SupporterMeta :=
  if decide (m = ∅) then old else mkSupporterMeta now.

Lemma withdraw_loop_eq c now l ssfu :
  NoDup l.*1 -> ts_lt (MaxWithdrawn (s_meta c)) now -> now <> zero_ts ->
  s_meta ssfu = zero_SupporterMeta \/ s_meta ssfu = mkSupporterMeta now ->
  withdraw_loop c now l ssfu =
    Ret (mkSupporterState (withdrawn_meta now (s_meta ssfu) (withdrawn now (list_to_map l)))
           (withdrawn now (list_to_map l) ∪ supportFor ssfu)).
Proof.
  intros Hl Hw Hz. revert ssfu. induction l as [|[id ss] l IH]; intros ssfu Hm.
  { unfold withdrawn, withdrawn_meta. cbn. rewrite omap_empty, decide_True, (left_id_L ∅ (∪)) by done. by destruct ssfu. }
  rewrite fmap_cons in Hl. apply NoDup_cons in Hl as [Hi Hl]. specialize (IH Hl).
  assert (list_to_map l !! id = None) as Hn by by apply not_elem_of_list_to_map_1.
  cbn [withdraw_loop list_to_map foldr fst snd uncurry]. unfold withdrawn. rewrite omap_insert. fold (withdrawn now).
  case_bool_decide as E; case_decide as D; try done.
  { rewrite delete_id by (unfold withdrawn; by rewrite lookup_omap, Hn). by apply IH. }
  unfold ssfu_getMeta. cbn [s_meta set_field].
  assert (forall m, ssfu_assertMeta c (mkSupporterState (mkSupporterMeta now) m) = Ret tt) as Ha.
  { intros m. apply s_assertMeta; [right|].
    - cbn. destruct (total ts_le (MaxWithdrawn (s_meta c)) now); [done|]. by destruct Hw.
    - cbn. intros [= ?]. by apply Hz. }
  assert (mkSupporterMeta now <> zero_SupporterMeta) as Hnz by (intros [= ?]; by apply Hz).
  set (m1 := <[id := maybeWithdrawSupport ss now]> (supportFor ssfu)).
  transitivity (withdraw_loop c now l (mkSupporterState (mkSupporterMeta now) m1)).
  - destruct ssfu as [sm f]. cbn in Hm. destruct Hm as [->| ->].
    + cbn. rewrite bool_decide_eq_true_2 by done. cbn [negb obind]. unfold Timestamp_Forward. rewrite (proj2 (Timestamp_Less_spec _ _) Hw). done.
    + cbn. rewrite (bool_decide_eq_false_2 _ Hnz). cbn. change (_ <| supportFor := m1 |>) with (mkSupporterState (mkSupporterMeta now) m1).
      rewrite Ha. cbn. unfold Timestamp_Forward. by destruct (Timestamp_Less now now).
  - rewrite IH by by right. cbn. unfold withdrawn_meta at 2. rewrite decide_False by apply insert_non_empty.
    unfold m1. rewrite <- insert_union_l, insert_union_r by (unfold withdrawn; by rewrite lookup_omap, Hn).
    unfold withdrawn_meta. by case_decide.
Qed.

Lemma ssfu_withdrawSupport_eq c now :
  ts_lt (MaxWithdrawn (s_meta c)) now -> now <> zero_ts ->
  ssfu_withdrawSupport c ssfu_reset now =
    Ret (mkSupporterState (withdrawn_meta now zero_SupporterMeta (withdrawn now (supportFor c))) (withdrawn now (supportFor c))).
Proof.
  intros Hw Hz. unfold ssfu_withdrawSupport. rewrite assert_true by done. cbn [obind].
  rewrite withdraw_loop_eq by (try exact (NoDup_fst_map_to_list _); try done; by left).
  rewrite list_to_map_to_list. cbn [supportFor ssfu_reset]. by rewrite (right_id_L ∅ (∪)).
Qed.

(** What of the writes reached the disk: none, or the metadata and some states. *)
Definition partly_written (ssfu : supporterState) (d d' : Disk) : Prop :=
  dk_RequesterMeta d' = dk_RequesterMeta d /\
  (on_disk d' = on_disk d \/
   (dk_SupporterMeta d' = s_meta ssfu /\
    forall A, dk_supportFor d' !! A = dk_supportFor d !! A \/
      exists ss, supportFor ssfu !! A = Some ss /\ dk_supportFor d' !! A = Some (cleared ss))).

Lemma writes_prefix n puts disk ok disk' :
  writes n puts disk = (ok, disk') -> exists k, disk' = foldl (fun d put => put d) disk (take k puts).
Proof.
  revert n disk. induction puts as [|put puts IH]; intros n disk; cbn.
  { intros [= <- <-]. by exists 0%nat. }
  destruct n as [[|n]|].
  - intros [= <- <-]. by exists 0%nat.
  - intros H. destruct (IH _ _ H) as [k ->]. by exists (S k).
  - intros H. destruct (IH _ _ H) as [k ->]. by exists (S k).
Qed.

Lemma ssfu_write_partly c ssfu n disk ok disk' :
  s_meta ssfu <> zero_SupporterMeta -> s_fine c ssfu -> keyed (supportFor ssfu) ->
  ssfu_write c ssfu n disk = Ret (ok, disk') -> partly_written ssfu disk disk'.
Proof.
  intros Hz Hf Hk H. unfold ssfu_write in H. rewrite (bool_decide_eq_false_2 _ Hz) in H. cbn [andb negb] in H.
  rewrite s_assertMeta in H by done. cbn [obind app] in H. apply Ret_inj in H.
  apply writes_prefix in H as [[|k] ->]; [by split; [|left]|]. rewrite firstn_cons. cbn [foldl]. rewrite <- fmap_take.
  assert (take k (map_to_list (supportFor ssfu)) ⊆ map_to_list (supportFor ssfu)) as Hsub.
  { intros p. rewrite <- (take_drop k (map_to_list (supportFor ssfu))) at 2. rewrite elem_of_app. tauto. }
  assert (NoDup (take k (map_to_list (supportFor ssfu))).*1) as Hnd.
  { pose proof (NoDup_fst_map_to_list (supportFor ssfu)) as Hn.
    rewrite <- (take_drop k (map_to_list (supportFor ssfu))), fmap_app in Hn. by apply NoDup_app in Hn as [? _]. }
  rewrite put_states; [|apply Forall_forall|done].
  2: { intros [A ss] Hin. apply Hsub, elem_of_map_to_list in Hin. exact (Hk _ _ Hin). }
  split; [done|]. right. split; [done|]. intros A. cbn. set (l := _ <$> _).
  destruct ((list_to_map l : gmap StoreIdent SupportState) !! A) as [ss|] eqn:E; [|left; by rewrite lookup_union_r].
  right. pose proof E as E'. apply elem_of_list_to_map_2, list_elem_of_fmap in E as ([A' ss'] & [= <- ->] & Hin).
  apply Hsub, elem_of_map_to_list in Hin. exists ss'. split; [done|]. by apply lookup_union_Some_l.
Qed.

Lemma supporter_ok_withdraw net B s s' :
  supporter_ok net B s -> ts_le (MaxWithdrawn (s_meta s)) (MaxWithdrawn (s_meta s')) ->
  (forall A, supportFor s' !! A = supportFor s !! A \/
     exists ss ss', supportFor s !! A = Some ss /\ supportFor s' !! A = Some ss' /\
       ss_Expiration ss <> zero_ts /\ ts_le (ss_Expiration ss) (MaxWithdrawn (s_meta s')) /\
       ss_Epoch ss' = ss_Epoch ss + 1 /\ ss_Expiration ss' = zero_ts) ->
  supporter_ok net B s'.
Proof.
  intros [Hj Hk] Hw Hs. split.
  - intros A ss1 H1. destruct (Hs A) as [E|(ss & ss' & H & H' & Hx & _ & He & Hx')]; [apply Hj; congruence|].
    assert (ss1 = ss') as -> by congruence. specialize (Hj _ _ H). unfold justify in *.
    rewrite decide_False in Hj by done. rewrite He, Hx', decide_True by done. exists (ss_Expiration ss).
    by replace (ss_Epoch ss + 1 - 1) with (ss_Epoch ss) by lia.
  - intros A e x Hr Hx. destruct (Hk A e x Hr Hx) as (ss0 & H0 & K).
    destruct (Hs A) as [E|(ss & ss' & H & H' & _ & Hle & He & _)].
    + exists ss0. split; [congruence|]. destruct K as [K|[Hlt [K|K]]]; [by left|right; split; [done|left; by etrans]|].
      right. auto.
    + assert (ss0 = ss) as -> by congruence. exists ss'. split; [done|]. right.
      destruct K as [[<- K]|[Hlt [K|K]]]; (split; [lia|]); [left; by etrans..|by right].
Qed.

Lemma maybeWithdrawSupport_cases ss now :
  ss_Epoch ss < MaxInt64 -> -9223372036854775808 <= ss_Epoch ss -> ss <> maybeWithdrawSupport ss now ->
  ss_Expiration ss <> zero_ts /\ ts_le (ss_Expiration ss) now /\
  maybeWithdrawSupport ss now = mkSupportState (ss_Target ss) (ss_Epoch ss + 1) zero_ts.
Proof.
  intros Hlt Hge. unfold maybeWithdrawSupport, Timestamp_IsEmpty. case_match eqn:E; [|done]. intros _.
  apply andb_true_iff in E as [E1 E2%Timestamp_LessEq_spec]. apply negb_true_iff, bool_decide_eq_false in E1.
  split_and!; [done|done|]. rewrite int64_small by lia. done.
Qed.

Lemma withdrawn_lookup now m A ss' :
  withdrawn now m !! A = Some ss' <->
  exists ss, m !! A = Some ss /\ ss <> maybeWithdrawSupport ss now /\ ss' = maybeWithdrawSupport ss now.
Proof.
  unfold withdrawn. rewrite lookup_omap_Some. split.
  - intros (ss & H & Hss). exists ss. case_decide; [done|]. by simplify_eq.
  - intros (ss & Hss & N & ->). exists ss. by case_decide.
Qed.

(** The epochs of supported stores are in range. *)
Lemma supporter_ok_epoch net B s A ss :
  net_ok net -> supporter_ok net B s -> supportFor s !! A = Some ss -> 1 <= ss_Epoch ss.
Proof.
  intros Hn Hs H. apply (so_justify _ _ _ Hs) in H. unfold justify in H.
  case_decide; [destruct H as [y H]|]; apply (no_heartbeat _ Hn) in H; lia.
Qed.

(** The update of a withdrawal, with an entry for each store that loses support. *)
Definition withdrawal (now : Timestamp) (s : supporterState) : supporterState :=
  mkSupporterState (mkSupporterMeta now) (withdrawn now (supportFor s)).

Definition small_epochs (s : supporterState) : Prop := map_Forall (fun _ ss => ss_Epoch ss < MaxInt64) (supportFor s).

Lemma withdrawal_spec net B s now A ss' :
  net_ok net -> supporter_ok net B s -> small_epochs s -> supportFor (withdrawal now s) !! A = Some ss' ->
  exists ss, supportFor s !! A = Some ss /\ ss_Expiration ss <> zero_ts /\ ts_le (ss_Expiration ss) now /\
    ss' = mkSupportState (ss_Target ss) (ss_Epoch ss + 1) zero_ts.
Proof.
  intros Hn Hs He (ss & H & N & ->)%withdrawn_lookup. exists ss.
  destruct (maybeWithdrawSupport_cases ss now) as (? & ? & ->); [exact (He _ _ H)| |done|done].
  pose proof (supporter_ok_epoch _ _ _ _ _ Hn Hs H). lia.
Qed.

Lemma withdrawal_disk net id ssh d d' clock now :
  net_ok net -> supporter_side net id ssh (on_disk d) clock -> small_epochs (ssh_state ssh) -> ts_le clock now ->
  partly_written (withdrawal now (ssh_state ssh)) d d' -> supporter_ok net id (on_disk d').
Proof.
  intros Hn [] He Hc [_ [->|[Hm Hd]]]; [done|].
  apply supporter_ok_withdraw with (on_disk d); [done| |]; cbn; rewrite Hm; cbn.
  { etrans; [exact ss_disk_withdrawn0|]. by etrans. }
  intros A. destruct (Hd A) as [?|(ss' & H & H')]; [by left|]. right.
  destruct (withdrawal_spec _ _ _ _ _ _ Hn ss_ok0 He H) as (ss & Hss & Hx & Hle & ->).
  destruct (ss_durable0 _ _ Hss Hx) as (ss0 & H0 & He0 & Hx0). eexists ss0, _. split_and!; [done|exact H'| | | |done].
  - by rewrite Hx0.
  - by rewrite Hx0.
  - cbn. by rewrite He0.
Qed.

Lemma supporter_side_withdraw net id ssh d d' clock now :
  net_ok net -> supporter_side net id ssh (on_disk d) clock -> small_epochs (ssh_state ssh) -> ts_le clock now ->
  now <> zero_ts -> partly_written (withdrawal now (ssh_state ssh)) d d' ->
  supporter_side net id (mkSsh (s_apply (ssh_state ssh) (withdrawal now (ssh_state ssh))) (Some ssfu_reset)) (on_disk d') now.
Proof.
  intros Hn Hs He Hc Hz Hd. pose proof (withdrawal_disk _ _ _ _ _ _ _ Hn Hs He Hc Hd) as Hdisk. destruct Hs.
  pose proof (fun A ss' => withdrawal_spec _ _ _ now A ss' Hn ss_ok0 He) as HW.
  assert (newer (s_meta (ssh_state ssh)) (mkSupporterMeta now) = mkSupporterMeta now) as Hnew.
  { unfold newer. rewrite decide_False; [done|]. by intros [= ?]. }
  split; cbn; rewrite ?Hnew; try done.
  - by right.
  - intros A ss [H|[_ H]]%lookup_union_Some_raw; [|by apply ss_keyed0].
    destruct (HW _ _ H) as (ss1 & H1 & _ & _ & ->). exact (ss_keyed0 _ _ H1).
  - apply supporter_ok_withdraw with (ssh_state ssh); [done| |]; cbn; rewrite ?Hnew; cbn; [by etrans|].
    intros A. rewrite lookup_union. destruct (withdrawn now _ !! A) as [ss'|] eqn:E.
    + right. destruct (HW _ _ E) as (ss & H & ? & ? & ->). eexists ss, _. rewrite union_Some_l. by split_and!.
    + left. by destruct (supportFor (ssh_state ssh) !! A).
  - intros A ss [H|[Hno H]]%lookup_union_Some_raw Hx.
    { by destruct (HW _ _ H) as (ss1 & _ & _ & _ & ->). }
    destruct (ss_durable0 _ _ H Hx) as (ss0 & H0 & Hsame). exists ss0. split; [|done].
    destruct Hd as [_ [Hd|[_ Hd]]]; [by rewrite Hd|]. destruct (Hd A) as [Hd'|(ss1 & H1 & _)]; [cbn; by rewrite Hd'|].
    cbn in H1, Hno. congruence.
  - destruct Hd as [_ [Hd|[Hd _]]]; [|by rewrite Hd].
    apply (f_equal s_meta) in Hd. cbn in Hd. rewrite Hd. etrans; [exact ss_disk_withdrawn0|]. by etrans.
Qed.

Lemma store_ok_clock net id st clock :
  store_ok net id st -> ts_le (st_clock st) clock -> store_ok net id (mkStore (st_sm st) clock).
Proof.
  intros [] Hc. split; try done.
  - by apply requester_side_grow with net (st_clock st).
  - by apply supporter_side_grow with net (st_clock st).
  - by etrans.
Qed.

Lemma store_withdraw net id st now n sm :
  net_ok net -> store_ok net id st -> ts_lt (st_clock st) now -> small_epochs (ssh_state (sm_supporter (st_sm st))) ->
  withdrawSupport (st_sm st) now n = Ret sm -> store_ok net id (mkStore sm now).
Proof.
  intros Hn Hok Hc He H. pose proof (ts_lt_le _ _ Hc) as Hle. pose proof (store_ok_clock _ _ _ _ Hok Hle) as Hok'.
  unfold withdrawSupport in H. case_match; [by simplify_eq|]. destruct Hok as [Hid Hq Hr Hs Hc0].
  unfold ssh_checkOutUpdate in H. destruct (ss_update _ _ _ _ _ Hs) as [E|E]; rewrite E in H; [done|]. cbn [obind] in H.
  set (c := ssh_state (sm_supporter (st_sm st))) in *.
  set (ssh0 := sm_supporter (st_sm st) <| ssh_update := None |>) in *. change (ssh_state ssh0) with c in H.
  assert (now <> zero_ts) as Hz by (intros ->; by apply Hc).
  rewrite ssfu_withdrawSupport_eq in H; [|intros Hw; apply Hc; by etrans; [|apply (ss_withdrawn _ _ _ _ _ Hs)]|done].
  cbn [obind] in H. apply obind_Ret in H as ([ok d] & Hw & (ssh & Hin & [= <-])%obind_Ret).
  assert (ssh_state ssh0 = c) as Ec by done. unfold withdrawn_meta in Hw, Hin. case_decide as D.
  - rewrite D in Hin, Hw. fold ssfu_reset in Hin, Hw. rewrite (ssh_checkInUpdate_eq _ c), s_apply_reset in Hin; [|done|by left].
    injection Hin as <-. cbn in Hw. injection Hw as <- <-. destruct Hok'. split; try done. cbn.
    assert (mkSsh c (Some ssfu_reset) = sm_supporter (st_sm st)) as ->.
    { subst c. destruct (sm_supporter (st_sm st)). cbn in *. by rewrite E. }
    exact sk_supporter0.
  - fold (withdrawal now c) in Hin, Hw.
    assert (s_fine c (withdrawal now c)) as Hf.
    { right. cbn. etrans; [apply (ss_withdrawn _ _ _ _ _ Hs)|done]. }
    rewrite (ssh_checkInUpdate_eq _ c) in Hin by done. injection Hin as <-.
    apply ssfu_write_partly in Hw; [|by intros [= ?]|done|].
    + destruct Hok'. split; try done.
      * cbn. destruct Hw as [-> _]. done.
      * cbn. by apply supporter_side_withdraw with (sm_engine (st_sm st)) (st_clock st).
    + intros A ss' (ss & H1 & _ & _ & ->)%(withdrawal_spec net id); [|done|apply Hs|done]. exact (ss_keyed _ _ _ _ _ Hs _ _ H1).
Qed.

(** *** Heartbeats sent *)

(** Heartbeats of [A] to the stores it knows, all for [x]. *)
Definition heartbeats_ok (A : StoreIdent) (from : gmap StoreIdent SupportState) (x : Timestamp) (out : network) : Prop :=
  Forall (fun m => exists B ss, from !! B = Some ss /\ m = HB A B (ss_Epoch ss) x) out.

Lemma heartbeats_elem A from x out net A' B e y :
  heartbeats_ok A from x out -> HB A' B e y ∈ out ++ net ->
  HB A' B e y ∈ net \/ (A' = A /\ y = x /\ exists ss, from !! B = Some ss /\ e = ss_Epoch ss).
Proof.
  intros Ho [H|H]%elem_of_app; [|by left]. right. unfold heartbeats_ok in Ho. rewrite Forall_forall in Ho.
  destruct (Ho _ H) as (B' & ss & Hss & [= -> -> -> ->]). eauto.
Qed.

Lemma heartbeats_no_response A from x out net B A' e y :
  heartbeats_ok A from x out -> RESP B A' e y ∈ out ++ net -> RESP B A' e y ∈ net.
Proof.
  intros Ho [H|H]%elem_of_app; [|done]. unfold heartbeats_ok in Ho. rewrite Forall_forall in Ho. by destruct (Ho _ H) as (B' & ss & Hss & [=]).
Qed.

Lemma net_ok_heartbeats net A meta from x out :
  net_ok net -> requester_ok net A meta from -> ts_lt (MaxRequested meta) x -> ts_lt zero_ts x ->
  heartbeats_ok A from x out -> net_ok (out ++ net).
Proof.
  intros [Hh Hm Hr] [] Hx Hx0 Ho. split.
  - intros A' B e y [H|(-> & -> & ss & Hss & ->)]%(heartbeats_elem _ _ _ _ _ _ _ _ _ Ho); [eauto|].
    split; [|done]. by apply ro_from0 in Hss as (_ & [? _] & _).
  - intros A' B e1 x1 e2 x2 H1 H2 He.
    apply (heartbeats_elem _ _ _ _ _ _ _ _ _ Ho) in H1 as [H1|(-> & -> & ss1 & Hs1 & ->)];
    apply (heartbeats_elem _ _ _ _ _ _ _ _ _ Ho) in H2 as [H2|(E & -> & ss2 & Hs2 & ->)].
    + eauto.
    + subst A'. apply ro_heartbeat0 in H1 as [_ H1]. intros Hc. apply Hx. by etrans.
    + pose proof (ro_heartbeat_from0 _ _ _ _ H2 Hs1). lia.
    + simplify_eq. lia.
  - intros A' B e y H%(heartbeats_no_response _ _ _ _ _ _ _ _ _ Ho).
    apply justify_grow with net; [apply net_app|]. by apply Hr.
Qed.

Lemma requester_ok_heartbeats net A meta meta' from out :
  requester_ok net A meta from -> MaxEpoch meta' = MaxEpoch meta -> ts_le (MaxRequested meta) (MaxRequested meta') ->
  heartbeats_ok A from (MaxRequested meta') out -> requester_ok (out ++ net) A meta' from.
Proof.
  intros Hok He Hx Ho. pose proof (requester_ok_meta _ _ _ meta' _ Hok ltac:(lia) Hx) as []. split; [done|..].
  - intros B e y [H|(_ & -> & ss & Hss & ->)]%(heartbeats_elem _ _ _ _ _ _ _ _ _ Ho); [eauto|].
    split; [|done]. apply ro_from0 in Hss. lia.
  - intros B e y ss [H|(_ & -> & ss' & Hss & ->)]%(heartbeats_elem _ _ _ _ _ _ _ _ _ Ho) Hss'; [eauto|].
    simplify_eq. lia.
  - intros B ss H. destruct (ro_from0 _ _ H) as (? & ? & Hr). split_and!; [done|lia..|]. intros ?. by apply net_app, Hr.
Qed.

Lemma Timestamp_Add_ahead now i :
  Timestamp_valid now -> 0 <= i -> WallTime now + i <= MaxInt64 -> Timestamp_Add now i 0 = ahead now i.
Proof.
  intros [Hw Hl] Hi Hm. unfold Timestamp_Add, ahead.
  rewrite int64_small, int32_small by (unfold MaxInt64, MaxInt32 in *; lia). f_equal. lia.
Qed.

Lemma ahead_lt t t' i : ts_lt t t' -> ts_lt (ahead t i) (ahead t' i).
Proof. unfold ts_lt, ahead. ts_crush. lia. Qed.

Lemma getHeartbeatsToSend_eq c id now i :
  1 <= MaxEpoch (r_meta c) -> ts_lt (MaxRequested (r_meta c)) (Timestamp_Add now i 0) ->
  let x := Timestamp_Add now i 0 in
  getHeartbeatsToSend c rsfu_reset id now i =
    Ret ((fun '((_, rs) : StoreIdent * requestedSupport) => HB id (ss_Target (state rs)) (ss_Epoch (state rs)) x) <$>
           map_to_list (supportFrom c), mkRsfu (mkRequesterMeta (MaxEpoch (r_meta c)) x) ∅).
Proof.
  intros He Hx x. unfold getHeartbeatsToSend, updateMaxRequested.
  rewrite rsfu_getMeta_eq by (split; [lia|by left]). unfold r_newer. rewrite decide_True by done. cbn [obind].
  unfold Timestamp_Forward. rewrite (proj2 (Timestamp_Less_spec _ _) Hx). cbn [obind].
  set (u := mkRsfu (mkRequesterMeta (MaxEpoch (r_meta c)) x) ∅).
  change (rsfu_reset <| rp_meta := r_meta c <| MaxRequested := Timestamp_Add now i 0 |> |>) with u.
  unfold generateHeartbeats. rewrite rsfu_getMeta_eq.
  - unfold r_newer. rewrite decide_False; [done|]. intros [= ? ?]. lia.
  - split; [lia|]. right. cbn. split; [lia|]. by apply ts_lt_le.
Qed.

Lemma rsfu_write_cases c u n disk :
  r_fine c u -> rsfu_write c u n disk = Ret (true, r_written u disk) \/
  (n <> None /\ rsfu_write c u n disk = Ret (false, disk)).
Proof.
  intros H. destruct n as [[|n]|]; [|left|left].
  - unfold rsfu_write. case_bool_decide as E; [left|right].
    + unfold r_written, r_newer. rewrite decide_True by done. by destruct disk.
    + split; [done|]. by rewrite r_assertMeta.
  - rewrite <- (rsfu_write_all c) by done. unfold rsfu_write. case_bool_decide; [done|]. by rewrite r_assertMeta.
  - by apply rsfu_write_all.
Qed.

Lemma from_heartbeats A net rsh meta x :
  requester_ok net A meta (from rsh) ->
  heartbeats_ok A (from rsh) x
    ((fun '((_, rs) : StoreIdent * requestedSupport) => HB A (ss_Target (state rs)) (ss_Epoch (state rs)) x) <$>
       map_to_list (supportFrom (rsh_state rsh))).
Proof.
  intros []. apply Forall_forall. intros m ([B rs] & -> & H%elem_of_map_to_list)%list_elem_of_fmap.
  assert (from rsh !! B = Some (state rs)) as Hf by (unfold from; by rewrite lookup_fmap, H).
  destruct (ro_from0 _ _ Hf) as [-> _]. eauto.
Qed.

(** The requester after it wrote that it asks for support until [x]. *)
Definition with_requested (sm : SupportManager) (x : Timestamp) : SupportManager :=
  let c := rsh_state (sm_requester sm) in
  let meta := mkRequesterMeta (MaxEpoch (r_meta c)) x in
  sm <| sm_engine := sm_engine sm <| dk_RequesterMeta := meta |> |>
     <| sm_requester := mkRsh (mkRequesterState meta (supportFrom c)) (Some rsfu_reset) |>.

Lemma sendHeartbeats_Ret sm now n sm' out :
  let c := rsh_state (sm_requester sm) in
  let x := Timestamp_Add now (LivenessInterval (sm_options sm)) 0 in
  rsh_update (sm_requester sm) = Some rsfu_reset -> 1 <= MaxEpoch (r_meta c) -> ts_lt (MaxRequested (r_meta c)) x ->
  sendHeartbeats sm now n = Ret (sm', out) ->
  (n <> None /\ sm' = sm <| sm_requester := sm_requester sm <| rsh_update := None |> |> /\ out = []) \/
  (sm' = with_requested sm x /\
   out = (fun '((_, rs) : StoreIdent * requestedSupport) =>
            HB (sm_storeID sm) (ss_Target (state rs)) (ss_Epoch (state rs)) x) <$> map_to_list (supportFrom c)).
Proof.
  intros c x E Hep Hx H. unfold sendHeartbeats, rsh_checkOutUpdate in H. rewrite E in H. cbn [obind] in H.
  set (rsh0 := sm_requester sm <| rsh_update := None |>) in *. change (rsh_state rsh0) with c in H.
  rewrite getHeartbeatsToSend_eq in H by done. cbn [obind] in H. fold x in H.
  set (u := mkRsfu (mkRequesterMeta (MaxEpoch (r_meta c)) x) ∅) in *.
  assert (r_fine c u) as Hf by (split; [lia|]; right; split; [cbn; lia|by apply ts_lt_le]).
  assert (forall d, r_newer d (rp_meta u) = rp_meta u) as Hrn.
  { intros d. unfold r_newer. rewrite decide_False; [done|]. intros [= ? ?]. lia. }
  destruct (rsfu_write_cases c u n (sm_engine sm) Hf) as [W|[Hne W]]; rewrite W in H; cbn [obind negb] in H.
  - right. apply obind_Ret in H as (rsh & Hin & [= <- <-]). split; [|done].
    apply (rsh_checkInUpdate_Ret _ c) in Hin as [_ ->]; [|done|done].
    unfold r_apply, r_written, with_requested. cbn [rp_supportFrom u]. rewrite !Hrn, r_states_empty. done.
  - left. injection H as <- <-. split; [done|]. by destruct sm.
Qed.

Lemma store_send net id st now n sm out :
  net_ok net -> store_ok net id st -> case_ok st (HeartbeatTick true now n) ->
  sendHeartbeats (st_sm st) now n = Ret (sm, out) ->
  net_ok (out ++ net) /\ store_ok (out ++ net) id (mkStore sm now) /\ Forall (fun m => lm_From m = id) out.
Proof.
  intros Hn Hok (Hc & Hv & Hmax) H. pose proof (ts_lt_le _ _ Hc) as Hle.
  pose proof (store_ok_clock _ _ _ _ Hok Hle) as Hok'. destruct Hok as [Hid Hq [Hu Hro Hd Hreq Hi] Hs Hc0].
  destruct Hu as [E|E]; [unfold sendHeartbeats, rsh_checkOutUpdate in H; by rewrite E in H|].
  set (i := LivenessInterval (sm_options (st_sm st))) in *. set (c := rsh_state (sm_requester (st_sm st))) in *.
  pose proof (Timestamp_Add_ahead now i Hv Hi Hmax) as Hx. pose proof (ahead_lt _ _ i Hc) as Hlt.
  assert (ts_lt (MaxRequested (r_meta c)) (ahead now i)) as Hnew by (rewrite Hd in Hreq; intros ?; apply Hlt; by etrans).
  assert (ts_lt zero_ts (ahead now i)) as Hpos.
  { intros Hz. apply Hc. etrans; [|exact Hc0]. etrans; [|exact Hz]. clear -Hi. unfold ahead. ts_crush. lia. }
  apply sendHeartbeats_Ret in H; [|done|apply Hro|fold i c; by rewrite Hx]. fold i c in H. rewrite Hx, Hid in H.
  destruct H as [(_ & -> & ->)|[-> ->]].
  { split; [done|]. split; [|done]. destruct Hok' as [? ? [] ? ?]. split; try done. split; try done. by left. }
  pose proof (from_heartbeats id _ _ _ (ahead now i) Hro) as Hhb. fold c in Hhb. set (hbs := _ <$> _) in *.
  split; [by apply (net_ok_heartbeats _ id (r_meta c) (from (sm_requester (st_sm st))) (ahead now i))|]. split.
  2: { eapply Forall_impl; [exact Hhb|]. by intros m (B & ss & _ & ->). }
  destruct Hok'. split; try done.
  - by apply queue_grow with net; [apply net_app|].
  - split; try done; [by right|]. apply requester_ok_heartbeats with (r_meta c); try done. by apply ts_lt_le.
  - apply supporter_side_grow with net now; [apply net_app| |done|done].
    intros A e y. by apply (heartbeats_no_response id _ _ _ _ _ _ _ _ Hhb).
Qed.

(** *** Stores added and removed *)

Lemma requester_ok_subset net A meta from from' :
  from' ⊆ from -> requester_ok net A meta from -> requester_ok net A meta from'.
Proof.
  intros Hsub []. pose proof (fun B ss => lookup_weaken from' from B ss) as Hw. split; try done.
  - intros B e x ss Hb H. eapply ro_heartbeat_from0; eauto.
  - intros B ss H. eauto.
Qed.

Lemma requester_ok_add net A meta from B :
  requester_ok net A meta from -> from !! B = None ->
  requester_ok net A meta (<[B := mkSupportState B (MaxEpoch meta) zero_ts]> from).
Proof.
  intros [] Hno. split; try done.
  - intros B' e x ss Hb. destruct (decide (B = B')) as [<-|N].
    + rewrite lookup_insert_eq. intros [= <-]. cbn. by apply ro_heartbeat0 in Hb as [? _].
    + rewrite lookup_insert_ne by done. by apply ro_heartbeat_from0 with x.
  - intros B' ss. destruct (decide (B = B')) as [<-|N].
    + rewrite lookup_insert_eq. intros [= <-]. split_and!; done || (cbn; lia) || done.
    + rewrite lookup_insert_ne by done. apply ro_from0.
Qed.

Lemma requester_side_from net id rsh rsh' disk i clock :
  requester_side net id rsh disk i clock -> rsh_update rsh' = None \/ rsh_update rsh' = Some rsfu_reset ->
  r_meta (rsh_state rsh') = r_meta (rsh_state rsh) ->
  requester_ok net id (r_meta (rsh_state rsh)) (from rsh') -> requester_side net id rsh' disk i clock.
Proof. intros [] Hu Hm Hok. split; rewrite ?Hm; done. Qed.

Lemma checkIn_reset rsh : rsh_checkInUpdate rsh rsfu_reset = Ret (rsh <| rsh_update := Some rsfu_reset |>).
Proof. done. Qed.

Lemma requester_side_addStore net id rsh disk i clock B rsh' :
  requester_side net id rsh disk i clock -> rsh_addStore rsh B = Ret rsh' -> requester_side net id rsh' disk i clock.
Proof.
  intros Hs H. pose proof (rs_ok _ _ _ _ _ _ Hs) as Hok. unfold rsh_addStore, rsh_checkOutUpdate in H.
  destruct (rs_update _ _ _ _ _ _ Hs) as [E|E]; rewrite E in H; [done|]. cbn [obind] in H.
  set (c := rsh_state rsh) in *. change (rsh_state (rsh <| rsh_update := None |>)) with c in H.
  destruct (supportFrom c !! B) as [rs|] eqn:F; rewrite checkIn_reset in H; injection H as <-.
  - apply requester_side_from with rsh; try done. by right.
  - apply requester_side_from with rsh; [done|by right|done|]. unfold from. cbn. rewrite fmap_insert. cbn.
    apply requester_ok_add; [done|]. unfold from. fold c. by rewrite lookup_fmap, F.
Qed.

Lemma requester_side_addStores net id stores rsh disk i clock rsh' :
  requester_side net id rsh disk i clock -> addStores rsh stores = Ret rsh' -> requester_side net id rsh' disk i clock.
Proof.
  revert rsh. induction stores as [|B stores IH]; intros rsh Hs H; cbn in H; [by simplify_eq|].
  apply obind_Ret in H as (rsh1 & H1 & H). eapply IH; [|exact H]. by eapply requester_side_addStore.
Qed.

Lemma requester_side_removeIdle net id rsh disk i clock rsh' :
  requester_side net id rsh disk i clock -> rsh_removeIdleStores rsh = Ret rsh' -> requester_side net id rsh' disk i clock.
Proof.
  intros Hs H. pose proof (rs_ok _ _ _ _ _ _ Hs) as Hok. unfold rsh_removeIdleStores, rsh_checkOutUpdate in H.
  destruct (rs_update _ _ _ _ _ _ Hs) as [E|E]; rewrite E in H; [done|]. cbn [obind] in H.
  rewrite checkIn_reset in H. injection H as <-. apply requester_side_from with rsh; [done|by right|done|].
  apply requester_ok_subset with (from rsh); [|done]. unfold from. cbn.
  rewrite <- map_fmap_compose. change (state ∘ _) with state. apply map_fmap_mono, map_filter_subseteq.
Qed.

Lemma from_queried rsh id : from (fst (rsh_getSupportFrom rsh id)) = from rsh.
Proof.
  unfold rsh_getSupportFrom. destruct (supportFrom (rsh_state rsh) !! id) as [rs|] eqn:E; [|done].
  unfold from. cbn. rewrite fmap_insert. cbn. apply insert_id. by rewrite lookup_fmap, E.
Qed.

Lemma requester_side_queried net A rsh disk i clock id :
  requester_side net A rsh disk i clock -> requester_side net A (fst (rsh_getSupportFrom rsh id)) disk i clock.
Proof.
  intros Hs. pose proof (from_queried rsh id) as Hf. pose proof Hs as [].
  apply requester_side_from with rsh; [done|..].
  - unfold rsh_getSupportFrom. by destruct (_ !! id).
  - unfold rsh_getSupportFrom. by destruct (_ !! id).
  - by rewrite Hf.
Qed.

Lemma SupportFrom_manager sm id :
  exists sta, fst (SupportFrom sm id) = sm <| sm_requester := fst (rsh_getSupportFrom (sm_requester sm) id) |>
                                          <| sm_storesToAdd := sta |>.
Proof.
  unfold SupportFrom. destruct (rsh_getSupportFrom (sm_requester sm) id) as [rsh [ss|]]; [|by eexists].
  exists (sm_storesToAdd sm). by case_match.
Qed.

Lemma store_SupportFrom net A st id :
  store_ok net A st -> store_ok net A (mkStore (fst (SupportFrom (st_sm st) id)) (st_clock st)).
Proof.
  intros []. destruct (SupportFrom_manager (st_sm st) id) as [sta ->]. split; try done.
  by apply requester_side_queried.
Qed.

Lemma store_maybeAddStores net id st sm :
  store_ok net id st -> maybeAddStores (st_sm st) = Ret sm -> store_ok net id (mkStore sm (st_clock st)).
Proof.
  intros [] (rsh & H & [= <-])%obind_Ret. split; try done. by eapply requester_side_addStores.
Qed.

(** *** Restarts *)

Lemma foldl_states l (m : gmap StoreIdent SupportState) :
  NoDup l.*1 ->
  foldl (fun m s => <[ss_Target s := s]> m) m ((fun '(id, ss) => ss <| ss_Target := id |>) <$> l) =
    list_to_map ((fun '(id, ss) => (id, ss <| ss_Target := id |>)) <$> l) ∪ m.
Proof.
  revert m. induction l as [|[id ss] l IH]; intros m Hn; [cbn; by rewrite (left_id_L ∅ (∪))|].
  rewrite fmap_cons in Hn. apply NoDup_cons in Hn as [Hi Hn]. cbn [fmap list_fmap foldl list_to_map foldr fst snd uncurry].
  change (foldl _ _ _) with (foldl (fun m s => <[ss_Target s := s]> m) (<[id := ss <| ss_Target := id |>]> m)
    ((fun '(id, ss) => ss <| ss_Target := id |>) <$> l)). rewrite IH by done.
  rewrite <- insert_union_l, insert_union_r; [done|]. apply not_elem_of_list_to_map_1.
  rewrite <- list_fmap_compose. intros (p & Hp & Hl)%list_elem_of_fmap. apply Hi, list_elem_of_fmap. exists p. by destruct p.
Qed.

Lemma ssh_read_lookup ssh disk A :
  supportFor (ssh_state (ssh_read ssh disk)) !! A = (fun ss => ss <| ss_Target := A |>) <$> dk_supportFor disk !! A.
Proof.
  cbn. unfold readSupportForState. rewrite foldl_states by exact (NoDup_fst_map_to_list _).
  rewrite (right_id_L ∅ (∪)). apply option_eq. intros ss.
  assert (NoDup ((fun '(id, ss) => (id, ss <| ss_Target := id |>)) <$> map_to_list (dk_supportFor disk)).*1) as Hn.
  { rewrite <- list_fmap_compose. rewrite (list_fmap_ext _ fst); [exact (NoDup_fst_map_to_list _)|]. by intros i []. }
  rewrite <- (elem_of_list_to_map _ _ _ Hn), list_elem_of_fmap, fmap_Some. split.
  - intros ([A' s] & E & H%elem_of_map_to_list). injection E as E1 E2. subst A'. by exists s.
  - intros (s & H & ->). exists (A, s). split; [done|]. by apply elem_of_map_to_list.
Qed.

(** The store after onRestart. *)
Definition restart_manager (id : StoreIdent) (disk : Disk) (options : Options) (now : Timestamp) : SupportManager :=
  let meta := mkRequesterMeta (MaxEpoch (dk_RequesterMeta disk) + 1) (MaxRequested (dk_RequesterMeta disk)) in
  mkSupportManager id (disk <| dk_RequesterMeta := meta |>) options [] ∅
    (Timestamp_AddDuration now (SupportWithdrawalGracePeriod options))
    (ssh_read newSupporterStateHandler disk) (mkRsh (mkRequesterState meta ∅) (Some rsfu_reset)).

Lemma onRestart_eq id disk options now :
  0 <= MaxEpoch (dk_RequesterMeta disk) < MaxInt64 ->
  onRestart (NewSupportManager id disk options) true true now None = Ret (restart_manager id disk options now, true).
Proof.
  intros He. unfold onRestart. cbn [negb]. set (rm := dk_RequesterMeta disk) in *.
  set (c := mkRequesterState rm ∅).
  change (rsh_checkOutUpdate _) with (Ret (rsfu_reset, mkRsh c None)). cbn [obind rsh_state].
  unfold incrementMaxEpoch. rewrite rsfu_getMeta_eq by (split; [cbn; lia|by left]).
  unfold r_newer. rewrite decide_True by done. cbn [obind]. rewrite int64_small by (cbn; lia).
  set (u := rsfu_reset <| rp_meta := _ |>).
  assert (forall d, r_newer d (rp_meta u) = rp_meta u) as Hrn.
  { intros d. unfold r_newer. rewrite decide_False; [done|]. intros [= ? ?]. lia. }
  assert (r_fine c u) as Hf by (split; [cbn; lia|]; right; cbn; split; [lia|done]).
  rewrite rsfu_write_all by done. cbn [obind negb].
  rewrite (proj2 (rsh_checkInUpdate_Ret (mkRsh c None) c u (mkRsh (r_apply c u) (Some rsfu_reset)) eq_refl Hf)).
  - cbn [obind]. unfold r_apply, r_written. rewrite !Hrn. by cbn.
  - split; [|done]. intros B [ss Hss]. change (rp_supportFrom u) with (∅ : gmap StoreIdent SupportState) in Hss.
    by rewrite lookup_empty in Hss.
Qed.

Lemma store_restart net id disk t st :
  restarted id disk t st -> 0 <= MaxEpoch (dk_RequesterMeta disk) ->
  (forall B e x, HB id B e x ∈ net -> e <= MaxEpoch (dk_RequesterMeta disk) /\ ts_le x (MaxRequested (dk_RequesterMeta disk))) ->
  supporter_ok net id (on_disk disk) -> store_ok net id st.
Proof.
  intros (options & Hi & Hmax & Hz & Hw & Hr & Hlt%ts_lt_le & H) He Hhb Hs. rewrite onRestart_eq in H by done.
  apply Ret_inj in H. destruct st as [sm now]. cbn in H, Hlt. injection H as <-.
  assert (forall A ss, supportFor (ssh_state (ssh_read newSupporterStateHandler disk)) !! A = Some ss ->
    exists ss', dk_supportFor disk !! A = Some ss' /\ ss = ss' <| ss_Target := A |>) as Hread.
  { intros A ss. rewrite ssh_read_lookup, fmap_Some. done. }
  split; try done; cbn [st_sm st_clock restart_manager sm_requester sm_engine sm_supporter sm_options].
  - split; try done; [by right|..].
    + unfold from. cbn. rewrite fmap_empty. split; cbn; [lia| |by intros ? ? ? ? _ ?%lookup_empty_Some|by intros ? ? ?%lookup_empty_Some].
      intros B e x H%Hhb. split; [lia|tauto].
    + cbn. etrans; [exact Hr|]. etrans; [exact Hlt|]. clear -Hi. unfold ahead. ts_crush. lia.
  - split; try done; [by right|..].
    + intros A ss (ss' & _ & ->)%Hread. done.
    + destruct Hs as [Hj Hk]. split.
      * intros A ss (ss' & H & ->)%Hread. exact (Hj A ss' H).
      * intros A e x Hresp Hx. destruct (Hk A e x Hresp Hx) as (ss & H & K). exists (ss <| ss_Target := A |>).
        rewrite ssh_read_lookup. cbn in H. rewrite H. split; [done|]. exact K.
    + intros A ss (ss' & H & ->)%Hread _. exists ss'. done.
    + cbn. by etrans.
  - by etrans.
Qed.

(** *** Batches *)

Lemma net_ok_same net net' : net ⊆ net' -> net' ⊆ net -> net_ok net -> net_ok net'.
Proof.
  intros H1 H2 [Hh Hm Hr]. split; [eauto..|]. intros A B e x H. apply justify_grow with net; [done|]. auto.
Qed.

Lemma store_ok_grow net net' id st :
  net ⊆ net' -> (forall m, m ∈ net' -> lm_From m = id -> m ∈ net) -> store_ok net id st -> store_ok net' id st.
Proof.
  intros Hn Hf []. split; try done.
  - by eapply queue_grow.
  - apply requester_side_grow with net (st_clock st); [done| |done|done]. intros B e x H. by apply Hf.
  - apply supporter_side_grow with net (st_clock st); [done| |done|done]. intros A e x H. by apply Hf.
Qed.

Lemma store_available net id st :
  store_ok net id st -> ssh_update (sm_supporter (st_sm st)) = Some ssfu_reset ->
  rsh_update (sm_requester (st_sm st)) = Some rsfu_reset -> available (st_sm st).
Proof.
  intros [] Hs Hr. split_and!; [done|done|apply sk_supporter0|].
  pose proof (ro_epoch _ _ _ _ (rs_ok _ _ _ _ _ _ sk_requester0)). lia.
Qed.

Lemma handleMessages_updates sm msgs n1 n2 b sm' out :
  handleMessages sm msgs n1 n2 b = Ret (sm', out) ->
  is_Some (ssh_update (sm_supporter sm)) /\ is_Some (rsh_update (sm_requester sm)).
Proof.
  unfold handleMessages, rsh_checkOutUpdate, ssh_checkOutUpdate.
  destruct (rsh_update (sm_requester sm)), (ssh_update (sm_supporter sm)); done.
Qed.

Lemma store_returns net id st msgs n1 n2 b r :
  store_ok net id st -> handleMessages (st_sm st) msgs n1 n2 b = Ret r -> available (st_sm st).
Proof.
  destruct r as [sm out]. intros Hok [[s Hs] [u Hu]]%handleMessages_updates.
  destruct (ss_update _ _ _ _ _ (sk_supporter _ _ _ Hok)) as [E|E]; [congruence|].
  destruct (rs_update _ _ _ _ _ _ (sk_requester _ _ _ Hok)) as [F|F]; [congruence|].
  by eapply store_available.
Qed.

Lemma store_messages net id st msgs sm out :
  net_ok net -> store_ok net id st -> available (st_sm st) ->
  Forall (fun m => m ∈ net /\ lm_To m = id) msgs ->
  handleMessages (st_sm st) msgs None None true = Ret (sm, out) ->
  net_ok (out ++ net) /\ store_ok (out ++ net) id (mkStore sm (st_clock st)) /\ Forall (fun m => lm_From m = id) out.
Proof.
  revert net st sm out. induction msgs as [|m msgs IH]; intros net st sm out Hn Hok Ha Hq H.
  { apply handleMessages_Ret in H as (? & ? & [= <- <- <-] & _ & ->); [|done]. rewrite batch_done_reset by done.
    split; [done|]. by destruct st. }
  apply Forall_cons in Hq as [[Hm Hto] Hq]. change (m :: msgs) with ([m] ++ msgs) in H.
  apply handleMessages_app in H as (sm1 & out1 & out2 & H1 & H2 & ->); [|done].
  assert (net_ok (out1 ++ net) /\ store_ok (out1 ++ net) id (mkStore sm1 (st_clock st)) /\ Forall (fun m => lm_From m = id) out1)
    as (Hn1 & Hok1 & Hf1).
  { destruct m as [[] A B e x]; cbn in Hto; subst B.
    - by apply (store_heartbeat net id st A e x).
    - destruct (store_response net id st A e x sm1 out1 Hn Hok Ha Hm H1) as [-> ?]. by split_and!. }
  assert (available sm1) as Ha1 by by eapply handleMessages_available.
  assert (out2 ++ out1 ++ net ⊆ (out1 ++ out2) ++ net) as Hsub by (intros y; rewrite !elem_of_app; tauto).
  assert ((out1 ++ out2) ++ net ⊆ out2 ++ out1 ++ net) as Hsup by (intros y; rewrite !elem_of_app; tauto).
  destruct (IH (out1 ++ net) (mkStore sm1 (st_clock st)) sm out2 Hn1 Hok1 Ha1) as (Hn2 & Hok2 & Hf2); [|done|].
  { eapply queue_grow; [apply net_app|done]. }
  split; [by eapply net_ok_same|]. split; [|by apply Forall_app].
  eapply store_ok_grow; [exact Hsub| |done]. intros y Hy _. by apply Hsup.
Qed.

Lemma handleMessages_uncommitted sm msgs n1 n2 sm' out :
  handleMessages sm msgs n1 n2 false = Ret (sm', out) ->
  out = [] /\ sm' = sm <| sm_requester := sm_requester sm <| rsh_update := None |> |>
                       <| sm_supporter := sm_supporter sm <| ssh_update := None |> |>.
Proof.
  unfold handleMessages, rsh_checkOutUpdate, ssh_checkOutUpdate. intros H.
  destruct (rsh_update (sm_requester sm)); [|done]. destruct (ssh_update (sm_supporter sm)); [|done]. cbn [obind] in H.
  apply obind_Ret in H as ([[rsfu ssfu] o] & _ & H). apply obind_Ret in H as ([ok batch] & _ & H).
  apply obind_Ret in H as ([ok' batch'] & _ & H). by injection H as <- <-.
Qed.

Lemma store_uncommitted net id st :
  store_ok net id st ->
  store_ok net id (mkStore (st_sm st <| sm_requester := sm_requester (st_sm st) <| rsh_update := None |> |>
    <| sm_supporter := sm_supporter (st_sm st) <| ssh_update := None |> |>) (st_clock st)).
Proof. intros [? ? [] [] ?]. split; try done; split; try done; by left. Qed.

(** ** The invariant holds *)

Lemma store_loop net id st c sm out :
  net_ok net -> store_ok net id st -> case_ok st c -> startLoop_body (st_sm st) c = Ret (sm, out) ->
  net_ok (out ++ net) /\ store_ok (out ++ net) id (mkStore sm (case_clock c (st_clock st))) /\
  Forall (fun m => lm_From m = id) out.
Proof.
  intros Hn Hok Hc H. destruct c as [enabled now n|now n| |n1 n2 committed]; cbn [startLoop_body case_clock] in *.
  - apply obind_Ret in H as (sm1 & H1 & H). pose proof (store_maybeAddStores _ _ _ _ Hok H1) as Hok1. destruct enabled.
    + apply (store_send net id (mkStore sm1 (st_clock st)) now n); try done.
      apply obind_Ret in H1 as (rsh & _ & [= <-]). exact Hc.
    + injection H as <- <-. split; [done|]. split; [|done]. apply (store_ok_clock _ _ _ now Hok1). by apply ts_lt_le, Hc.
  - apply obind_Ret in H as (sm1 & H1 & [= <- <-]). split; [done|]. split; [|done].
    by apply (store_withdraw net id st now n); [..|apply Hc|apply Hc|].
  - apply obind_Ret in H as (rsh & H1 & [= <- <-]). split; [done|]. split; [|done]. destruct Hok. split; try done.
    by eapply requester_side_removeIdle.
  - destruct Hc as [-> ->]. set (st1 := mkStore (st_sm st <| sm_receiveQueue := [] |>) (st_clock st)).
    assert (store_ok net id st1) as Hok1 by (destruct Hok; split; try done; by constructor).
    destruct committed.
    + apply (store_messages net id st1 (sm_receiveQueue (st_sm st))); try done.
      * exact (store_returns _ _ _ _ _ _ _ _ Hok1 H).
      * apply Hok.
    + apply handleMessages_uncommitted in H as [-> ->]. split; [done|]. split; [|done]. exact (store_uncommitted _ _ _ Hok1).
Qed.

Lemma fabric_inv_store f id st out :
  map_Forall (store_ok (fb_net f)) (fb_stores f) -> net_ok (out ++ fb_net f) -> store_ok (out ++ fb_net f) id st ->
  Forall (fun m => lm_From m = id) out -> fabric_inv (with_store f id st out).
Proof.
  intros Hs Hn Hok Hout. split; [done|]. cbn. intros id' st'. destruct (decide (id = id')) as [<-|N].
  - rewrite lookup_insert_eq. by intros [= <-].
  - rewrite lookup_insert_ne by done. intros H. eapply store_ok_grow; [apply net_app| |exact (Hs _ _ H)].
    intros m [Hm|Hm]%elem_of_app Hf; [|done]. rewrite Forall_forall in Hout. apply Hout in Hm. congruence.
Qed.

Lemma fabric_step_inv f f' : fabric_inv f -> fabric_step f f' -> fabric_inv f'.
Proof.
  intros [Hn Hs] Hstep. destruct Hstep as [id st m Hst Hm Hto|id st id' Hst|id st t Hst Hle|id st c sm out Hst Hc H|id st t st' Hst H];
    pose proof (Hs _ _ Hst) as Hok.
  - apply fabric_inv_store; try done. destruct Hok. split; try done. cbn. apply Forall_app. split; [done|].
    by constructor.
  - apply fabric_inv_store; try done. by apply store_SupportFrom.
  - apply fabric_inv_store; try done. by apply store_ok_clock.
  - destruct (store_loop _ _ _ _ _ _ Hn Hok Hc H) as (? & ? & ?). by apply fabric_inv_store.
  - apply fabric_inv_store; try done. destruct Hok as [_ _ [_ Hr Hd _ _] [_ _ _ Hdisk _ _ _] _].
    destruct Hr as [He Hhb _ _]. eapply store_restart; [exact H|rewrite Hd; lia|rewrite Hd; exact Hhb|done].
Qed.

Lemma fabric_init_inv f : fabric_init f -> fabric_inv f.
Proof.
  intros [Hn Hs]. split; rewrite Hn.
  - split; by intros *; intros ?%elem_of_nil.
  - intros id st H. destruct (Hs _ _ H) as [t Ht]. eapply store_restart; [exact Ht|done|by intros ? ? ? ?%elem_of_nil|].
    split; [cbn; by intros ? ? ?%lookup_empty_Some|]. by intros ? ? ? ?%elem_of_nil.
Qed.

Lemma fabric_reach_inv f0 f : fabric_init f0 -> rtc fabric_step f0 f -> fabric_inv f.
Proof. intros H0%fabric_init_inv. induction 1; [done|]. eauto using fabric_step_inv. Qed.

(** ** What the stores promise each other *)

Lemma SupportFrom_true sm B e x :
  snd (SupportFrom sm B) = (e, x, true) ->
  exists ss, from (sm_requester sm) !! B = Some ss /\ ss_Epoch ss = e /\ ss_Expiration ss = x /\ x <> zero_ts.
Proof.
  unfold SupportFrom, rsh_getSupportFrom, from. rewrite lookup_fmap.
  destruct (supportFrom (rsh_state (sm_requester sm)) !! B) as [rs|]; [|done]. cbn. intros H. exists (state rs).
  unfold Timestamp_IsEmpty in H. case_bool_decide as E; [done|]. by injection H as <- <-.
Qed.


(** *** The assertions *)

Lemma handleHeartbeat_total net A B e x s :
  net_ok net -> supporter_ok net B s -> HB A B e x ∈ net -> exists ss, handleHeartbeat (support_of A s) (HB A B e x) = Ret ss.
Proof.
  intros Hn Hs Hm. unfold handleHeartbeat. cbn [lm_Epoch lm_Expiration].
  destruct (_ =? e) eqn:E1; [by eexists|]. destruct (_ <? e) eqn:E2; [|by eexists]. bool_to_prop.
  rewrite assert_true; [by eexists|]. apply Timestamp_Less_spec. destruct (no_heartbeat _ Hn _ _ _ _ Hm) as [_ Hx].
  unfold support_of in *. destruct (supportFor s !! A) as [ss|] eqn:F; cbn in *; [|done].
  apply (so_justify _ _ _ Hs) in F. unfold justify in F. case_decide as D; [by rewrite D|].
  exact (no_mono _ Hn _ _ _ _ _ _ F Hm E2).
Qed.

Lemma handleHeartbeatResponse_total net A B e x meta from ss :
  net_ok net -> requester_ok net A meta from -> RESP B A e x ∈ net -> from !! B = Some ss -> e <= MaxInt64 ->
  exists r, handleHeartbeatResponse meta ss (RESP B A e x) = Ret r.
Proof.
  intros Hn [] Hm Hss Hmax. unfold handleHeartbeatResponse. cbn [lm_Epoch lm_Expiration].
  destruct (_ =? e) eqn:E1; [by eexists|]. destruct (_ <? e) eqn:E2; [|by eexists]. bool_to_prop.
  apply (no_response _ Hn) in Hm. unfold justify in Hm. destruct (ro_from0 _ _ Hss) as (_ & He & _).
  case_decide as D; [destruct Hm as [y Hm]|]; pose proof (ro_heartbeat_from0 _ _ _ _ Hm Hss); [|lia].
  rewrite int64_small by (unfold MaxInt64 in *; lia). rewrite assert_true by blia. cbn [obind].
  rewrite assert_true by by apply bool_decide_eq_true. by eexists.
Qed.

Lemma handle_heartbeat_total sm A B e x ss :
  available sm -> handleHeartbeat (support_of A (ssh_state (sm_supporter sm))) (HB A B e x) = Ret ss ->
  exists r, handleMessages sm [HB A B e x] None None true = Ret r.
Proof.
  intros Ha H. eexists (_, _). apply handleMessages_Ret; [done|].
  cbn [handle_loop lm_Type]. unfold ssfu_handleHeartbeat. rewrite ssfu_getSupportFor_eq, s_apply_reset. cbn [lm_From].
  fold (support_of A (ssh_state (sm_supporter sm))). rewrite H. cbn [obind]. eexists _, _. split; [done|]. split; [|done].
  by intros id [? ?].
Qed.

Lemma handle_response_total sm A B e x m' ss' :
  available sm -> is_Some (from (sm_requester sm) !! B) ->
  handleHeartbeatResponse (r_meta (rsh_state (sm_requester sm))) (requested_of B (sm_requester sm)) (RESP B A e x) = Ret (m', ss') ->
  exists r, handleMessages sm [RESP B A e x] None None true = Ret r.
Proof.
  intros Ha Hk H. eexists (_, _). apply handleMessages_Ret; [done|].
  cbn [handle_loop lm_Type]. unfold rsfu_handleHeartbeatResponse. rewrite rsfu_getMeta_eq by (split; [apply Ha|by left]).
  unfold r_newer at 1. rewrite decide_True by done. cbn [obind lm_From].
  replace (default _ (rsfu_getSupportFrom _ _ _)) with (requested_of B (sm_requester sm)).
  2: { unfold rsfu_getSupportFrom, requested_of, from. cbn. by rewrite lookup_fmap. }
  rewrite H. cbn [obind]. eexists _, _. split; [done|]. split; [|done]. unfold from in Hk. rewrite lookup_fmap, fmap_is_Some in Hk.
  intros id. repeat case_bool_decide; cbn; try (by intros [? ?]);
    (destruct (decide (B = id)) as [<-|N]; [done|rewrite lookup_insert_ne by done; by intros [? ?]]).
Qed.

Lemma handleMessages_from sm msgs sm' out B :
  available sm -> handleMessages sm msgs None None true = Ret (sm', out) ->
  is_Some (from (sm_requester sm') !! B) <-> is_Some (from (sm_requester sm) !! B).
Proof.
  intros Ha (rsfu & ssfu & _ & _ & ->)%handleMessages_Ret; [|done]. unfold from. cbn.
  by rewrite !lookup_fmap, r_states_lookup, !fmap_is_Some.
Qed.

(** Messages whose handling needs no store that is not there. *)
Definition from_known (rsh : requesterStateHandler) (msgs : list LivenessMessage) : Prop :=
  Forall (fun m => lm_Epoch m <= MaxInt64 /\ (lm_Type m = MsgHeartbeatResp -> is_Some (from rsh !! lm_From m))) msgs.

Lemma store_message_total net id st m :
  net_ok net -> store_ok net id st -> available (st_sm st) -> m ∈ net -> lm_To m = id ->
  from_known (sm_requester (st_sm st)) [m] -> exists r, handleMessages (st_sm st) [m] None None true = Ret r.
Proof.
  intros Hn [] Ha Hm Hto [[Hmax Hk] _]%Forall_cons. destruct m as [[] A B e x]; cbn in Hto, Hmax, Hk; subst B.
  - destruct (handleHeartbeat_total net A id e x _ Hn (ss_ok _ _ _ _ _ sk_supporter0) Hm) as [ss Hss].
    by eapply handle_heartbeat_total.
  - destruct (Hk eq_refl) as [ss Hss].
    destruct (handleHeartbeatResponse_total net id A e x _ _ ss Hn (rs_ok _ _ _ _ _ _ sk_requester0) Hm Hss Hmax) as [[m' ss'] H].
    eapply handle_response_total; [done|by eexists|]. unfold requested_of. rewrite Hss. exact H.
Qed.

Lemma store_messages_total net id st msgs :
  net_ok net -> store_ok net id st -> available (st_sm st) -> Forall (fun m => m ∈ net /\ lm_To m = id) msgs ->
  from_known (sm_requester (st_sm st)) msgs -> exists r, handleMessages (st_sm st) msgs None None true = Ret r.
Proof.
  revert net st. induction msgs as [|m msgs IH]; intros net st Hn Hok Ha Hq Hk.
  { eexists (_, _). apply handleMessages_Ret; [done|]. exists rsfu_reset, ssfu_reset. split; [done|]. split; [|done]. by intros B [? ?]. }
  apply Forall_cons in Hk as [Hk1 Hk]. apply Forall_cons in Hq as [[Hm Hto] Hq].
  destruct (store_message_total net id st m) as [[sm1 out1] H1]; try done; [by constructor|].
  destruct (store_messages net id st [m] sm1 out1) as (Hn1 & Hok1 & _); try done; [by constructor|].
  destruct (IH (out1 ++ net) (mkStore sm1 (st_clock st))) as [[sm2 out2] H2]; try done.
  - by eapply handleMessages_available.
  - eapply queue_grow; [apply net_app|done].
  - eapply Forall_impl; [exact Hk|]. intros m' [? Hm']. split; [done|]. intros Hresp%Hm'.
    by apply (handleMessages_from _ _ _ _ _ Ha H1).
  - exists (sm2, out1 ++ out2). apply (handleMessages_app _ [m] msgs); [done|]. by exists sm1, out1, out2.
Qed.

Lemma handleMessages_committed sm msgs r b :
  available sm -> handleMessages sm msgs None None true = Ret r -> exists r', handleMessages sm msgs None None b = Ret r'.
Proof.
  intros Ha H. destruct b; [by exists r|]. destruct r as [sm' out].
  apply handleMessages_Ret in H as (rsfu & ssfu & H & _ & _); [|done].
  destruct (handle_loop_ok _ _ _ _ _ _ _ _ _ (proj1 (proj2 (proj2 Ha))) (updates_ok_reset _ Ha) H) as [(Hf & Hm & Hk) _].
  unfold handleMessages, rsh_checkOutUpdate, ssh_checkOutUpdate. destruct Ha as (-> & -> & _). cbn [obind].
  change (rsh_state (sm_requester sm <| rsh_update := None |>)) with (rsh_state (sm_requester sm)).
  change (ssh_state (sm_supporter sm <| ssh_update := None |>)) with (ssh_state (sm_supporter sm)).
  rewrite H. cbn [obind]. rewrite rsfu_write_all by done. cbn [obind]. rewrite ssfu_write_all by (done || by left).
  by eexists.
Qed.

Lemma addStores_total rsh stores :
  rsh_update rsh = Some rsfu_reset -> exists rsh', addStores rsh stores = Ret rsh' /\ rsh_update rsh' = Some rsfu_reset.
Proof.
  revert rsh. induction stores as [|B stores IH]; intros rsh Hu; [by exists rsh|]. cbn.
  unfold rsh_addStore, rsh_checkOutUpdate. rewrite Hu. cbn [obind]. rewrite checkIn_reset. cbn [obind]. by apply IH.
Qed.

Lemma sendHeartbeats_total sm now n :
  let c := rsh_state (sm_requester sm) in
  rsh_update (sm_requester sm) = Some rsfu_reset -> 1 <= MaxEpoch (r_meta c) ->
  ts_lt (MaxRequested (r_meta c)) (Timestamp_Add now (LivenessInterval (sm_options sm)) 0) ->
  exists r, sendHeartbeats sm now n = Ret r.
Proof.
  intros c Hu He Hx. unfold sendHeartbeats, rsh_checkOutUpdate. rewrite Hu. cbn [obind].
  set (rsh0 := sm_requester sm <| rsh_update := None |>) in *. change (rsh_state rsh0) with c.
  rewrite getHeartbeatsToSend_eq by done. cbn [obind]. set (x := Timestamp_Add _ _ _) in *.
  set (u := mkRsfu (mkRequesterMeta (MaxEpoch (r_meta c)) x) ∅).
  assert (r_fine c u) as Hf by (split; [lia|]; right; split; [cbn; lia|by apply ts_lt_le]).
  destruct (rsfu_write_cases c u n (sm_engine sm) Hf) as [-> |[_ ->]]; cbn [obind negb]; [|by eexists].
  rewrite (proj2 (rsh_checkInUpdate_Ret rsh0 c u (mkRsh (r_apply c u) (Some rsfu_reset)) eq_refl Hf)); [by eexists|].
  split; [|done]. by intros B [? ?].
Qed.

Lemma withdrawSupport_total sm now n :
  let c := ssh_state (sm_supporter sm) in
  ssh_update (sm_supporter sm) = Some ssfu_reset -> ts_lt (MaxWithdrawn (s_meta c)) now -> now <> zero_ts ->
  exists sm', withdrawSupport sm now n = Ret sm'.
Proof.
  intros c Hu Hw Hz. unfold withdrawSupport. case_match; [by eexists|]. unfold ssh_checkOutUpdate. rewrite Hu. cbn [obind].
  set (ssh0 := sm_supporter sm <| ssh_update := None |>). change (ssh_state ssh0) with c.
  rewrite ssfu_withdrawSupport_eq by done. cbn [obind]. set (u := mkSupporterState _ _).
  assert (s_fine c u) as Hf.
  { unfold u, withdrawn_meta. case_decide; [by left|]. right. by apply ts_lt_le. }
  assert (exists r, ssfu_write c u n (sm_engine sm) = Ret r) as [[ok d] ->].
  { unfold ssfu_write. case_match; [by eexists|]. case_bool_decide; cbn [negb obind]; [by eexists|].
    rewrite s_assertMeta by done. by eexists. }
  cbn [obind]. rewrite (ssh_checkInUpdate_eq ssh0 c) by done. by eexists.
Qed.

(** C25. No assertion of the store liveness code fails: in any reachable state of
    the stores, a store whose handlers are available (no write failed without a
    restart since) goes through any case of its loop without panicking, provided
    that the responses in its queue come from stores it still knows. *)
Theorem startLoop_body_total f0 f id st c :
  fabric_init f0 -> rtc fabric_step f0 f -> fb_stores f !! id = Some st -> case_ok st c ->
  ssh_update (sm_supporter (st_sm st)) <> None -> rsh_update (sm_requester (st_sm st)) <> None ->
  from_known (sm_requester (st_sm st)) (sm_receiveQueue (st_sm st)) ->
  exists r, startLoop_body (st_sm st) c = Ret r.
Proof.
  intros H0 Hr Hst Hc Hus Hur Hk. destruct (fabric_reach_inv _ _ H0 Hr) as [Hn Hs]. pose proof (Hs _ _ Hst) as Hok.
  pose proof Hok as [_ Hq [Hu Hro Hd Hreq Hi] [Hu' _ _ _ _ Hw _] Hc0].
  destruct Hu as [?|Hu]; [done|]. destruct Hu' as [?|Hu']; [done|].
  destruct c as [enabled now n|now n| |n1 n2 committed]; cbn [startLoop_body] in *.
  - destruct Hc as (Hlt & Hv & Hmax). unfold maybeAddStores, drainStoresToAdd. cbn [obind].
    destruct (addStores_total (sm_requester (st_sm st)) (elements (sm_storesToAdd (st_sm st))) Hu) as (rsh & Hadd & Hu1).
    pose proof (requester_side_addStores _ _ _ _ _ _ _ _ (sk_requester _ _ _ Hok) Hadd) as [_ Hro1 Hd1 Hreq1 _].
    change (sm_requester (st_sm st <| sm_storesToAdd := ∅ |>)) with (sm_requester (st_sm st)). rewrite Hadd. cbn [obind].
    destruct enabled; [|by eexists]. apply sendHeartbeats_total; [done|apply Hro1|]. cbn.
    rewrite Timestamp_Add_ahead by done. rewrite Hd1 in Hreq1. intros ?.
    apply (ahead_lt _ _ (LivenessInterval (sm_options (st_sm st))) Hlt). by etrans.
  - destruct Hc as [Hlt _]. destruct (withdrawSupport_total (st_sm st) now n) as [sm Hsm]; [done| | |rewrite Hsm; by eexists].
    + intros ?. apply Hlt. by etrans.
    + intros ->. by apply Hlt.
  - unfold rsh_removeIdleStores, rsh_checkOutUpdate. rewrite Hu. cbn [obind]. rewrite checkIn_reset. by eexists.
  - destruct Hc as [-> ->]. set (st1 := mkStore (st_sm st <| sm_receiveQueue := [] |>) (st_clock st)).
    assert (store_ok (fb_net f) id st1) as Hok1 by (destruct Hok; split; try done; by constructor).
    assert (available (st_sm st1)) as Ha by by eapply store_available.
    destruct (store_messages_total (fb_net f) id st1 (sm_receiveQueue (st_sm st)) Hn Hok1 Ha Hq Hk) as [r H].
    by eapply handleMessages_committed.
Qed.

Lemma response_from_unknown sm ms1 ms2 A B e x sm' out :
  available sm -> from (sm_requester sm) !! B = None -> 1 <= e ->
  handleMessages sm (ms1 ++ RESP B A e x :: ms2) None None true <> Ret (sm', out).
Proof.
  intros Ha Hno He H. apply handleMessages_app in H as (sm1 & out1 & out2 & H1 & H2 & _); [|done].
  pose proof (handleMessages_available _ _ _ _ Ha H1) as Ha1.
  change (RESP B A e x :: ms2) with ([RESP B A e x] ++ ms2) in H2.
  apply handleMessages_app in H2 as (sm2 & out3 & out4 & H2 & _ & _); [|done].
  apply handle_response_Ret in H2 as (m' & ss' & H & _ & Hk & _); [|done].
  assert (from (sm_requester sm1) !! B = None) as Hno1.
  { apply eq_None_not_Some. intros Hs. apply (handleMessages_from _ _ _ _ _ Ha H1) in Hs. rewrite Hno in Hs. by destruct Hs. }
  unfold requested_of in H, Hk. rewrite Hno1 in H, Hk. cbn [default] in H, Hk.
  apply handleHeartbeatResponse_cases in H as [_ [(_ & Hle & _)|[-> _]]]; [cbn in Hle; lia|].
  destruct Hk as [? [=]]. intros [= ? ?]. lia.
Qed.

(** C28. A response from a store that is not in [supportFrom], because it was
    removed as idle or because the requester has restarted since, makes the
    requester panic: the zero state it is compared with fails an assertion, or the
    check-in dereferences the missing entry. *)
Theorem response_from_unknown_panics f0 f id st B e x :
  fabric_init f0 -> rtc fabric_step f0 f -> fb_stores f !! id = Some st ->
  RESP B id e x ∈ sm_receiveQueue (st_sm st) -> from (sm_requester (st_sm st)) !! B = None ->
  exists msg, startLoop_body (st_sm st) (ReceiveQueueSig None None true) = Panic msg.
Proof.
  intros H0 Hr Hst Hin Hno. destruct (fabric_reach_inv _ _ H0 Hr) as [Hn Hs]. pose proof (Hs _ _ Hst) as Hok.
  cbn [startLoop_body receiveQueue_Drain]. destruct (handleMessages _ _ _ _ _) as [[sm out]|msg] eqn:H; [|by exists msg]. exfalso.
  set (st1 := mkStore (st_sm st <| sm_receiveQueue := [] |>) (st_clock st)).
  assert (store_ok (fb_net f) id st1) as Hok1 by (destruct Hok; split; try done; by constructor).
  assert (available (st_sm st1)) as Ha by exact (store_returns _ _ _ _ _ _ _ _ Hok1 H).
  assert (1 <= e) as He.
  { pose proof (sk_queue _ _ _ Hok) as Hq. rewrite Forall_forall in Hq. apply Hq in Hin as [Hin _].
    apply (no_response _ Hn) in Hin. unfold justify in Hin. case_decide; [destruct Hin as [y Hin]|];
      apply (no_heartbeat _ Hn) in Hin; lia. }
  apply list_elem_of_split in Hin as (ms1 & ms2 & E). rewrite E in H. by apply (response_from_unknown _ _ _ _ _ _ _ _ _ Ha Hno He) in H.
Qed.

(** *** An executable scheduler *)

Inductive action : Type :=
| Deliver (id : StoreIdent) (m : LivenessMessage)
| Query (id id' : StoreIdent)
| Loop (id : StoreIdent) (c : loop_case)
| Restart (id : StoreIdent) (options : Options) (t now : Timestamp).

#[global] Instance ts_lt_dec t s : Decision (ts_lt t s) := not_dec (decide (ts_le s t)).

#[global] Instance Timestamp_valid_dec t : Decision (Timestamp_valid t).
Proof. unfold Timestamp_valid. apply _. Defined.

#[global] Instance case_any_dec st c : Decision (case_any st c).
Proof. destruct c; cbn; apply _. Defined.

Definition restart_ok (disk : Disk) (options : Options) (t now : Timestamp) : Prop :=
  0 <= LivenessInterval options /\ MaxEpoch (dk_RequesterMeta disk) < MaxInt64 /\ ts_le zero_ts t /\
  ts_le (MaxWithdrawn (dk_SupporterMeta disk)) t /\ ts_le (MaxRequested (dk_RequesterMeta disk)) t /\ ts_lt t now.

#[global] Instance restart_ok_dec disk options t now : Decision (restart_ok disk options t now).
Proof. unfold restart_ok. apply _. Defined.

Definition restart_store (id : StoreIdent) (disk : Disk) (options : Options) (t now : Timestamp) : option store :=
  if decide (restart_ok disk options t now) then
    match onRestart (NewSupportManager id disk options) true true now None with
    | Ret (sm, true) => Some (mkStore sm now)
    | _ => None
    end
  else None.

Definition exec (f : fabric) (a : action) : option fabric :=
  match a with
  | Deliver id m =>
    if decide (m ∈ fb_net f /\ lm_To m = id) then
      (fun st => with_store f id (mkStore (HandleMessage (st_sm st) m) (st_clock st)) []) <$> fb_stores f !! id
    else None
  | Query id id' =>
    (fun st => with_store f id (mkStore (fst (SupportFrom (st_sm st) id')) (st_clock st)) []) <$> fb_stores f !! id
  | Loop id c =>
    st ← fb_stores f !! id;
    if decide (case_any st c) then
      match startLoop_body (st_sm st) c with
      | Ret (sm, out) => Some (with_store f id (mkStore sm (case_clock c (st_clock st))) out)
      | Panic _ => None
      end
    else None
  | Restart id options t now =>
    st ← fb_stores f !! id;
    (fun st => with_store f id st []) <$> restart_store id (sm_engine (st_sm st)) options t now
  end.

Lemma restart_store_restarted id disk options t now st :
  restart_store id disk options t now = Some st -> restarted id disk t st.
Proof.
  unfold restart_store. case_decide as D; [|done]. destruct (onRestart _ _ _ _ _) as [[sm []]|] eqn:H; [|done|done].
  intros [= <-]. exists options. unfold restart_ok in D. cbn. tauto.
Qed.

(** The writes to the batch of the received messages succeed. *)
Definition puts_taken (a : action) : bool :=
  match a with Loop _ (ReceiveQueueSig n1 n2 _) => bool_decide (n1 = None) && bool_decide (n2 = None) | _ => true end.

Lemma exec_with (ok : store -> loop_case -> Prop) f a f' :
  (forall id c st, a = Loop id c -> case_any st c -> ok st c) -> exec f a = Some f' -> fabric_step_with ok f f'.
Proof.
  intros Hok. destruct a as [id m|id id'|id c|id options t now]; cbn; intros H.
  - case_decide as D; [|done]. destruct D as [Hm Hto]. apply fmap_Some in H as (st & Hst & ->). by apply fs_HandleMessage.
  - apply fmap_Some in H as (st & Hst & ->). by apply fs_SupportFrom.
  - apply bind_Some in H as (st & Hst & H). case_decide as D; [|done].
    destruct (startLoop_body (st_sm st) c) as [[sm out]|] eqn:E; [|done]. injection H as <-. apply fs_loop; eauto.
  - apply bind_Some in H as (st & Hst & (st' & H & ->)%fmap_Some). eapply fs_restart; [done|].
    by eapply restart_store_restarted.
Qed.

Lemma exec_any f a f' : exec f a = Some f' -> fabric_step_with case_any f f'.
Proof. by apply exec_with. Qed.

Lemma exec_step f a f' : exec f a = Some f' -> puts_taken a = true -> fabric_step f f'.
Proof.
  intros H Hp. apply (exec_with case_ok) in H; [done|]. intros id c st -> D. destruct c; try exact D.
  cbn in Hp. apply andb_prop in Hp as [H1 H2]. by bool_to_prop.
Qed.

Fixpoint schedule (f : fabric) (actions : list action) : option fabric :=
  match actions with
  | [] => Some f
  | a :: actions => f' ← exec f a; schedule f' actions
  end.

Lemma schedule_any f actions f' : schedule f actions = Some f' -> rtc (fabric_step_with case_any) f f'.
Proof.
  revert f. induction actions as [|a actions IH]; cbn; intros f H; [by simplify_eq|].
  apply bind_Some in H as (f1 & H1%exec_any & H). eapply rtc_l; [done|]. by apply IH.
Qed.

Lemma schedule_reach f actions f' :
  schedule f actions = Some f' -> forallb puts_taken actions = true -> rtc fabric_step f f'.
Proof.
  revert f. induction actions as [|a actions IH]; cbn; intros f H; [by simplify_eq|]. intros [Hp Hps]%andb_prop.
  apply bind_Some in H as (f1 & H1 & H). eapply rtc_l; [by eapply exec_step|]. by apply IH.
Qed.

(** *** Support can be had *)

(** The store [A] knows [B] as [ss], and both stores are idle. *)
Record idle (f : fabric) (A B : StoreIdent) (sa sb : store) (ss : SupportState) : Prop := mkIdle {
  il_other : A <> B;
  il_A : fb_stores f !! A = Some sa;
  il_B : fb_stores f !! B = Some sb;
  il_availA : available (st_sm sa);
  il_availB : available (st_sm sb);
  il_queueA : sm_receiveQueue (st_sm sa) = [];
  il_queueB : sm_receiveQueue (st_sm sb) = [];
  il_from : from (sm_requester (st_sm sa)) !! B = Some ss
}.

Lemma fabric_reach_from f f' : fabric_inv f -> rtc fabric_step f f' -> fabric_inv f'.
Proof. intros H. induction 1; [done|]. eauto using fabric_step_inv. Qed.

(** The latest message of a type from one store to another. *)
Definition newest (typ : LivenessMessageType) (from to : StoreIdent) (net : network) : option LivenessMessage :=
  snd <$> list_find (fun m => lm_Type m = typ /\ lm_From m = from /\ lm_To m = to) net.

(** A message is delivered to a store, which then handles what it has received. *)
Definition deliver (id : StoreIdent) (m : LivenessMessage) : list action :=
  [Deliver id m; Loop id (ReceiveQueueSig None None true)].

(** One round of heartbeats between two stores: [A] ticks at [now] and sends its
    heartbeats, the one for [B] is delivered and handled, and the response of [B]
    is delivered and handled. *)
Definition heartbeat_round (f : fabric) (A B : StoreIdent) (now : Timestamp) : option fabric :=
  f1 ← exec f (Loop A (HeartbeatTick true now None));
  hb ← newest MsgHeartbeat A B (fb_net f1);
  f2 ← schedule f1 (deliver B hb);
  resp ← newest MsgHeartbeatResp B A (fb_net f2);
  schedule f2 (deliver A resp).

Lemma heartbeat_round_reach f A B now f' : heartbeat_round f A B now = Some f' -> rtc fabric_step f f'.
Proof.
  intros (f1 & H1 & (hb & _ & (f2 & H2 & (resp & _ & H3)%bind_Some)%bind_Some)%bind_Some)%bind_Some.
  eapply rtc_l; [by eapply exec_step|]. etrans; [by eapply schedule_reach|by eapply schedule_reach].
Qed.

Lemma newest_app typ from to out net m : m ∈ out ->
  lm_Type m = typ -> lm_From m = from -> lm_To m = to ->
  (forall m', m' ∈ out -> lm_Type m' = typ -> lm_From m' = from -> lm_To m' = to -> m' = m) ->
  newest typ from to (out ++ net) = Some m.
Proof.
  intros Hin H1 H2 H3 Huniq. unfold newest.
  destruct (list_find_elem_of (fun m => lm_Type m = typ /\ lm_From m = from /\ lm_To m = to) out m Hin) as [[k m'] E];
    [done|].
  rewrite (list_find_app_l _ _ _ _ _ E). cbn. apply list_find_Some in E as (E & (? & ? & ?) & _).
  f_equal. apply Huniq; try done. by eapply list_elem_of_lookup_2.
Qed.

(** Among the heartbeats of a round is one to each store that is known. *)
Lemma newest_heartbeat A B (known : gmap StoreIdent requestedSupport) x net rs :
  (forall C rc, known !! C = Some rc -> ss_Target (state rc) = C) -> known !! B = Some rs ->
  let out := (fun '((_, rs) : StoreIdent * requestedSupport) =>
                HB A (ss_Target (state rs)) (ss_Epoch (state rs)) x) <$> map_to_list known in
  let hb := HB A B (ss_Epoch (state rs)) x in hb ∈ out /\ newest MsgHeartbeat A B (out ++ net) = Some hb.
Proof.
  intros Hk Hrs out hb. assert (hb ∈ out) as Hin.
  { apply list_elem_of_fmap. exists (B, rs). split; [by rewrite (Hk B rs)|by apply elem_of_map_to_list]. }
  split; [done|]. apply newest_app; try done.
  intros m' ([C rc] & -> & HC%elem_of_map_to_list)%list_elem_of_fmap _ _ Hto. cbn in Hto.
  rewrite (Hk C rc HC) in Hto. subst C. rewrite Hrs in HC. injection HC as <-. by rewrite (Hk B rs).
Qed.

(** A message is delivered to an idle store and handled. *)
Lemma deliver_handle f id st m sm out :
  fb_stores f !! id = Some st -> sm_receiveQueue (st_sm st) = [] -> m ∈ fb_net f -> lm_To m = id ->
  handleMessages (st_sm st) [m] None None true = Ret (sm, out) ->
  schedule f (deliver id m) = Some (with_store f id (mkStore sm (st_clock st)) out).
Proof.
  intros Hst Hq Hm Hto H. set (st1 := mkStore (HandleMessage (st_sm st) m) (st_clock st)).
  assert (startLoop_body (st_sm st1) (ReceiveQueueSig None None true) = Ret (sm, out)) as Hb.
  { subst st1. destruct st as [[i d o q t w ssh rsh] clock]. cbn in Hq. subst q. exact H. }
  unfold deliver. cbn [schedule exec]. rewrite decide_True by done. rewrite Hst. cbn [fmap option_fmap option_map mbind option_bind].
  fold st1. cbn [fb_stores with_store]. rewrite lookup_insert_eq. cbn [mbind option_bind].
  rewrite decide_True by done. rewrite Hb. unfold with_store. cbn. by rewrite insert_insert_eq.
Qed.

Lemma addStores_from rsh stores rsh' B ss :
  rsh_update rsh = Some rsfu_reset -> from rsh !! B = Some ss -> addStores rsh stores = Ret rsh' ->
  from rsh' !! B = Some ss /\ rsh_update rsh' = Some rsfu_reset.
Proof.
  revert rsh. induction stores as [|C stores IH]; intros rsh Hu Hf H; cbn in H; [by simplify_eq|].
  unfold rsh_addStore, rsh_checkOutUpdate in H. rewrite Hu in H. cbn [obind] in H. rewrite checkIn_reset in H. cbn [obind] in H.
  apply IH in H; [done|done|]. cbn. destruct (supportFrom (rsh_state rsh) !! C) eqn:E; [done|].
  unfold from in *. cbn. rewrite lookup_fmap, lookup_insert_ne; [by rewrite <- lookup_fmap|].
  intros ->. rewrite lookup_fmap, E in Hf. done.
Qed.

(** An idle store sends a round of heartbeats. *)
Lemma send_round f A B sa sb ss now :
  fabric_inv f -> idle f A B sa sb ss -> case_ok sa (HeartbeatTick true now None) ->
  exists sm out, let f1 := with_store f A (mkStore sm now) out in
    exec f (Loop A (HeartbeatTick true now None)) = Some f1 /\ idle f1 A B (mkStore sm now) sb ss /\
    sm_options sm = sm_options (st_sm sa) /\
    let hb := HB A B (ss_Epoch ss) (ahead now (LivenessInterval (sm_options (st_sm sa)))) in
    hb ∈ out /\ newest MsgHeartbeat A B (fb_net f1) = Some hb.
Proof.
  intros Hinv [] Hc. pose proof Hc as (Hlt & Hv & Hmax). pose proof Hinv as [Hn Hs]. pose proof (Hs _ _ il_A0) as Hok.
  destruct il_availA0 as (Hus & Hur & _). set (i := LivenessInterval (sm_options (st_sm sa))) in *.
  destruct (addStores_total (sm_requester (st_sm sa)) (elements (sm_storesToAdd (st_sm sa))) Hur) as (rsh & Hadd & Hu1).
  destruct (addStores_from _ _ _ _ _ Hur il_from0 Hadd) as [Hf _].
  pose proof (requester_side_addStores _ _ _ _ _ _ _ _ (sk_requester _ _ _ Hok) Hadd) as [_ Hro Hd Hreq Hi].
  set (sm1 := st_sm sa <| sm_storesToAdd := ∅ |> <| sm_requester := rsh |>).
  pose proof (Timestamp_Add_ahead now i Hv Hi Hmax) as Hx.
  assert (ts_lt (MaxRequested (r_meta (rsh_state rsh))) (Timestamp_Add now i 0)) as Hnew.
  { rewrite Hx. rewrite Hd in Hreq. intros ?. apply (ahead_lt _ _ i Hlt). by etrans. }
  destruct (sendHeartbeats_total sm1 now None Hu1 (ro_epoch _ _ _ _ Hro) Hnew) as [[sm out] Hsend].
  assert (startLoop_body (st_sm sa) (HeartbeatTick true now None) = Ret (sm, out)) as Hb.
  { cbn [startLoop_body]. unfold maybeAddStores, drainStoresToAdd. cbn [obind].
    change (sm_requester (st_sm sa <| sm_storesToAdd := ∅ |>)) with (sm_requester (st_sm sa)). by rewrite Hadd. }
  pose proof (fs_loop f A sa _ _ _ il_A0 Hc Hb) as Hstep. cbn [case_clock] in Hstep.
  pose proof (fabric_step_inv _ _ Hinv Hstep) as Hinv'. exists sm, out.
  split; [cbn [exec]; rewrite il_A0; cbn [mbind option_bind]; by rewrite decide_True, Hb|].
  apply sendHeartbeats_Ret in Hsend as [[? _]|[-> ->]]; [done| |done|apply Hro|done].
  change (Timestamp_Add now (LivenessInterval (sm_options sm1)) 0) with (Timestamp_Add now i 0) in *. rewrite Hx in *.
  split; [|split; [done|]].
  - split; try done.
    + apply lookup_insert_eq.
    + cbn. by rewrite lookup_insert_ne.
    + eapply store_available; [|done|done]. apply Hinv', lookup_insert_eq.
  - cbn zeta. unfold from in Hf. rewrite lookup_fmap in Hf. apply fmap_Some in Hf as (rs & Hrs & ->).
    rewrite <- (sk_id _ _ _ Hok). apply newest_heartbeat; [|done].
    intros C rc HC. apply (ro_from _ _ _ _ Hro C (state rc)). unfold from. rewrite lookup_fmap.
    by change (state <$> supportFrom (rsh_state (sm_requester sm1)) !! C = Some (state rc)); rewrite HC.
Qed.

(** What [sb] has for [A]. *)
Definition supports (sb : store) (A : StoreIdent) : SupportState := support_of A (ssh_state (sm_supporter (st_sm sb))).

Lemma heartbeat_handled f A B sa sb ss e x :
  fabric_inv f -> idle f A B sa sb ss -> HB A B e x ∈ fb_net f ->
  exists sm s', let sb' := mkStore sm (st_clock sb) in
    let f1 := with_store f B sb' [RESP B A (ss_Epoch s') (ss_Expiration s')] in
    schedule f (deliver B (HB A B e x)) = Some f1 /\ idle f1 A B sa sb' ss /\ supports sb' A = s' /\
    handleHeartbeat (supports sb A) (HB A B e x) = Ret s'.
Proof.
  intros [Hn Hs] [] Hm. pose proof (Hs _ _ il_B0) as Hok.
  destruct (handleHeartbeat_total (fb_net f) A B e x _ Hn (ss_ok _ _ _ _ _ (sk_supporter _ _ _ Hok)) Hm) as [s' Hs'].
  destruct (handle_heartbeat_total _ _ _ _ _ _ il_availB0 Hs') as [[sm out] H].
  pose proof (deliver_handle f B sb _ sm out il_B0 il_queueB0 Hm eq_refl H) as Hr.
  pose proof (handleMessages_available _ _ _ _ il_availB0 H) as Ha.
  apply handle_heartbeat_Ret in H as (s'' & Hs'' & -> & Hsm); [|done]. assert (s'' = s') as -> by congruence.
  exists sm, s'. split; [done|]. split; [|split; [|done]].
  - split; try done; cbn; [by rewrite lookup_insert_ne|by rewrite lookup_insert_eq|]. rewrite Hsm. by case_decide.
  - unfold supports. cbn. rewrite Hsm. case_decide; [done|]. unfold support_of. cbn. by rewrite lookup_insert_eq.
Qed.

Lemma response_handled f A B sa sb ss e x :
  fabric_inv f -> idle f A B sa sb ss -> RESP B A e x ∈ fb_net f -> e <= MaxInt64 ->
  exists sm m' ss', let sa' := mkStore sm (st_clock sa) in
    let f1 := with_store f A sa' [] in
    schedule f (deliver A (RESP B A e x)) = Some f1 /\ idle f1 A B sa' sb ss' /\ sm_options sm = sm_options (st_sm sa) /\
    handleHeartbeatResponse (r_meta (rsh_state (sm_requester (st_sm sa)))) ss (RESP B A e x) = Ret (m', ss').
Proof.
  intros [Hn Hs] [] Hm Hmax. pose proof (Hs _ _ il_A0) as Hok.
  destruct (handleHeartbeatResponse_total (fb_net f) A B e x _ _ ss Hn (rs_ok _ _ _ _ _ _ (sk_requester _ _ _ Hok)) Hm il_from0 Hmax)
    as [[m' ss'] H']. assert (requested_of B (sm_requester (st_sm sa)) = ss) as Hreq by (unfold requested_of; by rewrite il_from0).
  destruct (handle_response_total (st_sm sa) A B e x m' ss' il_availA0) as [[sm out] H]; [by eexists|by rewrite Hreq|].
  pose proof (deliver_handle f A sa _ sm out il_A0 il_queueA0 Hm eq_refl H) as Hr.
  pose proof (handleMessages_available _ _ _ _ il_availA0 H) as Ha.
  apply handle_response_Ret in H as (m1 & ss1 & H1 & -> & Hk & ->); [|done]. rewrite Hreq in H1, Hk, Hr, Ha.
  assert (m1 = m' /\ ss1 = ss') as [-> ->] by (split; congruence).
  eexists _, m', ss'. split; [exact Hr|]. split; [|done].
  pose proof (from_response _ B m' ss ss' (Some rsfu_reset) Hk) as Hf.
  split; try done; [by apply lookup_insert_eq|cbn; by rewrite lookup_insert_ne|].
  etransitivity; [exact (f_equal (fun m => m !! B) Hf)|]. case_decide as D; [by rewrite <- D|by rewrite lookup_insert_eq].
Qed.

(** A heartbeat to [B] and its response: [A] has the support it asked for, or it
    has caught up with the epoch of [B]. *)
Lemma whole_round f A B sa sb ss now :
  fabric_inv f -> idle f A B sa sb ss -> case_ok sa (HeartbeatTick true now None) -> ss_Epoch ss <= MaxInt64 ->
  ss_Epoch (supports sb A) <= MaxInt64 ->
  let x := ahead now (LivenessInterval (sm_options (st_sm sa))) in
  exists f' sa' sb' ss', heartbeat_round f A B now = Some f' /\ idle f' A B sa' sb' ss' /\ st_clock sa' = now /\
    sm_options (st_sm sa') = sm_options (st_sm sa) /\ ss_Epoch (supports sb' A) = Z.max (ss_Epoch ss) (ss_Epoch (supports sb A)) /\
    ss_Epoch ss' = Z.max (ss_Epoch ss) (ss_Epoch (supports sb A)) /\
    (ss_Epoch (supports sb A) <= ss_Epoch ss -> ts_le x (ss_Expiration ss')).
Proof.
  intros Hinv Hi Hc Hmax Hmaxb x.
  destruct (send_round _ _ _ _ _ _ _ Hinv Hi Hc) as (sm & out & Hst & Hi1 & Ho1 & Hhb & Hnew).
  pose proof (fabric_step_inv _ _ Hinv (exec_step _ _ _ Hst eq_refl)) as Hinv1. set (f1 := with_store _ _ _ _) in *.
  destruct (heartbeat_handled _ _ _ _ _ _ (ss_Epoch ss) x Hinv1 Hi1) as (smb & s' & Hr2 & Hi2 & Hsup & Hh).
  { cbn. apply elem_of_app. by left. }
  pose proof (fabric_reach_from _ _ Hinv1 (schedule_reach _ _ _ Hr2 eq_refl)) as Hinv2. set (f2 := with_store f1 _ _ _) in *.
  apply handleHeartbeat_cases in Hh. cbn [lm_Epoch lm_Expiration] in Hh.
  assert (ss_Epoch s' = Z.max (ss_Epoch ss) (ss_Epoch (supports sb A))) as He'.
  { destruct Hh as [(-> & _ & ?)|(-> & ? & _)]; cbn; lia. }
  destruct (response_handled f2 _ _ _ _ _ (ss_Epoch s') (ss_Expiration s') Hinv2 Hi2) as (sma & m' & ss' & Hr3 & Hi3 & Ho3 & Hresp).
  { cbn. by left. }
  { lia. }
  apply handleHeartbeatResponse_cases in Hresp as [_ Hresp]. cbn [lm_Epoch lm_Expiration] in Hresp.
  eexists _, _, _, ss'. split.
  { unfold heartbeat_round. rewrite Hst. cbn [mbind option_bind]. rewrite Hnew. cbn [mbind option_bind]. fold x.
    rewrite Hr2. cbn [mbind option_bind]. assert (newest MsgHeartbeatResp B A (fb_net f2) =
      Some (RESP B A (ss_Epoch s') (ss_Expiration s'))) as ->; [|exact Hr3].
    apply newest_app; try done; [by left|]. by intros ? ->%list_elem_of_singleton. }
  split; [exact Hi3|]. split; [done|]. split; [cbn in *; congruence|]. split; [by rewrite Hsup|]. split.
  - destruct Hresp as [(-> & ? & _)|[-> ?]]; cbn; lia.
  - intros Hle. assert (ss_Epoch ss = ss_Epoch s') as E by lia.
    assert (ts_le x (ss_Expiration s')) as Hx.
    { destruct Hh as [(Hs & Hx & Hge)|(-> & _ & _)]; [|done]. rewrite Hs in E |- *. by apply Hx. }
    destruct Hresp as [(-> & _ & Hx')|[-> _]]; [|done]. etrans; [exact Hx|]. by apply Hx'.
Qed.

Lemma SupportFrom_from sm B ss :
  from (sm_requester sm) !! B = Some ss -> ts_lt zero_ts (ss_Expiration ss) ->
  snd (SupportFrom sm B) = (ss_Epoch ss, ss_Expiration ss, true).
Proof.
  unfold SupportFrom, rsh_getSupportFrom, from. rewrite lookup_fmap. intros (rs & -> & ->)%fmap_Some Hx. cbn.
  unfold Timestamp_IsEmpty. case_bool_decide as E; [|done]. rewrite E in Hx. by destruct Hx.
Qed.

(** [A] has support from [B] at least until [x]. *)
Definition supported (f : fabric) (A B : StoreIdent) (x : Timestamp) : Prop :=
  exists sa e y, fb_stores f !! A = Some sa /\ snd (SupportFrom (st_sm sa) B) = (e, y, true) /\ ts_le x y.

Lemma idle_supported f A B sa sb ss x : idle f A B sa sb ss -> ts_lt zero_ts x -> ts_le x (ss_Expiration ss) ->
  supported f A B x.
Proof.
  intros [] Hx Hle. exists sa, (ss_Epoch ss), (ss_Expiration ss). split_and!; [done| |done].
  apply SupportFrom_from; [done|]. intros ?. apply Hx. by etrans.
Qed.

(** C26. Support can always be had again: from any reachable state in which two
    stores are idle and one knows the other, two rounds of heartbeats, in each of
    which the requester sends, the supporter handles the heartbeat and responds,
    and the requester handles the response ([heartbeat_round]), run to the end
    without a panic, and after them the requester has support at least until the
    expiration requested in the second round, whatever was withdrawn, lost or
    restarted before. After the first round it has support until the expiration
    requested there unless the supporter was in a later epoch. The epochs and the
    requested expirations are within int64. *)
Theorem support_acquired f0 f A B sa sb ss now1 now2 :
  fabric_init f0 -> rtc fabric_step f0 f -> idle f A B sa sb ss ->
  let i := LivenessInterval (sm_options (st_sm sa)) in
  ts_lt (st_clock sa) now1 -> ts_lt now1 now2 -> Timestamp_valid now1 -> Timestamp_valid now2 ->
  WallTime now2 + i <= MaxInt64 -> ss_Epoch ss <= MaxInt64 -> ss_Epoch (supports sb A) <= MaxInt64 ->
  exists f1 f2, heartbeat_round f A B now1 = Some f1 /\ heartbeat_round f1 A B now2 = Some f2 /\
    supported f2 A B (ahead now2 i) /\
    (ss_Epoch (supports sb A) <= ss_Epoch ss -> supported f1 A B (ahead now1 i)).
Proof.
  intros H0 Hr Hi i Hlt1 Hlt2 Hv1 Hv2 Hmax He Heb. pose proof (fabric_reach_inv _ _ H0 Hr) as Hinv.
  pose proof (ts_lt_le _ _ Hlt2) as Hle. pose proof (proj2 Hinv _ _ (il_A _ _ _ _ _ _ Hi)) as [_ _ [_ _ _ _ Hint] _ Hc0].
  assert (WallTime now1 + i <= MaxInt64) as Hmax1 by (clear -Hle Hmax; ts_crush; lia).
  assert (ts_lt zero_ts (ahead now1 i)) as Hpos.
  { fold i in Hint. intros Hz. apply Hlt1. etrans; [|exact Hc0]. etrans; [|exact Hz]. clear -Hint. unfold ahead. ts_crush. lia. }
  destruct (whole_round f A B sa sb ss now1 Hinv Hi) as (f1 & sa1 & sb1 & ss1 & Hr1 & Hi1 & Hclk & Ho & Heb1 & He1 & Hx1); [done..|].
  pose proof (fabric_reach_from _ _ Hinv (heartbeat_round_reach _ _ _ _ _ Hr1)) as Hinv1.
  destruct (whole_round f1 A B sa1 sb1 ss1 now2 Hinv1 Hi1) as (f2 & sa2 & sb2 & ss2 & Hr2 & Hi2 & _ & _ & _ & _ & Hx2).
  { cbn. rewrite Hclk, Ho. done. }
  { lia. }
  { lia. }
  rewrite Ho in Hx2. fold i in Hx2. exists f1, f2. split_and!; [done|done| |].
  - apply (idle_supported _ _ _ _ _ _ _ Hi2); [|apply Hx2; lia]. intros ?. apply Hpos. etrans; [by apply ahead_le|done].
  - intros Hb. apply (idle_supported _ _ _ _ _ _ _ Hi1); [done|by apply Hx1].
Qed.

(** ** Example runs *)

Definition ex_A : StoreIdent := mkStoreIdent 1 1.
Definition ex_B : StoreIdent := mkStoreIdent 2 2.
Definition ex_options : Options := mkOptions 10 0.
Definition ex_at (t : Z) : Timestamp := mkTimestamp t 0.

(** Two stores that start at time 2. *)
Definition ex_fabric : fabric :=
  let start id := default (mkStore (NewSupportManager id empty_disk ex_options) zero_ts)
                    (restart_store id empty_disk ex_options (ex_at 1) (ex_at 2)) in
  mkFabric (<[ex_A := start ex_A]> {[ex_B := start ex_B]}) [].

Lemma ex_fabric_init : fabric_init ex_fabric.
Proof.
  split; [done|]. apply map_Forall_insert_2; [|apply map_Forall_singleton]; exists (ex_at 1);
    apply restart_store_restarted with ex_options (ex_at 2); by vm_compute.
Qed.

Definition ex_request : LivenessMessage := HB ex_A ex_B 1 (ex_at 13).
Definition ex_response : LivenessMessage := RESP ex_B ex_A 1 (ex_at 13).

(** A asks B for support, and B responds. *)
Definition ex_round : list action :=
  [Query ex_A ex_B; Loop ex_A (HeartbeatTick true (ex_at 3) None); Deliver ex_B ex_request;
   Loop ex_B (ReceiveQueueSig None None true)].

Definition ex_run (actions : list action) : fabric := default ex_fabric (schedule ex_fabric actions).

Lemma ex_run_reach actions :
  match schedule ex_fabric actions with Some _ => forallb puts_taken actions | None => false end = true ->
  rtc fabric_step ex_fabric (ex_run actions).
Proof. unfold ex_run. destruct (schedule ex_fabric actions) eqn:H; [|done]. by eapply schedule_reach. Qed.

Definition ex_store (f : fabric) (id : StoreIdent) : store :=
  default (mkStore (NewSupportManager id empty_disk ex_options) zero_ts) (fb_stores f !! id).


Lemma startLoop_body_total_witness :
  let f := ex_run (ex_round ++ [Deliver ex_A ex_response]) in
  exists r, startLoop_body (st_sm (ex_store f ex_A)) (ReceiveQueueSig None None true) = Ret r.
Proof.
  intros f. apply (startLoop_body_total ex_fabric f ex_A (ex_store f ex_A)).
  - exact ex_fabric_init.
  - apply ex_run_reach. by vm_compute.
  - by vm_compute.
  - done.
  - by vm_compute.
  - by vm_compute.
  - constructor; [|constructor]. split; [done|]. intros _. by eexists; vm_compute.
Defined.

(** A restarts before the response arrives. *)
Lemma response_from_unknown_panics_witness :
  let f := ex_run (ex_round ++ [Restart ex_A ex_options (ex_at 13) (ex_at 14); Deliver ex_A ex_response]) in
  exists msg, startLoop_body (st_sm (ex_store f ex_A)) (ReceiveQueueSig None None true) = Panic msg.
Proof.
  intros f. apply (response_from_unknown_panics ex_fabric f ex_A (ex_store f ex_A) ex_B 1 (ex_at 13)).
  - exact ex_fabric_init.
  - apply ex_run_reach. by vm_compute.
  - by vm_compute.
  - apply (bool_decide_unpack _). by vm_compute.
  - by vm_compute.
Defined.

(** B withdraws its support from A: the first round brings A to the new epoch, the
    second brings support. *)
Lemma support_acquired_witness :
  let f := ex_run (ex_round ++ [Deliver ex_A ex_response; Loop ex_A (ReceiveQueueSig None None true);
                                Loop ex_B (SupportExpiryTick (ex_at 20) None)]) in
  exists f1 f2, heartbeat_round f ex_A ex_B (ex_at 21) = Some f1 /\ heartbeat_round f1 ex_A ex_B (ex_at 22) = Some f2 /\
    supported f2 ex_A ex_B (ex_at 32).
Proof.
  intros f. destruct (support_acquired ex_fabric f ex_A ex_B (ex_store f ex_A) (ex_store f ex_B)
    (mkSupportState ex_B 1 (ex_at 13)) (ex_at 21) (ex_at 22)) as (f1 & f2 & H1 & H2 & H3 & _).
  1: exact ex_fabric_init.
  1: apply ex_run_reach; by vm_compute.
  1: split; try (by vm_compute); (split_and!; [by vm_compute..| |by vm_compute]);
      apply (bool_decide_unpack _); by vm_compute.
  1-7: apply (bool_decide_unpack _); by vm_compute.
  exists f1, f2. split; [exact H1|]. split; [exact H2|].
  assert (ahead (ex_at 22) (LivenessInterval (sm_options (st_sm (ex_store f ex_A)))) = ex_at 32) as <-
    by by vm_compute. exact H3.
Defined.

(** *** A write to the batch that fails *)

(** B handles the heartbeat of A, but the write of its support to the batch fails;
    the error is logged, the batch is committed and the response is sent. B
    restarts before the expiration. *)
Definition ex_failed_put : list action :=
  [Query ex_A ex_B; Loop ex_A (HeartbeatTick true (ex_at 3) None); Deliver ex_B ex_request;
   Loop ex_B (ReceiveQueueSig None (Some 0%nat) true); Deliver ex_A ex_response;
   Loop ex_A (ReceiveQueueSig None None true); Restart ex_B ex_options (ex_at 3) (ex_at 4)].

(** The promise does depend on the writes to the batch: when one fails, the
    response goes out all the same, and after a restart the requester believes to
    have support that the supporter, whose clock is before the expiration, does
    not know of. *)
Theorem failed_put_breaks_promise :
  exists f sa sb, rtc (fabric_step_with case_any) ex_fabric f /\
    fb_stores f !! ex_A = Some sa /\ fb_stores f !! ex_B = Some sb /\
    snd (SupportFrom (st_sm sa) ex_B) = (1, ex_at 13, true) /\ ts_lt (st_clock sb) (ex_at 13) /\
    SupportFor (st_sm sb) ex_A = (0, false).
Proof.
  exists (ex_run ex_failed_put), (ex_store (ex_run ex_failed_put) ex_A), (ex_store (ex_run ex_failed_put) ex_B).
  split; [|split_and!; try (by vm_compute); apply (bool_decide_unpack _); by vm_compute].
  apply (schedule_any _ ex_failed_put). by vm_compute.
Qed.
