(* ===== verification/Encoding.v ===== *)
(** * Order-preserving encodings (src/pkg/util/encoding/encoding.go)

    The encodings of integers, byte strings, strings and times in keys. A byte is a
    [Z] in [[0, 256)], a Go string is its bytes, uint64 and int64 values are in range
    and wrap as in Go. The encoders append to a buffer; the decoders return the rest
    of it with the value, an error, or panic where they index out of range. A
    time.Time is its Unix seconds and nanoseconds. *)

From S2P Require Import Prelude Hlc.

Abbreviation buffer := (list Z).

(** The conversion byte(v), and [^t] for a byte. *)
Definition byte_of (v : Z) : Z := v mod 256.
Definition byte_not (t : Z) : Z := byte_of (Z.lnot t).

Definition u16 (z : Z) : Z := z mod 65536.
Definition u32 (z : Z) : Z := z mod 4294967296.

(** ** Constants *)

Definition encodedNull : Z := 0x00.
Definition encodedNotNull : Z := 0x01.
Definition floatNaN : Z := encodedNotNull + 1.
Definition floatNeg : Z := floatNaN + 1.
Definition floatZero : Z := floatNeg + 1.
Definition floatPos : Z := floatZero + 1.
Definition floatNaNDesc : Z := floatPos + 1.
Definition bytesMarker : Z := 0x12.
Definition bytesDescMarker : Z := bytesMarker + 1.
Definition timeMarker : Z := bytesDescMarker + 1.
Definition durationBigNegMarker : Z := timeMarker + 1.
Definition durationMarker : Z := durationBigNegMarker + 1.
Definition durationBigPosMarker : Z := durationMarker + 1.
Definition decimalNaN : Z := durationBigPosMarker + 1.
Definition decimalNegativeInfinity : Z := decimalNaN + 1.
Definition decimalNegLarge : Z := decimalNegativeInfinity + 1.
Definition decimalNegMedium : Z := decimalNegLarge + 11.
Definition decimalNegSmall : Z := decimalNegMedium + 1.
Definition decimalZero : Z := decimalNegSmall + 1.
Definition decimalPosSmall : Z := decimalZero + 1.
Definition decimalPosMedium : Z := decimalPosSmall + 1.
Definition decimalPosLarge : Z := decimalPosMedium + 11.
Definition decimalInfinity : Z := decimalPosLarge + 1.
Definition decimalNaNDesc : Z := decimalInfinity + 1.
Definition jsonInvertedIndex : Z := decimalNaNDesc + 1.
Definition jsonEmptyArray : Z := jsonInvertedIndex + 1.
Definition jsonEmptyObject : Z := jsonEmptyArray + 1.
Definition bitArrayMarker : Z := jsonEmptyObject + 1.
Definition bitArrayDescMarker : Z := bitArrayMarker + 1.
Definition timeTZMarker : Z := bitArrayDescMarker + 1.
Definition geoMarker : Z := timeTZMarker + 1.
Definition geoDescMarker : Z := geoMarker + 1.
Definition arrayKeyMarker : Z := geoDescMarker + 1.
Definition arrayKeyDescendingMarker : Z := arrayKeyMarker + 1.
Definition box2DMarker : Z := arrayKeyDescendingMarker + 1.
Definition geoInvertedIndexMarker : Z := box2DMarker + 1.
Definition emptyArray : Z := geoInvertedIndexMarker + 1.
Definition voidMarker : Z := emptyArray + 1.
Definition jsonEmptyArrayKeyMarker : Z := voidMarker + 1.
Definition jsonNullKeyMarker : Z := jsonEmptyArrayKeyMarker + 1.
Definition jsonStringKeyMarker : Z := jsonNullKeyMarker + 1.
Definition jsonNumberKeyMarker : Z := jsonStringKeyMarker + 1.
Definition jsonFalseKeyMarker : Z := jsonNumberKeyMarker + 1.
Definition jsonTrueKeyMarker : Z := jsonFalseKeyMarker + 1.
Definition jsonArrayKeyMarker : Z := jsonTrueKeyMarker + 1.
Definition jsonObjectKeyMarker : Z := jsonArrayKeyMarker + 1.
Definition jsonEmptyArrayKeyDescendingMarker : Z := jsonObjectKeyMarker + 8.
Definition jsonNullKeyDescendingMarker : Z := jsonEmptyArrayKeyDescendingMarker - 1.
Definition jsonStringKeyDescendingMarker : Z := jsonNullKeyDescendingMarker - 1.
Definition jsonNumberKeyDescendingMarker : Z := jsonStringKeyDescendingMarker - 1.
Definition jsonFalseKeyDescendingMarker : Z := jsonNumberKeyDescendingMarker - 1.
Definition jsonTrueKeyDescendingMarker : Z := jsonFalseKeyDescendingMarker - 1.
Definition jsonArrayKeyDescendingMarker : Z := jsonTrueKeyDescendingMarker - 1.
Definition jsonObjectKeyDescendingMarker : Z := jsonArrayKeyDescendingMarker - 1.
Definition IntMin : Z := 0x80.
Definition intMaxWidth : Z := 8.
Definition intZero : Z := IntMin + intMaxWidth.
Definition IntMax : Z := 0xfd.
Definition intSmall : Z := IntMax - intZero - intMaxWidth.
Definition encodedNotNullDesc : Z := 0xfe.
Definition encodedNullDesc : Z := 0xff.
Definition MaxVarintLen : Z := 9.

(** ** The type of an encoded value

    The source numbers the types from 0 in this order. *)

Inductive EncType : Set :=
| TUnknown | TNull | TNotNull | TInt | TFloat | TDecimal | TBytes | TBytesDesc | TTime | TDuration
| TTrue | TFalse | TUUID | TArray | TIPAddr | TJSON | TTuple | TBitArray | TBitArrayDesc | TTimeTZ
| TGeo | TGeoDesc | TArrayKeyAsc | TArrayKeyDesc | TBox2D | TVoid | TTSQuery | TTSVector
| TJSONNull | TJSONNullDesc | TJSONString | TJSONStringDesc | TJSONNumber | TJSONNumberDesc
| TJSONFalse | TJSONFalseDesc | TJSONTrue | TJSONTrueDesc | TJSONArray | TJSONArrayDesc
| TJSONObject | TJSONObjectDesc | TJsonEmptyArray | TJsonEmptyArrayDesc | TPGVector.

#[global] Instance EncType_eq_dec : EqDecision EncType.
Proof. solve_decision. Defined.

(** The cases [byte(Array)], [byte(True)] and [byte(False)] are the types' numbers. *)
Definition slowPeekType (b : buffer) : EncType :=
  match b with
  | [] => TUnknown
  | m :: _ =>
    if (m =? encodedNull) || (m =? encodedNullDesc) then TNull
    else if (m =? encodedNotNull) || (m =? encodedNotNullDesc) then TNotNull
    else if m =? arrayKeyMarker then TArrayKeyAsc
    else if m =? arrayKeyDescendingMarker then TArrayKeyDesc
    else if m =? jsonNullKeyMarker then TJSONNull
    else if m =? jsonNullKeyDescendingMarker then TJSONNullDesc
    else if m =? jsonStringKeyMarker then TJSONString
    else if m =? jsonStringKeyDescendingMarker then TJSONStringDesc
    else if m =? jsonNumberKeyMarker then TJSONNumber
    else if m =? jsonNumberKeyDescendingMarker then TJSONNumberDesc
    else if m =? jsonFalseKeyMarker then TJSONFalse
    else if m =? jsonFalseKeyDescendingMarker then TJSONFalseDesc
    else if m =? jsonTrueKeyMarker then TJSONTrue
    else if m =? jsonTrueKeyDescendingMarker then TJSONTrueDesc
    else if m =? jsonArrayKeyMarker then TJSONArray
    else if m =? jsonArrayKeyDescendingMarker then TJSONArrayDesc
    else if m =? jsonEmptyArrayKeyMarker then TJsonEmptyArray
    else if m =? jsonEmptyArrayKeyDescendingMarker then TJsonEmptyArrayDesc
    else if m =? jsonObjectKeyMarker then TJSONObject
    else if m =? jsonObjectKeyDescendingMarker then TJSONObjectDesc
    else if m =? bytesMarker then TBytes
    else if m =? bytesDescMarker then TBytesDesc
    else if m =? bitArrayMarker then TBitArray
    else if m =? bitArrayDescMarker then TBitArrayDesc
    else if m =? timeMarker then TTime
    else if m =? timeTZMarker then TTimeTZ
    else if m =? geoMarker then TGeo
    else if m =? box2DMarker then TBox2D
    else if m =? geoDescMarker then TGeoDesc
    else if m =? 13 then TArray
    else if m =? 10 then TTrue
    else if m =? 11 then TFalse
    else if (m =? durationBigNegMarker) || (m =? durationMarker) || (m =? durationBigPosMarker) then TDuration
    else if (m >=? IntMin) && (m <=? IntMax) then TInt
    else if (m >=? floatNaN) && (m <=? floatNaNDesc) then TFloat
    else if (m >=? decimalNaN) && (m <=? decimalNaNDesc) then TDecimal
    else if m =? voidMarker then TVoid
    else TUnknown
  end.

(** [typMap], filled by the package's init, and the lookup in it. *)
Definition typMap : list EncType := (fun i => slowPeekType [Z.of_nat i]) <$> seq 0 256.

Definition PeekType (b : buffer) : EncType :=
  match b with
  | [] => TUnknown
  | b0 :: _ => default TUnknown (typMap !! Z.to_nat b0)
  end.

(** ** Fixed widths *)

Definition EncodeUint16Ascending (b : buffer) (v : Z) : buffer := b ++ [byte_of (Z.shiftr v 8); byte_of v].

(** [for len(b) < n { b = append(b, 0) }] *)
Definition lengthen (b : buffer) (n : Z) : buffer := b ++ replicate (Z.to_nat (n - len b)) 0.

Definition PutUint16Ascending (b : buffer) (v idx : Z) : outcome buffer :=
  let b := lengthen b (idx + 2) in
  let! b := slice_set b idx (byte_of (Z.shiftr v 8)) in
  slice_set b (idx + 1) (byte_of v).

Definition EncodeUint32Ascending (b : buffer) (v : Z) : buffer :=
  b ++ [byte_of (Z.shiftr v 24); byte_of (Z.shiftr v 16); byte_of (Z.shiftr v 8); byte_of v].

Definition PutUint32Ascending (b : buffer) (v idx : Z) : outcome buffer :=
  let b := lengthen b (idx + 4) in
  let! b := slice_set b idx (byte_of (Z.shiftr v 24)) in
  let! b := slice_set b (idx + 1) (byte_of (Z.shiftr v 16)) in
  let! b := slice_set b (idx + 2) (byte_of (Z.shiftr v 8)) in
  slice_set b (idx + 3) (byte_of v).

Definition EncodeUint32Descending (b : buffer) (v : Z) : buffer := EncodeUint32Ascending b (u32 (Z.lnot v)).

(** binary.BigEndian.Uint16, Uint32 and Uint64 on the first bytes of [b]. *)
Definition BigEndian (width : Z) (b : buffer) : outcome Z :=
  let! bs := slice_to b width in
  Ret (foldl (fun v t => Z.lor (Z.shiftl v 8) t) 0 bs).

Definition DecodeUint16Ascending (b : buffer) : outcome (error + (buffer * Z)) :=
  if len b <? 2 then Ret (inl (Errorf "insufficient bytes to decode uint16 int value" []))
  else
    let! v := BigEndian 2 b in
    let! b := slice_from b 2 in
    Ret (inr (b, v)).

Definition DecodeUint32Ascending (b : buffer) : outcome (error + (buffer * Z)) :=
  if len b <? 4 then Ret (inl (Errorf "insufficient bytes to decode uint32 int value" []))
  else
    let! v := BigEndian 4 b in
    let! b := slice_from b 4 in
    Ret (inr (b, v)).

Definition DecodeUint32Descending (b : buffer) : outcome (error + (buffer * Z)) :=
  let? '(leftover, v) := DecodeUint32Ascending b in
  Ret (inr (leftover, u32 (Z.lnot v))).

Definition EncodeUint64Ascending (b : buffer) (v : Z) : buffer :=
  b ++ [byte_of (Z.shiftr v 56); byte_of (Z.shiftr v 48); byte_of (Z.shiftr v 40); byte_of (Z.shiftr v 32);
        byte_of (Z.shiftr v 24); byte_of (Z.shiftr v 16); byte_of (Z.shiftr v 8); byte_of v].

Definition EncodeUint64Descending (b : buffer) (v : Z) : buffer := EncodeUint64Ascending b (u64 (Z.lnot v)).

Definition DecodeUint64Ascending (b : buffer) : outcome (error + (buffer * Z)) :=
  if len b <? 8 then Ret (inl (Errorf "insufficient bytes to decode uint64 int value" []))
  else
    let! v := BigEndian 8 b in
    let! b := slice_from b 8 in
    Ret (inr (b, v)).

Definition DecodeUint64Descending (b : buffer) : outcome (error + (buffer * Z)) :=
  let? '(leftover, v) := DecodeUint64Ascending b in
  Ret (inr (leftover, u64 (Z.lnot v))).

(** ** Variable widths *)

Definition EncodeUvarintAscending (b : buffer) (v : Z) : buffer :=
  if v <=? intSmall then b ++ [byte_of (intZero + byte_of v)]
  else if v <=? 0xff then b ++ [IntMax - 7; byte_of v]
  else if v <=? 0xffff then b ++ [IntMax - 6; byte_of (Z.shiftr v 8); byte_of v]
  else if v <=? 0xffffff then b ++ [IntMax - 5; byte_of (Z.shiftr v 16); byte_of (Z.shiftr v 8); byte_of v]
  else if v <=? 0xffffffff then
    b ++ [IntMax - 4; byte_of (Z.shiftr v 24); byte_of (Z.shiftr v 16); byte_of (Z.shiftr v 8); byte_of v]
  else if v <=? 0xffffffffff then
    b ++ [IntMax - 3; byte_of (Z.shiftr v 32); byte_of (Z.shiftr v 24); byte_of (Z.shiftr v 16);
          byte_of (Z.shiftr v 8); byte_of v]
  else if v <=? 0xffffffffffff then
    b ++ [IntMax - 2; byte_of (Z.shiftr v 40); byte_of (Z.shiftr v 32); byte_of (Z.shiftr v 24);
          byte_of (Z.shiftr v 16); byte_of (Z.shiftr v 8); byte_of v]
  else if v <=? 0xffffffffffffff then
    b ++ [IntMax - 1; byte_of (Z.shiftr v 48); byte_of (Z.shiftr v 40); byte_of (Z.shiftr v 32);
          byte_of (Z.shiftr v 24); byte_of (Z.shiftr v 16); byte_of (Z.shiftr v 8); byte_of v]
  else
    b ++ [IntMax; byte_of (Z.shiftr v 56); byte_of (Z.shiftr v 48); byte_of (Z.shiftr v 40);
          byte_of (Z.shiftr v 32); byte_of (Z.shiftr v 24); byte_of (Z.shiftr v 16); byte_of (Z.shiftr v 8); byte_of v].

Definition EncodeVarintAscending (b : buffer) (v : Z) : buffer :=
  if v <? 0 then
    if v >=? -0xff then b ++ [IntMin + 7; byte_of v]
    else if v >=? -0xffff then b ++ [IntMin + 6; byte_of (Z.shiftr v 8); byte_of v]
    else if v >=? -0xffffff then b ++ [IntMin + 5; byte_of (Z.shiftr v 16); byte_of (Z.shiftr v 8); byte_of v]
    else if v >=? -0xffffffff then
      b ++ [IntMin + 4; byte_of (Z.shiftr v 24); byte_of (Z.shiftr v 16); byte_of (Z.shiftr v 8); byte_of v]
    else if v >=? -0xffffffffff then
      b ++ [IntMin + 3; byte_of (Z.shiftr v 32); byte_of (Z.shiftr v 24); byte_of (Z.shiftr v 16);
            byte_of (Z.shiftr v 8); byte_of v]
    else if v >=? -0xffffffffffff then
      b ++ [IntMin + 2; byte_of (Z.shiftr v 40); byte_of (Z.shiftr v 32); byte_of (Z.shiftr v 24);
            byte_of (Z.shiftr v 16); byte_of (Z.shiftr v 8); byte_of v]
    else if v >=? -0xffffffffffffff then
      b ++ [IntMin + 1; byte_of (Z.shiftr v 48); byte_of (Z.shiftr v 40); byte_of (Z.shiftr v 32);
            byte_of (Z.shiftr v 24); byte_of (Z.shiftr v 16); byte_of (Z.shiftr v 8); byte_of v]
    else
      b ++ [IntMin; byte_of (Z.shiftr v 56); byte_of (Z.shiftr v 48); byte_of (Z.shiftr v 40);
            byte_of (Z.shiftr v 32); byte_of (Z.shiftr v 24); byte_of (Z.shiftr v 16); byte_of (Z.shiftr v 8); byte_of v]
  else EncodeUvarintAscending b (u64 v).

Definition EncodeVarintDescending (b : buffer) (v : Z) : buffer := EncodeVarintAscending b (Z.lnot v).

Definition EncodedLengthUvarintAscending (v : Z) : Z :=
  if v <=? intSmall then 1
  else if v <=? 0xff then 2
  else if v <=? 0xffff then 3
  else if v <=? 0xffffff then 4
  else if v <=? 0xffffffff then 5
  else if v <=? 0xffffffffff then 6
  else if v <=? 0xffffffffffff then 7
  else if v <=? 0xffffffffffffff then 8
  else 9.

(** In each case but the first the code assigns [v = ^v] before it appends. *)
Definition EncodeUvarintDescending (b : buffer) (v : Z) : buffer :=
  let n := u64 (Z.lnot v) in
  if v =? 0 then b ++ [IntMin + 8]
  else if v <=? 0xff then b ++ [IntMin + 7; byte_of n]
  else if v <=? 0xffff then b ++ [IntMin + 6; byte_of (Z.shiftr n 8); byte_of n]
  else if v <=? 0xffffff then b ++ [IntMin + 5; byte_of (Z.shiftr n 16); byte_of (Z.shiftr n 8); byte_of n]
  else if v <=? 0xffffffff then
    b ++ [IntMin + 4; byte_of (Z.shiftr n 24); byte_of (Z.shiftr n 16); byte_of (Z.shiftr n 8); byte_of n]
  else if v <=? 0xffffffffff then
    b ++ [IntMin + 3; byte_of (Z.shiftr n 32); byte_of (Z.shiftr n 24); byte_of (Z.shiftr n 16);
          byte_of (Z.shiftr n 8); byte_of n]
  else if v <=? 0xffffffffffff then
    b ++ [IntMin + 2; byte_of (Z.shiftr n 40); byte_of (Z.shiftr n 32); byte_of (Z.shiftr n 24);
          byte_of (Z.shiftr n 16); byte_of (Z.shiftr n 8); byte_of n]
  else if v <=? 0xffffffffffffff then
    b ++ [IntMin + 1; byte_of (Z.shiftr n 48); byte_of (Z.shiftr n 40); byte_of (Z.shiftr n 32);
          byte_of (Z.shiftr n 24); byte_of (Z.shiftr n 16); byte_of (Z.shiftr n 8); byte_of n]
  else
    b ++ [IntMin; byte_of (Z.shiftr n 56); byte_of (Z.shiftr n 48); byte_of (Z.shiftr n 40);
          byte_of (Z.shiftr n 32); byte_of (Z.shiftr n 24); byte_of (Z.shiftr n 16); byte_of (Z.shiftr n 8); byte_of n].

Definition highestByteIndex (v : Z) : Z :=
  let '(v, l) := if v >? 0xffffffff then (Z.shiftr v 32, 4) else (v, 0) in
  let '(v, l) := if v >? 0xffff then (Z.shiftr v 16, l + 2) else (v, l) in
  if v >? 0xff then l + 1 else l.

Definition EncLenUvarintAscending (v : Z) : Z := if v <=? intSmall then 1 else 2 + highestByteIndex v.

Definition EncLenUvarintDescending (v : Z) : Z := if v =? 0 then 1 else 2 + highestByteIndex v.

Definition getVarintLen (b : buffer) : outcome (error + Z) :=
  let! b0 := slice_get b 0 in
  let length := b0 - intZero in
  if (length >=? 0) && (length <=? intSmall) then Ret (inr 1)
  else
    let length := if length >=? 0 then 1 + length - intSmall else 1 - length in
    if length >? len b then Ret (inl (Errorf "varint length %d exceeds slice length %d" [length; len b]))
    else Ret (inr length).

Definition GetUvarintLen (b : buffer) : outcome (error + Z) :=
  if len b =? 0 then Ret (inl (Errorf "insufficient bytes to decode uvarint value" []))
  else
    let! b0 := slice_get b 0 in
    let length := b0 - intZero in
    if length <=? intSmall then Ret (inr 1)
    else
      let length := length - intSmall in
      if (length <? 0) || (length >? 8) then Ret (inl (Errorf "invalid uvarint length of %d" [length]))
      else if len b <=? length then Ret (inl (Errorf "insufficient bytes to decode uvarint value: %q" b))
      else Ret (inr (1 + length)).

(** [for _, t := range bs { v = (v << 8) | uint64(t) }] and its two relatives with
    [^t]. *)
Definition read_uint64 (bs : buffer) : Z := foldl (fun v t => Z.lor (u64 (Z.shiftl v 8)) t) 0 bs.
Definition read_uint64_not (bs : buffer) : Z := foldl (fun v t => Z.lor (u64 (Z.shiftl v 8)) (byte_not t)) 0 bs.
Definition read_int64_not (bs : buffer) : Z := foldl (fun v t => Z.lor (int64 (Z.shiftl v 8)) (byte_not t)) 0 bs.

Definition DecodeUvarintAscending (b : buffer) : outcome (error + (buffer * Z)) :=
  if len b =? 0 then Ret (inl (Errorf "insufficient bytes to decode uvarint value" []))
  else
    let! b0 := slice_get b 0 in
    let length := b0 - intZero in
    let! b := slice_from b 1 in
    if length <=? intSmall then Ret (inr (b, u64 length))
    else
      let length := length - intSmall in
      if (length <? 0) || (length >? 8) then Ret (inl (Errorf "invalid uvarint length of %d" [length]))
      else if len b <? length then Ret (inl (Errorf "insufficient bytes to decode uvarint value: %q" b))
      else
        let! bs := slice_to b length in
        let! b := slice_from b length in
        Ret (inr (b, read_uint64 bs)).

Definition DecodeUvarintDescending (b : buffer) : outcome (error + (buffer * Z)) :=
  if len b =? 0 then Ret (inl (Errorf "insufficient bytes to decode uvarint value" []))
  else
    let! b0 := slice_get b 0 in
    let length := intZero - b0 in
    let! b := slice_from b 1 in
    if (length <? 0) || (length >? 8) then Ret (inl (Errorf "invalid uvarint length of %d" [length]))
    else if len b <? length then Ret (inl (Errorf "insufficient bytes to decode uvarint value: %q" b))
    else
      let! bs := slice_to b length in
      let! b := slice_from b length in
      Ret (inr (b, read_uint64_not bs)).

Definition DecodeVarintAscending (b : buffer) : outcome (error + (buffer * Z)) :=
  if len b =? 0 then Ret (inl (Errorf "insufficient bytes to decode varint value" []))
  else
    let! b0 := slice_get b 0 in
    let length := b0 - intZero in
    if length <? 0 then
      let length := - length in
      let! remB := slice_from b 1 in
      if len remB <? length then Ret (inl (Errorf "insufficient bytes to decode varint value: %q" remB))
      else
        let! bs := slice_to remB length in
        let! remB := slice_from remB length in
        Ret (inr (remB, Z.lnot (read_int64_not bs)))
    else
      let? '(remB, v) := DecodeUvarintAscending b in
      if v >? MaxInt64 then Ret (inl (Errorf "varint %d overflows int64" [v]))
      else Ret (inr (remB, v)).

Definition DecodeVarintDescending (b : buffer) : outcome (error + (buffer * Z)) :=
  let? '(leftover, v) := DecodeVarintAscending b in
  Ret (inr (leftover, Z.lnot v)).

(** ** Byte strings *)

Definition escape : Z := 0x00.
Definition escapedTerm : Z := 0x01.
Definition escapedJSONObjectKeyTerm : Z := 0x02.
Definition escapedJSONArray : Z := 0x03.
Definition escaped00 : Z := 0xff.
Definition escapedFF : Z := 0x00.
Definition escapeLength : Z := 2.

Record escapes : Type := mkEscapes {
  e_escape : Z;
  e_escapedTerm : Z;
  e_escaped00 : Z;
  e_escapedFF : Z;
  e_marker : Z
}.

Definition ascendingBytesEscapes : escapes := mkEscapes escape escapedTerm escaped00 escapedFF bytesMarker.
Definition descendingBytesEscapes : escapes :=
  mkEscapes (byte_not escape) (byte_not escapedTerm) (byte_not escaped00) (byte_not escapedFF) bytesDescMarker.

(** bytes.IndexByte *)
Fixpoint IndexByte (b : buffer) (c : Z) : Z :=
  match b with
  | [] => -1
  | x :: b =>
    if x =? c then 0
    else
      let i := IndexByte b c in
      if i =? -1 then -1 else i + 1
  end.

(** bytes.Count of a single byte *)
Fixpoint CountByte (b : buffer) (c : Z) : Z :=
  match b with
  | [] => 0
  | x :: b => (if x =? c then 1 else 0) + CountByte b c
  end.

(** The loop of the next function; [fuel] bounds its iterations, each of which
    shortens [data]. *)
Fixpoint escape_loop (fuel : nat) (b data : buffer) : outcome buffer :=
  match fuel with
  | O => Panic "out of fuel"
  | S fuel =>
    let i := IndexByte data escape in
    if i =? -1 then Ret (b ++ data)
    else
      let! pre := slice_to data i in
      let b := b ++ pre in
      let b := b ++ [escape; escaped00] in
      let! data := slice_from data (i + 1) in
      escape_loop fuel b data
  end.

Definition encodeBytesAscendingWithoutTerminatorOrPrefix (b data : buffer) : outcome buffer :=
  escape_loop (S (length data)) b data.

Definition encodeBytesAscendingWithTerminator (b data : buffer) (terminator : Z) : outcome buffer :=
  let! bs := encodeBytesAscendingWithoutTerminatorOrPrefix b data in
  Ret (bs ++ [escape; terminator]).

Definition encodeBytesAscendingWithTerminatorAndPrefix (b data : buffer) (terminator prefix : Z) : outcome buffer :=
  let b := b ++ [prefix] in
  encodeBytesAscendingWithTerminator b data terminator.

Definition encodeNextBytesAscendingWithTerminator (b data : buffer) (terminator : Z) : outcome buffer :=
  let! bs := encodeBytesAscendingWithoutTerminatorOrPrefix b data in
  Ret (bs ++ [escape; escaped00; escape; terminator]).

Definition EncodeBytesAscending (b data : buffer) : outcome buffer :=
  encodeBytesAscendingWithTerminatorAndPrefix b data (e_escapedTerm ascendingBytesEscapes) bytesMarker.

Definition EncodeNextBytesAscending (b data : buffer) : outcome buffer :=
  let b := b ++ [bytesMarker] in
  encodeNextBytesAscendingWithTerminator b data (e_escapedTerm ascendingBytesEscapes).

(** complement_safe.go *)
Definition onesComplement (b : buffer) : buffer := byte_not <$> b.

(** complement_fast.go: words of [wordSize] bytes, then the bytes after the last
    whole word. *)
Definition wordSize : nat := 8.

Fixpoint complement_words (w : nat) (b : buffer) : buffer :=
  match w with
  | O => b
  | S w => onesComplement (take wordSize b) ++ complement_words w (drop wordSize b)
  end.

Definition onesComplement_fast (b : buffer) : buffer :=
  let n := length b in
  let w := (n / wordSize)%nat in
  let b := complement_words w b in
  take (w * wordSize) b ++ onesComplement (drop (w * wordSize) b).

Definition EncodeBytesDescending (b data : buffer) : outcome buffer :=
  let n := len b in
  let! b := EncodeBytesAscending b data in
  let! b := slice_set b n bytesDescMarker in
  let! pre := slice_to b (n + 1) in
  let! post := slice_from b (n + 1) in
  Ret (pre ++ onesComplement post).

Definition EncodeBytesSize (data : buffer) : Z := len data + 3 + CountByte data escape.

Definition EncodeNextBytesSize (data : buffer) : Z := len data + 5 + CountByte data escape.

(** The loop of [decodeBytesInternal]. *)
Fixpoint decode_loop (fuel : nat) (b r : buffer) (e : escapes) : outcome (error + (buffer * buffer)) :=
  match fuel with
  | O => Panic "out of fuel"
  | S fuel =>
    let i := IndexByte b (e_escape e) in
    if i =? -1 then Ret (inl (Errorf "did not find terminator %#x in buffer %#x" (e_escape e :: b)))
    else if i + 1 >=? len b then Ret (inl (Errorf "malformed escape in buffer %#x" b))
    else
      let! v := slice_get b (i + 1) in
      let! pre := slice_to b i in
      let! rest := slice_from b (i + 2) in
      if v =? e_escapedTerm e then Ret (inr (rest, r ++ pre))
      else if negb (v =? e_escaped00 e) then Ret (inl (Errorf "unknown escape sequence: %#x %#x" [e_escape e; v]))
      else decode_loop fuel rest (r ++ pre ++ [e_escapedFF e]) e
  end.

(** The bytes that [r] aliases are not modified, so that [deepCopy] does not change
    the result. *)
Definition decodeBytesInternal (b r : buffer) (e : escapes) (expectMarker : bool) : outcome (error + (buffer * buffer)) :=
  if expectMarker then
    if (len b =? 0) || negb (bool_decide (b !! 0%nat = Some (e_marker e))) then
      Ret (inl (Errorf "did not find marker %#x in buffer %#x" (e_marker e :: b)))
    else
      let! b := slice_from b 1 in
      decode_loop (S (length b)) b r e
  else decode_loop (S (length b)) b r e.

Definition DecodeBytesAscending (b r : buffer) : outcome (error + (buffer * buffer)) :=
  decodeBytesInternal b r ascendingBytesEscapes true.

Definition DecodeBytesDescending (b r : buffer) : outcome (error + (buffer * buffer)) :=
  let? '(b, r) := decodeBytesInternal b r descendingBytesEscapes true in
  Ret (inr (b, onesComplement r)).

Fixpoint validate_loop (fuel : nat) (b : buffer) (e : escapes) : outcome (error + buffer) :=
  match fuel with
  | O => Panic "out of fuel"
  | S fuel =>
    let i := IndexByte b (e_escape e) in
    if i =? -1 then Ret (inl (Errorf "did not find terminator %#x in buffer %#x" (e_escape e :: b)))
    else if i + 1 >=? len b then Ret (inl (Errorf "malformed escape in buffer %#x" b))
    else
      let! v := slice_get b (i + 1) in
      let! rest := slice_from b (i + 2) in
      if v =? e_escapedTerm e then Ret (inr rest)
      else if negb (v =? e_escaped00 e) then Ret (inl (Errorf "unknown escape sequence: %#x %#x" [e_escape e; v]))
      else validate_loop fuel rest e
  end.

Definition validateDecodeBytesInternal (b : buffer) (e : escapes) (expectMarker : bool) : outcome (error + buffer) :=
  if expectMarker then
    if (len b =? 0) || negb (bool_decide (b !! 0%nat = Some (e_marker e))) then
      Ret (inl (Errorf "did not find marker %#x in buffer %#x" (e_marker e :: b)))
    else
      let! b := slice_from b 1 in
      validate_loop (S (length b)) b e
  else validate_loop (S (length b)) b e.

Definition ValidateDecodeBytesAscending (b : buffer) : outcome (error + buffer) :=
  validateDecodeBytesInternal b ascendingBytesEscapes true.

Fixpoint length_loop (fuel : nat) (b : buffer) (e : escapes) (skipped : Z) : outcome (error + Z) :=
  match fuel with
  | O => Panic "out of fuel"
  | S fuel =>
    let! rest := slice_from b skipped in
    let i := IndexByte rest (e_escape e) in
    if i =? -1 then Ret (inl (Errorf "did not find terminator %#x in buffer %#x" (e_escape e :: b)))
    else if i + 1 >=? len b then Ret (inl (Errorf "malformed escape in buffer %#x" b))
    else
      let skipped := skipped + (i + escapeLength) in
      let! c := slice_get b (skipped - 1) in
      if c =? e_escapedTerm e then Ret (inr skipped) else length_loop fuel b e skipped
  end.

Definition getBytesLength (b : buffer) (e : escapes) : outcome (error + Z) := length_loop (S (length b)) b e 1.

(** ** Strings, nulls and times *)

Definition encodeStringAscendingWithTerminatorAndPrefix (b s : buffer) (terminator prefix : Z) : outcome buffer :=
  encodeBytesAscendingWithTerminatorAndPrefix b s terminator prefix.

Definition EncodeStringAscending (b s : buffer) : outcome buffer :=
  encodeStringAscendingWithTerminatorAndPrefix b s (e_escapedTerm ascendingBytesEscapes) bytesMarker.

Definition EncodeStringDescending (b s : buffer) : outcome buffer := EncodeBytesDescending b s.

Definition DecodeUnsafeStringAscending (b r : buffer) : outcome (error + (buffer * buffer)) := DecodeBytesAscending b r.

Definition DecodeUnsafeStringDescending (b r : buffer) : outcome (error + (buffer * buffer)) := DecodeBytesDescending b r.

Definition EncodeNullAscending (b : buffer) : buffer := b ++ [encodedNull].
Definition EncodeNullDescending (b : buffer) : buffer := b ++ [encodedNullDesc].
Definition EncodeNotNullAscending (b : buffer) : buffer := b ++ [encodedNotNull].
Definition EncodeNotNullDescending (b : buffer) : buffer := b ++ [encodedNotNullDesc].

Definition encodeTime (b : buffer) (unix nanos : Z) : buffer :=
  let b := b ++ [timeMarker] in
  let b := EncodeVarintAscending b unix in
  EncodeVarintAscending b nanos.

Definition EncodeTimeAscending (b : buffer) (t : Z * Z) : buffer := encodeTime b (fst t) (snd t).

Definition EncodeTimeDescending (b : buffer) (t : Z * Z) : buffer := encodeTime b (Z.lnot (fst t)) (Z.lnot (snd t)).

Definition decodeTime (b : buffer) : outcome (error + (buffer * (Z * Z))) :=
  if negb (bool_decide (PeekType b = TTime)) then Ret (inl (Errorf "did not find marker" []))
  else
    let! b := slice_from b 1 in
    let? '(b, sec) := DecodeVarintAscending b in
    let? '(b, nsec) := DecodeVarintAscending b in
    Ret (inr (b, (sec, nsec))).

(** time.Unix: the nanoseconds are brought into [0, 1e9). *)
Definition time_Unix (sec nsec : Z) : Z * Z :=
  if (nsec <? 0) || (nsec >=? 1000000000) then
    let n := Z.quot nsec 1000000000 in
    let sec := int64 (sec + n) in
    let nsec := nsec - n * 1000000000 in
    if nsec <? 0 then (int64 (sec - 1), nsec + 1000000000) else (sec, nsec)
  else (sec, nsec).

Definition DecodeTimeAscending (b : buffer) : outcome (error + (buffer * (Z * Z))) :=
  let? '(b, (sec, nsec)) := decodeTime b in
  Ret (inr (b, time_Unix sec nsec)).

Definition DecodeTimeDescending (b : buffer) : outcome (error + (buffer * (Z * Z))) :=
  let? '(b, (sec, nsec)) := decodeTime b in
  Ret (inr (b, time_Unix (Z.lnot sec) (Z.lnot nsec))).
