(* ===== verification/EncodingOrder.v ===== *)
(** * Encoded values sort and decode like the values

    [OrderedCodec] is what keys rely on: appending, a round trip with anything after
    the encoding, and an order that is decided within the encodings, so that it does
    not depend on what follows them. It holds of the integer, byte string and time
    encodings in both directions, and of sequences of such encodings. *)

From S2P Require Import Prelude Hlc Encoding.

(** ** The order of keys *)

Definition is_byte (t : Z) : Prop := 0 <= t < 256.

(** bytes.Compare(l, k) < 0 *)
Fixpoint bytes_lt (l k : buffer) : Prop :=
  match l, k with
  | _, [] => False
  | [], _ :: _ => True
  | x :: l, y :: k => x < y \/ (x = y /\ bytes_lt l k)
  end.

(** [l] sorts before [k] whatever comes after them. *)
Fixpoint precedes (l k : buffer) : Prop :=
  match l, k with
  | x :: l, y :: k => x < y \/ (x = y /\ precedes l k)
  | _, _ => False
  end.

Lemma precedes_lt l k r s : precedes l k -> bytes_lt (l ++ r) (k ++ s).
Proof.
  revert k. induction l as [|x l IH]; intros [|y k]; cbn; try done. intros [H|[-> H]]; [by left|]. right. auto.
Qed.

Lemma precedes_app l l' k k' : precedes l k -> precedes (l ++ l') (k ++ k').
Proof.
  revert k. induction l as [|x l IH]; intros [|y k]; cbn; try done. intros [H|[-> H]]; [by left|]. right. auto.
Qed.

Lemma precedes_prefix p l k : precedes l k -> precedes (p ++ l) (p ++ k).
Proof. induction p as [|x p IH]; cbn; [done|]. intros H. right. auto. Qed.

Lemma precedes_not_suffix l r s : precedes (l ++ r) (l ++ s) -> precedes r s.
Proof. induction l as [|x l IH]; cbn; [done|]. intros [H|[_ H]]; [lia|auto]. Qed.

(** What a key encoding promises: it appends the bytes [code v]. *)
Class OrderedCodec {A : Type} (valid : A -> Prop) (lt : A -> A -> Prop) (code : A -> buffer)
    (encode : buffer -> A -> outcome buffer) (decode : buffer -> outcome (error + (buffer * A))) : Prop := {
  oc_encode : forall b v, valid v -> encode b v = Ret (b ++ code v);
  oc_decode : forall v rest, valid v -> decode (code v ++ rest) = Ret (inr (rest, v));
  oc_order : forall v w, valid v -> valid w -> lt v w -> precedes (code v) (code w)
}.

(** ** The type of a tag byte *)

Lemma typMap_spec t l : is_byte t -> PeekType (t :: l) = slowPeekType (t :: l).
Proof.
  intros Ht. unfold PeekType, typMap. rewrite list_lookup_fmap, lookup_seq_lt by (unfold is_byte in Ht; lia). cbn [fmap option_fmap option_map default].
  rewrite Nat.add_0_l, Z2Nat.id by apply Ht. done.
Qed.

(** A decidable fact of every byte is checked byte by byte. *)
Lemma byte_forall (f : Z -> bool) : forallb (fun i => f (Z.of_nat i)) (seq 0 256) = true -> forall t, is_byte t -> f t = true.
Proof.
  intros H t Ht. rewrite forallb_forall in H. specialize (H (Z.to_nat t)). rewrite Z2Nat.id in H by apply Ht.
  apply H, in_seq. unfold is_byte in Ht. lia.
Qed.

Lemma PeekType_Time t l : is_byte t -> PeekType (t :: l) = TTime <-> t = timeMarker.
Proof.
  intros Ht. rewrite typMap_spec by done.
  pose proof (byte_forall (fun t => eqb (bool_decide (slowPeekType [t] = TTime)) (t =? timeMarker)) ltac:(by vm_compute) t Ht) as H.
  apply eqb_prop in H. change (slowPeekType (t :: l)) with (slowPeekType [t]). rewrite <- Z.eqb_eq, <- H. by rewrite bool_decide_eq_true.
Qed.

Lemma PeekType_Int t l : is_byte t -> PeekType (t :: l) = TInt <-> IntMin <= t <= IntMax.
Proof.
  intros Ht. rewrite typMap_spec by done.
  pose proof (byte_forall (fun t => eqb (bool_decide (slowPeekType [t] = TInt)) ((IntMin <=? t) && (t <=? IntMax))) ltac:(by vm_compute) t Ht) as H.
  apply eqb_prop in H. change (slowPeekType (t :: l)) with (slowPeekType [t]). rewrite <- !Z.leb_le, <- andb_true_iff, <- H.
  by rewrite bool_decide_eq_true.
Qed.

(** ** Slices of a buffer *)

Lemma slice_to_app (l rest : buffer) n : len l = n -> slice_to (l ++ rest) n = Ret l.
Proof.
  intros <-. unfold slice_to. rewrite bool_decide_eq_true_2 by (rewrite len_app; pose proof (len_nonneg l); pose proof (len_nonneg rest); lia).
  f_equal. apply take_app_length'. unfold len. lia.
Qed.

Lemma slice_from_app (l rest : buffer) n : len l = n -> slice_from (l ++ rest) n = Ret rest.
Proof.
  intros <-. unfold slice_from. rewrite bool_decide_eq_true_2 by (rewrite len_app; pose proof (len_nonneg l); pose proof (len_nonneg rest); lia).
  f_equal. apply drop_app_length'. unfold len. lia.
Qed.

(** ** Big-endian bytes *)

(** The last [n] bytes of [v], most significant first. *)
Fixpoint be (n : nat) (v : Z) : buffer :=
  match n with
  | O => []
  | S n => byte_of (Z.shiftr v (8 * Z.of_nat n)) :: be n v
  end.

(** The number [a] followed by bytes. *)
Definition number (a : Z) (bs : buffer) : Z := foldl (fun v t => v * 256 + t) a bs.

Lemma be_length n v : length (be n v) = n.
Proof. induction n as [|n IH]; cbn; [done|]. by rewrite IH. Qed.

Lemma be_len n v : len (be n v) = Z.of_nat n.
Proof. unfold len. by rewrite be_length. Qed.

Lemma byte_of_shiftr v n : byte_of (Z.shiftr v (8 * Z.of_nat n)) = (v / 256 ^ Z.of_nat n) mod 256.
Proof. unfold byte_of. rewrite Z.shiftr_div_pow2 by lia. by rewrite Z.pow_mul_r by lia. Qed.

Lemma pow256_S n : 256 ^ Z.of_nat (S n) = 256 * 256 ^ Z.of_nat n.
Proof. rewrite Nat2Z.inj_succ, Z.pow_succ_r by lia. done. Qed.

Lemma pow256_pos n : 0 < 256 ^ Z.of_nat n.
Proof. apply Z.pow_pos_nonneg; lia. Qed.

Lemma mod256_S v n :
  v mod 256 ^ Z.of_nat (S n) = (v / 256 ^ Z.of_nat n) mod 256 * 256 ^ Z.of_nat n + v mod 256 ^ Z.of_nat n.
Proof.
  rewrite pow256_S, (Z.mul_comm 256), Z.rem_mul_r by (pose proof (pow256_pos n); lia). lia.
Qed.

Lemma be_number n v a : number a (be n v) = a * 256 ^ Z.of_nat n + v mod 256 ^ Z.of_nat n.
Proof.
  revert a. induction n as [|n IH]; intros a.
  - unfold number. cbn [be foldl]. change (256 ^ Z.of_nat 0) with 1. rewrite Z.mod_1_r. lia.
  - unfold number in *. cbn [be foldl]. rewrite IH, byte_of_shiftr, mod256_S, pow256_S. lia.
Qed.

Lemma be_bytes n v : Forall is_byte (be n v).
Proof.
  induction n as [|n IH]; cbn; constructor; [|done]. unfold is_byte, byte_of. apply Z.mod_pos_bound. lia.
Qed.

Lemma be_precedes n v w : v mod 256 ^ Z.of_nat n < w mod 256 ^ Z.of_nat n -> precedes (be n v) (be n w).
Proof.
  induction n as [|n IH]; [change (256 ^ Z.of_nat 0) with 1; rewrite !Z.mod_1_r; lia|].
  rewrite !mod256_S. cbn [be precedes]. rewrite !byte_of_shiftr. intros H.
  pose proof (pow256_pos n). pose proof (Z.mod_pos_bound v (256 ^ Z.of_nat n)). pose proof (Z.mod_pos_bound w (256 ^ Z.of_nat n)).
  destruct (Z.lt_total ((v / 256 ^ Z.of_nat n) mod 256) ((w / 256 ^ Z.of_nat n) mod 256)) as [L|[E|G]].
  - by left.
  - right. split; [done|]. apply IH. rewrite E in H. lia.
  - exfalso. nia.
Qed.

Lemma lor_shifted v t k : 0 <= k -> 0 <= t < 2 ^ k -> Z.lor (Z.shiftl v k) t = v * 2 ^ k + t.
Proof.
  intros Hk Ht. assert (Z.land (Z.shiftl v k) t = 0) as H.
  { apply Z.bits_inj'. intros i Hi. rewrite Z.land_spec, Z.bits_0, Z.shiftl_spec by done.
    destruct (Z.ltb_spec i k) as [L|G]; [by rewrite Z.testbit_neg_r by lia|].
    destruct (decide (t = 0)) as [->|N]; [by rewrite Z.bits_0, andb_false_r|].
    rewrite (Z.bits_above_log2 t i), andb_false_r; [done|lia|].
    apply Z.log2_lt_pow2; [lia|]. apply Z.lt_le_trans with (2 ^ k); [lia|]. by apply Z.pow_le_mono_r. }
  rewrite <- Z.lxor_lor, <- Z.add_nocarry_lxor by done. rewrite Z.shiftl_mul_pow2 by lia. done.
Qed.

Lemma lor_byte v t : is_byte t -> Z.lor (Z.shiftl v 8) t = v * 256 + t.
Proof. intros Ht. exact (lor_shifted v t 8 ltac:(done) Ht). Qed.

Ltac number_nil := unfold number; change (256 ^ len (@nil Z)) with 1; cbn [foldl fmap list_fmap]; lia.

Lemma number_cons a t bs : number a (t :: bs) = number (a * 256 + t) bs.
Proof. done. Qed.

Lemma pow256_len (t : Z) bs : 256 ^ len (t :: bs) = 256 * 256 ^ len bs.
Proof. exact (pow256_S (length bs)). Qed.

Lemma number_bounds a bs :
  Forall is_byte bs -> a * 256 ^ len bs <= number a bs < (a + 1) * 256 ^ len bs.
Proof.
  revert a. induction bs as [|t bs IH]; intros a H; [number_nil|]. apply Forall_cons in H as [Ht H].
  rewrite number_cons, pow256_len. specialize (IH (a * 256 + t) H). pose proof (pow256_pos (length bs)). unfold is_byte, len in *.
  nia.
Qed.

Lemma byte_not_eq t : is_byte t -> byte_not t = 255 - t.
Proof. unfold is_byte, byte_not, byte_of, Z.lnot, Z.pred. intros H. rewrite <- (Z_mod_plus_full _ 1), Z.mod_small; lia. Qed.

Lemma byte_not_byte t : is_byte (byte_not t).
Proof. unfold is_byte, byte_not, byte_of. apply Z.mod_pos_bound. lia. Qed.

Lemma bytes_not bs : Forall is_byte (byte_not <$> bs).
Proof. apply Forall_fmap, Forall_forall. intros t _. apply byte_not_byte. Qed.

Lemma number_not a bs :
  Forall is_byte bs -> number a (byte_not <$> bs) = (a + 1) * 256 ^ len bs - 1 - number 0 bs.
Proof.
  assert (forall a b bs, number (a + b) bs = a * 256 ^ len bs + number b bs) as Hadd.
  { clear. intros a b bs. revert a b. induction bs as [|t bs IH]; intros a b; [number_nil|].
    rewrite !number_cons, pow256_len. replace ((a + b) * 256 + t) with (a * 256 + (b * 256 + t)) by lia. rewrite IH. lia. }
  revert a. induction bs as [|t bs IH]; intros a H; [number_nil|]. apply Forall_cons in H as [Ht H].
  cbn [fmap list_fmap]. rewrite !number_cons, pow256_len, byte_not_eq by done.
  rewrite IH by done. replace (0 * 256 + t) with (t + 0) by lia. rewrite Hadd. lia.
Qed.

Lemma foldl_number f a bs bound :
  Forall is_byte bs -> 0 <= a -> number a bs < bound ->
  (forall v t, 0 <= v -> is_byte t -> v * 256 + t < bound -> f v t = v * 256 + t) ->
  foldl f a bs = number a bs.
Proof.
  revert a. induction bs as [|t bs IH]; intros a H Ha Hb Hf; [done|]. apply Forall_cons in H as [Ht H].
  rewrite number_cons in *. cbn [foldl]. pose proof (number_bounds (a * 256 + t) bs H) as [Hl _].
  pose proof (pow256_pos (length bs)). unfold len in Hl. unfold is_byte in Ht.
  rewrite Hf by (unfold is_byte; nia). apply IH; [done|lia|done|done].
Qed.

Lemma read_uint64_number bs : Forall is_byte bs -> number 0 bs < u64_modulus -> read_uint64 bs = number 0 bs.
Proof.
  intros H Hb. apply foldl_number with u64_modulus; [done|lia|done|]. intros v t Hv Ht Hlt.
  rewrite <- lor_byte by done. f_equal. apply u64_small. rewrite Z.shiftl_mul_pow2 by lia. unfold is_u64, is_byte in *. lia.
Qed.

Lemma read_uint64_not_number bs : number 0 (byte_not <$> bs) < u64_modulus -> read_uint64_not bs = number 0 (byte_not <$> bs).
Proof.
  intros Hb. rewrite <- read_uint64_number by (done || apply bytes_not). unfold read_uint64, read_uint64_not. by rewrite foldl_fmap.
Qed.

Lemma read_int64_not_number bs : number 0 (byte_not <$> bs) <= MaxInt64 -> read_int64_not bs = number 0 (byte_not <$> bs).
Proof.
  intros Hb. unfold read_int64_not. rewrite <- (foldl_fmap (fun v t => Z.lor (int64 (Z.shiftl v 8)) t) 0 bs byte_not).
  apply foldl_number with (MaxInt64 + 1); [apply bytes_not|lia|lia|]. intros v t Hv Ht Hlt.
  rewrite <- lor_byte by done. f_equal. apply int64_small. rewrite Z.shiftl_mul_pow2 by lia. unfold is_byte, MaxInt64 in *. lia.
Qed.

Lemma BigEndian_number n b rest :
  Forall is_byte b -> len b = n -> BigEndian n (b ++ rest) = Ret (number 0 b).
Proof.
  intros H Hn. unfold BigEndian. rewrite slice_to_app by done. cbn [obind]. f_equal.
  pose proof (number_bounds 0 b H). apply foldl_number with (256 ^ len b); [done|lia|lia|].
  intros. by apply lor_byte.
Qed.

(** ** Integers of fixed width *)

Lemma be_codec n (decode : buffer -> outcome (error + (buffer * Z))) encode m :
  m = 256 ^ Z.of_nat n ->
  (forall b v, encode b v = Ret (b ++ be n v)) ->
  (forall b, decode b = if len b <? Z.of_nat n then decode b else
     let! v := BigEndian (Z.of_nat n) b in let! b := slice_from b (Z.of_nat n) in Ret (inr (b, v))) ->
  OrderedCodec (fun v => 0 <= v < m) Z.lt (be n) encode decode.
Proof.
  intros -> He Hd. split.
  - done.
  - intros v rest Hv. rewrite Hd. rewrite (proj2 (Z.ltb_ge _ _)) by (rewrite len_app, be_len; pose proof (len_nonneg rest); lia).
    rewrite BigEndian_number by (apply be_bytes || apply be_len). cbn [obind]. rewrite slice_from_app by apply be_len. cbn [obind].
    rewrite be_number, Z.mod_small by lia. done.
  - intros v w Hv Hw Hlt. apply be_precedes. rewrite !Z.mod_small by lia. done.
Qed.

(** The opposite order. *)
Definition gt (v w : Z) : Prop := w < v.

(** A codec of the complements is a codec of the opposite order. *)
Lemma complement_codec (flip : Z -> Z) valid code encode decode decode' :
  OrderedCodec valid Z.lt code encode decode ->
  (forall v, valid v -> valid (flip v) /\ flip (flip v) = v) ->
  (forall v w, valid v -> valid w -> v < w -> flip w < flip v) ->
  (forall b, decode' b = let? '(rest, v) := decode b in Ret (inr (rest, flip v))) ->
  OrderedCodec valid gt (fun v => code (flip v)) (fun b v => encode b (flip v)) decode'.
Proof.
  intros [He Hd Ho] Hf Hm Hd'. split.
  - intros b v Hv. apply He. by apply Hf.
  - intros v rest Hv. destruct (Hf v Hv) as [Hv' Hff]. rewrite Hd', Hd by done. cbn. by rewrite Hff.
  - intros v w Hv Hw Hgt. apply Ho; [by apply Hf|by apply Hf|]. by apply Hm.
Qed.

Lemma u64_lnot v : is_u64 v -> u64 (Z.lnot v) = MaxUint64 - v.
Proof. intros Hv. unfold Z.lnot, Z.pred. u64_lia. Qed.

Lemma u32_lnot v : 0 <= v < 4294967296 -> u32 (Z.lnot v) = 4294967295 - v.
Proof. intros Hv. unfold u32, Z.lnot, Z.pred. Z.to_euclidean_division_equations. lia. Qed.

#[global] Instance Uint16Ascending_codec :
  OrderedCodec (fun v => 0 <= v < 65536) Z.lt (be 2) (fun b v => Ret (EncodeUint16Ascending b v)) DecodeUint16Ascending.
Proof. apply be_codec; [done|done|]. intros b. unfold DecodeUint16Ascending. change (Z.of_nat 2) with 2. by destruct (len b <? 2). Qed.

#[global] Instance Uint32Ascending_codec :
  OrderedCodec (fun v => 0 <= v < 4294967296) Z.lt (be 4) (fun b v => Ret (EncodeUint32Ascending b v)) DecodeUint32Ascending.
Proof. apply be_codec; [done|done|]. intros b. unfold DecodeUint32Ascending. change (Z.of_nat 4) with 4. by destruct (len b <? 4). Qed.

#[global] Instance Uint64Ascending_codec :
  OrderedCodec is_u64 Z.lt (be 8) (fun b v => Ret (EncodeUint64Ascending b v)) DecodeUint64Ascending.
Proof. apply be_codec; [done|done|]. intros b. unfold DecodeUint64Ascending. change (Z.of_nat 8) with 8. by destruct (len b <? 8). Qed.

#[global] Instance Uint32Descending_codec :
  OrderedCodec (fun v => 0 <= v < 4294967296) gt (fun v => be 4 (u32 (Z.lnot v)))
    (fun b v => Ret (EncodeUint32Descending b v)) DecodeUint32Descending.
Proof.
  apply (complement_codec (fun v => u32 (Z.lnot v)) _ _ _ _ _ Uint32Ascending_codec); [| |done].
  - intros v Hv. rewrite (u32_lnot v) by done. split; [lia|]. rewrite u32_lnot; lia.
  - intros v w Hv Hw Hlt. rewrite !u32_lnot by done. lia.
Qed.

#[global] Instance Uint64Descending_codec :
  OrderedCodec is_u64 gt (fun v => be 8 (u64 (Z.lnot v))) (fun b v => Ret (EncodeUint64Descending b v)) DecodeUint64Descending.
Proof.
  apply (complement_codec (fun v => u64 (Z.lnot v)) _ _ _ _ _ Uint64Ascending_codec); [| |done].
  - intros v Hv. rewrite (u64_lnot v) by done. unfold is_u64, MaxUint64, u64_modulus in *. split; [lia|]. rewrite u64_lnot; unfold is_u64, MaxUint64, u64_modulus; lia.
  - intros v w Hv Hw Hlt. rewrite !u64_lnot by done. lia.
Qed.

(** ** Integers of variable width *)

Definition is_i64 (v : Z) : Prop := -9223372036854775808 <= v <= MaxInt64.

(** The number of bytes of [v]. *)
Definition nbytes (v : Z) : nat :=
  if v <=? 0xff then 1 else if v <=? 0xffff then 2 else if v <=? 0xffffff then 3 else if v <=? 0xffffffff then 4
  else if v <=? 0xffffffffff then 5 else if v <=? 0xffffffffffff then 6 else if v <=? 0xffffffffffffff then 7 else 8.

Lemma nbytes_spec v :
  0 <= v < u64_modulus ->
  1 <= Z.of_nat (nbytes v) <= 8 /\ v < 256 ^ Z.of_nat (nbytes v) /\
  (1 < Z.of_nat (nbytes v) -> 256 ^ (Z.of_nat (nbytes v) - 1) <= v).
Proof.
  intros Hv. unfold nbytes, u64_modulus in *. repeat case_match; bool_to_prop; cbn -[Z.pow]; (split; [lia|]; split; [lia|]; lia).
Qed.

Lemma nbytes_mono v w : v <= w -> (nbytes v <= nbytes w)%nat.
Proof. intros H. unfold nbytes. repeat case_match; bool_to_prop; lia. Qed.

Definition uvarint_code (v : Z) : buffer := if v <=? 109 then [136 + v] else 245 + Z.of_nat (nbytes v) :: be (nbytes v) v.

Definition varint_code (v : Z) : buffer :=
  if v <? 0 then 136 - Z.of_nat (nbytes (- v)) :: be (nbytes (- v)) v else uvarint_code v.

Definition uvarint_desc_code (v : Z) : buffer :=
  if v =? 0 then [136] else 136 - Z.of_nat (nbytes v) :: be (nbytes v) (u64 (Z.lnot v)).

Lemma EncodeUvarintAscending_eq b v : 0 <= v -> EncodeUvarintAscending b v = b ++ uvarint_code v.
Proof.
  intros Hv. unfold EncodeUvarintAscending, uvarint_code, nbytes. change intSmall with 109. change intZero with 136.
  repeat case_match; bool_to_prop; try done; try lia. unfold byte_of. by rewrite !Z.mod_small by (rewrite ?Z.mod_small; lia).
Qed.

Lemma EncodeUvarintDescending_eq b v : EncodeUvarintDescending b v = b ++ uvarint_desc_code v.
Proof. unfold EncodeUvarintDescending, uvarint_desc_code, nbytes. repeat case_match; done. Qed.

Lemma EncodeVarintAscending_eq b v : is_i64 v -> EncodeVarintAscending b v = b ++ varint_code v.
Proof.
  intros Hv. unfold EncodeVarintAscending, varint_code. destruct (v <? 0) eqn:E; bool_to_prop.
  - unfold nbytes. repeat case_match; bool_to_prop; done || lia.
  - rewrite u64_small, EncodeUvarintAscending_eq by (unfold is_u64, is_i64, u64_modulus, MaxInt64 in *; lia). done.
Qed.

Lemma tag_get (t : Z) l : slice_get (t :: l) 0 = Ret t.
Proof. done. Qed.

Lemma tag_from (t : Z) l : slice_from (t :: l) 1 = Ret l.
Proof. exact (slice_from_app [t] l 1 eq_refl). Qed.

Lemma tag_len (t : Z) l : (len (t :: l) =? 0) = false.
Proof. apply Z.eqb_neq. rewrite len_cons. pose proof (len_nonneg l). lia. Qed.

Lemma be_enough n v rest : (len (be n v ++ rest) <? Z.of_nat n) = false.
Proof. apply Z.ltb_ge. rewrite len_app, be_len. pose proof (len_nonneg rest). lia. Qed.

(** Evaluates comparisons that linear arithmetic decides. *)
Ltac decide_cmp :=
  repeat match goal with
  | |- context [?a <=? ?b] => first [rewrite (proj2 (Z.leb_le a b)) by lia | rewrite (proj2 (Z.leb_gt a b)) by lia]
  | |- context [?a <? ?b] => first [rewrite (proj2 (Z.ltb_lt a b)) by lia | rewrite (proj2 (Z.ltb_ge a b)) by lia]
  | |- context [?a >? ?b] => rewrite Z.gtb_ltb
  | |- context [?a >=? ?b] => rewrite Z.geb_leb
  end; cbn [andb orb negb].

Lemma DecodeUvarintAscending_code v rest :
  is_u64 v -> DecodeUvarintAscending (uvarint_code v ++ rest) = Ret (inr (rest, v)).
Proof.
  intros Hv. pose proof (nbytes_spec v Hv) as (Hn & Hlt & _). unfold DecodeUvarintAscending, uvarint_code.
  change intZero with 136. change intSmall with 109. destruct (v <=? 109) eqn:E; bool_to_prop; cbn [app];
    rewrite tag_len, tag_get; cbn [obind]; rewrite tag_from; cbn [obind].
  - replace (136 + v - 136) with v by lia. decide_cmp. by rewrite u64_small.
  - decide_cmp. replace (245 + Z.of_nat (nbytes v) - 136 - 109) with (Z.of_nat (nbytes v)) by lia. rewrite be_enough.
    rewrite slice_to_app by apply be_len. cbn [obind]. rewrite slice_from_app by apply be_len. cbn [obind].
    assert (number 0 (be (nbytes v) v) = v) as Hb by (rewrite be_number, Z.mod_small; unfold is_u64 in Hv; lia).
    rewrite read_uint64_number by (apply be_bytes || (rewrite Hb; apply Hv)). by rewrite Hb.
Qed.

Lemma uvarint_code_order v w : is_u64 v -> is_u64 w -> v < w -> precedes (uvarint_code v) (uvarint_code w).
Proof.
  intros Hv Hw Hlt. pose proof (nbytes_spec v Hv) as (Hn & Hb & _). pose proof (nbytes_spec w Hw) as (Hm & Hc & _).
  unfold is_u64 in *. unfold uvarint_code. destruct (v <=? 109) eqn:E, (w <=? 109) eqn:F; bool_to_prop; try lia.
  - left. lia.
  - left. lia.
  - pose proof (nbytes_mono v w ltac:(lia)). destruct (decide (nbytes v = nbytes w)) as [Eq|N]; [|left; lia].
    right. rewrite Eq in *. split; [done|]. apply be_precedes. rewrite !Z.mod_small by lia. done.
Qed.

#[global] Instance UvarintAscending_codec :
  OrderedCodec is_u64 Z.lt uvarint_code (fun b v => Ret (EncodeUvarintAscending b v)) DecodeUvarintAscending.
Proof.
  split; [|exact (fun v rest Hv => DecodeUvarintAscending_code v rest Hv)|exact uvarint_code_order].
  intros b v Hv. rewrite EncodeUvarintAscending_eq by apply Hv. done.
Qed.

Lemma mod_neg v m : - m <= v < 0 -> v mod m = v + m.
Proof. intros H. rewrite <- (Z_mod_plus_full v 1 m), Z.mod_small; lia. Qed.

Lemma DecodeVarintAscending_code v rest :
  is_i64 v -> DecodeVarintAscending (varint_code v ++ rest) = Ret (inr (rest, v)).
Proof.
  intros Hv. unfold DecodeVarintAscending, varint_code. change intZero with 136. destruct (v <? 0) eqn:E; bool_to_prop.
  - assert (0 <= - v < u64_modulus) as Hm by (unfold is_i64, u64_modulus, MaxInt64 in *; lia).
    pose proof (nbytes_spec (- v) Hm) as (Hn & Hlt & _). set (n := nbytes (- v)) in *. cbn [app].
    rewrite tag_len, tag_get. cbn [obind]. decide_cmp. replace (- (136 - Z.of_nat n - 136)) with (Z.of_nat n) by lia.
    rewrite tag_from. cbn [obind]. rewrite be_enough, slice_to_app by apply be_len. cbn [obind].
    rewrite slice_from_app by apply be_len. cbn [obind].
    assert (number 0 (byte_not <$> be n v) = - v - 1) as Hb.
    { rewrite number_not, be_number, be_len, mod_neg by (apply be_bytes || lia). lia. }
    rewrite read_int64_not_number by (rewrite Hb; unfold is_i64, MaxInt64 in *; lia). rewrite Hb.
    replace (Z.lnot (- v - 1)) with v by (unfold Z.lnot; lia). done.
  - assert (is_u64 v) as Hu by (unfold is_u64, is_i64, u64_modulus, MaxInt64 in *; lia).
    pose proof (DecodeUvarintAscending_code v rest Hu) as Hd.
    assert (exists t l, uvarint_code v ++ rest = t :: l /\ 136 <= t) as (t & l & Htl & Ht).
    { unfold uvarint_code. case_match; bool_to_prop; eexists _, _; (split; [reflexivity|]); unfold is_u64 in Hu; lia. }
    rewrite Htl in *. rewrite tag_len, tag_get. cbn [obind]. decide_cmp. rewrite Hd. cbn.
    rewrite (proj2 (Z.ltb_ge MaxInt64 v)) || (rewrite Z.gtb_ltb, (proj2 (Z.ltb_ge MaxInt64 v))); [done|apply Hv].
Qed.

Lemma varint_code_order v w : is_i64 v -> is_i64 w -> v < w -> precedes (varint_code v) (varint_code w).
Proof.
  intros Hv Hw Hlt. unfold varint_code. unfold is_i64, MaxInt64 in *.
  destruct (v <? 0) eqn:E, (w <? 0) eqn:F; bool_to_prop; try lia.
  - pose proof (nbytes_spec (- v) ltac:(unfold u64_modulus; lia)) as (Hn & Hb & _).
    pose proof (nbytes_spec (- w) ltac:(unfold u64_modulus; lia)) as (Hm & Hc & _).
    pose proof (nbytes_mono (- w) (- v) ltac:(lia)). destruct (decide (nbytes (- v) = nbytes (- w))) as [Eq|N]; [|left; lia].
    right. rewrite Eq in *. split; [done|]. apply be_precedes. rewrite !mod_neg by lia. lia.
  - pose proof (nbytes_spec (- v) ltac:(unfold u64_modulus; lia)) as (Hn & _). unfold uvarint_code. case_match; bool_to_prop; left; lia.
  - apply uvarint_code_order; [unfold is_u64, u64_modulus; lia..|done].
Qed.

#[global] Instance VarintAscending_codec :
  OrderedCodec is_i64 Z.lt varint_code (fun b v => Ret (EncodeVarintAscending b v)) DecodeVarintAscending.
Proof.
  split; [|exact (fun v rest Hv => DecodeVarintAscending_code v rest Hv)|exact varint_code_order].
  intros b v Hv. by rewrite EncodeVarintAscending_eq.
Qed.

#[global] Instance VarintDescending_codec :
  OrderedCodec is_i64 gt (fun v => varint_code (Z.lnot v)) (fun b v => Ret (EncodeVarintDescending b v)) DecodeVarintDescending.
Proof.
  apply (complement_codec Z.lnot _ _ _ _ _ VarintAscending_codec); [| |done].
  - intros v Hv. unfold Z.lnot, is_i64, MaxInt64 in *. lia.
  - intros v w _ _ Hlt. unfold Z.lnot. lia.
Qed.

Lemma uvarint_desc_mod v n :
  (n <= 8)%nat -> 0 <= v < 256 ^ Z.of_nat n -> is_u64 v -> u64 (Z.lnot v) mod 256 ^ Z.of_nat n = 256 ^ Z.of_nat n - 1 - v.
Proof.
  intros Hn Hlt Hv. rewrite u64_lnot by done.
  assert (exists k, MaxUint64 + 1 = k * 256 ^ Z.of_nat n) as [k Hk].
  { exists (256 ^ (8 - Z.of_nat n)). rewrite <- Z.pow_add_r by lia. replace (8 - Z.of_nat n + Z.of_nat n) with 8 by lia. done. }
  replace (MaxUint64 - v) with (256 ^ Z.of_nat n - 1 - v + (k - 1) * 256 ^ Z.of_nat n) by lia.
  rewrite Z_mod_plus_full, Z.mod_small by lia. done.
Qed.

#[global] Instance UvarintDescending_codec :
  OrderedCodec is_u64 gt uvarint_desc_code (fun b v => Ret (EncodeUvarintDescending b v)) DecodeUvarintDescending.
Proof.
  split.
  - intros b v _. by rewrite EncodeUvarintDescending_eq.
  - intros v rest Hv. pose proof (nbytes_spec v Hv) as (Hn & Hlt & _). unfold DecodeUvarintDescending, uvarint_desc_code.
    change intZero with 136. destruct (v =? 0) eqn:E; bool_to_prop.
    + subst v. cbn [app]. rewrite tag_len, tag_get. cbn [obind]. rewrite tag_from. cbn [obind]. change (136 - 136) with 0. decide_cmp.
      rewrite (proj2 (Z.ltb_ge _ _)) by apply len_nonneg. change rest with ([] ++ rest) at 1 2. by rewrite slice_to_app, slice_from_app.
    + set (n := nbytes v) in *. cbn [app]. rewrite tag_len, tag_get. cbn [obind]. rewrite tag_from. cbn [obind]. decide_cmp.
      replace (136 - (136 - Z.of_nat n)) with (Z.of_nat n) by lia.
      rewrite be_enough, slice_to_app by apply be_len. cbn [obind]. rewrite slice_from_app by apply be_len. cbn [obind].
      assert (number 0 (byte_not <$> be n (u64 (Z.lnot v))) = v) as Hb.
      { rewrite number_not, be_number, be_len, uvarint_desc_mod by (apply be_bytes || unfold is_u64 in Hv; lia || done). lia. }
      rewrite read_uint64_not_number by (rewrite Hb; apply Hv). by rewrite Hb.
  - intros v w Hv Hw Hgt. unfold gt in Hgt. pose proof (nbytes_spec v Hv) as (Hn & Hb & _). pose proof (nbytes_spec w Hw) as (Hm & Hc & _).
    pose proof (nbytes_mono w v ltac:(lia)) as Hmono. unfold uvarint_desc_code.
    destruct (v =? 0) eqn:E, (w =? 0) eqn:F; bool_to_prop; try (unfold is_u64 in *; lia); [left; lia|].
    destruct (decide (nbytes v = nbytes w)) as [Eq|N]; [|left; lia]. right. rewrite Eq in *. split; [done|].
    apply be_precedes. rewrite !uvarint_desc_mod by (done || unfold is_u64 in *; lia). lia.
Qed.

(** *** Lengths *)

Lemma highestByteIndex_eq v : is_u64 v -> highestByteIndex v = Z.of_nat (nbytes v) - 1.
Proof.
  intros Hv. unfold highestByteIndex, nbytes, is_u64, u64_modulus in *.
  repeat case_match; bool_to_prop; simplify_eq; rewrite ?Z.shiftr_div_pow2 in * by lia;
    change (2 ^ 32) with 4294967296 in *; change (2 ^ 16) with 65536 in *; Z.to_euclidean_division_equations; lia.
Qed.

Lemma uvarint_code_len v : is_u64 v -> len (uvarint_code v) = EncodedLengthUvarintAscending v.
Proof.
  intros Hv. unfold uvarint_code, EncodedLengthUvarintAscending, nbytes. change intSmall with 109.
  repeat case_match; bool_to_prop; try done; lia.
Qed.
