(* ===== verification/EncodingBytes.v ===== *)
(** * Byte strings and times as keys

    The escaping of util/encoding/encoding.go: the loops that search for the escape
    byte are a byte by byte escaping, which is prefix free and keeps the order of the
    strings, ascending and (through the ones' complement) descending. *)

From S2P Require Import Prelude Hlc Encoding EncodingOrder.

(** ** The search for the escape byte *)

Lemma IndexByte_spec b c :
  (IndexByte b c = -1 /\ c ∉ b) \/
  (exists pre rest, b = pre ++ (c :: rest) /\ (c ∉ pre) /\ IndexByte b c = len pre).
Proof.
  induction b as [|x b IH]; cbn; [left; split; [done|apply not_elem_of_nil]|]. destruct (x =? c) eqn:E; bool_to_prop.
  - subst x. right. exists [], b. split; [done|]. split; [apply not_elem_of_nil|done].
  - destruct IH as [[-> Hc]|(pre & rest & -> & Hc & ->)].
    + left. split; [done|]. rewrite not_elem_of_cons. done.
    + right. exists (x :: pre), rest. split; [done|]. split; [by rewrite not_elem_of_cons|].
      pose proof (len_nonneg pre). rewrite (proj2 (Z.eqb_neq _ _)) by lia. rewrite len_cons. lia.
Qed.

Lemma IndexByte_app pre rest c : c ∉ pre -> IndexByte (pre ++ c :: rest) c = len pre.
Proof.
  induction pre as [|x pre IH]; cbn; [by rewrite Z.eqb_refl|]. rewrite not_elem_of_cons. intros [Hx Hc].
  rewrite (proj2 (Z.eqb_neq _ _)) by done. rewrite IH by done. pose proof (len_nonneg pre).
  rewrite (proj2 (Z.eqb_neq _ _)) by lia. rewrite len_cons. lia.
Qed.

(** [s[i]], [s[:i]] and [s[i+1:]], [s[i+2:]] where [i] is the index of the escape. *)
Lemma slice_from_pre (pre rest : buffer) c : slice_from (pre ++ c :: rest) (len pre + 1) = Ret rest.
Proof. change (c :: rest) with ([c] ++ rest). rewrite (assoc_L (++)). apply slice_from_app. rewrite len_app. done. Qed.

Lemma slice_from_pre2 (pre rest : buffer) c d : slice_from (pre ++ c :: d :: rest) (len pre + 2) = Ret rest.
Proof. change (c :: d :: rest) with ([c; d] ++ rest). rewrite (assoc_L (++)). apply slice_from_app. rewrite len_app. done. Qed.

Lemma slice_get_pre (pre rest : buffer) c d : slice_get (pre ++ c :: d :: rest) (len pre + 1) = Ret d.
Proof.
  unfold slice_get. pose proof (len_nonneg pre). rewrite bool_decide_eq_true_2 by lia.
  replace (Z.to_nat (len pre + 1)) with (length pre + 1)%nat by (unfold len; lia).
  rewrite lookup_app_r by lia. replace (length pre + 1 - length pre)%nat with 1%nat by lia. done.
Qed.

(** ** Escaping, byte by byte *)

Definition escaped_byte (e : escapes) (c : Z) : buffer := if c =? e_escape e then [e_escape e; e_escaped00 e] else [c].

Definition escaped (e : escapes) (data : buffer) : buffer := data ≫= escaped_byte e.

Lemma escaped_cons e c data : escaped e (c :: data) = escaped_byte e c ++ escaped e data.
Proof. done. Qed.

Lemma escaped_app e l k : escaped e (l ++ k) = escaped e l ++ escaped e k.
Proof. apply bind_app. Qed.

Lemma escaped_plain e l : e_escape e ∉ l -> escaped e l = l.
Proof.
  induction l as [|x l IH]; [done|]. rewrite not_elem_of_cons. intros [Hx Hl]. rewrite escaped_cons, IH by done.
  unfold escaped_byte. by rewrite (proj2 (Z.eqb_neq _ _)) by done.
Qed.

Lemma escaped_split e pre rest :
  e_escape e ∉ pre -> escaped e (pre ++ e_escape e :: rest) = pre ++ e_escape e :: e_escaped00 e :: escaped e rest.
Proof. intros H. rewrite escaped_app, escaped_plain, escaped_cons by done. unfold escaped_byte. by rewrite Z.eqb_refl. Qed.

Lemma escape_loop_eq fuel b data :
  (length data < fuel)%nat -> escape_loop fuel b data = Ret (b ++ escaped ascendingBytesEscapes data).
Proof.
  revert b data. induction fuel as [|fuel IH]; intros b data Hf; [lia|]. cbn [escape_loop].
  destruct (IndexByte_spec data escape) as [[-> Hc]|(pre & rest & -> & Hc & ->)].
  - cbn. by rewrite escaped_plain.
  - pose proof (len_nonneg pre). rewrite (proj2 (Z.eqb_neq _ _)) by lia. rewrite slice_to_app by done. cbn [obind].
    rewrite slice_from_pre. cbn [obind]. rewrite length_app in Hf. cbn [length] in Hf. rewrite IH by lia.
    change escape with (e_escape ascendingBytesEscapes). rewrite escaped_split by done. by rewrite <- !(assoc_L (++)).
Qed.

(** A set of escapes that can be undone: the byte that stands for an escaped one is
    the escape itself, and the terminator is not mistaken for it. *)
Definition escapes_ok (e : escapes) : Prop := e_escapedFF e = e_escape e /\ e_escapedTerm e <> e_escaped00 e.

Lemma ascendingBytesEscapes_ok : escapes_ok ascendingBytesEscapes.
Proof. by split. Qed.

Lemma descendingBytesEscapes_ok : escapes_ok descendingBytesEscapes.
Proof. by split. Qed.

Definition terminated (e : escapes) (data : buffer) : buffer := escaped e data ++ [e_escape e; e_escapedTerm e].

(** What the string up to its first escape looks like in the encoding. *)
Lemma terminated_split e data rest :
  exists pre c tl, terminated e data ++ rest = pre ++ (e_escape e :: c :: tl) /\ (e_escape e ∉ pre) /\
    ((c = e_escapedTerm e /\ tl = rest /\ data = pre) \/
     (c = e_escaped00 e /\ exists data', data = pre ++ e_escape e :: data' /\ tl = terminated e data' ++ rest)).
Proof.
  unfold terminated. destruct (IndexByte_spec data (e_escape e)) as [[_ Hc]|(pre & data' & -> & Hc & _)].
  - exists data, (e_escapedTerm e), rest. rewrite escaped_plain by done. rewrite <- (assoc_L (++)). split; [done|]. auto.
  - exists pre, (e_escaped00 e), ((escaped e data' ++ [e_escape e; e_escapedTerm e]) ++ rest). rewrite escaped_split by done.
    split; [|split; [done|]].
    + cbn. rewrite <- ?(assoc_L (++)). done.
    + right. split; [done|]. by exists data'.
Qed.

(** One turn of the search, in a buffer that holds an escape and a byte after it. *)
Lemma found_bound (pre tl : buffer) c d : (len pre + 1 >=? len (pre ++ c :: d :: tl)) = false.
Proof. rewrite len_app, !len_cons. pose proof (len_nonneg tl). rewrite Z.geb_leb. apply Z.leb_gt. lia. Qed.

Lemma decode_loop_terminated e fuel data rest r :
  escapes_ok e -> (length data < fuel)%nat ->
  decode_loop fuel (terminated e data ++ rest) r e = Ret (inr (rest, r ++ data)).
Proof.
  intros [HFF Hne]. revert data r. induction fuel as [|fuel IH]; intros data r Hf; [lia|].
  destruct (terminated_split e data rest) as (pre & c & tl & -> & Hc & Hcase). cbn [decode_loop].
  rewrite IndexByte_app by done. pose proof (len_nonneg pre). rewrite (proj2 (Z.eqb_neq _ (-1))) by lia.
  rewrite found_bound, slice_get_pre. cbn [obind]. rewrite slice_to_app by done. cbn [obind]. rewrite slice_from_pre2. cbn [obind].
  destruct Hcase as [(-> & -> & ->)|(-> & data' & -> & ->)]; [by rewrite Z.eqb_refl|].
  rewrite (proj2 (Z.eqb_neq _ _)) by done. rewrite Z.eqb_refl. cbn [negb]. rewrite length_app in Hf. cbn [length] in Hf.
  rewrite IH, HFF, <- !(assoc_L (++)) by lia. done.
Qed.

Lemma validate_loop_terminated e fuel data rest :
  escapes_ok e -> (length data < fuel)%nat -> validate_loop fuel (terminated e data ++ rest) e = Ret (inr rest).
Proof.
  intros [HFF Hne]. revert data. induction fuel as [|fuel IH]; intros data Hf; [lia|].
  destruct (terminated_split e data rest) as (pre & c & tl & -> & Hc & Hcase). cbn [validate_loop].
  rewrite IndexByte_app by done. pose proof (len_nonneg pre). rewrite (proj2 (Z.eqb_neq _ (-1))) by lia.
  rewrite found_bound, slice_get_pre. cbn [obind]. rewrite slice_from_pre2. cbn [obind].
  destruct Hcase as [(-> & -> & ->)|(-> & data' & -> & ->)]; [by rewrite Z.eqb_refl|].
  rewrite (proj2 (Z.eqb_neq _ _)) by done. rewrite Z.eqb_refl. cbn [negb]. rewrite length_app in Hf. cbn [length] in Hf.
  apply IH. lia.
Qed.

(** ** The order of escaped strings *)

Lemma terminated_order l k :
  Forall is_byte l -> Forall is_byte k -> bytes_lt l k ->
  precedes (terminated ascendingBytesEscapes l) (terminated ascendingBytesEscapes k).
Proof.
  unfold terminated, is_byte. revert k. induction l as [|x l IH]; intros [|y k] Hl Hk Hlt; cbn [bytes_lt] in Hlt; try done.
  - apply Forall_cons in Hk as [Hy _]. rewrite escaped_cons. unfold escaped_byte. cbn.
    destruct (y =? escape) eqn:E; cbn; unfold escape, escapedTerm, escaped00 in *; bool_to_prop; lia.
  - apply Forall_cons in Hl as [Hx Hl]. apply Forall_cons in Hk as [Hy Hk]. rewrite !escaped_cons, <- !(assoc_L (++)).
    destruct Hlt as [Hlt|[-> Hlt]]; [|by apply precedes_prefix, IH]. apply precedes_app. unfold escaped_byte. cbn.
    destruct (x =? escape) eqn:E, (y =? escape) eqn:F; cbn; unfold escape in *; bool_to_prop; lia.
Qed.

Lemma byte_not_involutive t : is_byte t -> byte_not (byte_not t) = t.
Proof. intros H. rewrite (byte_not_eq (byte_not t)) by apply byte_not_byte. rewrite byte_not_eq by done. lia. Qed.

Lemma onesComplement_involutive b : Forall is_byte b -> onesComplement (onesComplement b) = b.
Proof.
  intros H. unfold onesComplement. induction H as [|t b Ht H IH]; [done|]. cbn [fmap list_fmap]. by rewrite IH, byte_not_involutive.
Qed.

Lemma onesComplement_app l k : onesComplement (l ++ k) = onesComplement l ++ onesComplement k.
Proof. apply fmap_app. Qed.

Lemma onesComplement_bytes b : Forall is_byte (onesComplement b).
Proof. unfold onesComplement. induction b; constructor; [apply byte_not_byte|done]. Qed.

Lemma onesComplement_precedes l k :
  Forall is_byte l -> Forall is_byte k -> precedes l k -> precedes (onesComplement k) (onesComplement l).
Proof.
  intros Hl. revert k. induction Hl as [|x l Hx Hl IH]; intros k Hk; destruct Hk as [|y k Hy Hk]; try done. cbn.
  rewrite !byte_not_eq by done. intros [H|[-> H]]; [left; lia|]. right. split; [done|]. by apply IH.
Qed.

(** The loop over words of complement_fast.go does what the loop over bytes does. *)
Lemma complement_words_eq w b :
  complement_words w b = onesComplement (take (w * wordSize) b) ++ drop (w * wordSize) b.
Proof.
  revert b. induction w as [|w IH]; intros b; cbn [complement_words]; [done|].
  rewrite IH. replace (S w * wordSize)%nat with (wordSize + w * wordSize)%nat by lia.
  rewrite (assoc_L (++)), <- onesComplement_app, drop_drop. f_equal. f_equal.
  rewrite <- (take_drop wordSize b) at 3. rewrite take_app. f_equal; [rewrite take_take; f_equal; lia|].
  rewrite length_take. destruct (decide (wordSize <= length b)%nat) as [H|H].
  - f_equal. lia.
  - rewrite (drop_ge b wordSize) by lia. by rewrite !take_nil.
Qed.

Lemma onesComplement_fast_eq b : onesComplement_fast b = onesComplement b.
Proof.
  unfold onesComplement_fast. rewrite complement_words_eq. set (n := (length b / wordSize * wordSize)%nat).
  assert (n <= length b)%nat as Hn by (subst n; unfold wordSize; pose proof (Nat.Div0.mul_div_le (length b) 8); lia).
  assert (length (onesComplement (take n b)) = n) as Hlen by (unfold onesComplement; rewrite length_fmap, length_take; lia).
  rewrite take_app_length', drop_app_length' by done. by rewrite <- onesComplement_app, take_drop.
Qed.

(** Complementing an escaped string escapes its complement. *)
Lemma escaped_complement data :
  Forall is_byte data ->
  onesComplement (terminated ascendingBytesEscapes data) = terminated descendingBytesEscapes (onesComplement data).
Proof.
  intros H. unfold terminated. rewrite onesComplement_app. f_equal. induction H as [|c data Hc H IH]; [done|].
  change (onesComplement (c :: data)) with (byte_not c :: onesComplement data).
  rewrite !escaped_cons, onesComplement_app, IH. f_equal. unfold escaped_byte. cbn -[byte_not].
  rewrite byte_not_eq by done. change (byte_not escape) with 255. unfold escape.
  destruct (c =? 0) eqn:E, (255 - c =? 255) eqn:F; bool_to_prop; try lia; [done|]. cbn -[byte_not]. by rewrite byte_not_eq.
Qed.

(** ** The codecs *)

Definition bytes_code (data : buffer) : buffer := bytesMarker :: terminated ascendingBytesEscapes data.

Definition bytes_desc_code (data : buffer) : buffer :=
  bytesDescMarker :: onesComplement (terminated ascendingBytesEscapes data).

Lemma EncodeBytesAscending_eq b data : EncodeBytesAscending b data = Ret (b ++ bytes_code data).
Proof.
  unfold EncodeBytesAscending, encodeBytesAscendingWithTerminatorAndPrefix, encodeBytesAscendingWithTerminator,
    encodeBytesAscendingWithoutTerminatorOrPrefix. rewrite escape_loop_eq by lia. cbn [obind]. by rewrite <- !(assoc_L (++)).
Qed.

Lemma EncodeBytesDescending_eq b data : EncodeBytesDescending b data = Ret (b ++ bytes_desc_code data).
Proof.
  unfold EncodeBytesDescending. rewrite EncodeBytesAscending_eq. cbn [obind]. unfold bytes_code, slice_set.
  pose proof (len_nonneg b). rewrite bool_decide_eq_true_2 by (rewrite len_app, len_cons; pose proof (len_nonneg (terminated ascendingBytesEscapes data)); lia).
  cbn [obind]. replace (Z.to_nat (len b)) with (length b + 0)%nat by (unfold len; lia). rewrite insert_app_r. cbn [insert list_insert].
  set (t := terminated ascendingBytesEscapes data). change (bytesDescMarker :: t) with ([bytesDescMarker] ++ t). rewrite (assoc_L (++)).
  rewrite slice_to_app, slice_from_app by (rewrite len_app; done). cbn [obind]. by rewrite <- (assoc_L (++)).
Qed.

Lemma terminated_length e data : (length data < S (length (terminated e data)))%nat.
Proof.
  unfold terminated. rewrite length_app. cbn. assert (length data <= length (escaped e data))%nat; [|lia].
  induction data as [|c data IH]; [done|]. rewrite escaped_cons, length_app. unfold escaped_byte. destruct (c =? e_escape e); cbn; lia.
Qed.

Lemma decodeBytesInternal_marked e data rest r :
  escapes_ok e -> decodeBytesInternal (e_marker e :: terminated e data ++ rest) r e true = Ret (inr (rest, r ++ data)).
Proof.
  intros He. unfold decodeBytesInternal. rewrite tag_len. cbn [lookup list_lookup]. rewrite bool_decide_eq_true_2 by done.
  cbn [orb negb]. rewrite tag_from. cbn [obind]. apply decode_loop_terminated; [done|]. rewrite length_app.
  pose proof (terminated_length e data). lia.
Qed.

#[global] Instance BytesAscending_codec :
  OrderedCodec (Forall is_byte) bytes_lt bytes_code EncodeBytesAscending (fun b => DecodeBytesAscending b []).
Proof.
  split.
  - intros b v _. apply EncodeBytesAscending_eq.
  - intros v rest _. apply (decodeBytesInternal_marked ascendingBytesEscapes v rest []), ascendingBytesEscapes_ok.
  - intros v w Hv Hw Hlt. right. split; [done|]. by apply terminated_order.
Qed.

Lemma terminated_bytes l : Forall is_byte l -> Forall is_byte (terminated ascendingBytesEscapes l).
Proof.
  intros H. unfold terminated. apply Forall_app. split; [|repeat constructor; done].
  induction H as [|c l Hc H IH]; [constructor|]. rewrite escaped_cons. apply Forall_app. split; [|done].
  unfold escaped_byte. destruct (c =? _); repeat constructor; (done || apply Hc).
Qed.

#[global] Instance BytesDescending_codec :
  OrderedCodec (Forall is_byte) (flip bytes_lt) bytes_desc_code EncodeBytesDescending (fun b => DecodeBytesDescending b []).
Proof.
  split.
  - intros b v _. apply EncodeBytesDescending_eq.
  - intros v rest Hv. unfold DecodeBytesDescending, bytes_desc_code. rewrite escaped_complement by done.
    change ((bytesDescMarker :: ?l) ++ rest) with (e_marker descendingBytesEscapes :: l ++ rest).
    rewrite decodeBytesInternal_marked by apply descendingBytesEscapes_ok. cbn [obind ebind app].
    by rewrite onesComplement_involutive.
  - intros v w Hv Hw Hlt. right. split; [done|]. apply onesComplement_precedes; [by apply terminated_bytes..|]. by apply terminated_order.
Qed.

(** ** Sequences of encodings *)

Section Sequences.
  Context {A B : Type} (valid1 : A -> Prop) (lt1 : A -> A -> Prop) (code1 : A -> buffer).
  Context (encode1 : buffer -> A -> outcome buffer) (decode1 : buffer -> outcome (error + (buffer * A))).
  Context (valid2 : B -> Prop) (lt2 : B -> B -> Prop) (code2 : B -> buffer).
  Context (encode2 : buffer -> B -> outcome buffer) (decode2 : buffer -> outcome (error + (buffer * B))).
  Context {codec1 : OrderedCodec valid1 lt1 code1 encode1 decode1} {codec2 : OrderedCodec valid2 lt2 code2 encode2 decode2}.

Definition pair_valid (p : A * B) : Prop := valid1 (fst p) /\ valid2 (snd p).

Definition pair_lt (p q : A * B) : Prop := lt1 (fst p) (fst q) \/ (fst p = fst q /\ lt2 (snd p) (snd q)).

Definition pair_code (p : A * B) : buffer := code1 (fst p) ++ code2 (snd p).

Definition pair_encode (b : buffer) (p : A * B) : outcome buffer :=
  let! b := encode1 b (fst p) in encode2 b (snd p).

Definition pair_decode (b : buffer) : outcome (error + (buffer * (A * B))) :=
  let? '(b, v) := decode1 b in
  let? '(b, w) := decode2 b in
  Ret (inr (b, (v, w))).

#[global] Instance pair_codec : OrderedCodec pair_valid pair_lt pair_code pair_encode pair_decode.
Proof.
  split.
  - intros b [v w] [Hv Hw]. unfold pair_encode, pair_code. cbn [fst snd] in *.
    rewrite (oc_encode b v Hv). cbn [obind]. rewrite (oc_encode _ w Hw). by rewrite (assoc_L (++)).
  - intros [v w] rest [Hv Hw]. unfold pair_decode, pair_code. cbn [fst snd] in *.
    rewrite <- (assoc_L (++)), (oc_decode v _ Hv). cbn [ebind obind]. by rewrite (oc_decode w rest Hw).
  - intros [v w] [v' w'] [Hv Hw] [Hv' Hw'] [Hlt|[Heq Hlt]]; unfold pair_code; cbn [fst snd] in *.
    + apply precedes_app. by apply (oc_order v v').
    + subst v'. apply precedes_prefix. by apply (oc_order w w').
Qed.
End Sequences.

(** ** Times *)

Definition time_valid (t : Z * Z) : Prop := is_i64 (fst t) /\ 0 <= snd t < 1000000000.

(** The two varints of an encoded time. *)
Definition raw_valid : Z * Z -> Prop := pair_valid is_i64 is_i64.

(** [t.Before(u)], in seconds and nanoseconds. *)
Definition time_lt (t u : Z * Z) : Prop := fst t < fst u \/ (fst t = fst u /\ snd t < snd u).

Definition time_code (t : Z * Z) : buffer := timeMarker :: varint_code (fst t) ++ varint_code (snd t).

Definition time_flip (t : Z * Z) : Z * Z := (Z.lnot (fst t), Z.lnot (snd t)).

Lemma time_raw t : time_valid t -> raw_valid t /\ raw_valid (time_flip t).
Proof. destruct t as [s n]. unfold time_valid, raw_valid, pair_valid, time_flip, is_i64, Z.lnot, MaxInt64. cbn. lia. Qed.

Lemma time_Unix_valid t : time_valid t -> time_Unix (fst t) (snd t) = t.
Proof.
  destruct t as [s n]. unfold time_valid, time_Unix. cbn. intros [_ Hn].
  by rewrite (proj2 (Z.ltb_ge _ _)), Z.geb_leb, (proj2 (Z.leb_gt _ _)) by lia.
Qed.

Lemma decodeTime_eq tl :
  decodeTime (timeMarker :: tl) = pair_decode DecodeVarintAscending DecodeVarintAscending tl.
Proof. unfold decodeTime. rewrite tag_from. done. Qed.

Lemma raw_codec :
  OrderedCodec raw_valid time_lt (pair_code varint_code varint_code)
    (pair_encode (fun b v => Ret (EncodeVarintAscending b v)) (fun b v => Ret (EncodeVarintAscending b v)))
    (pair_decode DecodeVarintAscending DecodeVarintAscending).
Proof. apply (pair_codec _ _ _ _ _ _ _ _ _ _ (codec1 := VarintAscending_codec) (codec2 := VarintAscending_codec)). Qed.

Lemma decodeTime_code t rest : raw_valid t -> decodeTime (time_code t ++ rest) = Ret (inr (rest, t)).
Proof. intros Ht. unfold time_code. cbn [app]. rewrite decodeTime_eq. by apply (oc_decode (OrderedCodec := raw_codec)). Qed.

Lemma time_code_order t u : raw_valid t -> raw_valid u -> time_lt t u -> precedes (time_code t) (time_code u).
Proof. intros Ht Hu Hlt. right. split; [done|]. by apply (oc_order (OrderedCodec := raw_codec)). Qed.

Lemma encodeTime_code b t : raw_valid t -> encodeTime b (fst t) (snd t) = b ++ time_code t.
Proof. intros [Hs Hn]. unfold encodeTime. rewrite !EncodeVarintAscending_eq by done. by rewrite <- !(assoc_L (++)). Qed.

#[global] Instance TimeAscending_codec :
  OrderedCodec time_valid time_lt time_code (fun b t => Ret (EncodeTimeAscending b t)) DecodeTimeAscending.
Proof.
  split.
  - intros b t Ht. unfold EncodeTimeAscending. by rewrite encodeTime_code by by apply time_raw.
  - intros t rest Ht. unfold DecodeTimeAscending. rewrite decodeTime_code by by apply time_raw. cbn [ebind obind].
    pose proof (time_Unix_valid t Ht) as E. destruct t as [s n]. cbn [fst snd] in E. by rewrite E.
  - intros t u Ht Hu Hlt. apply time_code_order; [by apply time_raw..|done].
Qed.

#[global] Instance TimeDescending_codec :
  OrderedCodec time_valid (flip time_lt) (time_code ∘ time_flip) (fun b t => Ret (EncodeTimeDescending b t)) DecodeTimeDescending.
Proof.
  split.
  - intros b t Ht. f_equal. apply (encodeTime_code b (time_flip t)), time_raw, Ht.
  - intros t rest Ht. unfold DecodeTimeDescending. cbn [compose]. rewrite decodeTime_code by by apply time_raw. cbn [ebind obind time_flip].
    rewrite !Z.lnot_involutive. by rewrite time_Unix_valid.
  - intros t u Ht Hu Hlt. apply time_code_order; [by apply time_raw..|]. revert Hlt. unfold flip, time_lt, time_flip, Z.lnot. cbn. lia.
Qed.

(** ** Sizes *)

Lemma escaped_len e data : len (escaped e data) = len data + CountByte data (e_escape e).
Proof.
  induction data as [|c data IH]; [done|]. rewrite escaped_cons, len_app, IH, len_cons. cbn [CountByte]. unfold escaped_byte.
  destruct (c =? e_escape e); unfold len; cbn [length]; lia.
Qed.

Lemma bytes_code_len data : len (bytes_code data) = EncodeBytesSize data.
Proof.
  unfold bytes_code, terminated, EncodeBytesSize. rewrite len_cons, len_app, escaped_len. unfold len. cbn [length e_escape ascendingBytesEscapes]. lia.
Qed.

(** EncodeNextBytesAscending encodes the string that follows [data]: [data] and a zero
    byte. *)
Lemma EncodeNextBytesAscending_eq b data : EncodeNextBytesAscending b data = Ret (b ++ bytes_code (data ++ [0])).
Proof.
  unfold EncodeNextBytesAscending, encodeNextBytesAscendingWithTerminator, encodeBytesAscendingWithoutTerminatorOrPrefix, bytes_code, terminated.
  rewrite escape_loop_eq by lia. cbn [obind]. rewrite escaped_app. by rewrite <- !(assoc_L (++)).
Qed.

Lemma CountByte_app l k c : CountByte (l ++ k) c = CountByte l c + CountByte k c.
Proof. induction l as [|x l IH]; cbn; [done|]. rewrite IH. lia. Qed.

Lemma EncodeNextBytesSize_eq data : EncodeNextBytesSize data = EncodeBytesSize (data ++ [0]).
Proof. unfold EncodeNextBytesSize, EncodeBytesSize. rewrite CountByte_app, len_app. change (CountByte [0] escape) with 1. change (len [0]) with 1. lia. Qed.
