(* ===== verification/EncodingSafe.v ===== *)
(** * Decoders on arbitrary bytes

    [LocalDecoder] is what a decoder does with bytes that no encoder wrote: it returns
    an error, or it reads a nonempty prefix, whose value has the type's range and does
    not depend on what follows. It never panics. With [OrderedCodec] it follows that
    every truncated encoding is an error. *)

From S2P Require Import Prelude Hlc Encoding EncodingOrder EncodingBytes.

Class LocalDecoder {A : Type} (valid : A -> Prop) (decode : buffer -> outcome (error + (buffer * A))) : Prop :=
  local_decode : forall b, Forall is_byte b ->
    (exists err, decode b = Ret (inl err)) \/
    (exists pre rest v, b = pre ++ rest /\ pre <> [] /\ valid v /\ forall q, decode (pre ++ q) = Ret (inr (q, v))).

(** ** Combining decoders *)

Lemma local_ext {A} (valid : A -> Prop) decode decode' :
  (forall b, decode' b = decode b) -> LocalDecoder valid decode -> LocalDecoder valid decode'.
Proof.
  intros E H b Hb. destruct (H b Hb) as [[err D]|(pre & rest & v & -> & Hp & Hv & D)].
  - left. exists err. by rewrite E.
  - right. exists pre, rest, v. split; [done|]. split; [done|]. split; [done|]. intros q. by rewrite E.
Qed.

(** A decoder whose value is then checked and converted. *)
Lemma local_convert {A B} (P : A -> Prop) (Q : B -> Prop) decode (k : A -> error + B) :
  LocalDecoder P decode ->
  (forall v, P v -> match k v with inl _ => True | inr w => Q w end) ->
  LocalDecoder Q (fun b => let? '(rest, v) := decode b in
                           match k v with inl err => Ret (inl err) | inr w => Ret (inr (rest, w)) end).
Proof.
  intros H Hk b Hb. destruct (H b Hb) as [[err D]|(pre & rest & v & -> & Hp & Hv & D)].
  - left. exists err. by rewrite D.
  - specialize (Hk v Hv). destruct (k v) as [err|w] eqn:E.
    + left. exists err. rewrite D. cbn [ebind obind]. by rewrite E.
    + right. exists pre, rest, w. split; [done|]. split; [done|]. split; [done|]. intros q. rewrite D. cbn [ebind obind]. by rewrite E.
Qed.

(** Two decoders in sequence. *)
Lemma local_pair {A B} (P : A -> Prop) (Q : B -> Prop) decode1 decode2 :
  LocalDecoder P decode1 -> LocalDecoder Q decode2 -> LocalDecoder (pair_valid P Q) (pair_decode decode1 decode2).
Proof.
  intros H1 H2 b Hb. unfold pair_decode. destruct (H1 b Hb) as [[err D]|(pre & rest & v & -> & Hp & Hv & D)].
  { left. exists err. by rewrite D. }
  apply Forall_app in Hb as [_ Hb]. destruct (H2 rest Hb) as [[err E]|(pre' & rest' & w & -> & _ & Hw & E)].
  - left. exists err. rewrite D. cbn [ebind obind]. by rewrite E.
  - right. exists (pre ++ pre'), rest', (v, w). split; [by rewrite (assoc_L (++))|].
    split; [by destruct pre|]. split; [by split|]. intros q. rewrite <- (assoc_L (++)), D. cbn [ebind obind]. by rewrite E.
Qed.

(** ** A prefix of a given length *)

Lemma split_at (b : buffer) n : 0 <= n <= len b -> exists pre rest, b = pre ++ rest /\ len pre = n.
Proof.
  intros Hn. exists (take (Z.to_nat n) b), (drop (Z.to_nat n) b). split; [by rewrite take_drop|].
  unfold len in *. rewrite length_take. lia.
Qed.

(** [if len(b) < n { return error }; v := f(b[:n]); return b[n:], v, nil] *)
Definition read_prefix (n : Z) (f : buffer -> Z) (err : buffer -> error) (b : buffer) : outcome (error + (buffer * Z)) :=
  if len b <? n then Ret (inl (err b))
  else
    let! bs := slice_to b n in
    let! b := slice_from b n in
    Ret (inr (b, f bs)).

Lemma read_prefix_app n f err pre q : len pre = n -> read_prefix n f err (pre ++ q) = Ret (inr (q, f pre)).
Proof.
  intros Hn. unfold read_prefix. rewrite (proj2 (Z.ltb_ge _ _)) by (rewrite len_app; pose proof (len_nonneg q); lia).
  rewrite slice_to_app by done. cbn [obind]. rewrite slice_from_app by done. done.
Qed.

(** The value is in range, and the prefix is read whatever follows. *)
Lemma read_prefix_local n f err valid b :
  0 <= n -> (forall bs, Forall is_byte bs -> len bs = n -> valid (f bs)) -> Forall is_byte b ->
  (exists e, read_prefix n f err b = Ret (inl e)) \/
  (exists pre rest v, b = pre ++ rest /\ len pre = n /\ valid v /\ forall q, read_prefix n f err (pre ++ q) = Ret (inr (q, v))).
Proof.
  intros Hn Hf Hb. destruct (decide (len b < n)) as [L|G].
  - left. exists (err b). unfold read_prefix. by rewrite (proj2 (Z.ltb_lt _ _)).
  - destruct (split_at b n ltac:(lia)) as (pre & rest & -> & Hlen). apply Forall_app in Hb as [Hpre _].
    right. exists pre, rest, (f pre). split; [done|]. split; [done|]. split; [by apply Hf|]. intros q. by apply read_prefix_app.
Qed.

(** After a tag byte. *)
Lemma read_tagged_local n f err valid decode t b :
  0 <= n -> (forall bs, Forall is_byte bs -> len bs = n -> valid (f bs)) -> Forall is_byte b ->
  (forall l, decode (t :: l) = read_prefix n f err l) ->
  (exists e, decode (t :: b) = Ret (inl e)) \/
  (exists pre rest v, t :: b = pre ++ rest /\ pre <> [] /\ valid v /\ forall q, decode (pre ++ q) = Ret (inr (q, v))).
Proof.
  intros Hn Hf Hb Hd. destruct (read_prefix_local n f err valid b Hn Hf Hb) as [[e E]|(pre & rest & v & -> & _ & Hv & E)].
  - left. exists e. by rewrite Hd.
  - right. exists (t :: pre), rest, v. split; [done|]. split; [done|]. split; [done|]. intros q. cbn [app]. by rewrite Hd.
Qed.

(** ** Integers *)

Lemma int64_shifted v : exists k, int64 (Z.shiftl v 8) = Z.shiftl k 8 /\ -36028797018963968 <= k < 36028797018963968.
Proof.
  unfold int64. set (q := (Z.shiftl v 8 + 9223372036854775808) / 18446744073709551616).
  exists (v - q * 72057594037927936). pose proof (Z_div_mod_eq_full (Z.shiftl v 8 + 9223372036854775808) 18446744073709551616) as E.
  pose proof (Z.mod_pos_bound (Z.shiftl v 8 + 9223372036854775808) 18446744073709551616 ltac:(lia)). fold q in E.
  rewrite !Z.shiftl_mul_pow2 in * by lia. change (2 ^ 8) with 256 in *. lia.
Qed.

(** The accumulator wraps, whatever the number of bytes. *)
Lemma read_int64_not_range bs : is_i64 (read_int64_not bs).
Proof.
  unfold read_int64_not, is_i64, MaxInt64. assert (-9223372036854775808 <= 0 <= 9223372036854775807) as H by lia. revert H. generalize 0.
  induction bs as [|t bs IH]; intros a Ha; [done|]. cbn [foldl]. apply IH. destruct (int64_shifted a) as (k & -> & Hk).
  pose proof (byte_not_byte t) as Ht. rewrite lor_byte by done. unfold is_byte in Ht. lia.
Qed.

Lemma number_u64 bs n : Forall is_byte bs -> len bs = n -> 0 <= n <= 8 -> is_u64 (number 0 bs).
Proof.
  intros H Hl Hn. pose proof (number_bounds 0 bs H). rewrite Hl in *. pose proof (Z.pow_le_mono_r 256 n 8 ltac:(lia) ltac:(lia)).
  unfold is_u64, u64_modulus. change (256 ^ 8) with 18446744073709551616 in *. lia.
Qed.

Lemma read_uint64_range bs n : Forall is_byte bs -> len bs = n -> 0 <= n <= 8 -> is_u64 (read_uint64 bs).
Proof. intros H Hl Hn. pose proof (number_u64 bs n H Hl Hn) as Hu. rewrite read_uint64_number by (done || apply Hu). done. Qed.

Lemma read_uint64_not_range bs n : len bs = n -> 0 <= n <= 8 -> is_u64 (read_uint64_not bs).
Proof.
  intros Hl Hn. assert (is_u64 (number 0 (byte_not <$> bs))) as Hu.
  { apply number_u64 with n; [apply bytes_not| |done]. unfold len in *. by rewrite length_fmap. }
  rewrite read_uint64_not_number by apply Hu. done.
Qed.

Lemma BigEndian_local n (decode : buffer -> outcome (error + (buffer * Z))) err :
  0 < n ->
  (forall b, decode b = if len b <? n then Ret (inl (err b)) else
     let! v := BigEndian n b in let! b := slice_from b n in Ret (inr (b, v))) ->
  LocalDecoder (fun v => 0 <= v < 256 ^ n) decode.
Proof.
  intros Hn Hd b Hb. destruct (decide (len b < n)) as [L|G].
  { left. exists (err b). rewrite Hd. by rewrite (proj2 (Z.ltb_lt _ _)). }
  destruct (split_at b n ltac:(lia)) as (pre & rest & -> & Hlen). apply Forall_app in Hb as [Hpre _].
  right. exists pre, rest, (number 0 pre). split; [done|]. split; [by intros ->; unfold len in Hlen; cbn in Hlen; lia|].
  pose proof (number_bounds 0 pre Hpre). rewrite Hlen in *. split; [lia|]. intros q. rewrite Hd.
  rewrite (proj2 (Z.ltb_ge _ _)) by (rewrite len_app; pose proof (len_nonneg q); lia).
  rewrite BigEndian_number by done. cbn [obind]. rewrite slice_from_app by done. done.
Qed.

#[global] Instance Uint16Ascending_local : LocalDecoder (fun v => 0 <= v < 65536) DecodeUint16Ascending.
Proof. apply (BigEndian_local 2 _ _ ltac:(lia) (fun b => eq_refl)). Qed.

#[global] Instance Uint32Ascending_local : LocalDecoder (fun v => 0 <= v < 4294967296) DecodeUint32Ascending.
Proof. apply (BigEndian_local 4 _ _ ltac:(lia) (fun b => eq_refl)). Qed.

#[global] Instance Uint64Ascending_local : LocalDecoder is_u64 DecodeUint64Ascending.
Proof. apply (BigEndian_local 8 _ _ ltac:(lia) (fun b => eq_refl)). Qed.

#[global] Instance Uint32Descending_local : LocalDecoder (fun v => 0 <= v < 4294967296) DecodeUint32Descending.
Proof.
  apply (local_convert _ _ _ (fun v => inr (u32 (Z.lnot v))) Uint32Ascending_local). intros v Hv. rewrite u32_lnot by done. lia.
Qed.

#[global] Instance Uint64Descending_local : LocalDecoder is_u64 DecodeUint64Descending.
Proof. apply (local_convert _ _ _ (fun v => inr (u64 (Z.lnot v))) Uint64Ascending_local). intros v _. apply u64_is_u64. Qed.

(** A decoder that starts with a tag byte. *)
Lemma tagged_local {A} (valid : A -> Prop) decode :
  (exists err, decode [] = Ret (inl err)) ->
  (forall t b, is_byte t -> Forall is_byte b ->
    (exists err, decode (t :: b) = Ret (inl err)) \/
    (exists pre rest v, t :: b = pre ++ rest /\ pre <> [] /\ valid v /\ forall q, decode (pre ++ q) = Ret (inr (q, v)))) ->
  LocalDecoder valid decode.
Proof. intros H0 H b Hb. destruct Hb as [|t b Ht Hb]; [by left|]. by apply H. Qed.

Lemma DecodeUvarintAscending_cons t l :
  DecodeUvarintAscending (t :: l) =
    if t <=? 245 then Ret (inr (l, u64 (t - 136)))
    else if t >? 253 then Ret (inl (Errorf "invalid uvarint length of %d" [t - 245]))
    else read_prefix (t - 245) read_uint64 (Errorf "insufficient bytes to decode uvarint value: %q") l.
Proof.
  unfold DecodeUvarintAscending, read_prefix. rewrite tag_len, tag_get. cbn [obind]. rewrite tag_from. cbn [obind].
  change intZero with 136. change intSmall with 109. replace (t - 136 - 109) with (t - 245) by lia.
  destruct (t <=? 245) eqn:E; bool_to_prop; [decide_cmp; done|]. destruct (t >? 253) eqn:F; bool_to_prop; decide_cmp; done.
Qed.

#[global] Instance UvarintAscending_local : LocalDecoder is_u64 DecodeUvarintAscending.
Proof.
  apply tagged_local; [by eexists|]. intros t b Ht Hb. destruct (t <=? 245) eqn:E; [|destruct (t >? 253) eqn:F].
  - right. exists [t], b, (u64 (t - 136)). split; [done|]. split; [done|]. split; [apply u64_is_u64|]. intros q.
    cbn [app]. rewrite DecodeUvarintAscending_cons. by rewrite E.
  - left. eexists. rewrite DecodeUvarintAscending_cons, E, F. done.
  - eapply read_tagged_local; [..|done|intros l; rewrite DecodeUvarintAscending_cons, E, F; done]; bool_to_prop.
    + lia.
    + intros bs Hbs Hl. apply read_uint64_range with (t - 245); [done|done|lia].
Qed.

Lemma DecodeUvarintDescending_cons t l :
  DecodeUvarintDescending (t :: l) =
    if (t <? 128) || (t >? 136) then Ret (inl (Errorf "invalid uvarint length of %d" [136 - t]))
    else read_prefix (136 - t) read_uint64_not (Errorf "insufficient bytes to decode uvarint value: %q") l.
Proof.
  unfold DecodeUvarintDescending, read_prefix. rewrite tag_len, tag_get. cbn [obind]. rewrite tag_from. cbn [obind].
  change intZero with 136. destruct (t <? 128) eqn:E, (t >? 136) eqn:F; bool_to_prop; decide_cmp; done.
Qed.

#[global] Instance UvarintDescending_local : LocalDecoder is_u64 DecodeUvarintDescending.
Proof.
  apply tagged_local; [by eexists|]. intros t b Ht Hb. destruct ((t <? 128) || (t >? 136)) eqn:E.
  - left. eexists. rewrite DecodeUvarintDescending_cons, E. done.
  - eapply read_tagged_local; [..|done|intros l; rewrite DecodeUvarintDescending_cons, E; done]; bool_to_prop; [lia|].
    intros bs _ Hl. apply read_uint64_not_range with (136 - t); [done|lia].
Qed.

Lemma DecodeVarintAscending_neg t l :
  t < 136 ->
  DecodeVarintAscending (t :: l) =
    read_prefix (136 - t) (Z.lnot ∘ read_int64_not) (Errorf "insufficient bytes to decode varint value: %q") l.
Proof.
  intros Ht. unfold DecodeVarintAscending, read_prefix. rewrite tag_len, tag_get. cbn [obind]. change intZero with 136. decide_cmp.
  rewrite tag_from. cbn [obind]. by replace (- (t - 136)) with (136 - t) by lia.
Qed.

Definition varint_check (v : Z) : error + Z :=
  if v >? MaxInt64 then inl (Errorf "varint %d overflows int64" [v]) else inr v.

Lemma varint_check_range v : is_u64 v -> match varint_check v with inl _ => True | inr w => is_i64 w end.
Proof.
  intros Hv. unfold varint_check. destruct (v >? MaxInt64) eqn:E; [done|]. bool_to_prop. unfold is_u64, is_i64, MaxInt64 in *. lia.
Qed.

Lemma DecodeVarintAscending_nonneg t l :
  136 <= t ->
  DecodeVarintAscending (t :: l) =
    let? '(remB, v) := DecodeUvarintAscending (t :: l) in
    match varint_check v with
    | inl err => Ret (inl err) | inr w => Ret (inr (remB, w)) end.
Proof.
  intros Ht. unfold DecodeVarintAscending. rewrite tag_len, tag_get. cbn [obind]. change intZero with 136. decide_cmp.
  destruct (DecodeUvarintAscending (t :: l)) as [[err|[remB v]]|]; cbn [ebind obind]; [done| |done]. unfold varint_check. by destruct (v >? MaxInt64).
Qed.

#[global] Instance VarintAscending_local : LocalDecoder is_i64 DecodeVarintAscending.
Proof.
  apply tagged_local; [by eexists|]. intros t b Ht Hb. destruct (decide (t < 136)) as [L|G].
  - eapply read_tagged_local; [..|done|intros l; by rewrite DecodeVarintAscending_neg]; [lia|]. intros bs _ _.
    pose proof (read_int64_not_range bs). unfold compose, is_i64, Z.lnot, MaxInt64 in *. lia.
  - pose proof (local_convert _ _ _ varint_check UvarintAscending_local varint_check_range) as H.
    destruct (H (t :: b) (proj2 (Forall_cons _ _ _) (conj Ht Hb))) as [[err D]|(pre & rest & v & E & Hp & Hv & D)].
    + left. exists err. by rewrite DecodeVarintAscending_nonneg by lia.
    + right. exists pre, rest, v. split; [done|]. split; [done|]. split; [done|]. intros q.
      destruct pre as [|t' pre]; [done|]. injection E as <- _. cbn [app]. rewrite DecodeVarintAscending_nonneg by lia. apply D.
Qed.

#[global] Instance VarintDescending_local : LocalDecoder is_i64 DecodeVarintDescending.
Proof.
  apply (local_convert _ _ _ (fun v => inr (Z.lnot v)) VarintAscending_local). intros v Hv. unfold is_i64, Z.lnot, MaxInt64 in *. lia.
Qed.

(** ** Byte strings and times *)

(** What a successful search has read is the encoding of the string it returns. *)
Lemma decode_loop_local e fuel b r :
  escapes_ok e -> (length b < fuel)%nat ->
  (exists err, decode_loop fuel b r e = Ret (inl err)) \/ (exists data rest, b = terminated e data ++ rest).
Proof.
  intros He. revert b r. induction fuel as [|fuel IH]; intros b r Hf; [lia|]. cbn [decode_loop].
  destruct (IndexByte_spec b (e_escape e)) as [[-> _]|(pre & tl & -> & Hc & ->)]; [left; by eexists|].
  pose proof (len_nonneg pre). rewrite (proj2 (Z.eqb_neq _ (-1))) by lia. destruct tl as [|c tl].
  { left. eexists. rewrite Z.geb_leb, (proj2 (Z.leb_le _ _)); [done|]. by rewrite len_app. }
  rewrite found_bound, slice_get_pre. cbn [obind]. rewrite slice_to_app by done. cbn [obind]. rewrite slice_from_pre2. cbn [obind].
  destruct (c =? e_escapedTerm e) eqn:E; bool_to_prop.
  { right. exists pre, tl. subst c. unfold terminated. rewrite escaped_plain by done. by rewrite <- (assoc_L (++)). }
  destruct (c =? e_escaped00 e) eqn:F; cbn [negb]; [|left; by eexists]. bool_to_prop. subst c.
  destruct (IH tl (r ++ pre ++ [e_escapedFF e])) as [?|(data & rest & ->)]; [rewrite length_app in Hf; cbn in Hf; lia|by left|].
  right. exists (pre ++ e_escape e :: data), rest. unfold terminated. rewrite escaped_split by done. cbn. rewrite <- !(assoc_L (++)). done.
Qed.

Lemma terminated_inv e data : Forall is_byte (terminated e data) -> Forall is_byte data.
Proof.
  unfold terminated. rewrite Forall_app. intros [H He]. apply Forall_cons in He as [He _].
  induction data as [|c data IH]; [done|]. rewrite escaped_cons in H. apply Forall_app in H as [Hc H].
  constructor; [|by apply IH]. unfold escaped_byte in Hc. destruct (c =? e_escape e) eqn:E; bool_to_prop; [by subst c|].
  by apply Forall_cons in Hc as [Hc _].
Qed.

Lemma decodeBytesInternal_local e :
  escapes_ok e -> LocalDecoder (Forall is_byte) (fun b => decodeBytesInternal b [] e true).
Proof.
  intros He. apply tagged_local; [by eexists|]. intros t b Ht Hb. destruct (decide (t = e_marker e)) as [->|N].
  - destruct (decode_loop_local e (S (length b)) b [] He ltac:(lia)) as [[err D]|(data & rest & ->)].
    + left. exists err. unfold decodeBytesInternal. rewrite tag_len. cbn [lookup list_lookup]. rewrite bool_decide_eq_true_2 by done.
      cbn [orb negb]. rewrite tag_from. done.
    + right. exists (e_marker e :: terminated e data), rest, data. split; [done|]. split; [done|].
      apply Forall_app in Hb as [Hb _]. split; [by apply terminated_inv with e|]. intros q. by apply decodeBytesInternal_marked.
  - left. eexists. unfold decodeBytesInternal. rewrite tag_len. cbn [lookup list_lookup]. rewrite bool_decide_eq_false_2 by congruence. done.
Qed.

#[global] Instance BytesAscending_local : LocalDecoder (Forall is_byte) (fun b => DecodeBytesAscending b []).
Proof. apply decodeBytesInternal_local, ascendingBytesEscapes_ok. Qed.

#[global] Instance BytesDescending_local : LocalDecoder (Forall is_byte) (fun b => DecodeBytesDescending b []).
Proof.
  apply (local_convert _ _ _ (fun v => inr (onesComplement v)) (decodeBytesInternal_local _ descendingBytesEscapes_ok)).
  intros v _. apply onesComplement_bytes.
Qed.

(** Validating reads what decoding reads. *)
Lemma validate_loop_eq e fuel b r :
  validate_loop fuel b e = let? '(rest, _) := decode_loop fuel b r e in Ret (inr rest).
Proof.
  revert b r. induction fuel as [|fuel IH]; intros b r; [done|]. cbn [validate_loop decode_loop].
  destruct (IndexByte_spec b (e_escape e)) as [[-> _]|(pre & tl & -> & Hc & ->)]; [done|].
  pose proof (len_nonneg pre). rewrite (proj2 (Z.eqb_neq _ (-1))) by lia. destruct tl as [|c tl].
  { rewrite Z.geb_leb, (proj2 (Z.leb_le _ _)); [done|]. by rewrite len_app. }
  rewrite found_bound, slice_get_pre. cbn [obind]. rewrite slice_to_app by done. cbn [obind]. rewrite slice_from_pre2. cbn [obind].
  destruct (c =? e_escapedTerm e); [done|]. destruct (negb (c =? e_escaped00 e)); [done|]. apply IH.
Qed.

Lemma ValidateDecodeBytesAscending_eq b :
  ValidateDecodeBytesAscending b = let? '(rest, _) := DecodeBytesAscending b [] in Ret (inr rest).
Proof.
  unfold ValidateDecodeBytesAscending, DecodeBytesAscending, validateDecodeBytesInternal, decodeBytesInternal.
  destruct (_ || _); [done|]. destruct (slice_from b 1); cbn [obind ebind]; [apply validate_loop_eq|done].
Qed.

Lemma decodeTime_local : LocalDecoder raw_valid decodeTime.
Proof.
  apply tagged_local; [by eexists|]. intros t b Ht Hb. destruct (decide (t = timeMarker)) as [->|N].
  - destruct (local_pair _ _ _ _ VarintAscending_local VarintAscending_local b Hb) as [[err D]|(pre & rest & v & -> & Hp & Hv & D)].
    + left. exists err. by rewrite decodeTime_eq.
    + right. exists (timeMarker :: pre), rest, v. split; [done|]. split; [done|]. split; [done|]. intros q. cbn [app]. by rewrite decodeTime_eq.
  - left. eexists. unfold decodeTime. rewrite bool_decide_eq_false_2 by (by rewrite PeekType_Time). done.
Qed.

Lemma int64_range z : is_i64 (int64 z).
Proof. unfold is_i64, int64, MaxInt64. pose proof (Z.mod_pos_bound (z + 9223372036854775808) 18446744073709551616 ltac:(lia)). lia. Qed.

Lemma time_Unix_range s n : is_i64 s -> time_valid (time_Unix s n).
Proof.
  intros Hs. unfold time_Unix, time_valid. destruct (_ || _) eqn:E; [|bool_to_prop; cbn; split; [done|lia]].
  pose proof (Z.quot_rem n 1000000000 ltac:(lia)) as Hq. pose proof (Z.rem_bound_abs n 1000000000 ltac:(lia)) as Hr.
  replace (n - Z.quot n 1000000000 * 1000000000) with (Z.rem n 1000000000) by lia.
  destruct (Z.rem n 1000000000 <? 0) eqn:F; bool_to_prop; cbn [fst snd]; (split; [apply int64_range|lia]).
Qed.

#[global] Instance TimeAscending_local : LocalDecoder time_valid DecodeTimeAscending.
Proof.
  eapply local_ext; [|apply (local_convert _ _ _ (fun t => inr (time_Unix (fst t) (snd t))) decodeTime_local)].
  - intros b. unfold DecodeTimeAscending. destruct (decodeTime b) as [[err|[rest [s n]]]|]; done.
  - intros t [Hs _]. by apply time_Unix_range.
Qed.

#[global] Instance TimeDescending_local : LocalDecoder time_valid DecodeTimeDescending.
Proof.
  eapply local_ext; [|apply (local_convert _ _ _ (fun t => inr (time_Unix (Z.lnot (fst t)) (Z.lnot (snd t)))) decodeTime_local)].
  - intros b. unfold DecodeTimeDescending. destruct (decodeTime b) as [[err|[rest [s n]]]|]; done.
  - intros t [Hs _]. apply time_Unix_range. unfold is_i64, Z.lnot, MaxInt64 in *. lia.
Qed.

(** ** Truncated encodings *)

Lemma truncated_error {A} (valid : A -> Prop) lt code encode decode (v : A) p q :
  OrderedCodec valid lt code encode decode -> LocalDecoder valid decode ->
  valid v -> Forall is_byte p -> code v = p ++ q -> q <> [] -> exists err, decode p = Ret (inl err).
Proof.
  intros C L Hv Hp E Hq. destruct (L p Hp) as [?|(pre & rest & w & -> & _ & _ & D)]; [done|]. exfalso.
  pose proof (oc_decode (OrderedCodec := C) v [] Hv) as R. rewrite app_nil_r, E, <- (assoc_L (++)), D in R.
  apply Hq. apply Ret_inj in R. injection R as R _. by apply app_nil in R as [_ ->].
Qed.

(** ** Lengths read off an encoding *)

Lemma EncLenUvarintAscending_code v : is_u64 v -> EncLenUvarintAscending v = len (uvarint_code v).
Proof.
  intros Hv. unfold EncLenUvarintAscending, uvarint_code. change intSmall with 109. destruct (v <=? 109); [done|].
  rewrite highestByteIndex_eq, len_cons, be_len by done. lia.
Qed.

Lemma EncLenUvarintDescending_code v : is_u64 v -> EncLenUvarintDescending v = len (uvarint_desc_code v).
Proof.
  intros Hv. unfold EncLenUvarintDescending, uvarint_desc_code. destruct (v =? 0); [done|].
  rewrite highestByteIndex_eq, len_cons, be_len by done. lia.
Qed.

Lemma uvarint_code_max v : is_u64 v -> len (uvarint_code v) <= MaxVarintLen.
Proof.
  intros Hv. pose proof (nbytes_spec v Hv) as (Hn & _). unfold uvarint_code. change MaxVarintLen with 9.
  destruct (v <=? 109); [done|]. rewrite len_cons, be_len. lia.
Qed.

Lemma varint_code_max v : is_i64 v -> len (varint_code v) <= MaxVarintLen.
Proof.
  intros Hv. unfold is_i64, MaxInt64 in Hv. unfold varint_code. destruct (v <? 0) eqn:E; bool_to_prop.
  - pose proof (nbytes_spec (- v) ltac:(unfold u64_modulus; lia)) as (Hn & _). change MaxVarintLen with 9. rewrite len_cons, be_len. lia.
  - apply uvarint_code_max. unfold is_u64, u64_modulus. lia.
Qed.

Lemma GetUvarintLen_code v rest : is_u64 v -> GetUvarintLen (uvarint_code v ++ rest) = Ret (inr (len (uvarint_code v))).
Proof.
  intros Hv. pose proof (nbytes_spec v Hv) as (Hn & _). pose proof (len_nonneg rest). unfold GetUvarintLen, uvarint_code.
  change intZero with 136. change intSmall with 109. destruct (v <=? 109) eqn:E; bool_to_prop; cbn [app]; rewrite tag_len, tag_get; cbn [obind].
  - decide_cmp. done.
  - rewrite !len_cons, len_app, be_len. decide_cmp. do 2 f_equal. lia.
Qed.

Lemma getVarintLen_code v rest : is_i64 v -> getVarintLen (varint_code v ++ rest) = Ret (inr (len (varint_code v))).
Proof.
  intros Hv. unfold is_i64, MaxInt64 in Hv. pose proof (len_nonneg rest). unfold getVarintLen, varint_code, uvarint_code.
  change intZero with 136. change intSmall with 109. destruct (v <? 0) eqn:E; [|destruct (v <=? 109) eqn:F]; bool_to_prop; cbn [app]; rewrite tag_get; cbn [obind].
  - pose proof (nbytes_spec (- v) ltac:(unfold u64_modulus; lia)) as (Hn & _).
    rewrite !len_cons, len_app, be_len. decide_cmp. do 2 f_equal. lia.
  - decide_cmp. done.
  - pose proof (nbytes_spec v ltac:(unfold u64_modulus; lia)) as (Hn & _). rewrite !len_cons, len_app, be_len. decide_cmp. do 2 f_equal. lia.
Qed.

Lemma length_loop_terminated e fuel pre0 data rest :
  escapes_ok e -> (length data < fuel)%nat ->
  length_loop fuel (pre0 ++ terminated e data ++ rest) e (len pre0) = Ret (inr (len (pre0 ++ terminated e data))).
Proof.
  intros [_ Hne]. revert pre0 data. induction fuel as [|fuel IH]; intros pre0 data Hf; [lia|]. cbn [length_loop].
  rewrite slice_from_app by done. cbn [obind]. destruct (terminated_split e data rest) as (pre & c & tl & E & Hc & Hcase). rewrite E.
  rewrite IndexByte_app by done. pose proof (len_nonneg pre). pose proof (len_nonneg pre0). pose proof (len_nonneg tl).
  rewrite (proj2 (Z.eqb_neq _ (-1))) by lia. rewrite len_app, len_app, !len_cons. decide_cmp. change escapeLength with 2.
  replace (len pre0 + (len pre + 2) - 1) with (len (pre0 ++ pre) + 1) by (rewrite len_app; lia).
  rewrite (assoc_L (++)), slice_get_pre. cbn [obind].
  destruct Hcase as [(-> & -> & ->)|(-> & data' & -> & ->)].
  - rewrite Z.eqb_refl. do 2 f_equal. unfold terminated. rewrite !len_app, escaped_plain by done. change (len [_; _]) with 2. lia.
  - rewrite (proj2 (Z.eqb_neq _ _)) by congruence. rewrite length_app in Hf. cbn [length] in Hf.
    set (P := (pre0 ++ pre) ++ [e_escape e; e_escaped00 e]).
    assert (len P = len pre0 + (len pre + 2)) as <- by (unfold P; rewrite !len_app; change (len [_; _]) with 2; lia).
    assert (forall X, (pre0 ++ pre) ++ e_escape e :: e_escaped00 e :: X = P ++ X) as HP by (intros X; unfold P; by rewrite <- (assoc_L (++) (pre0 ++ pre))).
    rewrite HP, IH by lia. do 3 f_equal. unfold terminated. rewrite <- HP, escaped_split by done. by rewrite <- !(assoc_L (++)).
Qed.

Lemma getBytesLength_code e data rest :
  escapes_ok e -> getBytesLength (e_marker e :: terminated e data ++ rest) e = Ret (inr (1 + len (terminated e data))).
Proof.
  intros He. unfold getBytesLength. pose proof (length_loop_terminated e) as H. specialize (H (S (length (e_marker e :: terminated e data ++ rest))) [e_marker e] data rest He).
  rewrite len_app in H. apply H. cbn [length]. rewrite length_app. pose proof (terminated_length e data). lia.
Qed.

(** ** The encodings are bytes *)

Lemma uvarint_code_bytes v : is_u64 v -> Forall is_byte (uvarint_code v).
Proof.
  intros Hv. pose proof (nbytes_spec v Hv) as (Hn & _). unfold uvarint_code. destruct (v <=? 109) eqn:E; bool_to_prop.
  - constructor; [|done]. unfold is_byte, is_u64 in *. lia.
  - constructor; [unfold is_byte; lia|apply be_bytes].
Qed.

Lemma varint_code_bytes v : is_i64 v -> Forall is_byte (varint_code v).
Proof.
  intros Hv. unfold is_i64, MaxInt64 in Hv. unfold varint_code. destruct (v <? 0) eqn:E; bool_to_prop.
  - pose proof (nbytes_spec (- v) ltac:(unfold u64_modulus; lia)) as (Hn & _). constructor; [unfold is_byte; lia|apply be_bytes].
  - apply uvarint_code_bytes. unfold is_u64, u64_modulus. lia.
Qed.

Lemma bytes_code_bytes data : Forall is_byte data -> Forall is_byte (bytes_code data).
Proof. intros H. constructor; [done|]. by apply terminated_bytes. Qed.

(** ** Where the code and its comments part *)

(** DecodeBytesDescending complements what was in [r] before, too. *)
Lemma DecodeBytesDescending_prefix data rest r :
  Forall is_byte data -> DecodeBytesDescending (bytes_desc_code data ++ rest) r = Ret (inr (rest, onesComplement r ++ data)).
Proof.
  intros H. unfold DecodeBytesDescending, bytes_desc_code. rewrite escaped_complement by done.
  change ((bytesDescMarker :: ?l) ++ rest) with (e_marker descendingBytesEscapes :: l ++ rest).
  rewrite decodeBytesInternal_marked by apply descendingBytesEscapes_ok. cbn [ebind obind]. by rewrite onesComplement_app, onesComplement_involutive.
Qed.

(** Tags below the one of zero, which no uvarint encoder writes, are not errors: they
    decode to numbers at the top of the uint64 range and have length 1. *)
Lemma uvarint_low_tag t l :
  is_byte t -> t < intZero ->
  DecodeUvarintAscending (t :: l) = Ret (inr (l, t - intZero + u64_modulus)) /\ GetUvarintLen (t :: l) = Ret (inr 1).
Proof.
  intros Hb Ht. change intZero with 136 in *. unfold is_byte in Hb. split.
  - rewrite DecodeUvarintAscending_cons. decide_cmp. do 3 f_equal. unfold u64. rewrite <- (Z_mod_plus_full _ 1), Z.mul_1_l. apply Z.mod_small. unfold u64_modulus. lia.
  - unfold GetUvarintLen. rewrite tag_len, tag_get. cbn [obind]. change intZero with 136. change intSmall with 109. decide_cmp. done.
Qed.

(** * The claims *)

(** C30. Every key encoding appends a code to the buffer that decodes to the value with
    whatever follows it left over, and that sorts like the value (descending encodings
    like the opposite order), decided before the end of either code: integers of fixed
    width, uvarints, varints, byte strings and times, in both directions. *)
Theorem key_codecs :
  OrderedCodec (fun v => 0 <= v < 65536) Z.lt (be 2) (fun b v => Ret (EncodeUint16Ascending b v)) DecodeUint16Ascending /\
  OrderedCodec (fun v => 0 <= v < 4294967296) Z.lt (be 4) (fun b v => Ret (EncodeUint32Ascending b v)) DecodeUint32Ascending /\
  OrderedCodec (fun v => 0 <= v < 4294967296) gt (fun v => be 4 (u32 (Z.lnot v))) (fun b v => Ret (EncodeUint32Descending b v)) DecodeUint32Descending /\
  OrderedCodec is_u64 Z.lt (be 8) (fun b v => Ret (EncodeUint64Ascending b v)) DecodeUint64Ascending /\
  OrderedCodec is_u64 gt (fun v => be 8 (u64 (Z.lnot v))) (fun b v => Ret (EncodeUint64Descending b v)) DecodeUint64Descending /\
  OrderedCodec is_u64 Z.lt uvarint_code (fun b v => Ret (EncodeUvarintAscending b v)) DecodeUvarintAscending /\
  OrderedCodec is_u64 gt uvarint_desc_code (fun b v => Ret (EncodeUvarintDescending b v)) DecodeUvarintDescending /\
  OrderedCodec is_i64 Z.lt varint_code (fun b v => Ret (EncodeVarintAscending b v)) DecodeVarintAscending /\
  OrderedCodec is_i64 gt (fun v => varint_code (Z.lnot v)) (fun b v => Ret (EncodeVarintDescending b v)) DecodeVarintDescending /\
  OrderedCodec (Forall is_byte) bytes_lt bytes_code EncodeBytesAscending (fun b => DecodeBytesAscending b []) /\
  OrderedCodec (Forall is_byte) (flip bytes_lt) bytes_desc_code EncodeBytesDescending (fun b => DecodeBytesDescending b []) /\
  OrderedCodec time_valid time_lt time_code (fun b t => Ret (EncodeTimeAscending b t)) DecodeTimeAscending /\
  OrderedCodec time_valid (flip time_lt) (time_code ∘ time_flip) (fun b t => Ret (EncodeTimeDescending b t)) DecodeTimeDescending.
Proof. split_and!; apply _. Qed.

(** Composite keys: for any two key encodings, encoding a pair column after column
    onto the same prefix gives keys that sort like the pairs (first column first),
    whatever is appended to them, and decoding column after column gives the pair back. *)
Theorem composite_keys_sort {A B} (valid1 : A -> Prop) (lt1 : A -> A -> Prop) code1 encode1 decode1
    (valid2 : B -> Prop) (lt2 : B -> B -> Prop) code2 encode2 decode2 (p q : A * B) b kp kq r s :
  OrderedCodec valid1 lt1 code1 encode1 decode1 -> OrderedCodec valid2 lt2 code2 encode2 decode2 ->
  pair_valid valid1 valid2 p -> pair_valid valid1 valid2 q -> pair_lt lt1 lt2 p q ->
  pair_encode encode1 encode2 b p = Ret (b ++ kp) -> pair_encode encode1 encode2 b q = Ret (b ++ kq) ->
  bytes_lt (b ++ kp ++ r) (b ++ kq ++ s) /\
  pair_decode decode1 decode2 (kp ++ r) = Ret (inr (r, p)) /\ pair_decode decode1 decode2 (kq ++ s) = Ret (inr (s, q)).
Proof.
  intros C1 C2 Hp Hq Hlt Ep Eq. pose proof (pair_codec valid1 lt1 code1 encode1 decode1 valid2 lt2 code2 encode2 decode2) as C.
  rewrite (oc_encode (OrderedCodec := C)) in Ep, Eq by done. apply Ret_inj, app_inv_head in Ep, Eq. subst kp kq.
  split; [|by split; apply (oc_decode (OrderedCodec := C))].
  rewrite !(assoc_L (++)). by apply precedes_lt, precedes_prefix, (oc_order (OrderedCodec := C)).
Qed.

Lemma composite_keys_sort_witness :
  bytes_lt ([1] ++ [18; 97; 0; 255; 0; 1; 137] ++ [7]) ([1] ++ [18; 97; 0; 255; 98; 0; 1; 136] ++ []) /\
  pair_decode (fun b => DecodeBytesAscending b []) DecodeUvarintAscending ([18; 97; 0; 255; 0; 1; 137] ++ [7]) = Ret (inr ([7], ([97; 0], 1))) /\
  pair_decode (fun b => DecodeBytesAscending b []) DecodeUvarintAscending ([18; 97; 0; 255; 98; 0; 1; 136] ++ []) = Ret (inr ([], ([97; 0; 98], 0))).
Proof.
  apply (composite_keys_sort _ _ _ _ _ _ _ _ _ _ ([97; 0], 1) ([97; 0; 98], 0) [1] _ _ [7] [] BytesAscending_codec UvarintAscending_codec).
  - split; [repeat constructor|]; done.
  - split; [repeat constructor|]; done.
  - left. cbn. lia.
  - by vm_compute.
  - by vm_compute.
Defined.

(** C37. On any bytes, also those that no encoder wrote, a decoder never panics: it
    returns an error, or the value of a nonempty prefix, in the range of the value's
    type and independent of what follows the prefix, with the rest of the bytes.
    Validating a byte string agrees with decoding it. *)
Theorem decoders_total :
  LocalDecoder (fun v => 0 <= v < 65536) DecodeUint16Ascending /\
  LocalDecoder (fun v => 0 <= v < 4294967296) DecodeUint32Ascending /\
  LocalDecoder (fun v => 0 <= v < 4294967296) DecodeUint32Descending /\
  LocalDecoder is_u64 DecodeUint64Ascending /\ LocalDecoder is_u64 DecodeUint64Descending /\
  LocalDecoder is_u64 DecodeUvarintAscending /\ LocalDecoder is_u64 DecodeUvarintDescending /\
  LocalDecoder is_i64 DecodeVarintAscending /\ LocalDecoder is_i64 DecodeVarintDescending /\
  LocalDecoder (Forall is_byte) (fun b => DecodeBytesAscending b []) /\
  LocalDecoder (Forall is_byte) (fun b => DecodeBytesDescending b []) /\
  LocalDecoder time_valid DecodeTimeAscending /\ LocalDecoder time_valid DecodeTimeDescending /\
  (forall b, ValidateDecodeBytesAscending b = let? '(rest, _) := DecodeBytesAscending b [] in Ret (inr rest)).
Proof. split_and!; try apply _. apply ValidateDecodeBytesAscending_eq. Qed.

(** Truncation is detected: decoding a proper prefix of what a uvarint, varint,
    byte string or time encoder appends to an empty buffer returns an error. *)
Theorem truncated_encoding_rejected p q :
  q <> [] ->
  (forall v, is_u64 v -> EncodeUvarintAscending [] v = p ++ q -> exists err, DecodeUvarintAscending p = Ret (inl err)) /\
  (forall v, is_i64 v -> EncodeVarintAscending [] v = p ++ q -> exists err, DecodeVarintAscending p = Ret (inl err)) /\
  (forall s, Forall is_byte s -> EncodeBytesAscending [] s = Ret (p ++ q) -> exists err, DecodeBytesAscending p [] = Ret (inl err)) /\
  (forall s, Forall is_byte s -> EncodeBytesDescending [] s = Ret (p ++ q) -> exists err, DecodeBytesDescending p [] = Ret (inl err)) /\
  (forall t, time_valid t -> EncodeTimeAscending [] t = p ++ q -> exists err, DecodeTimeAscending p = Ret (inl err)).
Proof.
  intros Hq. split_and!; intros v Hv E.
  - rewrite EncodeUvarintAscending_eq in E by apply Hv. pose proof (uvarint_code_bytes v Hv) as Hb. cbn [app] in E. rewrite E in Hb.
    apply Forall_app in Hb as [Hb _]. by apply (truncated_error _ _ _ _ _ v p q UvarintAscending_codec _).
  - rewrite EncodeVarintAscending_eq in E by done. pose proof (varint_code_bytes v Hv) as Hb. cbn [app] in E. rewrite E in Hb.
    apply Forall_app in Hb as [Hb _]. by apply (truncated_error _ _ _ _ _ v p q VarintAscending_codec _).
  - rewrite EncodeBytesAscending_eq in E. apply Ret_inj in E. pose proof (bytes_code_bytes v Hv) as Hb. cbn [app] in E. rewrite E in Hb.
    apply Forall_app in Hb as [Hb _]. by apply (truncated_error _ _ _ _ _ v p q BytesAscending_codec _).
  - rewrite EncodeBytesDescending_eq in E. apply Ret_inj in E. cbn [app] in E.
    assert (Forall is_byte (bytes_desc_code v)) as Hb by (constructor; [done|apply onesComplement_bytes]). rewrite E in Hb.
    apply Forall_app in Hb as [Hb _]. by apply (truncated_error _ _ _ _ _ v p q BytesDescending_codec _).
  - unfold EncodeTimeAscending in E. destruct (time_raw v Hv) as [Hraw _]. rewrite encodeTime_code in E by done. cbn [app] in E.
    assert (Forall is_byte (time_code v)) as Hb by (constructor; [done|apply Forall_app; split; apply varint_code_bytes, Hraw]). rewrite E in Hb.
    apply Forall_app in Hb as [Hb _]. by apply (truncated_error _ _ _ _ _ v p q TimeAscending_codec _).
Qed.

Lemma truncated_encoding_rejected_witness :
  (exists err, DecodeUvarintAscending [247; 1] = Ret (inl err)) /\ (exists err, DecodeBytesAscending [18; 97; 0] [] = Ret (inl err)).
Proof.
  split.
  - apply (truncated_encoding_rejected [247; 1] [44] ltac:(done)) with 300; [done|]. by vm_compute.
  - apply (truncated_encoding_rejected [18; 97; 0] [1] ltac:(done)) with [97]; [by repeat constructor|]. by vm_compute.
Defined.

(** The length functions are exact, and integers never take more than MaxVarintLen
    bytes: EncLenUvarintAscending, EncodedLengthUvarintAscending and
    EncLenUvarintDescending give the bytes the encoders append, GetUvarintLen,
    getVarintLen and getBytesLength read the length off an encoding that anything may
    follow, and EncodeBytesSize and EncodeNextBytesSize are the sizes of the string and
    of its successor. *)
Theorem encoded_lengths :
  (forall b v, is_u64 v ->
    len (EncodeUvarintAscending b v) = len b + EncLenUvarintAscending v /\
    EncodedLengthUvarintAscending v = EncLenUvarintAscending v /\
    len (EncodeUvarintDescending b v) = len b + EncLenUvarintDescending v /\
    EncLenUvarintAscending v <= MaxVarintLen /\ EncLenUvarintDescending v <= MaxVarintLen) /\
  (forall v rest, is_u64 v -> GetUvarintLen (EncodeUvarintAscending [] v ++ rest) = Ret (inr (EncLenUvarintAscending v))) /\
  (forall v rest, is_i64 v ->
    getVarintLen (EncodeVarintAscending [] v ++ rest) = Ret (inr (len (EncodeVarintAscending [] v))) /\
    len (EncodeVarintAscending [] v) <= MaxVarintLen) /\
  (forall b data, exists k, EncodeBytesAscending b data = Ret (b ++ k) /\ len k = EncodeBytesSize data /\
    forall rest, getBytesLength (k ++ rest) ascendingBytesEscapes = Ret (inr (len k))) /\
  (forall b data, exists k, EncodeNextBytesAscending b data = Ret (b ++ k) /\ len k = EncodeNextBytesSize data /\
    EncodeBytesAscending b (data ++ [0]) = Ret (b ++ k)).
Proof.
  split_and!.
  - intros b v Hv. pose proof (nbytes_spec v Hv) as (Hn & _).
    rewrite EncodeUvarintAscending_eq, EncodeUvarintDescending_eq, !len_app, <- EncLenUvarintAscending_code, <- EncLenUvarintDescending_code, <- uvarint_code_len by (done || apply Hv).
    rewrite EncLenUvarintAscending_code by done. split_and!; [done..|by apply uvarint_code_max|].
    unfold EncLenUvarintDescending. change MaxVarintLen with 9. rewrite highestByteIndex_eq by done. destruct (v =? 0); lia.
  - intros v rest Hv. rewrite EncodeUvarintAscending_eq, EncLenUvarintAscending_code by (done || apply Hv). by apply GetUvarintLen_code.
  - intros v rest Hv. rewrite EncodeVarintAscending_eq by done. split; [by apply getVarintLen_code|by apply varint_code_max].
  - intros b data. exists (bytes_code data). rewrite EncodeBytesAscending_eq, bytes_code_len. split_and!; [done..|]. intros rest.
    rewrite <- bytes_code_len. unfold bytes_code. rewrite len_cons. apply (getBytesLength_code ascendingBytesEscapes), ascendingBytesEscapes_ok.
  - intros b data. exists (bytes_code (data ++ [0])). rewrite EncodeNextBytesAscending_eq, EncodeNextBytesSize_eq, bytes_code_len. split_and!; [done..|].
    apply EncodeBytesAscending_eq.
Qed.

(** C38. getBytesLength compares an index into the rest of the buffer with the length
    of the whole buffer, so that an encoding that is cut off right after its first
    escape byte panics instead of being reported as malformed, which decoding does. *)
Theorem getBytesLength_truncated_panics data :
  escape ∉ data ->
  getBytesLength (bytesMarker :: data ++ [escape]) ascendingBytesEscapes = Panic "index out of range" /\
  exists err, DecodeBytesAscending (bytesMarker :: data ++ [escape]) [] = Ret (inl err).
Proof.
  intros Hd. pose proof (len_nonneg data). split.
  - unfold getBytesLength. cbn [length_loop]. rewrite tag_from. cbn [obind e_escape ascendingBytesEscapes].
    rewrite IndexByte_app, len_cons, len_app by done. rewrite (proj2 (Z.eqb_neq _ (-1))) by lia. change (len [escape]) with 1. change escapeLength with 2.
    decide_cmp. unfold slice_get. rewrite bool_decide_eq_true_2 by lia. rewrite lookup_ge_None_2; [done|].
    cbn [length]. rewrite length_app. unfold len. cbn [length]. lia.
  - unfold DecodeBytesAscending, decodeBytesInternal. rewrite tag_len. cbn [lookup list_lookup]. rewrite bool_decide_eq_true_2 by done.
    cbn [orb negb]. rewrite tag_from. cbn [obind decode_loop e_escape ascendingBytesEscapes]. rewrite IndexByte_app by done.
    rewrite (proj2 (Z.eqb_neq _ (-1))) by lia. rewrite len_app. change (len [escape]) with 1. decide_cmp. by eexists.
Qed.

Lemma getBytesLength_truncated_panics_witness :
  getBytesLength [18; 65; 0] ascendingBytesEscapes = Panic "index out of range" /\
  exists err, DecodeBytesAscending [18; 65; 0] [] = Ret (inl err).
Proof. apply (getBytesLength_truncated_panics [65]). apply (bool_decide_unpack _). by vm_compute. Defined.
