(* ===== verification/Keys.v ===== *)
(** * Keys (src/pkg/keys, src/pkg/keysbase, the Key and RKey methods of src/pkg/roachpb)

    A key is its bytes. Identifiers are integers at the width of the source (NodeID and
    StoreID int32, RangeID int64, RaftIndex and TenantID uint64) and a UUID is its 16
    bytes. Keys built with append are values here: the comment on RangeIDPrefixBuf
    that a key is valid until the next call is about the shared backing array. A wrapped
    error is the error it wraps. *)

From Stdlib Require Import Ascii.
From S2P Require Import Prelude Hlc Encoding.

(** The conversion of a string constant to bytes. *)
Definition bytes_of (s : string) : buffer := (fun c => Z.of_N (N_of_ascii c)) <$> String.list_ascii_of_string s.

(** ** Byte slices and Key methods *)

(** bytes.HasPrefix *)
Fixpoint HasPrefix (b prefix : buffer) {struct prefix} : bool :=
  match prefix, b with
  | [], _ => true
  | p :: prefix, x :: b => (x =? p) && HasPrefix b prefix
  | _ :: _, [] => false
  end.

(** bytes.Compare *)
Fixpoint bytes_Compare (a b : buffer) : Z :=
  match a, b with
  | [], [] => 0
  | [], _ :: _ => -1
  | _ :: _, [] => 1
  | x :: a, y :: b => if x <? y then -1 else if y <? x then 1 else bytes_Compare a b
  end.

Definition KeyMin : buffer := [].
Definition KeyMax : buffer := [0xff; 0xff].

Definition Key_Less (k other : buffer) : bool := bytes_Compare k other <? 0.
Definition Key_Equal (k other : buffer) : bool := bool_decide (k = other).

(** BytesNext: the two branches return the same bytes. *)
Definition BytesNext (b : buffer) : buffer := b ++ [0].

Definition BytesPrevish (b : buffer) (length : Z) : outcome buffer :=
  let bLen := len b in
  if bLen =? 0 then Ret b
  else
    let! last := slice_get b (bLen - 1) in
    if last =? 0 then slice_to b (bLen - 1)
    else
      let length := if bLen >? length then bLen else length in
      let! b := slice_set b (bLen - 1) (byte_of (last - 1)) in
      Ret (b ++ replicate (Z.to_nat (length - bLen)) 0xff).

(** [l == len(k) && m[l] == 0 && k.Equal(m[:l])] *)
Definition Key_IsPrev (k m : buffer) : outcome bool :=
  let l := len m - 1 in
  if l =? len k then
    let! c := slice_get m l in
    if c =? 0 then let! pre := slice_to m l in Ret (Key_Equal k pre)
    else Ret false
  else Ret false.

(** The loop of PrefixEnd, from the last byte down: [rev] is what is left of [end],
    last byte first. *)
Fixpoint prefix_end_loop (rev : buffer) : option buffer :=
  match rev with
  | [] => None
  | x :: rev =>
    let x := byte_of (x + 1) in
    if negb (x =? 0) then Some (reverse (x :: rev)) else prefix_end_loop rev
  end.

Definition PrefixEnd (b : buffer) : buffer :=
  if len b =? 0 then KeyMax
  else
    match prefix_end_loop (reverse b) with
    | Some end_ => end_
    | None => b
    end.

Definition UndoPrefixEnd (b : buffer) : outcome (buffer * bool) :=
  if len b =? 0 then Ret ([], false)
  else
    let! last := slice_get b (len b - 1) in
    if last =? 0 then Ret ([], false)
    else
      let! out := slice_set b (len b - 1) (byte_of (last - 1)) in
      Ret (out, true).

(** ** Constants *)

Definition LocalMaxByte : Z := 2.
Definition meta1PrefixByte : Z := LocalMaxByte.
Definition meta2PrefixByte : Z := 3.
Definition metaMaxByte : Z := 4.
Definition systemPrefixByte : Z := metaMaxByte.
Definition systemMaxByte : Z := 5.
Definition tenantPrefixByte : Z := 0xfe.

Definition LocalPrefix : buffer := [1].
Definition LocalMax : buffer := [LocalMaxByte].
Definition localSuffixLength : Z := 4.

Definition LocalRangeIDPrefix : buffer := LocalPrefix ++ bytes_of "i".
Definition LocalRangeIDReplicatedInfix : buffer := bytes_of "r".
Definition LocalAbortSpanSuffix : buffer := bytes_of "abc-".
Definition LocalReplicatedSharedLocksTransactionLatchingKeySuffix : buffer := bytes_of "rsl-".
Definition LocalRangeGCThresholdSuffix : buffer := bytes_of "lgc-".
Definition LocalRangeAppliedStateSuffix : buffer := bytes_of "rask".
Definition LocalRangeGCHintSuffix : buffer := bytes_of "rgch".
Definition LocalRangeLeaseSuffix : buffer := bytes_of "rll-".
Definition LocalRangePriorReadSummarySuffix : buffer := bytes_of "rprs".
Definition LocalRangeVersionSuffix : buffer := bytes_of "rver".

Definition localRangeIDUnreplicatedInfix : buffer := bytes_of "u".
Definition LocalRangeTombstoneSuffix : buffer := bytes_of "rftb".
Definition LocalRaftHardStateSuffix : buffer := bytes_of "rfth".
Definition LocalRaftLogSuffix : buffer := bytes_of "rftl".
Definition LocalRaftReplicaIDSuffix : buffer := bytes_of "rftr".
Definition LocalRaftTruncatedStateSuffix : buffer := bytes_of "rftt".
Definition LocalRangeLastReplicaGCTimestampSuffix : buffer := bytes_of "rlrt".
Definition LocalRangeMVCCRangeKeyGCLockSuffix : buffer := bytes_of "rltu".

Definition LocalRangePrefix : buffer := LocalPrefix ++ bytes_of "k".
Definition LocalRangeMax : buffer := PrefixEnd LocalRangePrefix.
Definition LocalRangeProbeSuffix : buffer := bytes_of "prbe".
Definition LocalQueueLastProcessedSuffix : buffer := bytes_of "qlpt".
Definition LocalRangeDescriptorSuffix : buffer := bytes_of "rdsc".
Definition LocalTransactionSuffix : buffer := bytes_of "txn-".

Definition LocalStorePrefix : buffer := LocalPrefix ++ bytes_of "s".
Definition localStoreClusterVersionSuffix : buffer := bytes_of "cver".
Definition localStoreGossipSuffix : buffer := bytes_of "goss".
Definition localStoreHLCUpperBoundSuffix : buffer := bytes_of "hlcu".
Definition localStoreIdentSuffix : buffer := bytes_of "iden".
Definition localStoreLossOfQuorumRecoveryInfix : buffer := bytes_of "loqr".
Definition localStoreUnsafeReplicaRecoverySuffix : buffer := localStoreLossOfQuorumRecoveryInfix ++ bytes_of "applied".
Definition localStoreLossOfQuorumRecoveryStatusSuffix : buffer := localStoreLossOfQuorumRecoveryInfix ++ bytes_of "status".
Definition localStoreLossOfQuorumRecoveryCleanupActionsSuffix : buffer := localStoreLossOfQuorumRecoveryInfix ++ bytes_of "cleanup".
Definition localStoreNodeTombstoneSuffix : buffer := bytes_of "ntmb".
Definition localStoreCachedSettingsSuffix : buffer := bytes_of "stng".
Definition localStoreLastUpSuffix : buffer := bytes_of "uptm".
Definition localStoreLivenessRequesterMeta : buffer := bytes_of "slrm".
Definition localStoreLivenessSupporterMeta : buffer := bytes_of "slsm".
Definition localStoreLivenessSupportFor : buffer := bytes_of "slsf".

Definition LocalRangeLockTablePrefix : buffer := LocalPrefix ++ bytes_of "z".
Definition LockTableSingleKeyInfix : buffer := bytes_of "k".
Definition LockTableSingleKeyStart : buffer := LocalRangeLockTablePrefix ++ LockTableSingleKeyInfix.
Definition LockTableSingleKeyEnd : buffer := LocalRangeLockTablePrefix ++ PrefixEnd LockTableSingleKeyInfix.

Definition MetaMax : buffer := [metaMaxByte].
Definition Meta1Prefix : buffer := [meta1PrefixByte].
Definition MetaMin : buffer := Meta1Prefix.
Definition Meta1KeyMax : buffer := Meta1Prefix ++ KeyMax.
Definition Meta2Prefix : buffer := [meta2PrefixByte].
Definition Meta2KeyMax : buffer := Meta2Prefix ++ KeyMax.

Definition SystemPrefix : buffer := [systemPrefixByte].
Definition SystemMax : buffer := [systemMaxByte].
Definition NodeLivenessPrefix : buffer := SystemPrefix ++ 0 :: bytes_of "liveness-".
Definition NodeLivenessKeyMax : buffer := PrefixEnd NodeLivenessPrefix.
Definition StatusPrefix : buffer := SystemPrefix ++ bytes_of "status-".
Definition StatusNodePrefix : buffer := StatusPrefix ++ bytes_of "node-".
Definition StartupMigrationPrefix : buffer := SystemPrefix ++ bytes_of "system-version/".
Definition TenantPrefix : buffer := [tenantPrefixByte].

(** ** Store-local keys *)

Definition MakeStoreKey (suffix detail : buffer) : buffer := LocalStorePrefix ++ suffix ++ detail.

Definition DecodeStoreKey (key : buffer) : outcome (error + (buffer * buffer)) :=
  if negb (HasPrefix key LocalStorePrefix) then Ret (inl (Errorf "key %s does not have %s prefix" key))
  else
    let! key := slice_from key (len LocalStorePrefix) in
    if len key <? localSuffixLength then Ret (inl (Errorf "malformed key does not contain local store suffix" []))
    else
      let! suffix := slice_to key localSuffixLength in
      let! detail := slice_from key localSuffixLength in
      Ret (inr (suffix, detail)).

Definition StoreIdentKey : buffer := MakeStoreKey localStoreIdentSuffix [].
Definition StoreGossipKey : buffer := MakeStoreKey localStoreGossipSuffix [].
Definition DeprecatedStoreClusterVersionKey : buffer := MakeStoreKey localStoreClusterVersionSuffix [].
Definition StoreLastUpKey : buffer := MakeStoreKey localStoreLastUpSuffix [].
Definition StoreHLCUpperBoundKey : buffer := MakeStoreKey localStoreHLCUpperBoundSuffix [].

Definition StoreNodeTombstoneKey (nodeID : Z) : buffer :=
  MakeStoreKey localStoreNodeTombstoneSuffix (EncodeUint32Ascending [] (u32 nodeID)).

(** Decodes the detail of a store key with the given suffix. *)
Definition DecodeNodeTombstoneKey (key : buffer) : outcome (error + Z) :=
  let? '(suffix, detail) := DecodeStoreKey key in
  if negb (Key_Equal suffix localStoreNodeTombstoneSuffix) then Ret (inl (Errorf "key with suffix %q != %q" suffix))
  else
    let? '(detail, nodeID) := DecodeUint32Ascending detail in
    if negb (len detail =? 0) then Ret (inl (Errorf "invalid key has trailing garbage: %q" detail))
    else Ret (inr (int32 nodeID)).

Definition StoreLivenessRequesterMetaKey : buffer := MakeStoreKey localStoreLivenessRequesterMeta [].
Definition StoreLivenessSupporterMetaKey : buffer := MakeStoreKey localStoreLivenessSupporterMeta [].

Definition StoreLivenessSupportForKey (nodeID storeID : Z) : buffer :=
  let nodeIDAndStoreID := Z.lor (u64 (Z.shiftl (u64 nodeID) 32)) (u64 storeID) in
  MakeStoreKey localStoreLivenessSupportFor (EncodeUint64Ascending [] nodeIDAndStoreID).

Definition MaxUint32 : Z := 4294967295.

Definition DecodeStoreLivenessSupportForKey (key : buffer) : outcome (error + (Z * Z)) :=
  let? '(suffix, detail) := DecodeStoreKey key in
  if negb (Key_Equal suffix localStoreLivenessSupportFor) then Ret (inl (Errorf "key with suffix %q != %q" suffix))
  else
    let? '(detail, nodeIDAndStoreID) := DecodeUint64Ascending detail in
    if negb (len detail =? 0) then Ret (inl (Errorf "invalid key has trailing garbage: %q" detail))
    else Ret (inr (int32 (Z.shiftr nodeIDAndStoreID 32), int32 (Z.land nodeIDAndStoreID MaxUint32))).

Definition StoreCachedSettingsKey (settingKey : buffer) : outcome buffer :=
  let! detail := EncodeBytesAscending [] settingKey in
  Ret (MakeStoreKey localStoreCachedSettingsSuffix detail).

Definition DecodeStoreCachedSettingsKey (key : buffer) : outcome (error + buffer) :=
  let? '(suffix, detail) := DecodeStoreKey key in
  if negb (Key_Equal suffix localStoreCachedSettingsSuffix) then Ret (inl (Errorf "key with suffix %q != %q" suffix))
  else
    let? '(detail, settingKey) := DecodeBytesAscending detail [] in
    if negb (len detail =? 0) then Ret (inl (Errorf "invalid key has trailing garbage: %q" detail))
    else Ret (inr settingKey).

Definition LocalStoreCachedSettingsKeyMin : buffer := MakeStoreKey localStoreCachedSettingsSuffix [].
Definition LocalStoreCachedSettingsKeyMax : buffer := PrefixEnd LocalStoreCachedSettingsKeyMin.

Definition StoreLossOfQuorumRecoveryStatusKey : buffer := MakeStoreKey localStoreLossOfQuorumRecoveryStatusSuffix [].
Definition StoreLossOfQuorumRecoveryCleanupActionsKey : buffer := MakeStoreKey localStoreLossOfQuorumRecoveryCleanupActionsSuffix [].

Definition LocalStoreUnsafeReplicaRecoveryKeyMin : buffer := MakeStoreKey localStoreUnsafeReplicaRecoverySuffix [].
Definition LocalStoreUnsafeReplicaRecoveryKeyMax : buffer := PrefixEnd LocalStoreUnsafeReplicaRecoveryKeyMin.

(** uuid.FromBytes *)
Definition FromBytes (input : buffer) : error + buffer :=
  if negb (len input =? 16) then inl (Errorf "uuid: UUID must be exactly 16 bytes long, got %d bytes" [len input])
  else inr input.

Definition StoreUnsafeReplicaRecoveryKey (uuid : buffer) : buffer := LocalStoreUnsafeReplicaRecoveryKeyMin ++ uuid.

Definition DecodeStoreUnsafeReplicaRecoveryKey (key : buffer) : outcome (error + buffer) :=
  if negb (HasPrefix key LocalStoreUnsafeReplicaRecoveryKeyMin) then Ret (inl (Errorf "key %q does not have %q prefix" key))
  else
    let! remainder := slice_from key (len LocalStoreUnsafeReplicaRecoveryKeyMin) in
    Ret (FromBytes remainder).

Definition NodeLivenessKey (nodeID : Z) : buffer := EncodeUvarintAscending NodeLivenessPrefix (u64 nodeID).
Definition NodeStatusKey (nodeID : Z) : buffer := EncodeUvarintAscending StatusNodePrefix (u64 nodeID).

(** ** Range-ID local keys *)

Definition makePrefixWithRangeID (prefix : buffer) (rangeID : Z) (infix : buffer) : buffer :=
  EncodeUvarintAscending prefix (u64 rangeID) ++ infix.

Definition MakeRangeIDPrefix (rangeID : Z) : buffer := makePrefixWithRangeID LocalRangeIDPrefix rangeID [].
Definition MakeRangeIDReplicatedPrefix (rangeID : Z) : buffer := makePrefixWithRangeID LocalRangeIDPrefix rangeID LocalRangeIDReplicatedInfix.
Definition MakeRangeIDUnreplicatedPrefix (rangeID : Z) : buffer := makePrefixWithRangeID LocalRangeIDPrefix rangeID localRangeIDUnreplicatedInfix.

Definition makeRangeIDReplicatedKey (rangeID : Z) (suffix detail : buffer) : outcome buffer :=
  if negb (len suffix =? localSuffixLength) then Panic "suffix len(%q) != %d"
  else Ret (MakeRangeIDReplicatedPrefix rangeID ++ suffix ++ detail).

Definition makeRangeIDUnreplicatedKey (rangeID : Z) (suffix detail : buffer) : outcome buffer :=
  if negb (len suffix =? localSuffixLength) then Panic "suffix len(%q) != %d"
  else Ret (MakeRangeIDUnreplicatedPrefix rangeID ++ suffix ++ detail).

Definition DecodeRangeIDKey (key : buffer) : outcome (error + (Z * buffer * buffer * buffer)) :=
  if negb (HasPrefix key LocalRangeIDPrefix) then Ret (inl (Errorf "key %s does not have %s prefix" key))
  else
    let! b := slice_from key (len LocalRangeIDPrefix) in
    let? '(b, rangeInt) := DecodeUvarintAscending b in
    if len b <? localSuffixLength + 1 then Ret (inl (Errorf "malformed key does not contain range ID infix and suffix" []))
    else
      let! infix := slice_to b 1 in
      let! b := slice_from b 1 in
      let! suffix := slice_to b localSuffixLength in
      let! b := slice_from b localSuffixLength in
      Ret (inr (int64 rangeInt, infix, suffix, b)).

(** The methods of RangeIDPrefixBuf, and the functions that call them. *)
Definition MakeRangeIDPrefixBuf (rangeID : Z) : buffer := MakeRangeIDPrefix rangeID.
Definition replicatedPrefix (b : buffer) : buffer := b ++ LocalRangeIDReplicatedInfix.
Definition unreplicatedPrefix (b : buffer) : buffer := b ++ localRangeIDUnreplicatedInfix.

Definition RangeIDPrefixBuf_AbortSpanKey (b txnID : buffer) : outcome buffer :=
  EncodeBytesAscending (replicatedPrefix b ++ LocalAbortSpanSuffix) txnID.
Definition AbortSpanKey (rangeID : Z) (txnID : buffer) : outcome buffer := RangeIDPrefixBuf_AbortSpanKey (MakeRangeIDPrefixBuf rangeID) txnID.

Definition DecodeAbortSpanKey (key dest : buffer) : outcome (error + buffer) :=
  let? '(_, _, suffix, detail) := DecodeRangeIDKey key in
  if negb (Key_Equal suffix LocalAbortSpanSuffix) then Ret (inl (Errorf "key %s does not contain the AbortSpan suffix %s" key))
  else
    let? '(detail, idBytes) := DecodeBytesAscending detail dest in
    if len detail >? 0 then Ret (inl (Errorf "key %q has leftover bytes after decode: %s; indicates corrupt key" key))
    else Ret (FromBytes idBytes).

Definition RangeIDPrefixBuf_ReplicatedSharedLocksTransactionLatchingKey (b txnID : buffer) : outcome buffer :=
  EncodeBytesAscending (replicatedPrefix b ++ LocalReplicatedSharedLocksTransactionLatchingKeySuffix) txnID.
Definition ReplicatedSharedLocksTransactionLatchingKey (rangeID : Z) (txnID : buffer) : outcome buffer := RangeIDPrefixBuf_ReplicatedSharedLocksTransactionLatchingKey (MakeRangeIDPrefixBuf rangeID) txnID.

Definition RangeIDPrefixBuf_RangeAppliedStateKey (b : buffer) : buffer := replicatedPrefix b ++ LocalRangeAppliedStateSuffix.
Definition RangeAppliedStateKey (rangeID : Z) : buffer := RangeIDPrefixBuf_RangeAppliedStateKey (MakeRangeIDPrefixBuf rangeID).
Definition RangeIDPrefixBuf_RangeLeaseKey (b : buffer) : buffer := replicatedPrefix b ++ LocalRangeLeaseSuffix.
Definition RangeLeaseKey (rangeID : Z) : buffer := RangeIDPrefixBuf_RangeLeaseKey (MakeRangeIDPrefixBuf rangeID).
Definition RangeIDPrefixBuf_RangePriorReadSummaryKey (b : buffer) : buffer := replicatedPrefix b ++ LocalRangePriorReadSummarySuffix.
Definition RangePriorReadSummaryKey (rangeID : Z) : buffer := RangeIDPrefixBuf_RangePriorReadSummaryKey (MakeRangeIDPrefixBuf rangeID).
Definition RangeIDPrefixBuf_RangeGCThresholdKey (b : buffer) : buffer := replicatedPrefix b ++ LocalRangeGCThresholdSuffix.
Definition RangeGCThresholdKey (rangeID : Z) : buffer := RangeIDPrefixBuf_RangeGCThresholdKey (MakeRangeIDPrefixBuf rangeID).
Definition RangeIDPrefixBuf_RangeGCHintKey (b : buffer) : buffer := replicatedPrefix b ++ LocalRangeGCHintSuffix.
Definition RangeGCHintKey (rangeID : Z) : buffer := RangeIDPrefixBuf_RangeGCHintKey (MakeRangeIDPrefixBuf rangeID).
Definition RangeIDPrefixBuf_RangeVersionKey (b : buffer) : buffer := replicatedPrefix b ++ LocalRangeVersionSuffix.
Definition RangeVersionKey (rangeID : Z) : buffer := RangeIDPrefixBuf_RangeVersionKey (MakeRangeIDPrefixBuf rangeID).
Definition RangeIDPrefixBuf_MVCCRangeKeyGCKey (b : buffer) : buffer := unreplicatedPrefix b ++ LocalRangeMVCCRangeKeyGCLockSuffix.
Definition MVCCRangeKeyGCKey (rangeID : Z) : buffer := RangeIDPrefixBuf_MVCCRangeKeyGCKey (MakeRangeIDPrefixBuf rangeID).
Definition RangeIDPrefixBuf_RangeTombstoneKey (b : buffer) : buffer := unreplicatedPrefix b ++ LocalRangeTombstoneSuffix.
Definition RangeTombstoneKey (rangeID : Z) : buffer := RangeIDPrefixBuf_RangeTombstoneKey (MakeRangeIDPrefixBuf rangeID).
Definition RangeIDPrefixBuf_RaftTruncatedStateKey (b : buffer) : buffer := unreplicatedPrefix b ++ LocalRaftTruncatedStateSuffix.
Definition RaftTruncatedStateKey (rangeID : Z) : buffer := RangeIDPrefixBuf_RaftTruncatedStateKey (MakeRangeIDPrefixBuf rangeID).
Definition RangeIDPrefixBuf_RaftHardStateKey (b : buffer) : buffer := unreplicatedPrefix b ++ LocalRaftHardStateSuffix.
Definition RaftHardStateKey (rangeID : Z) : buffer := RangeIDPrefixBuf_RaftHardStateKey (MakeRangeIDPrefixBuf rangeID).
Definition RangeIDPrefixBuf_RaftReplicaIDKey (b : buffer) : buffer := unreplicatedPrefix b ++ LocalRaftReplicaIDSuffix.
Definition RaftReplicaIDKey (rangeID : Z) : buffer := RangeIDPrefixBuf_RaftReplicaIDKey (MakeRangeIDPrefixBuf rangeID).
Definition RangeIDPrefixBuf_RangeLastReplicaGCTimestampKey (b : buffer) : buffer := unreplicatedPrefix b ++ LocalRangeLastReplicaGCTimestampSuffix.
Definition RangeLastReplicaGCTimestampKey (rangeID : Z) : buffer := RangeIDPrefixBuf_RangeLastReplicaGCTimestampKey (MakeRangeIDPrefixBuf rangeID).

Definition RangeIDPrefixBuf_RaftLogPrefix (b : buffer) : buffer := unreplicatedPrefix b ++ LocalRaftLogSuffix.
Definition RaftLogPrefix (rangeID : Z) : buffer := RangeIDPrefixBuf_RaftLogPrefix (MakeRangeIDPrefixBuf rangeID).
Definition RaftLogKeyFromPrefix (raftLogPrefix : buffer) (logIndex : Z) : buffer := EncodeUint64Ascending raftLogPrefix logIndex.
Definition RangeIDPrefixBuf_RaftLogKey (b : buffer) (logIndex : Z) : buffer := RaftLogKeyFromPrefix (RangeIDPrefixBuf_RaftLogPrefix b) logIndex.
Definition RaftLogKey (rangeID logIndex : Z) : buffer := RangeIDPrefixBuf_RaftLogKey (MakeRangeIDPrefixBuf rangeID) logIndex.

Definition DecodeRaftLogKeyFromSuffix (raftLogSuffix : buffer) : outcome (error + Z) :=
  let? '(_, logIndex) := DecodeUint64Ascending raftLogSuffix in
  Ret (inr logIndex).

(** ** Range-local keys and the lock table *)

(** [extra] is only a capacity. *)
Definition makeRangeKeyPrefixWithExtraCapacity (key : buffer) (extra : Z) : outcome buffer :=
  EncodeBytesAscending LocalRangePrefix key.

Definition MakeRangeKeyPrefix (key : buffer) : outcome buffer := makeRangeKeyPrefixWithExtraCapacity key 0.

Definition MakeRangeKey (key suffix detail : buffer) : outcome buffer :=
  if negb (len suffix =? localSuffixLength) then Panic "suffix len(%q) != %d"
  else
    let! buf := makeRangeKeyPrefixWithExtraCapacity key (len suffix + len detail) in
    Ret ((buf ++ suffix) ++ detail).

Definition DecodeRangeKey (key : buffer) : outcome (error + (buffer * buffer * buffer)) :=
  if negb (HasPrefix key LocalRangePrefix) then Ret (inl (Errorf "key %q does not have %q prefix" key))
  else
    let! b := slice_from key (len LocalRangePrefix) in
    let? '(b, startKey) := DecodeBytesAscending b [] in
    if len b <? localSuffixLength then Ret (inl (Errorf "key %q does not have suffix of length %d" key))
    else
      let! suffix := slice_to b localSuffixLength in
      let! detail := slice_from b localSuffixLength in
      Ret (inr (startKey, suffix, detail)).

Definition RangeDescriptorKey (key : buffer) : outcome buffer := MakeRangeKey key LocalRangeDescriptorSuffix [].
Definition QueueLastProcessedKey (key queue : buffer) : outcome buffer := MakeRangeKey key LocalQueueLastProcessedSuffix queue.
Definition RangeProbeKey (key : buffer) : outcome buffer := MakeRangeKey key LocalRangeProbeSuffix [].

(** [buf] is scratch space that is overwritten; the key is returned twice. *)
Definition LockTableSingleKey (key : buffer) : outcome buffer :=
  EncodeBytesAscending (LocalRangeLockTablePrefix ++ LockTableSingleKeyInfix) key.

Definition LockTableSingleNextKey (key : buffer) : outcome buffer :=
  EncodeNextBytesAscending (LocalRangeLockTablePrefix ++ LockTableSingleKeyInfix) key.

Definition DecodeLockTableSingleKey (key : buffer) : outcome (error + buffer) :=
  if negb (HasPrefix key LocalRangeLockTablePrefix) then Ret (inl (Errorf "key %q does not have %q prefix" key))
  else
    let! b := slice_from key (len LocalRangeLockTablePrefix) in
    if negb (HasPrefix b LockTableSingleKeyInfix) then Ret (inl (Errorf "key %q is not for a single-key lock" key))
    else
      let! b := slice_from b (len LockTableSingleKeyInfix) in
      let? '(b, lockedKey) := DecodeBytesAscending b [] in
      if negb (len b =? 0) then Ret (inl (Errorf "key %q has left-over bytes %d after decoding" key))
      else Ret (inr lockedKey).

Definition ValidateLockTableSingleKey (key : buffer) : outcome (option error) :=
  if negb (HasPrefix key LocalRangeLockTablePrefix) then Ret (Some (Errorf "key %q does not have %q prefix" key))
  else
    let! b := slice_from key (len LocalRangeLockTablePrefix) in
    if negb (HasPrefix b LockTableSingleKeyInfix) then Ret (Some (Errorf "key %q is not for a single-key lock" key))
    else
      let! b := slice_from b (len LockTableSingleKeyInfix) in
      let! r := ValidateDecodeBytesAscending b in
      match r with
      | inl err => Ret (Some err)
      | inr b =>
        if negb (len b =? 0) then Ret (Some (Errorf "key %q has left-over bytes %d after decoding" key))
        else Ret None
      end.

(** ** Addresses *)

Definition IsLocal (k : buffer) : bool := HasPrefix k LocalPrefix.

(** The loop of Addr; every turn shortens [k]. *)
Fixpoint addr_loop (fuel : nat) (k : buffer) : outcome (error + buffer) :=
  match fuel with
  | O => Panic "out of fuel"
  | S fuel =>
    if HasPrefix k LocalStorePrefix then Ret (inl (Errorf "store-local key %q is not addressable" k))
    else if HasPrefix k LocalRangeIDPrefix then Ret (inl (Errorf "local range ID key %q is not addressable" k))
    else if negb (HasPrefix k LocalRangePrefix) then Ret (inl (Errorf "local key %q malformed; should contain prefix %q" k))
    else
      let! k := slice_from k (len LocalRangePrefix) in
      let? '(_, k) := DecodeBytesAscending k [] in
      if negb (IsLocal k) then Ret (inr k) else addr_loop fuel k
  end.

Definition Addr (k : buffer) : outcome (error + buffer) :=
  if negb (IsLocal k) then Ret (inr k) else addr_loop (S (length k)) k.

Definition MustAddr (k : buffer) : outcome buffer :=
  let! r := Addr k in
  match r with
  | inl _ => Panic "could not take address of '%s'"
  | inr rk => Ret rk
  end.

Definition TransactionKey (key txnID : buffer) : outcome buffer :=
  let! rk := MustAddr key in
  MakeRangeKey rk LocalTransactionSuffix txnID.

Definition AddrUpperBound (k : buffer) : outcome (error + buffer) :=
  let? rk := Addr k in
  if IsLocal k then
    let! p := MakeRangeKeyPrefix rk in
    if negb (Key_Equal k p) then Ret (inr (BytesNext rk)) else Ret (inr rk)
  else Ret (inr rk).

(** A span is its Key and EndKey. *)
Definition SpanAddr (span : buffer * buffer) : outcome (error + (buffer * buffer)) :=
  let? rk := Addr (fst span) in
  if len (snd span) >? 0 then
    let? rek := Addr (snd span) in
    Ret (inr (rk, rek))
  else Ret (inr (rk, [])).

(** A request as Range sees it: IsRange and the keys of its header. *)
Record request : Type := mkRequest {
  req_IsRange : bool;
  req_Key : buffer;
  req_EndKey : buffer
}.

Fixpoint range_loop (reqs : list request) (from to : buffer) : outcome (error + (buffer * buffer)) :=
  match reqs with
  | [] => Ret (inr (from, to))
  | req :: reqs =>
    if negb (req_IsRange req) && negb (len (req_EndKey req) =? 0) then
      Ret (inl (Errorf "end key specified for non-range operation: %s" []))
    else
      let? key := Addr (req_Key req) in
      let from := if Key_Less key from then key else from in
      let? to :=
        (if negb (Key_Less key to) then
           if bytes_Compare key KeyMax >? 0 then Ret (inl (Errorf "%s must be less than KeyMax" key))
           else Ret (inr (BytesNext key))
         else Ret (inr to)) in
      if len (req_EndKey req) =? 0 then range_loop reqs from to
      else
        let? endKey := AddrUpperBound (req_EndKey req) in
        if bytes_Compare KeyMax endKey <? 0 then Ret (inl (Errorf "%s must be less than or equal to KeyMax" endKey))
        else range_loop reqs from (if Key_Less to endKey then endKey else to)
  end.

Definition Range (reqs : list request) : outcome (error + (buffer * buffer)) := range_loop reqs KeyMax KeyMin.

(** ** Addressing records *)

Definition RangeMetaKey (key : buffer) : buffer :=
  match key with
  | [] => KeyMin
  | b0 :: rest =>
    if b0 =? meta1PrefixByte then KeyMin
    else if b0 =? meta2PrefixByte then Meta1Prefix ++ rest
    else Meta2Prefix ++ key
  end.

Definition UserKey (key : buffer) : buffer :=
  match key with
  | [] => Meta1Prefix
  | b0 :: rest =>
    if b0 =? meta1PrefixByte then Meta2Prefix ++ rest
    else if b0 =? meta2PrefixByte then rest
    else key
  end.

Definition InMeta1 (k : buffer) : outcome bool :=
  if Key_Equal k KeyMin then Ret true
  else let! p := MustAddr Meta1Prefix in Ret (HasPrefix k p).

Definition validateRangeMetaKey (key : buffer) : outcome (option error) :=
  if Key_Equal key KeyMin then Ret None
  else if len key <? len Meta1Prefix then Ret (Some (Errorf "too short" key))
  else
    let! prefix := slice_to key (len Meta1Prefix) in
    let! body := slice_from key (len Meta1Prefix) in
    if negb (Key_Equal prefix Meta2Prefix) && negb (Key_Equal prefix Meta1Prefix) then Ret (Some (Errorf "not a meta key" key))
    else if Key_Less KeyMax body then Ret (Some (Errorf "body of meta key range lookup is > KeyMax" key))
    else Ret None.

Definition MetaScanBounds (key : buffer) : outcome (error + (buffer * buffer)) :=
  let! err := validateRangeMetaKey key in
  match err with
  | Some e => Ret (inl e)
  | None =>
    if Key_Equal key Meta2KeyMax then Ret (inl (Errorf "Meta2KeyMax can't be used as the key of scan" key))
    else if Key_Equal key KeyMin then Ret (inr (Meta1Prefix, PrefixEnd Meta1Prefix))
    else if Key_Equal key Meta1KeyMax then Ret (inr (Meta1KeyMax, PrefixEnd Meta1Prefix))
    else
      let! prefix := slice_to key (len Meta1Prefix) in
      Ret (inr (BytesNext key, PrefixEnd prefix))
  end.

Definition MetaReverseScanBounds (key : buffer) : outcome (error + (buffer * buffer)) :=
  let! err := validateRangeMetaKey key in
  match err with
  | Some e => Ret (inl e)
  | None =>
    if Key_Equal key KeyMin || Key_Equal key Meta1Prefix then
      Ret (inl (Errorf "KeyMin and Meta1Prefix can't be used as the key of reverse scan" key))
    else if Key_Equal key Meta2Prefix then Ret (inr (Meta1Prefix, BytesNext key))
    else
      let! start := slice_to key (len Meta1Prefix) in
      Ret (inr (start, BytesNext key))
  end.

(** ** Tenants *)

(** A TenantID is its number; the zero value is not valid. *)
Definition TenantOne : Z := 1.
Definition MinTenantID : Z := 2.
Definition MaxTenantID : Z := MaxUint64 - 1.

Definition checkValid (id : Z) : option error := if id =? 0 then Some (Errorf "invalid tenant ID 0" []) else None.

Definition MakeTenantID (id : Z) : error + Z :=
  match checkValid id with
  | Some err => inl err
  | None => inr id
  end.

Definition assertValid (id : Z) : outcome unit :=
  match checkValid id with
  | Some _ => Panic "invalid tenant ID 0"
  | None => Ret ()
  end.

Definition MustMakeTenantID (id : Z) : outcome Z := let! _ := assertValid id in Ret id.
Definition ToUint64 (t : Z) : outcome Z := let! _ := assertValid t in Ret t.

Definition MakeTenantPrefix (tenID : Z) : outcome buffer :=
  if tenID =? TenantOne then Ret []
  else let! id := ToUint64 tenID in Ret (EncodeUvarintAscending TenantPrefix id).

Definition DecodeTenantPrefix (key : buffer) : outcome (error + (buffer * Z)) :=
  match key with
  | [] => Ret (inr ([], TenantOne))
  | b0 :: rest =>
    if negb (b0 =? tenantPrefixByte) then Ret (inr (key, TenantOne))
    else
      let? '(rem, tenID) := DecodeUvarintAscending rest in
      match MakeTenantID tenID with
      | inl err => Ret (inl err)
      | inr id => Ret (inr (rem, id))
      end
  end.

Definition StripTenantPrefix (key : buffer) : outcome (error + buffer) :=
  match key with
  | [] => Ret (inr [])
  | b0 :: rest =>
    if negb (b0 =? tenantPrefixByte) then Ret (inr key)
    else let? '(key, _) := DecodeUvarintAscending rest in Ret (inr key)
  end.

Definition StripTablePrefix (key : buffer) : outcome (error + buffer) :=
  let? key := StripTenantPrefix key in
  if negb (bool_decide (PeekType key = TInt)) then Ret (inl (Errorf "invalid table key prefix: %q" key))
  else let? '(key, _) := DecodeUvarintAscending key in Ret (inr key).

Definition StripIndexPrefix (key : buffer) : outcome (error + buffer) :=
  let? key := StripTablePrefix key in
  if negb (bool_decide (PeekType key = TInt)) then Ret (inl (Errorf "invalid index key prefix: %q" key))
  else let? '(key, _) := DecodeUvarintAscending key in Ret (inr key).

(** [key = key[extra:]; copy(key, prefix)], or a new slice. *)
Definition RewriteKeyToTenantPrefix (key prefix : buffer) : outcome (error + buffer) :=
  if ((len prefix =? 0) && HasPrefix key TenantPrefix) || negb (HasPrefix key prefix) then
    let? '(suffix, _) := DecodeTenantPrefix key in
    let extra := len key - len prefix - len suffix in
    if extra >=? 0 then
      let! key := slice_from key extra in
      let! tail := slice_from key (len prefix) in
      Ret (inr (prefix ++ tail))
    else Ret (inr (prefix ++ suffix))
  else Ret (inr key).

Definition RewriteSpanToTenantPrefix (sp : buffer * buffer) (prefix : buffer) : outcome (error + (buffer * buffer)) :=
  let? key := RewriteKeyToTenantPrefix (fst sp) prefix in
  let? endKey := RewriteKeyToTenantPrefix (snd sp) prefix in
  Ret (inr (key, endKey)).

(** ** SQL keys *)

Record SQLCodec : Type := mkSQLCodec {
  sql_buf : buffer;
  sql_endKey : buffer;
  sql_TenantID : Z
}.

Definition SystemSQLCodec : SQLCodec := mkSQLCodec KeyMin KeyMax TenantOne.

Definition TablePrefix (e : SQLCodec) (tableID : Z) : buffer := EncodeUvarintAscending (sql_buf e) tableID.
Definition IndexPrefix (e : SQLCodec) (tableID indexID : Z) : buffer := EncodeUvarintAscending (TablePrefix e tableID) indexID.

Definition TableDataMin : buffer := TablePrefix SystemSQLCodec 0.
Definition TableDataMax : buffer := PrefixEnd (TablePrefix SystemSQLCodec MaxUint32).

Definition MakeTenantSpan (tenID : Z) : outcome (buffer * buffer) :=
  if tenID =? TenantOne then Ret (TableDataMin, TableDataMax)
  else
    let! tenIDint := ToUint64 tenID in
    Ret (EncodeUvarintAscending TenantPrefix tenIDint, EncodeUvarintAscending TenantPrefix (tenIDint +u 1)).

Definition MakeSQLCodec (tenID : Z) : outcome SQLCodec :=
  if tenID =? TenantOne then Ret SystemSQLCodec
  else
    let! '(key, endKey) := MakeTenantSpan tenID in
    Ret (mkSQLCodec key endKey tenID).

Definition MakeTableIDIndexID (key : buffer) (tableID indexID : Z) : buffer :=
  EncodeUvarintAscending (EncodeUvarintAscending key tableID) indexID.

Definition MakeFamilyKey (key : buffer) (famID : Z) : buffer :=
  if famID =? 0 then EncodeUvarintAscending key 0
  else
    let size := len key in
    let key := EncodeUvarintAscending key famID in
    EncodeUvarintAscending key (u64 (len key - size)).

Definition DecodeTableIDIndexID (key : buffer) : outcome (error + (buffer * Z * Z)) :=
  let? '(key, tableID) := DecodeUvarintAscending key in
  let? '(key, indexID) := DecodeUvarintAscending key in
  Ret (inr (key, u32 tableID, u32 indexID)).

Definition GetRowPrefixLength (key : buffer) : outcome (error + Z) :=
  let n := len key in
  let! r := DecodeTenantPrefix key in
  match r with
  | inl _ => Ret (inl (Errorf "%s: not a valid table key" key))
  | inr (sqlKey, _) =>
    let sqlN := len sqlKey in
    if negb (bool_decide (PeekType sqlKey = TInt)) then Ret (inr n)
    else
      let? tableIDLen := GetUvarintLen sqlKey in
      let! rest := slice_from sqlKey tableIDLen in
      if negb (bool_decide (PeekType rest = TInt)) then Ret (inr n)
      else
        let? indexIDLen := GetUvarintLen rest in
        if tableIDLen + indexIDLen =? sqlN then Ret (inr n)
        else
          let! colFamIDLenByte := slice_from sqlKey (sqlN - 1) in
          if negb (bool_decide (PeekType colFamIDLenByte = TInt)) then
            Ret (inl (Errorf "%s: not a valid column family ID suffix" key))
          else
            let? '(_, colFamIDLen) := DecodeUvarintAscending colFamIDLenByte in
            if colFamIDLen >? u64 (sqlN - 1) then Ret (inl (Errorf "%s: malformed table key" key))
            else Ret (inr (n - int64 colFamIDLen - 1))
  end.

Definition EnsureSafeSplitKey (key : buffer) : outcome (error + buffer) :=
  let? idx := GetRowPrefixLength key in
  let! k := slice_to key idx in
  Ret (inr k).

Definition DecodeFamilyKey (key : buffer) : outcome (error + Z) :=
  let? n := GetRowPrefixLength key in
  if (n <=? 0) || (n >=? len key) then Ret (inl (Errorf "invalid row prefix, got prefix length %d for key %s" (n :: key)))
  else
    let! b := slice_from key n in
    let? '(_, colFamilyID) := DecodeUvarintAscending b in
    if colFamilyID >? MaxUint32 then Ret (inl (Errorf "column family ID overflow, got %d" [colFamilyID]))
    else Ret (inr (u32 colFamilyID)).

Definition DescriptorTableID : Z := 3.
Definition ZonesTableID : Z := 5.
Definition TenantsTableID : Z := 8.
Definition DescriptorTablePrimaryKeyIndexID : Z := 1.
Definition ZonesTablePrimaryIndexID : Z := 1.
Definition TenantsTablePrimaryKeyIndexID : Z := 1.
Definition DescriptorTableDescriptorColFamID : Z := 2.
Definition SequenceIndexID : Z := 1.
Definition SequenceColumnFamilyID : Z := 0.

Definition DescMetadataPrefix (e : SQLCodec) : buffer := IndexPrefix e DescriptorTableID DescriptorTablePrimaryKeyIndexID.

Definition DescMetadataKey (e : SQLCodec) (descID : Z) : buffer :=
  MakeFamilyKey (EncodeUvarintAscending (DescMetadataPrefix e) descID) DescriptorTableDescriptorColFamID.

Definition TenantMetadataKey (e : SQLCodec) (tenID : Z) : outcome buffer :=
  let k := IndexPrefix e TenantsTableID TenantsTablePrimaryKeyIndexID in
  let! id := ToUint64 tenID in
  Ret (MakeFamilyKey (EncodeUvarintAscending k id) 0).

Definition SequenceKey (e : SQLCodec) (tableID : Z) : buffer :=
  let k := IndexPrefix e tableID SequenceIndexID in
  let k := EncodeUvarintAscending k 0 in
  MakeFamilyKey k SequenceColumnFamilyID.

Definition StartupMigrationKeyPrefix (e : SQLCodec) : buffer := sql_buf e ++ StartupMigrationPrefix.

Definition sqlDecoder_StripTenantPrefix (d : SQLCodec) (key : buffer) : outcome (error + buffer) :=
  if negb (HasPrefix key (sql_buf d)) then Ret (inl (Errorf "invalid tenant id prefix: %q" key))
  else let! key := slice_from key (len (sql_buf d)) in Ret (inr key).

Definition DecodeTablePrefix (d : SQLCodec) (key : buffer) : outcome (error + (buffer * Z)) :=
  let? key := sqlDecoder_StripTenantPrefix d key in
  if negb (bool_decide (PeekType key = TInt)) then Ret (inl (Errorf "invalid key prefix: %q" key))
  else
    let? '(key, tableID) := DecodeUvarintAscending key in
    Ret (inr (key, u32 tableID)).

Definition DecodeIndexPrefix (d : SQLCodec) (key : buffer) : outcome (error + (buffer * Z * Z)) :=
  let? '(key, tableID) := DecodeTablePrefix d key in
  if negb (bool_decide (PeekType key = TInt)) then Ret (inl (Errorf "invalid key prefix: %q" key))
  else
    let? '(key, indexID) := DecodeUvarintAscending key in
    Ret (inr (key, tableID, u32 indexID)).

Definition DecodeDescMetadataID (d : SQLCodec) (key : buffer) : outcome (error + Z) :=
  let? '(remaining, tableID, _) := DecodeIndexPrefix d key in
  if negb (tableID =? DescriptorTableID) then Ret (inl (Errorf "key is not a descriptor table entry: %v" key))
  else
    let? '(_, id) := DecodeUvarintAscending remaining in
    if id >? MaxUint32 then Ret (inl (Errorf "descriptor ID %d exceeds uint32 bounds" [id]))
    else Ret (inr (u32 id)).

Definition DecodeTenantMetadataID (d : SQLCodec) (key : buffer) : outcome (error + Z) :=
  let? '(remaining, tableID, indexID) := DecodeIndexPrefix d key in
  if negb (tableID =? TenantsTableID) || negb (indexID =? TenantsTablePrimaryKeyIndexID) then
    Ret (inl (Errorf "key is not a tenant table entry: %v" key))
  else
    let? '(_, id) := DecodeUvarintAscending remaining in
    let! t := MustMakeTenantID id in
    Ret (inr t).

Definition DecodeZoneConfigMetadataID (d : SQLCodec) (key : buffer) : outcome (error + (buffer * Z)) :=
  let? '(remaining, tableID, indexID) := DecodeIndexPrefix d key in
  if negb (tableID =? ZonesTableID) || negb (indexID =? ZonesTablePrimaryIndexID) then
    Ret (inl (Errorf "key is not a zones table entry: %v" key))
  else
    let? '(remaining, id) := DecodeUvarintAscending remaining in
    Ret (inr (remaining, u32 id)).
