(* ===== verification/KeysOrder.v ===== *)
(** * The order of keys and the spans of prefixes

    bytes.Compare is a total order, Key.Next is the immediate successor and PrefixEnd
    the first key after a prefix; the keys built from ordered encodings stay in the
    span of their prefix and are decoded from it. *)

From Stdlib Require OrdersTac.
From S2P Require Import Prelude Hlc Encoding EncodingOrder EncodingBytes EncodingSafe Keys.

(** ** bytes.Compare *)

Lemma bytes_lt_irrefl k : ~ bytes_lt k k.
Proof. induction k as [|x k IH]; cbn; [tauto|]. intros [H|[_ H]]; [lia|done]. Qed.

Lemma bytes_lt_trans k l m : bytes_lt k l -> bytes_lt l m -> bytes_lt k m.
Proof.
  revert l m. induction k as [|x k IH]; intros [|y l] [|z m]; cbn; try done.
  intros [H1|[-> H1]] [H2|[-> H2]]; [left; lia|by left|by left|]. right. split; [done|]. by apply IH with l.
Qed.

Lemma bytes_lt_total k l : bytes_lt k l \/ k = l \/ bytes_lt l k.
Proof.
  revert l. induction k as [|x k IH]; intros [|y l]; cbn; [auto|auto|auto|].
  destruct (Z.lt_total x y) as [H|[->|H]]; [by left; left| |by right; right; left].
  destruct (IH l) as [H|[->|H]]; [by left; right|by right; left|by right; right; right].
Qed.

(** The order as a total order, and the tactic that decides it. *)
Definition bytes_le (k l : buffer) : Prop := ~ bytes_lt l k.

Module KeyOrder.

Definition t : Type := buffer.
Definition eq : buffer -> buffer -> Prop := @Logic.eq buffer.
Definition lt : buffer -> buffer -> Prop := bytes_lt.
Definition le : buffer -> buffer -> Prop := bytes_le.

Lemma eq_equiv : Equivalence eq.
Proof. apply eq_equivalence. Qed.

Lemma lt_strorder : StrictOrder lt.
Proof. split; [exact bytes_lt_irrefl|exact bytes_lt_trans]. Qed.

Lemma lt_compat : Proper (eq ==> eq ==> iff) lt.
Proof. intros k k' -> l l' ->. done. Qed.

Lemma lt_total k l : lt k l \/ eq k l \/ lt l k.
Proof. apply bytes_lt_total. Qed.

Lemma le_lteq k l : le k l <-> lt k l \/ eq k l.
Proof.
  unfold le, lt, eq, bytes_le. destruct (bytes_lt_total k l) as [H|[->|H]]; split; auto.
  - intros _ L. by apply (bytes_lt_irrefl _ (bytes_lt_trans _ _ _ H L)).
  - intros _. apply bytes_lt_irrefl.
  - done.
  - intros [L| ->] _; [by apply (bytes_lt_irrefl _ (bytes_lt_trans _ _ _ H L))|by apply bytes_lt_irrefl in H].
Qed.

End KeyOrder.

Module KeyTac := OrdersTac.MakeOrderTac KeyOrder KeyOrder.

Ltac key_order :=
  change bytes_lt with KeyOrder.lt in *; change bytes_le with KeyOrder.le in *;
  change (@Logic.eq buffer) with KeyOrder.eq in *; KeyTac.order.

Lemma bytes_le_refl k : bytes_le k k.
Proof. key_order. Qed.

Lemma bytes_le_trans k l m : bytes_le k l -> bytes_le l m -> bytes_le k m.
Proof. key_order. Qed.

Lemma bytes_lt_le k l : bytes_lt k l -> bytes_le k l.
Proof. key_order. Qed.

Lemma bytes_lt_le_trans k l m : bytes_lt k l -> bytes_le l m -> bytes_lt k m.
Proof. key_order. Qed.

Lemma bytes_Compare_spec k l :
  (bytes_Compare k l < 0 <-> bytes_lt k l) /\ (bytes_Compare k l = 0 <-> k = l) /\ (bytes_Compare k l > 0 <-> bytes_lt l k).
Proof.
  revert l. induction k as [|x k IH]; intros [|y l]; cbn [bytes_Compare bytes_lt]; try (split_and!; split; intros; (done || lia)).
  destruct (x <? y) eqn:E; [|destruct (y <? x) eqn:F]; bool_to_prop.
  - split_and!; split; intros H; try lia; simplify_eq; lia.
  - split_and!; split; intros H; try lia; simplify_eq; lia.
  - assert (x = y) as -> by lia. specialize (IH l) as (H1 & H2 & H3). rewrite H1, H2, H3.
    split_and!; (split; [intros H; by (subst || right)|]); [intros [H|[_ H]]; [lia|done]|by intros [=]|intros [H|[_ H]]; [lia|done]].
Qed.

Lemma Key_Less_spec k l : Key_Less k l = true <-> bytes_lt k l.
Proof. unfold Key_Less. rewrite Z.ltb_lt. apply bytes_Compare_spec. Qed.

Lemma bytes_lt_prefix p k l : bytes_lt (p ++ k) (p ++ l) <-> bytes_lt k l.
Proof. induction p as [|x p IH]; cbn; [done|]. rewrite IH. split; [intros [H|[_ H]]; [lia|done]|by right]. Qed.

Lemma bytes_lt_nil_r k : ~ bytes_lt k [].
Proof. destruct k; cbn; tauto. Qed.

Lemma bytes_lt_extend k x l : bytes_lt k (k ++ x :: l).
Proof. rewrite <- (app_nil_r k) at 1. by rewrite bytes_lt_prefix. Qed.

#[global] Instance bytes_lt_dec k l : Decision (bytes_lt k l).
Proof. refine (cast_if (decide (bytes_Compare k l < 0))); by rewrite <- (proj1 (bytes_Compare_spec k l)). Defined.

#[global] Instance bytes_le_dec k l : Decision (bytes_le k l).
Proof. unfold bytes_le. apply _. Defined.

(** ** Next *)

(** The key after [k]: no key lies between them. *)
Lemma BytesNext_spec k m : Forall is_byte m -> bytes_lt k m <-> m = BytesNext k \/ bytes_lt (BytesNext k) m.
Proof.
  intros Hm. unfold BytesNext. split.
  - revert m Hm. induction k as [|x k IH]; intros m Hm H; destruct Hm as [|y m Hy Hm]; try done; cbn in *.
    + destruct (decide (y = 0)) as [->|N]; [|right; left; unfold is_byte in Hy; lia]. destruct m as [|z m]; [by left|]. right. by right.
    + destruct H as [H|[-> H]]; [by right; left|]. destruct (IH m Hm H) as [->|H']; [by left|]. right. by right.
  - intros [->|H]; [apply bytes_lt_extend|]. apply bytes_lt_trans with (k ++ [0]); [apply bytes_lt_extend|done].
Qed.

Lemma Key_IsPrev_spec k m : Key_IsPrev k m = Ret (Key_Equal (BytesNext k) m).
Proof.
  unfold Key_IsPrev, BytesNext, Key_Equal. destruct (decide (len m - 1 = len k)) as [E|N].
  - rewrite (proj2 (Z.eqb_eq _ _)) by done. destruct (split_at m (len k)) as (pre & last & -> & Hlen); [pose proof (len_nonneg k); lia|].
    rewrite len_app in E. destruct last as [|c [|d last]]; [change (len []) with 0 in E; lia| |rewrite !len_cons in E; pose proof (len_nonneg last); lia].
    rewrite len_app. change (len [c]) with 1. replace (len pre + 1 - 1) with (len pre) by lia.
    unfold slice_get. rewrite bool_decide_eq_true_2 by apply len_nonneg. replace (Z.to_nat (len pre)) with (length pre + 0)%nat by (unfold len; lia).
    rewrite lookup_app_r by lia. replace (length pre + 0 - length pre)%nat with 0%nat by lia. cbn [lookup list_lookup obind].
    destruct (c =? 0) eqn:Ec; bool_to_prop.
    + subst c. rewrite slice_to_app by done. cbn [obind]. f_equal. apply bool_decide_ext. split; [by intros ->|]. by apply app_inv_tail.
    + f_equal. symmetry. apply bool_decide_eq_false. intros H. apply app_inj_tail in H as [_ H]. congruence.
  - rewrite (proj2 (Z.eqb_neq _ _)) by done. f_equal. symmetry. apply bool_decide_eq_false. intros <-. apply N. rewrite len_app. change (len [0]) with 1. lia.
Qed.

(** ** Prefixes *)

Lemma HasPrefix_spec b p : HasPrefix b p = true <-> exists r, b = p ++ r.
Proof.
  revert b. induction p as [|x p IH]; intros b; [split; [by exists b|by destruct b]|].
  destruct b as [|y b]; cbn; [split; [done|by intros [r [=]]]|]. rewrite andb_true_iff, Z.eqb_eq, IH.
  split; [intros [-> [r ->]]; by exists r|]. intros [r [= -> ->]]. split; [done|]. by exists r.
Qed.

Lemma HasPrefix_app p r : HasPrefix (p ++ r) p = true.
Proof. apply HasPrefix_spec. by exists r. Qed.

(** The prefix has a last byte that can be incremented, which PrefixEnd does; what
    follows it is 0xff. *)
Lemma prefix_end_loop_spec r :
  Forall is_byte r ->
  match prefix_end_loop r with
  | Some e => exists n x pre, r = replicate n 255 ++ x :: pre /\ 0 <= x < 255 /\ e = reverse pre ++ [x + 1]
  | None => r = replicate (length r) 255
  end.
Proof.
  intros H. induction H as [|x r Hx H IH]; [done|]. cbn [prefix_end_loop]. unfold is_byte, byte_of in *.
  destruct (decide (x = 255)) as [->|N].
  - change ((255 + 1) mod 256 =? 0) with true. cbn [negb]. destruct (prefix_end_loop r) as [e|].
    + destruct IH as (n & y & pre & -> & Hy & ->). by exists (S n), y, pre.
    + cbn. by rewrite <- IH.
  - rewrite Z.mod_small by lia. rewrite (proj2 (Z.eqb_neq _ 0)) by lia. cbn [negb]. exists 0%nat, x, r. split; [done|]. split; [lia|].
    by rewrite reverse_cons.
Qed.

Lemma PrefixEnd_split b :
  Forall is_byte b -> b <> replicate (length b) 255 ->
  exists pre x n, b = pre ++ x :: replicate n 255 /\ 0 <= x < 255 /\ PrefixEnd b = pre ++ [x + 1].
Proof.
  intros Hb Hn. unfold PrefixEnd. destruct (len b =? 0) eqn:E; bool_to_prop; [by destruct b|].
  pose proof (prefix_end_loop_spec (reverse b) ltac:(by apply Forall_reverse)) as H. destruct (prefix_end_loop (reverse b)) as [e|].
  - destruct H as (n & x & pre & Hr & Hx & ->). exists (reverse pre), x, n. split; [|done].
    rewrite <- (reverse_involutive b), Hr, reverse_app, reverse_cons, <- (assoc_L (++)). cbn. by rewrite reverse_replicate.
  - exfalso. apply Hn. rewrite <- (reverse_involutive b), H at 1. by rewrite reverse_replicate, length_reverse.
Qed.

Lemma not_lt_replicate n k : Forall is_byte k -> ~ bytes_lt k (replicate n 255) -> exists r, k = replicate n 255 ++ r.
Proof.
  intros H. revert n. induction H as [|x k Hx H IH]; intros n Hn.
  - destruct n as [|n]; [by exists []|]. cbn in Hn. tauto.
  - destruct n as [|n]; [by exists (x :: k)|]. cbn in *. unfold is_byte in Hx. destruct (decide (x = 255)) as [->|N]; [|lia].
    destruct (IH n) as [r ->]; [intros H'; apply Hn; by right|]. by exists r.
Qed.

(** The keys with a prefix are the keys of the span that ends with PrefixEnd. *)
Lemma PrefixEnd_span b k :
  Forall is_byte b -> b <> replicate (length b) 255 -> Forall is_byte k ->
  HasPrefix k b = true <-> ~ bytes_lt k b /\ bytes_lt k (PrefixEnd b).
Proof.
  intros Hb Hn Hk. destruct (PrefixEnd_split b Hb Hn) as (pre & x & n & -> & Hx & ->). rewrite HasPrefix_spec. clear Hb Hn. split.
  - intros [r ->]. rewrite <- (assoc_L (++)). split.
    + rewrite bytes_lt_prefix. cbn. intros [H|[_ H]]; [lia|]. revert H. clear. destruct r as [|y r].
      * rewrite app_nil_r. apply bytes_lt_irrefl.
      * intros H. apply (bytes_lt_irrefl (replicate n 255)). apply bytes_lt_trans with (replicate n 255 ++ y :: r); [apply bytes_lt_extend|done].
    + rewrite bytes_lt_prefix. cbn. left. lia.
  - revert k Hk. induction pre as [|p pre IH]; intros k Hk [Hge Hlt]; cbn [app bytes_lt] in *.
    + destruct k as [|y k]; [tauto|]. apply Forall_cons in Hk as [Hy Hk]. destruct Hlt as [Hlt|[_ []%bytes_lt_nil_r]].
      assert (y = x) as -> by (destruct (decide (y < x)) as [L|]; [destruct Hge; by left|lia]).
      destruct (not_lt_replicate n k Hk) as [r ->]; [intros H; apply Hge; by right|]. by exists r.
    + destruct k as [|y k]; [tauto|]. apply Forall_cons in Hk as [Hy Hk]. destruct Hlt as [Hlt|[-> Hlt]]; [destruct Hge; by left|].
      destruct (IH k Hk) as [r ->]; [split; [intros H; apply Hge; by right|done]|]. by exists r.
Qed.
