(* ===== verification/KeysSpec.v ===== *)
(** * What keys promise

    Range-ID local keys, range-local keys and their addresses, lock table keys, the keys
    of SQL rows and the key spaces of tenants: how they sort, which spans hold them and
    how they are decoded. *)

From S2P Require Import Prelude Hlc Encoding EncodingOrder EncodingBytes EncodingSafe Keys KeysOrder.

(** ** Decoding a string is canonical *)

Lemma DecodeBytesAscending_inv b rest v : DecodeBytesAscending b [] = Ret (inr (rest, v)) -> b = bytes_code v ++ rest.
Proof.
  unfold DecodeBytesAscending, decodeBytesInternal, bytes_code. destruct b as [|t b]; [done|]. rewrite tag_len. cbn [lookup list_lookup].
  destruct (bool_decide _) eqn:E; [|done]. bool_to_prop. injection E as ->. cbn [orb negb]. rewrite tag_from. cbn [obind]. intros D.
  destruct (decode_loop_local ascendingBytesEscapes (S (length b)) b [] ascendingBytesEscapes_ok ltac:(lia)) as [[err H]|(data & rest' & ->)]; [congruence|].
  rewrite decode_loop_terminated in D; [|apply ascendingBytesEscapes_ok|rewrite length_app; pose proof (terminated_length ascendingBytesEscapes data); lia].
  apply Ret_inj in D. injection D as -> ->. done.
Qed.

Lemma DecodeBytesAscending_shorter b rest v : DecodeBytesAscending b [] = Ret (inr (rest, v)) -> (length v < length b)%nat.
Proof.
  intros H. apply DecodeBytesAscending_inv in H as ->. unfold bytes_code. cbn [length]. rewrite length_app.
  pose proof (terminated_length ascendingBytesEscapes v). cbn. lia.
Qed.

Lemma DecodeBytesAscending_total b : exists r, DecodeBytesAscending b [] = Ret r.
Proof.
  unfold DecodeBytesAscending, decodeBytesInternal. destruct b as [|t b]; [by eexists|]. rewrite tag_len. destruct (negb _); [by eexists|]. cbn [orb].
  rewrite tag_from. cbn [obind].
  destruct (decode_loop_local ascendingBytesEscapes (S (length b)) b [] ascendingBytesEscapes_ok ltac:(lia)) as [[err ->]|(data & rest & ->)]; [by eexists|].
  eexists. apply decode_loop_terminated; [apply ascendingBytesEscapes_ok|]. rewrite length_app. pose proof (terminated_length ascendingBytesEscapes data). lia.
Qed.

(** ** Range-ID local keys *)

(** The numbers of ranges. *)
Definition is_RangeID (r : Z) : Prop := 0 <= r <= MaxInt64.

Lemma RangeID_u64 r : is_RangeID r -> is_u64 r.
Proof. unfold is_RangeID, is_u64, MaxInt64, u64_modulus. lia. Qed.

Lemma RangeID_conv r : is_RangeID r -> u64 r = r /\ int64 r = r.
Proof. intros H. split; [by apply u64_small, RangeID_u64|]. apply int64_small. unfold is_RangeID in H. lia. Qed.

Lemma MakeRangeIDPrefix_eq r : is_RangeID r -> MakeRangeIDPrefix r = LocalRangeIDPrefix ++ uvarint_code r.
Proof.
  intros H. unfold MakeRangeIDPrefix, makePrefixWithRangeID. destruct (RangeID_conv r H) as [-> _].
  rewrite EncodeUvarintAscending_eq by apply H. by rewrite app_nil_r.
Qed.

Lemma MakeRangeIDInfix_eq r infix : is_RangeID r -> makePrefixWithRangeID LocalRangeIDPrefix r infix = LocalRangeIDPrefix ++ uvarint_code r ++ infix.
Proof.
  intros H. unfold makePrefixWithRangeID. destruct (RangeID_conv r H) as [-> _].
  rewrite EncodeUvarintAscending_eq by apply H. by rewrite (assoc_L (++)).
Qed.

Lemma DecodeRangeIDKey_eq r infix suffix detail :
  is_RangeID r -> len infix = 1 -> len suffix = localSuffixLength ->
  DecodeRangeIDKey (LocalRangeIDPrefix ++ uvarint_code r ++ infix ++ suffix ++ detail) = Ret (inr (r, infix, suffix, detail)).
Proof.
  intros Hr Hi Hs. unfold DecodeRangeIDKey. rewrite HasPrefix_app. cbn [negb]. rewrite slice_from_app by done. cbn [obind].
  rewrite (DecodeUvarintAscending_code r) by by apply RangeID_u64. cbn [ebind obind]. rewrite !len_app, Hi, Hs. change localSuffixLength with 4 in *.
  pose proof (len_nonneg detail). decide_cmp. rewrite slice_to_app by done. cbn [obind]. rewrite slice_from_app by done. cbn [obind].
  rewrite slice_to_app by done. cbn [obind]. rewrite slice_from_app by done. cbn [obind]. by destruct (RangeID_conv r Hr) as [_ ->].
Qed.

(** Keys of two ranges agree on a prefix only when the ranges are the same. *)
Lemma uvarint_prefix_inj v w x y : is_u64 v -> is_u64 w -> uvarint_code v ++ x = uvarint_code w ++ y -> v = w /\ x = y.
Proof.
  intros Hv Hw E. pose proof (DecodeUvarintAscending_code v x Hv) as D. rewrite E, DecodeUvarintAscending_code in D by done.
  apply Ret_inj in D. by injection D as -> ->.
Qed.

(** [k] is in the span of the prefix [p], from [p] to [p.PrefixEnd()]. *)
Definition in_prefix_span (k p : buffer) : Prop := ~ bytes_lt k p /\ bytes_lt k (PrefixEnd p).

Lemma in_prefix_span_spec k p b :
  Forall is_byte k -> Forall is_byte p -> head p = Some b -> b < 255 -> in_prefix_span k p <-> exists r, k = p ++ r.
Proof.
  intros Hk Hp Hh Hb. unfold in_prefix_span. rewrite <- PrefixEnd_span; [apply HasPrefix_spec|done| |done].
  destruct p as [|c p]; [done|]. injection Hh as ->. cbn. intros [= H]. lia.
Qed.

Lemma bytes_lt_u64_suffix p i j : is_u64 i -> is_u64 j -> i < j -> bytes_lt (p ++ be 8 i) (p ++ be 8 j).
Proof.
  intros Hi Hj H. apply bytes_lt_prefix. rewrite <- (app_nil_r (be 8 i)), <- (app_nil_r (be 8 j)).
  by apply precedes_lt, (oc_order (OrderedCodec := Uint64Ascending_codec)).
Qed.

Lemma RaftLogPrefix_eq r : is_RangeID r -> RaftLogPrefix r = LocalRangeIDPrefix ++ uvarint_code r ++ localRangeIDUnreplicatedInfix ++ LocalRaftLogSuffix.
Proof. intros H. unfold RaftLogPrefix, RangeIDPrefixBuf_RaftLogPrefix, unreplicatedPrefix, MakeRangeIDPrefixBuf. rewrite MakeRangeIDPrefix_eq by done. by rewrite <- !(assoc_L (++)). Qed.

Lemma RaftLogKey_eq r i : is_RangeID r -> RaftLogKey r i = LocalRangeIDPrefix ++ uvarint_code r ++ localRangeIDUnreplicatedInfix ++ LocalRaftLogSuffix ++ be 8 i.
Proof.
  intros H. unfold RaftLogKey, RangeIDPrefixBuf_RaftLogKey, RaftLogKeyFromPrefix. fold (RaftLogPrefix r). change (EncodeUint64Ascending (RaftLogPrefix r) i) with (RaftLogPrefix r ++ be 8 i).
  rewrite RaftLogPrefix_eq by done. by rewrite <- !(assoc_L (++)).
Qed.

Lemma RaftLogPrefix_bytes r : is_RangeID r -> Forall is_byte (RaftLogPrefix r).
Proof.
  intros H. rewrite RaftLogPrefix_eq by done. apply Forall_app. split; [by repeat constructor|]. apply Forall_app.
  split; [by apply uvarint_code_bytes, RangeID_u64|by repeat constructor].
Qed.

(** The keys of the raft log of range [r] among all range-ID local keys. *)
Lemma raft_log_span r r' infix suffix detail :
  is_RangeID r -> is_RangeID r' -> len infix = 1 -> len suffix = localSuffixLength ->
  Forall is_byte (infix ++ suffix ++ detail) ->
  in_prefix_span (LocalRangeIDPrefix ++ uvarint_code r' ++ infix ++ suffix ++ detail) (RaftLogPrefix r) <->
  r' = r /\ infix = localRangeIDUnreplicatedInfix /\ suffix = LocalRaftLogSuffix.
Proof.
  intros Hr Hr' Hi Hs Hb. pose proof (RaftLogPrefix_bytes r Hr) as Hp. rewrite RaftLogPrefix_eq in * by done.
  rewrite (in_prefix_span_spec _ _ 1); [|repeat (apply Forall_cons; split; [done|]); apply Forall_app; split; [by apply uvarint_code_bytes, RangeID_u64|done]|done..].
  split.
  - intros [t E]. rewrite <- !(assoc_L (++)) in E. apply app_inv_head in E.
    apply uvarint_prefix_inj in E as [-> E]; [|by apply RangeID_u64..].
    apply app_inj_1 in E as [-> E]; [|unfold len in Hi; cbn; lia]. apply app_inj_1 in E as [-> _]; [done|]. change (length LocalRaftLogSuffix) with 4%nat. unfold len in Hs. change localSuffixLength with 4 in Hs. lia.
  - intros (-> & -> & ->). exists detail. by rewrite <- !(assoc_L (++)).
Qed.

(** ** Addresses *)

(** With enough fuel the loop returns, an error or a key that is not local, and the
    result does not depend on the fuel. *)
Lemma addr_loop_total k fuel :
  (length k < fuel)%nat ->
  exists r, (forall fuel', (length k < fuel')%nat -> addr_loop fuel' k = Ret r) /\ match r with inl _ => True | inr rk => IsLocal rk = false end.
Proof.
  revert k. induction fuel as [|fuel IH]; intros k Hf; [lia|].
  destruct (HasPrefix k LocalStorePrefix) eqn:E1; [eexists; split; [intros [|f] Hf'; [lia|cbn [addr_loop]; by rewrite E1]|done]|].
  destruct (HasPrefix k LocalRangeIDPrefix) eqn:E2; [eexists; split; [intros [|f] Hf'; [lia|cbn [addr_loop]; by rewrite E1, E2]|done]|].
  destruct (HasPrefix k LocalRangePrefix) eqn:E3; [|eexists; split; [intros [|f] Hf'; [lia|cbn [addr_loop]; by rewrite E1, E2, E3]|done]].
  pose proof E3 as [b ->]%HasPrefix_spec. rewrite length_app in Hf.
  destruct (DecodeBytesAscending_total b) as [[err|[rest k']] D].
  { exists (inl err). split; [|done]. intros [|f] Hf'; [lia|]. cbn [addr_loop]. rewrite E1, E2, E3. cbn [negb]. rewrite slice_from_app by done. cbn [obind]. by rewrite D. }
  pose proof (DecodeBytesAscending_shorter b rest k' D) as Hl. change (length LocalRangePrefix) with 2%nat in Hf. destruct (IsLocal k') eqn:Ek.
  - destruct (IH k' ltac:(lia)) as (r & Hr & Hlocal). exists r. split; [|done]. intros [|f] Hf'; [lia|]. cbn [addr_loop].
    rewrite length_app in Hf'. change (length LocalRangePrefix) with 2%nat in Hf'.
    rewrite E1, E2, E3. cbn [negb]. rewrite slice_from_app by done. cbn [obind]. rewrite D. cbn [ebind obind]. rewrite Ek. apply Hr. lia.
  - exists (inr k'). split; [|done]. intros [|f] Hf'; [lia|]. cbn [addr_loop].
    rewrite E1, E2, E3. cbn [negb]. rewrite slice_from_app by done. cbn [obind]. rewrite D. cbn [ebind obind]. by rewrite Ek.
Qed.

Lemma Addr_total k : exists r, Addr k = Ret r /\ match r with inl _ => True | inr rk => IsLocal rk = false end.
Proof.
  unfold Addr. destruct (IsLocal k) eqn:E; cbn [negb]; [|by eexists]. destruct (addr_loop_total k (S (length k)) ltac:(lia)) as (r & Hr & Hl).
  exists r. split; [|done]. apply Hr. lia.
Qed.

Lemma addr_loop_Addr k fuel : IsLocal k = true -> (length k < fuel)%nat -> addr_loop fuel k = Addr k.
Proof.
  intros E Hf. unfold Addr. rewrite E. cbn [negb]. destruct (addr_loop_total k fuel Hf) as (r & Hr & _). rewrite !Hr by lia. done.
Qed.

(** A range-local key has the address of the key it is built from. *)
Lemma Addr_range_local k0 tail : Forall is_byte k0 -> Addr (LocalRangePrefix ++ bytes_code k0 ++ tail) = Addr k0.
Proof.
  intros Hk. set (k := LocalRangePrefix ++ bytes_code k0 ++ tail). unfold Addr at 1. change (IsLocal k) with true. cbn [negb].
  cbn [addr_loop]. change (HasPrefix k LocalStorePrefix) with false. change (HasPrefix k LocalRangeIDPrefix) with false.
  change (HasPrefix k LocalRangePrefix) with true. cbn [negb]. assert (slice_from k (len LocalRangePrefix) = Ret (bytes_code k0 ++ tail)) as -> by by apply slice_from_app.
  cbn [obind].
  rewrite (oc_decode (OrderedCodec := BytesAscending_codec) k0 tail Hk). cbn [ebind obind]. unfold k. destruct (IsLocal k0) eqn:E; cbn [negb].
  - apply addr_loop_Addr; [done|]. rewrite !length_app. unfold bytes_code. cbn [length]. pose proof (terminated_length ascendingBytesEscapes k0). lia.
  - unfold Addr. by rewrite E.
Qed.

Lemma MakeRangeKey_eq key suffix detail :
  len suffix = localSuffixLength -> MakeRangeKey key suffix detail = Ret (LocalRangePrefix ++ bytes_code key ++ suffix ++ detail).
Proof.
  intros Hs. unfold MakeRangeKey, makeRangeKeyPrefixWithExtraCapacity. rewrite (proj2 (Z.eqb_eq _ _)) by done. cbn [negb].
  rewrite EncodeBytesAscending_eq. cbn [obind]. by rewrite <- !(assoc_L (++)).
Qed.

Lemma DecodeRangeKey_eq key suffix detail :
  Forall is_byte key -> len suffix = localSuffixLength ->
  DecodeRangeKey (LocalRangePrefix ++ bytes_code key ++ suffix ++ detail) = Ret (inr (key, suffix, detail)).
Proof.
  intros Hk Hs. unfold DecodeRangeKey. rewrite HasPrefix_app. cbn [negb]. rewrite slice_from_app by done. cbn [obind].
  rewrite (oc_decode (OrderedCodec := BytesAscending_codec) key _ Hk). cbn [ebind obind]. rewrite len_app, Hs. pose proof (len_nonneg detail).
  change localSuffixLength with 4 in *. decide_cmp. rewrite slice_to_app by done. cbn [obind]. rewrite slice_from_app by done. done.
Qed.

(** Range-local keys sort like the keys they are built from. *)
Lemma range_local_order p k l t u :
  Forall is_byte k -> Forall is_byte l -> bytes_lt k l -> bytes_lt (p ++ bytes_code k ++ t) (p ++ bytes_code l ++ u).
Proof. intros Hk Hl H. apply bytes_lt_prefix, precedes_lt. by apply (oc_order (OrderedCodec := BytesAscending_codec)). Qed.

(** ** Lock table keys *)

Definition lockPrefix : buffer := LocalRangeLockTablePrefix ++ LockTableSingleKeyInfix.

Lemma LockTableSingleKey_eq k : LockTableSingleKey k = Ret (lockPrefix ++ bytes_code k).
Proof. apply EncodeBytesAscending_eq. Qed.

Lemma LockTableSingleNextKey_eq k : LockTableSingleNextKey k = LockTableSingleKey (BytesNext k).
Proof. rewrite LockTableSingleKey_eq. apply EncodeNextBytesAscending_eq. Qed.

Lemma DecodeLockTableSingleKey_spec key k :
  Forall is_byte k -> DecodeLockTableSingleKey key = Ret (inr k) <-> LockTableSingleKey k = Ret key.
Proof.
  intros Hk. rewrite LockTableSingleKey_eq. unfold DecodeLockTableSingleKey. split.
  - destruct (HasPrefix key LocalRangeLockTablePrefix) eqn:E; [|done]. apply HasPrefix_spec in E as [b ->]. cbn [negb].
    rewrite slice_from_app by done. cbn [obind]. destruct (HasPrefix b LockTableSingleKeyInfix) eqn:E; [|done]. apply HasPrefix_spec in E as [c ->]. cbn [negb].
    rewrite slice_from_app by done. cbn [obind]. destruct (DecodeBytesAscending_total c) as [[err|[rest v]] D]; rewrite D; cbn [ebind obind]; [done|].
    destruct (len rest =? 0) eqn:L; cbn [negb]; [|done]. intros H. apply Ret_inj in H. injection H as ->. apply DecodeBytesAscending_inv in D as ->.
    destruct rest; [|done]. unfold lockPrefix. by rewrite app_nil_r, <- (assoc_L (++)).
  - intros H. apply Ret_inj in H. subst key. unfold lockPrefix. rewrite <- (assoc_L (++)), HasPrefix_app. cbn [negb].
    rewrite slice_from_app by done. cbn [obind]. rewrite HasPrefix_app. cbn [negb]. rewrite slice_from_app by done. cbn [obind].
    pose proof (oc_decode (OrderedCodec := BytesAscending_codec) k [] Hk) as D. rewrite app_nil_r in D. by rewrite D.
Qed.

Lemma ValidateLockTableSingleKey_spec key :
  ValidateLockTableSingleKey key = Ret None <-> exists k, DecodeLockTableSingleKey key = Ret (inr k).
Proof.
  unfold ValidateLockTableSingleKey, DecodeLockTableSingleKey. destruct (HasPrefix key LocalRangeLockTablePrefix) eqn:E; cbn [negb]; [|split; [done|by intros [k H]]].
  apply HasPrefix_spec in E as [b ->]. rewrite slice_from_app by done. cbn [obind].
  destruct (HasPrefix b LockTableSingleKeyInfix) eqn:E; cbn [negb]; [|split; [done|by intros [k H]]].
  apply HasPrefix_spec in E as [c ->]. rewrite slice_from_app by done. cbn [obind]. rewrite ValidateDecodeBytesAscending_eq.
  destruct (DecodeBytesAscending_total c) as [[err|[rest v]] D]; rewrite D; cbn [ebind obind]; [split; [done|by intros [k H]]|].
  destruct (len rest =? 0); cbn [negb]; [|split; [done|by intros [k H]]]. split; [by exists v|done].
Qed.

(** ** Tenants *)

Definition is_tenant (t : Z) : Prop := 0 < t < u64_modulus.

Definition tenant_prefix (t : Z) : buffer := if t =? 1 then [] else TenantPrefix ++ uvarint_code t.

Lemma tenant_u64 t : is_tenant t -> is_u64 t.
Proof. unfold is_tenant, is_u64. lia. Qed.

Lemma ToUint64_eq t : is_tenant t -> ToUint64 t = Ret t.
Proof. intros H. unfold ToUint64, assertValid, checkValid. rewrite (proj2 (Z.eqb_neq _ _)) by (unfold is_tenant in H; lia). done. Qed.

Lemma MakeTenantPrefix_eq t : is_tenant t -> MakeTenantPrefix t = Ret (tenant_prefix t).
Proof.
  intros H. unfold MakeTenantPrefix, tenant_prefix. change TenantOne with 1. destruct (t =? 1); [done|].
  rewrite ToUint64_eq by done. cbn [obind]. rewrite EncodeUvarintAscending_eq by apply tenant_u64, H. done.
Qed.

Lemma DecodeTenantPrefix_eq t s :
  is_tenant t -> (t = 1 -> head s <> Some tenantPrefixByte) -> DecodeTenantPrefix (tenant_prefix t ++ s) = Ret (inr (s, t)).
Proof.
  intros Ht Hs. unfold DecodeTenantPrefix, tenant_prefix. destruct (t =? 1) eqn:E; bool_to_prop.
  - subst t. destruct s as [|c s]; [done|]. cbn [app]. rewrite (proj2 (Z.eqb_neq _ _)); [done|]. intros ->. by apply Hs.
  - change ((TenantPrefix ++ uvarint_code t) ++ s) with (tenantPrefixByte :: uvarint_code t ++ s). cbv beta iota. rewrite Z.eqb_refl. cbn [negb].
    rewrite DecodeUvarintAscending_code by by apply tenant_u64. cbn [ebind obind]. unfold MakeTenantID, checkValid.
    rewrite (proj2 (Z.eqb_neq _ 0)) by (unfold is_tenant in Ht; lia). done.
Qed.

(** ** SQL rows *)

Definition is_u32 (v : Z) : Prop := 0 <= v <= MaxUint32.

Lemma u32_u64 v : is_u32 v -> is_u64 v.
Proof. unfold is_u32, is_u64, MaxUint32, u64_modulus. lia. Qed.

Lemma uvarint_code_head v : is_u64 v -> exists t l, uvarint_code v = t :: l /\ 136 <= t <= 253 /\ Forall is_byte (t :: l).
Proof.
  intros Hv. pose proof (uvarint_code_bytes v Hv) as Hb. pose proof (nbytes_spec v Hv) as (Hn & _). unfold uvarint_code in *. unfold is_u64 in Hv.
  destruct (v <=? 109) eqn:E; bool_to_prop; do 2 eexists; (split; [done|]; split; [lia|done]).
Qed.

Lemma PeekType_uvarint v rest : is_u64 v -> PeekType (uvarint_code v ++ rest) = TInt.
Proof.
  intros Hv. destruct (uvarint_code_head v Hv) as (t & l & -> & Ht & Hb). apply Forall_cons in Hb as [Hb _].
  cbn [app]. apply PeekType_Int; [done|]. change IntMin with 128. change IntMax with 253. lia.
Qed.

(** The suffix that MakeFamilyKey appends. *)
Definition family_suffix (fam : Z) : buffer :=
  if fam =? 0 then [136] else uvarint_code fam ++ [136 + len (uvarint_code fam)].

Lemma u32_code_len v : is_u32 v -> 1 <= len (uvarint_code v) <= 5.
Proof.
  intros Hv. rewrite uvarint_code_len by by apply u32_u64. unfold EncodedLengthUvarintAscending. unfold is_u32, MaxUint32 in Hv.
  change intSmall with 109. repeat case_match; bool_to_prop; lia.
Qed.

Lemma MakeFamilyKey_eq row fam : is_u32 fam -> MakeFamilyKey row fam = row ++ family_suffix fam.
Proof.
  intros Hf. pose proof (u32_code_len fam Hf) as Hl. unfold MakeFamilyKey, family_suffix. destruct (fam =? 0); [done|].
  rewrite (EncodeUvarintAscending_eq row fam), len_app by apply Hf. replace (len row + len (uvarint_code fam) - len row) with (len (uvarint_code fam)) by lia.
  rewrite u64_small by (unfold is_u64, u64_modulus; lia). rewrite EncodeUvarintAscending_eq by lia. rewrite <- (assoc_L (++)). f_equal. f_equal.
  unfold uvarint_code at 1. rewrite (proj2 (Z.leb_le _ _)) by lia. done.
Qed.

(** The last byte of a row's key says how many bytes of family ID precede it. *)
Lemma GetRowPrefixLength_eq t tab idx body n :
  is_tenant t -> is_u64 tab -> is_u64 idx -> 0 <= n <= 109 -> n <= len body ->
  len (tenant_prefix t ++ uvarint_code tab ++ uvarint_code idx ++ body ++ [136 + n]) <= MaxInt64 ->
  GetRowPrefixLength (tenant_prefix t ++ uvarint_code tab ++ uvarint_code idx ++ body ++ [136 + n]) =
    Ret (inr (len (tenant_prefix t ++ uvarint_code tab ++ uvarint_code idx ++ body) - n)).
Proof.
  intros Ht Htab Hidx Hn Hle Hmax. unfold GetRowPrefixLength. rewrite DecodeTenantPrefix_eq; [|done|].
  2:{ intros _. destruct (uvarint_code_head tab Htab) as (c & l & -> & Hc & _). intros [= ->]. change tenantPrefixByte with 254 in Hc. lia. }
  cbn [obind]. rewrite bool_decide_eq_true_2 by by apply PeekType_uvarint. cbn [negb]. rewrite GetUvarintLen_code by done. cbn [ebind obind].
  rewrite slice_from_app by done. cbn [obind]. rewrite bool_decide_eq_true_2 by by apply PeekType_uvarint. cbn [negb].
  rewrite GetUvarintLen_code by done. cbn [ebind obind]. pose proof (len_nonneg body).
  rewrite (proj2 (Z.eqb_neq _ _)) by (rewrite !len_app; change (len [136 + n]) with 1; lia).
  replace (uvarint_code tab ++ uvarint_code idx ++ body ++ [136 + n]) with ((uvarint_code tab ++ uvarint_code idx ++ body) ++ [136 + n]) in * by by rewrite <- !(assoc_L (++)).
  set (sql := uvarint_code tab ++ uvarint_code idx ++ body) in *. rewrite !len_app in *. change (len [136 + n]) with 1 in *.
  rewrite slice_from_app by lia. cbn [obind].
  assert (uvarint_code n = [136 + n]) as En by (unfold uvarint_code; by rewrite (proj2 (Z.leb_le _ _)) by lia).
  assert (is_u64 n) as Hu by (unfold is_u64, u64_modulus; lia).
  rewrite bool_decide_eq_true_2 by (rewrite <- En, <- (app_nil_r (uvarint_code n)); by apply PeekType_uvarint). cbn [negb].
  pose proof (DecodeUvarintAscending_code n [] Hu) as D. rewrite app_nil_r, En in D. rewrite D. cbn [ebind obind].
  assert (n <= len sql) as Hsql by (unfold sql; rewrite !len_app; pose proof (len_nonneg (uvarint_code tab)); pose proof (len_nonneg (uvarint_code idx)); lia).
  pose proof (len_nonneg (tenant_prefix t)). unfold MaxInt64 in Hmax.
  rewrite u64_small by (unfold is_u64, u64_modulus; lia). decide_cmp. rewrite int64_small by (unfold MaxInt64; lia). do 2 f_equal. lia.
Qed.

Lemma GetRowPrefixLength_family t tab idx cols fam :
  is_tenant t -> is_u64 tab -> is_u64 idx -> is_u32 fam ->
  let row := tenant_prefix t ++ uvarint_code tab ++ uvarint_code idx ++ cols in
  len (row ++ family_suffix fam) <= MaxInt64 -> GetRowPrefixLength (row ++ family_suffix fam) = Ret (inr (len row)).
Proof.
  intros Ht Htab Hidx Hf row Hmax. subst row. unfold family_suffix in *. destruct (fam =? 0).
  - change 136 with (136 + 0) in *. rewrite <- !(assoc_L (++)) in *. rewrite GetRowPrefixLength_eq; (done || pose proof (len_nonneg cols); try lia).
    do 2 f_equal. lia.
  - pose proof (u32_code_len fam Hf). pose proof (len_nonneg cols). set (n := len (uvarint_code fam)) in *.
    assert ((tenant_prefix t ++ uvarint_code tab ++ uvarint_code idx ++ cols) ++ uvarint_code fam ++ [136 + n] =
            tenant_prefix t ++ uvarint_code tab ++ uvarint_code idx ++ (cols ++ uvarint_code fam) ++ [136 + n]) as E by by rewrite <- !(assoc_L (++)).
    rewrite E in *. rewrite GetRowPrefixLength_eq by (done || (rewrite ?len_app; lia)). do 2 f_equal. rewrite !len_app. lia.
Qed.

Lemma MakeSQLCodec_buf t codec : is_tenant t -> MakeSQLCodec t = Ret codec -> sql_buf codec = tenant_prefix t.
Proof.
  intros Ht. unfold MakeSQLCodec, MakeTenantSpan, tenant_prefix. change TenantOne with 1. destruct (t =? 1) eqn:E; [by intros [= <-]|].
  rewrite ToUint64_eq by done. cbn [obind]. intros [= <-]. cbn. by rewrite EncodeUvarintAscending_eq by apply tenant_u64, Ht.
Qed.

Lemma family_suffix_order fam fam' : is_u32 fam -> is_u32 fam' -> fam < fam' -> bytes_lt (family_suffix fam) (family_suffix fam').
Proof.
  intros Hf Hf' H. unfold family_suffix. assert (fam' <> 0) as N by (unfold is_u32 in *; lia). rewrite (proj2 (Z.eqb_neq _ _) N).
  destruct (fam =? 0) eqn:E; bool_to_prop.
  - subst fam. unfold uvarint_code. pose proof (nbytes_spec fam' (u32_u64 _ Hf')) as (Hn & _). destruct (fam' <=? 109) eqn:E; bool_to_prop; left; lia.
  - apply precedes_lt, uvarint_code_order; [by apply u32_u64..|done].
Qed.

(** ** Spans of tenants *)

Definition in_span (k : buffer) (sp : buffer * buffer) : Prop := ~ bytes_lt k (fst sp) /\ bytes_lt k (snd sp).

Definition tenant_start (t : Z) : buffer := TenantPrefix ++ uvarint_code t.

Lemma MakeTenantSpan_eq t :
  2 <= t <= MaxTenantID -> MakeTenantSpan t = Ret (tenant_start t, tenant_start (t + 1)).
Proof.
  intros Ht. unfold MakeTenantSpan, MaxTenantID, MaxUint64 in *. change TenantOne with 1. rewrite (proj2 (Z.eqb_neq _ _)) by lia.
  rewrite ToUint64_eq by (unfold is_tenant, u64_modulus; lia). cbn [obind]. rewrite u64_small by (unfold is_u64, u64_modulus; lia).
  rewrite !EncodeUvarintAscending_eq by lia. done.
Qed.

Lemma tenant_start_order t u r s : is_u64 t -> is_u64 u -> t < u -> bytes_lt (tenant_start t ++ r) (tenant_start u ++ s).
Proof.
  intros Ht Hu H. unfold tenant_start. rewrite <- !(assoc_L (++)). by apply bytes_lt_prefix, precedes_lt, uvarint_code_order.
Qed.

(** A key that starts with a tenant's prefix is in the tenant's span and in no other. *)
Lemma tenant_span_unique t u r :
  2 <= t <= MaxTenantID -> 2 <= u <= MaxTenantID -> in_span (tenant_start t ++ r) (tenant_start u, tenant_start (u + 1)) <-> u = t.
Proof.
  intros Ht Hu. unfold MaxTenantID, MaxUint64 in *. assert (forall v, 2 <= v <= 18446744073709551615 -> is_u64 v) as Hv by (unfold is_u64, u64_modulus; lia).
  unfold in_span. cbn [fst snd]. rewrite <- (app_nil_r (tenant_start u)), <- (app_nil_r (tenant_start (u + 1))). split.
  - intros [Hge Hlt]. destruct (Z.lt_total u t) as [L|[E|G]]; [exfalso|done|exfalso].
    + destruct (decide (u + 1 = t)) as [<-|N].
      * rewrite bytes_lt_prefix in Hlt. by apply bytes_lt_nil_r in Hlt.
      * apply (bytes_lt_irrefl (tenant_start t ++ r)). eapply bytes_lt_trans; [exact Hlt|]. apply tenant_start_order; (apply Hv || idtac); lia.
    + apply Hge, tenant_start_order; (apply Hv || idtac); lia.
  - intros ->. split; [rewrite bytes_lt_prefix; apply bytes_lt_nil_r|]. apply tenant_start_order; (apply Hv || idtac); lia.
Qed.

Lemma system_span : MakeTenantSpan 1 = Ret ([136], [250]).
Proof. by vm_compute. Qed.

Lemma u32_code_first v : is_u32 v -> exists t l, uvarint_code v = t :: l /\ 136 <= t <= 249.
Proof.
  intros Hv. unfold uvarint_code. pose proof (u32_code_len v Hv) as Hl. unfold uvarint_code in Hl. unfold is_u32, MaxUint32 in Hv.
  destruct (v <=? 109) eqn:E; bool_to_prop; do 2 eexists; (split; [done|]); [lia|]. rewrite len_cons, be_len in Hl. lia.
Qed.

(** The keys of the system tenant's tables. *)
Lemma system_key_span tab r u sp :
  is_u32 tab -> 1 <= u <= MaxTenantID -> MakeTenantSpan u = Ret sp -> in_span (uvarint_code tab ++ r) sp <-> u = 1.
Proof.
  intros Htab Hu Hsp. destruct (u32_code_first tab Htab) as (c & l & -> & Hc). destruct (decide (u = 1)) as [->|N].
  - rewrite system_span in Hsp. injection Hsp as <-. unfold in_span. cbn. split; [done|]. intros _. split; [|left; lia].
    intros [H|[_ H]]; [lia|]. by apply bytes_lt_nil_r in H.
  - rewrite MakeTenantSpan_eq in Hsp by lia. injection Hsp as <-. unfold in_span, tenant_start. cbn. split; [|done].
    intros [H _]. exfalso. apply H. left. change tenantPrefixByte with 254. lia.
Qed.

(** Rewriting a key to another tenant replaces the prefix and nothing else. *)
Lemma RewriteKeyToTenantPrefix_eq t u s :
  is_tenant t -> is_tenant u -> head s <> Some tenantPrefixByte ->
  RewriteKeyToTenantPrefix (tenant_prefix t ++ s) (tenant_prefix u) = Ret (inr (tenant_prefix u ++ s)).
Proof.
  intros Ht Hu Hs. unfold RewriteKeyToTenantPrefix. destruct (_ || _) eqn:E.
  - rewrite DecodeTenantPrefix_eq by done. cbn [ebind obind]. destruct (_ >=? 0) eqn:F; [|done]. bool_to_prop. rewrite len_app in *.
    destruct (split_at (tenant_prefix t) (len (tenant_prefix t) - len (tenant_prefix u))) as (p & q & Epq & Hp); [pose proof (len_nonneg (tenant_prefix u)); lia|].
    replace (len (tenant_prefix t) + len s - len (tenant_prefix u) - len s) with (len p) by lia. rewrite Epq, <- (assoc_L (++)) in *.
    rewrite slice_from_app by done. cbn [obind]. rewrite len_app in Hp. rewrite slice_from_app by lia. done.
  - apply orb_false_iff in E as [E1 E2]. apply negb_false_iff in E2. f_equal. f_equal. apply HasPrefix_spec in E2 as [r Er].
    unfold tenant_prefix in *. destruct (t =? 1) eqn:Et, (u =? 1) eqn:Eu; bool_to_prop; subst; try done.
    + cbn [app] in Er. subst s. by destruct Hs.
    + rewrite <- !(assoc_L (++)) in *. apply app_inv_head, uvarint_prefix_inj in Er as [-> _]; [done|by apply tenant_u64..].
Qed.

(** ** Round trips *)

Lemma DecodeStoreKey_eq suffix detail : len suffix = localSuffixLength -> DecodeStoreKey (MakeStoreKey suffix detail) = Ret (inr (suffix, detail)).
Proof.
  intros Hs. unfold DecodeStoreKey, MakeStoreKey. rewrite HasPrefix_app. cbn [negb]. rewrite slice_from_app by done. cbn [obind].
  rewrite len_app, Hs. pose proof (len_nonneg detail). change localSuffixLength with 4 in *. decide_cmp.
  rewrite slice_to_app by done. cbn [obind]. rewrite slice_from_app by done. done.
Qed.

Lemma NodeTombstoneKey_roundtrip n : 0 <= n <= MaxInt32 -> DecodeNodeTombstoneKey (StoreNodeTombstoneKey n) = Ret (inr n).
Proof.
  intros Hn. unfold DecodeNodeTombstoneKey, StoreNodeTombstoneKey, MaxInt32 in *. rewrite DecodeStoreKey_eq by done. cbn [ebind obind].
  change (Key_Equal _ _) with true. cbn [negb]. unfold u32. rewrite Z.mod_small by lia. change (EncodeUint32Ascending [] n) with (be 4 n).
  pose proof (oc_decode (OrderedCodec := Uint32Ascending_codec) n [] ltac:(cbn; lia)) as D. rewrite app_nil_r in D. rewrite D. cbn [ebind obind].
  change (len []) with 0. cbn [Z.eqb negb]. by rewrite int32_small by (unfold MaxInt32; lia).
Qed.

Lemma StoreCachedSettingsKey_roundtrip s k : Forall is_byte s -> StoreCachedSettingsKey s = Ret k -> DecodeStoreCachedSettingsKey k = Ret (inr s).
Proof.
  intros Hs. unfold StoreCachedSettingsKey, DecodeStoreCachedSettingsKey. rewrite EncodeBytesAscending_eq. cbn [obind app]. intros E. apply Ret_inj in E. subst k.
  rewrite DecodeStoreKey_eq by done. cbn [ebind obind]. change (Key_Equal _ _) with true. cbn [negb].
  pose proof (oc_decode (OrderedCodec := BytesAscending_codec) s [] Hs) as D. rewrite app_nil_r in D. by rewrite D.
Qed.

Lemma StoreUnsafeReplicaRecoveryKey_roundtrip u : len u = 16 -> DecodeStoreUnsafeReplicaRecoveryKey (StoreUnsafeReplicaRecoveryKey u) = Ret (inr u).
Proof.
  intros Hu. unfold DecodeStoreUnsafeReplicaRecoveryKey, StoreUnsafeReplicaRecoveryKey. rewrite HasPrefix_app. cbn [negb].
  rewrite slice_from_app by done. cbn [obind]. unfold FromBytes. by rewrite Hu.
Qed.

Lemma AbortSpanKey_roundtrip r u k :
  is_RangeID r -> Forall is_byte u -> len u = 16 -> AbortSpanKey r u = Ret k -> DecodeAbortSpanKey k [] = Ret (inr u).
Proof.
  intros Hr Hb Hu. unfold AbortSpanKey, RangeIDPrefixBuf_AbortSpanKey, replicatedPrefix, MakeRangeIDPrefixBuf. rewrite EncodeBytesAscending_eq, MakeRangeIDPrefix_eq by done.
  intros E. apply Ret_inj in E. subst k. unfold DecodeAbortSpanKey. rewrite <- !(assoc_L (++)), DecodeRangeIDKey_eq by done. cbn [ebind obind].
  change (Key_Equal _ _) with true. cbn [negb]. pose proof (oc_decode (OrderedCodec := BytesAscending_codec) u [] Hb) as D. rewrite app_nil_r in D.
  rewrite D. cbn [ebind obind]. change (len [] >? 0) with false. unfold FromBytes. by rewrite Hu.
Qed.

(** The prefix of a table and an index, in the decoder of the same tenant. *)
Lemma DecodeIndexPrefix_eq d tab idx rest :
  is_u32 tab -> is_u32 idx -> DecodeIndexPrefix d (IndexPrefix d tab idx ++ rest) = Ret (inr (rest, tab, idx)).
Proof.
  intros Ht Hi. unfold DecodeIndexPrefix, DecodeTablePrefix, sqlDecoder_StripTenantPrefix, IndexPrefix, TablePrefix.
  rewrite !EncodeUvarintAscending_eq, <- !(assoc_L (++)) by (apply Ht || apply Hi). rewrite HasPrefix_app. cbn [negb]. rewrite slice_from_app by done. cbn [ebind obind].
  rewrite bool_decide_eq_true_2 by by apply PeekType_uvarint, u32_u64. cbn [negb]. rewrite DecodeUvarintAscending_code by by apply u32_u64. cbn [ebind obind].
  rewrite bool_decide_eq_true_2 by by apply PeekType_uvarint, u32_u64. cbn [negb]. rewrite DecodeUvarintAscending_code by by apply u32_u64. cbn [ebind obind].
  unfold u32, is_u32, MaxUint32 in *. by rewrite !Z.mod_small by lia.
Qed.

Lemma DescMetadataKey_roundtrip d id : is_u32 id -> DecodeDescMetadataID d (DescMetadataKey d id) = Ret (inr id).
Proof.
  intros Hid. unfold DecodeDescMetadataID, DescMetadataKey, DescMetadataPrefix. rewrite MakeFamilyKey_eq by done.
  rewrite EncodeUvarintAscending_eq, <- (assoc_L (++)), DecodeIndexPrefix_eq by (done || apply Hid). cbn [ebind obind]. change (DescriptorTableID =? DescriptorTableID) with true.
  cbn [negb]. rewrite DecodeUvarintAscending_code by by apply u32_u64. cbn [ebind obind]. unfold u32, is_u32, MaxUint32 in *. decide_cmp. by rewrite Z.mod_small by lia.
Qed.

(** The decoder of tenant records panics on a record key with the invalid ID 0. *)
Lemma TenantMetadataKey_roundtrip d t k : is_tenant t -> TenantMetadataKey d t = Ret k -> DecodeTenantMetadataID d k = Ret (inr t).
Proof.
  intros Ht. unfold TenantMetadataKey, DecodeTenantMetadataID. rewrite ToUint64_eq by done. cbn [obind]. intros E. apply Ret_inj in E. subst k.
  rewrite MakeFamilyKey_eq by done. rewrite EncodeUvarintAscending_eq, <- (assoc_L (++)), DecodeIndexPrefix_eq by (done || apply tenant_u64, Ht). cbn [ebind obind].
  change (_ || _) with false. cbv iota. rewrite DecodeUvarintAscending_code by by apply tenant_u64. cbn [ebind obind]. unfold MustMakeTenantID.
  fold (ToUint64 t). rewrite ToUint64_eq by done. done.
Qed.

Lemma DecodeTenantMetadataID_zero_panics :
  DecodeTenantMetadataID SystemSQLCodec (MakeFamilyKey (EncodeUvarintAscending (IndexPrefix SystemSQLCodec TenantsTableID TenantsTablePrimaryKeyIndexID) 0) 0) =
  Panic "invalid tenant ID 0".
Proof. by vm_compute. Qed.

(** ** Addressing records *)

Lemma UserKey_RangeMetaKey b k : b <> meta1PrefixByte -> UserKey (RangeMetaKey (b :: k)) = b :: k.
Proof.
  intros N. cbn [RangeMetaKey]. rewrite (proj2 (Z.eqb_neq _ _) N). destruct (b =? meta2PrefixByte) eqn:E; bool_to_prop; [by subst b|]. done.
Qed.

(** Above the local keys, records sort like the keys they address. *)
Lemma RangeMetaKey_order b k c l :
  meta1PrefixByte < b -> meta1PrefixByte < c -> bytes_lt (b :: k) (c :: l) -> bytes_lt (RangeMetaKey (b :: k)) (RangeMetaKey (c :: l)).
Proof.
  intros Hb Hc H. cbn [RangeMetaKey]. change meta1PrefixByte with 2 in *. change meta2PrefixByte with 3.
  rewrite !(proj2 (Z.eqb_neq _ 2)) by lia. cbn in H. destruct (b =? 3) eqn:E, (c =? 3) eqn:F; bool_to_prop; subst; cbn; unfold meta1PrefixByte, LocalMaxByte, meta2PrefixByte.
  - right. split; [done|]. destruct H as [H|[_ H]]; [lia|done].
  - left. lia.
  - lia.
  - right. by split.
Qed.

(** The scan for the record of a key covers what follows the key in its level. *)
Lemma MetaScanBounds_spec p body :
  Forall is_byte (p :: body) -> p = meta1PrefixByte \/ p = meta2PrefixByte -> ~ bytes_lt KeyMax body ->
  p :: body <> Meta1KeyMax -> p :: body <> Meta2KeyMax ->
  exists sp, MetaScanBounds (p :: body) = Ret (inr sp) /\
    forall k, Forall is_byte k -> in_span k sp <-> (exists r, k = p :: r) /\ bytes_lt (p :: body) k.
Proof.
  intros Hb Hp Hmax N1 N2. exists (BytesNext (p :: body), PrefixEnd [p]). split.
  - unfold MetaScanBounds, validateRangeMetaKey, Key_Equal. change (len Meta1Prefix) with 1. rewrite (bool_decide_eq_false_2 (p :: body = KeyMin)) by done.
    rewrite len_cons. pose proof (len_nonneg body). decide_cmp. rewrite (slice_to_app [p] body 1 eq_refl : slice_to (p :: body) 1 = Ret [p]). rewrite tag_from. cbn [obind].
    assert (negb (bool_decide ([p] = Meta2Prefix)) && negb (bool_decide ([p] = Meta1Prefix)) = false) as -> by (destruct Hp as [-> | ->]; done).
    assert (Key_Less KeyMax body = false) as -> by (apply not_true_iff_false; by rewrite Key_Less_spec). cbn [obind]. by rewrite !bool_decide_eq_false_2.
  - intros k Hk. assert (Forall is_byte [p]) as Hp1 by (apply Forall_cons in Hb as [Hb _]; by constructor).
    assert (p < 255) as Hlt by (destruct Hp as [-> | ->]; done).
    pose proof (in_prefix_span_spec k [p] p Hk Hp1 eq_refl Hlt) as Hs. unfold in_prefix_span in Hs. unfold in_span. cbn [fst snd].
    rewrite (BytesNext_spec (p :: body) k Hk). cbn [app] in Hs. rewrite <- Hs. split.
    + intros [H1 H2]. assert (~ bytes_lt k [p]) as Hge.
      { intros H. apply H1. apply bytes_lt_trans with [p]; [done|]. unfold BytesNext. cbn [app]. destruct body; [by right|by right]. }
      split; [done|]. destruct (bytes_lt_total k (BytesNext (p :: body))) as [?|[->|?]]; [done|by left|by right].
    + intros [[_ H2] H3]. split; [|done]. intros H. destruct H3 as [->|H3]; [by apply bytes_lt_irrefl in H|by apply (bytes_lt_irrefl _ (bytes_lt_trans _ _ _ H H3))].
Qed.

(** ** The span of a batch *)

(** A request lies in [from, to). *)
Definition covered (req : request) (from to : buffer) : Prop :=
  exists k, Addr (req_Key req) = Ret (inr k) /\ bytes_le from k /\ bytes_lt k to /\
    (req_EndKey req <> [] -> exists ek, AddrUpperBound (req_EndKey req) = Ret (inr ek) /\ bytes_le ek to).

Lemma min_key_le k from : let m := if Key_Less k from then k else from in bytes_le m k /\ bytes_le m from.
Proof.
  cbn. destruct (Key_Less k from) eqn:E.
  - apply Key_Less_spec in E. split; [apply bytes_le_refl|by apply bytes_lt_le].
  - split; [|apply bytes_le_refl]. intros H. apply Key_Less_spec in H. congruence.
Qed.

Lemma max_key_le k to : let m := if Key_Less to k then k else to in bytes_le k m /\ bytes_le to m.
Proof.
  cbn. destruct (Key_Less to k) eqn:E.
  - apply Key_Less_spec in E. split; [apply bytes_le_refl|by apply bytes_lt_le].
  - split; [|apply bytes_le_refl]. intros H. apply Key_Less_spec in H. congruence.
Qed.

Lemma covered_weaken req from to from' to' : covered req from to -> bytes_le from' from -> bytes_le to to' -> covered req from' to'.
Proof.
  intros (k & Hk & H1 & H2 & H3) Hf Ht. exists k. split; [done|]. split; [by apply bytes_le_trans with from|]. split; [by apply bytes_lt_le_trans with to|].
  intros N. destruct (H3 N) as (ek & Hek & Hle). exists ek. split; [done|]. by apply bytes_le_trans with to.
Qed.

(** One request: what the rest of the loop starts from. *)
Lemma range_loop_cons req reqs from to r :
  range_loop (req :: reqs) from to = Ret (inr r) ->
  exists from' to', range_loop reqs from' to' = Ret (inr r) /\ covered req from' to' /\ bytes_le from' from /\ bytes_le to to'.
Proof.
  cbn [range_loop]. destruct (_ && _); [done|]. destruct (Addr (req_Key req)) as [[err|k]|] eqn:Ek; cbn [ebind obind]; [done| |done].
  destruct (min_key_le k from) as [Hm1 Hm2]. set (from' := if Key_Less k from then k else from) in *.
  set (m := if negb (Key_Less k to) then _ else _). intros H.
  assert (exists to1, m = Ret (inr to1) /\ bytes_lt k to1 /\ bytes_le to to1) as (to1 & Em & Hlt & Hle).
  { unfold m in *. destruct (Key_Less k to) eqn:E; cbn [negb] in *; [exists to; split; [done|]; split; [by apply Key_Less_spec|apply bytes_le_refl]|].
    destruct (_ >? 0); [done|]. eexists. split; [done|]. split; [apply bytes_lt_extend|]. intros L. apply not_true_iff_false in E.
    apply E, Key_Less_spec. destruct (bytes_lt_total k to) as [?|[->|G]]; [done| |]; exfalso;
      [by apply (bytes_lt_irrefl _ (bytes_lt_trans _ _ _ L (bytes_lt_extend to 0 [])))|].
    by apply (bytes_lt_irrefl _ (bytes_lt_trans _ _ _ (bytes_lt_trans _ _ _ G (bytes_lt_extend k 0 [])) L)). }
  rewrite Em in H. cbn [ebind obind] in H. destruct (len (req_EndKey req) =? 0) eqn:E0.
  - exists from', to1. split_and!; try done. exists k. split_and!; try done. intros N. destruct (req_EndKey req); [done|]. done.
  - destruct (AddrUpperBound (req_EndKey req)) as [[err|ek]|] eqn:Eu; cbn [ebind obind] in H; [done| |done]. destruct (_ <? 0); [done|].
    destruct (max_key_le ek to1) as [H1 H2]. eexists _, _. split; [exact H|]. split_and!; [|done|by apply bytes_le_trans with to1].
    exists k. split_and!; [done|done|by apply bytes_lt_le_trans with to1|]. intros _. by exists ek.
Qed.

Lemma range_loop_covers reqs from to from' to' :
  range_loop reqs from to = Ret (inr (from', to')) ->
  (forall req, req ∈ reqs -> covered req from' to') /\ bytes_le from' from /\ bytes_le to to'.
Proof.
  revert from to. induction reqs as [|req reqs IH]; intros from to H.
  - injection H as -> ->. split; [by intros req ?%elem_of_nil|]. split; apply bytes_le_refl.
  - apply range_loop_cons in H as (f & t & H & Hc & Hf & Ht). destruct (IH f t H) as (H1 & H2 & H3).
    split; [|by split; eapply bytes_le_trans]. intros q Hq. apply elem_of_cons in Hq as [->|Hq]; [by apply covered_weaken with f t|by apply H1].
Qed.

Lemma Range_covers reqs from to req : Range reqs = Ret (inr (from, to)) -> req ∈ reqs -> covered req from to.
Proof. intros H Hq. by apply (range_loop_covers reqs KeyMax KeyMin). Qed.

(** * The claims *)

(** The keys of raft logs sort by range and then by index, the key of an entry
    decodes to its range and index, and the span of the log prefix of a range holds
    exactly the log keys of that range among all unreplicated keys, and no replicated
    one. *)
Theorem raft_log_keys r r' i i' suffix detail ku kr :
  is_RangeID r -> is_RangeID r' -> is_u64 i -> is_u64 i' -> Forall is_byte (suffix ++ detail) ->
  makeRangeIDUnreplicatedKey r' suffix detail = Ret ku -> makeRangeIDReplicatedKey r' suffix detail = Ret kr ->
  (r < r' \/ (r = r' /\ i < i') -> bytes_lt (RaftLogKey r i) (RaftLogKey r' i')) /\
  (exists d, DecodeRangeIDKey (RaftLogKey r i) = Ret (inr (r, localRangeIDUnreplicatedInfix, LocalRaftLogSuffix, d)) /\
             DecodeRaftLogKeyFromSuffix d = Ret (inr i)) /\
  (in_prefix_span (RaftLogKey r' i') (RaftLogPrefix r) <-> r' = r) /\
  (in_prefix_span ku (RaftLogPrefix r) <-> r' = r /\ suffix = LocalRaftLogSuffix) /\
  ~ in_prefix_span kr (RaftLogPrefix r).
Proof.
  intros Hr Hr' Hi Hi' Hb Eu Er. unfold makeRangeIDUnreplicatedKey, makeRangeIDReplicatedKey in *. destruct (len suffix =? localSuffixLength) eqn:Hs; [|done].
  bool_to_prop. cbn [negb] in *. injection Eu as <-. injection Er as <-. unfold MakeRangeIDUnreplicatedPrefix, MakeRangeIDReplicatedPrefix.
  rewrite !MakeRangeIDInfix_eq, !RaftLogKey_eq, <- !(assoc_L (++)) by done. split_and!.
  - intros [H|[<- H]]; [by apply bytes_lt_prefix, precedes_lt, uvarint_code_order; [apply RangeID_u64..|]|].
    rewrite !(assoc_L (++)). by apply bytes_lt_u64_suffix.
  - exists (be 8 i). split; [by apply DecodeRangeIDKey_eq|]. unfold DecodeRaftLogKeyFromSuffix. pose proof (oc_decode (OrderedCodec := Uint64Ascending_codec) i [] Hi) as D.
    rewrite app_nil_r in D. by rewrite D.
  - rewrite raft_log_span; [|done..|]; [split; [by intros (-> & _)|by intros ->]|]. repeat (apply Forall_cons; split; [done|]). apply be_bytes.
  - rewrite raft_log_span; [|done..|by apply Forall_cons]. split; [by intros (-> & _ & ->)|by intros [-> ->]].
  - rewrite raft_log_span; [|done..|by apply Forall_cons]. by intros (_ & [=] & _).
Qed.

Lemma raft_log_keys_witness :
  bytes_lt (RaftLogKey 7 300) (RaftLogKey 1000 2) /\ (in_prefix_span (RaftLogKey 1000 2) (RaftLogPrefix 7) <-> 1000 = 7) /\
  ~ in_prefix_span (MakeRangeIDReplicatedPrefix 1000 ++ LocalRaftLogSuffix ++ [5]) (RaftLogPrefix 7).
Proof.
  destruct (raft_log_keys 7 1000 300 2 LocalRaftLogSuffix [5] (MakeRangeIDUnreplicatedPrefix 1000 ++ LocalRaftLogSuffix ++ [5])
    (MakeRangeIDReplicatedPrefix 1000 ++ LocalRaftLogSuffix ++ [5])) as (H1 & _ & H2 & _ & H3); try done.
  - by repeat constructor.
  - split; [apply H1; by left|]. done.
Defined.

(** A range-local key has the address of the key it is built from, also when that
    key is local itself; for a key that is not local this is the key, the exclusive
    upper bound is the key's successor, and the parts are decoded from the key.
    Resolving an address always returns: an error, or a key that is not local.
    Store-local and range-ID local keys have no address. *)
Theorem addresses key suffix detail k :
  Forall is_byte key -> MakeRangeKey key suffix detail = Ret k ->
  Addr k = Addr key /\ DecodeRangeKey k = Ret (inr (key, suffix, detail)) /\
  (IsLocal key = false -> Addr k = Ret (inr key) /\ AddrUpperBound k = Ret (inr (BytesNext key))) /\
  (forall k', exists r, Addr k' = Ret r /\ match r with inl _ => True | inr rk => IsLocal rk = false end) /\
  (forall s d, exists err, Addr (MakeStoreKey s d) = Ret (inl err)) /\
  (forall r s, is_RangeID r -> exists err, Addr (MakeRangeIDPrefix r ++ s) = Ret (inl err)).
Proof.
  intros Hk E. assert (len suffix = localSuffixLength) as Hs.
  { unfold MakeRangeKey in E. destruct (len suffix =? localSuffixLength) eqn:Hs; [|done]. by bool_to_prop. }
  rewrite MakeRangeKey_eq in E by done. apply Ret_inj in E. subst k.
  assert (IsLocal key = false -> Addr (LocalRangePrefix ++ bytes_code key ++ suffix ++ detail) = Ret (inr key)) as HA.
  { intros L. rewrite Addr_range_local by done. unfold Addr. by rewrite L. }
  split_and!.
  - by apply Addr_range_local.
  - by apply DecodeRangeKey_eq.
  - intros L. split; [by apply HA|]. unfold AddrUpperBound. rewrite HA by done. cbn [ebind obind]. change (IsLocal (LocalRangePrefix ++ _)) with true.
    unfold MakeRangeKeyPrefix, makeRangeKeyPrefixWithExtraCapacity. rewrite EncodeBytesAscending_eq. cbn [obind]. unfold Key_Equal.
    rewrite bool_decide_eq_false_2; [done|]. intros F. apply app_inv_head in F. rewrite <- (app_nil_r (bytes_code key)) in F at 2. apply app_inv_head in F.
    destruct suffix; [done|]. done.
  - apply Addr_total.
  - intros s d. unfold Addr. change (IsLocal (MakeStoreKey s d)) with true. cbn [negb addr_loop].
    change (HasPrefix (MakeStoreKey s d) LocalStorePrefix) with true. by eexists.
  - intros r s Hr. rewrite MakeRangeIDPrefix_eq by done. rewrite <- (assoc_L (++)). set (k := LocalRangeIDPrefix ++ uvarint_code r ++ s). unfold Addr. change (IsLocal k) with true.
    cbn [negb addr_loop]. change (HasPrefix k LocalStorePrefix) with false. change (HasPrefix k LocalRangeIDPrefix) with true. by eexists.
Qed.

Lemma addresses_witness :
  Addr [1; 107; 18; 97; 0; 1; 114; 100; 115; 99] = Ret (inr [97]) /\ AddrUpperBound [1; 107; 18; 97; 0; 1; 114; 100; 115; 99] = Ret (inr [97; 0]).
Proof. apply (addresses [97] LocalRangeDescriptorSuffix []); [by repeat constructor|by vm_compute|done]. Defined.

(** Lock table keys: the span of the keys [a, b) corresponds to the span of their
    lock table keys, decoding inverts the encoding and accepts nothing else, validation
    accepts what decoding accepts, the key for the successor is built without building
    the successor, and all of them lie in the single-key part of the lock table. *)
Theorem lock_table_keys a b k la lb lk :
  Forall is_byte a -> Forall is_byte b -> Forall is_byte k ->
  LockTableSingleKey a = Ret la -> LockTableSingleKey b = Ret lb -> LockTableSingleKey k = Ret lk ->
  (in_span lk (la, lb) <-> in_span k (a, b)) /\
  (forall key, DecodeLockTableSingleKey key = Ret (inr k) <-> key = lk) /\
  (forall key, ValidateLockTableSingleKey key = Ret None <-> exists k', DecodeLockTableSingleKey key = Ret (inr k')) /\
  LockTableSingleNextKey k = LockTableSingleKey (BytesNext k) /\
  in_span lk (LockTableSingleKeyStart, LockTableSingleKeyEnd).
Proof.
  intros Ha Hb Hk Ea Eb Ek. pose proof Ek as Ek'. rewrite LockTableSingleKey_eq in Ea, Eb, Ek. apply Ret_inj in Ea, Eb, Ek. subst la lb lk.
  assert (forall x y, Forall is_byte x -> Forall is_byte y -> bytes_lt (lockPrefix ++ bytes_code x) (lockPrefix ++ bytes_code y) <-> bytes_lt x y) as Ho.
  { assert (forall x y, Forall is_byte x -> Forall is_byte y -> bytes_lt x y -> bytes_lt (lockPrefix ++ bytes_code x) (lockPrefix ++ bytes_code y)) as H.
    { intros x y Hx Hy H. pose proof (range_local_order lockPrefix x y [] [] Hx Hy H). by rewrite !app_nil_r in *. }
    intros x y Hx Hy. split; [|by apply H]. intros L. destruct (bytes_lt_total x y) as [?|[->|G]]; [done|by apply bytes_lt_irrefl in L|].
    exfalso. apply H in G; [|done..]. by apply (bytes_lt_irrefl _ (bytes_lt_trans _ _ _ L G)). }
  split_and!.
  - unfold in_span. cbn [fst snd]. by rewrite !Ho.
  - intros key. rewrite DecodeLockTableSingleKey_spec, LockTableSingleKey_eq by done. split; [by intros [= <-]|by intros ->].
  - apply ValidateLockTableSingleKey_spec.
  - apply LockTableSingleNextKey_eq.
  - change (lockPrefix ++ bytes_code k) with (LockTableSingleKeyStart ++ bytes_code k). split; cbn [fst snd].
    + rewrite <- (app_nil_r LockTableSingleKeyStart) at 2. rewrite bytes_lt_prefix. apply bytes_lt_nil_r.
    + change LockTableSingleKeyEnd with [1; 122; 108]. change (LockTableSingleKeyStart ++ bytes_code k) with (1 :: 122 :: 107 :: bytes_code k). cbn [bytes_lt]. lia.
Qed.

Lemma lock_table_keys_witness :
  in_span [1; 122; 107; 18; 98; 0; 255; 0; 1] ([1; 122; 107; 18; 98; 0; 1], [1; 122; 107; 18; 99; 0; 1]) <-> in_span [98; 0] ([98], [99]).
Proof. apply (lock_table_keys [98] [99] [98; 0]); (by repeat constructor) || (by vm_compute). Defined.



(** C34. Tenants do not share keys: every key of a table of a tenant lies in the span of
    that tenant and of no other, decodes to the tenant, and rewriting it to another
    tenant's prefix gives the same table key of that tenant. *)
Theorem tenant_keyspaces t u codec codec' sp tab r :
  1 <= t <= MaxTenantID -> 1 <= u <= MaxTenantID -> is_u32 tab ->
  MakeSQLCodec t = Ret codec -> MakeSQLCodec u = Ret codec' -> MakeTenantSpan u = Ret sp ->
  (in_span (TablePrefix codec tab ++ r) sp <-> u = t) /\
  (exists rest, DecodeTenantPrefix (TablePrefix codec tab ++ r) = Ret (inr (rest, t))) /\
  MakeTenantPrefix u = Ret (sql_buf codec') /\
  RewriteKeyToTenantPrefix (TablePrefix codec tab ++ r) (sql_buf codec') = Ret (inr (TablePrefix codec' tab ++ r)).
Proof.
  intros Ht Hu Htab Ec Ec' Hsp.
  assert (is_tenant t) as Ht' by (unfold is_tenant, MaxTenantID, MaxUint64, u64_modulus in *; lia).
  assert (is_tenant u) as Hu' by (unfold is_tenant, MaxTenantID, MaxUint64, u64_modulus in *; lia).
  unfold TablePrefix. rewrite (MakeSQLCodec_buf t codec), (MakeSQLCodec_buf u codec'), !EncodeUvarintAscending_eq, <- !(assoc_L (++)) by (done || apply Htab).
  assert (head (uvarint_code tab ++ r) <> Some tenantPrefixByte) as Hh.
  { destruct (u32_code_first tab Htab) as (c & l & -> & Hc). intros [= ->]. change tenantPrefixByte with 254 in Hc. lia. }
  split_and!.
  - unfold tenant_prefix. destruct (t =? 1) eqn:E; bool_to_prop; [subst t; by apply system_key_span|].
    fold (tenant_start t).
    destruct (decide (u = 1)) as [->|N].
    + rewrite system_span in Hsp. injection Hsp as <-. split; [|lia]. intros [_ H]. exfalso. cbn in H. destruct H as [H|[H _]]; [change tenantPrefixByte with 254 in H; lia|done].
    + rewrite MakeTenantSpan_eq in Hsp by lia. injection Hsp as <-. apply tenant_span_unique; lia.
  - eexists. by apply DecodeTenantPrefix_eq.
  - by apply MakeTenantPrefix_eq.
  - by apply RewriteKeyToTenantPrefix_eq.
Qed.

Lemma tenant_keyspaces_witness :
  (in_span (TablePrefix (mkSQLCodec [254; 245] [254; 246; 110] 109) 53 ++ [9]) ([254; 246; 110], [254; 246; 111]) <-> 110 = 109) /\
  RewriteKeyToTenantPrefix [254; 245; 189; 9] [254; 246; 110] = Ret (inr [254; 246; 110; 189; 9]).
Proof.
  destruct (tenant_keyspaces 109 110 (mkSQLCodec [254; 245] [254; 246; 110] 109) (mkSQLCodec [254; 246; 110] [254; 246; 111] 110)
    ([254; 246; 110], [254; 246; 111]) 53 [9] ltac:(done) ltac:(done) ltac:(done) ltac:(by vm_compute) ltac:(by vm_compute) ltac:(by vm_compute))
    as (H1 & _ & _ & H2). split; [exact H1|exact H2].
Defined.
