(* ===== verification/SupportDisk.v ===== *)
(** * Store liveness on the engine's keys (src/pkg/kv/kvserver/storeliveness/persist.go)

    The functions of persist.go over an engine that maps keys to values, and their
    refinement of the [Disk] that the store liveness model uses. The engine holds
    decoded protos; a key that is absent reads as the zero proto; MVCCIterate visits the
    keys of a span in order. *)

From stdpp Require Import sorting.
From S2P Require Import Prelude Hlc Encoding EncodingOrder EncodingBytes EncodingSafe Keys KeysOrder KeysSpec StoreLiveness.

(** What an engine stores. *)
Inductive stored : Type :=
| StoredRequesterMeta (rm : RequesterMeta)
| StoredSupporterMeta (sm : SupporterMeta)
| StoredSupportState (ss : SupportState)
| StoredOther (value : buffer).

Abbreviation engine := (gmap buffer stored).

Definition engine_readRequesterMeta (e : engine) : error + RequesterMeta :=
  match e !! StoreLivenessRequesterMetaKey with
  | None => inr zero_RequesterMeta
  | Some (StoredRequesterMeta rm) => inr rm
  | Some _ => inl (Errorf "cannot unmarshal RequesterMeta" [])
  end.

Definition engine_readSupporterMeta (e : engine) : error + SupporterMeta :=
  match e !! StoreLivenessSupporterMetaKey with
  | None => inr zero_SupporterMeta
  | Some (StoredSupporterMeta sm) => inr sm
  | Some _ => inl (Errorf "cannot unmarshal SupporterMeta" [])
  end.

Definition MaxInt32_ident : StoreIdent := mkStoreIdent MaxInt32 MaxInt32.

Definition support_key (id : StoreIdent) : buffer := StoreLivenessSupportForKey (NodeID id) (StoreID id).

(** The keys and values of [lo, hi) in order. *)
Definition kv_le (p q : buffer * stored) : Prop := Key_Less (fst q) (fst p) = false.

#[global] Instance kv_le_dec : RelDecision kv_le.
Proof. intros p q. unfold kv_le. apply _. Defined.

Definition MVCCIterate (e : engine) (lo hi : buffer) : list (buffer * stored) :=
  merge_sort kv_le (filter (fun kv => Key_Less (fst kv) lo = false /\ Key_Less (fst kv) hi = true) (map_to_list e)).

Fixpoint read_supports (kvs : list (buffer * stored)) : outcome (error + list SupportState) :=
  match kvs with
  | [] => Ret (inr [])
  | (key, value) :: kvs =>
    match value with
    | StoredSupportState ss =>
      let? '(nodeID, storeID) := DecodeStoreLivenessSupportForKey key in
      let? sss := read_supports kvs in
      Ret (inr (ss <| ss_Target := mkStoreIdent nodeID storeID |> :: sss))
    | _ => Ret (inl (Errorf "cannot unmarshal SupportState" []))
    end
  end.

Definition engine_readSupportForState (e : engine) : outcome (error + list SupportState) :=
  let minKey := StoreLivenessSupportForKey 0 0 in
  let maxKey := StoreLivenessSupportForKey MaxInt32 MaxInt32 in
  read_supports (MVCCIterate e minKey maxKey).

Definition engine_writeRequesterMeta (rm : RequesterMeta) (e : engine) : engine :=
  <[StoreLivenessRequesterMetaKey := StoredRequesterMeta rm]> e.

Definition engine_writeSupporterMeta (sm : SupporterMeta) (e : engine) : engine :=
  <[StoreLivenessSupporterMetaKey := StoredSupporterMeta sm]> e.

Definition engine_writeSupportForState (ss : SupportState) (e : engine) : engine :=
  let key := support_key (ss_Target ss) in
  <[key := StoredSupportState (ss <| ss_Target := zero_ident |>)]> e.

(** ** The keys of the promises *)

(** Node and store IDs are not negative. *)
Definition is_ident (id : StoreIdent) : Prop := 0 <= NodeID id <= MaxInt32 /\ 0 <= StoreID id <= MaxInt32.

Definition ident_number (id : StoreIdent) : Z := NodeID id * 4294967296 + StoreID id.

Lemma ident_number_u64 id : is_ident id -> is_u64 (ident_number id).
Proof. unfold is_ident, ident_number, is_u64, u64_modulus, MaxInt32. lia. Qed.

Lemma ident_number_inj id id' : is_ident id -> is_ident id' -> ident_number id = ident_number id' -> id = id'.
Proof. destruct id as [n s], id' as [n' s']. unfold is_ident, ident_number, MaxInt32. cbn. intros. f_equal; lia. Qed.

Lemma support_key_eq id : is_ident id -> support_key id = MakeStoreKey localStoreLivenessSupportFor (be 8 (ident_number id)).
Proof.
  intros Hid. unfold support_key, StoreLivenessSupportForKey. destruct Hid as [Hn Hs]. unfold MaxInt32 in *.
  rewrite (u64_small (NodeID id)), (u64_small (StoreID id)) by (unfold is_u64, u64_modulus; lia).
  rewrite u64_small by (rewrite Z.shiftl_mul_pow2 by lia; unfold is_u64, u64_modulus; lia).
  rewrite lor_shifted by lia. done.
Qed.

Lemma DecodeStoreLivenessSupportForKey_eq id :
  is_ident id -> DecodeStoreLivenessSupportForKey (support_key id) = Ret (inr (NodeID id, StoreID id)).
Proof.
  intros Hid. rewrite support_key_eq by done. unfold DecodeStoreLivenessSupportForKey. rewrite DecodeStoreKey_eq by done. cbn [ebind obind].
  change (Key_Equal localStoreLivenessSupportFor localStoreLivenessSupportFor) with true. cbn [negb].
  pose proof (oc_decode (OrderedCodec := Uint64Ascending_codec) (ident_number id) [] (ident_number_u64 id Hid)) as D. rewrite app_nil_r in D. rewrite D.
  cbn [ebind obind]. change (len []) with 0. cbn [negb Z.eqb]. destruct Hid as [Hn Hs]. unfold ident_number, MaxInt32 in *.
  change MaxUint32 with (Z.ones 32). rewrite Z.land_ones, Z.shiftr_div_pow2 by lia. change (2 ^ 32) with 4294967296.
  rewrite Z.div_add_l, Z.div_small, Z.add_0_r by lia. rewrite Z.add_comm, Z_mod_plus_full, Z.mod_small by lia.
  by rewrite !int32_small by (unfold MaxInt32; lia).
Qed.

Lemma support_key_inj id id' : is_ident id -> is_ident id' -> support_key id = support_key id' -> id = id'.
Proof.
  intros H H' E. pose proof (DecodeStoreLivenessSupportForKey_eq id H) as D. rewrite E, DecodeStoreLivenessSupportForKey_eq in D by done.
  apply Ret_inj in D. destruct id, id'. cbn in D. by injection D as -> ->.
Qed.

Lemma support_key_lt id id' : is_ident id -> is_ident id' -> bytes_lt (support_key id) (support_key id') <-> ident_number id < ident_number id'.
Proof.
  intros H H'. assert (forall x y, is_ident x -> is_ident y -> ident_number x < ident_number y -> bytes_lt (support_key x) (support_key y)) as L.
  { intros x y Hx Hy L. rewrite !support_key_eq by done. unfold MakeStoreKey. rewrite !(assoc_L (++)). apply bytes_lt_u64_suffix; [by apply ident_number_u64..|done]. }
  split; [|by apply L]. intros B. destruct (Z.lt_total (ident_number id) (ident_number id')) as [?|[E|G]]; [done| |].
  - apply ident_number_inj in E as ->; [|done..]. by apply bytes_lt_irrefl in B.
  - apply L in G; [|done..]. exfalso. by apply (bytes_lt_irrefl _ (bytes_lt_trans _ _ _ B G)).
Qed.

(** The scan leaves out the largest identifier, and no other. *)
Lemma support_key_scanned id :
  is_ident id -> (Key_Less (support_key id) (StoreLivenessSupportForKey 0 0) = false /\
                  Key_Less (support_key id) (StoreLivenessSupportForKey MaxInt32 MaxInt32) = true) <-> id <> MaxInt32_ident.
Proof.
  intros Hid. change (StoreLivenessSupportForKey 0 0) with (support_key zero_ident). change (StoreLivenessSupportForKey MaxInt32 MaxInt32) with (support_key MaxInt32_ident).
  assert (is_ident zero_ident) as H0 by (unfold is_ident, zero_ident, MaxInt32; cbn; lia).
  assert (is_ident MaxInt32_ident) as Hm by (unfold is_ident, MaxInt32_ident, MaxInt32; cbn; lia).
  rewrite Key_Less_spec, <- not_true_iff_false, Key_Less_spec, !support_key_lt by done. destruct id as [n s].
  unfold is_ident, ident_number, zero_ident, MaxInt32_ident, MaxInt32 in *. cbn in *. split; [intros H [= -> ->]; lia|].
  intros N. split; [lia|]. destruct (decide (n = 2147483647)) as [->|]; [|lia]. destruct (decide (s = 2147483647)) as [->|]; [done|lia].
Qed.

(** ** The disk is what the engine holds *)

Definition scanned (k : buffer) : Prop :=
  Key_Less k (StoreLivenessSupportForKey 0 0) = false /\ Key_Less k (StoreLivenessSupportForKey MaxInt32 MaxInt32) = true.

Record represents (e : engine) (disk : Disk) : Prop := {
  rep_requester : engine_readRequesterMeta e = inr (dk_RequesterMeta disk);
  rep_supporter : engine_readSupporterMeta e = inr (dk_SupporterMeta disk);
  rep_support : forall id, is_ident id -> e !! support_key id = StoredSupportState <$> dk_supportFor disk !! id;
  rep_idents : forall id, is_Some (dk_supportFor disk !! id) -> is_ident id;
  rep_keys : forall k v, e !! k = Some v -> scanned k -> exists id, is_ident id /\ k = support_key id
}.

Lemma meta_keys_differ id :
  is_ident id -> StoreLivenessRequesterMetaKey <> support_key id /\ StoreLivenessSupporterMetaKey <> support_key id /\
  ~ scanned StoreLivenessRequesterMetaKey /\ ~ scanned StoreLivenessSupporterMetaKey.
Proof. intros Hid. rewrite support_key_eq by done. split_and!; [done|done|intros [H _]; by vm_compute in H|intros [_ H]; by vm_compute in H]. Qed.

Lemma zero_ident_ok : is_ident zero_ident.
Proof. unfold is_ident, zero_ident, MaxInt32. cbn. lia. Qed.

Lemma represents_writeRequesterMeta rm e disk :
  represents e disk -> represents (engine_writeRequesterMeta rm e) (writeRequesterMeta rm disk).
Proof.
  intros [R S P I K]. destruct (meta_keys_differ _ zero_ident_ok) as (_ & _ & N & _). unfold engine_writeRequesterMeta. destruct disk as [dr ds dp].
  change (writeRequesterMeta rm (mkDisk dr ds dp)) with (mkDisk rm ds dp). split; cbn [dk_RequesterMeta dk_SupporterMeta dk_supportFor] in *.
  - unfold engine_readRequesterMeta. by rewrite lookup_insert_eq.
  - unfold engine_readSupporterMeta in *. by rewrite lookup_insert_ne by done.
  - intros id Hid. destruct (meta_keys_differ id Hid) as (N' & _). by rewrite lookup_insert_ne, P by done.
  - done.
  - intros k v Hk Hs. apply lookup_insert_Some in Hk as [[<- _]|[_ Hk]]; [done|]. by apply (K k v).
Qed.

Lemma represents_writeSupporterMeta sm e disk :
  represents e disk -> represents (engine_writeSupporterMeta sm e) (writeSupporterMeta sm disk).
Proof.
  intros [R S P I K]. destruct (meta_keys_differ _ zero_ident_ok) as (_ & _ & _ & N). unfold engine_writeSupporterMeta. destruct disk as [dr ds dp].
  change (writeSupporterMeta sm (mkDisk dr ds dp)) with (mkDisk dr sm dp). split; cbn [dk_RequesterMeta dk_SupporterMeta dk_supportFor] in *.
  - unfold engine_readRequesterMeta in *. by rewrite lookup_insert_ne by done.
  - unfold engine_readSupporterMeta. by rewrite lookup_insert_eq.
  - intros id Hid. destruct (meta_keys_differ id Hid) as (_ & N' & _). by rewrite lookup_insert_ne, P by done.
  - done.
  - intros k v Hk Hs. apply lookup_insert_Some in Hk as [[<- _]|[_ Hk]]; [done|]. by apply (K k v).
Qed.

Lemma represents_writeSupportForState ss e disk :
  is_ident (ss_Target ss) -> represents e disk -> represents (engine_writeSupportForState ss e) (writeSupportForState ss disk).
Proof.
  intros Ht [R S P I K]. destruct (meta_keys_differ _ Ht) as (N1 & N2 & _). unfold engine_writeSupportForState, writeSupportForState.
  set (ss' := ss <| ss_Target := zero_ident |>). destruct disk as [dr ds dp]. set (disk' := set_field _ _).
  change disk' with (mkDisk dr ds (<[ss_Target ss := ss']> dp)). clear disk'. split; cbn [dk_RequesterMeta dk_SupporterMeta dk_supportFor] in *.
  - unfold engine_readRequesterMeta in *. by rewrite lookup_insert_ne by done.
  - unfold engine_readSupporterMeta in *. by rewrite lookup_insert_ne by done.
  - intros id Hid. destruct (decide (id = ss_Target ss)) as [->|N]; [by rewrite !lookup_insert_eq|].
    rewrite lookup_insert_ne by (intros E; apply N; symmetry; by apply support_key_inj). rewrite lookup_insert_ne, P by done. done.
  - intros id. destruct (decide (id = ss_Target ss)) as [->|N]; [done|]. rewrite lookup_insert_ne by done. apply I.
  - intros k v Hk Hs. apply lookup_insert_Some in Hk as [[<- _]|[_ Hk]]; [by exists (ss_Target ss)|]. by apply (K k v).
Qed.

(** ** Reading the promises back *)

(** The promise read from a key and its value. *)
Definition restore_support (kv : buffer * stored) : option SupportState :=
  match snd kv, DecodeStoreLivenessSupportForKey (fst kv) with
  | StoredSupportState ss, Ret (inr (n, s)) => Some (ss <| ss_Target := mkStoreIdent n s |>)
  | _, _ => None
  end.

Definition restored (kv : buffer * stored) : SupportState := default (mkSupportState zero_ident 0 zero_ts) (restore_support kv).

Lemma read_supports_eq kvs : Forall (fun kv => is_Some (restore_support kv)) kvs -> read_supports kvs = Ret (inr (restored <$> kvs)).
Proof.
  intros H. induction H as [|[k v] kvs [ss Hr] H IH]; [done|]. cbn [read_supports]. rewrite fmap_cons. unfold restored at 1. rewrite Hr. unfold restore_support in Hr. cbn [fst snd] in Hr.
  destruct v; try done. destruct (DecodeStoreLivenessSupportForKey k) as [[err|[n s]]|]; try done. cbn [ebind obind]. rewrite IH. cbn [ebind obind].
  by injection Hr as <-.
Qed.

Definition store_kv (p : StoreIdent * SupportState) : buffer * stored := (support_key (fst p), StoredSupportState (snd p)).

Lemma restore_store p : is_ident (fst p) -> restore_support (store_kv p) = Some (snd p <| ss_Target := fst p |>).
Proof.
  intros H. unfold restore_support, store_kv. cbn [fst snd]. rewrite DecodeStoreLivenessSupportForKey_eq by done. by destruct p as [[n s] ss].
Qed.

(** The scanned keys and values are those of the promises on disk. *)
Lemma scanned_kvs e disk :
  represents e disk ->
  filter (fun kv => scanned (fst kv)) (map_to_list e) ≡ₚ store_kv <$> filter (fun p => fst p <> MaxInt32_ident) (map_to_list (dk_supportFor disk)).
Proof.
  intros [R S P I K]. apply NoDup_Permutation.
  - apply NoDup_filter, NoDup_map_to_list.
  - apply NoDup_fmap_2_strong; [|apply NoDup_filter, NoDup_map_to_list]. intros [id ss] [id' ss'] H H' E.
    apply list_elem_of_filter in H as [_ H], H' as [_ H']. apply elem_of_map_to_list in H, H'. pose proof (f_equal fst E) as E1. pose proof (f_equal snd E) as E2.
    cbn [store_kv fst snd] in E1, E2. injection E2 as ->. f_equal. apply support_key_inj; [by apply I|by apply I|done].
  - intros [k v]. rewrite list_elem_of_filter, elem_of_map_to_list, list_elem_of_fmap. split.
    + intros [Hs Hk]. destruct (K k v Hk Hs) as (id & Hid & ->). rewrite P in Hk by done.
      destruct (dk_supportFor disk !! id) as [ss|] eqn:E; [|done]. injection Hk as <-. exists (id, ss). split; [done|].
      rewrite list_elem_of_filter, elem_of_map_to_list. split; [by apply support_key_scanned|done].
    + intros ([id ss] & [= -> ->] & H). rewrite list_elem_of_filter, elem_of_map_to_list in H. destruct H as [N H].
      assert (is_ident id) as Hid by by apply I. cbn [fst snd] in *. split; [by apply support_key_scanned|]. rewrite P by done. by rewrite H.
Qed.

Lemma readSupportForState_but_last disk :
  filter (fun ss => ss_Target ss <> MaxInt32_ident) (readSupportForState disk) =
  (fun p => snd p <| ss_Target := fst p |>) <$> filter (fun p => fst p <> MaxInt32_ident) (map_to_list (dk_supportFor disk)).
Proof.
  unfold readSupportForState. induction (map_to_list (dk_supportFor disk)) as [|[id ss] l IH]; [done|]. rewrite fmap_cons, !filter_cons, IH. cbn [fst snd].
  change (ss_Target (ss <| ss_Target := id |>)) with id. destruct (decide (id <> MaxInt32_ident)); [by rewrite fmap_cons|done].
Qed.

Lemma engine_readSupportForState_eq e disk :
  represents e disk ->
  exists l, engine_readSupportForState e = Ret (inr l) /\
    l ≡ₚ filter (fun ss => ss_Target ss <> MaxInt32_ident) (readSupportForState disk).
Proof.
  intros Hrep. pose proof (scanned_kvs e disk Hrep) as Hp. set (kvs := MVCCIterate e (StoreLivenessSupportForKey 0 0) (StoreLivenessSupportForKey MaxInt32 MaxInt32)).
  assert (kvs ≡ₚ store_kv <$> filter (fun p => fst p <> MaxInt32_ident) (map_to_list (dk_supportFor disk))) as Hkvs.
  { unfold kvs, MVCCIterate. rewrite merge_sort_Permutation. exact Hp. }
  assert (Forall (fun p => is_ident (fst p)) (filter (fun p => fst p <> MaxInt32_ident) (map_to_list (dk_supportFor disk)))) as Hid.
  { apply Forall_forall. intros [id ss] [_ H]%list_elem_of_filter. apply elem_of_map_to_list in H. by apply (rep_idents e disk Hrep). }
  exists (restored <$> kvs). split.
  - apply read_supports_eq. rewrite Hkvs. apply Forall_fmap. eapply Forall_impl; [exact Hid|]. intros p H. cbn [compose]. by rewrite restore_store.
  - rewrite Hkvs. rewrite readSupportForState_but_last.
    rewrite <- list_fmap_compose, (Forall_fmap_ext_1 _ (fun p => snd p <| ss_Target := fst p |>)); [done|].
    eapply Forall_impl; [exact Hid|]. intros p H. unfold compose, restored. by rewrite restore_store.
Qed.

(** * The claim *)

(** C36. The records of store liveness that the model keeps per store are what the code
    keeps under keys of the engine: writing a record keeps the correspondence, the
    metadata read back is the metadata written, and scanning the keys of the promises
    returns the promises on disk, each for the store it was made to, except one for the
    largest node and store ID, whose key ends the scan. *)
Theorem disk_refined_by_engine e disk :
  represents e disk ->
  engine_readRequesterMeta e = inr (dk_RequesterMeta disk) /\ engine_readSupporterMeta e = inr (dk_SupporterMeta disk) /\
  (exists l, engine_readSupportForState e = Ret (inr l) /\
    l ≡ₚ filter (fun ss => ss_Target ss <> MaxInt32_ident) (readSupportForState disk)) /\
  (forall rm, represents (engine_writeRequesterMeta rm e) (writeRequesterMeta rm disk)) /\
  (forall sm, represents (engine_writeSupporterMeta sm e) (writeSupporterMeta sm disk)) /\
  (forall ss, is_ident (ss_Target ss) -> represents (engine_writeSupportForState ss e) (writeSupportForState ss disk)).
Proof.
  intros H. split_and!.
  - apply H.
  - apply H.
  - by apply engine_readSupportForState_eq.
  - intros rm. by apply represents_writeRequesterMeta.
  - intros sm. by apply represents_writeSupporterMeta.
  - intros ss Hss. by apply represents_writeSupportForState.
Qed.

Lemma disk_refined_by_engine_witness :
  represents (engine_writeSupportForState (mkSupportState (mkStoreIdent 2 5) 1 (mkTimestamp 9 0)) ∅)
             (writeSupportForState (mkSupportState (mkStoreIdent 2 5) 1 (mkTimestamp 9 0)) (mkDisk zero_RequesterMeta zero_SupporterMeta ∅)).
Proof.
  apply (disk_refined_by_engine ∅ (mkDisk zero_RequesterMeta zero_SupporterMeta ∅)).
  - split; [done|done|by intros id _|by intros id [? H]|by intros k v H].
  - unfold is_ident, MaxInt32. cbn. lia.
Defined.
