(* ===== verification/NodeLiveness.v ===== *)
(** * Node liveness (src/pkg/kv/kvserver/liveness)

    The liveness records of the nodes and what updates them: livenesspb, the cache
    that gossip and successful updates feed (cache.go), the conditional puts on the
    liveness range (storage.go) and the operations of [NodeLiveness] that use them
    (liveness.go).

    Readings of the clock are arguments. The transaction of an update either
    commits or fails, and a failed one may have taken effect; what happens is an
    argument. The encoding of records (generated code) is a parameter of the section
    that needs it. Metrics, callbacks and the semaphores are not modelled: a call
    that waits for a semaphore is modelled from the point where it holds it. *)

From S2P Require Import Prelude Hlc RaftPb.

(** ** livenesspb/liveness.go *)

Inductive MembershipStatus : Set := ACTIVE | DECOMMISSIONING | DECOMMISSIONED.

#[global] Instance MembershipStatus_eq_dec : EqDecision MembershipStatus.
Proof. solve_decision. Defined.

Definition MembershipStatus_Decommissioning (c : MembershipStatus) : bool := bool_decide (c = DECOMMISSIONING).
Definition MembershipStatus_Decommissioned (c : MembershipStatus) : bool := bool_decide (c = DECOMMISSIONED).
Definition MembershipStatus_Active (c : MembershipStatus) : bool := bool_decide (c = ACTIVE).

Record Liveness : Type := mkLiveness {
  lv_NodeID : Z;
  lv_Epoch : Z;
  lv_Expiration : Timestamp;
  lv_Draining : bool;
  lv_Membership : MembershipStatus
}.

#[global] Instance eta_Liveness : Eta Liveness := fun l =>
  mkLiveness (lv_NodeID l) (lv_Epoch l) (lv_Expiration l) (lv_Draining l) (lv_Membership l).
#[global] Instance Liveness_eq_dec : EqDecision Liveness.
Proof. solve_decision. Defined.

Definition empty_Liveness : Liveness := mkLiveness 0 0 (mkTimestamp 0 0) false ACTIVE.

Definition Liveness_IsLive (l : Liveness) (now : Timestamp) : bool := Timestamp_Less now (lv_Expiration l).

Definition Liveness_Compare (l o : Liveness) : Z :=
  if negb (lv_Epoch l =? lv_Epoch o) then
    if lv_Epoch l <? lv_Epoch o then -1 else 1
  else if negb (bool_decide (lv_Expiration l = lv_Expiration o)) then
    if Timestamp_Less (lv_Expiration l) (lv_Expiration o) then -1 else 1
  else 0.

(** Errors of the package. *)
Inductive liveness_error : Type :=
| ErrMissingRecord
| ErrRecordCacheMiss
| errChangeMembershipStatusFailed
| ErrEpochIncremented
| ErrEpochAlreadyIncremented
| errNodeAlreadyLive
| errNodeDrainingSet
| ErrEpochCondFailed (expected actual : Liveness)
| errRetryLiveness
| TxnError
| LivenessErr (err : error).

#[global] Instance liveness_error_eq_dec : EqDecision liveness_error.
Proof. solve_decision. Defined.

(** The result of [ValidateTransition]: whether a change is needed, or an error. *)
Definition ValidateTransition (old : Liveness) (newStatus : MembershipStatus) : liveness_error + bool :=
  if bool_decide (old = empty_Liveness) then
    inl (LivenessErr (Errorf "invalid old liveness record; found to be empty" []))
  else if bool_decide (lv_Membership old = newStatus) then inr false
  else if MembershipStatus_Decommissioned (lv_Membership old) && MembershipStatus_Decommissioning newStatus then inr false
  else if MembershipStatus_Active newStatus && negb (MembershipStatus_Decommissioning (lv_Membership old)) then
    inl (LivenessErr (Errorf "can only recommission a decommissioning node; n%d found to be %s" [lv_NodeID old]))
  else if MembershipStatus_Decommissioned newStatus && negb (MembershipStatus_Decommissioning (lv_Membership old)) then
    inl (LivenessErr (Errorf "can only fully decommission an already decommissioning node; n%d found to be %s" [lv_NodeID old]))
  else inr true.

(** *** Vitality *)

Record NodeVitality : Type := mkNodeVitality {
  nv_nodeID : Z;
  nv_draining : bool;
  nv_membership : MembershipStatus;
  nv_connected : bool;
  nv_now : Timestamp;
  nv_timeUntilNodeDead : Z;
  nv_timeAfterNodeSuspect : Z;
  nv_descUpdateTime : Timestamp;
  nv_descUnavailableTime : Timestamp;
  nv_livenessExpiration : Timestamp;
  nv_livenessEpoch : Z
}.

#[global] Instance NodeVitality_eq_dec : EqDecision NodeVitality.
Proof. solve_decision. Defined.

Definition empty_NodeVitality : NodeVitality :=
  mkNodeVitality 0 false ACTIVE false (mkTimestamp 0 0) 0 0 (mkTimestamp 0 0) (mkTimestamp 0 0) (mkTimestamp 0 0) 0.

Inductive VitalityUsage : Set :=
| IsAliveNotification | EpochLease | Rebalance | Admin | DistSQL | Upgrade | ConsistencyQueue | AdminHealthCheck
| DecommissionCheck | SpanConfigConformance | ReplicaProgress | Metrics | LeaseCampaign | LeaseCampaignWeak
| RangeQuiesience | NetworkMap | LossOfQuorum | ReplicaGCQueue | DistSender.

Inductive NodeLivenessStatus : Set :=
| UNKNOWN | DEAD | UNAVAILABLE | LIVE | NODE_DECOMMISSIONING | NODE_DECOMMISSIONED | DRAINING.

Definition NodeVitality_isValid (nv : NodeVitality) : bool := negb (bool_decide (nv = empty_NodeVitality)).

Definition NodeVitality_IsDecommissioned (nv : NodeVitality) : bool :=
  NodeVitality_isValid nv && MembershipStatus_Decommissioned (nv_membership nv).

Definition NodeVitality_isAliveEpoch (nv : NodeVitality) : bool :=
  if negb (NodeVitality_isValid nv) || NodeVitality_IsDecommissioned nv then false
  else Timestamp_Less (nv_now nv) (nv_livenessExpiration nv).

Definition NodeVitality_isAlive (nv : NodeVitality) : bool :=
  if negb (NodeVitality_isValid nv) || NodeVitality_IsDecommissioned nv then false
  else if Timestamp_IsSet (nv_descUpdateTime nv) &&
          Timestamp_After (nv_now nv) (Timestamp_AddDuration (nv_descUpdateTime nv) (nv_timeUntilNodeDead nv)) then false
  else if Timestamp_IsSet (nv_descUnavailableTime nv) &&
          Timestamp_After (Timestamp_AddDuration (nv_descUnavailableTime nv) (nv_timeAfterNodeSuspect nv)) (nv_now nv) then false
  else if nv_livenessEpoch nv =? 0 then true
  else Timestamp_Less (nv_now nv) (nv_livenessExpiration nv).

Definition NodeVitality_isAvailableNotDraining (nv : NodeVitality) : bool :=
  NodeVitality_isValid nv && NodeVitality_isAlive nv &&
  negb (MembershipStatus_Decommissioning (nv_membership nv)) &&
  negb (MembershipStatus_Decommissioned (nv_membership nv)) && negb (nv_draining nv).

Definition NodeVitality_isAliveAndConnected (nv : NodeVitality) : bool :=
  NodeVitality_isAvailableNotDraining nv && nv_connected nv.

Definition NodeVitality_IsLive (nv : NodeVitality) (usage : VitalityUsage) : bool :=
  match usage with
  | IsAliveNotification | Rebalance | Upgrade | DecommissionCheck | SpanConfigConformance | Metrics
  | LossOfQuorum | ReplicaGCQueue => NodeVitality_isAlive nv
  | EpochLease => NodeVitality_isAliveEpoch nv
  | DistSQL | ReplicaProgress => NodeVitality_isAliveAndConnected nv
  | ConsistencyQueue | AdminHealthCheck | DistSender => NodeVitality_isAvailableNotDraining nv
  | LeaseCampaign | RangeQuiesience => if negb (NodeVitality_isValid nv) then true else NodeVitality_isAliveAndConnected nv
  | LeaseCampaignWeak =>
    if negb (NodeVitality_isValid nv) then true else Timestamp_Less (nv_now nv) (nv_livenessExpiration nv)
  | NetworkMap => nv_connected nv
  | Admin => false
  end.

Definition NodeVitality_LivenessStatus (nv : NodeVitality) : NodeLivenessStatus :=
  if negb (NodeVitality_isValid nv) then UNKNOWN
  else
    let isDead := false in
    let isAlive := false in
    let isDead := if Timestamp_IsSet (nv_descUpdateTime nv) &&
      Timestamp_After (nv_now nv) (Timestamp_AddDuration (nv_descUpdateTime nv) (nv_timeUntilNodeDead nv))
      then true else isDead in
    let isDead := if (nv_livenessEpoch nv >? 0) &&
      Timestamp_After (nv_now nv) (Timestamp_AddDuration (nv_livenessExpiration nv) (nv_timeUntilNodeDead nv))
      then true else isDead in
    let isAlive := if Timestamp_Less (nv_now nv) (nv_livenessExpiration nv) then true else isAlive in
    let isAlive := if Timestamp_IsSet (nv_descUpdateTime nv) &&
      Timestamp_Less (nv_now nv) (Timestamp_AddDuration (nv_descUpdateTime nv) (nv_timeAfterNodeSuspect nv))
      then true else isAlive in
    let isAlive := if Timestamp_IsSet (nv_descUnavailableTime nv) &&
      Timestamp_After (Timestamp_AddDuration (nv_descUnavailableTime nv) (nv_timeAfterNodeSuspect nv)) (nv_now nv)
      then false else isAlive in
    if bool_decide (nv_membership nv = DECOMMISSIONED) then
      if isAlive then NODE_DECOMMISSIONING else NODE_DECOMMISSIONED
    else if negb isAlive && negb isDead then UNAVAILABLE
    else if bool_decide (nv_membership nv = DECOMMISSIONING) then
      if isDead then NODE_DECOMMISSIONED else NODE_DECOMMISSIONING
    else if isDead then DEAD
    else if nv_draining nv then DRAINING
    else LIVE.

Definition Liveness_CreateNodeVitality (l : Liveness) (now descUpdateTime descUnavailableTime : Timestamp)
    (connected : bool) (timeUntilNodeDead timeAfterNodeSuspect : Z) : NodeVitality :=
  mkNodeVitality (lv_NodeID l) (lv_Draining l) (lv_Membership l) connected now timeUntilNodeDead timeAfterNodeSuspect
    descUpdateTime descUnavailableTime (lv_Expiration l) (lv_Epoch l).

Definition NodeVitality_GetInternalLiveness (nv : NodeVitality) : Liveness :=
  mkLiveness (nv_nodeID nv) (nv_livenessEpoch nv) (nv_livenessExpiration nv) (nv_draining nv) (nv_membership nv).

(** ** cache.go *)

(** A record with its encoding in the database. *)
Record LivenessRecord : Type := mkRecord {
  rec_Liveness : Liveness;
  rec_raw : bytes
}.

#[global] Instance LivenessRecord_eq_dec : EqDecision LivenessRecord.
Proof. solve_decision. Defined.

Definition empty_Record : LivenessRecord := mkRecord empty_Liveness [].

Record UpdateInfo : Type := mkUpdateInfo {
  ui_lastUpdateTime : Timestamp;
  ui_lastUnavailableTime : Timestamp
}.

#[global] Instance eta_UpdateInfo : Eta UpdateInfo := fun u => mkUpdateInfo (ui_lastUpdateTime u) (ui_lastUnavailableTime u).

Record Cache : Type := mkCache {
  ca_selfID : Z;
  ca_lastNodeUpdate : gmap Z UpdateInfo;
  ca_nodes : gmap Z LivenessRecord
}.

#[global] Instance eta_Cache : Eta Cache := fun c => mkCache (ca_selfID c) (ca_lastNodeUpdate c) (ca_nodes c).

Definition livenessChanged (old new : LivenessRecord) : bool :=
  let oldL := rec_Liveness old in
  let newL := rec_Liveness new in
  let cmp := Liveness_Compare oldL newL in
  if negb (cmp =? 0) then cmp <? 0
  else negb (Bool.eqb (lv_Draining oldL) (lv_Draining newL)) ||
       negb (bool_decide (lv_Membership oldL = lv_Membership newL)) ||
       (bool_decide (oldL = newL) && negb (bool_decide (rec_raw old = rec_raw new))).

Definition Cache_maybeUpdate (newRec : LivenessRecord) (c : Cache) : outcome Cache :=
  if bool_decide (rec_Liveness newRec = empty_Liveness) then Panic "invalid new liveness record; found to be empty"
  else if lv_NodeID (rec_Liveness newRec) =? 0 then Panic "attempt to cache liveness record with nid 0"
  else
    let shouldReplace :=
      match ca_nodes c !! lv_NodeID (rec_Liveness newRec) with
      | Some oldRec => livenessChanged oldRec newRec
      | None => true
      end in
    Ret (if shouldReplace then c <| ca_nodes := <[lv_NodeID (rec_Liveness newRec) := newRec]> (ca_nodes c) |> else c).

Definition Cache_getLiveness (c : Cache) (nodeID : Z) : option LivenessRecord := ca_nodes c !! nodeID.

Definition Cache_self (c : Cache) : option LivenessRecord := Cache_getLiveness c (ca_selfID c).

(** The gossip callback for a store descriptor of [nodeID], at [now]. *)
Definition Cache_storeGossipUpdate (nodeID : Z) (now : Timestamp) (c : Cache) : Cache :=
  if nodeID =? 0 then c
  else
    let previousRec := default (mkUpdateInfo (mkTimestamp 0 0) (mkTimestamp 0 0)) (ca_lastNodeUpdate c !! nodeID) in
    c <| ca_lastNodeUpdate := <[nodeID := previousRec <| ui_lastUpdateTime := now |>]> (ca_lastNodeUpdate c) |>.

Definition Cache_lastDescriptorUpdate (c : Cache) (nodeID : Z) : UpdateInfo :=
  match ca_lastNodeUpdate c !! nodeID with
  | Some l => l
  | None => mkUpdateInfo (mkTimestamp 0 0) (mkTimestamp 0 0)
  end.

Definition Cache_convertToNodeVitality (c : Cache) (now : Timestamp) (connected : bool) (timeUntilNodeDead timeAfterNodeSuspect : Z)
    (l : Liveness) : NodeVitality :=
  let lastDescUpdate := Cache_lastDescriptorUpdate c (lv_NodeID l) in
  Liveness_CreateNodeVitality l now (ui_lastUpdateTime lastDescUpdate) (ui_lastUnavailableTime lastDescUpdate)
    connected timeUntilNodeDead timeAfterNodeSuspect.

Definition Cache_GetNodeVitality (c : Cache) (now : Timestamp) (connected : bool) (timeUntilNodeDead timeAfterNodeSuspect : Z)
    (nodeID : Z) : NodeVitality :=
  match Cache_getLiveness c nodeID with
  | Some l => Cache_convertToNodeVitality c now connected timeUntilNodeDead timeAfterNodeSuspect (rec_Liveness l)
  | None => empty_NodeVitality
  end.

(** The loop of [checkForStaleEntries] ranges over the values of the map: [l] is a
    copy of the entry, and the assignment to its field ends with the iteration. *)
Fixpoint checkForStaleEntries_loop (now : Timestamp) (interval : Z) (entries : list (Z * UpdateInfo)) (c : Cache) : Cache :=
  match entries with
  | [] => c
  | (_, l) :: entries =>
    let _ := if Timestamp_Less (Timestamp_AddDuration (ui_lastUpdateTime l) interval) now
             then l <| ui_lastUnavailableTime := now |> else l in
    checkForStaleEntries_loop now interval entries c
  end.

Definition Cache_checkForStaleEntries (now : Timestamp) (interval : Z) (c : Cache) : Cache :=
  checkForStaleEntries_loop now interval (map_to_list (ca_lastNodeUpdate c)) c.

(** ** storage.go *)

(** How the transaction of an update ends. The conditional put is evaluated against
    the database when the transaction commits, and when it fails with an ambiguous
    result after having taken effect. *)
Inductive txn_outcome : Set :=
| TxnCommit
| TxnAmbiguous (applied : bool)
| TxnFail.

Record LivenessUpdate : Type := mkLivenessUpdate {
  up_newLiveness : Liveness;
  up_oldLiveness : Liveness;
  up_oldRaw : option bytes
}.

#[global] Instance eta_LivenessUpdate : Eta LivenessUpdate := fun u =>
  mkLivenessUpdate (up_newLiveness u) (up_oldLiveness u) (up_oldRaw u).

Section storage.
(** The encoding of the records. *)
Context (SetProto : Liveness -> bytes) (GetProto : bytes -> option Liveness).

(** The liveness range: the value of the key of each node. *)
Abbreviation liveness_kv := (gmap Z bytes).

Definition storageImpl_Get (db : liveness_kv) (nodeID : Z) : liveness_error + LivenessRecord :=
  match db !! nodeID with
  | None => inl ErrMissingRecord
  | Some raw =>
    match GetProto raw with
    | None => inl (LivenessErr (Errorf "invalid liveness record" []))
    | Some l => inr (mkRecord l raw)
    end
  end.

(** [Update], with a callback that runs on a state of its own. *)
Definition storageImpl_Update {S} (o : txn_outcome) (update : LivenessUpdate)
    (handleCondFailed : LivenessRecord -> S -> outcome (option liveness_error * S)) (db : liveness_kv) (s : S) :
    outcome (liveness_kv * S * (LivenessRecord * option liveness_error)) :=
  let key := lv_NodeID (up_newLiveness update) in
  let v := SetProto (up_newLiveness update) in
  let matches := bool_decide (db !! key = up_oldRaw update) in
  match o with
  | TxnCommit =>
    if matches then Ret (<[key := v]> db, s, (mkRecord (up_newLiveness update) v, None))
    else
      match db !! key with
      | None => let! '(err, s) := handleCondFailed empty_Record s in Ret (db, s, (empty_Record, err))
      | Some raw =>
        match GetProto raw with
        | None => Ret (db, s, (empty_Record, Some (LivenessErr (Errorf "couldn't update node liveness from CPut actual value" []))))
        | Some actual => let! '(err, s) := handleCondFailed (mkRecord actual raw) s in Ret (db, s, (empty_Record, err))
        end
      end
  | TxnAmbiguous applied =>
    Ret (if applied && matches then <[key := v]> db else db, s, (empty_Record, Some errRetryLiveness))
  | TxnFail => Ret (db, s, (empty_Record, Some TxnError))
  end.

(** [Create], for one attempt. *)
Definition storageImpl_Create (o : txn_outcome) (nodeID : Z) (db : liveness_kv) : liveness_kv * option liveness_error :=
  let v := SetProto (mkLiveness nodeID 0 (mkTimestamp 0 0) false ACTIVE) in
  let absent := bool_decide (db !! nodeID = None) in
  match o with
  | TxnCommit => if absent then (<[nodeID := v]> db, None) else (db, Some TxnError)
  | TxnAmbiguous applied => (if applied && absent then <[nodeID := v]> db else db, Some errRetryLiveness)
  | TxnFail => (db, Some TxnError)
  end.

(** ** liveness.go *)

Definition updateLivenessAttempt {S} (o : txn_outcome) (cache : Cache) (update : LivenessUpdate)
    (handleCondFailed : LivenessRecord -> S -> outcome (option liveness_error * S)) (db : liveness_kv) (s : S) :
    outcome (liveness_kv * S * (LivenessRecord * option liveness_error)) :=
  match up_oldRaw update with
  | Some _ => storageImpl_Update o update handleCondFailed db s
  | None =>
    match Cache_getLiveness cache (lv_NodeID (up_newLiveness update)) with
    | None => Ret (db, s, (empty_Record, Some ErrRecordCacheMiss))
    | Some l =>
      if negb (bool_decide (rec_Liveness l = up_oldLiveness update)) then
        let! '(err, s) := handleCondFailed l s in Ret (db, s, (empty_Record, err))
      else storageImpl_Update o (update <| up_oldRaw := Some (rec_raw l) |>) handleCondFailed db s
    end
  end.

(** The retry loop of [updateLiveness], over the outcomes of its attempts. *)
Fixpoint updateLiveness_loop {S} (os : list txn_outcome) (cache : Cache) (update : LivenessUpdate)
    (handleCondFailed : LivenessRecord -> S -> outcome (option liveness_error * S)) (db : liveness_kv) (s : S) {struct os} :
    outcome (liveness_kv * S * (LivenessRecord * option liveness_error)) :=
  match os with
  | [] => Ret (db, s, (empty_Record, Some (LivenessErr (Errorf "retry loop ended without error - likely shutting down" []))))
  | o :: os =>
    let! '(db, s, (written, err)) := updateLivenessAttempt o cache update handleCondFailed db s in
    match err with
    | Some err =>
      if bool_decide (err = errRetryLiveness) then updateLiveness_loop os cache update handleCondFailed db s
      else Ret (db, s, (empty_Record, Some err))
    | None => Ret (db, s, (written, None))
    end
  end.

(** [disk] is the result of [verifyDiskHealth]. *)
Definition updateLiveness {S} (disk : option liveness_error) (os : list txn_outcome) (cache : Cache) (update : LivenessUpdate)
    (handleCondFailed : LivenessRecord -> S -> outcome (option liveness_error * S)) (db : liveness_kv) (s : S) :
    outcome (liveness_kv * S * (LivenessRecord * option liveness_error)) :=
  match disk with
  | Some err => Ret (db, s, (empty_Record, Some err))
  | None => updateLiveness_loop os cache update handleCondFailed db s
  end.

(** [heartbeatInternal] from the readings of the clock before and after queueing, and
    in the callback. *)
Definition heartbeatInternal (livenessThreshold : Z) (beforeQueueTS afterQueueTS callbackTS : Timestamp)
    (disk : option liveness_error) (os : list txn_outcome) (oldLiveness : Liveness) (incrementEpoch : bool)
    (db : liveness_kv) (cache : Cache) : outcome (liveness_kv * Cache * option liveness_error) :=
  let minExpiration := Timestamp_Add beforeQueueTS livenessThreshold 0 in
  let already := match Cache_self cache with
    | Some cur => Timestamp_Less minExpiration (lv_Expiration (rec_Liveness cur))
    | None => false
    end in
  if negb incrementEpoch && already then Ret (db, cache, None)
  else if bool_decide (oldLiveness = empty_Liveness) then
    Ret (db, cache, Some (LivenessErr (Errorf "invalid old liveness record; found to be empty" [])))
  else
    let newLiveness :=
      if incrementEpoch then oldLiveness <| lv_Epoch := int64 (lv_Epoch oldLiveness + 1) |> <| lv_Draining := false |>
      else oldLiveness in
    let newLiveness := newLiveness <| lv_Expiration := Timestamp_Add afterQueueTS livenessThreshold 0 |> in
    if Timestamp_Less (lv_Expiration newLiveness) (lv_Expiration oldLiveness) then
      Ret (db, cache, Some (LivenessErr (Errorf "proposed liveness update expires earlier than previous record" [])))
    else
      let handleCondFailed (actual : LivenessRecord) (cache : Cache) :=
        let! cache := Cache_maybeUpdate actual cache in
        if Liveness_IsLive (rec_Liveness actual) callbackTS && negb incrementEpoch then Ret (Some errNodeAlreadyLive, cache)
        else Ret (Some ErrEpochIncremented, cache) in
      let! '(db, cache, (written, err)) :=
        updateLiveness disk os cache (mkLivenessUpdate newLiveness oldLiveness None) handleCondFailed db cache in
      match err with
      | Some err => Ret (db, cache, if bool_decide (err = errNodeAlreadyLive) then None else Some err)
      | None => let! cache := Cache_maybeUpdate written cache in Ret (db, cache, None)
      end.

Definition NodeLiveness_Heartbeat (livenessThreshold : Z) (beforeQueueTS afterQueueTS callbackTS : Timestamp)
    (disk : option liveness_error) (os : list txn_outcome) (liveness : Liveness) :=
  heartbeatInternal livenessThreshold beforeQueueTS afterQueueTS callbackTS disk os liveness false.

Definition NodeLiveness_IncrementEpoch (now : Timestamp) (disk : option liveness_error) (os : list txn_outcome) (liveness : Liveness)
    (db : liveness_kv) (cache : Cache) : outcome (liveness_kv * Cache * option liveness_error) :=
  if Liveness_IsLive liveness now then
    Ret (db, cache, Some (LivenessErr (Errorf "cannot increment epoch on live node: %+v" [lv_NodeID liveness])))
  else
    let update := mkLivenessUpdate (liveness <| lv_Epoch := int64 (lv_Epoch liveness + 1) |>) liveness None in
    let handleCondFailed (actual : LivenessRecord) (cache : Cache) :=
      let! cache := Cache_maybeUpdate actual cache in
      Ret (Some (if lv_Epoch (rec_Liveness actual) >? lv_Epoch liveness then ErrEpochAlreadyIncremented
                 else if lv_Epoch (rec_Liveness actual) <? lv_Epoch liveness then
                   LivenessErr (Errorf "unexpected liveness epoch %d; expected >= %d" [lv_Epoch (rec_Liveness actual); lv_Epoch liveness])
                 else ErrEpochCondFailed liveness (rec_Liveness actual)), cache) in
    let! '(db, cache, (written, err)) := updateLiveness disk os cache update handleCondFailed db cache in
    match err with
    | Some err => Ret (db, cache, Some err)
    | None => let! cache := Cache_maybeUpdate written cache in Ret (db, cache, None)
    end.

Definition setDrainingInternal (disk : option liveness_error) (os : list txn_outcome) (oldLivenessRec : LivenessRecord) (drain : bool)
    (db : liveness_kv) (cache : Cache) : outcome (liveness_kv * Cache * option liveness_error) :=
  if bool_decide (rec_Liveness oldLivenessRec = empty_Liveness) then
    Ret (db, cache, Some (LivenessErr (Errorf "invalid old liveness record; found to be empty" [])))
  else
    let newLiveness := rec_Liveness oldLivenessRec <| lv_Draining := drain |> in
    let update := mkLivenessUpdate newLiveness (rec_Liveness oldLivenessRec) (Some (rec_raw oldLivenessRec)) in
    let handleCondFailed (actual : LivenessRecord) (cache : Cache) :=
      let! cache := Cache_maybeUpdate actual cache in
      Ret (Some (if Bool.eqb (lv_Draining (rec_Liveness actual)) drain then errNodeDrainingSet
                 else LivenessErr (Errorf "failed to update liveness record because record has changed" [])), cache) in
    let! '(db, cache, (written, err)) := updateLiveness disk os cache update handleCondFailed db cache in
    match err with
    | Some err => Ret (db, cache, if bool_decide (err = errNodeDrainingSet) then None else Some err)
    | None => let! cache := Cache_maybeUpdate written cache in Ret (db, cache, None)
    end.

Definition setMembershipStatusInternal (disk : option liveness_error) (os : list txn_outcome) (oldLivenessRec : LivenessRecord)
    (targetStatus : MembershipStatus) (db : liveness_kv) (cache : Cache) : outcome (liveness_kv * (bool * option liveness_error)) :=
  match ValidateTransition (rec_Liveness oldLivenessRec) targetStatus with
  | inl err => Ret (db, (false, Some err))
  | inr false => Ret (db, (false, None))
  | inr true =>
    let newLiveness := rec_Liveness oldLivenessRec <| lv_Membership := targetStatus |> in
    let update := mkLivenessUpdate newLiveness (rec_Liveness oldLivenessRec) (Some (rec_raw oldLivenessRec)) in
    let handleCondFailed (actual : LivenessRecord) (statusChanged : bool) :=
      if negb (bool_decide (lv_Membership (rec_Liveness actual) = targetStatus))
      then Ret (Some errChangeMembershipStatusFailed, statusChanged) else Ret (None, false) in
    let! '(db, statusChanged, (_, err)) := updateLiveness disk os cache update handleCondFailed db true in
    match err with
    | Some err => Ret (db, (false, Some err))
    | None => Ret (db, (statusChanged, None))
    end
  end.

Definition getLivenessRecordFromKV (nodeID : Z) (db : liveness_kv) (cache : Cache) : outcome (Cache * (liveness_error + LivenessRecord)) :=
  match storageImpl_Get db nodeID with
  | inl err => Ret (cache, inl err)
  | inr rec => let! cache := Cache_maybeUpdate rec cache in Ret (cache, inr rec)
  end.

(** ** What the operations write *)

Hypothesis GetProto_SetProto : forall l, GetProto (SetProto l) = Some l.

Lemma SetProto_inj l l' : SetProto l = SetProto l' -> l = l'.
Proof. intros H. apply (f_equal GetProto) in H. rewrite !GetProto_SetProto in H. by injection H. Qed.

Definition rec_wf (r : LivenessRecord) : Prop := rec_raw r = SetProto (rec_Liveness r).

Definition db_wf (db : liveness_kv) : Prop := map_Forall (fun n raw => exists l, raw = SetProto l /\ lv_NodeID l = n) db.

(** The records in the cache satisfy [P]. *)
Definition cache_all (P : LivenessRecord -> Prop) (c : Cache) : Prop :=
  map_Forall (fun n r => lv_NodeID (rec_Liveness r) = n /\ rec_wf r /\ P r) (ca_nodes c).

Lemma cache_all_impl (P Q : LivenessRecord -> Prop) c : (forall r, P r -> Q r) -> cache_all P c -> cache_all Q c.
Proof. intros HPQ Hc n r Hr. destruct (Hc n r Hr) as (?&?&?). auto. Qed.

Lemma maybeUpdate_all P r c c' : rec_wf r -> P r -> cache_all P c -> Cache_maybeUpdate r c = Ret c' -> cache_all P c'.
Proof.
  intros Hw HP Hc. unfold Cache_maybeUpdate. repeat case_match; try done; intros E; inv_ret; subst; try done;
    intros n x; cbn; rewrite lookup_insert_Some; intros [[<- <-]|[_ Hx]]; eauto; by apply Hc.
Qed.

Lemma maybeUpdate_self r c c' : Cache_maybeUpdate r c = Ret c' -> ca_selfID c' = ca_selfID c.
Proof. unfold Cache_maybeUpdate. repeat case_match; try done; intros E; inv_ret; by subst. Qed.

(** The database after an update: as before, or the record that was expected is
    replaced. *)
Definition updated (key : Z) (raw : bytes) (new : Liveness) (db db' : liveness_kv) : Prop :=
  db' = db \/ db !! key = Some raw /\ db' = <[key := SetProto new]> db.

Lemma updated_trans key raw new db db1 db' :
  updated key raw new db db1 -> updated key raw new db1 db' -> updated key raw new db db'.
Proof.
  intros [->|[H1 ->]]; [done|]. intros [->|[_ ->]]; right; [done|]. split; [done|]. by rewrite insert_insert_eq.
Qed.

(** The callbacks of the operations below: the cache takes the actual record, and an
    error is returned. *)
Definition refresh (h : LivenessRecord -> Cache -> outcome (option liveness_error * Cache)) : Prop :=
  forall r s err s', h r s = Ret (err, s') ->
    Cache_maybeUpdate r s = Ret s' /\ err <> None /\ err <> Some errRetryLiveness.

Lemma refresh_empty h s err s' : refresh h -> h empty_Record s <> Ret (err, s').
Proof. intros Hh E. by destruct (Hh _ _ _ _ E) as [? _]. Qed.

Section update.
Context (P : LivenessRecord -> Prop) (h : LivenessRecord -> Cache -> outcome (option liveness_error * Cache)) (Hh : refresh h).

(** The cache has not changed, or has taken a record that [P] holds for or that is
    in the database. *)
Definition refreshed (db : liveness_kv) (s s' : Cache) : Prop :=
  s' = s \/ exists r, rec_wf r /\ Cache_maybeUpdate r s = Ret s' /\
    (P r \/ db !! lv_NodeID (rec_Liveness r) = Some (rec_raw r)).

(** The effect of an update: success means that the expected record was found. *)
Definition write_spec (u : LivenessUpdate) (db db' : liveness_kv) (w : LivenessRecord) (err : option liveness_error) : Prop :=
  let n := lv_NodeID (up_newLiveness u) in
  updated n (SetProto (up_oldLiveness u)) (up_newLiveness u) db db' /\
  (err = None -> w = mkRecord (up_newLiveness u) (SetProto (up_newLiveness u)) /\ db' !! n = Some (SetProto (up_newLiveness u)) /\
     db !! n = Some (SetProto (up_oldLiveness u))).

Lemma write_spec_err u db w err : write_spec u db db w (Some err).
Proof. split; [by left|done]. Qed.

Lemma refreshed_same db s : refreshed db s s.
Proof. by left. Qed.

Hint Resolve write_spec_err refreshed_same : core.

Lemma storage_Update_spec o u db s db' s' w err :
  up_oldRaw u = Some (SetProto (up_oldLiveness u)) -> db_wf db ->
  storageImpl_Update o u h db s = Ret (db', s', (w, err)) ->
  write_spec u db db' w err /\ refreshed db' s s' /\ (err = None \/ err = Some errRetryLiveness -> s' = s).
Proof.
  intros Hu Hdb. unfold storageImpl_Update, write_spec. rewrite Hu. set (n := lv_NodeID (up_newLiveness u)) in *. destruct o as [|ap|].
  - destruct (bool_decide (db !! n = _)) eqn:Em.
    { apply bool_decide_eq_true in Em. intros E. inv_ret. split_and!; [by right| |by left|done].
      intros _. split_and!; [done|by rewrite lookup_insert_eq|done]. }
    destruct (db !! n) as [raw'|] eqn:En.
    2:{ intros E. inv_ret. match goal with x : (option _ * _)%type |- _ => destruct x end. by edestruct refresh_empty. }
    destruct (Hdb _ _ En) as (l & -> & Hl). rewrite GetProto_SetProto. intros E. inv_ret.
    match goal with x : (option _ * _)%type |- _ => destruct x as [err1 s1] end. inv_ret.
    edestruct Hh as (?&?&?); [eassumption|]. split_and!; [by left|done| |by intros []].
    right. exists (mkRecord l (SetProto l)). split_and!; [done|done|right]. cbn. by rewrite Hl.
  - intros E. inv_ret. split_and!; [|done|by left|done]. destruct (ap && _) eqn:Em; [|by left].
    bool_to_prop. by right.
  - intros E. inv_ret. split_and!; [by left|done|by left|done].
Qed.

Lemma updateLivenessAttempt_spec o cache u db s db' s' w err :
  up_oldRaw u = None -> db_wf db -> cache_all P cache ->
  updateLivenessAttempt o cache u h db s = Ret (db', s', (w, err)) ->
  write_spec u db db' w err /\ refreshed db' s s' /\ (err = None \/ err = Some errRetryLiveness -> s' = s).
Proof.
  intros Hu Hdb Hc. unfold updateLivenessAttempt, Cache_getLiveness. rewrite Hu. set (n := lv_NodeID (up_newLiveness u)) in *.
  destruct (ca_nodes cache !! n) as [l|] eqn:El; [|intros E; inv_ret; by auto].
  destruct (Hc _ _ El) as (Hn & Hw & Hl). destruct (bool_decide (rec_Liveness l = _)) eqn:Eq; cbn [negb].
  - apply bool_decide_eq_true in Eq. unfold rec_wf in Hw. rewrite Eq in Hw. intros E.
    apply storage_Update_spec in E; [done| |done]. cbn. by rewrite Hw.
  - intros E. inv_ret. match goal with x : (option _ * _)%type |- _ => destruct x as [err1 s1] end. inv_ret.
    edestruct Hh as (?&?&?); [eassumption|]. destruct err; [|done]. split_and!; [auto|right; eauto|by intros []].
Qed.

Lemma updated_wf u raw db db' :
  updated (lv_NodeID (up_newLiveness u)) raw (up_newLiveness u) db db' -> db_wf db -> db_wf db'.
Proof. intros [->|[_ ->]] Hdb; [done|]. apply map_Forall_insert_2; [eauto|done]. Qed.

Lemma updateLiveness_spec disk os cache u db s db' s' w err :
  up_oldRaw u = None -> db_wf db -> cache_all P cache ->
  updateLiveness disk os cache u h db s = Ret (db', s', (w, err)) ->
  write_spec u db db' w err /\ refreshed db' s s' /\ (err = None -> s' = s).
Proof.
  intros Hu Hdb Hc. unfold updateLiveness. destruct disk; [intros E; inv_ret; by auto|].
  revert db s Hdb. induction os as [|o os IH]; cbn [updateLiveness_loop]; intros db s Hdb E.
  { inv_ret. by auto. }
  apply obind_Ret in E as ([[db1 s1] [w1 err1]] & E1 & E).
  apply updateLivenessAttempt_spec in E1 as ([Hup Hok] & Hs1 & Hsame); [|done..].
  destruct err1 as [err1|]; [|inv_ret; split_and!; [split; done|done|by eauto]].
  destruct (bool_decide (err1 = _)) eqn:Er; [|inv_ret; split_and!; [split; done|done|done]].
  apply bool_decide_eq_true in Er as ->. rewrite Hsame in E by eauto.
  apply IH in E as ([Hup' Hok'] & Hs' & Hsame'); [|by eapply updated_wf].
  split_and!; [split; [by eapply updated_trans|]|done|done]. intros He. destruct (Hok' He) as (?&?&Hold). split_and!; [done|done|].
  destruct Hup as [->|[? ->]]; done.
Qed.

End update.

(** ** How records evolve *)

(** A heartbeat moves the expiration forward; an epoch is ended by others only once
    the record has expired by the clock of the node that ends it. *)
Definition record_step (now : Timestamp) (old new : Liveness) : Prop :=
  lv_NodeID new = lv_NodeID old /\
  (lv_Epoch new = lv_Epoch old /\ ts_le (lv_Expiration old) (lv_Expiration new) \/
   lv_Epoch new = lv_Epoch old + 1 /\ lv_Expiration new = lv_Expiration old /\ ts_le (lv_Expiration old) now).

Definition db_step (now : Timestamp) (db db' : liveness_kv) : Prop :=
  db' = db \/ exists old new, db !! lv_NodeID old = Some (SetProto old) /\ db' = <[lv_NodeID old := SetProto new]> db /\
    record_step now old new.

Definition in_db (db : liveness_kv) (r : LivenessRecord) : Prop := db !! lv_NodeID (rec_Liveness r) = Some (rec_raw r).

Lemma refreshed_all P db' c c' : refreshed P db' c c' -> cache_all P c -> cache_all (fun r => P r \/ in_db db' r) c'.
Proof.
  intros [->|(r & Hw & Hr & HP)] Hc.
  - eapply cache_all_impl; [|done]. by left.
  - eapply (maybeUpdate_all (fun r => P r \/ in_db db' r)); [done|exact HP| |done]. eapply cache_all_impl; [|done]. by left.
Qed.

Lemma write_cache_all P u db db' w err c1 c2 :
  write_spec u db db' w err -> err = None -> cache_all (fun r => P r \/ in_db db' r) c1 -> Cache_maybeUpdate w c1 = Ret c2 ->
  cache_all (fun r => P r \/ in_db db' r) c2.
Proof.
  intros [_ Hok] He Hc. destruct (Hok He) as (-> & Hnew & _). apply maybeUpdate_all; [done|by right|done].
Qed.

Lemma heartbeat_spec P thr t1 t2 t3 disk os old db cache db' cache' err :
  db_wf db -> cache_all P cache ->
  heartbeatInternal thr t1 t2 t3 disk os old false db cache = Ret (db', cache', err) ->
  db_step t2 db db' /\ db_wf db' /\ cache_all (fun r => P r \/ in_db db' r) cache'.
Proof.
  intros Hdb Hc. unfold heartbeatInternal.
  assert (Hsame : cache_all (fun r => P r \/ in_db db r) cache) by (eapply cache_all_impl; [|done]; by left).
  destruct (_ && _); [intros E; inv_ret; split_and!; [by left|done|done]|].
  destruct (bool_decide _) eqn:Ee; [intros E; inv_ret; split_and!; [by left|done|done]|].
  set (new := _ <| lv_Expiration := _ |>). destruct (Timestamp_Less _ _) eqn:El; [intros E; inv_ret; split_and!; [by left|done|done]|].
  apply Timestamp_Less_false in El. intros E. apply obind_Ret in E as ([[db1 c1] [w err1]] & E1 & E).
  apply (updateLiveness_spec P) in E1 as (Hw & Hr & _); [|clear; intros r s err s' E; unfold obind in E; repeat case_match; by inv_ret|done..].
  pose proof (refreshed_all _ _ _ _ Hr Hc) as Hc1. pose proof Hw as [Hup _]. cbn in Hup.
  assert (Hdb1 : db_step t2 db db1 /\ db_wf db1).
  { split; [|by eapply (updated_wf (mkLivenessUpdate new old None))]. destruct Hup as [->|[Ho ->]]; [by left|right].
    exists old, new. split_and!; [exact Ho|done|]. split; [done|]. by left. }
  destruct err1; inv_ret; [tauto|]. split_and!; [tauto..|]. by eapply write_cache_all.
Qed.

(** Success means that the epoch ended with the given record. *)
Lemma IncrementEpoch_spec P now disk os l db cache db' cache' err :
  db_wf db -> cache_all P cache -> 0 <= lv_Epoch l < MaxInt64 ->
  NodeLiveness_IncrementEpoch now disk os l db cache = Ret (db', cache', err) ->
  db_step now db db' /\ db_wf db' /\ cache_all (fun r => P r \/ in_db db' r) cache' /\
  (err = None -> db !! lv_NodeID l = Some (SetProto l) /\
     db' !! lv_NodeID l = Some (SetProto (l <| lv_Epoch := lv_Epoch l + 1 |>))).
Proof.
  intros Hdb Hc He. unfold NodeLiveness_IncrementEpoch, Liveness_IsLive.
  assert (Hsame : cache_all (fun r => P r \/ in_db db r) cache) by (eapply cache_all_impl; [|done]; by left).
  destruct (Timestamp_Less _ _) eqn:El; [intros E; inv_ret; split_and!; [by left|done|done|done]|].
  apply Timestamp_Less_false in El. rewrite int64_small by lia. set (new := l <| lv_Epoch := _ |>).
  intros E. apply obind_Ret in E as ([[db1 c1] [w err1]] & E1 & E).
  apply (updateLiveness_spec P) in E1 as (Hw & Hr & _); [|clear; intros r s err s' E; unfold obind in E; repeat case_match; by inv_ret|done..].
  pose proof (refreshed_all _ _ _ _ Hr Hc) as Hc1. pose proof Hw as [Hup Hok]. cbn in Hup, Hok.
  assert (Hdb1 : db_step now db db1 /\ db_wf db1).
  { split; [|by eapply (updated_wf (mkLivenessUpdate new l None))]. destruct Hup as [->|[Ho ->]]; [by left|right].
    exists l, new. split_and!; [exact Ho|done|]. split; [done|]. by right. }
  destruct err1; inv_ret; [by destruct Hdb1|]. destruct (Hok eq_refl) as (_&?&?). split_and!; [tauto..| |done]. by eapply write_cache_all.
Qed.

(** ** Membership *)

Lemma updateLiveness_db {S} disk os cache u raw (h : LivenessRecord -> S -> outcome (option liveness_error * S)) db s db' s' res :
  up_oldRaw u = Some raw -> updateLiveness disk os cache u h db s = Ret (db', s', res) ->
  updated (lv_NodeID (up_newLiveness u)) raw (up_newLiveness u) db db'.
Proof.
  intros Hu. unfold updateLiveness. destruct disk; [intros E; inv_ret; by left|].
  revert db s. induction os as [|o os IH]; cbn [updateLiveness_loop]; intros db s E; [inv_ret; by left|].
  apply obind_Ret in E as ([[db1 s1] [w1 err1]] & E1 & E).
  assert (Hup : updated (lv_NodeID (up_newLiveness u)) raw (up_newLiveness u) db db1).
  { unfold updateLivenessAttempt, storageImpl_Update in E1. rewrite Hu in E1. destruct o as [|ap|]; [| |inv_ret; by left].
    - destruct (bool_decide _) eqn:Em; [inv_ret; bool_to_prop; by right|].
      repeat case_match; inv_ret; repeat case_match; inv_ret; by left.
    - inv_ret. destruct (ap && _) eqn:Em; [bool_to_prop; by right|by left]. }
  destruct err1 as [err1|]; [|by inv_ret]. destruct (bool_decide _); [|by inv_ret]. eapply updated_trans; [done|]. by apply (IH db1 s1).
Qed.

(** The transitions of the membership of a node. *)
Definition membership_ok (old new : MembershipStatus) : Prop :=
  old = new \/ old = ACTIVE /\ new = DECOMMISSIONING \/ old = DECOMMISSIONING.

Lemma ValidateTransition_true old new : ValidateTransition old new = inr true -> membership_ok (lv_Membership old) new.
Proof.
  unfold ValidateTransition, membership_ok. repeat case_match; try done. bool_to_prop. intros _.
  destruct (lv_Membership old), new; cbn in *; auto; naive_solver.
Qed.

(** An operation on the liveness range, by a node with the given cache. *)
Inductive liveness_op (cache : Cache) (db : liveness_kv) : liveness_kv -> Prop :=
| op_heartbeat thr t1 t2 t3 disk os old inc db' cache' err :
    heartbeatInternal thr t1 t2 t3 disk os old inc db cache = Ret (db', cache', err) -> liveness_op cache db db'
| op_increment now disk os l db' cache' err :
    NodeLiveness_IncrementEpoch now disk os l db cache = Ret (db', cache', err) -> liveness_op cache db db'
| op_draining disk os r drain db' cache' err : rec_wf r ->
    setDrainingInternal disk os r drain db cache = Ret (db', cache', err) -> liveness_op cache db db'
| op_membership disk os r target db' changed err : rec_wf r ->
    setMembershipStatusInternal disk os r target db cache = Ret (db', (changed, err)) -> liveness_op cache db db'
| op_create o n err db' : storageImpl_Create o n db = (db', err) -> liveness_op cache db db'.

(** What an operation does to the range: the expected record is replaced, or one is
    created. *)
Definition op_effect (db db' : liveness_kv) : Prop :=
  db' = db \/
  (exists old new, db !! lv_NodeID old = Some (SetProto old) /\ db' = <[lv_NodeID old := SetProto new]> db /\
     lv_NodeID new = lv_NodeID old /\ membership_ok (lv_Membership old) (lv_Membership new)) \/
  (exists new, db !! lv_NodeID new = None /\ db' = <[lv_NodeID new := SetProto new]> db).

Lemma updated_effect old new db db' :
  updated (lv_NodeID new) (SetProto old) new db db' -> lv_NodeID new = lv_NodeID old ->
  membership_ok (lv_Membership old) (lv_Membership new) -> op_effect db db'.
Proof. intros [->|[Ho ->]] Hn Hm; [by left|right; left]. exists old, new. by rewrite <- Hn. Qed.

Lemma liveness_op_effect cache db db' :
  db_wf db -> cache_all (fun _ => True) cache -> liveness_op cache db db' -> op_effect db db'.
Proof.
  intros Hdb Hc Hop. assert (Hsame : op_effect db db) by by left.
  destruct Hop as [thr t1 t2 t3 disk os old inc db' cache' err E|now disk os old db' cache' err E|disk os r drain db' cache' err Hw E
    |disk os r target db' changed err Hw E|o m err db' E].
  - unfold heartbeatInternal in E. destruct (_ && _); [by inv_ret|]. destruct (bool_decide _); [by inv_ret|].
    set (new := _ <| lv_Expiration := _ |>) in E. destruct (Timestamp_Less _ _); [by inv_ret|].
    apply obind_Ret in E as ([[db1 c1] [w err1]] & E1 & E).
    apply (updateLiveness_spec (fun _ => True)) in E1 as ([Hup _] & _); [|clear; intros r s err s' E; unfold obind in E; repeat case_match; by inv_ret|done..].
    replace db' with db1 by (destruct err1; by inv_ret). apply (updated_effect old new); [exact Hup|..]; unfold new; destruct inc; first [done|by left].
  - unfold NodeLiveness_IncrementEpoch in E. destruct (Liveness_IsLive _ _); [by inv_ret|].
    apply obind_Ret in E as ([[db1 c1] [w err1]] & E1 & E).
    apply (updateLiveness_spec (fun _ => True)) in E1 as ([Hup _] & _); [|clear; intros r s err s' E; unfold obind in E; repeat case_match; by inv_ret|done..].
    replace db' with db1 by (destruct err1; by inv_ret). eapply updated_effect; [exact Hup|..]; [done|by left].
  - unfold setDrainingInternal in E. destruct (bool_decide _); [by inv_ret|]. apply obind_Ret in E as ([[db1 c1] [w err1]] & E1 & E).
    eapply updateLiveness_db in E1; [|done]. rewrite Hw in E1.
    replace db' with db1 by (destruct err1; by inv_ret). eapply updated_effect; [exact E1|..]; [done|by left].
  - unfold setMembershipStatusInternal in E. destruct (ValidateTransition _ _) as [|[]] eqn:Ev; [by inv_ret| |by inv_ret].
    apply obind_Ret in E as ([[db1 c1] [w err1]] & E1 & E). eapply updateLiveness_db in E1; [|done]. rewrite Hw in E1.
    replace db' with db1 by (destruct err1; by inv_ret). eapply updated_effect; [exact E1|..]; [done|]. by apply ValidateTransition_true.
  - unfold storageImpl_Create in E. destruct (decide (db !! m = None)) as [Hm|Hm].
    + assert (Hcr : op_effect db (<[m := SetProto (mkLiveness m 0 (mkTimestamp 0 0) false ACTIVE)]> db)).
      { right. right. by exists (mkLiveness m 0 (mkTimestamp 0 0) false ACTIVE). }
      destruct o as [|ap|]; [destruct (bool_decide _)|destruct (ap && _)|]; by injection E as <- <-.
    + rewrite bool_decide_false in E by done. destruct o; rewrite ?andb_false_r in E; by injection E as <- <-.
Qed.

Lemma op_effect_wf db db' : op_effect db db' -> db_wf db -> db_wf db'.
Proof.
  intros [->|[(old & new & _ & -> & Hn & _)|(new & _ & ->)]] Hdb; [done|..]; (apply map_Forall_insert_2; [by eexists|done]).
Qed.

Lemma op_effect_membership db db' n l : op_effect db db' -> db !! n = Some (SetProto l) ->
  exists l', db' !! n = Some (SetProto l') /\ membership_ok (lv_Membership l) (lv_Membership l').
Proof.
  intros Heff Hl. assert (Hsame : membership_ok (lv_Membership l) (lv_Membership l)) by by left.
  destruct Heff as [->|[(old & new & Ho & -> & Hn & Hm)|(new & Ho & ->)]]; [by exists l|..].
  - destruct (decide (n = lv_NodeID old)) as [->|Hne].
    + exists new. rewrite lookup_insert_eq. split; [done|]. rewrite Hl in Ho. injection Ho as Ho. by apply SetProto_inj in Ho as ->.
    + exists l. by rewrite lookup_insert_ne.
  - exists l. rewrite lookup_insert_ne; [done|]. intros Hn. congruence.
Qed.

(** A liveness range that nodes operate on, each with records in its cache. *)
Inductive liveness_reach : liveness_kv -> liveness_kv -> Prop :=
| lr_refl db : liveness_reach db db
| lr_step db db1 db' cache : liveness_reach db db1 -> cache_all (fun _ => True) cache -> liveness_op cache db1 db' ->
    liveness_reach db db'.

Lemma liveness_reach_wf db db' : liveness_reach db db' -> db_wf db -> db_wf db'.
Proof.
  induction 1 as [|db db1 db' cache _ IH Hc Hop]; [done|]. intros Hdb. specialize (IH Hdb).
  by apply (op_effect_wf db1); [apply (liveness_op_effect cache)|].
Qed.

(** C21. A node that has been fully decommissioned stays so, and keeps its record: no
    heartbeat, epoch increment, change of the draining flag or of the membership, by
    any node and with any records in its cache, brings it back. *)
Theorem decommissioned_final db db' n l :
  db_wf db -> liveness_reach db db' -> db !! n = Some (SetProto l) -> lv_Membership l = DECOMMISSIONED ->
  exists l', GetProto <$> db' !! n = Some (Some l') /\ lv_Membership l' = DECOMMISSIONED.
Proof.
  intros Hdb Hr Hl Hm. assert (H : exists l', db' !! n = Some (SetProto l') /\ lv_Membership l' = DECOMMISSIONED).
  { induction Hr as [|db db1 db' cache Hr IH Hc Hop]; [eauto|]. destruct (IH Hdb Hl) as (l1 & H1 & Hm1).
    eapply op_effect_membership in H1 as (l2 & H2 & Hm2); [|apply (liveness_op_effect cache); [by eapply liveness_reach_wf|done..]].
    exists l2. split; [done|]. rewrite Hm1 in Hm2. by destruct Hm2 as [<-|[[]|]]. }
  destruct H as (l' & -> & ?). exists l'. cbn. by rewrite GetProto_SetProto.
Qed.

End storage.

(** ** Suspect nodes *)

Inductive cache_step (c : Cache) : Cache -> Prop :=
| cs_liveness r c' : Cache_maybeUpdate r c = Ret c' -> cache_step c c'
| cs_store nodeID now : cache_step c (Cache_storeGossipUpdate nodeID now c)
| cs_stale now interval : cache_step c (Cache_checkForStaleEntries now interval c).

(** The caches that [NewCache] and the updates of its maps lead to. *)
Inductive cache_reach (self : Z) : Cache -> Prop :=
| cr_new : cache_reach self (mkCache self ∅ ∅)
| cr_step c c' : cache_reach self c -> cache_step c c' -> cache_reach self c'.

Lemma checkForStaleEntries_loop_id now interval es c : checkForStaleEntries_loop now interval es c = c.
Proof. induction es as [|[] es IH]; [done|apply IH]. Qed.

Lemma never_unavailable self c : cache_reach self c -> map_Forall (fun _ u => ui_lastUnavailableTime u = mkTimestamp 0 0) (ca_lastNodeUpdate c).
Proof.
  induction 1 as [|c c' _ IH Hs]; [apply map_Forall_empty|]. destruct Hs as [r c' E|nodeID t|t interval].
  - unfold Cache_maybeUpdate in E. repeat case_match; inv_ret; by subst.
  - unfold Cache_storeGossipUpdate. destruct (nodeID =? 0); [done|]. apply map_Forall_insert_2; [|done]. cbn.
    destruct (ca_lastNodeUpdate c !! nodeID) as [u|] eqn:Eu; [by apply (IH _ _ Eu)|done].
  - unfold Cache_checkForStaleEntries. by rewrite checkForStaleEntries_loop_id.
Qed.

(** C23. The time at which a node was last unavailable is never recorded: the
    assignment of [checkForStaleEntries] is to a copy. So no node is ever suspect: a
    node with an unexpired record counts as alive as soon as its store descriptors are
    gossiped again, whatever the length of the outage before that and of the time
    ([suspect]) for which it should not be. *)
Theorem suspect_never_recorded self c now connected dead suspect n r :
  cache_reach self c -> Cache_getLiveness c n = Some r ->
  let l := rec_Liveness r in
  lv_NodeID l <> 0 -> lv_Membership l <> DECOMMISSIONED -> Liveness_IsLive l now = true ->
  Timestamp_After now (Timestamp_AddDuration (ui_lastUpdateTime (Cache_lastDescriptorUpdate c (lv_NodeID l))) dead) = false ->
  let nv := Cache_GetNodeVitality c now connected dead suspect n in
  nv_descUnavailableTime nv = mkTimestamp 0 0 /\ NodeVitality_isAlive nv = true.
Proof.
  intros Hr Hl l Hn Hm Hlive Hdesc nv. assert (nv_descUnavailableTime nv = mkTimestamp 0 0) as Hz.
  { unfold nv, Cache_GetNodeVitality. rewrite Hl. unfold Cache_convertToNodeVitality, Cache_lastDescriptorUpdate. cbn.
    case_match eqn:E; [by apply (never_unavailable self c Hr _ _ E)|done]. }
  split; [done|]. unfold NodeVitality_isAlive, NodeVitality_IsDecommissioned. rewrite Hz. unfold nv, Cache_GetNodeVitality. rewrite Hl. cbn.
  fold l. rewrite Hdesc, andb_false_r. unfold NodeVitality_isValid. rewrite bool_decide_eq_false_2 by (by intros [=]).
  unfold MembershipStatus_Decommissioned. rewrite bool_decide_eq_false_2 by done. cbn. unfold Liveness_IsLive in Hlive. rewrite Hlive. by destruct (_ =? 0).
Qed.

(** A node that is silent from time 1 on, is found stale at time 1000, and gossips at
    time 1001. *)
Definition example_heard : Cache := mkCache 1 ∅ {[ 2 := mkRecord (mkLiveness 2 1 (mkTimestamp 2000 0) false ACTIVE) [] ]}.
Definition example_silent : Cache := Cache_storeGossipUpdate 2 (mkTimestamp 1 0) example_heard.
Definition example_stale : Cache := Cache_checkForStaleEntries (mkTimestamp 1000 0) 100 example_silent.
Definition example_back : Cache := Cache_storeGossipUpdate 2 (mkTimestamp 1001 0) example_stale.

Lemma suspect_never_recorded_witness : NodeVitality_isAlive (Cache_GetNodeVitality example_back (mkTimestamp 1002 0) true 100 500 2) = true.
Proof.
  refine (proj2 (suspect_never_recorded 1 example_back (mkTimestamp 1002 0) true 100 500 2 _ _ eq_refl _ _ eq_refl eq_refl)); try done.
  apply (cr_step 1 example_stale); [|constructor]. apply (cr_step 1 example_silent); [|constructor]. apply (cr_step 1 example_heard); [|constructor].
  apply (cr_step 1 (mkCache 1 ∅ ∅)); [constructor|]. by apply (cs_liveness _ (mkRecord (mkLiveness 2 1 (mkTimestamp 2000 0) false ACTIVE) [])).
Defined.

(** ** A concrete encoding *)

#[global] Instance MembershipStatus_countable : Countable MembershipStatus.
Proof.
  refine (inj_countable' (fun m => match m with ACTIVE => 0 | DECOMMISSIONING => 1 | DECOMMISSIONED => 2 end)
    (fun z => if z =? 0 then ACTIVE else if z =? 1 then DECOMMISSIONING else DECOMMISSIONED) _). by intros [].
Defined.

#[global] Instance Liveness_countable : Countable Liveness.
Proof.
  refine (inj_countable' (fun l => (lv_NodeID l, lv_Epoch l, (WallTime (lv_Expiration l), Logical (lv_Expiration l)), lv_Draining l, lv_Membership l))
    (fun '(n, e, (w, g), d, m) => mkLiveness n e (mkTimestamp w g) d m) _). by intros [? ? [? ?] ? ?].
Defined.

Fixpoint positive_bytes (p : positive) : bytes :=
  match p with xH => [] | xO p => Byte.x00 :: positive_bytes p | xI p => Byte.x01 :: positive_bytes p end.

Fixpoint bytes_positive (b : bytes) : positive :=
  match b with [] => xH | Byte.x00 :: b => xO (bytes_positive b) | _ :: b => xI (bytes_positive b) end.

Definition liveness_bytes (l : Liveness) : bytes := positive_bytes (encode l).
Definition bytes_liveness (b : bytes) : option Liveness := decode (bytes_positive b).

Lemma liveness_bytes_spec l : bytes_liveness (liveness_bytes l) = Some l.
Proof.
  unfold bytes_liveness, liveness_bytes. assert (forall p, bytes_positive (positive_bytes p) = p) as -> by (induction p; cbn; congruence). apply decode_encode.
Qed.

(** A decommissioned node that heartbeats its record, and tries to be active again. *)
Definition example_decommissioned : Liveness := mkLiveness 1 3 (mkTimestamp 50 0) false DECOMMISSIONED.
Definition example_db : gmap Z bytes := {[1 := liveness_bytes example_decommissioned]}.
Definition example_cache : Cache := mkCache 1 ∅ {[1 := mkRecord example_decommissioned (liveness_bytes example_decommissioned)]}.

Definition example_heartbeat : gmap Z bytes :=
  match heartbeatInternal liveness_bytes bytes_liveness 100 (mkTimestamp 40 0) (mkTimestamp 41 0) (mkTimestamp 42 0) None [TxnCommit]
    example_decommissioned false example_db example_cache with
  | Ret (db, _, _) => db
  | Panic _ => ∅
  end.

Lemma decommissioned_final_witness :
  bytes_liveness <$> example_heartbeat !! 1 = Some (Some (example_decommissioned <| lv_Expiration := mkTimestamp 141 0 |>)) /\
  exists l, bytes_liveness <$> example_heartbeat !! 1 = Some (Some l) /\ lv_Membership l = DECOMMISSIONED.
Proof.
  split; [by vm_compute|]. apply (decommissioned_final liveness_bytes bytes_liveness liveness_bytes_spec example_db example_heartbeat 1 example_decommissioned).
  - apply map_Forall_insert_2; [by eexists|apply map_Forall_empty].
  - eapply (lr_step _ _ _ example_db _ example_cache); [apply lr_refl|apply map_Forall_insert_2; [done|apply map_Forall_empty]|].
    eapply (op_heartbeat _ _ _ _ 100 (mkTimestamp 40 0) (mkTimestamp 41 0) (mkTimestamp 42 0) None [TxnCommit] example_decommissioned false). by vm_compute.
  - done.
  - done.
Defined.
