(* ===== verification/Lease.v ===== *)
(** * Range leases (src/pkg/roachpb, src/pkg/kv/kvserver/kvserverpb, src/pkg/kv/kvserver/leases/status.go)

    The replicas of a range, the lease and its types, when two leases are the same
    lease ([Lease_Equivalent]), when a lease expires ([LeaseStatus_Expiration]) and
    whether it can be used at a given time for a request at a given timestamp
    ([leases_Status]). Go compares the pointers of two leases' expirations; here the
    values are compared, which differs only for leases of the same type that are
    copies of one another.

    Also kvpb's errors about leases, and [CheckCanReceiveLease]. *)

From S2P Require Import Prelude Hlc Quorum Tracker RaftPb Raft RawNode NodeLiveness.

Abbreviation zero_ts := (mkTimestamp 0 0).

(** ** Replicas (roachpb/metadata.go, roachpb/metadata_replicas.go) *)

Inductive ReplicaType : Set :=
| VOTER_FULL | LEARNER | VOTER_INCOMING | VOTER_OUTGOING | VOTER_DEMOTING_LEARNER | NON_VOTER | VOTER_DEMOTING_NON_VOTER.

#[global] Instance ReplicaType_eq_dec : EqDecision ReplicaType.
Proof. solve_decision. Defined.

Record ReplicaDescriptor : Type := mkReplicaDescriptor {
  rd_NodeID : Z;
  rd_StoreID : Z;
  rd_ReplicaID : Z;
  rd_Type : ReplicaType
}.

#[global] Instance eta_ReplicaDescriptor : Eta ReplicaDescriptor := fun r =>
  mkReplicaDescriptor (rd_NodeID r) (rd_StoreID r) (rd_ReplicaID r) (rd_Type r).
#[global] Instance ReplicaDescriptor_eq_dec : EqDecision ReplicaDescriptor.
Proof. solve_decision. Defined.

Definition empty_ReplicaDescriptor : ReplicaDescriptor := mkReplicaDescriptor 0 0 0 VOTER_FULL.

(** The fields of RangeDescriptor that the lease code reads. *)
Record RangeDescriptor : Type := mkRangeDescriptor {
  rng_RangeID : Z;
  rng_InternalReplicas : list ReplicaDescriptor
}.

#[global] Instance RangeDescriptor_eq_dec : EqDecision RangeDescriptor.
Proof. solve_decision. Defined.

Abbreviation ReplicaSet := (list ReplicaDescriptor).

Definition predVoterFullOrIncoming (r : ReplicaDescriptor) : bool :=
  match rd_Type r with VOTER_FULL | VOTER_INCOMING => true | _ => false end.

Definition predVoterIncoming (r : ReplicaDescriptor) : bool :=
  match rd_Type r with VOTER_INCOMING => true | _ => false end.

(** The loop of [FilterToDescriptors] at the suffix [ds] of the set: [out] is the
    whole set while all elements so far satisfy [pred] (the fast path). *)
Fixpoint FilterToDescriptors_loop (pred : ReplicaDescriptor -> bool) (before ds : ReplicaSet) (fastpath : bool) (out : ReplicaSet)
    {struct ds} : ReplicaSet :=
  match ds with
  | [] => out
  | d :: ds =>
    if pred d then FilterToDescriptors_loop pred (before ++ [d]) ds fastpath (if fastpath then out else out ++ [d])
    else FilterToDescriptors_loop pred (before ++ [d]) ds false (if fastpath then before else out)
  end.

Definition ReplicaSet_FilterToDescriptors (d : ReplicaSet) (pred : ReplicaDescriptor -> bool) : ReplicaSet :=
  FilterToDescriptors_loop pred [] d true d.

Definition ReplicaSet_VoterDescriptors (d : ReplicaSet) : ReplicaSet := ReplicaSet_FilterToDescriptors d predVoterFullOrIncoming.

Definition ReplicaSet_containsVoterIncoming (d : ReplicaSet) : bool := len (ReplicaSet_FilterToDescriptors d predVoterIncoming) >? 0.

Fixpoint ReplicaSet_GetReplicaDescriptorByID (d : ReplicaSet) (id : Z) : option ReplicaDescriptor :=
  match d with
  | [] => None
  | r :: d => if rd_ReplicaID r =? id then Some r else ReplicaSet_GetReplicaDescriptorByID d id
  end.

Fixpoint RangeDescriptor_GetReplicaDescriptor_loop (d : ReplicaSet) (storeID : Z) : option ReplicaDescriptor :=
  match d with
  | [] => None
  | r :: d => if rd_StoreID r =? storeID then Some r else RangeDescriptor_GetReplicaDescriptor_loop d storeID
  end.

Definition RangeDescriptor_GetReplicaDescriptor (r : RangeDescriptor) (storeID : Z) : option ReplicaDescriptor :=
  RangeDescriptor_GetReplicaDescriptor_loop (rng_InternalReplicas r) storeID.

Definition ReplicaDescriptor_IsVoterOldConfig (r : ReplicaDescriptor) : bool :=
  match rd_Type r with
  | VOTER_FULL | VOTER_OUTGOING | VOTER_DEMOTING_NON_VOTER | VOTER_DEMOTING_LEARNER => true
  | _ => false
  end.

Definition ReplicaDescriptor_IsVoterNewConfig (r : ReplicaDescriptor) : bool :=
  match rd_Type r with VOTER_FULL | VOTER_INCOMING => true | _ => false end.

(** ** Leases (roachpb/data.go) *)

Inductive LeaseAcquisitionType : Set := AcqUnspecified | AcqTransfer | AcqRequest.

#[global] Instance LeaseAcquisitionType_eq_dec : EqDecision LeaseAcquisitionType.
Proof. solve_decision. Defined.

Record Lease : Type := mkLease {
  l_Start : Timestamp;
  l_Expiration : option Timestamp;
  l_Replica : ReplicaDescriptor;
  l_DeprecatedStartStasis : option Timestamp;
  l_ProposedTS : Timestamp;
  l_Epoch : Z;
  l_Sequence : Z;
  l_AcquisitionType : LeaseAcquisitionType;
  l_MinExpiration : Timestamp;
  l_Term : Z
}.

#[global] Instance eta_Lease : Eta Lease := fun l =>
  mkLease (l_Start l) (l_Expiration l) (l_Replica l) (l_DeprecatedStartStasis l) (l_ProposedTS l) (l_Epoch l) (l_Sequence l)
    (l_AcquisitionType l) (l_MinExpiration l) (l_Term l).
#[global] Instance Lease_eq_dec : EqDecision Lease.
Proof. solve_decision. Defined.

Definition empty_Lease : Lease :=
  mkLease zero_ts None empty_ReplicaDescriptor None zero_ts 0 0 AcqUnspecified zero_ts 0.

Definition Lease_Empty (l : Lease) : bool := bool_decide (l = empty_Lease).

Definition Lease_OwnedBy (l : Lease) (storeID : Z) : bool := rd_StoreID (l_Replica l) =? storeID.

Inductive LeaseType : Set := LeaseNone | LeaseExpiration | LeaseEpoch | LeaseLeader.

#[global] Instance LeaseType_eq_dec : EqDecision LeaseType.
Proof. solve_decision. Defined.

Definition Lease_Type (l : Lease) : outcome LeaseType :=
  if negb (l_Epoch l =? 0) && negb (l_Term l =? 0) then Panic "lease cannot have both epoch and term"
  else if negb (l_Epoch l =? 0) then Ret LeaseEpoch
  else if negb (l_Term l =? 0) then Ret LeaseLeader
  else Ret LeaseExpiration.

Definition Lease_GetExpiration (l : Lease) : Timestamp := default zero_ts (l_Expiration l).

(** The fields that [Lease_Equivalent] ignores. *)
Definition Equivalent_clear (l : Lease) : Lease :=
  l <| l_ProposedTS := zero_ts |> <| l_DeprecatedStartStasis := None |> <| l_Sequence := 0 |>
    <| l_AcquisitionType := AcqUnspecified |> <| l_Replica := l_Replica l <| rd_Type := VOTER_FULL |> |>.

Definition Lease_Equivalent (l newL : Lease) (expToEpochEquiv : bool) : outcome bool :=
  let l := Equivalent_clear l in
  let newL := Equivalent_clear newL in
  let! typ := Lease_Type l in
  let! '(l, newL) :=
    match typ with
    | LeaseEpoch =>
      let l := l <| l_Expiration := None |> in
      let newL := newL <| l_Expiration := None |> in
      let '(l, newL) := if l_Epoch l =? l_Epoch newL then (l <| l_Epoch := 0 |>, newL <| l_Epoch := 0 |>) else (l, newL) in
      Ret (if Timestamp_LessEq (l_MinExpiration l) (l_MinExpiration newL)
           then (l <| l_MinExpiration := zero_ts |>, newL <| l_MinExpiration := zero_ts |>) else (l, newL))
    | LeaseLeader =>
      let '(l, newL) := if l_Term l =? l_Term newL then (l <| l_Term := 0 |>, newL <| l_Term := 0 |>) else (l, newL) in
      Ret (if Timestamp_LessEq (l_MinExpiration l) (l_MinExpiration newL)
           then (l <| l_MinExpiration := zero_ts |>, newL <| l_MinExpiration := zero_ts |>) else (l, newL))
    | LeaseExpiration =>
      let! newTyp := Lease_Type newL in
      match newTyp with
      | LeaseEpoch =>
        Ret (if expToEpochEquiv
             then (l <| l_Expiration := None |>, newL <| l_Epoch := 0 |> <| l_MinExpiration := zero_ts |>) else (l, newL))
      | LeaseLeader => Ret (l <| l_Expiration := None |>, newL <| l_Term := 0 |> <| l_MinExpiration := zero_ts |>)
      | LeaseExpiration =>
        let l := l <| l_Epoch := 0 |> in
        let newL := newL <| l_Epoch := 0 |> in
        Ret (if Timestamp_LessEq (Lease_GetExpiration l) (Lease_GetExpiration newL)
             then (l <| l_Expiration := None |>, newL <| l_Expiration := None |>) else (l, newL))
      | LeaseNone => Panic "unexpected lease type"
      end
    | LeaseNone => Panic "unexpected lease type"
    end in
  Ret (bool_decide (l = newL)).

(** ** Errors about leases (kvpb/errors.go, leases/errors.go) *)

Inductive ReplicaNeedsSnapshotStatus : Set :=
| NoSnapshotNeeded | LocalReplicaNotLeader | ReplicaUnknown | ReplicaStateProbe | ReplicaStateSnapshot
| ReplicaMatchBelowLeadersFirstIndex | NoRaftStatusAvailable.

#[global] Instance ReplicaNeedsSnapshotStatus_eq_dec : EqDecision ReplicaNeedsSnapshotStatus.
Proof. solve_decision. Defined.

Inductive lease_error : Type :=
| LeaseErr (err : error)
| ErrReplicaNotFound
| ErrReplicaCannotHoldLease
| ErrLiveness (err : liveness_error)
| NotLeaseHolderError (rangeDesc : RangeDescriptor) (replica : ReplicaDescriptor) (lease : option Lease) (msg : string)
| LeaseRejectedError (existing requested : Lease) (msg : lease_error)
| LeaseTransferRejectedBecauseTargetMayNeedSnapshot (target : ReplicaDescriptor) (snapStatus : ReplicaNeedsSnapshotStatus)
| InvalidLeaseError
| BatchTimestampBeforeGCError (timestamp threshold : Timestamp).

Definition AssertionFailedf (msg : string) : lease_error := LeaseErr (Errorf msg []).

Definition NewNotLeaseHolderError (l : Lease) (proposerStoreID : Z) (rangeDesc : RangeDescriptor) (msg : string) : lease_error :=
  let replica := if negb (proposerStoreID =? 0)
                 then default empty_ReplicaDescriptor (RangeDescriptor_GetReplicaDescriptor rangeDesc proposerStoreID)
                 else empty_ReplicaDescriptor in
  let lease := if negb (Lease_Empty l) then
                 match RangeDescriptor_GetReplicaDescriptor rangeDesc (rd_StoreID (l_Replica l)) with
                 | Some _ => Some l
                 | None => None
                 end
               else None in
  NotLeaseHolderError rangeDesc replica lease msg.

Definition NewNotLeaseHolderErrorWithSpeculativeLease (leaseHolder : ReplicaDescriptor) (proposerStoreID : Z)
    (rangeDesc : RangeDescriptor) (msg : string) : lease_error :=
  NewNotLeaseHolderError (empty_Lease <| l_Replica := leaseHolder |>) proposerStoreID rangeDesc msg.

Definition CheckCanReceiveLease (wouldbe : ReplicaDescriptor) (replDescs : ReplicaSet) (wasLastLeaseholder : bool) : option lease_error :=
  match ReplicaSet_GetReplicaDescriptorByID replDescs (rd_ReplicaID wouldbe) with
  | None => Some ErrReplicaNotFound
  | Some repDesc =>
    if negb (rd_StoreID repDesc =? rd_StoreID wouldbe) then
      Some (LeaseErr (Errorf "store ID mismatch: %d != %d" [rd_StoreID repDesc; rd_StoreID wouldbe]))
    else if negb (rd_NodeID repDesc =? rd_NodeID wouldbe) then
      Some (LeaseErr (Errorf "node ID mismatch: %d != %d" [rd_NodeID repDesc; rd_NodeID wouldbe]))
    else if negb (ReplicaDescriptor_IsVoterNewConfig repDesc ||
                  (ReplicaDescriptor_IsVoterOldConfig repDesc && ReplicaSet_containsVoterIncoming replDescs && wasLastLeaseholder))
    then Some ErrReplicaCannotHoldLease
    else None
  end.

(** ** The status of a lease (kvserverpb/lease_status.go, leases/status.go) *)

Inductive LeaseState : Set := ERROR | VALID | UNUSABLE | EXPIRED | PROSCRIBED.

#[global] Instance LeaseState_eq_dec : EqDecision LeaseState.
Proof. solve_decision. Defined.

Record RaftLeaderSupport : Type := mkRaftLeaderSupport {
  rls_Term : Z;
  rls_LeadSupportUntil : Timestamp
}.

Record LeaseStatus : Type := mkLeaseStatus {
  lst_Lease : Lease;
  lst_Now : Timestamp;
  lst_RequestTime : Timestamp;
  lst_State : LeaseState;
  lst_ErrInfo : string;
  lst_Liveness : Liveness;
  lst_MinValidObservedTimestamp : Timestamp;
  lst_LeaderSupport : RaftLeaderSupport
}.

#[global] Instance eta_LeaseStatus : Eta LeaseStatus := fun s =>
  mkLeaseStatus (lst_Lease s) (lst_Now s) (lst_RequestTime s) (lst_State s) (lst_ErrInfo s) (lst_Liveness s)
    (lst_MinValidObservedTimestamp s) (lst_LeaderSupport s).

(** A status of which only the lease is set. *)
Definition status_of_lease (l : Lease) : LeaseStatus :=
  mkLeaseStatus l zero_ts zero_ts ERROR EmptyString empty_Liveness zero_ts (mkRaftLeaderSupport 0 zero_ts).

Definition LeaseStatus_IsValid (st : LeaseStatus) : bool := bool_decide (lst_State st = VALID).
Definition LeaseStatus_IsExpired (st : LeaseStatus) : bool := bool_decide (lst_State st = EXPIRED).
Definition LeaseStatus_OwnedBy (st : LeaseStatus) (storeID : Z) : bool := Lease_OwnedBy (lst_Lease st) storeID.

Definition LeaseStatus_Expiration (st : LeaseStatus) : outcome Timestamp :=
  let! typ := Lease_Type (lst_Lease st) in
  match typ with
  | LeaseExpiration => Ret (Lease_GetExpiration (lst_Lease st))
  | LeaseEpoch =>
    let exp := l_MinExpiration (lst_Lease st) in
    Ret (if l_Epoch (lst_Lease st) =? lv_Epoch (lst_Liveness st)
         then fst (Timestamp_Forward exp (lv_Expiration (lst_Liveness st))) else exp)
  | LeaseLeader =>
    let exp := l_MinExpiration (lst_Lease st) in
    Ret (if l_Term (lst_Lease st) =? rls_Term (lst_LeaderSupport st)
         then fst (Timestamp_Forward exp (rls_LeadSupportUntil (lst_LeaderSupport st))) else exp)
  | LeaseNone => Panic "unexpected"
  end.

Definition LeaseStatus_ClosedTimestampUpperBound (st : LeaseStatus) : outcome Timestamp :=
  let! exp := LeaseStatus_Expiration st in Ret (Timestamp_WallPrev exp).

Record StatusInput : Type := mkStatusInput {
  si_LocalStoreID : Z;
  si_MaxOffset : Z;
  si_MinProposedTs : Timestamp;
  si_MinValidObservedTs : Timestamp;
  si_RaftStatus : LeadSupportStatus;
  si_Now : Timestamp;
  si_RequestTs : Timestamp;
  si_Lease : Lease
}.

(** What the kind of the lease contributes to its status: an error message, or the
    status with the fields that its expiration depends on. *)
Definition Status_support (getLiveness : Z -> option LivenessRecord) (i : StatusInput) (status : LeaseStatus) :
    outcome (string * LeaseStatus + LeaseStatus) :=
  let lease := si_Lease i in
  let! typ := Lease_Type lease in
  match typ with
  | LeaseExpiration => Ret (inr status)
  | LeaseEpoch =>
    let rec := getLiveness (rd_NodeID (l_Replica lease)) in
    let status := status <| lst_Liveness := rec_Liveness (default empty_Record rec) |> in
    match rec with
    | None => Ret (inl ("can't determine lease status of %s due to node liveness error: %v"%string, status))
    | Some _ =>
      if lv_Epoch (lst_Liveness status) <? l_Epoch lease then
        Ret (inl ("can't determine lease status of %s because node liveness info for n%d is stale. lease: %s, liveness: %s"%string, status))
      else Ret (inr status)
    end
  | LeaseLeader =>
    let raftHS := bs_HardState (ls_BasicStatus (si_RaftStatus i)) in
    if Lease_OwnedBy lease (si_LocalStoreID i) then
      Ret (inr (status <| lst_LeaderSupport := mkRaftLeaderSupport (hs_Term raftHS) (ls_LeadSupportUntil (si_RaftStatus i)) |>))
    else
      let knownNotExpired := Timestamp_Less (si_Now i) (l_MinExpiration lease) in
      if negb knownNotExpired then
        let knownSuccessor := (hs_Term raftHS >? l_Term lease) && negb (hs_Lead raftHS =? None_ID) in
        if negb knownSuccessor then
          Ret (inl ("leader lease is not held locally, cannot determine validity"%string, status))
        else Ret (inr status)
      else Ret (inr status)
  | LeaseNone => Panic "unexpected lease type"
  end.

Definition leases_Status (getLiveness : Z -> option LivenessRecord) (i : StatusInput) : outcome LeaseStatus :=
  let lease := si_Lease i in
  let status := mkLeaseStatus lease (si_Now i) (si_RequestTs i) ERROR EmptyString empty_Liveness (si_MinValidObservedTs i)
    (mkRaftLeaderSupport 0 zero_ts) in
  let! sup := Status_support getLiveness i status in
  match sup with
  | inl (msg, status) => Ret (status <| lst_State := ERROR |> <| lst_ErrInfo := msg |>)
  | inr status =>
    let! expiration := LeaseStatus_Expiration status in
    let stasis := Timestamp_Add expiration (- si_MaxOffset i) 0 in
    let ownedLocally := Lease_OwnedBy lease (si_LocalStoreID i) in
    Ret (status <| lst_State :=
      if Timestamp_LessEq expiration (si_Now i) then EXPIRED
      else if ownedLocally && Timestamp_Less (l_ProposedTS lease) (si_MinProposedTs i) then PROSCRIBED
      else if Timestamp_LessEq stasis (si_RequestTs i) then UNUSABLE
      else VALID |>)
  end.

(** ** Replica sets *)

Lemma FilterToDescriptors_loop_spec pred before ds (fastpath : bool) out :
  out = (if fastpath then before ++ ds else List.filter pred before) -> (fastpath = true -> List.filter pred before = before) ->
  FilterToDescriptors_loop pred before ds fastpath out = List.filter pred (before ++ ds).
Proof.
  revert before fastpath out. induction ds as [|d ds IH]; intros before fastpath out Hout Hfast; cbn.
  - rewrite app_nil_r. destruct fastpath; [|done]. rewrite app_nil_r in Hout. by rewrite Hfast.
  - assert (Hf : List.filter pred (before ++ [d]) = List.filter pred before ++ (if pred d then [d] else [])).
    { rewrite List.filter_app. cbn. by destruct (pred d). }
    replace (before ++ d :: ds) with ((before ++ [d]) ++ ds) by (by rewrite <- app_assoc).
    destruct (pred d) eqn:Ed; apply IH; rewrite ?Hf, ?app_nil_r; destruct fastpath; subst; try done.
    + by rewrite <- app_assoc.
    + intros _. by rewrite Hfast.
    + by rewrite Hfast.
Qed.

Lemma FilterToDescriptors_filter d pred : ReplicaSet_FilterToDescriptors d pred = List.filter pred d.
Proof. apply (FilterToDescriptors_loop_spec pred [] d); done. Qed.

(** ** Types of leases *)

(** The fields of a lease are those of its type. *)
Definition lease_wf (l : Lease) : Prop :=
  match Lease_Type l with
  | Ret LeaseExpiration => l_Expiration l <> None /\ l_MinExpiration l = zero_ts
  | Ret LeaseEpoch | Ret LeaseLeader => l_Expiration l = None
  | _ => False
  end.

Lemma Lease_Type_cases l :
  l_Epoch l = 0 /\ l_Term l = 0 /\ Lease_Type l = Ret LeaseExpiration \/
  l_Epoch l <> 0 /\ l_Term l = 0 /\ Lease_Type l = Ret LeaseEpoch \/
  l_Epoch l = 0 /\ l_Term l <> 0 /\ Lease_Type l = Ret LeaseLeader \/
  l_Epoch l <> 0 /\ l_Term l <> 0 /\ exists msg, Lease_Type l = Panic msg.
Proof.
  unfold Lease_Type. destruct (Z.eqb_spec (l_Epoch l) 0), (Z.eqb_spec (l_Term l) 0); cbn; eauto 10.
Qed.

Lemma Lease_Type_ext l l' : l_Epoch l = l_Epoch l' -> l_Term l = l_Term l' -> Lease_Type l = Lease_Type l'.
Proof. unfold Lease_Type. by intros -> ->. Qed.

(** ** The expiration of a lease *)

(** What [LeaseStatus_Expiration] returns for a lease with one type. *)
Definition lease_end (live : Liveness) (sup : RaftLeaderSupport) (l : Lease) : Timestamp :=
  if negb (l_Epoch l =? 0) then
    if l_Epoch l =? lv_Epoch live then fst (Timestamp_Forward (l_MinExpiration l) (lv_Expiration live)) else l_MinExpiration l
  else if negb (l_Term l =? 0) then
    if l_Term l =? rls_Term sup then fst (Timestamp_Forward (l_MinExpiration l) (rls_LeadSupportUntil sup)) else l_MinExpiration l
  else Lease_GetExpiration l.

Lemma LeaseStatus_Expiration_end st e :
  LeaseStatus_Expiration st = Ret e -> e = lease_end (lst_Liveness st) (lst_LeaderSupport st) (lst_Lease st).
Proof.
  unfold LeaseStatus_Expiration, lease_end.
  destruct (Lease_Type_cases (lst_Lease st)) as [(He&Ht&->)|[(He&Ht&->)|[(He&Ht&->)|(He&Ht&msg&->)]]]; cbn; intros E; inv_ret;
    destruct (Z.eqb_spec (l_Epoch (lst_Lease st)) 0), (Z.eqb_spec (l_Term (lst_Lease st)) 0); done.
Qed.

(** The status is about the given lease and time, with the record in the cache. *)
Lemma leases_Status_fields getLiveness i st : leases_Status getLiveness i = Ret st -> lst_Lease st = si_Lease i /\ lst_Now st = si_Now i /\
  (lst_Liveness st = empty_Liveness \/ exists rec, getLiveness (rd_NodeID (l_Replica (si_Lease i))) = Some rec /\ lst_Liveness st = rec_Liveness rec).
Proof.
  unfold leases_Status, Status_support. intros E. apply obind_Ret in E as (sup & Hsup & E). apply obind_Ret in Hsup as (typ & _ & Hsup).
  assert (forall s, sup = inr s \/ (exists msg, sup = inl (msg, s)) -> lst_Lease s = si_Lease i /\ lst_Now s = si_Now i /\
    (lst_Liveness s = empty_Liveness \/ exists rec, getLiveness (rd_NodeID (l_Replica (si_Lease i))) = Some rec /\ lst_Liveness s = rec_Liveness rec)) as G.
  { clear E. intros s Hs. destruct typ; [done|..]; repeat case_match; try done; apply Ret_inj in Hsup as <-; destruct Hs as [[= <-]|(? & [= <- <-])];
      (split_and!; [done|done|]); try (by left); right; eauto. }
  destruct sup as [[msg s]|s].
  - apply Ret_inj in E as <-. apply (G s). right. by exists msg.
  - apply obind_Ret in E as (e & _ & E). apply Ret_inj in E as <-. apply (G s). by left.
Qed.

(** The status of a lease whose state is not [ERROR]: the record it relies on is not
    older than the lease, and its state follows from its end. *)
Lemma leases_Status_inv getLiveness i st :
  leases_Status getLiveness i = Ret st -> lst_State st <> ERROR ->
  let l := si_Lease i in
  let e := lease_end (lst_Liveness st) (lst_LeaderSupport st) l in
  lst_Lease st = l /\ lst_Now st = si_Now i /\
  LeaseStatus_Expiration st = Ret e /\
  lst_State st = (if Timestamp_LessEq e (si_Now i) then EXPIRED
    else if Lease_OwnedBy l (si_LocalStoreID i) && Timestamp_Less (l_ProposedTS l) (si_MinProposedTs i) then PROSCRIBED
    else if Timestamp_LessEq (Timestamp_Add e (- si_MaxOffset i) 0) (si_RequestTs i) then UNUSABLE
    else VALID) /\
  (Lease_Type l = Ret LeaseEpoch ->
     exists rec, getLiveness (rd_NodeID (l_Replica l)) = Some rec /\ lst_Liveness st = rec_Liveness rec /\
       l_Epoch l <= lv_Epoch (rec_Liveness rec)) /\
  (Lease_Type l = Ret LeaseLeader -> Lease_OwnedBy l (si_LocalStoreID i) = true ->
     rls_LeadSupportUntil (lst_LeaderSupport st) = ls_LeadSupportUntil (si_RaftStatus i)) /\
  (Lease_Type l <> Ret LeaseEpoch -> lst_Liveness st = empty_Liveness).
Proof.
  unfold leases_Status. intros E Hne. apply obind_Ret in E as (sup & Hsup & E).
  destruct sup as [[msg s]|s]; [inv_ret; done|]. apply obind_Ret in E as (e & He & E). apply Ret_inj in E as <-. cbn in Hne |- *.
  pose proof (LeaseStatus_Expiration_end _ _ He) as Hend.
  assert (Hs : lst_Lease s = si_Lease i /\ lst_Now s = si_Now i /\
    (Lease_Type (si_Lease i) = Ret LeaseEpoch ->
     exists rec, getLiveness (rd_NodeID (l_Replica (si_Lease i))) = Some rec /\ lst_Liveness s = rec_Liveness rec /\
       l_Epoch (si_Lease i) <= lv_Epoch (rec_Liveness rec)) /\
    (Lease_Type (si_Lease i) = Ret LeaseLeader -> Lease_OwnedBy (si_Lease i) (si_LocalStoreID i) = true ->
     rls_LeadSupportUntil (lst_LeaderSupport s) = ls_LeadSupportUntil (si_RaftStatus i)) /\
    (Lease_Type (si_Lease i) <> Ret LeaseEpoch -> lst_Liveness s = empty_Liveness)).
  { unfold Status_support in Hsup. apply obind_Ret in Hsup as (typ & Htyp & Hsup). rewrite Htyp. destruct typ; [done|..].
    - apply Ret_inj in Hsup as [= <-]. done.
    - destruct (getLiveness _) as [rec|]; [|done]. destruct (_ <? _) eqn:El; [done|]. apply Ret_inj in Hsup as [= <-].
      split_and!; [done|done| |done|done]. intros _. exists rec. split_and!; [done|done|]. cbn in El. blia.
    - destruct (Lease_OwnedBy _ _) eqn:Eo.
      + apply Ret_inj in Hsup as [= <-]. done.
      + destruct (negb _); [destruct (negb _); [done|]|]; apply Ret_inj in Hsup as [= <-]; done. }
  destruct Hs as (Hl & Hn & Hep & Hld & Hno). rewrite Hl in Hend. subst e. split_and!; try done.
Qed.

(** ** Equivalent leases *)

(** The same replica, whatever its type. *)
Definition same_replica (r r' : ReplicaDescriptor) : Prop :=
  rd_NodeID r = rd_NodeID r' /\ rd_StoreID r = rd_StoreID r' /\ rd_ReplicaID r = rd_ReplicaID r'.

(** [l'] is the same lease as [l], extended or promoted. *)
Definition extends_lease (expToEpochEquiv : bool) (l l' : Lease) : Prop :=
  same_replica (l_Replica l) (l_Replica l') /\ l_Start l = l_Start l' /\
  match Lease_Type l, Lease_Type l' with
  | Ret LeaseExpiration, Ret LeaseExpiration => ts_le (Lease_GetExpiration l) (Lease_GetExpiration l')
  | Ret LeaseExpiration, Ret LeaseEpoch => expToEpochEquiv = true
  | Ret LeaseExpiration, Ret LeaseLeader => True
  | Ret LeaseEpoch, Ret LeaseEpoch => l_Epoch l = l_Epoch l' /\ ts_le (l_MinExpiration l) (l_MinExpiration l')
  | Ret LeaseLeader, Ret LeaseLeader => l_Term l = l_Term l' /\ ts_le (l_MinExpiration l) (l_MinExpiration l')
  | _, _ => False
  end.

Lemma Lease_Type_clear l : Lease_Type (Equivalent_clear l) = Lease_Type l.
Proof. done. Qed.

Lemma Equivalent_spec l l' equiv : lease_wf l -> lease_wf l' ->
  exists b, Lease_Equivalent l l' equiv = Ret b /\ (b = true <-> extends_lease equiv l l').
Proof.
  intros Hw Hw'. unfold lease_wf, extends_lease in *. unfold Lease_Equivalent.
  rewrite !Lease_Type_clear.
  destruct l as [s e [n st i ty] ds p ep sq at_ me tm], l' as [s' e' [n' st' i' ty'] ds' p' ep' sq' at_' me' tm'].
  destruct (Lease_Type_cases (mkLease s e (mkReplicaDescriptor n st i ty) ds p ep sq at_ me tm)) as [(?&?&Ht)|[(?&?&Ht)|[(?&?&Ht)|(?&?&msg&Ht)]]];
  destruct (Lease_Type_cases (mkLease s' e' (mkReplicaDescriptor n' st' i' ty') ds' p' ep' sq' at_' me' tm')) as [(?&?&Ht')|[(?&?&Ht')|[(?&?&Ht')|(?&?&msg'&Ht')]]];
  rewrite Ht, ?Ht' in *; try done; cbn in *; clear Ht Ht'; destruct_and?; subst.
  all: unfold Equivalent_clear; cbn.
  all: repeat match goal with
  | |- context [if Timestamp_LessEq ?a ?b then _ else _] =>
    let E := fresh "E" in destruct (Timestamp_LessEq a b) eqn:E; cbn;
      [apply Timestamp_LessEq_spec in E|apply not_true_iff_false in E; rewrite Timestamp_LessEq_spec in E]
  | |- context [if ?a =? ?b then _ else _] => destruct (Z.eqb_spec a b); subst; cbn; try done
  end.
  all: try destruct equiv; eexists; (split; [reflexivity|]); rewrite bool_decide_eq_true; unfold same_replica; cbn.
  all: (split; [intros [=]; subst; (split_and!; first [done|reflexivity])|intros ((->&->&->)&->&?); destruct_and?; subst; try done]).
Qed.

(** Whatever the leases are, equivalent ones are of the same replica. *)
Lemma Equivalent_replica l l' equiv : Lease_Equivalent l l' equiv = Ret true -> same_replica (l_Replica l) (l_Replica l').
Proof.
  unfold Lease_Equivalent. intros E. apply obind_Ret in E as (typ & _ & E). apply obind_Ret in E as ([m m'] & Hm & E).
  assert (l_Replica m = l_Replica (Equivalent_clear l) /\ l_Replica m' = l_Replica (Equivalent_clear l')) as [E1 E2].
  { destruct typ; [done| | |]; [apply obind_Ret in Hm as (typ' & _ & Hm); destruct typ'; [done|..]|..]; repeat case_match; simplify_eq; done. }
  apply Ret_inj, bool_decide_eq_true in E as <-. rewrite E1 in E2. unfold Equivalent_clear in E2. cbn in E2. unfold same_replica. by injection E2 as -> -> ->.
Qed.
