(* ===== verification/LeaseBuild.v ===== *)
(** * Requesting leases (src/pkg/kv/kvserver/leases/build.go, verify.go, src/pkg/kv/kvserver/raftutil)

    Acquisitions, extensions and transfers: the checks of a request ([leases_Verify])
    and the lease that is proposed for it, with what has to happen to the liveness
    records before ([VerifyAndBuild]). log.Fatalf and the dereference of a nil pointer
    are panics; the formatted arguments of assertion errors are left out.

    The lemmas describe the lease that is built, case by case, for the proof of lease
    disjointness. *)

From S2P Require Import Prelude Hlc Quorum Tracker RaftPb Raft RawNode NodeLiveness Lease.

(** ** raftutil/util.go *)

Definition status_Progress_of (st : Status) (id : Z) : option Progress :=
  match status_Progress st with Some m => m !! id | None => None end.

Definition status_RaftState (st : Status) : StateType := RaftState (bs_SoftState (status_BasicStatus st)).
Definition status_Lead (st : Status) : Z := hs_Lead (bs_HardState (status_BasicStatus st)).
Definition status_Term (st : Status) : Z := hs_Term (bs_HardState (status_BasicStatus st)).
Definition status_Commit (st : Status) : Z := hs_Commit (bs_HardState (status_BasicStatus st)).

Definition ReplicaIsBehind (st : option Status) (replicaID : Z) : bool :=
  match st with
  | None => true
  | Some st =>
    if negb (bool_decide (status_RaftState st = StateLeader)) then true
    else
      match status_Progress_of st replicaID with
      | None => true
      | Some progress =>
        if replicaID =? status_Lead st then false
        else if bool_decide (State progress = StateReplicate) && (Match progress >=? status_Commit st) then false
        else true
      end
  end.

Definition ReplicaMayNeedSnapshot (st : option Status) (firstIndex : Z) (replicaID : Z) : ReplicaNeedsSnapshotStatus :=
  match st with
  | None => NoRaftStatusAvailable
  | Some st =>
    if negb (bool_decide (status_RaftState st = StateLeader)) then LocalReplicaNotLeader
    else
      match status_Progress_of st replicaID with
      | None => ReplicaUnknown
      | Some progress =>
        match State progress with
        | StateProbe => ReplicaStateProbe
        | StateSnapshot => ReplicaStateSnapshot
        | StateReplicate =>
          if Match progress +u 1 <? firstIndex then ReplicaMatchBelowLeadersFirstIndex else NoSnapshotNeeded
        end
      end
  end.

(** ** The input of a request *)

Record Settings : Type := mkSettings {
  set_UseExpirationLeases : bool;
  set_TransferExpirationLeases : bool;
  set_PreferLeaderLeasesOverEpochLeases : bool;
  set_RejectLeaseOnLeaderUnknown : bool;
  set_DisableAboveRaftLeaseTransferSafetyChecks : bool;
  set_AllowLeaseProposalWhenNotLeader : bool;
  set_ExpToEpochEquiv : bool;
  set_MinExpirationSupported : bool;
  set_RangeLeaseDuration : Z
}.

Record NodeLivenessManipulation : Type := mkManipulation {
  nm_Heartbeat : option Liveness;
  nm_HeartbeatMinExpiration : Timestamp;
  nm_Increment : option Liveness
}.

Record BuildInput : Type := mkBuildInput {
  bi_LocalStoreID : Z;
  bi_LocalReplicaID : Z;
  bi_Desc : RangeDescriptor;
  bi_Now : Timestamp;
  bi_MinLeaseProposedTS : Timestamp;
  bi_RaftStatus : option Status;
  bi_RaftFirstIndex : Z;
  bi_PrevLease : Lease;
  bi_PrevLeaseNodeLiveness : Liveness;
  bi_PrevLeaseExpired : bool;
  bi_NextLeaseHolder : ReplicaDescriptor;
  bi_BypassSafetyChecks : bool
}.

Record VerifyInput : Type := mkVerifyInput {
  vi_LocalStoreID : Z;
  vi_LocalReplicaID : Z;
  vi_Desc : RangeDescriptor;
  vi_RaftStatus : option Status;
  vi_RaftFirstIndex : Z;
  vi_PrevLease : Lease;
  vi_PrevLeaseExpired : bool;
  vi_NextLeaseHolder : ReplicaDescriptor;
  vi_BypassSafetyChecks : bool
}.

Definition BuildInput_PrevLocal (i : BuildInput) : bool := rd_StoreID (l_Replica (bi_PrevLease i)) =? bi_LocalStoreID i.
Definition BuildInput_NextLocal (i : BuildInput) : bool := rd_StoreID (bi_NextLeaseHolder i) =? bi_LocalStoreID i.
Definition BuildInput_Acquisition (i : BuildInput) : bool := negb (BuildInput_PrevLocal i) && BuildInput_NextLocal i.
Definition BuildInput_Extension (i : BuildInput) : bool := BuildInput_PrevLocal i && BuildInput_NextLocal i.
Definition BuildInput_Transfer (i : BuildInput) : bool := BuildInput_PrevLocal i && negb (BuildInput_NextLocal i).
Definition BuildInput_Remote (i : BuildInput) : bool := negb (BuildInput_PrevLocal i) && negb (BuildInput_NextLocal i).

Definition BuildInput_PrevLeaseExpiration (i : BuildInput) : outcome Timestamp :=
  let st := status_of_lease (bi_PrevLease i) <| lst_Liveness := bi_PrevLeaseNodeLiveness i |> in
  let! st :=
    if rd_StoreID (l_Replica (bi_PrevLease i)) =? bi_LocalStoreID i then
      match bi_RaftStatus i with
      | Some rs => Ret (st <| lst_LeaderSupport := mkRaftLeaderSupport (status_Term rs) (status_LeadSupportUntil rs) |>)
      | None => Panic "nil pointer dereference"
      end
    else Ret st in
  LeaseStatus_Expiration st.

(** A function that returns only an error. *)
Abbreviation check := (outcome (lease_error + unit)).

Definition ok : check := Ret (inr tt).
Definition fail (err : lease_error) : check := Ret (inl err).

Definition validatePrevLeaseNodeLiveness (i : BuildInput) : check :=
  let! typ := Lease_Type (bi_PrevLease i) in
  let epochLease := bool_decide (typ = LeaseEpoch) in
  let livenessSet := negb (bool_decide (bi_PrevLeaseNodeLiveness i = empty_Liveness)) in
  if negb (Bool.eqb epochLease livenessSet) then
    fail (AssertionFailedf "previous lease is epoch-based: %t, but liveness is set: %t")
  else ok.

Definition validatePrevLeaseExpired (i : BuildInput) : check :=
  let! exp := BuildInput_PrevLeaseExpiration i in
  let expired := Timestamp_LessEq exp (bi_Now i) in
  if negb (Bool.eqb (bi_PrevLeaseExpired i) expired) then
    fail (AssertionFailedf "PrevLeaseExpired=%t, but computed %t with PrevLease=%v and PrevLeaseNodeLiveness=%v")
  else ok.

Definition BuildInput_validate (i : BuildInput) : check :=
  if bool_decide (bi_NextLeaseHolder i = empty_ReplicaDescriptor) then fail (AssertionFailedf "no lease target provided")
  else if Timestamp_IsEmpty (bi_Now i) then fail (AssertionFailedf "no clock timestamp provided")
  else if bool_decide (bi_RaftStatus i = None) then fail (AssertionFailedf "no raft status provided")
  else if BuildInput_Remote i then fail (AssertionFailedf "cannot acquire/extend lease for remote replica: %v -> %v")
  else
    let? _ := validatePrevLeaseNodeLiveness i in
    let? _ := validatePrevLeaseExpired i in
    if BuildInput_Acquisition i && negb (bi_PrevLeaseExpired i) then
      fail (AssertionFailedf "cannot acquire lease from another node before it has expired: %v")
    else if negb (BuildInput_Transfer i) && bi_BypassSafetyChecks i then
      fail (AssertionFailedf "cannot bypass safety checks for lease acquisition/extension")
    else ok.

Definition BuildInput_toVerifyInput (i : BuildInput) : VerifyInput :=
  mkVerifyInput (bi_LocalStoreID i) (bi_LocalReplicaID i) (bi_Desc i) (bi_RaftStatus i) (bi_RaftFirstIndex i) (bi_PrevLease i)
    (bi_PrevLeaseExpired i) (bi_NextLeaseHolder i) (bi_BypassSafetyChecks i).

(** ** verify.go *)

Definition VerifyInput_toBuildInput (i : VerifyInput) : BuildInput :=
  mkBuildInput (vi_LocalStoreID i) 0 (mkRangeDescriptor 0 []) zero_ts zero_ts None 0 (vi_PrevLease i) empty_Liveness false
    (vi_NextLeaseHolder i) false.

Definition VerifyInput_Acquisition (i : VerifyInput) : bool := BuildInput_Acquisition (VerifyInput_toBuildInput i).
Definition VerifyInput_Extension (i : VerifyInput) : bool := BuildInput_Extension (VerifyInput_toBuildInput i).
Definition VerifyInput_Transfer (i : VerifyInput) : bool := BuildInput_Transfer (VerifyInput_toBuildInput i).

Definition leaderEligibleForLease (i : VerifyInput) (leader : Z) : bool :=
  match ReplicaSet_GetReplicaDescriptorByID (rng_InternalReplicas (vi_Desc i)) leader with
  | None => true
  | Some leaderRep =>
    let leaderWasLastLeaseholder := rd_ReplicaID leaderRep =? rd_ReplicaID (l_Replica (vi_PrevLease i)) in
    match CheckCanReceiveLease leaderRep (rng_InternalReplicas (vi_Desc i)) leaderWasLastLeaseholder with
    | None => true
    | Some _ => false
    end
  end.

Definition verifyAcquisition (st : Settings) (i : VerifyInput) : check :=
  match vi_RaftStatus i with
  | None => Panic "nil pointer dereference"
  | Some rs =>
    let leader := status_Lead rs in
    let leaderKnown := negb (leader =? None_ID) in
    let iAmTheLeader := bool_decide (status_RaftState rs = StateLeader) in
    if negb (Bool.eqb (leader =? vi_LocalReplicaID i) iAmTheLeader) then Panic "inconsistent Raft state: %s"
    else if iAmTheLeader || set_AllowLeaseProposalWhenNotLeader st then ok
    else if len (ReplicaSet_VoterDescriptors (rng_InternalReplicas (vi_Desc i))) =? 1 then ok
    else
      let eligible := leaderKnown && leaderEligibleForLease i leader in
      let reject := (negb leaderKnown && set_RejectLeaseOnLeaderUnknown st) || eligible in
      if reject then
        if negb leaderKnown then
          fail (NewNotLeaseHolderError empty_Lease (vi_LocalStoreID i) (vi_Desc i) "refusing to acquire lease on follower")
        else
          let redirectRep := default empty_ReplicaDescriptor
            (ReplicaSet_GetReplicaDescriptorByID (rng_InternalReplicas (vi_Desc i)) leader) in
          fail (NewNotLeaseHolderErrorWithSpeculativeLease redirectRep (vi_LocalStoreID i) (vi_Desc i)
            "refusing to acquire lease on follower")
      else ok
  end.

Definition verifyExtension (st : Settings) (i : VerifyInput) : check :=
  if vi_PrevLeaseExpired i then verifyAcquisition st i
  else match vi_RaftStatus i with None => Panic "nil pointer dereference" | Some _ => ok end.

Definition verifyTransfer (st : Settings) (i : VerifyInput) : check :=
  if vi_BypassSafetyChecks i then ok
  else
    let snapStatus := ReplicaMayNeedSnapshot (vi_RaftStatus i) (vi_RaftFirstIndex i) (rd_ReplicaID (vi_NextLeaseHolder i)) in
    if negb (bool_decide (snapStatus = NoSnapshotNeeded)) then
      fail (LeaseTransferRejectedBecauseTargetMayNeedSnapshot (vi_NextLeaseHolder i) snapStatus)
    else ok.

Definition leases_Verify (st : Settings) (i : VerifyInput) : check :=
  if VerifyInput_Acquisition i then verifyAcquisition st i
  else if VerifyInput_Extension i then verifyExtension st i
  else if VerifyInput_Transfer i then verifyTransfer st i
  else fail (AssertionFailedf "unknown lease operation").

(** ** build.go *)

Record Output : Type := mkOutput {
  o_NextLease : Lease;
  o_NodeLivenessManipulation : NodeLivenessManipulation
}.

Definition leaseType (st : Settings) (i : BuildInput) : outcome LeaseType :=
  if set_UseExpirationLeases st then Ret LeaseExpiration
  else if BuildInput_Transfer i && (set_TransferExpirationLeases st || set_PreferLeaderLeasesOverEpochLeases st) then
    Ret LeaseExpiration
  else if negb (set_PreferLeaderLeasesOverEpochLeases st) then Ret LeaseEpoch
  else
    match bi_RaftStatus i with
    | None => Panic "nil pointer dereference"
    | Some rs => Ret (if negb (bool_decide (status_RaftState rs = StateLeader)) then LeaseExpiration else LeaseLeader)
    end.

Definition leaseReplica (i : BuildInput) : ReplicaDescriptor := bi_NextLeaseHolder i.

Definition leaseProposedTS (i : BuildInput) : Timestamp := bi_Now i.

Definition leaseStart (i : BuildInput) : outcome Timestamp :=
  if BuildInput_Transfer i then Ret (bi_Now i)
  else
    let start := bi_Now i in
    if (rd_StoreID (l_Replica (bi_PrevLease i)) =? 0) || BuildInput_Extension i then
      let start := Timestamp_Backward start (l_Start (bi_PrevLease i)) in
      Ret (if BuildInput_Extension i then fst (Timestamp_Forward start (bi_MinLeaseProposedTS i)) else start)
    else
      let! typ := Lease_Type (bi_PrevLease i) in
      if bool_decide (typ = LeaseExpiration) then
        match l_Expiration (bi_PrevLease i) with
        | None => Panic "nil pointer dereference"
        | Some exp => let! next := Timestamp_Next exp in Ret (Timestamp_Backward start next)
        end
      else Ret start.

Definition leaseAcquisitionType (i : BuildInput) : LeaseAcquisitionType :=
  if BuildInput_Transfer i then AcqTransfer else AcqRequest.

Definition leaseExpiration (st : Settings) (i : BuildInput) (nextType : LeaseType) : outcome (option Timestamp) :=
  if negb (bool_decide (nextType = LeaseExpiration)) then Panic "leaseExpiration called for non-expiration lease"
  else
    let exp := Timestamp_Add (bi_Now i) (set_RangeLeaseDuration st) 0 in
    let! prev := BuildInput_PrevLeaseExpiration i in
    Ret (Some (fst (Timestamp_Forward exp prev))).

Definition leaseEpoch (getLiveness : Z -> option LivenessRecord) (i : BuildInput) (nextType : LeaseType) :
    outcome (lease_error + LivenessRecord) :=
  if negb (bool_decide (nextType = LeaseEpoch)) then Panic "leaseEpoch called for non-epoch lease"
  else
    match getLiveness (rd_NodeID (bi_NextLeaseHolder i)) with
    | None => Ret (inl (ErrLiveness ErrRecordCacheMiss))
    | Some l => if lv_Epoch (rec_Liveness l) =? 0 then Ret (inl (ErrLiveness ErrRecordCacheMiss)) else Ret (inr l)
    end.

Definition leaseMinTimestamp (st : Settings) (i : BuildInput) (nextType : LeaseType) : outcome Timestamp :=
  match nextType with
  | LeaseEpoch =>
    if negb (set_MinExpirationSupported st) then Ret zero_ts
    else
      let! typ := Lease_Type (bi_PrevLease i) in
      let expPromo := BuildInput_Extension i && bool_decide (typ = LeaseExpiration) in
      if expPromo then
        match l_Expiration (bi_PrevLease i) with
        | None => Panic "nil pointer dereference"
        | Some exp => Ret exp
        end
      else Ret zero_ts
  | LeaseLeader =>
    if negb (set_MinExpirationSupported st) then Panic "cannot construct leader lease without minimum expiration support"
    else
      let minExp := Timestamp_Add (bi_Now i) (set_RangeLeaseDuration st) 0 in
      let! prev := BuildInput_PrevLeaseExpiration i in
      Ret (fst (Timestamp_Forward minExp prev))
  | _ => Panic "leaseMinTimestamp called for non-epoch and non-leader lease"
  end.

Definition leaseTerm (i : BuildInput) (nextType : LeaseType) : outcome Z :=
  if negb (bool_decide (nextType = LeaseLeader)) then Panic "leaseTerm called for non-leader lease"
  else
    match bi_RaftStatus i with
    | None => Panic "nil pointer dereference"
    | Some rs =>
      if negb (bool_decide (status_RaftState rs = StateLeader)) then Panic "leaseTerm called when not leader"
      else if status_Term rs =? 0 then Panic "leaseTerm called with term 0"
      else Ret (status_Term rs)
    end.

Definition leaseDeprecatedStartStasis (i : BuildInput) (nextExpiration : option Timestamp) : option Timestamp :=
  if BuildInput_Transfer i then None else nextExpiration.

Definition leaseSequence (st : Settings) (i : BuildInput) (nextLease : Lease) : outcome Z :=
  let! equivalent := Lease_Equivalent (bi_PrevLease i) nextLease (set_ExpToEpochEquiv st) in
  Ret (if equivalent then l_Sequence (bi_PrevLease i) else l_Sequence (bi_PrevLease i) +u 1).

Definition nodeLivenessManipulation (st : Settings) (i : BuildInput) (nextLease : Lease) (nextLeaseLiveness : option Liveness) :
    outcome NodeLivenessManipulation :=
  let! prevType := Lease_Type (bi_PrevLease i) in
  let! promo :=
    if negb (set_MinExpirationSupported st) then
      let! nextType := Lease_Type nextLease in
      let expToEpochPromo := BuildInput_Extension i && bool_decide (prevType = LeaseExpiration) && bool_decide (nextType = LeaseEpoch) in
      if expToEpochPromo then
        match nextLeaseLiveness with
        | None => Panic "nil pointer dereference"
        | Some l =>
          let! prevExp := BuildInput_PrevLeaseExpiration i in
          Ret (if Timestamp_Less (lv_Expiration l) prevExp then Some (mkManipulation (Some l) prevExp None) else None)
        end
      else Ret None
    else Ret None in
  match promo with
  | Some nm => Ret nm
  | None =>
    Ret (if bool_decide (prevType = LeaseEpoch) && bi_PrevLeaseExpired i then
           if BuildInput_Extension i then mkManipulation (Some (bi_PrevLeaseNodeLiveness i)) zero_ts None
           else if lv_Epoch (bi_PrevLeaseNodeLiveness i) =? l_Epoch (bi_PrevLease i) then
             mkManipulation None zero_ts (Some (bi_PrevLeaseNodeLiveness i))
           else mkManipulation None zero_ts None
         else mkManipulation None zero_ts None)
  end.

(** *** The validation of the output *)

Definition validateNonZero (zero : bool) (name : string) : check := if zero then fail (AssertionFailedf name) else ok.

Definition validateReplica (_ : BuildInput) (nextLease : Lease) : check :=
  validateNonZero (bool_decide (l_Replica nextLease = empty_ReplicaDescriptor)) "replica must be set".

Definition validateProposedTS (_ : BuildInput) (nextLease : Lease) : check :=
  validateNonZero (bool_decide (l_ProposedTS nextLease = zero_ts)) "proposed timestamp must be set".

Definition validateStart (i : BuildInput) (nextLease : Lease) : check :=
  if Timestamp_Less (bi_Now i) (l_Start nextLease) then fail (AssertionFailedf "lease cannot start after now")
  else if BuildInput_Extension i || BuildInput_Transfer i then
    if Timestamp_Less (l_Start nextLease) (l_Start (bi_PrevLease i)) then
      fail (AssertionFailedf "extension/transfer cannot regress start timestamp")
    else ok
  else
    let! prevExp := BuildInput_PrevLeaseExpiration i in
    if Timestamp_Less (l_Start nextLease) prevExp then fail (AssertionFailedf "lease overlaps previous lease") else ok.

Definition validateExpiration (_ : BuildInput) (nextLease : Lease) : check :=
  let! typ := Lease_Type nextLease in
  match typ with
  | LeaseExpiration =>
    match l_Expiration nextLease with
    | None => fail (AssertionFailedf "expiration not assigned to expiration-based lease")
    | Some exp => if Timestamp_LessEq exp (l_Start nextLease) then fail (AssertionFailedf "expiration before lease start") else ok
    end
  | LeaseEpoch =>
    if negb (bool_decide (l_Expiration nextLease = None)) then fail (AssertionFailedf "expiration assigned to epoch-based lease") else ok
  | LeaseLeader =>
    if negb (bool_decide (l_Expiration nextLease = None)) then fail (AssertionFailedf "expiration assigned to leader lease") else ok
  | LeaseNone => Panic "unexpected"
  end.

Definition validateAcquisitionType (_ : BuildInput) (nextLease : Lease) : check :=
  validateNonZero (bool_decide (l_AcquisitionType nextLease = AcqUnspecified)) "acquisition type must be set".

Definition validateSequence (_ : BuildInput) (nextLease : Lease) : check :=
  validateNonZero (l_Sequence nextLease =? 0) "sequence must be set".

Definition validateMinExpiration (_ : BuildInput) (nextLease : Lease) : check :=
  let! typ := Lease_Type nextLease in
  match typ with
  | LeaseExpiration =>
    if negb (Timestamp_IsEmpty (l_MinExpiration nextLease)) then
      fail (AssertionFailedf "minimum expiration assigned to expiration-based lease")
    else ok
  | LeaseEpoch => ok
  | LeaseLeader =>
    if Timestamp_IsEmpty (l_MinExpiration nextLease) then fail (AssertionFailedf "minimum expiration not assigned to leader lease") else ok
  | LeaseNone => Panic "unexpected"
  end.

Definition leaseValidationFuncs : list (BuildInput -> Lease -> check) :=
  [validateReplica; validateProposedTS; validateStart; validateExpiration; validateAcquisitionType; validateSequence; validateMinExpiration].

Fixpoint Output_validate_loop (fs : list (BuildInput -> Lease -> check)) (i : BuildInput) (nextLease : Lease) : check :=
  match fs with
  | [] => ok
  | f :: fs => let? _ := f i nextLease in Output_validate_loop fs i nextLease
  end.

Definition Output_validate (o : Output) (i : BuildInput) : check := Output_validate_loop leaseValidationFuncs i (o_NextLease o).

(** The fields of the lease that depend on its type: the lease, and the liveness
    record behind an epoch-based lease. *)
Definition build_typed (st : Settings) (getLiveness : Z -> option LivenessRecord) (i : BuildInput) (nextLease : Lease) (nextLeaseType : LeaseType) :
    outcome (lease_error + Lease * option Liveness) :=
  match nextLeaseType with
  | LeaseExpiration =>
    let! exp := leaseExpiration st i nextLeaseType in Ret (inr (nextLease <| l_Expiration := exp |>, None))
  | LeaseEpoch =>
    let! res := leaseEpoch getLiveness i nextLeaseType in
    match res with
    | inl err => Ret (inl (LeaseRejectedError (bi_PrevLease i) nextLease err))
    | inr l =>
      let nextLease := nextLease <| l_Epoch := lv_Epoch (rec_Liveness l) |> in
      let! minExp := leaseMinTimestamp st i nextLeaseType in
      Ret (inr (nextLease <| l_MinExpiration := minExp |>, Some (rec_Liveness l)))
    end
  | LeaseLeader =>
    let! term := leaseTerm i nextLeaseType in
    let nextLease := nextLease <| l_Term := term |> in
    let! minExp := leaseMinTimestamp st i nextLeaseType in
    Ret (inr (nextLease <| l_MinExpiration := minExp |>, None))
  | LeaseNone => Panic "unexpected"
  end.

Definition build (st : Settings) (getLiveness : Z -> option LivenessRecord) (i : BuildInput) : outcome (lease_error + Output) :=
  let! start := leaseStart i in
  let nextLease := empty_Lease <| l_Replica := leaseReplica i |> <| l_Start := start |> <| l_ProposedTS := leaseProposedTS i |>
    <| l_AcquisitionType := leaseAcquisitionType i |> in
  let! nextLeaseType := leaseType st i in
  let? '(nextLease, nextLeaseLiveness) := build_typed st getLiveness i nextLease nextLeaseType in
  let nextLease := nextLease <| l_DeprecatedStartStasis := leaseDeprecatedStartStasis i (l_Expiration nextLease) |> in
  let! seq := leaseSequence st i nextLease in
  let nextLease := nextLease <| l_Sequence := seq |> in
  let! nm := nodeLivenessManipulation st i nextLease nextLeaseLiveness in
  let o := mkOutput nextLease nm in
  let? _ := Output_validate o i in
  Ret (inr o).

Definition VerifyAndBuild (st : Settings) (getLiveness : Z -> option LivenessRecord) (i : BuildInput) : outcome (lease_error + Output) :=
  let? _ := BuildInput_validate i in
  let? _ :=
    if BuildInput_Transfer i && negb (set_DisableAboveRaftLeaseTransferSafetyChecks st) then
      leases_Verify st (BuildInput_toVerifyInput i)
    else ok in
  build st getLiveness i.

(** ** The lease that is built *)

Definition prev_support (i : BuildInput) : RaftLeaderSupport :=
  if BuildInput_PrevLocal i then
    match bi_RaftStatus i with
    | Some rs => mkRaftLeaderSupport (status_Term rs) (status_LeadSupportUntil rs)
    | None => mkRaftLeaderSupport 0 zero_ts
    end
  else mkRaftLeaderSupport 0 zero_ts.

(** The end of the previous lease. *)
Definition prev_end (i : BuildInput) : Timestamp := lease_end (bi_PrevLeaseNodeLiveness i) (prev_support i) (bi_PrevLease i).

Lemma PrevLeaseExpiration_end i e : BuildInput_PrevLeaseExpiration i = Ret e -> e = prev_end i.
Proof.
  unfold BuildInput_PrevLeaseExpiration, prev_end, prev_support, BuildInput_PrevLocal. intros E. apply obind_Ret in E as (st & Hst & E).
  apply LeaseStatus_Expiration_end in E as ->. destruct (_ =? _).
  - destruct (bi_RaftStatus i); [|done]. by apply Ret_inj in Hst as <-.
  - by apply Ret_inj in Hst as <-.
Qed.

Lemma ebind_Ret {E A B} (m : outcome (E + A)) (k : A -> outcome (E + B)) b :
  ebind m k = Ret (inr b) -> exists a, m = Ret (inr a) /\ k a = Ret (inr b).
Proof. destruct m as [[e|a]|msg]; cbn; intros H; [done| |done]. eauto. Qed.

(** Runs the hypotheses about fallible calls that return without an error. *)
Ltac inv_ok :=
  repeat match goal with
  | H : ebind _ _ = Ret (inr _) |- _ => apply ebind_Ret in H; destruct H as (? & ? & H)
  | H : obind _ _ = Ret (inr _) |- _ => apply obind_Ret in H; destruct H as (? & ? & H)
  | H : fail _ = Ret (inr _) |- _ => discriminate H
  | H : (if ?b then fail _ else _) = Ret (inr _) |- _ => let E := fresh "E" in destruct b eqn:E; [discriminate H|]
  | H : (let '(_, _) := ?x in _) = Ret (inr _) |- _ => destruct x
  end.

(** What the input is checked for. *)
Lemma validate_inv i : BuildInput_validate i = Ret (inr tt) ->
  BuildInput_Remote i = false /\ BuildInput_PrevLeaseExpiration i = Ret (prev_end i) /\
  bi_PrevLeaseExpired i = Timestamp_LessEq (prev_end i) (bi_Now i) /\
  (BuildInput_Acquisition i = true -> bi_PrevLeaseExpired i = true) /\
  (exists typ, Lease_Type (bi_PrevLease i) = Ret typ /\ (typ = LeaseEpoch <-> bi_PrevLeaseNodeLiveness i <> empty_Liveness)) /\
  bi_Now i <> zero_ts /\ bi_NextLeaseHolder i <> empty_ReplicaDescriptor.
Proof.
  unfold BuildInput_validate. intros H. inv_ok.
  match goal with H : validatePrevLeaseNodeLiveness i = _ |- _ => unfold validatePrevLeaseNodeLiveness in H; rename H into Hl end.
  match goal with H : validatePrevLeaseExpired i = _ |- _ => unfold validatePrevLeaseExpired in H; rename H into Hx end.
  inv_ok. match goal with H : BuildInput_PrevLeaseExpiration i = Ret ?e |- _ => pose proof (PrevLeaseExpiration_end _ _ H) as -> end.
  match goal with H : Lease_Type (bi_PrevLease i) = Ret ?t |- _ => rename H into Ht; rename t into typ end.
  unfold Timestamp_IsEmpty in *. bool_to_prop. split_and!; try done.
  - match goal with H : Bool.eqb (bi_PrevLeaseExpired i) _ = true |- _ => by apply eqb_prop in H end.
  - intros Ha. match goal with H : BuildInput_Acquisition i && _ = false |- _ => rewrite Ha in H; by apply negb_false_iff in H end.
  - exists typ. split; [done|]. match goal with H : Bool.eqb (bool_decide _) _ = true |- _ => apply eqb_prop in H; rename H into He end.
    rewrite <- (bool_decide_eq_true (typ = LeaseEpoch)), He, negb_true_iff, bool_decide_eq_false. done.
Qed.

(** The extension of the lease that [build] starts from. *)
Definition base_lease (i : BuildInput) (start : Timestamp) : Lease :=
  empty_Lease <| l_Replica := leaseReplica i |> <| l_Start := start |> <| l_ProposedTS := leaseProposedTS i |>
    <| l_AcquisitionType := leaseAcquisitionType i |>.

(** The part of the lease that depends on its type. *)
Definition typed_fields (st : Settings) (getLiveness : Z -> option LivenessRecord) (i : BuildInput) (l : Lease) : Prop :=
  let now_dur := Timestamp_Add (bi_Now i) (set_RangeLeaseDuration st) 0 in
  match Lease_Type l with
  | Ret LeaseExpiration => l_Expiration l = Some (fst (Timestamp_Forward now_dur (prev_end i))) /\ l_MinExpiration l = zero_ts
  | Ret LeaseEpoch => l_Expiration l = None /\
      (exists r, getLiveness (rd_NodeID (bi_NextLeaseHolder i)) = Some r /\ l_Epoch l = lv_Epoch (rec_Liveness r)) /\
      (set_MinExpirationSupported st = true ->
        BuildInput_Extension i = true /\ Lease_Type (bi_PrevLease i) = Ret LeaseExpiration /\
          l_Expiration (bi_PrevLease i) = Some (l_MinExpiration l) \/
        ~ (BuildInput_Extension i = true /\ Lease_Type (bi_PrevLease i) = Ret LeaseExpiration) /\ l_MinExpiration l = zero_ts)
  | Ret LeaseLeader => l_Expiration l = None /\ l_MinExpiration l = fst (Timestamp_Forward now_dur (prev_end i))
  | _ => False
  end.

Lemma build_typed_inv st getLiveness i start typ l live :
  BuildInput_PrevLeaseExpiration i = Ret (prev_end i) ->
  build_typed st getLiveness i (base_lease i start) typ = Ret (inr (l, live)) ->
  typed_fields st getLiveness i l /\ l_Replica l = leaseReplica i /\ l_Start l = start /\ l_ProposedTS l = leaseProposedTS i /\
  l_AcquisitionType l = leaseAcquisitionType i.
Proof.
  intros He H. unfold typed_fields. destruct typ; cbn in H; [done|..].
  - unfold leaseExpiration in H. rewrite He in H. cbn in H. apply Ret_inj in H as [= <- <-]. done.
  - apply obind_Ret in H as (res & Hres & H). destruct res as [|r]; [done|]. apply obind_Ret in H as (minExp & Hmin & H).
    apply Ret_inj in H as [= <- <-]. unfold leaseEpoch in Hres. cbn in Hres.
    destruct (getLiveness _) as [r'|] eqn:Eg; [|done]. destruct (Z.eqb_spec (lv_Epoch (rec_Liveness r')) 0); [done|].
    apply Ret_inj in Hres as [= ->]. unfold Lease_Type at 1. cbn. rewrite (proj2 (Z.eqb_neq _ 0)) by done. cbn.
    split_and!; try done; [by exists r|]. intros Hs. rewrite Hs in Hmin. cbn in Hmin. inv_ret.
    match goal with H : Lease_Type (bi_PrevLease i) = Ret ?t |- _ => rename H into Ht; rename t into typ end.
    rewrite Ht. destruct (BuildInput_Extension i && bool_decide (typ = LeaseExpiration)) eqn:Eb.
    + bool_to_prop. left. subst. destruct (l_Expiration (bi_PrevLease i)); by inv_ret.
    + right. inv_ret. split; [|done]. intros [Hx [= ->]]. by rewrite Hx in Eb.
  - apply obind_Ret in H as (term & Ht & H). apply obind_Ret in H as (minExp & Hmin & H). apply Ret_inj in H as [= <- <-].
    unfold leaseTerm in Ht. cbn in Ht. destruct (bi_RaftStatus i) as [rs|]; [|done].
    destruct (bool_decide (status_RaftState rs = StateLeader)); [|done]. cbn in Ht. destruct (Z.eqb_spec (status_Term rs) 0); [done|]. apply Ret_inj in Ht as <-. unfold Lease_Type. cbn.
    rewrite (proj2 (Z.eqb_neq _ 0)) by done. cbn. unfold leaseMinTimestamp in Hmin.
    destruct (set_MinExpirationSupported st); [|done]. rewrite He in Hmin. cbn in Hmin. by apply Ret_inj in Hmin as <-.
Qed.

(** A lease that [VerifyAndBuild] returns. *)
Set Implicit Arguments.
Record built (st : Settings) (getLiveness : Z -> option LivenessRecord) (i : BuildInput) (o : Output) : Prop := {
  bt_prev : BuildInput_PrevLeaseExpiration i = Ret (prev_end i);
  bt_local : BuildInput_Remote i = false;
  bt_expired : bi_PrevLeaseExpired i = Timestamp_LessEq (prev_end i) (bi_Now i);
  bt_acquired : BuildInput_Acquisition i = true -> ts_le (prev_end i) (l_Start (o_NextLease o)) /\ ts_le (prev_end i) (bi_Now i);
  bt_typed : typed_fields st getLiveness i (o_NextLease o);
  bt_replica : l_Replica (o_NextLease o) = bi_NextLeaseHolder i;
  bt_proposed : l_ProposedTS (o_NextLease o) = bi_Now i /\ bi_Now i <> zero_ts;
  bt_type : l_AcquisitionType (o_NextLease o) = if BuildInput_Transfer i then AcqTransfer else AcqRequest;
  bt_start : leaseStart i = Ret (l_Start (o_NextLease o));
  bt_start_now : ts_le (l_Start (o_NextLease o)) (bi_Now i);
  bt_start_prev : BuildInput_Acquisition i = false -> ts_le (l_Start (bi_PrevLease i)) (l_Start (o_NextLease o));
  bt_exp_start : forall e, l_Expiration (o_NextLease o) = Some e -> ts_lt (l_Start (o_NextLease o)) e;
  bt_seq : exists b, Lease_Equivalent (bi_PrevLease i) (o_NextLease o) (set_ExpToEpochEquiv st) = Ret b /\
    l_Sequence (o_NextLease o) = if b then l_Sequence (bi_PrevLease i) else l_Sequence (bi_PrevLease i) +u 1;
  bt_increment : BuildInput_Acquisition i = true -> Lease_Type (bi_PrevLease i) = Ret LeaseEpoch ->
    lv_Epoch (bi_PrevLeaseNodeLiveness i) = l_Epoch (bi_PrevLease i) ->
    nm_Increment (o_NodeLivenessManipulation o) = Some (bi_PrevLeaseNodeLiveness i);
  bt_incremented r : nm_Increment (o_NodeLivenessManipulation o) = Some r ->
    r = bi_PrevLeaseNodeLiveness i /\ Lease_Type (bi_PrevLease i) = Ret LeaseEpoch /\ lv_Epoch r = l_Epoch (bi_PrevLease i)
}.
Unset Implicit Arguments.

Lemma operation_cases i : BuildInput_Remote i = false ->
  BuildInput_Acquisition i = true /\ BuildInput_Extension i = false /\ BuildInput_Transfer i = false \/
  BuildInput_Acquisition i = false /\ BuildInput_Extension i = true /\ BuildInput_Transfer i = false \/
  BuildInput_Acquisition i = false /\ BuildInput_Extension i = false /\ BuildInput_Transfer i = true.
Proof.
  unfold BuildInput_Remote, BuildInput_Acquisition, BuildInput_Extension, BuildInput_Transfer.
  destruct (BuildInput_PrevLocal i), (BuildInput_NextLocal i); cbn; auto.
Qed.

Lemma validateStart_inv i n : BuildInput_PrevLeaseExpiration i = Ret (prev_end i) -> BuildInput_Remote i = false ->
  validateStart i n = Ret (inr tt) ->
  ts_le (l_Start n) (bi_Now i) /\ (BuildInput_Acquisition i = true -> ts_le (prev_end i) (l_Start n)) /\
  (BuildInput_Acquisition i = false -> ts_le (l_Start (bi_PrevLease i)) (l_Start n)).
Proof.
  intros He Hr. unfold validateStart. rewrite He. cbn [obind]. intros H. inv_ok.
  split; [by apply Timestamp_Less_false|]. destruct (operation_cases i Hr) as [(Ha&Hx&Ht)|[(Ha&Hx&Ht)|(Ha&Hx&Ht)]];
    rewrite Hx, Ht in H; cbn in H; inv_ok; (split; [intros ?|intros ?]; [..|]); try congruence; by apply Timestamp_Less_false.
Qed.

Lemma validateExpiration_inv i n e : validateExpiration i n = Ret (inr tt) -> l_Expiration n = Some e -> ts_lt (l_Start n) e.
Proof.
  unfold validateExpiration. intros H He. apply obind_Ret in H as (typ & _ & H). rewrite He in H. destruct typ; cbn in H; try done. inv_ok.
  intros Hle. apply Timestamp_LessEq_spec in Hle. congruence.
Qed.

Lemma manipulation_increment st i n live nm :
  BuildInput_Extension i = false -> Lease_Type (bi_PrevLease i) = Ret LeaseEpoch -> bi_PrevLeaseExpired i = true ->
  lv_Epoch (bi_PrevLeaseNodeLiveness i) = l_Epoch (bi_PrevLease i) ->
  nodeLivenessManipulation st i n live = Ret nm -> nm_Increment nm = Some (bi_PrevLeaseNodeLiveness i).
Proof.
  intros Hx Ht Hexp He. unfold nodeLivenessManipulation. rewrite Ht, Hx, Hexp, He, Z.eqb_refl. cbn [obind andb bool_decide].
  intros H. apply obind_Ret in H as (promo & Hp & H). assert (promo = None) as ->.
  { destruct (negb _); [|by apply Ret_inj in Hp]. apply obind_Ret in Hp as (nt & _ & Hp). by apply Ret_inj in Hp. }
  by apply Ret_inj in H as <-.
Qed.

Lemma manipulation_incremented st i n live nm r :
  nodeLivenessManipulation st i n live = Ret nm -> nm_Increment nm = Some r ->
  r = bi_PrevLeaseNodeLiveness i /\ Lease_Type (bi_PrevLease i) = Ret LeaseEpoch /\ lv_Epoch r = l_Epoch (bi_PrevLease i).
Proof.
  unfold nodeLivenessManipulation. intros H Hr. apply obind_Ret in H as (typ & -> & H). apply obind_Ret in H as (promo & Hp & H).
  destruct promo as [nm'|].
  - apply Ret_inj in H as ->. destruct (negb (set_MinExpirationSupported st)); [|by apply Ret_inj in Hp]. apply obind_Ret in Hp as (nt & _ & Hp).
    destruct (_ && _); [|by apply Ret_inj in Hp]. destruct live as [l|]; [|done]. apply obind_Ret in Hp as (pe & _ & Hp).
    destruct (Timestamp_Less _ _); apply Ret_inj in Hp as [= <-]. done.
  - apply Ret_inj in H as <-. destruct (bool_decide (typ = LeaseEpoch) && bi_PrevLeaseExpired i) eqn:Eb; [|done]. bool_to_prop. subst typ.
    destruct (BuildInput_Extension i); [done|]. destruct (_ =? _) eqn:Ee; [|done]. bool_to_prop. cbn in Hr. injection Hr as <-. done.
Qed.

Lemma VerifyAndBuild_built st getLiveness i o :
  VerifyAndBuild st getLiveness i = Ret (inr o) -> built st getLiveness i o.
Proof.
  unfold VerifyAndBuild. intros H. apply ebind_Ret in H as ([] & Hval & H). apply ebind_Ret in H as (? & _ & H).
  destruct (validate_inv _ Hval) as (Hrem & Hprev & Hexp & Hacq & (typ & Htyp & Hlive) & Hnow & Hholder).
  unfold build in H. apply obind_Ret in H as (start & Hstart & H). fold (base_lease i start) in H.
  apply obind_Ret in H as (nt & Hnt & H). apply ebind_Ret in H as ([l live] & Hl & H).
  apply build_typed_inv in Hl as (Hty & Hrep & Hst & Hpro & Hat); [|done].
  apply obind_Ret in H as (seq & Hseq & H). apply obind_Ret in H as (nm & Hnm & H).
  set (l' := l <| l_DeprecatedStartStasis := _ |>) in *. set (n := l' <| l_Sequence := seq |>) in *.
  apply ebind_Ret in H as ([] & Hout & H). apply Ret_inj in H as [= <-].
  unfold Output_validate in Hout. cbn [leaseValidationFuncs Output_validate_loop o_NextLease] in Hout. inv_ok.
  repeat match goal with x : unit |- _ => destruct x end.
  match goal with H : validateStart i n = _ |- _ => apply validateStart_inv in H as (Hs1 & Hs2 & Hs3); [|done..] end.
  split; try done.
  - intros Ha. split; [auto|]. rewrite (Hacq Ha) in Hexp. by apply Timestamp_LessEq_spec.
  - by rewrite Hstart, <- Hst.
  - intros e. by apply (validateExpiration_inv i).
  - unfold leaseSequence in Hseq. apply obind_Ret in Hseq as (b & Hb & Hseq). apply Ret_inj in Hseq as Hseq. exists b.
    split; [exact Hb|]. symmetry. exact Hseq.
  - intros Ha Ht He. eapply manipulation_increment; [|done| |done|exact Hnm]; [|by auto].
    destruct (operation_cases i Hrem) as [(?&?&?)|[(?&?&?)|(?&?&?)]]; [done|congruence|congruence].
  - intros r. by apply (manipulation_incremented st i n live).
Qed.
