(* ===== verification/ReadSummary.v ===== *)
(** * Read summaries (src/pkg/kv/kvserver/readsummary/rspb)

    A summary of the reads served on a range, which an outgoing leaseholder hands to
    the next one: per segment of the keyspace a low water mark and the sorted,
    disjoint spans read above it. Slices that the merge mutates in place are values
    here; the size of an encoded segment, which generated code computes, and the sort
    of the standard library are arguments.

    The summary is judged by the value it gives each key. Shown: merging gives each key
    the join of the two values, so it is commutative and idempotent in that sense,
    keeps the spans sorted and disjoint and terminates; compressing never lowers the
    value of a key. *)

From S2P Require Import Prelude Hlc Encoding EncodingOrder Keys KeysOrder.

(** ** Spans with values that only grow (merge_spans.go) *)

Class RatchetingValue (V : Type) : Type := {
  partialCompare : V -> V -> Z * bool;
  ratchet : V -> V -> V
}.

(** What the comments of the interface promise of its methods. *)
Class RatchetLaws (V : Type) `{RatchetingValue V} : Prop := {
  ratchet_comm (a b : V) : ratchet a b = ratchet b a;
  ratchet_idem (a : V) : ratchet a a = a;
  partialCompare_ge (a b : V) c : partialCompare a b = (c, true) -> 0 <= c -> ratchet a b = a
}.

(** A span: a nil end key is the empty one. *)
Record span (V : Type) : Type := mkSpan { sp_key : buffer; sp_endKey : buffer; sp_value : V }.
Arguments mkSpan {V} _ _ _.
Arguments sp_key {V} _.
Arguments sp_endKey {V} _.
Arguments sp_value {V} _.

#[global] Instance eta_span V : Eta (span V) := fun s => mkSpan (sp_key s) (sp_endKey s) (sp_value s).

Section merge.
Context {V : Type} `{RatchetingValue V}.
Implicit Types a b res : list (span V).
Implicit Types s lspan rspan short long : span V.

(** A span with no end key, or with the next key as its end. *)
Definition isPoint (key endKey : buffer) : bool :=
  match reverse endKey with
  | [] => true
  | x :: _ => (x =? 0) && Key_Equal key (take (length endKey - 1) endKey)
  end.

Definition compareEnd s1 s2 : Z :=
  let aIsPoint := isPoint (sp_key s1) (sp_endKey s1) in
  let bIsPoint := isPoint (sp_key s2) (sp_endKey s2) in
  if aIsPoint && bIsPoint then 0
  else if aIsPoint then -1
  else if bIsPoint then 1
  else bytes_Compare (sp_endKey s1) (sp_endKey s2).

(** Spans with the same start and different ends: what is added to the result, and
    what remains of the longer. *)
Definition mergeShort short long : list (span V) * span V :=
  let '(valCmp, ok) := partialCompare (sp_value long) (sp_value short) in
  if ok && (0 <=? valCmp) then ([], long)
  else
    let shortEndKey := sp_endKey short in
    let mergedVal := ratchet (sp_value short) (sp_value long) in
    ([long <| sp_endKey := shortEndKey |> <| sp_value := mergedVal |>],
     long <| sp_key := if bool_decide (shortEndKey = []) then BytesNext (sp_key short) else shortEndKey |>).

(** The span that starts first against the spans of the other slice: the part that is
    added, what remains of it and of the others. *)
Fixpoint addLeft lspan (rightSlice : list (span V)) : span V * option (span V) * list (span V) :=
  match rightSlice with
  | [] => (lspan, None, [])
  | rspan :: rest =>
    if negb (bytes_Compare (sp_endKey lspan) (sp_key rspan) >? 0) then (lspan, None, rightSlice)
    else
      let '(valCmp, ok) := partialCompare (sp_value lspan) (sp_value rspan) in
      if negb ok || (valCmp <? 0) then
        (lspan <| sp_endKey := sp_key rspan |>, Some (lspan <| sp_key := sp_key rspan |>), rightSlice)
      else if negb (bytes_Compare (sp_endKey lspan) (sp_endKey rspan) >=? 0) then
        (lspan, None, rspan <| sp_key := sp_endKey lspan |> :: rest)
      else addLeft lspan rest
  end.

(** The case of different start keys, with the slice of the left span first. *)
Definition mergeLeft lspan (leftRest rightSlice : list (span V)) : span V * list (span V) * list (span V) :=
  if bool_decide (sp_endKey lspan = []) then (lspan, leftRest, rightSlice)
  else
    let '(added, rem, rightSlice) := addLeft lspan rightSlice in
    (added, match rem with Some l => l :: leftRest | None => leftRest end, rightSlice).

(** One iteration of the loop over two non-empty slices. *)
Definition mergeStep s1 a s2 b : list (span V) * list (span V) * list (span V) :=
  let cmp := bytes_Compare (sp_key s1) (sp_key s2) in
  if cmp =? 0 then
    let endCmp := compareEnd s1 s2 in
    if endCmp =? 0 then
      let mergedVal := ratchet (sp_value s1) (sp_value s2) in
      let merged := s1 <| sp_value := mergedVal |> in
      ([if isPoint (sp_key s1) (sp_endKey s1) then merged <| sp_endKey := [] |> else merged], a, b)
    else if endCmp >? 0 then
      let '(added, long) := mergeShort s2 s1 in (added, long :: a, b)
    else let '(added, long) := mergeShort s1 s2 in (added, a, long :: b)
  else if cmp >? 0 then
    let '(added, b, a) := mergeLeft s2 b (s1 :: a) in ([added], a, b)
  else let '(added, a, b) := mergeLeft s1 a (s2 :: b) in ([added], a, b).

Fixpoint mergeSpans_loop (fuel : nat) a b res : option (list (span V)) :=
  match fuel with
  | O => None
  | S fuel =>
    match a, b with
    | s1 :: a', s2 :: b' =>
      let '(added, a, b) := mergeStep s1 a' s2 b' in mergeSpans_loop fuel a b (res ++ added)
    | _, _ => Some (res ++ a ++ b)
    end
  end.

(** Every iteration drops a span or makes two start at the same key, after which the
    next one drops a span. *)
Definition mergeSpans a b : option (list (span V)) :=
  mergeSpans_loop (S (2 * (length a + length b))) a b [].

End merge.

(** ** Reads *)

Abbreviation UUID := buffer (only parsing).
Definition uuid_Nil : UUID := replicate 16 0.

Record readSpanVal : Type := mkReadSpanVal { rv_ts : Timestamp; rv_txnID : UUID }.

#[global] Instance readSpanVal_eq_dec : EqDecision readSpanVal.
Proof. solve_decision. Defined.

Definition readSpanVal_partialCompare (a b : readSpanVal) : Z * bool :=
  if Timestamp_Less (rv_ts a) (rv_ts b) then (-1, true)
  else if Timestamp_Less (rv_ts b) (rv_ts a) then (1, true)
  else if bool_decide (rv_txnID a = rv_txnID b) then (0, true)
  else if bool_decide (rv_txnID a = uuid_Nil) then (1, true)
  else if bool_decide (rv_txnID b = uuid_Nil) then (-1, true)
  else (0, false).

Definition readSpanVal_ratchet (a b : readSpanVal) : readSpanVal :=
  if Timestamp_Less (rv_ts a) (rv_ts b) then b
  else if Timestamp_Less (rv_ts b) (rv_ts a) then a
  else if bool_decide (rv_txnID a = rv_txnID b) then a
  else mkReadSpanVal (rv_ts a) uuid_Nil.

#[global] Instance readSpanVal_ratcheting : RatchetingValue readSpanVal := {
  partialCompare := readSpanVal_partialCompare;
  ratchet := readSpanVal_ratchet
}.

(** A read span: its key, its end key, and its timestamp and transaction. *)
Abbreviation ReadSpan := (span readSpanVal).

Record Segment : Type := mkSegment { seg_LowWater : Timestamp; seg_ReadSpans : list ReadSpan }.
Record ReadSummary : Type := mkReadSummary { sum_Local : Segment; sum_Global : Segment }.

#[global] Instance eta_Segment : Eta Segment := fun s => mkSegment (seg_LowWater s) (seg_ReadSpans s).

Definition FromTimestamp (ts : Timestamp) : ReadSummary :=
  let seg := mkSegment ts [] in mkReadSummary seg seg.

(** [assertEnabled] is set in test builds. *)
Definition AddReadSpan_assert (c : Segment) (s : ReadSpan) : outcome unit :=
  let! _ := if negb (bool_decide (sp_endKey s = [])) && (bytes_Compare (sp_key s) (sp_endKey s) >=? 0)
            then Panic "inverted span: %v" else Ret tt in
  match last (seg_ReadSpans c) with
  | None => Ret tt
  | Some l =>
    if bytes_Compare (sp_key l) (sp_key s) >=? 0 then Panic "out of order spans: %v %v"
    else if negb (bool_decide (sp_endKey l = [])) && (bytes_Compare (sp_endKey l) (sp_key s) >? 0) then Panic "overlapping spans: %v %v"
    else Ret tt
  end.

Definition Segment_AddReadSpan (assertEnabled : bool) (c : Segment) (s : ReadSpan) : outcome Segment :=
  let! _ := if assertEnabled then AddReadSpan_assert c s else Ret tt in
  Ret (if Timestamp_LessEq (rv_ts (sp_value s)) (seg_LowWater c) then c else c <| seg_ReadSpans := seg_ReadSpans c ++ [s] |>).

(** The loop of [filterSpans]: [res] is nil until a span is dropped, and then the
    spans kept so far. *)
Fixpoint filterSpans_loop (minTs : Timestamp) (seen spans : list ReadSpan) (res : option (list ReadSpan)) : option (list ReadSpan) :=
  match spans with
  | [] => res
  | s :: spans' =>
    let res :=
      if Timestamp_LessEq (rv_ts (sp_value s)) minTs then
        match res with None => Some seen | Some r => Some r end
      else match res with None => None | Some r => Some (r ++ [s]) end in
    filterSpans_loop minTs (seen ++ [s]) spans' res
  end.

Definition filterSpans (spans : list ReadSpan) (minTs : Timestamp) : list ReadSpan :=
  default spans (filterSpans_loop minTs [] spans None).

Definition Segment_Merge (c o : Segment) : option Segment :=
  let '(c, o) :=
    if negb (bool_decide (seg_LowWater c = seg_LowWater o)) then
      if Timestamp_Less (seg_LowWater c) (seg_LowWater o) then
        (mkSegment (seg_LowWater o) (filterSpans (seg_ReadSpans c) (seg_LowWater o)), o)
      else (c, o <| seg_ReadSpans := filterSpans (seg_ReadSpans o) (seg_LowWater c) |>)
    else (c, o) in
  match seg_ReadSpans o, seg_ReadSpans c with
  | [], _ => Some c
  | _, [] => Some (c <| seg_ReadSpans := seg_ReadSpans o |>)
  | _, _ => (fun spans => c <| seg_ReadSpans := spans |>) <$> mergeSpans (seg_ReadSpans c) (seg_ReadSpans o)
  end.

Definition ReadSummary_Merge (c o : ReadSummary) : option ReadSummary :=
  l ← Segment_Merge (sum_Local c) (sum_Local o);
  g ← Segment_Merge (sum_Global c) (sum_Global o);
  Some (mkReadSummary l g).

Section compress.
Variable Segment_Size : Segment -> Z.
Variable ReadSpan_Size : ReadSpan -> Z.
Variable sort : (ReadSpan -> ReadSpan -> bool) -> list ReadSpan -> list ReadSpan.

Definition readSpansByDecrTime (s t : ReadSpan) : bool := Timestamp_Less (rv_ts (sp_value t)) (rv_ts (sp_value s)).
Definition readSpansByKey (s t : ReadSpan) : bool := bytes_Compare (sp_key s) (sp_key t) <? 0.

(** The number of spans that fit the allowance. *)
Fixpoint truncIdx (spans : list ReadSpan) (spanAllowance : Z) : nat :=
  match spans with
  | [] => O
  | s :: spans => if ReadSpan_Size s >? spanAllowance then O else S (truncIdx spans (spanAllowance - ReadSpan_Size s))
  end.

Definition Segment_Compress (c : Segment) (budget : Z) : Segment :=
  if Segment_Size c <=? budget then c
  else
    let spans := sort readSpansByDecrTime (seg_ReadSpans c) in
    let c := c <| seg_ReadSpans := [] |> in
    let n := truncIdx spans (budget - Segment_Size c) in
    let c := match spans !! n with
             | Some s => c <| seg_LowWater := fst (Timestamp_Forward (seg_LowWater c) (rv_ts (sp_value s))) |>
             | None => c
             end in
    if bool_decide (n = O) then c else c <| seg_ReadSpans := sort readSpansByKey (take n spans) |>.

Definition ReadSummary_Compress (c : ReadSummary) (budget : Z) : ReadSummary :=
  mkReadSummary (Segment_Compress (sum_Local c) (Z.quot budget 2)) (Segment_Compress (sum_Global c) (Z.quot budget 2)).

End compress.

(** ** The value that spans give a key *)

Definition span_end {V} (s : span V) : buffer := if bool_decide (sp_endKey s = []) then BytesNext (sp_key s) else sp_endKey s.

Definition covers {V} (s : span V) (k : buffer) : bool := (bytes_Compare (sp_key s) k <=? 0) && (bytes_Compare k (span_end s) <? 0).

Fixpoint spans_at {V} (l : list (span V)) (k : buffer) : option V :=
  match l with
  | [] => None
  | s :: l => if covers s k then Some (sp_value s) else spans_at l k
  end.

(** Spans of keys, none of them empty, each after the one before and from [lo] on. *)
Definition span_wf {V} (s : span V) : Prop :=
  Forall is_byte (sp_key s) /\ Forall is_byte (sp_endKey s) /\ bytes_lt (sp_key s) (span_end s).

Fixpoint spans_from {V} (lo : buffer) (l : list (span V)) : Prop :=
  match l with
  | [] => True
  | s :: l => bytes_le lo (sp_key s) /\ span_wf s /\ spans_from (span_end s) l
  end.

Definition sorted_spans {V} (l : list (span V)) : Prop := spans_from [] l.

Section spans.
Context {V : Type}.
Implicit Types l : list (span V).
Implicit Types s : span V.

Lemma covers_spec s k : covers s k = true <-> bytes_le (sp_key s) k /\ bytes_lt k (span_end s).
Proof.
  unfold covers. rewrite andb_true_iff, Z.leb_le, Z.ltb_lt. destruct (bytes_Compare_spec (sp_key s) k) as (H1 & H2 & H3).
  destruct (bytes_Compare_spec k (span_end s)) as (H4 & _). rewrite H4. unfold bytes_le. rewrite <- H3. intuition lia.
Qed.

Lemma covers_false s k : covers s k = false <-> bytes_lt k (sp_key s) \/ bytes_le (span_end s) k.
Proof.
  rewrite <- not_true_iff_false, covers_spec. split.
  - intros N. destruct (bytes_lt_total k (sp_key s)) as [?|E]; [by left|]. right. intros L. apply N. split; [destruct E as [->|?]; key_order|done].
  - intros [H|H] [H1 H2]; key_order.
Qed.

Lemma spans_from_weaken lo lo' l : spans_from lo l -> bytes_le lo' lo -> spans_from lo' l.
Proof. destruct l as [|s l]; cbn; [done|]. intros (H1 & H2 & H3) L. split_and!; [key_order|done|done]. Qed.

Lemma spans_at_below lo l k : spans_from lo l -> bytes_lt k lo -> spans_at l k = None.
Proof.
  revert lo. induction l as [|s l IH]; intros lo; cbn; [done|]. intros (H1 & (_ & _ & H2) & H3) L.
  rewrite (proj2 (covers_false s k)) by (left; key_order). apply (IH _ H3). key_order.
Qed.

Lemma BytesNext_le k m : Forall is_byte m -> bytes_lt k m <-> bytes_le (BytesNext k) m.
Proof. intros Hm. rewrite (BytesNext_spec k m Hm). split; [intros [->|L]; key_order|]. intros L. destruct (bytes_lt_total (BytesNext k) m) as [?|[<-|?]]; [by right|by left|key_order]. Qed.

Lemma BytesNext_lt k : bytes_lt k (BytesNext k).
Proof. apply bytes_lt_extend. Qed.

Lemma BytesNext_bytes k : Forall is_byte k -> Forall is_byte (BytesNext k).
Proof. intros Hk. apply Forall_app. split; [done|]. constructor; [unfold is_byte; lia|done]. Qed.

Lemma span_end_bytes s : span_wf s -> Forall is_byte (span_end s).
Proof. intros (H1 & H2 & _). unfold span_end. case_bool_decide; [by apply BytesNext_bytes|done]. Qed.

Lemma isPoint_spec s : span_wf s -> isPoint (sp_key s) (sp_endKey s) = bool_decide (span_end s = BytesNext (sp_key s)).
Proof.
  intros _. unfold isPoint, span_end, Key_Equal. destruct (sp_endKey s) as [|x e] using rev_ind.
  { rewrite (bool_decide_eq_true_2 (@eq buffer [] [])) by done. symmetry. by apply bool_decide_eq_true_2. }
  rewrite reverse_snoc, (bool_decide_eq_false_2 (e ++ [x] = [])) by (by destruct e). rewrite length_app, Nat.add_sub, take_app_length. unfold BytesNext.
  destruct (x =? 0) eqn:E; bool_to_prop; cbn [andb].
  - apply bool_decide_ext. subst x. split; [by intros ->|]. by intros [-> _]%app_inj_tail.
  - symmetry. apply bool_decide_eq_false. intros [_ ?]%app_inj_tail. congruence.
Qed.

Lemma compareEnd_spec s t : span_wf s -> span_wf t -> sp_key s = sp_key t ->
  (compareEnd s t = 0 <-> span_end s = span_end t) /\ (compareEnd s t > 0 <-> bytes_lt (span_end t) (span_end s)) /\
  (compareEnd s t < 0 <-> bytes_lt (span_end s) (span_end t)).
Proof.
  intros Hs Ht Hk. unfold compareEnd. rewrite (isPoint_spec s), (isPoint_spec t) by done. rewrite Hk.
  pose proof (span_end_bytes s Hs) as Bs. pose proof (span_end_bytes t Ht) as Bt.
  destruct Hs as (_ & _ & Ls), Ht as (_ & _ & Lt). rewrite Hk in Ls.
  rewrite (BytesNext_le _ _ Bs) in Ls. rewrite (BytesNext_le _ _ Bt) in Lt.
  repeat case_bool_decide; cbn [andb].
  - split_and!; split; intros; try lia; key_order.
  - split_and!; split; intros; try lia; key_order.
  - split_and!; split; intros; try lia; key_order.
  - assert (forall u : span V, span_end u <> BytesNext (sp_key u) -> span_end u = sp_endKey u) as E by (intros u; unfold span_end; by case_bool_decide).
    rewrite (E s), (E t) by congruence. destruct (bytes_Compare_spec (sp_endKey s) (sp_endKey t)) as (? & ? & ?). tauto.
Qed.

End spans.

(** ** Merging *)

Section merge_spec.
Context {V : Type} `{RatchetLaws V}.
Implicit Types l a b : list (span V).
Implicit Types s : span V.

(** The join of the values that two sets of spans give a key. *)
Definition join_at (x y : option V) : option V := union_with (fun v w => Some (ratchet v w)) x y.

Lemma join_at_comm x y : join_at x y = join_at y x.
Proof. destruct x, y; cbn; try done. by rewrite ratchet_comm. Qed.

(** What an iteration does to the remaining slices: the added spans lie between [lo]
    and [hi], the slices start at [hi], and no key changes its value. *)
Record merge_step (lo : buffer) a b added a' b' : Prop := {
  ms_hi : exists hi, bytes_le lo hi /\ spans_from hi a' /\ spans_from hi b' /\
    (added = [] \/ exists s, added = [s] /\ span_wf s /\ bytes_le lo (sp_key s) /\ bytes_le (span_end s) hi);
  ms_at : forall k, Forall is_byte k ->
    join_at (spans_at a k) (spans_at b k) = match spans_at added k with Some v => Some v | None => join_at (spans_at a' k) (spans_at b' k) end
}.

Lemma merge_step_comm lo a b added a' b' : merge_step lo a b added a' b' -> merge_step lo b a added b' a'.
Proof.
  intros [(hi & H1 & H2 & H3 & H4) Hat]. split; [by exists hi|]. intros k Hk. rewrite join_at_comm, Hat by done.
  destruct (spans_at added k); [done|apply join_at_comm].
Qed.

(** A span cut off before [mid]. *)
Lemma truncate_left mid s l :
  Forall is_byte mid -> span_wf s -> spans_from (span_end s) l -> bytes_le (sp_key s) mid -> bytes_lt mid (sp_endKey s) ->
  spans_from mid (s <| sp_key := mid |> :: l) /\ forall k, Forall is_byte k -> bytes_le mid k -> spans_at (s <| sp_key := mid |> :: l) k = spans_at (s :: l) k.
Proof.
  intros Bm (_ & Be & Hw) Hl L1 L2. assert (sp_endKey s <> []) as N by (intros E; rewrite E in L2; by apply bytes_lt_nil_r in L2).
  assert (span_end s = sp_endKey s) as E by (unfold span_end; by rewrite bool_decide_eq_false_2).
  set (s' := s <| sp_key := mid |>). assert (span_end s' = sp_endKey s) as E' by (unfold span_end, s'; cbn; by rewrite bool_decide_eq_false_2). split.
  - cbn [spans_from]. rewrite E'. split_and!; [apply bytes_le_refl|split_and!; [done|done|by rewrite E']|by rewrite <- E].
  - intros k _ Lk. cbn [spans_at]. destruct (covers s' k) eqn:C; [apply covers_spec in C|apply covers_false in C]; rewrite E' in C; cbn in C.
    + rewrite (proj2 (covers_spec s k)) by (rewrite E; destruct C; split; key_order). done.
    + rewrite (proj2 (covers_false s k)); [done|]. rewrite E. destruct C as [C|C]; [key_order|by right].
Qed.

(** What remains of the left span from [mid] on, and of the other slice. *)
Lemma addLeft_spec lo lspan (r : list (span V)) added rem r' :
  span_wf lspan -> sp_endKey lspan <> [] -> spans_from lo r -> bytes_lt (sp_key lspan) lo -> addLeft lspan r = (added, rem, r') ->
  exists mid, bytes_lt (sp_key lspan) mid /\ bytes_le mid (span_end lspan) /\ spans_from mid r' /\ (length r' <= length r)%nat /\ (bytes_lt mid lo -> mid = span_end lspan) /\
    (forall k, Forall is_byte k -> bytes_le mid k -> spans_at r' k = spans_at r k) /\
    (forall k, Forall is_byte k -> bytes_lt k mid -> covers lspan k = true -> join_at (Some (sp_value lspan)) (spans_at r k) = Some (sp_value lspan)) /\
    match rem with
    | None => added = lspan /\ mid = span_end lspan
    | Some l' => added = lspan <| sp_endKey := mid |> /\ l' = lspan <| sp_key := mid |> /\ bytes_lt mid (span_end lspan) /\
        Forall is_byte mid /\ (sp_key <$> head r') = Some mid
    end.
Proof.
  intros Wl Nl. assert (span_end lspan = sp_endKey lspan) as El by (unfold span_end; by rewrite bool_decide_eq_false_2).
  pose proof Wl as (_ & _ & Hw). rewrite El in *. revert lo. induction r as [|rspan r IH]; intros lo; cbn [addLeft].
  { intros _ _ [= <- <- <-]. exists (sp_endKey lspan). split_and!; try done; key_order. }
  cbn [spans_from]. intros (Lr & Wr & Cr) Hlo. pose proof Wr as (Brk & Bre & Hwr).
  destruct (bytes_Compare_spec (sp_endKey lspan) (sp_key rspan)) as (_ & _ & Hov).
  destruct (bytes_Compare (sp_endKey lspan) (sp_key rspan) >? 0) eqn:E; cbn [negb].
  2: { intros [= <- <- <-]. assert (bytes_le (sp_endKey lspan) (sp_key rspan)) as L by (intros L; apply Hov in L; lia).
    exists (sp_endKey lspan). split_and!; try done; [key_order|].
    intros k _ Lk _. cbn [spans_at]. rewrite (proj2 (covers_false rspan k)) by (left; key_order). rewrite (spans_at_below _ _ _ Cr) by key_order. done. }
  assert (bytes_lt (sp_key rspan) (sp_endKey lspan)) as Hover by (apply Hov; lia). clear Hov.
  destruct (partialCompare (sp_value lspan) (sp_value rspan)) as [c ok] eqn:Ec.
  destruct (negb ok || (c <? 0)) eqn:Ev.
  { intros [= <- <- <-]. exists (sp_key rspan). split_and!; try done; try key_order; [cbn; split_and!; try done; key_order|].
    intros k _ Lk _. cbn [spans_at]. rewrite (proj2 (covers_false rspan k)) by (by left). rewrite (spans_at_below _ _ _ Cr) by key_order. done. }
  apply orb_false_iff in Ev as [->%negb_false_iff Ev%Z.ltb_ge]. apply partialCompare_ge in Ec; [|done].
  destruct (bytes_Compare_spec (sp_endKey lspan) (sp_endKey rspan)) as (Hc & _).
  destruct (bytes_Compare (sp_endKey lspan) (sp_endKey rspan) >=? 0) eqn:E2; cbn [negb].
  - assert (bytes_le (span_end rspan) (sp_endKey lspan)) as Hin.
    { assert (bytes_le (sp_endKey rspan) (sp_endKey lspan)) as L by (intros L; apply Hc in L; lia).
      unfold span_end. case_bool_decide; [|done]. apply BytesNext_le; [apply Wl|done]. }
    intros E'. destruct (IH (span_end rspan) Cr) as (mid & H1 & H2 & H3 & H4 & H8 & H5 & H6 & H7); [key_order|done|].
    assert (bytes_le (span_end rspan) mid) as Hmid by (intros L; specialize (H8 L); key_order).
    exists mid. split_and!; try done; [cbn [length]; lia|intros L; apply H8; key_order| |].
    + intros k Bk Lk. rewrite (H5 k Bk Lk). cbn [spans_at]. destruct (covers rspan k) eqn:C; [|done].
      apply covers_spec in C as [C1 C2]. key_order.
    + intros k Bk Lk C. cbn [spans_at]. destruct (covers rspan k); [cbn; by rewrite Ec|by apply H6].
  - assert (bytes_lt (sp_endKey lspan) (sp_endKey rspan)) as Hin by (apply Hc; lia).
    assert (sp_endKey rspan <> []) as Nr by (intros Er; rewrite Er in Hin; by apply bytes_lt_nil_r in Hin).
    assert (span_end rspan = sp_endKey rspan) as Er by (unfold span_end; by rewrite bool_decide_eq_false_2).
    destruct (truncate_left (sp_endKey lspan) rspan r) as [H1 H2]; [apply Wl|done|done|key_order|done|].
    intros [= <- <- <-]. exists (sp_endKey lspan). split_and!; try done; try key_order.
    intros k _ Lk C. cbn [spans_at]. destruct (covers rspan k) eqn:C'; [cbn; by rewrite Ec|]. apply covers_false in C' as [C'|C']; [|rewrite Er in C'; key_order].
    by rewrite (spans_at_below _ _ _ Cr) by (rewrite Er in *; key_order).
Qed.

(** An iteration that adds the span [s] for the keys below its end. *)
Lemma emit_step lo a b s a' b' :
  span_wf s -> bytes_le lo (sp_key s) -> spans_from (span_end s) a' -> spans_from (span_end s) b' ->
  (forall k, Forall is_byte k -> bytes_lt k (span_end s) ->
    join_at (spans_at a k) (spans_at b k) = if covers s k then Some (sp_value s) else None) ->
  (forall k, Forall is_byte k -> bytes_le (span_end s) k ->
    join_at (spans_at a k) (spans_at b k) = join_at (spans_at a' k) (spans_at b' k)) ->
  merge_step lo a b [s] a' b'.
Proof.
  intros W L Ha Hb Hlow Hhigh. pose proof W as (_ & _ & Hw). split.
  - exists (span_end s). split_and!; [key_order|done|done|]. right. exists s. split_and!; try done. key_order.
  - intros k Bk. cbn [spans_at]. destruct (bytes_lt_total k (span_end s)) as [Lk|Lk].
    + rewrite (Hlow k Bk Lk). destruct (covers s k); [done|]. by rewrite (spans_at_below _ _ _ Ha Lk), (spans_at_below _ _ _ Hb Lk).
    + assert (bytes_le (span_end s) k) as Lk' by (destruct Lk as [->|?]; key_order). rewrite (proj2 (covers_false s k)) by (by right). by apply Hhigh.
Qed.

(** Below the end of a span, only the span counts. *)
Lemma spans_at_first lo s l k : spans_from lo (s :: l) -> bytes_lt k (span_end s) -> spans_at (s :: l) k = if covers s k then Some (sp_value s) else None.
Proof. intros (_ & _ & Hl) Lk. cbn [spans_at]. destruct (covers s k); [done|]. by apply (spans_at_below _ _ _ Hl). Qed.

Lemma spans_at_rest s l k : bytes_le (span_end s) k -> spans_at (s :: l) k = spans_at l k.
Proof. intros Lk. cbn [spans_at]. by rewrite (proj2 (covers_false s k)) by (by right). Qed.

Lemma mergeShort_spec lo short a long b added long' :
  spans_from lo (short :: a) -> spans_from lo (long :: b) -> sp_key short = sp_key long -> bytes_lt (span_end short) (span_end long) ->
  mergeShort short long = (added, long') -> merge_step lo (short :: a) (long :: b) added a (long' :: b).
Proof.
  intros H1 H2 Hk Hend. pose proof H1 as (L1 & W1 & C1). pose proof H2 as (L2 & W2 & C2). unfold mergeShort.
  destruct (partialCompare (sp_value long) (sp_value short)) as [c ok] eqn:Ec.
  pose proof (span_end_bytes _ W1) as B1. pose proof W1 as (Bk & Be & Hw).
  destruct (ok && (0 <=? c)) eqn:E; intros [= <- <-].
  - apply andb_true_iff in E as [-> E%Z.leb_le]. apply partialCompare_ge in Ec; [|done]. split.
    + exists lo. split_and!; [key_order| |done|by left]. apply (spans_from_weaken (span_end short)); [done|key_order].
    + intros k Bk'. cbn [spans_at]. destruct (covers short k) eqn:C; [|done]. apply covers_spec in C as [C3 C4].
      rewrite (proj2 (covers_spec long k)) by (split; key_order). rewrite (spans_at_below _ _ _ C1) by done. cbn. by rewrite ratchet_comm, Ec.
  - set (s' := long <| sp_endKey := _ |> <| sp_value := _ |>).
    assert (span_end s' = span_end short) as E1 by (unfold span_end, s'; cbn; by rewrite Hk).
    assert (bytes_lt (span_end short) (sp_endKey long)) as Hend'.
    { assert (bytes_le (BytesNext (sp_key long)) (span_end short)) as Hn by (rewrite <- Hk; by apply BytesNext_le).
      unfold span_end in Hend at 2. case_bool_decide; [key_order|done]. }
    destruct (truncate_left (span_end short) long b) as [T1 T2]; [done|done|done|key_order|done|].
    apply emit_step; rewrite ?E1.
    + unfold span_wf. rewrite E1. change (sp_key s') with (sp_key long). rewrite <- Hk. done.
    + done.
    + done.
    + exact T1.
    + intros k Bk' Lk. rewrite (spans_at_first _ _ _ _ H1 Lk), (spans_at_first _ _ _ _ H2) by key_order.
      assert (covers s' k = covers short k) as -> by (unfold covers; rewrite E1; by rewrite Hk).
      destruct (covers short k) eqn:C; [apply covers_spec in C as []|apply covers_false in C].
      * rewrite (proj2 (covers_spec long k)) by (split; key_order). done.
      * rewrite (proj2 (covers_false long k)); [done|]. left. destruct C; key_order.
    + intros k Bk' Lk. rewrite (spans_at_rest short a k Lk), <- (T2 k Bk' Lk). done.
Qed.

Lemma mergeLeft_spec lo lspan a b added a' b' :
  spans_from lo (lspan :: a) -> spans_from lo b -> (forall s, head b = Some s -> bytes_lt (sp_key lspan) (sp_key s)) ->
  mergeLeft lspan a b = (added, a', b') ->
  merge_step lo (lspan :: a) b [added] a' b' /\
  (length a' + length b' < length (lspan :: a) + length b \/
   length a' + length b' <= length (lspan :: a) + length b /\ exists k, sp_key <$> head a' = Some k /\ sp_key <$> head b' = Some k)%nat.
Proof.
  intros Ha Hb Hhd. pose proof Ha as (L & W & C). unfold mergeLeft.
  assert (exists hi, spans_from hi b /\ bytes_lt (sp_key lspan) hi /\ bytes_le (BytesNext (sp_key lspan)) hi) as (hi & Hhi & Llt & Ln).
  { destruct b as [|s b]; [exists (BytesNext (sp_key lspan)); pose proof (BytesNext_lt (sp_key lspan)); split_and!; [done|done|key_order]|].
    exists (sp_key s). specialize (Hhd s eq_refl). cbn in Hb |- *. split_and!; [apply bytes_le_refl|apply Hb|apply Hb|done|apply BytesNext_le; [apply Hb|done]]. }
  case_bool_decide as N.
  - intros [= <- <- <-]. assert (span_end lspan = BytesNext (sp_key lspan)) as E by (unfold span_end; by rewrite bool_decide_eq_true_2).
    assert (spans_from (span_end lspan) b) as Hb' by (apply (spans_from_weaken hi); [done|key_order]).
    split; [|cbn [length]; lia]. apply emit_step; try done.
    + intros k _ Lk. rewrite (spans_at_first _ _ _ _ Ha Lk), (spans_at_below _ _ _ Hb' Lk). by destruct (covers lspan k).
    + intros k _ Lk. by rewrite (spans_at_rest _ _ _ Lk).
  - destruct (addLeft lspan b) as [[added0 rem] r'] eqn:Ea. intros [= <- <- <-].
    destruct (addLeft_spec _ _ _ _ _ _ W N Hhi Llt Ea) as (mid & H1 & H2 & H3 & H4 & _ & H5 & H6 & H7).
    assert (forall k, Forall is_byte k -> bytes_lt k mid -> join_at (spans_at (lspan :: a) k) (spans_at b k) = if covers lspan k then Some (sp_value lspan) else None) as Hlow.
    { intros k Bk Lk. rewrite (spans_at_first _ _ _ _ Ha) by key_order. destruct (covers lspan k) eqn:Ck; [by apply H6|].
      apply covers_false in Ck as [Ck|Ck]; [|key_order]. rewrite (spans_at_below _ _ _ Hhi) by key_order. done. }
    destruct rem as [l'|].
    + destruct H7 as (-> & -> & Lm & Bm & Hh). split; [|right; split; [cbn [length]; lia|by exists mid]].
      destruct (truncate_left mid lspan a) as [T1 T2]; [done|done|done|key_order|unfold span_end in Lm; by rewrite bool_decide_eq_false_2 in Lm|].
      set (s' := lspan <| sp_endKey := mid |>). assert (span_end s' = mid) as Es.
      { unfold span_end, s'. cbn. rewrite bool_decide_eq_false_2; [done|]. intros ->. by apply bytes_lt_nil_r in H1. }
      apply emit_step; rewrite ?Es; [split_and!; [apply W|done|by rewrite Es]|done|done|done| |].
      * intros k Bk Lk. rewrite (Hlow k Bk Lk). assert (covers s' k = covers lspan k) as ->; [|done]. apply eq_true_iff_eq. rewrite !covers_spec, Es.
        change (sp_key s') with (sp_key lspan). split; intros []; split; try done; key_order.
      * intros k Bk Lk. by rewrite <- (T2 k Bk Lk), <- (H5 k Bk Lk).
    + destruct H7 as [-> ->]. split; [|left; cbn [length]; lia]. apply emit_step; try done.
      intros k Bk Lk. by rewrite (spans_at_rest _ _ _ Lk), <- (H5 k Bk Lk).
Qed.

Lemma mergeStep_spec lo s1 a s2 b added a' b' :
  spans_from lo (s1 :: a) -> spans_from lo (s2 :: b) -> mergeStep s1 a s2 b = (added, a', b') ->
  merge_step lo (s1 :: a) (s2 :: b) added a' b' /\
  (length a' + length b' < length (s1 :: a) + length (s2 :: b) \/
   length a' + length b' <= length (s1 :: a) + length (s2 :: b) /\ sp_key s1 <> sp_key s2 /\ exists k, sp_key <$> head a' = Some k /\ sp_key <$> head b' = Some k)%nat.
Proof.
  intros Ha Hb. unfold mergeStep. destruct (bytes_Compare_spec (sp_key s1) (sp_key s2)) as (Hlt & Heq & Hgt).
  pose proof Ha as (La & Wa & Ca). pose proof Hb as (Lb & Wb & Cb).
  destruct (bytes_Compare (sp_key s1) (sp_key s2) =? 0) eqn:E; bool_to_prop.
  - apply Heq in E as Hk. clear Hlt Heq Hgt. destruct (compareEnd_spec s1 s2 Wa Wb Hk) as (He & Hg & Hl).
    destruct (compareEnd s1 s2 =? 0) eqn:E1; bool_to_prop; [|destruct (compareEnd s1 s2 >? 0) eqn:E2; bool_to_prop].
    + apply He in E1 as Eend. intros [= <- <- <-]. split; [|left; cbn [length]; lia]. set (s := if isPoint _ _ then _ else _).
      assert (sp_key s = sp_key s1 /\ span_end s = span_end s1 /\ sp_value s = ratchet (sp_value s1) (sp_value s2)) as (Ek & Ee & Ev).
      { unfold s. rewrite isPoint_spec by done. case_bool_decide as Ep; [|done]. split_and!; [done| |done]. symmetry. exact Ep. }
      apply emit_step; rewrite ?Ee; [|by rewrite Ek|done|by rewrite Eend| |].
      * unfold span_wf. rewrite Ek, Ee. split_and!; [apply Wa| |apply Wa]. unfold s. destruct (isPoint _ _); [done|apply Wa].
      * intros k Bk Lk. rewrite (spans_at_first _ _ _ _ Ha Lk), (spans_at_first _ _ _ _ Hb) by (by rewrite <- Eend).
        assert (covers s1 k = covers s k /\ covers s2 k = covers s k) as [-> ->] by (unfold covers; rewrite <- Hk, <- Eend, Ek, Ee; done).
        destruct (covers s k); [cbn; by rewrite Ev|done].
      * intros k Bk Lk. by rewrite (spans_at_rest s1 _ _ Lk), (spans_at_rest s2) by (by rewrite <- Eend).
    + destruct (mergeShort s2 s1) as [x long] eqn:Em. intros [= <- <- <-]. split; [|left; cbn [length]; lia].
      apply merge_step_comm. apply (mergeShort_spec _ _ _ _ _ _ _ Hb Ha); [done|by apply Hg; lia|done].
    + destruct (mergeShort s1 s2) as [x long] eqn:Em. intros [= <- <- <-]. split; [|left; cbn [length]; lia].
      apply (mergeShort_spec _ _ _ _ _ _ _ Ha Hb); [done|by apply Hl; lia|done].
  - assert (sp_key s1 <> sp_key s2) as Nk by tauto. destruct (bytes_Compare (sp_key s1) (sp_key s2) >? 0) eqn:E2; bool_to_prop.
    + destruct (mergeLeft s2 b (s1 :: a)) as [[x b1] a1] eqn:Em. intros [= <- <- <-].
      destruct (mergeLeft_spec lo s2 b (s1 :: a) x b1 a1) as [H1 H2]; [done|done|intros s [= <-]; apply Hgt; lia|done|].
      split; [by apply merge_step_comm|]. destruct H2 as [H2|(H2 & k & H3 & H4)]; [left; lia|right; split; [lia|eauto]].
    + destruct (mergeLeft s1 a (s2 :: b)) as [[x a1] b1] eqn:Em. intros [= <- <- <-].
      destruct (mergeLeft_spec lo s1 a (s2 :: b) x a1 b1) as [H1 H2]; [done|done|intros s [= <-]; apply Hlt; lia|done|].
      split; [done|]. destruct H2 as [H2|(H2 & k & H3 & H4)]; [by left|right; split; [done|eauto]].
Qed.

(** The iterations left: two per span, one less when the slices start at the same key. *)
Definition merge_fuel a b : nat :=
  match a, b with
  | s1 :: _, s2 :: _ => 2 * (length a + length b) + (if bool_decide (sp_key s1 = sp_key s2) then 0 else 1)
  | _, _ => 1
  end.

Lemma merge_fuel_bound a b : (1 <= merge_fuel a b <= S (2 * (length a + length b)))%nat.
Proof. unfold merge_fuel. destruct a, b; cbn [length]; try case_bool_decide; lia. Qed.

Lemma mergeSpans_loop_spec fuel lo a b res :
  (merge_fuel a b <= fuel)%nat -> spans_from lo a -> spans_from lo b ->
  exists out, mergeSpans_loop fuel a b res = Some (res ++ out) /\ spans_from lo out /\
    forall k, Forall is_byte k -> spans_at out k = join_at (spans_at a k) (spans_at b k).
Proof.
  revert lo a b res. induction fuel as [|fuel IH]; intros lo a b res Hf Ha Hb; [pose proof (merge_fuel_bound a b); lia|].
  cbn [mergeSpans_loop]. destruct a as [|s1 a]; [exists b; split_and!; [done|done|]; intros k _; by destruct (spans_at b k)|].
  destruct b as [|s2 b]; [exists (s1 :: a); rewrite app_nil_r; split_and!; [done|done|]; intros k _; by destruct (spans_at (s1 :: a) k)|].
  destruct (mergeStep s1 a s2 b) as [[added a'] b'] eqn:E. destruct (mergeStep_spec _ _ _ _ _ _ _ _ Ha Hb E) as [[(hi & Lhi & Ha' & Hb' & Hadd) Hat] Hlen].
  assert (merge_fuel a' b' <= fuel)%nat as Hf'.
  { unfold merge_fuel in Hf. cbn [length] in *. destruct Hlen as [Hlen|(Hlen & Nk & k & Hk1 & Hk2)].
    - pose proof (merge_fuel_bound a' b'). case_bool_decide; lia.
    - rewrite bool_decide_eq_false_2 in Hf by done. destruct a', b'; try done. cbn in Hk1, Hk2. unfold merge_fuel. rewrite bool_decide_eq_true_2 by congruence. cbn [length] in *. lia. }
  destruct (IH hi a' b' (res ++ added) Hf' Ha' Hb') as (out & Hout & Hfrom & Hval). exists (added ++ out). rewrite (assoc_L (++)). split_and!; [done| |].
  - destruct Hadd as [->|(s & -> & Ws & Ls & Hs)]; [by apply (spans_from_weaken hi)|]. cbn. split_and!; [done|done|]. by apply (spans_from_weaken hi).
  - intros k Bk. rewrite (Hat k Bk), <- (Hval k Bk). destruct Hadd as [->|(s & -> & Ws & Ls & Hs)]; [done|]. cbn. by destruct (covers s k).
Qed.

Lemma mergeSpans_spec a b :
  sorted_spans a -> sorted_spans b -> exists out, mergeSpans a b = Some out /\ sorted_spans out /\
    forall k, Forall is_byte k -> spans_at out k = join_at (spans_at a k) (spans_at b k).
Proof. intros Ha Hb. apply (mergeSpans_loop_spec _ [] a b []); [apply merge_fuel_bound|done|done]. Qed.

End merge_spec.

(** ** Segments *)

(** A low water mark counts as a read of no transaction. *)
Definition low (ts : Timestamp) : readSpanVal := mkReadSpanVal ts uuid_Nil.

Definition seg_at (c : Segment) (k : buffer) : readSpanVal :=
  match spans_at (seg_ReadSpans c) k with Some v => ratchet (low (seg_LowWater c)) v | None => low (seg_LowWater c) end.

Definition segment_wf (c : Segment) : Prop := sorted_spans (seg_ReadSpans c).
Definition summary_wf (c : ReadSummary) : Prop := segment_wf (sum_Local c) /\ segment_wf (sum_Global c).

(** [v] protects less than [w]. *)
Definition val_le (v w : readSpanVal) : Prop := ratchet v w = w.

Lemma Timestamp_Less_cases t u :
  Timestamp_Less t u = true /\ Timestamp_Less u t = false \/ Timestamp_Less t u = false /\ Timestamp_Less u t = true \/
  t = u /\ Timestamp_Less t u = false /\ Timestamp_Less u t = false.
Proof.
  unfold Timestamp_Less. destruct t as [w l], u as [w' l']. cbn.
  destruct (Z.lt_total w w') as [H|[->|H]]; [left| |right; left]; [split; blia| |split; blia].
  destruct (Z.lt_total l l') as [H|[->|H]]; [left; split; blia|right; right; split_and!; [done|blia|blia]|right; left; split; blia].
Qed.

Ltac ratchet_cases :=
  repeat match goal with
  | |- context [Timestamp_Less ?t ?u] => destruct (Timestamp_Less t u) eqn:?
  | |- context [bool_decide ?P] => case_bool_decide
  end.

Ltac ts_cases :=
  repeat match goal with
  | H : Timestamp_Less _ _ = true |- _ => apply Timestamp_Less_spec in H
  | H : Timestamp_Less _ _ = false |- _ => apply Timestamp_Less_false in H
  end; unfold ts_le in *; lia.

#[global] Instance readSpanVal_laws : RatchetLaws readSpanVal.
Proof.
  split; cbn.
  - intros [t x] [u y]. unfold readSpanVal_ratchet. cbn. destruct (Timestamp_Less_cases t u) as [[-> ->]|[[-> ->]|(-> & -> & _)]]; [done|done|].
    repeat case_bool_decide; congruence.
  - intros [t x]. unfold readSpanVal_ratchet. cbn. destruct (Timestamp_Less_cases t t) as [[-> E]|[[-> E]|(_ & -> & _)]]; [congruence|congruence|]. by rewrite bool_decide_eq_true_2.
  - intros [t x] [u y] c. unfold readSpanVal_ratchet, readSpanVal_partialCompare. cbn. ratchet_cases; intros [= <-] L; try lia; try done; congruence.
Qed.

Lemma ratchet_assoc (a b c : readSpanVal) : ratchet a (ratchet b c) = ratchet (ratchet a b) c.
Proof.
  destruct a as [t x], b as [u y], c as [w z]. cbn. unfold readSpanVal_ratchet. cbn.
  destruct (Timestamp_Less_cases u w) as [[E1 E2]|[[E1 E2]|(<- & E1 & E2)]]; destruct (Timestamp_Less_cases t u) as [[E3 E4]|[[E3 E4]|(<- & E3 & E4)]];
    rewrite ?E1, ?E2, ?E3, ?E4; cbn; rewrite ?E1, ?E2, ?E3, ?E4; cbn.
  all: repeat (case_bool_decide; cbn); ratchet_cases; cbn in *; ratchet_cases; try congruence; exfalso; ts_cases.
Qed.

Lemma val_le_refl v : val_le v v.
Proof. apply ratchet_idem. Qed.

Lemma val_le_trans v w x : val_le v w -> val_le w x -> val_le v x.
Proof. unfold val_le. intros <- <-. by rewrite !ratchet_assoc, ratchet_idem. Qed.

Lemma val_le_l v w : val_le v (ratchet v w).
Proof. unfold val_le. by rewrite ratchet_assoc, ratchet_idem. Qed.

Lemma val_le_r v w : val_le w (ratchet v w).
Proof. rewrite ratchet_comm. apply val_le_l. Qed.

Lemma val_le_lub v w x : val_le v x -> val_le w x -> val_le (ratchet v w) x.
Proof. unfold val_le. intros H1 H2. by rewrite <- ratchet_assoc, H2. Qed.

Lemma ratchet_low_le v ts : ts_le (rv_ts v) ts -> ratchet (low ts) v = low ts.
Proof.
  intros L. destruct v as [t x]. cbn in *. unfold readSpanVal_ratchet, low. cbn.
  destruct (Timestamp_Less ts t) eqn:E; [by apply Timestamp_Less_spec in E|]. destruct (Timestamp_Less t ts); [done|]. by case_bool_decide.
Qed.

Lemma ratchet_low t u : ts_le t u -> ratchet (low t) (low u) = low u.
Proof. intros L. rewrite ratchet_comm. by apply ratchet_low_le. Qed.

(** Filtering *)
Definition above (minTs : Timestamp) (s : ReadSpan) : Prop := Timestamp_LessEq (rv_ts (sp_value s)) minTs = false.
#[global] Instance above_dec minTs s : Decision (above minTs s).
Proof. unfold above. apply _. Defined.

Lemma filterSpans_eq spans minTs : filterSpans spans minTs = filter (above minTs) spans.
Proof.
  unfold filterSpans.
  assert (forall seen res, (res = None -> filter (above minTs) seen = seen) -> default (seen ++ spans) (filterSpans_loop minTs seen spans res) =
    match res with None => filter (above minTs) (seen ++ spans) | Some r => r ++ filter (above minTs) spans end) as G; [|exact (G [] None (fun _ => eq_refl))].
  induction spans as [|s spans IH]; intros seen res Hres; cbn [filterSpans_loop].
  - destruct res as [r|]; cbn; rewrite ?app_nil_r; [done|]. symmetry. by apply Hres.
  - change (s :: spans) with ([s] ++ spans). rewrite (assoc_L (++)). rewrite IH; unfold above.
    + destruct (Timestamp_LessEq (rv_ts (sp_value s)) minTs) eqn:E; destruct res as [r|].
      * rewrite filter_app, filter_cons_False by congruence. done.
      * rewrite <- (assoc_L (++)), filter_app. cbn [app]. rewrite filter_cons_False by congruence. f_equal. symmetry. by apply Hres.
      * rewrite <- (assoc_L (++)). cbn [app]. by rewrite filter_cons_True.
      * done.
    + destruct (Timestamp_LessEq (rv_ts (sp_value s)) minTs) eqn:E; [by destruct res|]. destruct res; [done|]. intros _.
      rewrite filter_app, filter_cons_True, filter_nil by done. f_equal. by apply Hres.
Qed.

Lemma filter_from lo spans minTs : spans_from lo spans -> spans_from lo (filter (above minTs) spans).
Proof.
  revert lo. induction spans as [|s l IH]; intros lo; [done|]. cbn [spans_from]. intros (L & W & C). destruct (decide (above minTs s)).
  - rewrite filter_cons_True by done. split_and!; [done|done|by apply IH].
  - rewrite filter_cons_False by done. apply (spans_from_weaken (span_end s)); [by apply IH|]. destruct W as (_ & _ & W). key_order.
Qed.

Lemma filter_at lo spans minTs k : spans_from lo spans ->
  match spans_at (filter (above minTs) spans) k with Some v => ratchet (low minTs) v | None => low minTs end =
  match spans_at spans k with Some v => ratchet (low minTs) v | None => low minTs end.
Proof.
  revert lo. induction spans as [|s l IH]; intros lo; [done|]. cbn [spans_from]. intros (L & W & C). destruct (decide (above minTs s)) as [A|A].
  - rewrite filter_cons_True by done. cbn [spans_at]. destruct (covers s k); [done|by apply (IH (span_end s))].
  - rewrite filter_cons_False by done. cbn [spans_at]. destruct (covers s k) eqn:Ck; [|by apply (IH (span_end s))]. apply covers_spec in Ck as [_ Ck].
    rewrite (spans_at_below _ _ _ (filter_from _ _ _ C) Ck). symmetry. apply ratchet_low_le. apply Timestamp_LessEq_spec. unfold above in A. by destruct (Timestamp_LessEq _ _).
Qed.

(** Equal low water marks: the spans decide. *)
Lemma merge_same_low lw c o m :
  (forall k, Forall is_byte k -> spans_at m k = join_at (spans_at c k) (spans_at o k)) ->
  forall k, Forall is_byte k -> seg_at (mkSegment lw m) k = ratchet (seg_at (mkSegment lw c) k) (seg_at (mkSegment lw o) k).
Proof.
  intros Hm k Bk. unfold seg_at. cbn [seg_ReadSpans seg_LowWater]. rewrite (Hm k Bk).
  destruct (spans_at c k) as [v|], (spans_at o k) as [w|]; cbn [join_at union_with option_union_with].
  - rewrite <- (ratchet_idem (low lw)) at 1. rewrite <- !ratchet_assoc. f_equal. rewrite !ratchet_assoc. f_equal. apply ratchet_comm.
  - rewrite (ratchet_comm _ (low lw)). by rewrite ratchet_assoc, ratchet_idem.
  - by rewrite ratchet_assoc, ratchet_idem.
  - by rewrite ratchet_idem.
Qed.

(** A raised low water mark absorbs the lower one. *)
Lemma filtered_at lw c lw' k : sorted_spans c -> ts_le lw lw' ->
  seg_at (mkSegment lw' (filterSpans c lw')) k = ratchet (low lw') (seg_at (mkSegment lw c) k).
Proof.
  intros Wc L. unfold seg_at. cbn [seg_ReadSpans seg_LowWater]. rewrite filterSpans_eq, (filter_at [] _ _ _ Wc).
  destruct (spans_at c k) as [v|]; [rewrite ratchet_assoc|]; rewrite (ratchet_comm (low lw') (low _)), ratchet_low by done; done.
Qed.

Lemma low_seg_at c k : ratchet (low (seg_LowWater c)) (seg_at c k) = seg_at c k.
Proof. unfold seg_at. destruct (spans_at _ k); [by rewrite ratchet_assoc, ratchet_idem|by rewrite ratchet_idem]. Qed.

Lemma merge_fast_paths lw c o : sorted_spans c -> sorted_spans o ->
  exists m, match o, c with [], _ => Some (mkSegment lw c) | _, [] => Some (mkSegment lw o) | _, _ => (fun l => mkSegment lw l) <$> mergeSpans c o end = Some m /\
    segment_wf m /\ seg_LowWater m = lw /\ forall k, Forall is_byte k -> seg_at m k = ratchet (seg_at (mkSegment lw c) k) (seg_at (mkSegment lw o) k).
Proof.
  intros Hc Ho. destruct (mergeSpans_spec c o Hc Ho) as (out & E & Hs & Hat).
  destruct o as [|s2 o]; [|destruct c as [|s1 c]].
  - exists (mkSegment lw c). split_and!; [done|done|done|]. apply merge_same_low. intros k _. by destruct (spans_at c k).
  - exists (mkSegment lw (s2 :: o)). split_and!; [done|done|done|]. apply merge_same_low. intros k _. by destruct (spans_at (s2 :: o) k).
  - exists (mkSegment lw out). rewrite E. split_and!; [done|done|done|]. by apply merge_same_low.
Qed.

Lemma Segment_Merge_spec c o : segment_wf c -> segment_wf o ->
  exists m, Segment_Merge c o = Some m /\ segment_wf m /\ forall k, Forall is_byte k -> seg_at m k = ratchet (seg_at c k) (seg_at o k).
Proof.
  intros Wc Wo. unfold Segment_Merge. destruct c as [lc c], o as [lo o]. cbn [seg_LowWater seg_ReadSpans].
  assert (forall lw l, sorted_spans l -> sorted_spans (filterSpans l lw)) as Hf by (intros lw l Hl; rewrite filterSpans_eq; by apply filter_from).
  case_bool_decide as E; cbn [negb].
  - subst lo. destruct (merge_fast_paths lc c o) as (m & Hm & Wm & _ & Hat); [done|done|]. by exists m.
  - destruct (Timestamp_Less lc lo) eqn:L.
    + assert (ts_le lc lo) as Le by (apply Timestamp_Less_spec in L; destruct (total ts_le lc lo); done).
      destruct (merge_fast_paths lo (filterSpans c lo) o) as (m & Hm & Wm & _ & Hat); [by apply Hf|done|]. exists m. split_and!; [done|done|].
      intros k Bk. rewrite (Hat k Bk), (filtered_at lc c lo k Wc Le), (ratchet_comm (low lo)), <- ratchet_assoc. f_equal. apply (low_seg_at (mkSegment lo o)).
    + apply Timestamp_Less_false in L as Le.
      destruct (merge_fast_paths lc c (filterSpans o lc)) as (m & Hm & Wm & _ & Hat); [done|by apply Hf|]. exists m. split_and!; [done|done|].
      intros k Bk. rewrite (Hat k Bk), (filtered_at lo o lc k Wo Le), ratchet_assoc. f_equal. rewrite ratchet_comm. apply (low_seg_at (mkSegment lc c)).
Qed.

(** ** Compression *)

(** Pairwise disjoint spans, in any order. *)
Definition disjoint {V} (s t : span V) : Prop := s = t \/ bytes_le (span_end s) (sp_key t) \/ bytes_le (span_end t) (sp_key s).

Record spans_ok {V} (l : list (span V)) : Prop := {
  so_wf : Forall span_wf l;
  so_nodup : NoDup l;
  so_disjoint s t : s ∈ l -> t ∈ l -> disjoint s t
}.

Lemma spans_from_elem {V} lo (l : list (span V)) s : spans_from lo l -> s ∈ l -> span_wf s /\ bytes_le lo (sp_key s).
Proof.
  revert lo. induction l as [|t l IH]; intros lo; cbn; [by intros _ ?%elem_of_nil|]. intros (L & W & C) [->|Hs]%elem_of_cons; [done|].
  destruct (IH _ C Hs) as [Ws Ls]. split; [done|]. destruct W as (_ & _ & W). key_order.
Qed.

Lemma sorted_spans_ok {V} (l : list (span V)) : sorted_spans l -> spans_ok l.
Proof.
  unfold sorted_spans. generalize (@nil Z). induction l as [|s l IH]; intros lo; cbn.
  - intros _. split; [constructor|constructor|by intros s t ?%elem_of_nil].
  - intros (L & W & C). destruct (IH _ C) as [H1 H2 H3]. split.
    + by constructor.
    + constructor; [|done]. intros Hs. destruct (spans_from_elem _ _ _ C Hs) as [_ Ls]. destruct W as (_ & _ & W). key_order.
    + intros t u [->|Ht]%elem_of_cons [->|Hu]%elem_of_cons; [by left| | |by apply H3].
      * right; left. by apply (spans_from_elem _ _ _ C).
      * right; right. by apply (spans_from_elem _ _ _ C).
Qed.

Lemma spans_ok_sub {V} (l l' : list (span V)) : spans_ok l -> NoDup l' -> l' ⊆ l -> spans_ok l'.
Proof. intros [H1 H2 H3] N S. rewrite Forall_forall in H1. split; [apply Forall_forall; intros s Hs; apply H1; by apply S|done|intros s t Hs Ht; apply H3; by apply S]. Qed.

Lemma spans_at_elem {V} (l : list (span V)) s k : spans_ok l -> s ∈ l -> covers s k = true -> spans_at l k = Some (sp_value s).
Proof.
  intros Hok. assert (forall t, t ∈ l -> covers t k = true -> covers s k = true -> s ∈ l -> t = s) as Hu.
  { intros t Ht Ct Cs Hs. apply covers_spec in Ct as [C1 C2], Cs as [C3 C4]. destruct (so_disjoint _ Hok t s Ht Hs) as [?|[?|?]]; [done|key_order|key_order]. }
  clear Hok. induction l as [|t l IH]; [by intros ?%elem_of_nil|]. intros Hs Cs. cbn. destruct (covers t k) eqn:Ct.
  - by rewrite (Hu t) by (done || by left).
  - apply elem_of_cons in Hs as [->|Hs]; [congruence|]. apply IH; [|done|done]. intros u Hu' Cu _ _. apply Hu; [by right|done|done|by right].
Qed.

Lemma spans_at_inv {V} (l : list (span V)) k v : spans_at l k = Some v -> exists s, s ∈ l /\ covers s k = true /\ sp_value s = v.
Proof.
  induction l as [|t l IH]; cbn; [done|]. destruct (covers t k) eqn:Ct; [intros [= <-]; exists t; split_and!; [by left|done|done]|].
  intros E. destruct (IH E) as (s & Hs & Cs & Ev). exists s. split_and!; [by right|done|done].
Qed.

(** Spans that are disjoint and sorted by key are sorted. *)
Lemma sorted_by_key (l : list ReadSpan) : spans_ok l -> StronglySorted (fun s t => readSpansByKey t s = false) l -> sorted_spans l.
Proof.
  intros Hok Hs. unfold sorted_spans. assert (forall s, s ∈ l -> bytes_le [] (sp_key s)) as Hlo by (intros s _; apply bytes_lt_nil_r).
  revert Hlo. generalize (@nil Z). induction Hs as [|s l Hs IH Hall]; intros lo Hlo; cbn; [done|]. destruct Hok as [H1 H2 H3].
  apply Forall_cons in H1 as [W H1]. apply NoDup_cons in H2 as [N H2]. split_and!; [apply Hlo; by left|done|].
  apply IH; [split; [done|done|intros t u Ht Hu; apply H3; by right]|]. intros t Ht. rewrite Forall_forall in Hall. specialize (Hall t Ht).
  unfold readSpansByKey in Hall. destruct (bytes_Compare_spec (sp_key t) (sp_key s)) as (Hlt & _).
  assert (bytes_le (sp_key s) (sp_key t)) as Hle by (intros L; apply Hlt in L; lia).
  destruct (H3 s t) as [->|[?|?]]; [by left|by right|done|done|]. rewrite Forall_forall in H1. destruct (H1 t Ht) as (_ & _ & Wt). key_order.
Qed.

Section compress_spec.
Variable Segment_Size : Segment -> Z.
Variable ReadSpan_Size : ReadSpan -> Z.
Variable sort : (ReadSpan -> ReadSpan -> bool) -> list ReadSpan -> list ReadSpan.

(** What sort.Sort documents. *)
Hypothesis sort_perm : forall less l, Permutation (sort less l) l.
Hypothesis sort_sorted : forall less l, (less = readSpansByDecrTime \/ less = readSpansByKey) -> StronglySorted (fun s t => less t s = false) (sort less l).

Lemma sort_ok less l : spans_ok l -> spans_ok (sort less l).
Proof. intros Hok. apply (spans_ok_sub l); [done|rewrite (sort_perm less l); apply Hok|]. intros s. by rewrite (sort_perm less l). Qed.

Lemma take_ok n (l : list ReadSpan) : spans_ok l -> spans_ok (take n l).
Proof. intros Hok. apply (spans_ok_sub l); [done| |]. - destruct Hok as [_ N _]. rewrite <- (take_drop n l) in N. by apply NoDup_app in N as [? _]. - intros s Hs. rewrite <- (take_drop n l). apply elem_of_app. by left. Qed.

(** The timestamps behind the first truncated span are no larger. *)
Lemma decr_time_drop (l : list ReadSpan) n s t :
  StronglySorted (fun s t => readSpansByDecrTime t s = false) l -> l !! n = Some s -> t ∈ drop n l -> ts_le (rv_ts (sp_value t)) (rv_ts (sp_value s)).
Proof.
  intros Hs. revert n. induction Hs as [|u l Hs IH Hall]; intros n; [done|]. destruct n as [|n]; [|apply IH].
  cbn. intros [= ->] [->|Ht]%elem_of_cons; [done|]. rewrite Forall_forall in Hall. specialize (Hall t Ht). by apply Timestamp_Less_false.
Qed.

(** A segment that keeps each span or covers it by its low water mark. *)
Lemma coarser_at c lw kept k :
  sorted_spans kept -> ts_le (seg_LowWater c) lw -> (forall s, s ∈ seg_ReadSpans c -> s ∈ kept \/ ts_le (rv_ts (sp_value s)) lw) ->
  val_le (seg_at c k) (seg_at (mkSegment lw kept) k).
Proof.
  intros Wk Hlow Hs. assert (val_le (low lw) (seg_at (mkSegment lw kept) k)) as Hl by apply (low_seg_at (mkSegment lw kept)).
  assert (val_le (low (seg_LowWater c)) (seg_at (mkSegment lw kept) k)) as Hl' by (apply (val_le_trans _ (low lw)); [by apply ratchet_low|done]).
  unfold seg_at at 1. destruct (spans_at (seg_ReadSpans c) k) as [v|] eqn:Ek; [|done].
  apply spans_at_inv in Ek as (s & Hin & Cs & <-). apply val_le_lub; [done|]. destruct (Hs s Hin) as [Hk|Hts].
  - unfold seg_at. cbn [seg_ReadSpans seg_LowWater]. rewrite (spans_at_elem kept s k) by (done || by apply sorted_spans_ok). apply val_le_r.
  - apply (val_le_trans _ (low lw)); [|done]. unfold val_le. rewrite ratchet_comm. by apply ratchet_low_le.
Qed.

Lemma Segment_Compress_spec c budget : segment_wf c ->
  let c' := Segment_Compress Segment_Size ReadSpan_Size sort c budget in
  segment_wf c' /\ (forall k, val_le (seg_at c k) (seg_at c' k)) /\ (Segment_Size c <= budget -> c' = c).
Proof.
  intros Wc. cbn zeta. unfold Segment_Compress. destruct (Segment_Size c <=? budget) eqn:E; bool_to_prop.
  { split_and!; [done|intros k; apply val_le_refl|done]. }
  set (spans := sort readSpansByDecrTime (seg_ReadSpans c)). set (n := truncIdx _ _ _). set (c1 := match spans !! n with Some s => _ | None => _ end).
  set (kept := sort readSpansByKey (take n spans)).
  assert (sorted_spans kept) as Wk.
  { apply sorted_by_key; [apply sort_ok, take_ok, sort_ok; by apply sorted_spans_ok|apply sort_sorted; by right]. }
  assert ((if bool_decide (n = O) then c1 else c1 <| seg_ReadSpans := kept |>) = mkSegment (seg_LowWater c1) kept) as ->.
  { case_bool_decide as En; [|done]. assert (kept = []) as -> by (apply Permutation_nil_r; unfold kept; rewrite sort_perm; by rewrite En).
    unfold c1. by destruct (spans !! n). }
  split_and!; [done| |lia]. intros k. apply coarser_at; [done| |].
  - unfold c1. destruct (spans !! n) as [s|]; cbn; [apply Timestamp_Forward_le|done].
  - intros s Hs. assert (s ∈ spans) as Hs' by (unfold spans; by rewrite sort_perm). rewrite <- (take_drop n spans) in Hs'.
    apply elem_of_app in Hs' as [Ht|Hd]; [left; unfold kept; by rewrite sort_perm|right]. unfold c1. destruct (spans !! n) as [t|] eqn:En.
    + transitivity (rv_ts (sp_value t)); [|cbn; apply Timestamp_Forward_le]. apply (decr_time_drop spans n); [apply sort_sorted; by left|done|done].
    + apply lookup_ge_None in En. rewrite drop_ge in Hd by done. by apply elem_of_nil in Hd.
Qed.

End compress_spec.

(** ** Summaries *)

(** [s] gives every key at least the value that [r] gives it. *)
Definition summary_le (r s : ReadSummary) : Prop :=
  forall k, Forall is_byte k -> val_le (seg_at (sum_Local r) k) (seg_at (sum_Local s) k) /\ val_le (seg_at (sum_Global r) k) (seg_at (sum_Global s) k).

(** Two summaries that protect the same reads. *)
Definition summary_equiv (r s : ReadSummary) : Prop :=
  forall k, Forall is_byte k -> seg_at (sum_Local r) k = seg_at (sum_Local s) k /\ seg_at (sum_Global r) k = seg_at (sum_Global s) k.

(** C20. Merging read summaries terminates on summaries whose spans are sorted and
    disjoint, keeps them so, and gives every key the join of the two values: the
    larger timestamp, owned by a transaction only if it owned the maximum alone. So no
    read is lost, and the merge is commutative and idempotent in what it protects. *)
Theorem read_summaries_merge c o :
  summary_wf c -> summary_wf o -> exists m m', ReadSummary_Merge c o = Some m /\ ReadSummary_Merge o c = Some m' /\ summary_wf m /\
    (forall k, Forall is_byte k -> seg_at (sum_Local m) k = ratchet (seg_at (sum_Local c) k) (seg_at (sum_Local o) k) /\
      seg_at (sum_Global m) k = ratchet (seg_at (sum_Global c) k) (seg_at (sum_Global o) k)) /\
    summary_equiv m m' /\ (summary_equiv c o -> summary_equiv m c).
Proof.
  intros [Hcl Hcg] [Hol Hog]. destruct (Segment_Merge_spec _ _ Hcl Hol) as (l & El & Wl & Al), (Segment_Merge_spec _ _ Hcg Hog) as (g & Eg & Wg & Ag).
  destruct (Segment_Merge_spec _ _ Hol Hcl) as (l' & El' & Wl' & Al'), (Segment_Merge_spec _ _ Hog Hcg) as (g' & Eg' & Wg' & Ag').
  exists (mkReadSummary l g), (mkReadSummary l' g'). unfold ReadSummary_Merge. rewrite El, Eg, El', Eg'. split_and!; [done|done|done| | |].
  - intros k Bk. by split; [apply Al|apply Ag].
  - intros k Bk. cbn [sum_Local sum_Global]. rewrite Al, Al', Ag, Ag' by done. split; apply ratchet_comm.
  - intros E k Bk. cbn [sum_Local sum_Global]. destruct (E k Bk) as [E1 E2]. rewrite Al, Ag, <- E1, <- E2, !ratchet_idem by done. done.
Qed.

(** Reads of the keys "a" and "c", and of the span from "b" to "d". *)
Definition example_summary (spans : list ReadSpan) : ReadSummary :=
  mkReadSummary (mkSegment (mkTimestamp 0 0) []) (mkSegment (mkTimestamp 10 0) spans).
Definition example_val (w : Z) : readSpanVal := mkReadSpanVal (mkTimestamp w 0) uuid_Nil.
Definition example_points : ReadSummary := example_summary [mkSpan [97] [] (example_val 20); mkSpan [99] [] (example_val 40)].
Definition example_range : ReadSummary := example_summary [mkSpan [98] [100] (example_val 30)].

Lemma read_summaries_merge_witness : exists m, ReadSummary_Merge example_points example_range = Some m /\
  seg_ReadSpans (sum_Global m) = [mkSpan [97] [] (example_val 20); mkSpan [98] [99] (example_val 30); mkSpan [99] [] (example_val 40);
    mkSpan [99; 0] [100] (example_val 30)] /\
  seg_at (sum_Global m) [99] = ratchet (seg_at (sum_Global example_points) [99]) (seg_at (sum_Global example_range) [99]).
Proof.
  destruct (read_summaries_merge example_points example_range) as (m & m' & E & _ & _ & Hm & _).
  1,2: split; [done|]; cbn; unfold span_wf, is_byte, bytes_le; cbn; split_and!; try done; repeat constructor; lia.
  exists m. split; [done|]. split; [vm_compute in E; by injection E as <-|]. apply Hm. repeat constructor; lia.
Defined.
