(* ===== verification/SummaryValues.v ===== *)
(** * The values in a segment (kv/kvserver/readsummary/rspb/summary.go)

    Which values the spans of a merged or compressed segment have: they come from the
    spans it was made of, joined where spans overlap, so that every property that joins
    keep is kept. The low water mark is one of those it was made of, or the time of a span
    that was dropped. *)

From S2P Require Import Prelude Hlc Encoding EncodingOrder Keys KeysOrder ReadSummary.

Section values.
Context (P : readSpanVal -> Prop).
Hypothesis P_ratchet : forall v w, P v -> P w -> P (ratchet v w).

(** All spans have such values. *)
Definition spans_in (l : list ReadSpan) : Prop := Forall (fun s => P (sp_value s)) l.

Lemma spans_in_at l k v : spans_in l -> spans_at l k = Some v -> P v.
Proof. intros Hl (s & Hs & _ & <-)%spans_at_inv. by apply (proj1 (Forall_forall _ _) Hl). Qed.

Lemma mergeSpans_in a b m : sorted_spans a -> sorted_spans b -> mergeSpans a b = Some m -> spans_in a -> spans_in b -> spans_in m.
Proof.
  intros Wa Wb E Ha Hb. destruct (mergeSpans_spec a b Wa Wb) as (m' & E' & Wm & Hat). rewrite E in E'. injection E' as <-. apply Forall_forall. intros s Hs.
  destruct (spans_from_elem [] m s Wm Hs) as [Ws _]. pose proof Ws as (Bs & _ & Hlt).
  pose proof (spans_at_elem m s (sp_key s) (sorted_spans_ok m Wm) Hs) as Hv. rewrite covers_spec, (Hat _ Bs) in Hv. assert (bytes_le (sp_key s) (sp_key s)) as Hrefl by key_order. specialize (Hv (conj Hrefl Hlt)).
  destruct (spans_at a (sp_key s)) as [v|] eqn:Ea, (spans_at b (sp_key s)) as [w|] eqn:Eb; cbn in Hv; [injection Hv as <-; apply P_ratchet|injection Hv as <-|injection Hv as <-|done].
  - by apply (spans_in_at a (sp_key s)).
  - by apply (spans_in_at b (sp_key s)).
  - by apply (spans_in_at a (sp_key s)).
  - by apply (spans_in_at b (sp_key s)).
Qed.

Lemma filterSpans_in l ts : spans_in l -> spans_in (filterSpans l ts).
Proof. intros Hl. rewrite filterSpans_eq. apply Forall_forall. intros s [_ Hs]%list_elem_of_filter. by apply (proj1 (Forall_forall _ _) Hl). Qed.

Lemma Segment_Merge_in c o m : segment_wf c -> segment_wf o -> Segment_Merge c o = Some m -> spans_in (seg_ReadSpans c) -> spans_in (seg_ReadSpans o) ->
  spans_in (seg_ReadSpans m) /\ (seg_LowWater m = seg_LowWater c \/ seg_LowWater m = seg_LowWater o) /\ ts_le (seg_LowWater c) (seg_LowWater m) /\ ts_le (seg_LowWater o) (seg_LowWater m).
Proof.
  intros Wc Wo E Hc Ho. unfold Segment_Merge in E. destruct c as [lc c], o as [lo o]. cbn [seg_LowWater seg_ReadSpans] in *.
  assert (forall lw a b, sorted_spans a -> sorted_spans b -> spans_in a -> spans_in b ->
    match b, a with [], _ => Some (mkSegment lw a) | _, [] => Some (mkSegment lw b) | _, _ => (fun l => mkSegment lw l) <$> mergeSpans a b end = Some m ->
    spans_in (seg_ReadSpans m) /\ seg_LowWater m = lw) as Hfast.
  { intros lw a b Wa Wb Ha Hb Em. destruct b as [|s2 b]; [by injection Em as <-|]. destruct a as [|s1 a]; [by injection Em as <-|].
    destruct (mergeSpans (s1 :: a) (s2 :: b)) as [l|] eqn:El; [|done]. injection Em as <-. split; [|done]. by apply (mergeSpans_in (s1 :: a) (s2 :: b)). }
  assert (forall lw l, sorted_spans l -> sorted_spans (filterSpans l lw)) as Hf by (intros lw l Hl; rewrite filterSpans_eq; by apply filter_from).
  case_bool_decide as El; cbn [negb] in E; [subst lo|destruct (Timestamp_Less lc lo) eqn:L].
  - destruct (Hfast lc c o) as [H1 H2]; try done. rewrite H2. split_and!; try done; by left.
  - apply Timestamp_Less_spec in L. destruct (Hfast lo (filterSpans c lo) o) as [H1 H2]; try done; [by apply Hf|by apply filterSpans_in|]. rewrite H2. split_and!; [done|by right| |done].
    unfold ts_lt in L. by destruct (total ts_le lc lo).
  - apply Timestamp_Less_false in L. destruct (Hfast lc c (filterSpans o lc)) as [H1 H2]; try done; [by apply Hf|by apply filterSpans_in|]. rewrite H2. split_and!; [done|by left|done|done].
Qed.

(** The low water mark is the old one or the time of a dropped span. *)
Lemma Segment_Compress_in Segment_Size ReadSpan_Size sort c budget : (forall less (l : list ReadSpan), sort less l ≡ₚ l) -> spans_in (seg_ReadSpans c) ->
  let c' := Segment_Compress Segment_Size ReadSpan_Size sort c budget in
  spans_in (seg_ReadSpans c') /\ (seg_LowWater c' = seg_LowWater c \/ exists v, P v /\ seg_LowWater c' = rv_ts v).
Proof.
  intros Hsort Hc. cbn zeta. unfold Segment_Compress. destruct (Segment_Size c <=? budget); [by split; [|left]|].
  set (spans := sort readSpansByDecrTime (seg_ReadSpans c)). set (n := truncIdx _ _ _). assert (spans_in spans) as Hs by (unfold spans, spans_in; by rewrite Hsort).
  split.
  - destruct (spans !! n); case_bool_decide; cbn [seg_ReadSpans]; try constructor; unfold spans_in; cbn; rewrite Hsort; by apply Forall_take.
  - destruct (spans !! n) as [s|] eqn:En; [|left; by case_bool_decide]. apply list_elem_of_lookup_2 in En. apply (proj1 (Forall_forall _ _) Hs) in En. unfold Timestamp_Forward.
    case_bool_decide; cbn; (destruct (Timestamp_Less _ _); cbn; [right; by exists (sp_value s)|by left]).
Qed.

End values.
