(* ===== verification/LeaseApply.v ===== *)
(** * Evaluating and applying leases (src/pkg/kv/kvserver)

    The evaluation of RequestLease and TransferLease (batcheval), the Raft command
    that carries a request, the check below Raft that decides whether a command
    applies ([CheckForcedErr]), the application of a command to the replicated state
    and what a replica does with a new lease. The outcomes of writes to the storage
    engine and the read summary that the outgoing leaseholder collects are arguments;
    metrics are left out.

    Shown of the check below Raft: a command applies at most once, and only under the
    lease it was proposed under. *)

From S2P Require Import Prelude Hlc Quorum Tracker RaftPb Raft RawNode NodeLiveness Lease LeaseBuild ReadSummary.

(** ** Evaluation (batcheval/cmd_lease.go, cmd_lease_request.go, cmd_lease_transfer.go) *)

(** The result of an evaluation: the replicated part, or the metrics of a failure. *)
Record lease_result : Type := mkLeaseResult {
  lr_Lease : Lease;
  lr_PrevLeaseProposal : option Timestamp;
  lr_PriorReadSummary : option ReadSummary
}.

(** [evalNewLease], with the outcomes of its two writes: the lease, and the compressed
    summary, which is not used again. *)
Definition evalNewLease (currentReadSummary : ReadSummary) (setLease setSummary : option lease_error) (lease prevLease : Lease) (isTransfer : bool) :
    lease_error + lease_result :=
  let priorReadSum :=
    if negb (l_Sequence prevLease =? l_Sequence lease) then
      if isTransfer then Some currentReadSummary else Some (FromTimestamp (l_Start lease))
    else None in
  match setLease with
  | Some err => inl err
  | None =>
    match priorReadSum, setSummary with
    | Some _, Some err => inl err
    | _, _ => inr (mkLeaseResult lease (Some (l_ProposedTS prevLease)) priorReadSum)
    end
  end.

Definition RequestLease (desc : RangeDescriptor) (currentReadSummary : ReadSummary) (setLease setSummary : option lease_error)
    (newLease prevLease : Lease) : lease_error + lease_result :=
  let wasLastLeaseholder := rd_StoreID (l_Replica prevLease) =? rd_StoreID (l_Replica newLease) in
  match CheckCanReceiveLease (l_Replica newLease) (rng_InternalReplicas desc) wasLastLeaseholder with
  | Some err => inl (LeaseRejectedError prevLease newLease err)
  | None => evalNewLease currentReadSummary setLease setSummary newLease prevLease false
  end.

(** ** Replicas *)

(** The part of a replica that leases depend on. *)
Record Replica : Type := mkReplica {
  rp_StoreID : Z;
  rp_ReplicaID : Z;
  rp_Lease : Lease;
  rp_minLeaseProposedTS : Timestamp;
  rp_minValidObservedTimestamp : Timestamp
}.

#[global] Instance eta_Replica : Eta Replica := fun r =>
  mkReplica (rp_StoreID r) (rp_ReplicaID r) (rp_Lease r) (rp_minLeaseProposedTS r) (rp_minValidObservedTimestamp r).

(** [RevokeLease], at the clock reading [now]. *)
Definition Replica_RevokeLease (seq : Z) (now : Timestamp) (r : Replica) : Replica :=
  if l_Sequence (rp_Lease r) =? seq then r <| rp_minLeaseProposedTS := now |> else r.

(** [TransferLease]: the previous lease is revoked at the reading [now1] and the
    new one starts no earlier than the reading [now2]. *)
Definition TransferLease (desc : RangeDescriptor) (currentReadSummary : ReadSummary) (setLease setSummary : option lease_error)
    (now1 now2 : Timestamp) (newLease prevLease : Lease) (r : Replica) : Replica * (lease_error + lease_result) :=
  match CheckCanReceiveLease (l_Replica newLease) (rng_InternalReplicas desc) false with
  | Some err => (r, inl err)
  | None =>
    let r := Replica_RevokeLease (l_Sequence prevLease) now1 r in
    let newLease := newLease <| l_Start := fst (Timestamp_Forward (l_Start newLease) now2) |> in
    (r, evalNewLease currentReadSummary setLease setSummary newLease prevLease true)
  end.

(** [leaseStatusForRequestRLocked] (replica_range_lease.go). *)
Definition Replica_leaseStatusForRequest (getLiveness : Z -> option LivenessRecord) (maxOffset : Z) (raft : LeadSupportStatus)
    (r : Replica) (now reqTS : Timestamp) : outcome LeaseStatus :=
  let reqTS := if Timestamp_IsEmpty reqTS then now else reqTS in
  let! typ := Lease_Type (rp_Lease r) in
  let raft := if bool_decide (typ = LeaseLeader) then raft
              else mkLeadSupportStatus (mkBasicStatus 0 emptyState (mkSoftState StateFollower) 0 0) zero_ts in
  leases_Status getLiveness (mkStatusInput (rp_StoreID r) maxOffset (rp_minLeaseProposedTS r) (rp_minValidObservedTimestamp r)
    raft now reqTS (rp_Lease r)).

(** [checkRequestTimeRLocked], with the renewal duration of the desired type. *)
Definition checkRequestTime (leaseRenewal maxOffset : Z) (now reqTS : Timestamp) : option lease_error :=
  let leaseRenewalMinusStasis := leaseRenewal - maxOffset in
  let leaseRenewalMinusStasis := if leaseRenewalMinusStasis <? 0 then 0 else leaseRenewalMinusStasis in
  let maxReqTS := Timestamp_Add now leaseRenewalMinusStasis 0 in
  if Timestamp_Less maxReqTS reqTS then Some (LeaseErr (Errorf "request timestamp %s too far in future (> %s)" [])) else None.

Definition leaseGoodToGoForStatus (leaseRenewal maxOffset : Z) (desc : RangeDescriptor) (r : Replica) (now reqTS : Timestamp) (st : LeaseStatus) :
    option lease_error :=
  match checkRequestTime leaseRenewal maxOffset now reqTS with
  | Some err => Some err
  | None =>
    if negb (LeaseStatus_IsValid st) then Some InvalidLeaseError
    else if negb (Lease_OwnedBy (lst_Lease st) (rp_StoreID r)) then
      Some (NewNotLeaseHolderError (lst_Lease st) (rp_StoreID r) desc "lease held by different store")
    else None
  end.

Definition Replica_leaseGoodToGo (getLiveness : Z -> option LivenessRecord) (leaseRenewal maxOffset : Z) (raft : LeadSupportStatus)
    (desc : RangeDescriptor) (r : Replica) (now reqTS : Timestamp) : outcome (lease_error + LeaseStatus) :=
  let! st := Replica_leaseStatusForRequest getLiveness maxOffset raft r now reqTS in
  match leaseGoodToGoForStatus leaseRenewal maxOffset desc r now reqTS st with
  | Some err => Ret (inl err)
  | None => Ret (inr st)
  end.

(** [shouldRequestLeaseRLocked]: whether to request a lease, and whether that
    extends it. [correctType] says that the lease has the type the replica wants. *)
Definition shouldRequestLease (isRaftLeader correctType : bool) (renewal : Z) (r : Replica) (st : LeaseStatus) : outcome (bool * bool) :=
  match lst_State st with
  | EXPIRED => Ret (isRaftLeader, false)
  | PROSCRIBED => Ret (LeaseStatus_OwnedBy st (rp_StoreID r), false)
  | VALID | UNUSABLE =>
    if negb (LeaseStatus_OwnedBy st (rp_StoreID r)) then Ret (false, false)
    else
      let! typ := Lease_Type (lst_Lease st) in
      let! due :=
        if bool_decide (typ = LeaseExpiration) then
          match l_Expiration (lst_Lease st) with
          | None => Panic "nil pointer dereference"
          | Some exp => Ret (Timestamp_LessEq (Timestamp_Add exp (- renewal) 0) (lst_Now st))
          end
        else Ret false in
      Ret (if due then (true, true) else if negb correctType then (true, false) else (false, false))
  | ERROR => Ret (false, false)
  end.

(** ** Raft commands *)

Record RaftCommand : Type := mkRaftCommand {
  rc_ProposerLeaseSequence : Z;
  rc_MaxLeaseIndex : Z;
  rc_ClosedTimestamp : option Timestamp;
  rc_IsProbe : bool;
  rc_IsLeaseRequest : bool;
  rc_IsLeaseRequestWithExpirationToEpochEquivalent : bool;
  rc_StateLease : option Lease;
  rc_PrevLeaseProposal : option Timestamp;
  rc_WriteTimestamp : Timestamp
}.

#[global] Instance eta_RaftCommand : Eta RaftCommand := fun c =>
  mkRaftCommand (rc_ProposerLeaseSequence c) (rc_MaxLeaseIndex c) (rc_ClosedTimestamp c) (rc_IsProbe c) (rc_IsLeaseRequest c)
    (rc_IsLeaseRequestWithExpirationToEpochEquivalent c) (rc_StateLease c) (rc_PrevLeaseProposal c) (rc_WriteTimestamp c).

(** The command of an evaluated RequestLease ([isTransfer = false]) or TransferLease:
    only the former is a lease request below Raft, and the command carries the
    sequence of the lease it is to follow ([evaluateProposal], [evalAndPropose]). The
    lease index and the closed timestamp are assigned when it is proposed. *)
Definition lease_command (isTransfer : bool) (prevLease : Lease) (maxLeaseIndex : Z) (closed : option Timestamp) (res : lease_result) : RaftCommand :=
  mkRaftCommand (l_Sequence prevLease) maxLeaseIndex closed false (negb isTransfer) (negb isTransfer) (Some (lr_Lease res))
    (lr_PrevLeaseProposal res) zero_ts.

Record ReplicaState : Type := mkReplicaState {
  rs_RaftAppliedIndex : Z;
  rs_LeaseAppliedIndex : Z;
  rs_Desc : RangeDescriptor;
  rs_Lease : Lease;
  rs_GCThreshold : Timestamp;
  rs_RaftClosedTimestamp : Timestamp
}.

#[global] Instance eta_ReplicaState : Eta ReplicaState := fun s =>
  mkReplicaState (rs_RaftAppliedIndex s) (rs_LeaseAppliedIndex s) (rs_Desc s) (rs_Lease s) (rs_GCThreshold s) (rs_RaftClosedTimestamp s).

(** ** The check below Raft (kvserverbase/forced_error.go) *)

Inductive ProposalRejectionType : Set := ProposalRejectionPermanent | ProposalRejectionIllegalLeaseIndex.

Record ForcedErrResult : Type := mkForcedErrResult {
  fr_LeaseIndex : Z;
  fr_Rejection : ProposalRejectionType;
  fr_ForcedError : option lease_error
}.

Definition rejected (leaseIndex : Z) (err : lease_error) : ForcedErrResult :=
  mkForcedErrResult leaseIndex ProposalRejectionPermanent (Some err).

(** Whether the lease is not the one that the proposer expected. *)
Definition leaseMismatch (raftCmd : RaftCommand) (requestedLease : Lease) (state : ReplicaState) : outcome bool :=
  let mismatch := negb (rc_ProposerLeaseSequence raftCmd =? l_Sequence (rs_Lease state)) in
  if negb mismatch && rc_IsLeaseRequest raftCmd then
    let! mismatch :=
      if l_Sequence (rs_Lease state) =? l_Sequence requestedLease then
        let! equivalent := Lease_Equivalent (rs_Lease state) requestedLease (rc_IsLeaseRequestWithExpirationToEpochEquivalent raftCmd) in
        Ret (negb equivalent)
      else Ret mismatch in
    Ret (match rc_PrevLeaseProposal raftCmd with
         | Some p => if negb (bool_decide (p = l_ProposedTS (rs_Lease state))) then true else mismatch
         | None => mismatch
         end)
  else Ret mismatch.

(** The check of the lease index: the new one, or the result of the rejection. *)
Definition checkLeaseIndex (raftCmd : RaftCommand) (requestedLease : Lease) (isLocal : bool) (state : ReplicaState) : ForcedErrResult + Z :=
  let leaseIndex := rs_LeaseAppliedIndex state in
  if rc_IsLeaseRequest raftCmd then
    match RangeDescriptor_GetReplicaDescriptor (rs_Desc state) (rd_StoreID (l_Replica requestedLease)) with
    | None => inl (rejected leaseIndex (LeaseRejectedError (rs_Lease state) requestedLease (AssertionFailedf "replica not part of range")))
    | Some _ => inr leaseIndex
    end
  else if rs_LeaseAppliedIndex state <? rc_MaxLeaseIndex raftCmd then inr (rc_MaxLeaseIndex raftCmd)
  else inl (mkForcedErrResult leaseIndex (if isLocal then ProposalRejectionIllegalLeaseIndex else ProposalRejectionPermanent)
    (Some (LeaseErr (Errorf "command observed at lease index %d, but required < %d" [leaseIndex; rc_MaxLeaseIndex raftCmd])))).

Definition CheckForcedErr (idKey : string) (raftCmd : RaftCommand) (isLocal : bool) (state : ReplicaState) : outcome ForcedErrResult :=
  if rc_IsProbe raftCmd then Ret (rejected 0 (AssertionFailedf "no-op on ProbeRequest"))
  else
    let leaseIndex := rs_LeaseAppliedIndex state in
    let! requestedLease :=
      if rc_IsLeaseRequest raftCmd then
        match rc_StateLease raftCmd with Some l => Ret l | None => Panic "nil pointer dereference" end
      else Ret empty_Lease in
    if bool_decide (idKey = EmptyString) then Ret (rejected leaseIndex (AssertionFailedf "no-op on empty Raft entry"))
    else
      let! mismatch := leaseMismatch raftCmd requestedLease state in
      if mismatch then
        Ret (rejected leaseIndex
          (if rc_IsLeaseRequest raftCmd
           then LeaseRejectedError (rs_Lease state) requestedLease (AssertionFailedf "proposed under invalid lease")
           else NewNotLeaseHolderError (rs_Lease state) 0 (rs_Desc state)
             "stale proposal: command was proposed under lease #%d but is being applied under lease: %s"))
      else
        match checkLeaseIndex raftCmd requestedLease isLocal state with
        | inl fr => Ret fr
        | inr leaseIndex =>
          let wts := rc_WriteTimestamp raftCmd in
          if negb (Timestamp_IsEmpty wts) && Timestamp_LessEq wts (rs_GCThreshold state) then
            Ret (rejected leaseIndex (BatchTimestampBeforeGCError wts (rs_GCThreshold state)))
          else Ret (mkForcedErrResult leaseIndex ProposalRejectionPermanent None)
        end.

(** ** Application (app_batch.go, replica_app_batch.go, replica_application_state_machine.go) *)

Record ReplicatedCmd : Type := mkReplicatedCmd {
  cmd_ID : string;
  cmd_Index : Z;
  cmd_IsLocal : bool;
  cmd_Cmd : RaftCommand;
  cmd_ForcedErrResult : ForcedErrResult
}.

#[global] Instance eta_ReplicatedCmd : Eta ReplicatedCmd := fun c =>
  mkReplicatedCmd (cmd_ID c) (cmd_Index c) (cmd_IsLocal c) (cmd_Cmd c) (cmd_ForcedErrResult c).

Definition ReplicatedCmd_Rejected (c : ReplicatedCmd) : bool := negb (bool_decide (fr_ForcedError (cmd_ForcedErrResult c) = None)).

Definition assertAndCheckCommand (cmd : ReplicatedCmd) (state : ReplicaState) : outcome (lease_error + ForcedErrResult) :=
  if cmd_Index cmd =? 0 then Ret (inl (AssertionFailedf "processRaftCommand requires a non-zero index"))
  else if negb (cmd_Index cmd =? rs_RaftAppliedIndex state +u 1) then
    Ret (inl (AssertionFailedf "applied index jumped from %d to %d"))
  else let! fr := CheckForcedErr (cmd_ID cmd) (cmd_Cmd cmd) (cmd_IsLocal cmd) state in Ret (inr fr).

Definition toCheckedCmd (cmd : ReplicatedCmd) (fr : ForcedErrResult) : ReplicatedCmd :=
  let cmd := cmd <| cmd_ForcedErrResult := fr |> in
  if ReplicatedCmd_Rejected cmd then
    cmd <| cmd_Cmd := cmd_Cmd cmd <| rc_IsProbe := false |> <| rc_IsLeaseRequest := false |>
      <| rc_IsLeaseRequestWithExpirationToEpochEquivalent := false |> <| rc_StateLease := None |> <| rc_PrevLeaseProposal := None |>
      <| rc_WriteTimestamp := zero_ts |> <| rc_ClosedTimestamp := None |> |>
  else cmd.

Definition stageTrivialReplicatedEvalResult (cmd : ReplicatedCmd) (state : ReplicaState) : ReplicaState :=
  let state := state <| rs_RaftAppliedIndex := cmd_Index cmd |> in
  let leaseAppliedIndex := fr_LeaseIndex (cmd_ForcedErrResult cmd) in
  let state := if negb (leaseAppliedIndex =? 0) then state <| rs_LeaseAppliedIndex := leaseAppliedIndex |> else state in
  match rc_ClosedTimestamp (cmd_Cmd cmd) with
  | Some cts => if negb (Timestamp_IsEmpty cts) then state <| rs_RaftClosedTimestamp := cts |> else state
  | None => state
  end.

(** A command applied to the replicated state: [Stage], then the new lease of the
    result. *)
Definition apply_command (cmd : ReplicatedCmd) (state : ReplicaState) : outcome (lease_error + ReplicaState * ReplicatedCmd) :=
  let? fr := assertAndCheckCommand cmd state in
  let cmd := toCheckedCmd cmd fr in
  let state := stageTrivialReplicatedEvalResult cmd state in
  let state := match rc_StateLease (cmd_Cmd cmd) with Some l => state <| rs_Lease := l |> | None => state end in
  Ret (inr (state, cmd)).

(** [ephemeralReplicaAppBatch.Stage], which decides before the application whether a
    command will be rejected. *)
Definition ephemeral_Stage (cmd : ReplicatedCmd) (state : ReplicaState) : outcome (ReplicaState * ReplicatedCmd) :=
  let! fr := CheckForcedErr (cmd_ID cmd) (cmd_Cmd cmd) (cmd_IsLocal cmd) state in
  let cmd := cmd <| cmd_ForcedErrResult := fr |> in
  Ret (if negb (ReplicatedCmd_Rejected cmd) && (fr_LeaseIndex fr >? rs_LeaseAppliedIndex state)
       then state <| rs_LeaseAppliedIndex := fr_LeaseIndex fr |> else state, cmd).

Record appBatchStats : Type := mkAppBatchStats {
  ab_numMutations : Z;
  ab_numEntriesProcessed : Z;
  ab_numEntriesProcessedBytes : Z;
  ab_numEmptyEntries : Z;
  ab_numAddSST : Z;
  ab_numAddSSTCopies : Z
}.

#[global] Instance eta_appBatchStats : Eta appBatchStats := fun s =>
  mkAppBatchStats (ab_numMutations s) (ab_numEntriesProcessed s) (ab_numEntriesProcessedBytes s) (ab_numEmptyEntries s)
    (ab_numAddSST s) (ab_numAddSSTCopies s).

(** [s.merge(ss)]: the statistics [s] afterwards. The counts of empty entries are
    added to those of [ss], a copy. *)
Definition appBatchStats_merge (s ss : appBatchStats) : appBatchStats :=
  let s := s <| ab_numMutations := int64 (ab_numMutations s + ab_numMutations ss) |> in
  let s := s <| ab_numEntriesProcessed := int64 (ab_numEntriesProcessed s + ab_numEntriesProcessed ss) |> in
  let s := s <| ab_numEntriesProcessedBytes := int64 (ab_numEntriesProcessedBytes s + ab_numEntriesProcessedBytes ss) |> in
  let _ := ss <| ab_numEmptyEntries := int64 (ab_numEmptyEntries ss + ab_numEmptyEntries ss) |> in
  s.

(** [leasePostApplyLocked]: the new state of the replica, its clock, which is forwarded
    to the start of a lease that the replica takes over, and the summary that it then
    applies to the timestamp cache. [allowLeaseJump] is set when a snapshot is
    applied. *)
Definition leasePostApply (allowLeaseJump : bool) (prevLease newLease : Lease) (priorReadSum : option ReadSummary) (r : Replica) (clock : Timestamp) :
    outcome (Replica * Timestamp * option ReadSummary) :=
  let s1 := l_Sequence prevLease in
  let s2 := l_Sequence newLease in
  let! _ :=
    if negb (s1 =? 0) then
      if s2 <? s1 then Panic "lease sequence inversion, prevLease=%s, newLease=%s"
      else if s2 =? s1 then
        let! equivalent := Lease_Equivalent prevLease newLease true in
        if negb equivalent then Panic "sequence identical for different leases, prevLease=%s, newLease=%s" else Ret tt
      else if s2 =? s1 +u 1 then Ret tt
      else if (s2 >? s1 +u 1) && negb allowLeaseJump then Panic "lease sequence jump, prevLease=%s, newLease=%s"
      else Ret tt
    else Ret tt in
  let iAmTheLeaseHolder := rd_ReplicaID (l_Replica newLease) =? rp_ReplicaID r in
  let leaseChangingHands := negb (rd_StoreID (l_Replica prevLease) =? rd_StoreID (l_Replica newLease)) || negb (s1 =? s2) in
  let '(r, clock, sum) :=
    if leaseChangingHands && iAmTheLeaseHolder then
      (r <| rp_minValidObservedTimestamp := fst (Timestamp_Forward (rp_minValidObservedTimestamp r) (l_Start newLease)) |>,
       fst (Timestamp_Forward clock (l_Start newLease)),
       Some (default (FromTimestamp (l_Start newLease)) priorReadSum))
    else (r, clock, None) in
  Ret (r <| rp_Lease := newLease |>, clock, sum).

(** ** A command applies at most once *)

(** The application of a log, with whether each command was accepted. *)
Fixpoint apply_all (cmds : list ReplicatedCmd) (state : ReplicaState) : outcome (lease_error + ReplicaState * list bool) :=
  match cmds with
  | [] => Ret (inr (state, []))
  | cmd :: cmds =>
    let? '(state, cmd) := apply_command cmd state in
    let? '(state, accepted) := apply_all cmds state in
    Ret (inr (state, negb (ReplicatedCmd_Rejected cmd) :: accepted))
  end.

(** What the proposers put into commands: lease indexes are assigned from 1 on; a
    lease request names the lease it follows, and if it keeps its sequence, it was
    proposed after it; a transfer has the next sequence. *)
Definition proposal_ok (c : RaftCommand) : Prop :=
  0 < rc_MaxLeaseIndex c /\
  (rc_IsLeaseRequest c = true -> rc_StateLease c <> None) /\
  forall l, rc_StateLease c = Some l ->
    rc_ProposerLeaseSequence c < l_Sequence l \/
    (rc_IsLeaseRequest c = true /\ rc_ProposerLeaseSequence c = l_Sequence l /\
     exists p, rc_PrevLeaseProposal c = Some p /\ ts_lt p (l_ProposedTS l)).

(** The lease [m] is after [l]: a later sequence or a later proposal of the same. *)
Definition lease_lt (l m : Lease) : Prop :=
  l_Sequence l < l_Sequence m \/ (l_Sequence l = l_Sequence m /\ ts_lt (l_ProposedTS l) (l_ProposedTS m)).

Definition state_le (s t : ReplicaState) : Prop :=
  rs_LeaseAppliedIndex s <= rs_LeaseAppliedIndex t /\ (rs_Lease s = rs_Lease t \/ lease_lt (rs_Lease s) (rs_Lease t)).

Lemma ts_lt_trans t u w : ts_lt t u -> ts_lt u w -> ts_lt t w.
Proof. unfold ts_lt, ts_le. lia. Qed.

Lemma state_le_trans s t u : state_le s t -> state_le t u -> state_le s u.
Proof.
  intros [H1 H2] [H3 H4]. split; [lia|]. destruct H2 as [->|H2]; [done|]. destruct H4 as [<-|H4]; [by right|]. right.
  destruct H2 as [H2|[E2 H2]], H4 as [H4|[E4 H4]]; [left; lia|left; lia|left; lia|right; split; [lia|by apply (ts_lt_trans _ (l_ProposedTS (rs_Lease t)))]].
Qed.

(** A command that the check accepts: it names the current lease, and a lease request
    its proposal; otherwise the lease index is new. *)
Definition accepted_in (c : RaftCommand) (s : ReplicaState) : Prop :=
  rc_ProposerLeaseSequence c = l_Sequence (rs_Lease s) /\
  (if rc_IsLeaseRequest c then forall p, rc_PrevLeaseProposal c = Some p -> p = l_ProposedTS (rs_Lease s)
   else rs_LeaseAppliedIndex s < rc_MaxLeaseIndex c).

Lemma leaseMismatch_false c rl s : leaseMismatch c rl s = Ret false ->
  rc_ProposerLeaseSequence c = l_Sequence (rs_Lease s) /\
  (rc_IsLeaseRequest c = true -> forall p, rc_PrevLeaseProposal c = Some p -> p = l_ProposedTS (rs_Lease s)).
Proof.
  unfold leaseMismatch. destruct (rc_ProposerLeaseSequence c =? l_Sequence (rs_Lease s)) eqn:E; cbn [negb andb]; [|by intros [= ?]]. bool_to_prop.
  destruct (rc_IsLeaseRequest c); [|done]. intros H. split; [done|]. intros _ p Hp. rewrite Hp in H.
  match type of H with obind ?m _ = _ => destruct m as [x|] eqn:Em; [|done] end. cbn [obind] in H. case_bool_decide; [done|]. by apply Ret_inj in H.
Qed.

Lemma CheckForcedErr_spec id c isLocal s fr : CheckForcedErr id c isLocal s = Ret fr ->
  if bool_decide (fr_ForcedError fr = None)
  then accepted_in c s /\ fr_LeaseIndex fr = if rc_IsLeaseRequest c then rs_LeaseAppliedIndex s else rc_MaxLeaseIndex c
  else fr_LeaseIndex fr = 0 \/ rs_LeaseAppliedIndex s <= fr_LeaseIndex fr.
Proof.
  unfold CheckForcedErr, rejected. destruct (rc_IsProbe c); [intros [= <-]; by left|].
  match goal with |- obind ?m _ = _ -> _ => destruct m as [rl|] eqn:Erl; [|done] end. cbn [obind].
  case_bool_decide; [intros [= <-]; cbn; right; lia|].
  destruct (leaseMismatch c rl s) as [mm|] eqn:Em; [|done]. cbn [obind]. destruct mm; [intros [= <-]; cbn; right; lia|].
  apply leaseMismatch_false in Em as [Hseq Hprev]. unfold checkLeaseIndex, accepted_in. destruct (rc_IsLeaseRequest c).
  - destruct (RangeDescriptor_GetReplicaDescriptor _ _); [|intros [= <-]; cbn; right; lia].
    destruct (_ && _); intros [= <-]; cbn; [right; lia|]. split; [|done]. split; [done|]. by apply Hprev.
  - destruct (rs_LeaseAppliedIndex s <? rc_MaxLeaseIndex c) eqn:E; bool_to_prop; [|intros [= <-]; cbn; destruct isLocal; cbn; right; lia].
    destruct (_ && _); intros [= <-]; cbn; [right; lia|done].
Qed.

Lemma stage_spec cmd s : let s' := stageTrivialReplicatedEvalResult cmd s in
  rs_Lease s' = rs_Lease s /\ rs_LeaseAppliedIndex s' =
    if fr_LeaseIndex (cmd_ForcedErrResult cmd) =? 0 then rs_LeaseAppliedIndex s else fr_LeaseIndex (cmd_ForcedErrResult cmd).
Proof.
  cbn zeta. unfold stageTrivialReplicatedEvalResult. destruct (fr_LeaseIndex _ =? 0); cbn [negb];
    (destruct (rc_ClosedTimestamp _) as [cts|]; [destruct (Timestamp_IsEmpty cts)|]); done.
Qed.

(** The lease of an accepted command follows the current one. *)
Lemma accepted_lease c s l : proposal_ok c -> accepted_in c s -> rc_StateLease c = Some l -> lease_lt (rs_Lease s) l.
Proof.
  intros (_ & _ & Hl) [Hseq Hacc] E. destruct (Hl l E) as [?|(Er & Es & p & Hp & Hlt)]; [left; lia|].
  rewrite Er in Hacc. right. split; [lia|]. by rewrite <- (Hacc p Hp).
Qed.

(** A state from that lease on does not accept the request again. *)
Lemma request_once c l t : proposal_ok c -> rc_IsLeaseRequest c = true -> rc_StateLease c = Some l -> l = rs_Lease t \/ lease_lt l (rs_Lease t) -> ~ accepted_in c t.
Proof.
  intros (_ & _ & Hl) Er E Ht [Hseq Hacc]. rewrite Er in Hacc.
  destruct (Hl l E) as [?|(_ & Es & p & Hp & Hlt)]; [destruct Ht as [->|[?|[? _]]]; lia|]. specialize (Hacc p Hp). subst p.
  destruct Ht as [->|[?|[_ Ht]]]; [by unfold ts_lt, ts_le in Hlt; lia|lia|]. unfold ts_lt, ts_le in *. lia.
Qed.

(** One command: the state moves on; an accepted command was acceptable before and
    is not afterwards. *)
Lemma apply_command_spec cmd s s' cmd' :
  0 <= rs_LeaseAppliedIndex s -> proposal_ok (cmd_Cmd cmd) -> apply_command cmd s = Ret (inr (s', cmd')) ->
  state_le s s' /\
  (ReplicatedCmd_Rejected cmd' = false -> accepted_in (cmd_Cmd cmd) s /\ forall t, state_le s' t -> ~ accepted_in (cmd_Cmd cmd) t).
Proof.
  intros Hs Hok. unfold apply_command, assertAndCheckCommand. destruct (cmd_Index cmd =? 0); [done|].
  destruct (cmd_Index cmd =? rs_RaftAppliedIndex s +u 1); cbn [negb]; [|done].
  destruct (CheckForcedErr _ _ _ s) as [fr|] eqn:Ec; [|done]. cbn [obind ebind].
  pose proof (CheckForcedErr_spec _ _ _ _ _ Ec) as Hfr. set (checked := toCheckedCmd cmd fr).
  destruct (stage_spec checked s) as [El Ei]. set (s1 := stageTrivialReplicatedEvalResult checked s) in *.
  assert (cmd_ForcedErrResult checked = fr) as Efr by (unfold checked, toCheckedCmd; by destruct (ReplicatedCmd_Rejected _)).
  assert (ReplicatedCmd_Rejected checked = negb (bool_decide (fr_ForcedError fr = None))) as Er by (unfold ReplicatedCmd_Rejected; by rewrite Efr).
  rewrite Efr in Ei. intros [= <- <-]. rewrite Er.
  assert (rc_StateLease (cmd_Cmd checked) = if bool_decide (fr_ForcedError fr = None) then rc_StateLease (cmd_Cmd cmd) else None) as ->.
  { unfold checked, toCheckedCmd. change (ReplicatedCmd_Rejected _) with (negb (bool_decide (fr_ForcedError fr = None))). by case_bool_decide. }
  case_bool_decide as Ef; cbn [negb].
  - destruct Hfr as [Hacc Efi]. set (c := cmd_Cmd cmd) in *. assert (rs_LeaseAppliedIndex s1 = if rc_IsLeaseRequest c then rs_LeaseAppliedIndex s else rc_MaxLeaseIndex c) as Ei'.
    { destruct Hok as [? _]. rewrite Ei, Efi. clear Ei Efi. destruct (rc_IsLeaseRequest c); destruct (_ =? 0) eqn:E0; blia. }
    assert (rs_LeaseAppliedIndex s <= rs_LeaseAppliedIndex s1) as Hle by (rewrite Ei'; destruct Hacc as [_ Hacc]; destruct (rc_IsLeaseRequest c); lia).
    split; [|intros _; split; [done|]].
    + destruct (rc_StateLease c) as [l|] eqn:Esl; split; [exact Hle|right; by apply (accepted_lease c)|exact Hle|by left; rewrite El].
    + intros t [Ht1 Ht2]. destruct (rc_IsLeaseRequest c) eqn:Eq.
      * destruct (rc_StateLease c) as [l|] eqn:Esl; [by apply (request_once c l)|]. destruct Hok as (_ & Hreq & _). by destruct (Hreq Eq).
      * intros [_ Hn]. rewrite Eq in Hn. assert (rs_LeaseAppliedIndex s1 <= rs_LeaseAppliedIndex t) by (by destruct (rc_StateLease c)). lia.
  - split; [|done]. split; [|left; by rewrite El]. rewrite Ei. destruct (_ =? 0) eqn:E0; bool_to_prop; [lia|]. destruct Hfr; lia.
Qed.

Lemma apply_all_spec cmds s s' accepted :
  0 <= rs_LeaseAppliedIndex s -> Forall (fun cmd => proposal_ok (cmd_Cmd cmd)) cmds -> apply_all cmds s = Ret (inr (s', accepted)) ->
  state_le s s' /\ length accepted = length cmds /\
  forall j cmd, cmds !! j = Some cmd -> accepted !! j = Some true -> exists t, state_le s t /\ accepted_in (cmd_Cmd cmd) t.
Proof.
  revert s s' accepted. induction cmds as [|cmd cmds IH]; intros s s' accepted Hs Hok; cbn [apply_all].
  { intros [= <- <-]. split; [split; [lia|by left]|]. split; [done|]. intros j cmd Hj. done. }
  apply Forall_cons in Hok as [Hc Hok]. destruct (apply_command cmd s) as [[err|[s1 cmd1]]|] eqn:E1; [done| |done]. cbn [ebind].
  cbn. destruct (apply_all cmds s1) as [[err|[s2 acc]]|] eqn:E2; try done. cbn. intros [= <- <-].
  destruct (apply_command_spec _ _ _ _ Hs Hc E1) as [H1 H2]. destruct (IH s1 s2 acc) as (H3 & H4 & H5); [destruct H1; lia|done|done|].
  split; [by apply (state_le_trans _ s1)|]. split; [cbn; by f_equal|]. intros [|j] c; cbn.
  - intros [= <-] [= Hr%negb_true_iff]. exists s. split; [split; [lia|by left]|]. by apply H2.
  - intros Hj Ha. destruct (H5 j c Hj Ha) as (t & Ht & Hacc). exists t. split; [by apply (state_le_trans _ s1)|done].
Qed.


(** A command that is proposed twice, with a lease transfer in between. *)
Definition example_command : RaftCommand := mkRaftCommand 1 7 None false false false None None zero_ts.
Definition example_transfer : RaftCommand :=
  lease_command true (empty_Lease <| l_Sequence := 1 |>) 8 None (mkLeaseResult (empty_Lease <| l_Sequence := 2 |>) (Some zero_ts) None).
Definition example_commands : list ReplicatedCmd :=
  (fun '(idx, c) => mkReplicatedCmd "cmd" idx true c (mkForcedErrResult 0 ProposalRejectionPermanent None)) <$>
    [(11, example_command); (12, example_transfer); (13, example_command)].
Definition example_state : ReplicaState := mkReplicaState 10 5 (mkRangeDescriptor 1 []) (empty_Lease <| l_Sequence := 1 |>) zero_ts zero_ts.

