(* ===== verification/LeaseSystem.v ===== *)
(** * Leases as a system (src/pkg/kv/kvserver/replica_range_lease.go, leases, liveness, batcheval)

    The replicas of a range, each on its own node, that request, extend and transfer
    the lease of the range: the composition of the status of a lease, the building of a
    request, the manipulation of liveness records, the evaluation of the request, the
    check below Raft and the application of the lease. The Raft log is its sequence of
    accepted leases, of which each replica has applied a prefix.

    Every step runs the definitions of the components. Time is a ghost: at real time
    [t] every clock reads a wall time in [t, t + maxOffset), later than it read before.
    What a step does not constrain (settings, Raft state, the outcome of transactions,
    the order in which requests reach the log) is arbitrary. Left out: restarts of a
    node, splits, merges and snapshots, and changes of the replicas. *)

From S2P Require Import Prelude Hlc Quorum Tracker RaftPb Raft RawNode NodeLiveness Lease LeaseBuild ReadSummary LeaseApply.

(** ** Requests (replica_range_lease.go) *)

(** The input of [VerifyAndBuild] that [InitOrJoinRequest] makes from the status of
    the lease. *)
Definition InitOrJoinRequest_input (r : Replica) (desc : RangeDescriptor) (raftStatus : Status) (raftFirstIndex : Z) (status : LeaseStatus)
    (nextLeaseHolder : ReplicaDescriptor) (bypassSafetyChecks : bool) : BuildInput :=
  mkBuildInput (rp_StoreID r) (rp_ReplicaID r) desc (lst_Now status) (rp_minLeaseProposedTS r) (Some raftStatus) raftFirstIndex
    (lst_Lease status) (lst_Liveness status) (LeaseStatus_IsExpired status) nextLeaseHolder bypassSafetyChecks.

(** ** The state *)

Section system.
Variable SetProto : Liveness -> bytes.
Variable GetProto : bytes -> option Liveness.
Variable maxOffset : Z.

Record store_state : Type := mkStoreState {
  ss_desc : ReplicaDescriptor;
  ss_replica : Replica;
  ss_clock : Timestamp;
  ss_cache : Cache;
  ss_applied : nat
}.

#[global] Instance eta_store_state : Eta store_state := fun s =>
  mkStoreState (ss_desc s) (ss_replica s) (ss_clock s) (ss_cache s) (ss_applied s).

(** A request that was built on the lease at [rq_prev]; it is ready once the epoch it
    has to increment, if any, is incremented. *)
Record request : Type := mkRequest {
  rq_store : Z;
  rq_prev : nat;
  rq_in : BuildInput;
  rq_out : Output;
  rq_ready : bool
}.

Record proposal : Type := mkProposal {
  pp_store : Z;
  pp_prev : nat;
  pp_lease : Lease;
  pp_cmd : RaftCommand
}.

(** [y_written] holds of the liveness records that were ever written. *)
Record system : Type := mkSys {
  y_time : Z;
  y_stores : gmap Z store_state;
  y_hist : list Lease;
  y_db : (gmap Z bytes);
  y_written : Liveness -> Prop;
  y_requests : list request;
  y_proposals : list proposal
}.

#[global] Instance eta_system : Eta system := fun y =>
  mkSys (y_time y) (y_stores y) (y_hist y) (y_db y) (y_written y) (y_requests y) (y_proposals y).

(** A reading of the clock of a store. *)
Definition reading (y : system) (s : store_state) (now : Timestamp) : Prop :=
  ts_lt (ss_clock s) now /\ y_time y <= WallTime now < y_time y + maxOffset.

Definition set_store (y : system) (id : Z) (s : store_state) : system := y <| y_stores := <[id := s]> (y_stores y) |>.

(** A new state of the liveness table. *)
Definition set_db (y : system) (db : (gmap Z bytes)) : system :=
  y <| y_db := db |> <| y_written := fun l => y_written y l \/ db !! lv_NodeID l = Some (SetProto l) |>.

(** An extension that switches the type of the lease keeps what the previous lease
    still promises: an epoch-based lease is only extended by an epoch-based one, and a
    minimum expiration is only dropped once it has passed. *)
Definition safe_switch (i : BuildInput) (next : Lease) : Prop :=
  BuildInput_Extension i = true ->
  (Lease_Type (bi_PrevLease i) = Ret LeaseEpoch -> Lease_Type next = Ret LeaseEpoch) /\
  (Lease_Type (bi_PrevLease i) <> Ret LeaseExpiration -> Lease_Type next = Ret LeaseEpoch -> ts_le (l_MinExpiration (bi_PrevLease i)) (bi_Now i)).

(** What a request needs besides being built: the settings of a version with minimum
    expirations, no overflow, a target that is a replica of the range, and, for the
    replica that extends its lease, a status without error. *)
Set Implicit Arguments.
Record request_ok (y : system) (st : Settings) (status : LeaseStatus) (i : BuildInput) : Prop := {
  ro_min : set_MinExpirationSupported st = true;
  ro_dur : 0 <= set_RangeLeaseDuration st /\ WallTime (bi_Now i) + set_RangeLeaseDuration st <= MaxInt64;
  ro_seq : l_Sequence (bi_PrevLease i) < MaxUint64;
  ro_target : exists id s', y_stores y !! id = Some s' /\ bi_NextLeaseHolder i = ss_desc s';
  ro_status : BuildInput_Extension i = true -> lst_State status <> ERROR
}.
Unset Implicit Arguments.

(** ** Steps *)

Inductive system_step (allow : BuildInput -> Lease -> Prop) (y : system) : system -> Prop :=
| step_time t : y_time y <= t -> system_step allow y (y <| y_time := t |>)
| step_heartbeat id s thr t1 now t3 disk os old db cache err :
    y_stores y !! id = Some s -> reading y s now ->
    heartbeatInternal SetProto GetProto thr t1 now t3 disk os old false (y_db y) (ss_cache s) = Ret (db, cache, err) ->
    system_step allow y (set_db (set_store y id (s <| ss_cache := cache |> <| ss_clock := now |>)) db)
| step_increment id s now disk os old db cache err :
    y_stores y !! id = Some s -> reading y s now -> 0 <= lv_Epoch old < MaxInt64 ->
    NodeLiveness_IncrementEpoch SetProto GetProto now disk os old (y_db y) (ss_cache s) = Ret (db, cache, err) ->
    system_step allow y (set_db (set_store y id (s <| ss_cache := cache |> <| ss_clock := now |>)) db)
| step_gossip id s l cache :
    y_stores y !! id = Some s -> y_written y l -> Cache_maybeUpdate (mkRecord l (SetProto l)) (ss_cache s) = Ret cache ->
    system_step allow y (set_store y id (s <| ss_cache := cache |>))
| step_build id s now raft desc firstIndex bypass st holder status o :
    y_stores y !! id = Some s -> reading y s now ->
    Replica_leaseStatusForRequest (Cache_getLiveness (ss_cache s)) maxOffset (getLeadSupportStatus raft) (ss_replica s) now zero_ts = Ret status ->
    let i := InitOrJoinRequest_input (ss_replica s) desc (getStatus raft) firstIndex status holder bypass in
    VerifyAndBuild st (Cache_getLiveness (ss_cache s)) i = Ret (inr o) ->
    request_ok y st status i -> allow i (o_NextLease o) ->
    system_step allow y (set_store y id (s <| ss_clock := now |>)
      <| y_requests := mkRequest id (ss_applied s) i o (bool_decide (nm_Increment (o_NodeLivenessManipulation o) = None)) :: y_requests y |>)
| step_request_increment id s now disk os rq l db cache :
    y_stores y !! id = Some s -> reading y s now -> rq ∈ y_requests y -> rq_store rq = id ->
    nm_Increment (o_NodeLivenessManipulation (rq_out rq)) = Some l -> 0 <= lv_Epoch l < MaxInt64 ->
    NodeLiveness_IncrementEpoch SetProto GetProto now disk os l (y_db y) (ss_cache s) = Ret (db, cache, None) ->
    system_step allow y (set_db (set_store y id (s <| ss_cache := cache |> <| ss_clock := now |>)) db
      <| y_requests := mkRequest id (rq_prev rq) (rq_in rq) (rq_out rq) true :: y_requests y |>)
| step_send_request rq desc sum w1 w2 res idx closed :
    rq ∈ y_requests y -> rq_ready rq = true -> BuildInput_Transfer (rq_in rq) = false ->
    RequestLease desc sum w1 w2 (o_NextLease (rq_out rq)) (bi_PrevLease (rq_in rq)) = inr res ->
    system_step allow y (y <| y_proposals := mkProposal (rq_store rq) (rq_prev rq) (lr_Lease res)
      (lease_command false (bi_PrevLease (rq_in rq)) idx closed res) :: y_proposals y |>)
| step_send_transfer id s rq desc sum w1 w2 now1 now2 r res idx closed :
    y_stores y !! id = Some s -> rq ∈ y_requests y -> rq_store rq = id -> rq_ready rq = true -> BuildInput_Transfer (rq_in rq) = true ->
    reading y s now1 -> reading y (s <| ss_clock := now1 |>) now2 ->
    TransferLease desc sum w1 w2 now1 now2 (o_NextLease (rq_out rq)) (bi_PrevLease (rq_in rq)) (ss_replica s) = (r, inr res) ->
    system_step allow y (set_store y id (s <| ss_replica := r |> <| ss_clock := now2 |>)
      <| y_proposals := mkProposal id (rq_prev rq) (lr_Lease res) (lease_command true (bi_PrevLease (rq_in rq)) idx closed res) :: y_proposals y |>)
| step_commit p id isLocal rs fr :
    p ∈ y_proposals y -> last (y_hist y) = Some (rs_Lease rs) ->
    CheckForcedErr id (pp_cmd p) isLocal rs = Ret fr -> fr_ForcedError fr = None ->
    system_step allow y (y <| y_hist := y_hist y ++ [pp_lease p] |>)
| step_apply id s l sum r clock sum' :
    y_stores y !! id = Some s -> y_hist y !! S (ss_applied s) = Some l ->
    leasePostApply false (rp_Lease (ss_replica s)) l sum (ss_replica s) (ss_clock s) = Ret (r, clock, sum') ->
    system_step allow y (set_store y id (s <| ss_replica := r |> <| ss_clock := clock |> <| ss_applied := S (ss_applied s) |>)).

(** The start: no lease yet, a liveness record for each node, and caches that know
    some of them. *)
Record system_init (y : system) : Prop := {
  yi_time : 0 <= y_time y;
  yi_hist : y_hist y = [empty_Lease];
  yi_db : db_wf SetProto (y_db y);
  yi_written l : y_written y l <-> y_db y !! lv_NodeID l = Some (SetProto l);
  yi_requests : y_requests y = [] /\ y_proposals y = [];
  yi_stores : map_Forall (fun id s => id <> 0 /\ rd_StoreID (ss_desc s) = id /\ ss_applied s = O /\ ts_le zero_ts (ss_clock s) /\
    cache_all SetProto (fun r => y_written y (rec_Liveness r)) (ss_cache s) /\
    exists minObserved, ss_replica s = mkReplica id (rd_ReplicaID (ss_desc s)) empty_Lease zero_ts minObserved) (y_stores y)
}.

Inductive reachable (allow : BuildInput -> Lease -> Prop) : system -> Prop :=
| reach_init y : system_init y -> reachable allow y
| reach_step y y' : reachable allow y -> system_step allow y y' -> reachable allow y'.

End system.
