(* ===== verification/LeaseDisjoint.v ===== *)
(** * Leases are disjoint

    The invariant of the lease system (LeaseSystem) and the theorem it is for: a
    replica that still considers a lease of its own valid, although the range has moved
    on to a lease of another replica, only serves requests below the start of that
    lease.

    The argument is about wall times. A lease has lapsed by [w] if nothing that any
    replica can know about it gives it an end from [w] on: its expiration, or for an
    epoch-based lease the expirations that were written for its epoch, which has ended.
    A lease that ended by an acquisition has lapsed by the start of every later lease,
    up to the maximum clock offset; a lease that ended by a transfer was revoked by its
    holder. *)

From S2P Require Import Prelude Hlc Quorum Tracker RaftPb Raft RawNode NodeLiveness Lease LeaseBuild ReadSummary LeaseApply LeaseSystem.

Definition holder (l : Lease) : Z := rd_StoreID (l_Replica l).
Definition node (l : Lease) : Z := rd_NodeID (l_Replica l).

(** The end of a lease that is not epoch-based. *)
Definition fixed_end (l : Lease) : Timestamp := if l_Term l =? 0 then Lease_GetExpiration l else l_MinExpiration l.

Section disjoint.
Variable SetProto : Liveness -> bytes.
Variable GetProto : bytes -> option Liveness.
Hypothesis GetProto_SetProto : forall l, GetProto (SetProto l) = Some l.
Variable maxOffset : Z.
Hypothesis maxOffset_pos : 0 < maxOffset.

Implicit Types (db : gmap Z bytes) (W : Liveness -> Prop) (H : list Lease).

(** ** Liveness records *)

(** All records ever written for a node are below the current one, in epochs and
    expirations that grow together; those of an ended epoch had expired. *)
Record live_inv (t : Z) db W : Prop := {
  li_wf : db_wf SetProto db;
  li_cur c : db !! lv_NodeID c = Some (SetProto c) -> W c;
  li_below r : W r -> exists c, db !! lv_NodeID r = Some (SetProto c) /\ lv_NodeID c = lv_NodeID r /\
    lv_Epoch r <= lv_Epoch c /\ ts_le (lv_Expiration r) (lv_Expiration c) /\
    (lv_Epoch r < lv_Epoch c -> WallTime (lv_Expiration r) < t + maxOffset);
  li_mono r r' : W r -> W r' -> lv_NodeID r = lv_NodeID r' -> lv_Epoch r < lv_Epoch r' -> ts_le (lv_Expiration r) (lv_Expiration r')
}.

Definition written_in db W (l : Liveness) : Prop := W l \/ db !! lv_NodeID l = Some (SetProto l).

Lemma ts_le_wall t u : ts_le t u -> WallTime t <= WallTime u.
Proof. unfold ts_le. lia. Qed.

Lemma SetProto_inj' l l' : SetProto l = SetProto l' -> l = l'.
Proof. exact (SetProto_inj SetProto GetProto GetProto_SetProto l l'). Qed.

(** The records after a write, and the one that was replaced. *)
Lemma db_step_written now db db' W t : live_inv t db W -> db_step SetProto now db db' ->
  (forall l, written_in db' W l <-> W l) /\ db' = db \/
  exists old new, db !! lv_NodeID old = Some (SetProto old) /\ db' = <[lv_NodeID old := SetProto new]> db /\ record_step now old new /\
    W old /\ forall l, written_in db' W l <-> W l \/ l = new.
Proof.
  intros I [->|(old & new & Ho & -> & Hr)].
  - left. split; [|done]. intros l. split; [intros [?|?]; [done|by apply (li_cur _ _ _ I)]|by left].
  - right. exists old, new. split_and!; try done; [by apply (li_cur _ _ _ I)|]. intros l. unfold written_in. pose proof Hr as [Hn _]. split.
    + intros [?|E]; [by left|]. destruct (decide (lv_NodeID l = lv_NodeID old)) as [En|N].
      * rewrite En, lookup_insert_eq in E. right. apply SetProto_inj'. congruence.
      * rewrite lookup_insert_ne in E by done. left. by apply (li_cur _ _ _ I).
    + intros [?| ->]; [by left|]. right. by rewrite Hn, lookup_insert_eq.
Qed.

Lemma live_inv_step t now db db' W :
  live_inv t db W -> WallTime now < t + maxOffset -> db_step SetProto now db db' -> db_wf SetProto db' -> live_inv t db' (written_in db' W).
Proof.
  intros I Hnow Hs Hwf. destruct (db_step_written _ _ _ _ _ I Hs) as [[HW ->]|(old & new & Ho & -> & Hr & Wo & HW)].
  - split; [done|by intros c; rewrite HW; apply (li_cur _ _ _ I)|intros r; rewrite HW; apply (li_below _ _ _ I)|intros r r'; rewrite !HW; apply (li_mono _ _ _ I)].
  - destruct Hr as [Hn Hr]. assert (forall r, W r -> lv_NodeID r = lv_NodeID old -> lv_Epoch r <= lv_Epoch old /\ ts_le (lv_Expiration r) (lv_Expiration old)) as Hbelow.
    { intros r Wr En. destruct (li_below _ _ _ I r Wr) as (c & Hc & _ & He & Hx & _). rewrite En, Ho in Hc. injection Hc as Hc. apply SetProto_inj' in Hc as <-. done. }
    assert (ts_le (lv_Expiration old) (lv_Expiration new) /\ lv_Epoch old <= lv_Epoch new) as [Hx He] by (destruct Hr as [[-> ?]|(-> & -> & _)]; split; (done || lia)).
    split; [done|intros c Hc; by right| |].
    + intros r. rewrite HW. intros [Wr| ->].
      * destruct (decide (lv_NodeID r = lv_NodeID old)) as [En|N].
        -- destruct (Hbelow r Wr En) as [He' Hx']. exists new. rewrite En, lookup_insert_eq. split_and!; [done|congruence|lia|by transitivity (lv_Expiration old)|].
           intros Hlt. destruct Hr as [[Er Hr]|(Er & Er' & Hr)].
           ++ destruct (li_below _ _ _ I r Wr) as (c & Hc & _ & _ & _ & Hsup). rewrite En, Ho in Hc. injection Hc as Hc. apply SetProto_inj' in Hc as <-. apply Hsup. lia.
           ++ apply ts_le_wall in Hx', Hr. lia.
        -- destruct (li_below _ _ _ I r Wr) as (c & Hc & Hrest). exists c. by rewrite lookup_insert_ne by done.
      * exists new. rewrite Hn, lookup_insert_eq. split_and!; [done|done|lia|done|lia].
    + intros r r'. rewrite !HW. intros [Wr| ->] [Wr'| ->] En Hlt; [by apply (li_mono _ _ _ I)| | |lia].
      * destruct (Hbelow r Wr) as [_ Hx']; [congruence|]. by transitivity (lv_Expiration old).
      * destruct (Hbelow r' Wr') as [He' _]; [congruence|lia].
Qed.

(** ** Lapsed leases *)

Definition lapsed db W (l : Lease) (w : Z) : Prop :=
  if l_Epoch l =? 0 then WallTime (fixed_end l) < w
  else WallTime (l_MinExpiration l) < w /\
    (exists c, db !! node l = Some (SetProto c) /\ l_Epoch l < lv_Epoch c) /\
    forall r, W r -> lv_NodeID r = node l -> lv_Epoch r = l_Epoch l -> WallTime (lv_Expiration r) < w.

(** A lapsed lease stays lapsed: its epoch has ended. *)
Lemma lapsed_step t now db db' W l w : live_inv t db W -> db_step SetProto now db db' -> lapsed db W l w -> lapsed db' (written_in db' W) l w.
Proof.
  intros I Hs. unfold lapsed. destruct (l_Epoch l =? 0); [done|]. intros (H1 & (c & Hc & He) & H2). split; [done|].
  destruct (db_step_written _ _ _ _ _ I Hs) as [[HW ->]|(old & new & Ho & -> & [Hn Hr] & Wo & HW)].
  - split; [by exists c|]. intros r. rewrite HW. apply H2.
  - destruct (decide (lv_NodeID old = node l)) as [En|N].
    + assert (c = old) as -> by (apply SetProto_inj'; congruence). assert (l_Epoch l < lv_Epoch new) as Hlt by (destruct Hr as [[-> _]|(-> & _)]; lia).
      split; [exists new; rewrite En, lookup_insert_eq; done|]. intros r. rewrite HW. intros [Wr| ->]; [by apply H2|lia].
    + split; [exists c; rewrite lookup_insert_ne by congruence; done|]. intros r. rewrite HW. intros [Wr| ->]; [by apply H2|congruence].
Qed.

(** ** A lease and its extensions *)

(** [k] promises at least what [i] does. *)
Definition covered (i k : Lease) : Prop :=
  ts_le (l_ProposedTS i) (l_ProposedTS k) /\
  if l_Epoch k =? 0 then l_Epoch i = 0 /\ WallTime (fixed_end i) <= WallTime (fixed_end k)
  else
    let least := Z.max (WallTime (l_MinExpiration k)) (WallTime (l_ProposedTS k)) in
    if l_Epoch i =? 0 then WallTime (fixed_end i) <= least
    else node i = node k /\ l_Epoch i <= l_Epoch k /\ WallTime (l_MinExpiration i) <= least.

Lemma covered_refl l : covered l l.
Proof. unfold covered. split; [done|]. destruct (l_Epoch l =? 0) eqn:E; bool_to_prop; [split; [done|lia]|]. split_and!; [done|lia|lia]. Qed.

Lemma covered_trans i k m : covered i k -> covered k m -> covered i m.
Proof.
  unfold covered. intros [P1 H1] [P2 H2]. split; [by transitivity (l_ProposedTS k)|]. apply ts_le_wall in P2.
  destruct (l_Epoch m =? 0) eqn:Em, (l_Epoch k =? 0) eqn:Ek, (l_Epoch i =? 0) eqn:Ei; bool_to_prop; lia.
Qed.

Lemma covered_lapsed t db W i k w : live_inv t db W -> covered i k -> lapsed db W k w ->
  (l_Epoch k <> 0 -> WallTime (l_ProposedTS k) < w /\ exists r, W r /\ lv_NodeID r = node k /\ lv_Epoch r = l_Epoch k) -> lapsed db W i w.
Proof.
  intros I [P C] L Hk. unfold lapsed in *. destruct (l_Epoch k =? 0) eqn:Ek; bool_to_prop.
  - destruct C as [-> C]. rewrite Z.eqb_refl. lia.
  - destruct (Hk Ek) as (Hp & rk & Wk & Nk & Ekk). destruct L as (Lm & (c & Hc & Hlt) & Lr).
    destruct (l_Epoch i =? 0) eqn:Ei; [lia|]. destruct C as (-> & Ce & Cm). split_and!; [lia|exists c; split; [done|lia]|].
    intros r Wr Nr Er. destruct (decide (l_Epoch i = l_Epoch k)) as [E|N]; [apply Lr; congruence|].
    assert (ts_le (lv_Expiration r) (lv_Expiration rk)) as Hle%ts_le_wall by (apply (li_mono _ _ _ I); [done|done|congruence|lia]).
    specialize (Lr rk Wk Nk Ekk). lia.
Qed.

(** ** The history of leases *)

(** What a lease has to do with the one before it. *)
Definition link (l l' : Lease) : Prop :=
  (l_Sequence l' = l_Sequence l \/ l_Sequence l' = l_Sequence l + 1) /\
  (l_Sequence l' = l_Sequence l -> holder l' = holder l /\ l_Start l' = l_Start l /\ ts_lt (l_ProposedTS l) (l_ProposedTS l') /\ l_AcquisitionType l' = AcqRequest) /\
  (holder l' = holder l -> covered l l').

Definition links H : Prop := forall n l l', H !! n = Some l -> H !! S n = Some l' -> link l l'.

(** The leases from [i] to [k] have the same holder. *)
Definition tenure H (i k : nat) : Prop :=
  (i <= k)%nat /\ forall x li lx, (i <= x <= k)%nat -> H !! i = Some li -> H !! x = Some lx -> holder lx = holder li.

(** The tenure of the lease at [i] ended, by [j], with a lease of the type [typ]. *)
Definition ended H (typ : LeaseAcquisitionType) (i j : nat) : Prop :=
  exists k lk l', (i <= k)%nat /\ (k < j)%nat /\ tenure H i k /\ H !! k = Some lk /\ H !! S k = Some l' /\ holder l' <> holder lk /\ l_AcquisitionType l' = typ.

(** Induction along the history. *)
Lemma hist_ind H i k li lk (P : Lease -> Prop) :
  (i <= k)%nat -> H !! i = Some li -> H !! k = Some lk -> P li ->
  (forall n m m', (i <= n < k)%nat -> H !! n = Some m -> H !! S n = Some m' -> P m -> P m') -> P lk.
Proof.
  intros Hik Hi Hk Hb Hs. revert lk Hk. induction Hik as [|k Hik IH]; intros lk Hk; [by simplify_eq|].
  assert (is_Some (H !! k)) as [m Hm] by (apply lookup_lt_is_Some; apply lookup_lt_Some in Hk; lia).
  apply (Hs k m); [lia|done|done|]. apply IH; [|done]. intros n m1 m2 Hn. apply Hs. lia.
Qed.

Section links.
Context {H : list Lease} (HL : links H).

Lemma seq_mono i k li lk : (i <= k)%nat -> H !! i = Some li -> H !! k = Some lk -> l_Sequence li <= l_Sequence lk.
Proof.
  intros Hik Hi Hk. apply (hist_ind H i k li lk (fun l => l_Sequence li <= l_Sequence l)); [done|done|done|lia|].
  intros n m m' _ Hm Hm' IH. destruct (HL n m m' Hm Hm') as [[?|?] _]; lia.
Qed.

(** The leases of a sequence are extensions of the first. *)
Lemma seq_same i k li lk : (i < k)%nat -> H !! i = Some li -> H !! k = Some lk -> l_Sequence li = l_Sequence lk ->
  holder lk = holder li /\ l_Start lk = l_Start li /\ ts_lt (l_ProposedTS li) (l_ProposedTS lk) /\ l_AcquisitionType lk = AcqRequest.
Proof.
  intros Hik Hi Hk Eseq.
  assert (forall n m m', (i <= n < k)%nat -> H !! n = Some m -> H !! S n = Some m' -> l_Sequence m' = l_Sequence m) as Hseq.
  { intros n m m' Hn Hm Hm'. pose proof (seq_mono i n li m ltac:(lia) Hi Hm). pose proof (seq_mono (S n) k m' lk ltac:(lia) Hm' Hk).
    destruct (HL n m m' Hm Hm') as [[?|?] _]; lia. }
  assert (is_Some (H !! S i)) as [l1 H1] by (apply lookup_lt_is_Some; apply lookup_lt_Some in Hk; lia).
  apply (hist_ind H (S i) k l1 lk (fun l => holder l = holder li /\ l_Start l = l_Start li /\ ts_lt (l_ProposedTS li) (l_ProposedTS l) /\ l_AcquisitionType l = AcqRequest)); [lia|done|done| |].
  - by apply (HL i li l1 Hi H1), (Hseq i).
  - intros n m m' Hn Hm Hm' (E1 & E2 & E3 & _). destruct (HL n m m' Hm Hm') as (_ & Hs & _).
    destruct Hs as (F1 & F2 & F3 & F4); [apply (Hseq n); (done || lia)|]. split_and!; [congruence|congruence|by apply (ts_lt_trans _ (l_ProposedTS m))|done].
Qed.

Lemma seq_unique i k li lk : H !! i = Some li -> H !! k = Some lk -> l_Sequence li = l_Sequence lk -> l_ProposedTS li = l_ProposedTS lk -> i = k.
Proof.
  intros Hi Hk Es Ep. destruct (Nat.lt_trichotomy i k) as [Hlt|[->|Hlt]]; [|done|].
  - destruct (seq_same i k li lk) as (_ & _ & Hp & _); [done..|]. rewrite Ep in Hp. unfold ts_lt, ts_le in Hp. lia.
  - destruct (seq_same k i lk li) as (_ & _ & Hp & _); [done..|]. rewrite Ep in Hp. unfold ts_lt, ts_le in Hp. lia.
Qed.

Lemma seq_holder i k li lk : H !! i = Some li -> H !! k = Some lk -> l_Sequence li = l_Sequence lk -> holder li = holder lk /\ l_Start li = l_Start lk.
Proof.
  intros Hi Hk Es. destruct (Nat.lt_trichotomy i k) as [Hlt|[->|Hlt]]; [|by simplify_eq|].
  - by destruct (seq_same i k li lk) as (-> & -> & _).
  - by destruct (seq_same k i lk li) as (-> & -> & _).
Qed.

Lemma seq_tenure i k li lk : (i <= k)%nat -> H !! i = Some li -> H !! k = Some lk -> l_Sequence li = l_Sequence lk -> tenure H i k.
Proof.
  intros Hik Hi Hk Es. split; [done|]. intros x l lx Hx Hl Hlx. assert (l = li) as -> by congruence. apply (seq_holder x i); [done|done|].
  pose proof (seq_mono i x li lx ltac:(lia) Hl Hlx). pose proof (seq_mono x k lx lk ltac:(lia) Hlx Hk). lia.
Qed.

Lemma tenure_covered i k li lk : tenure H i k -> H !! i = Some li -> H !! k = Some lk -> covered li lk.
Proof.
  intros [Hik Ht] Hi Hk. apply (hist_ind H i k li lk (covered li)); [done|done|done|apply covered_refl|].
  intros n m m' Hn Hm Hm' C. apply (covered_trans _ m); [done|]. destruct (HL n m m' Hm Hm') as (_ & _ & Hc). apply Hc.
  rewrite (Ht n li m), (Ht (S n) li m'); (done || lia).
Qed.

(** Leases with different holders: the tenure of the first has ended. *)
Lemma tenure_ends i j li lj : (i <= j)%nat -> H !! i = Some li -> H !! j = Some lj -> holder li <> holder lj -> exists typ, ended H typ i j.
Proof.
  intros Hij Hi Hj N. assert (forall d, (i + d <= j)%nat -> tenure H i (i + d) \/ exists typ, ended H typ i (i + d)) as G.
  { induction d as [|d IH]; intros Hd.
    - left. split; [lia|]. intros x l lx Hx Hl Hlx. assert (x = i) as -> by lia. congruence.
    - destruct IH as [[_ IH]|(typ & k & lk & l' & E)]; [lia| |right; exists typ, k, lk, l'; intuition lia].
      assert (is_Some (H !! (i + d)%nat)) as [m Hm] by (apply lookup_lt_is_Some; apply lookup_lt_Some in Hj; lia).
      assert (is_Some (H !! (i + S d)%nat)) as [m' Hm'] by (apply lookup_lt_is_Some; apply lookup_lt_Some in Hj; lia).
      destruct (decide (holder m' = holder m)) as [E|E].
      + left. split; [lia|]. intros x l lx Hx Hl Hlx. destruct (decide (x = (i + S d)%nat)) as [->|]; [|apply (IH x); (done || lia)].
        rewrite Hlx in Hm'. injection Hm' as ->. rewrite E. apply (IH (i + d)%nat); (done || lia).
      + right. exists (l_AcquisitionType m'), (i + d)%nat, m, m'. split_and!; try done; [lia|lia|split; [lia|done]|]. by replace (S (i + d)) with (i + S d)%nat by lia. }
  specialize (G (j - i)%nat). replace (i + (j - i))%nat with j in G by lia. destruct G as [[_ Ht]|?]; [lia| |done].
  destruct N. symmetry. apply (Ht j); (done || lia).
Qed.

(** Within a tenure nothing ends. *)
Lemma ended_tenure typ i p k lp lk : ended H typ i k -> tenure H p k -> H !! p = Some lp -> H !! k = Some lk -> ended H typ i p.
Proof.
  intros (m & lm & l' & Him & Hmk & Ht & Hm & Hm' & N & E) [Hpk Htp] Hp Hk. exists m, lm, l'. split_and!; try done.
  destruct (decide (m < p)%nat) as [?|Hge]; [done|]. destruct N. rewrite (Htp m lp lm), (Htp (S m) lp l'); (done || lia).
Qed.

End links.

(** The history only grows. *)
Lemma ended_app H l typ i j : (j < length H)%nat -> ended (H ++ [l]) typ i j <-> ended H typ i j.
Proof.
  intros Hj. assert (forall x, (x <= j)%nat -> (H ++ [l]) !! x = H !! x) as E by (intros x Hx; apply lookup_app_l; lia).
  unfold ended, tenure. split; intros (k & lk & l' & H1 & H2 & [H3 H3'] & H4 & H5 & H6); exists k, lk, l'; rewrite !E in * by lia;
    (split_and!; [done|done|done| |done|done|apply H6|apply H6]); intros x li lx Hx; specialize (H3' x li lx Hx); rewrite ?E in * by lia; done.
Qed.

(** ** The invariant *)

Implicit Types y : system.

Definition lapsed_in y : Lease -> Z -> Prop := lapsed (y_db y) (y_written y).

(** The times that count as after the lease [n]: its start or its fixed end, and the
    present, each with the clock offset. *)
Definition after y (n : Lease) (w : Z) : Prop :=
  WallTime (l_Start n) + maxOffset <= w \/ y_time y + maxOffset <= w \/ (l_Epoch n = 0 /\ WallTime (fixed_end n) + maxOffset <= w).

Record lease_ok y (l : Lease) : Prop := {
  lo_wf : lease_wf l;
  lo_proposed : WallTime (l_ProposedTS l) < y_time y + maxOffset;
  lo_epoch : l_Epoch l <> 0 -> exists r, y_written y r /\ lv_NodeID r = node l /\ lv_Epoch r = l_Epoch l;
  lo_store : exists s, y_stores y !! holder l = Some s /\ l_Replica l = ss_desc s /\
    (l_AcquisitionType l = AcqRequest /\ ts_le (l_Start l) (l_ProposedTS l) /\ ts_le (l_ProposedTS l) (ss_clock s) \/
     l_AcquisitionType l = AcqTransfer /\ ts_le (l_ProposedTS l) (l_Start l))
}.

Abbreviation min_proposed := (fun s => rp_minLeaseProposedTS (ss_replica s)).

Record store_inv y (id : Z) (s : store_state) : Prop := {
  sv_id : id <> 0 /\ rd_StoreID (ss_desc s) = id /\ rp_StoreID (ss_replica s) = id /\ rp_ReplicaID (ss_replica s) = rd_ReplicaID (ss_desc s);
  sv_lease : y_hist y !! ss_applied s = Some (rp_Lease (ss_replica s));
  sv_cache : cache_all SetProto (fun r => y_written y (rec_Liveness r)) (ss_cache s);
  sv_own m l : (m <= ss_applied s)%nat -> y_hist y !! m = Some l -> holder l = id -> ts_le (l_Start l) (ss_clock s);
  sv_min : ts_le (min_proposed s) (ss_clock s)
}.

(** The lease [n] was built on [prev], the one at [p]. *)
Record follows y (p : nat) (prev n : Lease) (ready : Prop) : Prop := {
  fw_at : y_hist y !! p = Some prev;
  fw_ok : lease_ok y n;
  fw_link : link prev n;
  fw_dead i li w : ended (y_hist y) AcqRequest i p -> y_hist y !! i = Some li -> after y n w -> lapsed_in y li w;
  fw_transfer : l_AcquisitionType n = AcqTransfer -> holder n <> holder prev;
  fw_acquired w : l_AcquisitionType n = AcqRequest -> holder n <> holder prev -> ready -> after y n w ->
    lapsed_in y prev w /\ (l_Epoch prev <> 0 -> WallTime (l_ProposedTS prev) < w)
}.

(** An acquisition that waits for the end of the epoch of [prev], which it saw with the
    record [r]. *)
Definition awaiting y (prev n : Lease) (r : Liveness) : Prop :=
  y_written y r /\ lv_NodeID r = node prev /\ lv_Epoch r = l_Epoch prev /\ l_Epoch prev <> 0 /\
  forall w, after y n w -> WallTime (l_MinExpiration prev) < w /\ WallTime (lv_Expiration r) < w /\ WallTime (l_ProposedTS prev) < w.

Record request_inv y (rq : request) : Prop := {
  rv_follows : follows y (rq_prev rq) (bi_PrevLease (rq_in rq)) (o_NextLease (rq_out rq)) (rq_ready rq = true);
  rv_store : exists s, y_stores y !! rq_store rq = Some s /\ (rq_prev rq <= ss_applied s)%nat;
  rv_kind : if BuildInput_Transfer (rq_in rq)
    then holder (bi_PrevLease (rq_in rq)) = rq_store rq /\ l_AcquisitionType (o_NextLease (rq_out rq)) = AcqTransfer
    else holder (o_NextLease (rq_out rq)) = rq_store rq /\ l_AcquisitionType (o_NextLease (rq_out rq)) = AcqRequest;
  rv_await r : nm_Increment (o_NodeLivenessManipulation (rq_out rq)) = Some r ->
    l_AcquisitionType (o_NextLease (rq_out rq)) = AcqRequest -> holder (o_NextLease (rq_out rq)) <> holder (bi_PrevLease (rq_in rq)) ->
    awaiting y (bi_PrevLease (rq_in rq)) (o_NextLease (rq_out rq)) r
}.

Definition in_flight y (p : nat) (n : Lease) : Prop :=
  (exists rq, rq ∈ y_requests y /\ rq_prev rq = p /\ o_NextLease (rq_out rq) = n) \/
  (exists pp, pp ∈ y_proposals y /\ pp_prev pp = p /\ pp_lease pp = n).

(** The holder of the lease [l] has revoked its sequence, or it is over. *)
Definition revoked y (l : Lease) : Prop :=
  (exists m l', y_hist y !! m = Some l' /\ l_Sequence l < l_Sequence l') \/
  exists s, y_stores y !! holder l = Some s /\ ts_lt (l_Start l) (min_proposed s) /\
    (forall m l', y_hist y !! m = Some l' -> l_Sequence l' = l_Sequence l -> ts_lt (l_ProposedTS l') (min_proposed s)) /\
    (forall p n l', in_flight y p n -> y_hist y !! p = Some l' -> l_Sequence l' = l_Sequence l -> l_Sequence n = l_Sequence l ->
      ts_lt (l_ProposedTS n) (min_proposed s)).

Record proposal_inv y (pp : proposal) (prev : Lease) : Prop := {
  pv_follows : follows y (pp_prev pp) prev (pp_lease pp) True;
  pv_seq : rc_ProposerLeaseSequence (pp_cmd pp) = l_Sequence prev;
  pv_request : l_AcquisitionType (pp_lease pp) = AcqRequest ->
    rc_IsLeaseRequest (pp_cmd pp) = true /\ rc_PrevLeaseProposal (pp_cmd pp) = Some (l_ProposedTS prev);
  pv_transfer : l_AcquisitionType (pp_lease pp) = AcqTransfer -> revoked y prev
}.

Record sys_inv y : Prop := {
  v_time : 0 <= y_time y;
  v_live : live_inv (y_time y) (y_db y) (y_written y);
  v_stores : map_Forall (store_inv y) (y_stores y);
  v_head : y_hist y !! O = Some empty_Lease;
  v_links : links (y_hist y);
  v_leases n l : y_hist y !! S n = Some l -> lease_ok y l;
  v_dead i j li lj w : ended (y_hist y) AcqRequest i j -> y_hist y !! i = Some li -> y_hist y !! j = Some lj -> after y lj w -> lapsed_in y li w;
  v_revoked i j li : ended (y_hist y) AcqTransfer i j -> y_hist y !! i = Some li ->
    exists s, y_stores y !! holder li = Some s /\ ts_lt (l_ProposedTS li) (min_proposed s);
  v_requests rq : rq ∈ y_requests y -> request_inv y rq;
  v_proposals pp : pp ∈ y_proposals y -> exists prev, proposal_inv y pp prev
}.

(** ** Steps that keep the history *)

Record grows y y' : Prop := {
  gr_time : y_time y <= y_time y';
  gr_hist : y_hist y' = y_hist y;
  gr_written r : y_written y r -> y_written y' r;
  gr_lapsed l w : lapsed_in y l w -> lapsed_in y' l w;
  gr_stores id s : y_stores y !! id = Some s -> exists s', y_stores y' !! id = Some s' /\ ss_desc s' = ss_desc s /\
    ts_le (ss_clock s) (ss_clock s') /\ ts_le (min_proposed s) (min_proposed s') /\ (ss_applied s <= ss_applied s')%nat
}.

Section grows.
Context {y y'} (G : grows y y').

Lemma after_grows n w : after y' n w -> after y n w.
Proof. pose proof (gr_time _ _ G). unfold after. intros [?|[?|?]]; [by left|right; left; lia|by right; right]. Qed.

Lemma lease_ok_grows l : lease_ok y l -> lease_ok y' l.
Proof.
  intros [H1 H3 H4 (s & Hs & Hd & H5)]. pose proof (gr_time _ _ G). split; [done|lia| |].
  - intros E. destruct (H4 E) as (r & Hr & ?). exists r. split; [by apply (gr_written _ _ G)|done].
  - destruct (gr_stores _ _ G _ _ Hs) as (s' & Hs' & Hd' & Hc & _). exists s'. split_and!; [done|congruence|].
    destruct H5 as [(?&?&?)|?]; [left; split_and!; [done|done|by transitivity (ss_clock s)]|by right].
Qed.

Lemma follows_grows p prev n ready : follows y p prev n ready -> follows y' p prev n ready.
Proof.
  intros [H1 H2 H3 H4 H5 H6]. rewrite <- (gr_hist _ _ G) in H1, H4. split; try done; [by apply lease_ok_grows| |].
  - intros i li w He Hi Ha. apply (gr_lapsed _ _ G). apply (H4 i); [done|done|by apply after_grows].
  - intros w Ht Hh Hr Ha. destruct (H6 w Ht Hh Hr (after_grows _ _ Ha)). split; [by apply (gr_lapsed _ _ G)|done].
Qed.

Lemma request_inv_grows rq : request_inv y rq -> request_inv y' rq.
Proof.
  intros [H1 (s & Hs & Hp) H2 H3]. split; [by apply follows_grows| |done|].
  - destruct (gr_stores _ _ G _ _ Hs) as (s' & Hs' & _ & _ & _ & Ha). exists s'. split; [done|lia].
  - intros r Hr Ht Hh. destruct (H3 r Hr Ht Hh) as (Hw & ? & ? & ? & H). split_and!; try done; [by apply (gr_written _ _ G)|].
    intros w Ha. apply H. by apply after_grows.
Qed.

(** A revocation stays in force if no lease of the sequence is built under it. *)
Lemma revoked_grows l prevs :
  links (y_hist y) -> y_hist y !! prevs = Some l ->
  (forall p n l', in_flight y' p n -> y_hist y !! p = Some l' -> l_Sequence n = l_Sequence l' -> in_flight y p n \/
    link l' n /\ exists s, y_stores y' !! holder l' = Some s /\ ts_le (min_proposed s) (l_Start n)) ->
  revoked y l -> revoked y' l.
Proof.
  intros HL Hl Hnew [(m & l' & Hm & Hlt)|(s & Hs & Hst & Hh & Hf)]; [left; exists m, l'; by rewrite (gr_hist _ _ G)|right].
  destruct (gr_stores _ _ G _ _ Hs) as (s' & Hs' & _ & _ & Hmin & _). exists s'. rewrite (gr_hist _ _ G).
  assert (forall t, ts_lt t (min_proposed s) -> ts_lt t (min_proposed s')) as Hup by (intros t; unfold ts_lt; intros N L; apply N; by transitivity (min_proposed s')).
  split_and!; [done|by apply Hup|intros m l' Hm Es; apply Hup; by apply (Hh m)|].
  intros p n l' Hp Hl' E1 E2. destruct (Hnew p n l' Hp Hl') as [?|(Hlk & s1 & Hs1 & Hle)]; [lia|apply Hup; by apply (Hf p n l')|exfalso].
  destruct (seq_holder HL p prevs l' l Hl' Hl E1) as [Eh Est]. destruct Hlk as (_ & Hsame & _). destruct Hsame as (_ & Est' & _); [lia|].
  rewrite Eh, Hs' in Hs1. injection Hs1 as <-. apply Hup in Hst. rewrite Est', Est in Hle. done.
Qed.

End grows.

Lemma keep_inv y y' :
  sys_inv y -> grows y y' -> live_inv (y_time y') (y_db y') (y_written y') -> map_Forall (store_inv y') (y_stores y') ->
  (forall rq, rq ∈ y_requests y' -> rq ∈ y_requests y \/ request_inv y' rq) ->
  (forall p n l', in_flight y' p n -> y_hist y !! p = Some l' -> l_Sequence n = l_Sequence l' -> in_flight y p n \/
    link l' n /\ exists s, y_stores y' !! holder l' = Some s /\ ts_le (min_proposed s) (l_Start n)) ->
  (forall pp, pp ∈ y_proposals y' -> pp ∈ y_proposals y \/ exists prev, proposal_inv y' pp prev) ->
  sys_inv y'.
Proof.
  intros I G Hl Hs Hrq Hfl Hpp. pose proof (gr_hist _ _ G) as EH. pose proof (gr_time _ _ G). split; try done.
  - pose proof (v_time _ I). lia.
  - rewrite EH. apply (v_head _ I).
  - rewrite EH. apply (v_links _ I).
  - intros n l. rewrite EH. intros Hn. apply (lease_ok_grows G). by apply (v_leases _ I n).
  - intros i j li lj w. rewrite EH. intros He Hi Hj Ha. apply (gr_lapsed _ _ G). apply (v_dead _ I i j li lj); try done. by apply (after_grows G).
  - intros i j li. rewrite EH. intros He Hi. destruct (v_revoked _ I i j li He Hi) as (s & Hs' & Hlt).
    destruct (gr_stores _ _ G _ _ Hs') as (s' & ? & _ & _ & Hmin & _). exists s'. split; [done|]. unfold ts_lt in *. intros L. apply Hlt. by transitivity (min_proposed s').
  - intros rq Hin. destruct (Hrq rq Hin) as [Hold|?]; [|done]. apply (request_inv_grows G). by apply (v_requests _ I).
  - intros pp Hin. destruct (Hpp pp Hin) as [Hold|?]; [|done]. destruct (v_proposals _ I pp Hold) as (prev & [P1 P2 P3 P4]). exists prev.
    split; [by apply (follows_grows G)|done|done|]. intros Ht. apply (revoked_grows G prev (pp_prev pp)); [apply (v_links _ I)|apply P1|done|by apply P4].
Qed.

(** A step of one store. *)
Lemma store_step y y' id s s' :
  sys_inv y -> y_stores y !! id = Some s -> y_stores y' = <[id := s']> (y_stores y) -> y_time y' = y_time y -> y_hist y' = y_hist y ->
  (forall r, y_written y r -> y_written y' r) -> (forall l w, lapsed_in y l w -> lapsed_in y' l w) ->
  ss_desc s' = ss_desc s -> ts_le (ss_clock s) (ss_clock s') -> ts_le (min_proposed s) (min_proposed s') -> (ss_applied s <= ss_applied s')%nat ->
  store_inv y' id s' -> grows y y' /\ map_Forall (store_inv y') (y_stores y').
Proof.
  intros I Hs Es Et Eh HW HL Hd Hc Hm Ha Hinv. split.
  - split; [lia|done|done|done|]. intros id0 s0 H0. rewrite Es. destruct (decide (id0 = id)) as [->|N].
    + rewrite lookup_insert_eq. exists s'. assert (s0 = s) as -> by congruence. done.
    + rewrite lookup_insert_ne by done. exists s0. done.
  - rewrite Es. apply map_Forall_insert_2; [done|]. intros id0 s0 H0. destruct (v_stores _ I id0 s0 H0) as [H1 H2 H3 H4 H5].
    split; [done|by rewrite Eh| |by rewrite Eh|done]. eapply cache_all_impl; [|exact H3]. intros r. apply HW.
Qed.

(** Nothing new in flight. *)
Lemma flight_same y y' : y_requests y' = y_requests y -> y_proposals y' = y_proposals y ->
  forall p n, in_flight y' p n -> in_flight y p n.
Proof. unfold in_flight. by intros -> ->. Qed.

Lemma keep_flight y y' :
  sys_inv y -> grows y y' -> live_inv (y_time y') (y_db y') (y_written y') -> map_Forall (store_inv y') (y_stores y') ->
  y_requests y' = y_requests y -> y_proposals y' = y_proposals y -> sys_inv y'.
Proof.
  intros I G Hl Hs Er Ep. apply (keep_inv y); try done; rewrite ?Er, ?Ep; try (intros; by left).
  intros p n l' Hf _ _. left. by apply (flight_same y y').
Qed.

Lemma live_inv_time t t' db W : t <= t' -> live_inv t db W -> live_inv t' db W.
Proof.
  intros Ht [H1 H2 H3 H4]. split; try done. intros r Hr. destruct (H3 r Hr) as (c & ? & ? & ? & ? & Hsup). exists c. split_and!; try done.
  intros Hlt. specialize (Hsup Hlt). lia.
Qed.

Lemma step_time_inv y t : sys_inv y -> y_time y <= t -> sys_inv (y <| y_time := t |>).
Proof.
  intros I Ht. apply (keep_flight y); try done.
  - split; try done. intros id s Hs. exists s. done.
  - apply (live_inv_time (y_time y)); [done|apply (v_live _ I)].
  - intros id s Hs. by destruct (v_stores _ I id s Hs) as [H1 H2 H3 H4 H5].
Qed.

(** The store that ran an operation on the liveness table. *)
Lemma liveness_step y y' id s now db cache :
  sys_inv y -> y_stores y !! id = Some s -> reading maxOffset y s now ->
  db_step SetProto now (y_db y) db -> db_wf SetProto db ->
  cache_all SetProto (fun r => y_written y (rec_Liveness r) \/ in_db db r) cache ->
  y_stores y' = <[id := s <| ss_cache := cache |> <| ss_clock := now |>]> (y_stores y) -> y_time y' = y_time y -> y_hist y' = y_hist y ->
  y_db y' = db -> y_written y' = written_in db (y_written y) ->
  grows y y' /\ live_inv (y_time y') (y_db y') (y_written y') /\ map_Forall (store_inv y') (y_stores y').
Proof.
  intros I Hs [Hclk Hnow] Hdb Hwf Hc Es Et Eh Ed Ew. pose proof (v_live _ I) as Il.
  assert (ts_le (ss_clock s) now) as Hle by (unfold ts_lt, ts_le in *; lia).
  destruct (v_stores _ I id s Hs) as [S1 S2 S3 S4 S5].
  destruct (store_step y y' id s (s <| ss_cache := cache |> <| ss_clock := now |>)) as [G Hst]; try done.
  - intros r Hr. rewrite Ew. by left.
  - intros l w. unfold lapsed_in. rewrite Ed, Ew. by apply (lapsed_step (y_time y) now).
  - split; [done|by rewrite Eh| | |].
    + intros n r Hr. destruct (Hc n r Hr) as (H1 & H2 & H3). split_and!; [done|done|]. rewrite Ew. destruct H3 as [?|H3]; [by left|right]. unfold in_db in H3. by rewrite <- H2.
    + intros m l Hm Hl Hh. rewrite Eh in Hl. transitivity (ss_clock s); [by apply (S4 m)|done].
    + by transitivity (ss_clock s).
  - split_and!; [done| |done]. rewrite Et, Ed, Ew. apply (live_inv_step (y_time y) now (y_db y)); [done|lia|done|done].
Qed.

Lemma step_gossip_inv y id s l cache :
  sys_inv y -> y_stores y !! id = Some s -> y_written y l -> Cache_maybeUpdate (mkRecord l (SetProto l)) (ss_cache s) = Ret cache ->
  sys_inv (set_store y id (s <| ss_cache := cache |>)).
Proof.
  intros I Hs Hl Hc. destruct (v_stores _ I id s Hs) as [S1 S2 S3 S4 S5].
  destruct (store_step y (set_store y id (s <| ss_cache := cache |>)) id s (s <| ss_cache := cache |>)) as [G Hst]; try done.
  - split; try done. eapply maybeUpdate_all; [| |exact S3|exact Hc]; done.
  - apply (keep_flight y); try done. apply (v_live _ I).
Qed.

(** ** Applying a lease *)

Lemma leasePostApply_inv allow prev l sum r clock r' clock' sum' :
  leasePostApply allow prev l sum r clock = Ret (r', clock', sum') ->
  rp_Lease r' = l /\ rp_StoreID r' = rp_StoreID r /\ rp_ReplicaID r' = rp_ReplicaID r /\ rp_minLeaseProposedTS r' = rp_minLeaseProposedTS r /\
  ts_le clock clock' /\
  (rd_ReplicaID (l_Replica l) = rp_ReplicaID r -> l_Sequence prev <> l_Sequence l -> ts_le (l_Start l) clock').
Proof.
  unfold leasePostApply. intros E. apply obind_Ret in E as ([] & _ & E).
  destruct (_ && _) eqn:Eb; apply Ret_inj in E as [= <- <- <-]; cbn.
  - split_and!; try done; intros; apply Timestamp_Forward_le.
  - split_and!; try done. intros Er Es. exfalso. apply andb_false_iff in Eb as [Eb|Eb].
    + apply orb_false_iff in Eb as [_ Eb]. apply negb_false_iff, Z.eqb_eq in Eb. done.
    + apply Z.eqb_neq in Eb. done.
Qed.

Lemma step_apply_inv y id s l sum r clock sum' :
  sys_inv y -> y_stores y !! id = Some s -> y_hist y !! S (ss_applied s) = Some l ->
  leasePostApply false (rp_Lease (ss_replica s)) l sum (ss_replica s) (ss_clock s) = Ret (r, clock, sum') ->
  sys_inv (set_store y id (s <| ss_replica := r |> <| ss_clock := clock |> <| ss_applied := S (ss_applied s) |>)).
Proof.
  intros I Hs Hl E. destruct (leasePostApply_inv _ _ _ _ _ _ _ _ _ E) as (E1 & E2 & E3 & E4 & Hclk & Htake).
  destruct (v_stores _ I id s Hs) as [S1 S2 S3 S4 S5]. set (s' := s <| ss_replica := r |> <| ss_clock := clock |> <| ss_applied := S (ss_applied s) |>).
  destruct (store_step y (set_store y id s') id s s') as [G Hst]; try done.
  - cbn. by rewrite E4.
  - cbn. lia.
  - split; cbn; [by rewrite E2, E3|by rewrite E1|done| |by rewrite E4; transitivity (ss_clock s)].
    intros m lm Hm Hlm Hh. destruct (decide (m = S (ss_applied s))) as [->|N]; [|transitivity (ss_clock s); [apply (S4 m); (done || lia)|done]].
    assert (lm = l) as -> by congruence. destruct (lo_store _ _ (v_leases _ I _ _ Hl)) as (s0 & Hs0 & Hrep & Hkind).
    assert (s0 = s) as -> by congruence. destruct (v_links _ I _ _ _ S2 Hl) as (_ & Hsame & _).
    destruct Hkind as [(_ & Hst1 & Hst2)|(Ht & Hst1)].
    + transitivity (l_ProposedTS l); [done|]. by transitivity (ss_clock s).
    + apply Htake; [rewrite Hrep; symmetry; apply S1|]. intros Es. destruct Hsame as (_ & _ & _ & ?); congruence.
  - apply (keep_flight y); try done. apply (v_live _ I).
Qed.

(** ** Building a request *)

(** What a replica knows when it builds a request on its lease. *)
Set Implicit Arguments.
Record build_ctx y (id : Z) (s : store_state) (now : Timestamp) (st : Settings) (status : LeaseStatus) (i : BuildInput) (o : Output) : Prop := {
  bc_inv : sys_inv y;
  bc_store : y_stores y !! id = Some s;
  bc_reading : reading maxOffset y s now;
  bc_built : built st (Cache_getLiveness (ss_cache s)) i o;
  bc_ok : request_ok y st status i;
  bc_safe : safe_switch i (o_NextLease o);
  bc_id : bi_LocalStoreID i = id;
  bc_now : bi_Now i = now;
  bc_prev : bi_PrevLease i = rp_Lease (ss_replica s);
  bc_min : bi_MinLeaseProposedTS i = min_proposed s;
  bc_support : exists raft, bi_RaftStatus i = Some (getStatus raft);
  bc_expired : bi_PrevLeaseExpired i = true -> lst_State status = EXPIRED;
  bc_live : bi_PrevLeaseNodeLiveness i = lst_Liveness status;
  bc_record : lst_State status <> ERROR -> l_Epoch (bi_PrevLease i) <> 0 ->
    exists rec, Cache_getLiveness (ss_cache s) (node (bi_PrevLease i)) = Some rec /\ lst_Liveness status = rec_Liveness rec /\
      l_Epoch (bi_PrevLease i) <= lv_Epoch (rec_Liveness rec)
}.
Unset Implicit Arguments.


Section build.
Context {y id s now st status i o} (C : build_ctx y id s now st status i o).
Let prev := bi_PrevLease i.
Let next := o_NextLease o.

Lemma bc_hist : y_hist y !! ss_applied s = Some prev.
Proof. unfold prev. rewrite (bc_prev C). apply (v_stores _ (bc_inv C) id s (bc_store C)). Qed.

Lemma bc_prev_cases : prev = empty_Lease /\ ss_applied s = O \/ lease_ok y prev.
Proof.
  pose proof bc_hist as Hh. destruct (ss_applied s) as [|n] eqn:E; [left|right; by apply (v_leases _ (bc_inv C) n)].
  rewrite (v_head _ (bc_inv C)) in Hh. injection Hh as <-. done.
Qed.

Lemma bc_next_store : exists s', y_stores y !! holder next = Some s' /\ l_Replica next = ss_desc s'.
Proof.
  destruct (ro_target (bc_ok C)) as (id' & s' & Hs' & Hd). pose proof (bt_replica (bc_built C)) as Hr.
  exists s'. unfold holder, next. rewrite Hr, Hd. split; [|done]. by destruct (v_stores _ (bc_inv C) id' s' Hs') as [(_ & -> & _) _ _ _ _].
Qed.

(** The kinds of requests. *)
Lemma bc_kind :
  (BuildInput_Acquisition i = true <-> holder next <> holder prev /\ l_AcquisitionType next = AcqRequest) /\
  (BuildInput_Extension i = true <-> holder next = holder prev) /\
  (BuildInput_Transfer i = true <-> l_AcquisitionType next = AcqTransfer) /\
  (BuildInput_Transfer i = true -> holder next <> holder prev /\ holder prev = id) /\
  (l_AcquisitionType next = AcqRequest -> holder next = id).
Proof.
  pose proof (bc_built C) as B. pose proof (bt_type B) as Ht. pose proof (bt_local B) as Hl.
  assert (BuildInput_PrevLocal i = (holder prev =? id)) as Ep by (unfold BuildInput_PrevLocal; by rewrite (bc_id C)).
  assert (BuildInput_NextLocal i = (holder next =? id)) as En.
  { unfold BuildInput_NextLocal, holder, next. by rewrite (bc_id C), (bt_replica B). }
  unfold BuildInput_Acquisition, BuildInput_Extension, BuildInput_Transfer, BuildInput_Remote in *. fold next in Ht. rewrite Ep, En in *.
  destruct (Z.eqb_spec (holder prev) id), (Z.eqb_spec (holder next) id); cbn [negb andb] in *; rewrite Ht; intuition congruence.
Qed.

Lemma bc_now_wall : y_time y <= WallTime now < y_time y + maxOffset.
Proof. apply (bc_reading C). Qed.

(** The end of the previous lease. *)
Lemma bc_prev_end :
  (l_Epoch prev = 0 -> WallTime (fixed_end prev) <= WallTime (prev_end i)) /\
  (l_Epoch prev <> 0 -> WallTime (l_MinExpiration prev) <= WallTime (prev_end i) /\
    (lv_Epoch (bi_PrevLeaseNodeLiveness i) = l_Epoch prev -> WallTime (lv_Expiration (bi_PrevLeaseNodeLiveness i)) <= WallTime (prev_end i))).
Proof.
  unfold prev_end, lease_end, fixed_end. fold prev. split; intros E.
  - rewrite (proj2 (Z.eqb_eq _ _) E). cbn [negb]. destruct (l_Term prev =? 0); cbn [negb]; [lia|]. destruct (_ =? _); [apply ts_le_wall, Timestamp_Forward_le|lia].
  - rewrite (proj2 (Z.eqb_neq _ _) E). cbn [negb]. destruct (l_Epoch prev =? _) eqn:Ee; bool_to_prop.
    + split; [|intros _]; apply ts_le_wall, Timestamp_Forward_le.
    + split; [lia|congruence].
Qed.

(** The start of an acquisition. *)
Lemma bc_acquired_start : BuildInput_Acquisition i = true ->
  WallTime (prev_end i) <= WallTime (l_Start next) /\ WallTime (prev_end i) <= WallTime now /\ (l_Epoch prev <> 0 -> l_Start next = now).
Proof.
  intros Ha. pose proof (bc_built C) as B. destruct (bt_acquired B Ha) as [H1%ts_le_wall H2%ts_le_wall].
  rewrite (bc_now C) in H2. split_and!; [done|done|]. intros Ne. pose proof (bt_start B) as Hs. unfold leaseStart in Hs.
  destruct bc_kind as (Ka & Kx & Kt & Kt' & _).
  assert (BuildInput_Transfer i = false /\ BuildInput_Extension i = false) as [Et Ex].
  { apply Ka in Ha as [Hh Hty]. split; apply not_true_iff_false; [rewrite Kt; congruence|by rewrite Kx]. }
  rewrite Et, Ex, orb_false_r in Hs. fold prev in Hs. destruct bc_prev_cases as [[Ep _]|Hok]; [by rewrite Ep in Ne|].
  destruct (lo_store _ _ Hok) as (s0 & Hs0 & _). destruct (v_stores _ (bc_inv C) _ _ Hs0) as [(N0 & _) _ _ _ _].
  fold (holder prev) in Hs. rewrite (proj2 (Z.eqb_neq _ _) N0) in Hs.
  pose proof (lo_wf _ _ Hok) as Wf. unfold lease_wf in Wf. destruct (Lease_Type_cases prev) as [(?&?&Ety)|[(?&?&Ety)|[(?&?&Ety)|(?&?&msg&Ety)]]]; rewrite Ety in *; try done.
  all: cbn in Hs; apply Ret_inj in Hs; rewrite (bc_now C) in Hs; symmetry; exact Hs.
Qed.

(** The end of a lease that is not epoch-based. *)
Lemma bc_fixed_end : l_Epoch next = 0 -> WallTime (prev_end i) <= WallTime (fixed_end next) /\ WallTime now <= WallTime (fixed_end next).
Proof.
  intros E. pose proof (bc_built C) as B. pose proof (bt_typed B) as T. unfold typed_fields in T. fold next in T.
  destruct (ro_dur (bc_ok C)) as [D1 D2]. pose proof (bc_now C) as En. rewrite En in *.
  set (e := fst (Timestamp_Forward (Timestamp_Add now (set_RangeLeaseDuration st) 0) (prev_end i))) in *.
  assert (WallTime (prev_end i) <= WallTime e /\ WallTime now <= WallTime e) as He.
  { unfold e. destruct (Timestamp_Forward_le (Timestamp_Add now (set_RangeLeaseDuration st) 0) (prev_end i)) as [H1%ts_le_wall H2%ts_le_wall]. split; [done|].
    cbn in H1. pose proof bc_now_wall. pose proof (v_time _ (bc_inv C)). rewrite int64_small in H1 by (unfold MaxInt64 in *; lia). lia. }
  unfold fixed_end. destruct (Lease_Type_cases next) as [(?&Et&Ety)|[(?&Et&Ety)|[(?&Et&Ety)|(?&Et&msg&Ety)]]]; rewrite Ety in T; try done.
  - destruct T as [Te _]. rewrite (proj2 (Z.eqb_eq _ _) Et). unfold Lease_GetExpiration. by rewrite Te.
  - destruct T as [_ Te]. rewrite (proj2 (Z.eqb_neq _ _) Et). by rewrite Te.
Qed.

(** Everything after the new lease is after the previous one, or after the present. *)
Lemma bc_after w : after y next w -> after y prev w.
Proof.
  destruct bc_now_wall as [Hn _]. intros [Ha|[Ha|[E Ha]]]; [|by right; left|right; left; destruct (bc_fixed_end E); lia].
  destruct bc_kind as (Ka & Kx & Kt & _ & _). pose proof (bc_built C) as B.
  destruct (operation_cases i (bt_local B)) as [(Hop & _)|[(Hna & Hop & _)|(_ & _ & Hop)]].
  - destruct (bc_acquired_start Hop) as (H1 & _ & H2). destruct (decide (l_Epoch prev = 0)) as [E|N].
    + right; right. split; [done|]. destruct bc_prev_end as [He _]. specialize (He E). lia.
    + right; left. rewrite (H2 N) in Ha. lia.
  - left. pose proof (bt_start_prev B Hna) as Hs%ts_le_wall. fold prev next in Hs. lia.
  - right; left. pose proof (bt_start B) as Hs. unfold leaseStart in Hs. rewrite Hop in Hs. apply Ret_inj in Hs. fold next in Hs.
    rewrite <- Hs, (bc_now C) in Ha. lia.
Qed.

Lemma bc_lease_wf : lease_wf next.
Proof.
  pose proof (bt_typed (bc_built C)) as T. unfold typed_fields in T. fold next in T. unfold lease_wf.
  destruct (Lease_Type_cases next) as [(?&?&E)|[(?&?&E)|[(?&?&E)|(?&?&msg&E)]]]; rewrite E in *; [|apply T|apply T|done].
  destruct T as [-> ->]. done.
Qed.

(** The record behind the previous lease and behind the next one. *)
Lemma bc_prev_record : BuildInput_Transfer i = false -> l_Epoch prev <> 0 ->
  (BuildInput_Acquisition i = true \/ lst_State status <> ERROR) ->
  exists rec, Cache_getLiveness (ss_cache s) (node prev) = Some rec /\ bi_PrevLeaseNodeLiveness i = rec_Liveness rec /\
    y_written y (rec_Liveness rec) /\ lv_NodeID (rec_Liveness rec) = node prev /\ l_Epoch prev <= lv_Epoch (rec_Liveness rec).
Proof.
  intros _ Ne Hst. assert (lst_State status <> ERROR) as Ns.
  { destruct Hst as [Ha|?]; [|done]. pose proof (bc_built C) as B. destruct (bt_acquired B Ha) as [_ Hle]. rewrite (bc_expired C); [done|].
    rewrite (bt_expired B). by apply Timestamp_LessEq_spec. }
  destruct (bc_record C Ns Ne) as (rec & Hg & Hl & He). exists rec. rewrite (bc_live C). split_and!; [done|done| | |done];
    by apply (sv_cache _ _ _ (v_stores _ (bc_inv C) id s (bc_store C)) _ _ Hg).
Qed.

Lemma bc_next_record : l_Epoch next <> 0 ->
  exists rec, Cache_getLiveness (ss_cache s) (node next) = Some rec /\ lv_Epoch (rec_Liveness rec) = l_Epoch next /\
    y_written y (rec_Liveness rec) /\ lv_NodeID (rec_Liveness rec) = node next /\
    (BuildInput_Extension i = true /\ Lease_Type prev = Ret LeaseExpiration /\ l_Expiration prev = Some (l_MinExpiration next) \/
     ~ (BuildInput_Extension i = true /\ Lease_Type prev = Ret LeaseExpiration)).
Proof.
  intros Ne. pose proof (bc_built C) as B. pose proof (bt_typed B) as T. unfold typed_fields in T. fold next in T.
  destruct (Lease_Type_cases next) as [(?&?&E)|[(?&?&E)|[(?&?&E)|(?&?&msg&E)]]]; rewrite E in *; try done.
  destruct T as (_ & (rec & Hg & He) & Hm). rewrite <- (bt_replica B) in Hg. fold next in Hg. change (rd_NodeID (l_Replica next)) with (node next) in Hg.
  destruct (sv_cache _ _ _ (v_stores _ (bc_inv C) id s (bc_store C)) _ _ Hg) as (? & _ & ?).
  exists rec. split_and!; try done. destruct (Hm (ro_min (bc_ok C))) as [?|[? _]]; [by left|by right].
Qed.

(** The holder of the lease that is extended: its clock has passed the proposal. *)
Lemma bc_own : holder prev = id -> lease_ok y prev /\ l_Replica prev = ss_desc s /\ ts_lt (l_ProposedTS prev) now.
Proof.
  intros Hh. destruct (v_stores _ (bc_inv C) id s (bc_store C)) as [(N0 & _) _ _ S4 _].
  destruct bc_prev_cases as [[Ep _]|Hok]; [rewrite Ep in Hh; by destruct N0|]. split; [done|].
  destruct (lo_store _ _ Hok) as (s0 & Hs0 & Hd & Hk). rewrite Hh, (bc_store C) in Hs0. injection Hs0 as <-. split; [done|].
  assert (ts_le (l_ProposedTS prev) (ss_clock s)) as Hle.
  { destruct Hk as [(_ & _ & ?)|[_ ?]]; [done|]. transitivity (l_Start prev); [done|]. by apply (S4 (ss_applied s)); [|apply bc_hist|]. }
  destruct (bc_reading C) as [Hlt _]. unfold ts_lt in *. intros L. apply Hlt. by transitivity (l_ProposedTS prev).
Qed.

Lemma bc_covered : holder next = holder prev -> covered prev next.
Proof.
  intros Hh. destruct bc_kind as (_ & Kx & _ & _ & _). pose proof (proj2 Kx Hh) as Hx. pose proof (bc_built C) as B.
  assert (holder prev = id) as Hid.
  { unfold BuildInput_Extension, BuildInput_PrevLocal in Hx. apply andb_true_iff in Hx as [Hx _]. apply Z.eqb_eq in Hx. unfold holder, prev. by rewrite Hx, (bc_id C). }
  destruct (bc_own Hid) as (Hok & Hrep & Hlt). destruct (bt_proposed B) as [Hpro _]. fold next in Hpro. rewrite (bc_now C) in Hpro.
  assert (node prev = node next) as Hnode.
  { destruct bc_next_store as (s' & Hs' & Hr'). rewrite Hh, Hid, (bc_store C) in Hs'. injection Hs' as <-. unfold node. by rewrite Hrep, Hr'. }
  destruct (bc_safe C Hx) as [Hsw1 Hsw2]. fold prev next in Hsw1, Hsw2. rewrite (bc_now C) in Hsw2.
  split; [rewrite Hpro; unfold ts_lt, ts_le in *; lia|]. destruct (l_Epoch next =? 0) eqn:En; bool_to_prop.
  - destruct (Lease_Type_cases prev) as [(?&?&E)|[(?&?&E)|[(?&?&E)|(?&?&msg&E)]]]; [| | |pose proof (lo_wf _ _ Hok) as Wf; unfold lease_wf in Wf; by rewrite E in Wf].
    2: { specialize (Hsw1 E). destruct (Lease_Type_cases next) as [(?&?&?)|[(?&?&?)|[(?&?&?)|(?&?&?&?)]]]; congruence. }
    all: split; [done|]; destruct bc_prev_end as [He _]; destruct (bc_fixed_end En) as [Hf _]; specialize (He ltac:(done)); lia.
  - destruct (bc_next_record En) as (rec & Hg & Hrec & _ & _ & Hmin). rewrite Hpro.
    assert (Lease_Type next = Ret LeaseEpoch) as Ety.
    { pose proof bc_lease_wf as Wf. unfold lease_wf in Wf. destruct (Lease_Type_cases next) as [(?&?&E)|[(?&?&E)|[(?&?&E)|(?&?&msg&E)]]]; rewrite E in *; done. }
    destruct (Lease_Type_cases prev) as [(E1&E2&E)|[(E1&E2&E)|[(E1&E2&E)|(E1&E2&msg&E)]]]; [| | |pose proof (lo_wf _ _ Hok) as Wf; unfold lease_wf in Wf; by rewrite E in Wf].
    + rewrite (proj2 (Z.eqb_eq _ _) E1). destruct Hmin as [(_ & _ & Hexp)|Hno]; [|by destruct Hno].
      unfold fixed_end, Lease_GetExpiration. rewrite (proj2 (Z.eqb_eq _ _) E2), Hexp. cbn. lia.
    + rewrite (proj2 (Z.eqb_neq _ _) E1). assert (ts_le (l_MinExpiration prev) now) as Hm%ts_le_wall by (apply Hsw2; [by rewrite E|done]).
      split_and!; [done| |lia]. destruct (bc_record C (ro_status (bc_ok C) Hx) E1) as (rec' & Hg' & _ & He'). fold prev in Hg'. rewrite Hnode, Hg in Hg'. injection Hg' as <-.
      fold prev in He'. lia.
    + assert (ts_le (l_MinExpiration prev) now) as Hm%ts_le_wall by (apply Hsw2; [by rewrite E|done]).
      rewrite (proj2 (Z.eqb_eq _ _) E1). unfold fixed_end. rewrite (proj2 (Z.eqb_neq _ _) E2). lia.
Qed.

Lemma bc_seq_nonneg : 0 <= l_Sequence prev.
Proof. apply (seq_mono (v_links _ (bc_inv C)) O (ss_applied s) empty_Lease prev); [lia|apply (v_head _ (bc_inv C))|apply bc_hist]. Qed.

(** The same sequence is kept by an extension only, which starts with the lease. *)
Lemma bc_link : link prev next.
Proof.
  pose proof (bc_built C) as B. destruct (bt_seq B) as (b & Heq & Hseq). fold prev next in Heq, Hseq.
  pose proof bc_seq_nonneg. pose proof (ro_seq (bc_ok C)) as Hmax. fold prev in Hmax.
  assert (l_Sequence next = if b then l_Sequence prev else l_Sequence prev + 1) as Hseq'.
  { rewrite Hseq. destruct b; [done|]. unfold u64. rewrite Z.mod_small; [done|]. unfold MaxUint64, u64_modulus in *. lia. }
  split; [destruct b; [by left|by right]|]. split; [|apply bc_covered]. intros Es. assert (b = true) as -> by (destruct b; [done|lia]).
  assert (holder next = holder prev /\ l_Start next = l_Start prev) as [Hh Hst].
  { destruct bc_prev_cases as [[Ep _]|Hok].
    - exfalso. apply Equivalent_replica in Heq as (_ & Heq & _). destruct bc_next_store as (s' & Hs' & _).
      destruct (v_stores _ (bc_inv C) _ _ Hs') as [(N0 & _) _ _ _ _]. destruct N0. unfold holder. rewrite <- Heq. by rewrite Ep.
    - destruct (Equivalent_spec prev next (set_ExpToEpochEquiv st) (lo_wf _ _ Hok) bc_lease_wf) as (b & Hb & Hspec). rewrite Heq in Hb. apply Ret_inj in Hb as <-.
      destruct (proj1 Hspec eq_refl) as ((_ & Hh & _) & Hst & _). done. }
  destruct bc_kind as (_ & Kx & Kt & Kt' & Kr). assert (l_AcquisitionType next = AcqRequest) as Hty.
  { unfold next. rewrite (bt_type B). destruct (BuildInput_Transfer i) eqn:Et; [|done]. destruct (Kt' eq_refl). congruence. }
  split_and!; [done|done| |done]. unfold next. destruct (bt_proposed B) as [-> _]. rewrite (bc_now C). apply bc_own. rewrite <- Hh. by apply Kr.
Qed.

(** What lies after an acquisition from an epoch-based lease lies after the present. *)
Lemma bc_after_now w : BuildInput_Acquisition i = true -> l_Epoch prev <> 0 -> after y next w -> y_time y + maxOffset <= w.
Proof.
  intros Ha Ne. destruct (bc_acquired_start Ha) as (_ & _ & Hs). destruct bc_now_wall as [Hn _].
  intros [H|[H|[E H]]]; [rewrite (Hs Ne) in H; lia|done|destruct (bc_fixed_end E); lia].
Qed.

Lemma bc_prev_proposed : l_Epoch prev <> 0 -> WallTime (l_ProposedTS prev) < y_time y + maxOffset.
Proof. intros Ne. destruct bc_prev_cases as [[Ep _]|Hok]; [by rewrite Ep in Ne|apply (lo_proposed _ _ Hok)]. Qed.

(** An acquisition that has nothing to increment: the previous lease has lapsed. *)
Lemma bc_acquired w : BuildInput_Acquisition i = true -> nm_Increment (o_NodeLivenessManipulation o) = None -> after y next w ->
  lapsed_in y prev w /\ (l_Epoch prev <> 0 -> WallTime (l_ProposedTS prev) < w).
Proof.
  intros Ha Hn Hw. pose proof (bc_built C) as B. destruct (bc_acquired_start Ha) as (H1 & H2 & _). destruct bc_prev_end as [He1 He2]. destruct bc_now_wall as [_ Hnow].
  unfold lapsed_in, lapsed. destruct (l_Epoch prev =? 0) eqn:Ee; bool_to_prop.
  - split; [|done]. specialize (He1 Ee). destruct Hw as [?|[?|[E ?]]]; [lia|lia|destruct (bc_fixed_end E); lia].
  - pose proof (bc_after_now w Ha Ee Hw) as Hw'. pose proof (bc_prev_proposed Ee). split; [|lia].
    destruct bc_kind as (Ka & _ & Kt & _). assert (BuildInput_Transfer i = false) as Et by (apply not_true_iff_false; rewrite Kt; apply Ka in Ha; intuition congruence).
    destruct (bc_prev_record Et Ee (or_introl Ha)) as (rec & _ & Hl & Hwr & Hnode & Hle).
    destruct (He2 Ee) as [Hmin _]. assert (l_Epoch prev < lv_Epoch (rec_Liveness rec)) as Hlt.
    { destruct (decide (lv_Epoch (rec_Liveness rec) = l_Epoch prev)) as [E|]; [|lia]. rewrite (bt_increment B Ha) in Hn; [done| |by rewrite Hl].
      fold prev. destruct (Lease_Type_cases prev) as [(?&?&?)|[(?&?&?)|[(?&?&?)|(?&?&msg&Em)]]]; try done.
      destruct bc_prev_cases as [[Ep _]|Hok]; [by rewrite Ep in Ee|]. pose proof (lo_wf _ _ Hok) as Wf. unfold lease_wf in Wf. by rewrite Em in Wf. }
    pose proof (v_live _ (bc_inv C)) as Il. split_and!; [lia| |].
    + destruct (li_below _ _ _ Il _ Hwr) as (c & Hc & _ & Hce & _). exists c. rewrite Hnode in Hc. split; [done|lia].
    + intros r Wr Nr Er. destruct (li_below _ _ _ Il r Wr) as (c & Hc & _ & _ & _ & Hsup). destruct (li_below _ _ _ Il _ Hwr) as (c' & Hc' & _ & Hce & _).
      assert (c' = c) as -> by (apply SetProto_inj'; congruence). specialize (Hsup ltac:(lia)). lia.
Qed.

(** An acquisition that has to increment the epoch of the previous lease. *)
Lemma bc_awaiting r : BuildInput_Acquisition i = true -> nm_Increment (o_NodeLivenessManipulation o) = Some r -> awaiting y prev next r.
Proof.
  intros Ha Hr. pose proof (bc_built C) as B. destruct (bt_incremented B Hr) as (-> & Hty & He). fold prev in Hty, He.
  assert (l_Epoch prev <> 0) as Ne by (intros E; destruct (Lease_Type_cases prev) as [(?&?&?)|[(?&?&?)|[(?&?&?)|(?&?&?&?)]]]; congruence).
  destruct bc_kind as (Ka & _ & Kt & _). assert (BuildInput_Transfer i = false) as Et by (apply not_true_iff_false; rewrite Kt; apply Ka in Ha; intuition congruence).
  destruct (bc_prev_record Et Ne (or_introl Ha)) as (rec & _ & Hl & Hwr & Hnode & Hle). rewrite <- Hl in *.
  destruct (bc_acquired_start Ha) as (H1 & H2 & _). destruct bc_prev_end as [_ He2]. destruct (He2 Ne) as [Hmin Hexp]. specialize (Hexp He). destruct bc_now_wall as [_ Hnow].
  split_and!; try done. intros w Hw. pose proof (bc_after_now w Ha Ne Hw). pose proof (bc_prev_proposed Ne). lia.
Qed.

(** The start of an extension is not before what the holder has revoked. *)
Lemma bc_extension_start : holder next = holder prev -> ts_le (min_proposed s) (l_Start next).
Proof.
  intros Hh. destruct bc_kind as (_ & Kx & _ & Kt & _). pose proof (proj2 Kx Hh) as Hx. pose proof (bt_start (bc_built C)) as Hs. unfold leaseStart in Hs.
  destruct (BuildInput_Transfer i) eqn:Et; [destruct (Kt eq_refl); congruence|]. rewrite Hx, orb_true_r in Hs. apply Ret_inj in Hs. fold next in Hs.
  rewrite <- Hs, (bc_min C). apply Timestamp_Forward_le.
Qed.

End build.

(** The context of the step. *)
Lemma step_build_ctx y id s now raft desc firstIndex bypass st holder status o :
  sys_inv y -> y_stores y !! id = Some s -> reading maxOffset y s now ->
  Replica_leaseStatusForRequest (Cache_getLiveness (ss_cache s)) maxOffset (getLeadSupportStatus raft) (ss_replica s) now zero_ts = Ret status ->
  let i := InitOrJoinRequest_input (ss_replica s) desc (getStatus raft) firstIndex status holder bypass in
  VerifyAndBuild st (Cache_getLiveness (ss_cache s)) i = Ret (inr o) -> request_ok y st status i -> safe_switch i (o_NextLease o) ->
  build_ctx y id s now st status i o.
Proof.
  intros I Hs Hr Hst i HB Hok Hsw. unfold Replica_leaseStatusForRequest in Hst. apply obind_Ret in Hst as (typ & Htyp & Hst).
  destruct (leases_Status_fields _ _ _ Hst) as (El & En & _). cbn in El, En.
  destruct (v_stores _ I id s Hs) as [(_ & _ & E1 & _) _ _ _ _].
  split; try done; [by apply VerifyAndBuild_built|by eauto| |].
  - cbn. unfold LeaseStatus_IsExpired. by rewrite bool_decide_eq_true.
  - intros Ns Ne. cbn in Ne |- *. destruct (leases_Status_inv _ _ _ Hst Ns) as (_ & _ & _ & _ & He & _ & _). cbn in He. rewrite El in *.
    apply He. destruct (Lease_Type_cases (rp_Lease (ss_replica s))) as [(?&?&?)|[(?&?&?)|[(?&?&?)|(?&?&?&?)]]]; congruence.
Qed.

Lemma step_build_inv y id s now st status i o :
  build_ctx y id s now st status i o ->
  sys_inv (set_store y id (s <| ss_clock := now |>)
    <| y_requests := mkRequest id (ss_applied s) i o (bool_decide (nm_Increment (o_NodeLivenessManipulation o) = None)) :: y_requests y |>).
Proof.
  intros C. set (y' := _ <| y_requests := _ |>). set (rq := mkRequest _ _ _ _ _) in y'. pose proof (bc_inv C) as I. pose proof (bc_store C) as Hs.
  destruct (v_stores _ I id s Hs) as [S1 S2 S3 S4 S5]. destruct (bc_reading C) as [Hclk Hnow].
  assert (ts_le (ss_clock s) now) as Hle by (unfold ts_lt, ts_le in *; lia).
  destruct (store_step y y' id s (s <| ss_clock := now |>)) as [G Hst]; try done.
  { split; try done; [|by transitivity (ss_clock s)]. intros m l Hm Hl Hh. transitivity (ss_clock s); [by apply (S4 m)|done]. }
  pose proof (bc_kind C) as (Ka & Kx & Kt & Kt' & Kr).
  assert (lease_ok y' (o_NextLease o)) as Hok.
  { pose proof (bc_built C) as B. destruct (bt_proposed B) as [Hp _]. rewrite (bc_now C) in Hp. split; [by apply (bc_lease_wf C)|rewrite Hp; cbn; lia| |].
    - intros Ne. destruct (bc_next_record C Ne) as (rec & _ & He & Hw & Hn & _). by exists (rec_Liveness rec).
    - destruct (bc_next_store C) as (s' & Hs' & Hd). destruct (gr_stores _ _ G _ _ Hs') as (s2 & Hs2 & Hd2 & Hc2 & _). exists s2. split_and!; [done|congruence|].
      destruct (BuildInput_Transfer i) eqn:Et; [right|left].
      + split; [by apply Kt|]. pose proof (bt_start B) as Hst'. unfold leaseStart in Hst'. rewrite Et in Hst'. apply Ret_inj in Hst'. rewrite Hp, <- Hst', (bc_now C). done.
      + assert (l_AcquisitionType (o_NextLease o) = AcqRequest) as Ety by (rewrite (bt_type B), Et; done). split_and!; [done| |].
        * rewrite Hp, <- (bc_now C). apply (bt_start_now B).
        * rewrite (Kr Ety) in Hs2. unfold y' in Hs2. cbn in Hs2. rewrite lookup_insert_eq in Hs2. injection Hs2 as <-. rewrite Hp. done. }
  assert (follows y' (ss_applied s) (bi_PrevLease i) (o_NextLease o) (rq_ready rq = true)) as Hfw.
  { split; [apply (bc_hist C)|done|apply (bc_link C)| | |].
    - intros j li w He Hj Ha. apply (gr_lapsed _ _ G). apply (v_dead _ I j (ss_applied s) li (bi_PrevLease i)); [done|done|apply (bc_hist C)|by apply (bc_after C)].
    - intros Ety. apply Kt'. by apply Kt.
    - intros w Ety Hh Hr Ha. destruct (bc_acquired C w) as [H1 H2]; [by apply Ka|by apply bool_decide_eq_true in Hr|done|].
      split; [by apply (gr_lapsed _ _ G)|done]. }
  apply (keep_inv y); try done; [apply (v_live _ I)| | |by intros; left].
  - intros rq' [->|?]%elem_of_cons; [right|by left]. split; [done| | |].
    + exists (s <| ss_clock := now |>). cbn. rewrite lookup_insert_eq. done.
    + cbn. destruct (BuildInput_Transfer i) eqn:Et; [split; [by apply Kt'|by apply Kt]|].
      assert (l_AcquisitionType (o_NextLease o) = AcqRequest) as Ety by (rewrite (bt_type (bc_built C)), Et; done). split; [by apply Kr|done].
    + intros r Hr Ety Hh. cbn in Hr, Ety, Hh. apply (bc_awaiting C); [by apply Ka|done].
  - intros p n l' [(rq' & [->|Hin]%elem_of_cons & <- & <-)|(pp & Hin & <- & <-)] Hl' Es.
    + right. cbn in Hl', Es. rewrite (bc_hist C) in Hl'. injection Hl' as <-. cbn. split; [apply (bc_link C)|].
      destruct (bc_link C) as (_ & Hsame & _). destruct (Hsame Es) as (Hh & _ & _ & Ety). exists (s <| ss_clock := now |>). rewrite <- Hh, (Kr Ety), lookup_insert_eq.
      split; [done|]. by apply (bc_extension_start C).
    + left. left. by exists rq'.
    + left. right. by exists pp.
Qed.

(** ** Incrementing an epoch for a request *)

Lemma step_request_increment_inv y id s now disk os rq l db cache :
  sys_inv y -> y_stores y !! id = Some s -> reading maxOffset y s now -> rq ∈ y_requests y -> rq_store rq = id ->
  nm_Increment (o_NodeLivenessManipulation (rq_out rq)) = Some l -> 0 <= lv_Epoch l < MaxInt64 ->
  NodeLiveness_IncrementEpoch SetProto GetProto now disk os l (y_db y) (ss_cache s) = Ret (db, cache, None) ->
  sys_inv (set_db SetProto (set_store y id (s <| ss_cache := cache |> <| ss_clock := now |>)) db
    <| y_requests := mkRequest id (rq_prev rq) (rq_in rq) (rq_out rq) true :: y_requests y |>).
Proof.
  intros I Hs Hr Hin Hid Hinc He Ei. subst id. set (id := rq_store rq) in *. set (y' := _ <| y_requests := _ |>). destruct (v_stores _ I id s Hs) as [_ _ S3 _ _].
  destruct (IncrementEpoch_spec SetProto GetProto GetProto_SetProto _ _ _ _ _ _ _ _ _ _ (li_wf _ _ _ (v_live _ I)) S3 He Ei) as (Hdb & Hwf & Hc & Hok).
  destruct (Hok eq_refl) as [Hcur Hnew]. destruct (liveness_step y y' id s now db cache) as (G & Hl & Hst); try done.
  pose proof (v_requests _ I rq Hin) as Rq. pose proof (request_inv_grows G rq Rq) as [[F1 F2 F3 F4 F5 _] R2 R3 R4].
  apply (keep_inv y); try done; [| |intros; by left].
  - intros rq' [->|?]%elem_of_cons; [right|by left]. split; cbn [rq_prev rq_in rq_out rq_ready rq_store]; [|exact R2|exact R3|exact R4].
    split; [exact F1|exact F2|exact F3|exact F4|exact F5|]. intros w Ety Hh _ Ha. cbn in Ety, Hh, Ha |- *.
    destruct (rv_await _ _ Rq l Hinc Ety Hh) as (Wl & Nl & El & Ne & Hw). destruct (Hw w (after_grows G _ _ Ha)) as (Hm & Hx & Hp).
    split; [|done]. unfold lapsed_in, lapsed. rewrite (proj2 (Z.eqb_neq _ _) Ne). split_and!; [done| |].
    + exists (l <| lv_Epoch := lv_Epoch l + 1 |>). cbn. rewrite <- Nl. split; [done|lia].
    + intros r [Wr|Hr'] Nr Er.
      * destruct (li_below _ _ _ (v_live _ I) r Wr) as (c & Hc' & _ & _ & Hle%ts_le_wall & _). rewrite Nr, <- Nl, Hcur in Hc'. injection Hc' as Hc'.
        apply SetProto_inj' in Hc' as <-. lia.
      * cbn in Hr'. rewrite Nr, <- Nl, Hnew in Hr'. injection Hr' as Hr'. apply SetProto_inj' in Hr' as <-. cbn in Er. lia.
  - intros p n l' [(rq' & [->|Hin']%elem_of_cons & <- & <-)|(pp & Hin' & <- & <-)] Hl' Es; left; [left; by exists rq|left; by exists rq'|right; by exists pp].
Qed.

(** ** Evaluating a request *)

Lemma evalNewLease_inv sum w1 w2 lease prev isTransfer res : evalNewLease sum w1 w2 lease prev isTransfer = inr res ->
  lr_Lease res = lease /\ lr_PrevLeaseProposal res = Some (l_ProposedTS prev).
Proof. unfold evalNewLease. destruct w1; [done|]. repeat case_match; intros [= <-]; done. Qed.

Lemma step_send_request_inv y rq desc sum w1 w2 res idx closed :
  sys_inv y -> rq ∈ y_requests y -> rq_ready rq = true -> BuildInput_Transfer (rq_in rq) = false ->
  RequestLease desc sum w1 w2 (o_NextLease (rq_out rq)) (bi_PrevLease (rq_in rq)) = inr res ->
  sys_inv (y <| y_proposals := mkProposal (rq_store rq) (rq_prev rq) (lr_Lease res)
    (lease_command false (bi_PrevLease (rq_in rq)) idx closed res) :: y_proposals y |>).
Proof.
  intros I Hin Hr Ht E. set (y' := _ <| y_proposals := _ |>). unfold RequestLease in E. destruct (CheckCanReceiveLease _ _ _); [done|].
  apply evalNewLease_inv in E as [El Ep].
  assert (grows y y') as G by (split; try done; intros id s Hs; by exists s).
  destruct (v_requests _ I rq Hin) as [Fw _ Hk _]. rewrite Ht in Hk. destruct Hk as [_ Hty].
  apply (keep_inv y); try done; [apply (v_live _ I)| |by intros; left| |].
  - intros id s Hs. by destruct (v_stores _ I id s Hs) as [H1 H2 H3 H4 H5].
  - intros p n l' [(rq' & Hin' & <- & <-)|(pp & [->|Hin']%elem_of_cons & <- & <-)] Hl' Es; left; [left; by exists rq'|left; exists rq; cbn; by rewrite El|right; by exists pp].
  - intros pp [->|?]%elem_of_cons; [right|by left]. exists (bi_PrevLease (rq_in rq)). cbn. split; cbn; rewrite ?El; [|done|done|congruence].
    apply (follows_grows G) in Fw. destruct Fw as [F1 F2 F3 F4 F5 F6]. split; try done. intros w A B _. by apply F6.
Qed.

(** What is in flight follows a lease of the history. *)
Lemma in_flight_follows y p n : sys_inv y -> in_flight y p n -> exists prev ready, follows y p prev n ready.
Proof.
  intros I [(rq & Hin & <- & <-)|(pp & Hin & <- & <-)].
  - eexists _, _. apply (v_requests _ I rq Hin).
  - destruct (v_proposals _ I pp Hin) as (prev & P). exists prev, True. apply P.
Qed.

Lemma proposed_by_clock y l s : lease_ok y l -> y_stores y !! holder l = Some s -> ts_le (l_Start l) (ss_clock s) -> ts_le (l_ProposedTS l) (ss_clock s).
Proof.
  intros [_ _ _ (s' & Hs' & _ & Hk)] Hs Hst. assert (s' = s) as -> by congruence.
  destruct Hk as [(_ & _ & ?)|[_ ?]]; [done|by transitivity (l_Start l)].
Qed.

(** The leases of a sequence that the holder of the lease at [p] can know were proposed
    before it revokes them. *)
Lemma revoke_spec y s p prev :
  sys_inv y -> y_hist y !! p = Some prev -> y_stores y !! holder prev = Some s -> (p <= ss_applied s)%nat ->
  ts_le (l_Start prev) (ss_clock s) /\
  (forall m l, y_hist y !! m = Some l -> l_Sequence l = l_Sequence prev -> ts_le (l_ProposedTS l) (ss_clock s)) /\
  (forall q n l, in_flight y q n -> y_hist y !! q = Some l -> l_Sequence l = l_Sequence prev -> l_Sequence n = l_Sequence prev -> ts_le (l_ProposedTS n) (ss_clock s)).
Proof.
  intros I Hp Hs Ha. pose proof (v_links _ I) as HL. destruct (v_stores _ I _ _ Hs) as [[S0 _] _ _ S4 _].
  assert (ts_le (l_Start prev) (ss_clock s)) as Hst by (by apply (S4 p)). split_and!; [done| |].
  - intros m l Hm Es. destruct (seq_holder HL m p l prev Hm Hp Es) as [Eh Est]. apply (proposed_by_clock y); [|by rewrite Eh|by rewrite Est].
    destruct m as [|m]; [|by apply (v_leases _ I m)]. rewrite (v_head _ I) in Hm. injection Hm as <-. by destruct S0.
  - intros q n l Hf Hq Es En. destruct (in_flight_follows y q n I Hf) as (l' & ready & [F1 F2 F3 _ _ _]). assert (l' = l) as -> by congruence.
    destruct (seq_holder HL q p l prev Hq Hp Es) as [Eh Est]. destruct F3 as (_ & Hsame & _). destruct Hsame as (Hh & Hst' & _); [congruence|].
    apply (proposed_by_clock y); [done|by rewrite Hh, Eh|by rewrite Hst', Est].
Qed.

Lemma step_send_transfer_inv y id s rq desc sum w1 w2 now1 now2 r res idx closed :
  sys_inv y -> y_stores y !! id = Some s -> rq ∈ y_requests y -> rq_store rq = id -> rq_ready rq = true -> BuildInput_Transfer (rq_in rq) = true ->
  reading maxOffset y s now1 -> reading maxOffset y (s <| ss_clock := now1 |>) now2 ->
  TransferLease desc sum w1 w2 now1 now2 (o_NextLease (rq_out rq)) (bi_PrevLease (rq_in rq)) (ss_replica s) = (r, inr res) ->
  sys_inv (set_store y id (s <| ss_replica := r |> <| ss_clock := now2 |>)
    <| y_proposals := mkProposal id (rq_prev rq) (lr_Lease res) (lease_command true (bi_PrevLease (rq_in rq)) idx closed res) :: y_proposals y |>).
Proof.
  intros I Hs Hin Hid Hr Ht [Hc1 Hn1] [Hc2 Hn2] E. cbn in Hc2. set (s' := s <| ss_replica := r |> <| ss_clock := now2 |>). set (y' := _ <| y_proposals := _ |>).
  unfold TransferLease in E. destruct (CheckCanReceiveLease _ _ _); [done|]. set (prev := bi_PrevLease (rq_in rq)) in *. set (next := o_NextLease (rq_out rq)) in *.
  set (next' := next <| l_Start := _ |>) in E. injection E as Er Ev. apply evalNewLease_inv in Ev as [El Ep].
  destruct (v_stores _ I id s Hs) as [S1 S2 S3 S4 S5].
  assert (ts_le (ss_clock s) now1 /\ ts_le now1 now2) as [Hle1 Hle2] by (unfold ts_lt, ts_le in *; lia).
  assert (ts_le (ss_clock s) now2) as Hle by (by transitivity now1).
  assert (rp_StoreID r = rp_StoreID (ss_replica s) /\ rp_ReplicaID r = rp_ReplicaID (ss_replica s) /\ rp_Lease r = rp_Lease (ss_replica s) /\
    ts_le (min_proposed s) (rp_minLeaseProposedTS r) /\ ts_le (rp_minLeaseProposedTS r) now2 /\
    (l_Sequence (rp_Lease (ss_replica s)) = l_Sequence prev -> rp_minLeaseProposedTS r = now1)) as (R1 & R2 & R3 & R4 & R5 & R6).
  { rewrite <- Er. unfold Replica_RevokeLease. destruct (_ =? _) eqn:Eq; bool_to_prop; cbn; split_and!; try done; by transitivity (ss_clock s). }
  destruct (store_step y y' id s s') as [G Hst]; try done.
  { split; cbn; [by rewrite R1, R2|by rewrite R3|done| |done]. intros m l Hm Hl Hh. transitivity (ss_clock s); [by apply (S4 m)|done]. }
  destruct (v_requests _ I rq Hin) as [Fw (s0 & Hs0 & Hpa) Hk _]. rewrite Ht in Hk. destruct Hk as [Hhold Hty]. fold prev next in Hhold, Hty, Fw.
  rewrite Hid, Hs in Hs0. injection Hs0 as <-. pose proof (follows_grows G _ _ _ _ Fw) as [F1 F2 F3 F4 F5 _].
  assert (l_Sequence next <> l_Sequence prev) as Nseq by (intros Es; destruct F3 as (_ & Hsame & _); destruct (Hsame Es) as (_ & _ & _ & ?); congruence).
  assert (follows y' (rq_prev rq) prev next' True) as Fw'.
  { split; [done| | | |exact F5|intros w E; cbn in E; congruence].
    - destruct F2 as [O1 O2 O3 (s1 & Hs1 & Hd & Hkk)]. split; [done|done|done|]. exists s1. split_and!; [done|done|]. right.
      destruct Hkk as [(?&_)|[_ Hp]]; [congruence|]. split; [done|]. cbn. transitivity (l_Start next); [done|apply Timestamp_Forward_le].
    - destruct F3 as (L1 & L2 & L3). split; [done|]. split; [by intros|]. intros Hh. by destruct (F5 Hty).
    - intros j li w He Hj Ha. apply (F4 j); [done|done|]. destruct Ha as [Ha|[Ha|Ha]]; [|by right; left|by right; right]. right; left. cbn in Ha |- *.
      destruct (Timestamp_Forward_le (l_Start next) now2) as [_ Hf%ts_le_wall]. lia. }
  apply (keep_inv y); try done; [apply (v_live _ I)|by intros; left| |].
  - intros p n l' [(rq' & Hin' & <- & <-)|(pp & [->|Hin']%elem_of_cons & <- & <-)] Hl' Es; [left; left; by exists rq'| |left; right; by exists pp].
    cbn in Hl', Es. rewrite (fw_at _ _ _ _ _ Fw) in Hl'. injection Hl' as <-. by rewrite El in Es.
  - intros pp [->|?]%elem_of_cons; [right|by left]. exists prev. split; cbn; rewrite ?El; [done|done|intros E; change (l_AcquisitionType next = AcqRequest) in E; congruence|]. intros _.
    pose proof (fw_at _ _ _ _ _ Fw) as Hp. pose proof (seq_mono (v_links _ I) _ _ _ _ Hpa Hp S2) as Hseq.
    destruct (decide (l_Sequence (rp_Lease (ss_replica s)) = l_Sequence prev)) as [Es|Ns]; [right|left; exists (ss_applied s), (rp_Lease (ss_replica s)); split; [done|lia]].
    destruct (revoke_spec y s (rq_prev rq) prev I Hp) as (H1 & H2 & H3); [by rewrite Hhold, Hid|done|].
    assert (forall t, ts_le t (ss_clock s) -> ts_lt t now1) as Hup by (intros t; unfold ts_lt, ts_le in *; lia).
    exists s'. cbn. rewrite Hhold, Hid, lookup_insert_eq, (R6 Es). split_and!; [done|by apply Hup|intros m l Hm E; apply Hup; by apply (H2 m)|].
    intros q n l [(rq' & Hin' & <- & <-)|(pp & [->|Hin']%elem_of_cons & <- & <-)] Hl E1 E2; cbn in Hl, E2.
    + apply Hup. apply (H3 (rq_prev rq') _ l); [left; by exists rq'|done..].
    + by rewrite El in E2.
    + apply Hup. apply (H3 (pp_prev pp) _ l); [right; by exists pp|done..].
Qed.

(** ** A lease enters the history *)

Lemma ended_last H l typ i : ended (H ++ [l]) typ i (length H) ->
  ended H typ i (length H - 1) \/
  exists li lk, H !! i = Some li /\ last H = Some lk /\ tenure H i (length H - 1) /\ holder l <> holder lk /\ l_AcquisitionType l = typ.
Proof.
  intros (k & lk & l' & H1 & H2 & Ht & H4 & H5 & H6 & H7). destruct (decide (S k = length H)) as [E|N].
  - right. assert (k = (length H - 1)%nat) as -> by lia. rewrite lookup_app_l in H4 by lia. rewrite E, lookup_app_r, Nat.sub_diag in H5 by lia. injection H5 as ->.
    assert (is_Some (H !! i)) as [li Hi] by (apply lookup_lt_is_Some; lia). exists li, lk. rewrite last_lookup. replace (pred (length H)) with (length H - 1)%nat by lia.
    split_and!; try done. destruct Ht as [Ht Ht']. split; [done|]. intros x l0 lx Hx Hl0 Hlx. apply (Ht' x); [done|by apply lookup_app_l_Some..].
  - left. apply (ended_app H l); [lia|]. exists k, lk, l'. split_and!; try done. lia.
Qed.

Section commit.
Context {y : system} (I : sys_inv y) {pp : proposal} {prev cur : Lease}.
Let N := pp_lease pp.
Let y' := y <| y_hist := y_hist y ++ [N] |>.
Let n := (length (y_hist y) - 1)%nat.
Hypothesis Hin : pp ∈ y_proposals y.
Hypothesis Hprev : proposal_inv y pp prev.
Hypothesis Hcur : last (y_hist y) = Some cur.
Hypothesis Hseq : l_Sequence prev = l_Sequence cur.
Hypothesis Hreq : l_AcquisitionType N = AcqRequest -> l_ProposedTS prev = l_ProposedTS cur.

Lemma cm_last : y_hist y !! n = Some cur.
Proof. rewrite last_lookup in Hcur. unfold n. by replace (length (y_hist y) - 1)%nat with (pred (length (y_hist y))) by lia. Qed.

Lemma cm_length : length (y_hist y) = S n.
Proof. pose proof cm_last as H%lookup_lt_Some. unfold n in *. lia. Qed.

Lemma cm_at : y_hist y !! pp_prev pp = Some prev.
Proof. apply Hprev. Qed.

Lemma cm_request : l_AcquisitionType N = AcqRequest -> pp_prev pp = n /\ prev = cur.
Proof.
  intros E. assert (pp_prev pp = n) as Ep by (apply (seq_unique (v_links _ I) _ _ prev cur); [apply cm_at|apply cm_last|done|by apply Hreq]).
  split; [done|]. pose proof cm_at as H. rewrite Ep, cm_last in H. congruence.
Qed.

Lemma cm_link : link cur N.
Proof.
  pose proof (pv_follows _ _ _ Hprev) as F. pose proof (fw_link _ _ _ _ _ F) as L. fold N in L.
  destruct (lo_store _ _ (fw_ok _ _ _ _ _ F)) as (_ & _ & _ & [[Et _]|[Et _]]); fold N in Et; [by destruct (cm_request Et) as [_ <-]|].
  destruct L as (L1 & L2 & _). destruct (seq_holder (v_links _ I) _ _ _ _ cm_at cm_last Hseq) as [Eh _]. split; [lia|]. split; [|intros E; by destruct (fw_transfer _ _ _ _ _ F Et); rewrite Eh].
  intros Es. destruct L2 as (_ & _ & _ & ?); [lia|]. congruence.
Qed.

Lemma cm_tenure : tenure (y_hist y) (pp_prev pp) n.
Proof. apply (seq_tenure (v_links _ I) _ _ prev cur); [|apply cm_at|apply cm_last|done]. pose proof cm_at as H%lookup_lt_Some. unfold n. lia. Qed.

Lemma cm_dead i li w : ended (y_hist y ++ [N]) AcqRequest i (length (y_hist y)) -> y_hist y !! i = Some li -> after y N w -> lapsed_in y li w.
Proof.
  intros [He|(li' & lk & Hi & Hk & Ht & Nh & Ety)]%ended_last Hi' Ha.
  - apply (fw_dead _ _ _ _ _ (pv_follows _ _ _ Hprev) i); [|done|done]. apply (ended_tenure _ _ _ n prev cur); [done|apply cm_tenure|apply cm_at|apply cm_last].
  - assert (lk = cur) as -> by congruence. destruct (cm_request Ety) as [_ Ec].
    destruct (fw_acquired _ _ _ _ _ (pv_follows _ _ _ Hprev) w Ety) as [Hl Hp]; [by rewrite Ec|done|done|]. rewrite Ec in Hl, Hp.
    apply (covered_lapsed (y_time y) _ _ li cur); [apply (v_live _ I)|by apply (tenure_covered (v_links _ I) i n); [| |apply cm_last]|done|].
    intros Ne. split; [by apply Hp|]. pose proof cm_last as Hc. destruct n as [|m]; [rewrite (v_head _ I) in Hc; injection Hc as <-; done|].
    by apply (lo_epoch _ _ (v_leases _ I m cur Hc)).
Qed.

Lemma cm_revoked i li : ended (y_hist y ++ [N]) AcqTransfer i (length (y_hist y)) -> y_hist y !! i = Some li ->
  exists s, y_stores y !! holder li = Some s /\ ts_lt (l_ProposedTS li) (min_proposed s).
Proof.
  intros [He|(li' & lk & Hi & Hk & Ht & Nh & Ety)]%ended_last Hi'; [by apply (v_revoked _ I i n)|].
  destruct (tenure_covered (v_links _ I) i n li cur Ht Hi' cm_last) as [Hp _].
  assert (holder cur = holder li) as Eh by (destruct Ht as [? Ht]; apply (Ht n); [lia|done|apply cm_last]).
  destruct (seq_holder (v_links _ I) _ _ _ _ cm_at cm_last Hseq) as [Eh' _].
  destruct (pv_transfer _ _ _ Hprev Ety) as [(m & l' & Hm & Hlt)|(s & Hs & _ & Hh & _)].
  - exfalso. pose proof (seq_mono (v_links _ I) m n l' cur ltac:(apply lookup_lt_Some in Hm; unfold n; lia) Hm cm_last). lia.
  - exists s. split; [congruence|]. specialize (Hh n cur cm_last ltac:(congruence)). unfold ts_lt in *. intros L. apply Hh. by transitivity (l_ProposedTS li).
Qed.

Lemma cm_follows p q l ready : follows y p q l ready -> follows y' p q l ready.
Proof.
  intros [F1 F2 F3 F4 F5 F6]. split; try done; [by apply lookup_app_l_Some|by destruct F2|].
  intros i li w He Hi. pose proof F1 as Hp%lookup_lt_Some. apply (ended_app (y_hist y)) in He; [|done]. apply (F4 i); [done|].
  destruct He as (k & ? & ? & ? & ? & _). cbn in Hi. by rewrite lookup_app_l in Hi by lia.
Qed.

Lemma cm_stays_revoked q l : y_hist y !! q = Some l -> revoked y l -> revoked y' l.
Proof.
  intros Hq [(m & l' & Hm & Hlt)|(s & Hs & Hst & Hh & Hf)]; [left; exists m, l'; split; [by apply lookup_app_l_Some|done]|right].
  exists s. split_and!; [done|done| |].
  - intros m l' Hm Es. cbn in Hm. apply lookup_app_Some in Hm as [Hm|[_ Hm]]; [by apply (Hh m)|]. apply list_lookup_singleton_Some in Hm as [_ <-].
    apply (Hf (pp_prev pp) N prev); [right; by exists pp|apply cm_at| |done]. destruct cm_link as ([L|L] & _); [congruence|exfalso].
    pose proof (seq_mono (v_links _ I) q n l cur ltac:(apply lookup_lt_Some in Hq; unfold n; lia) Hq cm_last). lia.
  - intros p x l' Hx Hp. apply (Hf p x); [done|]. destruct (in_flight_follows y p x I Hx) as (? & ? & F). pose proof (fw_at _ _ _ _ _ F) as Hlt%lookup_lt_Some.
    cbn in Hp. by rewrite lookup_app_l in Hp.
Qed.

Lemma commit_inv : sys_inv y'.
Proof.
  pose proof cm_length as Hn. assert (y_hist y' = y_hist y ++ [N]) as EH by done. split; rewrite ?EH.
  - apply (v_time _ I).
  - apply (v_live _ I).
  - intros id s Hs. destruct (v_stores _ I id s Hs) as [S1 S2 S3 S4 S5]. split; try done; [by apply lookup_app_l_Some|].
    intros m l Hm. cbn. rewrite lookup_app_l by (apply lookup_lt_Some in S2; lia). by apply S4.
  - apply lookup_app_l_Some, (v_head _ I).
  - intros m l l' Hm Hm'. pose proof Hm' as Hlt%lookup_lt_Some. rewrite length_app in Hlt. cbn in Hlt. rewrite lookup_app_l in Hm by lia.
    apply lookup_app_Some in Hm' as [Hm'|[Hge Hm']]; [by apply (v_links _ I m)|]. apply list_lookup_singleton_Some in Hm' as [E <-].
    assert (m = n) as -> by lia. rewrite cm_last in Hm. injection Hm as <-. apply cm_link.
  - intros m l Hm. apply lookup_app_Some in Hm as [Hm|[_ Hm]]; [by destruct (v_leases _ I m l Hm)|]. apply list_lookup_singleton_Some in Hm as [_ <-].
    by destruct (fw_ok _ _ _ _ _ (pv_follows _ _ _ Hprev)).
  - intros i j li lj w He Hi Hj Ha. pose proof He as (k & lk & l' & Hik & Hkj & _). apply lookup_app_Some in Hj as [Hj|[Hge Hj]].
    + pose proof Hj as Hlt%lookup_lt_Some. apply ended_app in He; [|done]. rewrite lookup_app_l in Hi by lia. by apply (v_dead _ I i j li lj).
    + apply list_lookup_singleton_Some in Hj as [E <-]. assert (j = length (y_hist y)) as -> by lia. rewrite lookup_app_l in Hi by lia. by apply (cm_dead i).
  - intros i j li He Hi. pose proof He as (k & lk & l' & Hik & Hkj & _ & _ & Hk' & _). apply lookup_lt_Some in Hk'. rewrite length_app in Hk'. cbn in Hk'.
    rewrite lookup_app_l in Hi by lia. destruct (decide (j < length (y_hist y))%nat) as [Hlt|Hge]; [apply ended_app in He; [by apply (v_revoked _ I i j)|done]|].
    apply (cm_revoked i); [|done]. destruct He as (k0 & lk0 & l0 & E1 & E2 & E3 & E4 & E5 & E6). exists k0, lk0, l0. split_and!; try done; try apply E6.
    apply lookup_lt_Some in E5. rewrite length_app in E5. cbn in E5. lia.
  - intros rq Hrq. destruct (v_requests _ I rq Hrq) as [R1 R2 R3 R4]. split; [by apply cm_follows|done|done|done].
  - intros p Hp. destruct (v_proposals _ I p Hp) as (q & [P1 P2 P3 P4]). exists q. split; [by apply cm_follows|done|done|].
    intros Et. apply (cm_stays_revoked (pp_prev p)); [apply P1|by apply P4].
Qed.

End commit.

Lemma step_commit_inv y pp id isLocal rs fr :
  sys_inv y -> pp ∈ y_proposals y -> last (y_hist y) = Some (rs_Lease rs) -> CheckForcedErr id (pp_cmd pp) isLocal rs = Ret fr -> fr_ForcedError fr = None ->
  sys_inv (y <| y_hist := y_hist y ++ [pp_lease pp] |>).
Proof.
  intros I Hin Hlast Hc Hfr. destruct (v_proposals _ I pp Hin) as (prev & P). apply CheckForcedErr_spec in Hc. rewrite bool_decide_eq_true_2 in Hc by done.
  destruct Hc as [[Hseq Hprop] _]. rewrite (pv_seq _ _ _ P) in Hseq. apply (commit_inv I Hin P Hlast Hseq).
  intros E. destruct (pv_request _ _ _ P E) as [Er Ep]. rewrite Er in Hprop. by apply Hprop.
Qed.

(** ** Reachable states *)

Lemma init_inv y : system_init SetProto y -> sys_inv y.
Proof.
  intros [Ht Hh Hdb HW [Hrq Hpp] Hst]. assert (forall k l, y_hist y !! S k <> Some l) as Hone by (rewrite Hh; by destruct k).
  assert (forall typ i j, ~ ended (y_hist y) typ i j) as Hend by (intros typ i j (k & lk & l' & _ & _ & _ & _ & Hk & _); by apply (Hone k l')).
  split; [done| | |by rewrite Hh|intros n l l' _ H; by destruct (Hone n l')|intros n l H; by destruct (Hone n l)
    |intros i j li lj w H; by destruct (Hend _ _ _ H)|intros i j li H; by destruct (Hend _ _ _ H)|rewrite Hrq; by intros rq ?%elem_of_nil|rewrite Hpp; by intros pp ?%elem_of_nil].
  - split; [done|intros c; apply HW|..].
    + intros r Hr%HW. exists r. split_and!; [done|done|lia|done|lia].
    + intros r r' Hr%HW Hr'%HW En Hlt. rewrite En, Hr' in Hr. injection Hr as Hr%SetProto_inj'. subst. lia.
  - intros id s Hs. destruct (Hst id s Hs) as (H1 & H2 & H3 & H4 & H5 & mo & H6). split; rewrite ?H6, ?H3; try done; [by rewrite Hh|].
    intros m l Hm. assert (m = O) as -> by lia. rewrite Hh. intros [= <-] E. by destruct H1.
Qed.

Lemma step_inv y y' : sys_inv y -> system_step SetProto GetProto maxOffset safe_switch y y' -> sys_inv y'.
Proof.
  intros I Hs. pose proof (li_wf _ _ _ (v_live _ I)) as Hwf. destruct Hs as [t Ht|id s thr t1 now t3 disk os old db cache err Hs Hr E
    |id s now disk os old db cache err Hs Hr He E|id s l cache Hs Hl Hc|id s now raft desc fi bp st hd status o Hs Hr Hst i Hb Hok Hsafe| | | | |].
  - by apply step_time_inv.
  - apply (heartbeat_spec SetProto GetProto GetProto_SetProto (fun r => y_written y (rec_Liveness r))) in E as (Hdb & Hwf' & Hc); [|done|apply (v_stores _ I id s Hs)].
    match goal with |- sys_inv ?z => destruct (liveness_step y z id s now db cache) as (G & Hl & Hst); try done end. by apply (keep_flight y).
  - apply (IncrementEpoch_spec SetProto GetProto GetProto_SetProto (fun r => y_written y (rec_Liveness r))) in E as (Hdb & Hwf' & Hc & _); [|done|apply (v_stores _ I id s Hs)|done].
    match goal with |- sys_inv ?z => destruct (liveness_step y z id s now db cache) as (G & Hl & Hst); try done end. by apply (keep_flight y).
  - by apply (step_gossip_inv y id s l).
  - apply (step_build_inv y id s now st status i o). by eapply step_build_ctx.
  - by eapply step_request_increment_inv.
  - by eapply step_send_request_inv.
  - by eapply step_send_transfer_inv.
  - by eapply step_commit_inv.
  - by eapply step_apply_inv.
Qed.

Lemma reachable_inv y : reachable SetProto GetProto maxOffset safe_switch y -> sys_inv y.
Proof. induction 1 as [y Hy|y y' _ IH Hs]; [by apply init_inv|by apply (step_inv y)]. Qed.

(** ** Serving requests *)

Lemma good_to_go_inv getLiveness renewal raft desc r now req st :
  Replica_leaseGoodToGo getLiveness renewal maxOffset (getLeadSupportStatus raft) desc r now req = Ret (inr st) ->
  let l := rp_Lease r in
  exists e, LeaseStatus_Expiration st = Ret e /\ e = lease_end (lst_Liveness st) (lst_LeaderSupport st) l /\ Lease_OwnedBy l (rp_StoreID r) = true /\
  ts_lt now e /\ ts_le (rp_minLeaseProposedTS r) (l_ProposedTS l) /\
  ts_lt (if Timestamp_IsEmpty req then now else req) (Timestamp_Add e (- maxOffset) 0) /\
  (l_Epoch l <> 0 -> exists rec, getLiveness (node l) = Some rec /\ lst_Liveness st = rec_Liveness rec /\ l_Epoch l <= lv_Epoch (rec_Liveness rec)) /\
  (l_Epoch l = 0 -> l_Term l <> 0 -> rls_LeadSupportUntil (lst_LeaderSupport st) = zero_ts).
Proof.
  intros E l. unfold Replica_leaseGoodToGo, leaseGoodToGoForStatus in E. apply obind_Ret in E as (st' & Hst & E).
  destruct (checkRequestTime _ _ _ _); [done|]. destruct (LeaseStatus_IsValid st') eqn:Ev; [|done]. destruct (Lease_OwnedBy (lst_Lease st') _) eqn:Eo; [|done].
  apply Ret_inj in E as [= ->]. unfold LeaseStatus_IsValid in Ev. apply bool_decide_eq_true in Ev.
  unfold Replica_leaseStatusForRequest in Hst. apply obind_Ret in Hst as (typ & Htyp & Hst). fold l in Htyp, Hst.
  destruct (leases_Status_inv _ _ _ Hst) as (El & _ & Ee & Hstate & Hep & Hld & _); [congruence|]. cbn in El, Ee, Hstate, Hep, Hld. rewrite El in Eo.
  exists (lease_end (lst_Liveness st) (lst_LeaderSupport st) l). rewrite Ev in Hstate. rewrite Eo in Hstate. cbn [andb] in Hstate.
  destruct (Timestamp_LessEq _ now) eqn:E1; [done|]. destruct (Timestamp_Less _ (rp_minLeaseProposedTS r)) eqn:E2; [done|]. destruct (Timestamp_LessEq _ _) eqn:E3 in Hstate; [done|].
  apply not_true_iff_false in E1, E3. rewrite Timestamp_LessEq_spec in E1, E3. apply Timestamp_Less_false in E2. split_and!; try done.
  - intros Ne. apply Hep. destruct (Lease_Type_cases l) as [(?&?&?)|[(?&?&?)|[(?&?&?)|(?&?&?&?)]]]; congruence.
  - intros He Nt. assert (Lease_Type l = Ret LeaseLeader) as Hty by (destruct (Lease_Type_cases l) as [(?&?&?)|[(?&?&?)|[(?&?&?)|(?&?&?&?)]]]; congruence).
    rewrite (Hld Hty Eo). rewrite Hty in Htyp. apply Ret_inj in Htyp as <-. by rewrite bool_decide_eq_true_2.
Qed.

Lemma Forward_wall t u w : WallTime t < w -> WallTime u < w -> WallTime (fst (Timestamp_Forward t u)) < w.
Proof. unfold Timestamp_Forward. by destruct (Timestamp_Less _ _). Qed.

(** A lapsed lease has ended for every replica: none sees an end from [w] on. *)
Lemma lapsed_end y s id live sup now w :
  sys_inv y -> y_stores y !! id = Some s -> let l := rp_Lease (ss_replica s) in lapsed_in y l w ->
  (l_Epoch l <> 0 -> exists rec, Cache_getLiveness (ss_cache s) (node l) = Some rec /\ live = rec_Liveness rec) ->
  (l_Epoch l = 0 -> l_Term l <> 0 -> rls_LeadSupportUntil sup = zero_ts) ->
  ts_le zero_ts now -> ts_lt now (lease_end live sup l) -> WallTime (lease_end live sup l) < w.
Proof.
  intros I Hs l Hl Hlive Hsup Hz Hnow. unfold lapsed_in, lapsed in Hl. unfold lease_end in *. destruct (l_Epoch l =? 0) eqn:Ee; bool_to_prop; cbn [negb] in *.
  - unfold fixed_end in Hl. destruct (l_Term l =? 0) eqn:Et; bool_to_prop; cbn [negb] in *; [done|]. destruct (_ =? _); [|done].
    rewrite (Hsup Ee Et) in Hnow |- *. unfold Timestamp_Forward in *. destruct (Timestamp_Less _ _); [|done]. exfalso. apply Hnow, Hz.
  - destruct Hl as (Hm & _ & Hr). destruct (_ =? _) eqn:El; bool_to_prop; [|done]. destruct (Hlive Ee) as (rec & Hrec & ->). apply Forward_wall; [done|].
    destruct (v_stores _ I id s Hs) as [_ _ S3 _ _]. destruct (S3 _ _ Hrec) as (Hn & _ & HW). by apply Hr.
Qed.


End disjoint.
