(* ===== verification/LeaseSwitch.v ===== *)
(** * Runs of the lease system

    The lease system (LeaseSystem) as a program: a list of operations that runs, and
    whose end is a reachable state. Two runs of it.

    - In the first a replica is good to serve a request although the next lease, of
      another replica, is already in the history: what the theorem on disjoint leases is
      about happens.
    - In the second a replica extends its epoch-based lease with an expiration-based one
      and is slow to apply it. Its liveness record keeps the old lease valid while the
      new one expires for the others, and both the replica and the one that acquires the
      lease then serve requests at the same timestamp. Leases are not disjoint across
      this change of type, which is why [safe_switch] rules it out elsewhere. *)

From S2P Require Import Prelude Hlc Quorum Tracker RaftPb Raft RawNode NodeLiveness Lease LeaseBuild ReadSummary LeaseApply LeaseSystem LeaseDisjoint.

Section run.
Variable maxOffset : Z.
Variable allow : BuildInput -> Lease -> Prop.
Variable allowb : BuildInput -> Lease -> bool.
Hypothesis allowb_spec : forall i l, allowb i l = true -> allow i l.

Abbreviation step := (system_step liveness_bytes bytes_liveness maxOffset allow).
Abbreviation reach := (reachable liveness_bytes bytes_liveness maxOffset allow).

(** The operations that the runs use; a request or a proposal is the latest one. *)
Inductive op : Type :=
| OTime (t : Z)
| OHeartbeat (id thr : Z) (now : Timestamp) (old : Liveness)
| OBuild (id : Z) (now : Timestamp) (raft : raft) (desc : RangeDescriptor) (st : Settings)
| OSend (desc : RangeDescriptor) (sum : ReadSummary)
| OCommit (key : string) (rs : ReplicaState)
| OApply (id : Z).

Definition readingb (y : system) (s : store_state) (now : Timestamp) : bool :=
  Timestamp_Less (ss_clock s) now && (y_time y <=? WallTime now) && (WallTime now <? y_time y + maxOffset).

(** An extension of a lease is only built from a status without error. *)
Definition request_okb (st : Settings) (status : LeaseStatus) (i : BuildInput) : bool :=
  set_MinExpirationSupported st && (0 <=? set_RangeLeaseDuration st) && (WallTime (bi_Now i) + set_RangeLeaseDuration st <=? MaxInt64) &&
  (l_Sequence (bi_PrevLease i) <? MaxUint64) && negb (bool_decide (lst_State status = ERROR)).

Definition exec (o : op) (y : system) : option system :=
  match o with
  | OTime t => if y_time y <=? t then Some (y <| y_time := t |>) else None
  | OHeartbeat id thr now old =>
    s ← y_stores y !! id;
    if readingb y s now then
      match heartbeatInternal liveness_bytes bytes_liveness thr now now now None [TxnCommit] old false (y_db y) (ss_cache s) with
      | Ret (db, cache, _) => Some (set_db liveness_bytes (set_store y id (s <| ss_cache := cache |> <| ss_clock := now |>)) db)
      | Panic _ => None
      end
    else None
  | OBuild id now raft desc st =>
    s ← y_stores y !! id;
    if readingb y s now then
      match Replica_leaseStatusForRequest (Cache_getLiveness (ss_cache s)) maxOffset (getLeadSupportStatus raft) (ss_replica s) now zero_ts with
      | Ret status =>
        let i := InitOrJoinRequest_input (ss_replica s) desc (getStatus raft) 0 status (ss_desc s) false in
        match VerifyAndBuild st (Cache_getLiveness (ss_cache s)) i with
        | Ret (inr o) =>
          if request_okb st status i && allowb i (o_NextLease o) then
            Some (set_store y id (s <| ss_clock := now |>)
              <| y_requests := mkRequest id (ss_applied s) i o (bool_decide (nm_Increment (o_NodeLivenessManipulation o) = None)) :: y_requests y |>)
          else None
        | _ => None
        end
      | Panic _ => None
      end
    else None
  | OSend desc sum =>
    rq ← head (y_requests y);
    if rq_ready rq && negb (BuildInput_Transfer (rq_in rq)) then
      match RequestLease desc sum None None (o_NextLease (rq_out rq)) (bi_PrevLease (rq_in rq)) with
      | inr res => Some (y <| y_proposals := mkProposal (rq_store rq) (rq_prev rq) (lr_Lease res)
          (lease_command false (bi_PrevLease (rq_in rq)) 0 None res) :: y_proposals y |>)
      | inl _ => None
      end
    else None
  | OCommit key rs =>
    pp ← head (y_proposals y);
    cur ← last (y_hist y);
    let rs := rs <| rs_Lease := cur |> in
    match CheckForcedErr key (pp_cmd pp) true rs with
    | Ret fr => if bool_decide (fr_ForcedError fr = None) then Some (y <| y_hist := y_hist y ++ [pp_lease pp] |>) else None
    | Panic _ => None
    end
  | OApply id =>
    s ← y_stores y !! id;
    l ← y_hist y !! S (ss_applied s);
    match leasePostApply false (rp_Lease (ss_replica s)) l None (ss_replica s) (ss_clock s) with
    | Ret (r, clock, _) => Some (set_store y id (s <| ss_replica := r |> <| ss_clock := clock |> <| ss_applied := S (ss_applied s) |>))
    | Panic _ => None
    end
  end.

Definition run (os : list op) (y : system) : option system := foldl (fun my o => y ← my; exec o y) (Some y) os.

Lemma readingb_spec y s now : readingb y s now = true -> reading maxOffset y s now.
Proof. unfold readingb, reading. intros [[H1 H2]%andb_true_iff H3]%andb_true_iff. apply Timestamp_Less_spec in H1. apply Z.leb_le in H2. apply Z.ltb_lt in H3. done. Qed.

Lemma head_elem {A} (l : list A) x : head l = Some x -> x ∈ l.
Proof. destruct l; [done|]. intros [= ->]. apply list_elem_of_here. Qed.

Lemma lease_exec_step o y y' : exec o y = Some y' -> step y y'.
Proof.
  destruct o as [t|id thr now old|id now raft desc st|desc sum|key rs|id]; cbn.
  - destruct (_ <=? _) eqn:E; [|done]. intros [= <-]. apply step_time. blia.
  - destruct (_ !! _) as [s|] eqn:Hs; [|done]. cbn. destruct (readingb y s now) eqn:Hr; [|done]. apply readingb_spec in Hr.
    destruct (heartbeatInternal _ _ _ _ _ _ _ _ _ _ _ _) as [[[db cache] err]|] eqn:E; [|done]. intros [= <-]. by eapply step_heartbeat.
  - destruct (_ !! _) as [s|] eqn:Hs; [|done]. cbn. destruct (readingb y s now) eqn:Hr; [|done]. apply readingb_spec in Hr.
    destruct (Replica_leaseStatusForRequest _ _ _ _ _ _) as [status|] eqn:Est; [|done]. set (i := InitOrJoinRequest_input _ _ _ _ _ _ _).
    destruct (VerifyAndBuild _ _ _) as [[|o]|] eqn:Eb; [done| |done]. destruct (request_okb st status i && _) eqn:Eok; [|done]. intros [= <-].
    apply andb_true_iff in Eok as [Eok Ea]. apply allowb_spec in Ea. unfold request_okb in Eok. rewrite !andb_true_iff, !Z.leb_le, Z.ltb_lt in Eok. destruct Eok as ((((E1 & E2) & E3) & E4) & E5).
    eapply (step_build _ _ _ _ _ id s now raft desc 0 false st (ss_desc s) status o); try done. split; [done|done|done|by exists id, s|]. intros _.
    by apply negb_true_iff, bool_decide_eq_false in E5.
  - destruct (head _) as [rq|] eqn:Eh; [|done]. apply head_elem in Eh. cbn. destruct (_ && _) eqn:Er; [|done]. apply andb_true_iff in Er as [E1 E2%negb_true_iff].
    destruct (RequestLease _ _ _ _ _ _) as [|res] eqn:E; [done|]. intros [= <-]. by eapply (step_send_request _ _ _ _ _ rq desc sum None None res 0 None).
  - destruct (head _) as [pp|] eqn:Eh; [|done]. apply head_elem in Eh. cbn. destruct (last _) as [cur|] eqn:El; [|done]. cbn.
    destruct (CheckForcedErr _ _ _ _) as [fr|] eqn:Ec; [|done]. case_bool_decide; [|done]. intros [= <-]. by apply (step_commit _ _ _ _ _ pp key true (rs <| rs_Lease := cur |>) fr).
  - destruct (y_stores y !! id) as [s|] eqn:Hs; [|done]. cbn. destruct (y_hist y !! _) as [l|] eqn:Hl; [|done]. cbn.
    destruct (leasePostApply _ _ _ _ _ _) as [[[r clock] sum]|] eqn:E; [|done]. intros [= <-]. by eapply step_apply.
Qed.

(** What runs is reachable. *)
Lemma run_reachable os y y' : reach y -> run os y = Some y' -> reach y'.
Proof.
  unfold run. revert y. induction os as [|o os IH]; intros y Hy; cbn; [by intros [= <-]|].
  destruct (exec o y) as [y1|] eqn:E; [|by replace (foldl _ None os) with (@None system) by (clear; by induction os)].
  apply IH. apply (reach_step _ _ _ _ y); [done|by apply (lease_exec_step o)].
Qed.

Definition ran (os : list op) (y : system) : system := default y (run os y).

Lemma ran_reachable os y : reach y -> is_Some (run os y) -> reach (ran os y).
Proof. unfold ran. intros Hy [y' E]. rewrite E. by apply (run_reachable os y). Qed.

End run.

(** ** The runs *)

Abbreviation ts := (fun w => mkTimestamp w 0).

Definition desc1 : ReplicaDescriptor := mkReplicaDescriptor 1 1 1 VOTER_FULL.
Definition desc2 : ReplicaDescriptor := mkReplicaDescriptor 2 2 2 VOTER_FULL.
Definition range_desc : RangeDescriptor := mkRangeDescriptor 1 [desc1; desc2].

(** The liveness record of a node, in its first epoch. *)
Definition liveness0 (n : Z) : Liveness := mkLiveness n 1 (ts 50) false ACTIVE.

Definition cache0 (self : Z) : Cache :=
  mkCache self ∅ (list_to_map ((fun n => (n, mkRecord (liveness0 n) (liveness_bytes (liveness0 n)))) <$> [1; 2])).

Definition store0 (d : ReplicaDescriptor) : store_state :=
  mkStoreState d (mkReplica (rd_StoreID d) (rd_ReplicaID d) empty_Lease zero_ts zero_ts) (ts 1) (cache0 (rd_NodeID d)) 0.

Definition db0 : gmap Z bytes := list_to_map ((fun n => (n, liveness_bytes (liveness0 n))) <$> [1; 2]).

Definition system0 : system :=
  mkSys 2 (list_to_map [(1, store0 desc1); (2, store0 desc2)]) [empty_Lease] db0 (fun l => db0 !! lv_NodeID l = Some (liveness_bytes l)) [] [].

Definition settings (useExpiration : bool) : Settings := mkSettings useExpiration true false false false false true true 100.

Definition applied_state : ReplicaState := mkReplicaState 10 5 range_desc empty_Lease zero_ts zero_ts.

(** Acquire or extend the lease, up to its commit. *)
Definition acquire (id w : Z) (useExpiration : bool) : list op :=
  [OBuild id (ts w) example_raft range_desc (settings useExpiration); OSend range_desc (FromTimestamp zero_ts); OCommit "cmd" applied_state].

Definition store (y : system) (id : Z) : store_state := default (store0 desc1) (y_stores y !! id).

Ltac each_entry := repeat (apply map_Forall_insert_2); [..|apply map_Forall_empty].

Lemma system0_init : system_init liveness_bytes system0.
Proof.
  assert (forall n, n = 1 \/ n = 2 -> db0 !! n = Some (liveness_bytes (liveness0 n))) as Hdb by (by intros n [->| ->]).
  split; [done|done| |done|done|].
  - each_entry; by eexists.
  - each_entry; (split_and!; [done|done|done|by apply Timestamp_LessEq_spec| |by eexists]); each_entry; (split_and!; [done|done|apply Hdb; tauto]).
Qed.

(** An expiration-based lease, of the first replica, and the one that the second, whose
    clock is ahead, acquires when it has expired. *)
Definition acquired : system :=
  ran 10 (fun i _ => negb (BuildInput_Extension i)) (acquire 1 5 true ++ [OApply 1; OApply 2; OTime 100] ++ acquire 2 106 true) system0.

Lemma acquired_reachable : reachable liveness_bytes bytes_liveness 10 safe_switch acquired.
Proof.
  apply ran_reachable; [|by apply reach_init, system0_init|by vm_compute; eexists].
  intros i l E Hx. by rewrite Hx in E.
Qed.


(** An epoch-based lease of the first replica, and its extension to an expiration-based
    one, which only the second replica applies. The first heartbeats its liveness record;
    the second acquires the lease when the expiration has passed. *)
Definition switched : system :=
  ran 10 (fun _ _ => true)
    (acquire 1 5 false ++ [OApply 1; OApply 2; OTime 20] ++ acquire 1 20 true ++
     [OApply 2; OTime 40; OHeartbeat 1 100 (ts 45) (liveness0 1); OTime 130] ++ acquire 2 131 true ++ [OApply 2]) system0.

Lemma switched_reachable : reachable liveness_bytes bytes_liveness 10 (fun _ _ => True) switched.
Proof. apply ran_reachable; [done| |by vm_compute; eexists]. apply reach_init, system0_init. Qed.

(** The replica with the given store serves a request at [req], at the reading [now]. *)
Definition serves (y : system) (id : Z) (now req : Timestamp) : Prop :=
  exists s st, y_stores y !! id = Some s /\ reading 10 y s now /\
    Replica_leaseGoodToGo (Cache_getLiveness (ss_cache s)) 50 10 (getLeadSupportStatus example_raft) range_desc (ss_replica s) now req = Ret (inr st).

(** C22. Leases are not disjoint across the extension of an epoch-based lease with an
    expiration-based one. In a reachable state two replicas, each at a reading of its
    clock, are good to serve a request at the same timestamp, which is after the start of
    the lease of the second. *)
Theorem lease_switch_unsafe :
  reachable liveness_bytes bytes_liveness 10 (fun _ _ => True) switched /\
  serves switched 1 (ts 135) (ts 132) /\ serves switched 2 (ts 135) (ts 132) /\
  ts_lt (l_Start (rp_Lease (ss_replica (store switched 2)))) (ts 132).
Proof.
  split; [apply switched_reachable|]. split_and!; [..|by apply Timestamp_Less_spec; vm_compute].
  - exists (store switched 1). eexists. split; [by vm_compute|]. split; [by apply readingb_spec; vm_compute|]. by vm_compute.
  - exists (store switched 2). eexists. split; [by vm_compute|]. split; [by apply readingb_spec; vm_compute|]. by vm_compute.
Qed.
