(* ===== verification/TsCache.v ===== *)
(** * The timestamp cache (src/pkg/kv/kvserver/tscache)

    The cache of the timestamps of reads: skip lists of keys and of the gaps between
    them ([sklPage], interval_skl.go), the pages that rotate when one is full
    ([intervalSkl]) and the cache in front of them ([sklImpl], skl_impl.go).

    The lock-free skip list in an arena is a package that the source only calls
    (arenaskl): a class gives its operations, and TsCachePage the laws that the cache
    relies on. Operations run one at a time here, so its errors for races are left out;
    what is kept is that an arena can be full at any allocation, which leaves nodes
    uninitialized for good. A visitor function is the list of its calls; readings of the
    clock are arguments; metrics and log messages are left out. *)

From S2P Require Import Prelude Hlc Encoding EncodingOrder Keys KeysOrder ReadSummary.

(** ** Values (cache.go) *)

Abbreviation cacheValue := readSpanVal (only parsing).

Definition noTxnID : UUID := uuid_Nil.

Definition zero_value : cacheValue := mkReadSpanVal (mkTimestamp 0 0) noTxnID.

Definition ratchetValue (old new : cacheValue) : cacheValue * bool :=
  if Timestamp_Less (rv_ts old) (rv_ts new) then (new, true)
  else if Timestamp_Less (rv_ts new) (rv_ts old) then (old, false)
  else if negb (bool_decide (rv_txnID new = rv_txnID old)) then
    (mkReadSpanVal (rv_ts new) noTxnID, negb (bool_decide (rv_txnID old = noTxnID)))
  else (old, false).

(** ** Options (interval_skl.go) *)

(** The bit flags of [rangeOptions] and [nodeOptions]. *)
Record rangeOptions : Type := mkRangeOptions { excludeFrom : bool; excludeTo : bool }.

#[global] Instance eta_rangeOptions : Eta rangeOptions := fun o => mkRangeOptions (excludeFrom o) (excludeTo o).

Definition no_range_options : rangeOptions := mkRangeOptions false false.

Record nodeOptions : Type := mkNodeOptions { no_initialized : bool; no_cantInit : bool; no_hasKey : bool; no_hasGap : bool }.

#[global] Instance eta_nodeOptions : Eta nodeOptions := fun o => mkNodeOptions (no_initialized o) (no_cantInit o) (no_hasKey o) (no_hasGap o).
#[global] Instance nodeOptions_eq_dec : EqDecision nodeOptions.
Proof. solve_decision. Defined.

Definition no_options : nodeOptions := mkNodeOptions false false false false.
Definition hasKey : nodeOptions := mkNodeOptions false false true false.
Definition hasGap : nodeOptions := mkNodeOptions false false false true.
Definition hasKeyGap : nodeOptions := mkNodeOptions false false true true.

Definition initialSklPageSize : Z := 131072.
Definition maximumSklPageSize : Z := 33554432.
Definition defaultMinSklPages : Z := 2.

(** ** Value sets *)

(** The encoding copies the memory of the values: the bytes of a set are its values. *)
Definition decodeValue (b : list cacheValue) : list cacheValue * cacheValue := (tail b, default zero_value (head b)).
Definition encodeValue (b : list cacheValue) (val : cacheValue) : list cacheValue := b ++ [val].

Definition decodeValueSet (b : list cacheValue) (meta : nodeOptions) : cacheValue * cacheValue :=
  let '(b, keyVal) := if no_hasKey meta then decodeValue b else (b, zero_value) in
  let gapVal := if no_hasGap meta then snd (decodeValue b) else zero_value in
  (keyVal, gapVal).

Definition encodeValueSet (keyVal gapVal : cacheValue) : list cacheValue * nodeOptions :=
  let '(b, meta) := if negb (Timestamp_IsEmpty (rv_ts keyVal)) then (encodeValue [] keyVal, hasKey) else ([], no_options) in
  if negb (Timestamp_IsEmpty (rv_ts gapVal)) then (encodeValue b gapVal, meta <| no_hasGap := true |>) else (b, meta).

(** ** The skip list *)

Record skl_node : Type := mkNode { n_key : buffer; n_value : list cacheValue; n_meta : nodeOptions }.

Definition n_values (n : skl_node) : cacheValue * cacheValue := decodeValueSet (n_value n) (n_meta n).

(** What the cache uses of arenaskl: the nodes of a list in the order of their keys, and
    the space that is used of its arena. [None] is the error for a full arena. *)
Class Arenaskl (L : Type) : Type := {
  MaxNodeSize : Z;
  initialSklAllocSize : Z;
  encodedValSize : Z;
  skl_new : Z -> L;
  skl_nodes : L -> list skl_node;
  skl_cap : L -> Z;
  skl_used : L -> Z;
  skl_Add : buffer -> list cacheValue -> nodeOptions -> L -> option L;
  skl_Set : buffer -> list cacheValue -> nodeOptions -> L -> option L;
  skl_SetMeta : buffer -> nodeOptions -> L -> L
}.

Section tscache.
Context {L : Type} `{Arenaskl L}.

(** An iterator is the key of the node it is on, if it is valid. *)
Abbreviation Iterator := (option buffer) (only parsing).

Definition it_Seek (l : L) (key : buffer) : Iterator := n_key <$> head (filter (fun n => bytes_le key (n_key n)) (skl_nodes l)).
Definition it_SeekForPrev (l : L) (key : buffer) : Iterator := n_key <$> last (filter (fun n => bytes_le (n_key n) key) (skl_nodes l)).
Definition it_SeekToFirst (l : L) : Iterator := n_key <$> head (skl_nodes l).
Definition it_Next (l : L) (key : buffer) : Iterator := n_key <$> head (filter (fun n => bytes_lt key (n_key n)) (skl_nodes l)).
Definition it_Prev (l : L) (key : buffer) : Iterator := n_key <$> last (filter (fun n => bytes_lt (n_key n) key) (skl_nodes l)).

(** The node an iterator is on. *)
Definition it_node (l : L) (key : buffer) : skl_node :=
  default (mkNode key [] no_options) (head (filter (fun n => n_key n = key) (skl_nodes l))).

(** ** Pages *)

Record sklPage : Type := mkPage { pg_list : L; pg_maxWallTime : Z; pg_isFull : bool }.

#[global] Instance eta_sklPage : Eta sklPage := fun p => mkPage (pg_list p) (pg_maxWallTime p) (pg_isFull p).

Definition newSklPage (size : Z) : sklPage := mkPage (skl_new size) 0 false.

Definition ratchetMaxTimestamp (ts : Timestamp) (p : sklPage) : sklPage :=
  let new := WallTime ts in
  let new := if Logical ts >? 0 then int64 (new + 1) else new in
  if new <=? pg_maxWallTime p then p else p <| pg_maxWallTime := new |>.

Definition getMaxTimestamp (p : sklPage) : Timestamp := mkTimestamp (pg_maxWallTime p) 0.

Inductive ratchetPolicy : Set := always | onlyIfUninitialized.

#[global] Instance ratchetPolicy_eq_dec : EqDecision ratchetPolicy.
Proof. solve_decision. Defined.

(** The result says whether the arena was full. *)
Definition ratchetValueSet (key : buffer) (policy : ratchetPolicy) (keyVal gapVal : cacheValue) (setInit : bool) (p : sklPage) : sklPage * bool :=
  let n := it_node (pg_list p) key in
  let meta := n_meta n in
  let inited := no_initialized meta in
  if inited && bool_decide (policy = onlyIfUninitialized) then (p, false)
  else if no_cantInit meta then (p, true)
  else
    let updateInit := setInit && negb inited in
    let newMeta := if updateInit then meta <| no_initialized := true |> else meta in
    let '(oldKeyVal, oldGapVal) := decodeValueSet (n_value n) meta in
    let '(keyVal, keyValUpdate) := ratchetValue oldKeyVal keyVal in
    let '(gapVal, gapValUpdate) := ratchetValue oldGapVal gapVal in
    if keyValUpdate || gapValUpdate then
      let maxTs := fst (Timestamp_Forward (rv_ts keyVal) (rv_ts gapVal)) in
      let p := ratchetMaxTimestamp maxTs p in
      let '(b, valMeta) := encodeValueSet keyVal gapVal in
      let newMeta := newMeta <| no_hasKey := no_hasKey valMeta |> <| no_hasGap := no_hasGap valMeta |> in
      match skl_Set key b newMeta (pg_list p) with
      | Some l => (p <| pg_list := l |>, false)
      | None =>
        let p := p <| pg_isFull := true |> in
        (if negb inited && negb (no_cantInit meta) then p <| pg_list := skl_SetMeta key (meta <| no_cantInit := true |>) (pg_list p) |> else p, true)
      end
    else if updateInit then (p <| pg_list := skl_SetMeta key newMeta (pg_list p) |>, false)
    else (p, false).

(** A call of a visitor. *)
Record visit : Type := mkVisit { vs_key : buffer; vs_val : cacheValue; vs_opt : nodeOptions }.

(** The fuel bounds the nodes that are left. *)
Fixpoint scanTo_loop (fuel : nat) (to : option buffer) (opt : rangeOptions) (it : Iterator) (prevGapVal : cacheValue) (first : bool)
    (calls : list visit) (p : sklPage) : sklPage * Iterator * cacheValue * list visit :=
  match fuel, it with
  | S fuel, Some key =>
    let toCmp := match to with Some to => bytes_Compare key to | None => -1 end in
    if (toCmp >? 0) || ((toCmp =? 0) && excludeTo opt) then (p, it, prevGapVal, calls)
    else
      let '(p, ratchetErr) := ratchetValueSet key onlyIfUninitialized prevGapVal prevGapVal false p in
      let '(keyVal, gapVal) := n_values (it_node (pg_list p) key) in
      let '(keyVal, gapVal) :=
        if ratchetErr then (fst (ratchetValue keyVal prevGapVal), fst (ratchetValue gapVal prevGapVal)) else (keyVal, gapVal) in
      let calls := if negb (first && excludeFrom opt) then calls ++ [mkVisit key keyVal hasKey] else calls in
      if toCmp =? 0 then (p, it, prevGapVal, calls)
      else scanTo_loop fuel to opt (it_Next (pg_list p) key) gapVal false (calls ++ [mkVisit key gapVal hasGap]) p
  | _, _ => (p, it, prevGapVal, calls)
  end.

Definition scanTo (it : Iterator) (to : option buffer) (opt : rangeOptions) (initGapVal : cacheValue) (p : sklPage) :
    sklPage * Iterator * cacheValue * list visit :=
  scanTo_loop (S (length (skl_nodes (pg_list p)))) to opt it initGapVal true [] p.

Fixpoint prevInitNode_loop (fuel : nat) (l : L) (it : Iterator) : Iterator :=
  match fuel, it with
  | S fuel, Some key => if no_initialized (n_meta (it_node l key)) then it else prevInitNode_loop fuel l (it_Prev l key)
  | _, _ => it_SeekToFirst l
  end.

Definition prevInitNode (l : L) (it : Iterator) : Iterator := prevInitNode_loop (S (length (skl_nodes l))) l it.

(** The page, the iterator and the gap value. *)
Definition incomingGapVal (it : Iterator) (key : buffer) (p : sklPage) : sklPage * Iterator * cacheValue :=
  let it := prevInitNode (pg_list p) it in
  let '(p, it, prevGapVal, _) := scanTo it (Some key) no_range_options zero_value p in
  (p, it, prevGapVal).

(** [key] is where the iterator is when it is done. *)
Definition ensureInitialized (it : Iterator) (key : buffer) (p : sklPage) : sklPage * Iterator * bool :=
  let '(p, it, prevGapVal) := incomingGapVal it key p in
  let '(p, full) := ratchetValueSet key onlyIfUninitialized prevGapVal prevGapVal true p in
  (p, it, full).

Definition addNode (key : buffer) (val : cacheValue) (opt : nodeOptions) (mustInit : bool) (p : sklPage) : sklPage * Iterator * bool :=
  let keyVal := if no_hasKey opt then val else zero_value in
  let gapVal := if no_hasGap opt then val else zero_value in
  let ratchetExisting (p : sklPage) (it : Iterator) :=
    let '(p, it, full) :=
      if negb (no_initialized (n_meta (it_node (pg_list p) key))) && mustInit then ensureInitialized it key p else (p, it, false) in
    if full then (p, it, true)
    else if bool_decide (opt = no_options) then (p, it, false)
    else let '(p, full) := ratchetValueSet key always keyVal gapVal false p in (p, it, full) in
  let it := it_SeekForPrev (pg_list p) key in
  if bool_decide (it = Some key) then ratchetExisting p it
  else
    let '(p, it, prevGapVal) := incomingGapVal it key p in
    if bool_decide (it = Some key) then ratchetExisting p it
    else if negb (snd (ratchetValue prevGapVal val)) then (p, it, false)
    else
      let p := ratchetMaxTimestamp (rv_ts val) p in
      let '(b, meta) := encodeValueSet keyVal gapVal in
      match skl_Add key b meta (pg_list p) with
      | None => (p <| pg_isFull := true |>, it, true)
      | Some l => ensureInitialized (Some key) key (p <| pg_list := l |>)
      end.

(** Whether the scan reached its end. *)
Fixpoint ensureFloorValue_loop (fuel : nat) (it : Iterator) (to : option buffer) (val : cacheValue) (p : sklPage) : sklPage * bool :=
  match fuel, it with
  | S fuel, Some key =>
    if match to with Some to => bytes_Compare key to >=? 0 | None => false end then (p, true)
    else if pg_isFull p then (p, false)
    else
      let '(p, full) := ratchetValueSet key always val val false p in
      if full then (p, false) else ensureFloorValue_loop fuel (it_Next (pg_list p) key) to val p
  | _, _ => (p, true)
  end.

Definition ensureFloorValue (it : Iterator) (to : option buffer) (val : cacheValue) (p : sklPage) : sklPage * bool :=
  ensureFloorValue_loop (S (length (skl_nodes (pg_list p)))) it to val p.

(** The range of a lookup, with a single key made explicit; [None] if it is empty. *)
Definition visit_bounds (from to : option buffer) (opt : rangeOptions) : option (buffer * option buffer * rangeOptions) :=
  match to with
  | None => Some (default [] from, None, opt)
  | Some to =>
    let cmp := match from with Some from => bytes_Compare from to | None => 0 end in
    if cmp >? 0 then None
    else if cmp =? 0 then if excludeFrom opt && excludeTo opt then None else Some (to, Some to, no_range_options)
    else Some (default [] from, Some to, opt)
  end.

Definition visitRange (from to : option buffer) (opt : rangeOptions) (p : sklPage) : sklPage * list visit :=
  match visit_bounds from to opt with
  | None => (p, [])
  | Some (from, to, opt) =>
    let it := it_SeekForPrev (pg_list p) from in
    let '(p, it, prevGapVal) := incomingGapVal it from p in
    match it with
    | None => (p, [mkVisit from prevGapVal hasKeyGap])
    | Some key =>
      let '(calls, prevGapVal, opt) :=
        if bool_decide (key = from) then
          ([], if no_initialized (n_meta (it_node (pg_list p) key)) then zero_value else prevGapVal, opt)
        else ([mkVisit from prevGapVal hasKeyGap], prevGapVal, opt <| excludeFrom := false |>) in
      let '(p, _, _, calls') := scanTo it to opt prevGapVal p in
      (p, calls ++ calls')
    end
  end.

Definition page_lookupTimestampRange (from to : option buffer) (opt : rangeOptions) (p : sklPage) : sklPage * cacheValue :=
  let '(p, calls) := visitRange from to opt p in
  (p, foldl (fun maxVal c => fst (ratchetValue maxVal (vs_val c))) zero_value calls).

(** ** Serializing a page *)

(** The state of the visitor: the segment, the last span without its end, and its
    options. *)
Record serializer : Type := mkSerializer { sz_seg : Segment; sz_lastSpan : ReadSpan; sz_lastOpts : nodeOptions }.

#[global] Instance eta_serializer : Eta serializer := fun z => mkSerializer (sz_seg z) (sz_lastSpan z) (sz_lastOpts z).

Definition empty_ReadSpan : ReadSpan := mkSpan [] [] zero_value.

Definition flushLastSpan (assertEnabled : bool) (endKey : buffer) (z : serializer) : outcome serializer :=
  let! seg := Segment_AddReadSpan assertEnabled (sz_seg z) (mkSpan (sp_key (sz_lastSpan z)) endKey (sp_value (sz_lastSpan z))) in
  Ret (mkSerializer seg empty_ReadSpan no_options).

Definition serialize_new (key : buffer) (val : cacheValue) (opt : nodeOptions) (z : serializer) : serializer :=
  if negb (Timestamp_IsEmpty (rv_ts val)) then
    z <| sz_lastSpan := mkSpan (if negb (no_hasKey opt) then BytesNext key else key) [] val |> <| sz_lastOpts := opt |>
  else z.

Definition serialize_visit (assertEnabled : bool) (z : serializer) (c : visit) : outcome serializer :=
  let key := vs_key c in
  let lastSpan := sz_lastSpan z in
  let lastOpts := sz_lastOpts z in
  if no_hasGap lastOpts then
    let! z :=
      if bool_decide (sp_key lastSpan = key) then
        if negb (bool_decide (lastOpts = hasGap)) then Panic "unexpected same key as previous read span"
        else Ret (z <| sz_lastSpan := empty_ReadSpan |> <| sz_lastOpts := no_options |>)
      else flushLastSpan assertEnabled key z in
    Ret (serialize_new key (vs_val c) (vs_opt c) z)
  else if bool_decide (lastOpts = hasKey) then
    let sameSpan := bool_decide (sp_key lastSpan = key) && bool_decide (sp_value lastSpan = vs_val c) in
    if sameSpan then
      if negb (bool_decide (vs_opt c = hasGap)) then Panic "expected gap value after key value for same read span"
      else Ret (z <| sz_lastOpts := hasKeyGap |>)
    else
      let! z := flushLastSpan assertEnabled [] z in
      Ret (serialize_new key (vs_val c) (vs_opt c) z)
  else if negb (bool_decide (lastOpts = no_options)) then Panic "unexpected"
  else Ret (serialize_new key (vs_val c) (vs_opt c) z).

Fixpoint serialize_visits (assertEnabled : bool) (z : serializer) (calls : list visit) : outcome serializer :=
  match calls with
  | [] => Ret z
  | c :: calls => let! z := serialize_visit assertEnabled z c in serialize_visits assertEnabled z calls
  end.

Definition page_serialize (assertEnabled : bool) (from to : option buffer) (p : sklPage) : sklPage * outcome Segment :=
  let '(p, calls) := visitRange from to (mkRangeOptions false true) p in
  (p,
   let z := mkSerializer (mkSegment (mkTimestamp 0 0) []) empty_ReadSpan no_options in
   let! z := serialize_visits assertEnabled z calls in
   let! z := serialize_visit assertEnabled z (mkVisit (default [] to) zero_value hasKey) in
   Ret (sz_seg z)).

(** ** The interval skip list *)

Record intervalSkl : Type := mkSkl {
  is_minRet : Z;
  is_pageSize : Z;
  is_pageSizeFixed : bool;
  is_pages : list sklPage;
  is_minPages : Z;
  is_floorTS : Timestamp
}.

#[global] Instance eta_intervalSkl : Eta intervalSkl := fun s =>
  mkSkl (is_minRet s) (is_pageSize s) (is_pageSizeFixed s) (is_pages s) (is_minPages s) (is_floorTS s).

Definition nextPageSize (s : intervalSkl) : intervalSkl * Z :=
  if is_pageSizeFixed s || (is_pageSize s =? maximumSklPageSize) then (s, is_pageSize s)
  else
    let size := (is_pageSize s * 2) mod 4294967296 in
    let size := if size >? maximumSklPageSize then maximumSklPageSize else size in
    (s <| is_pageSize := size |>, size).

Definition maximumPageSize (s : intervalSkl) : Z := if is_pageSizeFixed s then is_pageSize s else maximumSklPageSize.

(** An arena that is used again has been reset, so its list is a new one. *)
Definition pushNewPage (maxWallTime : Z) (s : intervalSkl) : intervalSkl :=
  let '(s, size) := nextPageSize s in
  s <| is_pages := newSklPage size <| pg_maxWallTime := maxWallTime |> :: is_pages s |>.

Definition newIntervalSkl (minRet : Z) : intervalSkl :=
  pushNewPage 0 (mkSkl minRet (initialSklPageSize / 2) false [] defaultMinSklPages (mkTimestamp 0 0)).

Definition encodedRangeSize (from to : option buffer) (opt : rangeOptions) : Z :=
  let vals := 1 in
  let vals := if negb (excludeTo opt) then vals + 1 else vals in
  let vals := if negb (excludeFrom opt) then vals + 1 else vals in
  len (default [] from) + len (default [] to) + vals * encodedValSize + 2 * MaxNodeSize.

(** Evicts pages from the back, which is the head here. *)
Fixpoint evict_loop (minTSToRetain : Timestamp) (minPages : Z) (floorTS : Timestamp) (back : list sklPage) : Timestamp * list sklPage :=
  match back with
  | [] => (floorTS, [])
  | bp :: back' =>
    if len back >=? minPages then
      if Timestamp_LessEq minTSToRetain (getMaxTimestamp bp) then (floorTS, back)
      else evict_loop minTSToRetain minPages (fst (Timestamp_Forward floorTS (getMaxTimestamp bp))) back'
    else (floorTS, back)
  end.

(** [now] is the reading of the clock, if there is one. *)
Definition rotatePages (now : option Timestamp) (s : intervalSkl) : intervalSkl :=
  match is_pages s with
  | [] => s
  | fp :: _ =>
    let minTSToRetain := match now with Some now => Timestamp_Add now (- is_minRet s) 0 | None => mkTimestamp MaxInt64 MaxInt32 end in
    let '(floorTS, back) := evict_loop minTSToRetain (is_minPages s) (is_floorTS s) (reverse (is_pages s)) in
    pushNewPage (pg_maxWallTime fp) (s <| is_floorTS := floorTS |> <| is_pages := reverse back |>)
  end.

(** What [addRange] does to the front page, and whether that filled it. *)
Definition page_addRange (from to : option buffer) (opt : rangeOptions) (val : cacheValue) (fp : sklPage) : sklPage * bool :=
  let '(fp, full) :=
    match to with
    | None => (fp, false)
    | Some to =>
      let '(fp, _, full) := addNode to val (if negb (excludeTo opt) then hasKey else no_options) true fp in (fp, full)
    end in
  if full then (fp, true)
  else
    match from with
    | None => (fp, false)
    | Some from =>
      let '(fp, it, full) := addNode from val (if negb (excludeFrom opt) then hasKeyGap else hasGap) false fp in
      if full then (fp, true)
      else
        let it :=
          if negb (bool_decide (it = Some from)) then
            let it := it_Seek (pg_list fp) from in
            if bool_decide (it = Some from) then it_Next (pg_list fp) from else it
          else it_Next (pg_list fp) from in
        let '(fp, ok) := ensureFloorValue it to val fp in
        (fp, negb ok)
    end.

Definition addRange (from to : option buffer) (opt : rangeOptions) (val : cacheValue) (s : intervalSkl) : intervalSkl * bool :=
  if Timestamp_LessEq (rv_ts val) (is_floorTS s) then (s, false)
  else
    match is_pages s with
    | [] => (s, false)
    | fp :: rest =>
      let '(fp, full) := page_addRange from to opt val fp in
      (s <| is_pages := fp :: rest |>, full)
    end.

(** The loop of [AddRange]; [nows] are the readings of the clock, one per rotation. *)
Fixpoint AddRange_loop (fuel : nat) (nows : nat -> option Timestamp) (from to : option buffer) (opt : rangeOptions) (val : cacheValue)
    (s : intervalSkl) : option intervalSkl :=
  match fuel with
  | O => None
  | S fuel =>
    let '(s, full) := addRange from to opt val s in
    if full then AddRange_loop fuel (fun n => nows (S n)) from to opt val (rotatePages (nows O) s) else Some s
  end.

Definition AddRange (fuel : nat) (nows : nat -> option Timestamp) (from to : option buffer) (opt : rangeOptions) (val : cacheValue)
    (s : intervalSkl) : outcome (option intervalSkl) :=
  if bool_decide (from = None) && bool_decide (to = None) then Panic "from and to keys cannot be nil"
  else if encodedRangeSize from to opt >? maximumPageSize s - initialSklAllocSize then Panic "key range too large to fit in any page"
  else
    match to with
    | None => Ret (AddRange_loop fuel nows from to opt val s)
    | Some to' =>
      let cmp := match from with Some from => bytes_Compare from to' | None => 0 end in
      if cmp >? 0 then Panic "inverted range (issue #32149): key lens = [%d,%d), diff @ index %d"
      else if cmp =? 0 then
        if excludeFrom opt && excludeTo opt then Ret (Some s) else Ret (AddRange_loop fuel nows None to no_range_options val s)
      else Ret (AddRange_loop fuel nows from to opt val s)
    end.

(** [intervalSkl.Add]. *)
Definition skl_AddKey (fuel : nat) (nows : nat -> option Timestamp) (key : buffer) (val : cacheValue) (s : intervalSkl) : outcome (option intervalSkl) :=
  AddRange fuel nows None (Some key) no_range_options val s.

Fixpoint lookup_pages (from to : option buffer) (opt : rangeOptions) (val : cacheValue) (pages : list sklPage) : list sklPage * cacheValue :=
  match pages with
  | [] => ([], val)
  | p :: pages =>
    if Timestamp_Less (getMaxTimestamp p) (rv_ts val) then (p :: pages, val)
    else
      let '(p, val2) := page_lookupTimestampRange from to opt p in
      let '(pages, val) := lookup_pages from to opt (fst (ratchetValue val val2)) pages in
      (p :: pages, val)
  end.

Definition LookupTimestampRange (from to : option buffer) (opt : rangeOptions) (s : intervalSkl) : outcome (intervalSkl * cacheValue) :=
  if bool_decide (from = None) && bool_decide (to = None) then Panic "from and to keys cannot be nil"
  else
    let '(pages, val) := lookup_pages from to opt zero_value (is_pages s) in
    Ret (s <| is_pages := pages |>, fst (ratchetValue val (mkReadSpanVal (is_floorTS s) noTxnID))).

Definition LookupTimestamp (key : buffer) (s : intervalSkl) : outcome (intervalSkl * cacheValue) :=
  LookupTimestampRange None (Some key) no_range_options s.

Fixpoint serializePages_loop (assertEnabled : bool) (from to : option buffer) (floorTS : Timestamp) (pages : list sklPage) :
    outcome (list sklPage * list Segment) :=
  match pages with
  | [] => Ret ([], [])
  | p :: pages =>
    let '(p, seg) := page_serialize assertEnabled from to p in
    let! seg := seg in
    let! '(pages, segs) := serializePages_loop assertEnabled from to floorTS pages in
    Ret (p :: pages, seg <| seg_LowWater := floorTS |> :: segs)
  end.

Definition serializePages (assertEnabled : bool) (from to : option buffer) (s : intervalSkl) : outcome (intervalSkl * list Segment) :=
  let! '(pages, segs) := serializePages_loop assertEnabled from to (is_floorTS s) (is_pages s) in
  Ret (s <| is_pages := pages |>, segs).

(** [None] is a merge without enough fuel. *)
Definition skl_Serialize (assertEnabled : bool) (from to : option buffer) (s : intervalSkl) : outcome (intervalSkl * option Segment) :=
  if bool_decide (from = None) && bool_decide (to = None) then Panic "from and to keys cannot be nil"
  else
    let! '(s, segs) := serializePages assertEnabled from to s in
    Ret (s, foldl (fun merged seg => m ← merged; Segment_Merge m seg) (Some (mkSegment (mkTimestamp 0 0) [])) segs).

Definition FloorTS (s : intervalSkl) : Timestamp := is_floorTS s.

(** ** The cache (skl_impl.go) *)

Definition MinRetentionWindow : Z := 10000000000.

Definition sklImpl_clear (lowWater : Timestamp) : intervalSkl := newIntervalSkl MinRetentionWindow <| is_floorTS := lowWater |>.

Definition boundKeyLengths (start end_ : buffer) : buffer * buffer :=
  let maxKeySize := maximumSklPageSize / 32 in
  (if len start >? maxKeySize then take (Z.to_nat maxKeySize) start else start,
   if len end_ >? maxKeySize then PrefixEnd (take (Z.to_nat maxKeySize) end_) else end_).

Definition sklImpl_Add (fuel : nat) (nows : nat -> option Timestamp) (start end_ : buffer) (ts : Timestamp) (txnID : UUID) (tc : intervalSkl) :
    outcome (option intervalSkl) :=
  let '(start, end_) := boundKeyLengths start end_ in
  let val := mkReadSpanVal ts txnID in
  if len end_ =? 0 then skl_AddKey fuel nows start val tc
  else AddRange fuel nows (Some start) (Some end_) (mkRangeOptions false true) val tc.

Definition sklImpl_getLowWater (tc : intervalSkl) : Timestamp := FloorTS tc.

Definition sklImpl_GetMax (start end_ : buffer) (tc : intervalSkl) : outcome (intervalSkl * (Timestamp * UUID)) :=
  let! '(tc, val) :=
    if len end_ =? 0 then LookupTimestamp start tc else LookupTimestampRange (Some start) (Some end_) (mkRangeOptions false true) tc in
  Ret (tc, (rv_ts val, rv_txnID val)).

Definition sklImpl_Serialize (assertEnabled : bool) (start end_ : buffer) (tc : intervalSkl) : outcome (intervalSkl * option Segment) :=
  let end_ := if len end_ =? 0 then BytesNext start else end_ in
  skl_Serialize assertEnabled (Some start) (Some end_) tc.

End tscache.

Arguments sklPage L : clear implicits.
Arguments intervalSkl L : clear implicits.
