(* ===== verification/TsCachePage.v ===== *)
(** * A page of the timestamp cache

    What a page (TsCache) means: the value it gives each key, which follows from the
    key and gap values of its nodes in order, uninitialized ones included. Shown: lookups
    return it and do not change it; adding a node or a floor raises it for the keys that
    are meant and for no others, as long as the arena has space; a serialized page gives
    each key the same value. The laws that arenaskl is relied on for are a class. *)

From S2P Require Import Prelude Hlc Encoding EncodingOrder Keys KeysOrder ReadSummary TsCache.

(** ** The laws of the skip list *)

Definition sorted_nodes (ns : list skl_node) : Prop := StronglySorted (fun m n => bytes_lt (n_key m) (n_key n)) ns.

(** The nodes with one more. *)
Definition insert_node (n : skl_node) (ns : list skl_node) : list skl_node :=
  filter (fun m => bytes_lt (n_key m) (n_key n)) ns ++ n :: filter (fun m => bytes_lt (n_key n) (n_key m)) ns.

Definition set_node (n : skl_node) (ns : list skl_node) : list skl_node :=
  (fun m => if decide (n_key m = n_key n) then n else m) <$> ns.

(** [Add] allocates a node with its key and value, [Set] a value, and [SetMeta]
    nothing. The overhead of nodes is small compared to the largest page. *)
Class ArenasklLaws (L : Type) `{Arenaskl L} : Prop := {
  skl_sizes : 0 <= MaxNodeSize /\ 0 <= encodedValSize;
  skl_small : initialSklAllocSize + 3 * encodedValSize + 2 * MaxNodeSize <= maximumSklPageSize - maximumSklPageSize / 16;
  new_nodes size : skl_nodes (skl_new size) = [];
  new_space size : skl_cap (skl_new size) = size /\ skl_used (skl_new size) <= initialSklAllocSize;
  Add_nodes key b m l l' : skl_Add key b m l = Some l' -> skl_nodes l' = insert_node (mkNode key b m) (skl_nodes l);
  Add_space key b m l l' : skl_Add key b m l = Some l' -> skl_cap l' = skl_cap l /\
    skl_used l' <= skl_used l + (MaxNodeSize + len key + len b * encodedValSize);
  Add_full key b m l : skl_Add key b m l = None -> skl_cap l < skl_used l + (MaxNodeSize + len key + len b * encodedValSize);
  Set_nodes key b m l l' : skl_Set key b m l = Some l' -> skl_nodes l' = set_node (mkNode key b m) (skl_nodes l);
  Set_space key b m l l' : skl_Set key b m l = Some l' -> skl_cap l' = skl_cap l /\ skl_used l' <= skl_used l + len b * encodedValSize;
  SetMeta_nodes key m l : skl_nodes (skl_SetMeta key m l) =
    (fun n => if decide (n_key n = key) then mkNode key (n_value n) m else n) <$> skl_nodes l;
  SetMeta_space key m l : skl_cap (skl_SetMeta key m l) = skl_cap l /\ skl_used (skl_SetMeta key m l) = skl_used l
}.

(** ** Values *)

Lemma ratchetValue_fst old new : fst (ratchetValue old new) = ratchet old new.
Proof.
  unfold ratchetValue. destruct old as [t x], new as [u y]. cbn. unfold readSpanVal_ratchet, noTxnID. cbn.
  destruct (Timestamp_Less_cases t u) as [[E1 E2]|[[E1 E2]|(-> & E1 & E2)]]; rewrite ?E1, ?E2; [done|done|].
  repeat case_bool_decide; cbn; congruence.
Qed.

(** The flag says whether the value changed. *)
Lemma ratchetValue_snd old new : snd (ratchetValue old new) = false <-> ratchet old new = old.
Proof.
  rewrite <- ratchetValue_fst. unfold ratchetValue. destruct old as [t x], new as [u y]. cbn. unfold noTxnID.
  destruct (Timestamp_Less_cases t u) as [[E1 E2]|[[E1 E2]|(-> & E1 & E2)]]; rewrite ?E1, ?E2; cbn.
  - split; [done|]. intros [= -> ->]. congruence.
  - done.
  - repeat case_bool_decide; cbn; split; congruence.
Qed.

Lemma ratchet_old_le old new : ratchet old new = old <-> val_le new old.
Proof. unfold val_le. by rewrite ratchet_comm. Qed.

(** Values that are zero or have a time after zero. *)
Definition pos (v : readSpanVal) : Prop := val_le zero_value v.

Lemma pos_zero : pos zero_value.
Proof. apply val_le_refl. Qed.

Lemma pos_ratchet v w : pos v -> pos (ratchet v w).
Proof. intros Hv. apply (val_le_trans _ v); [done|apply val_le_l]. Qed.

Lemma pos_after v : ts_lt (mkTimestamp 0 0) (rv_ts v) -> pos v.
Proof. intros Hlt. unfold pos, val_le. cbn. unfold readSpanVal_ratchet. cbn [rv_ts]. by rewrite (proj2 (Timestamp_Less_spec _ _)). Qed.

Lemma pos_empty v : pos v -> Timestamp_IsEmpty (rv_ts v) = bool_decide (v = zero_value).
Proof.
  intros Hv. unfold Timestamp_IsEmpty. destruct v as [t x]. cbn. unfold pos, val_le in Hv. cbn in Hv. unfold readSpanVal_ratchet in Hv. cbn in Hv.
  apply bool_decide_ext. split; [|by intros [= -> ->]]. intros ->.
  destruct (Timestamp_Less_cases (mkTimestamp 0 0) (mkTimestamp 0 0)) as [[E1 E2]|[[E1 E2]|(_ & E1 & E2)]]; [congruence|congruence|].
  rewrite E1 in Hv. case_bool_decide; congruence.
Qed.

Lemma pos_ts v : pos v -> ts_le (mkTimestamp 0 0) (rv_ts v).
Proof.
  unfold pos, val_le. cbn. unfold readSpanVal_ratchet. cbn [rv_ts zero_value]. destruct v as [t x]. cbn.
  destruct (Timestamp_Less (mkTimestamp 0 0) t) eqn:E1; [intros _; apply Timestamp_Less_spec in E1; destruct (total ts_le (mkTimestamp 0 0) t); done|].
  destruct (Timestamp_Less t _) eqn:E2; [intros [= <- _]; reflexivity|]. intros _. by apply Timestamp_Less_false.
Qed.

Lemma val_le_ts v w : val_le v w -> ts_le (rv_ts v) (rv_ts w).
Proof.
  unfold val_le. cbn. unfold readSpanVal_ratchet. destruct v as [t x], w as [u y]. cbn.
  destruct (Timestamp_Less t u) eqn:E1; [intros _; apply Timestamp_Less_spec in E1; destruct (total ts_le t u); done|].
  destruct (Timestamp_Less u t) eqn:E2; [by intros [= -> _]|]. intros _. by apply Timestamp_Less_false.
Qed.

Lemma ratchet_ts v w t : ts_le (rv_ts v) t -> ts_le (rv_ts w) t -> ts_le (rv_ts (ratchet v w)) t.
Proof. cbn. unfold readSpanVal_ratchet. repeat case_match; by cbn. Qed.

(** A value set is decoded as it was encoded. *)
Lemma decode_encode kv gv m : pos kv -> pos gv ->
  no_hasKey m = no_hasKey (snd (encodeValueSet kv gv)) -> no_hasGap m = no_hasGap (snd (encodeValueSet kv gv)) ->
  decodeValueSet (fst (encodeValueSet kv gv)) m = (kv, gv).
Proof.
  intros Hk Hg. unfold encodeValueSet, decodeValueSet. rewrite (pos_empty kv), (pos_empty gv) by done.
  do 2 case_bool_decide; cbn; intros -> ->; cbn; by subst.
Qed.

(** ** Sorted nodes *)

Lemma bytes_Compare_refl k : bytes_Compare k k = 0.
Proof. by apply bytes_Compare_spec. Qed.

Definition below (k : buffer) (n : skl_node) : Prop := bytes_lt (n_key n) k.
Definition beyond (k : buffer) (n : skl_node) : Prop := bytes_lt k (n_key n).

Lemma sorted_split pre n post : sorted_nodes (pre ++ n :: post) ->
  Forall (below (n_key n)) pre /\ Forall (beyond (n_key n)) post /\ sorted_nodes pre /\ sorted_nodes post.
Proof.
  unfold sorted_nodes. induction pre as [|m pre IH]; cbn; intros Hs; apply StronglySorted_inv in Hs as [Hs Hm].
  - split_and!; [done|done|constructor|done].
  - destruct (IH Hs) as (H1 & H2 & H3 & H4). apply Forall_app in Hm as [Hm1 Hm2]. apply Forall_cons in Hm2 as [Hm2 _].
    split_and!; [by constructor|done|by constructor|done].
Qed.

Lemma sorted_glue pre n post : sorted_nodes pre -> sorted_nodes post -> Forall (below (n_key n)) pre -> Forall (beyond (n_key n)) post ->
  sorted_nodes (pre ++ n :: post).
Proof.
  intros H1 H2 Hb Ha. induction pre as [|m pre IH]; cbn; [by constructor|].
  apply StronglySorted_inv in H1 as [H1 Hm]. apply Forall_cons in Hb as [Hb1 Hb]. constructor; [by apply IH|].
  apply Forall_app. split; [done|]. constructor; [done|]. eapply Forall_impl; [exact Ha|]. intros x Hx. unfold below, beyond in *. key_order.
Qed.

Lemma sorted_app_r ns ns' : sorted_nodes (ns ++ ns') -> sorted_nodes ns'.
Proof. induction ns as [|n ns IH]; [done|]. intros [Hs _]%StronglySorted_inv. by apply IH. Qed.

(** The nodes below a key, and the rest. *)
Lemma cut_nodes k ns : sorted_nodes ns -> exists lo hi, ns = lo ++ hi /\ Forall (below k) lo /\ Forall (fun n => bytes_le k (n_key n)) hi.
Proof.
  induction 1 as [|n ns Hs IH Hn]; [by exists [], []|]. destruct (decide (bytes_lt (n_key n) k)) as [Hlt|Hge].
  - destruct IH as (lo & hi & -> & H1 & H2). exists (n :: lo), hi. split_and!; [done|by constructor|done].
  - exists [], (n :: ns). split_and!; [done|done|]. constructor; [done|]. eapply Forall_impl; [exact Hn|]. intros m Hm. cbn in Hm. unfold bytes_le in *. key_order.
Qed.

(** Nodes from a key on, none of which is at it. *)
Lemma head_beyond k hi : sorted_nodes hi -> Forall (fun n => bytes_le k (n_key n)) hi -> n_key <$> head hi <> Some k -> Forall (beyond k) hi.
Proof.
  intros Hs Hhi N. destruct hi as [|n hi]; [done|]. apply Forall_cons in Hhi as [Hn Hhi]. assert (n_key n <> k) as Nk by (cbn in N; congruence).
  assert (bytes_lt k (n_key n)) as Hlt by key_order. constructor; [done|]. apply StronglySorted_inv in Hs as [_ Hs].
  eapply Forall_impl; [exact Hs|]. unfold beyond. intros m Hm. cbn in Hm. key_order.
Qed.

Section nodes.
Context {L : Type} `{Arenaskl L}.
Implicit Types l : L.

Section at_node.
Context {l : L} {pre : list skl_node} {n : skl_node} {post : list skl_node}.
Hypothesis Hn : skl_nodes l = pre ++ n :: post.
Hypothesis Hs : sorted_nodes (pre ++ n :: post).

Lemma it_node_at : it_node l (n_key n) = n.
Proof.
  unfold it_node. rewrite Hn, filter_app. destruct (sorted_split _ _ _ Hs) as (Hb & _ & _ & _).
  rewrite (filter_none _ pre); [by rewrite app_nil_l, filter_cons_True|]. eapply Forall_impl; [exact Hb|]. unfold below. intros m Hm E. rewrite E in Hm. key_order.
Qed.

Lemma it_Next_at : it_Next l (n_key n) = n_key <$> head post.
Proof.
  unfold it_Next. rewrite Hn, filter_app. destruct (sorted_split _ _ _ Hs) as (Hb & Ha & _ & _).
  rewrite (filter_none _ pre), filter_cons_False, (filter_all _ post); [done|done|key_order|].
  eapply Forall_impl; [exact Hb|]. unfold below. intros m Hm E. key_order.
Qed.

Lemma it_Prev_at : it_Prev l (n_key n) = n_key <$> last pre.
Proof.
  unfold it_Prev. rewrite Hn, filter_app. destruct (sorted_split _ _ _ Hs) as (Hb & Ha & _ & _).
  rewrite (filter_all _ pre), filter_cons_False, (filter_none _ post), app_nil_r; [done| |key_order|done].
  eapply Forall_impl; [exact Ha|]. unfold beyond. intros m Hm E. key_order.
Qed.

End at_node.

Section cut.
Context {l : L} {k : buffer} {lo hi : list skl_node}.
Hypothesis Hn : skl_nodes l = lo ++ hi.
Hypothesis Hs : sorted_nodes (lo ++ hi).
Hypothesis Hlo : Forall (below k) lo.
Hypothesis Hhi : Forall (fun n => bytes_le k (n_key n)) hi.

Lemma it_Seek_cut : it_Seek l k = n_key <$> head hi.
Proof.
  unfold it_Seek. rewrite Hn, filter_app. rewrite (filter_none _ lo), (filter_all _ hi); [done|done|].
  eapply Forall_impl; [exact Hlo|]. unfold below. intros m Hm E. key_order.
Qed.

(** Whether there is a node at the key. *)
Lemma hi_cases : (exists n post, hi = n :: post /\ n_key n = k) \/ Forall (beyond k) hi.
Proof.
  destruct (decide (n_key <$> head hi = Some k)) as [E|N]; [left|right; apply head_beyond; [by apply (sorted_app_r lo)|done|done]].
  destruct hi as [|n post]; [done|]. injection E as E. by exists n, post.
Qed.

Lemma it_SeekForPrev_found n post : hi = n :: post -> n_key n = k -> it_SeekForPrev l k = Some k.
Proof.
  intros -> <-. destruct (sorted_split _ _ _ Hs) as (_ & Ha & _). unfold it_SeekForPrev. rewrite Hn, filter_app, filter_cons_True, (filter_none _ post).
  - rewrite last_snoc. done.
  - eapply Forall_impl; [exact Ha|]. unfold beyond. intros m Hm E. key_order.
  - key_order.
Qed.

Lemma it_SeekForPrev_missing : Forall (beyond k) hi -> it_SeekForPrev l k = n_key <$> last lo.
Proof.
  intros Hb. unfold it_SeekForPrev. rewrite Hn, filter_app, (filter_all _ lo), (filter_none _ hi), app_nil_r; [done| |].
  - eapply Forall_impl; [exact Hb|]. unfold beyond. intros m Hm E. key_order.
  - eapply Forall_impl; [exact Hlo|]. unfold below. intros m Hm. key_order.
Qed.

End cut.

Lemma update_at (f : skl_node -> skl_node) pre n post :
  sorted_nodes (pre ++ n :: post) -> (forall m, n_key m <> n_key n -> f m = m) -> f <$> (pre ++ n :: post) = pre ++ f n :: post.
Proof.
  intros Hs Hf. destruct (sorted_split _ _ _ Hs) as (Hb & Ha & _). rewrite fmap_app. cbn.
  assert (forall ms, Forall (fun m => n_key m <> n_key n) ms -> f <$> ms = ms) as Hid.
  { induction 1 as [|m ms Hm _ IH]; [done|]. cbn. by rewrite Hf, IH. }
  rewrite !Hid; [done|..].
  - eapply Forall_impl; [exact Ha|]. unfold beyond. intros m Hm Em. rewrite Em in Hm. key_order.
  - eapply Forall_impl; [exact Hb|]. unfold below. intros m Hm Em. rewrite Em in Hm. key_order.
Qed.

Lemma insert_node_at lo hi n : Forall (below (n_key n)) lo -> Forall (beyond (n_key n)) hi -> insert_node n (lo ++ hi) = lo ++ n :: hi.
Proof.
  intros Hlo Hhi. unfold insert_node. rewrite !filter_app.
  rewrite (filter_all _ lo), (filter_none _ hi), (filter_none (fun m => bytes_lt (n_key n) (n_key m)) lo), (filter_all _ hi), app_nil_r; [done|done| | |done].
  - eapply Forall_impl; [exact Hlo|]. unfold below. intros m Hm E. key_order.
  - eapply Forall_impl; [exact Hhi|]. unfold beyond. intros m Hm E. key_order.
Qed.

End nodes.

(** ** What a page means *)

Definition n_init (n : skl_node) : bool := no_initialized (n_meta n).

(** The values of a node, with the gap value [g] that reaches it: an uninitialized node
    does not stand on its own. *)
Definition key_of (g : readSpanVal) (n : skl_node) : readSpanVal := if n_init n then fst (n_values n) else ratchet (fst (n_values n)) g.
Definition gap_of (g : readSpanVal) (n : skl_node) : readSpanVal := if n_init n then snd (n_values n) else ratchet (snd (n_values n)) g.

Definition gap_after (g : readSpanVal) (ns : list skl_node) : readSpanVal := foldl gap_of g ns.

(** The value of a key. *)
Fixpoint value_at (g : readSpanVal) (ns : list skl_node) (k : buffer) : readSpanVal :=
  match ns with
  | [] => g
  | n :: ns => if decide (bytes_lt k (n_key n)) then g else if decide (n_key n = k) then key_of g n else value_at (gap_of g n) ns k
  end.

Lemma value_at_app g lo hi k : Forall (below k) lo -> value_at g (lo ++ hi) k = value_at (gap_after g lo) hi k.
Proof.
  intros Hlo. revert g. induction Hlo as [|n lo Hn _ IH]; intros g; [done|]. cbn. unfold below in Hn.
  rewrite decide_False by key_order. rewrite decide_False by (intros E; rewrite E in Hn; key_order). apply IH.
Qed.

Lemma value_at_beyond g ns k : Forall (beyond k) ns -> value_at g ns k = g.
Proof. destruct 1 as [|n ns Hn _]; [done|]. cbn. by rewrite decide_True. Qed.

Lemma value_at_here g n ns : value_at g (n :: ns) (n_key n) = key_of g n.
Proof. cbn. rewrite decide_False by key_order. by rewrite decide_True. Qed.

(** Nodes with the same keys that mean the same after the gap value [g]. *)
Fixpoint eqv (g : readSpanVal) (ns ns' : list skl_node) : Prop :=
  match ns, ns' with
  | [], [] => True
  | n :: ns, n' :: ns' => n_key n = n_key n' /\ n_init n = n_init n' /\ key_of g n = key_of g n' /\ gap_of g n = gap_of g n' /\ eqv (gap_of g n) ns ns'
  | _, _ => False
  end.

Lemma eqv_refl g ns : eqv g ns ns.
Proof. revert g. induction ns as [|n ns IH]; intros g; cbn; [done|]. by split_and!. Qed.

Lemma eqv_trans g ns1 ns2 ns3 : eqv g ns1 ns2 -> eqv g ns2 ns3 -> eqv g ns1 ns3.
Proof.
  revert g ns2 ns3. induction ns1 as [|n1 ns1 IH]; intros g [|n2 ns2] [|n3 ns3]; cbn; try done.
  intros (A1 & A2 & A3 & A4 & A5) (B1 & B2 & B3 & B4 & B5). rewrite <- A4 in B5. split_and!; try congruence. by apply (IH _ ns2).
Qed.

Lemma eqv_app g a a' b b' : eqv g a a' -> eqv (gap_after g a) b b' -> eqv g (a ++ b) (a' ++ b').
Proof.
  revert g a'. induction a as [|n a IH]; intros g [|n' a']; cbn; try done. intros (A1 & A2 & A3 & A4 & A5) Hb. split_and!; try done. by apply IH.
Qed.

Lemma eqv_value g ns ns' k : eqv g ns ns' -> value_at g ns k = value_at g ns' k.
Proof.
  revert g ns'. induction ns as [|n ns IH]; intros g [|n' ns']; cbn; try done. intros (A1 & A2 & A3 & A4 & A5).
  rewrite <- A1, <- A3, <- A4, (IH _ ns') by done. done.
Qed.

Lemma eqv_gap g ns ns' : eqv g ns ns' -> gap_after g ns = gap_after g ns'.
Proof.
  revert g ns'. induction ns as [|n ns IH]; intros g [|n' ns']; cbn; try done. intros (_ & _ & _ & A4 & A5). rewrite <- A4. by apply IH.
Qed.

Lemma eqv_keys g ns ns' : eqv g ns ns' -> n_key <$> ns = n_key <$> ns'.
Proof. revert g ns'. induction ns as [|n ns IH]; intros g [|n' ns']; cbn; try done. intros (A1 & _ & _ & _ & A5). by rewrite A1, (IH (gap_of g n) ns'). Qed.

Lemma eqv_init g ns ns' : eqv g ns ns' -> n_init <$> ns = n_init <$> ns'.
Proof. revert g ns'. induction ns as [|n ns IH]; intros g [|n' ns']; cbn; try done. intros (_ & A2 & _ & _ & A5). by rewrite A2, (IH (gap_of g n) ns'). Qed.

Lemma sorted_keys ns ns' : n_key <$> ns = n_key <$> ns' -> sorted_nodes ns -> sorted_nodes ns'.
Proof.
  intros E Hs. revert ns' E. induction Hs as [|n ns Hs IH Hn]; intros [|n' ns'] E; try done; [constructor|]. injection E as E1 E2. change (n_key <$> ns = n_key <$> ns') in E2.
  constructor; [by apply IH|]. apply Forall_forall. intros m Hm. apply (list_elem_of_fmap_2 n_key) in Hm. rewrite <- E2 in Hm.
  apply list_elem_of_fmap in Hm as (m' & -> & Hm'). rewrite Forall_forall in Hn. rewrite <- E1. by apply Hn.
Qed.

(** Initialized nodes do not depend on what reaches them. *)
Lemma gap_after_init g g' n ns : n_init n = true -> gap_after g (n :: ns) = gap_after g' (n :: ns).
Proof. intros Hi. cbn. unfold gap_of at 2 4. by rewrite Hi. Qed.

(** ** Pages *)

(** Values that the cache can hold: the largest wall time is left out, since the bound
    of a page rounds up. *)
Definition fits (v : readSpanVal) : Prop := pos v /\ WallTime (rv_ts v) < MaxInt64 /\ 0 <= Logical (rv_ts v) <= MaxInt32.

Lemma fits_zero : fits zero_value.
Proof. split; [apply pos_zero|done]. Qed.

Lemma fits_ratchet v w : fits v -> fits w -> fits (ratchet v w).
Proof.
  intros [H1 H2] [H3 H4]. split; [by apply pos_ratchet|]. cbn. unfold readSpanVal_ratchet. repeat case_match; done.
Qed.

Section page.
Context {L : Type} `{ArenasklLaws L}.
Implicit Types p : sklPage L.

Definition nodes p : list skl_node := skl_nodes (pg_list p).

Record node_ok p (n : skl_node) : Prop := {
  nk_key : fits (fst (n_values n)) /\ ts_le (rv_ts (fst (n_values n))) (getMaxTimestamp p);
  nk_gap : fits (snd (n_values n)) /\ ts_le (rv_ts (snd (n_values n))) (getMaxTimestamp p);
  nk_cant : no_cantInit (n_meta n) = true -> pg_isFull p = true
}.

Record page_ok p : Prop := {
  po_sorted : sorted_nodes (nodes p);
  po_nodes : Forall (node_ok p) (nodes p);
  po_max : 0 <= pg_maxWallTime p
}.

(** The bound of a page only grows, and a full page stays full. *)
Definition page_le p p' : Prop := pg_maxWallTime p <= pg_maxWallTime p' /\ (pg_isFull p = true -> pg_isFull p' = true).

#[global] Instance page_le_preorder : PreOrder page_le.
Proof. split; [intros p; split; [lia|done]|]. intros p q r [H1 H2] [H3 H4]. split; [lia|auto]. Qed.

Lemma getMaxTimestamp_le p p' : page_le p p' -> ts_le (getMaxTimestamp p) (getMaxTimestamp p').
Proof. intros [Hw _]. unfold getMaxTimestamp, ts_le. cbn. lia. Qed.

Lemma node_ok_le p p' n : page_le p p' -> node_ok p n -> node_ok p' n.
Proof.
  intros Hle [[H1 H2] [H3 H4] H5]. pose proof (getMaxTimestamp_le _ _ Hle). split; [split; [done|]|split; [done|]|]; [by transitivity (getMaxTimestamp p)..|].
  intros Hc. by apply Hle, H5.
Qed.

Lemma ratchetMaxTimestamp_spec ts p : WallTime ts < MaxInt64 -> 0 <= WallTime ts ->
  let p' := ratchetMaxTimestamp ts p in
  page_le p p' /\ ts_le ts (getMaxTimestamp p') /\ pg_list p' = pg_list p /\ pg_isFull p' = pg_isFull p.
Proof.
  intros H1 H2. unfold ratchetMaxTimestamp. cbn. assert (int64 (WallTime ts + 1) = WallTime ts + 1) as E by (apply int64_small; unfold MaxInt64 in *; lia).
  rewrite E. destruct (Logical ts >? 0) eqn:El, (_ <=? _) eqn:Ew; bool_to_prop; unfold page_le, getMaxTimestamp, ts_le; cbn; split_and!; try done; lia.
Qed.

Lemma page_ok_update p p' pre n n' post :
  page_ok p -> nodes p = pre ++ n :: post -> nodes p' = pre ++ n' :: post -> n_key n' = n_key n -> page_le p p' -> node_ok p' n' -> page_ok p'.
Proof.
  intros [Hs Ho Hm] E E' Ek Hle Hn'. rewrite E in Hs, Ho. apply Forall_app in Ho as [Ho1 Ho2]. apply Forall_cons in Ho2 as [_ Ho2].
  assert (forall l, Forall (node_ok p) l -> Forall (node_ok p') l) as Hmono by (intros l Hl; eapply Forall_impl; [exact Hl|]; intros m; by apply node_ok_le).
  split; rewrite ?E'; [|apply Forall_app; split; [auto|constructor; auto]|destruct Hle; lia].
  apply (sorted_keys (pre ++ n :: post)); [|done]. rewrite !fmap_app. cbn. by rewrite Ek.
Qed.

Lemma fits_wall v : fits v -> 0 <= WallTime (rv_ts v) < MaxInt64.
Proof. intros [Hp%pos_ts [Hw _]]. split; [unfold ts_le in Hp; cbn in Hp; lia|done]. Qed.

Lemma ratchetValueSet_spec policy kv gv setInit p p' full pre n post :
  page_ok p -> nodes p = pre ++ n :: post -> fits kv -> fits gv ->
  ratchetValueSet (n_key n) policy kv gv setInit p = (p', full) ->
  exists n', nodes p' = pre ++ n' :: post /\ n_key n' = n_key n /\ page_ok p' /\ page_le p p' /\ no_cantInit (n_meta n') = (no_cantInit (n_meta n) || full && negb (n_init n)) /\
    if full then n_values n' = n_values n /\ n_init n' = n_init n /\ pg_isFull p' = true
    else pg_isFull p' = pg_isFull p /\
      if n_init n && bool_decide (policy = onlyIfUninitialized) then p' = p /\ n' = n
      else n_values n' = (ratchet (fst (n_values n)) kv, ratchet (snd (n_values n)) gv) /\ n_init n' = (n_init n || setInit) /\ no_cantInit (n_meta n) = false.
Proof.
  intros Hok En Hkv Hgv. pose proof (po_sorted _ Hok) as Hs. rewrite En in Hs. pose proof (po_nodes _ Hok) as Ho. rewrite En, Forall_app, Forall_cons in Ho.
  destruct Ho as (_ & Hn & _). destruct (nk_key _ _ Hn) as [Fk Tk]. destruct (nk_gap _ _ Hn) as [Fg Tg].
  unfold ratchetValueSet. rewrite (it_node_at En Hs). change (no_initialized (n_meta n)) with (n_init n).
  destruct (n_init n && bool_decide (policy = onlyIfUninitialized)) eqn:Eskip.
  { intros [= <- <-]. exists n. rewrite orb_false_r. split_and!; try done. }
  destruct (no_cantInit (n_meta n)) eqn:Ec.
  { intros [= <- <-]. exists n. split_and!; try done. by apply (nk_cant _ _ Hn). }
  change (decodeValueSet (n_value n) (n_meta n)) with (n_values n). destruct (n_values n) as [okv ogv] eqn:Ev. cbn [fst snd] in *.
  rewrite (surjective_pairing (ratchetValue okv kv)), (surjective_pairing (ratchetValue ogv gv)), !ratchetValue_fst.
  set (kv' := ratchet okv kv). set (gv' := ratchet ogv gv). assert (fits kv' /\ fits gv') as [Fk' Fg'] by (split; by apply fits_ratchet).
  set (newMeta := if setInit && negb (n_init n) then _ else _).
  destruct (snd (ratchetValue okv kv) || snd (ratchetValue ogv gv)) eqn:Eu.
  - set (ts := fst (Timestamp_Forward (rv_ts kv') (rv_ts gv'))).
    assert (0 <= WallTime ts < MaxInt64) as Hts by (unfold ts, Timestamp_Forward; destruct (Timestamp_Less _ _); cbn; by apply fits_wall).
    destruct (ratchetMaxTimestamp_spec ts p) as (Hle & Hmax & El & Ef); [lia|lia|]. set (p1 := ratchetMaxTimestamp ts p) in *.
    rewrite (surjective_pairing (encodeValueSet kv' gv')). set (b := fst (encodeValueSet kv' gv')). set (vm := snd (encodeValueSet kv' gv')).
    set (m' := newMeta <| no_hasKey := no_hasKey vm |> <| no_hasGap := no_hasGap vm |>).
    assert (n_values (mkNode (n_key n) b m') = (kv', gv')) as Ev' by (apply decode_encode; [apply Fk'|apply Fg'|done|done]).
    destruct (skl_Set _ _ _ _) as [l|] eqn:Es.
    + intros [= <- <-]. exists (mkNode (n_key n) b m'). pose proof (Set_nodes _ _ _ _ _ Es) as Hnodes. rewrite El in Hnodes. fold (nodes p) in Hnodes. rewrite En in Hnodes.
      unfold set_node in Hnodes. rewrite update_at in Hnodes; [|done|intros m Hm; by rewrite decide_False]. rewrite decide_True in Hnodes by done.
      assert (no_cantInit m' = false) as Ec' by (unfold m', newMeta; destruct (setInit && _); exact Ec).
      split_and!; try done.
      * apply (page_ok_update p _ pre n (mkNode (n_key n) b m') post); try done. split; rewrite ?Ev'; cbn [fst snd]; [split; [done|]..|intros Hc; change (no_cantInit m' = true) in Hc; congruence].
        -- transitivity ts; [apply Timestamp_Forward_le|done].
        -- transitivity ts; [apply Timestamp_Forward_le|done].
      * unfold m', newMeta. destruct setInit, (n_init n) eqn:Ei; exact Ei || done.
    + set (p2 := p1 <| pg_isFull := true |>). assert (page_le p p2) as Hle2 by (split; [apply Hle|done]). rewrite andb_true_r.
      destruct (n_init n) eqn:Ei; cbn [negb]; intros [= <- <-].
      * exists n. assert (nodes p2 = pre ++ n :: post) as En2 by (unfold nodes; cbn; by rewrite El). split_and!; try done.
        apply (page_ok_update p _ pre n n post); try done. by apply (node_ok_le p).
      * set (n' := mkNode (n_key n) (n_value n) (n_meta n <| no_cantInit := true |>)). exists n'.
        assert (nodes (p2 <| pg_list := skl_SetMeta (n_key n) (n_meta n <| no_cantInit := true |>) (pg_list p2) |>) = pre ++ n' :: post) as En2.
        { unfold nodes. cbn. rewrite SetMeta_nodes, El. fold (nodes p). rewrite En, update_at; [|done|intros m Hm; by rewrite decide_False]. by rewrite decide_True. }
        split_and!; try done.
        apply (page_ok_update p _ pre n n' post); try done. apply (node_ok_le p p2) in Hn; [|done]. destruct Hn as [N1 N2 N3]. by split.
  - apply orb_false_iff in Eu as [E1%ratchetValue_snd E2%ratchetValue_snd]. unfold newMeta, kv', gv'. rewrite E1, E2.
    destruct (setInit && negb (n_init n)) eqn:Ei; intros [= <- <-].
    + set (n' := mkNode (n_key n) (n_value n) (n_meta n <| no_initialized := true |>)). exists n'.
      assert (nodes (p <| pg_list := skl_SetMeta (n_key n) (n_meta n <| no_initialized := true |>) (pg_list p) |>) = pre ++ n' :: post) as En2.
      { unfold nodes. cbn. rewrite SetMeta_nodes. fold (nodes p). rewrite En, update_at; [|done|intros m Hm; by rewrite decide_False]. by rewrite decide_True. }
      split_and!; try done; [|by destruct setInit, (n_init n)].
      apply (page_ok_update p _ pre n n' post); try done. destruct Hn as [N1 N2 N3]. by split.
    + exists n. rewrite orb_false_r. split_and!; try done. by destruct setInit, (n_init n).
Qed.

Lemma ratchetValueSet_skip kv gv setInit p pre n post :
  page_ok p -> nodes p = pre ++ n :: post -> n_init n = true -> ratchetValueSet (n_key n) onlyIfUninitialized kv gv setInit p = (p, false).
Proof.
  intros Hok En Hi. pose proof (po_sorted _ Hok) as Hs. rewrite En in Hs. unfold ratchetValueSet. rewrite (it_node_at En Hs).
  change (no_initialized (n_meta n)) with (n_init n). by rewrite Hi, bool_decide_eq_true_2.
Qed.

(** ** Scans *)

(** What a scan sees: the last gap value, the calls, and the nodes that are left. *)
Fixpoint scan (to : option buffer) (opt : rangeOptions) (g : readSpanVal) (first : bool) (ns : list skl_node) :
    readSpanVal * list visit * list skl_node :=
  match ns with
  | [] => (g, [], [])
  | n :: ns' =>
    let toCmp := match to with Some to => bytes_Compare (n_key n) to | None => -1 end in
    if (toCmp >? 0) || ((toCmp =? 0) && excludeTo opt) then (g, [], ns)
    else
      let call := if negb (first && excludeFrom opt) then [mkVisit (n_key n) (key_of g n) hasKey] else [] in
      if toCmp =? 0 then (g, call, ns)
      else
        let '(g', calls, rest) := scan to opt (gap_of g n) false ns' in
        (g', call ++ mkVisit (n_key n) (gap_of g n) hasGap :: calls, rest)
  end.

(** A node that can never be initialized. *)
Definition stuck (n : skl_node) : Prop := n_init n = false /\ no_cantInit (n_meta n) = true.

(** The node that a scan is on, as it leaves it, and the values it sees there. *)
Lemma scan_node g p p1 err pre n post :
  page_ok p -> nodes p = pre ++ n :: post -> fits g -> ratchetValueSet (n_key n) onlyIfUninitialized g g false p = (p1, err) ->
  exists n', nodes p1 = pre ++ n' :: post /\ n_key n' = n_key n /\ page_ok p1 /\ page_le p p1 /\ n_init n' = n_init n /\
    (if err then (ratchet (fst (n_values n')) g, ratchet (snd (n_values n')) g) else n_values n') = (key_of g n, gap_of g n) /\
    key_of g n' = key_of g n /\ gap_of g n' = gap_of g n /\ (n_init n = true -> p1 = p /\ n' = n) /\
    (pg_isFull p1 = pg_isFull p \/ stuck n').
Proof.
  intros Hok En Hg E. destruct (n_init n) eqn:Ei.
  - rewrite (ratchetValueSet_skip _ _ _ _ _ _ _ Hok En Ei) in E. injection E as <- <-. exists n. unfold key_of, gap_of. rewrite Ei.
    split_and!; try done; [apply surjective_pairing|by left].
  - destruct (ratchetValueSet_spec _ _ _ _ _ _ _ _ _ _ Hok En Hg Hg E) as (n' & En' & Ek & Hok' & Hle & Hc & Hv). exists n'. unfold key_of, gap_of. rewrite Ei in *.
    destruct err.
    + destruct Hv as (-> & Hn' & _). rewrite Hn'. split_and!; try done. right. split; [done|]. by rewrite Hc, orb_true_r.
    + destruct Hv as (Hf & -> & -> & _). cbn. rewrite <- !ratchet_assoc, !ratchet_idem. split_and!; try done. by left.
Qed.

Lemma key_gap_fits p g n : node_ok p n -> fits g -> fits (key_of g n) /\ fits (gap_of g n).
Proof. intros [[H1 _] [H2 _] _] Hg. unfold key_of, gap_of. destruct (n_init n); [done|]. split; by apply fits_ratchet. Qed.

Lemma scanTo_loop_spec fuel to opt first calls p p' it' g' calls' pre suf g :
  page_ok p -> nodes p = pre ++ suf -> fits g -> (length suf < fuel)%nat ->
  scanTo_loop fuel to opt (n_key <$> head suf) g first calls p = (p', it', g', calls') ->
  exists suf', nodes p' = pre ++ suf' /\ page_ok p' /\ page_le p p' /\ eqv g suf suf' /\ fits g' /\
    (let '(gs, cs, rest) := scan to opt g first suf in g' = gs /\ calls' = calls ++ cs /\ it' = n_key <$> head rest) /\
    (Forall (fun n => n_init n = true) suf -> p' = p) /\ (pg_isFull p' = pg_isFull p \/ Exists stuck suf').
Proof.
  revert fuel first calls p pre g. induction suf as [|n suf IH]; intros [|fuel] first calls p pre g Hok En Hg Hf E; try (cbn in Hf; lia); cbn in E |- *.
  - injection E as <- <- <- <-. exists []. split_and!; try done; [by rewrite app_nil_r|by left].
  - set (toCmp := match to with Some to => bytes_Compare (n_key n) to | None => -1 end) in *.
    destruct ((toCmp >? 0) || _) eqn:E1; [injection E as <- <- <- <-; exists (n :: suf); split_and!; try done; [apply eqv_refl|by rewrite app_nil_r|by left]|].
    destruct (ratchetValueSet _ _ _ _ _ _) as [p1 err] eqn:Er.
    destruct (scan_node _ _ _ _ _ _ _ Hok En Hg Er) as (n' & En1 & Ek & Hok1 & Hle1 & Ei & Hv & Hk & Hgp & Hsame & Hst).
    pose proof (po_sorted _ Hok1) as Hs1. rewrite En1 in Hs1. rewrite <- Ek in E. rewrite (it_node_at En1 Hs1), (it_Next_at En1 Hs1) in E.
    rewrite (surjective_pairing (n_values n')) in E. rewrite !ratchetValue_fst in E.
    assert ((if err then (ratchet (fst (n_values n')) g, ratchet (snd (n_values n')) g) else (fst (n_values n'), snd (n_values n'))) = (key_of g n, gap_of g n)) as Hv'
      by (destruct err; [done|by rewrite <- surjective_pairing]). rewrite Hv', Ek in E. clear Hv Hv'.
    set (call := if negb (first && excludeFrom opt) then [mkVisit (n_key n) (key_of g n) hasKey] else []).
    assert ((if negb (first && excludeFrom opt) then calls ++ [mkVisit (n_key n) (key_of g n) hasKey] else calls) = calls ++ call) as Ecall
      by (unfold call; destruct (negb _); [done|by rewrite app_nil_r]). rewrite Ecall in E.
    assert (eqv g (n :: suf) (n' :: suf)) as Heq by (cbn; split_and!; try done; apply eqv_refl).
    destruct (toCmp =? 0) eqn:E2.
    + injection E as <- <- <- <-. exists (n' :: suf). split_and!; try done; [apply eqv_refl| |destruct Hst; [by left|right; by apply Exists_cons_hd]]. intros Hi. apply Forall_cons in Hi as [Hi _]. by apply Hsame.
    + destruct (key_gap_fits p g n) as [_ Hg']; [pose proof (po_nodes _ Hok) as Ho; rewrite En, Forall_app, Forall_cons in Ho; apply Ho|done|].
      destruct (IH fuel false ((calls ++ call) ++ [mkVisit (n_key n) (gap_of g n) hasGap]) p1 (pre ++ [n']) (gap_of g n)) as (suf' & F1 & F2 & F3 & F4 & F5 & F6 & F7 & F8);
        [done|by rewrite <- app_assoc|done|cbn in Hf; lia|done|].
      exists (n' :: suf'). rewrite F1, <- app_assoc. split_and!; try done; [by transitivity p1| | |].
      * destruct (scan to opt (gap_of g n) false suf) as [[gs cs] rest]. destruct F6 as (-> & -> & ->). split_and!; try done. by rewrite <- !app_assoc.
      * intros Hi. apply Forall_cons in Hi as [Hi Hrest]. destruct (Hsame Hi) as [-> _]. by apply F7.
      * destruct F8 as [F8|F8]; [|right; by apply Exists_cons_tl]. destruct Hst as [Hst|Hst]; [left; congruence|right; by apply Exists_cons_hd].
Qed.

(** ** The gap value that reaches a key *)

(** Where the search for an initialized node ends: [B] starts with one, or is all. *)
Definition init_start (A B : list skl_node) : Prop := A = [] \/ exists n B', B = n :: B' /\ n_init n = true.

Lemma prevInitNode_loop_spec fuel (l : L) pre post :
  sorted_nodes (pre ++ post) -> skl_nodes l = pre ++ post -> (length pre < fuel)%nat ->
  exists A B, pre = A ++ B /\ prevInitNode_loop fuel l (n_key <$> last pre) = n_key <$> head (B ++ post) /\ init_start A B.
Proof.
  revert fuel post. induction pre as [|n pre IH] using rev_ind; intros [|fuel] post Hs En Hf; try lia.
  - exists [], []. split_and!; [done| |by left]. cbn. unfold it_SeekToFirst. by rewrite En.
  - rewrite length_app in Hf. cbn in Hf. rewrite last_snoc. cbn [fmap option_fmap option_map prevInitNode_loop].
    rewrite <- app_assoc in Hs, En. cbn in Hs, En. rewrite (it_node_at En Hs). change (no_initialized (n_meta n)) with (n_init n). destruct (n_init n) eqn:Ei.
    + exists pre, [n]. split_and!; [done|done|right; by exists n, []].
    + rewrite (it_Prev_at En Hs). destruct (IH fuel (n :: post)) as (A & B & -> & -> & Hst); [done|done|lia|].
      exists A, (B ++ [n]). rewrite <- !app_assoc. split_and!; [done|done|]. destruct Hst as [->|(m & B' & -> & Hm)]; [by left|right]. by exists m, (B' ++ [n]).
Qed.

Lemma gap_after_start A B : init_start A B -> gap_after zero_value (A ++ B) = gap_after zero_value B.
Proof. unfold gap_after. rewrite foldl_app. intros [->|(n & B' & -> & Hn)]; [done|]. apply (gap_after_init _ _ n B' Hn). Qed.

Lemma eqv_start A B hi ns' : init_start A B -> eqv zero_value (B ++ hi) ns' -> eqv zero_value (A ++ B ++ hi) (A ++ ns').
Proof.
  intros Hst He. apply eqv_app; [apply eqv_refl|]. destruct Hst as [->|(n & B' & -> & Hn)]; [done|]. destruct ns' as [|n' ns']; [done|].
  cbn in He |- *. destruct He as (E1 & E2 & E3 & E4 & E5). unfold key_of, gap_of in *. rewrite <- E2, Hn in *. done.
Qed.

(** A scan up to a key, over nodes below it. *)
Lemma scan_below k g first lo hi : Forall (below k) lo -> sorted_nodes (lo ++ hi) -> Forall (fun n => bytes_le k (n_key n)) hi ->
  fst (fst (scan (Some k) no_range_options g first (lo ++ hi))) = gap_after g lo /\ snd (scan (Some k) no_range_options g first (lo ++ hi)) = hi.
Proof.
  intros Hlo Hs Hhi. revert g first Hs. induction Hlo as [|n lo Hn Hlo IH]; intros g first Hs; cbn.
  - destruct hi as [|n hi]; [done|]. apply Forall_cons in Hhi as [Hn _]. cbn. pose proof (bytes_Compare_spec (n_key n) k) as (C1 & C2 & C3).
    destruct (bytes_Compare (n_key n) k >? 0) eqn:E1; [done|]. destruct (bytes_Compare (n_key n) k =? 0) eqn:E2; [done|]. exfalso. bool_to_prop. apply Hn, C1. lia.
  - pose proof (bytes_Compare_spec (n_key n) k) as (C1 & _). apply C1 in Hn.
    destruct (bytes_Compare (n_key n) k >? 0) eqn:E1; [exfalso; bool_to_prop; lia|]. destruct (bytes_Compare (n_key n) k =? 0) eqn:E2; [exfalso; bool_to_prop; lia|].
    apply StronglySorted_inv in Hs as [Hs _]. destruct (IH (gap_of g n) false Hs) as [F1 F2]. cbn. by destruct (scan _ _ _ _ _) as [[gs cs] rest].
Qed.

Lemma incomingGapVal_spec it k p p' it' g lo hi :
  page_ok p -> nodes p = lo ++ hi -> Forall (below k) lo -> Forall (fun n => bytes_le k (n_key n)) hi ->
  it = n_key <$> last lo \/ (exists n post, hi = n :: post /\ n_key n = k /\ it = Some k /\ n_init n = false) ->
  incomingGapVal it k p = (p', it', g) ->
  page_ok p' /\ page_le p p' /\ eqv zero_value (nodes p) (nodes p') /\ it' = n_key <$> head hi /\ g = gap_after zero_value lo /\ fits g /\
  (Forall (fun n => n_init n = true) (nodes p) -> p' = p) /\ (pg_isFull p' = pg_isFull p \/ Exists stuck (nodes p')).
Proof.
  intros Hok En Hlo Hhi Hit. pose proof (po_sorted _ Hok) as Hs. rewrite En in Hs. unfold incomingGapVal.
  assert (exists A B, lo = A ++ B /\ prevInitNode (pg_list p) it = n_key <$> head (B ++ hi) /\ init_start A B) as (A & B & -> & -> & Hst).
  { unfold prevInitNode. fold (nodes p). rewrite En. destruct Hit as [->|(n & post & -> & <- & -> & Hn)].
    - apply prevInitNode_loop_spec; [done|done|]. rewrite length_app. lia.
    - cbn [prevInitNode_loop]. rewrite (it_node_at En Hs). change (no_initialized (n_meta n)) with (n_init n). rewrite Hn, (it_Prev_at En Hs).
      apply prevInitNode_loop_spec; [done|done|]. rewrite length_app. cbn. lia. }
  unfold scanTo. fold (nodes p). destruct (scanTo_loop _ _ _ _ _ _ _ _) as [[[p1 it1] g1] calls1] eqn:E. intros [= -> -> ->]. rewrite <- app_assoc in En.
  destruct (scanTo_loop_spec (S (length (nodes p))) _ _ _ _ _ _ _ _ _ _ (B ++ hi) _ Hok En fits_zero ltac:(rewrite En, !length_app; lia) E) as (suf' & F1 & F2 & F3 & F4 & F5 & F6 & F7 & F8).
  apply Forall_app in Hlo as [_ HB]. rewrite <- app_assoc in Hs. apply sorted_app_r in Hs as HsB.
  destruct (scan_below k zero_value true B hi HB HsB Hhi) as [G1 G2]. destruct (scan _ _ _ _ _) as [[gs cs] rest]. cbn in G1, G2. subst gs rest.
  destruct F6 as (-> & _ & ->). rewrite En, F1. split_and!; try done; [by apply eqv_start|by rewrite gap_after_start| |].
  - intros Hi. apply F7. rewrite Forall_app in Hi. apply Hi.
  - destruct F8 as [F8|F8]; [by left|right]. apply Exists_app. by right.
Qed.

Lemma incomingGapVal_here k p lo n post :
  page_ok p -> nodes p = lo ++ n :: post -> n_key n = k -> n_init n = true -> incomingGapVal (Some k) k p = (p, Some k, zero_value).
Proof.
  intros Hok En <- Hi. pose proof (po_sorted _ Hok) as Hs. rewrite En in Hs. unfold incomingGapVal, prevInitNode. fold (nodes p). cbn [prevInitNode_loop].
  rewrite (it_node_at En Hs). change (no_initialized (n_meta n)) with (n_init n). rewrite Hi. unfold scanTo. cbn [scanTo_loop].
  rewrite bytes_Compare_refl. cbn. rewrite (ratchetValueSet_skip _ _ _ _ _ _ _ Hok En Hi). by destruct (n_values _).
Qed.

(** ** Lookups *)

Lemma eqv_app_inv g a b ns : eqv g (a ++ b) ns -> exists a' b', ns = a' ++ b' /\ eqv g a a' /\ eqv (gap_after g a) b b'.
Proof.
  revert g ns. induction a as [|n a IH]; intros g ns; cbn; [by exists [], ns|]. destruct ns as [|n' ns]; [done|]. intros (E1 & E2 & E3 & E4 & E5).
  destruct (IH _ _ E5) as (a' & b' & -> & H1 & H2). exists (n' :: a'), b'. split_and!; try done.
Qed.

Lemma eqv_head_init g g' n ns ns' : n_init n = true -> eqv g (n :: ns) ns' -> eqv g' (n :: ns) ns'.
Proof.
  intros Hi. destruct ns' as [|n' ns']; [done|]. cbn. intros (E1 & E2 & E3 & E4 & E5). unfold key_of, gap_of in *. rewrite <- E2, Hi in *. done.
Qed.

Lemma scan_eqv to opt g first ns ns' : eqv g ns ns' -> fst (scan to opt g first ns) = fst (scan to opt g first ns').
Proof.
  revert g first ns'. induction ns as [|n ns IH]; intros g first [|n' ns']; cbn; try done. intros (E1 & E2 & E3 & E4 & E5). rewrite <- E1, <- E3, <- E4.
  destruct (_ || _); [done|]. destruct (_ =? 0); [done|]. specialize (IH (gap_of g n) false ns' E5).
  destruct (scan to opt _ false ns) as [[gs cs] rest], (scan to opt _ false ns') as [[gs' cs'] rest']. by injection IH as -> ->.
Qed.

Lemma scan_head_init to opt g g' first n ns : n_init n = true -> snd (fst (scan to opt g first (n :: ns))) = snd (fst (scan to opt g' first (n :: ns))).
Proof.
  intros Hi. cbn. unfold key_of, gap_of. rewrite Hi. destruct (_ || _); [done|]. destruct (_ =? 0); [done|]. by destruct (scan _ _ _ _ _) as [[? ?] ?].
Qed.

(** The calls of a visitor, for nodes that are cut at the start of the range. *)
Definition visit_calls (from : buffer) (to : option buffer) (opt : rangeOptions) (lo hi : list skl_node) : list visit :=
  let g := gap_after zero_value lo in
  if decide (n_key <$> head hi = Some from) then snd (fst (scan to opt g true hi))
  else mkVisit from g hasKeyGap :: snd (fst (scan to (opt <| excludeFrom := false |>) g true hi)).

(** The part of a lookup after the gap value is known. *)
Lemma visit_scan to opt g p p' it g' calls lo hi :
  page_ok p -> nodes p = lo ++ hi -> fits g -> g = gap_after zero_value lo \/ (exists n post, hi = n :: post /\ n_init n = true) ->
  scanTo (n_key <$> head hi) to opt g p = (p', it, g', calls) ->
  page_ok p' /\ page_le p p' /\ eqv zero_value (nodes p) (nodes p') /\ calls = snd (fst (scan to opt (gap_after zero_value lo) true hi)) /\
  (Forall (fun n => n_init n = true) (nodes p) -> p' = p).
Proof.
  intros Hok En Hg Hcase E. unfold scanTo in E. fold (nodes p) in E.
  destruct (scanTo_loop_spec (S (length (nodes p))) _ _ _ _ _ _ _ _ _ _ hi _ Hok En Hg ltac:(rewrite En, length_app; lia) E) as (suf' & F1 & F2 & F3 & F4 & F5 & F6 & F7 & _).
  rewrite En, F1. split_and!; try done.
  - apply eqv_app; [apply eqv_refl|]. destruct Hcase as [->|(n & post & -> & Hi)]; [done|]. by apply (eqv_head_init g).
  - destruct Hcase as [->|(n & post & -> & Hi)]; [|rewrite (scan_head_init to opt _ g true n post Hi)]; by destruct (scan _ _ _ _ _) as [[? ?] ?]; destruct F6 as (_ & -> & _).
  - intros Hall. apply F7. rewrite Forall_app in Hall. apply Hall.
Qed.

(** Where a lookup finds itself at the start of the range. *)
Lemma visit_start k p p1 it g lo hi :
  page_ok p -> nodes p = lo ++ hi -> Forall (below k) lo -> Forall (fun n => bytes_le k (n_key n)) hi ->
  incomingGapVal (it_SeekForPrev (pg_list p) k) k p = (p1, it, g) ->
  exists lo1 hi1, page_ok p1 /\ page_le p p1 /\ nodes p1 = lo1 ++ hi1 /\ eqv zero_value lo lo1 /\ eqv (gap_after zero_value lo) hi hi1 /\
    it = n_key <$> head hi1 /\ fits g /\ (Forall (fun n => n_init n = true) (nodes p) -> p1 = p) /\
    (g = gap_after zero_value lo \/ exists n post, hi1 = n :: post /\ n_key n = k /\ n_init n = true /\ g = zero_value).
Proof.
  intros Hok En Hlo Hhi Ei. pose proof (po_sorted _ Hok) as Hs. rewrite En in Hs.
  destruct (hi_cases En Hs Hhi) as [(n & post & -> & Hn)|Hbey].
  - rewrite (it_SeekForPrev_found En Hs Hlo Hhi n post eq_refl Hn) in Ei. destruct (n_init n) eqn:Hi.
    + rewrite (incomingGapVal_here k p lo n post Hok En Hn Hi) in Ei. injection Ei as <- <- <-. exists lo, (n :: post).
      split_and!; try done; [apply eqv_refl|apply eqv_refl|by rewrite <- Hn|right; by exists n, post].
    + destruct (incomingGapVal_spec (Some k) k p p1 it g lo (n :: post) Hok En Hlo Hhi) as (G1 & G2 & G3 & -> & -> & G6 & G7 & _); [right; by exists n, post|done|].
      rewrite En in G3. apply eqv_app_inv in G3 as (lo1 & hi1 & En1 & Elo & Ehi). exists lo1, hi1. split_and!; try done; [|by left].
      destruct hi1 as [|n1 hi1]; [done|]. destruct Ehi as (Ek & _). cbn. by rewrite Ek.
  - rewrite (it_SeekForPrev_missing En Hlo Hbey) in Ei.
    destruct (incomingGapVal_spec _ k p p1 it g lo hi Hok En Hlo Hhi (or_introl eq_refl) Ei) as (G1 & G2 & G3 & -> & -> & G6 & G7 & _).
    rewrite En in G3. apply eqv_app_inv in G3 as (lo1 & hi1 & En1 & Elo & Ehi). exists lo1, hi1. split_and!; try done; [|by left].
    apply eqv_keys in Ehi. destruct hi, hi1; try done. cbn. by injection Ehi as -> _.
Qed.

Lemma visitRange_spec from to opt p p' calls from' to' opt' lo hi :
  page_ok p -> visit_bounds from to opt = Some (from', to', opt') -> visitRange from to opt p = (p', calls) ->
  nodes p = lo ++ hi -> Forall (below from') lo -> Forall (fun n => bytes_le from' (n_key n)) hi ->
  page_ok p' /\ page_le p p' /\ eqv zero_value (nodes p) (nodes p') /\ calls = visit_calls from' to' opt' lo hi /\
  (Forall (fun n => n_init n = true) (nodes p) -> p' = p).
Proof.
  intros Hok Hb E En Hlo Hhi. unfold visitRange in E. rewrite Hb in E. destruct (incomingGapVal _ _ _) as [[p1 it1] g1] eqn:Ei.
  destruct (visit_start _ _ _ _ _ _ _ Hok En Hlo Hhi Ei) as (lo1 & hi1 & Hok1 & Hle1 & En1 & Elo & Ehi & -> & Hg1 & Hsame & Hcase).
  assert (n_key <$> head hi = n_key <$> head hi1) as Ehead by (apply eqv_keys in Ehi; destruct hi, hi1; try done; cbn; by injection Ehi as -> _).
  assert (eqv zero_value (nodes p) (nodes p1)) as Heq by (rewrite En, En1; by apply eqv_app).
  unfold visit_calls. rewrite Ehead, (eqv_gap _ _ _ Elo). rewrite (eqv_gap _ _ _ Elo) in Ehi, Hcase.
  set (G := gap_after zero_value lo1) in *. clear Ei Ehead. pose proof (po_sorted _ Hok1) as Hs1. rewrite En1 in Hs1.
  assert (forall o g p2 it2 g2 c2, fits g -> g = G \/ (exists n post, hi1 = n :: post /\ n_init n = true) -> scanTo (n_key <$> head hi1) to' o g p1 = (p2, it2, g2, c2) ->
    page_ok p2 /\ page_le p p2 /\ eqv zero_value (nodes p) (nodes p2) /\ c2 = snd (fst (scan to' o G true hi)) /\
    (Forall (fun n => n_init n = true) (nodes p) -> p2 = p)) as Hscan.
  { intros o g p2 it2 g2 c2 Hg Hc Es. destruct (visit_scan to' o g p1 p2 it2 g2 c2 lo1 hi1 Hok1 En1 Hg Hc Es) as (K1 & K2 & K3 & -> & K5). fold G.
    rewrite (scan_eqv _ _ _ _ _ _ Ehi). split_and!; try done; [by transitivity p1|by apply (eqv_trans _ _ (nodes p1))|]. intros Hall. rewrite K5; [by apply Hsame|by rewrite Hsame]. }
  destruct hi1 as [|n hi1]; cbn [head fmap option_fmap option_map] in E, Hscan |- *.
  { injection E as -> <-. destruct hi as [|n hi]; [|by destruct Ehi]. cbn. destruct Hcase as [->|(? & ? & ? & _)]; [|done]. split_and!; try done. }
  rewrite (it_node_at En1 Hs1) in E. change (no_initialized (n_meta n)) with (n_init n) in E.
  destruct (decide (Some (n_key n) = Some from')) as [[= Ek]|Nk].
  - rewrite bool_decide_eq_true_2 in E by done. destruct (scanTo _ _ _ _ _) as [[[p2 it2] g2] c2] eqn:Es. injection E as -> <-. cbn.
    eapply Hscan; [|(idtac)|exact Es]; [destruct (n_init n); [apply fits_zero|done]|]. destruct (n_init n) eqn:Hi; [right; by exists n, hi1|left].
    destruct Hcase as [->|(? & ? & [= <- <-] & _ & ? & _)]; [done|congruence].
  - rewrite bool_decide_eq_false_2 in E by congruence. destruct (scanTo _ _ _ _ _) as [[[p2 it2] g2] c2] eqn:Es. injection E as -> <-.
    destruct Hcase as [->|(? & ? & [= <- <-] & ? & _)]; [|congruence].
    destruct (Hscan _ _ _ _ _ _ Hg1 (or_introl eq_refl) Es) as (K1 & K2 & K3 & -> & K5). done.
Qed.

(** The keys of a range. *)
Definition up_to (to : option buffer) (opt : rangeOptions) (k : buffer) : Prop :=
  match to with None => True | Some to => if excludeTo opt then bytes_lt k to else bytes_le k to end.

Definition in_range (from to : option buffer) (opt : rangeOptions) (k : buffer) : Prop :=
  match from with
  | None => excludeFrom opt && excludeTo opt = false /\ to = Some k
  | Some from => (if excludeFrom opt then bytes_lt from k else bytes_le from k) /\ up_to to opt k
  end.

Lemma up_to_cmp to opt n k : up_to to opt k -> bytes_le n k ->
  let toCmp := match to with Some to => bytes_Compare n to | None => -1 end in
  (toCmp >? 0) || ((toCmp =? 0) && excludeTo opt) = false /\ ((toCmp =? 0) = true -> n = k).
Proof.
  unfold up_to. destruct to as [to|]; [|done]. intros Hup Hn. pose proof (bytes_Compare_spec n to) as (C1 & C2 & C3).
  destruct (bytes_Compare n to >? 0) eqn:E1; [exfalso; bool_to_prop; assert (bytes_lt to n) by (apply C3; lia); destruct (excludeTo opt); key_order|].
  destruct (bytes_Compare n to =? 0) eqn:E2; [|done]. bool_to_prop. apply C2 in E2 as ->. destruct (excludeTo opt); [exfalso; key_order|]. split; [done|]. intros _. key_order.
Qed.

Lemma scan_cons to opt g first n ns :
  scan to opt g first (n :: ns) =
    let toCmp := match to with Some to => bytes_Compare (n_key n) to | None => -1 end in
    if (toCmp >? 0) || ((toCmp =? 0) && excludeTo opt) then (g, [], n :: ns)
    else
      let call := if negb (first && excludeFrom opt) then [mkVisit (n_key n) (key_of g n) hasKey] else [] in
      if toCmp =? 0 then (g, call, n :: ns)
      else let '(g', calls, rest) := scan to opt (gap_of g n) false ns in (g', call ++ mkVisit (n_key n) (gap_of g n) hasGap :: calls, rest).
Proof. done. Qed.

(** A scan sees the value of every key it covers. *)
Lemma scan_sees to opt g first n ns k :
  sorted_nodes (n :: ns) -> up_to to opt k -> bytes_le (n_key n) k -> (first && excludeFrom opt = true -> n_key n <> k) ->
  value_at g (n :: ns) k ∈ vs_val <$> snd (fst (scan to opt g first (n :: ns))).
Proof.
  revert g first n. induction ns as [|n' ns IH]; intros g first n Hs Hup Hk Hfirst; destruct (up_to_cmp to opt (n_key n) k Hup Hk) as [E1 E2];
    rewrite scan_cons; cbv zeta; rewrite E1; cbn [value_at]; rewrite (decide_False (P := bytes_lt k (n_key n))) by (intros ?; key_order);
    destruct (decide (n_key n = k)) as [Ek|Nk].
  1,3: destruct (first && excludeFrom opt); [by destruct Hfirst|]; cbn [negb]; destruct (_ =? 0); [apply list_elem_of_here|]; destruct (scan _ _ _ _ _) as [[gs cs] rest]; apply list_elem_of_here.
  all: destruct (_ =? 0); [by destruct Nk; apply E2|].
  - cbn. rewrite fmap_app. apply elem_of_app. right. apply list_elem_of_here.
  - apply StronglySorted_inv in Hs as [Hs _]. destruct (decide (bytes_lt k (n_key n'))) as [Hlt|Hge].
    + destruct (scan _ _ _ _ _) as [[gs cs] rest]. cbn [fst snd]. rewrite fmap_app. apply elem_of_app. right. apply list_elem_of_here.
    + specialize (IH (gap_of g n) false n' Hs Hup Hge ltac:(done)). cbn [value_at] in IH. rewrite decide_False in IH by done.
      destruct (scan _ _ _ _ _) as [[gs cs] rest]. cbn [fst snd] in *. rewrite fmap_app. apply elem_of_app. right. apply list_elem_of_further. exact IH.
Qed.

Definition join_calls (calls : list visit) : readSpanVal := foldl (fun maxVal c => fst (ratchetValue maxVal (vs_val c))) zero_value calls.

Lemma join_calls_spec calls : Forall (fun c => fits (vs_val c)) calls ->
  fits (join_calls calls) /\ (forall v, v ∈ vs_val <$> calls -> val_le v (join_calls calls)) /\
  forall t, ts_le (mkTimestamp 0 0) t -> Forall (fun c => ts_le (rv_ts (vs_val c)) t) calls -> ts_le (rv_ts (join_calls calls)) t.
Proof.
  unfold join_calls. intros Hc. induction calls as [|c calls IH] using rev_ind; [split_and!; [apply fits_zero|by intros v ?%elem_of_nil|done]|].
  apply Forall_app in Hc as [Hcs Hc]. apply Forall_cons in Hc as [Hc _]. destruct (IH Hcs) as (H1 & H2 & H3). rewrite foldl_snoc, ratchetValue_fst. split; [|split].
  - by apply fits_ratchet.
  - intros v. rewrite fmap_app. intros [Hv|Hv]%elem_of_app; [eapply val_le_trans; [by apply H2|apply val_le_l]|].
    cbn in Hv. apply list_elem_of_singleton in Hv as ->. apply val_le_r.
  - intros t Ht Hts. apply Forall_app in Hts as [Hts Hts']. apply Forall_cons in Hts' as [Hts' _]. apply ratchet_ts; [by apply H3|done].
Qed.

(** The value that a page gives a key. *)
Definition page_value p (k : buffer) : readSpanVal := value_at zero_value (nodes p) k.

(** Values within the bound of a page. *)
Definition within p (v : readSpanVal) : Prop := fits v /\ ts_le (rv_ts v) (getMaxTimestamp p).

Lemma within_zero p : page_ok p -> within p zero_value.
Proof. intros Hok. pose proof (po_max _ Hok). split; [apply fits_zero|]. unfold ts_le, getMaxTimestamp. cbn. lia. Qed.

Lemma within_ratchet p v w : within p v -> within p w -> within p (ratchet v w).
Proof. intros [H1 H2] [H3 H4]. split; [by apply fits_ratchet|by apply ratchet_ts]. Qed.

Lemma within_node p g n : node_ok p n -> within p g -> within p (key_of g n) /\ within p (gap_of g n).
Proof. intros [H1 H2 _] Hg. unfold key_of, gap_of. destruct (n_init n); split; try done; by apply within_ratchet. Qed.

Lemma within_gap p g ns : Forall (node_ok p) ns -> within p g -> within p (gap_after g ns).
Proof. intros Ho. revert g. induction Ho as [|n ns Hn _ IH]; intros g Hg; [done|]. apply IH. by apply within_node. Qed.

Lemma within_value p g ns k : Forall (node_ok p) ns -> within p g -> within p (value_at g ns k).
Proof.
  intros Ho. revert g. induction Ho as [|n ns Hn _ IH]; intros g Hg; [done|]. cbn. destruct (within_node p g n Hn Hg). repeat case_decide; [done|done|by apply IH].
Qed.

Lemma within_scan p to opt g first ns : Forall (node_ok p) ns -> within p g -> Forall (fun c => within p (vs_val c)) (snd (fst (scan to opt g first ns))).
Proof.
  intros Ho. revert g first. induction Ho as [|n ns Hn _ IH]; intros g first Hg; [constructor|]. rewrite scan_cons. cbv zeta. destruct (within_node p g n Hn Hg) as [Hk Hgp].
  destruct (_ || _); [constructor|]. set (call := if negb _ then _ else _).
  assert (Forall (fun c => within p (vs_val c)) call) as Hc by (unfold call; destruct (negb _); [by apply Forall_singleton|by apply Forall_nil]).
  destruct (_ =? 0); [done|]. specialize (IH (gap_of g n) false Hgp). destruct (scan _ _ _ _ _) as [[gs cs] rest]. apply Forall_app. split; [done|]. by constructor.
Qed.

Lemma page_value_within p k : page_ok p -> within p (page_value p k).
Proof. intros Hok. apply within_value; [apply (po_nodes _ Hok)|by apply within_zero]. Qed.

Lemma visit_bounds_spec from to opt : match visit_bounds from to opt with
  | Some (f, t, o) => forall k, in_range from to opt k -> bytes_le f k /\ up_to t o k /\ (excludeFrom o = true -> f <> k)
  | None => forall k, ~ in_range from to opt k
  end.
Proof.
  unfold visit_bounds, in_range, up_to. destruct to as [to|], from as [from|]; cbn.
  - pose proof (bytes_Compare_spec from to) as (C1 & C2 & C3). destruct (bytes_Compare from to >? 0) eqn:E1; bool_to_prop.
    { assert (bytes_lt to from) by (apply C3; lia). intros k. destruct (excludeFrom opt), (excludeTo opt); intros [? ?]; key_order. }
    destruct (bytes_Compare from to =? 0) eqn:E2; bool_to_prop.
    + apply C2 in E2 as ->. destruct (excludeFrom opt) eqn:Ef, (excludeTo opt) eqn:Et; cbn; intros k; [intros [? ?]; key_order|..]; intros [? ?]; (split_and!; [key_order|key_order|done]).
    + intros k. destruct (excludeFrom opt); intros [Hf Ht]; (split_and!; [key_order|done|]); [|done]. intros _ ->. key_order.
  - destruct (excludeFrom opt && excludeTo opt); intros k [? [= ->]]; [done|]. split_and!; [key_order|key_order|done].
  - intros k. destruct (excludeFrom opt); intros [Hf Ht]; (split_and!; [key_order|done|]); [|done]. intros _ ->. key_order.
  - by intros k [_ ?].
Qed.

(** A lookup sees the value of every key of its range. *)
Lemma visit_calls_see from to opt lo hi k :
  sorted_nodes (lo ++ hi) -> Forall (below from) lo -> Forall (fun n => bytes_le from (n_key n)) hi ->
  bytes_le from k -> up_to to opt k -> (excludeFrom opt = true -> from <> k) ->
  value_at zero_value (lo ++ hi) k ∈ vs_val <$> visit_calls from to opt lo hi.
Proof.
  intros Hs Hlo Hhi Hk Hup Hne. rewrite value_at_app by (eapply Forall_impl; [exact Hlo|]; unfold below; intros m Hm; key_order).
  unfold visit_calls. set (g := gap_after zero_value lo). apply sorted_app_r in Hs. destruct (decide _) as [E|N].
  - destruct hi as [|n hi]; [done|]. injection E as En. apply scan_sees; [done|done|by rewrite En|]. rewrite En. apply Hne.
  - destruct hi as [|n hi]; [apply list_elem_of_here|]. destruct (decide (bytes_lt k (n_key n))) as [Hlt|Hge].
    + cbn. rewrite decide_True by done. apply list_elem_of_here.
    + apply list_elem_of_further. by apply scan_sees.
Qed.

(** A lookup of a single key sees its value only. *)
Lemma visit_calls_point k lo hi :
  sorted_nodes (lo ++ hi) -> Forall (below k) lo -> Forall (fun n => bytes_le k (n_key n)) hi -> pos (value_at zero_value (lo ++ hi) k) ->
  join_calls (visit_calls k (Some k) no_range_options lo hi) = value_at zero_value (lo ++ hi) k.
Proof.
  intros Hs Hlo Hhi. rewrite value_at_app by done. unfold visit_calls. set (g := gap_after zero_value lo). apply sorted_app_r in Hs. destruct (decide _) as [E|N].
  - destruct hi as [|n hi]; [done|]. injection E as <-. rewrite value_at_here, scan_cons, bytes_Compare_refl. cbn. rewrite ratchetValue_fst. done.
  - apply (head_beyond k hi Hs Hhi) in N as Hb. rewrite value_at_beyond by done. destruct hi as [|n hi]; [unfold join_calls; cbn; by rewrite ratchetValue_fst|]. apply Forall_cons in Hb as [Hn _].
    rewrite scan_cons. cbv zeta. destruct (bytes_Compare (n_key n) k >? 0) eqn:E; [unfold join_calls; cbn; by rewrite ratchetValue_fst|].
    exfalso. pose proof (bytes_Compare_spec (n_key n) k) as (_ & _ & C3). apply C3 in Hn. bool_to_prop. lia.
Qed.

Lemma page_lookup_spec from to opt p p' v :
  page_ok p -> page_lookupTimestampRange from to opt p = (p', v) ->
  page_ok p' /\ page_le p p' /\ eqv zero_value (nodes p) (nodes p') /\ (Forall (fun n => n_init n = true) (nodes p) -> p' = p) /\ within p v /\
  (forall k, in_range from to opt k -> val_le (page_value p k) v) /\ (forall k, from = None -> to = Some k -> opt = no_range_options -> v = page_value p k).
Proof.
  intros Hok E. unfold page_lookupTimestampRange in E. destruct (visitRange from to opt p) as [p1 calls] eqn:Ev. injection E as <- <-. fold (join_calls calls).
  pose proof (visit_bounds_spec from to opt) as Hb. destruct (visit_bounds from to opt) as [[[f t] o]|] eqn:Eb.
  - destruct (cut_nodes f (nodes p)) as (lo & hi & En & Hlo & Hhi); [apply (po_sorted _ Hok)|].
    destruct (visitRange_spec _ _ _ _ _ _ _ _ _ _ _ Hok Eb Ev En Hlo Hhi) as (G1 & G2 & G3 & -> & G5).
    assert (Forall (fun c => within p (vs_val c)) (visit_calls f t o lo hi)) as Hw.
    { pose proof (po_nodes _ Hok) as Ho. rewrite En, Forall_app in Ho. destruct Ho as [Ho1 Ho2]. unfold visit_calls.
      pose proof (within_gap p _ lo Ho1 (within_zero p Hok)) as Hg. case_decide; [by apply within_scan|]. constructor; [done|by apply within_scan]. }
    destruct (join_calls_spec (visit_calls f t o lo hi)) as (J1 & J2 & J3); [eapply Forall_impl; [exact Hw|]; by intros c [? _]|].
    split; [done|]. split; [done|]. split; [done|]. split; [done|]. split; [|split].
    + split; [done|]. apply J3; [apply (within_zero p Hok)|]. eapply Forall_impl; [exact Hw|]. by intros c [_ ?].
    + intros k Hk. destruct (Hb k Hk) as (H1 & H2 & H3). apply J2. unfold page_value. rewrite En. apply visit_calls_see; try done. rewrite <- En. apply (po_sorted _ Hok).
    + intros k -> -> ->. cbn in Eb. injection Eb as <- <- <-. unfold page_value. rewrite En. apply visit_calls_point; try done; rewrite <- En; [apply (po_sorted _ Hok)|apply (page_value_within p k Hok)].
  - unfold visitRange in Ev. rewrite Eb in Ev. injection Ev as <- <-. split_and!; try done; [apply eqv_refl|apply (within_zero p Hok)|intros k Hk; by destruct (Hb k)|].
    intros k -> -> ->. by destruct (Hb k).
Qed.

End page.
