(* ===== verification/TsCacheSerial.v ===== *)
(** * Serializing a page of the timestamp cache

    The visitor of [sklPage.serialize] (TsCache) stitches the key and gap values of the
    nodes back together to read spans. Shown: it does not panic, also with the
    assertions of test builds, the spans are sorted and disjoint, and they give each key
    of the serialized range exactly the value that a lookup gives it. *)

From S2P Require Import Prelude Hlc Encoding EncodingOrder Keys KeysOrder ReadSummary TsCache TsCachePage.

(** The value of a key in spans, where a zero value is none. *)
Definition some_value (v : readSpanVal) : option readSpanVal := if decide (v = zero_value) then None else Some v.

(** The calls for nodes that a scan passes. *)
Fixpoint node_calls (g : readSpanVal) (ns : list skl_node) : list visit :=
  match ns with
  | [] => []
  | n :: ns => mkVisit (n_key n) (key_of g n) hasKey :: mkVisit (n_key n) (gap_of g n) hasGap :: node_calls (gap_of g n) ns
  end.

Lemma scan_node_calls t g first mid rest : Forall (below t) mid -> Forall (fun n => bytes_le t (n_key n)) rest ->
  snd (fst (scan (Some t) (mkRangeOptions false true) g first (mid ++ rest))) = node_calls g mid.
Proof.
  intros Hm Hr. revert g first. induction Hm as [|n mid Hn _ IH]; intros g first.
  - destruct rest as [|n rest]; [done|]. apply Forall_cons in Hr as [Hn _]. cbn [app]. rewrite scan_cons. cbv zeta. pose proof (bytes_Compare_spec (n_key n) t) as (C1 & C2 & C3).
    destruct (bytes_Compare (n_key n) t >? 0) eqn:E1; [done|]. destruct (bytes_Compare (n_key n) t =? 0) eqn:E2; [done|]. exfalso. bool_to_prop. apply Hn, C1. lia.
  - cbn [app]. rewrite scan_cons. cbv zeta. pose proof (bytes_Compare_spec (n_key n) t) as (C1 & _). apply C1 in Hn.
    destruct (bytes_Compare (n_key n) t >? 0) eqn:E1; [exfalso; bool_to_prop; lia|]. destruct (bytes_Compare (n_key n) t =? 0) eqn:E2; [exfalso; bool_to_prop; lia|].
    rewrite andb_false_r. cbn [andb orb negb]. specialize (IH (gap_of g n) false). destruct (scan _ _ _ _ _) as [[gs cs] rs]. cbn in IH |- *. by rewrite IH.
Qed.

(** ** The state of the visitor between two nodes *)

(** The span that is pending: its start, its value, and whether it has a key. *)
Abbreviation pending := (option (buffer * readSpanVal * bool)) (only parsing).

Definition at_node (acc : list ReadSpan) (pend : pending) : serializer :=
  match pend with
  | None => mkSerializer (mkSegment (mkTimestamp 0 0) acc) empty_ReadSpan no_options
  | Some (s, v, keyed) => mkSerializer (mkSegment (mkTimestamp 0 0) acc) (mkSpan s [] v) (if keyed : bool then hasKeyGap else hasGap)
  end.

(** What the visitor adds when the pending span ends at [k]. *)
Definition closed (pend : pending) (k : buffer) : list ReadSpan :=
  match pend with
  | None => []
  | Some (s, v, _) => if decide (s = k) then [] else [mkSpan s k v]
  end.

Definition pend_ok (pend : pending) (g : readSpanVal) (pos_ : buffer) : Prop :=
  match pend with
  | None => True
  | Some (s, v, _) => s = pos_ /\ v = g /\ v <> zero_value
  end.

(** The spans added so far end by [lo]. *)
Definition ends_by (acc : list ReadSpan) (lo : buffer) : Prop :=
  forall l, last acc = Some l -> span_wf l /\ bytes_le (span_end l) lo.

Lemma ends_by_le acc lo lo' : ends_by acc lo -> bytes_le lo lo' -> ends_by acc lo'.
Proof. intros H Hle l Hl. destruct (H l Hl) as [H1 H2]. split; [done|key_order]. Qed.

Lemma AddReadSpan_spec assert_ acc s : ends_by acc (sp_key s) -> span_wf s -> pos (sp_value s) -> sp_value s <> zero_value ->
  Segment_AddReadSpan assert_ (mkSegment (mkTimestamp 0 0) acc) s = Ret (mkSegment (mkTimestamp 0 0) (acc ++ [s])).
Proof.
  intros He Hw Hp Nz. unfold Segment_AddReadSpan. cbn [seg_LowWater seg_ReadSpans].
  assert (Timestamp_LessEq (rv_ts (sp_value s)) (mkTimestamp 0 0) = false) as ->.
  { apply not_true_iff_false. rewrite Timestamp_LessEq_spec. intros Hle. apply Nz. pose proof (pos_ts _ Hp) as Hge.
    pose proof (pos_empty _ Hp) as Em. unfold Timestamp_IsEmpty in Em. rewrite bool_decide_eq_true_2 in Em; [symmetry in Em; by apply bool_decide_eq_true in Em|]. by apply (anti_symm ts_le). }
  destruct assert_; [|done]. unfold AddReadSpan_assert. cbn [seg_ReadSpans]. destruct Hw as (_ & _ & Hlt). unfold span_end in Hlt.
  pose proof (bytes_Compare_spec (sp_key s) (sp_endKey s)) as (C1 & _ & _).
  assert (negb (bool_decide (sp_endKey s = [])) && (bytes_Compare (sp_key s) (sp_endKey s) >=? 0) = false) as ->.
  { case_bool_decide; [done|]. cbn. apply C1 in Hlt. apply not_true_iff_false. intros E. bool_to_prop. lia. }
  cbn [obind]. destruct (last acc) as [l|] eqn:El; [|done]. destruct (He l El) as [(_ & _ & Hl) Hend].
  pose proof (bytes_Compare_spec (sp_key l) (sp_key s)) as (D1 & _ & _). pose proof (bytes_Compare_spec (sp_endKey l) (sp_key s)) as (_ & _ & F3).
  assert (bytes_lt (sp_key l) (sp_key s)) as Hls by key_order. apply D1 in Hls.
  assert ((bytes_Compare (sp_key l) (sp_key s) >=? 0) = false) as -> by (apply not_true_iff_false; intros E; bool_to_prop; lia).
  assert (negb (bool_decide (sp_endKey l = [])) && (bytes_Compare (sp_endKey l) (sp_key s) >? 0) = false) as ->; [|done].
  unfold span_end in Hend. case_bool_decide; [done|]. cbn. apply not_true_iff_false. intros E. bool_to_prop. apply Hend. apply F3. lia.
Qed.

(** A span from [s] to a key [k] after it. *)
Lemma range_wf s k v : Forall is_byte s -> Forall is_byte k -> bytes_le s k -> s <> k ->
  span_wf (mkSpan s k v) (V := readSpanVal) /\ bytes_le (span_end (mkSpan s k v) (V := readSpanVal)) k /\ span_end (mkSpan s k v) (V := readSpanVal) = k.
Proof.
  intros Bs Bk Hle N. assert (bytes_lt s k) as Hlt by key_order.
  assert (span_end (mkSpan s k v) (V := readSpanVal) = k) as E by (unfold span_end; cbn; rewrite bool_decide_eq_false_2; [done|intros ->; by destruct s]).
  rewrite E. split_and!; [split_and!; [done|done|by rewrite E]|key_order|done].
Qed.

Lemma closed_ends acc pend g k lo :
  pend_ok pend g lo -> ends_by acc lo -> bytes_le lo k -> Forall is_byte lo -> Forall is_byte k -> ends_by (acc ++ closed pend k) k.
Proof.
  intros Hp He Hle Blo Bk. unfold closed. destruct pend as [[[s v] keyed]|]; [|rewrite app_nil_r; by apply (ends_by_le _ lo)]. destruct Hp as (-> & -> & _).
  case_decide; [rewrite app_nil_r; by apply (ends_by_le _ lo)|]. intros l. rewrite last_snoc. intros [= <-]. by split; apply range_wf.
Qed.

(** The first thing a call does: it ends the pending span. *)
Lemma close_spec assert_ acc pend g k c lo :
  pend_ok pend g lo -> ends_by acc lo -> bytes_le lo k -> pos g -> Forall is_byte lo -> Forall is_byte k ->
  (forall s v, pend = Some (s, v, true) -> s <> k) -> vs_key c = k -> vs_opt c = hasKey ->
  serialize_visit assert_ (at_node acc pend) c = Ret (serialize_new k (vs_val c) hasKey (at_node (acc ++ closed pend k) None)).
Proof.
  intros Hp He Hle Hg Blo Bk Hkey <- Hopt. unfold serialize_visit. destruct pend as [[[s v] keyed]|]; cbn [at_node sz_lastOpts sz_lastSpan closed].
  - destruct Hp as (-> & -> & Nz). replace (no_hasGap (if keyed then hasKeyGap else hasGap)) with true by (by destruct keyed). cbn [sp_key].
    case_bool_decide as E.
    + rewrite decide_True by done. destruct keyed; [by destruct (Hkey lo g eq_refl)|]. cbn. by rewrite Hopt, app_nil_r.
    + rewrite decide_False by done. unfold flushLastSpan. cbn [sz_seg sz_lastSpan sp_key sp_value]. rewrite AddReadSpan_spec; [cbn; by rewrite Hopt|done| |done|done].
      by apply range_wf.
  - rewrite app_nil_r. cbn. by rewrite Hopt.
Qed.

(** ** One node *)

Definition key_span (k : buffer) (kv gv : readSpanVal) : list ReadSpan :=
  if decide (kv = zero_value) then [] else if decide (kv = gv) then [] else [mkSpan k [] kv].

Definition next_pend (k : buffer) (kv gv : readSpanVal) : pending :=
  if decide (gv = zero_value) then None else if decide (kv = gv) then Some (k, gv, true) else Some (BytesNext k, gv, false).

(** From where on the spans are not known yet. *)
Definition next_pos (k : buffer) (kv gv : readSpanVal) : buffer :=
  if decide (gv = zero_value) then BytesNext k else if decide (kv = gv) then k else BytesNext k.

Lemma next_pend_ok k kv gv : pend_ok (next_pend k kv gv) gv (next_pos k kv gv).
Proof. unfold next_pend, next_pos. repeat case_decide; by cbn. Qed.

Lemma serialize_new_spec k v opt acc : pos v ->
  serialize_new k v opt (at_node acc None) =
    if decide (v = zero_value) then at_node acc None
    else mkSerializer (mkSegment (mkTimestamp 0 0) acc) (mkSpan (if negb (no_hasKey opt) then BytesNext k else k) [] v) opt.
Proof. intros Hv. unfold serialize_new. rewrite (pos_empty v Hv). case_bool_decide; case_decide; try done. Qed.

Lemma visit_none assert_ acc c :
  serialize_visit assert_ (at_node acc None) c = Ret (serialize_new (vs_key c) (vs_val c) (vs_opt c) (at_node acc None)).
Proof. done. Qed.

Lemma point_wf k : Forall is_byte k -> forall v, span_wf (mkSpan k [] v) (V := readSpanVal).
Proof. intros Bk v. split_and!; [done|done|]. apply BytesNext_lt. Qed.

Lemma node_step assert_ acc pend g lo n :
  pend_ok pend g lo -> ends_by acc lo -> bytes_le lo (n_key n) -> pos g -> Forall is_byte lo -> Forall is_byte (n_key n) ->
  (forall s v, pend = Some (s, v, true) -> s <> n_key n) -> pos (key_of g n) -> pos (gap_of g n) ->
  let k := n_key n in let kv := key_of g n in let gv := gap_of g n in
  serialize_visits assert_ (at_node acc pend) [mkVisit k kv hasKey; mkVisit k gv hasGap] =
    Ret (at_node (acc ++ closed pend k ++ key_span k kv gv) (next_pend k kv gv)).
Proof.
  intros Hp He Hle Hg Blo Bk Hkey Pk Pg k kv gv. cbn [serialize_visits].
  rewrite (close_spec assert_ acc pend g k _ lo); try done. cbn [obind vs_val]. rewrite serialize_new_spec by done. unfold key_span, next_pend.
  rewrite !app_assoc. set (acc1 := acc ++ closed pend k). case_decide as Ez.
  - rewrite app_nil_r, visit_none. cbn [obind vs_key vs_val vs_opt]. rewrite serialize_new_spec by done. case_decide; [done|]. by rewrite decide_False by congruence.
  - unfold serialize_visit. cbn [sz_lastOpts sz_lastSpan hasKey no_hasGap]. rewrite bool_decide_eq_true_2 by done. cbn [sp_key sp_value vs_key vs_val vs_opt negb no_hasKey].
    rewrite (bool_decide_eq_true_2 (k = k)) by done. cbn [andb]. destruct (decide (kv = gv)) as [E|N].
    + rewrite bool_decide_eq_true_2 by done. rewrite bool_decide_eq_true_2 by done. cbn. rewrite app_nil_r, decide_False by congruence. by rewrite E.
    + rewrite bool_decide_eq_false_2 by done. unfold flushLastSpan. cbn [sz_seg sz_lastSpan sp_key sp_value].
      rewrite AddReadSpan_spec; [|by apply (closed_ends acc pend g k lo)|by apply point_wf|done|done]. cbn [obind].
      match goal with |- Ret ?z = _ => change z with (serialize_new k gv hasGap (at_node (acc1 ++ [mkSpan k [] kv]) None)) end.
      rewrite serialize_new_spec by done. by case_decide.
Qed.


(** ** All nodes *)

Lemma serialize_visits_app assert_ z a b :
  serialize_visits assert_ z (a ++ b) = let! z := serialize_visits assert_ z a in serialize_visits assert_ z b.
Proof. revert z. induction a as [|c a IH]; intros z; [done|]. cbn. destruct (serialize_visit assert_ z c); cbn; [apply IH|done]. Qed.

Lemma spans_at_app {V} (a b : list (span V)) k : spans_at (a ++ b) k = match spans_at a k with Some v => Some v | None => spans_at b k end.
Proof. induction a as [|s a IH]; [done|]. cbn. by destruct (covers s k). Qed.

Lemma spans_at_one {V} (s : span V) k : spans_at [s] k = if decide (bytes_le (sp_key s) k /\ bytes_lt k (span_end s)) then Some (sp_value s) else None.
Proof. cbn. destruct (covers s k) eqn:E; case_decide as D; try done; [by apply covers_spec in E|]. apply covers_spec in D. congruence. Qed.

Definition node_pos (n : skl_node) : Prop := pos (fst (n_values n)) /\ pos (snd (n_values n)).

Lemma node_pos_of g n : node_pos n -> pos g -> pos (key_of g n) /\ pos (gap_of g n).
Proof. intros [H1 H2] Hg. unfold key_of, gap_of. destruct (n_init n); [done|]. split; by apply pos_ratchet. Qed.

(** The spans of the values between [lo] and a key [k], and of the key itself. *)
Lemma closed_at pend g lo k x : pend_ok pend g lo -> Forall is_byte lo -> Forall is_byte k -> bytes_le lo k -> bytes_le lo x ->
  spans_at (closed pend k) x = if decide (bytes_lt x k) then match pend with Some _ => Some g | None => None end else None.
Proof.
  intros Hp Blo Bk Hle Hx. unfold closed. destruct pend as [[[s v] keyed]|]; [|by case_decide]. destruct Hp as (-> & -> & _).
  destruct (decide (lo = k)) as [->|N]; [case_decide; [key_order|done]|]. rewrite spans_at_one. destruct (range_wf lo k g Blo Bk Hle N) as (_ & _ & ->). cbn.
  destruct (decide (_ /\ _)) as [[D1 D2]|D1], (decide (bytes_lt x k)) as [D3|D3]; try done. by destruct D1.
Qed.

Lemma key_span_at k kv gv x : Forall is_byte x -> spans_at (key_span k kv gv) x = if decide (x = k) then (if decide (kv = gv) then None else some_value kv) else None.
Proof.
  intros Bx. unfold key_span, some_value. destruct (decide (kv = zero_value)); [by repeat case_decide|]. destruct (decide (kv = gv)); [by case_decide|].
  rewrite spans_at_one. cbn. change (span_end (mkSpan k [] kv)) with (BytesNext k). destruct (decide (_ /\ _)) as [[D1 D2]|D1], (decide (x = k)) as [->|D3]; try done.
  - destruct D3. assert (~ bytes_lt k x) by (rewrite BytesNext_le by done; intros ?; key_order). key_order.
  - destruct D1. split; [key_order|apply BytesNext_lt].
Qed.

Lemma spans_from_closed pend g lo k rest : pend_ok pend g lo -> Forall is_byte lo -> Forall is_byte k -> bytes_le lo k -> spans_from k rest ->
  spans_from lo (closed pend k ++ rest).
Proof.
  intros Hp Blo Bk Hle Hr. unfold closed. destruct pend as [[[s v] keyed]|]; [|by apply (spans_from_weaken k)]. destruct Hp as (-> & -> & _).
  case_decide as E; [by subst k|]. destruct (range_wf lo k g Blo Bk Hle E) as (Hw & _ & He). cbn. rewrite He. split_and!; try done. key_order.
Qed.

Lemma next_pos_le k kv gv : bytes_le k (next_pos k kv gv) /\ bytes_le (next_pos k kv gv) (BytesNext k).
Proof. pose proof (BytesNext_lt k). unfold next_pos. repeat case_decide; split; key_order. Qed.

Lemma spans_from_key k kv gv rest : Forall is_byte k -> spans_from (next_pos k kv gv) rest -> spans_from k (key_span k kv gv ++ rest).
Proof.
  intros Bk Hr. destruct (next_pos_le k kv gv) as [Hge _]. unfold key_span. destruct (decide (kv = zero_value)); [by apply (spans_from_weaken (next_pos k kv gv))|].
  destruct (decide (kv = gv)) as [E|N]; [by apply (spans_from_weaken (next_pos k kv gv))|]. cbn. split_and!; [key_order|by apply point_wf|].
  change (span_end (mkSpan k [] kv)) with (BytesNext k). unfold next_pos in Hr. by destruct (decide (gv = zero_value)); [|rewrite decide_False in Hr].
Qed.

Lemma closed_keys pend g lo k : pend_ok pend g lo -> bytes_le lo k -> Forall (fun s => bytes_lt (sp_key s) k) (closed pend k).
Proof. intros Hp Hle. destruct pend as [[[s v] keyed]|]; [|constructor]. destruct Hp as (-> & _). cbn. case_decide; [constructor|]. repeat constructor. cbn. key_order. Qed.

(** The end of the visitor's work, at the end of the range. *)
Definition serial_end (assert_ : bool) (t : buffer) (z : outcome serializer) : outcome Segment :=
  let! z := z in
  let! z := serialize_visit assert_ z (mkVisit t zero_value hasKey) in
  Ret (sz_seg z).

(** A pending span stands for the gap value, up to the next node. *)
Record between (pend : pending) (g : readSpanVal) (lo t : buffer) (ns : list skl_node) : Prop := {
  bw_ok : pend_ok pend g lo;
  bw_none : pend = None -> g = zero_value \/ exists n ns', ns = n :: ns' /\ n_key n = lo;
  bw_keyed s v : pend = Some (s, v, true) -> bytes_lt lo t /\ Forall (beyond lo) ns;
  bw_bytes : Forall is_byte lo /\ Forall is_byte t /\ Forall (fun n => Forall is_byte (n_key n)) ns;
  bw_order : bytes_le lo t /\ Forall (fun n => bytes_le lo (n_key n)) ns /\ Forall (below t) ns /\ sorted_nodes ns;
  bw_pos : pos g /\ Forall node_pos ns
}.

Lemma between_next pend g lo t n ns : between pend g lo t (n :: ns) ->
  between (next_pend (n_key n) (key_of g n) (gap_of g n)) (gap_of g n) (next_pos (n_key n) (key_of g n) (gap_of g n)) t ns.
Proof.
  intros [_ _ _ (B1 & B2 & B3) (O1 & O2 & O3 & O4) [P1 P2]]. apply Forall_cons in B3 as [Bk B3], O2 as [Ok O2], O3 as [Hkt O3], P2 as [Pn P2].
  apply StronglySorted_inv in O4 as [O4 Hbey]. destruct (node_pos_of g n Pn P1) as [Pk Pg]. destruct (next_pos_le (n_key n) (key_of g n) (gap_of g n)) as [L1 L2].
  assert (bytes_le (BytesNext (n_key n)) t) as Hnt by (by apply BytesNext_le).
  split; [apply next_pend_ok| | |split_and!; [|done|done]|split_and!; [key_order| |done|done]|done].
  - unfold next_pend. case_decide; [by left|]. by case_decide.
  - unfold next_pend, next_pos. intros s v. repeat case_decide; done.
  - unfold next_pos. repeat case_decide; [by apply BytesNext_bytes|done|by apply BytesNext_bytes].
  - rewrite Forall_forall in Hbey, B3 |- *. intros m Hm. assert (bytes_le (BytesNext (n_key n)) (n_key m)) by (apply BytesNext_le; [by apply B3|by apply Hbey]). key_order.
Qed.

Lemma next_ends acc pend g lo n : pend_ok pend g lo -> ends_by acc lo -> bytes_le lo (n_key n) -> Forall is_byte lo -> Forall is_byte (n_key n) ->
  let k := n_key n in forall kv gv, ends_by (acc ++ closed pend k ++ key_span k kv gv) (next_pos k kv gv).
Proof.
  intros Hp He Hle Blo Bk k kv gv. pose proof (closed_ends acc pend g k lo Hp He Hle Blo Bk) as Hc. destruct (next_pos_le k kv gv) as [L1 _].
  rewrite app_assoc. unfold key_span, next_pos in *. destruct (decide (kv = zero_value)); [rewrite app_nil_r; by apply (ends_by_le _ k)|].
  destruct (decide (kv = gv)); [rewrite app_nil_r; by apply (ends_by_le _ k)|]. intros l. rewrite last_snoc. intros [= <-]. split; [by apply point_wf|].
  change (span_end (mkSpan k [] kv)) with (BytesNext k). case_decide; key_order.
Qed.

Lemma serial_nodes assert_ t ns g acc pend lo : between pend g lo t ns -> ends_by acc lo ->
  exists new, serial_end assert_ t (serialize_visits assert_ (at_node acc pend) (node_calls g ns)) = Ret (mkSegment (mkTimestamp 0 0) (acc ++ new)) /\
    spans_from lo new /\ Forall (fun s => bytes_lt (sp_key s) t) new /\
    forall k, Forall is_byte k -> bytes_le lo k -> bytes_lt k t -> spans_at new k = some_value (value_at g ns k).
Proof.
  revert g acc pend lo. induction ns as [|n ns IH]; intros g acc pend lo Hb He; pose proof Hb as [Hp Hnone Hkey (B1 & B2 & B3) (O1 & O2 & O3 & O4) [P1 P2]].
  - exists (closed pend t). cbn [node_calls serialize_visits serial_end obind].
    assert (forall s v, pend = Some (s, v, true) -> s <> t) as Hst by (intros s v E; destruct (Hkey s v E); subst pend; destruct Hp as (-> & _); intros ->; key_order).
    rewrite (close_spec assert_ acc pend g t _ lo) by done.
    cbn [obind vs_val]. rewrite serialize_new_spec by apply pos_zero. rewrite decide_True by done. split; [done|]. split; [|split].
    + rewrite <- (app_nil_r (closed pend t)). by apply (spans_from_closed pend g).
    + by apply (closed_keys pend g lo).
    + intros k Bk Hk Hkt. rewrite (closed_at pend g lo t k) by done. rewrite decide_True by done. cbn. unfold some_value.
      destruct pend as [[[s v] keyed]|]; [destruct Hp as (_ & <- & Nz); by rewrite decide_False|]. destruct (Hnone eq_refl) as [->|(? & ? & ? & _)]; [by rewrite decide_True|done].
  - apply Forall_cons in B3 as [Bk B3], O2 as [Ok O2], O3 as [Hkt O3], P2 as [Pn P2]. destruct (node_pos_of g n Pn P1) as [Pk Pg].
    set (k0 := n_key n) in *. set (kv := key_of g n) in *. set (gv := gap_of g n) in *.
    destruct (IH gv (acc ++ closed pend k0 ++ key_span k0 kv gv) (next_pend k0 kv gv) (next_pos k0 kv gv)) as (new & E & Hfrom & Hkeys & Hat);
      [by apply (between_next pend g lo t n ns)|by apply (next_ends acc pend g lo n)|].
    assert (forall s v, pend = Some (s, v, true) -> s <> n_key n) as Hst.
    { intros s v Es. destruct (Hkey s v Es) as [_ Hbey]. apply Forall_cons in Hbey as [Hbey _]. unfold beyond in Hbey. subst pend. destruct Hp as (-> & _). intros E'. rewrite <- E' in Hbey. key_order. }
    exists (closed pend k0 ++ key_span k0 kv gv ++ new). split; [|split; [|split]].
    + cbn [node_calls]. fold k0 kv gv. change (?a :: ?b :: node_calls gv ns) with ([a; b] ++ node_calls gv ns). rewrite serialize_visits_app.
      pose proof (node_step assert_ acc pend g lo n Hp He Ok P1 B1 Bk Hst Pk Pg) as Hstep. cbv zeta in Hstep. fold k0 kv gv in Hstep. rewrite Hstep.
      cbn [obind]. rewrite E. by rewrite <- !app_assoc.
    + apply (spans_from_closed pend g); try done. by apply spans_from_key.
    + apply Forall_app. split; [eapply Forall_impl; [by apply (closed_keys pend g lo)|]; intros s Hs; unfold below in Hkt; fold k0 in Hkt; cbn in Hs; key_order|].
      apply Forall_app. split; [|done]. unfold key_span. repeat case_decide; by repeat constructor.
    + intros k Bkk Hk Ht. rewrite !spans_at_app, (closed_at pend g lo k0 k), (key_span_at k0 kv gv k) by done. cbn [value_at]. fold k0 kv gv.
      destruct (next_pos_le k0 kv gv) as [L1 L2]. apply StronglySorted_inv in O4 as [_ Hbey].
      destruct (decide (bytes_lt k k0)) as [Hlt|Hge].
      * rewrite (decide_False (P := k = k0)) by (intros ->; key_order). rewrite (spans_at_below (next_pos k0 kv gv)) by (done || key_order). unfold some_value.
        destruct pend as [[[s v] keyed]|]; [destruct Hp as (_ & <- & Nz); by rewrite decide_False|].
        destruct (Hnone eq_refl) as [->|(? & ? & [= <- <-] & <-)]; [by rewrite decide_True|]. fold k0 in Hk. key_order.
      * destruct (decide (k = k0)) as [->|N].
        -- rewrite (decide_True (P := n_key n = k0)) by done. destruct (decide (kv = gv)) as [Ev|Nv].
           ++ unfold next_pos in Hfrom, Hat, L1. rewrite Ev. destruct (decide (gv = zero_value)) as [Ez|Nz].
              ** rewrite (spans_at_below (BytesNext k0)) by (done || apply BytesNext_lt). unfold some_value. by rewrite decide_True.
              ** rewrite (decide_True (P := kv = gv)) in Hat by done. rewrite Hat by (done || key_order). f_equal. apply value_at_beyond. exact Hbey.
           ++ destruct (some_value kv) as [v|] eqn:Ev; [done|]. apply (spans_at_below (next_pos k0 kv gv)); [done|]. unfold next_pos. rewrite (decide_False (P := kv = gv)) by done.
              case_decide; apply BytesNext_lt.
        -- rewrite (decide_False (P := n_key n = k)) by (intros E'; apply N; by rewrite <- E'). apply Hat; [done| |done].
           assert (bytes_le (BytesNext k0) k) by (apply BytesNext_le; [done|key_order]). key_order.
Qed.

(** ** A page *)

Lemma value_at_cut g mid rest k t : Forall (fun n => bytes_le t (n_key n)) rest -> bytes_lt k t -> value_at g (mid ++ rest) k = value_at g mid k.
Proof.
  intros Hr Hk. revert g. induction mid as [|n mid IH]; intros g; cbn.
  - apply value_at_beyond. eapply Forall_impl; [exact Hr|]. unfold beyond. intros n Hn. cbn in Hn. key_order.
  - by rewrite IH.
Qed.

Section page.
Context {L : Type} `{ArenasklLaws L}.
Implicit Types p : sklPage L.

Definition byte_keys p : Prop := Forall (fun n => Forall is_byte (n_key n)) (nodes p).

Lemma byte_keys_eqv p p' : eqv zero_value (nodes p) (nodes p') -> byte_keys p -> byte_keys p'.
Proof.
  unfold byte_keys. intros E%eqv_keys Hb. rewrite Forall_forall in Hb. apply Forall_forall. intros n Hn.
  apply (list_elem_of_fmap_2 n_key) in Hn. rewrite <- E in Hn. apply list_elem_of_fmap in Hn as (m & -> & Hm). by apply Hb.
Qed.

Lemma page_serialize_spec assert_ f t p : page_ok p -> byte_keys p -> Forall is_byte f -> Forall is_byte t -> bytes_lt f t ->
  exists p' spans, page_serialize assert_ (Some f) (Some t) p = (p', Ret (mkSegment (mkTimestamp 0 0) spans)) /\
    page_ok p' /\ page_le p p' /\ eqv zero_value (nodes p) (nodes p') /\ (Forall (fun n => n_init n = true) (nodes p) -> p' = p) /\ spans_from f spans /\ Forall (fun s => bytes_lt (sp_key s) t) spans /\
    forall k, Forall is_byte k -> bytes_le f k -> bytes_lt k t -> spans_at spans k = some_value (page_value p k).
Proof.
  intros Hok Hbk Bf Bt Hft. unfold page_serialize. destruct (visitRange _ _ _ p) as [p' calls] eqn:Ev. cbn [default].
  assert (visit_bounds (Some f) (Some t) (mkRangeOptions false true) = Some (f, Some t, mkRangeOptions false true)) as Eb.
  { unfold visit_bounds. pose proof (bytes_Compare_spec f t) as (C1 & _ & _). apply C1 in Hft. destruct (_ >? 0) eqn:E1; [exfalso; bool_to_prop; lia|].
    destruct (_ =? 0) eqn:E2; [exfalso; bool_to_prop; lia|done]. }
  pose proof (po_sorted _ Hok) as Hs. pose proof (po_nodes _ Hok) as Ho. unfold byte_keys in Hbk.
  destruct (cut_nodes f (nodes p) Hs) as (lo & hi & En & Hlo & Hhi). destruct (visitRange_spec _ _ _ _ _ _ _ _ _ _ _ Hok Eb Ev En Hlo Hhi) as (G1 & G2 & G3 & -> & G5).
  rewrite En in Hs, Ho, Hbk. apply Forall_app in Ho as [Ho1 Ho2], Hbk as [_ Hb2]. apply sorted_app_r in Hs. destruct (cut_nodes t hi Hs) as (mid & rest & -> & Hm & Hr).
  set (G := gap_after zero_value lo). assert (pos G) as PG by apply (within_gap p _ lo Ho1 (within_zero p Hok)).
  apply Forall_app in Ho2 as [Ho2 _], Hb2 as [Hb2 _]. assert (Forall (fun n => bytes_le f (n_key n)) mid) as Hfm by (by apply Forall_app in Hhi as [? _]).
  assert (Forall node_pos mid) as Pm by (eapply Forall_impl; [exact Ho2|]; intros n [[[? _] _] [[? _] _] _]; done).
  assert (sorted_nodes mid) as Hsm by (clear -Hs; induction mid as [|n mid IH]; [constructor|]; apply StronglySorted_inv in Hs as [H1 H2]; constructor; [by apply IH|by apply Forall_app in H2 as [? _]]).
  assert (forall pend, (pend = None -> G = zero_value \/ exists n ns', mid = n :: ns' /\ n_key n = f) -> pend_ok pend G f -> (forall s v, pend = Some (s, v, true) -> Forall (beyond f) mid) ->
    exists p1 spans, (p', serial_end assert_ t (serialize_visits assert_ (at_node [] pend) (node_calls G mid))) = (p1, Ret (mkSegment (mkTimestamp 0 0) spans)) /\
    page_ok p1 /\ page_le p p1 /\ eqv zero_value (nodes p) (nodes p1) /\ (Forall (fun n => n_init n = true) (nodes p) -> p1 = p) /\ spans_from f spans /\ Forall (fun s => bytes_lt (sp_key s) t) spans /\
    forall k, Forall is_byte k -> bytes_le f k -> bytes_lt k t -> spans_at spans k = some_value (page_value p k)) as Hmain.
  { intros pend Hnone Hpend Hkeyed. destruct (serial_nodes assert_ t mid G [] pend f) as (new & E & Hfrom & Hkeys & Hat); [|by intros l|].
    - split; try done; [|split_and!; try done; key_order]. intros s v Es. split; [done|]. by apply (Hkeyed s v).
    - exists p', new. rewrite E. split_and!; try done. intros k Bk H1 H2. rewrite Hat by done. f_equal. unfold page_value. rewrite En.
      rewrite value_at_app by (eapply Forall_impl; [exact Hlo|]; unfold below; intros n Hn; key_order). symmetry. by apply (value_at_cut _ _ _ _ t). }
  unfold visit_calls. fold G. destruct (decide _) as [E|N].
  - rewrite scan_node_calls by done. apply (Hmain None); [intros _; right| done|done]. destruct mid as [|n mid]; [|cbn in E; injection E as E; by exists n, mid].
    exfalso. destruct rest as [|n rest]; [done|]. cbn in E. injection E as E. apply Forall_cons in Hr as [Hr _]. rewrite E in Hr. key_order.
  - change (mkRangeOptions false true <| excludeFrom := false |>) with (mkRangeOptions false true). rewrite scan_node_calls by done.
    cbn [serialize_visits]. change (mkSerializer (mkSegment (mkTimestamp 0 0) []) empty_ReadSpan no_options) with (at_node [] None). rewrite visit_none. cbn [obind vs_key vs_val vs_opt].
    rewrite serialize_new_spec by done. case_decide as Ez; [apply (Hmain None); [intros _; by left|done|done]|]. cbn [negb hasKeyGap no_hasKey].
    apply (Hmain (Some (f, G, true))); [done|done|]. intros s v _. assert (Forall (beyond f) (mid ++ rest)) as Hbey by (by apply head_beyond). by apply Forall_app in Hbey as [? _].
Qed.

End page.
