(* ===== verification/TsCacheAdd.v ===== *)
(** * Adding to a page of the timestamp cache

    The effect of [addNode] and [ensureFloorValue] (TsCache) on the values that a page
    gives its keys: when the arena has space, adding a range raises the values of its keys
    to the value that is added and leaves all others alone; when it is full, values only
    grow, and the page is left to be rotated out. *)

From S2P Require Import Prelude Hlc Encoding EncodingOrder Keys KeysOrder ReadSummary TsCache TsCachePage.

Definition inited (ns : list skl_node) : Prop := Forall (fun n => n_init n = true) ns.

Lemma inited_values n g : n_init n = true -> key_of g n = fst (n_values n) /\ gap_of g n = snd (n_values n).
Proof. intros Hn. unfold key_of, gap_of. by rewrite Hn. Qed.

(** What reaches initialized nodes only matters before the first of them. *)
Lemma value_at_inited g g' ns k : inited ns -> (exists n, n ∈ ns /\ bytes_le (n_key n) k) -> sorted_nodes ns -> value_at g ns k = value_at g' ns k.
Proof.
  intros Hi (m & Hm & Hk) Hs. destruct ns as [|n ns]; [by apply elem_of_nil in Hm|]. apply Forall_cons in Hi as [Hn _]. cbn.
  apply StronglySorted_inv in Hs as [_ Hs]. rewrite Forall_forall in Hs. destruct (decide (bytes_lt k (n_key n))) as [Hlt|_].
  - exfalso. apply elem_of_cons in Hm as [->|Hm]; [key_order|]. specialize (Hs m Hm). cbn in Hs. key_order.
  - destruct (inited_values n g Hn) as [-> ->], (inited_values n g' Hn) as [-> ->]. done.
Qed.

Lemma inited_eqv g ns ns' : eqv g ns ns' -> inited ns -> inited ns'.
Proof.
  revert g ns'. induction ns as [|n ns IH]; intros g [|n' ns']; cbn; try done. intros (_ & E & _ & _ & E5) Hi. apply Forall_cons in Hi as [Hn Hi].
  constructor; [congruence|by apply (IH (gap_of g n))].
Qed.

(** The values of nodes around one with the key [n_key n]. *)
Lemma value_at_split g lo n post k : sorted_nodes (lo ++ n :: post) ->
  value_at g (lo ++ n :: post) k =
    if decide (bytes_lt k (n_key n)) then value_at g lo k
    else if decide (n_key n = k) then key_of (gap_after g lo) n else value_at (gap_of (gap_after g lo) n) post k.
Proof.
  intros Hs. destruct (sorted_split _ _ _ Hs) as (Hb & Ha & _ & _). destruct (decide (bytes_lt k (n_key n))) as [Hlt|Hge].
  - revert g. clear Hs. induction lo as [|m lo IH]; intros g; cbn; [by rewrite decide_True|]. apply Forall_cons in Hb as [_ Hb]. by rewrite IH.
  - rewrite value_at_app by (eapply Forall_impl; [exact Hb|]; unfold below; intros m Hm; key_order). cbn. by rewrite decide_False.
Qed.

(** Nodes beyond a key do not matter for it. *)
Lemma value_at_prefix g lo hi k : Forall (beyond k) hi -> value_at g (lo ++ hi) k = value_at g lo k.
Proof.
  intros Hhi. revert g. induction lo as [|m lo IH]; intros g; cbn; [by apply value_at_beyond|by rewrite IH].
Qed.

Section add.
Context {L : Type} `{ArenasklLaws L}.
Implicit Types p : sklPage L.

(** A page that is written to: all of its nodes are initialized. *)
Record front_ok p : Prop := {
  fo_page : page_ok p;
  fo_full : pg_isFull p = false;
  fo_init : inited (nodes p)
}.

(** The values only grew. *)
Definition values_le p p' : Prop := forall k, val_le (page_value p k) (page_value p' k).

(** ** Initializing a node that was just added *)

Lemma ensureInitialized_spec key p p' it full lo n hi :
  page_ok p -> nodes p = lo ++ n :: hi -> n_key n = key -> n_init n = false -> no_cantInit (n_meta n) = false -> pg_isFull p = false -> inited lo -> inited hi ->
  ensureInitialized (Some key) key p = (p', it, full) ->
  let g := gap_after zero_value lo in
  page_ok p' /\ page_le p p' /\ it = Some key /\
  if full then pg_isFull p' = true /\ eqv zero_value (nodes p) (nodes p')
  else pg_isFull p' = false /\ inited (nodes p') /\
    exists n', n_key n' = key /\ n_init n' = true /\ n_values n' = (key_of g n, gap_of g n) /\ eqv zero_value (lo ++ n' :: hi) (nodes p').
Proof.
  intros Hok En Hkey Hi Hc Hf Ilo Ihi E g. pose proof (po_sorted _ Hok) as Hs. rewrite En in Hs. destruct (sorted_split _ _ _ Hs) as (Hlo & Hhi & _ & _). rewrite Hkey in Hlo, Hhi.
  unfold ensureInitialized in E. destruct (incomingGapVal _ _ _) as [[p1 it1] g1] eqn:Ei.
  destruct (incomingGapVal_spec (Some key) key p p1 it1 g1 lo (n :: hi) Hok En Hlo) as (Hok1 & Hle1 & Heq & -> & -> & Fg & _ & Hst); [|by right; exists n, hi|done|].
  { constructor; [rewrite Hkey; key_order|]. eapply Forall_impl; [exact Hhi|]. unfold beyond. intros m Hm. key_order. }
  fold g in E, Fg. pose proof Heq as Heq'. rewrite En in Heq. apply eqv_app_inv in Heq as (lo1 & [|n1 hi1] & En1 & Elo & Ehi); [done|]. fold g in Ehi.
  destruct Ehi as (K1 & K2 & K3 & K4 & K5). cbn [head fmap option_fmap option_map] in E. rewrite Hkey in E.
  destruct (ratchetValueSet key _ _ _ _ _) as [p2 full2] eqn:Er. injection E as -> <- ->. rewrite <- Hkey, K1 in Er.
  destruct (ratchetValueSet_spec _ _ _ _ _ _ _ _ _ _ Hok1 En1 Fg Fg Er) as (n2 & En2 & Ek2 & Hok2 & Hle2 & Hc2 & Hv).
  assert (n_init n1 = false) as Hi1 by congruence. split_and!; [done|by transitivity p1|done|]. destruct full.
  - destruct Hv as (V1 & V2 & V3). split; [done|]. apply (eqv_trans _ _ (nodes p1)); [done|]. rewrite En1, En2. apply eqv_app; [apply eqv_refl|].
    cbn. unfold key_of, gap_of. rewrite V1, V2. split_and!; try done. apply eqv_refl.
  - rewrite Hi1 in Hv. destruct Hv as (V1 & V2 & V3 & V4). cbn in V3. assert (inited lo1 /\ inited hi1) as [Ilo1 Ihi1] by (split; by eapply inited_eqv).
    assert (n_values n2 = (key_of g n, gap_of g n)) as V2'.
    { rewrite V2, K3, K4. unfold key_of, gap_of. by rewrite Hi1. }
    split_and!; [|rewrite En2; apply Forall_app; split; [done|by constructor]|].
    + rewrite V1. destruct Hst as [->|Hst]; [done|]. exfalso. rewrite En1, Exists_app, Exists_cons in Hst. unfold inited in *.
      assert (forall ns, inited ns -> ~ Exists stuck ns) as Hno by (intros ns Hns Hex; apply Exists_exists in Hex as (m & Hm & Hm1 & _); unfold inited in Hns; rewrite Forall_forall in Hns; specialize (Hns m Hm); congruence).
      destruct Hst as [Hst|[[_ Hst]|Hst]]; [by apply (Hno lo1)|congruence|by apply (Hno hi1)].
    + exists n2. rewrite En2. split_and!; [congruence|done|done|]. apply eqv_app; [done|]. cbn. split_and!; try done.
      destruct (inited_values n2 (gap_after zero_value lo) V3) as [_ ->]. rewrite V2'. done.
Qed.

(** ** Adding a node *)

Lemma ratchet_mono_r v w w' : val_le w w' -> val_le (ratchet v w) (ratchet v w').
Proof. intros Hw. apply val_le_lub; [apply val_le_l|]. eapply val_le_trans; [exact Hw|apply val_le_r]. Qed.

Lemma value_at_mono g g' ns k : val_le g g' -> val_le (value_at g ns k) (value_at g' ns k).
Proof.
  revert g g'. induction ns as [|n ns IH]; intros g g' Hg; [done|]. cbn. destruct (decide _); [done|]. destruct (decide _).
  - unfold key_of. destruct (n_init n); [apply val_le_refl|by apply ratchet_mono_r].
  - apply IH. unfold gap_of. destruct (n_init n); [apply val_le_refl|by apply ratchet_mono_r].
Qed.

Lemma pos_ratchet_zero v : pos v -> ratchet v zero_value = v.
Proof. intros Hv. by rewrite ratchet_comm. Qed.

Section addNode.
Context {p : sklPage L} {key : buffer} {lo hi : list skl_node} {val : readSpanVal} {opt : nodeOptions}.
Hypothesis Hfront : front_ok p.
Hypothesis En : nodes p = lo ++ hi.
Hypothesis Hlo : Forall (below key) lo.
Hypothesis Hhi : Forall (fun n => bytes_le key (n_key n)) hi.
Hypothesis Hval : fits val.

Let kv0 := if no_hasKey opt then val else zero_value.
Let gv0 := if no_hasGap opt then val else zero_value.
Let g := gap_after zero_value lo.

(** How a node comes to be at the key with the values. *)
Inductive node_added (it : option buffer) (p' : sklPage L) : Prop :=
| added_found n post n' : hi = n :: post -> n_key n = key -> it = Some key -> n_key n' = key -> n_init n' = true ->
    n_values n' = (ratchet (fst (n_values n)) kv0, ratchet (snd (n_values n)) gv0) -> eqv zero_value (lo ++ n' :: post) (nodes p') -> node_added it p'
| added_covered : Forall (beyond key) hi -> p' = p -> val_le val g -> it = n_key <$> head hi -> node_added it p'
| added_new n' : Forall (beyond key) hi -> it = Some key -> n_key n' = key -> n_init n' = true ->
    n_values n' = (ratchet kv0 g, ratchet gv0 g) -> eqv zero_value (lo ++ n' :: hi) (nodes p') -> node_added it p'.

(** What is left when the arena was full: the values as they were, or a node that could
    not be initialized. *)
Inductive node_failed (p' : sklPage L) : Prop :=
| failed_same : (forall k, page_value p' k = page_value p k) -> node_failed p'
| failed_init n' : Forall (beyond key) hi -> n_key n' = key -> key_of g n' = ratchet kv0 g -> gap_of g n' = ratchet gv0 g ->
    eqv zero_value (lo ++ n' :: hi) (nodes p') -> node_failed p'.

Lemma fits_kv0 : fits kv0 /\ fits gv0.
Proof. unfold kv0, gv0. split; [destruct (no_hasKey opt)|destruct (no_hasGap opt)]; (done || apply fits_zero). Qed.

Lemma addNode_found mustInit p' it full n post : hi = n :: post -> n_key n = key -> addNode key val opt mustInit p = (p', it, full) ->
  page_ok p' /\ page_le p p' /\ if full then pg_isFull p' = true /\ node_failed p' else front_ok p' /\ node_added it p'.
Proof.
  intros -> Hn E. destruct Hfront as [Hok Hf Hi]. pose proof (po_sorted _ Hok) as Hs. pose proof (po_nodes _ Hok) as Ho. rewrite En in Hs, Ho. unfold inited in Hi. rewrite En in Hi.
  apply Forall_app in Hi as [Hi1 Hi2], Ho as [_ Ho]. apply Forall_cons in Hi2 as [Hni Hi2], Ho as [Hno _].
  unfold addNode in E. rewrite (it_SeekForPrev_found En Hs Hlo Hhi n post eq_refl Hn), bool_decide_eq_true_2 in E by done.
  rewrite <- Hn in E at 1. rewrite (it_node_at En Hs) in E. change (no_initialized (n_meta n)) with (n_init n) in E. rewrite Hni in E. cbn [negb andb] in E.
  destruct fits_kv0 as [Fk Fg]. case_bool_decide as Eo.
  - injection E as <- <- <-. split_and!; [done|done|done|]. apply (added_found _ _ n post n); try done; [|rewrite En; apply eqv_refl].
    unfold kv0, gv0. rewrite Eo. cbn. destruct (nk_key _ _ Hno) as [[P1 _] _], (nk_gap _ _ Hno) as [[P2 _] _]. rewrite !pos_ratchet_zero by done. apply surjective_pairing.
  - destruct (ratchetValueSet _ _ _ _ _ _) as [p1 full1] eqn:Er. injection E as -> <- ->. rewrite <- Hn in Er.
    destruct (ratchetValueSet_spec _ _ _ _ _ _ _ _ _ _ Hok En Fk Fg Er) as (n' & En' & Ek & Hok' & Hle & _ & Hv). split_and!; [done|done|]. destruct full.
    + destruct Hv as (V1 & V2 & V3). split; [done|]. apply failed_same. intros k. symmetry. apply eqv_value.
      rewrite En, En'. apply eqv_app; [apply eqv_refl|]. cbn. unfold key_of, gap_of. rewrite V1, V2. split_and!; try done. apply eqv_refl.
    + rewrite Hni in Hv. destruct Hv as (V1 & V2 & V3 & _). split.
      * split; [done|congruence|]. unfold inited. rewrite En'. apply Forall_app. split; [done|]. by constructor.
      * apply (added_found _ _ n post n'); try done; [congruence|]. rewrite En'. apply eqv_refl.
Qed.

(** The page with the node that [Add] made. *)
Lemma new_node_ok l : Forall (beyond key) hi ->
  let p1 := ratchetMaxTimestamp (rv_ts val) p in
  let n0 := mkNode key (fst (encodeValueSet kv0 gv0)) (snd (encodeValueSet kv0 gv0)) in
  skl_Add key (n_value n0) (n_meta n0) (pg_list p1) = Some l ->
  let p2 := p1 <| pg_list := l |> in
  page_ok p2 /\ page_le p p2 /\ nodes p2 = lo ++ n0 :: hi /\ n_values n0 = (kv0, gv0) /\ n_init n0 = false /\ no_cantInit (n_meta n0) = false /\ pg_isFull p2 = false.
Proof.
  intros Hbey p1 n0 Ea p2. destruct Hfront as [Hok Hf Hi]. destruct fits_kv0 as [Fk Fg]. pose proof (fits_wall val Hval) as Hw.
  destruct (ratchetMaxTimestamp_spec (rv_ts val) p) as (Hle & Hmax & El & Ef); [lia|lia|]. fold p1 in Hle, Hmax, El, Ef.
  assert (n_values n0 = (kv0, gv0)) as Ev by (apply decode_encode; [apply Fk|apply Fg|done|done]).
  assert (n_init n0 = false /\ no_cantInit (n_meta n0) = false) as [Ei Ec].
  { unfold n0, n_init. cbn [n_meta]. unfold encodeValueSet. destruct (negb _), (negb _); done. }
  assert (nodes p2 = lo ++ n0 :: hi) as En2.
  { pose proof (Add_nodes _ _ _ _ _ Ea) as Ha. rewrite El in Ha. fold (nodes p) in Ha. rewrite En in Ha. unfold nodes, p2. cbn. rewrite Ha. by apply insert_node_at. }
  assert (page_le p p2) as Hle2 by done. assert (pg_isFull p2 = false) as Ef2 by (cbn; congruence).
  refine (conj _ (conj Hle2 (conj En2 (conj Ev (conj Ei (conj Ec Ef2)))))).
  pose proof (po_sorted _ Hok) as Hs. pose proof (po_nodes _ Hok) as Ho. rewrite En in Hs, Ho. apply Forall_app in Ho as [Ho1 Ho2].
  assert (forall ns, Forall (node_ok p) ns -> Forall (node_ok p2) ns) as Hmono by (intros ns Hns; eapply Forall_impl; [exact Hns|]; intros m; by apply node_ok_le).
  split; rewrite ?En2.
  - apply sorted_glue; [|by apply (sorted_app_r lo)|done|done]. clear -Hs. induction lo as [|m lo' IH]; [constructor|]. apply StronglySorted_inv in Hs as [H1 H2]. constructor; [by apply IH|by apply Forall_app in H2 as [? _]].
  - apply Forall_app. split; [by apply Hmono|]. constructor; [|by apply Hmono]. assert (ts_le (mkTimestamp 0 0) (getMaxTimestamp p2)) as Hz.
    { pose proof (po_max _ Hok). destruct Hle2 as [Hw2 _]. unfold ts_le, getMaxTimestamp. cbn in Hw2 |- *. lia. }
    split; rewrite ?Ev; cbn [fst snd]; [split; [done|]|split; [done|]|by rewrite Ec]; unfold kv0, gv0; [destruct (no_hasKey opt)|destruct (no_hasGap opt)]; done.
  - pose proof (po_max _ Hok). destruct Hle2 as [Hw2 _]. lia.
Qed.

Lemma addNode_missing mustInit p' it full : Forall (beyond key) hi -> addNode key val opt mustInit p = (p', it, full) ->
  page_ok p' /\ page_le p p' /\ if full then pg_isFull p' = true /\ node_failed p' else front_ok p' /\ node_added it p'.
Proof.
  intros Hbey E. destruct Hfront as [Hok Hf Hi]. pose proof (po_sorted _ Hok) as Hs. rewrite En in Hs. pose proof Hi as Hi'. unfold inited in Hi'. rewrite En in Hi'.
  apply Forall_app in Hi' as [Hi1 Hi2]. unfold addNode in E. rewrite (it_SeekForPrev_missing En Hlo Hbey) in E.
  assert (n_key <$> last lo <> Some key) as N1.
  { destruct (last lo) as [m|] eqn:El; [|done]. cbn. intros [= Em]. apply last_Some_elem_of in El. rewrite Forall_forall in Hlo. specialize (Hlo m El). unfold below in Hlo. rewrite Em in Hlo. key_order. }
  assert (n_key <$> head hi <> Some key) as N2.
  { destruct hi as [|m hi']; [done|]. cbn. intros [= Em]. apply Forall_cons in Hbey as [Hm _]. unfold beyond in Hm. rewrite Em in Hm. key_order. }
  rewrite bool_decide_eq_false_2 in E by done. destruct (incomingGapVal _ _ _) as [[p1 it1] g1] eqn:Ei.
  destruct (incomingGapVal_spec _ key p p1 it1 g1 lo hi Hok En Hlo Hhi (or_introl eq_refl) Ei) as (_ & _ & _ & -> & -> & _ & Hsame & _). rewrite (Hsame Hi) in E. clear Hsame Ei p1.
  rewrite bool_decide_eq_false_2 in E by done. fold g in E. destruct (snd (ratchetValue g val)) eqn:Eu; cbn [negb] in E.
  - fold kv0 gv0 in E. rewrite (surjective_pairing (encodeValueSet kv0 gv0)) in E. set (p1 := ratchetMaxTimestamp (rv_ts val) p) in *.
    destruct (skl_Add _ _ _ _) as [l|] eqn:Ea.
    + destruct (new_node_ok l Hbey Ea) as (Hok2 & Hle2 & En2 & Ev2 & Ei2 & Ec2 & Ef2). set (p2 := p1 <| pg_list := l |>) in *. set (n0 := mkNode key _ _) in *. change (nodes p2 = lo ++ n0 :: hi) in En2.
      destruct (ensureInitialized_spec key p2 p' it full lo n0 hi Hok2 En2 eq_refl Ei2 Ec2 Ef2 Hi1 Hi2 E) as (Hok' & Hle' & -> & Hres). fold g in Hres.
      assert (key_of g n0 = ratchet kv0 g /\ gap_of g n0 = ratchet gv0 g) as [Ek0 Eg0] by (unfold key_of, gap_of; rewrite Ei2, Ev2; done).
      split_and!; [done|by transitivity p2|]. destruct full.
      * destruct Hres as [Hfull Heq]. split; [done|]. rewrite En2 in Heq. by apply (failed_init _ n0).
      * destruct Hres as (Hfull & Hin & n' & K1 & K2 & K3 & K4). split; [by split|]. apply (added_new _ _ n'); try done. by rewrite K3, Ek0, Eg0.
    + injection E as <- <- <-. assert (page_le p p1 /\ pg_list p1 = pg_list p) as [Hle1 El1].
      { pose proof (fits_wall val Hval). by destruct (ratchetMaxTimestamp_spec (rv_ts val) p) as (? & _ & ? & _); [lia|lia|]. }
      assert (nodes (p1 <| pg_isFull := true |>) = nodes p) as Ens by (unfold nodes; cbn; by rewrite El1).
      assert (page_le p (p1 <| pg_isFull := true |>)) as Hle3 by (split; [apply Hle1|done]).
      split_and!; [|done|done|apply failed_same; intros k; unfold page_value; by rewrite Ens].
      split; rewrite ?Ens; [apply (po_sorted _ Hok)| |pose proof (po_max _ Hok); destruct Hle3; lia]. eapply Forall_impl; [apply (po_nodes _ Hok)|]. intros m. by apply node_ok_le.
  - injection E as <- <- <-. split_and!; [done|done|done|]. apply added_covered; try done. apply ratchetValue_snd in Eu. by apply ratchet_old_le.
Qed.

Lemma addNode_spec mustInit p' it full : addNode key val opt mustInit p = (p', it, full) ->
  page_ok p' /\ page_le p p' /\ if full then pg_isFull p' = true /\ node_failed p' else front_ok p' /\ node_added it p'.
Proof.
  intros E. pose proof (po_sorted _ (fo_page _ Hfront)) as Hs. rewrite En in Hs.
  destruct (hi_cases En Hs Hhi) as [(n & post & Eh & Hn)|Hbey]; [by apply (addNode_found mustInit p' it full n post)|by apply (addNode_missing mustInit)].
Qed.

End addNode.

(** ** Raising the nodes of a range *)

Definition before (to : option buffer) (k : buffer) : Prop := match to with Some to => bytes_lt k to | None => True end.

#[global] Instance before_dec to k : Decision (before to k).
Proof. unfold before. destruct to; apply _. Defined.

(** A node whose values are raised to [val]. *)
Definition raised (val : readSpanVal) (n n' : skl_node) : Prop :=
  n_key n' = n_key n /\ n_init n' = true /\ n_values n' = (ratchet (fst (n_values n)) val, ratchet (snd (n_values n)) val).

Lemma ensureFloorValue_loop_spec fuel to val p p' ok pre suf :
  front_ok p -> nodes p = pre ++ suf -> fits val -> (length suf < fuel)%nat ->
  ensureFloorValue_loop fuel (n_key <$> head suf) to val p = (p', ok) ->
  page_ok p' /\ page_le p p' /\
  if ok then front_ok p' /\ exists mid rest mid', suf = mid ++ rest /\ nodes p' = pre ++ mid' ++ rest /\ Forall2 (raised val) mid mid' /\
      Forall (fun n => before to (n_key n)) mid /\ (forall n, head rest = Some n -> ~ before to (n_key n))
  else pg_isFull p' = true /\ exists mid rest mid', suf = mid ++ rest /\ eqv zero_value (pre ++ mid' ++ rest) (nodes p') /\ Forall2 (raised val) mid mid' /\
      Forall (fun n => before to (n_key n)) mid.
Proof.
  revert fuel p pre. induction suf as [|n suf IH]; intros [|fuel] p pre Hfront En Hval Hfuel E; try (cbn in Hfuel; lia); cbn in E.
  - injection E as <- <-. split_and!; [apply Hfront|done|done|]. exists [], [], []. split_and!; done.
  - pose proof Hfront as [Hok Hf Hi]. unfold inited in Hi. rewrite En, Forall_app, Forall_cons in Hi. destruct Hi as (Hi1 & Hni & Hi2).
    assert (match to with Some to => bytes_Compare (n_key n) to >=? 0 | None => false end = negb (bool_decide (before to (n_key n)))) as Eto.
    { destruct to as [to|]; [|done]. cbn. pose proof (bytes_Compare_spec (n_key n) to) as (C1 & _ & _). case_bool_decide as D; cbn.
      - apply C1 in D. apply not_true_iff_false. intros ?. bool_to_prop. lia.
      - destruct (_ >=? 0) eqn:Eg; [done|]. bool_to_prop. destruct D. apply C1. lia. }
    rewrite Eto, Hf in E. clear Eto. case_bool_decide as Hb; cbn [negb] in E.
    + destruct (ratchetValueSet _ _ _ _ _ _) as [p1 full] eqn:Er.
      destruct (ratchetValueSet_spec _ _ _ _ _ _ _ _ _ _ Hok En Hval Hval Er) as (n' & En1 & Ek & Hok1 & Hle1 & _ & Hv). destruct full.
      * injection E as <- <-. destruct Hv as (V1 & V2 & V3). split_and!; try done. exists [], (n :: suf), []. split_and!; try done. rewrite En1. apply eqv_app; [apply eqv_refl|].
        cbn. unfold key_of, gap_of. rewrite V1, V2. split_and!; try done. apply eqv_refl.
      * rewrite Hni in Hv. destruct Hv as (V1 & V2 & V3 & _). pose proof (po_sorted _ Hok1) as Hs1. rewrite En1 in Hs1. rewrite <- Ek, (it_Next_at En1 Hs1) in E.
        assert (front_ok p1) as Hfront1 by (split; [done|congruence|unfold inited; rewrite En1, Forall_app, Forall_cons; done]).
        destruct (IH fuel p1 (pre ++ [n'])) as (K1 & K2 & K3); [done|by rewrite <- app_assoc|done|cbn in Hfuel; lia|done|]. split_and!; [done|by transitivity p1|]. destruct ok.
        -- destruct K3 as (F1 & mid & rest & mid' & -> & F3 & F4 & F5 & F6). split; [done|]. exists (n :: mid), rest, (n' :: mid'). rewrite F3, <- app_assoc.
           split_and!; try done; by constructor.
        -- destruct K3 as (F1 & mid & rest & mid' & -> & F3 & F4 & F5). split; [done|]. exists (n :: mid), rest, (n' :: mid'). rewrite <- app_assoc in F3.
           split_and!; try done; by constructor.
    + injection E as <- <-. split_and!; try done. exists [], (n :: suf), []. split_and!; try done. by intros m [= <-].
Qed.

(** ** The values after a node is added *)

Lemma value_at_raise g post k v : inited post -> sorted_nodes post ->
  (Forall (beyond k) post -> value_at (ratchet g v) post k = ratchet (value_at g post k) v) /\
  (forall g', ~ Forall (beyond k) post -> value_at g' post k = value_at g post k).
Proof.
  intros Hi Hs. split; [intros Hb; by rewrite !value_at_beyond|]. intros g' Hb. apply value_at_inited; [done| |done].
  apply not_Forall_Exists in Hb; [|intros n; unfold beyond; apply _]. apply Exists_exists in Hb as (n & Hn & Hb). exists n. split; [done|]. unfold beyond, compose in Hb. key_order.
Qed.

(** The nodes after a key. *)
Definition after_key (key : buffer) (ns : list skl_node) : list skl_node := filter (beyond key) ns.

Record added_values p p' (key : buffer) (val : readSpanVal) (hk hg : bool) : Prop := {
  av_below k : bytes_lt k key -> page_value p' k = page_value p k;
  av_key : page_value p' key = if hk then ratchet (page_value p key) val else page_value p key;
  av_gap k : bytes_lt key k -> Forall (beyond k) (after_key key (nodes p)) -> page_value p' k = if hg then ratchet (page_value p k) val else page_value p k;
  av_rest k : bytes_lt key k -> ~ Forall (beyond k) (after_key key (nodes p)) -> page_value p' k = page_value p k
}.

Lemma split_values lo n post k : sorted_nodes (lo ++ n :: post) -> n_init n = true ->
  value_at zero_value (lo ++ n :: post) k =
    if decide (bytes_lt k (n_key n)) then value_at zero_value lo k
    else if decide (n_key n = k) then fst (n_values n) else value_at (snd (n_values n)) post k.
Proof. intros Hs Hn. rewrite value_at_split by done. by destruct (inited_values n (gap_after zero_value lo) Hn) as [-> ->]. Qed.

Lemma after_key_cut key lo hi : Forall (fun n => bytes_le (n_key n) key) lo -> Forall (beyond key) hi -> after_key key (lo ++ hi) = hi.
Proof.
  intros Hlo Hhi. unfold after_key. rewrite filter_app, (filter_all _ hi) by done. rewrite filter_none; [done|].
  eapply Forall_impl; [exact Hlo|]. unfold beyond. intros n Hn Hb. key_order.
Qed.

Lemma below_le key lo : Forall (below key) lo -> Forall (fun n => bytes_le (n_key n) key) lo.
Proof. intros Hlo. eapply Forall_impl; [exact Hlo|]. unfold below. intros n Hn. key_order. Qed.

(** A node at the key takes the place of another, or of none. *)
Lemma placed_values p p' key lo n' post (kv gv : readSpanVal) (hk hg : bool) val :
  sorted_nodes (lo ++ n' :: post) -> inited post -> n_key n' = key ->
  eqv zero_value (lo ++ n' :: post) (nodes p') -> after_key key (nodes p) = post ->
  (forall k, bytes_lt k key -> page_value p k = value_at zero_value lo k) -> page_value p key = kv ->
  (forall k, bytes_lt key k -> page_value p k = value_at gv post k) ->
  key_of (gap_after zero_value lo) n' = (if hk then ratchet kv val else kv) -> gap_of (gap_after zero_value lo) n' = (if hg then ratchet gv val else gv) ->
  added_values p p' key val hk hg.
Proof.
  intros Hs Hi <- Heq Ha Hlo Hkey Hpost Hk' Hg'.
  assert (forall k, page_value p' k = value_at zero_value (lo ++ n' :: post) k) as Hp' by (intros k; symmetry; by apply eqv_value).
  assert (sorted_nodes post) as Hsp by (apply sorted_app_r in Hs; by apply StronglySorted_inv in Hs as [? _]).
  assert (forall k, bytes_lt (n_key n') k -> page_value p' k = value_at (if hg then ratchet gv val else gv) post k) as Hgap.
  { intros k Hk. rewrite Hp', value_at_split by done. rewrite !decide_False; [by rewrite Hg'|intros <-; key_order|intros ?; key_order]. }
  split.
  - intros k Hk. rewrite Hp', value_at_split, decide_True by done. symmetry. by apply Hlo.
  - rewrite Hp', value_at_split, decide_False, decide_True by (done || intros ?; key_order). by rewrite Hk', Hkey.
  - intros k Hk Hb. rewrite Ha in Hb. rewrite (Hgap k Hk), (Hpost k Hk). destruct hg; [|done]. by apply (value_at_raise gv post k val).
  - intros k Hk Hb. rewrite Ha in Hb. rewrite (Hgap k Hk), (Hpost k Hk). by apply (value_at_raise gv post k val).
Qed.

Section added.
Context {p p' : sklPage L} {key : buffer} {lo hi : list skl_node} {val : readSpanVal} {opt : nodeOptions}.
Hypothesis Hfront : front_ok p.
Hypothesis En : nodes p = lo ++ hi.
Hypothesis Hlo : Forall (below key) lo.
Hypothesis Hhi : Forall (fun n => bytes_le key (n_key n)) hi.
Hypothesis Hs' : sorted_nodes (nodes p').

Let g := gap_after zero_value lo.

Lemma values_below k : bytes_lt k key -> page_value p k = value_at zero_value lo k.
Proof. intros Hk. unfold page_value. rewrite En. apply value_at_prefix. eapply Forall_impl; [exact Hhi|]. unfold beyond. intros n Hn. cbn in Hn. key_order. Qed.

Lemma values_missing : Forall (beyond key) hi -> page_value p key = g /\ forall k, bytes_lt key k -> page_value p k = value_at g hi k.
Proof.
  intros Hb. unfold page_value. rewrite En. split; [by rewrite value_at_app, value_at_beyond|]. intros k Hk. apply value_at_app. eapply Forall_impl; [exact Hlo|]. unfold below. intros n Hn. key_order.
Qed.

(** A node where there was none. *)
Lemma missing_values n' :
  Forall (beyond key) hi -> n_key n' = key -> key_of g n' = ratchet (if no_hasKey opt then val else zero_value) g ->
  gap_of g n' = ratchet (if no_hasGap opt then val else zero_value) g -> eqv zero_value (lo ++ n' :: hi) (nodes p') ->
  added_values p p' key val (no_hasKey opt) (no_hasGap opt).
Proof.
  intros Hb Hn' Hk Hg Heq. destruct (values_missing Hb) as [Hk0 Hk1]. pose proof (fo_init _ Hfront) as Hi. pose proof (po_nodes _ (fo_page _ Hfront)) as Ho.
  unfold inited in Hi. rewrite En, Forall_app in Hi, Ho. assert (pos g) as Pg by (apply (within_gap p); [apply Ho|apply (within_zero p (fo_page _ Hfront))]).
  apply (placed_values p p' key lo n' hi g g); try done.
  - apply (sorted_keys (nodes p')); [|done]. symmetry. by apply (eqv_keys zero_value).
  - apply Hi.
  - rewrite En. apply after_key_cut; [by apply below_le|done].
  - apply values_below.
  - fold g. rewrite Hk. destruct (no_hasKey opt); [apply ratchet_comm|exact Pg].
  - fold g. rewrite Hg. destruct (no_hasGap opt); [apply ratchet_comm|exact Pg].
Qed.

Lemma node_added_values it : node_added (p := p) (key := key) (lo := lo) (hi := hi) (val := val) (opt := opt) it p' ->
  added_values p p' key val (no_hasKey opt) (no_hasGap opt).
Proof.
  destruct 1 as [n post n' Eh Hn -> Hn' Hi' Hv Heq|Hb Ep Hcov ->|n' Hb -> Hn' Hi' Hv Heq].
  - pose proof (fo_init _ Hfront) as Hi. pose proof (po_nodes _ (fo_page _ Hfront)) as Ho. pose proof (po_sorted _ (fo_page _ Hfront)) as Hs. unfold inited in Hi. rewrite En, Eh in Hi, Ho, Hs.
    rewrite Forall_app, Forall_cons in Hi, Ho. destruct Hi as (_ & Hni & Hi2), Ho as (_ & Hno & _). destruct (sorted_split _ _ _ Hs) as (_ & Hpost & _ & _). rewrite Hn in Hpost.
    destruct (inited_values n' (gap_after zero_value lo) Hi') as [Ek Eg]. apply (placed_values p p' key lo n' post (fst (n_values n)) (snd (n_values n))); try done.
    + apply (sorted_keys (nodes p')); [|done]. symmetry. by apply (eqv_keys zero_value).
    + rewrite En, Eh. change (lo ++ n :: post) with (lo ++ [n] ++ post). rewrite app_assoc. apply after_key_cut; [|done]. apply Forall_app. split; [by apply below_le|]. constructor; [rewrite Hn; key_order|constructor].
    + apply values_below.
    + unfold page_value. rewrite En, Eh, split_values, decide_False, decide_True by (done || intros ?; key_order). done.
    + intros k Hk. unfold page_value. rewrite En, Eh, split_values, !decide_False by (done || intros ?; subst; key_order). done.
    + rewrite Ek, Hv. cbn [fst]. destruct (nk_key _ _ Hno) as [[P1 _] _]. destruct (no_hasKey opt); [done|by apply pos_ratchet_zero].
    + rewrite Eg, Hv. cbn [snd]. destruct (nk_gap _ _ Hno) as [[P2 _] _]. destruct (no_hasGap opt); [done|by apply pos_ratchet_zero].
  - destruct (values_missing Hb) as [Hk0 Hk1]. apply ratchet_old_le in Hcov. fold g in Hcov. rewrite Ep. split; try done; [destruct (no_hasKey opt); [by rewrite Hk0|done]|].
    intros k Hk. rewrite En, after_key_cut by (done || by apply below_le). intros Hbk. destruct (no_hasGap opt); [|done]. by rewrite Hk1, value_at_beyond.
  - destruct (inited_values n' (gap_after zero_value lo) Hi') as [Ek Eg]. apply (missing_values n'); try done; fold g in Ek, Eg, Hv; [by rewrite Ek, Hv|by rewrite Eg, Hv].
Qed.

Lemma node_failed_values : node_failed (p := p) (key := key) (lo := lo) (hi := hi) (val := val) (opt := opt) p' ->
  (forall k, page_value p' k = page_value p k) \/ added_values p p' key val (no_hasKey opt) (no_hasGap opt).
Proof. destruct 1 as [Hsame|n' Hb Hn' Hk Hg Heq]; [by left|right]. by apply (missing_values n'). Qed.

End added.

End add.
