(* ===== verification/TsCacheRange.v ===== *)
(** * Adding a range to a page of the timestamp cache

    [page_addRange] (TsCache) raises the values of exactly the keys of the range when the
    arena has space. When it is full values have only grown, and the page is marked as
    full. *)

From S2P Require Import Prelude Hlc Encoding EncodingOrder Keys KeysOrder ReadSummary TsCache TsCachePage TsCacheAdd.

Section range.
Context {L : Type} `{ArenasklLaws L}.
Implicit Types p : sklPage L.

(** ** The end of the range *)

(** Either there is a node at the key, or its gap has the value up to the next node. *)
Definition ends_at (key : buffer) (val : readSpanVal) p : Prop :=
  (exists n, n ∈ nodes p /\ n_key n = key) \/
  (forall k, bytes_le key k -> (forall m, m ∈ nodes p -> bytes_le key (n_key m) -> beyond k m) -> val_le val (page_value p k)).

Lemma eqv_elem g ns ns' n : eqv g ns ns' -> n ∈ ns -> exists n', n' ∈ ns' /\ n_key n' = n_key n.
Proof.
  intros He Hn. apply eqv_keys in He. assert (n_key n ∈ n_key <$> ns') as Hk by (rewrite <- He; by apply list_elem_of_fmap_2).
  apply list_elem_of_fmap in Hk as (n' & E & Hn'). by exists n'.
Qed.

Lemma added_ends p p' key lo hi val opt it :
  nodes p = lo ++ hi -> Forall (below key) lo ->
  node_added (p := p) (key := key) (lo := lo) (hi := hi) (val := val) (opt := opt) it p' -> ends_at key val p'.
Proof.
  intros En Hlo Ha. destruct Ha as [n post n' _ _ _ Hn' _ _ Heq|Hb -> Hcov _|n' _ _ Hn' _ _ Heq].
  - left. destruct (eqv_elem _ _ _ n' Heq) as (m & Hm & Ek); [set_solver|]. exists m. split; [done|congruence].
  - right. intros k Hk Hnone. unfold page_value. rewrite En, value_at_app, value_at_beyond; [done| |].
    + apply Forall_forall. intros m Hm. apply Hnone; [rewrite En; set_solver|]. rewrite Forall_forall in Hb. specialize (Hb m Hm). unfold beyond in Hb. key_order.
    + eapply Forall_impl; [exact Hlo|]. unfold below. intros m Hm. key_order.
  - left. destruct (eqv_elem _ _ _ n' Heq) as (m & Hm & Ek); [set_solver|]. exists m. split; [done|congruence].
Qed.

(** ** The nodes inside the range *)

Lemma raised_keys val (P : buffer -> Prop) mid mid' : Forall2 (raised val) mid mid' -> Forall (fun n => P (n_key n)) mid -> Forall (fun n => P (n_key n)) mid'.
Proof.
  induction 1 as [|n n' mid mid' (E & _) _ IH]; [done|]. intros Hb. apply Forall_cons in Hb as [Hn Hb]. constructor; [by rewrite E|by apply IH].
Qed.

Lemma raised_beyond val mid mid' k : Forall2 (raised val) mid mid' -> Forall (beyond k) mid -> Forall (beyond k) mid'.
Proof. apply (raised_keys val (bytes_lt k)). Qed.

Lemma raised_value val g g' mid mid' rest k :
  Forall2 (raised val) mid mid' -> inited mid -> sorted_nodes (mid ++ rest) -> Forall (beyond k) rest -> ~ Forall (beyond k) mid ->
  value_at g' (mid' ++ rest) k = ratchet (value_at g (mid ++ rest) k) val.
Proof.
  intros Hr. revert g g'. induction Hr as [|n n' mid mid' (E1 & E2 & E3) Hr IH]; intros g g' Hi Hs Hrest Hmid; [by destruct Hmid|].
  apply Forall_cons in Hi as [Hn Hi]. apply StronglySorted_inv in Hs as [Hs Hn2]. cbn. rewrite E1.
  destruct (inited_values n g Hn) as [-> ->], (inited_values n' g' E2) as [-> ->]. rewrite E3. destruct (decide (bytes_lt k (n_key n))) as [Hlt|Hge].
  - destruct Hmid. apply Forall_app in Hn2 as [Hn2 _]. constructor; [done|]. eapply Forall_impl; [exact Hn2|]. unfold beyond. intros m Hm. cbn in Hm. key_order.
  - destruct (decide (n_key n = k)); [done|]. cbn [snd]. destruct (decide (Forall (beyond k) mid)) as [Hb|Hb].
    + rewrite !value_at_beyond; [done| |]; apply Forall_app; (split; [|done]); [done|by eapply raised_beyond].
    + by apply IH.
Qed.

Section floor.
Context {p p' : sklPage L} {key : buffer} {val : readSpanVal} {pre mid mid' rest : list skl_node}.
Hypothesis Hfront : front_ok p.
Hypothesis En : nodes p = pre ++ mid ++ rest.
Hypothesis En' : eqv zero_value (pre ++ mid' ++ rest) (nodes p').
Hypothesis Hpre : Forall (fun n => bytes_le (n_key n) key) pre.
Hypothesis Hsuf : Forall (beyond key) (mid ++ rest).
Hypothesis Hr : Forall2 (raised val) mid mid'.

Lemma floor_before k : bytes_le k key -> page_value p' k = page_value p k.
Proof.
  intros Hk. apply Forall_app in Hsuf as [H1 H2].
  assert (forall ns, Forall (beyond key) ns -> Forall (beyond k) ns) as Hw by (intros ns Hns; eapply Forall_impl; [exact Hns|]; unfold beyond; intros m Hm; key_order).
  unfold page_value. rewrite <- (eqv_value _ _ _ _ En'), En, !value_at_prefix; [done| |]; apply Forall_app; split; apply Hw; [done|done|by eapply raised_beyond|done].
Qed.

Lemma floor_after k : bytes_lt key k ->
  (Forall (beyond k) rest -> page_value p' k = if decide (Forall (beyond k) mid) then page_value p k else ratchet (page_value p k) val) /\
  (~ Forall (beyond k) rest -> page_value p' k = page_value p k).
Proof.
  intros Hk. destruct Hfront as [Hok _ Hi]. pose proof (po_sorted _ Hok) as Hs. unfold inited in Hi. rewrite En in Hi, Hs. apply sorted_app_r in Hs. rewrite !Forall_app in Hi. destruct Hi as (_ & Hi & Hir).
  unfold page_value. rewrite <- (eqv_value _ _ _ _ En'), En. assert (Forall (below k) pre) as Hb by (eapply Forall_impl; [exact Hpre|]; unfold below; intros n Hn; cbn in Hn; key_order).
  rewrite !(value_at_app _ pre) by done. set (g := gap_after zero_value pre). split; intros Hrest.
  - case_decide as Hm; [|by apply raised_value]. rewrite !value_at_beyond; [done| |]; apply Forall_app; (split; [|done]); [done|by eapply raised_beyond].
  - apply not_Forall_Exists in Hrest; [|intros n; unfold beyond; apply _]. apply Exists_exists in Hrest as (n & Hn & Hle). unfold beyond, compose in Hle.
    assert (Forall (below k) mid) as Hm.
    { apply Forall_forall. intros m Hm. apply list_elem_of_split in Hm as (a & b & ->). rewrite <- app_assoc in Hs. apply sorted_app_r in Hs. apply StronglySorted_inv in Hs as [_ Hs].
      rewrite Forall_forall in Hs. unfold below. specialize (Hs n). cbn in Hs. assert (bytes_lt (n_key m) (n_key n)) by (apply Hs; set_solver). key_order. }
    assert (Forall (below k) mid') as Hm'.
    { by apply (raised_keys val (fun x => bytes_lt x k) mid mid'). }
    rewrite !value_at_app by done. apply value_at_inited; [done| |by apply (sorted_app_r mid)]. exists n. split; [done|key_order].
Qed.

End floor.

(** ** Where the nodes inside the range start *)

Lemma floor_start p key it : page_ok p -> (it = Some key -> exists n, n ∈ nodes p /\ n_key n = key) ->
  exists pre suf, nodes p = pre ++ suf /\ Forall (fun n => bytes_le (n_key n) key) pre /\ Forall (beyond key) suf /\
    (if negb (bool_decide (it = Some key)) then
       let it := it_Seek (pg_list p) key in if bool_decide (it = Some key) then it_Next (pg_list p) key else it
     else it_Next (pg_list p) key) = n_key <$> head suf.
Proof.
  intros Hok Hit. pose proof (po_sorted _ Hok) as Hs. destruct (cut_nodes key (nodes p) Hs) as (lo & hi & En & Hlo & Hhi). rewrite En in Hs.
  pose proof (it_Seek_cut En Hlo Hhi) as Hseek. cbv zeta. rewrite Hseek. destruct (hi_cases En Hs Hhi) as [(n & post & -> & Hn)|Hb].
  - destruct (sorted_split _ _ _ Hs) as (_ & Hpost & _ & _). rewrite Hn in Hpost. exists (lo ++ [n]), post. rewrite <- app_assoc.
    assert (it_Next (pg_list p) key = n_key <$> head post) as Hnext by (rewrite <- Hn; by apply (it_Next_at En Hs)). split_and!; [done| |done|].
    + apply Forall_app. split; [by apply below_le|]. constructor; [rewrite Hn; key_order|constructor].
    + cbn [head fmap option_fmap option_map]. rewrite Hn, Hnext. rewrite (bool_decide_eq_true_2 (Some key = Some key)) by done. by case_bool_decide.
  - exists lo, hi. split_and!; [done|by apply below_le|done|]. rewrite Forall_forall in Hb. rewrite (bool_decide_eq_false_2 (_ <$> head hi = _)).
    + rewrite bool_decide_eq_false_2; [done|]. intros E. destruct (Hit E) as (n & Hn & Ek). rewrite En in Hn. apply elem_of_app in Hn as [Hn|Hn].
      * rewrite Forall_forall in Hlo. specialize (Hlo n Hn). unfold below in Hlo. rewrite Ek in Hlo. key_order.
      * specialize (Hb n Hn). unfold beyond in Hb. rewrite Ek in Hb. key_order.
    + destruct hi as [|n hi]; [done|]. cbn. intros [= E]. specialize (Hb n). unfold beyond in Hb. rewrite E in Hb. assert (bytes_lt key key) by (apply Hb; set_solver). key_order.
Qed.

(** ** The two ends *)

Lemma after_keys key ns : n_key <$> after_key key ns = filter (bytes_lt key) (n_key <$> ns).
Proof.
  induction ns as [|n ns IH]; [done|]. unfold after_key in *. rewrite fmap_cons, !filter_cons. destruct (decide (beyond key n)) as [Hb|Hb].
  - rewrite decide_True by done. by rewrite fmap_cons, IH.
  - by rewrite decide_False.
Qed.

Lemma added_after p p' key lo hi val opt it :
  nodes p = lo ++ hi -> node_added (p := p) (key := key) (lo := lo) (hi := hi) (val := val) (opt := opt) it p' ->
  n_key <$> after_key key (nodes p') = n_key <$> after_key key (nodes p).
Proof.
  intros En Ha. rewrite !after_keys, En. assert (~ bytes_lt key key) as Hirr by (intros ?; key_order).
  destruct Ha as [n post n' -> Hn _ Hn' _ _ Heq|_ -> _ _|n' _ _ Hn' _ _ Heq]; [|by rewrite En|].
  - rewrite <- (eqv_keys _ _ _ Heq), !fmap_app, !fmap_cons, !filter_app, !filter_cons. by rewrite Hn, Hn', decide_False.
  - rewrite <- (eqv_keys _ _ _ Heq), !fmap_app, fmap_cons, !filter_app, filter_cons. by rewrite Hn', decide_False.
Qed.

Lemma forall_keys k ns ns' : n_key <$> ns = n_key <$> ns' -> Forall (beyond k) ns -> Forall (beyond k) ns'.
Proof.
  intros E Hb. assert (forall ns, Forall (beyond k) ns <-> Forall (bytes_lt k) (n_key <$> ns)) as Hi by (intros x; by rewrite Forall_fmap). apply Hi. rewrite <- E. by apply Hi.
Qed.

(** What [addNode] establishes for the rest of [page_addRange]. *)
Record end_added p p' (key : buffer) (val : readSpanVal) (opt : nodeOptions) (it : option buffer) : Prop := {
  ea_values : added_values p p' key val (no_hasKey opt) (no_hasGap opt);
  ea_ends : ends_at key val p';
  ea_it : it = Some key -> exists n, n ∈ nodes p' /\ n_key n = key;
  ea_after : n_key <$> after_key key (nodes p') = n_key <$> after_key key (nodes p)
}.

Lemma addNode_end key val opt mustInit p p' it full :
  front_ok p -> fits val -> addNode key val opt mustInit p = (p', it, full) ->
  page_ok p' /\ page_le p p' /\
  if full then pg_isFull p' = true /\ ((forall k, page_value p' k = page_value p k) \/ added_values p p' key val (no_hasKey opt) (no_hasGap opt))
  else front_ok p' /\ end_added p p' key val opt it.
Proof.
  intros Hf Hval E. destruct (cut_nodes key (nodes p)) as (lo & hi & En & Hlo & Hhi); [apply (po_sorted _ (fo_page _ Hf))|].
  destruct (addNode_spec Hf En Hlo Hhi Hval _ _ _ _ E) as (K1 & K2 & K3). split_and!; [done|done|]. destruct full; [split; [apply K3|]; apply (node_failed_values Hf En Hlo Hhi (po_sorted _ K1)); apply K3|]. destruct K3 as [Hf' Ha].
  split; [done|]. split; [by apply (node_added_values Hf En Hlo Hhi (po_sorted _ K1) it)|by eapply added_ends| |by eapply added_after].
  intros ->. destruct Ha as [n post n' _ _ _ Hn' _ _ Heq|Hb _ _ Ehd|n' _ _ Hn' _ _ Heq].
  - destruct (eqv_elem _ _ _ n' Heq) as (m & Hm & Ek); [set_solver|]. exists m. split; [done|congruence].
  - destruct hi as [|n hi]; [done|]. injection Ehd as Ek. apply Forall_cons in Hb as [Hb _]. unfold beyond in Hb. rewrite <- Ek in Hb. exfalso. key_order.
  - destruct (eqv_elem _ _ _ n' Heq) as (m & Hm & Ek); [set_solver|]. exists m. split; [done|congruence].
Qed.

Lemma bytes_cases a b : bytes_lt a b \/ a = b \/ bytes_lt b a.
Proof. destruct (decide (bytes_lt a b)); [by left|]. destruct (decide (a = b)); [by right; left|]. right; right. key_order. Qed.

Lemma added_values_le p p' key val hk hg : added_values p p' key val hk hg -> values_le p p'.
Proof.
  intros Ha k. destruct (bytes_cases k key) as [Hk|[->|Hk]].
  - rewrite (av_below _ _ _ _ _ _ Ha) by done. apply val_le_refl.
  - rewrite (av_key _ _ _ _ _ _ Ha). destruct hk; [apply val_le_l|apply val_le_refl].
  - destruct (decide (Forall (beyond k) (after_key key (nodes p)))) as [Hb|Hb].
    + rewrite (av_gap _ _ _ _ _ _ Ha) by done. destruct hg; [apply val_le_l|apply val_le_refl].
    + rewrite (av_rest _ _ _ _ _ _ Ha) by done. apply val_le_refl.
Qed.

Lemma added_point p p' key val hk k : added_values p p' key val hk false -> k <> key -> page_value p' k = page_value p k.
Proof.
  intros Ha Hk. destruct (bytes_cases k key) as [Hlt|[->|Hlt]]; [by apply (av_below _ _ _ _ _ _ Ha)|done|].
  destruct (decide (Forall (beyond k) (after_key key (nodes p)))) as [Hb|Hb]; [by apply (av_gap _ _ _ _ _ _ Ha)|by apply (av_rest _ _ _ _ _ _ Ha)].
Qed.

(** ** The whole range *)

Definition range_ok (from to : option buffer) (opt : rangeOptions) : Prop :=
  match from, to with
  | Some from, Some to => bytes_lt from to
  | None, Some _ => opt = no_range_options
  | Some _, None => True
  | None, None => False
  end.

#[global] Instance in_range_dec from to opt k : Decision (in_range from to opt k).
Proof. unfold in_range, up_to. destruct from, to, (excludeFrom opt), (excludeTo opt); apply _. Defined.

(** The values of exactly the keys of the range are raised. *)
Definition range_raised p p' from to opt (val : readSpanVal) : Prop :=
  forall k, page_value p' k = if decide (in_range from to opt k) then ratchet (page_value p k) val else page_value p k.

(** The values of keys of the range, and no others, are raised, up to the value. *)
Definition range_within p p' from to opt (val : readSpanVal) : Prop :=
  forall k, val_le (page_value p k) (page_value p' k) /\ val_le (page_value p' k) (if decide (in_range from to opt k) then ratchet (page_value p k) val else page_value p k).

Lemma range_raised_within p p' from to opt val : range_raised p p' from to opt val -> range_within p p' from to opt val.
Proof. intros Hr k. rewrite Hr. split; [|apply val_le_refl]. case_decide; [apply val_le_l|apply val_le_refl]. Qed.

Lemma range_same_within p p' from to opt val : (forall k, page_value p' k = page_value p k) -> range_within p p' from to opt val.
Proof. intros Hs k. rewrite Hs. split; [apply val_le_refl|]. case_decide; [apply val_le_l|apply val_le_refl]. Qed.

Lemma values_le_trans p1 p2 p3 : values_le p1 p2 -> values_le p2 p3 -> values_le p1 p3.
Proof. intros H1 H2 k. eapply val_le_trans; [apply H1|apply H2]. Qed.

(** After the start key: the nodes and gaps before [rest] are raised. *)
Lemma past_start {p1 p2 p3 : sklPage L} {from val hk pre mid mid' rest} :
  added_values p1 p2 from val hk true -> n_key <$> after_key from (nodes p2) = n_key <$> after_key from (nodes p1) ->
  front_ok p2 -> nodes p2 = pre ++ mid ++ rest -> eqv zero_value (pre ++ mid' ++ rest) (nodes p3) ->
  Forall (fun n => bytes_le (n_key n) from) pre -> Forall (beyond from) (mid ++ rest) -> Forall2 (raised val) mid mid' ->
  forall k, bytes_lt from k -> page_value p3 k = if decide (Forall (beyond k) rest) then ratchet (page_value p1 k) val else page_value p1 k.
Proof.
  intros Ha Haft Hf E2 E3 Hpre Hsuf Hr k Hk. destruct (floor_after Hf E2 E3 Hpre Hsuf Hr k Hk) as [F1 F2].
  assert (after_key from (nodes p2) = mid ++ rest) as Eaft by (rewrite E2; by apply after_key_cut). rewrite Eaft in Haft.
  assert (Forall (beyond k) (after_key from (nodes p1)) <-> Forall (beyond k) mid /\ Forall (beyond k) rest) as Hiff.
  { rewrite <- Forall_app. split; [by apply forall_keys|by apply forall_keys]. }
  destruct (decide (Forall (beyond k) rest)) as [Hrest|Hrest].
  - rewrite (F1 Hrest). destruct (decide (Forall (beyond k) mid)) as [Hmid|Hmid]; [by apply (av_gap _ _ _ _ _ _ Ha); [|apply Hiff]|]. f_equal. apply (av_rest _ _ _ _ _ _ Ha); [done|]. by intros [? _]%Hiff.
  - rewrite (F2 Hrest). apply (av_rest _ _ _ _ _ _ Ha); [done|]. by intros [_ ?]%Hiff.
Qed.

(** What the end of the range leaves for the rest. *)
Definition to_added p p1 (to : option buffer) (opt : rangeOptions) (val : readSpanVal) : Prop :=
  match to with
  | None => p1 = p
  | Some to => added_values p p1 to val (negb (excludeTo opt)) false /\ ends_at to val p1
  end.

Lemma suffix_key {p1 : sklPage L} {from suf} n :
  n_key <$> suf = n_key <$> after_key from (nodes p1) -> n ∈ nodes p1 -> bytes_lt from (n_key n) -> exists m, m ∈ suf /\ n_key m = n_key n.
Proof.
  intros E Hn Hk. assert (n_key n ∈ n_key <$> suf) as Hin by (rewrite E; apply list_elem_of_fmap_2, list_elem_of_filter; done).
  apply list_elem_of_fmap in Hin as (m & Em & Hm). by exists m.
Qed.

Lemma end_covers {p1 : sklPage L} {from to val mid rest} k :
  n_key <$> (mid ++ rest) = n_key <$> after_key from (nodes p1) -> bytes_lt from to -> ends_at to val p1 ->
  Forall (fun n => before (Some to) (n_key n)) mid -> bytes_le to k -> Forall (beyond k) rest -> val_le val (page_value p1 k).
Proof.
  intros Haft Hft Hte Hmid Hk Hb. rewrite Forall_forall in Hmid, Hb.
  assert (forall n, n ∈ nodes p1 -> bytes_le to (n_key n) -> beyond k n) as Hnone.
  { intros n Hn Hnk. destruct (suffix_key n Haft Hn) as (m & Hm & Em); [key_order|]. unfold beyond. rewrite <- Em. apply elem_of_app in Hm as [Hm|Hm]; [|by apply (Hb m)].
    specialize (Hmid m Hm). cbn in Hmid. rewrite Em in Hmid. key_order. }
  destruct Hte as [(n & Hn & En)|Hte]; [|by apply Hte]. exfalso. assert (beyond k n) as Hbn by (apply Hnone; [done|rewrite En; key_order]). unfold beyond in Hbn. rewrite En in Hbn. key_order.
Qed.

(** The keys after the start, once the nodes before [rest] are raised. *)
Lemma range_end {p p1 : sklPage L} {from to opt val mid rest} k :
  range_ok (Some from) to opt -> to_added p p1 to opt val -> n_key <$> (mid ++ rest) = n_key <$> after_key from (nodes p1) ->
  Forall (fun n => before to (n_key n)) mid -> Forall (fun n => ~ before to (n_key n)) rest -> bytes_lt from k ->
  (if decide (Forall (beyond k) rest) then ratchet (page_value p1 k) val else page_value p1 k) =
  if decide (in_range (Some from) to opt k) then ratchet (page_value p k) val else page_value p k.
Proof.
  intros Hok Hto Haft Hmid Hrest Hk. assert ((if excludeFrom opt then bytes_lt from k else bytes_le from k) <-> True) as Hfk by (destruct (excludeFrom opt); split; intros _; (done || key_order)).
  destruct to as [to|]; cbn in Hto.
  - destruct Hto as [Hta Hte]. cbn in Hok. destruct (bytes_cases k to) as [Hkt|Hkt].
    + rewrite (added_point _ _ _ _ _ _ Hta) by (intros ->; key_order). rewrite !decide_True; [done| |].
      * split; [by apply Hfk|]. cbn. destruct (excludeTo opt); key_order.
      * eapply Forall_impl; [exact Hrest|]. cbn. unfold beyond. intros n Hn. key_order.
    + assert (Forall (beyond k) rest -> ratchet (page_value p1 k) val = page_value p1 k) as Hcov.
      { intros Hb. apply ratchet_old_le. apply (end_covers k Haft Hok Hte Hmid); [|done]. destruct Hkt; key_order. }
      replace (if decide (Forall (beyond k) rest) then _ else _) with (page_value p1 k) by (case_decide; [symmetry; by apply Hcov|done]).
      destruct Hkt as [->|Hkt].
      * rewrite (av_key _ _ _ _ _ _ Hta). destruct (excludeTo opt) eqn:Ex; cbn [negb].
        -- rewrite decide_False; [done|]. intros [_ Hu]. cbn in Hu. rewrite Ex in Hu. key_order.
        -- rewrite decide_True; [done|]. split; [by apply Hfk|]. cbn. rewrite Ex. key_order.
      * rewrite (added_point _ _ _ _ _ _ Hta) by (intros ->; key_order). rewrite decide_False; [done|]. intros [_ Hu]. cbn in Hu. destruct (excludeTo opt); key_order.
  - subst p1. rewrite !decide_True; [done| |].
    + split; [by apply Hfk|done].
    + destruct rest as [|n rest]; [constructor|]. apply Forall_cons in Hrest as [Hn _]. by destruct Hn.
Qed.

Lemma to_value {p p1 : sklPage L} {from to opt val} k : range_ok (Some from) to opt -> to_added p p1 to opt val -> bytes_lt from k ->
  val_le (page_value p1 k) (if decide (in_range (Some from) to opt k) then ratchet (page_value p k) val else page_value p k).
Proof.
  intros Hok Hto Hk. assert (val_le (page_value p k) (if decide (in_range (Some from) to opt k) then ratchet (page_value p k) val else page_value p k)) as Hle by (case_decide; [apply val_le_l|apply val_le_refl]).
  destruct to as [to|]; [|by rewrite Hto]. destruct Hto as [Ha _]. destruct (decide (k = to)) as [->|N]; [|by rewrite (added_point _ _ _ _ _ _ Ha)].
  rewrite (av_key _ _ _ _ _ _ Ha). destruct (excludeTo opt) eqn:Ex; cbn [negb]; [done|]. rewrite decide_True; [apply val_le_refl|].
  split; [destruct (excludeFrom opt); key_order|]. cbn. rewrite Ex. key_order.
Qed.

(** The keys after the start, when only some of the nodes are raised. *)
Lemma range_upper {p p1 : sklPage L} {from to opt val mid rest} k :
  range_ok (Some from) to opt -> to_added p p1 to opt val -> n_key <$> (mid ++ rest) = n_key <$> after_key from (nodes p1) ->
  Forall (fun n => before to (n_key n)) mid -> bytes_lt from k ->
  val_le (if decide (Forall (beyond k) rest) then ratchet (page_value p1 k) val else page_value p1 k)
    (if decide (in_range (Some from) to opt k) then ratchet (page_value p k) val else page_value p k).
Proof.
  intros Hok Hto Haft Hmid Hk. pose proof (to_value k Hok Hto Hk) as Hv. destruct (decide (Forall (beyond k) rest)) as [Hb|Hb]; [|done].
  destruct (decide (in_range (Some from) to opt k)) as [Hin|Hout]; [apply val_le_lub; [done|apply val_le_r]|].
  replace (ratchet (page_value p1 k) val) with (page_value p1 k); [done|]. symmetry. apply ratchet_old_le. destruct to as [to|].
  - apply (end_covers k Haft Hok (proj2 Hto) Hmid); [|done]. intros Hlt. apply Hout. split; [destruct (excludeFrom opt); key_order|]. cbn. destruct (excludeTo opt); key_order.
  - destruct Hout. split; [destruct (excludeFrom opt); key_order|done].
Qed.

Lemma to_before {p p1 : sklPage L} {from to opt val} k : range_ok (Some from) to opt -> to_added p p1 to opt val -> bytes_le k from -> page_value p1 k = page_value p k.
Proof. intros Hok Hto Hk. destruct to as [to|]; [|by rewrite Hto]. apply (added_point _ _ _ _ _ _ (proj1 Hto)). intros ->. by destruct Hk. Qed.

(** The keys up to the start. *)
Lemma range_start {p p1 p2 : sklPage L} {from to opt val} k :
  range_ok (Some from) to opt -> to_added p p1 to opt val -> added_values p1 p2 from val (negb (excludeFrom opt)) true -> bytes_le k from ->
  page_value p2 k = if decide (in_range (Some from) to opt k) then ratchet (page_value p k) val else page_value p k.
Proof.
  intros Hok Hto Ha Hk. rewrite <- (to_before k Hok Hto Hk). destruct (bytes_cases k from) as [Hlt|[->|]]; [| |by destruct Hk].
  - rewrite (av_below _ _ _ _ _ _ Ha), decide_False; [done| |done]. intros [Hx _]. destruct (excludeFrom opt); key_order.
  - rewrite (av_key _ _ _ _ _ _ Ha). destruct (excludeFrom opt) eqn:Ex; cbn [negb]; [by rewrite decide_False by (intros [Hx _]; rewrite Ex in Hx; key_order)|].
    rewrite decide_True; [done|]. split; [rewrite Ex; key_order|]. destruct to as [to|]; [|done]. cbn in Hok |- *. destruct (excludeTo opt); key_order.
Qed.

Section from.
Context {p p1 p2 p3 : sklPage L} {from : buffer} {to : option buffer} {opt : rangeOptions} {val : readSpanVal}.
Hypothesis Hok : range_ok (Some from) to opt.
Hypothesis Hto : to_added p p1 to opt val.
Hypothesis Ha : added_values p1 p2 from val (negb (excludeFrom opt)) true.
Hypothesis Hle : values_le p p2.

(** The start could not be initialized. *)
Lemma range_started : range_within p p2 (Some from) to opt val.
Proof.
  intros k. split; [apply Hle|]. destruct (decide (bytes_lt from k)) as [Hk|Hk]; [|rewrite (range_start k Hok Hto Ha Hk); apply val_le_refl].
  eapply val_le_trans; [|apply (range_upper (mid := []) (rest := after_key from (nodes p1)) k Hok Hto); [done|constructor|done]].
  case_decide as Hb; [rewrite (av_gap _ _ _ _ _ _ Ha) by done|rewrite (av_rest _ _ _ _ _ _ Ha) by done]; apply val_le_refl.
Qed.

Context {pre mid mid' rest : list skl_node}.
Hypothesis Haft : n_key <$> after_key from (nodes p2) = n_key <$> after_key from (nodes p1).
Hypothesis Hf : front_ok p2.
Hypothesis E2 : nodes p2 = pre ++ mid ++ rest.
Hypothesis E3 : eqv zero_value (pre ++ mid' ++ rest) (nodes p3).
Hypothesis Hpre : Forall (fun n => bytes_le (n_key n) from) pre.
Hypothesis Hsuf : Forall (beyond from) (mid ++ rest).
Hypothesis Hr : Forall2 (raised val) mid mid'.
Hypothesis Hmid : Forall (fun n => before to (n_key n)) mid.

Lemma suffix_keys : n_key <$> (mid ++ rest) = n_key <$> after_key from (nodes p1).
Proof. rewrite <- Haft, E2, after_key_cut by done. done. Qed.

(** Some of the nodes inside the range are raised. *)
Lemma range_partly : range_within p p3 (Some from) to opt val.
Proof.
  intros k. destruct (decide (bytes_lt from k)) as [Hk|Hk].
  - rewrite (past_start Ha Haft Hf E2 E3 Hpre Hsuf Hr k Hk). split; [|by apply (range_upper k Hok Hto suffix_keys Hmid)].
    assert (val_le (page_value p k) (page_value p1 k)) as Hle1.
    { destruct to as [to'|]; [|rewrite Hto; apply val_le_refl]. by apply (added_values_le _ _ _ _ _ _ (proj1 Hto)). }
    case_decide; [eapply val_le_trans; [exact Hle1|apply val_le_l]|done].
  - rewrite (floor_before E2 E3 Hsuf Hr) by done. split; [apply Hle|]. rewrite (range_start k Hok Hto Ha Hk). apply val_le_refl.
Qed.

(** All of them are. *)
Lemma range_from : Forall (fun n => ~ before to (n_key n)) rest -> range_raised p p3 (Some from) to opt val.
Proof.
  intros Hrest k. destruct (decide (bytes_lt from k)) as [Hk|Hk].
  - rewrite (past_start Ha Haft Hf E2 E3 Hpre Hsuf Hr k Hk). by apply (range_end k Hok Hto suffix_keys Hmid Hrest).
  - rewrite (floor_before E2 E3 Hsuf Hr) by done. by apply (range_start k Hok Hto Ha).
Qed.

End from.

Lemma end_options exclude :
  no_hasKey (if negb exclude then hasKey else no_options) = negb exclude /\ no_hasGap (if negb exclude then hasKey else no_options) = false /\
  no_hasKey (if negb exclude then hasKeyGap else hasGap) = negb exclude /\ no_hasGap (if negb exclude then hasKeyGap else hasGap) = true.
Proof. by destruct exclude. Qed.

(** The end of the range. *)
Lemma add_to from to opt val p p1 full :
  front_ok p -> fits val -> range_ok from to opt ->
  match to with
  | None => (p, false)
  | Some to => let '(fp, _, full) := addNode to val (if negb (excludeTo opt) then hasKey else no_options) true p in (fp, full)
  end = (p1, full) ->
  page_ok p1 /\ page_le p p1 /\ if full then pg_isFull p1 = true /\ range_within p p1 from to opt val else front_ok p1 /\ values_le p p1 /\ to_added p p1 to opt val.
Proof.
  intros Hf Hval Hok E. destruct to as [to|]; [|injection E as <- <-; split_and!; [apply Hf|done|done|intros k; apply val_le_refl|done]].
  destruct (addNode to _ _ _ _) as [[p1' it1] full1] eqn:Ea. injection E as -> ->. destruct (addNode_end _ _ _ _ _ _ _ _ Hf Hval Ea) as (K1 & K2 & K3). split_and!; [done|done|].
  destruct (end_options (excludeTo opt)) as (Eo1 & Eo2 & _). rewrite Eo1, Eo2 in K3. destruct full.
  - destruct K3 as [K3 [Hsame|Ha]]; (split; [done|]); [by apply range_same_within|]. intros k. split; [by apply (added_values_le _ _ _ _ _ _ Ha)|].
    assert (val_le (page_value p k) (if decide (in_range from (Some to) opt k) then ratchet (page_value p k) val else page_value p k)) as Hle by (case_decide; [apply val_le_l|apply val_le_refl]).
    destruct (decide (k = to)) as [->|N]; [|by rewrite (added_point _ _ _ _ _ _ Ha)]. rewrite (av_key _ _ _ _ _ _ Ha). destruct (excludeTo opt) eqn:Ex; cbn [negb]; [done|].
    rewrite decide_True; [apply val_le_refl|]. destruct from as [from|]; cbn in Hok; [|by subst opt]. split; [destruct (excludeFrom opt); key_order|]. cbn. rewrite Ex. key_order.
  - destruct K3 as [K3 [K4 K5 _ _]]. rewrite Eo1, Eo2 in K4. split_and!; [done|by eapply added_values_le|by split].
Qed.

Lemma page_addRange_spec from to opt val p p' full :
  front_ok p -> fits val -> range_ok from to opt -> page_addRange from to opt val p = (p', full) ->
  page_ok p' /\ page_le p p' /\ if full then pg_isFull p' = true /\ range_within p p' from to opt val else front_ok p' /\ range_raised p p' from to opt val.
Proof.
  intros Hf Hval Hok E. unfold page_addRange in E. destruct (match to with Some _ => _ | None => _ end) as [p1 full1] eqn:E1.
  destruct (add_to from to opt val p p1 full1 Hf Hval Hok E1) as (A1 & A2 & A3). destruct full1; [injection E as <- <-; done|]. destruct A3 as (A3 & A4 & A5). destruct from as [from|].
  2:{ injection E as <- <-. split_and!; [done|done|done|]. destruct to as [to|]; [|done]. cbn in Hok. subst opt. cbn in A5. destruct A5 as [A5 _].
    intros k. case_decide as Hk; [destruct Hk as [_ [= ->]]; apply (av_key _ _ _ _ _ _ A5)|]. apply (added_point _ _ _ _ _ _ A5). intros ->. by destruct Hk. }
  destruct (addNode from _ _ _ _) as [[p2 it2] full2] eqn:E2. destruct (addNode_end _ _ _ _ _ _ _ _ A3 Hval E2) as (B1 & B2 & B3). destruct (end_options (excludeFrom opt)) as (_ & _ & Eo1 & Eo2). rewrite Eo1, Eo2 in B3.
  destruct full2.
  { injection E as <- <-. destruct B3 as [B3 B4]. split_and!; [done|by transitivity p1|done|]. destruct B4 as [Hsame|Ha].
    - intros k. rewrite Hsame. split; [apply A4|]. destruct (decide (bytes_lt from k)) as [Hk|Hk]; [by apply (to_value k Hok A5)|]. case_decide; [eapply val_le_trans; [|apply val_le_l]|]; rewrite (to_before k Hok A5 Hk); apply val_le_refl.
    - apply (range_started Hok A5 Ha). apply (values_le_trans p p1); [done|by eapply added_values_le]. }
  destruct B3 as [B3 [B4 _ B5 B6]]. rewrite Eo1, Eo2 in B4. destruct (floor_start p2 from it2 B1 B5) as (pre & suf & En2 & Hpre & Hsuf & Eit). cbv zeta in E, Eit. rewrite Eit in E.
  destruct (ensureFloorValue _ _ _ _) as [p3 ok] eqn:E3. injection E as <- <-. unfold ensureFloorValue in E3.
  assert (length suf < S (length (skl_nodes (pg_list p2))))%nat as Hfuel by (fold (nodes p2); rewrite En2, length_app; lia).
  destruct (ensureFloorValue_loop_spec _ _ _ _ _ _ pre suf B3 En2 Hval Hfuel E3) as (C1 & C2 & C3).
  split_and!; [done|transitivity p1; [done|by transitivity p2]|]. assert (values_le p p2) as Hle by (apply (values_le_trans p p1); [done|by eapply added_values_le]). destruct ok; cbn [negb].
  - destruct C3 as (C3 & mid & rest & mid' & -> & C5 & C6 & C7 & C8). split; [done|]. apply (range_from Hok A5 B4 B6 B3 En2 ltac:(rewrite C5; apply eqv_refl) Hpre Hsuf C6 C7).
    destruct rest as [|n rest]; [constructor|]. assert (~ before to (n_key n)) as Hn by (by apply C8). constructor; [done|].
    pose proof (po_sorted _ B1) as Hs. rewrite En2 in Hs. do 2 apply sorted_app_r in Hs. apply StronglySorted_inv in Hs as [_ Hs]. eapply Forall_impl; [exact Hs|].
    cbn. intros m Hm Hb. apply Hn. destruct to as [to|]; [|done]. cbn in *. key_order.
  - destruct C3 as (C3 & mid & rest & mid' & -> & C5 & C6 & C7). split; [done|]. apply (range_partly Hok A5 B4 Hle B6 B3 En2 C5 Hpre Hsuf C6 C7).
Qed.

End range.
