(* ===== verification/TsCacheFits.v ===== *)
(** * The keys and the space of a page of the timestamp cache

    The keys of the nodes that an operation leaves on a page, and that a range always fits
    into an empty page with the space that [AddRange] checks for. *)

From S2P Require Import Prelude Hlc Encoding EncodingOrder Keys KeysOrder ReadSummary TsCache TsCachePage TsCacheAdd TsCacheRange.

Section fits.
Context {L : Type} `{ArenasklLaws L}.
Implicit Types p : sklPage L.

(** ** Keys *)

Definition keys_of p : list buffer := n_key <$> nodes p.

Lemma update_keys (f : skl_node -> skl_node) (ns : list skl_node) : (forall n, n_key (f n) = n_key n) -> n_key <$> (f <$> ns) = n_key <$> ns.
Proof. intros Hf. rewrite <- list_fmap_compose. apply list_fmap_ext. intros i n _. apply Hf. Qed.

Lemma ratchetMaxTimestamp_list ts p : pg_list (ratchetMaxTimestamp ts p) = pg_list p.
Proof. unfold ratchetMaxTimestamp. by destruct (_ <=? _). Qed.

Lemma SetMeta_keys key m (l : L) : n_key <$> skl_nodes (skl_SetMeta key m l) = n_key <$> skl_nodes l.
Proof. rewrite SetMeta_nodes. apply update_keys. intros n. by case_decide. Qed.

Lemma Set_keys key b m (l l' : L) : skl_Set key b m l = Some l' -> n_key <$> skl_nodes l' = n_key <$> skl_nodes l.
Proof. intros E. rewrite (Set_nodes _ _ _ _ _ E). apply update_keys. intros n. by case_decide. Qed.

Lemma ratchetValueSet_keys key policy kv gv setInit p : keys_of (fst (ratchetValueSet key policy kv gv setInit p)) = keys_of p.
Proof.
  unfold ratchetValueSet, keys_of, nodes. destruct (_ && _); [done|]. destruct (no_cantInit _); [done|]. destruct (decodeValueSet _ _) as [okv ogv].
  destruct (ratchetValue okv kv) as [kv' ku], (ratchetValue ogv gv) as [gv' gu]. destruct (ku || gu).
  - destruct (encodeValueSet kv' gv') as [b vm]. destruct (skl_Set _ _ _ _) as [l|] eqn:E; [apply Set_keys in E; cbn; by rewrite E, ratchetMaxTimestamp_list|].
    clear E. cbn [fst]. destruct (negb _ && negb _); cbn; by rewrite ?SetMeta_keys, ratchetMaxTimestamp_list.
  - destruct (setInit && _); [apply SetMeta_keys|done].
Qed.

Lemma scanTo_loop_keys fuel to opt it g first calls p : keys_of (fst (fst (fst (scanTo_loop fuel to opt it g first calls p)))) = keys_of p.
Proof.
  revert it g first calls p. induction fuel as [|fuel IH]; intros it g first calls p; cbn; [by destruct it|]. destruct it as [key|]; [|done]. destruct (_ || _); [done|].
  pose proof (ratchetValueSet_keys key onlyIfUninitialized g g false p) as Hk. destruct (ratchetValueSet _ _ _ _ _ _) as [p1 err]. cbn in Hk.
  destruct (n_values _) as [kv gv]. destruct (if err then _ else _) as [kv' gv']. destruct (_ =? 0); [done|]. by rewrite IH.
Qed.

Lemma incomingGapVal_keys it key p : keys_of (fst (fst (incomingGapVal it key p))) = keys_of p.
Proof.
  unfold incomingGapVal, scanTo. pose proof (scanTo_loop_keys (S (length (skl_nodes (pg_list p)))) (Some key) no_range_options (prevInitNode (pg_list p) it) zero_value true [] p) as Hk.
  by destruct (scanTo_loop _ _ _ _ _ _ _ _) as [[[p1 it1] g1] c1].
Qed.

Lemma ensureInitialized_keys it key p : keys_of (fst (fst (ensureInitialized it key p))) = keys_of p.
Proof.
  unfold ensureInitialized. pose proof (incomingGapVal_keys it key p) as Hk. destruct (incomingGapVal _ _ _) as [[p1 it1] g1]. cbn in Hk.
  pose proof (ratchetValueSet_keys key onlyIfUninitialized g1 g1 true p1) as Hk2. destruct (ratchetValueSet _ _ _ _ _ _) as [p2 full]. cbn in *. congruence.
Qed.

Lemma existing_keys key kv gv opt mustInit p it :
  keys_of (fst (fst (let '(p, it, full) :=
      if negb (no_initialized (n_meta (it_node (pg_list p) key))) && mustInit then ensureInitialized it key p else (p, it, false) in
    if full then (p, it, true) else if bool_decide (opt = no_options) then (p, it, false)
    else let '(p, full) := ratchetValueSet key always kv gv false p in (p, it, full)))) = keys_of p.
Proof.
  assert (forall q it, keys_of (fst (fst (let '(p, full) := ratchetValueSet key always kv gv false q in (p, it : option buffer, full)))) = keys_of q) as Hr.
  { intros q it'. pose proof (ratchetValueSet_keys key always kv gv false q) as Hk. by destruct (ratchetValueSet _ _ _ _ _ _). }
  destruct (negb _ && mustInit).
  - pose proof (ensureInitialized_keys it key p) as Hk. destruct (ensureInitialized _ _ _) as [[p1 it1] full]. cbn in Hk. destruct full; [done|]. case_bool_decide; [done|]. by rewrite Hr.
  - case_bool_decide; [done|]. by rewrite Hr.
Qed.

Lemma addNode_keys key val opt mustInit p k : k ∈ keys_of (fst (fst (addNode key val opt mustInit p))) -> k = key \/ k ∈ keys_of p.
Proof.
  unfold addNode. cbv zeta. case_bool_decide; [rewrite existing_keys; by right|]. pose proof (incomingGapVal_keys (it_SeekForPrev (pg_list p) key) key p) as Hk.
  destruct (incomingGapVal _ _ _) as [[p1 it1] g1]. cbn in Hk. case_bool_decide; [rewrite existing_keys, Hk; by right|]. destruct (snd _); [|cbn; rewrite Hk; by right]. cbn [negb].
  assert (forall n, n ∈ nodes p1 -> n_key n ∈ keys_of p) as Hin' by (intros n Hn; rewrite <- Hk; by apply list_elem_of_fmap_2).
  destruct (encodeValueSet _ _) as [b m]. destruct (skl_Add _ _ _ _) as [l|] eqn:E.
  - rewrite ensureInitialized_keys. unfold keys_of, nodes. cbn. rewrite (Add_nodes _ _ _ _ _ E), ratchetMaxTimestamp_list. fold (nodes p1). unfold insert_node. rewrite fmap_app, elem_of_app, fmap_cons, elem_of_cons.
    cbn. intros [Hin|[->|Hin]]; [right|by left|right]; apply list_elem_of_fmap in Hin as (n & -> & Hn); apply list_elem_of_filter in Hn as [_ Hn]; by apply Hin'.
  - unfold keys_of, nodes. cbn. rewrite ratchetMaxTimestamp_list. fold (nodes p1). fold (keys_of p1). rewrite Hk. by right.
Qed.

Lemma ensureFloorValue_loop_keys fuel it to val p : keys_of (fst (ensureFloorValue_loop fuel it to val p)) = keys_of p.
Proof.
  revert it p. induction fuel as [|fuel IH]; intros it p; cbn; [by destruct it|]. destruct it as [key|]; [|done]. destruct (match to with Some _ => _ | None => _ end); [done|].
  destruct (pg_isFull p); [done|]. pose proof (ratchetValueSet_keys key always val val false p) as Hk. destruct (ratchetValueSet _ _ _ _ _ _) as [p1 full]. cbn in Hk.
  destruct full; [done|]. by rewrite IH.
Qed.

Lemma page_addRange_keys from to opt val p k : k ∈ keys_of (fst (page_addRange from to opt val p)) -> from = Some k \/ to = Some k \/ k ∈ keys_of p.
Proof.
  unfold page_addRange. destruct (match to with Some _ => _ | None => _ end) as [p1 full1] eqn:E1.
  assert (forall k, k ∈ keys_of p1 -> to = Some k \/ k ∈ keys_of p) as Hp1.
  { intros k' Hk. destruct to as [to|]; [|injection E1 as <- <-; by right]. pose proof (addNode_keys to val (if negb (excludeTo opt) then hasKey else no_options) true p k') as Ha.
    destruct (addNode _ _ _ _ _) as [[p1' it] full]. injection E1 as -> _. destruct (Ha Hk) as [->|]; [by left|by right]. }
  destruct full1; [intros Hk; cbn in Hk; destruct (Hp1 _ Hk); auto|]. destruct from as [from|]; [|intros Hk; cbn in Hk; destruct (Hp1 _ Hk); auto].
  pose proof (addNode_keys from val (if negb (excludeFrom opt) then hasKeyGap else hasGap) false p1 k) as Ha. destruct (addNode _ _ _ _ _) as [[p2 it2] full2]. cbn in Ha.
  assert (k ∈ keys_of p2 -> Some from = Some k \/ to = Some k \/ k ∈ keys_of p) as Hp2 by (intros Hk; destruct (Ha Hk) as [->|Hk']; [by left|right; by apply Hp1]).
  destruct full2; [done|]. unfold ensureFloorValue. match goal with |- context [ensureFloorValue_loop ?f ?i ?t ?v ?q] => pose proof (ensureFloorValue_loop_keys f i t v q) as Hk3; destruct (ensureFloorValue_loop f i t v q) as [p3 ok] end.
  cbn in *. by rewrite Hk3.
Qed.

(** ** Space *)

Lemma ratchetValueSet_zero setInit p pre n post :
  page_ok p -> nodes p = pre ++ n :: post -> n_init n = false -> no_cantInit (n_meta n) = false ->
  ratchetValueSet (n_key n) onlyIfUninitialized zero_value zero_value setInit p =
    (if setInit then p <| pg_list := skl_SetMeta (n_key n) (n_meta n <| no_initialized := true |>) (pg_list p) |> else p, false).
Proof.
  intros Hok En Hi Hc. pose proof (po_sorted _ Hok) as Hs. pose proof (po_nodes _ Hok) as Ho. rewrite En in Hs, Ho. apply Forall_app in Ho as [_ Ho]. apply Forall_cons in Ho as [Hn _].
  destruct (nk_key _ _ Hn) as [[Pk _] _], (nk_gap _ _ Hn) as [[Pg _] _]. unfold ratchetValueSet. rewrite (it_node_at En Hs). change (no_initialized (n_meta n)) with (n_init n). rewrite Hi, Hc. cbn [andb].
  change (decodeValueSet (n_value n) (n_meta n)) with (n_values n). destruct (n_values n) as [okv ogv]. cbn [fst snd] in *.
  rewrite (surjective_pairing (ratchetValue okv _)), (surjective_pairing (ratchetValue ogv _)).
  assert (snd (ratchetValue okv zero_value) = false /\ snd (ratchetValue ogv zero_value) = false) as [-> ->].
  { split; apply ratchetValue_snd; by apply pos_ratchet_zero. }
  by destruct setInit.
Qed.

(** The first node of a page. *)
Lemma ensureInitialized_first p n hi :
  page_ok p -> nodes p = n :: hi -> n_init n = false -> no_cantInit (n_meta n) = false ->
  ensureInitialized (Some (n_key n)) (n_key n) p =
    (p <| pg_list := skl_SetMeta (n_key n) (n_meta n <| no_initialized := true |>) (pg_list p) |>, Some (n_key n), false).
Proof.
  intros Hok En Hi Hc. pose proof (po_sorted _ Hok) as Hs. rewrite En in Hs. pose proof (ratchetValueSet_zero false p [] n hi Hok En Hi Hc) as Hr0. pose proof (ratchetValueSet_zero true p [] n hi Hok En Hi Hc) as Hr1.
  assert (prevInitNode (pg_list p) (Some (n_key n)) = Some (n_key n)) as Eprev.
  { unfold prevInitNode. fold (nodes p). cbn [prevInitNode_loop]. rewrite (it_node_at (pre := []) En Hs). change (no_initialized (n_meta n)) with (n_init n).
    rewrite Hi, (it_Prev_at (pre := []) En Hs). cbn. rewrite En. cbn. unfold it_SeekToFirst. fold (nodes p). by rewrite En. }
  unfold ensureInitialized, incomingGapVal. rewrite Eprev. unfold scanTo. cbn [scanTo_loop]. rewrite bytes_Compare_refl. cbn [Z.gtb Z.compare Z.eqb orb andb excludeTo no_range_options].
  rewrite Hr0. destruct (n_values _). by rewrite Hr1.
Qed.

Definition room p : Z := skl_cap (pg_list p) - skl_used (pg_list p).

Definition node_space (key : buffer) (opt : nodeOptions) : Z :=
  MaxNodeSize + len key + ((if no_hasKey opt then 1 else 0) + (if no_hasGap opt then 1 else 0)) * encodedValSize.

Lemma encodeValueSet_len kv gv : len (fst (encodeValueSet kv gv)) <= (if bool_decide (kv = zero_value) then 0 else 1) + (if bool_decide (gv = zero_value) then 0 else 1).
Proof.
  unfold encodeValueSet. assert (forall v, Timestamp_IsEmpty (rv_ts v) = false -> bool_decide (v = zero_value) = false) as Hz by (intros v Hv; apply bool_decide_eq_false_2; by intros ->).
  destruct (Timestamp_IsEmpty (rv_ts kv)) eqn:E1, (Timestamp_IsEmpty (rv_ts gv)) eqn:E2; cbn [negb fst encodeValue]; rewrite ?(Hz _ E1), ?(Hz _ E2);
    repeat case_bool_decide; unfold encodeValue, len; cbn; lia.
Qed.

Lemma addNode_first key val opt mustInit p p' it full :
  front_ok p -> Forall (beyond key) (nodes p) -> fits val -> addNode key val opt mustInit p = (p', it, full) ->
  node_space key opt <= room p -> full = false /\ room p - node_space key opt <= room p'.
Proof.
  intros Hf Hb Hval E Hroom. pose proof skl_sizes as [Z1 Z2]. assert (0 <= node_space key opt) as Hns.
  { unfold node_space. pose proof (len_nonneg key). destruct (no_hasKey opt), (no_hasGap opt); nia. }
  assert (Forall (fun n => bytes_le key (n_key n)) (nodes p)) as Hhi by (eapply Forall_impl; [exact Hb|]; unfold beyond; intros n Hn; key_order).
  assert (n_key <$> head (nodes p) <> Some key) as N2.
  { destruct (nodes p) as [|m ns]; [done|]. cbn. intros [= Em]. apply Forall_cons in Hb as [Hm _]. unfold beyond in Hm. rewrite Em in Hm. key_order. }
  unfold addNode in E. rewrite (it_SeekForPrev_missing (lo := []) (hi := nodes p) eq_refl (Forall_nil_2 _) Hb) in E. cbn [last fmap option_fmap option_map] in E. rewrite bool_decide_eq_false_2 in E by done.
  destruct (incomingGapVal _ _ _) as [[p1 it1] g1] eqn:Ei.
  destruct (incomingGapVal_spec _ key p p1 it1 g1 [] (nodes p) (fo_page _ Hf) eq_refl (Forall_nil_2 _) Hhi (or_introl eq_refl) Ei) as (_ & _ & _ & -> & -> & _ & Hsame & _).
  rewrite (Hsame (fo_init _ Hf)) in E. clear Hsame Ei p1. rewrite bool_decide_eq_false_2 in E by done. destruct (snd (ratchetValue _ val)); cbn [negb] in E; [|injection E as <- <- <-; split; [done|lia]].
  set (kv0 := if no_hasKey opt then val else zero_value) in *. set (gv0 := if no_hasGap opt then val else zero_value) in *.
  assert (len (fst (encodeValueSet kv0 gv0)) <= (if no_hasKey opt then 1 else 0) + (if no_hasGap opt then 1 else 0)) as Hlen.
  { etransitivity; [apply encodeValueSet_len|]. unfold kv0, gv0. destruct (no_hasKey opt), (no_hasGap opt); repeat case_bool_decide; lia || done. }
  rewrite (surjective_pairing (encodeValueSet kv0 gv0)) in E. set (p1 := ratchetMaxTimestamp (rv_ts val) p) in *. assert (pg_list p1 = pg_list p) as El by apply ratchetMaxTimestamp_list.
  unfold room, node_space in *. destruct (skl_Add _ _ _ _) as [l|] eqn:Ea.
  - destruct (new_node_ok Hf (lo := []) (hi := nodes p) eq_refl (Forall_nil_2 _) Hval l Hb Ea) as (Hok2 & _ & En2 & _ & Ei2 & Ec2 & _).
    pose proof (ensureInitialized_first _ _ _ Hok2 En2 Ei2 Ec2) as Einit. cbn [n_key n_meta] in Einit. fold kv0 gv0 p1 in Einit. rewrite Einit in E. injection E as <- _ <-. split; [done|]. cbn. destruct (SetMeta_space key (snd (encodeValueSet kv0 gv0) <| no_initialized := true |>) l) as [-> ->].
    destruct (Add_space _ _ _ _ _ Ea) as [-> Hu]. rewrite El in Hu |- *. nia.
  - apply Add_full in Ea. rewrite El in Ea. exfalso. nia.
Qed.

Definition range_space (from to : option buffer) (opt : rangeOptions) : Z :=
  match to with Some to => node_space to (if negb (excludeTo opt) then hasKey else no_options) | None => 0 end +
  match from with Some from => node_space from (if negb (excludeFrom opt) then hasKeyGap else hasGap) | None => 0 end.

Lemma node_space_nonneg key opt : 0 <= node_space key opt.
Proof. unfold node_space. pose proof skl_sizes as [Z1 Z2]. pose proof (len_nonneg key). destruct (no_hasKey opt), (no_hasGap opt); nia. Qed.

(** The size that [AddRange] checks is enough, for the range and for its end alone. *)
Lemma encodedRangeSize_space from to opt : range_space from to opt <= encodedRangeSize from to opt.
Proof.
  unfold range_space, encodedRangeSize, node_space. pose proof skl_sizes as [Z1 Z2].
  destruct from as [f|], to as [t|], (excludeFrom opt), (excludeTo opt); cbn; unfold len; cbn; nia.
Qed.

Lemma encodedRangeSize_end from to opt : range_space None (Some to) no_range_options <= encodedRangeSize from (Some to) opt.
Proof.
  unfold range_space, encodedRangeSize, node_space. pose proof skl_sizes as [Z1 Z2].
  destruct from as [f|], (excludeFrom opt), (excludeTo opt); cbn; unfold len; cbn; nia.
Qed.

Lemma page_addRange_fits from to opt val p p' full :
  front_ok p -> nodes p = [] -> fits val -> range_ok from to opt -> range_space from to opt <= room p ->
  page_addRange from to opt val p = (p', full) -> full = false.
Proof.
  intros Hf Enil Hval Hok Hroom E. unfold page_addRange in E. destruct (match to with Some _ => _ | None => _ end) as [p1 full1] eqn:E1. unfold range_space in Hroom.
  set (sf := match from with Some _ => _ | None => 0 end) in Hroom. assert (0 <= sf) as Hsf by (unfold sf; destruct from; [apply node_space_nonneg|done]).
  assert (full1 = false /\ sf <= room p1 /\ front_ok p1 /\ Forall (fun n => to = Some (n_key n)) (nodes p1)) as (-> & Hroom1 & Hf1 & Hto).
  { destruct to as [to|]; [|injection E1 as <- <-; split_and!; [done|lia|done|by rewrite Enil]]. destruct (addNode to _ _ _ _) as [[p1' it] full'] eqn:Ea. injection E1 as -> ->.
    destruct (addNode_first _ _ _ _ _ _ _ _ Hf ltac:(by rewrite Enil) Hval Ea) as [-> Hr]; [lia|]. destruct (addNode_end _ _ _ _ _ _ _ _ Hf Hval Ea) as (_ & _ & Hf1 & _).
    split_and!; [done|lia|done|]. apply Forall_forall. intros n Hn. pose proof (addNode_keys to val (if negb (excludeTo opt) then hasKey else no_options) true p (n_key n)) as Hk.
    rewrite Ea in Hk. cbn [fst] in Hk. specialize (Hk (list_elem_of_fmap_2 _ _ _ Hn)) as [->|Hk]; [done|]. unfold keys_of in Hk. rewrite Enil in Hk. by apply elem_of_nil in Hk. }
  destruct from as [from|]; [|by injection E as _ <-]. destruct (addNode from _ _ _ _) as [[p2 it2] full2] eqn:E2.
  assert (Forall (beyond from) (nodes p1)) as Hb. { eapply Forall_impl; [exact Hto|]. intros n ->. exact Hok. }
  destruct (addNode_first _ _ _ _ _ _ _ _ Hf1 Hb Hval E2) as [-> _]; [done|]. destruct (addNode_end _ _ _ _ _ _ _ _ Hf1 Hval E2) as (Hok2 & _ & _ & Hend).
  destruct (floor_start p2 from it2 Hok2 (ea_it _ _ _ _ _ _ Hend)) as (pre & suf & En2 & _ & Hsuf & Eit). cbv zeta in E, Eit. rewrite Eit in E.
  assert (ensureFloorValue (n_key <$> head suf) to val p2 = (p2, true)) as Efloor; [|rewrite Efloor in E; by injection E as _ <-].
  unfold ensureFloorValue. destruct suf as [|n suf]; [done|]. cbn [head fmap option_fmap option_map ensureFloorValue_loop]. apply Forall_cons in Hsuf as [Hn _].
  assert (to = Some (n_key n)) as ->; [|pose proof (bytes_Compare_refl (n_key n)) as ->; done].
  pose proof (addNode_keys from val (if negb (excludeFrom opt) then hasKeyGap else hasGap) false p1 (n_key n)) as Hk. rewrite E2 in Hk. cbn [fst] in Hk.
  assert (n ∈ nodes p2) as Hin by (rewrite En2; set_solver). specialize (Hk (list_elem_of_fmap_2 _ _ _ Hin)) as [Ek|Hk]; [unfold beyond in Hn; rewrite Ek in Hn; exfalso; key_order|].
  apply list_elem_of_fmap in Hk as (m & -> & Hm). rewrite Forall_forall in Hto. by apply Hto.
Qed.

End fits.
