(* ===== verification/TsCacheSkl.v ===== *)
(** * The interval skip list of the timestamp cache

    The value of a key is the join of what the pages and the floor timestamp give it.
    Lookups return it, for one key exactly and for a range an upper bound; rotations only
    raise it, and [AddRange] always ends and raises the keys of its range to the value
    that is added. *)

From S2P Require Import Prelude Hlc Encoding EncodingOrder Keys KeysOrder ReadSummary TsCache TsCachePage TsCacheSerial TsCacheAdd TsCacheRange TsCacheFits.

Lemma val_lt_ts v w : ts_lt (rv_ts v) (rv_ts w) -> val_le v w.
Proof. intros Hlt. unfold val_le. cbn. unfold readSpanVal_ratchet. by rewrite (proj2 (Timestamp_Less_spec _ _)). Qed.

Lemma val_le_low v t : ts_le (rv_ts v) t -> val_le v (low t).
Proof. intros Hv. unfold val_le. rewrite ratchet_comm. by apply ratchet_low_le. Qed.

Lemma val_le_join v w v' w' : val_le v v' -> val_le w w' -> val_le (ratchet v w) (ratchet v' w').
Proof. intros H1 H2. apply val_le_lub; [by eapply val_le_trans; [|apply val_le_l]|by eapply val_le_trans; [|apply val_le_r]]. Qed.

(** ** Joins *)

Lemma ratchet_lub (a b v : readSpanVal) : val_le (ratchet a b) v <-> val_le a v /\ val_le b v.
Proof.
  split; [|by intros [H1 H2]; apply val_le_lub]. intros Hv. split; (eapply val_le_trans; [|exact Hv]); [apply val_le_l|apply val_le_r].
Qed.

(** A value is determined by its upper bounds. *)
Lemma val_le_ext (a b : readSpanVal) : (forall v, val_le a v <-> val_le b v) -> a = b.
Proof.
  intros Hab. assert (val_le a b) as H1 by (apply Hab, val_le_refl). assert (val_le b a) as H2 by (apply Hab, val_le_refl). unfold val_le in *. by rewrite <- H2, ratchet_comm.
Qed.

Section skl.
Context {L : Type} `{ArenasklLaws L}.
Implicit Types p : sklPage L.
Implicit Types pages : list (sklPage L).
Implicit Types s : intervalSkl L.

(** ** The value of a key *)

Definition pages_value pages (k : buffer) : readSpanVal := foldr (fun p v => ratchet (page_value p k) v) zero_value pages.

Definition skl_value s (k : buffer) : readSpanVal := ratchet (pages_value (is_pages s) k) (low (is_floorTS s)).

(** [p], which is newer, bounds the values of [q]. *)
Definition bounds p q : Prop := forall k, ts_le (rv_ts (page_value q k)) (getMaxTimestamp p).

Record pages_ok pages : Prop := {
  ps_ok : Forall page_ok pages;
  ps_bounds : StronglySorted bounds pages;
  ps_bytes : Forall byte_keys pages
}.

Definition floor_ok (floor : Timestamp) : Prop := ts_le (mkTimestamp 0 0) floor /\ 0 <= Logical floor <= MaxInt32.

Record skl_ok s : Prop := {
  so_pages : pages_ok (is_pages s);
  so_front : exists fp rest, is_pages s = fp :: rest /\ front_ok fp;
  so_floor : floor_ok (is_floorTS s);
  so_size : 0 < is_pageSize s /\ (is_pageSizeFixed s = false -> is_pageSize s <= maximumSklPageSize)
}.

Lemma pages_value_cons p pages k : pages_value (p :: pages) k = ratchet (page_value p k) (pages_value pages k).
Proof. done. Qed.

Lemma pages_value_pos pages k : Forall page_ok pages -> pos (pages_value pages k).
Proof. intros Hok. destruct Hok as [|p pages Hp Hok]; [apply pos_zero|]. rewrite pages_value_cons. apply pos_ratchet. apply (page_value_within p k Hp). Qed.

Lemma pages_value_in p pages k : p ∈ pages -> val_le (page_value p k) (pages_value pages k).
Proof.
  induction pages as [|q pages IH]; [by intros ?%elem_of_nil|]. intros [->|Hp]%elem_of_cons; cbn; [apply val_le_l|]. eapply val_le_trans; [by apply IH|apply val_le_r].
Qed.

Lemma pages_value_iff pages k v : val_le (pages_value pages k) v <-> val_le zero_value v /\ Forall (fun p => val_le (page_value p k) v) pages.
Proof. induction pages as [|p pages IH]; [by rewrite Forall_nil; change (pages_value [] k) with zero_value; tauto|]. rewrite pages_value_cons, ratchet_lub, IH, Forall_cons. tauto. Qed.

Lemma pages_value_lub pages k v : pos v -> Forall (fun p => val_le (page_value p k) v) pages -> val_le (pages_value pages k) v.
Proof. intros Hv Hps. by apply pages_value_iff. Qed.

(** ** Lookups *)

(** A page after a lookup. *)
Definition same_page p p' : Prop :=
  page_ok p' /\ page_le p p' /\ eqv zero_value (nodes p) (nodes p') /\ (Forall (fun n => n_init n = true) (nodes p) -> p' = p).

Lemma same_page_refl p : page_ok p -> same_page p p.
Proof. intros Hok. split_and!; try done. apply eqv_refl. Qed.

Lemma same_page_value p p' k : same_page p p' -> page_value p' k = page_value p k.
Proof. intros (_ & _ & He & _). symmetry. by apply eqv_value. Qed.

Lemma same_pages_value pages pages' k : Forall2 same_page pages pages' -> pages_value pages' k = pages_value pages k.
Proof. induction 1 as [|p p' pages pages' Hp _ IH]; [done|]. by rewrite !pages_value_cons, IH, (same_page_value _ _ _ Hp). Qed.

Lemma same_pages_ok pages pages' : Forall2 same_page pages pages' -> pages_ok pages -> pages_ok pages'.
Proof.
  intros Hs [H1 H2 H3]. split.
  - clear -Hs. induction Hs as [|p p' pages pages' (Hp & _) _ IH]; by constructor.
  - clear -Hs H2. induction Hs as [|p p' pages pages' Hp Hps IH]; [constructor|]. apply StronglySorted_inv in H2 as [H2 Hb]. constructor; [by apply IH|].
    clear -Hp Hps Hb. induction Hps as [|q q' pages pages' Hq _ IH]; [constructor|]. apply Forall_cons in Hb as [Hb Hbs]. constructor; [|by apply IH].
    intros k. rewrite (same_page_value _ _ _ Hq). etransitivity; [apply Hb|]. destruct Hp as (_ & Hle & _). by apply getMaxTimestamp_le.
  - clear -Hs H3. induction Hs as [|p p' pages pages' (_ & _ & He & _) _ IH]; [constructor|]. apply Forall_cons in H3 as [Hb H3]. constructor; [by eapply byte_keys_eqv|by apply IH].
Qed.

Lemma same_front fp rest pages' : front_ok fp -> Forall2 same_page (fp :: rest) pages' -> exists rest', pages' = fp :: rest'.
Proof. intros Hf Hs. inversion Hs as [|? fp' ? rest' (_ & _ & _ & He)]; subst. exists rest'. by rewrite (He (fo_init _ Hf)). Qed.

Lemma same_skl_ok s pages' : skl_ok s -> Forall2 same_page (is_pages s) pages' -> skl_ok (s <| is_pages := pages' |>).
Proof.
  intros [H1 (fp & rest & E & Hf) H3 H4] Hs. split; [by eapply same_pages_ok| |done|done]. rewrite E in Hs. destruct (same_front _ _ _ Hf Hs) as [rest' ->]. by exists fp, rest'.
Qed.

(** Pages that are skipped do not matter. *)
Lemma skipped_value p pages k v : page_ok p -> Forall (bounds p) pages -> pos v -> ts_lt (getMaxTimestamp p) (rv_ts v) -> val_le (pages_value (p :: pages) k) v.
Proof.
  intros Hok Hb Hv Hlt. apply pages_value_lub; [done|]. assert (forall q, ts_le (rv_ts (page_value q k)) (getMaxTimestamp p) -> val_le (page_value q k) v) as Hq.
  { intros q Hq. apply val_lt_ts. intros Hc. apply Hlt. by transitivity (rv_ts (page_value q k)). }
  constructor; [apply Hq; apply (page_value_within p k Hok)|]. eapply Forall_impl; [exact Hb|]. intros q Hbq. apply Hq, Hbq.
Qed.

Lemma lookup_pages_spec from to opt val pages pages' v :
  pages_ok pages -> pos val -> lookup_pages from to opt val pages = (pages', v) ->
  Forall2 same_page pages pages' /\ val_le val v /\
  (forall k, in_range from to opt k -> val_le (pages_value pages k) v) /\
  (forall k, from = None -> to = Some k -> opt = no_range_options -> v = ratchet val (pages_value pages k)).
Proof.
  revert val pages'. induction pages as [|p pages IH]; intros val pages' [H1 H2 H3] Hval E; cbn in E.
  { injection E as <- <-. split_and!; [constructor|apply val_le_refl|done|]. intros k _ _ _. cbn. by rewrite pos_ratchet_zero. }
  apply Forall_cons in H1 as [Hp H1], H3 as [Hb H3]. apply StronglySorted_inv in H2 as [H2 Hbs]. destruct (Timestamp_Less _ _) eqn:Elt.
  - injection E as <- <-. apply Timestamp_Less_spec in Elt. assert (Forall2 same_page pages pages) as Hsame by (clear -H1; induction H1; constructor; [by apply same_page_refl|done]).
    split_and!; [constructor; [by apply same_page_refl|done]|apply val_le_refl|intros k _; by apply skipped_value|].
    intros k _ _ _. symmetry. apply ratchet_old_le. by apply skipped_value.
  - destruct (page_lookupTimestampRange from to opt p) as [p' v2] eqn:Ep. destruct (lookup_pages _ _ _ _ pages) as [pages2 v3] eqn:El. injection E as <- <-.
    destruct (page_lookup_spec _ _ _ _ _ _ Hp Ep) as (P1 & P2 & P3 & P4 & P5 & P6 & P7). rewrite ratchetValue_fst in El.
    destruct (IH (ratchet val v2) pages2) as (K1 & K2 & K3 & K4); [by split|by apply pos_ratchet|done|]. split_and!.
    + constructor; [|done]. done.
    + eapply val_le_trans; [apply val_le_l|exact K2].
    + intros k Hk. rewrite pages_value_cons. apply val_le_lub; [|by apply K3]. eapply val_le_trans; [by apply P6|]. eapply val_le_trans; [apply (val_le_r val)|exact K2].
    + intros k E1 E2 E3. rewrite (K4 k E1 E2 E3), (P7 k E1 E2 E3), pages_value_cons. by rewrite ratchet_assoc.
Qed.

Lemma LookupTimestampRange_spec from to opt s : skl_ok s -> from <> None \/ to <> None ->
  exists s' v, LookupTimestampRange from to opt s = Ret (s', v) /\ skl_ok s' /\ is_pageSizeFixed s' = is_pageSizeFixed s /\
    (forall k, skl_value s' k = skl_value s k) /\ (forall k, in_range from to opt k -> val_le (skl_value s k) v) /\
    (forall k, from = None -> to = Some k -> opt = no_range_options -> v = skl_value s k).
Proof.
  intros Hs Hft. unfold LookupTimestampRange. rewrite <- bool_decide_and, bool_decide_eq_false_2 by (intros [-> ->]; by destruct Hft).
  destruct (lookup_pages _ _ _ _ _) as [pages v] eqn:E. destruct (lookup_pages_spec _ _ _ _ _ _ _ (so_pages _ Hs) pos_zero E) as (K1 & K2 & K3 & K4).
  rewrite ratchetValue_fst. change (mkReadSpanVal (is_floorTS s) noTxnID) with (low (is_floorTS s)). eexists _, _. split; [done|]. split; [by apply same_skl_ok|]. split; [done|]. split_and!.
  - intros k. unfold skl_value. f_equal. by apply same_pages_value.
  - intros k Hk. apply val_le_join; [by apply K3|apply val_le_refl].
  - intros k E1 E2 E3. unfold skl_value. f_equal. rewrite (K4 k E1 E2 E3). apply pages_value_pos. apply (ps_ok _ (so_pages _ Hs)).
Qed.

(** What lookups return fits when the floor does. *)
Lemma lookup_pages_fits from to opt val pages : Forall page_ok pages -> fits val -> fits (snd (lookup_pages from to opt val pages)).
Proof.
  intros Hok. revert val. induction Hok as [|p pages Hp _ IH]; intros val Hv; [done|]. cbn. destruct (Timestamp_Less _ _); [done|].
  destruct (page_lookupTimestampRange from to opt p) as [p' v2] eqn:Ep. destruct (page_lookup_spec _ _ _ _ _ _ Hp Ep) as (_ & _ & _ & _ & [Hf _] & _).
  specialize (IH (fst (ratchetValue val v2))). destruct (lookup_pages _ _ _ _ pages) as [pages2 v3]. apply IH. rewrite ratchetValue_fst. by apply fits_ratchet.
Qed.

Lemma LookupTimestampRange_fits from to opt s s' v : skl_ok s -> WallTime (is_floorTS s) < MaxInt64 -> LookupTimestampRange from to opt s = Ret (s', v) -> fits v.
Proof.
  intros Hs Hw. unfold LookupTimestampRange. destruct (_ && _); [done|]. pose proof (lookup_pages_fits from to opt zero_value (is_pages s) (ps_ok _ (so_pages _ Hs)) fits_zero) as Hf.
  destruct (lookup_pages _ _ _ _ _) as [pages w]. intros [= <- <-]. rewrite ratchetValue_fst. apply fits_ratchet; [done|]. destruct (so_floor _ Hs). split; [|done]. by apply (val_le_low zero_value).
Qed.

(** ** Rotation *)

Lemma evict_loop_spec minTS minPages floor back floor' back' :
  evict_loop minTS minPages floor back = (floor', back') ->
  ts_le floor floor' /\ (0 <= Logical floor <= MaxInt32 -> 0 <= Logical floor' <= MaxInt32) /\ exists ev, back = ev ++ back' /\ Forall (fun p => ts_le (getMaxTimestamp p) floor') ev.
Proof.
  revert floor. induction back as [|bp back IH]; intros floor E; cbn in E; [injection E as <- <-; split_and!; [done|done|]; by exists []|].
  destruct (_ >=? _); [|injection E as <- <-; split_and!; [done|done|]; by exists []]. destruct (Timestamp_LessEq _ _); [injection E as <- <-; split_and!; [done|done|]; by exists []|].
  destruct (IH _ E) as (Hle & Hlog & ev & -> & Hev). destruct (Timestamp_Forward_le floor (getMaxTimestamp bp)) as [F1 F2]. split_and!; [by etransitivity| |].
  { intros Hg. apply Hlog. unfold Timestamp_Forward. destruct (Timestamp_Less floor (getMaxTimestamp bp)); [|done]. cbn. unfold MaxInt32. lia. }
  exists (bp :: ev). split; [done|]. constructor; [by etransitivity|done].
Qed.

Lemma empty_page p : nodes p = [] -> pg_isFull p = false -> 0 <= pg_maxWallTime p -> front_ok p /\ byte_keys p /\ forall k, page_value p k = zero_value.
Proof. intros En Hf Hm. split_and!; [split; [|done|unfold inited; by rewrite En]|unfold byte_keys; by rewrite En|intros k; unfold page_value; by rewrite En]. split; [rewrite En; constructor|by rewrite En|done]. Qed.

(** The front page, filled or not, and the rest. *)
Record filled_ok s : Prop := {
  fd_pages : pages_ok (is_pages s);
  fd_front : is_pages s <> [];
  fd_floor : floor_ok (is_floorTS s);
  fd_size : 0 < is_pageSize s /\ (is_pageSizeFixed s = false -> is_pageSize s <= maximumSklPageSize)
}.

Lemma skl_filled s : skl_ok s -> filled_ok s.
Proof. intros [H1 (fp & rest & E & _) H3 H4]. split; try done. by rewrite E. Qed.

Lemma pages_ok_app_l pages pages' : pages_ok (pages ++ pages') -> pages_ok pages.
Proof.
  intros [H1 H2 H3]. apply Forall_app in H1 as [H1 _], H3 as [H3 _]. split; [done| |done]. clear -H2. induction pages as [|p pages IH]; [constructor|].
  apply StronglySorted_inv in H2 as [H2 Hb]. constructor; [by apply IH|by apply Forall_app in Hb as [? _]].
Qed.

Lemma nextPageSize_spec s : 0 < is_pageSize s /\ (is_pageSizeFixed s = false -> is_pageSize s <= maximumSklPageSize) ->
  exists size, nextPageSize s = (s <| is_pageSize := size |>, size) /\ 0 < size /\
    if is_pageSizeFixed s then size = is_pageSize s else size = Z.min (is_pageSize s * 2) maximumSklPageSize.
Proof.
  intros [H1 H2]. unfold nextPageSize. destruct (is_pageSizeFixed s) eqn:Ef; cbn [orb].
  - exists (is_pageSize s). split_and!; [by destruct s|done|done].
  - specialize (H2 eq_refl). destruct (Z.eqb_spec (is_pageSize s) maximumSklPageSize) as [E|N].
    + exists (is_pageSize s). split_and!; [by destruct s|done|]. unfold maximumSklPageSize in *. lia.
    + unfold maximumSklPageSize in *. rewrite Z.mod_small by lia. set (size := if _ >? _ then _ else _). assert (size = Z.min (is_pageSize s * 2) 33554432) as Es.
      { unfold size. destruct (Z.gtb_spec (is_pageSize s * 2) 33554432); lia. }
      exists size. split_and!; [done|lia|done].
Qed.

Lemma rotatePages_spec now s : filled_ok s ->
  let s' := rotatePages now s in
  skl_ok s' /\ ts_le (is_floorTS s) (is_floorTS s') /\ (forall k, skl_value s' k = ratchet (skl_value s k) (low (is_floorTS s'))) /\ is_pageSizeFixed s' = is_pageSizeFixed s /\
  (if is_pageSizeFixed s then is_pageSize s' = is_pageSize s else is_pageSize s' = Z.min (is_pageSize s * 2) maximumSklPageSize) /\
  exists fp rest, is_pages s' = fp :: rest /\ nodes fp = [] /\ is_pageSize s' - initialSklAllocSize <= room fp.
Proof.
  intros [Hps Hne Hfl Hsz] s'. destruct (is_pages s) as [|fp rest] eqn:Ep; [done|]. unfold s', rotatePages. rewrite Ep.
  destruct (evict_loop _ _ _ _) as [floor back] eqn:Ee. destruct (evict_loop_spec _ _ _ _ _ _ Ee) as (Hle & Hlog & ev & Eev & Hev).
  assert (fp :: rest = reverse back ++ reverse ev) as Ekept by (rewrite <- reverse_app, <- Eev; symmetry; apply reverse_involutive). unfold pushNewPage.
  set (s1 := s <| is_floorTS := floor |> <| is_pages := reverse back |>). destruct (nextPageSize_spec s1 Hsz) as (size & -> & Hpos & Hsize).
  set (np := newSklPage size <| pg_maxWallTime := pg_maxWallTime fp |>). pose proof (ps_ok _ Hps) as Hok. apply Forall_cons in Hok as [Hfp _].
  assert (nodes np = []) as Enp by apply new_nodes. destruct (empty_page np Enp eq_refl (po_max _ Hfp)) as (Hnf & Hnb & Hnv).
  set (s2 := _ <| is_pages := np :: _ |>). assert (is_pages s2 = np :: reverse back) as Ep2 by done. assert (is_floorTS s2 = floor) as Ef2 by done.
  assert (pages_ok (np :: reverse back)) as Hps2.
  { rewrite Ekept in Hps. pose proof (pages_ok_app_l _ _ Hps) as [K1 K2 K3]. split; [by constructor; [apply Hnf|]| |by constructor]. constructor; [done|].
    destruct (reverse back) as [|q qs] eqn:Eb; [constructor|]. injection Ekept as <- _. apply StronglySorted_inv in K2 as [_ K2]. constructor; [|exact K2]. intros k. apply (page_value_within fp k Hfp). }
  assert (skl_ok s2) as Hs2.
  { split; [done|by exists np, (reverse back)|destruct Hfl; split; [cbn; by etransitivity|by apply Hlog]|]. change (is_pageSize s2) with size. change (is_pageSizeFixed s2) with (is_pageSizeFixed s). split; [done|].
    intros Ef. change (is_pageSizeFixed s1) with (is_pageSizeFixed s) in Hsize. rewrite Ef in Hsize. lia. }
  split_and!; [done|done| |done|exact Hsize|exists np, (reverse back); split_and!; [done|done|]; unfold room; cbn; destruct (new_space size) as [-> ?]; lia].
  intros k. apply val_le_ext. intros v. unfold skl_value. rewrite Ep2, Ef2, Ep, Ekept, !ratchet_lub, !pages_value_iff, Forall_cons, Forall_app, Hnv. split.
  - intros ((G1 & _ & G2) & G3). split_and!; [done|done| |by eapply val_le_trans; [apply ratchet_low|]|done]. rewrite Forall_forall in Hev |- *. intros p Hp. eapply val_le_trans; [|exact G3].
    apply val_le_low. pose proof Hp as Hp'. rewrite elem_of_reverse in Hp'. etransitivity; [|by apply Hev]. apply page_value_within. pose proof (ps_ok _ Hps) as Hok. rewrite Ekept, Forall_app in Hok.
    destruct Hok as [_ Hok]. rewrite Forall_forall in Hok. by apply Hok.
  - intros (((G1 & G2 & _) & _) & G3). done.
Qed.

(** ** Adding a range *)

Definition byte_bound (o : option buffer) : Prop := match o with Some k => Forall is_byte k | None => True end.

(** The values with a range added: what the cache promises. *)
Definition added s (from to : option buffer) (opt : rangeOptions) (val : readSpanVal) (k : buffer) : readSpanVal :=
  if decide (in_range from to opt k) then ratchet (skl_value s k) val else skl_value s k.

Lemma front_pages fp fp' rest : pages_ok (fp :: rest) -> page_ok fp' -> page_le fp fp' -> byte_keys fp' -> pages_ok (fp' :: rest).
Proof.
  intros [H1 H2 H3] Hok Hle Hb. apply Forall_cons in H1 as [_ H1], H3 as [_ H3]. apply StronglySorted_inv in H2 as [H2 H2']. split; [by constructor| |by constructor].
  constructor; [done|]. eapply Forall_impl; [exact H2'|]. intros q Hq k. etransitivity; [apply Hq|by apply getMaxTimestamp_le].
Qed.

Section addRange.
Context {from to : option buffer} {opt : rangeOptions} {val : readSpanVal}.
Hypothesis Hval : fits val.
Hypothesis Hrange : range_ok from to opt.
Hypothesis Hfrom : byte_bound from.
Hypothesis Hto : byte_bound to.

Lemma page_addRange_bytes p : byte_keys p -> byte_keys (fst (page_addRange from to opt val p)).
Proof.
  intros Hb. unfold byte_keys in *. apply Forall_forall. intros n Hn. destruct (page_addRange_keys from to opt val p (n_key n)) as [E|[E|Hk]]; [by apply list_elem_of_fmap_2| | |].
  - by rewrite E in Hfrom.
  - by rewrite E in Hto.
  - apply list_elem_of_fmap in Hk as (m & -> & Hm). rewrite Forall_forall in Hb. by apply Hb.
Qed.

Lemma added_le s k : val_le (skl_value s k) (added s from to opt val k).
Proof. unfold added. case_decide; [apply val_le_l|apply val_le_refl]. Qed.

Lemma addRange_spec s s' full : skl_ok s -> addRange from to opt val s = (s', full) ->
  filled_ok s' /\ is_pageSize s' = is_pageSize s /\ is_pageSizeFixed s' = is_pageSizeFixed s /\ is_floorTS s' = is_floorTS s /\
  (forall k, val_le (skl_value s k) (skl_value s' k) /\ val_le (skl_value s' k) (added s from to opt val k)) /\
  (full = false -> skl_ok s' /\ forall k, skl_value s' k = added s from to opt val k).
Proof.
  intros Hs E. unfold addRange in E. destruct (Timestamp_LessEq _ _) eqn:Ets.
  { injection E as <- <-. split_and!; [by apply skl_filled|done|done|done|intros k; split; [apply val_le_refl|apply added_le]|]. intros _. split; [done|]. intros k. unfold added. case_decide; [|done]. symmetry. apply ratchet_old_le.
    apply (val_le_trans _ (low (is_floorTS s))); [apply val_le_low; by apply Timestamp_LessEq_spec|apply val_le_r]. }
  destruct Hs as [Hps (fp & rest & Ep & Hf) Hfl Hsz]. rewrite Ep in E, Hps. destruct (page_addRange _ _ _ _ _) as [fp' full'] eqn:Ea. injection E as <- <-.
  destruct (page_addRange_spec _ _ _ _ _ _ _ Hf Hval Hrange Ea) as (K1 & K2 & K3). pose proof (ps_bytes _ Hps) as Hb. apply Forall_cons in Hb as [Hb _].
  pose proof (page_addRange_bytes fp Hb) as Hb'. rewrite Ea in Hb'. cbn [fst] in Hb'. pose proof (front_pages _ _ _ Hps K1 K2 Hb') as Hps'.
  assert (forall k, skl_value s k = ratchet (page_value fp k) (ratchet (pages_value rest k) (low (is_floorTS s)))) as Ev by (intros k; unfold skl_value; by rewrite Ep, pages_value_cons, ratchet_assoc).
  assert (forall k, skl_value (s <| is_pages := fp' :: rest |>) k = ratchet (page_value fp' k) (ratchet (pages_value rest k) (low (is_floorTS s)))) as Ev' by (intros k; by rewrite ratchet_assoc).
  assert (forall k, added s from to opt val k = ratchet (if decide (in_range from to opt k) then ratchet (page_value fp k) val else page_value fp k) (ratchet (pages_value rest k) (low (is_floorTS s)))) as Eadd.
  { intros k. unfold added. rewrite Ev. case_decide; [|done]. rewrite <- !ratchet_assoc. f_equal. by rewrite (ratchet_comm val), !ratchet_assoc. }
  assert (range_within fp fp' from to opt val) as Hin by (destruct full'; [apply K3|apply range_raised_within, K3]).
  split_and!; [by split|done|done|done| |].
  - intros k. rewrite Eadd, Ev, Ev'. destruct (Hin k). split; (apply val_le_join; [done|apply val_le_refl]).
  - intros ->. destruct K3 as [K3 K4]. split; [split; [done|by exists fp', rest|done|done]|]. intros k. by rewrite Eadd, Ev', K4.
Qed.

(** An empty page of the largest size has room. *)
Lemma addRange_room s fp rest : skl_ok s -> is_pages s = fp :: rest -> nodes fp = [] -> range_space from to opt <= room fp -> snd (addRange from to opt val s) = false.
Proof.
  intros [_ (fp' & rest' & Ep' & Hf) _ _] Ep En Hroom. rewrite Ep in Ep'. injection Ep' as <- <-. unfold addRange. destruct (Timestamp_LessEq _ _); [done|]. rewrite Ep.
  destruct (page_addRange _ _ _ _ _) as [p' full] eqn:Ea. cbn. by apply (page_addRange_fits _ _ _ _ _ _ _ Hf En Hval Hrange Hroom Ea).
Qed.

(** What the loop leads to: the values with the range, raised to the floor. *)
Record loop_result s s' : Prop := {
  lr_ok : skl_ok s';
  lr_fixed : is_pageSizeFixed s' = is_pageSizeFixed s;
  lr_floor : ts_le (is_floorTS s) (is_floorTS s');
  lr_value k : skl_value s' k = ratchet (added s from to opt val k) (low (is_floorTS s'))
}.

Lemma loop_result_added s s' : skl_ok s' -> is_pageSizeFixed s' = is_pageSizeFixed s -> is_floorTS s' = is_floorTS s -> (forall k, skl_value s' k = added s from to opt val k) -> loop_result s s'.
Proof.
  intros H1 H2 H3 H4. split; [done|done|by rewrite H3|]. intros k. rewrite H4. symmetry. apply ratchet_old_le. rewrite H3. eapply val_le_trans; [|apply added_le]. apply val_le_r.
Qed.

(** An attempt that filled the page, a rotation, and the rest of the loop. *)
Lemma loop_result_rotated s s1 s2 s' :
  is_floorTS s1 = is_floorTS s -> (forall k, val_le (skl_value s k) (skl_value s1 k) /\ val_le (skl_value s1 k) (added s from to opt val k)) ->
  is_pageSizeFixed s2 = is_pageSizeFixed s -> ts_le (is_floorTS s1) (is_floorTS s2) -> (forall k, skl_value s2 k = ratchet (skl_value s1 k) (low (is_floorTS s2))) ->
  loop_result s2 s' -> loop_result s s'.
Proof.
  intros F1 V1 X2 F2 V2 [R1 R2 R3 R4]. rewrite F1 in F2. split; [done|congruence|by etransitivity|]. intros k. rewrite R4. specialize (V1 k) as [V1 V1'].
  apply val_le_ext. intros v. rewrite !ratchet_lub. unfold added in *. rewrite V2. destruct (decide _).
  - rewrite !ratchet_lub. split.
    + intros (((G1 & _) & G2) & G3). split_and!; [by eapply val_le_trans|done|done].
    + intros ((G1 & G2) & G3). split_and!; [eapply val_le_trans; [exact V1'|by apply ratchet_lub]|by eapply val_le_trans; [apply ratchet_low|]|done|done].
  - rewrite ratchet_lub. split.
    + intros ((G1 & _) & G3). split; [by eapply val_le_trans|done].
    + intros (G1 & G3). split_and!; [by eapply val_le_trans|by eapply val_le_trans; [apply ratchet_low|]|done].
Qed.

(** [n] rotations make the page as large as it gets. *)
Lemma AddRange_loop_spec n fuel nows s :
  skl_ok s -> range_space from to opt <= maximumPageSize s - initialSklAllocSize ->
  (is_pageSizeFixed s = false -> maximumSklPageSize <= is_pageSize s * 2 ^ Z.of_nat n) -> (n + 1 < fuel)%nat ->
  exists s', AddRange_loop fuel nows from to opt val s = Some s' /\ loop_result s s'.
Proof.
  revert fuel nows s. induction n as [|n IH]; intros [|fuel] nows s Hs Hspace Hn Hfuel; try lia; cbn [AddRange_loop].
  all: destruct (addRange from to opt val s) as [s1 full] eqn:Ea; destruct (addRange_spec _ _ _ Hs Ea) as (A1 & A2 & A3 & A4 & A5 & A6); destruct full;
    [|destruct (A6 eq_refl) as [A7 A8]; exists s1; split; [done|by apply loop_result_added]].
  all: destruct (rotatePages_spec (nows O) s1 A1) as (R1 & R2 & R3 & R4 & R5 & fp & rest & R6 & R7 & R8); set (s2 := rotatePages (nows O) s1) in *; rewrite A2, A3 in R5; rewrite A3 in R4.
  all: pose proof (loop_result_rotated s s1 s2) as Hback.
  - destruct fuel as [|fuel]; [lia|]. cbn [AddRange_loop]. assert (is_pageSize s2 = maximumPageSize s) as Emax.
    { unfold maximumPageSize. destruct (is_pageSizeFixed s); [done|]. specialize (Hn eq_refl). rewrite R5. change (2 ^ Z.of_nat 0) with 1 in Hn. unfold maximumSklPageSize in *. lia. }
    assert (snd (addRange from to opt val s2) = false) as Efull by (apply (addRange_room s2 fp rest); [done|done|done|lia]).
    destruct (addRange from to opt val s2) as [s3 full] eqn:E3. cbn in Efull. subst full. destruct (addRange_spec _ _ _ R1 E3) as (B1 & B2 & B3 & B4 & B5 & B6). destruct (B6 eq_refl) as [B7 B8].
    exists s3. split; [done|]. apply Hback; try done. by apply loop_result_added.
  - destruct (IH fuel (fun i => nows (S i)) s2) as (s' & E' & Hr); [done| | |lia|exists s'; split; [done|by apply Hback]].
    + unfold maximumPageSize in *. rewrite R4. destruct (is_pageSizeFixed s); [by rewrite R5|done].
    + rewrite R4. intros Ef. specialize (Hn Ef). rewrite Ef in R5. rewrite R5. rewrite Nat2Z.inj_succ, Z.pow_succ_r in Hn by lia. assert (1 <= 2 ^ Z.of_nat n) by (apply (Z.pow_le_mono_r 2 0); lia). unfold maximumSklPageSize in *. nia.
Qed.

End addRange.

End skl.
