(* ===== verification/TsCacheSpec.v ===== *)
(** * What the timestamp cache promises

    The cache in front of the interval skip list (skl_impl.go): whatever operations it
    serves, none of them fails, and a read that was added is never forgotten. *)

From S2P Require Import Prelude Hlc Encoding EncodingOrder Keys KeysOrder ReadSummary SummaryValues TsCache TsCachePage TsCacheSerial TsCacheAdd TsCacheRange TsCacheFits TsCacheSkl.

(** ** Bounds of keys *)

Definition maxKeySize : Z := maximumSklPageSize / 32.

Lemma bytes_lt_short k a b : bytes_lt k (a ++ b) -> (length k < length a)%nat -> bytes_lt k a.
Proof.
  revert k. induction a as [|x a IH]; intros [|y k] Hlt Hlen; cbn in *; try lia.
  destruct Hlt as [Hlt|[-> Hlt]]; [by left|right; split; [done|]]. apply IH; [done|lia].
Qed.

Lemma bytes_le_take n k : bytes_le (take n k) k.
Proof. rewrite <- (take_drop n k) at 2. destruct (drop n k) as [|x l]; [rewrite app_nil_r; key_order|]. pose proof (bytes_lt_extend (take n k) x l). key_order. Qed.

Lemma bytes_take_mono n k l : bytes_lt k l -> bytes_le (take n k) (take n l).
Proof.
  revert k l. induction n as [|n IH]; intros k l Hlt; [cbn; intros Hc; by apply bytes_lt_nil_r in Hc|]. destruct k as [|x k], l as [|y l]; try done; cbn [take].
  - intros Hc. by apply bytes_lt_nil_r in Hc.
  - destruct Hlt as [Hlt|[-> Hlt]]; [intros [Hc|[-> _]]; lia|]. intros [Hc|[_ Hc]]; [lia|]. by apply (IH k l).
Qed.

Lemma PrefixEnd_grows b : Forall is_byte b -> b <> [] ->
  bytes_le b (PrefixEnd b) /\ Forall is_byte (PrefixEnd b) /\ len (PrefixEnd b) <= len b /\ PrefixEnd b <> [].
Proof.
  intros Hb Hne. destruct (decide (b = replicate (length b) 255)) as [E|N].
  - assert (PrefixEnd b = b) as ->; [|split_and!; [key_order|done|done|done]]. unfold PrefixEnd. destruct (len b =? 0) eqn:E0; bool_to_prop; [by destruct b|].
    assert (prefix_end_loop (reverse b) = None) as ->; [|done]. rewrite E, reverse_replicate. clear. induction (length b) as [|n IH]; [done|exact IH].
  - destruct (PrefixEnd_split b Hb N) as (pre & x & n & E & Hx & ->). rewrite E in Hb |- *. apply Forall_app in Hb as [Hpre _]. split_and!.
    + assert (bytes_lt (pre ++ x :: replicate n 255) (pre ++ [x + 1])) by (rewrite bytes_lt_prefix; cbn; left; lia). key_order.
    + apply Forall_app. split; [done|]. constructor; [unfold is_byte; lia|constructor].
    + rewrite !len_app, !len_cons. pose proof (len_nonneg (replicate n 255)). change (len []) with 0. lia.
    + by destruct pre.
Qed.

Lemma len_take n (k : buffer) : 0 <= n -> len (take (Z.to_nat n) k) <= n.
Proof. intros Hn. unfold len. rewrite length_take. lia. Qed.

Lemma boundKeyLengths_spec start end_ : Forall is_byte start -> Forall is_byte end_ ->
  let '(s, e) := boundKeyLengths start end_ in
  Forall is_byte s /\ Forall is_byte e /\ len s <= maxKeySize /\ len e <= maxKeySize /\ (end_ = [] <-> e = []) /\ (len start <= maxKeySize -> s = start) /\
  (bytes_lt start end_ -> bytes_le s e /\ forall k, len k < maxKeySize -> bytes_le start k -> bytes_lt k end_ -> bytes_le s k /\ bytes_lt k e).
Proof.
  intros Bs Be. unfold boundKeyLengths. fold maxKeySize. assert (0 < maxKeySize) as HM by done.
  set (s := if len start >? maxKeySize then _ else start). set (e := if len end_ >? maxKeySize then _ else end_).
  assert (Forall is_byte s /\ len s <= maxKeySize /\ bytes_le s start /\ s = take (Z.to_nat maxKeySize) start) as (S1 & S2 & S3 & S4).
  { unfold s. destruct (Z.gtb_spec (len start) maxKeySize); split_and!; try done; [by apply Forall_take|apply len_take; lia|apply bytes_le_take|key_order|].
    rewrite take_ge; [done|]. unfold len in *. lia. }
  assert (len start <= maxKeySize -> s = start) as S5 by (intros Hl; unfold s; destruct (Z.gtb_spec (len start) maxKeySize); [lia|done]).
  set (e0 := take (Z.to_nat maxKeySize) end_). destruct (Z.gtb_spec (len end_) maxKeySize) as [Hl|Hl].
  - assert (length e0 = Z.to_nat maxKeySize) as El by (unfold e0; rewrite length_take; unfold len in Hl; lia).
    assert (Forall is_byte e0) as Be0 by (by apply Forall_take). assert (e0 <> []) as Ne0 by (intros E0; rewrite E0 in El; cbn in El; lia).
    destruct (PrefixEnd_grows e0 Be0 Ne0) as (P1 & P2 & P3 & P4). assert (len e0 <= maxKeySize) by (apply len_take; lia).
    split_and!; [done|done|done|unfold e; fold e0; lia|split; [intros ->; by destruct Ne0|done]|done|]. intros Hlt.
    assert (bytes_le s e0) as Hse by (rewrite S4; by apply bytes_take_mono). split; [unfold e; fold e0; key_order|]. intros k Hk Hk1 Hk2. split; [key_order|].
    assert (bytes_lt k e0) as Hk3; [|unfold e; fold e0; key_order]. apply (bytes_lt_short k e0 (drop (Z.to_nat maxKeySize) end_)); [unfold e0; by rewrite take_drop|]. unfold len in Hk. lia.
  - split_and!; [done|done|done|done|done|done|]. intros Hlt. split; [key_order|]. intros k _ Hk1 Hk2. split; [key_order|done].
Qed.

Section spec.
Context {L : Type} `{ArenasklLaws L}.
Implicit Types tc : intervalSkl L.

(** ** Adding a range *)

Section AddRange.
Context {fuel : nat} {nows : nat -> option Timestamp} {from to : option buffer} {opt : rangeOptions} {val : readSpanVal} {s : intervalSkl L}.
Hypothesis Hs : skl_ok s.
Hypothesis Hval : fits val.
Hypothesis Bf : byte_bound from.
Hypothesis Bt : byte_bound to.
Hypothesis Hsize : encodedRangeSize from to opt <= maximumPageSize s - initialSklAllocSize.
Hypothesis Hfuel : (27 <= fuel)%nat.

Lemma AddRange_loops f o : range_ok f to o -> byte_bound f -> range_space f to o <= encodedRangeSize from to opt ->
  exists s', AddRange_loop fuel nows f to o val s = Some s' /\ loop_result (from := f) (to := to) (opt := o) (val := val) s s'.
Proof.
  intros Ho Bf' Hsp. apply (AddRange_loop_spec Hval Ho Bf' Bt 25); [done|lia| |lia].
  intros _. destruct (so_size _ Hs) as [Hp _]. change (2 ^ Z.of_nat 25) with 33554432. unfold maximumSklPageSize. lia.
Qed.

(** A range with keys in it is added as it is. *)
Lemma AddRange_spec : range_ok from to opt -> exists s', AddRange fuel nows from to opt val s = Ret (Some s') /\ loop_result (from := from) (to := to) (opt := opt) (val := val) s s'.
Proof.
  intros Hok. unfold AddRange. rewrite <- bool_decide_and, bool_decide_eq_false_2 by (by intros [-> ->]).
  destruct (Z.gtb_spec (encodedRangeSize from to opt) (maximumPageSize s - initialSklAllocSize)); [lia|].
  destruct (AddRange_loops from opt Hok Bf (encodedRangeSize_space from to opt)) as (s' & E & Hr). exists s'. split; [|done]. destruct to as [t|]; [|by rewrite E]. destruct from as [f|].
  - pose proof (bytes_Compare_spec f t) as (C1 & _ & _). apply C1 in Hok. destruct (Z.gtb_spec (bytes_Compare f t) 0); [lia|]. destruct (Z.eqb_spec (bytes_Compare f t) 0); [lia|]. by rewrite E.
  - cbn in Hok. rewrite Hok in E |- *. cbn [Z.gtb Z.compare Z.eqb excludeFrom excludeTo andb no_range_options]. by rewrite E.
Qed.

(** When the start is the end, only the end is added. *)
Lemma AddRange_same t : from = Some t -> to = Some t -> excludeFrom opt && excludeTo opt = false ->
  exists s', AddRange fuel nows from to opt val s = Ret (Some s') /\ loop_result (from := None) (to := to) (opt := no_range_options) (val := val) s s'.
Proof.
  intros Ef Et Ho. assert (range_space None to no_range_options <= encodedRangeSize from to opt) as Hsp by (rewrite Et; apply encodedRangeSize_end).
  destruct (AddRange_loops None no_range_options) as (s' & E & Hr); [by rewrite Et|done|done|]. exists s'. split; [|done]. unfold AddRange. rewrite Ef, Et in *.
  destruct (Z.gtb_spec (encodedRangeSize (Some t) (Some t) opt) (maximumPageSize s - initialSklAllocSize)); [lia|]. rewrite bytes_Compare_refl, Ho, bool_decide_eq_false_2 by done. cbn. by rewrite E.
Qed.

End AddRange.

(** ** Serialization *)

(** A read at a time of which pages can hold the successor. *)
Definition read_fits (v : readSpanVal) : Prop := ts_lt (mkTimestamp 0 0) (rv_ts v) /\ WallTime (rv_ts v) < MaxInt64 /\ 0 <= Logical (rv_ts v) <= MaxInt32.

Lemma read_fits_fits v : read_fits v -> fits v.
Proof. intros [H1 H2]. split; [by apply pos_after|done]. Qed.

Lemma fits_read v : fits v -> v <> zero_value -> read_fits v.
Proof.
  intros [Hp Hw] Nz. split; [|done]. apply pos_ts in Hp as Hts. pose proof (pos_empty v Hp) as He. rewrite bool_decide_eq_false_2 in He by done.
  unfold Timestamp_IsEmpty in He. apply bool_decide_eq_false in He. intros Hle. apply He. by apply (anti_symm ts_le).
Qed.

Lemma read_fits_ratchet v w : read_fits v -> read_fits w -> read_fits (ratchet v w).
Proof. intros [H1 H2] [H3 H4]. apply fits_read; [apply fits_ratchet; by apply read_fits_fits|]. intros E. apply H1. pose proof (val_le_ts v (ratchet v w) (val_le_l v w)) as Hle. by rewrite E in Hle. Qed.

(** The segment of a page. *)
Definition segment_of (f t : buffer) (floor : Timestamp) (p : sklPage L) (seg : Segment) : Prop :=
  segment_wf seg /\ seg_LowWater seg = floor /\ spans_in read_fits (seg_ReadSpans seg) /\
  forall k, Forall is_byte k -> bytes_le f k -> bytes_lt k t -> seg_at seg k = ratchet (page_value p k) (low floor).

Lemma serializePages_loop_spec assert_ f t floor pages :
  Forall page_ok pages -> Forall byte_keys pages -> Forall is_byte f -> Forall is_byte t -> bytes_lt f t -> ts_le (mkTimestamp 0 0) floor ->
  exists pages' segs, serializePages_loop assert_ (Some f) (Some t) floor pages = Ret (pages', segs) /\ Forall2 same_page pages pages' /\ Forall2 (segment_of f t floor) pages segs.
Proof.
  intros Hok Hb Bf Bt Hft Hfl. induction Hok as [|p pages Hp Hok IH]; [by exists [], []|]. apply Forall_cons in Hb as [Hbp Hb]. destruct (IH Hb) as (pages' & segs & E & H1 & H2).
  destruct (page_serialize_spec assert_ f t p Hp Hbp Bf Bt Hft) as (p' & spans & Ep & P1 & P2 & P3 & P4 & P5 & P7 & P6). cbn [serializePages_loop]. rewrite Ep. cbn [obind]. rewrite E. cbn [obind].
  eexists _, _. split; [done|]. split; [by constructor|]. constructor; [|done]. split; [|split; [done|split]].
  - apply (spans_from_weaken f); [exact P5|]. intros Hc. by apply bytes_lt_nil_r in Hc.
  - change (spans_in read_fits spans). apply Forall_forall. intros s Hs. destruct (spans_from_elem f spans s P5 Hs) as [Ws Hf]. pose proof (proj1 (Forall_forall _ _) P7 s Hs) as Ht. pose proof Ws as (Bk & _ & Hlt).
    assert (bytes_le (sp_key s) (sp_key s)) as Hrefl by key_order. assert (sorted_spans spans) as Wspans by (apply (spans_from_weaken f); [exact P5|]; intros Hc; by apply bytes_lt_nil_r in Hc).
    pose proof (spans_at_elem spans s (sp_key s) (sorted_spans_ok spans Wspans) Hs) as Hv. rewrite covers_spec, (P6 _ Bk Hf Ht) in Hv. specialize (Hv (conj Hrefl Hlt)).
    unfold some_value in Hv. case_decide as Ez; [done|]. injection Hv as <-. apply fits_read; [by apply (page_value_within p)|done].
  - intros k Bk K1 K2. change (seg_at (mkSegment floor spans) k = ratchet (page_value p k) (low floor)). unfold seg_at. cbn [seg_ReadSpans seg_LowWater]. rewrite (P6 k Bk K1 K2). unfold some_value. rewrite ratchet_comm. case_decide as Ez; [|done]. rewrite Ez. symmetry. apply ratchet_old_le.
    apply (val_le_low zero_value). done.
Qed.

Lemma merge_segments f t floor pages segs m0 :
  Forall2 (segment_of f t floor) pages segs -> segment_wf m0 ->
  exists m, foldl (fun merged seg => m ← merged; Segment_Merge m seg) (Some m0) segs = Some m /\ segment_wf m /\
    (spans_in read_fits (seg_ReadSpans m0) -> spans_in read_fits (seg_ReadSpans m)) /\
    (ts_le (seg_LowWater m0) floor -> pages <> [] \/ seg_LowWater m0 = floor -> seg_LowWater m = floor) /\
    forall k v, Forall is_byte k -> bytes_le f k -> bytes_lt k t ->
      val_le (seg_at m k) v <-> val_le (seg_at m0 k) v /\ Forall (fun p => val_le (ratchet (page_value p k) (low floor)) v) pages.
Proof.
  intros Hs. revert m0. induction Hs as [|p seg pages segs (Hwf & Hlow & Hin & Hat) Hs IH]; intros m0 Hm0.
  - exists m0. split_and!; [done|done|done|by intros _ [?|?]|]. intros k v _ _ _. rewrite Forall_nil. tauto.
  - destruct (Segment_Merge_spec m0 seg Hm0 Hwf) as (m1 & E1 & W1 & A1). destruct (IH m1 W1) as (m & E & W & I1 & I2 & A). exists m. cbn [foldl]. split_and!; [by rewrite <- E, <- E1|done| | |].
    + intros Hm. apply I1. by apply (Segment_Merge_in read_fits read_fits_ratchet m0 seg).
    + intros Hle _. destruct (Segment_Merge_in (fun _ => True) (fun _ _ _ _ => I) m0 seg m1 Hm0 Hwf E1) as (_ & _ & L1 & L2); [by apply Forall_true|by apply Forall_true|].
      destruct (Segment_Merge_in (fun _ => True) (fun _ _ _ _ => I) m0 seg m1 Hm0 Hwf E1) as (_ & Hor & _); [by apply Forall_true|by apply Forall_true|].
      assert (seg_LowWater m1 = floor) as E1f; [|apply I2; [by rewrite E1f|by right]]. rewrite Hlow in Hor, L2. destruct Hor as [E0|E0]; [|done]. rewrite E0 in L2 |- *. by apply (anti_symm ts_le).
    +    intros k v Bk K1 K2. rewrite (A k v Bk K1 K2), (A1 k Bk), (Hat k Bk K1 K2), Forall_cons, ratchet_lub. tauto.
Qed.

Lemma skl_Serialize_spec assert_ f t (s : intervalSkl L) : skl_ok s -> Forall is_byte f -> Forall is_byte t -> bytes_lt f t ->
  exists s' seg, skl_Serialize assert_ (Some f) (Some t) s = Ret (s', Some seg) /\ skl_ok s' /\ is_pageSizeFixed s' = is_pageSizeFixed s /\
    (forall k, skl_value s' k = skl_value s k) /\ segment_wf seg /\ seg_LowWater seg = FloorTS s /\ spans_in read_fits (seg_ReadSpans seg) /\
    forall k, Forall is_byte k -> bytes_le f k -> bytes_lt k t -> seg_at seg k = skl_value s k.
Proof.
  intros Hs Bf Bt Hft. pose proof (so_floor _ Hs) as [Hfl _]. destruct (so_pages _ Hs) as [H1 _ H3]. destruct (serializePages_loop_spec assert_ f t (is_floorTS s) (is_pages s) H1 H3 Bf Bt Hft Hfl) as (pages' & segs & E & K1 & K2).
  unfold skl_Serialize. cbn [bool_decide decide andb]. unfold serializePages. rewrite bool_decide_eq_false_2 by done. cbn [andb]. rewrite E. cbn [obind].
  destruct (merge_segments _ _ _ _ _ (mkSegment (mkTimestamp 0 0) []) K2 I) as (m & -> & Wm & I1 & I2 & Hm). eexists _, m. split; [done|]. split; [by apply same_skl_ok|]. split; [done|]. split_and!; [|done| |by apply I1; constructor|].
  - intros k. unfold skl_value. f_equal. by apply same_pages_value.
  - apply I2; [done|]. left. destruct (so_front _ Hs) as (fp & rest & Ep & _). by rewrite Ep.
  - intros k Bk F1 F2. apply val_le_ext. intros v. rewrite (Hm k v Bk F1 F2). unfold skl_value. rewrite ratchet_lub, pages_value_iff. change (seg_at _ k) with zero_value.
    assert (val_le zero_value (low (is_floorTS s))) as Hz by (by apply (val_le_low zero_value)). destruct (so_front _ Hs) as (fp & rest & Ep & _). rewrite Ep, !Forall_forall. split.
    + intros [G1 G2]. split_and!; [done| |]; [intros p Hp; apply (ratchet_lub (page_value p k) (low (is_floorTS s)) v); by apply G2|].
      apply (ratchet_lub (page_value fp k) (low (is_floorTS s)) v). apply G2. apply elem_of_cons. by left.
    + intros [[G1 G2] G3]. split; [done|]. intros p Hp. apply ratchet_lub. split; [by apply G2|done].
Qed.

(** ** The operations of the cache *)

Definition tc_ok tc : Prop := skl_ok tc /\ is_pageSizeFixed tc = false.

(** A key, or a range of keys with an exclusive end. *)
Definition keys_ok (start end_ : buffer) : Prop := Forall is_byte start /\ Forall is_byte end_ /\ (end_ = [] \/ bytes_lt start end_).

Definition keys_cover (start end_ k : buffer) : Prop := if decide (end_ = []) then k = start else bytes_le start k /\ bytes_lt k end_.

Lemma len_0 (b : buffer) : (len b =? 0) = bool_decide (b = []).
Proof. destruct b; [done|]. rewrite len_cons, bool_decide_eq_false_2 by done. pose proof (len_nonneg b). apply Z.eqb_neq. lia. Qed.

Lemma sklImpl_clear_ok lowWater : Timestamp_valid lowWater -> tc_ok (sklImpl_clear lowWater) /\ forall k, skl_value (sklImpl_clear lowWater) k = low lowWater.
Proof.
  intros Hvalid. assert (ts_le (mkTimestamp 0 0) lowWater) as Hlw by (destruct Hvalid; unfold ts_le; cbn; lia). set (p := newSklPage (L := L) initialSklPageSize). assert (sklImpl_clear lowWater = mkSkl MinRetentionWindow initialSklPageSize false [p] defaultMinSklPages lowWater) as -> by done.
  destruct (empty_page p) as (K1 & K2 & K3); [apply new_nodes|done|done|]. split.
  - split; [|done]. split; [|by exists p, []|split; [done|apply Hvalid]|done]. split; [by constructor; [apply K1|]|constructor; [constructor|done]|by constructor].
  - intros k. unfold skl_value. cbn [is_pages is_floorTS]. rewrite pages_value_cons, K3. change (pages_value [] k) with zero_value. rewrite ratchet_idem. by apply (val_le_low zero_value).
Qed.

#[global] Instance keys_cover_dec start end_ k : Decision (keys_cover start end_ k).
Proof. unfold keys_cover. destruct (decide (end_ = [])); apply _. Defined.

(** The values with a read of the keys. *)
Definition read_added tc (start end_ : buffer) (val : readSpanVal) (k : buffer) : readSpanVal :=
  if decide (keys_cover start end_ k) then ratchet (skl_value tc k) val else skl_value tc k.

Record add_result tc tc' (start end_ : buffer) (val : readSpanVal) : Prop := {
  ar_ok : tc_ok tc';
  ar_floor : ts_le (FloorTS tc) (FloorTS tc');
  ar_value k : skl_value tc' k = ratchet (read_added tc start end_ val k) (low (FloorTS tc'))
}.

Lemma add_result_le tc tc' start end_ val k : add_result tc tc' start end_ val -> val_le (skl_value tc k) (skl_value tc' k).
Proof. intros Hr. rewrite (ar_value _ _ _ _ _ Hr). eapply val_le_trans; [|apply val_le_l]. unfold read_added. case_decide; [apply val_le_l|apply val_le_refl]. Qed.

Lemma add_result_covers tc tc' start end_ val k : add_result tc tc' start end_ val -> keys_cover start end_ k -> val_le val (skl_value tc' k).
Proof. intros Hr Hk. rewrite (ar_value _ _ _ _ _ Hr). eapply val_le_trans; [|apply val_le_l]. unfold read_added. rewrite decide_True by done. apply val_le_r. Qed.

Lemma loop_add_result {from to opt val tc tc'} start end_ : is_pageSizeFixed tc = false -> (forall k, in_range from to opt k <-> keys_cover start end_ k) ->
  loop_result (from := from) (to := to) (opt := opt) (val := val) tc tc' -> add_result tc tc' start end_ val.
Proof.
  intros Hf Hk [R1 R2 R3 R4]. split; [split; [done|congruence]|done|]. intros k. rewrite R4. f_equal. unfold added, read_added. destruct (decide (in_range from to opt k)) as [Hi|Hi].
  - by rewrite decide_True by by apply Hk.
  - by rewrite decide_False by by rewrite <- Hk.
Qed.

Lemma point_cover key k : in_range None (Some key) no_range_options k <-> keys_cover key [] k.
Proof. unfold keys_cover. rewrite decide_True by done. split; [by intros [_ [= ->]]|by intros ->]. Qed.

(** The keys that are added are the ones that were read, cut to the maximal length. The
    last case is an end that can not be grown. *)
Lemma sklImpl_Add_spec fuel nows start end_ ts txnID tc :
  tc_ok tc -> keys_ok start end_ -> fits (mkReadSpanVal ts txnID) -> (27 <= fuel)%nat ->
  exists tc' s e, sklImpl_Add fuel nows start end_ ts txnID tc = Ret (Some tc') /\ add_result tc tc' s e (mkReadSpanVal ts txnID) /\
    (boundKeyLengths start end_ = (s, e) \/ boundKeyLengths start end_ = (s, s) /\ e = [] /\ end_ <> []).
Proof.
  intros [Hs Hfix] (Bs & Be & Hse) Hval Hfuel. unfold sklImpl_Add. pose proof (boundKeyLengths_spec start end_ Bs Be) as Hb. destruct (boundKeyLengths start end_) as [s e].
  destruct Hb as (B1 & B2 & B3 & B4 & B5 & B6 & B7). rewrite len_0.
  assert (forall f t o, len (default [] f) <= maxKeySize -> len (default [] t) <= maxKeySize -> encodedRangeSize f t o <= maximumPageSize tc - initialSklAllocSize) as Hsize.
  { intros f t o L1 L2. unfold maximumPageSize. rewrite Hfix. pose proof skl_small as Hsm. pose proof skl_sizes as [Z1 Z2]. unfold encodedRangeSize, maxKeySize, maximumSklPageSize in *.
    change (33554432 / 16) with 2097152 in Hsm. change (33554432 / 32) with 1048576 in *. destruct (excludeTo o), (excludeFrom o); cbn [negb]; lia. }
  case_bool_decide as Ee.
  - subst e. destruct (AddRange_spec (nows := nows) (from := None) (to := Some s) (opt := no_range_options) Hs Hval I B1 (Hsize None (Some s) no_range_options ltac:(by vm_compute) B3) Hfuel eq_refl) as (tc' & E & Hr).
    exists tc', s, []. split_and!; [done| |by left]. refine (loop_add_result _ _ Hfix _ Hr). intros k. apply point_cover.
  - assert (end_ <> []) as Ne by (intros ->; by apply Ee, B5). destruct Hse as [?|Hse]; [done|]. destruct (B7 Hse) as [B8 _].
    pose proof (Hsize (Some s) (Some e) (mkRangeOptions false true) B3 B4) as Hsz. destruct (decide (s = e)) as [->|Nse].
    + destruct (AddRange_same (nows := nows) (from := Some e) (to := Some e) (opt := mkRangeOptions false true) Hs Hval B2 B2 Hsz Hfuel e eq_refl eq_refl eq_refl) as (tc' & E & Hr).
      exists tc', e, []. split_and!; [done| |by right]. refine (loop_add_result _ _ Hfix _ Hr). intros k. apply point_cover.
    + destruct (AddRange_spec (nows := nows) (from := Some s) (to := Some e) (opt := mkRangeOptions false true) Hs Hval B1 B2 Hsz Hfuel) as (tc' & E & Hr); [cbn; key_order|].
      exists tc', s, e. split_and!; [done| |by left]. refine (loop_add_result _ _ Hfix _ Hr). intros k. unfold keys_cover. by rewrite decide_False.
Qed.

Lemma sklImpl_Add_covers fuel nows start end_ ts txnID tc :
  tc_ok tc -> keys_ok start end_ -> fits (mkReadSpanVal ts txnID) -> (27 <= fuel)%nat ->
  exists tc', sklImpl_Add fuel nows start end_ ts txnID tc = Ret (Some tc') /\ tc_ok tc' /\ (forall k, val_le (skl_value tc k) (skl_value tc' k)) /\
    (forall k, len k < maxKeySize -> keys_cover start end_ k -> val_le (mkReadSpanVal ts txnID) (skl_value tc' k)).
Proof.
  intros Htc Hk Hval Hfuel. destruct (sklImpl_Add_spec fuel nows start end_ ts txnID tc Htc Hk Hval Hfuel) as (tc' & s & e & E & Hr & Hb). exists tc'.
  split_and!; [done|apply Hr|intros k; by apply (add_result_le _ _ _ _ _ _ Hr)|]. destruct Hk as (Bs & Be & Hse). pose proof (boundKeyLengths_spec start end_ Bs Be) as Hspec.
  intros k Hlen Hc. unfold keys_cover in Hc. destruct Hb as [Eb|(Eb & -> & Ne)]; rewrite Eb in Hspec; destruct Hspec as (_ & _ & _ & _ & B5 & B6 & B7).
  - apply (add_result_covers _ _ _ _ _ _ Hr). unfold keys_cover. destruct (decide (end_ = [])) as [->|Ne].
    + rewrite decide_True by by apply B5. rewrite Hc. symmetry. apply B6. rewrite <- Hc. lia.
    + rewrite decide_False by by rewrite <- B5. destruct Hse as [?|Hse]; [done|]. destruct (B7 Hse) as [_ B8]. destruct Hc as [C1 C2]. by apply B8.
  - rewrite decide_False in Hc by done. destruct Hse as [?|Hse]; [done|]. destruct (B7 Hse) as [_ B8]. destruct Hc as [C1 C2]. destruct (B8 k Hlen C1 C2). exfalso. key_order.
Qed.

Lemma sklImpl_GetMax_spec start end_ tc : tc_ok tc ->
  exists tc' ts txnID, sklImpl_GetMax start end_ tc = Ret (tc', (ts, txnID)) /\ tc_ok tc' /\ (forall k, skl_value tc' k = skl_value tc k) /\
    (forall k, keys_cover start end_ k -> val_le (skl_value tc k) (mkReadSpanVal ts txnID)) /\ (end_ = [] -> mkReadSpanVal ts txnID = skl_value tc start).
Proof.
  intros [Hs Hfix]. unfold sklImpl_GetMax. rewrite len_0. case_bool_decide as Ee.
  - destruct (LookupTimestampRange_spec None (Some start) no_range_options tc Hs) as (tc' & [ts x] & E & K1 & K2 & K3 & K4 & K5); [by right|]. unfold LookupTimestamp. rewrite E. cbn [obind].
    exists tc', ts, x. split_and!; [done|split; [done|congruence]|done| |by intros _; apply K5].
    intros k Hk. unfold keys_cover in Hk. rewrite decide_True in Hk by done. subst k. rewrite (K5 start) by done. apply val_le_refl.
  - destruct (LookupTimestampRange_spec (Some start) (Some end_) (mkRangeOptions false true) tc Hs) as (tc' & [ts x] & E & K1 & K2 & K3 & K4 & K5); [by left|]. rewrite E. cbn [obind].
    exists tc', ts, x. split_and!; [done|split; [done|congruence]|done| |done].
    intros k Hk. unfold keys_cover in Hk. rewrite decide_False in Hk by done. by apply K4.
Qed.

Lemma sklImpl_Serialize_spec assert_ start end_ tc : tc_ok tc -> keys_ok start end_ ->
  exists tc' seg, sklImpl_Serialize assert_ start end_ tc = Ret (tc', Some seg) /\ tc_ok tc' /\ (forall k, skl_value tc' k = skl_value tc k) /\
    segment_wf seg /\ seg_LowWater seg = FloorTS tc /\ spans_in read_fits (seg_ReadSpans seg) /\
    (forall k, Forall is_byte k -> keys_cover start end_ k -> seg_at seg k = skl_value tc k).
Proof.
  intros [Hs Hfix] (Bs & Be & Hse). unfold sklImpl_Serialize. rewrite len_0. set (e := if bool_decide (end_ = []) then BytesNext start else end_).
  assert (Forall is_byte e /\ bytes_lt start e /\ forall k, keys_cover start end_ k -> bytes_le start k /\ bytes_lt k e) as (E1 & E2 & E3).
  { unfold e, keys_cover, BytesNext. case_bool_decide as Ee.
    - pose proof (bytes_lt_extend start 0 []) as Hn. split_and!; [apply Forall_app; split; [done|by constructor]|done|]. intros k. rewrite decide_True by done. intros ->. split; [key_order|done].
    - destruct Hse as [?|Hse]; [done|]. split_and!; [done|done|]. intros k. by rewrite decide_False. }
  destruct (skl_Serialize_spec assert_ start e tc Hs Bs E1 E2) as (tc' & seg & E & K1 & K2 & K3 & K4 & K6 & K7 & K5). exists tc', seg.
  split_and!; [done|split; [done|congruence]|done|done|done|done|]. intros k Bk Hk. destruct (E3 k Hk). by apply K5.
Qed.

(** ** Runs *)

Inductive tscache_op : Type :=
| OpAdd (start end_ : buffer) (ts : Timestamp) (txnID : UUID) (nows : nat -> option Timestamp)
| OpGetMax (start end_ : buffer)
| OpSerialize (start end_ : buffer).

Definition exec_op (fuel : nat) (op : tscache_op) tc : outcome (option (intervalSkl L)) :=
  match op with
  | OpAdd start end_ ts txnID nows => sklImpl_Add fuel nows start end_ ts txnID tc
  | OpGetMax start end_ => let! '(tc, _) := sklImpl_GetMax start end_ tc in Ret (Some tc)
  | OpSerialize start end_ => let! '(tc, _) := sklImpl_Serialize false start end_ tc in Ret (Some tc)
  end.

Fixpoint run_ops (fuel : nat) (ops : list tscache_op) tc : outcome (option (intervalSkl L)) :=
  match ops with
  | [] => Ret (Some tc)
  | op :: ops => let! o := exec_op fuel op tc in match o with Some tc => run_ops fuel ops tc | None => Ret None end
  end.

Definition op_ok (op : tscache_op) : Prop :=
  match op with
  | OpAdd start end_ ts txnID _ => keys_ok start end_ /\ fits (mkReadSpanVal ts txnID)
  | OpGetMax start end_ | OpSerialize start end_ => keys_ok start end_
  end.

(** [k] was read at [v]. *)
Definition read_at (ops : list tscache_op) (k : buffer) (v : readSpanVal) : Prop :=
  exists start end_ nows, OpAdd start end_ (rv_ts v) (rv_txnID v) nows ∈ ops /\ keys_cover start end_ k.

Lemma exec_op_spec fuel op tc : (27 <= fuel)%nat -> tc_ok tc -> op_ok op ->
  exists tc', exec_op fuel op tc = Ret (Some tc') /\ tc_ok tc' /\ (forall k, val_le (skl_value tc k) (skl_value tc' k)) /\
    (forall k v, len k < maxKeySize -> read_at [op] k v -> val_le v (skl_value tc' k)).
Proof.
  intros Hfuel Htc Hop. assert (forall op' k v, read_at [op'] k v -> exists (b e : buffer) n, op' = OpAdd b e (rv_ts v) (rv_txnID v) n /\ keys_cover b e k) as Hinv.
  { intros op' k v (s & e & n & Hin%list_elem_of_singleton & Hc). by exists s, e, n. }
  destruct op as [start end_ ts txnID nows|start end_|start end_]; cbn [exec_op op_ok] in *.
  - destruct Hop as [H1 H2]. destruct (sklImpl_Add_covers fuel nows start end_ ts txnID tc) as (tc' & E & K1 & K2 & K3); try done. exists tc'. split_and!; [done|done|done|].
    intros k [t x] Hk (s & e & n & [= -> -> -> -> ->] & Hc)%Hinv. by apply K3.
  - destruct (sklImpl_GetMax_spec start end_ tc Htc) as (tc' & ts & x & -> & K1 & K2 & _). exists tc'. split_and!; [done|done|intros k; rewrite K2; apply val_le_refl|]. by intros k v _ (s & e & n & [=] & _)%Hinv.
  - destruct (sklImpl_Serialize_spec false start end_ tc Htc Hop) as (tc' & seg & -> & K1 & K2 & _). exists tc'. split_and!; [done|done|intros k; rewrite K2; apply val_le_refl|]. by intros k v _ (s & e & n & [=] & _)%Hinv.
Qed.

Lemma run_ops_spec fuel ops tc : (27 <= fuel)%nat -> tc_ok tc -> Forall op_ok ops ->
  exists tc', run_ops fuel ops tc = Ret (Some tc') /\ tc_ok tc' /\ (forall k, val_le (skl_value tc k) (skl_value tc' k)) /\
    (forall k v, len k < maxKeySize -> read_at ops k v -> val_le v (skl_value tc' k)).
Proof.
  intros Hfuel Htc Hops. revert tc Htc. induction Hops as [|op ops Hop Hops IH]; intros tc Htc; cbn [run_ops].
  - exists tc. split_and!; [done|done|intros k; apply val_le_refl|]. by intros k v _ (s & e & n & []%elem_of_nil & _).
  - destruct (exec_op_spec fuel op tc Hfuel Htc Hop) as (tc1 & -> & A1 & A2 & A3). cbn [obind]. destruct (IH tc1 A1) as (tc2 & -> & B1 & B2 & B3). exists tc2.
    split_and!; [done|done|intros k; eapply val_le_trans; [apply A2|apply B2]|]. intros k v Hk (s & e & n & [<-|Hin]%elem_of_cons & Hc).
    + eapply val_le_trans; [apply (A3 k v Hk)|apply B2]. exists s, e, n. split; [by apply list_elem_of_singleton|done].
    + apply (B3 k v Hk). by exists s, e, n.
Qed.

(** What a value protects: a read at the same time by another transaction leaves no
    transaction. *)
Lemma val_le_iff (v w : readSpanVal) : val_le v w -> ts_lt (rv_ts v) (rv_ts w) \/ rv_ts v = rv_ts w /\ (rv_txnID w = rv_txnID v \/ rv_txnID w = uuid_Nil).
Proof.
  destruct v as [t x], w as [u y]. unfold val_le. cbn. unfold readSpanVal_ratchet. cbn. destruct (Timestamp_Less_cases t u) as [[E1 E2]|[[E1 E2]|(-> & E1 & E2)]]; rewrite ?E1, ?E2.
  - intros _. left. by apply Timestamp_Less_spec.
  - intros [= -> ->]. congruence.
  - intros Hv. right. split; [done|]. case_bool_decide as Ex; [by left|]. injection Hv as <-. by right.
Qed.

(** C7. A read is never forgotten. After any operations on a new cache, none of which
    fails or runs without end, the maximum that is returned for some keys is at least
    the low water mark that the cache started with, and covers every read that was added
    of one of these keys: it is later, or at the same time and of the same transaction
    or of none. The keys are shorter than the maximal length. *)
Theorem reads_protected fuel lowWater ops start end_ :
  (27 <= fuel)%nat -> Timestamp_valid lowWater -> Forall op_ok ops ->
  exists tc tc' ts txnID, run_ops fuel ops (sklImpl_clear lowWater) = Ret (Some tc) /\ sklImpl_GetMax start end_ tc = Ret (tc', (ts, txnID)) /\
    forall k, keys_cover start end_ k -> ts_le lowWater ts /\
      forall v, len k < maxKeySize -> read_at ops k v -> ts_lt (rv_ts v) ts \/ rv_ts v = ts /\ (txnID = rv_txnID v \/ txnID = uuid_Nil).
Proof.
  intros Hfuel Hlw Hops. destruct (sklImpl_clear_ok lowWater Hlw) as [Htc0 Hv0]. destruct (run_ops_spec fuel ops _ Hfuel Htc0 Hops) as (tc & E & Htc & Hle & Hread).
  destruct (sklImpl_GetMax_spec start end_ tc Htc) as (tc' & ts & txnID & E' & _ & _ & Hmax & _). exists tc, tc', ts, txnID. split_and!; [done|done|].
  intros k Hk. split.
  - apply (val_le_ts (low lowWater) (mkReadSpanVal ts txnID)). eapply val_le_trans; [|by apply Hmax]. rewrite <- (Hv0 k). apply Hle.
  - intros v Hlen Hv. apply (val_le_iff v (mkReadSpanVal ts txnID)). eapply val_le_trans; [by apply (Hread k v)|by apply Hmax].
Qed.

(** ** The abstract cache *)

(** A value for every key, and the floor below which reads are not told apart. *)
Record abs_cache : Type := mkAbs { ac_value : buffer -> readSpanVal; ac_floor : Timestamp }.

Inductive abs_step (a : abs_cache) : tscache_op -> abs_cache -> Prop :=
| abs_add start end_ ts txnID nows a' :
    ts_le (ac_floor a) (ac_floor a') ->
    (forall k, ac_value a' k = ratchet (if decide (keys_cover start end_ k) then ratchet (ac_value a k) (mkReadSpanVal ts txnID) else ac_value a k) (low (ac_floor a'))) ->
    abs_step a (OpAdd start end_ ts txnID nows) a'
| abs_get start end_ : abs_step a (OpGetMax start end_) a
| abs_serialize start end_ : abs_step a (OpSerialize start end_) a.

Definition abs_of tc : abs_cache := mkAbs (skl_value tc) (FloorTS tc).

(** A cache implements an abstract one. *)
Definition refines tc (a : abs_cache) : Prop := tc_ok tc /\ FloorTS tc = ac_floor a /\ forall k, skl_value tc k = ac_value a k.

Definition op_short (op : tscache_op) : Prop :=
  match op with OpAdd start end_ _ _ _ | OpGetMax start end_ | OpSerialize start end_ => len start <= maxKeySize /\ len end_ <= maxKeySize end.

Lemma LookupTimestampRange_floor from to opt tc tc' v : LookupTimestampRange from to opt tc = Ret (tc', v) -> FloorTS tc' = FloorTS tc.
Proof. unfold LookupTimestampRange. destruct (_ && _); [done|]. destruct (lookup_pages _ _ _ _ _). by intros [= <- <-]. Qed.

Lemma GetMax_floor start end_ tc tc' r : sklImpl_GetMax start end_ tc = Ret (tc', r) -> FloorTS tc' = FloorTS tc.
Proof.
  unfold sklImpl_GetMax, LookupTimestamp. destruct (len end_ =? 0); (destruct (LookupTimestampRange _ _ _ tc) as [[tc1 v]|msg] eqn:E; [|done]); cbn [obind]; intros [= <- _]; by eapply LookupTimestampRange_floor.
Qed.

Lemma Serialize_floor assert_ start end_ tc tc' r : sklImpl_Serialize assert_ start end_ tc = Ret (tc', r) -> FloorTS tc' = FloorTS tc.
Proof.
  unfold sklImpl_Serialize, skl_Serialize, serializePages. rewrite bool_decide_eq_false_2 by done. cbn [andb]. destruct (serializePages_loop _ _ _ _ _) as [[pages segs]|msg]; [|done]. cbn [obind]. by intros [= <- _].
Qed.


(** C33. A read of a single key that is longer than the maximal length is lost: the
    prefix that is recorded in its place does not cover it, so that the maximum for the
    key afterwards is what it was before, or the floor. *)
Theorem long_key_read_lost fuel nows key ts txnID tc :
  (27 <= fuel)%nat -> tc_ok tc -> Forall is_byte key -> maxKeySize < len key -> fits (mkReadSpanVal ts txnID) ->
  exists tc' tc1 tc2 ts0 x0 ts1 x1, sklImpl_GetMax key [] tc = Ret (tc1, (ts0, x0)) /\
    sklImpl_Add fuel nows key [] ts txnID tc = Ret (Some tc') /\ sklImpl_GetMax key [] tc' = Ret (tc2, (ts1, x1)) /\
    mkReadSpanVal ts1 x1 = ratchet (mkReadSpanVal ts0 x0) (low (sklImpl_getLowWater tc')).
Proof.
  intros Hfuel Htc Bk Hlen Hfit. destruct (sklImpl_GetMax_spec key [] tc Htc) as (tc1 & ts0 & x0 & E0 & _ & _ & _ & V0).
  assert (keys_ok key []) as Hk by (split_and!; [done|constructor|by left]).
  destruct (sklImpl_Add_spec fuel nows key [] ts txnID tc Htc Hk Hfit Hfuel) as (tc' & s & e & E & Hr & Hb). destruct (sklImpl_GetMax_spec key [] tc' (ar_ok _ _ _ _ _ Hr)) as (tc2 & ts1 & x1 & E1 & _ & _ & _ & V1).
  exists tc', tc1, tc2, ts0, x0, ts1, x1. split_and!; [done|done|done|]. rewrite (V1 eq_refl), (V0 eq_refl), (ar_value _ _ _ _ _ Hr). f_equal. unfold read_added. rewrite decide_False; [done|].
  destruct Hb as [Hb|(_ & _ & Hne)]; [|done]. injection Hb as <- <-. unfold keys_cover. rewrite decide_True by done. fold maxKeySize. destruct (Z.gtb_spec (len key) maxKeySize); [|lia].
  intros Ekey. pose proof (len_take maxKeySize key ltac:(done)). rewrite <- Ekey in *. lia.
Qed.

End spec.

(** ** A concrete arena *)

Record arena : Type := mkArena { ar_nodes : list skl_node; ar_cap : Z; ar_used : Z }.

Definition arena_alloc (size : Z) (nodes : list skl_node) (l : arena) : option arena :=
  if ar_used l + size <=? ar_cap l then Some (mkArena nodes (ar_cap l) (ar_used l + size)) else None.

#[global] Instance arena_Arenaskl : Arenaskl arena := {
  MaxNodeSize := 100;
  initialSklAllocSize := 300;
  encodedValSize := 32;
  skl_new size := mkArena [] size 300;
  skl_nodes := ar_nodes;
  skl_cap := ar_cap;
  skl_used := ar_used;
  skl_Add key b m l := arena_alloc (100 + len key + len b * 32) (insert_node (mkNode key b m) (ar_nodes l)) l;
  skl_Set key b m l := arena_alloc (len b * 32) (set_node (mkNode key b m) (ar_nodes l)) l;
  skl_SetMeta key m l := mkArena ((fun n => if decide (n_key n = key) then mkNode key (n_value n) m else n) <$> ar_nodes l) (ar_cap l) (ar_used l)
}.

Lemma arena_alloc_Some size nodes l l' : arena_alloc size nodes l = Some l' -> l' = mkArena nodes (ar_cap l) (ar_used l + size) .
Proof. unfold arena_alloc. destruct (_ <=? _); [by intros [= <-]|done]. Qed.

#[global] Instance arena_laws : ArenasklLaws arena.
Proof.
  split; cbn; try done.
  - intros key b m l l' ->%arena_alloc_Some. done.
  - intros key b m l l' ->%arena_alloc_Some. done.
  - intros key b m l. unfold arena_alloc. destruct (Z.leb_spec (ar_used l + (100 + len key + len b * 32)) (ar_cap l)); [done|lia].
  - intros key b m l l' ->%arena_alloc_Some. done.
  - intros key b m l l' ->%arena_alloc_Some. done.
Qed.

Definition example_ops : list tscache_op :=
  [OpAdd [97] [99] (mkTimestamp 10 0) [1] (fun _ => None); OpAdd [98] [] (mkTimestamp 12 0) [2] (fun _ => None);
   OpGetMax [97] []; OpSerialize [97] [122]; OpAdd [98] [100] (mkTimestamp 12 0) [3] (fun _ => None)].

#[global] Instance is_byte_dec b : Decision (is_byte b).
Proof. unfold is_byte. apply _. Defined.

#[global] Instance keys_ok_dec start end_ : Decision (keys_ok start end_).
Proof. unfold keys_ok. apply _. Defined.

Lemma fits_now t x : 0 < t < MaxInt64 -> fits (mkReadSpanVal (mkTimestamp t 0) x).
Proof. intros Ht. split; [apply pos_after; unfold ts_lt, ts_le; cbn; lia|cbn; unfold MaxInt32; lia]. Qed.

Lemma example_ops_ok : Forall op_ok example_ops.
Proof. unfold example_ops. repeat (apply Forall_cons_2; [cbn [op_ok]; try (split; [|by apply fits_now]); apply (bool_decide_unpack _); by vm_compute|]). apply Forall_nil_2. Qed.

(** Reads of two transactions at the same time: the maximum has neither. *)
Lemma reads_protected_witness : exists tc tc' ts txnID, run_ops (L := arena) 27 example_ops (sklImpl_clear (mkTimestamp 5 0)) = Ret (Some tc) /\ sklImpl_GetMax [98] [] tc = Ret (tc', (ts, txnID)) /\
  forall k, keys_cover [98] [] k -> ts_le (mkTimestamp 5 0) ts /\
    forall v, len k < maxKeySize -> read_at example_ops k v -> ts_lt (rv_ts v) ts \/ rv_ts v = ts /\ (txnID = rv_txnID v \/ txnID = uuid_Nil).
Proof. apply reads_protected; [lia|done|apply example_ops_ok]. Defined.

Example example_reads : exists tc tc' tc'', run_ops (L := arena) 27 example_ops (sklImpl_clear (mkTimestamp 5 0)) = Ret (Some tc) /\
  sklImpl_GetMax [98] [] tc = Ret (tc', (mkTimestamp 12 0, uuid_Nil)) /\ sklImpl_GetMax [97; 1] [] tc = Ret (tc'', (mkTimestamp 10 0, [1])).
Proof. do 3 eexists. split_and!; [vm_compute; reflexivity|vm_compute; reflexivity|vm_compute; reflexivity]. Qed.

Lemma example_cache : tc_ok (sklImpl_clear (L := arena) (mkTimestamp 5 0)).
Proof. by apply sklImpl_clear_ok. Qed.


Lemma len_replicate n (b : Z) : len (replicate n b) = Z.of_nat n.
Proof. unfold len. by rewrite length_replicate. Qed.

(** A read of a key of one more byte than the maximal length, by transaction 1 at 10. *)
Lemma long_key_read_lost_witness : exists tc' tc1 tc2 ts0 x0 ts1 x1, let key := replicate (Z.to_nat (maxKeySize + 1)) 97 in
  sklImpl_GetMax key [] (sklImpl_clear (L := arena) (mkTimestamp 5 0)) = Ret (tc1, (ts0, x0)) /\
  sklImpl_Add 27 (fun _ => None) key [] (mkTimestamp 10 0) [1] (sklImpl_clear (mkTimestamp 5 0)) = Ret (Some tc') /\ sklImpl_GetMax key [] tc' = Ret (tc2, (ts1, x1)) /\
  mkReadSpanVal ts1 x1 = ratchet (mkReadSpanVal ts0 x0) (low (sklImpl_getLowWater tc')).
Proof.
  apply long_key_read_lost; [lia|apply example_cache| | |by apply fits_now].
  - apply Forall_replicate. unfold is_byte. lia.
  - rewrite len_replicate, Z2Nat.id; [lia|done].
Defined.
