(* ===== verification/Cache.v ===== *)
(** * The interface of the timestamp cache (kv/kvserver/tscache/cache.go)

    The interface [tscache_Cache], which the replica code of ReplicaTsCache uses, with the laws
    that it relies on: what is added is covered from then on, and the maximum and the
    serialization of a span cover what was added. The implementation by skip lists of
    TsCache satisfies them (TsCacheSpec). *)

From S2P Require Import Prelude Hlc Encoding EncodingOrder Keys KeysOrder ReadSummary SummaryValues TsCache TsCachePage TsCacheSkl TsCacheSpec.

Class tscache_Cache (C : Type) : Type := {
  cache_Add : buffer -> buffer -> Timestamp -> UUID -> C -> outcome C;
  cache_GetMax : buffer -> buffer -> C -> outcome (C * (Timestamp * UUID));
  cache_Serialize : buffer -> buffer -> C -> outcome (C * Segment)
}.

(** A segment that can be added to a cache. *)
Definition seg_fits (seg : Segment) : Prop := segment_wf seg /\ fits (low (seg_LowWater seg)) /\ spans_in read_fits (seg_ReadSpans seg).

Class CacheLaws (C : Type) `{tscache_Cache C} : Type := {
  cache_ok : C -> Prop;
  cache_value : C -> buffer -> readSpanVal;
  cache_pos c k : cache_ok c -> pos (cache_value c k);
  Add_law start end_ ts txnID c : cache_ok c -> keys_ok start end_ -> fits (mkReadSpanVal ts txnID) ->
    exists c', cache_Add start end_ ts txnID c = Ret c' /\ cache_ok c' /\ (forall k, val_le (cache_value c k) (cache_value c' k)) /\
      forall k, len k < maxKeySize -> keys_cover start end_ k -> val_le (mkReadSpanVal ts txnID) (cache_value c' k);
  GetMax_law start end_ c : cache_ok c ->
    exists c' ts txnID, cache_GetMax start end_ c = Ret (c', (ts, txnID)) /\ cache_ok c' /\ (forall k, cache_value c' k = cache_value c k) /\
      (forall k, keys_cover start end_ k -> val_le (cache_value c k) (mkReadSpanVal ts txnID)) /\
      (end_ = [] -> mkReadSpanVal ts txnID = cache_value c start) /\
      ((forall k, WallTime (rv_ts (cache_value c k)) < MaxInt64) -> fits (mkReadSpanVal ts txnID));
  Serialize_law start end_ c : cache_ok c -> keys_ok start end_ -> (forall k, WallTime (rv_ts (cache_value c k)) < MaxInt64) ->
    exists c' seg, cache_Serialize start end_ c = Ret (c', seg) /\ cache_ok c' /\ (forall k, cache_value c' k = cache_value c k) /\
      seg_fits seg /\ forall k, Forall is_byte k -> keys_cover start end_ k -> val_le (cache_value c k) (seg_at seg k)
}.

(** The times in the cache have successors. *)
Definition cache_fits {C : Type} `{CacheLaws C} (c : C) : Prop := forall k, WallTime (rv_ts (cache_value c k)) < MaxInt64.

(** ** The skip lists *)

(** The cache with the readings of the clock that its calls to Add make. *)
Record sklCache (L : Type) : Type := mkSklCache { sc_cache : intervalSkl L; sc_nows : nat -> nat -> option Timestamp; sc_calls : nat }.
Arguments mkSklCache {L}.
Arguments sc_cache {L}.
Arguments sc_nows {L}.
Arguments sc_calls {L}.

Section sklCache.
Context {L : Type} `{ArenasklLaws L}.
Implicit Types c : sklCache L.

(** Enough for the doublings of the size of pages. *)
Definition add_fuel : nat := 27.

Definition sklCache_Add (start end_ : buffer) (ts : Timestamp) (txnID : UUID) c : outcome (sklCache L) :=
  let! r := sklImpl_Add add_fuel (sc_nows c (sc_calls c)) start end_ ts txnID (sc_cache c) in
  match r with
  | Some tc => Ret (mkSklCache tc (sc_nows c) (S (sc_calls c)))
  | None => Panic "no fuel"
  end.

Definition sklCache_GetMax (start end_ : buffer) c : outcome (sklCache L * (Timestamp * UUID)) :=
  let! '(tc, r) := sklImpl_GetMax start end_ (sc_cache c) in
  Ret (mkSklCache tc (sc_nows c) (sc_calls c), r).

Definition sklCache_Serialize (start end_ : buffer) c : outcome (sklCache L * Segment) :=
  let! '(tc, seg) := sklImpl_Serialize false start end_ (sc_cache c) in
  match seg with
  | Some seg => Ret (mkSklCache tc (sc_nows c) (sc_calls c), seg)
  | None => Panic "no fuel"
  end.

#[global] Instance sklCache_Cache : tscache_Cache (sklCache L) := {
  cache_Add := sklCache_Add;
  cache_GetMax := sklCache_GetMax;
  cache_Serialize := sklCache_Serialize
}.

Lemma value_floor tc k : ts_le (FloorTS tc) (rv_ts (skl_value tc k)).
Proof. apply (val_le_ts (low (FloorTS tc)) (skl_value tc k)). apply val_le_r. Qed.

Lemma fits_floor tc : (forall k, WallTime (rv_ts (skl_value tc k)) < MaxInt64) -> WallTime (FloorTS tc) < MaxInt64.
Proof. intros Hf. specialize (Hf []). pose proof (value_floor tc []) as Hle. unfold ts_le in Hle. lia. Qed.

Lemma GetMax_fits start end_ tc tc' ts x : tc_ok tc -> WallTime (FloorTS tc) < MaxInt64 -> sklImpl_GetMax start end_ tc = Ret (tc', (ts, x)) -> fits (mkReadSpanVal ts x).
Proof.
  intros [Hs _] Hw. unfold sklImpl_GetMax, LookupTimestamp. destruct (len end_ =? 0);
    (destruct (LookupTimestampRange _ _ _ tc) as [[tc1 [u y]]|] eqn:E; [|done]; cbn [obind]; intros [= <- <- <-]; by eapply LookupTimestampRange_fits).
Qed.

(** The times in the cache have successors when the floor has one. *)
Lemma floor_fits tc k : tc_ok tc -> WallTime (FloorTS tc) < MaxInt64 -> WallTime (rv_ts (skl_value tc k)) < MaxInt64.
Proof. intros Hc Hw. destruct (sklImpl_GetMax_spec k [] tc Hc) as (tc' & ts & x & E & _ & _ & _ & Hex). rewrite <- (Hex eq_refl). by apply (GetMax_fits _ _ _ _ _ _ Hc Hw E). Qed.

#[global] Program Instance sklCache_laws : CacheLaws (sklCache L) := {
  cache_ok c := tc_ok (sc_cache c);
  cache_value c k := skl_value (sc_cache c) k
}.
Next Obligation. intros c k Hc. unfold skl_value. eapply (val_le_trans _ (low (is_floorTS (sc_cache c)))); [|apply val_le_r]. apply (val_le_low zero_value). apply (proj1 (so_floor _ (proj1 Hc))). Qed.
Next Obligation.
  intros start end_ ts txnID c Hc Hk Hf. cbn in *. unfold sklCache_Add.
  destruct (sklImpl_Add_covers add_fuel (sc_nows c (sc_calls c)) start end_ ts txnID (sc_cache c) Hc Hk Hf (le_n _)) as (tc & E & K1 & K2 & K3). rewrite E. cbn [obind].
  eexists. split; [done|]. by split_and!.
Qed.
Next Obligation.
  intros start end_ c Hc. cbn in *. unfold sklCache_GetMax. destruct (sklImpl_GetMax_spec start end_ (sc_cache c) Hc) as (tc & ts & x & E & K1 & K2 & K3 & K4). rewrite E. cbn [obind].
  eexists _, ts, x. split; [done|]. split_and!; [done|done|done|done|]. intros Hf. apply (GetMax_fits start end_ (sc_cache c) tc); [done|by apply fits_floor|done].
Qed.
Next Obligation.
  intros start end_ c Hc Hk Hf. cbn in *. unfold sklCache_Serialize. destruct (sklImpl_Serialize_spec false start end_ (sc_cache c) Hc Hk) as (tc & seg & E & K1 & K2 & K3 & K4 & K5 & K6). rewrite E. cbn [obind].
  eexists _, seg. split; [done|]. split_and!; [done|done| |].
  - split_and!; [done| |done]. rewrite K4. destruct (so_floor _ (proj1 Hc)). split; [by apply (val_le_low zero_value)|]. split; [by apply fits_floor|done].
  - intros k Bk Hcov. rewrite K6 by done. apply val_le_refl.
Qed.

End sklCache.
