(* ===== verification/EngineKeys.v ===== *)
(** * Versioned keys (storage/mvcc_key.go, engine_key.go, pebble.go, enginepb/decode.go)

    Keys as the engine stores them: a key of the user, a sentinel byte, and a version,
    which is a timestamp or a lock, with its length. How they are encoded and decoded, the
    order in which the engine keeps them, and the results of a scan, which are a
    sequence of such keys and their values (pebble_mvcc_scanner.go). The theorems are in
    EngineKeysSpec. *)

From S2P Require Import Prelude Hlc Encoding EncodingOrder Keys ReadSummary.

Definition bytes_Equal (a b : buffer) : bool := bool_decide (a = b).

(** cmp.Compare of two integers. *)
Definition cmp_Compare (a b : Z) : Z := if a <? b then -1 else if a >? b then 1 else 0.

(** byte(n) *)
Definition byte (n : Z) : Z := n mod 256.

(** ** MVCC keys *)

Definition mvccEncodedTimeSentinelLen : Z := 1.
Definition mvccEncodedTimeWallLen : Z := 8.
Definition mvccEncodedTimeLogicalLen : Z := 4.
Definition mvccEncodedTimeSyntheticLen : Z := 1.
Definition mvccEncodedTimeLengthLen : Z := 1.

Record MVCCKey : Type := mkMVCCKey { mk_Key : buffer; mk_Timestamp : Timestamp }.

#[global] Instance MVCCKey_eq_dec : EqDecision MVCCKey.
Proof. solve_decision. Defined.

Definition MakeMVCCMetadataKey (key : buffer) : MVCCKey := mkMVCCKey key (mkTimestamp 0 0).

Definition MVCCKey_Next (k : MVCCKey) : outcome MVCCKey :=
  let! ts := Timestamp_Prev (mk_Timestamp k) in
  Ret (if Timestamp_IsEmpty ts then MakeMVCCMetadataKey (BytesNext (mk_Key k)) else mkMVCCKey (mk_Key k) ts).

Definition MVCCKey_IsValue (k : MVCCKey) : bool := negb (Timestamp_IsEmpty (mk_Timestamp k)).

Definition MVCCKey_Compare (k o : MVCCKey) : Z :=
  let c := bytes_Compare (mk_Key k) (mk_Key o) in
  if negb (c =? 0) then c
  else if Timestamp_IsEmpty (mk_Timestamp k) && negb (Timestamp_IsEmpty (mk_Timestamp o)) then -1
  else if negb (Timestamp_IsEmpty (mk_Timestamp k)) && Timestamp_IsEmpty (mk_Timestamp o) then 1
  else - Timestamp_Compare (mk_Timestamp k) (mk_Timestamp o).

Definition MVCCKey_Less (k l : MVCCKey) : bool :=
  let c := bytes_Compare (mk_Key k) (mk_Key l) in
  if negb (c =? 0) then c <? 0
  else if negb (MVCCKey_IsValue k) then MVCCKey_IsValue l
  else if negb (MVCCKey_IsValue l) then false
  else Timestamp_Less (mk_Timestamp l) (mk_Timestamp k).

Definition MVCCKey_Equal (k l : MVCCKey) : bool := (bytes_Compare (mk_Key k) (mk_Key l) =? 0) && bool_decide (mk_Timestamp k = mk_Timestamp l).

Definition encodedMVCCKeyLength (key : MVCCKey) : Z :=
  let keyLen := len (mk_Key key) + mvccEncodedTimeSentinelLen in
  if negb (Timestamp_IsEmpty (mk_Timestamp key)) then
    let keyLen := keyLen + (mvccEncodedTimeWallLen + mvccEncodedTimeLengthLen) in
    if negb (Logical (mk_Timestamp key) =? 0) then keyLen + mvccEncodedTimeLogicalLen else keyLen
  else keyLen.

Definition EncodedMVCCKeyPrefixLength (key : buffer) : Z := len key + mvccEncodedTimeSentinelLen.

Definition encodedMVCCTimestampLength (ts : Timestamp) : Z :=
  let tsLen := encodedMVCCKeyLength (mkMVCCKey [] ts) - mvccEncodedTimeSentinelLen in
  if tsLen >? 0 then tsLen - mvccEncodedTimeLengthLen else tsLen.

Definition EncodedMVCCTimestampSuffixLength (ts : Timestamp) : Z := encodedMVCCKeyLength (mkMVCCKey [] ts) - mvccEncodedTimeSentinelLen.

(** What is written to the target buffer, which has the size of it:
    binary.BigEndian.PutUint64 and PutUint32. *)
Definition encodeMVCCTimestampToBuf (ts : Timestamp) : buffer :=
  be 8 (u64 (WallTime ts)) ++ (if negb (Logical ts =? 0) then be 4 (u32 (Logical ts)) else []).

Definition encodeMVCCKeyToBuf (key : MVCCKey) (keyLen : Z) : buffer :=
  let pos := len (mk_Key key) + mvccEncodedTimeSentinelLen in
  let tsLen := keyLen - pos - mvccEncodedTimeLengthLen in
  mk_Key key ++ [0] ++ (if tsLen >? 0 then encodeMVCCTimestampToBuf (mk_Timestamp key) ++ [byte (tsLen + mvccEncodedTimeLengthLen)] else []).

Definition EncodeMVCCKey (key : MVCCKey) : buffer := encodeMVCCKeyToBuf key (encodedMVCCKeyLength key).
Definition EncodeMVCCKeyPrefix (key : buffer) : buffer := EncodeMVCCKey (MakeMVCCMetadataKey key).

Definition encodeMVCCTimestamp (ts : Timestamp) : buffer := if encodedMVCCTimestampLength ts =? 0 then [] else encodeMVCCTimestampToBuf ts.

Definition EncodeMVCCTimestampSuffix (ts : Timestamp) : buffer :=
  let tsLen := encodedMVCCTimestampLength ts in
  if tsLen =? 0 then [] else encodeMVCCTimestampToBuf ts ++ [byte (tsLen + mvccEncodedTimeLengthLen)].

Definition SplitMVCCKey (mvccKey : buffer) : outcome (option (buffer * buffer)) :=
  if len mvccKey =? 0 then Ret None
  else
    let! tsLen := slice_get mvccKey (len mvccKey - 1) in
    let keyPartEnd := len mvccKey - 1 - tsLen in
    if keyPartEnd <? 0 then Ret None
    else
      let! key := slice_to mvccKey keyPartEnd in
      let! ts := if tsLen >? 0 then slice_range mvccKey (keyPartEnd + 1) (len mvccKey - 1) else Ret [] in
      Ret (Some (key, ts)).

Definition DecodeKey (encodedKey : buffer) : outcome (error + (buffer * Timestamp)) :=
  let! r := SplitMVCCKey encodedKey in
  match r with
  | None => Ret (inl (Errorf "invalid encoded mvcc key: %x" encodedKey))
  | Some (key, encodedTS) =>
    if len encodedTS =? 0 then Ret (inr (key, mkTimestamp 0 0))
    else if len encodedTS =? 8 then
      let! w := BigEndian 8 encodedTS in
      Ret (inr (key, mkTimestamp (int64 w) 0))
    else if (len encodedTS =? 12) || (len encodedTS =? 13) then
      let! w := BigEndian 8 encodedTS in
      let! rest := slice_range encodedTS 8 12 in
      let! l := BigEndian 4 rest in
      Ret (inr (key, mkTimestamp (int64 w) (int32 l)))
    else Ret (inl (Errorf "invalid encoded mvcc key: %x bad timestamp %x" encodedKey))
  end.

Definition DecodeMVCCKey (encodedKey : buffer) : outcome (error + MVCCKey) :=
  let? '(k, ts) := DecodeKey encodedKey in
  Ret (inr (mkMVCCKey k ts)).

Definition decodeMVCCTimestamp (encodedTS : buffer) : outcome (error + Timestamp) :=
  if len encodedTS =? 0 then Ret (inr (mkTimestamp 0 0))
  else if len encodedTS =? 8 then
    let! w := BigEndian 8 encodedTS in
    Ret (inr (mkTimestamp (int64 w) 0))
  else if (len encodedTS =? 12) || (len encodedTS =? 13) then
    let! w := BigEndian 8 encodedTS in
    let! rest := slice_range encodedTS 8 12 in
    let! l := BigEndian 4 rest in
    Ret (inr (mkTimestamp (int64 w) (int32 l)))
  else Ret (inl (Errorf "bad timestamp %x" encodedTS)).

Definition DecodeMVCCTimestampSuffix (encodedTS : buffer) : outcome (error + Timestamp) :=
  if len encodedTS =? 0 then Ret (inr (mkTimestamp 0 0))
  else
    let encodedLen := len encodedTS in
    let! suffixLen := slice_get encodedTS (encodedLen - 1) in
    if negb (suffixLen =? encodedLen) then Ret (inl (Errorf "bad timestamp: found length suffix %d, actual length %d" [suffixLen; encodedLen]))
    else
      let! ts := slice_to encodedTS (encodedLen - 1) in
      decodeMVCCTimestamp ts.

(** ** Engine keys *)

Definition engineKeyNoVersion : Z := 0.
Definition engineKeyVersionWallTimeLen : Z := 8.
Definition engineKeyVersionWallAndLogicalTimeLen : Z := 12.
Definition engineKeyVersionWallLogicalAndSyntheticTimeLen : Z := 13.
Definition engineKeyVersionLockTableLen : Z := 17.

Record EngineKey : Type := mkEngineKey { ek_Key : buffer; ek_Version : buffer }.

#[global] Instance EngineKey_eq_dec : EqDecision EngineKey.
Proof. solve_decision. Defined.

Definition EngineKey_EncodedLen (k : EngineKey) : Z :=
  let n := len (ek_Key k) + 1 in
  if len (ek_Version k) >? 0 then n + (1 + len (ek_Version k)) else n.

(** [encodeToSizedBuf] into a buffer of [n] bytes. *)
Definition encodeToSizedBuf (k : EngineKey) (n : Z) : buffer :=
  let suffixLen := n - len (ek_Key k) - 1 in
  ek_Key k ++ (if suffixLen >? 0 then [0] ++ ek_Version k else []) ++ [byte suffixLen].

Definition EngineKey_Encode (k : EngineKey) : buffer := encodeToSizedBuf k (EngineKey_EncodedLen k).

Definition EngineKey_IsMVCCKey (k : EngineKey) : bool :=
  let l := len (ek_Version k) in
  (l =? engineKeyNoVersion) || (l =? engineKeyVersionWallTimeLen) || (l =? engineKeyVersionWallAndLogicalTimeLen) ||
  (l =? engineKeyVersionWallLogicalAndSyntheticTimeLen).

Definition EngineKey_IsLockTableKey (k : EngineKey) : bool := len (ek_Version k) =? engineKeyVersionLockTableLen.

Definition EngineKey_ToMVCCKey (k : EngineKey) : outcome (error + MVCCKey) :=
  let l := len (ek_Version k) in
  if l =? engineKeyNoVersion then Ret (inr (MakeMVCCMetadataKey (ek_Key k)))
  else if l =? engineKeyVersionWallTimeLen then
    let! w := BigEndian 8 (ek_Version k) in
    Ret (inr (mkMVCCKey (ek_Key k) (mkTimestamp (int64 w) 0)))
  else if (l =? engineKeyVersionWallAndLogicalTimeLen) || (l =? engineKeyVersionWallLogicalAndSyntheticTimeLen) then
    let! w := BigEndian 8 (ek_Version k) in
    let! rest := slice_range (ek_Version k) 8 12 in
    let! g := BigEndian 4 rest in
    Ret (inr (mkMVCCKey (ek_Key k) (mkTimestamp (int64 w) (int32 g))))
  else Ret (inl (Errorf "version is not an encoded timestamp %x" (ek_Version k))).

Definition DecodeEngineKey (b : buffer) : outcome (option EngineKey) :=
  if len b =? 0 then Ret None
  else
    let! versionLen := slice_get b (len b - 1) in
    let keyPartEnd := len b - 1 - versionLen in
    if keyPartEnd <? 0 then Ret None
    else
      let! s := slice_get b keyPartEnd in
      if negb (s =? 0) then Ret None
      else
        let! key := slice_to b keyPartEnd in
        let! version := if versionLen >? 0 then slice_range b (keyPartEnd + 1) (len b - 1) else Ret [] in
        Ret (Some (mkEngineKey key version)).

Definition GetKeyPartFromEngineKey (engineKey : buffer) : outcome (option buffer) :=
  if len engineKey =? 0 then Ret None
  else
    let! versionLen := slice_get engineKey (len engineKey - 1) in
    let keyPartEnd := len engineKey - 1 - versionLen in
    if keyPartEnd <? 0 then Ret None
    else
      let! s := slice_get engineKey keyPartEnd in
      if negb (s =? 0) then Ret None
      else
        let! key := slice_to engineKey keyPartEnd in
        Ret (Some key).

(** ** Lock table keys *)

Inductive Strength : Set := None_ | Shared | Update | Exclusive | Intent.

#[global] Instance Strength_eq_dec : EqDecision Strength.
Proof. solve_decision. Defined.

Record LockTableKey : Type := mkLockTableKey { lt_Key : buffer; lt_Strength : Strength; lt_TxnUUID : UUID }.

(** Entries of the array that are not given are 0. *)
Definition replicatedLockStrengthToByte (str : Strength) : Z :=
  match str with Shared => 1 | Exclusive => 2 | Intent => 3 | None_ | Update => 0 end.

(** The array is built from the one above. *)
Definition byteToReplicatedLockStrength : list Strength := [None_; Shared; Exclusive; Intent].

Definition getByteForReplicatedLockStrength (str : Strength) : outcome Z :=
  let b := replicatedLockStrengthToByte str in
  if b =? 0 then Panic "unexpected lock strength: %s" else Ret b.

Definition getReplicatedLockStrengthForByte (b : Z) : outcome (error + Strength) :=
  if b >=? len byteToReplicatedLockStrength then Ret (inl (Errorf "unexpected lock strength byte: %d" [b]))
  else
    let! str := slice_get byteToReplicatedLockStrength b in
    if bool_decide (str = None_) then Ret (inl (Errorf "unexpected lock strength byte: %d" [b])) else Ret (inr str).

(** The version is 17 bytes: what the 16 bytes of the transaction's ID do not fill stays
    0. *)
Definition LockTableKey_ToEngineKey (lk : LockTableKey) : outcome EngineKey :=
  let! ltKey := LockTableSingleKey (lt_Key lk) in
  let! str := getByteForReplicatedLockStrength (lt_Strength lk) in
  Ret (mkEngineKey ltKey (str :: take 16 (lt_TxnUUID lk ++ replicate 16 0))).

Definition decodeLockTableKeyVersion (k : EngineKey) : outcome (error + (Strength * UUID)) :=
  if negb (len (ek_Version k) =? engineKeyVersionLockTableLen) then Ret (inl (Errorf "version is not valid for a LockTableKey %x" (ek_Version k)))
  else
    let! b := slice_get (ek_Version k) 0 in
    let? str := getReplicatedLockStrengthForByte b in
    let! txnID := slice_from (ek_Version k) 1 in
    Ret (inr (str, txnID)).

Definition EngineKey_ToLockTableKey (k : EngineKey) : outcome (error + LockTableKey) :=
  let? lockedKey := DecodeLockTableSingleKey (ek_Key k) in
  let? '(str, txnID) := decodeLockTableKeyVersion k in
  Ret (inr (mkLockTableKey lockedKey str txnID)).

Definition EngineKey_Validate (k : EngineKey) : outcome (option error) :=
  if EngineKey_IsLockTableKey k then ValidateLockTableSingleKey (ek_Key k)
  else
    let! r := EngineKey_ToMVCCKey k in
    Ret (match r with inl err => Some err | inr _ => None end).

(** ** The order of keys in the engine

    [testBuild] turns the assertions on. *)

Section comparer.
Context (testBuild : bool).

Definition checkEngineKey (k : buffer) : outcome unit :=
  if len k =? 0 then Panic "empty key"
  else
    let! n := slice_get k (len k - 1) in
    if n >=? len k then Panic "malformed key sentinel byte: %x" else Ret tt.

Definition normalizeEngineSuffixForCompare (a : buffer) : outcome buffer :=
  let! n := slice_get a (len a - 1) in
  if testBuild && negb (len a =? n) then Panic "malformed suffix: %x"
  else
    let! a := slice_to a (len a - 1) in
    let wallAndLogical (a : buffer) : outcome buffer :=
      let! g := slice_from a engineKeyVersionWallTimeLen in
      if bytes_Equal g [0; 0; 0; 0] then slice_to a engineKeyVersionWallTimeLen else Ret a in
    if len a =? engineKeyVersionWallLogicalAndSyntheticTimeLen then
      let! a := slice_to a engineKeyVersionWallAndLogicalTimeLen in
      wallAndLogical a
    else if len a =? engineKeyVersionWallAndLogicalTimeLen then wallAndLogical a
    else if (len a =? engineKeyVersionWallTimeLen) || (len a =? engineKeyVersionLockTableLen) then Ret a
    else if testBuild then Panic "version with unexpected length: %x"
    else Ret a.

Definition EngineSuffixCompare (a b : buffer) : outcome Z :=
  if (len a =? 0) || (len b =? 0) then Ret (cmp_Compare (len a) (len b))
  else
    let! nb := normalizeEngineSuffixForCompare b in
    let! na := normalizeEngineSuffixForCompare a in
    Ret (bytes_Compare nb na).

Definition EngineKeySplit (k : buffer) : outcome Z :=
  if len k =? 0 then Ret 0
  else
    let! _ := if testBuild then checkEngineKey k else Ret tt in
    let! suffixLen := slice_get k (len k - 1) in
    Ret (len k - suffixLen).

Definition EngineKeyCompare (a b : buffer) : outcome Z :=
  if (len a =? 0) || (len b =? 0) then Ret (cmp_Compare (len a) (len b))
  else
    let! _ := if testBuild then checkEngineKey a else Ret tt in
    let! _ := if testBuild then checkEngineKey b else Ret tt in
    let! aSuffixLen := slice_get a (len a - 1) in
    let aSuffixStart := len a - aSuffixLen in
    let! bSuffixLen := slice_get b (len b - 1) in
    let bSuffixStart := len b - bSuffixLen in
    let! ak := slice_to a aSuffixStart in
    let! bk := slice_to b bSuffixStart in
    let c := bytes_Compare ak bk in
    if negb (c =? 0) then Ret c
    else if (aSuffixLen =? 0) || (bSuffixLen =? 0) then Ret (cmp_Compare aSuffixLen bSuffixLen)
    else
      let! bs := slice_from b bSuffixStart in
      let! as_ := slice_from a aSuffixStart in
      let! nb := normalizeEngineSuffixForCompare bs in
      let! na := normalizeEngineSuffixForCompare as_ in
      Ret (bytes_Compare nb na).

Definition EngineKeyEqual (a b : buffer) : outcome bool :=
  if (len a =? 0) || (len b =? 0) then Ret (len a =? len b)
  else
    let! _ := if testBuild then checkEngineKey a else Ret tt in
    let! _ := if testBuild then checkEngineKey b else Ret tt in
    let! aSuffixLen := slice_get a (len a - 1) in
    let aSuffixStart := len a - aSuffixLen in
    let! bSuffixLen := slice_get b (len b - 1) in
    let bSuffixStart := len b - bSuffixLen in
    let withWall := mvccEncodedTimeSentinelLen + mvccEncodedTimeWallLen in
    let withLockTableLen := mvccEncodedTimeSentinelLen + engineKeyVersionLockTableLen in
    if ((aSuffixLen <=? withWall) && (bSuffixLen <=? withWall)) || ((aSuffixLen =? withLockTableLen) && (bSuffixLen =? withLockTableLen)) ||
       (aSuffixLen =? 0) || (bSuffixLen =? 0) then Ret (bytes_Equal a b)
    else
      let! ak := slice_to a aSuffixStart in
      let! bk := slice_to b bSuffixStart in
      if negb (bytes_Equal ak bk) then Ret false
      else
        let! as_ := slice_from a aSuffixStart in
        let! bs := slice_from b bSuffixStart in
        let! na := normalizeEngineSuffixForCompare as_ in
        let! nb := normalizeEngineSuffixForCompare bs in
        Ret (bytes_Equal na nb).

End comparer.

(** [EngineComparer.ImmediateSuccessor] of a key without a version. *)
Definition ImmediateSuccessor (a : buffer) : buffer := a ++ [0].

(** ** The results of a scan *)

Definition kvLenSize : Z := 8.

(** binary.LittleEndian.Uint32 *)
Definition LittleEndian32 (b : buffer) : outcome Z :=
  let! b := slice_to b 4 in
  BigEndian 4 (rev b).

Definition ScanDecodeKeyValue (repr : buffer) : outcome (error + (buffer * Timestamp * buffer * buffer)) :=
  if len repr <? kvLenSize then Ret (inl (Errorf "unexpected batch EOF" []))
  else
    let! valSize := LittleEndian32 repr in
    let! keySize := slice_range repr 4 kvLenSize in
    let! keySize := LittleEndian32 keySize in
    let keyEnd := u32 (keySize + kvLenSize) in
    if u32 (keyEnd + valSize) >? u32 (len repr) then Ret (inl (Errorf "expected %d bytes, but only %d remaining" [u32 (keyEnd + valSize); len repr]))
    else
      let! rawKey := slice_range repr kvLenSize keyEnd in
      let! value := slice_range repr keyEnd (u32 (keyEnd + valSize)) in
      let! repr := slice_from repr (u32 (keyEnd + valSize)) in
      let? '(key, ts) := DecodeKey rawKey in
      Ret (inr (key, ts, value, repr)).

(** The pairs are encoded into buffers of growing sizes, of which [repr] is the last and
    [repr_cap] its capacity. [lastOffsets] is a ring of the last offsets. *)
Record pebbleResults : Type := mkResults {
  pr_count : Z;
  pr_bytes : Z;
  pr_repr : buffer;
  pr_repr_cap : Z;
  pr_bufs : list buffer;
  pr_lastOffsetsEnabled : bool;
  pr_lastOffsets : list Z;
  pr_lastOffsetIdx : Z
}.

#[global] Instance eta_pebbleResults : Eta pebbleResults := fun p =>
  mkResults (pr_count p) (pr_bytes p) (pr_repr p) (pr_repr_cap p) (pr_bufs p) (pr_lastOffsetsEnabled p) (pr_lastOffsets p) (pr_lastOffsetIdx p).

Definition empty_results : pebbleResults := mkResults 0 0 [] 0 [] false [] 0.

Definition pebbleResultsKVLenSize : Z := 8.
Definition pebbleResultsKVSizeOf (lenKey lenValue : Z) : Z := pebbleResultsKVLenSize + lenKey + lenValue.

(** [for newSize < lenToAdd { newSize *= 2 }] *)
Fixpoint double_until (fuel : nat) (newSize lenToAdd : Z) : option Z :=
  match fuel with
  | O => None
  | S fuel => if newSize <? lenToAdd then double_until fuel (newSize * 2) lenToAdd else Some newSize
  end.

(** The size of a new buffer. *)
Definition pebbleResults_newSize (fuel : nat) (cap lenToAdd maxNewSize : Z) : option Z :=
  let minSize := 16 in
  let maxSize := Z.shiftl 128 20 in
  let newSize := 2 * cap in
  let newSize := if (newSize =? 0) || (newSize >? maxSize) then minSize else newSize in
  newSize ← double_until fuel newSize lenToAdd;
  let newSize := if newSize >? maxSize then maxSize else newSize in
  let newSize := if (maxNewSize >? 0) && (newSize >? maxNewSize) then maxNewSize else newSize in
  Some (if newSize <? lenToAdd then lenToAdd else newSize).

(** binary.LittleEndian.PutUint32 *)
Definition le32 (v : Z) : buffer := rev (be 4 v).

(** [grow] is what the memory account returns. [None] is a loop without enough fuel. *)
Definition pebbleResults_put (fuel : nat) (grow : option error) (key value : buffer) (maxNewSize : Z) (p : pebbleResults) : option (error + pebbleResults) :=
  let lenToAdd := pebbleResultsKVSizeOf (len key) (len value) in
  let r :=
    if len (pr_repr p) + lenToAdd >? pr_repr_cap p then
      if (maxNewSize >? 0) && (maxNewSize <? lenToAdd) then Some (inl (Errorf "maxNewSize %dB is not sufficient, %dB required" [maxNewSize; lenToAdd]))
      else
        newSize ← pebbleResults_newSize fuel (pr_repr_cap p) lenToAdd maxNewSize;
        let p := if len (pr_repr p) >? 0 then p <| pr_bufs := pr_bufs p ++ [pr_repr p] |> else p in
        match grow with
        | Some err => Some (inl err)
        | None => Some (inr (p <| pr_repr := [] |> <| pr_repr_cap := newSize |>))
        end
    else Some (inr p) in
  r ← r;
  match r with
  | inl err => Some (inl err)
  | inr p =>
    let startIdx := len (pr_repr p) in
    let p := p <| pr_repr := pr_repr p ++ le32 (u32 (len value)) ++ le32 (u32 (len key)) ++ key ++ value |>
               <| pr_count := pr_count p + 1 |> <| pr_bytes := pr_bytes p + lenToAdd |> in
    Some (inr (
      if pr_lastOffsetsEnabled p then
        let idx := pr_lastOffsetIdx p + 1 in
        p <| pr_lastOffsets := <[Z.to_nat (pr_lastOffsetIdx p) := startIdx]> (pr_lastOffsets p) |>
          <| pr_lastOffsetIdx := if idx =? len (pr_lastOffsets p) then 0 else idx |>
      else p))
  end.

Definition pebbleResults_finish (p : pebbleResults) : list buffer := if len (pr_repr p) >? 0 then pr_bufs p ++ [pr_repr p] else pr_bufs p.

(** The keys of one batch, before an error if there is one. *)
Fixpoint ScanDecodeKeyValues_data (fuel : nat) (data : buffer) : outcome (list buffer * option error) :=
  match fuel with
  | O => Ret ([], None)
  | S fuel =>
    if len data >? 0 then
      let! r := ScanDecodeKeyValue data in
      match r with
      | inl err => Ret ([], Some err)
      | inr (k, _, _, data) =>
        let! '(ks, err) := ScanDecodeKeyValues_data fuel data in
        Ret (k :: ks, err)
      end
    else Ret ([], None)
  end.

(** The keys for which the function is called, which does not fail. *)
Fixpoint ScanDecodeKeyValues (repr : list buffer) : outcome (list buffer * option error) :=
  match repr with
  | [] => Ret ([], None)
  | data :: repr =>
    let! '(ks, err) := ScanDecodeKeyValues_data (length data) data in
    match err with
    | Some err => Ret (ks, Some err)
    | None => let! '(ks', err) := ScanDecodeKeyValues repr in Ret (ks ++ ks', err)
    end
  end.
