(* ===== verification/EngineKeysSpec.v ===== *)
(** * The theorems on versioned keys

    Encoding a versioned key and decoding it gives it back. The engine's order of
    encoded keys is the order of the keys: by the user's key, and the newest version
    first after a key without a version. Two encodings are equal for the engine exactly
    when the order says so. *)

From S2P Require Import Prelude Hlc Encoding EncodingOrder EncodingBytes EncodingSafe Keys KeysOrder KeysSpec ReadSummary EngineKeys.

(** ** Bytes *)

Lemma bytes_Compare_lt k l : bytes_lt k l -> bytes_Compare k l = -1 /\ bytes_Compare l k = 1.
Proof.
  revert l. induction k as [|x k IH]; intros [|y l]; cbn; try done. intros [H|[-> H]].
  - destruct (Z.ltb_spec x y); [|lia]. destruct (Z.ltb_spec y x); [lia|done].
  - rewrite Z.ltb_irrefl. by apply IH.
Qed.

Lemma bytes_Compare_self k : bytes_Compare k k = 0.
Proof. apply bytes_Compare_spec. done. Qed.

(** The sentinel does not change the order. *)
Lemma bytes_Compare_sentinel k l : Forall is_byte k -> Forall is_byte l -> bytes_Compare (k ++ [0]) (l ++ [0]) = bytes_Compare k l.
Proof.
  intros Bk. revert l. induction Bk as [|x k Hx Bk IH]; intros [|y l] Bl; cbn; [done| | |].
  - apply Forall_cons in Bl as [Hy Bl]. unfold is_byte in Hy. destruct (Z.ltb_spec 0 y); [done|]. destruct (Z.ltb_spec y 0); [lia|]. by destruct l.
  - unfold is_byte in Hx. destruct (Z.ltb_spec x 0); [lia|]. destruct (Z.ltb_spec 0 x); [done|]. by destruct k.
  - apply Forall_cons in Bl as [Hy Bl]. by rewrite IH.
Qed.

Lemma slice_get_end (l : buffer) x : slice_get (l ++ [x]) (len (l ++ [x]) - 1) = Ret x.
Proof.
  rewrite len_app. change (len [x]) with 1. pose proof (len_nonneg l). apply slice_get_Some; [lia|].
  replace (Z.to_nat (len l + 1 - 1)) with (length l) by (unfold len; lia). rewrite lookup_app_r by lia. by rewrite Nat.sub_diag.
Qed.

Lemma slice_range_app (a b c : buffer) lo hi : len a = lo -> len a + len b = hi -> slice_range (a ++ b ++ c) lo hi = Ret b.
Proof.
  intros Ha Hb. unfold slice_range. pose proof (len_nonneg a). pose proof (len_nonneg b). pose proof (len_nonneg c). rewrite bool_decide_eq_true_2 by (rewrite !len_app; lia). f_equal.
  replace (Z.to_nat lo) with (length a) by (unfold len in *; lia). rewrite drop_app_length. replace (Z.to_nat (hi - lo)) with (length b) by (unfold len in *; lia). apply take_app_length.
Qed.

(** ** The encoding of engine keys *)

Definition suffix (v : buffer) : buffer := if decide (v = []) then [] else v ++ [len v + 1].

(** A version whose length fits a byte. *)
Definition version_ok (v : buffer) : Prop := Forall is_byte v /\ len v <= 254.

Lemma suffix_len v : len (suffix v) = if decide (v = []) then 0 else len v + 1.
Proof. unfold suffix. case_decide; [done|]. by rewrite len_app. Qed.

Lemma Encode_eq k : version_ok (ek_Version k) -> EngineKey_Encode k = (ek_Key k ++ [0]) ++ suffix (ek_Version k) /\ len (EngineKey_Encode k) = EngineKey_EncodedLen k.
Proof.
  intros [_ Hl]. unfold EngineKey_Encode, encodeToSizedBuf, EngineKey_EncodedLen, suffix, byte. destruct k as [k v]. cbn [ek_Key ek_Version] in *. destruct v as [|x v].
  - change (len (@nil Z) >? 0) with false. cbv iota. rewrite decide_True by done. replace (len k + 1 - len k - 1) with 0 by lia. change (0 >? 0) with false. change (0 mod 256) with 0. cbv iota. rewrite app_nil_r. split; [done|]. by rewrite len_app.
  - rewrite decide_False by done. rewrite len_cons in *. pose proof (len_nonneg v). destruct (Z.gtb_spec (1 + len v) 0); [|lia].
    replace (len k + 1 + (1 + (1 + len v)) - len k - 1) with (1 + (1 + len v)) by lia. destruct (Z.gtb_spec (1 + (1 + len v)) 0); [|lia]. rewrite Z.mod_small by lia.
    rewrite <- !(assoc_L (++)). split; [by rewrite Z.add_comm|]. rewrite !len_app, !len_cons. change (len (@nil Z)) with 0. lia.
Qed.

Lemma encode_last k : version_ok (ek_Version k) -> exists l, EngineKey_Encode k = l ++ [len (suffix (ek_Version k))].
Proof.
  intros Hv. destruct (Encode_eq k Hv) as [-> _]. unfold suffix. case_decide; [rewrite app_nil_r; by eexists|]. rewrite (assoc_L (++)), len_app. by eexists.
Qed.

Lemma encode_nonempty k : version_ok (ek_Version k) -> len (EngineKey_Encode k) <> 0.
Proof. intros Hv. destruct (encode_last k Hv) as [l ->]. rewrite len_app. change (len [_]) with 1. pose proof (len_nonneg l). lia. Qed.

Lemma encode_parts k : version_ok (ek_Version k) -> let b := EngineKey_Encode k in let n := len (suffix (ek_Version k)) in
  slice_get b (len b - 1) = Ret n /\ slice_to b (len b - n) = Ret (ek_Key k ++ [0]) /\ slice_from b (len b - n) = Ret (suffix (ek_Version k)) /\ (n >=? len b) = false.
Proof.
  intros Hv b n. unfold b, n. split_and!.
  - destruct (encode_last k Hv) as [l ->]. apply slice_get_end.
  - destruct (Encode_eq k Hv) as [-> _]. apply slice_to_app. rewrite !len_app. lia.
  - destruct (Encode_eq k Hv) as [-> _]. apply slice_from_app. rewrite !len_app. lia.
  - destruct (Encode_eq k Hv) as [-> _]. rewrite !len_app. change (len [0]) with 1. pose proof (len_nonneg (ek_Key k)). rewrite Z.geb_leb. apply Z.leb_gt. lia.
Qed.

Lemma DecodeEngineKey_Encode k : version_ok (ek_Version k) -> DecodeEngineKey (EngineKey_Encode k) = Ret (Some k) /\ GetKeyPartFromEngineKey (EngineKey_Encode k) = Ret (Some (ek_Key k)).
Proof.
  intros Hv. unfold DecodeEngineKey, GetKeyPartFromEngineKey. rewrite (proj2 (Z.eqb_neq _ _) (encode_nonempty k Hv)). destruct (encode_parts k Hv) as (-> & _ & _ & _). cbn [obind].
  destruct (Encode_eq k Hv) as [-> _]. set (s := suffix (ek_Version k)). replace (len ((ek_Key k ++ [0]) ++ s) - 1 - len s) with (len (ek_Key k)) by (rewrite !len_app; change (len [0]) with 1; lia).
  pose proof (len_nonneg (ek_Key k)). destruct (Z.ltb_spec (len (ek_Key k)) 0); [lia|].
  assert (slice_get ((ek_Key k ++ [0]) ++ s) (len (ek_Key k)) = Ret 0) as ->.
  { apply slice_get_Some; [lia|]. rewrite <- (assoc_L (++)), lookup_app_r by (unfold len; lia). replace (Z.to_nat (len (ek_Key k)) - length (ek_Key k))%nat with O by (unfold len; lia). done. }
  cbn [obind negb Z.eqb]. assert (slice_to ((ek_Key k ++ [0]) ++ s) (len (ek_Key k)) = Ret (ek_Key k)) as -> by (rewrite <- (assoc_L (++)); by apply slice_to_app). cbn [obind]. split; [|done].
  unfold s. rewrite suffix_len. destruct k as [k v]. cbn [ek_Key ek_Version]. unfold suffix. case_decide as Ev; [by subst v|]. pose proof (len_nonneg v). destruct (Z.gtb_spec (len v + 1) 0); [|lia].
  rewrite (slice_range_app (k ++ [0]) v [len v + 1]); [done|rewrite len_app; done|]. rewrite !len_app. change (len [0]) with 1. change (len [_]) with 1. lia.
Qed.

(** ** The order *)

(** The part of a version that counts: a zero logical time and the byte after it do
    not. *)
Definition strip_logical (v : buffer) : buffer := if decide (drop 8 v = [0; 0; 0; 0]) then take 8 v else v.
Definition strip (v : buffer) : buffer := if decide (len v = 13) then strip_logical (take 12 v) else if decide (len v = 12) then strip_logical v else v.

(** In a test build, the versions have one of the lengths that are in use. *)
Definition version_legal (testBuild : bool) (v : buffer) : Prop :=
  version_ok v /\ (testBuild = true -> v = [] \/ len v = 8 \/ len v = 12 \/ len v = 13 \/ len v = 17).

Lemma strip_logical_slices (v : buffer) : len v = 12 ->
  (let! g := slice_from v engineKeyVersionWallTimeLen in if bytes_Equal g [0; 0; 0; 0] then slice_to v engineKeyVersionWallTimeLen else Ret v) = Ret (strip_logical v).
Proof.
  intros Hl. unfold slice_from, slice_to, engineKeyVersionWallTimeLen, strip_logical, bytes_Equal. rewrite !bool_decide_eq_true_2 by lia. cbn [obind]. change (Z.to_nat 8) with 8%nat.
  by case_bool_decide; case_decide.
Qed.

Lemma normalize_spec tb v : version_legal tb v -> v <> [] -> normalizeEngineSuffixForCompare tb (suffix v) = Ret (strip v).
Proof.
  intros [[_ Hl] Htb] Nv. unfold normalizeEngineSuffixForCompare, suffix. rewrite decide_False by done. rewrite slice_get_end. cbn [obind].
  replace (len (v ++ [len v + 1]) =? len v + 1) with true by (symmetry; apply Z.eqb_eq; by rewrite len_app). rewrite andb_false_r.
  replace (len (v ++ [len v + 1]) - 1) with (len v) by (rewrite len_app; change (len [_]) with 1; lia). rewrite slice_to_app by done. cbn [obind].
  unfold engineKeyVersionWallLogicalAndSyntheticTimeLen, engineKeyVersionWallAndLogicalTimeLen, engineKeyVersionLockTableLen, strip.
  destruct (Z.eqb_spec (len v) 13) as [E|N]; [rewrite decide_True by done|rewrite decide_False by done].
  - unfold slice_to at 1. rewrite bool_decide_eq_true_2 by lia. cbn [obind]. apply strip_logical_slices. unfold len in *. rewrite length_take. lia.
  - destruct (Z.eqb_spec (len v) 12) as [E'|N']; [rewrite decide_True by done; by apply strip_logical_slices|rewrite decide_False by done]. unfold engineKeyVersionWallTimeLen.
    destruct (Z.eqb_spec (len v) 8), (Z.eqb_spec (len v) 17); try done. cbn [orb]. destruct tb; [|done]. destruct Htb as [?|?]; [done|done|]. lia.
Qed.

(** The order of engine keys. *)
Definition engine_compare (a b : EngineKey) : Z :=
  let c := bytes_Compare (ek_Key a) (ek_Key b) in
  if negb (c =? 0) then c
  else if decide (ek_Version a = [] \/ ek_Version b = []) then cmp_Compare (len (suffix (ek_Version a))) (len (suffix (ek_Version b)))
  else bytes_Compare (strip (ek_Version b)) (strip (ek_Version a)).

Definition engine_ok (testBuild : bool) (k : EngineKey) : Prop := Forall is_byte (ek_Key k) /\ version_legal testBuild (ek_Version k).

Lemma suffix_0 v : (len (suffix v) =? 0) = bool_decide (v = []).
Proof. rewrite suffix_len. case_decide; [by rewrite bool_decide_eq_true_2|]. rewrite bool_decide_eq_false_2 by done. pose proof (len_nonneg v). apply Z.eqb_neq. lia. Qed.

Lemma check_spec tb k : engine_ok tb k -> (if tb then checkEngineKey (EngineKey_Encode k) else Ret tt) = Ret tt.
Proof.
  intros [_ [Hv _]]. destruct tb; [|done]. unfold checkEngineKey. rewrite (proj2 (Z.eqb_neq _ _) (encode_nonempty k Hv)). destruct (encode_parts k Hv) as (-> & _ & _ & E). cbn [obind]. by rewrite E.
Qed.

Lemma EngineKeyCompare_spec tb a b : engine_ok tb a -> engine_ok tb b -> EngineKeyCompare tb (EngineKey_Encode a) (EngineKey_Encode b) = Ret (engine_compare a b).
Proof.
  intros Ha Hb. pose proof Ha as (Ba & Hva & _). pose proof Hb as (Bb & Hvb & _). unfold EngineKeyCompare.
  rewrite !(proj2 (Z.eqb_neq _ _) (encode_nonempty _ Hva)), !(proj2 (Z.eqb_neq _ _) (encode_nonempty _ Hvb)). cbn [orb]. rewrite !check_spec by done. cbn [obind].
  destruct (encode_parts a Hva) as (-> & E1 & E2 & _), (encode_parts b Hvb) as (-> & E3 & E4 & _). cbn [obind]. rewrite E1, E3. cbn [obind]. rewrite bytes_Compare_sentinel by done.
  unfold engine_compare. destruct (bytes_Compare (ek_Key a) (ek_Key b) =? 0); [|done]. cbn [negb]. rewrite !suffix_0. case_decide as Ho.
  - replace (_ || _) with true; [done|]. destruct Ho; [by rewrite bool_decide_eq_true_2|]. by rewrite (bool_decide_eq_true_2 (ek_Version b = [])), orb_true_r.
  - rewrite !bool_decide_eq_false_2 by naive_solver. cbn [orb]. rewrite E4, E2. cbn [obind]. rewrite !normalize_spec; [done|apply Ha|naive_solver|apply Hb|naive_solver].
Qed.

Lemma EngineSuffixCompare_spec tb a b : version_legal tb a -> version_legal tb b ->
  EngineSuffixCompare tb (suffix a) (suffix b) = Ret (engine_compare (mkEngineKey [] a) (mkEngineKey [] b)).
Proof.
  intros Ha Hb. unfold EngineSuffixCompare, engine_compare. rewrite !suffix_0. cbn [ek_Key ek_Version bytes_Compare Z.eqb negb]. case_decide as Ho.
  - replace (_ || _) with true; [done|]. destruct Ho; [by rewrite bool_decide_eq_true_2|]. by rewrite (bool_decide_eq_true_2 (b = [])), orb_true_r.
  - rewrite !bool_decide_eq_false_2 by naive_solver. cbn [orb]. rewrite !normalize_spec; [done|done|naive_solver|done|naive_solver].
Qed.

Lemma engine_compare_0 a b : engine_compare a b = 0 <->
  ek_Key a = ek_Key b /\ (ek_Version a = [] <-> ek_Version b = []) /\ strip (ek_Version a) = strip (ek_Version b).
Proof.
  unfold engine_compare. pose proof (proj1 (proj2 (bytes_Compare_spec (ek_Key a) (ek_Key b)))) as Hk.
  destruct (Z.eqb_spec (bytes_Compare (ek_Key a) (ek_Key b)) 0) as [E|N]; cbn [negb]; [|split; [done|]; intros [? _]; tauto]. apply Hk in E. case_decide as Ho.
  - unfold cmp_Compare. rewrite !suffix_len. pose proof (len_nonneg (ek_Version a)). pose proof (len_nonneg (ek_Version b)).
    destruct (decide (ek_Version a = [])) as [Ea|Na], (decide (ek_Version b = [])) as [Eb|Nb]; [|..|naive_solver].
    + cbn. split; [intros _|done]. split_and!; [done|done|]. by rewrite Ea, Eb.
    + destruct (Z.ltb_spec 0 (len (ek_Version b) + 1)); [|lia]. split; [done|]. naive_solver.
    + destruct (Z.ltb_spec (len (ek_Version a) + 1) 0); [lia|]. destruct (Z.gtb_spec (len (ek_Version a) + 1) 0); [|lia]. split; [done|]. naive_solver.
  - rewrite (proj1 (proj2 (bytes_Compare_spec _ _))). naive_solver.
Qed.

Lemma strip_id v : len v <= 8 \/ len v = 17 -> strip v = v.
Proof. intros H. unfold strip. by rewrite !decide_False by lia. Qed.

Lemma Encode_inj a b : version_ok (ek_Version a) -> version_ok (ek_Version b) -> EngineKey_Encode a = EngineKey_Encode b -> a = b.
Proof. intros Ha Hb E. destruct (DecodeEngineKey_Encode a Ha) as [Da _], (DecodeEngineKey_Encode b Hb) as [Db _]. rewrite E, Db in Da. by injection Da. Qed.

(** The fast path compares all bytes. *)
Lemma equal_fast a b : version_ok (ek_Version a) -> version_ok (ek_Version b) ->
  (len (ek_Version a) <= 8 /\ len (ek_Version b) <= 8) \/ (len (ek_Version a) = 17 /\ len (ek_Version b) = 17) \/ ek_Version a = [] \/ ek_Version b = [] ->
  bytes_Equal (EngineKey_Encode a) (EngineKey_Encode b) = (engine_compare a b =? 0).
Proof.
  intros Ha Hb Hc. apply eq_true_iff_eq. unfold bytes_Equal. rewrite bool_decide_eq_true, Z.eqb_eq, engine_compare_0. split.
  - intros E%Encode_inj; [|done|done]. by subst b.
  - intros (Ek & En & Es). assert (ek_Version a = ek_Version b) as Ev; [|by destruct a, b; cbn in *; subst].
    destruct Hc as [[? ?]|[[? ?]|[?|?]]]; [rewrite !strip_id in Es by lia; done|rewrite !strip_id in Es by lia; done|rewrite H, (proj1 En H); done|rewrite H, (proj2 En H); done].
Qed.

Lemma EngineKeyEqual_spec tb a b : engine_ok tb a -> engine_ok tb b -> EngineKeyEqual tb (EngineKey_Encode a) (EngineKey_Encode b) = Ret (engine_compare a b =? 0).
Proof.
  intros Ha Hb. pose proof Ha as (Ba & Hva & _). pose proof Hb as (Bb & Hvb & _). unfold EngineKeyEqual.
  rewrite !(proj2 (Z.eqb_neq _ _) (encode_nonempty _ Hva)), !(proj2 (Z.eqb_neq _ _) (encode_nonempty _ Hvb)). cbn [orb]. rewrite !check_spec by done. cbn [obind].
  destruct (encode_parts a Hva) as (-> & E1 & E2 & _), (encode_parts b Hvb) as (-> & E3 & E4 & _). cbn [obind].
  unfold mvccEncodedTimeSentinelLen, mvccEncodedTimeWallLen, engineKeyVersionLockTableLen. rewrite !suffix_0. destruct (_ || _) eqn:Ef.
  - f_equal. apply equal_fast; [done|done|]. rewrite !suffix_len in Ef. rewrite !orb_true_iff, !andb_true_iff, !Z.leb_le, !Z.eqb_eq, !bool_decide_eq_true in Ef. pose proof (len_nonneg (ek_Version a)). pose proof (len_nonneg (ek_Version b)).
    destruct (decide (ek_Version a = [])) as [?|Na]; [tauto|]. destruct (decide (ek_Version b = [])) as [?|Nb]; [tauto|]. destruct Ef as [[[[? ?]|[? ?]]|?]|?]; [left; lia|right; left; lia|done|done].
  - rewrite E1, E3. cbn [obind]. rewrite !orb_false_iff, !bool_decide_eq_false in Ef. unfold bytes_Equal. case_bool_decide as Ek; cbn [negb].
    + rewrite E2, E4. cbn [obind]. rewrite !normalize_spec; [|apply Hb|naive_solver|apply Ha|naive_solver]. cbn [obind]. f_equal. apply eq_true_iff_eq. rewrite bool_decide_eq_true, Z.eqb_eq, engine_compare_0.
      apply app_inj_2 in Ek as [Ek _]; [|done]. naive_solver.
    + f_equal. symmetry. apply Z.eqb_neq. rewrite engine_compare_0. intros [E _]. by rewrite E in Ek.
Qed.

(** ** MVCC keys *)

Lemma encodedMVCCTimestampLength_eq ts : encodedMVCCTimestampLength ts = if decide (ts = mkTimestamp 0 0) then 0 else if decide (Logical ts = 0) then 8 else 12.
Proof.
  unfold encodedMVCCTimestampLength, encodedMVCCKeyLength, Timestamp_IsEmpty. cbn [mk_Key mk_Timestamp]. case_bool_decide as E; cbn [negb].
  - by rewrite decide_True.
  - rewrite decide_False by done. destruct (Z.eqb_spec (Logical ts) 0); cbn [negb]; [by rewrite decide_True|by rewrite decide_False].
Qed.

Lemma encodeMVCCTimestamp_eq ts : encodeMVCCTimestamp ts = if decide (ts = mkTimestamp 0 0) then [] else be 8 (u64 (WallTime ts)) ++ (if decide (Logical ts = 0) then [] else be 4 (u32 (Logical ts))).
Proof.
  unfold encodeMVCCTimestamp, encodeMVCCTimestampToBuf. rewrite encodedMVCCTimestampLength_eq. destruct (decide (ts = mkTimestamp 0 0)); [done|].
  destruct (Z.eqb_spec (Logical ts) 0); [by rewrite !decide_True|by rewrite !decide_False].
Qed.

Lemma timestamp_bytes ts : let v := encodeMVCCTimestamp ts in
  version_ok v /\ len v = encodedMVCCTimestampLength ts /\ (v = [] <-> ts = mkTimestamp 0 0) /\ forall tb, version_legal tb v.
Proof.
  intros v. assert (len v = encodedMVCCTimestampLength ts) as Hl.
  { unfold v. rewrite encodeMVCCTimestamp_eq, encodedMVCCTimestampLength_eq. case_decide; [done|]. rewrite len_app, be_len. case_decide; [done|]. by rewrite be_len. }
  assert (version_ok v) as Hv.
  { split; [|rewrite Hl, encodedMVCCTimestampLength_eq; repeat case_decide; lia]. unfold v. rewrite encodeMVCCTimestamp_eq. case_decide; [constructor|]. apply Forall_app. split; [apply be_bytes|]. case_decide; [constructor|apply be_bytes]. }
  assert (v = [] <-> ts = mkTimestamp 0 0) as He.
  { split; intros E; [|unfold v; by rewrite encodeMVCCTimestamp_eq, decide_True]. rewrite E, encodedMVCCTimestampLength_eq in Hl. case_decide; [done|]. case_decide; done. }
  split_and!; try done. intros tb. split; [done|]. intros _. rewrite Hl, encodedMVCCTimestampLength_eq. case_decide; [left; tauto|]. case_decide; tauto.
Qed.

(** The engine key of an MVCC key. *)
Definition engine_of (k : MVCCKey) : EngineKey := mkEngineKey (mk_Key k) (encodeMVCCTimestamp (mk_Timestamp k)).

Lemma EncodeMVCCKey_eq k : EncodeMVCCKey k = EngineKey_Encode (engine_of k) /\ len (EncodeMVCCKey k) = encodedMVCCKeyLength k /\
  EncodeMVCCKey k = (mk_Key k ++ [0]) ++ EncodeMVCCTimestampSuffix (mk_Timestamp k) /\ EncodeMVCCTimestampSuffix (mk_Timestamp k) = suffix (encodeMVCCTimestamp (mk_Timestamp k)).
Proof.
  destruct (timestamp_bytes (mk_Timestamp k)) as (Hv & Hl & He & _). destruct (Encode_eq (engine_of k) Hv) as [Ee _]. cbn [engine_of ek_Key ek_Version] in Ee.
  assert (EncodeMVCCTimestampSuffix (mk_Timestamp k) = suffix (encodeMVCCTimestamp (mk_Timestamp k))) as Es.
  { unfold EncodeMVCCTimestampSuffix, suffix, byte. destruct (Z.eqb_spec (encodedMVCCTimestampLength (mk_Timestamp k)) 0) as [E0|N0].
    - rewrite decide_True; [done|]. by apply nil_length_inv, Nat2Z.inj; rewrite <- Hl in E0.
    - rewrite decide_False by (intros E; rewrite E in Hl; by apply N0). rewrite Hl. unfold encodeMVCCTimestamp at 1. rewrite (proj2 (Z.eqb_neq _ _) N0). f_equal. f_equal. apply Z.mod_small. rewrite encodedMVCCTimestampLength_eq. unfold mvccEncodedTimeLengthLen. repeat case_decide; lia. }
  assert (encodedMVCCKeyLength k = len (mk_Key k) + 1 + len (suffix (encodeMVCCTimestamp (mk_Timestamp k)))) as Hlen.
  { rewrite suffix_len, Hl, encodedMVCCTimestampLength_eq. unfold encodedMVCCKeyLength, Timestamp_IsEmpty, mvccEncodedTimeSentinelLen, mvccEncodedTimeWallLen, mvccEncodedTimeLengthLen, mvccEncodedTimeLogicalLen.
    destruct (decide (mk_Timestamp k = mkTimestamp 0 0)) as [Et|Nt]; [rewrite bool_decide_eq_true_2, (decide_True (P := encodeMVCCTimestamp _ = [])) by tauto; cbn; lia|].
    rewrite bool_decide_eq_false_2, (decide_False (P := encodeMVCCTimestamp _ = [])) by tauto. cbn [negb]. destruct (Z.eqb_spec (Logical (mk_Timestamp k)) 0); cbn [negb]; [rewrite decide_True by done|rewrite decide_False by done]; lia. }
  assert (EncodeMVCCKey k = (mk_Key k ++ [0]) ++ EncodeMVCCTimestampSuffix (mk_Timestamp k)) as Ek.
  { unfold EncodeMVCCKey, encodeMVCCKeyToBuf, mvccEncodedTimeSentinelLen, mvccEncodedTimeLengthLen. rewrite Hlen, <- (assoc_L (++)). f_equal. f_equal.
    rewrite Es, suffix_len. unfold suffix. case_decide as Ev; [by replace (_ >? 0) with false by (symmetry; apply Z.gtb_ltb, Z.ltb_ge || (rewrite Z.gtb_ltb; apply Z.ltb_ge; lia))|].
    replace (len (mk_Key k) + 1 + (len (encodeMVCCTimestamp (mk_Timestamp k)) + 1) - (len (mk_Key k) + 1) - 1) with (len (encodeMVCCTimestamp (mk_Timestamp k))) by lia.
    destruct Hv as [_ Hv]. assert (0 < len (encodeMVCCTimestamp (mk_Timestamp k))) by (destruct (encodeMVCCTimestamp (mk_Timestamp k)) as [|x l]; [done|]; rewrite len_cons; pose proof (len_nonneg l); lia).
    destruct (Z.gtb_spec (len (encodeMVCCTimestamp (mk_Timestamp k))) 0); [|lia]. unfold byte. rewrite Z.mod_small by lia. f_equal. unfold encodeMVCCTimestamp. rewrite <- Hl. by rewrite (proj2 (Z.eqb_neq _ _)) by lia. }
  split_and!; [by rewrite Ek, Es, Ee| |done|done]. rewrite Ek, Es, !len_app, Hlen. change (len [0]) with 1. lia.
Qed.

Lemma be_BigEndian n v rest m : m = Z.of_nat n -> 0 <= v < 256 ^ m -> BigEndian m (be n v ++ rest) = Ret v.
Proof. intros -> Hv. rewrite BigEndian_number by (apply be_bytes || apply be_len). rewrite be_number, Z.mod_small by done. done. Qed.

Lemma wall_BigEndian ts rest : Timestamp_valid ts -> BigEndian 8 (be 8 (u64 (WallTime ts)) ++ rest) = Ret (WallTime ts).
Proof. intros [Hw _]. unfold MaxInt64 in Hw. unfold u64, u64_modulus. rewrite Z.mod_small by lia. apply be_BigEndian; [done|]. change (256 ^ 8) with 18446744073709551616. lia. Qed.

Lemma logical_BigEndian ts rest : Timestamp_valid ts -> BigEndian 4 (be 4 (u32 (Logical ts)) ++ rest) = Ret (Logical ts).
Proof. intros [_ Hg]. unfold MaxInt32 in Hg. unfold u32. rewrite Z.mod_small by lia. apply be_BigEndian; [done|]. change (256 ^ 4) with 4294967296. lia. Qed.

(** Decoding the bytes of a timestamp. *)
Lemma decode_timestamp {A} (f : Timestamp -> A) ts (err : outcome A) : Timestamp_valid ts ->
  (let v := encodeMVCCTimestamp ts in
   if len v =? 0 then Ret (f (mkTimestamp 0 0))
   else if len v =? 8 then let! w := BigEndian 8 v in Ret (f (mkTimestamp (int64 w) 0))
   else if (len v =? 12) || (len v =? 13) then
     let! w := BigEndian 8 v in let! rest := slice_range v 8 12 in let! l := BigEndian 4 rest in Ret (f (mkTimestamp (int64 w) (int32 l)))
   else err) = Ret (f ts).
Proof.
  intros Hts. cbv zeta. destruct (timestamp_bytes ts) as (_ & -> & _). rewrite encodedMVCCTimestampLength_eq, encodeMVCCTimestamp_eq. case_decide as E; [by subst ts|].
  pose proof Hts as [Hw Hg]. unfold MaxInt64, MaxInt32 in *. case_decide as El.
  - change (8 =? 0) with false. change (8 =? 8) with true. cbv iota. rewrite wall_BigEndian by done. cbn [obind]. rewrite int64_small by (unfold MaxInt64; lia). do 2 f_equal. destruct ts. cbn in *. by subst.
  - change (12 =? 0) with false. change (12 =? 8) with false. change (12 =? 12) with true. cbn [orb]. rewrite wall_BigEndian by done. cbn [obind].
    rewrite <- (app_nil_r (be 4 _)). rewrite slice_range_app by (rewrite ?be_len; done). cbn [obind]. rewrite <- (app_nil_r (be 4 _)), logical_BigEndian by done. cbn [obind].
    rewrite int64_small, int32_small by (unfold MaxInt64, MaxInt32; lia). by destruct ts.
Qed.

Lemma SplitMVCCKey_Encode k : version_ok (ek_Version k) -> SplitMVCCKey (EngineKey_Encode k) = Ret (Some (ek_Key k, ek_Version k)).
Proof.
  intros Hv. unfold SplitMVCCKey. rewrite (proj2 (Z.eqb_neq _ _) (encode_nonempty k Hv)). destruct (encode_parts k Hv) as (-> & _ & _ & _). cbn [obind].
  destruct (Encode_eq k Hv) as [-> _]. set (s := suffix (ek_Version k)). replace (len ((ek_Key k ++ [0]) ++ s) - 1 - len s) with (len (ek_Key k)) by (rewrite !len_app; change (len [0]) with 1; lia).
  pose proof (len_nonneg (ek_Key k)). destruct (Z.ltb_spec (len (ek_Key k)) 0); [lia|].
  assert (slice_to ((ek_Key k ++ [0]) ++ s) (len (ek_Key k)) = Ret (ek_Key k)) as -> by (rewrite <- (assoc_L (++)); by apply slice_to_app). cbn [obind].
  unfold s. rewrite suffix_len. destruct k as [k v]. cbn [ek_Key ek_Version]. unfold suffix. case_decide as Ev; [by subst v|]. pose proof (len_nonneg v). destruct (Z.gtb_spec (len v + 1) 0); [|lia].
  rewrite (slice_range_app (k ++ [0]) v [len v + 1]); [done|rewrite len_app; done|]. rewrite !len_app. change (len [0]) with 1. change (len [_]) with 1. lia.
Qed.

Lemma strip_timestamp ts : Timestamp_valid ts -> strip (encodeMVCCTimestamp ts) = encodeMVCCTimestamp ts.
Proof.
  intros Hts. destruct (timestamp_bytes ts) as (_ & Hl & _). rewrite encodedMVCCTimestampLength_eq in Hl. case_decide as E; [apply strip_id; lia|]. case_decide as El; [apply strip_id; lia|].
  unfold strip. rewrite decide_False, decide_True by lia. unfold strip_logical. rewrite decide_False; [done|]. rewrite encodeMVCCTimestamp_eq, !decide_False by done.
  rewrite drop_app_length' by (by rewrite be_length). intros Hz. pose proof (be_number 4 (u32 (Logical ts)) 0) as Hn. rewrite Hz in Hn. destruct Hts as [_ Hg]. unfold MaxInt32, u32 in *.
  change (Z.of_nat 4) with 4 in Hn. change (256 ^ 4) with 4294967296 in Hn. rewrite !Z.mod_small in Hn by (rewrite ?Z.mod_small; lia). cbn in Hn. lia.
Qed.

Lemma timestamp_lt a b : Timestamp_valid a -> Timestamp_valid b -> a <> mkTimestamp 0 0 -> b <> mkTimestamp 0 0 -> ts_lt a b -> bytes_lt (encodeMVCCTimestamp a) (encodeMVCCTimestamp b).
Proof.
  intros [Wa Ga] [Wb Gb] Na Nb Hlt. rewrite !encodeMVCCTimestamp_eq, (decide_False (P := a = _)), (decide_False (P := b = _)) by done. unfold ts_lt, ts_le in Hlt. unfold MaxInt64, MaxInt32 in *.
  destruct (decide (WallTime a = WallTime b)) as [E|N].
  - rewrite E. apply bytes_lt_prefix. rewrite (decide_False (P := Logical b = 0)) by lia. case_decide as El; [cbn; done|]. rewrite <- (app_nil_r (be 4 (u32 (Logical a)))), <- (app_nil_r (be 4 (u32 (Logical b)))).
    apply precedes_lt, be_precedes. unfold u32. change (Z.of_nat 4) with 4. change (256 ^ 4) with 4294967296. rewrite !Z.mod_mod, !Z.mod_small by lia. lia.
  - apply precedes_lt, be_precedes. unfold u64, u64_modulus. change (Z.of_nat 8) with 8. change (256 ^ 8) with 18446744073709551616. rewrite !Z.mod_mod, !Z.mod_small by lia. lia.
Qed.

Lemma Timestamp_Compare_cases a b : (ts_lt a b /\ Timestamp_Compare a b = -1) \/ (a = b /\ Timestamp_Compare a b = 0) \/ (ts_lt b a /\ Timestamp_Compare a b = 1).
Proof.
  destruct a as [w g], b as [w' g']. unfold ts_lt, ts_le, Timestamp_Compare. cbn. destruct (Z.gtb_spec w w'); [right; right; lia|]. destruct (Z.ltb_spec w w'); [left; lia|].
  destruct (Z.gtb_spec g g'); [right; right; lia|]. destruct (Z.ltb_spec g g'); [left; lia|]. right; left. split; [f_equal; lia|done].
Qed.

Lemma timestamp_compare a b : Timestamp_valid a -> Timestamp_valid b -> a <> mkTimestamp 0 0 -> b <> mkTimestamp 0 0 ->
  bytes_Compare (strip (encodeMVCCTimestamp b)) (strip (encodeMVCCTimestamp a)) = - Timestamp_Compare a b.
Proof.
  intros Ha Hb Na Nb. rewrite !strip_timestamp by done. destruct (Timestamp_Compare_cases a b) as [[L ->]|[[-> ->]|[L ->]]].
  - apply bytes_Compare_lt. by apply timestamp_lt.
  - apply bytes_Compare_self.
  - apply bytes_Compare_lt. by apply timestamp_lt.
Qed.

Definition mvcc_ok (k : MVCCKey) : Prop := Forall is_byte (mk_Key k) /\ Timestamp_valid (mk_Timestamp k).

Lemma engine_of_ok tb k : mvcc_ok k -> engine_ok tb (engine_of k).
Proof. intros [Hk _]. split; [done|]. apply timestamp_bytes. Qed.

Lemma engine_compare_mvcc a b : mvcc_ok a -> mvcc_ok b -> engine_compare (engine_of a) (engine_of b) = MVCCKey_Compare a b.
Proof.
  intros [_ Ha] [_ Hb]. unfold engine_compare, MVCCKey_Compare. cbn [engine_of ek_Key ek_Version]. destruct (bytes_Compare _ _ =? 0); [|done]. cbn [negb]. unfold Timestamp_IsEmpty.
  destruct (timestamp_bytes (mk_Timestamp a)) as (_ & _ & Ea & _), (timestamp_bytes (mk_Timestamp b)) as (_ & _ & Eb & _). rewrite !suffix_len.
  pose proof (len_nonneg (encodeMVCCTimestamp (mk_Timestamp a))). pose proof (len_nonneg (encodeMVCCTimestamp (mk_Timestamp b))). unfold cmp_Compare.
  destruct (decide (mk_Timestamp a = mkTimestamp 0 0)) as [Ta|Ta], (decide (mk_Timestamp b = mkTimestamp 0 0)) as [Tb|Tb].
  - rewrite decide_True, (decide_True (P := encodeMVCCTimestamp (mk_Timestamp a) = [])), (decide_True (P := encodeMVCCTimestamp (mk_Timestamp b) = [])) by tauto. by rewrite Ta, Tb.
  - rewrite decide_True, (decide_True (P := encodeMVCCTimestamp (mk_Timestamp a) = [])), (decide_False (P := encodeMVCCTimestamp (mk_Timestamp b) = [])) by tauto. rewrite bool_decide_eq_true_2, bool_decide_eq_false_2 by done. destruct (Z.ltb_spec 0 (len (encodeMVCCTimestamp (mk_Timestamp b)) + 1)); [done|lia].
  - rewrite decide_True, (decide_False (P := encodeMVCCTimestamp (mk_Timestamp a) = [])), (decide_True (P := encodeMVCCTimestamp (mk_Timestamp b) = [])) by tauto. rewrite bool_decide_eq_false_2, bool_decide_eq_true_2 by done. destruct (Z.ltb_spec (len (encodeMVCCTimestamp (mk_Timestamp a)) + 1) 0); [lia|].
    destruct (Z.gtb_spec (len (encodeMVCCTimestamp (mk_Timestamp a)) + 1) 0); [done|lia].
  - rewrite decide_False by tauto. rewrite !bool_decide_eq_false_2 by done. by apply timestamp_compare.
Qed.

Lemma DecodeMVCCKey_Encode k : mvcc_ok k -> DecodeMVCCKey (EncodeMVCCKey k) = Ret (inr k).
Proof.
  intros [_ Ht]. destruct (timestamp_bytes (mk_Timestamp k)) as (Hv & _). unfold DecodeMVCCKey, DecodeKey. rewrite (proj1 (EncodeMVCCKey_eq k)), SplitMVCCKey_Encode by done. cbn [obind engine_of ek_Key ek_Version].
  rewrite (decode_timestamp (fun ts => inr (mk_Key k, ts) : error + _) (mk_Timestamp k)) by done. cbn. by destruct k.
Qed.

(** ** The theorems *)

Lemma bytes_Compare_antisym k l : bytes_Compare l k = - bytes_Compare k l.
Proof.
  revert l. induction k as [|x k IH]; intros [|y l]; cbn; [done|done|done|]. destruct (Z.ltb_spec x y), (Z.ltb_spec y x); try lia; try done.
Qed.

Lemma cmp_Compare_antisym a b : cmp_Compare b a = - cmp_Compare a b.
Proof. unfold cmp_Compare. destruct (Z.ltb_spec a b), (Z.ltb_spec b a), (Z.gtb_spec a b), (Z.gtb_spec b a); lia. Qed.

Lemma engine_compare_antisym a b : engine_compare b a = - engine_compare a b.
Proof.
  unfold engine_compare. rewrite (bytes_Compare_antisym (ek_Key a) (ek_Key b)).
  destruct (Z.eqb_spec (bytes_Compare (ek_Key a) (ek_Key b)) 0) as [->|N]; [|destruct (Z.eqb_spec (- bytes_Compare (ek_Key a) (ek_Key b)) 0); [lia|done]]. cbn [negb Z.opp Z.eqb].
  destruct (decide (ek_Version a = [] \/ ek_Version b = [])); [rewrite decide_True by tauto; apply cmp_Compare_antisym|]. rewrite decide_False by tauto. apply bytes_Compare_antisym.
Qed.

Lemma engine_compare_le a b : engine_compare a b <= 0 <->
  bytes_lt (ek_Key a) (ek_Key b) \/ (ek_Key a = ek_Key b /\ (ek_Version a = [] \/ (ek_Version a <> [] /\ ek_Version b <> [] /\ bytes_le (strip (ek_Version b)) (strip (ek_Version a))))).
Proof.
  unfold engine_compare. destruct (bytes_Compare_spec (ek_Key a) (ek_Key b)) as (K1 & K2 & K3).
  destruct (Z.eqb_spec (bytes_Compare (ek_Key a) (ek_Key b)) 0) as [E|N]; cbn [negb].
  - apply K2 in E as Ek. rewrite Ek. assert (~ bytes_lt (ek_Key b) (ek_Key b)) as Hirr by key_order. unfold cmp_Compare. rewrite !suffix_len. pose proof (len_nonneg (ek_Version a)). pose proof (len_nonneg (ek_Version b)).
    destruct (decide (ek_Version a = [])) as [Ea|Na], (decide (ek_Version b = [])) as [Eb|Nb].
    + rewrite decide_True by tauto. cbn. split; [intros _; tauto|lia].
    + rewrite decide_True by tauto. destruct (Z.ltb_spec 0 (len (ek_Version b) + 1)); [|lia]. split; [intros _; tauto|lia].
    + rewrite decide_True by tauto. destruct (Z.ltb_spec (len (ek_Version a) + 1) 0); [lia|]. destruct (Z.gtb_spec (len (ek_Version a) + 1) 0); [|lia]. split; [lia|]. tauto.
    + rewrite decide_False by tauto. destruct (bytes_Compare_spec (strip (ek_Version b)) (strip (ek_Version a))) as (_ & _ & C3). unfold bytes_le. rewrite <- C3. split; [intros ?; right; split_and!; [done|right; split_and!; [done|done|lia]]|].
      intros [?|[_ [?|(_ & _ & ?)]]]; [tauto|tauto|lia].
  - split; [intros ?; left; apply K1; lia|]. intros [?|[Ek _]]; [apply K1 in H; lia|]. exfalso. apply N. by apply K2.
Qed.

(** C19. The comparison and the equality that the engine uses agree on all keys with
    versions, also where the versions of equal keys differ in bytes that do not count:
    the comparison is a total preorder, the fast path of the equality is exact, and keys
    with one prefix compare like their suffixes. *)
Theorem engine_comparer tb a b c : engine_ok tb a -> engine_ok tb b -> engine_ok tb c ->
  exists x y z, EngineKeyCompare tb (EngineKey_Encode a) (EngineKey_Encode b) = Ret x /\ EngineKeyCompare tb (EngineKey_Encode b) (EngineKey_Encode c) = Ret y /\
    EngineKeyCompare tb (EngineKey_Encode a) (EngineKey_Encode c) = Ret z /\ EngineKeyCompare tb (EngineKey_Encode b) (EngineKey_Encode a) = Ret (- x) /\
    (x <= 0 -> y <= 0 -> z <= 0) /\ EngineKeyEqual tb (EngineKey_Encode a) (EngineKey_Encode b) = Ret (x =? 0) /\
    EngineKeySplit tb (EngineKey_Encode a) = Ret (len (ek_Key a) + 1) /\
    (ek_Key a = ek_Key b -> EngineSuffixCompare tb (suffix (ek_Version a)) (suffix (ek_Version b)) = Ret x).
Proof.
  intros Ha Hb Hc. exists (engine_compare a b), (engine_compare b c), (engine_compare a c). rewrite !EngineKeyCompare_spec, EngineKeyEqual_spec, (engine_compare_antisym a b) by done.
  split_and!; try done.
  - rewrite !engine_compare_le. intros [L1|[E1 V1]] [L2|[E2 V2]]; [left; key_order|left; by rewrite <- E2|left; by rewrite E1|right; split; [congruence|]].
    destruct V1 as [?|(N1 & N2 & L1)]; [by left|]. destruct V2 as [?|(N3 & N4 & L2)]; [done|]. right. split_and!; [done|done|key_order].
  - pose proof Ha as (_ & Hv & _). unfold EngineKeySplit. rewrite (proj2 (Z.eqb_neq _ _) (encode_nonempty a Hv)), check_spec by done. cbn [obind]. destruct (encode_parts a Hv) as (-> & _). cbn [obind]. f_equal.
    destruct (Encode_eq a Hv) as [-> _]. rewrite !len_app. change (len [0]) with 1. lia.
  - intros E. rewrite EngineSuffixCompare_spec by (apply Ha || apply Hb). f_equal. unfold engine_compare. cbn [ek_Key ek_Version]. by rewrite E, !bytes_Compare_self.
Qed.

Lemma mvcc_order_cases a b : mvcc_ok a -> mvcc_ok b -> MVCCKey_Less a b = (MVCCKey_Compare a b <? 0) /\ MVCCKey_Equal a b = (MVCCKey_Compare a b =? 0).
Proof.
  intros [_ Ha] [_ Hb]. unfold MVCCKey_Less, MVCCKey_Equal, MVCCKey_Compare, MVCCKey_IsValue, Timestamp_IsEmpty.
  destruct (bytes_Compare (mk_Key a) (mk_Key b) =? 0) eqn:Ek; cbn [negb andb]; [|by rewrite Ek].
  destruct (decide (mk_Timestamp a = mkTimestamp 0 0)) as [Ta|Ta], (decide (mk_Timestamp b = mkTimestamp 0 0)) as [Tb|Tb]; rewrite ?Ta, ?Tb.
  - done.
  - repeat case_bool_decide; (done || congruence).
  - repeat case_bool_decide; (done || congruence).
  - rewrite !(bool_decide_eq_false_2 (_ = mkTimestamp 0 0)) by done. cbn [negb andb]. destruct (Timestamp_Compare_cases (mk_Timestamp a) (mk_Timestamp b)) as [[L ->]|[[E ->]|[L ->]]]; cbn.
    + split; [|apply bool_decide_eq_false; intros E; apply L; by rewrite E]. destruct (Timestamp_Less _ _) eqn:El; [|done]. apply Timestamp_Less_spec in El. exfalso. apply El. destruct (total ts_le (mk_Timestamp a) (mk_Timestamp b)); [done|]. by exfalso.
    + rewrite E. split; [|by rewrite bool_decide_eq_true_2]. destruct (Timestamp_Less _ _) eqn:El; [|done]. by apply Timestamp_Less_spec in El.
    + split; [by apply Timestamp_Less_spec|]. apply bool_decide_eq_false. intros E. apply L. by rewrite E.
Qed.

(** C31. Encoded MVCC keys decode to the keys, with the lengths that are announced, also
    when they are read as engine keys, and sort in the engine like the keys: by the
    user's key first, a key without a timestamp before its versions, and newer versions
    before older ones. *)
Theorem mvcc_keys_encoding tb a b : mvcc_ok a -> mvcc_ok b ->
  (DecodeMVCCKey (EncodeMVCCKey a) = Ret (inr a) /\ len (EncodeMVCCKey a) = encodedMVCCKeyLength a /\
   DecodeMVCCTimestampSuffix (EncodeMVCCTimestampSuffix (mk_Timestamp a)) = Ret (inr (mk_Timestamp a)) /\
   exists e, DecodeEngineKey (EncodeMVCCKey a) = Ret (Some e) /\ EngineKey_ToMVCCKey e = Ret (inr a) /\ EngineKey_Validate e = Ret None) /\
  (EngineKeyCompare tb (EncodeMVCCKey a) (EncodeMVCCKey b) = Ret (MVCCKey_Compare a b) /\
   EngineKeyEqual tb (EncodeMVCCKey a) (EncodeMVCCKey b) = Ret (MVCCKey_Equal a b) /\
   MVCCKey_Less a b = (MVCCKey_Compare a b <? 0)) /\
  (MVCCKey_Compare a b < 0 <-> bytes_lt (mk_Key a) (mk_Key b) \/ (mk_Key a = mk_Key b /\
     ((mk_Timestamp a = mkTimestamp 0 0 /\ mk_Timestamp b <> mkTimestamp 0 0) \/ (mk_Timestamp b <> mkTimestamp 0 0 /\ ts_lt (mk_Timestamp b) (mk_Timestamp a))))).
Proof.
  intros Ha Hb. pose proof Ha as [_ Hta]. destruct (timestamp_bytes (mk_Timestamp a)) as (Hv & Hvl & Hve & _).
  destruct (EncodeMVCCKey_eq a) as (Ea & La & _ & Es), (EncodeMVCCKey_eq b) as (Eb & _). destruct (mvcc_order_cases a b Ha Hb) as [Hless Heq]. split_and!; try done.
  - by apply DecodeMVCCKey_Encode.
  - rewrite Es. unfold DecodeMVCCTimestampSuffix. rewrite suffix_0. case_bool_decide as E; [apply Hve in E; by rewrite E|]. unfold suffix. rewrite decide_False by done. rewrite slice_get_end. cbn [obind].
    rewrite len_app. change (len [_]) with 1. rewrite Z.eqb_refl. cbn [negb]. replace (_ + 1 - 1) with (len (encodeMVCCTimestamp (mk_Timestamp a))) by lia. rewrite slice_to_app by done. cbn [obind].
    by apply (decode_timestamp (fun ts => inr ts : error + _)).
  - exists (engine_of a). rewrite Ea. split; [by apply DecodeEngineKey_Encode|]. assert (EngineKey_ToMVCCKey (engine_of a) = Ret (inr a)) as Em.
    { unfold EngineKey_ToMVCCKey. cbn [engine_of ek_Key ek_Version]. etransitivity; [apply (decode_timestamp (fun ts => inr (mkMVCCKey (mk_Key a) ts) : error + _)); done|]. by destruct a. }
    split; [done|]. unfold EngineKey_Validate. rewrite Em. unfold EngineKey_IsLockTableKey. cbn [engine_of ek_Version]. rewrite Hvl, encodedMVCCTimestampLength_eq. by repeat case_decide.
  - rewrite Ea, Eb, EngineKeyCompare_spec by (by apply engine_of_ok). f_equal. by apply engine_compare_mvcc.
  - rewrite Ea, Eb, EngineKeyEqual_spec by (by apply engine_of_ok). f_equal. rewrite engine_compare_mvcc by done. done.
  - unfold MVCCKey_Compare, Timestamp_IsEmpty. destruct (bytes_Compare_spec (mk_Key a) (mk_Key b)) as (K1 & K2 & _). destruct (Z.eqb_spec (bytes_Compare (mk_Key a) (mk_Key b)) 0) as [E|N]; cbn [negb].
    + apply K2 in E as Ek. rewrite Ek. assert (~ bytes_lt (mk_Key b) (mk_Key b)) as Hirr by key_order.
      destruct (decide (mk_Timestamp a = mkTimestamp 0 0)) as [Ta|Ta], (decide (mk_Timestamp b = mkTimestamp 0 0)) as [Tb|Tb]; rewrite ?Ta, ?Tb.
      * rewrite !bool_decide_eq_true_2 by done. cbn. split; [done|]. intros [?|(_ & [[_ ?]|[? _]])]; done.
      * rewrite bool_decide_eq_true_2, bool_decide_eq_false_2 by done. cbn. split; [intros _; right; split; [done|by left]|lia].
      * rewrite bool_decide_eq_false_2, bool_decide_eq_true_2 by done. cbn. split; [lia|]. intros [?|(_ & [[? _]|[? _]])]; done.
      * rewrite !bool_decide_eq_false_2 by done. cbn [negb andb]. destruct (Timestamp_Compare_cases (mk_Timestamp a) (mk_Timestamp b)) as [[L ->]|[[Et ->]|[L ->]]]; (split; [|intros [?|(_ & [[? _]|[_ ?]])]]); try done; try lia.
        -- unfold ts_lt, ts_le in *. lia.
        -- rewrite Et in *. unfold ts_lt in *. exfalso. by apply H.
        -- intros _. right. split; [done|right]. by split.
    + split; [intros ?; left; apply K1; lia|]. intros [?|[Ek _]]; [by apply K1|]. exfalso. apply N. by apply K2.
Qed.

Lemma mvcc_keys_encoding_witness : mvcc_ok (mkMVCCKey [97] (mkTimestamp 7 1)) /\
  DecodeMVCCKey (EncodeMVCCKey (mkMVCCKey [97] (mkTimestamp 7 1))) = Ret (inr (mkMVCCKey [97] (mkTimestamp 7 1))) /\
  EngineKeyCompare true (EncodeMVCCKey (mkMVCCKey [97] (mkTimestamp 7 1))) (EncodeMVCCKey (mkMVCCKey [97] (mkTimestamp 7 0))) = Ret (-1).
Proof.
  assert (mvcc_ok (mkMVCCKey [97] (mkTimestamp 7 1)) /\ mvcc_ok (mkMVCCKey [97] (mkTimestamp 7 0))) as [Ha Hb].
  { unfold mvcc_ok, Timestamp_valid, is_byte. cbn. unfold MaxInt64, MaxInt32. split; (split; [repeat constructor; lia|lia]). }
  destruct (mvcc_keys_encoding true _ _ Ha Hb) as ((H1 & _) & (H2 & _) & _). split_and!; [done|done|]. rewrite H2. by vm_compute.
Defined.

(** Two versions at time 7, one with the byte of old encodings, and a lock. *)
Definition example_plain : EngineKey := mkEngineKey [97] [0; 0; 0; 0; 0; 0; 0; 7].
Definition example_synthetic : EngineKey := mkEngineKey [97] [0; 0; 0; 0; 0; 0; 0; 7; 0; 0; 0; 0; 1].
Definition example_lock : EngineKey := mkEngineKey [97] (3 :: replicate 16 5).

Lemma engine_comparer_witness : EngineKeyCompare true (EngineKey_Encode example_plain) (EngineKey_Encode example_synthetic) = Ret 0 /\
  EngineKeyEqual true (EngineKey_Encode example_plain) (EngineKey_Encode example_synthetic) = Ret true /\ EngineKey_Encode example_plain <> EngineKey_Encode example_synthetic.
Proof.
  assert (engine_ok true example_plain /\ engine_ok true example_synthetic /\ engine_ok true example_lock) as (Ha & Hb & Hc).
  { unfold engine_ok, version_legal, version_ok, is_byte, len. cbn. split_and!; try (repeat constructor; lia); tauto || (intros _; lia). }
  destruct (engine_comparer true _ _ _ Ha Hb Hc) as (x & y & z & H1 & H2 & H3 & H4 & H5 & H6 & _). vm_compute in H1. injection H1 as <-. split; [by vm_compute|]. split; [exact H6|]. by vm_compute.
Defined.

(** ** Locks *)

Definition lock_ok (lk : LockTableKey) : Prop := Forall is_byte (lt_Key lk) /\ Forall is_byte (lt_TxnUUID lk) /\ len (lt_TxnUUID lk) = 16.

(** The key of a replicated lock decodes to the locked key, the strength and the
    transaction, through the engine's encoding; strengths that are not replicated panic. *)
Theorem lock_engine_keys lk : lock_ok lk ->
  if decide (lt_Strength lk = None_ \/ lt_Strength lk = Update) then exists msg, LockTableKey_ToEngineKey lk = Panic msg
  else exists e, LockTableKey_ToEngineKey lk = Ret e /\ DecodeEngineKey (EngineKey_Encode e) = Ret (Some e) /\ EngineKey_ToLockTableKey e = Ret (inr lk) /\
    EngineKey_Validate e = Ret None /\ EngineKey_IsMVCCKey e = false /\ forall tb, engine_ok tb e.
Proof.
  intros (Bk & Bu & Hu). unfold LockTableKey_ToEngineKey. rewrite LockTableSingleKey_eq. cbn [obind]. case_decide as Hs.
  { destruct Hs as [-> | ->]; by eexists. }
  assert (exists b, getByteForReplicatedLockStrength (lt_Strength lk) = Ret b /\ is_byte b /\ getReplicatedLockStrengthForByte b = Ret (inr (lt_Strength lk))) as (b & -> & Bb & Hb).
  { unfold getByteForReplicatedLockStrength, is_byte. destruct (lt_Strength lk); try tauto; (eexists; split; [done|]; split; [cbn; lia|done]). }
  cbn [obind]. assert (take 16 (lt_TxnUUID lk ++ replicate 16 0) = lt_TxnUUID lk) as Et by (apply take_app_length'; unfold len in Hu; lia). rewrite Et.
  set (e := mkEngineKey (lockPrefix ++ bytes_code (lt_Key lk)) (b :: lt_TxnUUID lk)).
  assert (len (ek_Version e) = 17) as Hl by (cbn [e ek_Version]; rewrite len_cons; lia). assert (version_ok (ek_Version e)) as Hv by (split; [by constructor|lia]).
  exists e. split; [done|]. split; [by apply DecodeEngineKey_Encode|].
  assert (DecodeLockTableSingleKey (ek_Key e) = Ret (inr (lt_Key lk))) as Ed by (by apply DecodeLockTableSingleKey_spec; [done|apply LockTableSingleKey_eq]).
  split_and!.
  - unfold EngineKey_ToLockTableKey. rewrite Ed. cbn [ebind obind]. unfold decodeLockTableKeyVersion. rewrite Hl. change (17 =? engineKeyVersionLockTableLen) with true. cbn [negb]. change (slice_get (ek_Version e) 0) with (Ret b). cbn [obind]. rewrite Hb. cbn [ebind obind]. unfold slice_from. change (ek_Version e) with (b :: lt_TxnUUID lk). rewrite bool_decide_eq_true_2 by (rewrite len_cons; lia). cbn. by destruct lk.
  - unfold EngineKey_Validate, EngineKey_IsLockTableKey. rewrite Hl. cbn [Z.eqb Pos.eqb engineKeyVersionLockTableLen]. apply ValidateLockTableSingleKey_spec. by eexists.
  - unfold EngineKey_IsMVCCKey. by rewrite Hl.
  - intros tb. split; [|split; [done|intros _; right; tauto]]. apply Forall_app. split; [by repeat constructor|]. by apply bytes_code_bytes.
Qed.

Lemma lock_engine_keys_witness : exists e, LockTableKey_ToEngineKey (mkLockTableKey [97; 0] Exclusive (replicate 16 9)) = Ret e /\
  DecodeEngineKey (EngineKey_Encode e) = Ret (Some e) /\ EngineKey_ToLockTableKey e = Ret (inr (mkLockTableKey [97; 0] Exclusive (replicate 16 9))).
Proof.
  destruct (lock_engine_keys (mkLockTableKey [97; 0] Exclusive (replicate 16 9))) as (e & H1 & H2 & H3 & _).
  - split_and!; [|apply Forall_replicate|done]; unfold is_byte; repeat constructor; lia.
  - by exists e.
Defined.
