(* ===== verification/ScanResults.v ===== *)
(** * The results of a scan (storage/pebble_mvcc_scanner.go, enginepb/decode.go)

    What a scan puts into its buffers ([pebbleResults_put], [pebbleResults_finish]) is
    what a client decodes from them ([ScanDecodeKeyValues]), whatever the sizes of the
    buffers. *)

From S2P Require Import Prelude Hlc Encoding EncodingOrder Keys KeysOrder ReadSummary EngineKeys EngineKeysSpec.

(** A versioned key and its value. *)
Record kv : Type := mkKV { kv_key : MVCCKey; kv_value : buffer }.

Definition entry (e : kv) : buffer :=
  le32 (u32 (len (kv_value e))) ++ le32 (u32 (len (EncodeMVCCKey (kv_key e)))) ++ EncodeMVCCKey (kv_key e) ++ kv_value e.

Definition entries (l : list kv) : buffer := concat (entry <$> l).

Definition entry_size (e : kv) : Z := pebbleResultsKVSizeOf (len (EncodeMVCCKey (kv_key e))) (len (kv_value e)).

(** The pairs whose sizes a buffer can state. *)
Definition kv_ok (e : kv) : Prop := mvcc_ok (kv_key e) /\ entry_size e < 4294967296.

Lemma le32_len v : len (le32 v) = 4.
Proof. unfold le32, len. by rewrite length_rev, be_length. Qed.

Lemma entry_len e : len (entry e) = entry_size e.
Proof. unfold entry, entry_size, pebbleResultsKVSizeOf, pebbleResultsKVLenSize. rewrite !len_app, !le32_len. lia. Qed.

Lemma entry_size_pos e : 8 <= entry_size e.
Proof. unfold entry_size, pebbleResultsKVSizeOf, pebbleResultsKVLenSize. pose proof (len_nonneg (EncodeMVCCKey (kv_key e))). pose proof (len_nonneg (kv_value e)). lia. Qed.

Lemma LittleEndian32_le32 v rest : 0 <= v < 4294967296 -> LittleEndian32 (le32 v ++ rest) = Ret v.
Proof.
  intros Hv. unfold LittleEndian32. rewrite slice_to_app by apply le32_len. cbn [obind]. unfold le32. rewrite rev_involutive, <- (app_nil_r (be 4 v)). by apply be_BigEndian.
Qed.

(** ** Decoding *)

Lemma ScanDecodeKeyValue_entry e rest : kv_ok e -> len (entry e ++ rest) < 4294967296 ->
  ScanDecodeKeyValue (entry e ++ rest) = Ret (inr (mk_Key (kv_key e), mk_Timestamp (kv_key e), kv_value e, rest)).
Proof.
  intros [Hm Hs] Hlen. set (k := EncodeMVCCKey (kv_key e)). set (v := kv_value e). pose proof (len_nonneg k). pose proof (len_nonneg v). pose proof (len_nonneg rest).
  assert (entry_size e = 8 + len k + len v) as Hsz by done. pose proof (entry_len e) as Hel. rewrite len_app in Hlen.
  assert (entry e ++ rest = le32 (len v) ++ le32 (len k) ++ k ++ v ++ rest) as Ee by (unfold entry; fold k v; unfold u32; rewrite !Z.mod_small, <- !(assoc_L (++)) by lia; done).
  unfold ScanDecodeKeyValue, kvLenSize. destruct (Z.ltb_spec (len (entry e ++ rest)) 8) as [?|_]; [rewrite len_app in *; lia|].
  replace (u32 (len (entry e ++ rest))) with (8 + len k + len v + len rest) by (unfold u32; rewrite len_app, Z.mod_small by lia; lia). rewrite Ee.
  rewrite LittleEndian32_le32 by lia. cbn [obind]. rewrite slice_range_app by (rewrite !le32_len; lia). cbn [obind]. rewrite <- (app_nil_r (le32 (len k))), LittleEndian32_le32, app_nil_r by lia. cbn [obind].
  unfold u32. rewrite (Z.mod_small (len k + 8)), !(Z.mod_small (len k + 8 + len v)) by lia. destruct (Z.gtb_spec (len k + 8 + len v) (8 + len k + len v + len rest)); [lia|].
  assert (le32 (len v) ++ le32 (len k) ++ k ++ v ++ rest = (le32 (len v) ++ le32 (len k)) ++ k ++ v ++ rest) as -> by (by rewrite (assoc_L (++))).
  rewrite slice_range_app by (rewrite len_app, !le32_len; lia). cbn [obind].
  assert ((le32 (len v) ++ le32 (len k)) ++ k ++ v ++ rest = ((le32 (len v) ++ le32 (len k)) ++ k) ++ v ++ rest) as -> by (by rewrite (assoc_L (++))).
  rewrite slice_range_app by (rewrite !len_app, !le32_len; lia). cbn [obind]. rewrite (assoc_L (++)), slice_from_app by (rewrite !len_app, !le32_len; lia). cbn [obind].
  assert (DecodeMVCCKey k = Ret (inr (kv_key e))) as Hd by (by apply DecodeMVCCKey_Encode). unfold DecodeMVCCKey in Hd. destruct (DecodeKey k) as [[err|[key ts]]|msg]; [done| |done].
  cbn in Hd |- *. injection Hd as <-. done.
Qed.

Lemma decode_entries fuel l : Forall kv_ok l -> len (entries l) < 4294967296 -> (length l <= fuel)%nat ->
  ScanDecodeKeyValues_data fuel (entries l) = Ret ((fun e => mk_Key (kv_key e)) <$> l, None).
Proof.
  intros Hl. revert fuel. induction Hl as [|e l He Hl IH]; intros fuel Hlen Hf; [by destruct fuel|]. destruct fuel as [|fuel]; [cbn in Hf; lia|].
  assert (entries (e :: l) = entry e ++ entries l) as Ee by done. rewrite Ee in *. cbn [ScanDecodeKeyValues_data]. pose proof (entry_size_pos e). pose proof (entry_len e). pose proof (len_nonneg (entries l)).
  rewrite len_app in Hlen. destruct (Z.gtb_spec (len (entry e ++ entries l)) 0) as [_|?]; [|rewrite len_app in *; lia]. rewrite ScanDecodeKeyValue_entry by (done || rewrite len_app; lia). cbn [obind].
  rewrite IH by (lia || cbn in Hf; lia). done.
Qed.

Lemma entries_length l : (length l <= length (entries l))%nat.
Proof.
  induction l as [|e l IH]; [done|]. change (entries (e :: l)) with (entry e ++ entries l). rewrite length_app. pose proof (entry_len e). pose proof (entry_size_pos e). unfold len in *. cbn. lia.
Qed.

Lemma decode_buffers groups : Forall (fun l => Forall kv_ok l /\ len (entries l) < 4294967296) groups ->
  ScanDecodeKeyValues (entries <$> groups) = Ret ((fun e => mk_Key (kv_key e)) <$> concat groups, None).
Proof.
  induction 1 as [|l groups [Hl Hlen] _ IH]; [done|]. cbn [fmap list_fmap ScanDecodeKeyValues]. rewrite decode_entries by (done || apply entries_length). cbn [obind].
  change (list_fmap _ _ entries groups) with (entries <$> groups). rewrite IH. cbn [obind concat]. by rewrite fmap_app.
Qed.

(** ** Encoding *)

Lemma double_until_spec fuel n need : 0 < n -> need <= n * 2 ^ Z.of_nat fuel -> exists m, double_until (S fuel) n need = Some m /\ need <= m /\ 0 < m.
Proof.
  revert n. induction fuel as [|fuel IH]; intros n Hn Hneed; cbn [double_until].
  - destruct (Z.ltb_spec n need); [cbn in Hneed; lia|]. by exists n.
  - destruct (Z.ltb_spec n need); [|by exists n]. apply IH; [lia|]. rewrite Nat2Z.inj_succ, Z.pow_succ_r in Hneed by lia. lia.
Qed.

Lemma double_until_mono fuel fuel' n need m : double_until fuel n need = Some m -> (fuel <= fuel')%nat -> double_until fuel' n need = Some m.
Proof.
  revert fuel' n. induction fuel as [|fuel IH]; intros fuel' n; [done|]. destruct fuel' as [|fuel']; [lia|]. cbn. destruct (_ <? _); [|done]. intros E Hle. apply IH; [done|lia].
Qed.

Lemma put_newSize_spec fuel cap need maxNewSize : (33 <= fuel)%nat -> 0 <= cap -> 0 < need < 4294967296 -> maxNewSize <= 0 \/ need <= maxNewSize ->
  exists n, pebbleResults_newSize fuel cap need maxNewSize = Some n /\ need <= n < 4294967296.
Proof.
  intros Hf Hc Hn Hmax. unfold pebbleResults_newSize. change (Z.shiftl 128 20) with 134217728. set (n0 := if _ || _ then 16 else 2 * cap).
  assert (0 < n0) as H0 by (unfold n0; destruct ((2 * cap =? 0) || (2 * cap >? 134217728)) eqn:E; [lia|]; rewrite orb_false_iff, Z.eqb_neq in E; lia).
  destruct (double_until_spec 32 n0 need) as (m & Em & Hm & _); [lia|change (2 ^ Z.of_nat 32) with 4294967296; nia|].
  rewrite (double_until_mono 33 fuel n0 need m Em Hf). cbn. eexists. split; [done|].
  destruct (Z.gtb_spec m 134217728); (destruct (Z.gtb_spec maxNewSize 0); cbn [andb]; [destruct (Z.gtb_spec (if false then 0 else m) maxNewSize)|]); repeat case_match; lia.
Qed.

(** The pairs that results hold, buffer by buffer. *)
Definition results_of (p : pebbleResults) (l : list kv) : Prop :=
  exists groups rest, pr_bufs p = entries <$> groups /\ pr_repr p = entries rest /\ concat groups ++ rest = l /\
    Forall (fun g => len (entries g) < 4294967296) groups /\ len (pr_repr p) <= pr_repr_cap p < 4294967296 /\
    pr_count p = len l /\ pr_bytes p = len (entries l).

Lemma entries_app a b : entries (a ++ b) = entries a ++ entries b.
Proof. unfold entries. by rewrite fmap_app, concat_app. Qed.

Lemma results_empty : results_of empty_results [].
Proof. exists [], []. cbn. split_and!; (done || lia || constructor). Qed.

(** Adding an entry to the last buffer. *)
Lemma add_entry p l e q : results_of p l -> len (pr_repr p) + entry_size e <= pr_repr_cap p ->
  pr_bufs q = pr_bufs p -> pr_repr q = pr_repr p ++ entry e -> pr_repr_cap q = pr_repr_cap p -> pr_count q = pr_count p + 1 -> pr_bytes q = pr_bytes p + entry_size e ->
  results_of q (l ++ [e]).
Proof.
  intros (groups & rest & H1 & H2 & H3 & H4 & H5 & H6 & H7) Hcap Q1 Q2 Q3 Q4 Q5. exists groups, (rest ++ [e]). assert (entries [e] = entry e) as Ee by apply app_nil_r.
  split_and!; [congruence|by rewrite Q2, H2, entries_app, Ee|by rewrite <- H3, <- (assoc_L (++))|done| | |rewrite Q4, H6, len_app; done|].
  - rewrite Q2, Q3, len_app, entry_len. lia.
  - rewrite Q3. lia.
  - rewrite Q5, H7, entries_app, len_app, Ee, entry_len. done.
Qed.

(** Starting a new buffer. *)
Lemma new_buffer p l q n : results_of p l -> 0 <= n < 4294967296 ->
  pr_bufs q = (if len (pr_repr p) >? 0 then pr_bufs p ++ [pr_repr p] else pr_bufs p) -> pr_repr q = [] -> pr_repr_cap q = n -> pr_count q = pr_count p -> pr_bytes q = pr_bytes p ->
  results_of q l.
Proof.
  intros (groups & rest & H1 & H2 & H3 & H4 & H5 & H6 & H7) Hn Q1 Q2 Q3 Q4 Q5. destruct (Z.gtb_spec (len (pr_repr p)) 0) as [Hpos|Hz].
  - exists (groups ++ [rest]), []. rewrite Q2, Q3, Q4, Q5. split_and!; [by rewrite Q1, fmap_app, H1, H2|done| |apply Forall_app; split; [done|]; constructor; [change (len (entries rest) < 4294967296); rewrite <- H2; lia|constructor]|change (0 <= n); lia|lia|done|done].
    rewrite concat_app, app_nil_r. cbn. by rewrite app_nil_r.
  - exists groups, []. rewrite Q2, Q3, Q4, Q5. split_and!; [congruence|done| |done|change (0 <= n); lia|lia|done|done]. rewrite <- H3. destruct rest as [|x rest]; [done|]. exfalso. rewrite H2 in Hz.
    change (entries (x :: rest)) with (entry x ++ entries rest) in Hz. rewrite len_app, entry_len in Hz. pose proof (entry_size_pos x). pose proof (len_nonneg (entries rest)). lia.
Qed.

Lemma put_spec fuel e maxNewSize p l : (33 <= fuel)%nat -> results_of p l -> kv_ok e -> maxNewSize <= 0 \/ entry_size e <= maxNewSize ->
  exists q, pebbleResults_put fuel None (EncodeMVCCKey (kv_key e)) (kv_value e) maxNewSize p = Some (inr q) /\ results_of q (l ++ [e]).
Proof.
  intros Hf Hr [Hm Hs] Hmax. pose proof (entry_size_pos e). unfold pebbleResults_put. fold (entry_size e). set (r := if _ >? pr_repr_cap p then _ else _).
  assert (exists q, r = Some (inr q) /\ results_of q l /\ len (pr_repr q) + entry_size e <= pr_repr_cap q) as (q & -> & Hq & Hcap).
  { unfold r. destruct (Z.gtb_spec (len (pr_repr p) + entry_size e) (pr_repr_cap p)) as [Hgt|Hle]; [|by exists p].
    replace ((maxNewSize >? 0) && (maxNewSize <? entry_size e)) with false by (symmetry; apply andb_false_iff; rewrite Z.gtb_ltb, !Z.ltb_ge; lia).
    assert (0 <= pr_repr_cap p) by (destruct Hr as (? & ? & _ & _ & _ & _ & ? & _); pose proof (len_nonneg (pr_repr p)); lia).
    destruct (put_newSize_spec fuel (pr_repr_cap p) (entry_size e) maxNewSize) as (n & -> & Hn); [done|done|lia|done|]. cbn [mbind option_bind].
    eexists. split; [done|]. split; [|change (len (@nil Z) + entry_size e <= n); change (len (@nil Z)) with 0; lia]. apply (new_buffer p l _ n Hr); [lia|destruct (len (pr_repr p) >? 0); reflexivity|done|done|destruct (len (pr_repr p) >? 0); reflexivity|destruct (len (pr_repr p) >? 0); reflexivity]. }
  cbn [mbind option_bind]. eexists. split; [done|]. case_match; apply (add_entry q l e); (done || reflexivity).
Qed.

(** The pairs with the bounds of the buffers. *)
Fixpoint put_all (fuel : nat) (l : list (kv * Z)) (p : pebbleResults) : option (error + pebbleResults) :=
  match l with
  | [] => Some (inr p)
  | (e, maxNewSize) :: l =>
    r ← pebbleResults_put fuel None (EncodeMVCCKey (kv_key e)) (kv_value e) maxNewSize p;
    match r with inl err => Some (inl err) | inr p => put_all fuel l p end
  end.

Lemma put_all_spec fuel l p l0 : (33 <= fuel)%nat -> Forall (fun '(e, m) => kv_ok e /\ (m <= 0 \/ entry_size e <= m)) l -> results_of p l0 ->
  exists q, put_all fuel l p = Some (inr q) /\ results_of q (l0 ++ l.*1).
Proof.
  intros Hf Hl. revert p l0. induction Hl as [|[e m] l [He Hm] _ IH]; intros p l0 Hp; [exists p; by rewrite app_nil_r|].
  destruct (put_spec fuel e m p l0 Hf Hp He Hm) as (q & Eq & Hq). cbn [put_all]. rewrite Eq. cbn [mbind option_bind]. destruct (IH q _ Hq) as (q' & E & Hq'). exists q'. split; [done|].
  cbn. by rewrite <- (assoc_L (++)) in Hq'.
Qed.


Definition example_kvs : list (kv * Z) :=
  [(mkKV (mkMVCCKey [97] (mkTimestamp 7 1)) [1; 2], 0); (mkKV (mkMVCCKey [98] (mkTimestamp 0 0)) [], 0); (mkKV (mkMVCCKey [98] (mkTimestamp 9 0)) [3; 4; 5], 64)].

