(* ===== verification/RangeKeys.v ===== *)
(** * Range keys (storage/mvcc_key.go)

    Versions of range keys with common bounds, from the newest to the oldest, with the
    searches by time that reads and rewrites of the history use. A version holds a
    timestamp and a value; that slices share their arrays is not modelled. Shown: on
    sorted versions the searches find what a scan finds, and trimming, excising and
    removing leave exactly the versions that they should, in order. *)

From S2P Require Import Prelude Hlc Encoding Keys KeysOrder EngineKeys EngineKeysSpec.

(** sort.Search: the loop on [i, j). *)
Fixpoint Search_loop (fuel : nat) (f : Z -> bool) (i j : Z) : option Z :=
  match fuel with
  | O => None
  | S fuel =>
    if i <? j then
      let h := (i + j) / 2 in
      if negb (f h) then Search_loop fuel f (h + 1) j else Search_loop fuel f i h
    else Some i
  end.

(** The loop halves the interval, so its length is fuel enough. *)
Definition sort_Search (n : Z) (f : Z -> bool) : Z := default 0 (Search_loop (S (Z.to_nat n)) f 0 n).

(** ** Range keys *)

Record MVCCRangeKey : Type := mkRangeKey { rk_StartKey : buffer; rk_EndKey : buffer; rk_Timestamp : Timestamp }.

Definition MVCCRangeKey_Compare (k o : MVCCRangeKey) : Z :=
  let c := bytes_Compare (rk_StartKey k) (rk_StartKey o) in
  if negb (c =? 0) then c
  else if Timestamp_IsEmpty (rk_Timestamp k) && negb (Timestamp_IsEmpty (rk_Timestamp o)) then -1
  else if negb (Timestamp_IsEmpty (rk_Timestamp k)) && Timestamp_IsEmpty (rk_Timestamp o) then 1
  else
    let c := Timestamp_Compare (rk_Timestamp k) (rk_Timestamp o) in
    if negb (c =? 0) then - c else bytes_Compare (rk_EndKey k) (rk_EndKey o).

Definition MVCCRangeKey_EncodedSize (k : MVCCRangeKey) : Z :=
  EncodedMVCCKeyPrefixLength (rk_StartKey k) + EncodedMVCCKeyPrefixLength (rk_EndKey k) + EncodedMVCCTimestampSuffixLength (rk_Timestamp k).

Definition MVCCRangeKey_Validate (k : MVCCRangeKey) : option error :=
  if len (rk_StartKey k) =? 0 then Some (Errorf "no start key" [])
  else if len (rk_EndKey k) =? 0 then Some (Errorf "no end key" [])
  else if Timestamp_IsEmpty (rk_Timestamp k) then Some (Errorf "no timestamp" [])
  else if bytes_Compare (rk_StartKey k) (rk_EndKey k) >=? 0 then Some (Errorf "start key %s is at or after end key %s" [])
  else None.

Definition MVCCRangeKey_Includes (k : MVCCRangeKey) (key : buffer) : bool := (bytes_Compare (rk_StartKey k) key <=? 0) && (bytes_Compare (rk_EndKey k) key >? 0).
Definition MVCCRangeKey_Overlaps (k b : MVCCRangeKey) : bool := (bytes_Compare (rk_StartKey k) (rk_EndKey b) <? 0) && (bytes_Compare (rk_EndKey k) (rk_StartKey b) >? 0).
Definition MVCCRangeKey_Deletes (k : MVCCRangeKey) (key : MVCCKey) : bool := MVCCRangeKey_Includes k (mk_Key key) && negb (Timestamp_Less (rk_Timestamp k) (mk_Timestamp key)).

(** ** Versions *)

Record MVCCRangeKeyVersion : Type := mkVersion { ve_Timestamp : Timestamp; ve_Value : buffer }.

#[global] Instance MVCCRangeKeyVersion_eq_dec : EqDecision MVCCRangeKeyVersion.
Proof. solve_decision. Defined.

Abbreviation MVCCRangeKeyVersions := (list MVCCRangeKeyVersion) (only parsing).

Definition Version_Equal (v o : MVCCRangeKeyVersion) : bool := bool_decide (ve_Timestamp v = ve_Timestamp o) && bytes_Equal (ve_Value v) (ve_Value o).

Fixpoint Versions_Equal_loop (v other : MVCCRangeKeyVersions) : bool :=
  match v, other with
  | x :: v, y :: other => if negb (Version_Equal x y) then false else Versions_Equal_loop v other
  | _, _ => true
  end.

Definition Versions_Equal (v other : MVCCRangeKeyVersions) : bool := if negb (len v =? len other) then false else Versions_Equal_loop v other.

Definition Versions_Covers (v : MVCCRangeKeyVersions) (ts : Timestamp) : bool :=
  match v with
  | [] => false
  | x :: _ => negb (Timestamp_IsEmpty ts) && Timestamp_LessEq ts (ve_Timestamp x)
  end.

(** The timestamp at an index of a search. *)
Definition time_at (v : MVCCRangeKeyVersions) (i : Z) : Timestamp := default (mkTimestamp 0 0) (ve_Timestamp <$> v !! Z.to_nat i).

(** The linear search of [Excise] and [Trim]. *)
Fixpoint first_at_or_below (v : MVCCRangeKeyVersions) (to : Timestamp) : Z :=
  match v with
  | [] => 0
  | x :: v => if Timestamp_LessEq (ve_Timestamp x) to then 0 else 1 + first_at_or_below v to
  end.

Definition Versions_Excise (v : MVCCRangeKeyVersions) (from to : Timestamp) : MVCCRangeKeyVersions * bool :=
  let start := first_at_or_below v to in
  let end_ := sort_Search (len v) (fun i => Timestamp_Less (time_at v i) from) in
  if start >=? end_ then (v, false)
  else if start =? 0 then (drop (Z.to_nat end_) v, true)
  else (take (Z.to_nat start) v ++ drop (Z.to_nat end_) v, true).

Definition Versions_FirstAtOrAbove (v : MVCCRangeKeyVersions) (ts : Timestamp) : option MVCCRangeKeyVersion :=
  if len v >? 0 then
    let i := sort_Search (len v) (fun i => Timestamp_Less (time_at v i) ts) in
    if i >? 0 then v !! Z.to_nat (i - 1) else None
  else None.

Definition Versions_FirstAtOrBelow (v : MVCCRangeKeyVersions) (ts : Timestamp) : option MVCCRangeKeyVersion :=
  if len v >? 0 then
    let i := sort_Search (len v) (fun i => Timestamp_LessEq (time_at v i) ts) in
    if i <? len v then v !! Z.to_nat i else None
  else None.

Definition Versions_HasBetween (v : MVCCRangeKeyVersions) (lower upper : Timestamp) : bool :=
  match Versions_FirstAtOrAbove v lower with
  | Some version => Timestamp_LessEq (ve_Timestamp version) upper
  | None => false
  end.

Definition Versions_Newest (v : MVCCRangeKeyVersions) : Timestamp := match v with [] => mkTimestamp 0 0 | x :: _ => ve_Timestamp x end.
Definition Versions_Oldest (v : MVCCRangeKeyVersions) : Timestamp := match last v with None => mkTimestamp 0 0 | Some x => ve_Timestamp x end.
Definition Versions_Timestamps (v : MVCCRangeKeyVersions) : list Timestamp := ve_Timestamp <$> v.

Definition Versions_Remove (v : MVCCRangeKeyVersions) (ts : Timestamp) : MVCCRangeKeyVersions * option MVCCRangeKeyVersion :=
  match v with
  | [] => (v, None)
  | x :: v' =>
    if bool_decide (ve_Timestamp x = ts) then (v', Some x)
    else
      let i := sort_Search (len v) (fun i => Timestamp_LessEq (time_at v i) ts) in
      if (i <? len v) && bool_decide (time_at v i = ts) then (take (Z.to_nat i) v ++ drop (Z.to_nat (i + 1)) v, v !! Z.to_nat i)
      else (v, None)
  end.

Definition Versions_Trim (v : MVCCRangeKeyVersions) (from to : Timestamp) : MVCCRangeKeyVersions * bool :=
  let start := first_at_or_below v to in
  let v := drop (Z.to_nat start) v in
  let removed := start >? 0 in
  let end_ := sort_Search (len v) (fun i => Timestamp_Less (time_at v i) from) in
  if end_ <? len v then (take (Z.to_nat end_) v, true) else (v, removed).

(** ** Stacks *)

Record MVCCRangeKeyStack : Type := mkStack { st_Key : buffer; st_EndKey : buffer; st_Versions : MVCCRangeKeyVersions }.

Definition Stack_AsRangeKey (s : MVCCRangeKeyStack) (v : MVCCRangeKeyVersion) : MVCCRangeKey := mkRangeKey (st_Key s) (st_EndKey s) (ve_Timestamp v).
Definition Stack_AsRangeKeys (s : MVCCRangeKeyStack) : list MVCCRangeKey := Stack_AsRangeKey s <$> st_Versions s.

Definition Stack_CanMergeRight (s r : MVCCRangeKeyStack) : bool :=
  if (len (st_Versions s) =? 0) || negb (len (st_Versions s) =? len (st_Versions r)) || negb (bytes_Equal (st_EndKey s) (st_Key r)) then false
  else Versions_Equal_loop (st_Versions s) (st_Versions r).

(** [Bounds.ContainsKey] *)
Definition Stack_Covers (s : MVCCRangeKeyStack) (k : MVCCKey) : bool :=
  Versions_Covers (st_Versions s) (mk_Timestamp k) && ((bytes_Compare (mk_Key k) (st_Key s) >=? 0) && (bytes_Compare (mk_Key k) (st_EndKey s) <? 0)).

(** ** Binary search *)

(** The index [n] splits [0, m) into the indexes with and without [f]. *)
Definition splits_at (f : Z -> bool) (m n : Z) : Prop := 0 <= n <= m /\ (forall i, 0 <= i < n -> f i = false) /\ (forall i, n <= i < m -> f i = true).

Lemma Search_loop_spec fuel f m n i j : splits_at f m n -> 0 <= i <= n -> n <= j <= m -> (Z.to_nat (j - i) < fuel)%nat -> Search_loop fuel f i j = Some n.
Proof.
  intros Hs. revert i j. induction fuel as [|fuel IH]; intros i j Hi Hj Hf; [lia|]. cbn. destruct (Z.ltb_spec i j) as [Hlt|Hge]; [|f_equal; lia].
  set (h := (i + j) / 2). assert (i <= h < j) as Hh by (unfold h; pose proof (Z.div_mod (i + j) 2); pose proof (Z.mod_pos_bound (i + j) 2); lia). destruct Hs as (Hn & Hfalse & Htrue).
  destruct (f h) eqn:Eh; cbn [negb].
  - apply IH; [lia| |lia]. destruct (decide (h < n)); [|lia]. rewrite Hfalse in Eh by lia. done.
  - apply IH; [|lia|lia]. destruct (decide (n <= h)); [|lia]. rewrite Htrue in Eh by lia. done.
Qed.

Lemma sort_Search_spec f m n : splits_at f m n -> sort_Search m f = n.
Proof. intros Hs. pose proof Hs as [Hn _]. unfold sort_Search. rewrite (Search_loop_spec _ f m n 0 m Hs); (done || lia). Qed.

(** ** Sorted versions *)

(** From the newest to the oldest. *)
Definition versions_sorted (v : MVCCRangeKeyVersions) : Prop := StronglySorted (fun x y => ts_lt (ve_Timestamp y) (ve_Timestamp x)) v.

Section search.
Context (P : Timestamp -> bool).
Hypothesis P_down : forall t u, ts_lt u t -> P t = true -> P u = true.

(** The versions without and with the property, which older ones have. *)
Lemma versions_split v : versions_sorted v -> exists a b, v = a ++ b /\ Forall (fun x => P (ve_Timestamp x) = false) a /\ Forall (fun x => P (ve_Timestamp x) = true) b.
Proof.
  induction 1 as [|x v Hs IH Hx]; [by exists [], []|]. destruct IH as (a & b & -> & Ha & Hb). destruct (P (ve_Timestamp x)) eqn:E; [|exists (x :: a), b; split_and!; [done|by constructor|done]].
  exists [], (x :: a ++ b). split_and!; [done|constructor|]. constructor; [done|]. eapply Forall_impl; [exact Hx|]. intros y Hy. by apply (P_down (ve_Timestamp x)).
Qed.

Lemma time_at_lookup v i x : v !! i = Some x -> time_at v (Z.of_nat i) = ve_Timestamp x.
Proof. intros E. unfold time_at. by rewrite Nat2Z.id, E. Qed.

Lemma search_split a b : Forall (fun x => P (ve_Timestamp x) = false) a -> Forall (fun x => P (ve_Timestamp x) = true) b ->
  sort_Search (len (a ++ b)) (fun i => P (time_at (a ++ b) i)) = len a.
Proof.
  intros Ha Hb. apply sort_Search_spec. pose proof (len_nonneg a). pose proof (len_nonneg b). split; [rewrite len_app; lia|]. rewrite Forall_forall in Ha, Hb. split; intros i Hi.
  - destruct (lookup_lt_is_Some_2 a (Z.to_nat i)) as [x Hx]; [unfold len in Hi; lia|]. rewrite <- (Z2Nat.id i) by lia. rewrite (time_at_lookup _ _ x) by (by apply lookup_app_l_Some). apply Ha. by apply list_elem_of_lookup_2 in Hx.
  - rewrite len_app in Hi. destruct (lookup_lt_is_Some_2 b (Z.to_nat i - length a)) as [x Hx]; [unfold len in Hi; lia|]. rewrite <- (Z2Nat.id i) by lia.
    rewrite (time_at_lookup _ _ x) by (rewrite lookup_app_r by (unfold len in Hi; lia); done). apply Hb. by apply list_elem_of_lookup_2 in Hx.
Qed.

End search.

Lemma Less_down from t u : ts_lt u t -> Timestamp_Less t from = true -> Timestamp_Less u from = true.
Proof. rewrite !Timestamp_Less_spec. unfold ts_lt, ts_le. lia. Qed.

Lemma LessEq_down to t u : ts_lt u t -> Timestamp_LessEq t to = true -> Timestamp_LessEq u to = true.
Proof. rewrite !Timestamp_LessEq_spec. unfold ts_lt, ts_le. lia. Qed.

(** The times at which a binary search splits sorted versions. *)
Lemma split_below v from : versions_sorted v -> exists a b, v = a ++ b /\ Forall (fun x => ts_le from (ve_Timestamp x)) a /\ Forall (fun x => ~ ts_le from (ve_Timestamp x)) b /\
  sort_Search (len v) (fun i => Timestamp_Less (time_at v i) from) = len a.
Proof.
  intros Hv. destruct (versions_split (fun t => Timestamp_Less t from) (Less_down from) v Hv) as (a & b & -> & Ha & Hb). exists a, b. split_and!; [done| | |by apply (search_split (fun t => Timestamp_Less t from))].
  - eapply Forall_impl; [exact Ha|]. intros x. apply Timestamp_Less_false.
  - eapply Forall_impl; [exact Hb|]. intros x. apply Timestamp_Less_spec.
Qed.

Lemma split_at_or_below v to : versions_sorted v -> exists a b, v = a ++ b /\ Forall (fun x => ~ ts_le (ve_Timestamp x) to) a /\ Forall (fun x => ts_le (ve_Timestamp x) to) b /\
  sort_Search (len v) (fun i => Timestamp_LessEq (time_at v i) to) = len a /\ first_at_or_below v to = len a.
Proof.
  intros Hv. destruct (versions_split (fun t => Timestamp_LessEq t to) (LessEq_down to) v Hv) as (a & b & -> & Ha & Hb). exists a, b. split_and!; [done| | |by apply (search_split (fun t => Timestamp_LessEq t to))|].
  - eapply Forall_impl; [exact Ha|]. intros x. cbn. rewrite <- Timestamp_LessEq_spec. by intros ->.
  - eapply Forall_impl; [exact Hb|]. intros x. apply Timestamp_LessEq_spec.
  - clear Hv. induction Ha as [|x a Hx _ IH]; cbn; [|rewrite Hx, IH, len_cons; done]. destruct Hb as [|x b Hx _]; cbn; [done|by rewrite Hx].
Qed.

Lemma filter_other {A} (P : A -> Prop) `{forall x, Decision (P x)} l : length (filter P l) = length l <-> filter P l = l.
Proof.
  split; [|by intros ->]. induction l as [|x l IH]; [done|]. destruct (decide (P x)); [rewrite filter_cons_True by done; cbn; intros; f_equal; apply IH; lia|].
  rewrite filter_cons_False by done. cbn. intros E. pose proof (length_filter P l). lia.
Qed.

Lemma sorted_app_inv (a b : list MVCCRangeKeyVersion) : versions_sorted (a ++ b) -> versions_sorted b /\ versions_sorted a /\ forall x y, x ∈ a -> y ∈ b -> ts_lt (ve_Timestamp y) (ve_Timestamp x).
Proof.
  induction a as [|x a IH]; intros Hs; [split; [done|]; split; [constructor|]; by intros x y ?%elem_of_nil|]. apply StronglySorted_inv in Hs as [Hs Hx]. destruct (IH Hs) as (H1 & H2 & H3). apply Forall_app in Hx as [Hxa Hxb].
  split_and!; [done|by constructor|]. intros z y [->|Hz]%elem_of_cons Hy; [by apply (proj1 (Forall_forall _ _) Hxb)|by apply H3].
Qed.

(** The versions in a time span, both ends included. *)
Definition in_time (from to : Timestamp) (x : MVCCRangeKeyVersion) : Prop := ts_le from (ve_Timestamp x) /\ ts_le (ve_Timestamp x) to.
#[global] Instance in_time_dec from to x : Decision (in_time from to x).
Proof. unfold in_time. apply _. Defined.

Lemma Trim_spec v from to : versions_sorted v -> Versions_Trim v from to = (filter (in_time from to) v, bool_decide (filter (in_time from to) v <> v)).
Proof.
  intros Hv. destruct (split_at_or_below v to Hv) as (a & b & Ev & Ha & Hb & _ & Ef). unfold Versions_Trim. rewrite Ef. rewrite Ev in Hv |- *. pose proof (len_nonneg a).
  replace (Z.to_nat (len a)) with (length a) by (unfold len; lia). rewrite drop_app_length. destruct (sorted_app_inv a b Hv) as (Hsb & _). destruct (split_below b from Hsb) as (c & d & Eb & Hc & Hd & Es). rewrite Es.
  assert (filter (in_time from to) (a ++ b) = c) as Efil.
  { rewrite Eb, !filter_app, (filter_none _ a), (filter_none _ d), app_nil_r; [|eapply Forall_impl; [exact Hd|]; intros x Hx [? _]; done|eapply Forall_impl; [exact Ha|]; intros x Hx [_ ?]; done].
    apply filter_all. rewrite Eb in Hb. apply Forall_app in Hb as [Hb _]. rewrite Forall_forall in *. intros x Hx. split; [by apply Hc|by apply Hb]. }
  rewrite Efil. assert (b <> c -> len c < len b) as Hlen by (intros N; rewrite Eb, len_app; destruct d as [|x d]; [by rewrite app_nil_r in Eb|]; rewrite len_cons; pose proof (len_nonneg d); lia).
  destruct (Z.ltb_spec (len c) (len b)) as [Hlt|Hge].
  - replace (Z.to_nat (len c)) with (length c) by (unfold len; lia). rewrite Eb, take_app_length. f_equal. symmetry. apply bool_decide_eq_true. intros E. apply (f_equal len) in E. rewrite Eb in Hlt. rewrite !len_app in *. lia.
  - assert (b = c) as -> by (destruct (decide (b = c)); [done|]; specialize (Hlen n); lia). f_equal. destruct a as [|x a]; [symmetry; apply bool_decide_eq_false; tauto|]. rewrite len_cons. pose proof (len_nonneg a).
    destruct (Z.gtb_spec (1 + len a) 0); [|lia]. symmetry. apply bool_decide_eq_true. intros E. apply (f_equal len) in E. rewrite len_app, len_cons in E. lia.
Qed.

Lemma Excise_spec v from to : versions_sorted v ->
  Versions_Excise v from to = (filter (fun x => ~ in_time from to x) v, bool_decide (filter (fun x => ~ in_time from to x) v <> v)).
Proof.
  intros Hv. destruct (split_at_or_below v to Hv) as (a & b & Ev & Ha & Hb & _ & Ef), (split_below v from Hv) as (c & d & Ev' & Hc & Hd & Es). unfold Versions_Excise. rewrite Ef, Es. rewrite Z.geb_leb.
  assert (forall l, Forall (fun x => ~ in_time from to x) l -> filter (fun x => ~ in_time from to x) l = l) as Hall by (intros l Hl; by apply filter_all).
  assert (Forall (fun x => ~ in_time from to x) a) as Na by (eapply Forall_impl; [exact Ha|]; intros x Hx [_ ?]; done).
  assert (Forall (fun x => ~ in_time from to x) d) as Nd by (eapply Forall_impl; [exact Hd|]; intros x Hx [? _]; done).
  destruct (Z.leb_spec (len c) (len a)) as [Hle|Hlt].
  - assert (Forall (fun x => ~ in_time from to x) v) as Nv.
    { assert (b `suffix_of` d) as [m Em]; [|rewrite Ev; apply Forall_app; split; [done|]; rewrite Em in Nd; by apply Forall_app in Nd as [_ ?]].
      exists (drop (length c) a). assert (drop (length c) (a ++ b) = d) as <- by (rewrite <- Ev, Ev'; apply drop_app_length). rewrite drop_app_le; [done|]. unfold len in Hle. lia. }
    rewrite Hall by done. f_equal. symmetry. apply bool_decide_eq_false. tauto.
  - assert (exists m, c = a ++ m /\ b = m ++ d /\ m <> []) as (m & Ec & Eb & Nm).
    { exists (drop (length a) c). assert (take (length a) c = a) as Et by (rewrite <- (take_app_le c d) by (unfold len in Hlt; lia); rewrite <- Ev', Ev; apply take_app_length). split_and!.
      - by rewrite <- Et at 1; rewrite take_drop.
      - assert (drop (length a) (c ++ d) = b) as <- by (rewrite <- Ev', Ev; apply drop_app_length). apply drop_app_le. unfold len in Hlt. lia.
      - intros E. apply (f_equal length) in E. rewrite length_drop in E. cbn in E. unfold len in Hlt. lia. }
    assert (filter (fun x => ~ in_time from to x) v = a ++ d) as Efil.
    { rewrite Ev, Eb, !filter_app, (Hall a), (Hall d) by done. rewrite (filter_none _ m); [done|]. rewrite Ec in Hc. rewrite Eb in Hb. apply Forall_app in Hc as [_ Hc], Hb as [Hb _]. rewrite Forall_forall in *.
      intros x Hx Hn. apply Hn. split; [by apply Hc|by apply Hb]. }
    assert (bool_decide (a ++ d <> v) = true) as Hch by (apply bool_decide_eq_true; intros E; apply (f_equal length) in E; rewrite Ev, Eb, !length_app in E; destruct m; [done|]; cbn in E; lia).
    rewrite Efil, Hch. replace (Z.to_nat (len c)) with (length c) by (unfold len; lia). assert (drop (length c) v = d) as -> by (rewrite Ev'; apply drop_app_length).
    destruct (Z.eqb_spec (len a) 0) as [E0|N0]; [destruct a; [done|rewrite len_cons in E0; pose proof (len_nonneg a); lia]|]. replace (Z.to_nat (len a)) with (length a) by (unfold len; lia). rewrite Ev. by rewrite take_app_length.
Qed.

Lemma FirstAtOrAbove_spec v ts : versions_sorted v -> Versions_FirstAtOrAbove v ts = last (filter (fun x => ts_le ts (ve_Timestamp x)) v).
Proof.
  intros Hv. destruct (split_below v ts Hv) as (a & b & Ev & Ha & Hb & Es). unfold Versions_FirstAtOrAbove. rewrite Es. rewrite Ev at 3. rewrite filter_app, (filter_all _ a), (filter_none _ b), app_nil_r by done.
  pose proof (len_nonneg v). destruct (Z.gtb_spec (len v) 0) as [_|?].
  - destruct (Z.gtb_spec (len a) 0) as [Hpos|?]; [|destruct a; [done|rewrite len_cons in *; pose proof (len_nonneg a); lia]]. rewrite Ev, last_lookup. replace (Z.to_nat (len a - 1)) with (pred (length a)) by (unfold len; lia).
    apply lookup_app_l. unfold len in Hpos. lia.
  - assert (v = []) as Env by (destruct v; [done|rewrite len_cons in *; pose proof (len_nonneg v); lia]). rewrite Env in Ev. symmetry in Ev. by apply app_eq_nil in Ev as [-> _].
Qed.

Lemma FirstAtOrBelow_spec v ts : versions_sorted v -> Versions_FirstAtOrBelow v ts = head (filter (fun x => ts_le (ve_Timestamp x) ts) v).
Proof.
  intros Hv. destruct (split_at_or_below v ts Hv) as (a & b & Ev & Ha & Hb & Es & _). unfold Versions_FirstAtOrBelow. rewrite Es. rewrite Ev at 4. rewrite filter_app, (filter_none _ a), (filter_all _ b) by done. cbn [app].
  pose proof (len_nonneg v). destruct (Z.gtb_spec (len v) 0) as [_|?].
  - destruct (Z.ltb_spec (len a) (len v)) as [Hlt|Hge].
    + rewrite Ev, lookup_app_r by (unfold len; lia). replace (Z.to_nat (len a) - length a)%nat with O by (unfold len; lia). by destruct b.
    + rewrite Ev, len_app in Hge. destruct b; [done|rewrite len_cons in Hge; pose proof (len_nonneg b); lia].
  - assert (v = []) as Env by (destruct v; [done|rewrite len_cons in *; pose proof (len_nonneg v); lia]). rewrite Env in Ev. symmetry in Ev. by apply app_eq_nil in Ev as [_ ->].
Qed.

Lemma HasBetween_spec v lower upper : versions_sorted v -> Versions_HasBetween v lower upper = true <-> exists x, x ∈ v /\ in_time lower upper x.
Proof.
  intros Hv. unfold Versions_HasBetween. rewrite FirstAtOrAbove_spec by done. destruct (split_below v lower Hv) as (a & b & -> & Ha & Hb & _). rewrite filter_app, (filter_all _ a), (filter_none _ b), app_nil_r by done.
  rewrite Forall_forall in Ha, Hb. destruct (last a) as [x|] eqn:El.
  - apply last_Some in El as [a' ->]. rewrite Timestamp_LessEq_spec. split; [intros Hx; exists x; split; [set_solver|]; split; [apply Ha; set_solver|done]|].
    intros (y & [Hy|Hy]%elem_of_app & Hlo & Hup); [|by apply Hb in Hy]. apply elem_of_app in Hy as [Hy|Hy]; [|by apply list_elem_of_singleton in Hy as ->].
    destruct (sorted_app_inv _ _ Hv) as (_ & Hsa & _). destruct (sorted_app_inv a' [x] Hsa) as (_ & _ & Hlt). specialize (Hlt y x Hy (list_elem_of_here _ _)). unfold ts_lt, ts_le in *. lia.
  - apply last_None in El as ->. split; [done|]. intros (y & Hy & Hlo & _). by apply Hb in Hy.
Qed.

Lemma Remove_spec v ts : versions_sorted v ->
  Versions_Remove v ts = (filter (fun x => ve_Timestamp x <> ts) v, head (filter (fun x => ve_Timestamp x = ts) v)).
Proof.
  intros Hv. destruct v as [|x v]; [done|]. unfold Versions_Remove. pose proof (proj2 (StronglySorted_inv Hv)) as Hx. case_bool_decide as E.
  - rewrite filter_cons_False, (filter_cons_True (fun x => ve_Timestamp x = ts)) by (cbn; tauto). cbn [head]. f_equal. symmetry. apply filter_all. eapply Forall_impl; [exact Hx|]. intros y Hy Ey. rewrite E, Ey in Hy. by apply Hy.
  - set (w := x :: v) in *. destruct (split_at_or_below w ts Hv) as (a & b & Ev & Ha & Hb & -> & _).
    assert (Forall (fun x => ve_Timestamp x <> ts) a) as Na by (eapply Forall_impl; [exact Ha|]; intros y Hy Ey; apply Hy; by rewrite Ey).
    assert (forall (l : list MVCCRangeKeyVersion), Forall (fun x => ve_Timestamp x <> ts) l -> filter (fun x => ve_Timestamp x <> ts) l = l /\ filter (fun x => ve_Timestamp x = ts) l = []) as Hne by (intros l Hl; split; [by apply filter_all|by apply filter_none]).
    rewrite Ev in Hv |- *. destruct (Hne a Na) as [A1 A2]. rewrite !filter_app, A1, A2. cbn [app]. destruct (sorted_app_inv a b Hv) as (Hsb & _). destruct b as [|y b].
    + rewrite !app_nil_r. rewrite Z.ltb_irrefl. done.
    + rewrite len_app, len_cons. pose proof (len_nonneg b). destruct (Z.ltb_spec (len a) (len a + (1 + len b))); [|lia]. cbn [andb].
      assert (time_at (a ++ y :: b) (len a) = ve_Timestamp y) as -> by (apply (time_at_lookup _ (length a)); by rewrite lookup_app_r, Nat.sub_diag by lia).
      apply StronglySorted_inv in Hsb as [_ Hyb]. apply Forall_cons in Hb as [Hy _]. cbn in Hy.
      assert (Forall (fun x => ve_Timestamp x <> ts) b) as Nb by (eapply Forall_impl; [exact Hyb|]; intros z Hz Ez; cbn in Hz; rewrite Ez in Hz; by apply Hz). destruct (Hne b Nb) as [B1 B2].
      case_bool_decide as Et.
      * rewrite filter_cons_False, (filter_cons_True (fun x => ve_Timestamp x = ts)), B1 by (cbn; tauto). cbn [head]. f_equal.
        -- replace (Z.to_nat (len a)) with (length a) by (unfold len; lia). replace (Z.to_nat (len a + 1)) with (length a + 1)%nat by (unfold len; lia). rewrite take_app_length, drop_app_add'. done. done.
        -- replace (Z.to_nat (len a)) with (length a) by (unfold len; lia). by rewrite lookup_app_r, Nat.sub_diag by lia.
      * rewrite filter_cons_True, (filter_cons_False (fun x => ve_Timestamp x = ts)), B1, B2 by (cbn; tauto). done.
Qed.

Lemma Covers_spec v ts : versions_sorted v -> Versions_Covers v ts = true <-> ts <> mkTimestamp 0 0 /\ exists x, x ∈ v /\ ts_le ts (ve_Timestamp x).
Proof.
  intros Hv. destruct v as [|x v]; [split; [done|]; by intros [_ (? & ?%elem_of_nil & _)]|]. cbn. unfold Timestamp_IsEmpty. rewrite andb_true_iff, negb_true_iff, bool_decide_eq_false, Timestamp_LessEq_spec.
  split; intros [H1 H2]; (split; [done|]); [exists x; split; [apply list_elem_of_here|done]|]. destruct H2 as (y & [->|Hy]%elem_of_cons & Hle); [done|].
  apply StronglySorted_inv in Hv as [_ Hx]. apply (proj1 (Forall_forall _ _) Hx) in Hy. unfold ts_lt, ts_le in *. lia.
Qed.

Lemma versions_sorted_filter (P : MVCCRangeKeyVersion -> Prop) `{forall x, Decision (P x)} v : versions_sorted v -> versions_sorted (filter P v).
Proof.
  induction 1 as [|x v Hs IH Hx]; [constructor|]. destruct (decide (P x)); [rewrite filter_cons_True by done|by rewrite filter_cons_False]. constructor; [done|].
  rewrite Forall_forall in *. intros y [_ Hy]%list_elem_of_filter. by apply Hx.
Qed.

(** On versions from the newest to the oldest, the binary searches agree with scans:
    the oldest version at or above a time and the newest at or below it are found, a
    version in a time span is found if there is one, and trimming to a span, excising a
    span and removing a time keep exactly the right versions, still in order, and say
    whether anything changed. *)
Theorem range_key_versions v from to ts : versions_sorted v ->
  (Versions_Trim v from to = (filter (in_time from to) v, bool_decide (filter (in_time from to) v <> v)) /\
   Versions_Excise v from to = (filter (fun x => ~ in_time from to x) v, bool_decide (filter (fun x => ~ in_time from to x) v <> v)) /\
   Versions_Remove v ts = (filter (fun x => ve_Timestamp x <> ts) v, head (filter (fun x => ve_Timestamp x = ts) v))) /\
  (Versions_FirstAtOrAbove v ts = last (filter (fun x => ts_le ts (ve_Timestamp x)) v) /\
   Versions_FirstAtOrBelow v ts = head (filter (fun x => ts_le (ve_Timestamp x) ts) v) /\
   (Versions_HasBetween v from to = true <-> exists x, x ∈ v /\ in_time from to x) /\
   (Versions_Covers v ts = true <-> ts <> mkTimestamp 0 0 /\ exists x, x ∈ v /\ ts_le ts (ve_Timestamp x))) /\
  (versions_sorted (fst (Versions_Trim v from to)) /\ versions_sorted (fst (Versions_Excise v from to)) /\ versions_sorted (fst (Versions_Remove v ts))).
Proof.
  intros Hv. rewrite Trim_spec, Excise_spec, Remove_spec by done. split_and!; try done.
  - by apply FirstAtOrAbove_spec.
  - by apply FirstAtOrBelow_spec.
  - by apply HasBetween_spec.
  - by apply Covers_spec.
  - by apply versions_sorted_filter.
  - by apply versions_sorted_filter.
  - by apply versions_sorted_filter.
Qed.

Definition example_versions : list MVCCRangeKeyVersion := (fun w => mkVersion (mkTimestamp w 0) []) <$> [9; 7; 5; 3].

Lemma range_key_versions_witness : Versions_Excise example_versions (mkTimestamp 4 0) (mkTimestamp 7 0) = ((fun w => mkVersion (mkTimestamp w 0) []) <$> [9; 3], true) /\
  Versions_FirstAtOrAbove example_versions (mkTimestamp 6 0) = Some (mkVersion (mkTimestamp 7 0) []).
Proof.
  destruct (range_key_versions example_versions (mkTimestamp 4 0) (mkTimestamp 7 0) (mkTimestamp 6 0)) as ((_ & H1 & _) & (H2 & _) & _).
  - unfold versions_sorted, example_versions, ts_lt, ts_le. cbn. repeat constructor; cbn; lia.
  - split; [rewrite H1; by vm_compute|rewrite H2; by vm_compute].
Defined.
