(* ===== verification/Requests.v ===== *)
(** * Requests and responses (kv/kvpb/api.go, batch.go)

    The requests of a batch with their flags, which say how each of them treats the
    timestamp cache, and the keys that a response returned. Requests and responses have
    the fields that the flags and ReplicaTsCache read. Shown: the flags satisfy the
    dependencies and exclusions that api.go declares. *)

From S2P Require Import Prelude Hlc Encoding EncodingOrder ReadSummary EngineKeys.

(** ** Data *)

Inductive Durability : Set := Unreplicated | Replicated.
Inductive WaitPolicy : Set := Block | WaitError | SkipLocked.
Inductive ReadConsistencyType : Set := CONSISTENT | READ_UNCOMMITTED | INCONSISTENT.
Inductive ScanFormat : Set := KEY_VALUES | BATCH_RESPONSE | COL_BATCH_RESPONSE.
Inductive TransactionStatus : Set := PENDING | STAGING | COMMITTED | ABORTED.

#[global] Instance Durability_eq_dec : EqDecision Durability.
Proof. solve_decision. Defined.
#[global] Instance WaitPolicy_eq_dec : EqDecision WaitPolicy.
Proof. solve_decision. Defined.
#[global] Instance ReadConsistencyType_eq_dec : EqDecision ReadConsistencyType.
Proof. solve_decision. Defined.
#[global] Instance ScanFormat_eq_dec : EqDecision ScanFormat.
Proof. solve_decision. Defined.
#[global] Instance TransactionStatus_eq_dec : EqDecision TransactionStatus.
Proof. solve_decision. Defined.

Definition TransactionStatus_IsFinalized (ts : TransactionStatus) : bool := bool_decide (ts = COMMITTED) || bool_decide (ts = ABORTED).

Record Span : Type := mkKeySpan { Span_Key : buffer; Span_EndKey : buffer }.

(** The embedded TxnMeta is part of the transaction. *)
Record Transaction : Type := mkTransaction {
  txn_ID : UUID;
  txn_Key : buffer;
  txn_WriteTimestamp : Timestamp;
  txn_MinTimestamp : Timestamp;
  txn_Status : TransactionStatus
}.

#[global] Instance eta_Transaction : Eta Transaction := fun t =>
  mkTransaction (txn_ID t) (txn_Key t) (txn_WriteTimestamp t) (txn_MinTimestamp t) (txn_Status t).

Abbreviation RequestHeader := Span (only parsing).

Inductive Request : Type :=
| GetRequest (h : RequestHeader) (KeyLockingStrength : Strength) (KeyLockingDurability : Durability)
| PutRequest (h : RequestHeader)
| ConditionalPutRequest (h : RequestHeader)
| InitPutRequest (h : RequestHeader)
| IncrementRequest (h : RequestHeader)
| DeleteRequest (h : RequestHeader)
| DeleteRangeRequest (h : RequestHeader) (ReturnKeys Inline UseRangeTombstone : bool)
| ClearRangeRequest (h : RequestHeader)
| RevertRangeRequest (h : RequestHeader)
| ScanRequest (h : RequestHeader) (KeyLockingStrength : Strength) (KeyLockingDurability : Durability) (fmt : ScanFormat)
| ReverseScanRequest (h : RequestHeader) (KeyLockingStrength : Strength) (KeyLockingDurability : Durability) (fmt : ScanFormat)
| EndTxnRequest (h : RequestHeader)
| AdminSplitRequest (h : RequestHeader)
| AdminUnsplitRequest (h : RequestHeader)
| AdminMergeRequest (h : RequestHeader)
| AdminTransferLeaseRequest (h : RequestHeader)
| AdminChangeReplicasRequest (h : RequestHeader)
| AdminRelocateRangeRequest (h : RequestHeader)
| GCRequest (h : RequestHeader) (hasClearRange : bool)
| HeartbeatTxnRequest (h : RequestHeader)
| PushTxnRequest (h : RequestHeader) (PusherTxn : Transaction)
| RecoverTxnRequest (h : RequestHeader)
| QueryTxnRequest (h : RequestHeader)
| QueryIntentRequest (h : RequestHeader) (Txn : Transaction) (Strength_ : Strength)
| QueryLocksRequest (h : RequestHeader)
| ResolveIntentRequest (h : RequestHeader)
| ResolveIntentRangeRequest (h : RequestHeader)
| TruncateLogRequest (h : RequestHeader)
| MergeRequest (h : RequestHeader)
| RequestLeaseRequest (h : RequestHeader)
| LeaseInfoRequest (h : RequestHeader)
| TransferLeaseRequest (h : RequestHeader)
| ProbeRequest (h : RequestHeader)
| RecomputeStatsRequest (h : RequestHeader)
| ComputeChecksumRequest (h : RequestHeader)
| CheckConsistencyRequest (h : RequestHeader)
| ExportRequest (h : RequestHeader)
| AdminScatterRequest (h : RequestHeader)
| AdminVerifyProtectedTimestampRequest (h : RequestHeader)
| AddSSTableRequest (h : RequestHeader) (SSTTimestampToRequestTimestamp : Timestamp)
| LinkExternalSSTableRequest (h : RequestHeader) (UseSyntheticSuffix : bool)
| MigrateRequest (h : RequestHeader)
| RefreshRequest (h : RequestHeader)
| RefreshRangeRequest (h : RequestHeader)
| SubsumeRequest (h : RequestHeader)
| RangeStatsRequest (h : RequestHeader)
| QueryResolvedTimestampRequest (h : RequestHeader)
| BarrierRequest (h : RequestHeader) (WithLeaseAppliedIndex : bool)
| IsSpanEmptyRequest (h : RequestHeader).

Definition Header (req : Request) : RequestHeader :=
  match req with
  | GetRequest h _ _ | PutRequest h | ConditionalPutRequest h | InitPutRequest h | IncrementRequest h | DeleteRequest h
  | DeleteRangeRequest h _ _ _ | ClearRangeRequest h | RevertRangeRequest h | ScanRequest h _ _ _ | ReverseScanRequest h _ _ _ | EndTxnRequest h
  | AdminSplitRequest h | AdminUnsplitRequest h | AdminMergeRequest h | AdminTransferLeaseRequest h | AdminChangeReplicasRequest h
  | AdminRelocateRangeRequest h | GCRequest h _ | HeartbeatTxnRequest h | PushTxnRequest h _ | RecoverTxnRequest h | QueryTxnRequest h
  | QueryIntentRequest h _ _ | QueryLocksRequest h | ResolveIntentRequest h | ResolveIntentRangeRequest h | TruncateLogRequest h
  | MergeRequest h | RequestLeaseRequest h | LeaseInfoRequest h | TransferLeaseRequest h | ProbeRequest h | RecomputeStatsRequest h
  | ComputeChecksumRequest h | CheckConsistencyRequest h | ExportRequest h | AdminScatterRequest h | AdminVerifyProtectedTimestampRequest h
  | AddSSTableRequest h _ | LinkExternalSSTableRequest h _ | MigrateRequest h | RefreshRequest h | RefreshRangeRequest h | SubsumeRequest h
  | RangeStatsRequest h | QueryResolvedTimestampRequest h | BarrierRequest h _ | IsSpanEmptyRequest h => h
  end.

(** ** Flags *)

Abbreviation flag := Z (only parsing).
Definition isAdmin : flag := Z.shiftl 1 0.
Definition isRead : flag := Z.shiftl 1 1.
Definition isWrite : flag := Z.shiftl 1 2.
Definition isTxn : flag := Z.shiftl 1 3.
Definition isLocking : flag := Z.shiftl 1 4.
Definition isIntentWrite : flag := Z.shiftl 1 5.
Definition isRange : flag := Z.shiftl 1 6.
Definition isReverse : flag := Z.shiftl 1 7.
Definition isAlone : flag := Z.shiftl 1 8.
Definition isPrefix : flag := Z.shiftl 1 9.
Definition isUnsplittable : flag := Z.shiftl 1 10.
Definition skipsLeaseCheck : flag := Z.shiftl 1 11.
Definition appliesTSCache : flag := Z.shiftl 1 12.
Definition updatesTSCache : flag := Z.shiftl 1 13.
Definition updatesTSCacheOnErr : flag := Z.shiftl 1 14.
Definition needsRefresh : flag := Z.shiftl 1 15.
Definition canBackpressure : flag := Z.shiftl 1 16.
Definition canSkipLocked : flag := Z.shiftl 1 17.
Definition bypassesReplicaCircuitBreaker : flag := Z.shiftl 1 18.
Definition requiresClosedTSOlderThanStorageSnapshot : flag := Z.shiftl 1 19.
Definition canPipeline : flag := Z.shiftl 1 20.
Definition canParallelCommit : flag := Z.shiftl 1 21.

Definition flagDependencies : list (flag * list flag) :=
  [(isAdmin, [isAlone]); (isLocking, [isTxn]); (isIntentWrite, [isWrite; isLocking]); (canPipeline, [isLocking]);
   (canParallelCommit, [canPipeline; isIntentWrite]); (appliesTSCache, [isWrite]); (skipsLeaseCheck, [isAlone])].

Definition flagExclusions : list (flag * list flag) := [(skipsLeaseCheck, [isIntentWrite])].

Infix "|||" := Z.lor (at level 50, left associativity).

Definition flagForLockStrength (l : Strength) : flag := if bool_decide (l <> None_) then isLocking else 0.
Definition flagForLockDurability (d : Durability) : flag := if bool_decide (d = Replicated) then isWrite ||| canPipeline else 0.

Definition flags (req : Request) : flag :=
  match req with
  | GetRequest _ s d => isRead ||| flagForLockDurability d ||| isTxn ||| flagForLockStrength s ||| updatesTSCache ||| needsRefresh ||| canSkipLocked
  | PutRequest _ => isWrite ||| isTxn ||| isLocking ||| isIntentWrite ||| appliesTSCache ||| canBackpressure ||| canPipeline ||| canParallelCommit
  | ConditionalPutRequest _ => isRead ||| isWrite ||| isTxn ||| isLocking ||| isIntentWrite ||| appliesTSCache ||| updatesTSCache ||| updatesTSCacheOnErr |||
      canBackpressure ||| canPipeline ||| canParallelCommit
  | InitPutRequest _ => isRead ||| isWrite ||| isTxn ||| isLocking ||| isIntentWrite ||| appliesTSCache ||| updatesTSCache ||| updatesTSCacheOnErr |||
      canBackpressure ||| canPipeline ||| canParallelCommit
  | IncrementRequest _ | DeleteRequest _ => isRead ||| isWrite ||| isTxn ||| isLocking ||| isIntentWrite ||| appliesTSCache ||| canBackpressure ||| canPipeline ||| canParallelCommit
  | DeleteRangeRequest _ ReturnKeys Inline UseRangeTombstone =>
    if UseRangeTombstone then isWrite ||| isRange ||| isAlone ||| appliesTSCache
    else if Inline then isRead ||| isWrite ||| isRange ||| isAlone
    else isRead ||| isWrite ||| isTxn ||| isLocking ||| isIntentWrite ||| isRange ||| appliesTSCache ||| updatesTSCache ||| needsRefresh ||| canBackpressure |||
      (if ReturnKeys then canPipeline else 0)
  | ClearRangeRequest _ | RevertRangeRequest _ => isWrite ||| isRange ||| isAlone ||| bypassesReplicaCircuitBreaker
  | ScanRequest _ s d _ => isRead ||| flagForLockDurability d ||| isRange ||| isTxn ||| flagForLockStrength s ||| updatesTSCache ||| needsRefresh ||| canSkipLocked
  | ReverseScanRequest _ s d _ => isRead ||| flagForLockDurability d ||| isRange ||| isReverse ||| isTxn ||| flagForLockStrength s ||| updatesTSCache ||| needsRefresh ||| canSkipLocked
  | EndTxnRequest _ => isWrite ||| isTxn ||| isAlone ||| updatesTSCache
  | AdminSplitRequest _ | AdminUnsplitRequest _ | AdminMergeRequest _ | AdminTransferLeaseRequest _ | AdminChangeReplicasRequest _
  | AdminRelocateRangeRequest _ => isAdmin ||| isAlone
  | GCRequest _ hasClearRange => isWrite ||| isRange ||| bypassesReplicaCircuitBreaker ||| (if hasClearRange then isAlone else 0)
  | HeartbeatTxnRequest _ => isWrite ||| isTxn ||| updatesTSCache
  | PushTxnRequest _ _ => isWrite ||| isAlone ||| updatesTSCache ||| updatesTSCache
  | RecoverTxnRequest _ => isWrite ||| isAlone ||| updatesTSCache
  | QueryTxnRequest _ => isRead ||| isAlone
  | QueryIntentRequest _ _ _ => isRead ||| isPrefix ||| updatesTSCache ||| updatesTSCacheOnErr
  | QueryLocksRequest _ => isRead ||| isRange
  | ResolveIntentRequest _ => isWrite ||| updatesTSCache
  | ResolveIntentRangeRequest _ => isWrite ||| isRange ||| updatesTSCache
  | TruncateLogRequest _ => isWrite
  | MergeRequest _ => isWrite ||| canBackpressure
  | RequestLeaseRequest _ => isWrite ||| isAlone ||| skipsLeaseCheck ||| bypassesReplicaCircuitBreaker
  | LeaseInfoRequest _ => isRead ||| isAlone
  | TransferLeaseRequest _ => isWrite ||| isAlone ||| skipsLeaseCheck
  | ProbeRequest _ => isWrite ||| isAlone ||| skipsLeaseCheck ||| bypassesReplicaCircuitBreaker
  | RecomputeStatsRequest _ => isWrite ||| isAlone
  | ComputeChecksumRequest _ => isWrite
  | CheckConsistencyRequest _ => isAdmin ||| isRange ||| isAlone
  | ExportRequest _ => isRead ||| isRange ||| updatesTSCache ||| bypassesReplicaCircuitBreaker
  | AdminScatterRequest _ | AdminVerifyProtectedTimestampRequest _ => isAdmin ||| isRange ||| isAlone
  | AddSSTableRequest _ ts => isWrite ||| isRange ||| isAlone ||| isUnsplittable ||| canBackpressure ||| bypassesReplicaCircuitBreaker |||
      (if Timestamp_IsSet ts then appliesTSCache else 0)
  | LinkExternalSSTableRequest _ UseSyntheticSuffix => isWrite ||| isRange ||| isAlone ||| isUnsplittable ||| canBackpressure ||| bypassesReplicaCircuitBreaker |||
      (if UseSyntheticSuffix then appliesTSCache else 0)
  | MigrateRequest _ => isWrite ||| isRange ||| isAlone
  | RefreshRequest _ => isRead ||| isTxn ||| updatesTSCache
  | RefreshRangeRequest _ => isRead ||| isTxn ||| isRange ||| updatesTSCache
  | SubsumeRequest _ => isRead ||| isAlone ||| updatesTSCache
  | RangeStatsRequest _ => isRead
  | QueryResolvedTimestampRequest _ => isRead ||| isRange ||| requiresClosedTSOlderThanStorageSnapshot
  | BarrierRequest _ WithLeaseAppliedIndex => isWrite ||| isRange ||| isAlone ||| (if WithLeaseAppliedIndex then isUnsplittable else 0)
  | IsSpanEmptyRequest _ => isRead ||| isRange
  end.

Definition hasFlag (req : Request) (f : flag) : bool := negb (Z.land (flags req) f =? 0).
Definition IsReadOnly (req : Request) : bool := hasFlag req isRead && negb (hasFlag req isWrite).
Definition IsTransactional (req : Request) : bool := hasFlag req isTxn.
Definition IsLocking (req : Request) : bool := hasFlag req isLocking.
Definition LockingDurability (req : Request) : Durability := if IsReadOnly req then Unreplicated else Replicated.
Definition IsIntentWrite (req : Request) : bool := hasFlag req isIntentWrite.
Definition IsRange (req : Request) : bool := hasFlag req isRange.
Definition AppliesTimestampCache (req : Request) : bool := hasFlag req appliesTSCache.
Definition UpdatesTimestampCache (req : Request) : bool := hasFlag req updatesTSCache.
Definition UpdatesTimestampCacheOnError (req : Request) : bool := hasFlag req updatesTSCacheOnErr.
Definition CanSkipLocked (req : Request) : bool := hasFlag req canSkipLocked.

(** [StrengthOrDefault] *)
Definition StrengthOrDefault (s : Strength) : Strength := if bool_decide (s = None_) then Intent else s.

(** ** Responses *)

(** The keys of rows and the encoded batches of a scan, and where it is to be
    resumed. *)
Record ScanResult : Type := mkScanResult { sr_Rows : list buffer; sr_BatchResponses : list buffer; sr_hasColBatches : bool; sr_ResumeSpan : option Span }.

Inductive Response : Type :=
| GetResponse (hasValue : bool) (ResumeSpan : option Span)
| ScanResponse (r : ScanResult)
| ReverseScanResponse (r : ScanResult)
| DeleteRangeResponse (Keys : list buffer)
| EndTxnResponse (ReplicatedLocksReleasedOnCommit : list Span)
| RecoverTxnResponse (RecoveredTxn : Transaction)
| PushTxnResponse (PusheeTxn : Transaction)
| QueryIntentResponse (FoundUnpushedIntent : bool)
| ResolveIntentResponse (ReplicatedLocksReleasedCommitTimestamp : Timestamp)
| ResolveIntentRangeResponse (ReplicatedLocksReleasedCommitTimestamp : Timestamp)
| OtherResponse.

Inductive ErrorDetail : Set := ConditionFailedError | IntentMissingError | OtherDetail.

Record kvError : Type := mkError { err_Index : option Z; err_detail : option ErrorDetail }.

Definition GetDetail (pErr : option kvError) : option ErrorDetail := pErr ≫= err_detail.

Record BatchRequest : Type := mkBatchRequest {
  ba_Timestamp : Timestamp;
  ba_Txn : option Transaction;
  ba_WaitPolicy : WaitPolicy;
  ba_ReadConsistency : ReadConsistencyType;
  ba_Requests : list Request
}.

#[global] Instance eta_BatchRequest : Eta BatchRequest := fun b =>
  mkBatchRequest (ba_Timestamp b) (ba_Txn b) (ba_WaitPolicy b) (ba_ReadConsistency b) (ba_Requests b).

Record BatchResponse : Type := mkBatchResponse { br_Timestamp : Timestamp; br_Txn : option Transaction; br_Responses : list Response }.

(** ** The results of a scan *)

Definition scan_keys (testBuild : bool) (fmt : ScanFormat) (r : ScanResult) : outcome (list buffer * option error) :=
  let! '(ks, err) := ScanDecodeKeyValues (sr_BatchResponses r) in
  let ks := sr_Rows r ++ ks in
  match err with
  | Some err => Ret (ks, Some err)
  | None =>
    if testBuild then
      if bool_decide (fmt = COL_BATCH_RESPONSE) then Ret (ks, Some (Errorf "unexpectedly called ResponseKeyIterate with COL_BATCH_RESPONSE scan format" []))
      else if sr_hasColBatches r then Ret (ks, Some (Errorf "unexpectedly non-empty ColBatches" []))
      else Ret (ks, None)
    else Ret (ks, None)
  end.

(** The keys for which [fn] is called, and the error. In a test build the format of the
    request is asserted. *)
Definition ResponseKeyIterate (testBuild : bool) (req : Request) (resp : Response) : outcome (list buffer * option error) :=
  match resp with
  | GetResponse hasValue _ => Ret (if hasValue then [Span_Key (Header req)] else [], None)
  | ScanResponse r =>
    match req with
    | ScanRequest _ _ _ fmt => scan_keys testBuild fmt r
    | _ =>
      let! '(ks, err) := scan_keys false KEY_VALUES r in
      match err with
      | Some err => Ret (ks, Some err)
      | None => if testBuild then Panic "interface conversion" else Ret (ks, None)
      end
    end
  | ReverseScanResponse r =>
    match req with
    | ReverseScanRequest _ _ _ fmt => scan_keys testBuild fmt r
    | _ =>
      let! '(ks, err) := scan_keys false KEY_VALUES r in
      match err with
      | Some err => Ret (ks, Some err)
      | None => if testBuild then Panic "interface conversion" else Ret (ks, None)
      end
    end
  | DeleteRangeResponse keys =>
    match req with
    | DeleteRangeRequest _ ReturnKeys _ _ =>
      if negb ReturnKeys then Ret ([], Some (Errorf "cannot iterate over response keys of DeleteRange request when ReturnKeys=false" [])) else Ret (keys, None)
    | _ => Panic "interface conversion"
    end
  | _ => Ret ([], Some (Errorf "cannot iterate over response keys of %s request" []))
  end.

(** ** The flags are consistent *)

(** Replicated locks have a strength. *)
Definition lock_fields_ok (req : Request) : Prop :=
  match req with
  | GetRequest _ s d | ScanRequest _ s d _ | ReverseScanRequest _ s d _ => d = Replicated -> s <> None_
  | _ => True
  end.

Definition flags_consistentb (fl : flag) : bool :=
  forallb (fun '(f, deps) => (Z.land fl f =? 0) || forallb (fun d => negb (Z.land fl d =? 0)) deps) flagDependencies &&
  forallb (fun '(f, excls) => (Z.land fl f =? 0) || forallb (fun e => Z.land fl e =? 0) excls) flagExclusions &&
  ((Z.land fl updatesTSCacheOnErr =? 0) || negb (Z.land fl updatesTSCache =? 0)).

(** Case analysis of the fields that flags depend on. *)
Ltac destruct_fields := repeat match goal with b : bool |- _ => destruct b | s : Strength |- _ => destruct s | d : Durability |- _ => destruct d end.

Lemma flags_consistentb_ok req : lock_fields_ok req -> flags_consistentb (flags req) = true.
Proof.
  destruct req; cbn [lock_fields_ok flags]; intros Hl; destruct_fields; try (destruct (Timestamp_IsSet _)); lazymatch goal with
  | H : Replicated = Replicated -> None_ <> None_ |- _ => by destruct (H eq_refl)
  | |- _ => vm_compute; reflexivity
  end.
Qed.

(** The flags of every request satisfy the dependencies and exclusions that are
    declared for them; in particular, what applies the timestamp cache is a write, so
    that its timestamp can be moved, and what updates the cache on errors updates it at
    all. *)
Theorem flags_consistent req : lock_fields_ok req ->
  (forall f deps d, (f, deps) ∈ flagDependencies -> d ∈ deps -> hasFlag req f = true -> hasFlag req d = true) /\
  (forall f excls e, (f, excls) ∈ flagExclusions -> e ∈ excls -> hasFlag req f = true -> hasFlag req e = false) /\
  (AppliesTimestampCache req = true -> IsReadOnly req = false) /\
  (UpdatesTimestampCacheOnError req = true -> UpdatesTimestampCache req = true).
Proof.
  intros Hl. pose proof (flags_consistentb_ok req Hl) as Hc. unfold flags_consistentb in Hc. rewrite !andb_true_iff, !forallb_forall in Hc. destruct Hc as [[Hd He] Hu].
  assert (forall f deps d, (f, deps) ∈ flagDependencies -> d ∈ deps -> hasFlag req f = true -> hasFlag req d = true) as Hdep.
  { intros f deps d Hf Hin Hh. apply list_elem_of_In in Hf, Hin. specialize (Hd _ Hf). cbn in Hd. unfold hasFlag in *. destruct (Z.land (flags req) f =? 0); [done|]. cbn in Hd. rewrite forallb_forall in Hd. by apply Hd. }
  split_and!; [done| | |].
  - intros f excls e Hf Hin Hh. apply list_elem_of_In in Hf, Hin. specialize (He _ Hf). cbn in He. unfold hasFlag in *. destruct (Z.land (flags req) f =? 0); [done|]. cbn in He. rewrite forallb_forall in He. by rewrite (He _ Hin).
  - intros Ha. unfold IsReadOnly. rewrite (Hdep appliesTSCache [isWrite] isWrite); [apply andb_false_r| |apply list_elem_of_here|done]. unfold flagDependencies. set_solver.
  - unfold UpdatesTimestampCacheOnError, UpdatesTimestampCache, hasFlag. destruct (Z.land (flags req) updatesTSCacheOnErr =? 0); [done|]. by destruct (Z.land (flags req) updatesTSCache =? 0).
Qed.

Lemma flags_consistent_witness : hasFlag (GetRequest (mkKeySpan [97] []) Exclusive Replicated) canPipeline = true /\
  hasFlag (GetRequest (mkKeySpan [97] []) Exclusive Replicated) isLocking = true.
Proof.
  destruct (flags_consistent (GetRequest (mkKeySpan [97] []) Exclusive Replicated)) as (H & _); [by intros _|]. split; [by vm_compute|].
  apply (H canPipeline [isLocking] isLocking); [unfold flagDependencies; set_solver|apply list_elem_of_here|by vm_compute].
Defined.
