(* ===== verification/ReplicaTsCache.v ===== *)
(** * The replica's use of the timestamp cache (kv/kvserver/replica_tscache.go)

    A replica records in the timestamp cache of its store what requests have read
    ([updateTimestampCache]), moves the timestamp of writes above it
    ([applyTimestampCache]), keeps markers in it for transactions without a record
    ([CanCreateTxnRecord], [MinTxnCommitTS]), and hands its contents over with a lease
    or a merge ([collectReadSummaryFromTimestampCache],
    [applyReadSummaryToTimestampCache]). The cache is any implementation of the
    interface [tscache_Cache]. The theorems are in ReplicaTsCacheSpec. *)

From S2P Require Import Prelude Hlc Encoding Keys ReadSummary Lease EngineKeys Requests TsCache TsCacheSpec Cache.

(** ** Marker keys *)

Definition localTxnTombstoneMarkerSuffix : buffer := bytes_of "tmbs".
Definition localTxnPushMarkerSuffix : buffer := bytes_of "push".

Definition transactionTombstoneMarker (key : buffer) (txnID : UUID) : outcome buffer :=
  let! rk := MustAddr key in
  MakeRangeKey rk localTxnTombstoneMarkerSuffix txnID.

Definition transactionPushMarker (key : buffer) (txnID : UUID) : outcome buffer :=
  let! rk := MustAddr key in
  MakeRangeKey rk localTxnPushMarkerSuffix txnID.

(** A call of [addToTSCache]. *)
Record add_call : Type := mkAdd { add_start : buffer; add_end : buffer; add_ts : Timestamp; add_txnID : UUID }.

(** The keys of a range (roachpb.RSpan). *)
Record RSpan : Type := mkRSpan { RSpan_Key : buffer; RSpan_EndKey : buffer }.

Definition RSpan_KeySpan (rs : RSpan) : RSpan :=
  let start := RSpan_Key rs in
  let start := if Key_Equal start KeyMin then LocalMax else start in
  mkRSpan start (RSpan_EndKey rs).

(** ** What a request adds

    The calls of [addToTSCache] that a request makes, in order. A response of another
    type than the request's makes the type assertion panic. *)

Definition bad_type {A} : outcome A := Panic "interface conversion".

Definition request_calls (br : option BatchResponse) (pErr : option kvError) (ts : Timestamp) (txnID : UUID) (req : Request) (resp : option Response) : outcome (list add_call) :=
  let beforeEval := match br, pErr with None, None => true | _, _ => false end in
  let start := Span_Key (Header req) in
  let end_ := Span_EndKey (Header req) in
  match req with
  | EndTxnRequest _ =>
    let! key := transactionTombstoneMarker start txnID in
    match resp with
    | Some (EndTxnResponse []) => Ret [mkAdd key [] ts txnID]
    | Some (EndTxnResponse released) =>
      match br ≫= br_Txn with
      | Some txn => Ret (mkAdd key [] ts txnID :: ((fun sp => mkAdd (Span_Key sp) (Span_EndKey sp) (txn_WriteTimestamp txn) txnID) <$> released))
      | None => Panic "nil pointer dereference"
      end
    | _ => bad_type
    end
  | HeartbeatTxnRequest _ =>
    let! key := transactionTombstoneMarker start txnID in
    Ret [mkAdd key [] ts txnID]
  | RecoverTxnRequest _ =>
    match resp with
    | Some (RecoverTxnResponse recovered) =>
      if TransactionStatus_IsFinalized (txn_Status recovered) then
        let! key := transactionTombstoneMarker start (txn_ID recovered) in
        Ret [mkAdd key [] ts (txn_ID recovered)]
      else Ret []
    | _ => bad_type
    end
  | PushTxnRequest _ pusher =>
    match resp with
    | Some (PushTxnResponse pushee) =>
      match txn_Status pushee with
      | PENDING =>
        let! key := transactionPushMarker start (txn_ID pushee) in
        Ret [mkAdd key [] (txn_WriteTimestamp pushee) (txn_ID pusher)]
      | ABORTED =>
        let! key := transactionTombstoneMarker start (txn_ID pushee) in
        Ret [mkAdd key [] (txn_MinTimestamp pushee) (txn_ID pusher)]
      | STAGING | COMMITTED => Ret []
      end
    | _ => bad_type
    end
  | ConditionalPutRequest _ | InitPutRequest _ =>
    match GetDetail pErr with
    | Some ConditionFailedError => Ret [mkAdd start end_ ts txnID]
    | _ => Ret []
    end
  | GetRequest _ _ _ =>
    if beforeEval then Ret [mkAdd start end_ ts txnID]
    else
      match resp with
      | Some (GetResponse _ (Some _)) => Ret []
      | Some (GetResponse _ None) => Ret [mkAdd start end_ ts txnID]
      | _ => bad_type
      end
  | ScanRequest _ _ _ _ =>
    if beforeEval then Ret [mkAdd start end_ ts txnID]
    else
      match resp with
      | Some (ScanResponse r) =>
        match sr_ResumeSpan r with
        | Some resume => if Key_Equal start (Span_Key resume) then Ret [] else Ret [mkAdd start (Span_Key resume) ts txnID]
        | None => Ret [mkAdd start end_ ts txnID]
        end
      | _ => bad_type
      end
  | ReverseScanRequest _ _ _ _ =>
    if beforeEval then Ret [mkAdd start end_ ts txnID]
    else
      match resp with
      | Some (ReverseScanResponse r) =>
        match sr_ResumeSpan r with
        | Some resume => if Key_Equal end_ (Span_EndKey resume) then Ret [] else Ret [mkAdd (Span_EndKey resume) end_ ts txnID]
        | None => Ret [mkAdd start end_ ts txnID]
        end
      | _ => bad_type
      end
  | QueryIntentRequest _ txn strength =>
    if bool_decide (StrengthOrDefault strength = Intent) then
      let! missing :=
        match pErr with
        | Some _ => Ret (match GetDetail pErr with Some IntentMissingError => true | _ => false end)
        | None => match resp with Some (QueryIntentResponse found) => Ret (negb found) | _ => bad_type end
        end in
      Ret (if missing : bool then [mkAdd start end_ (txn_WriteTimestamp txn) uuid_Nil] else [])
    else Ret []
  | ResolveIntentRequest _ =>
    match resp with
    | Some (ResolveIntentResponse releasedTs) => Ret (if negb (Timestamp_IsEmpty releasedTs) then [mkAdd start end_ releasedTs txnID] else [])
    | _ => bad_type
    end
  | ResolveIntentRangeRequest _ =>
    match resp with
    | Some (ResolveIntentRangeResponse releasedTs) => Ret (if negb (Timestamp_IsEmpty releasedTs) then [mkAdd start end_ releasedTs txnID] else [])
    | _ => bad_type
    end
  | _ => Ret [mkAdd start end_ ts txnID]
  end.

(** Whether an error keeps the request at [i] from updating the cache. *)
Definition skip_update (pErr : option kvError) (i : Z) (req : Request) : bool :=
  match pErr with
  | None => false
  | Some err =>
    negb (UpdatesTimestampCacheOnError req) ||
    match err_Index err with None => true | Some index => negb (int32 i =? index) end
  end.

(** The body of the loop over the requests of a batch, for the request at [i]. An
    error of [ResponseKeyIterate] is logged. *)
Definition update_calls (testBuild : bool) (ba : BatchRequest) (br : option BatchResponse) (pErr : option kvError) (ts : Timestamp) (txnID : UUID) (i : Z) (req : Request) :
    outcome (list add_call) :=
  if negb (UpdatesTimestampCache req) then Ret []
  else
    let! resp := match br with Some br => let! r := slice_get (br_Responses br) i in Ret (Some r) | None => Ret None end in
    if skip_update pErr i req then Ret []
    else
      match resp with
      | Some r =>
        if bool_decide (ba_WaitPolicy ba = SkipLocked) && CanSkipLocked req then
          let! '(ks, _) := ResponseKeyIterate testBuild req r in
          Ret ((fun k => mkAdd k [] ts txnID) <$> ks)
        else request_calls br pErr ts txnID req resp
      | None => request_calls br pErr ts txnID req resp
      end.

Section cache.
Context {C : Type} `{tscache_Cache C}.
Implicit Types c : C.

(** In a test build, the update is checked against the lease: [st] is its status for the
    store [storeID]. *)
Definition addToTSCacheChecked (st : LeaseStatus) (storeID : Z) (a : add_call) c : outcome C :=
  let! _ :=
    if LeaseStatus_IsValid st && LeaseStatus_OwnedBy st storeID then
      let! exp := LeaseStatus_Expiration st in
      if Timestamp_LessEq exp (add_ts a) then Panic "Unsafe timestamp cache update! Cannot add timestamp %s to timestamp cache" else Ret tt
    else Ret tt in
  cache_Add (add_start a) (add_end a) (add_ts a) (add_txnID a) c.

Definition addToTSCache (testBuild : bool) (st : LeaseStatus) (storeID : Z) (a : add_call) c : outcome C :=
  if testBuild then addToTSCacheChecked st storeID a c else cache_Add (add_start a) (add_end a) (add_ts a) (add_txnID a) c.

Fixpoint add_all (testBuild : bool) (st : LeaseStatus) (storeID : Z) (calls : list add_call) c : outcome C :=
  match calls with
  | [] => Ret c
  | a :: calls => let! c := addToTSCache testBuild st storeID a c in add_all testBuild st storeID calls c
  end.

Fixpoint update_requests (testBuild : bool) (st : LeaseStatus) (storeID : Z) (ba : BatchRequest) (br : option BatchResponse) (pErr : option kvError) (ts : Timestamp) (txnID : UUID)
    (i : Z) (reqs : list Request) c : outcome C :=
  match reqs with
  | [] => Ret c
  | req :: reqs =>
    let! calls := update_calls testBuild ba br pErr ts txnID i req in
    let! c := add_all testBuild st storeID calls c in
    update_requests testBuild st storeID ba br pErr ts txnID (i + 1) reqs c
  end.

(** The time and the transaction of a batch. *)
Definition batch_ts (ba : BatchRequest) (br : option BatchResponse) : Timestamp := match br with Some br => br_Timestamp br | None => ba_Timestamp ba end.
Definition batch_txnID (ba : BatchRequest) : UUID := match ba_Txn ba with Some txn => txn_ID txn | None => uuid_Nil end.

Definition updateTimestampCache (testBuild : bool) (st : LeaseStatus) (storeID : Z) (ba : BatchRequest) (br : option BatchResponse) (pErr : option kvError) c : outcome C :=
  update_requests testBuild st storeID ba br pErr (batch_ts ba br) (batch_txnID ba) 0 (ba_Requests ba) c.

(** [endCmds.done], as far as the cache is concerned: [ec_st] is the status of the lease
    under which the batch was evaluated, [st] the current one. *)
Definition endCmds_done (testBuild : bool) (ec_st st : LeaseStatus) (storeID : Z) (ba : BatchRequest) (br : option BatchResponse) (pErr : option kvError) c : outcome C :=
  if bool_decide (ba_ReadConsistency ba = CONSISTENT) && bool_decide (lst_State ec_st = VALID) then updateTimestampCache testBuild st storeID ba br pErr c else Ret c.

(** ** What a write is moved above *)

Record apply_state : Type := mkApplyState {
  as_ba : BatchRequest;
  as_bumpedDueToMinReadTS : bool;
  as_bumped : bool;
  as_conflictingTxn : UUID
}.

(** One iteration of the loop, for a request that applies the cache. *)
Definition applyTimestampCache_req (minReadTS : Timestamp) (args : Request) (s : apply_state) c : outcome (C * apply_state) :=
  let header := Header args in
  let! '(c, (rTS, rTxnID)) := cache_GetMax (Span_Key header) (Span_EndKey header) c in
  let '(rTS, forwardedToMinReadTS) := Timestamp_Forward rTS minReadTS in
  let rTxnID := if forwardedToMinReadTS then uuid_Nil else rTxnID in
  let! nextRTS := Timestamp_Next rTS in
  let ba := as_ba s in
  let '(ba, bumpedCurReq) :=
    match ba_Txn ba with
    | Some txn =>
      if negb (bool_decide (txn_ID txn = rTxnID)) && Timestamp_Less (txn_WriteTimestamp txn) nextRTS
      then (ba <| ba_Txn := Some (txn <| txn_WriteTimestamp := nextRTS |>) |>, true) else (ba, false)
    | None => if Timestamp_Less (ba_Timestamp ba) nextRTS then (ba <| ba_Timestamp := nextRTS |>, true) else (ba, false)
    end in
  let conflictingTxn := if bumpedCurReq && negb (bool_decide (rTxnID = uuid_Nil)) then rTxnID else as_conflictingTxn s in
  let bumpedDueToMinReadTS := (negb bumpedCurReq && as_bumpedDueToMinReadTS s) || (bumpedCurReq && forwardedToMinReadTS) in
  Ret (c, mkApplyState ba bumpedDueToMinReadTS (as_bumped s || bumpedCurReq) conflictingTxn).

Fixpoint applyTimestampCache_loop (minReadTS : Timestamp) (reqs : list Request) (s : apply_state) c : outcome (C * apply_state) :=
  match reqs with
  | [] => Ret (c, s)
  | args :: reqs =>
    let! '(c, s) := if AppliesTimestampCache args then applyTimestampCache_req minReadTS args s c else Ret (c, s) in
    applyTimestampCache_loop minReadTS reqs s c
  end.

(** What is counted and logged for a bumped batch is left out. *)
Definition applyTimestampCache (ba : BatchRequest) (minReadTS : Timestamp) c : outcome (C * (BatchRequest * bool)) :=
  let! '(c, s) := applyTimestampCache_loop minReadTS (ba_Requests ba) (mkApplyState ba false false uuid_Nil) c in
  Ret (c, (as_ba s, as_bumped s)).

(** ** Transactions without a record *)

Inductive TransactionAbortedReason : Set :=
  ABORT_REASON_RECORD_ALREADY_WRITTEN_POSSIBLE_REPLAY | ABORT_REASON_NEW_LEASE_PREVENTS_TXN | ABORT_REASON_TIMESTAMP_CACHE_REJECTED | ABORT_REASON_ABORTED_RECORD_FOUND.

(** [None] is a record that can be created; [leaseStart] is the start of the current
    lease. *)
Definition CanCreateTxnRecord (leaseStart : Timestamp) (txnID : UUID) (txnKey : buffer) (txnMinTS : Timestamp) c : outcome (C * option TransactionAbortedReason) :=
  let! tombstoneKey := transactionTombstoneMarker txnKey txnID in
  let! '(c, (tombstoneTimestamp, tombstoneTxnID)) := cache_GetMax tombstoneKey [] c in
  Ret (c,
    if Timestamp_LessEq txnMinTS tombstoneTimestamp then
      Some (
        if bool_decide (tombstoneTxnID = txnID) then ABORT_REASON_RECORD_ALREADY_WRITTEN_POSSIBLE_REPLAY
        else if bool_decide (tombstoneTxnID = uuid_Nil) then
          if bool_decide (tombstoneTimestamp = leaseStart) then ABORT_REASON_NEW_LEASE_PREVENTS_TXN else ABORT_REASON_TIMESTAMP_CACHE_REJECTED
        else ABORT_REASON_ABORTED_RECORD_FOUND)
    else None).

Definition MinTxnCommitTS (txnID : UUID) (txnKey : buffer) c : outcome (C * Timestamp) :=
  let! pushKey := transactionPushMarker txnKey txnID in
  let! '(c, (minCommitTS, _)) := cache_GetMax pushKey [] c in
  Ret (c, minCommitTS).

(** ** Handing the cache over *)

Section summary.
Context (Segment_Size : Segment -> Z) (ReadSpan_Size : ReadSpan -> Z) (sort : (ReadSpan -> ReadSpan -> bool) -> list ReadSpan -> list ReadSpan).

Definition serializeSegment (start end_ : buffer) (budget : Z) c : outcome (C * Segment) :=
  if budget >? 0 then
    let! '(c, seg) := cache_Serialize start end_ c in
    Ret (c, Segment_Compress Segment_Size ReadSpan_Size sort seg budget)
  else
    let! '(c, (lowWater, _)) := cache_GetMax start end_ c in
    Ret (c, mkSegment lowWater []).

Definition collectReadSummaryFromTimestampCache (desc : RSpan) (localBudget globalBudget : Z) c : outcome (C * ReadSummary) :=
  let! localStart := MakeRangeKeyPrefix (RSpan_Key desc) in
  let! localEnd := MakeRangeKeyPrefix (RSpan_EndKey desc) in
  let! '(c, local) := serializeSegment localStart localEnd localBudget c in
  let userKeys := RSpan_KeySpan desc in
  let! '(c, global) := serializeSegment (RSpan_Key userKeys) (RSpan_EndKey userKeys) globalBudget c in
  Ret (c, mkReadSummary local global).

(** [None] is a merge without enough fuel; [closedTS] is the closed timestamp of the
    range. *)
Definition GetCurrentReadSummary (desc : RSpan) (localBudget globalBudget : Z) (closedTS : Timestamp) c : outcome (C * option ReadSummary) :=
  let! '(c, sum) := collectReadSummaryFromTimestampCache desc localBudget globalBudget c in
  Ret (c, ReadSummary_Merge sum (FromTimestamp closedTS)).

End summary.

Fixpoint apply_spans (spans : list ReadSpan) c : outcome C :=
  match spans with
  | [] => Ret c
  | rs :: spans =>
    let! c := cache_Add (sp_key rs) (sp_endKey rs) (rv_ts (sp_value rs)) (rv_txnID (sp_value rs)) c in
    apply_spans spans c
  end.

Definition applySegment (start end_ : buffer) (seg : Segment) c : outcome C :=
  let! c := cache_Add start end_ (seg_LowWater seg) uuid_Nil c in
  apply_spans (seg_ReadSpans seg) c.

Definition applyReadSummaryToTimestampCache (desc : RSpan) (s : ReadSummary) c : outcome C :=
  let! localStart := MakeRangeKeyPrefix (RSpan_Key desc) in
  let! localEnd := MakeRangeKeyPrefix (RSpan_EndKey desc) in
  let! c := applySegment localStart localEnd (sum_Local s) c in
  let userKeys := RSpan_KeySpan desc in
  applySegment (RSpan_Key userKeys) (RSpan_EndKey userKeys) (sum_Global s) c.

(** What [leasePostApplyLocked] does to the cache with the summary that it returns
    (LeaseApply). *)
Definition apply_lease_summary (desc : RSpan) (sum : option ReadSummary) c : outcome C :=
  match sum with Some s => applyReadSummaryToTimestampCache desc s c | None => Ret c end.

(** What [MergeRange] does to the cache: whether the store holds the leases of the left
    and of the right range. *)
Definition MergeRange_tscache (leftLeaseholder rightLeaseholder : bool) (rightDesc : RSpan) (freezeStart rightClosedTS : Timestamp) (rightReadSum : option ReadSummary) c : outcome C :=
  if leftLeaseholder then
    let! c :=
      if negb rightLeaseholder then
        let sum := match rightReadSum with Some s => s | None => FromTimestamp freezeStart end in
        applyReadSummaryToTimestampCache rightDesc sum c
      else Ret c in
    applyReadSummaryToTimestampCache rightDesc (FromTimestamp rightClosedTS) c
  else Ret c.

End cache.
