(* ===== verification/ReplicaTsCacheSpec.v ===== *)
(** * What the replica's use of the timestamp cache guarantees (kv/kvserver/replica_tscache.go)

    For every implementation of the cache that satisfies the laws of Cache: what a batch
    read is recorded, writes are moved above it, markers keep the records of finished
    transactions from being created again, and a summary of the cache of one store,
    applied to the cache of another, protects there what was read here. *)

From S2P Require Import Prelude Hlc Encoding EncodingOrder EncodingBytes Keys KeysOrder KeysSpec ReadSummary SummaryValues Lease EngineKeys Requests TsCache TsCachePage TsCacheSpec Cache ReplicaTsCache.

(** ** Values *)

Lemma val_le_cases v w : val_le v w <-> ts_lt (rv_ts v) (rv_ts w) \/ rv_ts v = rv_ts w /\ (rv_txnID v = rv_txnID w \/ rv_txnID w = uuid_Nil).
Proof.
  destruct v as [t x], w as [u y]. unfold val_le, ts_lt. cbn. unfold readSpanVal_ratchet. cbn. rewrite <- Timestamp_Less_spec. destruct (Timestamp_Less_cases t u) as [[-> E]|[[E E']|(-> & -> & _)]].
  - split; [by left|done].
  - rewrite E, E'. split; [intros [= -> ->]; congruence|]. intros [?|[-> _]]; congruence.
  - case_bool_decide as Ex; [subst; split; [right; auto|done]|]. split; [intros [= <-]; right; auto|]. by intros [?|[_ [?| ->]]].
Qed.

(** The successor of a time that the cache can hold. *)
Lemma Timestamp_Next_after t : 0 <= WallTime t < MaxInt64 -> 0 <= Logical t <= MaxInt32 -> exists n, Timestamp_Next t = Ret n /\ ts_lt t n.
Proof.
  intros Hw Hl. assert (Timestamp_valid t) as Hv by (split; lia). pose proof (proj1 (Timestamp_Next_Prev_spec t Hv)) as Hn. destruct (Timestamp_Next t) as [n|].
  - destruct Hn as (_ & Hlt & _). exists n. split; [done|]. by apply Timestamp_Less_spec.
  - subst t. cbn in Hw. lia.
Qed.

Section spec.
Context {C : Type} `{CacheLaws C}.
Implicit Types c : C.

(** A cache that protects at least what another one does. *)
Definition cache_le c c' : Prop := forall k, val_le (cache_value c k) (cache_value c' k).

#[global] Instance cache_le_preorder : PreOrder cache_le.
Proof. split; [intros c k; apply val_le_refl|]. intros c1 c2 c3 H1 H2 k. by eapply val_le_trans. Qed.

Lemma cache_eq_le c c' : (forall k, cache_value c' k = cache_value c k) -> cache_le c c'.
Proof. intros E k. rewrite E. apply val_le_refl. Qed.

(** ** Updates *)

Definition call_value (a : add_call) : readSpanVal := mkReadSpanVal (add_ts a) (add_txnID a).
Definition call_ok (a : add_call) : Prop := keys_ok (add_start a) (add_end a) /\ fits (call_value a).

(** The cache protects the keys of a call. *)
Definition recorded (a : add_call) c : Prop := forall k, len k < maxKeySize -> keys_cover (add_start a) (add_end a) k -> val_le (call_value a) (cache_value c k).

Lemma recorded_le a c c' : cache_le c c' -> recorded a c -> recorded a c'.
Proof. intros Hle Ha k Hk Hc. by eapply val_le_trans; [apply Ha|apply Hle]. Qed.

Lemma add_all_spec st storeID calls c : cache_ok c -> Forall call_ok calls ->
  exists c', add_all false st storeID calls c = Ret c' /\ cache_ok c' /\ cache_le c c' /\ Forall (fun a => recorded a c') calls.
Proof.
  intros Hc Hall. revert c Hc. induction Hall as [|a calls [Ka Fa] Hall IH]; intros c Hc; cbn; [by exists c|].
  destruct (Add_law (add_start a) (add_end a) (add_ts a) (add_txnID a) c Hc Ka Fa) as (c1 & E1 & O1 & L1 & R1). rewrite E1. cbn [obind].
  destruct (IH c1 O1) as (c2 & E2 & O2 & L2 & R2). exists c2. split_and!; [done|done|by transitivity c1|constructor; [|done]]. by apply (recorded_le a c1).
Qed.

(** The check of a test build changes nothing else. *)
Lemma add_all_checked st storeID calls c c' : add_all true st storeID calls c = Ret c' ->
  add_all false st storeID calls c = Ret c' /\
  (LeaseStatus_IsValid st = true -> LeaseStatus_OwnedBy st storeID = true -> forall exp, LeaseStatus_Expiration st = Ret exp -> Forall (fun a => ts_lt (add_ts a) exp) calls).
Proof.
  revert c. induction calls as [|a calls IH]; intros c; cbn; [by intros [= ->]|]. unfold addToTSCacheChecked.
  destruct (LeaseStatus_IsValid st && LeaseStatus_OwnedBy st storeID) eqn:El; cbn [obind].
  - destruct (LeaseStatus_Expiration st) as [exp|]; [|done]. cbn [obind]. destruct (Timestamp_LessEq exp (add_ts a)) eqn:Ee; [done|]. cbn [obind].
    destruct (cache_Add _ _ _ _ c) as [c1|]; [|done]. cbn [obind]. intros [E1 H1]%IH. split; [done|]. intros Hv Ho u [= <-]. constructor; [|by apply H1].
    unfold ts_lt. rewrite <- Timestamp_LessEq_spec. by rewrite Ee.
  - destruct (cache_Add _ _ _ _ c) as [c1|]; [|done]. cbn [obind]. intros [E1 H1]%IH. split; [done|]. intros Hv Ho. by rewrite Hv, Ho in El.
Qed.

(** ** Writes *)

(** The time at which the batch writes. *)
Definition write_ts (ba : BatchRequest) : Timestamp := match ba_Txn ba with Some txn => txn_WriteTimestamp txn | None => ba_Timestamp ba end.

(** The batch writes after a read, which is its own or of an earlier time. *)
Definition writes_above (ba : BatchRequest) (v : readSpanVal) : Prop :=
  txn_ID <$> ba_Txn ba = Some (rv_txnID v) /\ ts_le (rv_ts v) (write_ts ba) \/ ts_lt (rv_ts v) (write_ts ba).

(** What the cache reports as the transaction's own reads was read at times up to its
    write timestamp. *)
Definition own_reads_below (ba : BatchRequest) (args : Request) c : Prop := forall c0 c' ts txnID,
  cache_ok c0 -> (forall k, cache_value c0 k = cache_value c k) -> cache_GetMax (Span_Key (Header args)) (Span_EndKey (Header args)) c0 = Ret (c', (ts, txnID)) ->
  txn_ID <$> ba_Txn ba = Some txnID -> txnID <> uuid_Nil -> ts_le ts (write_ts ba).

(** A transaction has an ID. *)
Definition has_ID (ba : BatchRequest) : Prop := txn_ID <$> ba_Txn ba <> Some uuid_Nil.

(** How the state of the loop changes. *)
Record apply_le (s s' : apply_state) : Prop := {
  al_ts : ts_le (write_ts (as_ba s)) (write_ts (as_ba s'));
  al_txn : txn_ID <$> ba_Txn (as_ba s') = txn_ID <$> ba_Txn (as_ba s);
  al_reqs : ba_Requests (as_ba s') = ba_Requests (as_ba s);
  al_same : as_bumped s' = false -> as_bumped s = false /\ as_ba s' = as_ba s;
  al_bumped : as_bumped s' = true -> as_bumped s = true \/ ts_lt (write_ts (as_ba s)) (write_ts (as_ba s'))
}.

#[global] Instance apply_le_preorder : PreOrder apply_le.
Proof.
  split; [intros s; split; auto; reflexivity|]. intros s1 s2 s3 [A1 A2 A3 A4 A5] [B1 B2 B3 B4 B5]. split; [by transitivity (write_ts (as_ba s2))|congruence|congruence| |].
  - intros E. destruct (B4 E) as [E2 ->]. by apply A4.
  - intros E. destruct (B5 E) as [E2|L2]; [destruct (A5 E2) as [?|?]; [by left|right; by eapply ts_lt_le_trans]|right; by eapply ts_le_lt_trans].
Qed.

Lemma writes_above_le s s' v : apply_le s s' -> writes_above (as_ba s) v -> writes_above (as_ba s') v.
Proof. intros [L E _ _ _] [[Ho Hl]|Hl]; [left; split; [by rewrite E|by etransitivity]|right; by eapply ts_lt_le_trans]. Qed.

Lemma writes_above_val ba v w : has_ID ba -> val_le v w -> writes_above ba w -> writes_above ba v.
Proof.
  intros Hid Hv%val_le_cases [[Ho Hl]|Hl]; destruct Hv as [Hv|[E [E'|E']]].
  - right. by eapply ts_lt_le_trans.
  - left. by rewrite E, E'.
  - destruct Hid. by rewrite Ho, E'.
  - right. eapply ts_le_lt_trans; [by apply ts_lt_le|done].
  - right. by rewrite E.
  - right. by rewrite E.
Qed.

Lemma own_reads_le s s' args c : apply_le s s' -> own_reads_below (as_ba s) args c -> own_reads_below (as_ba s') args c.
Proof. intros [L E _ _ _] Ho c0 c' ts x H1 H2 H3 H4 H5. rewrite E in H4. transitivity (write_ts (as_ba s)); [by apply (Ho c0 c' ts x)|done]. Qed.

Lemma own_reads_eq ba args c c' : (forall k, cache_value c' k = cache_value c k) -> own_reads_below ba args c -> own_reads_below ba args c'.
Proof. intros E Ho c0 c1 ts x H1 H2. apply (Ho c0); [done|]. intros k. by rewrite H2. Qed.

(** The bump of one request: [v] is what the cache reports, forwarded. *)
Lemma bump_spec ba (v : readSpanVal) n : has_ID ba -> ts_lt (rv_ts v) n -> (txn_ID <$> ba_Txn ba = Some (rv_txnID v) -> ts_le (rv_ts v) (write_ts ba)) ->
  let '(ba', bumped) :=
    match ba_Txn ba with
    | Some txn =>
      if negb (bool_decide (txn_ID txn = rv_txnID v)) && Timestamp_Less (txn_WriteTimestamp txn) n
      then (ba <| ba_Txn := Some (txn <| txn_WriteTimestamp := n |>) |>, true) else (ba, false)
    | None => if Timestamp_Less (ba_Timestamp ba) n then (ba <| ba_Timestamp := n |>, true) else (ba, false)
    end in
  txn_ID <$> ba_Txn ba' = txn_ID <$> ba_Txn ba /\ ba_Requests ba' = ba_Requests ba /\ (bumped = false -> ba' = ba) /\ (bumped = true -> ts_lt (write_ts ba) (write_ts ba')) /\
  ts_le (rv_ts v) (write_ts ba') /\ forall w, val_le w v -> writes_above ba' w.
Proof.
  intros Hid Hn Hown. unfold has_ID, writes_above, write_ts in *. destruct (ba_Txn ba) as [txn|] eqn:Et.
  - case_bool_decide as Ex; cbn [negb andb]; [|destruct (Timestamp_Less (txn_WriteTimestamp txn) n) eqn:El]; rewrite ?Et; cbn in Hown |- *.
    + rewrite Ex in Hown. specialize (Hown eq_refl). split_and!; [done..|]. intros w [L|[E1 [E2|E2]]]%val_le_cases; [right; by eapply ts_lt_le_trans|left; by rewrite E1, E2, Ex|].
      destruct Hid. cbn. by rewrite Ex, E2.
    + apply Timestamp_Less_spec in El. split_and!; [done..|by apply ts_lt_le|]. intros w Hw%val_le_ts. right. by eapply ts_le_lt_trans.
    + apply Timestamp_Less_false in El. assert (ts_lt (rv_ts v) (txn_WriteTimestamp txn)) as Hlt by by eapply ts_lt_le_trans. split_and!; [done..|by apply ts_lt_le|].
      intros w Hw%val_le_ts. right. by eapply ts_le_lt_trans.
  - destruct (Timestamp_Less (ba_Timestamp ba) n) eqn:El; rewrite ?Et; cbn in *; rewrite ?Et.
    + apply Timestamp_Less_spec in El. split_and!; [done..|by apply ts_lt_le|]. intros w Hw%val_le_ts. right. by eapply ts_le_lt_trans.
    + apply Timestamp_Less_false in El. assert (ts_lt (rv_ts v) (ba_Timestamp ba)) as Hlt by by eapply ts_lt_le_trans. split_and!; [done..|by apply ts_lt_le|].
      intros w Hw%val_le_ts. right. by eapply ts_le_lt_trans.
Qed.

(** A time of which the successor exists. *)
Definition ts_fits (t : Timestamp) : Prop := 0 <= WallTime t < MaxInt64 /\ 0 <= Logical t <= MaxInt32.

Lemma fits_ts v : fits v -> ts_fits (rv_ts v).
Proof. intros Hv. split; [by apply fits_wall|apply Hv]. Qed.

Lemma apply_req_spec minReadTS args s c : cache_ok c -> cache_fits c -> ts_fits minReadTS -> has_ID (as_ba s) -> own_reads_below (as_ba s) args c ->
  exists c' s', applyTimestampCache_req minReadTS args s c = Ret (c', s') /\ cache_ok c' /\ (forall k, cache_value c' k = cache_value c k) /\ apply_le s s' /\
    ts_le minReadTS (write_ts (as_ba s')) /\ forall k, keys_cover (Span_Key (Header args)) (Span_EndKey (Header args)) k -> writes_above (as_ba s') (cache_value c k).
Proof.
  intros Hc Hf Hm Hid Hown. unfold applyTimestampCache_req. destruct (GetMax_law (Span_Key (Header args)) (Span_EndKey (Header args)) c Hc) as (c' & ts & x & E & Hc' & Hv & Hcov & _ & Hfits).
  rewrite E. cbn [obind]. specialize (fits_ts _ (Hfits Hf)) as Hts. cbn [rv_ts] in Hts.
  set (v := if Timestamp_Less ts minReadTS then low minReadTS else mkReadSpanVal ts x).
  assert (Timestamp_Forward ts minReadTS = (rv_ts v, Timestamp_Less ts minReadTS)) as -> by (unfold v, Timestamp_Forward; by destruct (Timestamp_Less ts minReadTS)).
  assert ((if Timestamp_Less ts minReadTS then uuid_Nil else x) = rv_txnID v) as -> by (unfold v; by destruct (Timestamp_Less ts minReadTS)).
  assert (ts_fits (rv_ts v) /\ ts_le minReadTS (rv_ts v) /\ val_le (mkReadSpanVal ts x) v /\ (txn_ID <$> ba_Txn (as_ba s) = Some (rv_txnID v) -> ts_le (rv_ts v) (write_ts (as_ba s)))) as (V1 & V2 & V3 & V4).
  { unfold v. destruct (Timestamp_Less ts minReadTS) eqn:El.
    - split_and!; [done|done|apply val_le_cases; left; by apply Timestamp_Less_spec|]. intros Hx. by destruct Hid.
    - split_and!; [done|by apply Timestamp_Less_false|apply val_le_refl|]. intros Hx. apply (Hown c c' ts x); try done. intros ->. by destruct Hid. }
  destruct V1 as [Vw Vl]. destruct (Timestamp_Next_after _ Vw Vl) as (n & -> & Hn). cbn [obind]. pose proof (bump_spec (as_ba s) v n Hid Hn V4) as Hb.
  destruct (match ba_Txn (as_ba s) with Some _ => _ | None => _ end) as [ba' bumped]. destruct Hb as (B1 & B2 & B3 & B4 & B5 & B6).
  eexists c', _. split; [done|]. split_and!; [done|done| |by transitivity (rv_ts v)|].
  - split; cbn [as_ba as_bumped]; [|done|done| |].
    + destruct bumped; [by apply ts_lt_le, B4|by rewrite B3].
    + intros [E1 E2]%orb_false_iff. subst. by split; [|apply B3].
    + intros [E1|E2]%orb_true_iff; [by left|right; by apply B4].
  - intros k Hk. cbn [as_ba]. apply B6. by eapply val_le_trans; [apply Hcov|].
Qed.

Lemma applyTimestampCache_loop_spec minReadTS reqs s c : cache_ok c -> cache_fits c -> ts_fits minReadTS -> has_ID (as_ba s) ->
  (forall args, args ∈ reqs -> AppliesTimestampCache args = true -> own_reads_below (as_ba s) args c) ->
  exists c' s', applyTimestampCache_loop minReadTS reqs s c = Ret (c', s') /\ cache_ok c' /\ (forall k, cache_value c' k = cache_value c k) /\ apply_le s s' /\
    forall args, args ∈ reqs -> AppliesTimestampCache args = true -> ts_le minReadTS (write_ts (as_ba s')) /\
      forall k, keys_cover (Span_Key (Header args)) (Span_EndKey (Header args)) k -> writes_above (as_ba s') (cache_value c k).
Proof.
  intros Hc Hf Hm. revert s c Hc Hf. induction reqs as [|args reqs IH]; intros s c Hc Hf Hid Hown; cbn [applyTimestampCache_loop].
  { exists c, s. split_and!; [done|done|done|done|]. by intros args ?%elem_of_nil. }
  assert (exists c1 s1, (if AppliesTimestampCache args then applyTimestampCache_req minReadTS args s c else Ret (c, s)) = Ret (c1, s1) /\ cache_ok c1 /\ (forall k, cache_value c1 k = cache_value c k) /\
    apply_le s s1 /\ (AppliesTimestampCache args = true -> ts_le minReadTS (write_ts (as_ba s1)) /\
      forall k, keys_cover (Span_Key (Header args)) (Span_EndKey (Header args)) k -> writes_above (as_ba s1) (cache_value c k))) as (c1 & s1 & E1 & O1 & V1 & L1 & W1).
  { destruct (AppliesTimestampCache args) eqn:Ea; [|by exists c, s]. destruct (apply_req_spec minReadTS args s c) as (c1 & s1 & K); try done; [apply Hown; [apply list_elem_of_here|done]|].
    exists c1, s1. naive_solver. }
  rewrite E1. cbn [obind]. destruct (IH s1 c1 O1) as (c2 & s2 & E2 & O2 & V2 & L2 & W2).
  - intros k. rewrite V1. apply Hf.
  - unfold has_ID. by rewrite (al_txn _ _ L1).
  - intros a Ha Haa. apply (own_reads_eq _ _ c); [done|]. apply (own_reads_le s); [done|]. apply Hown; [by apply list_elem_of_further|done].
  - exists c2, s2. split_and!; [done|done|intros k; by rewrite V2, V1|by transitivity s1|]. intros a Ha Haa. apply elem_of_cons in Ha as [->|Ha].
    + destruct (W1 Haa) as [W3 W4]. split; [transitivity (write_ts (as_ba s1)); [done|apply L2]|]. intros k Hk. by apply (writes_above_le s1), W4.
    + destruct (W2 a Ha Haa) as [W3 W4]. split; [done|]. intros k Hk. rewrite <- V1. by apply W4.
Qed.

End spec.
