(* ===== verification/ReadHandover.v ===== *)
(** * Handing the reads of a range over (kv/kvserver/replica_tscache.go, replica_proposal.go, store_merge.go)

    A summary collected from the cache of one store and applied to the cache of another
    protects there what was read here: with a lease, whether the previous leaseholder sent
    a summary or the reads are known to be below the start of the new lease, and with a
    merge of two ranges. *)

From S2P Require Import Prelude Hlc Encoding EncodingOrder EncodingBytes EncodingSafe Keys KeysOrder KeysSpec ReadSummary SummaryValues NodeLiveness Lease LeaseApply EngineKeys Requests TsCache TsCachePage TsCacheSkl TsCacheSpec Cache.
From S2P Require Import ReplicaTsCache ReplicaTsCacheSpec.

(** ** Segments *)

Lemma span_keys_ok (s : ReadSpan) : span_wf s -> keys_ok (sp_key s) (sp_endKey s).
Proof. intros (B1 & B2 & Hlt). split_and!; [done|done|]. unfold span_end in Hlt. case_bool_decide; [by left|by right]. Qed.

Lemma covers_keys (s : ReadSpan) k : span_wf s -> Forall is_byte k -> covers s k = true -> keys_cover (sp_key s) (sp_endKey s) k.
Proof.
  intros (B1 & B2 & Hlt) Bk [H1 H2]%covers_spec. unfold keys_cover, span_end in *. case_bool_decide as Ee; [|by rewrite decide_False]. rewrite decide_True by done.
  destruct (bytes_lt_total k (sp_key s)) as [?|[?|Hk]]; [key_order|done|]. exfalso. apply (BytesNext_le (sp_key s) k) in Hk; [|done]. key_order.
Qed.

Lemma val_le_low_ts v w : val_le v w -> val_le v (low (rv_ts w)).
Proof. intros Hv%val_le_ts. by apply val_le_low. Qed.

Lemma fits_low t : ts_fits t -> fits (low t).
Proof. intros [Hw Hl]. split; [|cbn; lia]. apply val_le_low. unfold ts_le. cbn. lia. Qed.

Lemma seg_fits_low t : ts_fits t -> seg_fits (mkSegment t []).
Proof. intros Ht. split_and!; [done|by apply fits_low|by constructor]. Qed.

Lemma Segment_Merge_fits c o : seg_fits c -> seg_fits o ->
  exists m, Segment_Merge c o = Some m /\ seg_fits m /\ forall k, Forall is_byte k -> seg_at m k = ratchet (seg_at c k) (seg_at o k).
Proof.
  intros (Wc & Fc & Sc) (Wo & Fo & So). destruct (Segment_Merge_spec c o Wc Wo) as (m & E & Wm & Hat). exists m. split_and!; [done| |done].
  destruct (Segment_Merge_in read_fits read_fits_ratchet c o m Wc Wo E Sc So) as (Hs & Hlw & _). split_and!; [done| |done]. by destruct Hlw as [-> | ->].
Qed.

Definition summary_fits (s : ReadSummary) : Prop := seg_fits (sum_Local s) /\ seg_fits (sum_Global s).

Lemma FromTimestamp_fits t : ts_fits t -> summary_fits (FromTimestamp t).
Proof. intros Ht. split; by apply seg_fits_low. Qed.

(** ** The keys of a range *)

Definition local_prefix (key : buffer) : buffer := LocalRangePrefix ++ bytes_code key.

Lemma MakeRangeKeyPrefix_eq key : MakeRangeKeyPrefix key = Ret (local_prefix key).
Proof. unfold MakeRangeKeyPrefix, makeRangeKeyPrefixWithExtraCapacity. by rewrite EncodeBytesAscending_eq. Qed.

Record desc_ok (desc : RSpan) : Prop := {
  dk_start : Forall is_byte (RSpan_Key desc);
  dk_end : Forall is_byte (RSpan_EndKey desc);
  dk_order : bytes_lt (RSpan_Key (RSpan_KeySpan desc)) (RSpan_EndKey desc)
}.

(** The keys that a range addresses: the local ones, and the others. *)
Definition in_local (desc : RSpan) (k : buffer) : Prop := keys_cover (local_prefix (RSpan_Key desc)) (local_prefix (RSpan_EndKey desc)) k.
Definition in_global (desc : RSpan) (k : buffer) : Prop := keys_cover (RSpan_Key (RSpan_KeySpan desc)) (RSpan_EndKey desc) k.
Definition in_desc (desc : RSpan) (k : buffer) : Prop := in_local desc k \/ in_global desc k.

Lemma local_keys_ok desc : desc_ok desc -> keys_ok (local_prefix (RSpan_Key desc)) (local_prefix (RSpan_EndKey desc)).
Proof.
  intros [Bs Be Hlt]. assert (forall k, Forall is_byte k -> Forall is_byte (local_prefix k)) as Hb by (intros k Hk; apply Forall_app; split; [by apply (bool_decide_unpack _); vm_compute|by apply bytes_code_bytes]).
  split_and!; [by apply Hb|by apply Hb|right]. unfold local_prefix. pose proof (range_local_order LocalRangePrefix (RSpan_Key desc) (RSpan_EndKey desc) [] [] Bs Be) as Ho. rewrite !app_nil_r in Ho. apply Ho.
  unfold RSpan_KeySpan, Key_Equal in Hlt. case_bool_decide as Ek; cbn in Hlt; [|done]. rewrite Ek. destruct (RSpan_EndKey desc) as [|x l] eqn:E; [done|]. done.
Qed.

Lemma global_keys_ok desc : desc_ok desc -> keys_ok (RSpan_Key (RSpan_KeySpan desc)) (RSpan_EndKey desc).
Proof.
  intros [Bs Be Hlt]. split_and!; [|done|by right]. unfold RSpan_KeySpan. destruct (Key_Equal _ _); [|done]. by apply (bool_decide_unpack _); vm_compute.
Qed.

Section handover.
Context {C : Type} `{CacheLaws C}.
Implicit Types c : C.

Section collect.
Context (Segment_Size : Segment -> Z) (ReadSpan_Size : ReadSpan -> Z) (sort : (ReadSpan -> ReadSpan -> bool) -> list ReadSpan -> list ReadSpan).

(** What sort.Sort documents. *)
Hypothesis sort_perm : forall less l, Permutation (sort less l) l.
Hypothesis sort_sorted : forall less l, (less = readSpansByDecrTime \/ less = readSpansByKey) -> StronglySorted (fun s t => less t s = false) (sort less l).

Lemma serializeSegment_spec start end_ budget c : cache_ok c -> cache_fits c -> keys_ok start end_ ->
  exists c' seg, serializeSegment Segment_Size ReadSpan_Size sort start end_ budget c = Ret (c', seg) /\ cache_ok c' /\ (forall k, cache_value c' k = cache_value c k) /\
    seg_fits seg /\ forall k, Forall is_byte k -> keys_cover start end_ k -> val_le (cache_value c k) (seg_at seg k).
Proof.
  intros Hc Hf Hk. unfold serializeSegment. destruct (budget >? 0).
  - destruct (Serialize_law start end_ c Hc Hk Hf) as (c' & seg & E & Hc' & Hv & (Ws & Fs & Ss) & Hat). rewrite E. cbn [obind].
    destruct (Segment_Compress_spec Segment_Size ReadSpan_Size sort sort_perm sort_sorted seg budget Ws) as (W' & L' & _).
    destruct (Segment_Compress_in read_fits Segment_Size ReadSpan_Size sort seg budget sort_perm Ss) as (S' & Hlw). eexists c', _. split; [done|]. split_and!; [done|done| |].
    + split_and!; [done| |done]. destruct Hlw as [-> | (v & Hv' & ->)]; [done|]. apply fits_low, fits_ts. by apply read_fits_fits.
    + intros k Bk Hcov. eapply val_le_trans; [by apply Hat|apply L'].
  - destruct (GetMax_law start end_ c Hc) as (c' & ts & x & E & Hc' & Hv & Hcov & _ & Hfits). rewrite E. cbn [obind]. eexists c', _. split; [done|]. split_and!; [done|done| |].
    + apply seg_fits_low. apply (fits_ts (mkReadSpanVal ts x)). by apply Hfits.
    + intros k _ Hk'. exact (val_le_low_ts _ _ (Hcov k Hk')).
Qed.

Lemma collect_spec desc localBudget globalBudget c : cache_ok c -> cache_fits c -> desc_ok desc ->
  exists c' s, collectReadSummaryFromTimestampCache Segment_Size ReadSpan_Size sort desc localBudget globalBudget c = Ret (c', s) /\ cache_ok c' /\
    (forall k, cache_value c' k = cache_value c k) /\ summary_fits s /\ forall k, Forall is_byte k ->
      (in_local desc k -> val_le (cache_value c k) (seg_at (sum_Local s) k)) /\ (in_global desc k -> val_le (cache_value c k) (seg_at (sum_Global s) k)).
Proof.
  intros Hc Hf Hd. unfold collectReadSummaryFromTimestampCache. rewrite !MakeRangeKeyPrefix_eq. cbn [obind].
  destruct (serializeSegment_spec (local_prefix (RSpan_Key desc)) (local_prefix (RSpan_EndKey desc)) localBudget c Hc Hf) as (c1 & l & E1 & O1 & V1 & F1 & A1); [by apply local_keys_ok|].
  rewrite E1. cbn [obind]. destruct (serializeSegment_spec (RSpan_Key (RSpan_KeySpan desc)) (RSpan_EndKey desc) globalBudget c1 O1) as (c2 & g & E2 & O2 & V2 & F2 & A2); [intros k; rewrite V1; apply Hf|by apply global_keys_ok|].
  change (RSpan_EndKey (RSpan_KeySpan desc)) with (RSpan_EndKey desc). rewrite E2. cbn [obind]. eexists c2, _. split; [done|]. split_and!; [done|intros k; by rewrite V2, V1|done|].
  intros k Bk. cbn [sum_Local sum_Global]. split; intros Hin; [by apply A1|]. rewrite <- V1. by apply A2.
Qed.

Lemma GetCurrentReadSummary_spec desc localBudget globalBudget closedTS c : cache_ok c -> cache_fits c -> desc_ok desc -> ts_fits closedTS ->
  exists c' s, GetCurrentReadSummary Segment_Size ReadSpan_Size sort desc localBudget globalBudget closedTS c = Ret (c', Some s) /\ cache_ok c' /\
    (forall k, cache_value c' k = cache_value c k) /\ summary_fits s /\ forall k, Forall is_byte k ->
      (in_local desc k -> val_le (ratchet (cache_value c k) (low closedTS)) (seg_at (sum_Local s) k)) /\
      (in_global desc k -> val_le (ratchet (cache_value c k) (low closedTS)) (seg_at (sum_Global s) k)).
Proof.
  intros Hc Hf Hd Ht. unfold GetCurrentReadSummary. destruct (collect_spec desc localBudget globalBudget c Hc Hf Hd) as (c' & [l g] & E & O & V & [Fl Fg] & A). rewrite E. cbn [obind sum_Local sum_Global] in *.
  destruct (Segment_Merge_fits l (mkSegment closedTS []) Fl) as (l' & El & Fl' & Al); [by apply seg_fits_low|].
  destruct (Segment_Merge_fits g (mkSegment closedTS []) Fg) as (g' & Eg & Fg' & Ag); [by apply seg_fits_low|].
  unfold ReadSummary_Merge, FromTimestamp. cbn [sum_Local sum_Global]. rewrite El, Eg. eexists c', _. split; [done|]. split_and!; [done|done|done|].
  intros k Bk. destruct (A k Bk) as [A1 A2]. cbn [sum_Local sum_Global]. rewrite Al, Ag by done. split; intros Hin; (apply val_le_join; [auto|apply val_le_refl]).
Qed.

End collect.

Lemma apply_spans_spec spans c : cache_ok c -> Forall span_wf spans -> spans_in read_fits spans ->
  exists c', apply_spans spans c = Ret c' /\ cache_ok c' /\ cache_le c c' /\
    forall s k, s ∈ spans -> Forall is_byte k -> len k < maxKeySize -> covers s k = true -> val_le (sp_value s) (cache_value c' k).
Proof.
  intros Hc Hw Hin. revert c Hc. induction Hw as [|s spans Ws Hw IH]; intros c Hc; cbn [apply_spans]; [exists c; split_and!; [done|done|done|by intros ?? ?%elem_of_nil]|].
  apply Forall_cons in Hin as [Fs Hin]. destruct (Add_law (sp_key s) (sp_endKey s) (rv_ts (sp_value s)) (rv_txnID (sp_value s)) c Hc (span_keys_ok s Ws)) as (c1 & E1 & O1 & L1 & R1).
  { apply read_fits_fits in Fs. by destruct (sp_value s). }
  rewrite E1. cbn [obind]. destruct (IH Hin c1 O1) as (c2 & E2 & O2 & L2 & R2). exists c2. split_and!; [done|done|by transitivity c1|].
  intros t k [->|Ht]%elem_of_cons Bk Hk Hcov; [|by apply R2]. eapply val_le_trans; [|apply L2]. replace (sp_value s) with (mkReadSpanVal (rv_ts (sp_value s)) (rv_txnID (sp_value s))) by by destruct (sp_value s).
  apply R1; [done|by apply covers_keys].
Qed.

Lemma applySegment_spec start end_ seg c : cache_ok c -> keys_ok start end_ -> seg_fits seg ->
  exists c', applySegment start end_ seg c = Ret c' /\ cache_ok c' /\ cache_le c c' /\
    forall k, Forall is_byte k -> len k < maxKeySize -> keys_cover start end_ k -> val_le (seg_at seg k) (cache_value c' k).
Proof.
  intros Hc Hk (Ws & Fs & Ss). unfold applySegment. destruct (Add_law start end_ (seg_LowWater seg) uuid_Nil c Hc Hk Fs) as (c1 & E1 & O1 & L1 & R1). rewrite E1. cbn [obind].
  destruct (apply_spans_spec (seg_ReadSpans seg) c1 O1) as (c2 & E2 & O2 & L2 & R2); [|done|].
  { apply Forall_forall. intros s Hs. by destruct (spans_from_elem [] _ s Ws Hs). }
  exists c2. split_and!; [done|done|by transitivity c1|]. intros k Bk Hlen Hcov. assert (val_le (low (seg_LowWater seg)) (cache_value c2 k)) as Hlow by (eapply val_le_trans; [by apply R1|apply L2]).
  unfold seg_at. destruct (spans_at (seg_ReadSpans seg) k) as [v|] eqn:Ev; [|done]. apply spans_at_inv in Ev as (s & Hs & Hc' & <-). apply val_le_lub; [done|by apply R2].
Qed.

Lemma apply_summary_spec desc s c : cache_ok c -> desc_ok desc -> summary_fits s ->
  exists c', applyReadSummaryToTimestampCache desc s c = Ret c' /\ cache_ok c' /\ cache_le c c' /\ forall k, Forall is_byte k -> len k < maxKeySize ->
    (in_local desc k -> val_le (seg_at (sum_Local s) k) (cache_value c' k)) /\ (in_global desc k -> val_le (seg_at (sum_Global s) k) (cache_value c' k)).
Proof.
  intros Hc Hd [Fl Fg]. unfold applyReadSummaryToTimestampCache. rewrite !MakeRangeKeyPrefix_eq. cbn [obind].
  destruct (applySegment_spec _ _ _ c Hc (local_keys_ok desc Hd) Fl) as (c1 & E1 & O1 & L1 & R1). rewrite E1. cbn [obind].
  destruct (applySegment_spec _ _ _ c1 O1 (global_keys_ok desc Hd) Fg) as (c2 & E2 & O2 & L2 & R2). change (RSpan_EndKey (RSpan_KeySpan desc)) with (RSpan_EndKey desc). exists c2.
  split_and!; [done|done|by transitivity c1|]. intros k Bk Hk. split; intros Hin; [|by apply R2]. eapply val_le_trans; [by apply R1|apply L2].
Qed.

Lemma apply_timestamp_spec desc t c : cache_ok c -> desc_ok desc -> ts_fits t ->
  exists c', applyReadSummaryToTimestampCache desc (FromTimestamp t) c = Ret c' /\ cache_ok c' /\ cache_le c c' /\
    forall k, Forall is_byte k -> len k < maxKeySize -> in_desc desc k -> val_le (low t) (cache_value c' k).
Proof.
  intros Hc Hd Ht. destruct (apply_summary_spec desc (FromTimestamp t) c Hc Hd (FromTimestamp_fits t Ht)) as (c' & E & O & L & R). exists c'. split_and!; [done|done|done|].
  intros k Bk Hk. destruct (R k Bk Hk) as [R1 R2]. intros [Hi|Hi]; [by apply R1|by apply R2].
Qed.

(** ** Leases and merges *)

Section theorems.
Context (Segment_Size : Segment -> Z) (ReadSpan_Size : ReadSpan -> Z) (sort : (ReadSpan -> ReadSpan -> bool) -> list ReadSpan -> list ReadSpan).

Hypothesis sort_perm : forall less l, Permutation (sort less l) l.
Hypothesis sort_sorted : forall less l, (less = readSpansByDecrTime \/ less = readSpansByKey) -> StronglySorted (fun s t => less t s = false) (sort less l).

(** The second cache protects, for the keys of a range, what the first does, and what
    followers may have read up to the closed timestamp. *)
Definition takes_over (desc : RSpan) (closedTS : Timestamp) c c' : Prop :=
  forall k, Forall is_byte k -> len k < maxKeySize -> in_desc desc k -> val_le (cache_value c k) (cache_value c' k) /\ ts_le closedTS (rv_ts (cache_value c' k)).

Lemma summary_taken desc localBudget globalBudget closedTS c1 c2 : cache_ok c1 -> cache_fits c1 -> cache_ok c2 -> desc_ok desc -> ts_fits closedTS ->
  exists c1' s c2', GetCurrentReadSummary Segment_Size ReadSpan_Size sort desc localBudget globalBudget closedTS c1 = Ret (c1', Some s) /\ cache_ok c1' /\
    (forall k, cache_value c1' k = cache_value c1 k) /\ applyReadSummaryToTimestampCache desc s c2 = Ret c2' /\ cache_ok c2' /\ cache_le c2 c2' /\ takes_over desc closedTS c1 c2'.
Proof.
  intros O1 F1 O2 Hd Ht. destruct (GetCurrentReadSummary_spec Segment_Size ReadSpan_Size sort sort_perm sort_sorted desc localBudget globalBudget closedTS c1 O1 F1 Hd Ht) as (c1' & s & E & O1' & V1 & Fs & A).
  destruct (apply_summary_spec desc s c2 O2 Hd Fs) as (c2' & E2 & O2' & L2 & R). exists c1', s, c2'. split_and!; try done. intros k Bk Hk Hin.
  assert (val_le (ratchet (cache_value c1 k) (low closedTS)) (cache_value c2' k)) as Hle.
  { destruct (A k Bk) as [A1 A2], (R k Bk Hk) as [R1 R2]. destruct Hin as [Hi|Hi]; eapply val_le_trans; auto. }
  split; [by eapply val_le_trans; [apply val_le_l|]|]. apply (val_le_ts (low closedTS)). by eapply val_le_trans; [apply val_le_r|].
Qed.

(** C8. A lease that changes hands keeps the reads of the previous leaseholder protected.
    With the summary that the previous leaseholder collected, whatever its budgets, the
    cache of the new one protects every key of the range, local ones included, as the
    old cache did, and up to the closed timestamp, which followers may have read at.
    Without a summary it protects all of them up to the start of the lease, which the
    clock of the new leaseholder has then passed. *)
Theorem lease_keeps_reads desc localBudget globalBudget closedTS allowLeaseJump prevLease newLease r clock c1 c2 :
  cache_ok c1 -> cache_fits c1 -> cache_ok c2 -> desc_ok desc -> ts_fits closedTS -> ts_fits (l_Start newLease) ->
  exists c1' s, GetCurrentReadSummary Segment_Size ReadSpan_Size sort desc localBudget globalBudget closedTS c1 = Ret (c1', Some s) /\ cache_ok c1' /\
    (forall k, cache_value c1' k = cache_value c1 k) /\
    (forall r' clock' sum, leasePostApply allowLeaseJump prevLease newLease (Some s) r clock = Ret (r', clock', Some sum) ->
      exists c2', apply_lease_summary desc (Some sum) c2 = Ret c2' /\ cache_ok c2' /\ cache_le c2 c2' /\ takes_over desc closedTS c1 c2' /\ ts_le (l_Start newLease) clock') /\
    (forall r' clock' sum, leasePostApply allowLeaseJump prevLease newLease None r clock = Ret (r', clock', Some sum) ->
      exists c2', apply_lease_summary desc (Some sum) c2 = Ret c2' /\ cache_ok c2' /\ cache_le c2 c2' /\ ts_le (l_Start newLease) clock' /\
        forall k, Forall is_byte k -> len k < maxKeySize -> in_desc desc k -> ts_le (l_Start newLease) (rv_ts (cache_value c2' k))).
Proof.
  intros O1 F1 O2 Hd Ht Hs. destruct (summary_taken desc localBudget globalBudget closedTS c1 c2 O1 F1 O2 Hd Ht) as (c1' & s & c2' & E1 & O1' & V1 & E2 & O2' & L2 & T).
  assert (forall prior r' clock' sum, leasePostApply allowLeaseJump prevLease newLease prior r clock = Ret (r', clock', Some sum) -> sum = default (FromTimestamp (l_Start newLease)) prior /\ ts_le (l_Start newLease) clock') as Hpost.
  { intros prior r' clock' sum. unfold leasePostApply. destruct (if negb _ then _ else _); [|done]. cbn [obind]. destruct (_ && _); [|done]. intros [= _ <- <-]. split; [done|]. apply Timestamp_Forward_le. }
  exists c1', s. split_and!; try done.
  - intros r' clock' sum [-> Hcl]%Hpost. by exists c2'.
  - intros r' clock' sum [-> Hcl]%Hpost. destruct (apply_timestamp_spec desc (l_Start newLease) c2 O2 Hd Hs) as (c3 & E3 & O3 & L3 & R3). exists c3. split_and!; try done. intros k Bk Hk Hin. apply (val_le_ts (low _)). by apply R3.
Qed.

(** After a merge, the leaseholder of the left range protects what was read of the
    right one: with a summary, what the right leaseholder's cache did, without one, all
    up to the freeze, and in either case all up to the right range's closed timestamp,
    which is lost with it. *)
Theorem merge_keeps_reads rightDesc localBudget globalBudget closedTS freezeStart rightClosedTS rightLeaseholder c1 c2 :
  cache_ok c1 -> cache_fits c1 -> cache_ok c2 -> desc_ok rightDesc -> ts_fits closedTS -> ts_fits freezeStart -> ts_fits rightClosedTS ->
  exists c1' s c3 c4, GetCurrentReadSummary Segment_Size ReadSpan_Size sort rightDesc localBudget globalBudget closedTS c1 = Ret (c1', Some s) /\
    MergeRange_tscache true rightLeaseholder rightDesc freezeStart rightClosedTS (Some s) c2 = Ret c3 /\ MergeRange_tscache true rightLeaseholder rightDesc freezeStart rightClosedTS None c2 = Ret c4 /\
    cache_ok c3 /\ cache_ok c4 /\ cache_le c2 c3 /\ cache_le c2 c4 /\ takes_over rightDesc rightClosedTS c2 c3 /\ takes_over rightDesc rightClosedTS c2 c4 /\
    (rightLeaseholder = false -> takes_over rightDesc closedTS c1 c3 /\ takes_over rightDesc freezeStart c2 c4).
Proof.
  intros O1 F1 O2 Hd Ht Hf Hr. destruct (summary_taken rightDesc localBudget globalBudget closedTS c1 c2 O1 F1 O2 Hd Ht) as (c1' & s & c2' & E1 & _ & _ & E2 & O2' & L2 & T).
  assert (forall c, cache_ok c -> exists c', applyReadSummaryToTimestampCache rightDesc (FromTimestamp rightClosedTS) c = Ret c' /\ cache_ok c' /\ cache_le c c' /\ takes_over rightDesc rightClosedTS c c') as Hclosed.
  { intros c Oc. destruct (apply_timestamp_spec rightDesc rightClosedTS c Oc Hd Hr) as (c' & E & O & L & R). exists c'. split_and!; try done. intros k Bk Hk Hin. split; [apply L|]. apply (val_le_ts (low _)). by apply R. }
  assert (forall d t a c c', takes_over d t a c -> cache_le c c' -> takes_over d t a c') as Hmono.
  { intros d t a c c' To Le k Bk Hk Hin. destruct (To k Bk Hk Hin) as [T1 T2]. split; [by eapply val_le_trans|]. etransitivity; [exact T2|]. by apply val_le_ts. }
  assert (forall d t a a' c, cache_le a a' -> takes_over d t a' c -> takes_over d t a c) as Hanti.
  { intros d t a a' c Le To k Bk Hk Hin. destruct (To k Bk Hk Hin) as [T1 T2]. split; [|done]. by eapply val_le_trans. }
  exists c1', s. unfold MergeRange_tscache. destruct rightLeaseholder; cbn [negb obind].
  - destruct (Hclosed c2 O2) as (c3 & E3 & O3 & L3 & T3). exists c3, c3. by split_and!.
  - rewrite E2. cbn [obind]. destruct (Hclosed c2' O2') as (c3 & E3 & O3 & L3 & T3). destruct (apply_timestamp_spec rightDesc freezeStart c2 O2 Hd Hf) as (c & E & O & L & R). rewrite E. cbn [obind].
    destruct (Hclosed c O) as (c4 & E4 & O4 & L4 & T4). exists c3, c4. split_and!; try done; [by transitivity c2'|by transitivity c|by apply (Hanti _ _ _ c2')|by apply (Hanti _ _ _ c)|].
    intros _. split; [by apply (Hmono _ _ _ c2')|]. apply (Hmono _ _ _ c); [|done]. intros k Bk Hk Hin. split; [apply L|]. apply (val_le_ts (low _)). by apply R.
Qed.

End theorems.
End handover.
