(* ===== verification/BatchReads.v ===== *)
(** * What a batch records in the timestamp cache (kv/kvserver/replica_tscache.go, replica_send.go)

    The calls that the requests of a batch make to the cache can be made, and they cover
    what the requests read: every key of the request's span that is not left for another
    request to resume at. *)

From S2P Require Import Prelude Hlc Encoding EncodingOrder EncodingBytes EncodingSafe Keys KeysOrder KeysSpec ReadSummary NodeLiveness Lease EngineKeys Requests TsCache TsCachePage TsCacheSpec Cache.
From S2P Require Import ReplicaTsCache ReplicaTsCacheSpec ReadHandover.

(** A time at which something can be read. *)
Definition time_ok (t : Timestamp) : Prop := ts_lt (mkTimestamp 0 0) t /\ WallTime t < MaxInt64 /\ 0 <= Logical t <= MaxInt32.

Lemma time_ok_fits t x : time_ok t -> fits (mkReadSpanVal t x).
Proof. intros Ht. by apply read_fits_fits. Qed.

(** A key with an address, at which a transaction record can be. *)
Definition anchor (key : buffer) : Prop := exists rk, MustAddr key = Ret rk /\ Forall is_byte rk.

Definition marker_key (suffix rk txnID : buffer) : buffer := LocalRangePrefix ++ bytes_code rk ++ suffix ++ txnID.

Lemma tombstone_eq key rk txnID : MustAddr key = Ret rk -> transactionTombstoneMarker key txnID = Ret (marker_key localTxnTombstoneMarkerSuffix rk txnID).
Proof. intros E. unfold transactionTombstoneMarker. rewrite E. cbn [obind]. by apply MakeRangeKey_eq. Qed.

Lemma push_eq key rk txnID : MustAddr key = Ret rk -> transactionPushMarker key txnID = Ret (marker_key localTxnPushMarkerSuffix rk txnID).
Proof. intros E. unfold transactionPushMarker. rewrite E. cbn [obind]. by apply MakeRangeKey_eq. Qed.

Lemma marker_bytes suffix rk txnID : Forall is_byte suffix -> Forall is_byte rk -> Forall is_byte txnID -> Forall is_byte (marker_key suffix rk txnID).
Proof. intros H1 H2 H3. unfold marker_key. apply Forall_app. split; [by apply (bool_decide_unpack _); vm_compute|]. apply Forall_app. split; [by apply bytes_code_bytes|]. by apply Forall_app. Qed.

(** The keys of a range's markers are local keys of the range. *)
Lemma marker_local desc suffix rk txnID : desc_ok desc -> Forall is_byte rk -> bytes_le (RSpan_Key desc) rk -> bytes_lt rk (RSpan_EndKey desc) -> in_local desc (marker_key suffix rk txnID).
Proof.
  intros [Bs Be Hlt] Br Hs He. unfold in_local, keys_cover. rewrite decide_False by done. unfold local_prefix, marker_key.
  pose proof (range_local_order LocalRangePrefix rk (RSpan_EndKey desc) (suffix ++ txnID) [] Br Be He) as H2. rewrite app_nil_r in H2. split; [|done].
  destruct (bytes_lt_total (RSpan_Key desc) rk) as [L|[->|L]]; [|unfold bytes_le; rewrite bytes_lt_prefix|by destruct Hs].
  - pose proof (range_local_order LocalRangePrefix (RSpan_Key desc) rk [] (suffix ++ txnID) Bs Br L) as H1. rewrite app_nil_r in H1. key_order.
  - rewrite <- (app_nil_r (bytes_code rk)) at 2. rewrite bytes_lt_prefix. apply bytes_lt_nil_r.
Qed.

(** ** Responses *)

(** Where a scan can be resumed: at its end, or, if it is reversed, at its start. *)
Definition resume_ok (h : RequestHeader) (resume : Span) : Prop :=
  Span_EndKey resume = Span_EndKey h /\ Forall is_byte (Span_Key resume) /\ bytes_le (Span_Key h) (Span_Key resume) /\ bytes_lt (Span_Key resume) (Span_EndKey h).
Definition reverse_resume_ok (h : RequestHeader) (resume : Span) : Prop :=
  Span_Key resume = Span_Key h /\ Forall is_byte (Span_EndKey resume) /\ bytes_lt (Span_Key h) (Span_EndKey resume) /\ bytes_le (Span_EndKey resume) (Span_EndKey h).

Definition span_ok (sp : Span) : Prop := keys_ok (Span_Key sp) (Span_EndKey sp).

(** What evaluation returns for a request. *)
Definition reply_ok (br : option BatchResponse) (pErr : option kvError) (req : Request) (resp : option Response) : Prop :=
  match req with
  | EndTxnRequest h => anchor (Span_Key h) /\ exists released, resp = Some (EndTxnResponse released) /\ Forall span_ok released /\
      (released <> [] -> exists txn, br ≫= br_Txn = Some txn /\ time_ok (txn_WriteTimestamp txn))
  | HeartbeatTxnRequest h => anchor (Span_Key h)
  | RecoverTxnRequest h => anchor (Span_Key h) /\ exists t, resp = Some (RecoverTxnResponse t) /\ Forall is_byte (txn_ID t)
  | PushTxnRequest h _ => anchor (Span_Key h) /\ exists t, resp = Some (PushTxnResponse t) /\ Forall is_byte (txn_ID t) /\ time_ok (txn_WriteTimestamp t) /\ time_ok (txn_MinTimestamp t)
  | GetRequest h _ _ => (br = None /\ pErr = None) \/ exists v resume, resp = Some (GetResponse v resume) /\ (resume = None \/ resume = Some h)
  | ScanRequest h _ _ _ => (br = None /\ pErr = None) \/ exists r, resp = Some (ScanResponse r) /\ forall resume, sr_ResumeSpan r = Some resume -> resume_ok h resume
  | ReverseScanRequest h _ _ _ => (br = None /\ pErr = None) \/ exists r, resp = Some (ReverseScanResponse r) /\ forall resume, sr_ResumeSpan r = Some resume -> reverse_resume_ok h resume
  | QueryIntentRequest _ txn _ => time_ok (txn_WriteTimestamp txn) /\ (pErr <> None \/ exists found, resp = Some (QueryIntentResponse found))
  | ResolveIntentRequest _ => exists t, resp = Some (ResolveIntentResponse t) /\ (t = mkTimestamp 0 0 \/ time_ok t)
  | ResolveIntentRangeRequest _ => exists t, resp = Some (ResolveIntentRangeResponse t) /\ (t = mkTimestamp 0 0 \/ time_ok t)
  | _ => True
  end.

Lemma call_point key ts txnID : Forall is_byte key -> time_ok ts -> call_ok (mkAdd key [] ts txnID).
Proof. intros Hk Ht. split; [split_and!; [done|by constructor|by left]|by apply time_ok_fits]. Qed.

Lemma call_keys start end_ ts txnID : keys_ok start end_ -> time_ok ts -> call_ok (mkAdd start end_ ts txnID).
Proof. intros Hk Ht. split; [done|by apply time_ok_fits]. Qed.

Lemma suffix_bytes : Forall is_byte localTxnTombstoneMarkerSuffix /\ Forall is_byte localTxnPushMarkerSuffix.
Proof. split; by apply (bool_decide_unpack _); vm_compute. Qed.

#[local] Hint Resolve call_point call_keys marker_bytes suffix_bytes : reads.

(** The calls of a request can be made. *)
Lemma request_calls_ok br pErr ts txnID req resp : span_ok (Header req) -> time_ok ts -> Forall is_byte txnID -> reply_ok br pErr req resp ->
  exists calls, request_calls br pErr ts txnID req resp = Ret calls /\ Forall call_ok calls.
Proof.
  intros Hh Ht Hx Hr. destruct suffix_bytes as [Bt Bp]. assert (exists calls, Ret [mkAdd (Span_Key (Header req)) (Span_EndKey (Header req)) ts txnID] = Ret calls /\ Forall call_ok calls) as Hdef.
  { eexists. split; [done|]. constructor; [|done]. by apply call_keys. }
  assert (exists calls, Ret [] = Ret calls /\ Forall call_ok calls) as Hnil by by exists [].
  destruct req; try exact Hdef; cbn [request_calls reply_ok Header] in *.
  - destruct Hr as [[-> ->]|(v & resume & -> & _)]; [done|]. by destruct br, pErr, resume.
  - destruct (GetDetail pErr) as [[]|]; done.
  - destruct (GetDetail pErr) as [[]|]; done.
  - destruct Hr as [[-> ->]|(r & -> & Hr)]; [done|].
    assert (exists calls, match sr_ResumeSpan r with Some resume => if Key_Equal (Span_Key h) (Span_Key resume) then Ret [] else Ret [mkAdd (Span_Key h) (Span_Key resume) ts txnID]
      | None => Ret [mkAdd (Span_Key h) (Span_EndKey h) ts txnID] end = Ret calls /\ Forall call_ok calls) as Hs; [|by destruct br, pErr].
    destruct (sr_ResumeSpan r) as [resume|]; [|done]. destruct (Hr resume eq_refl) as (_ & R1 & R2 & R3). unfold Key_Equal. case_bool_decide as E; [done|]. eexists. split; [done|].
    constructor; [|done]. apply call_keys; [|done]. split_and!; [apply Hh|done|right]. destruct (bytes_lt_total (Span_Key h) (Span_Key resume)) as [?|[?|?]]; [done|done|by destruct R2].
  - destruct Hr as [[-> ->]|(r & -> & Hr)]; [done|].
    assert (exists calls, match sr_ResumeSpan r with Some resume => if Key_Equal (Span_EndKey h) (Span_EndKey resume) then Ret [] else Ret [mkAdd (Span_EndKey resume) (Span_EndKey h) ts txnID]
      | None => Ret [mkAdd (Span_Key h) (Span_EndKey h) ts txnID] end = Ret calls /\ Forall call_ok calls) as Hs; [|by destruct br, pErr].
    destruct (sr_ResumeSpan r) as [resume|]; [|done]. destruct (Hr resume eq_refl) as (_ & R1 & R2 & R3). unfold Key_Equal. case_bool_decide as E; [done|]. eexists. split; [done|].
    constructor; [|done]. apply call_keys; [|done]. split_and!; [done|apply Hh|right]. destruct (bytes_lt_total (Span_EndKey resume) (Span_EndKey h)) as [?|[?|?]]; [done|by destruct E|by destruct R3].
  - destruct Hr as ((rk & Er & Br) & released & -> & Hrel & Htxn). rewrite (tombstone_eq _ _ _ Er). cbn [obind]. destruct released as [|sp rel]; [eexists; split; [done|]; constructor; [|done]; auto with reads|].
    destruct Htxn as (txn & -> & Hw); [done|]. eexists. split; [done|]. constructor; [auto with reads|]. apply Forall_fmap. eapply Forall_impl; [exact Hrel|]. intros sp' Hsp. by apply call_keys.
  - destruct Hr as (rk & Er & Br). rewrite (tombstone_eq _ _ _ Er). cbn [obind]. eexists. split; [done|]. constructor; [auto with reads|done].
  - destruct Hr as ((rk & Er & Br) & t & -> & Bx & H1 & H2). rewrite (tombstone_eq _ _ _ Er), (push_eq _ _ _ Er). destruct (txn_Status t); cbn [obind]; try done; (eexists; split; [done|]; constructor; [auto with reads|done]).
  - destruct Hr as ((rk & Er & Br) & t & -> & Bx). rewrite (tombstone_eq _ _ _ Er). destruct (TransactionStatus_IsFinalized _); cbn [obind]; [|done]. eexists. split; [done|]. constructor; [auto with reads|done].
  - destruct Hr as [Hw Hr]. case_bool_decide; [|done].
    assert (exists missing : bool, match pErr with Some _ => Ret (match GetDetail pErr with Some IntentMissingError => true | _ => false end)
      | None => match resp with Some (QueryIntentResponse found) => Ret (negb found) | _ => bad_type end end = Ret missing) as (missing & ->).
    { destruct pErr; [by eexists|]. destruct Hr as [?|[found ->]]; [done|by eexists]. }
    cbn [obind]. destruct missing; [|done]. eexists. split; [done|]. constructor; [by apply call_keys|done].
  - destruct Hr as (t & -> & Hr). eexists. split; [done|]. unfold Timestamp_IsEmpty. case_bool_decide; cbn [negb]; [done|]. constructor; [|done]. apply call_keys; [done|]. by destruct Hr.
  - destruct Hr as (t & -> & Hr). eexists. split; [done|]. unfold Timestamp_IsEmpty. case_bool_decide; cbn [negb]; [done|]. constructor; [|done]. apply call_keys; [done|]. by destruct Hr.
Qed.

(** ** Batches *)

Definition skips_locked (ba : BatchRequest) (req : Request) : bool := bool_decide (ba_WaitPolicy ba = SkipLocked) && CanSkipLocked req.

(** The request at [i] and what evaluation returned for it. *)
Definition batch_request_ok (testBuild : bool) (ba : BatchRequest) (br : option BatchResponse) (pErr : option kvError) (i : Z) (req : Request) : Prop :=
  span_ok (Header req) /\
  match br with
  | Some b => exists r, slice_get (br_Responses b) i = Ret r /\
      if skips_locked ba req then exists ks e, ResponseKeyIterate testBuild req r = Ret (ks, e) /\ Forall (Forall is_byte) ks else reply_ok br pErr req (Some r)
  | None => skip_update pErr i req = false -> reply_ok br pErr req None
  end.

Record batch_ok (testBuild : bool) (ba : BatchRequest) (br : option BatchResponse) (pErr : option kvError) : Prop := {
  bo_ts : time_ok (batch_ts ba br);
  bo_txn : Forall is_byte (batch_txnID ba);
  bo_requests i req : ba_Requests ba !! i = Some req -> UpdatesTimestampCache req = true -> batch_request_ok testBuild ba br pErr (Z.of_nat i) req
}.

Lemma update_calls_ok testBuild ba br pErr ts txnID i req : time_ok ts -> Forall is_byte txnID -> (UpdatesTimestampCache req = true -> batch_request_ok testBuild ba br pErr i req) ->
  exists calls, update_calls testBuild ba br pErr ts txnID i req = Ret calls /\ Forall call_ok calls.
Proof.
  intros Ht Hx Hr. unfold update_calls. destruct (UpdatesTimestampCache req); cbn [negb]; [|by exists []]. destruct (Hr eq_refl) as [Hh Hb]. destruct br as [b|].
  - destruct Hb as (r & -> & Hb). cbn [obind]. destruct (skip_update pErr i req); [by exists []|]. unfold skips_locked in Hb. destruct (_ && _).
    + destruct Hb as (ks & e & -> & Hk). cbn [obind]. eexists. split; [done|]. apply Forall_fmap. eapply Forall_impl; [exact Hk|]. intros k Bk. by apply call_point.
    + by apply request_calls_ok.
  - cbn [obind]. destruct (skip_update pErr i req); [by exists []|]. apply request_calls_ok; auto.
Qed.

(** The calls of the requests from the one at [i] on. *)
Fixpoint batch_calls (testBuild : bool) (ba : BatchRequest) (br : option BatchResponse) (pErr : option kvError) (i : Z) (reqs : list Request) : outcome (list add_call) :=
  match reqs with
  | [] => Ret []
  | req :: reqs =>
    let! calls := update_calls testBuild ba br pErr (batch_ts ba br) (batch_txnID ba) i req in
    let! rest := batch_calls testBuild ba br pErr (i + 1) reqs in
    Ret (calls ++ rest)
  end.

Lemma batch_calls_ok testBuild ba br pErr : batch_ok testBuild ba br pErr -> exists calls, batch_calls testBuild ba br pErr 0 (ba_Requests ba) = Ret calls /\ Forall call_ok calls /\
  forall i req own, ba_Requests ba !! i = Some req -> update_calls testBuild ba br pErr (batch_ts ba br) (batch_txnID ba) (Z.of_nat i) req = Ret own -> own ⊆ calls.
Proof.
  intros [Ht Hx Hr]. enough (forall n reqs, (forall i req, reqs !! i = Some req -> UpdatesTimestampCache req = true -> batch_request_ok testBuild ba br pErr (n + Z.of_nat i) req) ->
    exists calls, batch_calls testBuild ba br pErr n reqs = Ret calls /\ Forall call_ok calls /\
      forall i req own, reqs !! i = Some req -> update_calls testBuild ba br pErr (batch_ts ba br) (batch_txnID ba) (n + Z.of_nat i) req = Ret own -> own ⊆ calls) as Hgen by by apply (Hgen 0).
  intros n reqs. revert n. induction reqs as [|req reqs IH]; intros n Hreqs; cbn [batch_calls]; [by exists []|].
  destruct (update_calls_ok testBuild ba br pErr (batch_ts ba br) (batch_txnID ba) n req Ht Hx) as (calls & E & Hc).
  { intros Hu. specialize (Hreqs O req eq_refl Hu). by rewrite Z.add_0_r in Hreqs. }
  destruct (IH (n + 1)) as (rest & E' & Hc' & Hin). { intros i r Hi Hu. specialize (Hreqs (S i) r Hi Hu). by replace (n + 1 + Z.of_nat i) with (n + Z.of_nat (S i)) by lia. }
  rewrite E. cbn [obind]. rewrite E'. cbn [obind]. eexists. split; [done|]. split; [by apply Forall_app|]. intros [|i] r own Hi Ho.
  - injection Hi as ->. rewrite Z.add_0_r, E in Ho. injection Ho as <-. set_solver.
  - replace (n + Z.of_nat (S i)) with (n + 1 + Z.of_nat i) in Ho by lia. specialize (Hin i r own Hi Ho). set_solver.
Qed.

(** Requests that read the whole of their span, but for what is left to resume at. *)
Definition reads_span (req : Request) : bool :=
  UpdatesTimestampCache req &&
  match req with
  | EndTxnRequest _ | HeartbeatTxnRequest _ | RecoverTxnRequest _ | PushTxnRequest _ _ | ConditionalPutRequest _ | InitPutRequest _
  | QueryIntentRequest _ _ _ | ResolveIntentRequest _ | ResolveIntentRangeRequest _ => false
  | _ => true
  end.

Definition resumed (resp : Response) (k : buffer) : Prop :=
  match resp with
  | GetResponse _ (Some sp) => keys_cover (Span_Key sp) (Span_EndKey sp) k
  | ScanResponse r | ReverseScanResponse r => match sr_ResumeSpan r with Some sp => keys_cover (Span_Key sp) (Span_EndKey sp) k | None => False end
  | _ => False
  end.

(** The keys that a request has read: if it skips locked keys, those that it returned. *)
Definition keys_read (ba : BatchRequest) (req : Request) (resp : Response) (k : buffer) : Prop :=
  if skips_locked ba req then exists ks e, ResponseKeyIterate false req resp = Ret (ks, e) /\ k ∈ ks
  else reads_span req = true /\ keys_cover (Span_Key (Header req)) (Span_EndKey (Header req)) k /\ ~ resumed resp k.

Lemma span_calls br ts txnID req r k : reply_ok (Some br) None req (Some r) -> reads_span req = true ->
  keys_cover (Span_Key (Header req)) (Span_EndKey (Header req)) k -> ~ resumed r k ->
  exists calls a, request_calls (Some br) None ts txnID req (Some r) = Ret calls /\ a ∈ calls /\ call_value a = mkReadSpanVal ts txnID /\ keys_cover (add_start a) (add_end a) k.
Proof.
  intros Hr Hreads Hk Hres. unfold reads_span in Hreads. apply andb_true_iff in Hreads as [_ Hreads].
  assert (exists calls a, Ret [mkAdd (Span_Key (Header req)) (Span_EndKey (Header req)) ts txnID] = Ret calls /\ a ∈ calls /\ call_value a = mkReadSpanVal ts txnID /\ keys_cover (add_start a) (add_end a) k) as Hdef.
  { eexists _, _. split; [done|]. split; [apply list_elem_of_here|done]. }
  destruct req; try exact Hdef; try done; cbn [request_calls reply_ok Header] in *.
  - destruct Hr as [[? _]|(v & resume & [= ->] & [-> | ->])]; [done|exact Hdef|]. by destruct Hres.
  - destruct Hr as [[? _]|(rs & [= ->] & Hr)]; [done|]. cbn [resumed] in Hres. destruct (sr_ResumeSpan rs) as [resume|]; [|exact Hdef]. destruct (Hr resume eq_refl) as (R0 & R1 & R2 & R3).
    unfold keys_cover in *. assert (Span_EndKey h <> []) as Ne by (intros E; rewrite E in R3; by apply bytes_lt_nil_r in R3). rewrite R0 in Hres. rewrite decide_False in Hk, Hres by done.
    assert (bytes_lt k (Span_Key resume)) as Hlt by (destruct (bytes_lt_total k (Span_Key resume)) as [?|[->|?]]; [done| |]; destruct Hres; destruct Hk; split; key_order).
    unfold Key_Equal. case_bool_decide as E; [rewrite E in *; destruct Hk; key_order|]. eexists _, _. split; [done|]. split; [apply list_elem_of_here|]. split; [done|]. cbn.
    rewrite decide_False; [by destruct Hk|]. intros E'. rewrite E' in Hlt. by apply bytes_lt_nil_r in Hlt.
  - destruct Hr as [[? _]|(rs & [= ->] & Hr)]; [done|]. cbn [resumed] in Hres. destruct (sr_ResumeSpan rs) as [resume|]; [|exact Hdef]. destruct (Hr resume eq_refl) as (R0 & R1 & R2 & R3).
    unfold keys_cover in *. assert (Span_EndKey h <> []) as Ne by (intros E; rewrite E in R3; destruct R3; destruct (Span_EndKey resume); [by apply bytes_lt_nil_r in R2|done]).
    assert (Span_EndKey resume <> []) as Ne' by (intros E; rewrite E in R2; by apply bytes_lt_nil_r in R2). rewrite R0 in Hres. rewrite decide_False in Hk by done. rewrite decide_False in Hres by done.
    assert (bytes_le (Span_EndKey resume) k) as Hle by (intros L; destruct Hk; by destruct Hres). unfold Key_Equal. case_bool_decide as E; [rewrite E in *; destruct Hk; key_order|].
    eexists _, _. split; [done|]. split; [apply list_elem_of_here|]. split; [done|]. cbn. rewrite decide_False by done. by destruct Hk.
Qed.

Section batch.
Context {C : Type} `{CacheLaws C}.
Implicit Types c : C.

Lemma add_all_app testBuild st storeID calls calls' c :
  add_all testBuild st storeID (calls ++ calls') c = (let! c := add_all testBuild st storeID calls c in add_all testBuild st storeID calls' c).
Proof. revert c. induction calls as [|a calls IH]; intros c; cbn; [done|]. destruct (addToTSCache testBuild st storeID a c); cbn [obind]; [apply IH|done]. Qed.

(** Updating the cache for a batch is making its calls. *)
Lemma update_calls_all testBuild st storeID ba br pErr calls c :
  batch_calls testBuild ba br pErr 0 (ba_Requests ba) = Ret calls -> updateTimestampCache testBuild st storeID ba br pErr c = add_all testBuild st storeID calls c.
Proof.
  unfold updateTimestampCache. generalize 0 as n. revert calls c. induction (ba_Requests ba) as [|req reqs IH]; intros calls c n; cbn; [by intros [= <-]|].
  destruct (update_calls _ _ _ _ _ _ n req) as [own|]; [|done]. cbn [obind]. destruct (batch_calls _ _ _ _ (n + 1) reqs) as [rest|] eqn:E; [|done]. cbn [obind]. intros [= <-].
  rewrite add_all_app. destruct (add_all testBuild st storeID own c) as [c1|]; cbn [obind]; [by apply IH|done].
Qed.

Lemma endCmds_done_spec ec_st st storeID ba br pErr c :
  cache_ok c -> ba_ReadConsistency ba = CONSISTENT -> lst_State ec_st = VALID -> batch_ok false ba br pErr ->
  exists c', endCmds_done false ec_st st storeID ba br pErr c = Ret c' /\ cache_ok c' /\ cache_le c c' /\
    forall i req, ba_Requests ba !! i = Some req -> exists own, update_calls false ba br pErr (batch_ts ba br) (batch_txnID ba) (Z.of_nat i) req = Ret own /\ Forall (fun a => recorded a c') own.
Proof.
  intros Hc Hcons Hst Hb. destruct (batch_calls_ok false ba br pErr Hb) as (calls & E & Hok & Hin). unfold endCmds_done. rewrite !bool_decide_eq_true_2 by done. cbn [andb].
  rewrite (update_calls_all _ _ _ _ _ _ _ _ E). destruct (add_all_spec st storeID calls c Hc Hok) as (c' & E' & O & L & R). exists c'. split_and!; [done|done|done|].
  intros i req Hi. destruct (update_calls_ok false ba br pErr (batch_ts ba br) (batch_txnID ba) (Z.of_nat i) req) as (own & Eo & _); [apply Hb|apply Hb|by apply (bo_requests _ _ _ _ Hb)|].
  exists own. split; [done|]. apply Forall_forall. intros a Ha. apply (proj1 (Forall_forall _ _) R). by apply (Hin i req own Hi Eo).
Qed.

Lemma slice_get_lookup {A} (l : list A) i x : l !! i = Some x -> slice_get l (Z.of_nat i) = Ret x.
Proof. intros Hx. apply slice_get_Some; [lia|by rewrite Nat2Z.id]. Qed.


(** ** Transactions without a record *)

(** The transaction whose record can not be created any more after a request, if its
    earliest time is up to the given one, and the one that was pushed, with the time. *)
Definition finishes (ts : Timestamp) (txnID : UUID) (req : Request) (resp : Response) : option (UUID * Timestamp) :=
  match req, resp with
  | EndTxnRequest _, _ | HeartbeatTxnRequest _, _ => Some (txnID, ts)
  | RecoverTxnRequest _, RecoverTxnResponse t => if TransactionStatus_IsFinalized (txn_Status t) then Some (txn_ID t, ts) else None
  | PushTxnRequest _ _, PushTxnResponse t => if bool_decide (txn_Status t = ABORTED) then Some (txn_ID t, txn_MinTimestamp t) else None
  | _, _ => None
  end.

Definition pushes (req : Request) (resp : Response) : option (UUID * Timestamp) :=
  match req, resp with
  | PushTxnRequest _ _, PushTxnResponse t => if bool_decide (txn_Status t = PENDING) then Some (txn_ID t, txn_WriteTimestamp t) else None
  | _, _ => None
  end.

(** A marker for a transaction at its key. *)
Definition marks (suffix rk txnID : buffer) (t : Timestamp) (own : list add_call) : Prop :=
  exists a, a ∈ own /\ add_start a = marker_key suffix rk txnID /\ add_end a = [] /\ add_ts a = t.

Lemma marker_calls b ts txnID req resp own rk : request_calls (Some b) None ts txnID req (Some resp) = Ret own -> MustAddr (Span_Key (Header req)) = Ret rk ->
  (forall id t, finishes ts txnID req resp = Some (id, t) -> marks localTxnTombstoneMarkerSuffix rk id t own) /\
  (forall id t, pushes req resp = Some (id, t) -> marks localTxnPushMarkerSuffix rk id t own).
Proof.
  intros E Hrk. assert (forall suffix id t x rest, marks suffix rk id t (mkAdd (marker_key suffix rk id) [] t x :: rest)) as Hm by (intros; eexists; split; [apply list_elem_of_here|done]).
  destruct req; try (by split; [|done]); cbn [request_calls Header finishes pushes] in *; rewrite ?(tombstone_eq _ _ _ Hrk), ?(push_eq _ _ _ Hrk) in E; cbn [obind] in E.
  - split; [intros id t [= <- <-]|done]. destruct resp; try done. destruct ReplicatedLocksReleasedOnCommit; [by injection E as <-|]. cbn in E. destruct (br_Txn b); [|done]. by injection E as <-.
  - split; [intros id t [= <- <-]|done]. by injection E as <-.
  - destruct resp; try done. rewrite (tombstone_eq _ _ _ Hrk), (push_eq _ _ _ Hrk) in E. split; intros id t; (case_bool_decide as Es; [|done]); intros [= <- <-]; rewrite Es in E; by injection E as <-.
  - destruct resp; try (by split). rewrite (tombstone_eq _ _ _ Hrk) in E. split; [|done]. intros id t. destruct (TransactionStatus_IsFinalized _); [|done]. intros [= <- <-]. by injection E as <-.
Qed.

Lemma marks_recorded suffix rk txnID t own c c' : marks suffix rk txnID t own -> Forall (fun a => recorded a c) own -> cache_le c c' -> len (marker_key suffix rk txnID) < maxKeySize ->
  ts_le t (rv_ts (cache_value c' (marker_key suffix rk txnID))).
Proof.
  intros (a & Ha & E1 & E2 & E3) Ho Hle Hlen. rewrite <- E3. apply (val_le_ts (call_value a)). eapply val_le_trans; [|apply Hle]. apply (proj1 (Forall_forall _ _) Ho a Ha); [done|].
  rewrite E1, E2. unfold keys_cover. by rewrite decide_True.
Qed.

(** The answers are those of the marker's value. *)
Lemma CanCreateTxnRecord_spec leaseStart txnID txnKey rk txnMinTS c : cache_ok c -> MustAddr txnKey = Ret rk ->
  exists c' r, CanCreateTxnRecord leaseStart txnID txnKey txnMinTS c = Ret (c', r) /\ cache_ok c' /\ (forall k, cache_value c' k = cache_value c k) /\
    let v := cache_value c (marker_key localTxnTombstoneMarkerSuffix rk txnID) in
    (r = None <-> ts_lt (rv_ts v) txnMinTS) /\ (r = Some ABORT_REASON_RECORD_ALREADY_WRITTEN_POSSIBLE_REPLAY <-> ts_le txnMinTS (rv_ts v) /\ rv_txnID v = txnID).
Proof.
  intros Hc Hrk. unfold CanCreateTxnRecord. rewrite (tombstone_eq _ _ _ Hrk). cbn [obind].
  destruct (GetMax_law (marker_key localTxnTombstoneMarkerSuffix rk txnID) [] c Hc) as (c' & ts & x & E & O & V & _ & Hex & _). rewrite E. cbn [obind]. eexists c', _. split; [done|].
  split; [done|]. split; [done|]. cbn zeta. rewrite <- (Hex eq_refl). cbn [rv_ts rv_txnID]. unfold ts_lt. rewrite <- (Timestamp_LessEq_spec txnMinTS ts). destruct (Timestamp_LessEq txnMinTS ts); split.
  - by split.
  - case_bool_decide; [by split|]. case_bool_decide; [by split; [case_bool_decide|intros [_ ?]]|]. by split; [|intros [_ ?]].
  - by split.
  - by split; [|intros [? _]].
Qed.

Lemma MinTxnCommitTS_spec txnID txnKey rk c : cache_ok c -> MustAddr txnKey = Ret rk ->
  exists c', MinTxnCommitTS txnID txnKey c = Ret (c', rv_ts (cache_value c (marker_key localTxnPushMarkerSuffix rk txnID))) /\ cache_ok c' /\ forall k, cache_value c' k = cache_value c k.
Proof.
  intros Hc Hrk. unfold MinTxnCommitTS. rewrite (push_eq _ _ _ Hrk). cbn [obind].
  destruct (GetMax_law (marker_key localTxnPushMarkerSuffix rk txnID) [] c Hc) as (c' & ts & x & E & O & V & _ & Hex & _). rewrite E. cbn [obind]. exists c'. by rewrite <- (Hex eq_refl).
Qed.

Definition rejects (leaseStart : Timestamp) (txnID : UUID) (txnKey : buffer) (txnMinTS : Timestamp) c : Prop :=
  exists c' reason, CanCreateTxnRecord leaseStart txnID txnKey txnMinTS c = Ret (c', Some reason).

Lemma rejects_spec leaseStart txnID txnKey rk txnMinTS c : cache_ok c -> MustAddr txnKey = Ret rk ->
  rejects leaseStart txnID txnKey txnMinTS c <-> ts_le txnMinTS (rv_ts (cache_value c (marker_key localTxnTombstoneMarkerSuffix rk txnID))).
Proof.
  intros Hc Hrk. unfold rejects. destruct (CanCreateTxnRecord_spec leaseStart txnID txnKey rk txnMinTS c Hc Hrk) as (c' & r & -> & _ & _ & Hr & _). split.
  - intros (c1 & reason & [= -> ->]). destruct (decide (ts_le txnMinTS (rv_ts (cache_value c (marker_key localTxnTombstoneMarkerSuffix rk txnID))))) as [?|Hn]; [done|]. by apply Hr in Hn.
  - intros Hle. destruct r as [reason|]; [by exists c', reason|]. by destruct (proj1 Hr eq_refl).
Qed.


End batch.
