(* ===== verification/TsExamples.v ===== *)
(** * Examples of the use of the timestamp cache

    Instances of the theorems of ReadHandover, BatchReads and TsProtect at the cache of
    skip lists: a batch that gets a key and scans a span in part, whose reads move with
    the lease to another store. *)

From S2P Require Import Prelude Hlc Encoding EncodingOrder Keys KeysOrder ReadSummary NodeLiveness Lease LeaseApply EngineKeys Requests TsCache TsCachePage TsCacheSkl TsCacheSpec Cache.
From S2P Require Import ReplicaTsCache ReplicaTsCacheSpec ReadHandover BatchReads TsProtect.

(** ** Sorting *)

Definition not_after (less : ReadSpan -> ReadSpan -> bool) (u v : ReadSpan) : Prop := less v u = false.

#[local] Instance not_after_dec less : RelDecision (not_after less).
Proof. intros u v. unfold not_after. apply _. Defined.

Definition example_sort (less : ReadSpan -> ReadSpan -> bool) : list ReadSpan -> list ReadSpan := merge_sort (not_after less).

Lemma example_sort_perm less l : Permutation (example_sort less l) l.
Proof. apply merge_sort_Permutation. Qed.

Lemma example_sort_sorted less l : (less = readSpansByDecrTime \/ less = readSpansByKey) -> StronglySorted (fun u v => less v u = false) (example_sort less l).
Proof.
  intros Hless. assert (Transitive (not_after less) /\ Total (not_after less)) as [Ht Htot].
  { unfold not_after. destruct Hless as [-> | ->].
    - unfold readSpansByDecrTime. split; [intros u v w|intros u v]; rewrite <- !not_true_iff_false, !Timestamp_Less_spec; unfold ts_le; lia.
    - unfold readSpansByKey. split.
      + intros u v w. rewrite !Z.ltb_ge. pose proof (bytes_Compare_spec (sp_key v) (sp_key u)). pose proof (bytes_Compare_spec (sp_key w) (sp_key v)). pose proof (bytes_Compare_spec (sp_key w) (sp_key u)).
        intros. destruct (Z.le_gt_cases 0 (bytes_Compare (sp_key w) (sp_key u))) as [?|L]; [done|]. exfalso.
        assert (bytes_lt (sp_key w) (sp_key u)) by naive_solver. assert (~ bytes_lt (sp_key v) (sp_key u)) by naive_solver lia. assert (~ bytes_lt (sp_key w) (sp_key v)) by naive_solver lia. key_order.
      + intros u v. rewrite !Z.ltb_ge. pose proof (bytes_Compare_spec (sp_key v) (sp_key u)). pose proof (bytes_Compare_spec (sp_key u) (sp_key v)).
        destruct (bytes_lt_total (sp_key u) (sp_key v)) as [?|[?|?]]; naive_solver lia. }
  exact (StronglySorted_merge_sort (not_after less) l).
Qed.

(** ** A batch *)

Definition example_size (_ : Segment) : Z := 1000.
Definition example_span_size (_ : ReadSpan) : Z := 10.

(** The keys from "a" to "z". *)
Definition example_desc : RSpan := mkRSpan [97] [122].

Lemma example_desc_ok : desc_ok example_desc.
Proof. split; [by apply (bool_decide_unpack _); vm_compute..|]. left. lia. Qed.

Definition example_start : sklCache arena := mkSklCache (sklImpl_clear (mkTimestamp 5 0)) (fun _ _ => None) 0.

Lemma example_start_ok : cache_ok example_start.
Proof. apply example_cache. Qed.

Definition example_status : LeaseStatus := status_of_lease empty_Lease <| lst_State := VALID |>.
Definition example_txn (id : Z) (w : Z) (status : TransactionStatus) : Transaction := mkTransaction (replicate 16 id) [98] (mkTimestamp w 0) (mkTimestamp 8 0) status.

(** A get of "b", a scan of "c" to "f" that is to be resumed at "e", a heartbeat, and the
    push of another transaction. *)
Definition example_batch : BatchRequest :=
  mkBatchRequest (mkTimestamp 10 0) (Some (example_txn 1 12 PENDING)) Block CONSISTENT
    [GetRequest (mkKeySpan [98] []) None_ Unreplicated; ScanRequest (mkKeySpan [99] [102]) None_ Unreplicated KEY_VALUES; HeartbeatTxnRequest (mkKeySpan [98] []);
     PushTxnRequest (mkKeySpan [98] []) (example_txn 1 12 PENDING)].
Definition example_response : BatchResponse :=
  mkBatchResponse (mkTimestamp 10 0) (Some (example_txn 1 12 PENDING))
    [GetResponse true None; ScanResponse (mkScanResult [[99]] [] false (Some (mkKeySpan [101] [102]))); OtherResponse; PushTxnResponse (example_txn 2 20 PENDING)].

Lemma example_time w : 0 < w < MaxInt64 -> time_ok (mkTimestamp w 0).
Proof. intros Hw. split_and!; [unfold ts_lt, ts_le; cbn; lia|cbn; lia|done..]. Qed.

Lemma example_bytes (l : buffer) : bool_decide (Forall is_byte l) = true -> Forall is_byte l.
Proof. apply bool_decide_eq_true. Qed.

Lemma example_batch_ok : batch_ok false example_batch (Some example_response) None.
Proof.
  split; [by apply example_time|by apply example_bytes; vm_compute|]. intros i req Hi _. assert (anchor [98]) as Ha by (exists [98]; split; [by vm_compute|by apply example_bytes; vm_compute]).
  split.
  - do 4 (destruct i as [|i]; [injection Hi as <-; apply (bool_decide_unpack _); by vm_compute|]). done.
  - destruct i as [|[|[|[|i]]]]; [injection Hi as <-; eexists; split; [by vm_compute|]; change (skips_locked example_batch _) with false; cbn [reply_ok]..|done].
    + right. eexists _, _. split; [done|by left].
    + right. eexists. split; [done|]. intros resume [= <-]. split_and!; [done|by apply example_bytes; vm_compute|apply (bool_decide_unpack _); by vm_compute|apply (bool_decide_unpack _); by vm_compute].
    + done.
    + split; [done|]. eexists. split_and!; [done|by apply example_bytes; vm_compute|by apply example_time|by apply example_time].
Qed.



(** ** A lease that moves *)

Definition ret_or {A} (d : A) (o : outcome A) : A := match o with Ret a => a | Panic _ => d end.

(** The cache after the batch, what is collected of it, and the cache of another store to
    which this is applied. *)
Definition example_served : sklCache arena := ret_or example_start (endCmds_done false example_status example_status 1 example_batch (Some example_response) None example_start).
Definition example_collected : sklCache arena * option ReadSummary :=
  ret_or (example_start, None) (GetCurrentReadSummary example_size example_span_size example_sort example_desc 100 2000 (mkTimestamp 6 0) example_served).
Definition example_sum : ReadSummary := default (FromTimestamp zero_ts) (snd example_collected).
Definition example_taken : sklCache arena := ret_or example_start (apply_lease_summary example_desc (Some example_sum) example_start).

Lemma example_served_eq : endCmds_done false example_status example_status 1 example_batch (Some example_response) None example_start = Ret example_served.
Proof.
  destruct (endCmds_done_spec example_status example_status 1 example_batch (Some example_response) None example_start example_start_ok eq_refl eq_refl example_batch_ok) as (c' & E & _).
  unfold example_served. rewrite E. exact eq_refl.
Qed.

Lemma example_served_ok : cache_ok example_served.
Proof.
  destruct (endCmds_done_spec example_status example_status 1 example_batch (Some example_response) None example_start example_start_ok eq_refl eq_refl example_batch_ok) as (c' & E & O & _).
  unfold example_served. rewrite E. exact O.
Qed.

Lemma example_served_fits : cache_fits example_served.
Proof. intros k. apply floor_fits; [apply example_served_ok|by vm_compute]. Qed.

Lemma example_collected_eq : GetCurrentReadSummary example_size example_span_size example_sort example_desc 100 2000 (mkTimestamp 6 0) example_served = Ret (fst example_collected, Some example_sum) /\
  summary_fits example_sum.
Proof.
  destruct (GetCurrentReadSummary_spec example_size example_span_size example_sort example_sort_perm example_sort_sorted example_desc 100 2000 (mkTimestamp 6 0) example_served
    example_served_ok example_served_fits example_desc_ok) as (c' & s & E & _ & _ & Hf & _); [done|]. unfold example_sum, example_collected. rewrite E. split; [exact eq_refl|exact Hf].
Qed.

Lemma example_taken_eq : apply_lease_summary example_desc (Some example_sum) example_start = Ret example_taken /\ cache_ok example_taken.
Proof.
  destruct (apply_summary_spec example_desc example_sum example_start example_start_ok example_desc_ok (proj2 example_collected_eq)) as (c' & E & O & _).
  unfold example_taken. cbn [apply_lease_summary]. rewrite E. split; [exact eq_refl|exact O].
Qed.

Lemma example_taken_fits : cache_fits example_taken.
Proof. intros k. apply floor_fits; [apply example_taken_eq|by vm_compute]. Qed.

(** The replica 2 takes the lease of replica 1 over at 30. *)
Definition example_replica (id : Z) : Replica := mkReplica id id empty_Lease zero_ts zero_ts.
Definition example_lease (id seq start : Z) : Lease := empty_Lease <| l_Start := mkTimestamp start 0 |> <| l_Replica := mkReplicaDescriptor id id id VOTER_FULL |> <| l_Sequence := seq |>.

Lemma lease_keeps_reads_witness : exists c1' s c2', GetCurrentReadSummary example_size example_span_size example_sort example_desc 100 2000 (mkTimestamp 6 0) example_served = Ret (c1', Some s) /\
  leasePostApply false (example_lease 1 1 2) (example_lease 2 2 30) (Some s) (example_replica 2) (mkTimestamp 25 0) =
    Ret (example_replica 2 <| rp_minValidObservedTimestamp := mkTimestamp 30 0 |> <| rp_Lease := example_lease 2 2 30 |>, mkTimestamp 30 0, Some s) /\
  apply_lease_summary example_desc (Some s) example_start = Ret c2' /\ takes_over example_desc (mkTimestamp 6 0) example_served c2'.
Proof.
  destruct (lease_keeps_reads example_size example_span_size example_sort example_sort_perm example_sort_sorted example_desc 100 2000 (mkTimestamp 6 0) false (example_lease 1 1 2) (example_lease 2 2 30)
    (example_replica 2) (mkTimestamp 25 0) example_served example_start example_served_ok example_served_fits example_start_ok example_desc_ok) as (c1' & s & E & _ & _ & Hl & _); [done|done|].
  assert (leasePostApply false (example_lease 1 1 2) (example_lease 2 2 30) (Some s) (example_replica 2) (mkTimestamp 25 0) =
    Ret (example_replica 2 <| rp_minValidObservedTimestamp := mkTimestamp 30 0 |> <| rp_Lease := example_lease 2 2 30 |>, mkTimestamp 30 0, Some s)) as Ep by reflexivity.
  destruct (Hl _ _ _ Ep) as (c2' & E2 & _ & _ & T & _). exists c1', s, c2'. split_and!; [exact E|exact Ep|exact E2|exact T].
Defined.

Lemma merge_keeps_reads_witness : exists c1' s c3, GetCurrentReadSummary example_size example_span_size example_sort example_desc 0 0 (mkTimestamp 6 0) example_served = Ret (c1', Some s) /\
  MergeRange_tscache true false example_desc (mkTimestamp 25 0) (mkTimestamp 7 0) (Some s) example_start = Ret c3 /\ takes_over example_desc (mkTimestamp 6 0) example_served c3.
Proof.
  destruct (merge_keeps_reads example_size example_span_size example_sort example_sort_perm example_sort_sorted example_desc 0 0 (mkTimestamp 6 0) (mkTimestamp 25 0) (mkTimestamp 7 0) false
    example_served example_start example_served_ok example_served_fits example_start_ok example_desc_ok) as (c1' & s & c3 & c4 & E1 & E2 & _ & _ & _ & _ & _ & _ & _ & T); [done|done|done|].
  exists c1', s, c3. split_and!; [exact E1|exact E2|by apply T].
Defined.

(** ** A write on the new leaseholder *)

Definition example_put : BatchRequest := mkBatchRequest (mkTimestamp 9 0) None Block CONSISTENT [PutRequest (mkKeySpan [98] [])].
Definition example_range0 : range_state (C := sklCache arena) := mkRange (fun _ => example_start) (Held 0) [].
Definition example_calls : list add_call := ret_or [] (batch_calls false example_batch (Some example_response) None 0 (ba_Requests example_batch)).
Definition example_range1 : range_state := mkRange (set_cache example_range0 0 example_served) (Held 0) (example_calls ++ rg_reads example_range0).
Definition example_range2 : range_state := mkRange (set_cache example_range1 0 (fst example_collected)) (Moving example_sum) (rg_reads example_range1).
Definition example_range3 : range_state := mkRange (set_cache example_range2 1 example_taken) (Held 1) (rg_reads example_range2).

Lemma example_cache1 : rg_cache example_range1 0 = example_served.
Proof. exact (set_cache_same example_range0 0 example_served). Qed.

Lemma example_cache2 : rg_cache example_range2 1 = example_start.
Proof. reflexivity. Qed.

Lemma example_cache3 : rg_cache example_range3 1 = example_taken.
Proof. exact (set_cache_same example_range2 1 example_taken). Qed.

Lemma example_range_steps : rtc (range_step example_size example_span_size example_sort example_desc) example_range0 example_range3.
Proof.
  apply (rtc_l _ _ example_range1); [|apply (rtc_l _ _ example_range2); [|apply rtc_once]].
  - apply (step_serve _ _ _ _ example_range0 0%nat example_status example_status 1 example_batch (Some example_response) None example_calls example_served);
      [done|done|done|apply example_batch_ok|by vm_compute|apply example_served_eq].
  - apply (step_collect _ _ _ _ example_range1 0%nat 100 2000 (mkTimestamp 6 0)); [exact eq_refl|rewrite example_cache1; exact example_served_fits|done|].
    rewrite example_cache1. exact (proj1 example_collected_eq).
  - apply (step_take _ _ _ _ example_range2 1%nat example_sum); [exact eq_refl|]. rewrite example_cache2. exact (proj1 example_taken_eq).
Qed.

